(* ===== verification/_CoqProject ===== *)
-Q . S2P
Prelude.v
KStore.v
Ready.v
Census.v
Notif.v
Timer.v
Irq.v
Cdt.v
Aspace.v
Kinv.v
Refs.v
Channel.v
Thread.v
Events.v
Cspace.v
Fifo.v
Untyped.v
Retype.v
Arena.v
Sched.v
Sysabi.v
Syscall.v
Execute.v
Boot.v
Scenarios.v
Theorems.v
EventTheorems.v
SystemTheorems.v
Bytes.v
Dev.v
BTree.v
Disk.v
Recovery.v
Prolly.v
ChunkStore.v
Extents.v
ChunkProofs.v
ProllyTree.v
Overlay.v
Chunker.v
File.v
Tree.v
Gc.v
Engine.v
StoreOps.v
CommitProofs.v
EngineProofs.v
CommitAtomic.v
LogAppend.v
FormatProofs.v
BatchProofs.v
EngineTheorems.v
StorageServer.v
ServerProofs.v
RevokeProofs.v
ServerTheorems.v
CasTheorems.v
FsTheorems.v
Freelist.v
DmaPool.v
AllocTheorems.v
Startup.v
Loader.v
Slots.v
Ipc.v
UserTheorems.v
