(* ===== verification/Prelude.v ===== *)
(** * Eunomia: the microkernel, the content-addressed store, its server and the user runtime

    Eunomia is a capability microkernel for AArch64 with a user-space storage service. This
    library models five of its parts and proves what makes each of them correct.

    ** The program and how its parts interact

    - The kernel. [src/kcore] holds the logic, generic over a [Store] trait: capability
      slots linked in a derivation tree, reference-counted objects (address spaces, CSpaces,
      threads, channels, notifications, timers, interrupt handlers), untyped memory and
      system call decoding. [src/kernel] implements [Store] on raw memory, runs one system
      call or interrupt at a time, and switches threads on the way out. User code reaches it
      only through exceptions.
    - The store. [src/cas] keeps directories as prolly trees of immutable objects named by
      their BLAKE3 digest, file contents as content-defined chunks, and the state of each
      ref not yet flushed in an overlay that is also logged in a write-ahead log. A commit
      writes one of two superblocks; a mount picks the survivor and replays the log.
      [src/storage-server] serves it: sessions of handles with rights, each on a subtree of
      a live ref or on a snapshot, and one request at a time.
    - The allocators. [src/freelist] is the extent list under the DMA pool ([src/dma-pool])
      and the user heap ([src/urt]).
    - The user runtime. [src/loader] maps a program's ELF image with system calls and hands
      it a startup block; [src/urt] gives out capability slots; [src/ipc] connects a client
      to a server with a version and a window, and waits on many channels through one
      notification.

    ** Files

    Shared: [Prelude] (machine integers, the panic/fuel outcome and its state monad, list
    and map lemmas, tactics), [Bytes] (little-endian integers, strict readers, what it means
    for a parser to accept exactly an encoding), [BTree] (ordered maps in key order).

    Kernel:
    - [KStore]: [kcore/src/id.rs], the data of [cspace.rs] and of the objects, the [Store]
      accessors as [kernel/src/store.rs] implements them. The state is one record of maps
      from handles to object records, plus the trace of device operations.
    - [Ready], [Notif], [Timer], [Irq], [Cdt], [Aspace], [Channel], [Thread], [Untyped]: the
      operations of the file of the same name ([Cdt] is the linked tree of [cspace.rs]);
      each has an abstract view (lists of threads, forests of slots, a partial map of pages,
      ...) that the operations are proved against. [Refs] and [Cspace] are the rest of
      [cspace.rs]: reference counts, derive, delete, revoke. [Retype] is object creation
      ([kernel/src/untyped.rs]).
    - [Census] counts who holds a reference on an object; [Kinv] is the invariant of the
      store (tree, counts, queues, armed timers, object shapes); [Events] has the operations
      on timers, interrupts and notifications keep it; [Fifo] is the view of a channel ring
      as a queue of messages.
    - [Sysabi] is [kcore/src/sysabi.rs]; [Sched] and [Syscall] are [kernel/src/thread.rs],
      [syscall.rs], [exceptions.rs] with user memory read through the page tables; [Arena]
      is the invariant between exceptions, [Execute] that every exception keeps it, [Boot]
      the state [kernel_main] enters user code with.
    - [Scenarios] holds concrete stores; [Theorems], [EventTheorems] and [SystemTheorems]
      hold the properties.

    Store ([src/cas/src]):
    - [Disk]: [disk.rs], the superblock, index, log record, ref table and chunk formats.
    - [Recovery]: the decisions of [store.rs] about slots, the log head and the replay.
    - [Prolly], [ProllyTree]: [prolly.rs] and [tlv.rs], directory entries and nodes, save,
      load and diff against any store that satisfies the class [StoreLaws].
    - [Overlay]: [overlay.rs]. [Chunker]: [chunk.rs]. [File]: [file.rs]. [Tree]: [tree.rs].
      [Gc]: [gc.rs].
    - [Dev]: the devices of [dev.rs], a failing and crashing one included, and the relation
      of the images a crash may leave.
    - [ChunkStore]: [ChunkStore] of [store.rs]. [Engine]: commit, flush, the log ring and
      its pressure relief, format, mount. [StoreOps]: refs, snapshots, tags, paths, handles,
      batches and the collector's sweep.
    - [Extents] and [ChunkProofs]: disjointness of extents, and what allocation, put and the
      index frame do to a device. [CommitProofs]: what a commit is in an image, and that a
      mount reads it back. [EngineProofs]: the invariant of the running engine.
      [CommitAtomic], [LogAppend], [FormatProofs], [BatchProofs]: commit, append, format and
      the guarded batch against that invariant.
    - [CasTheorems] and [FsTheorems] hold the properties, [EngineTheorems] those of the
      engine.

    Allocators: [Freelist], [DmaPool] (with the user heap), [AllocTheorems].

    Storage server ([src/storage-server/src]): [StorageServer] is [lib.rs], a server record
    over the engine's store, one definition per request, and the header of [wire.rs].
    [ServerProofs]: what each request keeps. [RevokeProofs]: generations of refs only grow.
    [ServerTheorems] holds the properties.

    User runtime: [Startup] and [Loader] are [loader/src/startup.rs], [elf.rs] and
    [spawn.rs]; [Slots] is [urt/src/slots.rs]; [Ipc] is [header.rs], [wire.rs], [session.rs]
    and [reactor.rs] of [src/ipc/src]. [UserTheorems] holds the properties.

    ** What the theorems show

    - The machine boots into the kernel invariant; every interrupt and every fault, and
      every system call that keeps to a discipline, returns without a panic and restores it
      (C1, C2, C3). The discipline is [sync_ok]: pairwise different message slots, no live
      object in memory carved for a new one, room in the counters. The kernel does not check
      it, and a call outside it can break the invariant ([recv_duplicate_breaks]). Deletion
      and revocation end and remove what they name (C13, C14, C36), a revocation all its
      descendants unless it empties the revoked slot itself; retyping, copying, message
      passing and page mapping do exactly what they are for (C23 to C26); the scheduler and
      the decoder likewise (C37, C38). The timers' expiry walk, successive carvings and the
      user-range check have their theorems in [EventTheorems] and [Theorems].
    - The storage engine, on a device that fails and crashes at will: a commit is atomic
      (C4), an acknowledged operation is durable (C5), both under what the code relies on
      and does not check ([commit_ready], [append_ready]); a formatted store is the empty
      one with whatever operations the old log region holds (C8), a batch of edits is a
      compare-and-swap (C9), a put stays in its bounds and keeps every object (C22).
      Recovery replays exactly the maximal run of valid records, and advancing the head
      loses none that is not flushed (C6, C7).
    - The storage server, with the sweeps and collections [storaged] runs between requests:
      every handle and ticket of every run derives from a grant (C10), revocation is
      immediate and final (C11), a session without the rights to change the store does not
      (C12).
    - The formats decode to what was encoded (C35). Directories save and load, have one root
      per content, and load totally on arbitrary bytes (C17, C33, C32), and [diff] lists
      exactly what differs (C39). Overlay writes, chunking, re-chunking, nested puts and
      removes and the mark walk are exact against their references (C15, C16, C18 to C21,
      C34). The overlay is well-formed after any operations, and passes all of
      [check_invariants] when writes carry data and no rename lands on an open name; the
      mark walk needs every hash to be used in one role.
    - Allocation is first fit inside free space and freeing undoes it; live buffers are
      private arrays (C30, C31).
    - The user runtime: the loader makes exactly the calls its plan lists, up to the first
      one the kernel refuses (C27); the startup block reads back (C28); slot ranges are
      lowest-first and exact (C29); a server's window quota is never exceeded and admits
      exactly what fits (C40). [Ipc] has the codecs, the negotiation and the reactor.
    - [SystemTheorems], [FsTheorems], [EngineTheorems] and [ServerTheorems] also hold runs
      that show where the code stops short of what its comments say, such as
      [recv_duplicate_breaks], [revoke_zombie], [overlay_empty_write_truncates],
      [mark_misses_directory], [replay_undoes_commit], [log_forged_by_data],
      [reformat_replays_old_log] and [bad_class_bricks_store].

    ** Fuel and bounds

    A [while] loop takes fuel, and [NoFuel] is an outcome no theorem about what an operation
    does allows; the safety theorems of the server are about the steps that return. Kernel
    loops are given a number of steps the invariant bounds (queue lengths, occupied slots,
    pages of a range), and the theorems prove it is enough. [Dir::save] stops at 256 levels
    as the code does and loads at depth 257; the relief of log pressure takes one step per
    record of the log plus one (where the ref that pins the log has no overlay left the code
    loops on, and no theorem is stated of it); recovery takes one step per log byte plus
    one; the chunker one per byte; the mark walk one per stored object plus one; the reactor
    claims the bits of a word in at most 64 steps. File ids and reference counts of the
    overlay are unbounded counters.

    ** Parameters

    The digest is a function to 32 bytes (class [HashLaws]); where a result depends on the
    absence of a collision the two objects that must not collide are named in a hypothesis.
    Directory code is proved against the class of object stores. The kernel's answers to the
    loader's calls, the transport's answers and the postcard codec are arguments. In the
    kernel, the compiler's object sizes, the contents of fresh memory and init's ELF image
    are arguments.

    ** Not modelled

    - [FileDev] of [cas/src/dev.rs]: host file I/O. Debug assertions of the engine, and the
      accessors that only hand out a reference ([refs], [dev_mut], [into_dev]).
    - The postcard codec of message bodies (third-party).
    - The endpoint and transport of [src/ipc], threads, time, thread-local storage and the
      random stream of [src/urt], and [src/eunomia-sys]: system call stubs and glue around
      the modelled parts.
    - Machine bring-up, device registers and assembly in [src/kernel]; the virtio driver,
      [mkfs] and the user programs: device I/O and glue around the modelled parts.
*)

From stdpp Require Export base numbers list gmap fin_maps functions sorting.
From Stdlib Require Export ZArith Lia.

#[global] Open Scope Z_scope.
#[global] Set Default Proof Using "Type".

(** ** Machine integers

    A [w]-bit unsigned integer is a [Z] in [[0, 2^w)]. *)

Definition U8_MAX : Z := 255.
Definition U16_MAX : Z := 65535.
Definition U32_MAX : Z := 4294967295.
Definition U64_MAX : Z := 18446744073709551615.

(** [x as u8], [x as u16], [x as u32]: truncation to the low bits. *)
Definition as_u8 (x : Z) : Z := x mod 256.
Definition as_u16 (x : Z) : Z := x mod 65536.
Definition as_u32 (x : Z) : Z := x mod 4294967296.

(** [u64::checked_add] and [u64::checked_mul]. *)
Definition checked_add (a b : Z) : option Z :=
  if decide (a + b ≤ U64_MAX) then Some (a + b) else None.
Definition checked_mul (a b : Z) : option Z :=
  if decide (a * b ≤ U64_MAX) then Some (a * b) else None.

(** [u64::saturating_add] and [u64::saturating_mul]. *)
Definition saturating_add (a b : Z) : Z := Z.min (a + b) U64_MAX.
Definition saturating_mul (a b : Z) : Z := Z.min (a * b) U64_MAX.

(** ** Computations that can panic or run out of loop fuel

    Kernel code is run against a state; an arithmetic overflow (the [dev]
    profile keeps Rust's overflow checks), an out-of-range array index or an
    [unwrap] of [None] aborts with [Panic]; a [while] loop is unrolled a bounded
    number of times and reports [NoFuel] when the bound is too small. *)

Inductive outcome (A : Type) : Type :=
| Ret (a : A)
| Panic
| NoFuel.
Arguments Ret {A} a.
Arguments Panic {A}.
Arguments NoFuel {A}.

Definition comp (S A : Type) : Type := S → outcome (A * S).

#[global] Instance comp_ret (S : Type) : MRet (comp S) := λ A a s, Ret (a, s).
#[global] Instance comp_bind (S : Type) : MBind (comp S) := λ A B f m s,
  match m s with
  | Ret (a, s') => f a s'
  | Panic => Panic
  | NoFuel => NoFuel
  end.

Definition gets {S A : Type} (f : S → A) : comp S A := λ s, Ret (f s, s).
Definition modify {S : Type} (f : S → S) : comp S unit := λ s, Ret (tt, f s).
Definition panic {S A : Type} : comp S A := λ _, Panic.
Definition nofuel {S A : Type} : comp S A := λ _, NoFuel.

(** [a[i]] on an array of the state: out of range panics. *)
Definition index {S A : Type} (l : list A) (i : nat) : comp S A :=
  match l !! i with Some x => mret x | None => panic end.
(** [a[i] = v] on a fixed-size array: out of range panics. *)
Definition set_index {S A : Type} (l : list A) (i : nat) (v : A) : comp S (list A) :=
  if decide (i < length l)%nat then mret (<[i := v]> l) else panic.
(** [o.unwrap()]. *)
Definition unwrap {S A : Type} (o : option A) : comp S A :=
  match o with Some x => mret x | None => panic end.
(** [a + b], [a * b] and [a - b] at width [max], with Rust's overflow check. *)
Definition uadd {S : Type} (max a b : Z) : comp S Z :=
  if decide (a + b ≤ max) then mret (a + b) else panic.
Definition umul {S : Type} (max a b : Z) : comp S Z :=
  if decide (a * b ≤ max) then mret (a * b) else panic.
Definition usub {S : Type} (a b : Z) : comp S Z :=
  if decide (b ≤ a) then mret (a - b) else panic.
Definition when_ {S : Type} (b : bool) (m : comp S unit) : comp S unit :=
  if b then m else mret tt.

(** [a % b]: a zero divisor panics. *)
Definition umod {S : Type} (a b : Z) : comp S Z :=
  if decide (b = 0) then panic else mret (a mod b).
(** [for i in i..i+n { f(i) }] *)
Fixpoint for_from {S : Type} (i n : nat) (f : nat → comp S unit) : comp S unit :=
  match n with
  | O => mret tt
  | Datatypes.S n' => f i;; for_from (Datatypes.S i) n' f
  end.

(** [Result<A, E>]. *)
Inductive result (A E : Type) : Type :=
| Ok (a : A)
| Err (e : E).
Arguments Ok {A E} a.
Arguments Err {A E} e.

(** Total correctness: [m] returns from [s], and its result satisfies [Q]. *)
Definition wp {S A : Type} (m : comp S A) (Q : A → S → Prop) (s : S) : Prop :=
  match m s with
  | Ret (a, s') => Q a s'
  | Panic => False
  | NoFuel => False
  end.

(** ** Walking a singly linked chain

    The loop shape shared by the ready queues, the notification wait queues and
    the armed-timer list:
    [while let Some(c) = cur { if c == t { found(prev); return } prev = cur; cur = next(c) }]. *)
Section walk.
Context {S Id : Type} `{EqDecision Id}.

Fixpoint walk_until (fuel : nat) (next : Id → S → option Id) (t : Id)
    (cur prev : option Id) (found : option Id → comp S unit) : comp S unit :=
  λ s,
    match cur with
    | None => Ret (tt, s)
    | Some c =>
        match fuel with
        | O => NoFuel
        | Datatypes.S fuel' =>
            if decide (c = t) then found prev s
            else walk_until fuel' next t (next c s) cur found s
        end
    end.
End walk.

(** [chain next h l]: starting at [h] and following [next] visits exactly [l]. *)
Fixpoint chain {Id : Type} (next : Id → option Id) (h : option Id) (l : list Id) : Prop :=
  match l with
  | [] => h = None
  | x :: l' => h = Some x ∧ chain next (next x) l'
  end.

(** [queue next head tail l]: a head/tail queue threaded by [next] holding [l]. *)
Definition queue {Id : Type} (next : Id → option Id) (head tail : option Id) (l : list Id) : Prop :=
  chain next head l ∧ tail = last l.

(** ** Sums over finite maps *)
Definition msum {K : Type} `{Countable K} {V : Type} (f : V → Z) (m : gmap K V) : Z :=
  map_fold (λ _ v acc, f v + acc) 0 m.

(** [1] when the proposition holds, else [0]. *)
Definition ind (P : Prop) `{Decision P} : Z := if decide P then 1 else 0.

(** ** Lemmas: total correctness *)
Section wp_lemmas.
Context {S A B : Type}.
Implicit Types (s : S).

Lemma wp_ret (a : A) Q s : wp (mret a) Q s = Q a s.
Proof. reflexivity. Qed.

Lemma wp_bind (m : comp S A) (f : A → comp S B) Q s :
  wp (m ≫= f) Q s = wp m (λ a s', wp (f a) Q s') s.
Proof. unfold wp, mbind, comp_bind. by destruct (m s) as [[a s']| |]. Qed.

Lemma wp_gets (f : S → A) Q s : wp (gets f) Q s = Q (f s) s.
Proof. reflexivity. Qed.

Lemma wp_modify (f : S → S) Q s : wp (modify f) Q s = Q tt (f s).
Proof. reflexivity. Qed.

Lemma wp_index (l : list A) i x Q s : l !! i = Some x → Q x s → wp (index l i) Q s.
Proof. intros E H. unfold index. by rewrite E. Qed.

Lemma wp_unwrap (o : option A) x Q s : o = Some x → Q x s → wp (unwrap o) Q s.
Proof. intros -> H. exact H. Qed.

Lemma wp_uadd max a b (Q : Z → S → Prop) s : a + b ≤ max → Q (a + b) s → wp (uadd max a b) Q s.
Proof. intros Hle H. unfold uadd. by rewrite decide_True. Qed.

Lemma wp_umul max a b (Q : Z → S → Prop) s : a * b ≤ max → Q (a * b) s → wp (umul max a b) Q s.
Proof. intros Hle H. unfold umul. by rewrite decide_True. Qed.

Lemma wp_set_index (l : list A) i v Q s :
  (i < length l)%nat → Q (<[i := v]> l) s → wp (set_index l i v) Q s.
Proof. intros Hle H. unfold set_index. by rewrite decide_True. Qed.

Lemma wp_usub a b (Q : Z → S → Prop) s : b ≤ a → Q (a - b) s → wp (usub a b) Q s.
Proof. intros Hle H. unfold usub. by rewrite decide_True. Qed.

Lemma wp_mono (m : comp S A) (Q Q' : A → S → Prop) s :
  wp m Q s → (∀ a s', Q a s' → Q' a s') → wp m Q' s.
Proof. unfold wp. destruct (m s) as [[a s']| |]; auto. Qed.

Lemma wp_inv (m : comp S A) Q s : wp m Q s → ∃ a s', m s = Ret (a, s') ∧ Q a s'.
Proof. unfold wp. destruct (m s) as [[a s']| |]; [eauto|done|done]. Qed.

Lemma wp_of_eq (m : comp S A) Q s a s' : m s = Ret (a, s') → Q a s' → wp m Q s.
Proof. unfold wp. by intros ->. Qed.

Lemma wp_run (m m' : comp S A) Q s s' : m s = m' s' → wp m' Q s' → wp m Q s.
Proof. unfold wp. by intros ->. Qed.

Lemma bind_ret (m : comp S A) (f : A → comp S B) s a s' :
  m s = Ret (a, s') → (m ≫= f) s = f a s'.
Proof. unfold mbind, comp_bind. by intros ->. Qed.
End wp_lemmas.

(** A loop keeps an invariant its body keeps. *)
Lemma wp_for {S : Type} (Inv : nat → S → Prop) (f : nat → comp S unit) i n s :
  (∀ j s, (i ≤ j < i + n)%nat → Inv j s → wp (f j) (λ _ s', Inv (Datatypes.S j) s') s) →
  Inv i s → wp (for_from i n f) (λ _ s', Inv (i + n)%nat s') s.
Proof.
  revert i s. induction n as [|n IH]; intros i s Hf Hi; simpl.
  { rewrite wp_ret. by rewrite Nat.add_0_r. }
  rewrite wp_bind. eapply wp_mono; [apply Hf; [lia|done]|]. cbv beta. intros _ s' Hs'.
  replace (i + Datatypes.S n)%nat with (Datatypes.S i + n)%nat by lia.
  apply IH; [|done]. intros j s2 Hj. apply Hf. lia.
Qed.

Lemma wp_when {S : Type} (b : bool) (m : comp S unit) Q s :
  wp (when_ b m) Q s = if b then wp m Q s else Q tt s.
Proof. by destruct b. Qed.

(** ** Lemmas: chains and queues *)
Section chain_lemmas.
Context {Id : Type}.
Implicit Types (next : Id → option Id) (h : option Id) (l : list Id).

Lemma chain_head next h l : chain next h l → h = head l.
Proof. destruct l; simpl; [done|]. by intros [-> _]. Qed.

Lemma chain_lookup next h l :
  chain next h l ↔ h = head l ∧ (∀ i x, l !! i = Some x → next x = l !! Datatypes.S i).
Proof.
  revert h. induction l as [|y l IH]; intros h; simpl.
  - split; [intros ->; done|by intros [-> _]].
  - rewrite IH. split.
    + intros (-> & Hn & Hl). split; [done|].
      intros [|i] x ?; simplify_eq/=; [by rewrite Hn; destruct l|by apply Hl].
    + intros (-> & Hl). split; [done|]. split.
      * rewrite (Hl 0%nat y eq_refl). by destruct l.
      * intros i x Hx. apply (Hl (Datatypes.S i)). exact Hx.
Qed.

Lemma chain_ext next next' h l :
  (∀ x, x ∈ l → next' x = next x) → chain next h l → chain next' h l.
Proof.
  revert h. induction l as [|y l IH]; intros h Hext; simpl; [done|].
  intros [-> Hc]. split; [done|]. rewrite (Hext y) by set_solver.
  apply IH; [|done]. intros x ?. apply Hext. set_solver.
Qed.

Lemma chain_inj next h l1 l2 : chain next h l1 → chain next h l2 → l1 = l2.
Proof.
  revert h l2. induction l1 as [|x l1 IH]; intros h [|y l2]; simpl; [done| | |].
  - by intros -> [? _].
  - by intros [-> _] ?.
  - intros [-> H1] [Heq H2]. injection Heq as ->. f_equal. eauto.
Qed.

Lemma chain_drop next h l i :
  chain next h l → chain next (l !! i) (drop i l).
Proof.
  rewrite !chain_lookup. intros [_ Hl]. split.
  - rewrite head_lookup, lookup_drop. f_equal. lia.
  - intros j x. rewrite !lookup_drop. intros Hx. apply Hl in Hx.
    rewrite Hx. f_equal. lia.
Qed.

Lemma chain_NoDup next h l : chain next h l → NoDup l.
Proof.
  intros Hc. apply NoDup_alt. intros i j x Hi Hj.
  assert (drop i l = drop j l) as Heq.
  { pose proof (chain_drop _ _ _ i Hc) as Ci. pose proof (chain_drop _ _ _ j Hc) as Cj.
    rewrite Hi in Ci. rewrite Hj in Cj. eapply chain_inj; eauto. }
  apply (f_equal length) in Heq. rewrite !length_drop in Heq.
  apply lookup_lt_Some in Hi, Hj. lia.
Qed.

Lemma chain_cons_inv next h x l : chain next h (x :: l) → h = Some x ∧ chain next (next x) l.
Proof. done. Qed.

Lemma chain_None next l : chain next None l → l = [].
Proof. destruct l; [done|]. by intros [? _]. Qed.
End chain_lemmas.

Section queue_lemmas.
Context {Id : Type} `{EqDecision Id}.
Implicit Types (next : Id → option Id) (h t : option Id) (l : list Id).

(** Appending [x] behind the tail. *)
Lemma chain_snoc next next' h l x :
  chain next h l → x ∉ l → next' x = None →
  (∀ y, last l = Some y → next' y = Some x) →
  (∀ y, y ∈ l → last l ≠ Some y → next' y = next y) →
  chain next' (match l with [] => Some x | _ => h end) (l ++ [x]).
Proof.
  revert h. induction l as [|y l IH]; intros h Hc Hx Hn Hlast Hrest; simpl.
  { by split. }
  destruct Hc as [-> Hc]. split; [done|].
  destruct l as [|z l]; simpl in *.
  - split; [by apply Hlast|done].
  - destruct Hc as [Hny Hc].
    rewrite Hrest; [|set_solver|].
    + apply (IH (next y)); [by rewrite Hny|set_solver|done|done|].
      intros w Hw ?. apply Hrest; [set_solver|done].
    + intros Heq. change (last (z :: l) = Some y) in Heq.
      apply chain_NoDup in Hc as HN. simpl in HN.
      assert (y ∈ z :: l) by (apply last_Some in Heq as [l' ->]; set_solver).
      assert (NoDup (y :: z :: l)) as HN2 by (apply (chain_NoDup next (Some y)); by split).
      apply NoDup_cons in HN2 as [? _]. done.
Qed.

(** Splicing [x] out: its predecessor is linked to its successor. *)
Lemma chain_remove next next' h l1 x l2 :
  chain next h (l1 ++ x :: l2) →
  (∀ p, last l1 = Some p → next' p = next x) →
  (∀ y, y ∈ l1 ++ l2 → last l1 ≠ Some y → next' y = next y) →
  chain next' (match l1 with [] => next x | _ => h end) (l1 ++ l2).
Proof.
  revert h. induction l1 as [|y l1 IH]; intros h Hc Hp Hrest; simpl.
  { destruct Hc as [-> Hc].
    eapply chain_ext; [|exact Hc]. intros z ?. apply Hrest; set_solver. }
  destruct Hc as [-> Hc]. split; [done|].
  destruct l1 as [|z l1].
  - simpl in *. rewrite (Hp y) by done. destruct Hc as [Hy Hc].
    eapply chain_ext; [|exact Hc]. intros w Hw. apply Hrest; [set_solver|].
    intros [= ->]. assert (NoDup (w :: x :: l2)) as HN by (by apply (chain_NoDup next (Some w))).
    apply NoDup_cons in HN as [HN _]. set_solver.
  - assert (NoDup (y :: (z :: l1) ++ x :: l2)) as HN by (by apply (chain_NoDup next (Some y))).
    apply NoDup_cons in HN as [Hynin _].
    rewrite Hrest; [|set_solver|].
    + apply (IH (next y)); [done|by intros p Hl; apply Hp|].
      intros w Hw ?. apply Hrest; [set_solver|done].
    + intros Heq. change (last (z :: l1) = Some y) in Heq. apply Hynin.
      apply last_Some in Heq as [l' ->]. set_solver.
Qed.

Lemma last_in l x : last l = Some x → x ∈ l.
Proof. intros [l' ->]%last_Some. set_solver. Qed.

Lemma queue_snoc next next' h t l x :
  queue next h t l → x ∉ l → next' x = None →
  (∀ y, t = Some y → next' y = Some x) →
  (∀ y, y ∈ l → t ≠ Some y → next' y = next y) →
  queue next' (match t with None => Some x | Some _ => h end) (Some x) (l ++ [x]).
Proof.
  intros [Hc ->] Hx Hn Hlast Hrest. split; [|by rewrite last_snoc].
  pose proof (chain_snoc next next' h l x Hc Hx Hn Hlast Hrest) as Hs.
  destruct (last l) as [y|] eqn:E.
  - by destruct l.
  - by apply last_None in E as ->.
Qed.

Lemma queue_remove next next' h t l1 x l2 :
  queue next h t (l1 ++ x :: l2) →
  (∀ p, last l1 = Some p → next' p = next x) →
  (∀ y, y ∈ l1 ++ l2 → last l1 ≠ Some y → next' y = next y) →
  queue next' (match last l1 with None => next x | Some _ => h end)
    (if decide (t = Some x) then last l1 else t) (l1 ++ l2).
Proof.
  intros [Hc ->] Hp Hrest. pose proof (chain_NoDup _ _ _ Hc) as HN. split.
  - pose proof (chain_remove _ next' _ _ _ _ Hc Hp Hrest) as Hs.
    destruct (last l1) as [y|] eqn:E.
    + by destruct l1.
    + by apply last_None in E as ->.
  - rewrite last_app_cons, last_cons. destruct (last l2) as [y|] eqn:E.
    + rewrite decide_False.
      * by rewrite last_app, E.
      * intros [= ->]. apply last_in in E. apply NoDup_app in HN as (_ & _ & HN).
        apply NoDup_cons in HN as [? _]. done.
    + rewrite decide_True by done. apply last_None in E as ->. by rewrite app_nil_r.
Qed.

Lemma queue_pop next h t x l :
  queue next h t (x :: l) →
  h = Some x ∧ queue next (next x) (match next x with None => None | Some _ => t end) l.
Proof.
  intros [[-> Hc] ->]. split; [done|]. split; [done|].
  rewrite (chain_head _ _ _ Hc). destruct l; done.
Qed.

Lemma queue_ext next next' h t l :
  (∀ x, x ∈ l → next' x = next x) → queue next h t l → queue next' h t l.
Proof. intros Hext [Hc ->]. split; [|done]. by eapply chain_ext. Qed.

Lemma queue_tail_None next h l : queue next h None l → l = [].
Proof. intros [_ Ht]. symmetry in Ht. by apply last_None. Qed.

Lemma queue_tail_in next h y l : queue next h (Some y) l → y ∈ l.
Proof. intros [_ Ht]. by apply last_in. Qed.

Lemma queue_head next h t l : queue next h t l → h = head l.
Proof. intros [Hc _]. by eapply chain_head. Qed.

(** The bounded walk reaches [t] with the predecessor in hand. *)
Lemma walk_until_found {S : Type} (next : Id → S → option Id) (t : Id) (found : option Id → comp S unit)
    l1 l2 fuel cur prev (s : S) :
  chain (λ c, next c s) cur (l1 ++ t :: l2) → (length l1 < fuel)%nat →
  walk_until fuel next t cur prev found s =
    found (match last l1 with Some p => Some p | None => prev end) s.
Proof.
  revert fuel cur prev. induction l1 as [|y l1 IH]; intros [|fuel] cur prev Hc Hf; simpl in *; [lia| |lia|].
  - destruct Hc as [-> Hc]. by rewrite decide_True.
  - destruct Hc as [-> Hc]. rewrite decide_False.
    + rewrite (IH fuel _ (Some y) Hc) by lia. rewrite last_cons. by destruct (last l1).
    + intros ->. assert (NoDup (t :: l1 ++ t :: l2)) as HN
        by (apply (chain_NoDup (λ c, next c s) (Some t)); by split).
      apply NoDup_cons in HN as [HN _]. set_solver.
Qed.

Lemma walk_until_missing {S : Type} (next : Id → S → option Id) (t : Id) (found : option Id → comp S unit)
    l fuel cur prev (s : S) :
  chain (λ c, next c s) cur l → t ∉ l → (length l ≤ fuel)%nat →
  walk_until fuel next t cur prev found s = Ret (tt, s).
Proof.
  revert fuel cur prev. induction l as [|y l IH]; intros fuel cur prev Hc Ht Hf; simpl in *.
  - subst cur. by destruct fuel.
  - destruct fuel as [|fuel]; [lia|]. destruct Hc as [-> Hc]. simpl.
    rewrite decide_False by set_solver. apply IH; [done|set_solver|lia].
Qed.

Lemma wp_walk_found {S : Type} (next : Id → S → option Id) (t : Id) (found : option Id → comp S unit)
    l1 l2 fuel cur Q (s : S) :
  chain (λ c, next c s) cur (l1 ++ t :: l2) → (length (l1 ++ t :: l2) ≤ fuel)%nat →
  wp (found (last l1)) Q s → wp (walk_until fuel next t cur None found) Q s.
Proof.
  intros Hc Hf H. rewrite length_app in Hf. simpl in Hf. unfold wp.
  rewrite (walk_until_found next t found l1 l2) by (done || lia). by destruct (last l1).
Qed.
End queue_lemmas.

(** ** Lemmas: finite maps read with a default, and sums over them *)
Section msum_lemmas.
Context {K : Type} `{Countable K} {V : Type} `{Inhabited V}.
Implicit Types (m : gmap K V) (f : V → Z).

Lemma msum_empty f : msum f (∅ : gmap K V) = 0.
Proof. apply map_fold_empty. Qed.

Lemma msum_insert_None f m k v : m !! k = None → msum f (<[k:=v]> m) = f v + msum f m.
Proof.
  intros Hk. unfold msum.
  apply (map_fold_insert_L (λ _ v acc, f v + acc)); [|done]. intros. lia.
Qed.

Lemma msum_delete f m k v : m !! k = Some v → msum f m = f v + msum f (delete k m).
Proof.
  intros Hk. rewrite <-(insert_delete_id m k v Hk) at 1.
  apply msum_insert_None. apply lookup_delete_eq.
Qed.

Lemma msum_insert f m k v :
  f inhabitant = 0 → msum f (<[k:=v]> m) = msum f m - f (m !!! k) + f v.
Proof.
  intros Hd. unfold lookup_total, map_lookup_total. destruct (m !! k) as [w|] eqn:E; simpl.
  - rewrite <-(insert_delete_eq m k v). rewrite msum_insert_None by apply lookup_delete_eq.
    rewrite (msum_delete f m k w E). lia.
  - rewrite msum_insert_None by done. lia.
Qed.

Lemma msum_nonneg f m : (∀ v, 0 ≤ f v) → 0 ≤ msum f m.
Proof.
  intros Hf. unfold msum. apply (map_fold_weak_ind (λ r _, 0 ≤ r)); [done|].
  intros k v m' r _ Hr. specialize (Hf v). lia.
Qed.

Lemma msum_lower f m k : (∀ v, 0 ≤ f v) → f inhabitant = 0 → f (m !!! k) ≤ msum f m.
Proof.
  intros Hf Hd. unfold lookup_total, map_lookup_total. destruct (m !! k) as [w|] eqn:E; simpl.
  - rewrite (msum_delete f m k w E). pose proof (msum_nonneg f (delete k m) Hf). lia.
  - rewrite Hd. by apply msum_nonneg.
Qed.

Lemma lookup_total_default m k v : m !! k = Some v → m !!! k = v.
Proof. unfold lookup_total, map_lookup_total. by intros ->. Qed.

Lemma msum_lookup_delete f m k : f inhabitant = 0 → msum f m = f (m !!! k) + msum f (delete k m).
Proof.
  intros Hd. rewrite lookup_total_alt. destruct (m !! k) as [w|] eqn:E; simpl.
  - by apply msum_delete.
  - rewrite delete_id by done. lia.
Qed.

(** The sum is monotone in, and only depends on, what every key reads as. *)
Lemma msum_le f g m m' :
  f inhabitant = 0 → g inhabitant = 0 → (∀ k, f (m' !!! k) ≤ g (m !!! k)) → msum f m' ≤ msum g m.
Proof.
  intros Hf Hg. revert m'. induction m as [|k v m Hk IH] using map_ind; intros m' Hm'.
  - rewrite msum_empty. induction m' as [|k v m' Hk IH] using map_ind; [by rewrite msum_empty|].
    rewrite msum_insert_None by done. assert (msum f m' ≤ 0).
    + apply IH. intros j. destruct (decide (j = k)) as [->|Hne].
      * rewrite lookup_total_empty, lookup_total_alt, Hk. simpl. lia.
      * specialize (Hm' j). by rewrite lookup_total_insert_ne in Hm'.
    + specialize (Hm' k). rewrite lookup_total_insert_eq, lookup_total_empty in Hm'. lia.
  - rewrite msum_insert_None by done. rewrite (msum_lookup_delete f m' k Hf).
    assert (msum f (delete k m') ≤ msum g m).
    + apply IH. intros j. destruct (decide (j = k)) as [->|Hne].
      * rewrite lookup_total_delete_eq, (lookup_total_alt m), Hk. simpl. lia.
      * specialize (Hm' j). rewrite lookup_total_insert_ne in Hm' by done. by rewrite lookup_total_delete_ne.
    + specialize (Hm' k). rewrite lookup_total_insert_eq in Hm'. lia.
Qed.

Lemma msum_ext f m m' :
  f inhabitant = 0 → (∀ k, f (m' !!! k) = f (m !!! k)) → msum f m' = msum f m.
Proof.
  intros Hf E. apply Z.le_antisymm; apply msum_le; try done; intros k; rewrite E; done.
Qed.

Lemma msum_zero f m : f inhabitant = 0 → (∀ k, f (m !!! k) = 0) → msum f m = 0.
Proof.
  intros Hz Hf. rewrite <-(msum_empty f). apply msum_ext; [done|]. intros k. by rewrite Hf, lookup_total_empty.
Qed.

(** A property of the default and of every binding holds at every key. *)
Lemma lookup_total_forall (P : V → Prop) m : P inhabitant → map_Forall (λ _ v, P v) m → ∀ k, P (m !!! k).
Proof. intros Hz Hm k. rewrite lookup_total_alt. destruct (m !! k) eqn:E; [by eapply Hm|done]. Qed.
End msum_lemmas.

Lemma ind_nonneg (P : Prop) `{Decision P} : 0 ≤ ind P ≤ 1.
Proof. unfold ind. case_decide; lia. Qed.

(** Dropping one element of a duplicate-free list. *)
Section filter_ne.
Context {A : Type} `{EqDecision A}.
Implicit Types (l : list A).

Lemma filter_ne_notin l t : t ∉ l → filter (λ u, u ≠ t) l = l.
Proof.
  induction l as [|x l IH]; [done|]. intros Hx. rewrite filter_cons_True by set_solver.
  f_equal. apply IH. set_solver.
Qed.

Lemma filter_ne_split l1 l2 t :
  NoDup (l1 ++ t :: l2) → filter (λ u, u ≠ t) (l1 ++ t :: l2) = l1 ++ l2.
Proof.
  intros HN. apply NoDup_app in HN as (_ & Hd & [HN _]%NoDup_cons).
  rewrite filter_app, filter_cons_False by naive_solver.
  rewrite !filter_ne_notin; [done|done|]. set_solver.
Qed.
End filter_ne.

Lemma and_pair (A B C : Prop) : A ∧ B → C → A ∧ B ∧ C.
Proof. tauto. Qed.

(** ** Automation *)

(** Run the monad operations at the front of a [wp] goal. *)
Ltac wp_step :=
  repeat first
    [ rewrite wp_bind | rewrite wp_gets | rewrite wp_modify | rewrite wp_ret | rewrite wp_when
    | progress cbn beta ].

(** Read-over-write on the maps of a state. *)
Ltac lk := repeat
  first [ rewrite lookup_total_insert_eq
        | rewrite lookup_total_insert_ne by (congruence || done) ].
Ltac lk_case := rewrite ?lookup_total_insert; repeat case_decide; simplify_eq/=.

(** [assert!(b)] *)
Definition ensure {S : Type} (b : bool) : comp S unit := if b then mret tt else panic.

Lemma wp_ensure {S : Type} (b : bool) Q (s : S) : b = true → Q tt s → wp (ensure b) Q s.
Proof. by intros ->. Qed.

(** Taking apart a computation that returned. *)
Lemma bind_inv {S A B : Type} (m : comp S A) (f : A → comp S B) s b s' :
  (m ≫= f) s = Ret (b, s') → ∃ a s1, m s = Ret (a, s1) ∧ f a s1 = Ret (b, s').
Proof. unfold mbind, comp_bind. destruct (m s) as [[a s1]| |]; [|done..]. intros H. by exists a, s1. Qed.

Lemma ensure_inv {S : Type} (b : bool) (s : S) u s' : ensure b s = Ret (u, s') → b = true ∧ s' = s.
Proof. destruct b; [|done]. by intros [= _ <-]. Qed.

(** Checked operations whose side condition is linear arithmetic. *)
Create HintDb checked.
#[export] Hint Resolve wp_uadd wp_umul wp_usub wp_ensure wp_index wp_set_index : checked.
Ltac wp_num := first [ apply wp_uadd; [lia|] | apply wp_usub; [lia|] ]; wp_step.
