(* ===== verification/KStore.v ===== *)
(** The kernel object store: the handle and capability types of
    [kcore/src/id.rs] and [kcore/src/cspace.rs], the object records of
    [kcore/src/{channel,notification,thread,timer,irq,aspace}.rs], and the
    accessors of the [Store] trait ([kcore/src/store.rs]) as the kernel resolves
    them ([kernel/src/store.rs], [kernel/src/thread.rs]). A handle is an opaque
    number; reading a slot or an object that was never written gives the empty
    record, so every accessor is total on handles, and an array index out of
    range panics as it does in Rust. *)

From S2P Require Import Prelude.

(** ** Handles *)
Record ObjId : Type := MkObjId { obj_addr : Z }.
Record SlotId : Type := MkSlotId { slot_addr : Z }.

#[global] Instance ObjId_eq_dec : EqDecision ObjId.
Proof. solve_decision. Defined.
#[global] Instance ObjId_countable : Countable ObjId.
Proof. by apply (inj_countable' obj_addr MkObjId); intros []. Defined.
#[global] Instance SlotId_eq_dec : EqDecision SlotId.
Proof. solve_decision. Defined.
#[global] Instance SlotId_countable : Countable SlotId.
Proof. by apply (inj_countable' slot_addr MkSlotId); intros []. Defined.

(** ** Capabilities *)
Module Rights.
Record rights : Type := MkRights { bits : Z }.
Definition READ : Z := Z.shiftl 1 0.
Definition WRITE : Z := Z.shiftl 1 1.
Definition PHYS : Z := Z.shiftl 1 2.
Definition BIND_REPORTS : Z := Z.shiftl 1 3.
Definition READ_REPORT : Z := Z.shiftl 1 4.
Definition ALL : rights := MkRights 3.
Definition THREAD_ALL : rights :=
  MkRights (Z.lor (Z.lor (Z.lor READ WRITE) BIND_REPORTS) READ_REPORT).
Definition has (r : rights) (b : Z) : bool := Z.land (bits r) b =? b.
Definition masked (r : rights) (mask : Z) : rights := MkRights (Z.land (bits r) mask).
End Rights.

Module ChanEnd.
Inductive chan_end : Type := A | B.
End ChanEnd.

Module CapKind.
Inductive kind : Type :=
| Empty
| Untyped (base size watermark : Z)
| Frame (base pages : Z) (mapping : option (ObjId * Z))
| Aspace (o : ObjId)
| CSpace (o : ObjId)
| Thread (o : ObjId) (max_prio : Z)
| Channel (o : ObjId) (e : ChanEnd.chan_end)
| Notification (o : ObjId)
| Timer (o : ObjId)
| Irq (o : ObjId).
End CapKind.

Record Cap : Type := MkCap { kind : CapKind.kind; rights : Rights.rights }.

Definition Cap_EMPTY : Cap := MkCap CapKind.Empty (Rights.MkRights 0).

(** [Cap::is_empty] and its twin [cap_is_empty]. *)
Definition cap_is_empty (c : Cap) : bool :=
  match kind c with CapKind.Empty => true | _ => false end.

Record CapSlot : Type := MkSlot {
  cap : Cap;
  parent : option SlotId;
  first_child : option SlotId;
  next_sib : option SlotId;
  prev_sib : option SlotId;
  revoking : bool;
}.

Definition CapSlot_empty : CapSlot := MkSlot Cap_EMPTY None None None None false.
#[global] Instance CapSlot_inhabited : Inhabited CapSlot := populate CapSlot_empty.

#[global] Instance rights_eq_dec : EqDecision Rights.rights.
Proof. solve_decision. Defined.
#[global] Instance chan_end_eq_dec : EqDecision ChanEnd.chan_end.
Proof. solve_decision. Defined.
#[global] Instance kind_eq_dec : EqDecision CapKind.kind.
Proof. solve_decision. Defined.
#[global] Instance Cap_eq_dec : EqDecision Cap.
Proof. solve_decision. Defined.
#[global] Instance CapSlot_eq_dec : EqDecision CapSlot.
Proof. solve_decision. Defined.

(** Field updates of a slot, as [let mut s = store.slot(x); s.f = v]. *)
Definition slot_set_cap (v : Cap) (s : CapSlot) : CapSlot :=
  MkSlot v (parent s) (first_child s) (next_sib s) (prev_sib s) (revoking s).
Definition slot_set_parent (v : option SlotId) (s : CapSlot) : CapSlot :=
  MkSlot (cap s) v (first_child s) (next_sib s) (prev_sib s) (revoking s).
Definition slot_set_first_child (v : option SlotId) (s : CapSlot) : CapSlot :=
  MkSlot (cap s) (parent s) v (next_sib s) (prev_sib s) (revoking s).
Definition slot_set_next_sib (v : option SlotId) (s : CapSlot) : CapSlot :=
  MkSlot (cap s) (parent s) (first_child s) v (prev_sib s) (revoking s).
Definition slot_set_prev_sib (v : option SlotId) (s : CapSlot) : CapSlot :=
  MkSlot (cap s) (parent s) (first_child s) (next_sib s) v (revoking s).
Definition slot_set_revoking (v : bool) (s : CapSlot) : CapSlot :=
  MkSlot (cap s) (parent s) (first_child s) (next_sib s) (prev_sib s) v.

(** ** Kernel objects *)
Record CSpaceObj : Type := MkCSpace { num_slots : Z; cs_slots : list SlotId }.
#[global] Instance CSpaceObj_inhabited : Inhabited CSpaceObj := populate (MkCSpace 0 []).

Record Binding : Type := MkBinding { b_notif : option ObjId; b_bits : Z }.
Definition Binding_UNBOUND : Binding := MkBinding None 0.

Definition MSG_PAYLOAD : Z := 256.
Definition MSG_CAPS : nat := 4.
Definition EV_READABLE : nat := 0.
Definition EV_WRITABLE : nat := 1.
Definition EV_PEER_CLOSED : nat := 2.

Record MsgSlot : Type := MkMsg { m_len : Z; m_payload : list Z; m_caps : list SlotId }.
Record Channel : Type := MkChannel {
  ch_depth : Z;
  ch_end_caps : list Z;
  ch_head : list Z;
  ch_count : list Z;
  ch_bindings : list (list Binding);
  ch_msgs : list (list MsgSlot);
}.
#[global] Instance Channel_inhabited : Inhabited Channel := populate (MkChannel 0 [] [] [] [] []).

Record NotifObj : Type := MkNotif {
  n_word : Z; n_wait_head : option ObjId; n_wait_tail : option ObjId }.
#[global] Instance NotifObj_inhabited : Inhabited NotifObj := populate (MkNotif 0 None None).

Module Report.
Inductive report : Type := Running | Exited (status : Z) | Faulted (cause far : Z).
End Report.

Module ThreadState.
Inductive thread_state : Type := Inactive | Runnable | Running | BlockedNotif | Halted | Faulted.
End ThreadState.
#[global] Instance thread_state_eq_dec : EqDecision ThreadState.thread_state.
Proof. solve_decision. Defined.
#[global] Instance report_eq_dec : EqDecision Report.report.
Proof. solve_decision. Defined.

Record TrapFrame : Type := MkFrame {
  regs : list Z; sp_el0 : Z; elr : Z; spsr : Z; tpidr : Z }.
Definition TrapFrame_zeroed : TrapFrame := MkFrame (replicate 31 0) 0 0 0 0.

Record Tcb : Type := MkTcb {
  t_frame : TrapFrame;
  t_state : ThreadState.thread_state;
  t_priority : Z;
  t_cspace : option ObjId;
  t_aspace : option ObjId;
  t_qnext : option ObjId;
  t_wait_notif : option ObjId;
  t_report : Report.report;
  t_bind_slots : list SlotId;
  t_bind_bits : list Z;
}.
(** [Tcb::empty]; the two binding slots are handles into the slot arena. *)
Definition Tcb_empty (s0 s1 : SlotId) : Tcb :=
  MkTcb TrapFrame_zeroed ThreadState.Inactive 0 None None None None Report.Running [s0; s1] [0; 0].
#[global] Instance Tcb_inhabited : Inhabited Tcb :=
  populate (MkTcb TrapFrame_zeroed ThreadState.Inactive 0 None None None None Report.Running [] []).

Record TimerObj : Type := MkTimer {
  tm_armed : bool; tm_deadline : Z; tm_notif : option ObjId; tm_bits : Z; tm_next : option ObjId }.
#[global] Instance TimerObj_inhabited : Inhabited TimerObj := populate (MkTimer false 0 None 0 None).

Record IrqObj : Type := MkIrq {
  i_intid : Z; i_notif : option ObjId; i_bits : Z; i_bound : bool; i_masked : bool }.
#[global] Instance IrqObj_inhabited : Inhabited IrqObj := populate (MkIrq 0 None 0 false false).

(** The translation tables an address space owns: the L1 table and the pool of
    intermediate tables at [pool_base]; [length as_pool] is [pool_pages]. *)
Record AspaceObj : Type := MkAspace {
  as_asid : Z;
  as_l1 : list Z;
  as_pool_base : Z;
  as_pool : list (list Z);
  as_pool_used : Z;
}.
#[global] Instance AspaceObj_inhabited : Inhabited AspaceObj := populate (MkAspace 0 [] 0 [] 0).

(** Hardware maintenance the seam issues, in order (newest first). *)
Inductive HwEvent : Type :=
| TlbInvalidatePage (asid va : Z)
| BarrierAfterMap
| BarrierAfterUnmap
| GicDisable (intid : Z)
| GicEnable (intid : Z)
| GicEoi (intid : Z)
| TlbFlushAll
| RearmTick.

(** [kernel/src/thread.rs]: one ready queue per priority level. *)
Definition NUM_PRIOS : nat := 32.
Record Queue : Type := MkQueue { q_head : option ObjId; q_tail : option ObjId }.
Definition EMPTY_QUEUE : Queue := MkQueue None None.

(** ** The store

    [pinned] counts the references the kernel image itself holds on its boot-static
    objects (the root CSpace, the idle thread, init's address space): the initial
    [refs: 1] of an object no capability was minted for. *)
Record Store : Type := MkStore {
  slots : gmap SlotId CapSlot;
  refs : gmap ObjId Z;
  cspaces : gmap ObjId CSpaceObj;
  chans : gmap ObjId Channel;
  notifs : gmap ObjId NotifObj;
  tcbs : gmap ObjId Tcb;
  timers : gmap ObjId TimerObj;
  irqs : gmap ObjId IrqObj;
  aspaces : gmap ObjId AspaceObj;
  armed_head : option ObjId;
  ready : list Queue;
  ready_bits : Z;
  hw : list HwEvent;
  pinned : gmap ObjId nat;
}.

Definition Store_empty : Store :=
  MkStore ∅ ∅ ∅ ∅ ∅ ∅ ∅ ∅ ∅ None (replicate NUM_PRIOS EMPTY_QUEUE) 0 [] ∅.

Abbreviation K := (comp Store).

Definition with_slots f st := MkStore (f (slots st)) (refs st) (cspaces st) (chans st) (notifs st)
  (tcbs st) (timers st) (irqs st) (aspaces st) (armed_head st) (ready st) (ready_bits st) (hw st) (pinned st).
Definition with_refs f st := MkStore (slots st) (f (refs st)) (cspaces st) (chans st) (notifs st)
  (tcbs st) (timers st) (irqs st) (aspaces st) (armed_head st) (ready st) (ready_bits st) (hw st) (pinned st).
Definition with_cspaces f st := MkStore (slots st) (refs st) (f (cspaces st)) (chans st) (notifs st)
  (tcbs st) (timers st) (irqs st) (aspaces st) (armed_head st) (ready st) (ready_bits st) (hw st) (pinned st).
Definition with_chans f st := MkStore (slots st) (refs st) (cspaces st) (f (chans st)) (notifs st)
  (tcbs st) (timers st) (irqs st) (aspaces st) (armed_head st) (ready st) (ready_bits st) (hw st) (pinned st).
Definition with_notifs f st := MkStore (slots st) (refs st) (cspaces st) (chans st) (f (notifs st))
  (tcbs st) (timers st) (irqs st) (aspaces st) (armed_head st) (ready st) (ready_bits st) (hw st) (pinned st).
Definition with_tcbs f st := MkStore (slots st) (refs st) (cspaces st) (chans st) (notifs st)
  (f (tcbs st)) (timers st) (irqs st) (aspaces st) (armed_head st) (ready st) (ready_bits st) (hw st) (pinned st).
Definition with_timers f st := MkStore (slots st) (refs st) (cspaces st) (chans st) (notifs st)
  (tcbs st) (f (timers st)) (irqs st) (aspaces st) (armed_head st) (ready st) (ready_bits st) (hw st) (pinned st).
Definition with_irqs f st := MkStore (slots st) (refs st) (cspaces st) (chans st) (notifs st)
  (tcbs st) (timers st) (f (irqs st)) (aspaces st) (armed_head st) (ready st) (ready_bits st) (hw st) (pinned st).
Definition with_aspaces f st := MkStore (slots st) (refs st) (cspaces st) (chans st) (notifs st)
  (tcbs st) (timers st) (irqs st) (f (aspaces st)) (armed_head st) (ready st) (ready_bits st) (hw st) (pinned st).
Definition with_armed_head h st := MkStore (slots st) (refs st) (cspaces st) (chans st) (notifs st)
  (tcbs st) (timers st) (irqs st) (aspaces st) h (ready st) (ready_bits st) (hw st) (pinned st).
Definition with_ready f st := MkStore (slots st) (refs st) (cspaces st) (chans st) (notifs st)
  (tcbs st) (timers st) (irqs st) (aspaces st) (armed_head st) (f (ready st)) (ready_bits st) (hw st) (pinned st).
Definition with_ready_bits b st := MkStore (slots st) (refs st) (cspaces st) (chans st) (notifs st)
  (tcbs st) (timers st) (irqs st) (aspaces st) (armed_head st) (ready st) b (hw st) (pinned st).
Definition with_hw f st := MkStore (slots st) (refs st) (cspaces st) (chans st) (notifs st)
  (tcbs st) (timers st) (irqs st) (aspaces st) (armed_head st) (ready st) (ready_bits st) (f (hw st)) (pinned st).

(** ** Accessors: the [Store] trait *)

(** *** Cap slots *)
Definition slot (s : SlotId) : K CapSlot := gets (λ st, slots st !!! s).
Definition set_slot (s : SlotId) (v : CapSlot) : K unit := modify (with_slots (<[s := v]>)).

(** *** Object reference counts *)
#[global] Instance Z_inhabited0 : Inhabited Z := populate 0.
Definition obj_refs (o : ObjId) : K Z := gets (λ st, refs st !!! o).
Definition set_obj_refs (o : ObjId) (r : Z) : K unit := modify (with_refs (<[o := r]>)).

(** *** CSpaces *)
Definition cspace_num_slots (cs : ObjId) : K Z := gets (λ st, num_slots (cspaces st !!! cs)).
(** [CSpaceObj::slot]: null past the end. *)
Definition null_slot : SlotId := MkSlotId 0.
Definition cspace_slot (cs : ObjId) (i : Z) : K SlotId :=
  gets (λ st, let c := cspaces st !!! cs in
    if i <? num_slots c then default null_slot (cs_slots c !! Z.to_nat i) else null_slot).

(** *** Channels *)
Definition upd_chan (ch : ObjId) (f : Channel → Channel) : K unit :=
  modify (with_chans (λ m, <[ch := f (m !!! ch)]> m)).
Definition chan_depth (ch : ObjId) : K Z := gets (λ st, ch_depth (chans st !!! ch)).
Definition chan_end_caps (ch : ObjId) (e : nat) : K Z :=
  c ← gets (λ st, chans st !!! ch); index (ch_end_caps c) e.
Definition set_chan_end_caps (ch : ObjId) (e : nat) (v : Z) : K unit :=
  c ← gets (λ st, chans st !!! ch);
  l ← set_index (ch_end_caps c) e v;
  upd_chan ch (λ c, MkChannel (ch_depth c) l (ch_head c) (ch_count c) (ch_bindings c) (ch_msgs c)).
Definition chan_head (ch : ObjId) (r : nat) : K Z :=
  c ← gets (λ st, chans st !!! ch); index (ch_head c) r.
Definition set_chan_head (ch : ObjId) (r : nat) (v : Z) : K unit :=
  c ← gets (λ st, chans st !!! ch);
  l ← set_index (ch_head c) r v;
  upd_chan ch (λ c, MkChannel (ch_depth c) (ch_end_caps c) l (ch_count c) (ch_bindings c) (ch_msgs c)).
Definition chan_count (ch : ObjId) (r : nat) : K Z :=
  c ← gets (λ st, chans st !!! ch); index (ch_count c) r.
Definition set_chan_count (ch : ObjId) (r : nat) (v : Z) : K unit :=
  c ← gets (λ st, chans st !!! ch);
  l ← set_index (ch_count c) r v;
  upd_chan ch (λ c, MkChannel (ch_depth c) (ch_end_caps c) (ch_head c) l (ch_bindings c) (ch_msgs c)).
Definition chan_binding (ch : ObjId) (e ev : nat) : K Binding :=
  c ← gets (λ st, chans st !!! ch);
  row ← index (ch_bindings c) e;
  index row ev.
Definition set_chan_binding (ch : ObjId) (e ev : nat) (b : Binding) : K unit :=
  c ← gets (λ st, chans st !!! ch);
  row ← index (ch_bindings c) e;
  row' ← set_index row ev b;
  l ← set_index (ch_bindings c) e row';
  upd_chan ch (λ c, MkChannel (ch_depth c) (ch_end_caps c) (ch_head c) (ch_count c) l (ch_msgs c)).

(** [Channel::slot] and the accessors through it. *)
Definition chan_msg (ch : ObjId) (r : nat) (i : Z) : K MsgSlot :=
  c ← gets (λ st, chans st !!! ch);
  ring ← index (ch_msgs c) r;
  index ring (Z.to_nat i).
Definition set_chan_msg (ch : ObjId) (r : nat) (i : Z) (m : MsgSlot) : K unit :=
  c ← gets (λ st, chans st !!! ch);
  ring ← index (ch_msgs c) r;
  ring' ← set_index ring (Z.to_nat i) m;
  l ← set_index (ch_msgs c) r ring';
  upd_chan ch (λ c, MkChannel (ch_depth c) (ch_end_caps c) (ch_head c) (ch_count c) (ch_bindings c) l).
Definition chan_ring_cap (ch : ObjId) (r : nat) (i : Z) (c : nat) : K SlotId :=
  m ← chan_msg ch r i; index (m_caps m) c.
Definition chan_msg_len (ch : ObjId) (r : nat) (i : Z) : K Z :=
  m ← chan_msg ch r i; mret (m_len m).
Definition set_chan_msg_len (ch : ObjId) (r : nat) (i v : Z) : K unit :=
  m ← chan_msg ch r i; set_chan_msg ch r i (MkMsg v (m_payload m) (m_caps m)).
(** Copy [data] over the front of the payload, truncated to [MSG_PAYLOAD]. *)
Definition chan_msg_write (ch : ObjId) (r : nat) (i : Z) (data : list Z) : K unit :=
  m ← chan_msg ch r i;
  let d := take (Z.to_nat MSG_PAYLOAD) data in
  set_chan_msg ch r i (MkMsg (m_len m) (d ++ drop (length d) (m_payload m)) (m_caps m)).
(** The first [min len MSG_PAYLOAD (length buf)] bytes of [buf] are overwritten. *)
Definition chan_msg_read (ch : ObjId) (r : nat) (i len : Z) (buf : list Z) : K (list Z) :=
  m ← chan_msg ch r i;
  let n := Z.to_nat (Z.min (Z.min len MSG_PAYLOAD) (Z.of_nat (length buf))) in
  mret (take n (m_payload m) ++ drop n buf).

(** *** Notifications *)
Definition upd_notif (n : ObjId) (f : NotifObj → NotifObj) : K unit :=
  modify (with_notifs (λ m, <[n := f (m !!! n)]> m)).
Definition notif_word (n : ObjId) : K Z := gets (λ st, n_word (notifs st !!! n)).
Definition set_notif_word (n : ObjId) (v : Z) : K unit :=
  upd_notif n (λ o, MkNotif v (n_wait_head o) (n_wait_tail o)).
Definition notif_wait_head (n : ObjId) : K (option ObjId) := gets (λ st, n_wait_head (notifs st !!! n)).
Definition set_notif_wait_head (n : ObjId) (t : option ObjId) : K unit :=
  upd_notif n (λ o, MkNotif (n_word o) t (n_wait_tail o)).
Definition notif_wait_tail (n : ObjId) : K (option ObjId) := gets (λ st, n_wait_tail (notifs st !!! n)).
Definition set_notif_wait_tail (n : ObjId) (t : option ObjId) : K unit :=
  upd_notif n (λ o, MkNotif (n_word o) (n_wait_head o) t).

(** *** Threads *)
Definition upd_tcb (t : ObjId) (f : Tcb → Tcb) : K unit :=
  modify (with_tcbs (λ m, <[t := f (m !!! t)]> m)).
Definition tcb_set_frame v o := MkTcb v (t_state o) (t_priority o) (t_cspace o) (t_aspace o) (t_qnext o)
  (t_wait_notif o) (t_report o) (t_bind_slots o) (t_bind_bits o).
Definition tcb_set_state v o := MkTcb (t_frame o) v (t_priority o) (t_cspace o) (t_aspace o) (t_qnext o)
  (t_wait_notif o) (t_report o) (t_bind_slots o) (t_bind_bits o).
Definition tcb_set_priority v o := MkTcb (t_frame o) (t_state o) v (t_cspace o) (t_aspace o) (t_qnext o)
  (t_wait_notif o) (t_report o) (t_bind_slots o) (t_bind_bits o).
Definition tcb_set_cspace v o := MkTcb (t_frame o) (t_state o) (t_priority o) v (t_aspace o) (t_qnext o)
  (t_wait_notif o) (t_report o) (t_bind_slots o) (t_bind_bits o).
Definition tcb_set_aspace v o := MkTcb (t_frame o) (t_state o) (t_priority o) (t_cspace o) v (t_qnext o)
  (t_wait_notif o) (t_report o) (t_bind_slots o) (t_bind_bits o).
Definition tcb_set_qnext v o := MkTcb (t_frame o) (t_state o) (t_priority o) (t_cspace o) (t_aspace o) v
  (t_wait_notif o) (t_report o) (t_bind_slots o) (t_bind_bits o).
Definition tcb_set_wait_notif v o := MkTcb (t_frame o) (t_state o) (t_priority o) (t_cspace o) (t_aspace o)
  (t_qnext o) v (t_report o) (t_bind_slots o) (t_bind_bits o).
Definition tcb_set_report v o := MkTcb (t_frame o) (t_state o) (t_priority o) (t_cspace o) (t_aspace o)
  (t_qnext o) (t_wait_notif o) v (t_bind_slots o) (t_bind_bits o).
Definition tcb_set_bits v o := MkTcb (t_frame o) (t_state o) (t_priority o) (t_cspace o) (t_aspace o)
  (t_qnext o) (t_wait_notif o) (t_report o) (t_bind_slots o) v.

Definition tcb_state (t : ObjId) : K ThreadState.thread_state := gets (λ st, t_state (tcbs st !!! t)).
Definition set_tcb_state (t : ObjId) (s : ThreadState.thread_state) : K unit := upd_tcb t (tcb_set_state s).
Definition tcb_qnext (t : ObjId) : K (option ObjId) := gets (λ st, t_qnext (tcbs st !!! t)).
Definition set_tcb_qnext (t : ObjId) (q : option ObjId) : K unit := upd_tcb t (tcb_set_qnext q).
Definition tcb_wait_notif (t : ObjId) : K (option ObjId) := gets (λ st, t_wait_notif (tcbs st !!! t)).
Definition set_tcb_wait_notif (t : ObjId) (n : option ObjId) : K unit := upd_tcb t (tcb_set_wait_notif n).
Definition tcb_report (t : ObjId) : K Report.report := gets (λ st, t_report (tcbs st !!! t)).
Definition set_tcb_report (t : ObjId) (r : Report.report) : K unit := upd_tcb t (tcb_set_report r).
Definition tcb_priority (t : ObjId) : K Z := gets (λ st, t_priority (tcbs st !!! t)).
Definition set_tcb_priority (t : ObjId) (p : Z) : K unit := upd_tcb t (tcb_set_priority p).
Definition tcb_bind_slot (t : ObjId) (which : nat) : K SlotId :=
  o ← gets (λ st, tcbs st !!! t); index (t_bind_slots o) which.
Definition tcb_bind_bits (t : ObjId) (which : nat) : K Z :=
  o ← gets (λ st, tcbs st !!! t); index (t_bind_bits o) which.
Definition set_tcb_bind_bits (t : ObjId) (which : nat) (b : Z) : K unit :=
  o ← gets (λ st, tcbs st !!! t);
  l ← set_index (t_bind_bits o) which b;
  upd_tcb t (tcb_set_bits l).
Definition tcb_cspace (t : ObjId) : K (option ObjId) := gets (λ st, t_cspace (tcbs st !!! t)).
Definition set_tcb_cspace (t : ObjId) (cs : option ObjId) : K unit := upd_tcb t (tcb_set_cspace cs).
Definition tcb_aspace (t : ObjId) : K (option ObjId) := gets (λ st, t_aspace (tcbs st !!! t)).
Definition set_tcb_aspace (t : ObjId) (a : option ObjId) : K unit := upd_tcb t (tcb_set_aspace a).
(** [frame.x[0] = v] *)
Definition set_tcb_retval (t : ObjId) (v : Z) : K unit :=
  upd_tcb t (λ o, let f := t_frame o in
    tcb_set_frame (MkFrame (<[0%nat := v]> (regs f)) (sp_el0 f) (elr f) (spsr f) (tpidr f)) o).

(** *** Timers *)
Definition upd_timer (t : ObjId) (f : TimerObj → TimerObj) : K unit :=
  modify (with_timers (λ m, <[t := f (m !!! t)]> m)).
Definition timer_armed (t : ObjId) : K bool := gets (λ st, tm_armed (timers st !!! t)).
Definition set_timer_armed (t : ObjId) (v : bool) : K unit :=
  upd_timer t (λ o, MkTimer v (tm_deadline o) (tm_notif o) (tm_bits o) (tm_next o)).
Definition timer_deadline (t : ObjId) : K Z := gets (λ st, tm_deadline (timers st !!! t)).
Definition set_timer_deadline (t : ObjId) (v : Z) : K unit :=
  upd_timer t (λ o, MkTimer (tm_armed o) v (tm_notif o) (tm_bits o) (tm_next o)).
Definition timer_notif (t : ObjId) : K (option ObjId) := gets (λ st, tm_notif (timers st !!! t)).
Definition set_timer_notif (t : ObjId) (n : option ObjId) : K unit :=
  upd_timer t (λ o, MkTimer (tm_armed o) (tm_deadline o) n (tm_bits o) (tm_next o)).
Definition timer_bits (t : ObjId) : K Z := gets (λ st, tm_bits (timers st !!! t)).
Definition set_timer_bits (t : ObjId) (v : Z) : K unit :=
  upd_timer t (λ o, MkTimer (tm_armed o) (tm_deadline o) (tm_notif o) v (tm_next o)).
Definition timer_next (t : ObjId) : K (option ObjId) := gets (λ st, tm_next (timers st !!! t)).
Definition set_timer_next (t : ObjId) (n : option ObjId) : K unit :=
  upd_timer t (λ o, MkTimer (tm_armed o) (tm_deadline o) (tm_notif o) (tm_bits o) n).
Definition timer_armed_head : K (option ObjId) := gets armed_head.
Definition set_timer_armed_head (h : option ObjId) : K unit := modify (with_armed_head h).

(** *** IRQ handlers *)
Definition upd_irq (i : ObjId) (f : IrqObj → IrqObj) : K unit :=
  modify (with_irqs (λ m, <[i := f (m !!! i)]> m)).
Definition irq_intid (i : ObjId) : K Z := gets (λ st, i_intid (irqs st !!! i)).
Definition irq_notif (i : ObjId) : K (option ObjId) := gets (λ st, i_notif (irqs st !!! i)).
Definition set_irq_notif (i : ObjId) (n : option ObjId) : K unit :=
  upd_irq i (λ o, MkIrq (i_intid o) n (i_bits o) (i_bound o) (i_masked o)).
Definition irq_bits (i : ObjId) : K Z := gets (λ st, i_bits (irqs st !!! i)).
Definition set_irq_bits (i : ObjId) (v : Z) : K unit :=
  upd_irq i (λ o, MkIrq (i_intid o) (i_notif o) v (i_bound o) (i_masked o)).
Definition set_irq_masked (i : ObjId) (v : bool) : K unit :=
  upd_irq i (λ o, MkIrq (i_intid o) (i_notif o) (i_bits o) (i_bound o) v).
Definition irq_bound (i : ObjId) : K bool := gets (λ st, i_bound (irqs st !!! i)).
Definition set_irq_bound (i : ObjId) (v : bool) : K unit :=
  upd_irq i (λ o, MkIrq (i_intid o) (i_notif o) (i_bits o) v (i_masked o)).

(** *** Hardware maintenance *)
Definition tlb_invalidate_page (asid va : Z) : K unit := modify (with_hw (cons (TlbInvalidatePage asid va))).
Definition gic_disable (intid : Z) : K unit := modify (with_hw (cons (GicDisable intid))).
Definition gic_enable (intid : Z) : K unit := modify (with_hw (cons (GicEnable intid))).
Definition gic_eoi (intid : Z) : K unit := modify (with_hw (cons (GicEoi intid))).
Definition tlb_flush_all : K unit := modify (with_hw (cons TlbFlushAll)).
Definition rearm_tick : K unit := modify (with_hw (cons RearmTick)).
Definition barrier_after_map : K unit := modify (with_hw (cons BarrierAfterMap)).
Definition barrier_after_unmap : K unit := modify (with_hw (cons BarrierAfterUnmap)).
(** [destroy_aspace] has an empty body. *)
Definition aspace_destroy (_ : ObjId) : K unit := mret tt.

(** *** Ready queues *)
Definition ready_head (level : nat) : K (option ObjId) :=
  r ← gets ready; q ← index r level; mret (q_head q).
Definition set_ready_head (level : nat) (h : option ObjId) : K unit :=
  r ← gets ready; q ← index r level;
  modify (with_ready (<[level := MkQueue h (q_tail q)]>)).
Definition ready_tail (level : nat) : K (option ObjId) :=
  r ← gets ready; q ← index r level; mret (q_tail q).
Definition set_ready_tail (level : nat) (t : option ObjId) : K unit :=
  r ← gets ready; q ← index r level;
  modify (with_ready (<[level := MkQueue (q_head q) t]>)).
Definition ready_bitmap : K Z := gets ready_bits.
Definition set_ready_bitmap (b : Z) : K unit := modify (with_ready_bits b).

(** ** Automation *)
Create HintDb kacc.
#[export] Hint Unfold slot set_slot obj_refs set_obj_refs cspace_num_slots cspace_slot
  chan_depth chan_end_caps set_chan_end_caps chan_head set_chan_head chan_count set_chan_count
  chan_binding set_chan_binding chan_msg set_chan_msg chan_ring_cap chan_msg_len set_chan_msg_len
  chan_msg_write chan_msg_read upd_chan upd_notif notif_word set_notif_word notif_wait_head
  set_notif_wait_head notif_wait_tail set_notif_wait_tail upd_tcb tcb_state set_tcb_state
  tcb_qnext set_tcb_qnext tcb_wait_notif set_tcb_wait_notif tcb_report set_tcb_report
  tcb_priority set_tcb_priority tcb_bind_slot tcb_bind_bits set_tcb_bind_bits tcb_cspace
  set_tcb_cspace tcb_aspace set_tcb_aspace set_tcb_retval upd_timer timer_armed set_timer_armed
  timer_deadline set_timer_deadline timer_notif set_timer_notif timer_bits set_timer_bits
  timer_next set_timer_next timer_armed_head set_timer_armed_head upd_irq irq_intid irq_notif
  set_irq_notif irq_bits set_irq_bits set_irq_masked irq_bound set_irq_bound gic_disable gic_enable tlb_invalidate_page
  barrier_after_map barrier_after_unmap aspace_destroy ready_head set_ready_head ready_tail
  set_ready_tail ready_bitmap set_ready_bitmap : kacc.

(** [wp_step] with the store accessors unfolded. *)
Ltac wp_acc := autounfold with kacc; wp_step.

(** Distinct keys that read as something other than the default are in the map. *)
Lemma distinct_keys_size {V : Type} `{Inhabited V} (m : gmap ObjId V) (l : list ObjId) :
  NoDup l → (∀ k, k ∈ l → m !!! k ≠ inhabitant) → (length l ≤ size m)%nat.
Proof.
  intros HN Hin. rewrite <-size_dom, <-(size_list_to_set (C := gset ObjId) l HN).
  apply subseteq_size. intros k Hk%elem_of_list_to_set. apply elem_of_dom.
  specialize (Hin k Hk). unfold lookup_total, map_lookup_total in Hin.
  destruct (m !! k); [done|]. by destruct Hin.
Qed.
