(* ===== verification/Ready.v ===== *)
(** The 32-level ready queue ([kcore/src/ready.rs]): [top_ready],
    [ready_enqueue], [ready_dequeue] and [ready_unqueue] over the intrusive
    queues threaded through [Tcb.qnext], with the presence bitmap. The abstract
    view is one list of threads per priority level; every operation is shown to
    implement the list operation on it. *)

From S2P Require Import Prelude KStore.

(** ** Operations *)

(** [u32::leading_zeros] *)
Definition leading_zeros (b : Z) : Z := if b =? 0 then 32 else 31 - Z.log2 b.
(** [!b] at 32 bits *)
Definition u32_not (b : Z) : Z := Z.lxor b U32_MAX.

Definition top_ready : K (option nat) :=
  bm ← ready_bitmap;
  if bm =? 0 then mret None
  else
    let lz := leading_zeros bm in
    lvl ← usub 31 lz;
    mret (Some (Z.to_nat lvl)).

Definition ready_enqueue (t : ObjId) : K unit :=
  p ← tcb_priority t;
  let prio := Z.to_nat p in
  set_tcb_state t ThreadState.Runnable;;
  set_tcb_qnext t None;;
  tl ← ready_tail prio;
  (match tl with
   | None => set_ready_head prio (Some t)
   | Some tail => set_tcb_qnext tail (Some t)
   end);;
  set_ready_tail prio (Some t);;
  bm ← ready_bitmap;
  set_ready_bitmap (Z.lor bm (Z.shiftl 1 (Z.of_nat prio))).

Definition ready_dequeue (level : nat) : K (option ObjId) :=
  h ← ready_head level;
  match h with
  | None => mret None
  | Some t =>
      next ← tcb_qnext t;
      set_ready_head level next;;
      (match next with
       | None =>
           set_ready_tail level None;;
           bm ← ready_bitmap;
           set_ready_bitmap (Z.land bm (u32_not (Z.shiftl 1 (Z.of_nat level))))
       | Some _ => mret tt
       end);;
      set_tcb_qnext t None;;
      mret (Some t)
  end.

(** The body of the walk once [t] is found, [prev] being its predecessor: splice
    [t] out, put the tail right, then clear [t]'s link and the presence bit of a
    level left empty. *)
Definition ready_unqueue_clear (t : ObjId) (lvl : nat) : K unit :=
  set_tcb_qnext t None;;
  h ← ready_head lvl;
  match h with
  | None =>
      bm ← ready_bitmap;
      set_ready_bitmap (Z.land bm (u32_not (Z.shiftl 1 (Z.of_nat lvl))))
  | Some _ => mret tt
  end.

Definition ready_unqueue_fixup (t : ObjId) (lvl : nat) (prev : option ObjId) : K unit :=
  tl ← ready_tail lvl;
  when_ (match tl with Some tl => bool_decide (tl = t) | None => false end)
    (set_ready_tail lvl prev);;
  ready_unqueue_clear t lvl.

Definition ready_unqueue_found (t : ObjId) (lvl : nat) (prev : option ObjId) : K unit :=
  next ← tcb_qnext t;
  (match prev with
   | None => set_ready_head lvl next
   | Some p => set_tcb_qnext p next
   end);;
  ready_unqueue_fixup t lvl prev.

Definition qnext_of (c : ObjId) (st : Store) : option ObjId := t_qnext (tcbs st !!! c).

Definition ready_unqueue (t : ObjId) : K unit :=
  p ← tcb_priority t;
  let lvl := Z.to_nat p in
  cur ← ready_head lvl;
  fuel ← gets (λ st, size (tcbs st));
  walk_until fuel qnext_of t cur None (ready_unqueue_found t lvl).

(** The kernel resolves [Store::make_runnable] and [Store::unqueue_ready] to
    these ([kernel/src/store.rs], [kernel/src/thread.rs]). *)
Definition make_runnable (t : ObjId) : K unit := ready_enqueue t.
Definition unqueue_ready (t : ObjId) : K unit := ready_unqueue t.

(** ** Abstract view *)

Record ready_repr (st : Store) (rq : nat → list ObjId) : Prop := {
  rr_len : length (ready st) = NUM_PRIOS;
  rr_queue lvl q : ready st !! lvl = Some q →
    queue (λ t, t_qnext (tcbs st !!! t)) (q_head q) (q_tail q) (rq lvl);
  rr_range : 0 ≤ ready_bits st < 2 ^ 32;
  rr_bit lvl : (lvl < NUM_PRIOS)%nat →
    Z.testbit (ready_bits st) (Z.of_nat lvl) = bool_decide (rq lvl ≠ []);
  rr_out lvl : (NUM_PRIOS ≤ lvl)%nat → rq lvl = [];
  rr_in lvl t : t ∈ rq lvl →
    t_state (tcbs st !!! t) = ThreadState.Runnable ∧ t_priority (tcbs st !!! t) = Z.of_nat lvl;
}.

(** Every Runnable thread outside [E] is on the queue of its priority. *)
Definition ready_complete (st : Store) (rq : nat → list ObjId) (E : gset ObjId) : Prop :=
  ∀ t, t_state (tcbs st !!! t) = ThreadState.Runnable → t ∉ E →
    0 ≤ t_priority (tcbs st !!! t) < 32 ∧ t ∈ rq (Z.to_nat (t_priority (tcbs st !!! t))).

(** A thread with its scheduling state and queue link forgotten. *)
Definition tcb_core (o : Tcb) : Tcb := tcb_set_qnext None (tcb_set_state ThreadState.Inactive o).

(** The scheduler operations touch nothing but queue links, run states, the
    ready array and its bitmap. *)
Record sched_frame (st st' : Store) : Prop := {
  sf_slots : slots st' = slots st;
  sf_refs : refs st' = refs st;
  sf_cspaces : cspaces st' = cspaces st;
  sf_chans : chans st' = chans st;
  sf_notifs : notifs st' = notifs st;
  sf_timers : timers st' = timers st;
  sf_irqs : irqs st' = irqs st;
  sf_aspaces : aspaces st' = aspaces st;
  sf_armed : armed_head st' = armed_head st;
  sf_hw : hw st' = hw st;
  sf_pinned : pinned st' = pinned st;
  sf_core u : tcb_core (tcbs st' !!! u) = tcb_core (tcbs st !!! u);
  sf_sum f : (∀ v, f v = f (tcb_core v)) → f inhabitant = 0 →
    msum f (tcbs st') = msum f (tcbs st);
}.

(** What [ready_unqueue] promises once a thread has left the queue at [lvl],
    which now holds [l]. *)
Definition unqueued (st : Store) (rq : nat → list ObjId) (lvl : nat) (l : list ObjId) (st' : Store) : Prop :=
  sched_frame st st' ∧ ready_repr st' (<[lvl := l]> rq) ∧
  (∀ u, t_state (tcbs st' !!! u) = t_state (tcbs st !!! u)) ∧
  (∀ u, u ∉ rq lvl → tcbs st' !!! u = tcbs st !!! u).

(** ** Bitmap lemmas *)
Lemma testbit_set bm l k :
  (0 ≤ l)%Z → (0 ≤ k)%Z → Z.testbit (Z.lor bm (Z.shiftl 1 l)) k = (Z.testbit bm k || bool_decide (k = l)).
Proof.
  intros Hl Hk. rewrite Z.lor_spec, Z.shiftl_spec by lia. f_equal.
  case_bool_decide; [subst; by rewrite Z.sub_diag|].
  destruct (decide (k < l)); [by rewrite Z.testbit_neg_r by lia|].
  apply (Z.bits_above_log2 1 (k - l)); [lia|simpl; lia].
Qed.

Lemma U32_ones : U32_MAX = Z.ones 32.
Proof. reflexivity. Qed.

Lemma testbit_clear bm l k :
  0 ≤ l < 32 → 0 ≤ k < 32 →
  Z.testbit (Z.land bm (u32_not (Z.shiftl 1 l))) k = (Z.testbit bm k && negb (bool_decide (k = l))).
Proof.
  intros Hl Hk. unfold u32_not. rewrite Z.land_spec, Z.lxor_spec, U32_ones, Z.ones_spec_low by lia.
  pose proof (testbit_set 0 l k ltac:(lia) ltac:(lia)) as Hs. rewrite Z.lor_0_l, Z.bits_0 in Hs.
  rewrite Hs. simpl. by rewrite xorb_true_r.
Qed.

Lemma bits_range bm : 0 ≤ bm < 2 ^ 32 ↔ 0 ≤ bm ∧ ∀ k, 32 ≤ k → Z.testbit bm k = false.
Proof.
  split.
  - intros [H0 H1]. split; [done|]. intros k Hk.
    apply Z.bits_above_log2; [done|]. destruct (decide (bm = 0)) as [->|]; [simpl; lia|].
    apply Z.log2_lt_pow2 in H1; lia.
  - intros [H0 Hk]. split; [done|]. destruct (decide (bm = 0)) as [->|]; [lia|].
    apply Z.log2_lt_pow2; [lia|]. destruct (decide (Z.log2 bm < 32)); [done|].
    specialize (Hk (Z.log2 bm) ltac:(lia)). by rewrite Z.bit_log2 in Hk by lia.
Qed.

Lemma set_range bm l : 0 ≤ bm < 2 ^ 32 → 0 ≤ l < 32 → 0 ≤ Z.lor bm (Z.shiftl 1 l) < 2 ^ 32.
Proof.
  intros Hb Hl. apply bits_range. apply bits_range in Hb as [H0 Hk]. split.
  - apply Z.lor_nonneg. split; [done|]. apply Z.shiftl_nonneg. lia.
  - intros k ?. rewrite testbit_set by lia. rewrite Hk by lia. simpl.
    apply bool_decide_eq_false. lia.
Qed.

Lemma land_range bm c : 0 ≤ bm < 2 ^ 32 → 0 ≤ Z.land bm c < 2 ^ 32.
Proof.
  intros Hb. apply bits_range. apply bits_range in Hb as [H0 Hk]. split.
  - apply Z.land_nonneg. by left.
  - intros k ?. by rewrite Z.land_spec, Hk.
Qed.

(** ** Framing lemmas *)
Lemma sched_frame_refl st : sched_frame st st.
Proof. by split. Qed.

Lemma sched_frame_trans st1 st2 st3 : sched_frame st1 st2 → sched_frame st2 st3 → sched_frame st1 st3.
Proof. intros [] []. split; try congruence. intros f Hf Hd. by rewrite sf_sum1, sf_sum0. Qed.

Lemma sched_frame_upd_tcb st t g :
  (∀ v, tcb_core (g v) = tcb_core v) →
  sched_frame st (with_tcbs (λ m, <[t := g (m !!! t)]> m) st).
Proof.
  intros Hg. split; try reflexivity; simpl.
  - intros u. lk_case; [apply Hg|done].
  - intros f Hf Hd. rewrite msum_insert by done. rewrite (Hf (g _)), Hg, <-Hf. lia.
Qed.

Lemma sched_frame_set_ready st f : sched_frame st (with_ready f st).
Proof. by split. Qed.

Lemma sched_frame_set_bits st b : sched_frame st (with_ready_bits b st).
Proof. by split. Qed.

Ltac sched_frame_step :=
  first
    [ apply sched_frame_refl
    | eapply sched_frame_trans; [|apply sched_frame_upd_tcb; done]
    | eapply sched_frame_trans; [|by apply sched_frame_set_ready]
    | eapply sched_frame_trans; [|by apply sched_frame_set_bits] ].

(** ** Operation lemmas *)
Section ready_ops.
Context (st : Store) (rq : nat → list ObjId).
Hypothesis R : ready_repr st rq.

Lemma ready_level lvl : (lvl < NUM_PRIOS)%nat → ∃ q, ready st !! lvl = Some q.
Proof using R. intros Hl. apply lookup_lt_is_Some_2. by rewrite (rr_len _ _ R). Qed.

(** Threads queued at a level are distinct and stored. *)
Lemma ready_fuel lvl : (length (rq lvl) ≤ size (tcbs st))%nat.
Proof using R.
  destruct (decide (lvl < NUM_PRIOS)%nat) as [Hl|Hl].
  - destruct (ready_level lvl Hl) as [q Hq].
    destruct (rr_queue _ _ R lvl q Hq) as [Hc _].
    apply distinct_keys_size; [by eapply chain_NoDup|].
    intros k Hk. apply (rr_in _ _ R) in Hk as [Hs _]. intros E. rewrite E in Hs. done.
  - rewrite (rr_out _ _ R) by lia. simpl. lia.
Qed.

(** A thread sits on at most the queue of its own priority. *)
Lemma ready_in_prio lvl t : t ∈ rq lvl → lvl = Z.to_nat (t_priority (tcbs st !!! t)).
Proof using R. intros [_ ->]%(rr_in _ _ R). lia. Qed.

Lemma top_ready_spec :
  wp top_ready (λ r st', st' = st ∧
    match r with
    | None => ∀ lvl, rq lvl = []
    | Some lvl => rq lvl ≠ [] ∧ ∀ k, (lvl < k)%nat → rq k = []
    end) st.
Proof using R.
  pose proof (rr_range _ _ R) as Hrange. pose proof (rr_bit _ _ R) as Hbit.
  unfold top_ready. wp_acc. destruct (Z.eqb_spec (ready_bits st) 0) as [E|E].
  - wp_acc. split; [done|]. intros lvl. destruct (decide (lvl < NUM_PRIOS)%nat) as [Hl|Hl].
    + specialize (Hbit lvl Hl). rewrite E, Z.bits_0 in Hbit. symmetry in Hbit.
      apply bool_decide_eq_false in Hbit. by apply dec_stable in Hbit.
    + apply (rr_out _ _ R). lia.
  - unfold leading_zeros. rewrite (proj2 (Z.eqb_neq _ _) E).
    assert (0 ≤ Z.log2 (ready_bits st) < 32) as Hlog.
    { split; [apply Z.log2_nonneg|]. apply Z.log2_lt_pow2; lia. }
    rewrite wp_bind. apply wp_usub; [lia|]. wp_acc. split; [done|].
    replace (31 - (31 - Z.log2 (ready_bits st))) with (Z.log2 (ready_bits st)) by lia. split.
    + specialize (Hbit (Z.to_nat (Z.log2 (ready_bits st))) ltac:(unfold NUM_PRIOS; lia)).
      rewrite Z2Nat.id, Z.bit_log2 in Hbit by lia.
      symmetry in Hbit. by apply bool_decide_eq_true in Hbit.
    + intros k Hk. destruct (decide (k < NUM_PRIOS)%nat) as [Hl|Hl]; [|apply (rr_out _ _ R); lia].
      specialize (Hbit k Hl). rewrite Z.bits_above_log2 in Hbit by lia. symmetry in Hbit.
      apply bool_decide_eq_false in Hbit. by apply dec_stable in Hbit.
Qed.

(** One level's queue replaced, the others left as they were. *)
Lemma ready_repr_update st' lvl h' t' l' :
  (lvl < NUM_PRIOS)%nat → ready st' = <[lvl := MkQueue h' t']> (ready st) →
  queue (λ u, t_qnext (tcbs st' !!! u)) h' t' l' →
  0 ≤ ready_bits st' < 2 ^ 32 →
  (∀ k, (k < NUM_PRIOS)%nat → Z.testbit (ready_bits st') (Z.of_nat k) =
     if decide (k = lvl) then bool_decide (l' ≠ []) else Z.testbit (ready_bits st) (Z.of_nat k)) →
  (∀ k u, k ≠ lvl → u ∈ rq k → t_qnext (tcbs st' !!! u) = t_qnext (tcbs st !!! u) ∧
     t_state (tcbs st' !!! u) = t_state (tcbs st !!! u) ∧
     t_priority (tcbs st' !!! u) = t_priority (tcbs st !!! u)) →
  (∀ u, u ∈ l' → t_state (tcbs st' !!! u) = ThreadState.Runnable ∧
     t_priority (tcbs st' !!! u) = Z.of_nat lvl) →
  ready_repr st' (<[lvl := l']> rq).
Proof using R.
  intros Hl Hr Hq Hrange Hbit Hother Hin. split.
  - rewrite Hr, length_insert. apply (rr_len _ _ R).
  - intros k q Hk. rewrite Hr in Hk. destruct (decide (k = lvl)) as [->|Hne].
    + rewrite list_lookup_insert_eq in Hk by (by rewrite (rr_len _ _ R)).
      injection Hk as <-. rewrite fn_lookup_insert. exact Hq.
    + rewrite list_lookup_insert_ne in Hk by done. rewrite fn_lookup_insert_ne by done.
      eapply queue_ext; [|by apply (rr_queue _ _ R)].
      intros u Hu. by apply (Hother k u).
  - exact Hrange.
  - intros k Hk. rewrite Hbit by done. case_decide as E.
    + subst. by rewrite fn_lookup_insert.
    + rewrite fn_lookup_insert_ne by done. by apply (rr_bit _ _ R).
  - intros k Hk. rewrite fn_lookup_insert_ne by lia. by apply (rr_out _ _ R).
  - intros k u. destruct (decide (k = lvl)) as [->|Hne].
    + rewrite fn_lookup_insert. apply Hin.
    + rewrite fn_lookup_insert_ne by done. intros Hu.
      destruct (Hother k u Hne Hu) as (_ & -> & ->). by apply (rr_in _ _ R).
Qed.

(** Updates that leave queued threads and the ready array alone. *)
Lemma ready_repr_ext st' :
  ready st' = ready st → ready_bits st' = ready_bits st →
  (∀ k u, u ∈ rq k → t_qnext (tcbs st' !!! u) = t_qnext (tcbs st !!! u) ∧
     t_state (tcbs st' !!! u) = t_state (tcbs st !!! u) ∧
     t_priority (tcbs st' !!! u) = t_priority (tcbs st !!! u)) →
  ready_repr st' rq.
Proof using R.
  intros Hr Hb Hu. destruct R as [H1 H2 H3 H4 H5 H6]. split; rewrite ?Hr, ?Hb; try done.
  - intros lvl q Hq. eapply queue_ext; [|by apply H2]. intros u ?. by apply (Hu lvl).
  - intros lvl t Ht. destruct (Hu lvl t Ht) as (_ & -> & ->). by apply H6.
Qed.

(** The state [ready_enqueue] leaves, described thread by thread. *)
Lemma enqueue_repr st' t q :
  let lvl := Z.to_nat (t_priority (tcbs st !!! t)) in
  (∀ k, t ∉ rq k) → 0 ≤ t_priority (tcbs st !!! t) < 32 → ready st !! lvl = Some q →
  ready st' = <[lvl := MkQueue (match q_tail q with None => Some t | Some _ => q_head q end) (Some t)]> (ready st) →
  ready_bits st' = Z.lor (ready_bits st) (Z.shiftl 1 (Z.of_nat lvl)) →
  tcbs st' !!! t = tcb_set_qnext None (tcb_set_state ThreadState.Runnable (tcbs st !!! t)) →
  (∀ u, u ≠ t → tcbs st' !!! u =
     if decide (q_tail q = Some u) then tcb_set_qnext (Some t) (tcbs st !!! u) else tcbs st !!! u) →
  ready_repr st' (<[lvl := rq lvl ++ [t]]> rq) ∧
  t_state (tcbs st' !!! t) = ThreadState.Runnable ∧
  (∀ u, u ≠ t → t_state (tcbs st' !!! u) = t_state (tcbs st !!! u)) ∧
  (∀ u, u ≠ t → u ∉ rq lvl → t_qnext (tcbs st' !!! u) = t_qnext (tcbs st !!! u)).
Proof using R.
  intros lvl Hnot Hp Hq Hr Hb Ht Hu.
  assert (lvl < NUM_PRIOS)%nat as Hl by (unfold lvl, NUM_PRIOS; lia).
  pose proof (rr_queue _ _ R lvl q Hq) as Hqueue.
  assert (∀ k u, u ∈ rq k → u ≠ t) as Hneq by (intros k u ? ->; by apply (Hnot k)).
  assert (∀ u, u ≠ t → t_state (tcbs st' !!! u) = t_state (tcbs st !!! u) ∧
    t_priority (tcbs st' !!! u) = t_priority (tcbs st !!! u)) as Hsame
    by (intros u Hne; rewrite (Hu u Hne); by case_decide).
  split; [|split; [by rewrite Ht|split; [by apply Hsame|]]].
  - eapply (ready_repr_update _ lvl); [done|exact Hr| | | | |].
    + apply (queue_snoc _ _ (q_head q) (q_tail q) (rq lvl) t Hqueue); [done|by rewrite Ht| |].
      * intros y Hy. rewrite Hu, decide_True by (done || by rewrite Hy in Hqueue; eapply Hneq, queue_tail_in).
        done.
      * intros y Hy Hyt. by rewrite Hu, decide_False by (done || by eapply Hneq).
    + rewrite Hb. apply set_range; [apply (rr_range _ _ R)|]. lia.
    + intros k Hk. rewrite Hb, testbit_set by lia. case_decide as E.
      * subst k. rewrite (bool_decide_eq_true_2 (Z.of_nat lvl = _)) by done.
        rewrite orb_true_r. symmetry. apply bool_decide_eq_true. by destruct (rq lvl).
      * rewrite (bool_decide_eq_false_2 (Z.of_nat k = _)) by lia. by rewrite orb_false_r.
    + intros k u Hk Hin. split; [|by apply Hsame, (Hneq k)].
      rewrite Hu, decide_False by (by eapply Hneq || (intros E; rewrite E in Hqueue;
        apply queue_tail_in, ready_in_prio in Hqueue; apply ready_in_prio in Hin; congruence)).
      done.
    + intros u [Hin| ->%list_elem_of_singleton]%elem_of_app.
      * destruct (Hsame u) as [-> ->]; [by eapply Hneq|]. by apply (rr_in _ _ R).
      * rewrite Ht. cbn. split; [done|]. unfold lvl. lia.
  - intros u Hne Hin. rewrite (Hu u Hne), decide_False; [done|].
    intros E. rewrite E in Hqueue. by apply queue_tail_in in Hqueue.
Qed.

Lemma ready_enqueue_spec t :
  (∀ lvl, t ∉ rq lvl) → 0 ≤ t_priority (tcbs st !!! t) < 32 →
  let lvl := Z.to_nat (t_priority (tcbs st !!! t)) in
  wp (ready_enqueue t) (λ _ st', sched_frame st st' ∧
    ready_repr st' (<[lvl := rq lvl ++ [t]]> rq) ∧
    t_state (tcbs st' !!! t) = ThreadState.Runnable ∧
    (∀ u, u ≠ t → t_state (tcbs st' !!! u) = t_state (tcbs st !!! u)) ∧
    (∀ u, u ≠ t → u ∉ rq lvl → t_qnext (tcbs st' !!! u) = t_qnext (tcbs st !!! u))) st.
Proof using R.
  intros Hnot Hp lvl.
  assert (lvl < NUM_PRIOS)%nat as Hl by (unfold lvl, NUM_PRIOS; lia).
  destruct (ready_level lvl Hl) as [q Hq].
  unfold ready_enqueue. wp_acc. fold lvl. cbn.
  eapply wp_index; [exact Hq|]. wp_acc.
  destruct (q_tail q) as [tail|] eqn:Et.
  - wp_acc. eapply wp_index; [exact Hq|]. wp_acc. split; [repeat sched_frame_step|].
    assert (tail ≠ t) as Hne.
    { intros ->. pose proof (rr_queue _ _ R lvl q Hq) as Hqueue. rewrite Et in Hqueue.
      apply queue_tail_in in Hqueue. by apply (Hnot lvl). }
    apply (enqueue_repr _ t q); rewrite ?Et; try done; cbn.
    + by lk.
    + intros u Hu. case_decide; simplify_eq; by lk.
  - wp_acc. eapply wp_index; [exact Hq|]. wp_acc.
    eapply wp_index; [apply list_lookup_insert_eq; cbn; by rewrite (rr_len _ _ R)|]. wp_acc.
    split; [repeat sched_frame_step|].
    apply (enqueue_repr _ t q); rewrite ?Et; try done; cbn.
    + by rewrite list_insert_insert_eq.
    + by lk.
    + intros u Hu. case_decide; simplify_eq; by lk.
Qed.

(** The state after [t] is spliced out of its level's queue. *)
Lemma remove_repr st' t lvl l1 l2 q :
  rq lvl = l1 ++ t :: l2 → ready st !! lvl = Some q →
  ready st' = <[lvl := MkQueue (match last l1 with None => t_qnext (tcbs st !!! t) | Some _ => q_head q end)
                        (if decide (q_tail q = Some t) then last l1 else q_tail q)]> (ready st) →
  ready_bits st' = (match l1 ++ l2 with
                    | [] => Z.land (ready_bits st) (u32_not (Z.shiftl 1 (Z.of_nat lvl)))
                    | _ => ready_bits st end) →
  tcbs st' !!! t = tcb_set_qnext None (tcbs st !!! t) →
  (∀ u, u ≠ t → tcbs st' !!! u =
     if decide (last l1 = Some u) then tcb_set_qnext (t_qnext (tcbs st !!! t)) (tcbs st !!! u)
     else tcbs st !!! u) →
  ready_repr st' (<[lvl := l1 ++ l2]> rq) ∧
  (∀ u, t_state (tcbs st' !!! u) = t_state (tcbs st !!! u)) ∧
  (∀ u, u ∉ rq lvl → tcbs st' !!! u = tcbs st !!! u).
Proof using R.
  intros Hrq Hq Hr Hb Ht Hu.
  assert (lvl < NUM_PRIOS)%nat as Hl by (rewrite <-(rr_len _ _ R); by eapply lookup_lt_Some).
  pose proof (rr_queue _ _ R lvl q Hq) as Hqueue. rewrite Hrq in Hqueue.
  assert (NoDup (l1 ++ t :: l2)) as HN by (eapply chain_NoDup, Hqueue).
  assert (∀ u, u ∈ l1 ++ l2 → u ≠ t) as Hneq.
  { intros u Hin ->. apply NoDup_app in HN as (_ & Hd & HN).
    apply NoDup_cons in HN as [HN _]. set_solver. }
  assert (∀ u, t_state (tcbs st' !!! u) = t_state (tcbs st !!! u) ∧
    t_priority (tcbs st' !!! u) = t_priority (tcbs st !!! u)) as Hsame.
  { intros u. destruct (decide (u = t)) as [->|Hne]; [by rewrite Ht|].
    rewrite (Hu u Hne). by destruct (decide (last l1 = Some u)). }
  assert (∀ u, u ∉ rq lvl → tcbs st' !!! u = tcbs st !!! u) as Hout.
  { intros u Hout. rewrite Hu, decide_False; [done| |].
    - intros Hlast%last_in. apply Hout. rewrite Hrq. set_solver.
    - intros ->. apply Hout. rewrite Hrq. set_solver. }
  split; [|split; [apply Hsame|exact Hout]].
  eapply (ready_repr_update _ lvl); [done|exact Hr| | | | |].
  - apply (queue_remove _ _ (q_head q) (q_tail q) l1 t l2 Hqueue).
    + intros p Hp. rewrite (Hu p), decide_True by (done || apply Hneq, elem_of_app; left; by apply last_in).
      done.
    + intros y Hy Hyt. by rewrite Hu, decide_False by (done || by apply Hneq).
  - rewrite Hb. pose proof (rr_range _ _ R) as Hrange. destruct (l1 ++ l2); [by apply land_range|done].
  - intros k Hk. rewrite Hb. pose proof (rr_bit _ _ R k Hk) as Hbk. destruct (l1 ++ l2) as [|z l] eqn:E.
    + rewrite testbit_clear by (unfold NUM_PRIOS in *; lia). destruct (decide (k = lvl)) as [->|Ek].
      * rewrite (bool_decide_eq_true_2 (Z.of_nat lvl = _)) by done. apply andb_false_r.
      * rewrite (bool_decide_eq_false_2 (Z.of_nat k = _)) by lia. apply andb_true_r.
    + destruct (decide (k = lvl)) as [->|Ek]; [|done]. rewrite Hbk, Hrq.
      rewrite !bool_decide_eq_true_2; [done|done|by destruct l1].
  - intros k u Hk Hin. rewrite Hout; [done|]. intros Hin2. apply Hk.
    rewrite (ready_in_prio _ _ Hin), (ready_in_prio _ _ Hin2). done.
  - intros u Hin. destruct (Hsame u) as [-> ->]. apply (rr_in _ _ R). rewrite Hrq. set_solver.
Qed.

Lemma ready_dequeue_spec lvl :
  (lvl < NUM_PRIOS)%nat →
  wp (ready_dequeue lvl) (λ r st', sched_frame st st' ∧ r = head (rq lvl) ∧
    ready_repr st' (<[lvl := tail (rq lvl)]> rq) ∧
    (∀ u, t_state (tcbs st' !!! u) = t_state (tcbs st !!! u)) ∧
    (∀ u, u ∉ rq lvl → tcbs st' !!! u = tcbs st !!! u)) st.
Proof using R.
  intros Hl. destruct (ready_level lvl Hl) as [q Hq].
  pose proof (rr_queue _ _ R lvl q Hq) as Hqueue.
  unfold ready_dequeue. wp_acc. eapply wp_index; [exact Hq|]. wp_acc.
  rewrite (queue_head _ _ _ _ Hqueue). destruct (rq lvl) as [|t l] eqn:E; cbn.
  { wp_acc. split_and!; [apply sched_frame_refl|done| |done|done].
    eapply (ready_repr_update _ lvl (q_head q) (q_tail q)); try done.
    - rewrite list_insert_id; [done|]. rewrite Hq. by destruct q.
    - apply (rr_range _ _ R).
    - intros k Hk. case_decide; [|done]. subst. rewrite (rr_bit _ _ R lvl Hl). by rewrite E.
    - intros u Hu. set_solver. }
  apply queue_pop in Hqueue as [Hh [Hc Ht]]. wp_acc.
  eapply wp_index; [exact Hq|]. wp_acc.
  destruct (t_qnext (tcbs st !!! t)) as [n|] eqn:En.
  - assert (q_tail q ≠ Some t) as Hqt.
    { intros Eq. destruct l as [|y l]; [by rewrite (chain_head _ _ _ Hc) in En|].
      assert (NoDup (t :: y :: l)) as HN by (rewrite <-E; eapply chain_NoDup, (rr_queue _ _ R lvl q Hq)).
      rewrite Eq in Ht. symmetry in Ht. apply last_in in Ht. apply NoDup_cons in HN as [? _]. done. }
    wp_acc. split; [repeat sched_frame_step|]. split; [done|].
    rewrite <-E. apply (remove_repr _ t lvl [] l q); cbn; rewrite ?En; try done.
    + by rewrite decide_False.
    + destruct l; [by rewrite (chain_head _ _ _ Hc) in En|done].
    + by lk.
    + intros u Hu. by lk.
  - wp_acc. eapply wp_index; [apply list_lookup_insert_eq; cbn; by rewrite (rr_len _ _ R)|]. wp_acc.
    assert (l = []) as -> by (by apply chain_None in Hc).
    split; [repeat sched_frame_step|]. split; [done|].
    rewrite <-E. apply (remove_repr _ t lvl [] [] q); cbn; rewrite ?En; try done.
    + rewrite list_insert_insert_eq. destruct (rr_queue _ _ R lvl q Hq) as [_ Hqt].
      rewrite E in Hqt. by rewrite decide_True.
    + by lk.
    + intros u Hu. by lk.
Qed.

(** [t] spliced out of [l1 ++ t :: l2]: the head the level is left with. *)
Lemma remove_head t lvl l1 l2 q :
  rq lvl = l1 ++ t :: l2 → ready st !! lvl = Some q →
  match last l1 with None => t_qnext (tcbs st !!! t) | Some _ => q_head q end = head (l1 ++ l2).
Proof using R.
  intros Hrq Hq. pose proof (rr_queue _ _ R lvl q Hq) as Hqueue. rewrite Hrq in Hqueue.
  pose proof (queue_remove _ (λ u, if decide (last l1 = Some u) then t_qnext (tcbs st !!! t)
      else t_qnext (tcbs st !!! u)) _ _ _ _ _ Hqueue) as Hrem.
  eapply queue_head, Hrem; [intros p Hp; by rewrite decide_True|].
  intros y _ Hy. by rewrite decide_False.
Qed.

Lemma remove_not_last t lvl l1 l2 q :
  rq lvl = l1 ++ t :: l2 → ready st !! lvl = Some q → last l1 ≠ Some t.
Proof using R.
  intros Hrq Hq Hp%last_in. pose proof (rr_queue _ _ R lvl q Hq) as [HN%chain_NoDup _].
  rewrite Hrq in HN. apply NoDup_app in HN as (_ & HN & _). apply (HN t); set_solver.
Qed.

Lemma ready_unqueue_clear_spec st1 t lvl l1 l2 q :
  rq lvl = l1 ++ t :: l2 → ready st !! lvl = Some q →
  ready st1 = <[lvl := MkQueue (match last l1 with None => t_qnext (tcbs st !!! t) | Some _ => q_head q end)
                        (if decide (q_tail q = Some t) then last l1 else q_tail q)]> (ready st) →
  ready_bits st1 = ready_bits st → sched_frame st st1 →
  (∀ u, tcbs st1 !!! u =
     if decide (last l1 = Some u) then tcb_set_qnext (t_qnext (tcbs st !!! t)) (tcbs st !!! u)
     else tcbs st !!! u) →
  wp (ready_unqueue_clear t lvl) (λ _ st', unqueued st rq lvl (l1 ++ l2) st') st1.
Proof using R.
  intros Hrq Hq Hr Hb Hf Hu. assert (lvl < length (ready st))%nat as Hl by (by eapply lookup_lt_Some).
  pose proof (remove_not_last _ _ _ _ _ Hrq Hq) as Hlast.
  pose proof (remove_head _ _ _ _ _ Hrq Hq) as Hhead.
  unfold ready_unqueue_clear. wp_acc. cbn.
  eapply wp_index; [rewrite Hr; by apply list_lookup_insert_eq|]. wp_acc. cbn.
  rewrite Hhead. unfold unqueued. destruct (l1 ++ l2) as [|z l] eqn:El; cbn [head]; wp_acc;
    (split; [eapply sched_frame_trans; [exact Hf|repeat sched_frame_step]|]);
    match goal with |- ready_repr ?s _ ∧ _ => rewrite <-El; apply (remove_repr s t lvl l1 l2 q) end;
    rewrite ?El; cbn; rewrite ?Hr, ?Hb; try done;
    (lk; rewrite Hu, decide_False by done; done) || (intros u Hne; lk; apply Hu).
Qed.

Lemma ready_unqueue_fixup_spec st1 t lvl l1 l2 q :
  rq lvl = l1 ++ t :: l2 → ready st !! lvl = Some q →
  ready st1 = <[lvl := MkQueue (match last l1 with None => t_qnext (tcbs st !!! t) | Some _ => q_head q end)
                        (q_tail q)]> (ready st) →
  ready_bits st1 = ready_bits st → sched_frame st st1 →
  (∀ u, tcbs st1 !!! u =
     if decide (last l1 = Some u) then tcb_set_qnext (t_qnext (tcbs st !!! t)) (tcbs st !!! u)
     else tcbs st !!! u) →
  wp (ready_unqueue_fixup t lvl (last l1)) (λ _ st', unqueued st rq lvl (l1 ++ l2) st') st1.
Proof using R.
  intros Hrq Hq Hr Hb Hf Hu. assert (lvl < length (ready st))%nat as Hl by (by eapply lookup_lt_Some).
  unfold ready_unqueue_fixup. wp_acc.
  eapply wp_index; [rewrite Hr; by apply list_lookup_insert_eq|]. wp_acc. cbn [q_tail].
  assert ((match q_tail q with Some tl => bool_decide (tl = t) | None => false end) =
    bool_decide (q_tail q = Some t)) as ->.
  { destruct (q_tail q); apply eq_true_iff_eq; rewrite ?bool_decide_eq_true; naive_solver. }
  case_bool_decide as Et; wp_acc.
  - eapply wp_index; [rewrite Hr; by apply list_lookup_insert_eq|]. wp_acc.
    apply (ready_unqueue_clear_spec _ t lvl l1 l2 q); cbn; try done.
    + by rewrite Hr, list_insert_insert_eq, decide_True.
    + eapply sched_frame_trans; [exact Hf|repeat sched_frame_step].
  - apply (ready_unqueue_clear_spec _ t lvl l1 l2 q); try done. by rewrite decide_False.
Qed.

Lemma ready_unqueue_found_spec t lvl l1 l2 q :
  rq lvl = l1 ++ t :: l2 → ready st !! lvl = Some q →
  wp (ready_unqueue_found t lvl (last l1)) (λ _ st', unqueued st rq lvl (l1 ++ l2) st') st.
Proof using R.
  intros Hrq Hq. unfold ready_unqueue_found. wp_acc. destruct (last l1) as [p|] eqn:Ep; wp_acc.
  - rewrite <-Ep. apply (ready_unqueue_fixup_spec _ t lvl l1 l2 q); rewrite ?Ep; try done; cbn.
    + rewrite list_insert_id; [done|]. rewrite Hq. by destruct q.
    + repeat sched_frame_step.
    + intros u. case_decide; simplify_eq; by lk.
  - eapply wp_index; [exact Hq|]. wp_acc. rewrite <-Ep.
    by apply (ready_unqueue_fixup_spec _ t lvl l1 l2 q); rewrite ?Ep.
Qed.

(** Wherever [t] sits in its queue, [ready_unqueue] removes it and only it. *)
Lemma ready_unqueue_spec t l1 l2 :
  rq (Z.to_nat (t_priority (tcbs st !!! t))) = l1 ++ t :: l2 →
  wp (ready_unqueue t) (λ _ st', unqueued st rq (Z.to_nat (t_priority (tcbs st !!! t))) (l1 ++ l2) st') st.
Proof using R.
  set (lvl := Z.to_nat _). intros Hrq.
  assert (lvl < NUM_PRIOS)%nat as Hl.
  { destruct (decide (lvl < NUM_PRIOS)%nat); [done|]. rewrite (rr_out _ _ R) in Hrq by lia. by destruct l1. }
  destruct (ready_level lvl Hl) as [q Hq]. pose proof (rr_queue _ _ R lvl q Hq) as [Hc _].
  unfold ready_unqueue. wp_acc. fold lvl. eapply wp_index; [exact Hq|]. wp_acc.
  apply (wp_walk_found _ t _ l1 l2).
  - rewrite <-Hrq. exact Hc.
  - rewrite <-Hrq. apply ready_fuel.
  - by apply (ready_unqueue_found_spec t lvl l1 l2 q Hrq Hq).
Qed.

(** A thread on no queue is left alone. *)
Lemma ready_unqueue_absent t :
  0 ≤ t_priority (tcbs st !!! t) < 32 → t ∉ rq (Z.to_nat (t_priority (tcbs st !!! t))) →
  ready_unqueue t st = Ret (tt, st).
Proof using R.
  set (lvl := Z.to_nat _). intros Hp Hnin.
  destruct (ready_level lvl) as [q Hq]; [unfold lvl, NUM_PRIOS; lia|].
  pose proof (rr_queue _ _ R lvl q Hq) as [Hc _].
  unfold ready_unqueue, tcb_priority, ready_head, mbind, comp_bind, gets, index. fold lvl.
  rewrite Hq. cbn. apply (walk_until_missing _ t _ (rq lvl)); [exact Hc|done|apply ready_fuel].
Qed.
End ready_ops.
