(* ===== verification/Census.v ===== *)
(** Reference accounting ([kcore/src/cspace.rs], the [obj_census] and
    [end_caps] specifications, executable in [kcore/src/test_store.rs]): how many
    capabilities, mappings, thread holds, waiters, armed timers, channel bindings
    and IRQ bindings name each kernel object, and how many capabilities name each
    channel end. The kernel keeps the totals in [refs] and [end_caps]; every
    operation is shown to keep the kept totals in step with these counts. *)

From S2P Require Import Prelude KStore Ready.

(** The object a capability designates. *)
Definition cap_obj (c : Cap) : option ObjId :=
  match kind c with
  | CapKind.Aspace o | CapKind.CSpace o | CapKind.Thread o _ | CapKind.Channel o _
  | CapKind.Notification o | CapKind.Timer o | CapKind.Irq o => Some o
  | CapKind.Empty | CapKind.Untyped _ _ _ | CapKind.Frame _ _ _ => None
  end.

(** The address space a mapped frame capability holds. *)
Definition cap_frame_aspace (c : Cap) : option ObjId :=
  match kind c with CapKind.Frame _ _ (Some (a, _)) => Some a | _ => None end.

Definition cap_refs (o : ObjId) (c : Cap) : Z :=
  ind (cap_obj c = Some o) + ind (cap_frame_aspace c = Some o).
Definition slot_refs (o : ObjId) (s : CapSlot) : Z := cap_refs o (cap s).
Definition tcb_refs (o : ObjId) (t : Tcb) : Z :=
  ind (t_cspace t = Some o) + ind (t_aspace t = Some o) + ind (t_wait_notif t = Some o).
Definition timer_refs (o : ObjId) (t : TimerObj) : Z :=
  if tm_armed t then ind (tm_notif t = Some o) else 0.
Definition irq_refs (o : ObjId) (i : IrqObj) : Z :=
  if i_bound i then ind (i_notif i = Some o) else 0.
Definition bindings_refs (o : ObjId) (l : list (list Binding)) : Z :=
  foldr (λ row a, foldr (λ b a, ind (b_notif b = Some o) + a) 0 row + a) 0 l.
#[global] Arguments bindings_refs : simpl never.
Definition chan_refs (o : ObjId) (c : Channel) : Z := bindings_refs o (ch_bindings c).

Definition obj_census (st : Store) (o : ObjId) : Z :=
  msum (slot_refs o) (slots st) + msum (tcb_refs o) (tcbs st) + msum (timer_refs o) (timers st) +
  msum (irq_refs o) (irqs st) + msum (chan_refs o) (chans st) + Z.of_nat (pinned st !!! o).

(** [refs] equals the census up to [b], the references an operation in progress
    has taken out of (or put into) the store. *)
Definition refs_bal (st : Store) (b : ObjId → Z) : Prop :=
  ∀ o, refs st !!! o = obj_census st o + b o.
Definition refcount_sound (st : Store) : Prop := refs_bal st (λ _, 0).

(** Capabilities to the end [e] of channel [ch]. *)
Definition end_refs (ch : ObjId) (e : ChanEnd.chan_end) (s : CapSlot) : Z :=
  ind (kind (cap s) = CapKind.Channel ch e).
Definition end_census (st : Store) (ch : ObjId) (e : ChanEnd.chan_end) : Z :=
  msum (end_refs ch e) (slots st).

(** [end_idx] of [kcore/src/channel.rs]. *)
Definition end_idx (e : ChanEnd.chan_end) : nat :=
  match e with ChanEnd.A => 0%nat | ChanEnd.B => 1%nat end.
Definition end_caps_bal (st : Store) (b : ObjId → ChanEnd.chan_end → Z) : Prop :=
  ∀ ch e n, ch_end_caps (chans st !!! ch) !! end_idx e = Some n → n = end_census st ch e + b ch e.
Definition end_caps_sound (st : Store) : Prop := end_caps_bal st (λ _ _, 0).

(** ** Lemmas *)
Create HintDb census.
Create Rewrite HintDb census.

Lemma cap_refs_nonneg o c : 0 ≤ cap_refs o c.
Proof. unfold cap_refs. pose proof (ind_nonneg (cap_obj c = Some o)).
  pose proof (ind_nonneg (cap_frame_aspace c = Some o)). lia. Qed.

Lemma slot_refs_nonneg o s : 0 ≤ slot_refs o s.
Proof. apply cap_refs_nonneg. Qed.

Lemma tcb_refs_nonneg o t : 0 ≤ tcb_refs o t.
Proof. unfold tcb_refs, ind. repeat case_decide; lia. Qed.

Lemma timer_refs_nonneg o t : 0 ≤ timer_refs o t.
Proof. unfold timer_refs, ind. case_match; repeat case_decide; lia. Qed.

Lemma irq_refs_nonneg o t : 0 ≤ irq_refs o t.
Proof. unfold irq_refs, ind. case_match; repeat case_decide; lia. Qed.

Lemma bindings_refs_nonneg o l : 0 ≤ bindings_refs o l.
Proof.
  unfold bindings_refs in *. induction l as [|row l IH]; simpl; [done|].
  assert (0 ≤ foldr (λ b a, ind (b_notif b = Some o) + a) 0 row); [|lia].
  induction row as [|b row IHr]; simpl; [done|].
  pose proof (ind_nonneg (b_notif b = Some o)). lia.
Qed.

Lemma chan_refs_nonneg o c : 0 ≤ chan_refs o c.
Proof. apply bindings_refs_nonneg. Qed.

Lemma end_refs_nonneg ch e s : 0 ≤ end_refs ch e s.
Proof. apply ind_nonneg. Qed.
#[export] Hint Resolve slot_refs_nonneg tcb_refs_nonneg timer_refs_nonneg irq_refs_nonneg
  chan_refs_nonneg end_refs_nonneg : census.

Lemma obj_census_parts st o :
  0 ≤ msum (slot_refs o) (slots st) ∧ 0 ≤ msum (tcb_refs o) (tcbs st) ∧
  0 ≤ msum (timer_refs o) (timers st) ∧ 0 ≤ msum (irq_refs o) (irqs st) ∧
  0 ≤ msum (chan_refs o) (chans st).
Proof. split_and!; apply msum_nonneg; eauto with census. Qed.

Lemma obj_census_nonneg st o : 0 ≤ obj_census st o.
Proof. pose proof (obj_census_parts st o). unfold obj_census. lia. Qed.

(** A single holder is a lower bound of the census. *)
Lemma slot_refs_le st s o : slot_refs o (slots st !!! s) ≤ obj_census st o.
Proof.
  pose proof (obj_census_parts st o). unfold obj_census.
  assert (slot_refs o (slots st !!! s) ≤ msum (slot_refs o) (slots st)); [|lia].
  apply msum_lower; [eauto with census|done].
Qed.

Lemma pinned_le st o : Z.of_nat (pinned st !!! o) ≤ obj_census st o.
Proof. pose proof (obj_census_parts st o). unfold obj_census. lia. Qed.

Lemma tcb_refs_le st t o : tcb_refs o (tcbs st !!! t) ≤ obj_census st o.
Proof.
  pose proof (obj_census_parts st o). unfold obj_census.
  assert (tcb_refs o (tcbs st !!! t) ≤ msum (tcb_refs o) (tcbs st)); [|lia].
  apply msum_lower; [eauto with census|done].
Qed.

Lemma timer_refs_le st t o : timer_refs o (timers st !!! t) ≤ obj_census st o.
Proof.
  pose proof (obj_census_parts st o). unfold obj_census.
  assert (timer_refs o (timers st !!! t) ≤ msum (timer_refs o) (timers st)); [|lia].
  apply msum_lower; [eauto with census|done].
Qed.

Lemma irq_refs_le st t o : irq_refs o (irqs st !!! t) ≤ obj_census st o.
Proof.
  pose proof (obj_census_parts st o). unfold obj_census.
  assert (irq_refs o (irqs st !!! t) ≤ msum (irq_refs o) (irqs st)); [|lia].
  apply msum_lower; [eauto with census|done].
Qed.

Lemma chan_refs_le st c o : chan_refs o (chans st !!! c) ≤ obj_census st o.
Proof.
  pose proof (obj_census_parts st o). unfold obj_census.
  assert (chan_refs o (chans st !!! c) ≤ msum (chan_refs o) (chans st)); [|lia].
  apply msum_lower; [eauto with census|done].
Qed.

Lemma end_refs_le st ch e s : end_refs ch e (slots st !!! s) ≤ end_census st ch e.
Proof. apply msum_lower; [eauto with census|done]. Qed.

(** How one update moves the census. *)
Lemma census_set_slot s v st o :
  obj_census (with_slots (<[s := v]>) st) o =
    obj_census st o - slot_refs o (slots st !!! s) + slot_refs o v.
Proof. unfold obj_census. cbn. rewrite msum_insert by done. lia. Qed.

Lemma census_upd_tcb t g st o :
  obj_census (with_tcbs (λ m, <[t := g (m !!! t)]> m) st) o =
    obj_census st o - tcb_refs o (tcbs st !!! t) + tcb_refs o (g (tcbs st !!! t)).
Proof. unfold obj_census. cbn. rewrite msum_insert by done. lia. Qed.

Lemma census_upd_timer t g st o :
  obj_census (with_timers (λ m, <[t := g (m !!! t)]> m) st) o =
    obj_census st o - timer_refs o (timers st !!! t) + timer_refs o (g (timers st !!! t)).
Proof. unfold obj_census. cbn. rewrite msum_insert by done. lia. Qed.

Lemma census_upd_irq t g st o :
  obj_census (with_irqs (λ m, <[t := g (m !!! t)]> m) st) o =
    obj_census st o - irq_refs o (irqs st !!! t) + irq_refs o (g (irqs st !!! t)).
Proof. unfold obj_census. cbn. rewrite msum_insert by done. lia. Qed.

Lemma census_upd_chan t g st o :
  obj_census (with_chans (λ m, <[t := g (m !!! t)]> m) st) o =
    obj_census st o - chan_refs o (chans st !!! t) + chan_refs o (g (chans st !!! t)).
Proof. unfold obj_census. cbn. rewrite msum_insert by done. lia. Qed.

Lemma census_with_refs f st o : obj_census (with_refs f st) o = obj_census st o.
Proof. done. Qed.
Lemma census_with_notifs f st o : obj_census (with_notifs f st) o = obj_census st o.
Proof. done. Qed.
Lemma census_with_ready f st o : obj_census (with_ready f st) o = obj_census st o.
Proof. done. Qed.
Lemma census_with_ready_bits f st o : obj_census (with_ready_bits f st) o = obj_census st o.
Proof. done. Qed.
Lemma census_with_armed_head f st o : obj_census (with_armed_head f st) o = obj_census st o.
Proof. done. Qed.
Lemma census_with_hw f st o : obj_census (with_hw f st) o = obj_census st o.
Proof. done. Qed.
Lemma census_with_aspaces f st o : obj_census (with_aspaces f st) o = obj_census st o.
Proof. done. Qed.
#[export] Hint Rewrite census_set_slot census_upd_tcb census_upd_timer census_upd_irq census_upd_chan
  census_with_refs census_with_notifs census_with_ready census_with_ready_bits
  census_with_armed_head census_with_hw census_with_aspaces : census.

(** Scheduler moves do not change who refers to what. *)
Lemma census_sched_frame st st' o : sched_frame st st' → obj_census st' o = obj_census st o.
Proof.
  intros F. unfold obj_census.
  rewrite (sf_slots _ _ F), (sf_timers _ _ F), (sf_irqs _ _ F), (sf_chans _ _ F), (sf_pinned _ _ F).
  rewrite (sf_sum _ _ F (tcb_refs o)); [done| |done]. by intros [].
Qed.

Lemma end_census_set_slot s v st ch e :
  end_census (with_slots (<[s := v]>) st) ch e =
    end_census st ch e - end_refs ch e (slots st !!! s) + end_refs ch e v.
Proof. unfold end_census. cbn. by rewrite msum_insert. Qed.

Lemma end_census_nonneg st ch e : 0 ≤ end_census st ch e.
Proof. apply msum_nonneg. eauto with census. Qed.

Lemma ind_true (P : Prop) `{Decision P} : P → ind P = 1.
Proof. intros. unfold ind. by rewrite decide_True. Qed.
Lemma ind_false (P : Prop) `{Decision P} : ¬ P → ind P = 0.
Proof. intros. unfold ind. by rewrite decide_False. Qed.

(** One reference taken or given back. *)
Lemma refs_minus (m : gmap ObjId Z) n o :
  <[n := m !!! n - 1]> m !!! o = m !!! o + - ind (Some n = Some o).
Proof.
  destruct (decide (o = n)) as [->|Hne]; lk; [rewrite ind_true by done; lia|].
  rewrite ind_false by congruence. lia.
Qed.

Lemma refs_plus (m : gmap ObjId Z) n o :
  <[n := m !!! n + 1]> m !!! o = m !!! o + ind (Some n = Some o).
Proof.
  destruct (decide (o = n)) as [->|Hne]; lk; [rewrite ind_true by done; lia|].
  rewrite ind_false by congruence. lia.
Qed.

