(* ===== verification/Notif.v ===== *)
(** Notifications ([kcore/src/notification.rs]): a 64-bit word of pending bits
    and a FIFO queue of waiting threads. [signal] ORs bits in and hands the
    accumulated word to the longest waiter; [wait] consumes the word or blocks;
    [remove_waiter] takes a dying thread off the queue. *)

From S2P Require Import Prelude KStore Ready Census.

(** ** Operations *)

(** Dequeue the longest waiter [t] and leave it the accumulated word. *)
Definition signal_deliver (n t : ObjId) (word : Z) : K unit :=
  next ← tcb_qnext t;
  set_notif_wait_head n next;;
  when_ (bool_decide (next = None)) (set_notif_wait_tail n None);;
  set_tcb_qnext t None;;
  set_tcb_wait_notif t None;;
  set_tcb_retval t word;;
  set_notif_word n 0;;
  r ← obj_refs n;
  r' ← usub r 1;
  set_obj_refs n r'.

Definition signal (n : ObjId) (bits : Z) : K unit :=
  w ← notif_word n;
  let word := Z.lor w bits in
  set_notif_word n word;;
  head ← notif_wait_head n;
  if (word =? 0) || bool_decide (head = None) then mret tt
  else
    t ← unwrap head;
    signal_deliver n t word;;
    make_runnable t.

Definition wait (n cur : ObjId) : K (option Z) :=
  word ← notif_word n;
  if negb (word =? 0) then
    set_notif_word n 0;;
    mret (Some word)
  else
    set_tcb_state cur ThreadState.BlockedNotif;;
    set_tcb_wait_notif cur (Some n);;
    set_tcb_qnext cur None;;
    tl ← notif_wait_tail n;
    (match tl with
     | None => set_notif_wait_head n (Some cur)
     | Some tail => set_tcb_qnext tail (Some cur)
     end);;
    set_notif_wait_tail n (Some cur);;
    r ← obj_refs n;
    r' ← uadd U32_MAX r 1;
    set_obj_refs n r';;
    mret None.

(** Nothing to do at the last reference: no waiter can be left. *)
Definition destroy_notif (_ : ObjId) : K unit := mret tt.

(** The body of the walk once [t] is found. *)
Definition remove_waiter_found (n t : ObjId) (prev : option ObjId) : K unit :=
  next ← tcb_qnext t;
  (match prev with
   | None => set_notif_wait_head n next
   | Some p => set_tcb_qnext p next
   end);;
  tl ← notif_wait_tail n;
  when_ (match tl with Some tl => bool_decide (tl = t) | None => false end)
    (set_notif_wait_tail n prev);;
  set_tcb_qnext t None;;
  set_tcb_wait_notif t None;;
  r ← obj_refs n;
  r' ← usub r 1;
  set_obj_refs n r'.

Definition remove_waiter (n t : ObjId) : K unit :=
  cur ← notif_wait_head n;
  fuel ← gets (λ st, size (tcbs st));
  walk_until fuel qnext_of t cur None (remove_waiter_found n t).

(** ** Abstract view: the waiters of every notification, oldest first *)

Record notif_repr (st : Store) (wq : ObjId → list ObjId) : Prop := {
  nr_queue n : queue (λ t, t_qnext (tcbs st !!! t)) (n_wait_head (notifs st !!! n))
    (n_wait_tail (notifs st !!! n)) (wq n);
  nr_in n t : t ∈ wq n → t_state (tcbs st !!! t) = ThreadState.BlockedNotif ∧
    t_wait_notif (tcbs st !!! t) = Some n;
  nr_complete n t : t_wait_notif (tcbs st !!! t) = Some n → t ∈ wq n;
  nr_word n : n_word (notifs st !!! n) ≠ 0 → wq n = [];
}.

(** The scheduler-side invariant: ready queues and wait queues are well formed,
    complete, and every priority is a level. [E] are threads in transit. *)
Record sched_inv (st : Store) (rq : nat → list ObjId) (wq : ObjId → list ObjId) (E : gset ObjId) : Prop := {
  si_ready : ready_repr st rq;
  si_complete : ready_complete st rq E;
  si_notif : notif_repr st wq;
  si_prio t : 0 ≤ t_priority (tcbs st !!! t) < 32;
}.

(** What a wake-up may change: queue links, run states, the woken thread's
    return register, notification words, and reference counts in step with the
    census. *)
Definition tcb_fixed (o : Tcb) : option ObjId * option ObjId * Report.report * Z * list SlotId * list Z :=
  (t_cspace o, t_aspace o, t_report o, t_priority o, t_bind_slots o, t_bind_bits o).

Record wake_frame (st st' : Store) : Prop := {
  wf_slots : slots st' = slots st;
  wf_cspaces : cspaces st' = cspaces st;
  wf_chans : chans st' = chans st;
  wf_timers : timers st' = timers st;
  wf_irqs : irqs st' = irqs st;
  wf_aspaces : aspaces st' = aspaces st;
  wf_armed : armed_head st' = armed_head st;
  wf_hw : hw st' = hw st;
  wf_pinned : pinned st' = pinned st;
  wf_tcb u : tcb_fixed (tcbs st' !!! u) = tcb_fixed (tcbs st !!! u);
  wf_bal b : refs_bal st b → refs_bal st' b;
}.

(** A thread on no queue at all: running, inactive, stopped or in transit. *)
Definition off_queues (rq : nat → list ObjId) (wq : ObjId → list ObjId) (u : ObjId) : Prop :=
  (∀ k, u ∉ rq k) ∧ (∀ m, u ∉ wq m).

(** How signals move the run state of a thread: a waiter is woken. *)
Definition woken (s s' : ThreadState.thread_state) : Prop :=
  s' = s ∨ (s = ThreadState.BlockedNotif ∧ s' = ThreadState.Runnable).

(** What any number of signals may do to the store: wake waiters. *)
Record wakes (st : Store) (rq : nat → list ObjId) (wq : ObjId → list ObjId) (E : gset ObjId) (st' : Store) : Prop := {
  wk_frame : wake_frame st st';
  wk_inv : ∃ rq' wq', sched_inv st' rq' wq' E ∧
    ∀ u, off_queues rq wq u → off_queues rq' wq' u ∧ tcbs st' !!! u = tcbs st !!! u;
  wk_state u : woken (t_state (tcbs st !!! u)) (t_state (tcbs st' !!! u));
}.

Lemma woken_trans s1 s2 s3 : woken s1 s2 → woken s2 s3 → woken s1 s3.
Proof. unfold woken. naive_solver. Qed.

(** ** Lemmas *)
Section notif_ops.
Context (st : Store) (rq : nat → list ObjId) (wq : ObjId → list ObjId) (E : gset ObjId).
Hypothesis I : sched_inv st rq wq E.

Lemma waiter_not_ready n t k : t ∈ wq n → t ∉ rq k.
Proof using I.
  intros [Hs _]%(nr_in _ _ (si_notif _ _ _ _ I)) [Hr _]%(rr_in _ _ (si_ready _ _ _ _ I)). congruence.
Qed.

Lemma waiter_unique n m t : t ∈ wq n → t ∈ wq m → n = m.
Proof using I.
  intros [_ H1]%(nr_in _ _ (si_notif _ _ _ _ I)) [_ H2]%(nr_in _ _ (si_notif _ _ _ _ I)). congruence.
Qed.

(** Queued waiters are stored threads: the walk bound suffices. *)
Lemma waiter_fuel n : (length (wq n) ≤ size (tcbs st))%nat.
Proof using I.
  destruct (nr_queue _ _ (si_notif _ _ _ _ I) n) as [Hc _].
  apply distinct_keys_size; [by eapply chain_NoDup|].
  intros k [Hs _]%(nr_in _ _ (si_notif _ _ _ _ I)) Eq. rewrite Eq in Hs. done.
Qed.

(** A queued waiter holds a reference. *)
Lemma waiter_refs b n t : refs_bal st b → 0 ≤ b n → t ∈ wq n → 1 ≤ refs st !!! n.
Proof using I.
  intros Hb Hbn [_ Hw]%(nr_in _ _ (si_notif _ _ _ _ I)). rewrite Hb.
  pose proof (tcb_refs_le st t n) as Hle. unfold tcb_refs in Hle. rewrite Hw in Hle.
  rewrite (ind_true (Some n = Some n)) in Hle by done.
  pose proof (ind_nonneg (t_cspace (tcbs st !!! t) = Some n)).
  pose proof (ind_nonneg (t_aspace (tcbs st !!! t) = Some n)). lia.
Qed.

(** [signal] with nobody to wake only records the bits. *)
Lemma signal_quiet n bits :
  (Z.lor (n_word (notifs st !!! n)) bits = 0 ∨ wq n = []) →
  signal n bits st = Ret (tt, with_notifs (<[n := MkNotif (Z.lor (n_word (notifs st !!! n)) bits)
     (n_wait_head (notifs st !!! n)) (n_wait_tail (notifs st !!! n))]>) st).
Proof using I.
  intros Hq. unfold signal, set_notif_word, notif_word, upd_notif, notif_wait_head, gets, modify, mbind, comp_bind, mret, comp_ret.
  cbn. lk. cbn. pose proof (queue_head _ _ _ _ (nr_queue _ _ (si_notif _ _ _ _ I) n)) as Hh.
  destruct Hq as [Hq|Hq]; [unfold with_notifs; by rewrite Hq|].
  unfold with_notifs. rewrite Hh, Hq. rewrite bool_decide_eq_true_2 by done. by rewrite orb_true_r.
Qed.

Lemma signal_quiet_inv n bits :
  (Z.lor (n_word (notifs st !!! n)) bits = 0 ∨ wq n = []) →
  sched_inv (with_notifs (<[n := MkNotif (Z.lor (n_word (notifs st !!! n)) bits)
     (n_wait_head (notifs st !!! n)) (n_wait_tail (notifs st !!! n))]>) st) rq wq E.
Proof using I.
  intros Hq. destruct I as [R C [N1 N2 N3 N4] P]. split; try done.
  - by apply (ready_repr_ext _ _ R).
  - split; cbn.
    + intros m. destruct (decide (m = n)) as [->|]; lk; cbn; apply N1.
    + apply N2.
    + apply N3.
    + intros m. destruct (decide (m = n)) as [->|]; lk; cbn; [|apply N4].
      destruct Hq as [->|Hq]; [done|by intros _].
Qed.

(** One waiter spliced out of the queue of [n]. *)
Lemma notif_repr_remove st1 n t l1 l2 :
  wq n = l1 ++ t :: l2 →
  (∀ m, m ≠ n → notifs st1 !!! m = notifs st !!! m) →
  n_wait_head (notifs st1 !!! n) =
    match last l1 with None => t_qnext (tcbs st !!! t) | Some _ => n_wait_head (notifs st !!! n) end →
  n_wait_tail (notifs st1 !!! n) =
    (if decide (n_wait_tail (notifs st !!! n) = Some t) then last l1 else n_wait_tail (notifs st !!! n)) →
  n_word (notifs st1 !!! n) = 0 →
  t_wait_notif (tcbs st1 !!! t) = None →
  (∀ u, u ≠ t → tcbs st1 !!! u =
     if decide (last l1 = Some u) then tcb_set_qnext (t_qnext (tcbs st !!! t)) (tcbs st !!! u)
     else tcbs st !!! u) →
  notif_repr st1 (<[n := l1 ++ l2]> wq).
Proof using I.
  intros Hwq Hm Hh Ht Hw Hwt Hu. pose proof (si_notif _ _ _ _ I) as N.
  pose proof (nr_queue _ _ N n) as Hq. rewrite Hwq in Hq.
  assert (∀ u, u ∈ l1 ++ l2 → u ≠ t) as Hneq.
  { destruct Hq as [HN%chain_NoDup _]. intros u Hin ->. apply NoDup_app in HN as (_ & Hd & HN).
    apply NoDup_cons in HN as [HN _]. set_solver. }
  assert (∀ u, u ≠ t → t_state (tcbs st1 !!! u) = t_state (tcbs st !!! u) ∧
    t_wait_notif (tcbs st1 !!! u) = t_wait_notif (tcbs st !!! u)) as Hsame.
  { intros u Hne. rewrite (Hu u Hne). by destruct (decide (last l1 = Some u)). }
  assert (∀ m u, m ≠ n → u ∈ wq m → u ≠ t) as Hother.
  { intros m u Hne Hin ->. apply Hne. eapply waiter_unique; [exact Hin|]. rewrite Hwq. set_solver. }
  split.
  - intros m. destruct (decide (m = n)) as [->|Hne].
    + rewrite fn_lookup_insert, Hh, Ht. apply (queue_remove _ _ _ _ _ _ _ Hq).
      * intros p Hp. rewrite (Hu p), decide_True by (done || apply Hneq, elem_of_app; left; by apply last_in).
        done.
      * intros y Hy Hyt. by rewrite Hu, decide_False by (done || by apply Hneq).
    + rewrite fn_lookup_insert_ne, Hm by done. eapply queue_ext; [|apply (nr_queue _ _ N)].
      intros u Hin. rewrite Hu, decide_False; [done| |by eapply Hother].
      intros Hlast%last_in. apply Hne. eapply waiter_unique; [exact Hin|]. rewrite Hwq. set_solver.
  - intros m u Hin. assert (u ∈ wq m ∧ u ≠ t) as [Hin' Hne].
    { destruct (decide (m = n)) as [->|Hne].
      - rewrite fn_lookup_insert in Hin. split; [rewrite Hwq; set_solver|by apply Hneq].
      - rewrite fn_lookup_insert_ne in Hin by done. split; [done|by eapply Hother]. }
    destruct (Hsame u Hne) as [-> ->]. by apply (nr_in _ _ N).
  - intros m u Hmu. assert (u ≠ t) as Hne by congruence.
    destruct (Hsame u Hne) as [_ Eq]. rewrite Eq in Hmu. apply (nr_complete _ _ N) in Hmu.
    destruct (decide (m = n)) as [->|Hne']; [|by rewrite fn_lookup_insert_ne].
    rewrite fn_lookup_insert. rewrite Hwq in Hmu. set_solver.
  - intros m. destruct (decide (m = n)) as [->|Hne]; [by rewrite Hw|].
    rewrite fn_lookup_insert_ne, Hm by done. apply (nr_word _ _ N).
Qed.
End notif_ops.

(** Scheduler moves of a thread that waits on nothing leave the wait queues alone. *)
Lemma notif_repr_sched st st' wq t :
  notif_repr st wq → sched_frame st st' → (∀ n, t ∉ wq n) →
  (∀ u, u ≠ t → t_state (tcbs st' !!! u) = t_state (tcbs st !!! u)) →
  (∀ n u, u ∈ wq n → t_qnext (tcbs st' !!! u) = t_qnext (tcbs st !!! u)) →
  notif_repr st' wq.
Proof.
  intros N F Ht Hs Hq. assert (∀ u, t_wait_notif (tcbs st' !!! u) = t_wait_notif (tcbs st !!! u)) as Hw
    by (intros u; apply (f_equal t_wait_notif (sf_core _ _ F u))).
  destruct N as [N1 N2 N3 N4]. split; rewrite ?(sf_notifs _ _ F); try done.
  - intros n. eapply queue_ext; [|apply N1]. intros u Hu. by apply (Hq n).
  - intros n u Hu. rewrite Hw, Hs; [by apply N2|]. intros ->. by apply (Ht n).
  - intros n u. rewrite Hw. apply N3.
Qed.

Lemma tcb_fixed_core st st' u : sched_frame st st' → tcb_fixed (tcbs st' !!! u) = tcb_fixed (tcbs st !!! u).
Proof.
  intros F. pose proof (sf_core _ _ F u) as Hc.
  assert (∀ o, tcb_fixed o = tcb_fixed (tcb_core o)) as Hf by done.
  by rewrite Hf, Hc, <-Hf.
Qed.

Lemma sched_inv_mono st rq wq E E' : E ⊆ E' → sched_inv st rq wq E → sched_inv st rq wq E'.
Proof. intros HE [R C N P]. split; try done. intros t Ht Hn. apply C; [done|]. set_solver. Qed.

Lemma tcb_ext o o' : tcb_core o = tcb_core o' → t_state o = t_state o' → t_qnext o = t_qnext o' → o = o'.
Proof. destruct o, o'. unfold tcb_core, tcb_set_qnext, tcb_set_state. cbn. intros. congruence. Qed.

(** Enqueueing a thread that was on no queue, after which every invariant is back. *)
Lemma make_runnable_inv st rq wq E t :
  sched_inv st rq wq E → (∀ k, t ∉ rq k) → (∀ n, t ∉ wq n) →
  let lvl := Z.to_nat (t_priority (tcbs st !!! t)) in
  wp (make_runnable t) (λ _ st', sched_frame st st' ∧
    sched_inv st' (<[lvl := rq lvl ++ [t]]> rq) wq (E ∖ {[t]}) ∧
    (∀ u, u ≠ t → u ∉ rq lvl → tcbs st' !!! u = tcbs st !!! u) ∧
    t_state (tcbs st' !!! t) = ThreadState.Runnable ∧ (∀ u, u ≠ t → t_state (tcbs st' !!! u) = t_state (tcbs st !!! u))) st.
Proof.
  intros I Hr Hw lvl. pose proof (si_prio _ _ _ _ I t) as Hp.
  eapply wp_mono; [apply (ready_enqueue_spec _ _ (si_ready _ _ _ _ I) t Hr Hp)|].
  cbv beta. fold lvl. intros _ st' (F & R & Hst & Hso & Hqn). split; [done|].
  assert (∀ u, t_priority (tcbs st' !!! u) = t_priority (tcbs st !!! u)) as Hprio
    by (intros u; apply (f_equal t_priority (sf_core _ _ F u))).
  split; [|split; [intros u ? ?; apply tcb_ext; [apply (sf_core _ _ F)|by apply Hso|by apply Hqn]|done]].
  split; [done| | |intros u; rewrite Hprio; apply (si_prio _ _ _ _ I)].
  - intros u Hu Hnin. rewrite Hprio. split; [apply (si_prio _ _ _ _ I)|].
    destruct (decide (u = t)) as [->|Hne].
    { fold lvl. rewrite fn_lookup_insert. apply elem_of_app. right. by apply list_elem_of_singleton. }
    rewrite Hso in Hu by done. apply (si_complete _ _ _ _ I) in Hu as [_ Hin]; [clear -Hnin Hne; set_solver|].
    destruct (decide (Z.to_nat (t_priority (tcbs st !!! u)) = lvl)) as [Eq|Hl].
    + rewrite Eq, fn_lookup_insert. rewrite Eq in Hin. apply elem_of_app. by left.
    + by rewrite fn_lookup_insert_ne.
  - eapply (notif_repr_sched st st' wq t); [apply (si_notif _ _ _ _ I)|done..|].
    intros n u Hin. apply Hqn; [intros ->; by apply (Hw n)|].
    by eapply waiter_not_ready.
Qed.

Section notif_specs.
Context (st : Store) (rq : nat → list ObjId) (wq : ObjId → list ObjId) (E : gset ObjId).
Hypothesis I : sched_inv st rq wq E.

(** The state once a waiter has been taken off its queue, [t] being in transit. *)
Lemma removed_inv st1 n t l1 l2 :
  wq n = l1 ++ t :: l2 →
  ready st1 = ready st → ready_bits st1 = ready_bits st → notif_repr st1 (<[n := l1 ++ l2]> wq) →
  (∀ u, u ≠ t → tcbs st1 !!! u =
     if decide (last l1 = Some u) then tcb_set_qnext (t_qnext (tcbs st !!! t)) (tcbs st !!! u)
     else tcbs st !!! u) →
  t_state (tcbs st1 !!! t) = t_state (tcbs st !!! t) →
  t_priority (tcbs st1 !!! t) = t_priority (tcbs st !!! t) →
  sched_inv st1 rq (<[n := l1 ++ l2]> wq) E ∧ (∀ k, t ∉ rq k) ∧ (∀ m, t ∉ (<[n := l1 ++ l2]> wq) m).
Proof using I.
  intros Hwq Hr Hb N Hu Hts Htp.
  assert (t ∈ wq n) as Htn by (rewrite Hwq; set_solver).
  assert (∀ u, t_state (tcbs st1 !!! u) = t_state (tcbs st !!! u) ∧
    t_priority (tcbs st1 !!! u) = t_priority (tcbs st !!! u)) as Hsame.
  { intros u. destruct (decide (u = t)) as [->|Hne]; [done|].
    rewrite (Hu u Hne). by destruct (decide (last l1 = Some u)). }
  split_and!.
  - split; [|..|intros u; destruct (Hsame u) as [_ ->]; apply (si_prio _ _ _ _ I)].
    + apply (ready_repr_ext st rq (si_ready _ _ _ _ I)); [done..|].
      intros k u Hin. destruct (Hsame u) as [-> ->]. split; [|done].
      assert (u ∉ wq n) as Hnw by (intros Hw; by eapply waiter_not_ready).
      assert (u ≠ t) by (by intros ->). rewrite Hu, decide_False; [done| |done].
      intros Hlast%last_in. apply Hnw. rewrite Hwq. set_solver.
    + intros u. destruct (Hsame u) as [-> ->]. apply (si_complete _ _ _ _ I).
    + done.
  - intros k. by eapply waiter_not_ready.
  - intros m. destruct (decide (m = n)) as [->|Hne].
    + rewrite fn_lookup_insert. destruct (nr_queue _ _ (si_notif _ _ _ _ I) n) as [HN%chain_NoDup _].
      rewrite Hwq in HN. apply NoDup_app in HN as (_ & Hd & HN). apply NoDup_cons in HN as [HN _]. set_solver.
    + rewrite fn_lookup_insert_ne by done. intros Hin. apply Hne. by eapply waiter_unique.
Qed.
End notif_specs.

Lemma wake_frame_refl st : wake_frame st st.
Proof. by split. Qed.

Lemma wake_frame_trans st1 st2 st3 : wake_frame st1 st2 → wake_frame st2 st3 → wake_frame st1 st3.
Proof. intros [] []. split; try congruence. eauto. Qed.

Lemma wake_frame_sched st st' : sched_frame st st' → wake_frame st st'.
Proof.
  intros F. split; try apply F; [intros u; by apply tcb_fixed_core|].
  intros b Hb o. by rewrite (sf_refs _ _ F), (census_sched_frame _ _ _ F).
Qed.

Lemma wake_frame_notifs st f : wake_frame st (with_notifs f st).
Proof. by split. Qed.

(** A thread changed in place: its link, wait and frame; the reference it held on
    what it no longer waits for is dropped in step. *)
Lemma wake_frame_tcb st t g :
  (∀ v, tcb_fixed (g v) = tcb_fixed v) → (∀ v, t_wait_notif (g v) = t_wait_notif v) →
  wake_frame st (with_tcbs (λ m, <[t := g (m !!! t)]> m) st).
Proof.
  intros Hf Hw. split; try done; cbn.
  - intros u. destruct (decide (u = t)) as [->|]; by lk.
  - intros b Hb o. autorewrite with census. cbn. rewrite Hb.
    specialize (Hf (tcbs st !!! t)). specialize (Hw (tcbs st !!! t)).
    unfold tcb_fixed in Hf. injection Hf as E1 E2 _ _ _ _.
    unfold tcb_refs. rewrite E1, E2, Hw. lia.
Qed.

Lemma wake_frame_rewait st st1 t n v d :
  slots st1 = slots st → cspaces st1 = cspaces st → chans st1 = chans st → timers st1 = timers st →
  irqs st1 = irqs st → aspaces st1 = aspaces st → armed_head st1 = armed_head st → hw st1 = hw st → pinned st1 = pinned st →
  tcbs st1 = <[t := v]> (tcbs st) → refs st1 = <[n := refs st !!! n + d]> (refs st) →
  tcb_fixed v = tcb_fixed (tcbs st !!! t) →
  (∀ o, ind (t_wait_notif v = Some o) =
    ind (t_wait_notif (tcbs st !!! t) = Some o) + d * ind (Some n = Some o)) →
  wake_frame st st1.
Proof.
  intros E1 E2 E3 E4 E5 E6 E7 E8 E9 Et Er Hf Hw. split; try done.
  - intros u. rewrite Et. destruct (decide (u = t)) as [->|]; by lk.
  - intros b Hb o. assert (obj_census st1 o = obj_census st o + d * ind (Some n = Some o)) as ->.
    { unfold obj_census. rewrite E1, E3, E4, E5, E9, Et, msum_insert by done.
      unfold tcb_fixed in Hf. injection Hf as F1 F2 _ _ _ _.
      assert (tcb_refs o v = tcb_refs o (tcbs st !!! t) + d * ind (Some n = Some o)) as ->; [|lia].
      unfold tcb_refs. rewrite F1, F2, (Hw o). lia. }
    rewrite Er. destruct (decide (o = n)) as [->|Hne]; lk; rewrite Hb.
    + rewrite (ind_true (Some n = Some n)) by done. lia.
    + rewrite (ind_false (Some n = Some o)) by congruence. lia.
Qed.

(** A thread that stops waiting for [n] gives its reference back ... *)
Lemma ind_unwait (w v : option ObjId) n o :
  v = None → w = Some n → ind (v = Some o) = ind (w = Some o) + -1 * ind (Some n = Some o).
Proof. intros -> ->. rewrite (ind_false (None = Some o)) by done. lia. Qed.

(** ... and one that starts takes one. *)
Lemma ind_wait (w v : option ObjId) n o :
  w = None → v = Some n → ind (v = Some o) = ind (w = Some o) + 1 * ind (Some n = Some o).
Proof. intros -> ->. rewrite (ind_false (None = Some o)) by done. lia. Qed.

(** [st1] is [st] with the waiter [t], behind [l1], off the queue of [n]. *)
Record waiter_removed (st st1 : Store) (n t : ObjId) (l1 : list ObjId) : Prop := {
  wr_frame : wake_frame st st1;
  wr_ready : ready st1 = ready st;
  wr_bits : ready_bits st1 = ready_bits st;
  wr_other m : m ≠ n → notifs st1 !!! m = notifs st !!! m;
  wr_head : n_wait_head (notifs st1 !!! n) =
    match last l1 with None => t_qnext (tcbs st !!! t) | Some _ => n_wait_head (notifs st !!! n) end;
  wr_tail : n_wait_tail (notifs st1 !!! n) =
    if decide (n_wait_tail (notifs st !!! n) = Some t) then last l1 else n_wait_tail (notifs st !!! n);
  wr_word : n_word (notifs st1 !!! n) = 0;
  wr_wait : t_wait_notif (tcbs st1 !!! t) = None;
  wr_state : t_state (tcbs st1 !!! t) = t_state (tcbs st !!! t);
  wr_tcb u : u ≠ t → tcbs st1 !!! u =
    if decide (last l1 = Some u) then tcb_set_qnext (t_qnext (tcbs st !!! t)) (tcbs st !!! u)
    else tcbs st !!! u;
}.

Lemma wakes_trans st rq wq E st1 st2 :
  wakes st rq wq E st1 → (∀ rq1 wq1, sched_inv st1 rq1 wq1 E → wakes st1 rq1 wq1 E st2) →
  wakes st rq wq E st2.
Proof.
  intros [F (rq1 & wq1 & I1 & Hoff) L] H. destruct (H _ _ I1) as [F2 (rq2 & wq2 & I2 & Hoff2) L2].
  split; [by eapply wake_frame_trans| |intros u; by eapply woken_trans]. exists rq2, wq2. split; [done|].
  intros u [H1 E1]%Hoff. destruct (Hoff2 u H1) as [H2 E2]. split; [done|]. congruence.
Qed.

Lemma wakes_refl st rq wq E : sched_inv st rq wq E → wakes st rq wq E st.
Proof. intros I. split; [apply wake_frame_refl|eauto|by left]. Qed.

Section notif_main.
Context (st : Store) (rq : nat → list ObjId) (wq : ObjId → list ObjId) (E : gset ObjId).
Hypothesis I : sched_inv st rq wq E.

Lemma waiter_removed_inv st1 n t l1 l2 :
  wq n = l1 ++ t :: l2 → waiter_removed st st1 n t l1 →
  sched_inv st1 rq (<[n := l1 ++ l2]> wq) E ∧ (∀ k, t ∉ rq k) ∧ (∀ m, t ∉ (<[n := l1 ++ l2]> wq) m).
Proof using I.
  intros Hwq [F]. apply (removed_inv st rq wq E I st1 n t l1 l2); try done.
  - by eapply (notif_repr_remove st rq wq E I).
  - pose proof (wf_tcb _ _ F t) as Hf. unfold tcb_fixed in Hf. congruence.
Qed.

(** [signal] with a waiter: the oldest one gets the whole word and is runnable. *)
Lemma signal_wake n bits t l :
  wq n = t :: l → Z.lor (n_word (notifs st !!! n)) bits ≠ 0 → 1 ≤ refs st !!! n →
  let lvl := Z.to_nat (t_priority (tcbs st !!! t)) in
  wp (signal n bits) (λ _ st',
    sched_inv st' (<[lvl := rq lvl ++ [t]]> rq) (<[n := l]> wq) (E ∖ {[t]}) ∧ wake_frame st st' ∧
    n_word (notifs st' !!! n) = 0 ∧ refs st' !!! n = refs st !!! n - 1 ∧
    regs (t_frame (tcbs st' !!! t)) =
      <[0%nat := Z.lor (n_word (notifs st !!! n)) bits]> (regs (t_frame (tcbs st !!! t))) ∧
    (∀ u, off_queues rq wq u → tcbs st' !!! u = tcbs st !!! u) ∧
    t_state (tcbs st' !!! t) = ThreadState.Runnable ∧
    (∀ u, u ≠ t → t_state (tcbs st' !!! u) = t_state (tcbs st !!! u))) st.
Proof using I.
  intros Hwq Hword Hrefs lvl. pose proof (si_notif _ _ _ _ I) as N.
  pose proof (nr_queue _ _ N n) as Hq. rewrite Hwq in Hq.
  pose proof (queue_head _ _ _ _ Hq) as Hh. simpl in Hh.
  assert (t_wait_notif (tcbs st !!! t) = Some n) as Hwt by (apply (nr_in _ _ N); rewrite Hwq; set_solver).
  unfold signal. wp_acc. cbn. lk. cbn. rewrite Hh. rewrite (proj2 (Z.eqb_neq _ _) Hword).
  rewrite bool_decide_eq_false_2 by done. cbn [orb]. wp_acc.
  eapply wp_unwrap; [done|]. unfold signal_deliver. wp_acc. cbn.
  set (word := Z.lor _ bits) in *.
  assert (∀ st1, waiter_removed st st1 n t [] → refs st1 !!! n = refs st !!! n - 1 →
    regs (t_frame (tcbs st1 !!! t)) = <[0%nat := word]> (regs (t_frame (tcbs st !!! t))) →
    t_priority (tcbs st1 !!! t) = t_priority (tcbs st !!! t) →
    wp (make_runnable t) (λ _ st',
      sched_inv st' (<[lvl := rq lvl ++ [t]]> rq) (<[n := l]> wq) (E ∖ {[t]}) ∧ wake_frame st st' ∧
      n_word (notifs st' !!! n) = 0 ∧ refs st' !!! n = refs st !!! n - 1 ∧
      regs (t_frame (tcbs st' !!! t)) = <[0%nat := word]> (regs (t_frame (tcbs st !!! t))) ∧
      (∀ u, off_queues rq wq u → tcbs st' !!! u = tcbs st !!! u) ∧
      t_state (tcbs st' !!! t) = ThreadState.Runnable ∧
      (∀ u, u ≠ t → t_state (tcbs st' !!! u) = t_state (tcbs st !!! u))) st1) as Hgo.
  { intros st1 W Hr1 Hreg Hp. destruct (waiter_removed_inv st1 n t [] l Hwq W) as (I1 & Hk & Hm).
    eapply wp_mono; [apply (make_runnable_inv _ _ _ _ t I1 Hk Hm)|]. cbv beta. rewrite Hp. fold lvl.
    intros _ st' (F & I' & Hoff & Hrun & Hoth). split_and!; [done|..|done|].
    - eapply wake_frame_trans; [apply (wr_frame _ _ _ _ _ W)|by apply wake_frame_sched].
    - by rewrite (sf_notifs _ _ F), (wr_word _ _ _ _ _ W).
    - by rewrite (sf_refs _ _ F).
    - rewrite <-Hreg. pose proof (sf_core _ _ F t) as Hc. apply (f_equal t_frame) in Hc. cbn in Hc. by rewrite Hc.
    - intros u [Hur Huw]. assert (u ≠ t) by (intros ->; apply (Huw n); rewrite Hwq; set_solver).
      rewrite Hoff by done. by rewrite (wr_tcb _ _ _ _ _ W).
    - intros u Hu. rewrite Hoth, (wr_tcb _ _ _ _ _ W) by done. by case_decide. }
  apply queue_pop in Hq as [_ [Hc Ht]].
  assert (n_wait_tail (notifs st !!! n) = Some t ↔ t_qnext (tcbs st !!! t) = None) as Hlast.
  { pose proof (nr_queue _ _ N n) as [Hc0 ->]. rewrite Hwq in *. rewrite (chain_head _ _ _ Hc).
    destruct l as [|y l]; [done|]. split; [|done]. rewrite last_cons_cons. intros Hl%last_in.
    apply chain_NoDup, NoDup_cons in Hc0 as [? _]. done. }
  case_bool_decide as Eq; (eapply wp_usub; [done|]); apply Hgo; cbn; lk; cbn; try done;
    (split; cbn; lk; cbn; try done;
     [ eapply (wake_frame_rewait _ _ t n _ (-1));
         [reflexivity..|cbn; lk; rewrite ?insert_insert_eq; reflexivity|cbn; lk; done|by lk|]; intros; by apply ind_unwait
     | intros; by lk | | intros; by lk ]).
  - by rewrite decide_True by (by apply Hlast).
  - rewrite decide_False; [done|]. by rewrite Hlast.
Qed.

(** Whatever the queues hold, [signal] keeps every invariant. *)
Lemma signal_wakes b n bits :
  refs_bal st b → 0 ≤ b n → wp (signal n bits) (λ _ st', wakes st rq wq E st') st.
Proof using I.
  intros Hb Hbn.
  destruct (decide (Z.lor (n_word (notifs st !!! n)) bits = 0 ∨ wq n = [])) as [Hq|Hq].
  { eapply wp_of_eq; [by apply (signal_quiet st rq wq E I)|]. split; [apply wake_frame_notifs|..].
    - exists rq, wq. split; [by apply signal_quiet_inv|done].
    - by left. }
  destruct (wq n) as [|t l] eqn:Hwq; [tauto|].
  assert (t ∈ wq n) as Hin by (rewrite Hwq; set_solver).
  eapply wp_mono; [apply (signal_wake n bits t l Hwq); [tauto|by eapply waiter_refs]|].
  intros _ st' (I' & F & _ & _ & _ & Hoff & Hrun & Hoth).
  split; [done| |intros u; destruct (decide (u = t)) as [->|]; [right|left; by apply Hoth]].
  2:{ split; [|done]. apply (nr_in _ _ (si_notif _ _ _ _ I) n t Hin). }
  do 2 eexists. split.
  { eapply sched_inv_mono; [|exact I']. set_solver. }
  intros u [Hur Huw]. split; [|by apply Hoff].
  assert (u ≠ t) by (intros ->; by apply (Huw n)). split.
  - intros k. destruct (decide (k = Z.to_nat (t_priority (tcbs st !!! t)))) as [->|].
    + rewrite fn_lookup_insert, elem_of_app, list_elem_of_singleton. intros [?|?]; [by eapply Hur|done].
    + by rewrite fn_lookup_insert_ne.
  - intros m. destruct (decide (m = n)) as [->|].
    + rewrite fn_lookup_insert. intros ?. apply (Huw n). rewrite Hwq. by right.
    + by rewrite fn_lookup_insert_ne.
Qed.

(** One thread appended behind the waiters of [n]. *)
Lemma notif_repr_snoc st1 n t :
  (∀ m, t ∉ wq m) →
  (∀ m, m ≠ n → notifs st1 !!! m = notifs st !!! m) →
  n_wait_head (notifs st1 !!! n) =
    match n_wait_tail (notifs st !!! n) with None => Some t | Some _ => n_wait_head (notifs st !!! n) end →
  n_wait_tail (notifs st1 !!! n) = Some t → n_word (notifs st1 !!! n) = 0 →
  t_wait_notif (tcbs st1 !!! t) = Some n → t_state (tcbs st1 !!! t) = ThreadState.BlockedNotif →
  t_qnext (tcbs st1 !!! t) = None →
  (∀ u, u ≠ t → tcbs st1 !!! u =
     if decide (n_wait_tail (notifs st !!! n) = Some u) then tcb_set_qnext (Some t) (tcbs st !!! u)
     else tcbs st !!! u) →
  notif_repr st1 (<[n := wq n ++ [t]]> wq).
Proof using I.
  intros Hnin Hm Hh Ht Hw Htw Hts Htq Hu. pose proof (si_notif _ _ _ _ I) as N.
  pose proof (nr_queue _ _ N n) as Hq.
  assert (∀ m u, u ∈ wq m → u ≠ t) as Hneq by (intros m u ? ->; by eapply Hnin).
  assert (∀ u, u ≠ t → t_state (tcbs st1 !!! u) = t_state (tcbs st !!! u) ∧
    t_wait_notif (tcbs st1 !!! u) = t_wait_notif (tcbs st !!! u)) as Hsame.
  { intros u Hne. rewrite (Hu u Hne). by destruct (decide (n_wait_tail (notifs st !!! n) = Some u)). }
  split.
  - intros m. destruct (decide (m = n)) as [->|Hne].
    + rewrite fn_lookup_insert, Hh, Ht. apply (queue_snoc _ _ _ _ _ _ Hq); [done..| |].
      * intros y Hy. rewrite Hy in Hq. apply queue_tail_in in Hq.
        rewrite Hu, decide_True by (done || by eapply Hneq). done.
      * intros y Hy Hyt. by rewrite Hu, decide_False by (done || by eapply Hneq).
    + rewrite fn_lookup_insert_ne, Hm by done. eapply queue_ext; [|apply (nr_queue _ _ N)].
      intros u Hin. rewrite Hu, decide_False; [done| |by eapply Hneq].
      intros Hlast. rewrite Hlast in Hq. apply queue_tail_in in Hq. apply Hne. by eapply waiter_unique.
  - intros m u Hin. destruct (decide (u = t)) as [->|Hne].
    { split; [done|]. destruct (decide (m = n)) as [->|Hne]; [done|].
      rewrite fn_lookup_insert_ne in Hin by done. by destruct (Hnin m). }
    destruct (Hsame u Hne) as [-> ->]. apply (nr_in _ _ N). destruct (decide (m = n)) as [->|Hne'].
    + rewrite fn_lookup_insert, elem_of_app, list_elem_of_singleton in Hin. tauto.
    + by rewrite fn_lookup_insert_ne in Hin.
  - intros m u Hmu. destruct (decide (u = t)) as [->|Hne].
    { rewrite Htw in Hmu. injection Hmu as <-. rewrite fn_lookup_insert. set_solver. }
    destruct (Hsame u Hne) as [_ Eq]. rewrite Eq in Hmu. apply (nr_complete _ _ N) in Hmu.
    destruct (decide (m = n)) as [->|Hne']; [|by rewrite fn_lookup_insert_ne].
    rewrite fn_lookup_insert, elem_of_app. by left.
  - intros m. destruct (decide (m = n)) as [->|Hne]; [by rewrite Hw|].
    rewrite fn_lookup_insert_ne, Hm by done. apply (nr_word _ _ N).
Qed.

(** [wait] on a pending word consumes it without blocking. *)
Lemma wait_ready n cur :
  n_word (notifs st !!! n) ≠ 0 →
  wp (wait n cur) (λ r st', r = Some (n_word (notifs st !!! n)) ∧ sched_inv st' rq wq E ∧
    wake_frame st st' ∧ tcbs st' = tcbs st ∧ refs st' = refs st ∧ n_word (notifs st' !!! n) = 0) st.
Proof using I.
  intros Hw. unfold wait. wp_acc. rewrite (proj2 (Z.eqb_neq _ _) Hw). cbn [negb]. wp_acc.
  split_and!; try done; [|cbn; by lk].
  destruct I as [R C [N1 N2 N3 N4] P]. split; try done.
  - by apply (ready_repr_ext _ _ R).
  - split; cbn; try done.
    + intros m. destruct (decide (m = n)) as [->|]; lk; cbn; apply N1.
    + intros m. destruct (decide (m = n)) as [->|]; lk; cbn; [done|apply N4].
Qed.

(** The state once [cur] has joined the waiters of [n]. *)
Lemma waiter_added_inv st1 n cur :
  off_queues rq wq cur → wake_frame st st1 → ready st1 = ready st → ready_bits st1 = ready_bits st →
  notif_repr st1 (<[n := wq n ++ [cur]]> wq) → t_state (tcbs st1 !!! cur) = ThreadState.BlockedNotif →
  (∀ u, u ≠ cur → tcbs st1 !!! u =
     if decide (n_wait_tail (notifs st !!! n) = Some u) then tcb_set_qnext (Some cur) (tcbs st !!! u)
     else tcbs st !!! u) →
  sched_inv st1 rq (<[n := wq n ++ [cur]]> wq) (E ∖ {[cur]}).
Proof using I.
  intros [Hr Hq] F Hr1 Hb1 N1 Hs1 Hu. pose proof (si_notif _ _ _ _ I) as N.
  assert (∀ u, t_priority (tcbs st1 !!! u) = t_priority (tcbs st !!! u)) as Hp
    by (intros u; pose proof (wf_tcb _ _ F u) as Hf; unfold tcb_fixed in Hf; congruence).
  assert (∀ u, u ≠ cur → t_state (tcbs st1 !!! u) = t_state (tcbs st !!! u)) as Hs
    by (intros u Hne; rewrite (Hu u Hne); by destruct (decide (n_wait_tail (notifs st !!! n) = Some u))).
  split; [| |done|intros u; rewrite Hp; apply (si_prio _ _ _ _ I)].
  - apply (ready_repr_ext st rq (si_ready _ _ _ _ I)); [done..|].
    intros k u Hin. assert (u ≠ cur) by (intros ->; by apply (Hr k)). rewrite Hp, Hs by done. split; [|done].
    rewrite Hu, decide_False; [done| |done]. intros Ht. pose proof (nr_queue _ _ N n) as Hqn.
    rewrite Ht in Hqn. apply queue_tail_in in Hqn. by eapply waiter_not_ready.
  - intros u Hus Hne. assert (u ≠ cur) as Huc by congruence. rewrite Hs in Hus by done. rewrite Hp.
    apply (si_complete _ _ _ _ I); [done|]. clear -Hne Huc. set_solver.
Qed.

(** [wait] on an empty word blocks the caller behind the other waiters. *)
Lemma wait_blocks n cur :
  n_word (notifs st !!! n) = 0 → off_queues rq wq cur → refs st !!! n < U32_MAX →
  wp (wait n cur) (λ r st', r = None ∧ sched_inv st' rq (<[n := wq n ++ [cur]]> wq) (E ∖ {[cur]}) ∧
    wake_frame st st' ∧ t_state (tcbs st' !!! cur) = ThreadState.BlockedNotif ∧
    refs st' !!! n = refs st !!! n + 1 ∧ (∀ u, u ≠ cur → t_state (tcbs st' !!! u) = t_state (tcbs st !!! u))) st.
Proof using I.
  intros Hw Hoff Href. pose proof (si_notif _ _ _ _ I) as N.
  assert (t_wait_notif (tcbs st !!! cur) = None) as Hcw.
  { destruct (t_wait_notif (tcbs st !!! cur)) as [m|] eqn:Em; [|done].
    apply (nr_complete _ _ N) in Em. by destruct (proj2 Hoff m). }
  assert (n_wait_tail (notifs st !!! n) ≠ Some cur) as Htc.
  { intros Ht. pose proof (nr_queue _ _ N n) as Hqn. rewrite Ht in Hqn. apply queue_tail_in in Hqn.
    by apply (proj2 Hoff n). }
  unfold wait. wp_acc. rewrite Hw. cbn [Z.eqb negb]. wp_acc. cbn.
  assert (∀ st1, wake_frame st st1 → ready st1 = ready st → ready_bits st1 = ready_bits st →
    notifs st1 !!! n = MkNotif 0 (match n_wait_tail (notifs st !!! n) with None => Some cur
                                  | Some _ => n_wait_head (notifs st !!! n) end) (Some cur) →
    (∀ m, m ≠ n → notifs st1 !!! m = notifs st !!! m) →
    tcbs st1 !!! cur = tcb_set_qnext None (tcb_set_wait_notif (Some n)
      (tcb_set_state ThreadState.BlockedNotif (tcbs st !!! cur))) →
    (∀ u, u ≠ cur → tcbs st1 !!! u =
       if decide (n_wait_tail (notifs st !!! n) = Some u) then tcb_set_qnext (Some cur) (tcbs st !!! u)
       else tcbs st !!! u) →
    refs st1 !!! n = refs st !!! n + 1 →
    None = None (A := Z) ∧ sched_inv st1 rq (<[n := wq n ++ [cur]]> wq) (E ∖ {[cur]}) ∧
    wake_frame st st1 ∧ t_state (tcbs st1 !!! cur) = ThreadState.BlockedNotif ∧
    refs st1 !!! n = refs st !!! n + 1 ∧ (∀ u, u ≠ cur → t_state (tcbs st1 !!! u) = t_state (tcbs st !!! u))) as Hgo.
  { intros st1 F Hr1 Hb1 Hn Hm Hc Hu Hrf. rewrite Hc. split_and!; try done.
    - apply waiter_added_inv; rewrite ?Hc; try done.
      apply notif_repr_snoc; rewrite ?Hc, ?Hn; try done. apply Hoff.
    - intros u Hne. rewrite Hu by done. by case_decide. }
  destruct (n_wait_tail (notifs st !!! n)) as [tl|] eqn:Et; wp_acc; cbn;
    (eapply wp_uadd; [lia|]); apply Hgo; clear Hgo; cbn; lk; cbn; rewrite ?Et, ?Hw; try done.
  - eapply wake_frame_trans; [apply (wake_frame_tcb st tl (tcb_set_qnext (Some cur))); done|].
    eapply (wake_frame_rewait _ _ cur n _ 1); [reflexivity..| | | |].
    + cbn. lk. rewrite !insert_insert_eq. rewrite (insert_insert_ne (tcbs st) cur tl) by congruence. reflexivity.
    + done.
    + cbn. by lk.
    + intros o. apply ind_wait; [cbn; by lk|done].
  - intros m Hm. by lk.
  - intros u Hu. destruct (decide (Some tl = Some u)) as [[= ->]|]; by lk.
  - eapply (wake_frame_rewait _ _ cur n _ 1); [reflexivity..| | | |].
    + cbn. lk. rewrite !insert_insert_eq. reflexivity.
    + done.
    + done.
    + intros o. by apply ind_wait.
  - intros m Hm. by lk.
  - intros u Hu. by lk.
Qed.

(** [remove_waiter] takes [t] off the queue it is on and gives its reference back. *)
Lemma remove_waiter_spec n t l1 l2 :
  wq n = l1 ++ t :: l2 → 1 ≤ refs st !!! n →
  wp (remove_waiter n t) (λ _ st', sched_inv st' rq (<[n := l1 ++ l2]> wq) E ∧ wake_frame st st' ∧
    off_queues rq (<[n := l1 ++ l2]> wq) t ∧ t_wait_notif (tcbs st' !!! t) = None ∧
    (∀ u, t_state (tcbs st' !!! u) = t_state (tcbs st !!! u)) ∧
    refs st' !!! n = refs st !!! n - 1 ∧
    (∀ u, u ∉ wq n → tcbs st' !!! u = tcbs st !!! u)) st.
Proof using I.
  intros Hwq Href. pose proof (si_notif _ _ _ _ I) as N. pose proof (nr_queue _ _ N n) as Hq.
  rewrite Hwq in Hq. pose proof (waiter_fuel st rq wq E I n) as Hfuel.
  assert (t_wait_notif (tcbs st !!! t) = Some n) as Hwt by (apply (nr_in _ _ N); rewrite Hwq; set_solver).
  assert (last l1 ≠ Some t) as Hlt.
  { intros Hp%last_in. destruct Hq as [HN%chain_NoDup _].
    apply NoDup_app in HN as (_ & HN & _). apply (HN t); set_solver. }
  assert (n_word (notifs st !!! n) = 0) as Hw.
  { destruct (decide (n_word (notifs st !!! n) = 0)) as [|Hw]; [done|].
    apply (nr_word _ _ N) in Hw. rewrite Hw in Hwq. by destruct l1. }
  assert (∀ st1, waiter_removed st st1 n t l1 → refs st1 !!! n = refs st !!! n - 1 →
    sched_inv st1 rq (<[n := l1 ++ l2]> wq) E ∧ wake_frame st st1 ∧
    off_queues rq (<[n := l1 ++ l2]> wq) t ∧ t_wait_notif (tcbs st1 !!! t) = None ∧
    (∀ u, t_state (tcbs st1 !!! u) = t_state (tcbs st !!! u)) ∧ refs st1 !!! n = refs st !!! n - 1 ∧
    (∀ u, u ∉ wq n → tcbs st1 !!! u = tcbs st !!! u)) as Hgo.
  { intros st1 W Hr. destruct (waiter_removed_inv st1 n t l1 l2 Hwq W) as (I1 & Hk & Hm).
    split_and!; try done; try apply W.
    { intros u. destruct (decide (u = t)) as [->|Hu]; [apply W|]. rewrite (wr_tcb _ _ _ _ _ W) by done. by case_decide. }
    intros u Hu. rewrite (wr_tcb _ _ _ _ _ W), decide_False; [done| |].
    - intros Hlast%last_in. apply Hu. rewrite Hwq. set_solver.
    - intros ->. apply Hu. rewrite Hwq. set_solver. }
  unfold remove_waiter. wp_acc. eapply (wp_walk_found _ t _ l1 l2); [apply Hq|by rewrite <-Hwq|].
  assert ((match n_wait_tail (notifs st !!! n) with Some tl => bool_decide (tl = t) | None => false end) =
    bool_decide (n_wait_tail (notifs st !!! n) = Some t)) as Htail.
  { destruct (n_wait_tail (notifs st !!! n)); apply eq_true_iff_eq; rewrite ?bool_decide_eq_true; naive_solver. }
  unfold remove_waiter_found. wp_acc. destruct (last l1) as [p|] eqn:Ep; wp_acc; cbn; lk; cbn;
    rewrite Htail; case_bool_decide as Et; (eapply wp_usub; [done|]); apply Hgo; clear Hgo;
    cbn; lk; try done; (split; rewrite ?Ep; cbn; lk; cbn; try done).
  all: try (intros; by lk).
  all: try (by rewrite decide_True). all: try (by rewrite decide_False).
  all: try (intros u Hu; destruct (decide (Some p = Some u)) as [[= ->]|]; by lk).
  all: try (eapply wake_frame_trans;
    [apply (wake_frame_tcb st p (tcb_set_qnext (t_qnext (tcbs st !!! t)))); done|]).
  all: eapply (wake_frame_rewait _ _ t n _ (-1));
    [reflexivity..|cbn; lk; rewrite ?insert_insert_eq; reflexivity|done|cbn; by lk|].
  all: intros; apply ind_unwait; [done|cbn; by lk].
Qed.
End notif_main.

(** The observable effect of one [signal]: with nobody waiting the bits are
    accumulated; otherwise the longest waiter leaves with the whole word. *)
Definition signalled (st : Store) (n : ObjId) (bits : Z) (st' : Store) : Prop :=
  let w := Z.lor (n_word (notifs st !!! n)) bits in
  match n_wait_head (notifs st !!! n) with
  | None => n_word (notifs st' !!! n) = w
  | Some t =>
      if w =? 0 then n_word (notifs st' !!! n) = 0
      else n_word (notifs st' !!! n) = 0 ∧ t_state (tcbs st' !!! t) = ThreadState.Runnable ∧
        t_wait_notif (tcbs st' !!! t) = None ∧
        regs (t_frame (tcbs st' !!! t)) = <[0%nat := w]> (regs (t_frame (tcbs st !!! t)))
  end.

Lemma signal_effect st rq wq E b n bits :
  sched_inv st rq wq E → refs_bal st b → 0 ≤ b n →
  wp (signal n bits) (λ _ st', signalled st n bits st' ∧ wakes st rq wq E st') st.
Proof.
  intros I Hb Hbn. pose proof (signal_wakes st rq wq E I b n bits Hb Hbn) as Hw. apply wp_inv in Hw as ([] & st' & Hrun & W).
  eapply wp_of_eq; [exact Hrun|]. split; [|done]. unfold signalled.
  pose proof (queue_head _ _ _ _ (nr_queue _ _ (si_notif _ _ _ _ I) n)) as Hh. rewrite Hh.
  destruct (wq n) as [|t l] eqn:Eq; cbn [head].
  - rewrite (signal_quiet st rq wq E I n bits) in Hrun by (by right). simplify_eq. cbn. by lk.
  - destruct (Z.eqb_spec (Z.lor (n_word (notifs st !!! n)) bits) 0) as [E0|E0].
    + rewrite (signal_quiet st rq wq E I n bits) in Hrun by (by left). simplify_eq. cbn. by lk.
    + assert (t ∈ wq n) as Hin by (rewrite Eq; set_solver).
      pose proof (signal_wake st rq wq E I n bits t l Eq E0 (waiter_refs _ _ _ _ I b n t Hb Hbn Hin)) as Hs.
      cbv zeta in Hs. unfold wp in Hs. rewrite Hrun in Hs. destruct Hs as (I' & _ & H1 & _ & H2 & _).
      split_and!; [done| | |done].
      * eapply (rr_in _ _ (si_ready _ _ _ _ I')). rewrite fn_lookup_insert. set_solver.
      * destruct (t_wait_notif (tcbs st' !!! t)) as [m|] eqn:Em; [|done]. exfalso.
        apply (nr_complete _ _ (si_notif _ _ _ _ I')) in Em. eapply (waiter_not_ready _ _ _ _ I'); [exact Em|].
        rewrite fn_lookup_insert. set_solver.
Qed.
