(* ===== verification/Timer.v ===== *)
(** Timers ([kcore/src/timer.rs]): the armed list threaded through
    [TimerObj.next] from a head kept beside the store, with [disarm], [arm],
    [destroy_timer] and the tick handler's [check_expired]. The abstract view is
    the list of armed timers, head first. *)

From S2P Require Import Prelude KStore Ready Census Notif.

(** ** Operations *)

(** The body of the walk once [t] is found: splice it out, drop the reference on
    its notification, clear the record. *)
Definition disarm_found (t : ObjId) (prev : option ObjId) : K unit :=
  cnext ← timer_next t;
  (match prev with
   | None => set_timer_armed_head cnext
   | Some p => set_timer_next p cnext
   end);;
  nopt ← timer_notif t;
  (match nopt with
   | Some n => r ← obj_refs n; r' ← usub r 1; set_obj_refs n r'
   | None => mret tt
   end);;
  set_timer_notif t None;;
  set_timer_armed t false;;
  set_timer_next t None.

Definition next_of (c : ObjId) (st : Store) : option ObjId := tm_next (timers st !!! c).

Definition disarm (t : ObjId) : K unit :=
  armed ← timer_armed t;
  if negb armed then mret tt
  else
    cur ← timer_armed_head;
    fuel ← gets (λ st, size (timers st));
    walk_until fuel next_of t cur None (disarm_found t).

Definition arm (t notif : ObjId) (bits deadline : Z) : K unit :=
  disarm t;;
  r ← obj_refs notif;
  r' ← uadd U32_MAX r 1;
  set_obj_refs notif r';;
  set_timer_notif t (Some notif);;
  set_timer_bits t bits;;
  set_timer_deadline t deadline;;
  set_timer_armed t true;;
  h ← timer_armed_head;
  set_timer_next t h;;
  set_timer_armed_head (Some t).

Definition destroy_timer (t : ObjId) : K unit := disarm t.

(** The body of the tick walk on timer [c]. *)
Definition expire (now : Z) (c : ObjId) : K unit :=
  deadline ← timer_deadline c;
  if deadline <=? now then
    notif ← timer_notif c;
    bits ← timer_bits c;
    disarm c;;
    match notif with
    | Some nn => signal nn bits
    | None => mret tt
    end
  else mret tt.

Fixpoint check_expired_loop (fuel : nat) (now : Z) (cur : option ObjId) : K unit :=
  match cur with
  | None => mret tt
  | Some c =>
      match fuel with
      | O => nofuel
      | S fuel' =>
          next ← timer_next c;
          expire now c;;
          check_expired_loop fuel' now next
      end
  end.

Definition check_expired (now : Z) : K unit :=
  cur ← timer_armed_head;
  fuel ← gets (λ st, size (timers st));
  check_expired_loop fuel now cur.

(** ** Abstract view *)

Record timer_repr (st : Store) (tl : list ObjId) : Prop := {
  tr_chain : chain (λ t, tm_next (timers st !!! t)) (armed_head st) tl;
  tr_armed t : t ∈ tl ↔ tm_armed (timers st !!! t) = true;
  tr_notif t : t ∈ tl → is_Some (tm_notif (timers st !!! t));
}.

(** Everything the timer operations leave alone, and the reference counts kept in
    step with the census. *)
Record timer_frame (st st' : Store) : Prop := {
  tf_slots : slots st' = slots st;
  tf_cspaces : cspaces st' = cspaces st;
  tf_chans : chans st' = chans st;
  tf_notifs : notifs st' = notifs st;
  tf_tcbs : tcbs st' = tcbs st;
  tf_irqs : irqs st' = irqs st;
  tf_aspaces : aspaces st' = aspaces st;
  tf_ready : ready st' = ready st;
  tf_bits : ready_bits st' = ready_bits st;
  tf_hw : hw st' = hw st;
  tf_pinned : pinned st' = pinned st;
  tf_bal b : refs_bal st b → refs_bal st' b;
}.

(** The tick's reference behaviour: visit the timers armed when it starts, in
    list order. *)
Fixpoint expire_all (now : Z) (l : list ObjId) : K unit :=
  match l with
  | [] => mret tt
  | t :: l' => expire now t;; expire_all now l'
  end.

(** ** Lemmas *)
Lemma timer_frame_refl st : timer_frame st st.
Proof. by split. Qed.

Lemma timer_frame_trans st1 st2 st3 : timer_frame st1 st2 → timer_frame st2 st3 → timer_frame st1 st3.
Proof. intros [] []. split; try congruence. eauto. Qed.

Lemma sched_inv_ext st st' rq wq E :
  tcbs st' = tcbs st → notifs st' = notifs st → ready st' = ready st → ready_bits st' = ready_bits st →
  sched_inv st rq wq E → sched_inv st' rq wq E.
Proof.
  intros Et En Er Eb [R C N P]. split; [| | |by rewrite Et].
  - destruct R. split; by rewrite ?Et, ?Er, ?Eb.
  - intros u. rewrite Et. apply C.
  - destruct N. split; by rewrite ?Et, ?En.
Qed.

Lemma sched_inv_timer st st' rq wq E : timer_frame st st' → sched_inv st rq wq E → sched_inv st' rq wq E.
Proof. intros F. by apply sched_inv_ext; apply F. Qed.

(** One timer and the counts of two notifications changed together. *)
Lemma timer_bal st st' t v b (d : ObjId → Z) :
  slots st' = slots st → chans st' = chans st → tcbs st' = tcbs st → irqs st' = irqs st →
  pinned st' = pinned st → timers st' = <[t := v]> (timers st) →
  (∀ o, refs st' !!! o = refs st !!! o + d o) →
  (∀ o, timer_refs o v = timer_refs o (timers st !!! t) + d o) →
  refs_bal st b → refs_bal st' b.
Proof.
  intros E1 E2 E3 E4 E5 Et Hr Hd Hb o. rewrite Hr, Hb. unfold obj_census.
  rewrite E1, E2, E3, E4, E5, Et, msum_insert by done. rewrite Hd. lia.
Qed.

Section timer_ops.
Context (st : Store) (tl : list ObjId).
Hypothesis T : timer_repr st tl.

Lemma timer_fuel : (length tl ≤ size (timers st))%nat.
Proof using T.
  destruct T as [Hc Ha _]. apply distinct_keys_size; [by eapply chain_NoDup|].
  intros k Hk%Ha E. by rewrite E in Hk.
Qed.

Lemma timer_refs_pos b t n :
  t ∈ tl → tm_notif (timers st !!! t) = Some n → refs_bal st b → 0 ≤ b n → 1 ≤ refs st !!! n.
Proof using T.
  intros Hin%(tr_armed _ _ T) Hn Hb Hbn. pose proof (timer_refs_le st t n) as Hle.
  unfold timer_refs in Hle. rewrite Hin, Hn, ind_true in Hle by done. rewrite Hb. lia.
Qed.

(** A disarmed timer is left alone. *)
Lemma disarm_idle t : t ∉ tl → disarm t st = Ret (tt, st).
Proof using T.
  intros Hn. unfold disarm, mbind, comp_bind, timer_armed, gets.
  destruct (tm_armed (timers st !!! t)) eqn:E; [|done]. by apply (tr_armed _ _ T) in E.
Qed.

Lemma timer_bal_unlink p nx b :
  refs_bal st b →
  refs_bal (with_timers (λ m, <[p := let o := m !!! p in
    MkTimer (tm_armed o) (tm_deadline o) (tm_notif o) (tm_bits o) nx]> m) st) b.
Proof.
  intros Hb. eapply (timer_bal st _ p _ b (λ _, 0)); [reflexivity..| | |exact Hb].
  - intros. cbn. lia.
  - intros. unfold timer_refs. cbn. lia.
Qed.

(** The state once [t], behind [l1], has been spliced out and cleared. *)
Lemma disarmed_repr st' t l1 l2 :
  tl = l1 ++ t :: l2 →
  armed_head st' = match last l1 with None => tm_next (timers st !!! t) | Some _ => armed_head st end →
  tm_armed (timers st' !!! t) = false →
  (∀ u, u ≠ t → timers st' !!! u =
     if decide (last l1 = Some u) then
       let o := timers st !!! u in
       MkTimer (tm_armed o) (tm_deadline o) (tm_notif o) (tm_bits o) (tm_next (timers st !!! t))
     else timers st !!! u) →
  timer_repr st' (l1 ++ l2).
Proof using T.
  intros Htl Hh Ht Hu. destruct T as [Hc Ha Hn]. pose proof (chain_NoDup _ _ _ Hc) as HN.
  rewrite Htl in Hc, HN. apply NoDup_app in HN as (_ & Hd & [HN _]%NoDup_cons).
  assert (∀ u, u ∈ l1 ++ l2 ↔ u ∈ tl ∧ u ≠ t) as Hin.
  { intros u. rewrite Htl, !elem_of_app, elem_of_cons. specialize (Hd u).
    rewrite elem_of_cons in Hd. split; [|tauto]. intros H. split; [tauto|]. intros ->. tauto. }
  assert (∀ u, u ≠ t → tm_armed (timers st' !!! u) = tm_armed (timers st !!! u) ∧
    tm_notif (timers st' !!! u) = tm_notif (timers st !!! u)) as Hsame.
  { intros u Hne. rewrite (Hu u Hne). by destruct (decide (last l1 = Some u)). }
  split.
  - rewrite Hh. assert (∀ (A : Type) (x y : A), match last l1 with None => x | Some _ => y end =
      match l1 with [] => x | _ => y end) as ->.
    { intros A x y. destruct (last l1) eqn:E; destruct l1; try done. apply last_None in E. done. }
    apply (chain_remove _ _ _ _ _ _ Hc).
    + intros p Hp. rewrite Hu, decide_True; [done..|]. apply Hin, elem_of_app. left. by apply last_in.
    + intros y Hy Hyt. rewrite Hu, decide_False; [done..|]. by apply Hin.
  - intros u. rewrite Hin, Ha. destruct (decide (u = t)) as [->|Hne]; [rewrite Ht; naive_solver|].
    destruct (Hsame u Hne) as [-> _]. tauto.
  - intros u [Hu1 Hu2]%Hin. destruct (Hsame u Hu2) as [_ ->]. by apply Hn.
Qed.

Lemma disarm_spec t l1 l2 n :
  tl = l1 ++ t :: l2 → tm_notif (timers st !!! t) = Some n → 1 ≤ refs st !!! n →
  wp (disarm t) (λ _ st', timer_repr st' (l1 ++ l2) ∧ timer_frame st st' ∧
    refs st' = <[n := refs st !!! n - 1]> (refs st) ∧
    (∀ u, u ≠ t → let o := timers st !!! u in let o' := timers st' !!! u in
       tm_deadline o' = tm_deadline o ∧ tm_notif o' = tm_notif o ∧ tm_bits o' = tm_bits o)) st.
Proof using T.
  intros Htl Hn Href. pose proof timer_fuel as Hfuel. 
  assert (tm_armed (timers st !!! t) = true) as Ha by (apply (tr_armed _ _ T); rewrite Htl; set_solver).
  pose proof (tr_chain _ _ T) as Hc. rewrite Htl in Hc.
  assert (last l1 ≠ Some t) as Hlt.
  { intros Hp%last_in. apply chain_NoDup, NoDup_app in Hc as (_ & HN & _). apply (HN t); set_solver. }
  unfold disarm. wp_acc. rewrite Ha. cbn [negb]. wp_acc.
  apply (wp_walk_found _ t _ l1 l2); [exact Hc|by rewrite <-Htl|].
  unfold disarm_found. wp_acc.
  destruct (last l1) as [p|] eqn:Ep; wp_acc; cbn; lk; cbn; rewrite Hn; wp_acc;
    (eapply wp_usub; [done|]); wp_acc;
    (split; [apply (disarmed_repr _ t l1 l2); rewrite ?Ep; cbn; lk; try done|split; [|split; [done|]]]).
  - intros u Hu. destruct (decide (Some p = Some u)) as [[= ->]|]; by lk.
  - split; try done. intros b Hb.
    apply (timer_bal_unlink p (tm_next (timers st !!! t))) in Hb.
    match type of Hb with refs_bal ?s _ => eapply (timer_bal s _ t _ b (λ o, - ind (Some n = Some o))) end; [done|done|done|done|done| | | |exact Hb].
    + cbn. lk. rewrite !insert_insert_eq. reflexivity.
    + cbn. intros o. apply refs_minus.
    + intros o. unfold timer_refs. cbn. lk. cbn. rewrite Ha, Hn. lia.
  - intros u Hu. cbn. destruct (decide (u = p)) as [->|]; by lk.
  - intros u Hu. by lk.
  - split; try done. intros b Hb.
    match type of Hb with refs_bal ?s _ => eapply (timer_bal s _ t _ b (λ o, - ind (Some n = Some o))) end; [done|done|done|done|done| | | |exact Hb].
    + cbn. lk. rewrite !insert_insert_eq. reflexivity.
    + cbn. intros o. apply refs_minus.
    + intros o. unfold timer_refs. cbn. lk. cbn. rewrite Ha, Hn. lia.
  - intros u Hu. cbn. by lk.
Qed.

(** [disarm] on any timer: it is off the armed list, the others untouched. *)
Lemma disarm_any b t :
  refs_bal st b → (∀ o, 0 ≤ b o) →
  wp (disarm t) (λ _ st', timer_repr st' (filter (λ u, u ≠ t) tl) ∧ timer_frame st st' ∧
    (∀ o, refs st' !!! o ≤ refs st !!! o) ∧
    (∀ u, u ≠ t → let o := timers st !!! u in let o' := timers st' !!! u in
       tm_deadline o' = tm_deadline o ∧ tm_notif o' = tm_notif o ∧ tm_bits o' = tm_bits o)) st.
Proof using T.
  intros Hb Hb0. destruct (decide (t ∈ tl)) as [Hin|Hin].
  - apply list_elem_of_split in Hin as (l1 & l2 & Htl).
    assert (t ∈ tl) as Hin by (rewrite Htl; set_solver).
    destruct (tr_notif _ _ T t Hin) as [n Hn].
    eapply wp_mono; [apply (disarm_spec t l1 l2 n Htl Hn); by eapply timer_refs_pos|].
    cbv beta. intros _ st' (T' & F & Hr & Hu).
    pose proof (chain_NoDup _ _ _ (tr_chain _ _ T)) as HN. rewrite Htl in HN |- *.
    rewrite filter_ne_split by done. split_and!; [done|done| |done].
    intros o. rewrite Hr. pose proof (refs_minus (refs st) n o).
    pose proof (ind_nonneg (Some n = Some o)). lia.
  - eapply wp_of_eq; [by apply disarm_idle|]. split_and!; [|apply timer_frame_refl|done|done].
    by rewrite filter_ne_notin.
Qed.
End timer_ops.

(** [arm]: the timer leads the armed list with the given notification, bits and
    deadline, whatever it was armed with before. *)
Lemma arm_spec st tl b t n bits deadline :
  timer_repr st tl → refs_bal st b → (∀ o, 0 ≤ b o) → refs st !!! n < U32_MAX →
  wp (arm t n bits deadline) (λ _ st', timer_repr st' (t :: filter (λ u, u ≠ t) tl) ∧ timer_frame st st' ∧
    timers st' !!! t = MkTimer true deadline (Some n) bits (head (filter (λ u, u ≠ t) tl)) ∧
    (∀ u, u ≠ t → let o := timers st !!! u in let o' := timers st' !!! u in
       tm_deadline o' = tm_deadline o ∧ tm_notif o' = tm_notif o ∧ tm_bits o' = tm_bits o)) st.
Proof.
  intros T Hb Hb0 Hr. unfold arm. rewrite wp_bind. eapply wp_mono; [by eapply disarm_any|].
  cbv beta. intros _ st1 (T1 & F1 & Hr1 & Hu1). wp_acc. cbn.
  eapply wp_uadd; [specialize (Hr1 n); lia|].
  assert (t ∉ filter (λ u, u ≠ t) tl) as Hnt by (rewrite list_elem_of_filter; naive_solver).
  assert (tm_armed (timers st1 !!! t) = false) as Hta.
  { apply not_true_is_false. intros Ha. by apply (tr_armed _ _ T1) in Ha. }
  split_and!.
  - destruct T1 as [Hc Ha Hn]. split; cbn.
    + split; [done|]. lk. cbn. eapply chain_ext; [|exact Hc]. intros x Hx. cbn.
      assert (x ≠ t) by (by intros ->). by lk.
    + intros u. destruct (decide (u = t)) as [->|]; lk; cbn; [set_solver|]. rewrite <-Ha. set_solver.
    + intros u. destruct (decide (u = t)) as [->|]; lk; cbn; [done|].
      rewrite elem_of_cons. intros [?|?]; [done|by apply Hn].
  - eapply timer_frame_trans; [exact F1|]. split; try done. intros c Hc.
    eapply (timer_bal st1 _ t _ c (λ o, ind (Some n = Some o))); [done|done|done|done|done| | | |exact Hc].
    + cbn. lk. rewrite !insert_insert_eq. reflexivity.
    + cbn. intros o. apply refs_plus.
    + intros o. unfold timer_refs. cbn. rewrite Hta. lia.
  - cbn. lk. cbn. f_equal. by eapply chain_head, T1.
  - intros u Hu. cbn. lk. by apply Hu1.
Qed.

(** What a timer tick leaves alone. *)
Record tick_frame (st st' : Store) : Prop := {
  kf_slots : slots st' = slots st;
  kf_cspaces : cspaces st' = cspaces st;
  kf_chans : chans st' = chans st;
  kf_irqs : irqs st' = irqs st;
  kf_aspaces : aspaces st' = aspaces st;
  kf_hw : hw st' = hw st;
  kf_pinned : pinned st' = pinned st;
  kf_tcb u : tcb_fixed (tcbs st' !!! u) = tcb_fixed (tcbs st !!! u);
  kf_state u : woken (t_state (tcbs st !!! u)) (t_state (tcbs st' !!! u));
  kf_bal b : refs_bal st b → refs_bal st' b;
}.

Lemma tick_frame_refl st : tick_frame st st.
Proof. split; try done. by left. Qed.

Lemma tick_frame_trans st1 st2 st3 : tick_frame st1 st2 → tick_frame st2 st3 → tick_frame st1 st3.
Proof. intros [] []. split; try congruence; [intros u; by eapply woken_trans|eauto]. Qed.

Lemma tick_frame_timer st st' : timer_frame st st' → tick_frame st st'.
Proof. intros []. split; try done; [congruence|]. intros u. left. congruence. Qed.

Lemma tick_frame_wake st st' rq wq E : wakes st rq wq E st' → tick_frame st st'.
Proof. intros [[] _ ?]. by split. Qed.

Lemma timer_repr_ext st st' tl :
  timers st' = timers st → armed_head st' = armed_head st → timer_repr st tl → timer_repr st' tl.
Proof. intros Et Eh []. split; by rewrite ?Et, ?Eh. Qed.

(** The timers of the list that are still armed after a tick at [now]. *)
Definition pending (st : Store) (now : Z) (l : list ObjId) : list ObjId :=
  filter (λ t, now < tm_deadline (timers st !!! t)) l.

Lemma pending_ext st st' now l :
  (∀ u, u ∈ l → tm_deadline (timers st' !!! u) = tm_deadline (timers st !!! u)) →
  pending st' now l = pending st now l.
Proof.
  unfold pending. induction l as [|x l IH]; intros Hd; [done|].
  specialize (IH (λ u Hu, Hd u (list_elem_of_further u x l Hu))).
  pose proof (Hd x (list_elem_of_here x l)) as Hx.
  destruct (decide (now < tm_deadline (timers st !!! x))).
  - rewrite !filter_cons_True by lia. by f_equal.
  - rewrite !filter_cons_False by lia. done.
Qed.

Section tick.
Context (now : Z) (b : ObjId → Z) (E : gset ObjId).
Hypothesis b_nonneg : ∀ o, 0 ≤ b o.

(** One timer visited: if it is due it leaves the list and its notification is
    signalled, and no other timer changes. *)
Lemma expire_step st rq wq pre c l :
  timer_repr st (pre ++ c :: l) → sched_inv st rq wq E → refs_bal st b →
  wp (expire now c) (λ _ st', timer_repr st' (pre ++ pending st now [c] ++ l) ∧
    (∃ rq' wq', sched_inv st' rq' wq' E) ∧ tick_frame st st' ∧
    (∀ u, u ≠ c → tm_deadline (timers st' !!! u) = tm_deadline (timers st !!! u))) st.
Proof using b_nonneg.
  intros T I Hb. unfold expire, pending. wp_acc.
  destruct (Z.leb_spec (tm_deadline (timers st !!! c)) now) as [Hd|Hd].
  - rewrite filter_cons_False, filter_nil by lia. simpl.
    destruct (tr_notif _ _ T c) as [n Hn]; [set_solver|]. wp_acc. rewrite Hn.
    eapply wp_mono.
    { eapply (disarm_spec _ _ T c pre l n); [done|done|]. apply (timer_refs_pos _ _ T b c n); [set_solver|done..]. }
    cbv beta. intros _ st1 (T1 & F1 & _ & Hu1).
    eapply wp_mono; [eapply (signal_wakes st1 rq wq E); [by eapply sched_inv_timer|by apply F1|done]|].
    cbv beta. intros _ st2 W. pose proof W as [F2 (rq' & wq' & I2 & _) _].
    split_and!.
    + eapply timer_repr_ext; [apply F2..|done].
    + eauto.
    + eapply tick_frame_trans; [by apply tick_frame_timer|by eapply tick_frame_wake].
    + intros u Hu. rewrite (wf_timers _ _ F2). by apply Hu1.
  - wp_acc. rewrite filter_cons_True, filter_nil by lia. split_and!; [done|eauto|apply tick_frame_refl|done].
Qed.

(** The walk over the mutating list visits exactly the timers armed when it
    started, and terminates. *)
Lemma check_loop st rq wq pre l fuel :
  timer_repr st (pre ++ l) → sched_inv st rq wq E → refs_bal st b → (length l ≤ fuel)%nat →
  check_expired_loop fuel now (head l) st = expire_all now l st ∧
  wp (check_expired_loop fuel now (head l)) (λ _ st', timer_repr st' (pre ++ pending st now l) ∧
    (∃ rq' wq', sched_inv st' rq' wq' E) ∧ tick_frame st st') st.
Proof using b_nonneg.
  revert st rq wq pre fuel. induction l as [|c l IH]; intros st rq wq pre fuel T I Hb Hf.
  { split; [by destruct fuel|]. simpl. destruct fuel; simpl; wp_acc; split_and!; eauto using tick_frame_refl. }
  destruct fuel as [|fuel]; simpl in Hf; [lia|].
  assert (tm_next (timers st !!! c) = head l) as Hnext.
  { pose proof (tr_chain _ _ T) as Hc. apply (chain_drop _ _ _ (length pre)) in Hc.
    rewrite drop_app_length in Hc. destruct Hc as [_ Hc]. by apply chain_head in Hc. }
  assert (c ∉ l) as Hcl.
  { pose proof (chain_NoDup _ _ _ (tr_chain _ _ T)) as HN.
    apply NoDup_app in HN as (_ & _ & [HN _]%NoDup_cons). done. }
  pose proof (expire_step st rq wq pre c l T I Hb) as Hstep.
  apply wp_inv in Hstep as ([] & st1 & Hrun & T1 & (rq1 & wq1 & I1) & F1 & Hu1).
  rewrite app_assoc in T1.
  destruct (IH st1 rq1 wq1 _ fuel T1 I1) as [Heq Hwp]; [by apply F1|lia|].
  assert (check_expired_loop (S fuel) now (Some c) st = check_expired_loop fuel now (head l) st1) as Hun.
  { simpl. unfold timer_next, gets, mbind, comp_bind. rewrite Hnext, Hrun. done. }
  split.
  - etrans; [exact Hun|]. rewrite Heq. simpl. unfold mbind, comp_bind. by rewrite Hrun.
  - apply wp_inv in Hwp as (a & st' & Hr & T' & I' & F'). eapply wp_of_eq; [exact (eq_trans Hun Hr)|].
    split_and!; [|done|by eapply tick_frame_trans].
    rewrite <-app_assoc in T'. rewrite (pending_ext st st1) in T'.
    + unfold pending in *. by rewrite <-filter_app in T'.
    + intros u Hu. apply Hu1. by intros ->.
Qed.
End tick.
