(* ===== verification/Irq.v ===== *)
(** IRQ handler objects ([kcore/src/irq.rs]) and interrupt delivery
    ([kernel/src/irq.rs]): an IRQ object is bound to a notification, which it
    holds a reference on; delivery masks the line and signals the notification,
    acknowledgement unmasks it. *)

From S2P Require Import Prelude KStore Ready Census Notif.

(** ** Operations *)

Definition irq_unbind (i : ObjId) : K unit :=
  bound ← irq_bound i;
  if negb bound then mret tt
  else
    nopt ← irq_notif i;
    (match nopt with
     | Some n => r ← obj_refs n; r' ← usub r 1; set_obj_refs n r'
     | None => mret tt
     end);;
    set_irq_notif i None;;
    set_irq_bound i false.

Definition irq_bind (i notif : ObjId) (bits : Z) : K unit :=
  irq_unbind i;;
  r ← obj_refs notif;
  r' ← uadd U32_MAX r 1;
  set_obj_refs notif r';;
  set_irq_notif i (Some notif);;
  set_irq_bits i bits;;
  set_irq_bound i true.

Definition destroy_irq (i : ObjId) : K unit := irq_unbind i.

(** [IRQ_TABLE] is a boot-static array; [table] lists its entries' handles. *)
Definition irq_for_intid (table : list ObjId) (intid : Z) : K (option ObjId) :=
  gets (λ st, head (filter (λ i, i_intid (irqs st !!! i) = intid) table)).

Definition deliver (table : list ObjId) (intid : Z) : K bool :=
  p ← irq_for_intid table intid;
  match p with
  | None => mret false
  | Some i =>
      bound ← irq_bound i;
      if (bound : bool) then
        nopt ← irq_notif i;
        notif ← unwrap nopt;
        bits ← irq_bits i;
        gic_disable intid;;
        set_irq_masked i true;;
        signal notif bits;;
        mret true
      else mret false
  end.

Definition ack (i : ObjId) : K unit :=
  set_irq_masked i false;;
  intid ← irq_intid i;
  gic_enable intid.

(** ** Invariant and frame *)

Definition irq_inv (st : Store) : Prop :=
  ∀ i, i_bound (irqs st !!! i) = true → is_Some (i_notif (irqs st !!! i)).

Record irq_frame (st st' : Store) : Prop := {
  if_slots : slots st' = slots st;
  if_cspaces : cspaces st' = cspaces st;
  if_chans : chans st' = chans st;
  if_notifs : notifs st' = notifs st;
  if_tcbs : tcbs st' = tcbs st;
  if_timers : timers st' = timers st;
  if_aspaces : aspaces st' = aspaces st;
  if_armed : armed_head st' = armed_head st;
  if_ready : ready st' = ready st;
  if_bits : ready_bits st' = ready_bits st;
  if_pinned : pinned st' = pinned st;
  if_bal b : refs_bal st b → refs_bal st' b;
}.

(** ** Lemmas *)
Lemma irq_frame_refl st : irq_frame st st.
Proof. by split. Qed.

Lemma irq_frame_trans st1 st2 st3 : irq_frame st1 st2 → irq_frame st2 st3 → irq_frame st1 st3.
Proof. intros [] []. split; try congruence. eauto. Qed.

Lemma irq_bal st st' i v b (d : ObjId → Z) :
  slots st' = slots st → chans st' = chans st → tcbs st' = tcbs st → timers st' = timers st →
  pinned st' = pinned st → irqs st' = <[i := v]> (irqs st) →
  (∀ o, refs st' !!! o = refs st !!! o + d o) →
  (∀ o, irq_refs o v = irq_refs o (irqs st !!! i) + d o) →
  refs_bal st b → refs_bal st' b.
Proof.
  intros E1 E2 E3 E4 E5 Et Hr Hd Hb o. rewrite Hr, Hb. unfold obj_census.
  rewrite E1, E2, E3, E4, E5, Et, msum_insert by done. rewrite Hd. lia.
Qed.

Lemma irq_refs_pos st b i n :
  i_bound (irqs st !!! i) = true → i_notif (irqs st !!! i) = Some n → refs_bal st b → 0 ≤ b n →
  1 ≤ refs st !!! n.
Proof.
  intros Hin Hn Hb Hbn. pose proof (irq_refs_le st i n) as Hle.
  unfold irq_refs in Hle. rewrite Hin, Hn, ind_true in Hle by done. rewrite Hb. lia.
Qed.

Section irq_ops.
Context (st : Store) (b : ObjId → Z).
Hypothesis I : irq_inv st.
Hypothesis Hb : refs_bal st b.
Hypothesis b_nonneg : ∀ o, 0 ≤ b o.

Lemma irq_unbind_spec i :
  wp (irq_unbind i) (λ _ st', irq_inv st' ∧ irq_frame st st' ∧ i_bound (irqs st' !!! i) = false ∧
    (∀ o, refs st' !!! o ≤ refs st !!! o) ∧
    (∀ j, j ≠ i → irqs st' !!! j = irqs st !!! j)) st.
Proof using I Hb b_nonneg.
  unfold irq_unbind. wp_acc. destruct (i_bound (irqs st !!! i)) eqn:Eb; cbn [negb]; wp_acc.
  2:{ by split_and!. }
  destruct (I i Eb) as [n Hn]. rewrite Hn. wp_acc.
  eapply wp_usub; [by eapply irq_refs_pos|]. split_and!; cbn.
  - intros j. cbn. destruct (decide (j = i)) as [->|]; lk; [done|apply I].
  - split; try done. intros c Hc.
    eapply (irq_bal st _ i _ c (λ o, - ind (Some n = Some o))); [done|done|done|done|done| | | |exact Hc].
    + cbn. lk. rewrite !insert_insert_eq. reflexivity.
    + cbn. intros o. apply refs_minus.
    + intros o. unfold irq_refs. cbn. rewrite Eb, Hn. lia.
  - by lk.
  - intros o. rewrite refs_minus. pose proof (ind_nonneg (Some n = Some o)). lia.
  - intros j Hj. by lk.
Qed.

Lemma irq_bind_spec i n bits :
  refs st !!! n < U32_MAX →
  wp (irq_bind i n bits) (λ _ st', irq_inv st' ∧ irq_frame st st' ∧
    (let o := irqs st' !!! i in i_bound o = true ∧ i_notif o = Some n ∧ i_bits o = bits) ∧
    (∀ j, j ≠ i → irqs st' !!! j = irqs st !!! j)) st.
Proof using I Hb b_nonneg.
  intros Hr. unfold irq_bind. rewrite wp_bind. eapply wp_mono; [apply irq_unbind_spec|].
  cbv beta. intros _ st1 (I1 & F1 & Hbd & Hr1 & Hj). wp_acc.
  eapply wp_uadd; [specialize (Hr1 n); lia|]. split_and!.
  - intros j. cbn. destruct (decide (j = i)) as [->|]; lk; [done|apply I1].
  - eapply irq_frame_trans; [exact F1|]. split; try done. intros c Hc.
    eapply (irq_bal st1 _ i _ c (λ o, ind (Some n = Some o))); [done|done|done|done|done| | | |exact Hc].
    + cbn. lk. rewrite !insert_insert_eq. reflexivity.
    + cbn. intros o. apply refs_plus.
    + intros o. unfold irq_refs. cbn. rewrite Hbd. lia.
  - cbn. by lk.
  - cbn. by lk.
  - cbn. by lk.
  - intros j Hne. cbn. lk. by apply Hj.
Qed.

(** Delivery on a bound line masks it and signals; on an unbound one it does nothing. *)
Lemma deliver_spec rq wq E table i intid :
  sched_inv st rq wq E → head (filter (λ i, i_intid (irqs st !!! i) = intid) table) = Some i →
  wp (deliver table intid) (λ r st',
    if i_bound (irqs st !!! i) then
      r = true ∧ irq_inv st' ∧ i_masked (irqs st' !!! i) = true ∧ i_bound (irqs st' !!! i) = true ∧
      (∀ j, j ≠ i → irqs st' !!! j = irqs st !!! j) ∧
      hw st' = GicDisable intid :: hw st ∧ (∃ rq' wq', sched_inv st' rq' wq' E) ∧ refs_bal st' b
    else r = false ∧ st' = st) st.
Proof using I Hb b_nonneg.
  intros S Hi. unfold deliver, irq_for_intid. wp_acc. rewrite Hi. wp_acc.
  destruct (i_bound (irqs st !!! i)) eqn:Eb; [|by wp_acc].
  destruct (I i Eb) as [n Hn]. wp_acc. rewrite Hn. eapply wp_unwrap; [done|]. wp_acc.
  match goal with |- wp _ _ ?s => set (st1 := s) end.
  assert (refs_bal st1 b) as Hb1.
  { eapply (irq_bal st _ i _ b (λ _, 0)); [done|done|done|done|done|reflexivity| | |exact Hb].
    - intros o. cbn. lia.
    - intros o. unfold irq_refs. cbn. lia. }
  eapply wp_mono; [eapply (signal_wakes st1 rq wq E); [|exact Hb1|done]|].
  { destruct S as [R C N P]. split; try done; [by apply (ready_repr_ext _ _ R)|by destruct N]. }
  cbv beta. intros _ st2 [F (rq' & wq' & I2 & _) _]. wp_acc. rewrite (wf_irqs _ _ F), (wf_hw _ _ F).
  split_and!; try done; unfold st1; cbn; lk; try done.
  - intros j. rewrite (wf_irqs _ _ F). unfold st1. cbn.
    destruct (decide (j = i)) as [->|]; lk; cbn; [by rewrite Hn|apply I].
  - intros j Hj. by lk.
  - eauto.
  - by apply F.
Qed.
End irq_ops.

(** Acknowledging unmasks the line and changes nothing else. *)
Lemma ack_spec st i :
  wp (ack i) (λ _ st', i_masked (irqs st' !!! i) = false ∧ hw st' = GicEnable (i_intid (irqs st !!! i)) :: hw st ∧
    (∀ j, j ≠ i → irqs st' !!! j = irqs st !!! j) ∧ refs st' = refs st ∧ tcbs st' = tcbs st) st.
Proof. unfold ack. wp_acc. cbn. lk. split_and!; try done. intros j Hj. by lk. Qed.
