(* ===== verification/Cdt.v ===== *)
(** The capability derivation tree ([kcore/src/cspace.rs]): parent, first-child
    and doubly linked sibling pointers threaded through the cap slots, with
    [cdt_insert_child], [cdt_unlink], [slot_move], [descend_to_leaf] and
    [ancestor_or_self_revoking]. The abstract view gives every slot the list of
    its children; unlinking splices a slot's children into its place, moving
    renames a slot. *)

From S2P Require Import Prelude KStore.

(** ** Operations *)

Definition cdt_insert_child (par child : SlotId) : K unit :=
  p ← slot par;
  let old_first := first_child p in
  c ← slot child;
  set_slot child (slot_set_next_sib old_first (slot_set_prev_sib None (slot_set_parent (Some par) c)));;
  (match old_first with
   | Some f => fs ← slot f; set_slot f (slot_set_prev_sib (Some child) fs)
   | None => mret tt
   end);;
  p ← slot par;
  set_slot par (slot_set_first_child (Some child) p).

(** [loop { if slot(cur).revoking { return true } match slot(cur).parent .. }] *)
Fixpoint ancestor_loop (fuel : nat) (cur : SlotId) : K bool :=
  match fuel with
  | O => nofuel
  | S fuel' =>
      s ← slot cur;
      if revoking s then mret true
      else match parent s with
           | None => mret false
           | Some p => ancestor_loop fuel' p
           end
  end.

Definition ancestor_or_self_revoking (start : SlotId) : K bool :=
  fuel ← gets (λ st, S (size (slots st)));
  ancestor_loop fuel start.

(** The reparenting loop: every slot of the sibling list from [c] gets the parent
    [par]; the last one visited is returned. *)
Fixpoint reparent_loop (fuel : nat) (par : option SlotId) (c last : option SlotId) : K (option SlotId) :=
  match c with
  | None => mret last
  | Some cur =>
      match fuel with
      | O => nofuel
      | S fuel' =>
          cs ← slot cur;
          set_slot cur (slot_set_parent par cs);;
          reparent_loop fuel' par (next_sib cs) (Some cur)
      end
  end.

Definition set_link (f : CapSlot → CapSlot) (s : SlotId) : K unit :=
  v ← slot s; set_slot s (f v).

(** The four neighbour fix-ups of [cdt_unlink] and the final detach. *)
Definition cdt_unlink_splice (s : SlotId) (par prev next first last : option SlotId) : K unit :=
  let hd := match first with None => next | Some _ => first end in
  (match prev with
   | Some pv => set_link (slot_set_next_sib hd) pv
   | None =>
       match par with
       | Some pa => set_link (slot_set_first_child hd) pa
       | None => mret tt
       end
   end);;
  (match hd with
   | Some h => set_link (slot_set_prev_sib prev) h
   | None => mret tt
   end);;
  (match first with
   | Some _ =>
       l ← unwrap last;
       set_link (slot_set_next_sib next) l;;
       match next with
       | Some nx => set_link (slot_set_prev_sib last) nx
       | None => mret tt
       end
   | None => mret tt
   end);;
  set_link (λ v, MkSlot (cap v) None None None None (revoking v)) s.

Definition cdt_unlink (s : SlotId) : K unit :=
  v ← slot s;
  fuel ← gets (λ st, size (slots st));
  last ← reparent_loop fuel (parent v) (first_child v) None;
  cdt_unlink_splice s (parent v) (prev_sib v) (next_sib v) (first_child v) last.

Definition slot_move (src dst : SlotId) : K unit :=
  s ← slot src;
  d0 ← slot dst;
  let d := MkSlot (cap s) (parent s) (first_child s) (next_sib s) (prev_sib s) (revoking s) in
  set_slot dst d;;
  (match parent d with
   | Some pa =>
       pas ← slot pa;
       when_ (match first_child pas with Some c => bool_decide (c = src) | None => false end)
         (set_slot pa (slot_set_first_child (Some dst) pas))
   | None => mret tt
   end);;
  (match prev_sib d with
   | Some pv => set_link (slot_set_next_sib (Some dst)) pv
   | None => mret tt
   end);;
  (match next_sib d with
   | Some nx => set_link (slot_set_prev_sib (Some dst)) nx
   | None => mret tt
   end);;
  fuel ← gets (λ st, size (slots st));
  reparent_loop fuel (Some dst) (first_child d) None;;
  set_slot src CapSlot_empty.

Fixpoint descend_loop (fuel : nat) (leaf : SlotId) : K SlotId :=
  s ← slot leaf;
  match first_child s with
  | None => mret leaf
  | Some c =>
      match fuel with
      | O => nofuel
      | S fuel' => descend_loop fuel' c
      end
  end.

Definition descend_to_leaf (start : SlotId) : K SlotId :=
  fuel ← gets (λ st, size (slots st));
  descend_loop fuel start.

(** ** Abstract view *)

#[local] Abbreviation par m x := (parent (m !!! x)).
#[local] Abbreviation fc m x := (first_child (m !!! x)).
#[local] Abbreviation nx m x := (next_sib (m !!! x)).
#[local] Abbreviation pv m x := (prev_sib (m !!! x)).
Abbreviation slot_map := (gmap SlotId CapSlot).

(** A complete sibling list. *)
Definition sib_group (m : slot_map) (g : list SlotId) : Prop :=
  chain (λ x, nx m x) (head g) g ∧ (∀ h, head g = Some h → pv m h = None).

Record cdt_repr (m : slot_map) (kids : SlotId → list SlotId) : Prop := {
  cr_sym a b : nx m a = Some b ↔ pv m b = Some a;
  cr_par a b : nx m a = Some b → par m a = par m b;
  cr_kids p : chain (λ x, nx m x) (fc m p) (kids p);
  cr_first p c : fc m p = Some c → pv m c = None;
  cr_parent x p : x ∈ kids p ↔ par m x = Some p;
  cr_group x : ∃ g, sib_group m g ∧ x ∈ g;
  cr_empty x : cap_is_empty (cap (m !!! x)) = true →
    par m x = None ∧ fc m x = None ∧ nx m x = None ∧ pv m x = None;
  cr_rank : ∃ rank : SlotId → nat, ∀ x p, par m x = Some p → (rank p < rank x)%nat;
}.

(** The children of every slot once [s] is unlinked: its own children take its
    place among its siblings. *)
Definition splice (l : list SlotId) (s : SlotId) (k : list SlotId) : list SlotId :=
  l ≫= (λ x, if decide (x = s) then k else [x]).

Definition unlink_kids (kids : SlotId → list SlotId) (s : SlotId) : SlotId → list SlotId :=
  λ p, if decide (p = s) then [] else splice (kids p) s (kids s).

(** ** Lemmas: sibling groups *)
Section groups.
Context (m : slot_map) (kids : SlotId → list SlotId).
Hypothesis R : cdt_repr m kids.

Lemma kids_group p : sib_group m (kids p).
Proof using R.
  pose proof (cr_kids _ _ R p) as Hc. pose proof (chain_head _ _ _ Hc) as Hh. split.
  - by rewrite <-Hh.
  - intros h Hk. rewrite <-Hh in Hk. by eapply cr_first.
Qed.

Lemma group_NoDup g : sib_group m g → NoDup g.
Proof. intros [Hc _]. by eapply chain_NoDup. Qed.

Lemma group_next g i x y : sib_group m g → g !! i = Some x → g !! S i = Some y → pv m y = Some x.
Proof using R.
  intros [Hc _] Hx Hy. apply (cr_sym _ _ R). apply chain_lookup in Hc as [_ Hc].
  by rewrite (Hc i x Hx).
Qed.

Lemma group_head g x : sib_group m g → g !! 0%nat = Some x → pv m x = None.
Proof. intros [_ Hh] Hx. apply Hh. by rewrite head_lookup. Qed.

Lemma group_unique g g' z : sib_group m g → sib_group m g' → z ∈ g → z ∈ g' → g = g'.
Proof using R.
  intros G G' [i Hi]%list_elem_of_lookup [j Hj]%list_elem_of_lookup.
  assert (head g = head g') as Hh.
  { revert j z Hi Hj. induction i as [|i IH]; intros [|j] z Hi Hj.
    - rewrite !head_lookup. congruence.
    - pose proof (group_head _ _ G Hi) as Hp.
      destruct (lookup_lt_is_Some_2 g' j) as [y Hy]; [apply lookup_lt_Some in Hj; lia|].
      rewrite (group_next g' j y z G' Hy Hj) in Hp. done.
    - pose proof (group_head _ _ G' Hj) as Hp.
      destruct (lookup_lt_is_Some_2 g i) as [y Hy]; [apply lookup_lt_Some in Hi; lia|].
      rewrite (group_next g i y z G Hy Hi) in Hp. done.
    - destruct (lookup_lt_is_Some_2 g i) as [y Hy]; [apply lookup_lt_Some in Hi; lia|].
      destruct (lookup_lt_is_Some_2 g' j) as [y' Hy']; [apply lookup_lt_Some in Hj; lia|].
      apply (IH j y Hy). pose proof (group_next _ _ _ _ G Hy Hi). pose proof (group_next _ _ _ _ G' Hy' Hj).
      congruence. }
  destruct G as [Hc _], G' as [Hc' _]. rewrite Hh in Hc. by eapply chain_inj.
Qed.

(** Siblings share a parent. *)
Lemma group_parent g x y : sib_group m g → x ∈ g → y ∈ g → par m x = par m y.
Proof using R.
  intros G. assert (∀ i z, g !! i = Some z → ∀ h, head g = Some h → par m z = par m h) as Hz.
  { intros i. induction i as [|i IH]; intros z Hz h Hh.
    - rewrite head_lookup in Hh. congruence.
    - destruct (lookup_lt_is_Some_2 g i) as [w Hw]; [apply lookup_lt_Some in Hz; lia|].
      rewrite <-(IH w Hw h Hh). symmetry. apply (cr_par _ _ R). apply (cr_sym _ _ R). by eapply group_next. }
  intros [i Hi]%list_elem_of_lookup [j Hj]%list_elem_of_lookup.
  destruct (head g) as [h|] eqn:Hh.
  - by rewrite (Hz i x Hi h), (Hz j y Hj h).
  - apply head_None in Hh as ->. done.
Qed.

Lemma kids_parent x p : x ∈ kids p → par m x = Some p.
Proof using R. apply (cr_parent _ _ R). Qed.

Lemma parent_irrefl x : par m x ≠ Some x.
Proof using R. destruct (cr_rank _ _ R) as [rank Hr]. intros H%Hr. lia. Qed.

(** The neighbours of a slot in its group. *)
Lemma group_neighbours g1 s g2 :
  sib_group m (g1 ++ s :: g2) → pv m s = last g1 ∧ nx m s = head g2.
Proof using R.
  intros G. pose proof G as [Hc _]. apply chain_lookup in Hc as [_ Hc]. split.
  - destruct (last g1) as [y|] eqn:El.
    + apply last_Some in El as [g0 ->]. eapply (group_next _ (length g0)); [exact G|..].
      * rewrite <-app_assoc. simpl. by rewrite list_lookup_middle.
      * rewrite <-app_assoc. simpl. rewrite lookup_app_r by lia.
        replace (S (length g0) - length g0)%nat with 1%nat by lia. done.
    + apply last_None in El as ->. by eapply group_head.
  - rewrite (Hc (length g1) s) by (by rewrite list_lookup_middle).
    rewrite lookup_app_r by lia. replace (S (length g1) - length g1)%nat with 1%nat by lia.
    simpl. by rewrite head_lookup.
Qed.

Lemma group_of x : ∃ g1 g2, sib_group m (g1 ++ x :: g2).
Proof using R.
  destruct (cr_group _ _ R x) as (g & G & (g1 & g2 & ->)%list_elem_of_split). eauto.
Qed.

(** A slot with a parent or a child holds a capability. *)
Lemma linked_nonempty x p : par m x = Some p → cap_is_empty (cap (m !!! x)) = false.
Proof using R.
  intros Hp. destruct (cap_is_empty _) eqn:E; [|done].
  apply (cr_empty _ _ R) in E as (Hn & _). congruence.
Qed.

Lemma slots_fuel (l : list SlotId) :
  NoDup l → (∀ x, x ∈ l → cap_is_empty (cap (m !!! x)) = false) → (length l ≤ size m)%nat.
Proof.
  intros HN Hl. rewrite <-size_dom, <-(size_list_to_set (C := gset SlotId) l HN).
  apply subseteq_size. intros k Hk%elem_of_list_to_set. apply elem_of_dom.
  specialize (Hl k Hk). unfold lookup_total, map_lookup_total in Hl. by destruct (m !! k).
Qed.

Lemma kids_fuel p : (length (kids p) ≤ size m)%nat.
Proof using R.
  apply slots_fuel; [by apply group_NoDup, kids_group|].
  intros x Hx%kids_parent. by eapply linked_nonempty.
Qed.
End groups.

Lemma splice_notin l s k : s ∉ l → splice l s k = l.
Proof.
  induction l as [|x l IH]; [done|]. intros Hn. cbn. rewrite decide_False by set_solver.
  simpl. f_equal. apply IH. set_solver.
Qed.

Lemma splice_split l1 s l2 k : NoDup (l1 ++ s :: l2) → splice (l1 ++ s :: l2) s k = l1 ++ k ++ l2.
Proof.
  intros (_ & Hd & [HN _]%NoDup_cons)%NoDup_app. unfold splice. rewrite bind_app. cbn.
  rewrite decide_True by done. f_equal; [|f_equal].
  - apply splice_notin. set_solver.
  - by apply splice_notin.
Qed.

Lemma elem_of_splice x l s k : x ∈ splice l s k ↔ (x ∈ l ∧ x ≠ s) ∨ (s ∈ l ∧ x ∈ k).
Proof.
  unfold splice. rewrite list_elem_of_bind. split.
  - intros (y & Hx & Hy). case_decide; [subst; by right|].
    apply list_elem_of_singleton in Hx as ->. by left.
  - intros [[Hx Hne]|[Hs Hk]].
    + exists x. rewrite decide_False by done. by split; [apply list_elem_of_singleton|].
    + exists s. by rewrite decide_True.
Qed.

(** [m'] is [m] with [s] taken out of the tree. *)
Record unlinked (m : slot_map) (kids : SlotId → list SlotId) (s : SlotId) (m' : slot_map) : Prop := {
  ul_cap x : cap (m' !!! x) = cap (m !!! x);
  ul_revoking x : revoking (m' !!! x) = revoking (m !!! x);
  ul_self : par m' s = None ∧ fc m' s = None ∧ nx m' s = None ∧ pv m' s = None;
  ul_par x : x ≠ s → par m' x = if decide (x ∈ kids s) then par m s else par m x;
  ul_fc x : x ≠ s → fc m' x =
    if decide (par m s = Some x ∧ pv m s = None)
    then match kids s with [] => nx m s | c :: _ => Some c end else fc m x;
  ul_nx x : x ≠ s → nx m' x =
    if decide (last (kids s) = Some x) then nx m s
    else if decide (pv m s = Some x)
    then match kids s with [] => nx m s | c :: _ => Some c end else nx m x;
  ul_pv x : x ≠ s → pv m' x =
    if decide (kids s ≠ [] ∧ nx m s = Some x) then last (kids s)
    else if decide (match kids s with [] => nx m s | c :: _ => Some c end = Some x) then pv m s else pv m x;
}.

(** A chain's front segment [a] relinked to lead into the chain [c]. *)
Lemma chain_relink {Id : Type} `{EqDecision Id} (nxt nxt' : Id → option Id) h a rest c :
  chain nxt h (a ++ rest) → chain nxt' (head c) c →
  (∀ x, last a = Some x → nxt' x = head c) →
  (∀ x, x ∈ a → last a ≠ Some x → nxt' x = nxt x) →
  chain nxt' (head (a ++ c)) (a ++ c).
Proof.
  intros Ha Hc. revert h Ha. induction a as [|x a IH]; intros h Ha Hl Hn; [done|].
  pose proof (chain_NoDup _ _ _ Ha) as HN. simpl in HN. apply NoDup_cons in HN as [HN _].
  destruct Ha as [-> Ha]. simpl. split; [done|]. destruct a as [|y a].
  - simpl. by rewrite Hl.
  - assert (last (y :: a) ≠ Some x) as Hlast by (intros ?%last_in; set_solver).
    rewrite Hn by (set_solver || by rewrite last_cons_cons).
    destruct Ha as [Hx Ha]. rewrite Hx. apply (IH (Some y)); [done|..].
    + intros z. rewrite <-(last_cons_cons x). apply Hl.
    + intros z Hz Hne. apply Hn; [set_solver|by rewrite last_cons_cons].
Qed.

(** Chains: [s] replaced by the chain [k]. *)
Lemma chain_splice {Id : Type} `{EqDecision Id} (nxt nxt' : Id → option Id) h g1 s g2 k :
  chain nxt h (g1 ++ s :: g2) → chain nxt (head k) k → s ∉ k → (∀ x, x ∈ g1 ++ g2 → x ∉ k) →
  (∀ x, x ∈ g1 ++ k ++ g2 → nxt' x =
    if decide (last k = Some x) then nxt s
    else if decide (last g1 = Some x) then match k with [] => nxt s | c :: _ => Some c end
    else nxt x) →
  chain nxt' (head (g1 ++ k ++ g2)) (g1 ++ k ++ g2).
Proof.
  intros Hg Hk Hsk Hd Hn. pose proof (chain_NoDup _ _ _ Hg) as HN.
  apply NoDup_app in HN as (N1 & D12 & [Ns N2]%NoDup_cons).
  pose proof (chain_drop _ _ _ (length g1) Hg) as Hg2. rewrite drop_app_length in Hg2.
  destruct Hg2 as [_ Hg2]. pose proof (chain_head _ _ _ Hg2) as Hs.
  assert (∀ x, x ∈ g1 → last k ≠ Some x) as L1 by (intros x ? ?%last_in; apply (Hd x); set_solver).
  assert (∀ x, x ∈ g2 → last k ≠ Some x) as L2 by (intros x ? ?%last_in; apply (Hd x); set_solver).
  eapply (chain_relink nxt); [exact Hg|eapply (chain_relink nxt _ _ _ []); [by rewrite app_nil_r| |..]|..].
  - rewrite <-Hs. eapply chain_ext; [|exact Hg2]. intros x Hx. rewrite Hn by set_solver.
    rewrite !decide_False; [done| |by apply L2]. intros ?%last_in. apply (D12 x); set_solver.
  - intros x Hx. pose proof (last_in _ _ Hx). rewrite Hn by set_solver. by rewrite decide_True.
  - intros x Hx Hne. rewrite Hn by set_solver. rewrite !decide_False; [done| |done].
    intros ?%last_in. apply (Hd x); set_solver.
  - intros x Hx. pose proof (last_in _ _ Hx). rewrite Hn by set_solver.
    rewrite decide_False, decide_True by (done || by apply L1). by destruct k.
  - intros x Hx Hne. rewrite Hn by set_solver. by rewrite !decide_False by (done || by apply L1).
Qed.

Section unlink.
Context (m m' : slot_map) (kids : SlotId → list SlotId) (s : SlotId) (g1 g2 : list SlotId).
Hypothesis R : cdt_repr m kids.
Hypothesis U : unlinked m kids s m'.
Hypothesis G : sib_group m (g1 ++ s :: g2).

Lemma unlink_pv : pv m s = last g1.
Proof using R U G. by eapply group_neighbours. Qed.
Lemma unlink_nx : nx m s = head g2.
Proof using R U G. by eapply group_neighbours. Qed.

Lemma unlink_disjoint x : x ∈ g1 ++ s :: g2 → x ∉ kids s.
Proof using R U G.
  intros Hx Hk%(kids_parent _ _ R). rewrite (group_parent _ _ R _ x s G Hx) in Hk by set_solver.
  by apply (parent_irrefl _ _ R s).
Qed.

Lemma unlink_group_notin : (s ∉ g1) ∧ (s ∉ g2) ∧ (∀ x, x ∈ g1 → x ∉ g2).
Proof using R U G.
  apply group_NoDup in G as HN. apply NoDup_app in HN as (_ & Hd & [HN _]%NoDup_cons). set_solver.
Qed.

Lemma unlink_s_notin : s ∉ kids s.
Proof using R U G. apply unlink_disjoint. set_solver. Qed.

(** The group of [s] and the children of [s] are joined into one. *)
Lemma unlink_new_group : sib_group m' (g1 ++ kids s ++ g2).
Proof using R U G.
  pose proof unlink_group_notin as (N1 & N2 & N12). pose proof unlink_disjoint as Hd.
  pose proof unlink_s_notin as Ns. split.
  - eapply (chain_splice (λ x, nx m x) _ _ g1 s g2 (kids s)); [apply G|apply (kids_group _ _ R)|done| |].
    + intros x Hx. apply Hd. set_solver.
    + intros x Hx. rewrite (ul_nx _ _ _ _ U) by set_solver. by rewrite unlink_pv.
  - intros h Hh. assert (h ∈ g1 ++ kids s ++ g2) as Hin by (rewrite head_lookup in Hh; by eapply list_elem_of_lookup_2).
    rewrite (ul_pv _ _ _ _ U) by set_solver. rewrite unlink_nx, unlink_pv.
    destruct g1 as [|a g1'].
    + simpl in Hh. case_decide as D1.
      * destruct D1 as [D1 D2]. destruct (kids s) as [|c k] eqn:Ek; [done|]. simpl in Hh.
        injection Hh as ->. exfalso. apply (Hd h); [destruct g2; set_solver|set_solver].
      * destruct (kids s) as [|c k] eqn:Ek; simpl in Hh; by rewrite decide_True.
    + simpl in Hh. injection Hh as ->. rewrite !decide_False.
      * apply G. done.
      * destruct (kids s) as [|c k] eqn:Ek.
        -- intros Hg2. apply (N12 h); [set_solver|]. destruct g2; [done|]. simpl in Hg2. set_solver.
        -- intros [= ->]. apply (Hd h); set_solver.
      * intros [_ Hg2]. apply (N12 h); [set_solver|]. destruct g2; [done|]. simpl in Hg2. set_solver.
Qed.

(** Slots outside both lists keep their sibling links. *)
Lemma unlink_other x : x ∉ g1 ++ kids s ++ g2 → x ≠ s → nx m' x = nx m x ∧ pv m' x = pv m x.
Proof using R U G.
  intros Hx Hne. rewrite (ul_nx _ _ _ _ U), (ul_pv _ _ _ _ U) by done. rewrite unlink_pv, unlink_nx.
  assert (head g2 ≠ Some x) as H1 by (destruct g2; set_solver).
  assert (last g1 ≠ Some x) as H2 by (intros ?%last_in; set_solver).
  assert (last (kids s) ≠ Some x) as H3 by (intros ?%last_in; set_solver).
  split; rewrite !decide_False; try done; try naive_solver.
  destruct (kids s); set_solver.
Qed.

Lemma unlink_old_group g x :
  sib_group m g → x ∈ g → x ∉ g1 ++ kids s ++ g2 → x ≠ s → sib_group m' g.
Proof using R U G.
  intros Gg Hx Hnin Hne. assert (∀ y, y ∈ g → (y ∉ g1 ++ kids s ++ g2) ∧ y ≠ s) as Hy.
  { intros y Hy. assert (y ∉ g1 ++ s :: g2) as Hg.
    { intros Hys. rewrite (group_unique _ _ R _ _ y Gg G Hy Hys) in Hx. set_solver. }
    assert (y ∉ kids s) as Hk.
    { intros Hys. rewrite (group_unique _ _ R _ _ y Gg (kids_group _ _ R s) Hy Hys) in Hx. set_solver. }
    set_solver. }
  destruct Gg as [Hc Hh]. split.
  - eapply chain_ext; [|exact Hc]. intros y [? ?]%Hy. by apply unlink_other.
  - intros h Hg. assert (h ∈ g) as [? ?]%Hy by (rewrite head_lookup in Hg; by eapply list_elem_of_lookup_2).
    destruct (unlink_other h) as [_ ->]; [done..|]. by apply Hh.
Qed.

Lemma unlink_groups x : ∃ g, sib_group m' g ∧ x ∈ g.
Proof using R U G.
  destruct (decide (x = s)) as [->|Hne].
  { exists [s]. destruct (ul_self _ _ _ _ U) as (_ & _ & Hn & Hp).
    split; [|set_solver]. split; simpl; [by split|]. by intros h [= ->]. }
  destruct (decide (x ∈ g1 ++ kids s ++ g2)) as [Hin|Hnin].
  { exists (g1 ++ kids s ++ g2). split; [apply unlink_new_group|done]. }
  destruct (cr_group _ _ R x) as (g & Gg & Hx). exists g. split; [by eapply unlink_old_group|done].
Qed.

Lemma unlink_parent_kids p : p ≠ s → par m s = Some p → kids p = g1 ++ s :: g2.
Proof using R U G.
  intros Hne Hp. apply (group_unique _ _ R _ _ s); [apply (kids_group _ _ R)|done|by apply (cr_parent _ _ R)|].
  clear. set_solver.
Qed.

Lemma unlink_kids_parent p : p ≠ s → par m s = Some p → unlink_kids kids s p = g1 ++ kids s ++ g2.
Proof using R U G.
  intros Hne Hp. unfold unlink_kids. rewrite decide_False by done.
  rewrite (unlink_parent_kids p Hne Hp). apply splice_split. by eapply group_NoDup.
Qed.

Lemma unlink_kids_other p : p ≠ s → par m s ≠ Some p → unlink_kids kids s p = kids p.
Proof using R U G.
  intros Hne Hp. unfold unlink_kids. rewrite decide_False by done.
  apply splice_notin. by intros ?%(kids_parent _ _ R).
Qed.

(** The head of the children of any other slot. *)
Lemma unlink_first p : p ≠ s → fc m' p = head (unlink_kids kids s p).
Proof using R U G.
  intros Hne. rewrite (ul_fc _ _ _ _ U) by done. rewrite unlink_pv, unlink_nx.
  destruct (decide (par m s = Some p)) as [Hp|Hp].
  - rewrite (unlink_kids_parent p Hne Hp). pose proof (cr_kids _ _ R p) as Hc.
    apply chain_head in Hc. rewrite (unlink_parent_kids p Hne Hp) in Hc.
    destruct g1 as [|a g1'].
    + rewrite decide_True by done. by destruct (kids s).
    + rewrite decide_False; [done|]. intros [_ Hl]. by apply last_None in Hl.
  - rewrite decide_False by naive_solver. rewrite (unlink_kids_other p Hne Hp).
    apply (chain_head _ _ _ (cr_kids _ _ R p)).
Qed.

Lemma unlink_kids_group p : sib_group m' (unlink_kids kids s p).
Proof using R U G.
  destruct (decide (p = s)) as [->|Hne].
  { unfold unlink_kids. by rewrite decide_True. }
  destruct (decide (par m s = Some p)) as [Hp|Hp].
  { rewrite (unlink_kids_parent p Hne Hp). apply unlink_new_group. }
  rewrite (unlink_kids_other p Hne Hp). destruct (kids p) as [|x k] eqn:Ek; [done|].
  assert (x ∈ kids p) as Hx by (rewrite Ek; clear; set_solver).
  rewrite <-Ek. eapply (unlink_old_group _ x); [apply (kids_group _ _ R)|done|..].
  - apply (kids_parent _ _ R) in Hx as Hxp. rewrite !not_elem_of_app.
    assert (x ∉ g1 ++ s :: g2) as Hg.
    { intros Hg. apply Hp. rewrite <-Hxp. apply (group_parent _ _ R _ _ _ G); [clear; set_solver|done]. }
    split_and!; [clear -Hg; set_solver| |clear -Hg; set_solver].
    intros Hks%(kids_parent _ _ R). congruence.
  - intros ->. apply Hp. by apply (kids_parent _ _ R).
Qed.

(** What the slots next to the cut looked like before. *)
Lemma unlink_facts :
  (∀ a, last (kids s) = Some a → nx m a = None) ∧
  (∀ c k, kids s = c :: k → pv m c = None) ∧
  (∀ a, pv m s = Some a → nx m a = Some s) ∧ (∀ b, nx m s = Some b → pv m b = Some s).
Proof using R U G.
  split_and!.
  - intros a [l Hl]%last_Some. pose proof (cr_kids _ _ R s) as [_ Hc]%chain_lookup. rewrite Hl in Hc.
    rewrite (Hc (length l) a) by (by rewrite list_lookup_middle).
    apply lookup_ge_None. rewrite length_app. simpl. lia.
  - intros c k Hk. apply (cr_first _ _ R s). by rewrite (chain_head _ _ _ (cr_kids _ _ R s)), Hk.
  - intros a. apply (cr_sym _ _ R).
  - intros b. apply (cr_sym _ _ R).
Qed.

Lemma unlink_nx_pv a b : a ≠ s → b ≠ s → nx m' a = Some b → pv m' b = Some a.
Proof using R U G.
  intros Ha Hb. pose proof unlink_facts as (F1 & F2 & F3 & F4). pose proof unlink_disjoint as Hd.
  rewrite (ul_nx _ _ _ _ U), (ul_pv _ _ _ _ U) by done.
  destruct (decide (last (kids s) = Some a)) as [El|El].
  { intros Hn. rewrite decide_True; [done|]. split; [|done]. by destruct (kids s). }
  destruct (decide (pv m s = Some a)) as [Ep|Ep].
  - intros Hh. rewrite decide_False; [by rewrite decide_True|]. intros [Hk Hn].
    destruct (kids s) as [|c k] eqn:Ek; [done|]. injection Hh as ->.
    assert (b ∈ g2) by (rewrite unlink_nx in Hn; destruct g2; [done|]; simpl in Hn; set_solver).
    apply (Hd b); set_solver.
  - intros Hn. pose proof (proj1 (cr_sym _ _ R a b) Hn) as Hp. rewrite !decide_False; [done|..].
    + destruct (kids s) as [|c k] eqn:Ek; [intros ?%F4; congruence|].
      intros [= ->]. rewrite (F2 b k) in Hp by done. done.
    + intros [_ ?%F4]. congruence.
Qed.

Lemma unlink_pv_nx a b : a ≠ s → b ≠ s → pv m' b = Some a → nx m' a = Some b.
Proof using R U G.
  intros Ha Hb. pose proof unlink_facts as (F1 & F2 & F3 & F4). pose proof unlink_disjoint as Hd.
  rewrite (ul_nx _ _ _ _ U), (ul_pv _ _ _ _ U) by done.
  destruct (decide (kids s ≠ [] ∧ nx m s = Some b)) as [[Ek En]|En].
  { intros Hl. by rewrite decide_True. }
  destruct (decide (match kids s with [] => nx m s | c :: _ => Some c end = Some b)) as [Eh|Eh].
  - intros Hp. rewrite decide_False; [by rewrite decide_True|]. intros Hl%last_in.
    rewrite unlink_pv in Hp. apply last_in in Hp. apply (Hd a); set_solver.
  - intros Hp. pose proof (proj2 (cr_sym _ _ R a b) Hp) as Hn. rewrite !decide_False; [done|..].
    + intros ?%F3. congruence.
    + intros ?%F1. congruence.
Qed.

Lemma unlink_sym a b : nx m' a = Some b ↔ pv m' b = Some a.
Proof using R U G.
  pose proof unlink_facts as (F1 & F2 & F3 & F4). pose proof unlink_s_notin as Ns.
  pose proof unlink_group_notin as (N1 & N2 & _). destruct (ul_self _ _ _ _ U) as (_ & _ & Sn & Sp).
  destruct (decide (a = s)) as [->|Ha]; destruct (decide (b = s)) as [->|Hb].
  - by rewrite Sn, Sp.
  - rewrite Sn. split; [done|]. rewrite (ul_pv _ _ _ _ U) by done.
    destruct (decide (kids s ≠ [] ∧ nx m s = Some b)) as [_|En]; [by intros ?%last_in|].
    destruct (decide (_ = Some b)) as [_|Eh]; [rewrite unlink_pv; by intros ?%last_in|].
    intros Hp%(cr_sym _ _ R). exfalso. destruct (kids s); [by apply Eh|by apply En].
  - rewrite Sp. split; [|done]. rewrite (ul_nx _ _ _ _ U) by done.
    destruct (decide (last (kids s) = Some a)) as [_|El].
    { rewrite unlink_nx. intros Hg. destruct g2; [done|]. simpl in Hg. set_solver. }
    destruct (decide (pv m s = Some a)) as [_|Ep].
    + destruct (kids s) as [|c k]; [|set_solver].
      rewrite unlink_nx. intros Hg. destruct g2; [done|]. simpl in Hg. set_solver.
    + by intros Hn%(cr_sym _ _ R).
  - split; [by apply unlink_nx_pv|by apply unlink_pv_nx].
Qed.

Lemma unlink_par x p : par m' x = Some p ↔ x ∈ unlink_kids kids s p.
Proof using R U G.
  pose proof unlink_s_notin as Ns. unfold unlink_kids. destruct (decide (x = s)) as [->|Hx].
  { destruct (ul_self _ _ _ _ U) as (-> & _). split; [done|]. destruct (decide (p = s)); [by intros ?%elem_of_nil|].
    rewrite elem_of_splice. intros [[_ ?]|[_ ?]]; done. }
  rewrite (ul_par _ _ _ _ U) by done. destruct (decide (p = s)) as [->|Hp].
  - rewrite elem_of_nil. split; [|done]. destruct (decide (x ∈ kids s)) as [Hk|Hk].
    + intros ?. by apply (parent_irrefl _ _ R s).
    + intros ?%(cr_parent _ _ R). done.
  - rewrite elem_of_splice, (cr_parent _ _ R x p), (cr_parent _ _ R s p). destruct (decide (x ∈ kids s)) as [Hk|Hk].
    + apply (kids_parent _ _ R) in Hk as Hkp. rewrite Hkp. split; [by right|]. intros [[? _]|[? _]]; [congruence|done].
    + split; [by left|]. intros [[? _]|[_ ?]]; done.
Qed.

Lemma unlink_share_parent a b : nx m' a = Some b → par m' a = par m' b.
Proof using R U G.
  intros Hab. destruct (ul_self _ _ _ _ U) as (_ & _ & Sn & Sv). pose proof unlink_disjoint as Hd.
  assert (a ≠ s) as Ha by congruence. apply unlink_sym in Hab as Hba.
  assert (b ≠ s) as Hb by congruence. clear Hba. revert Hab.
  assert (∀ x, x ∈ g1 ++ s :: g2 → par m x = par m s) as Hpar
    by (intros x Hx; apply (group_parent _ _ R _ _ _ G); [done|clear; set_solver]).
  assert (∀ x, nx m s = Some x → (x ∉ kids s) ∧ par m x = par m s) as Hnx.
  { intros x Hx. rewrite unlink_nx in Hx. assert (x ∈ g1 ++ s :: g2) by (destruct g2; set_solver).
    split; [by apply Hd|by apply Hpar]. }
  rewrite (ul_nx _ _ _ _ U), !(ul_par _ _ _ _ U) by done.
  destruct (decide (last (kids s) = Some a)) as [El%last_in|El].
  { intros [? ?]%Hnx. by rewrite decide_True, decide_False. }
  destruct (decide (pv m s = Some a)) as [Ep|Ep].
  - rewrite unlink_pv in Ep. apply last_in in Ep. assert (a ∈ g1 ++ s :: g2) as Hag by (clear -Ep; set_solver).
    rewrite decide_False by (by apply Hd). rewrite (Hpar a Hag).
    destruct (kids s) as [|c k] eqn:Ek.
    + intros [? ?]%Hnx. by rewrite decide_False.
    + intros [= ->]. by rewrite decide_True by (clear; set_solver).
  - intros Hn%(cr_par _ _ R). rewrite Hn. destruct (decide (a ∈ kids s)) as [Hk|Hk].
    + rewrite decide_True; [done|]. apply (cr_parent _ _ R). rewrite <-Hn. by apply (cr_parent _ _ R).
    + rewrite decide_False; [done|]. intros Hk'. apply Hk. apply (cr_parent _ _ R). rewrite Hn.
      by apply (cr_parent _ _ R).
Qed.

(** Empty slots were detached before and still are. *)
Lemma unlink_empty x : cap_is_empty (cap (m' !!! x)) = true →
  par m' x = None ∧ fc m' x = None ∧ nx m' x = None ∧ pv m' x = None.
Proof using R U G.
  intros He. destruct (decide (x = s)) as [->|Hx]; [apply U|].
  rewrite (ul_cap _ _ _ _ U) in He. apply (cr_empty _ _ R) in He as (E1 & E2 & E3 & E4).
  pose proof unlink_facts as (F1 & F2 & F3 & F4).
  assert (x ∉ kids s) as Hk by (intros ?%(kids_parent _ _ R); congruence).
  assert (¬ (par m s = Some x)) as Hp.
  { intros Hp%(cr_parent _ _ R). pose proof (cr_kids _ _ R x) as Hc. rewrite E2 in Hc. apply chain_None in Hc.
    rewrite Hc in Hp. by apply elem_of_nil in Hp. }
  assert (pv m s ≠ Some x) as H1 by (intros ?%F3; congruence).
  assert (nx m s ≠ Some x) as H2 by (intros ?%F4; congruence).
  rewrite (ul_par _ _ _ _ U), (ul_fc _ _ _ _ U), (ul_nx _ _ _ _ U), (ul_pv _ _ _ _ U) by done.
  rewrite !decide_False; try done; try tauto.
  - destruct (kids s); [done|]. intros [= ->]. apply Hk. clear; set_solver.
  - by intros ?%last_in.
Qed.

(** Unlinking keeps the tree well formed, with the children spliced in place. *)
Lemma unlink_repr : cdt_repr m' (unlink_kids kids s).
Proof using R U G.
  destruct (ul_self _ _ _ _ U) as (Sp & Sf & Sn & Sv).
  assert (∀ p, fc m' p = head (unlink_kids kids s p)) as Hfirst.
  { intros p. destruct (decide (p = s)) as [->|Hp]; [|by apply unlink_first].
    unfold unlink_kids. by rewrite Sf, decide_True. }
  split.
  - apply unlink_sym.
  - apply unlink_share_parent.
  - intros p. rewrite Hfirst. apply unlink_kids_group.
  - intros p c Hc. rewrite Hfirst in Hc. by apply (unlink_kids_group p).
  - intros x p. by rewrite unlink_par.
  - apply unlink_groups.
  - apply unlink_empty.
  - destruct (cr_rank _ _ R) as [rank Hrank]. exists rank. intros x p Hp.
    destruct (decide (x = s)) as [->|Hx]; [congruence|]. rewrite (ul_par _ _ _ _ U) in Hp by done.
    destruct (decide (x ∈ kids s)) as [Hk%(kids_parent _ _ R)|_]; [|by apply Hrank].
    apply Hrank in Hp, Hk. lia.
Qed.
End unlink.

(** ** Link updates on the slot map *)
Definition upd_opt (o : option SlotId) (g : CapSlot → CapSlot) (m : slot_map) : slot_map :=
  match o with Some y => <[y := g (m !!! y)]> m | None => m end.

Lemma upd_opt_same {A : Type} (f : CapSlot → A) o g m x :
  (∀ v, f (g v) = f v) → f (upd_opt o g m !!! x) = f (m !!! x).
Proof. intros Hf. destruct o as [y|]; cbn; [|done]. rewrite lookup_total_insert. case_decide; by subst. Qed.

Lemma upd_opt_set {A : Type} (f : CapSlot → A) o g (w : A) m x :
  (∀ v, f (g v) = w) → f (upd_opt o g m !!! x) = if decide (o = Some x) then w else f (m !!! x).
Proof.
  intros Hf. destruct o as [y|]; cbn; [|done]. rewrite lookup_total_insert.
  destruct (decide (y = x)) as [->|]; [by rewrite decide_True|by rewrite decide_False by congruence].
Qed.

Lemma upd_first_child o h m x :
  fc (upd_opt o (slot_set_first_child h) m) x = if decide (o = Some x) then h else fc m x.
Proof. by apply (upd_opt_set first_child). Qed.
Lemma upd_next_sib o h m x :
  nx (upd_opt o (slot_set_next_sib h) m) x = if decide (o = Some x) then h else nx m x.
Proof. by apply (upd_opt_set next_sib). Qed.
Lemma upd_prev_sib o h m x :
  pv (upd_opt o (slot_set_prev_sib h) m) x = if decide (o = Some x) then h else pv m x.
Proof. by apply (upd_opt_set prev_sib). Qed.

Lemma reparent_loop_spec fuel newp l c last0 st :
  chain (λ x, nx (slots st) x) c l → (length l ≤ fuel)%nat →
  wp (reparent_loop fuel newp c last0) (λ r st',
    r = match last l with Some y => Some y | None => last0 end ∧
    ∃ m', st' = with_slots (λ _, m') st ∧
      ∀ x, m' !!! x = if decide (x ∈ l) then slot_set_parent newp (slots st !!! x) else slots st !!! x) st.
Proof.
  revert fuel c last0 st. induction l as [|y l IH]; intros fuel c last0 st Hc Hf.
  - simpl in Hc. subst c. destruct fuel; simpl; wp_acc; (split; [done|]); exists (slots st); by destruct st.
  - destruct Hc as [-> Hc]. destruct fuel as [|fuel]; simpl in Hf; [lia|]. simpl. wp_acc.
    eapply wp_mono; [apply (IH fuel)|].
    + eapply chain_ext; [|exact Hc]. intros x Hx. cbn. rewrite lookup_total_insert. by case_decide; subst.
    + lia.
    + cbv beta. intros r st' (Hr & m' & -> & Hm). split.
      { rewrite Hr, last_cons. by destruct (last l). }
      exists m'. split; [by destruct st|]. intros x. rewrite Hm. cbn. rewrite lookup_total_insert.
      destruct (decide (y = x)) as [->|Hne].
      * rewrite (decide_True (P := x ∈ x :: l)) by (clear; set_solver). by case_decide.
      * destruct (decide (x ∈ l)) as [Hx|Hx].
        -- rewrite decide_True by (clear -Hx; set_solver). done.
        -- rewrite decide_False by (clear -Hx Hne; set_solver). done.
Qed.

(** The net effect of the fix-ups. *)
Definition splice_map (s : SlotId) (par prev next first last : option SlotId) (m : slot_map) : slot_map :=
  let hd := match first with None => next | Some _ => first end in
  upd_opt (Some s) (λ v, MkSlot (cap v) None None None None (revoking v))
    (upd_opt (match first with None => None | Some _ => next end) (slot_set_prev_sib last)
      (upd_opt (match first with None => None | Some _ => last end) (slot_set_next_sib next)
        (upd_opt hd (slot_set_prev_sib prev)
          (upd_opt (match prev with None => par | Some _ => None end) (slot_set_first_child hd)
            (upd_opt prev (slot_set_next_sib hd) m))))).

Lemma splice_run s par prev next first last st :
  (is_Some first → is_Some last) →
  cdt_unlink_splice s par prev next first last st = Ret (tt, with_slots (splice_map s par prev next first last) st).
Proof.
  intros Hl. destruct first as [f|]; [destruct Hl as [l ->]; [done|]|]; destruct par, prev, next; reflexivity.
Qed.

Lemma cdt_unlink_spec kids s st :
  cdt_repr (slots st) kids →
  wp (cdt_unlink s) (λ _ st', ∃ m', st' = with_slots (λ _, m') st ∧ unlinked (slots st) kids s m') st.
Proof.
  intros R. pose proof (cr_kids _ _ R s) as Hc. unfold cdt_unlink. wp_acc.
  eapply wp_mono; [apply (reparent_loop_spec _ _ (kids s)); [exact Hc|by eapply kids_fuel]|].
  cbv beta. intros r st1 (-> & m1 & -> & Hm1). pose proof (chain_head _ _ _ Hc) as Hh.
  assert (∀ A (k : option A), match k with Some y => Some y | None => None end = k) as -> by (by intros A []).
  eapply wp_of_eq.
  { apply splice_run. rewrite Hh. destruct (kids s) as [|c k]; [by intros []|].
    intros _. rewrite last_cons. by destruct (last k). }
  eexists. split; [reflexivity|]. cbn [slots with_slots].
  assert (s ∉ kids s) as Ns by (intros ?%(kids_parent _ _ R); by eapply parent_irrefl).
  rewrite Hh. unfold splice_map.
  assert (∀ A (f : CapSlot → A) x, (∀ w v, f (slot_set_parent w v) = f v) → f (m1 !!! x) = f (slots st !!! x)) as H1.
  { intros A f x Hf. rewrite Hm1. by case_decide. }
  split; cbv zeta.
  - intros x. rewrite !(upd_opt_same cap) by done. by apply H1.
  - intros x. rewrite !(upd_opt_same revoking) by done. by apply H1.
  - cbn [upd_opt]. by rewrite lookup_total_insert_eq.
  - intros x Hx. rewrite (upd_opt_set parent (Some s) _ None), decide_False by (done || congruence).
    rewrite !(upd_opt_same parent) by done. rewrite Hm1. by case_decide.
  - intros x Hx. rewrite (upd_opt_set first_child (Some s) _ None), decide_False by (done || congruence).
    rewrite (upd_opt_same first_child _ (slot_set_prev_sib _)), (upd_opt_same first_child _ (slot_set_next_sib _)),
      (upd_opt_same first_child _ (slot_set_prev_sib _)) by done.
    rewrite upd_first_child. rewrite (upd_opt_same first_child), H1 by done.
    destruct (prev_sib (slots st !!! s)) as [p|]; [by rewrite !decide_False by naive_solver|].
    destruct (decide (par (slots st) s = Some x)).
    + rewrite decide_True by done. by destruct (kids s).
    + by rewrite decide_False by naive_solver.
  - intros x Hx. rewrite (upd_opt_set next_sib (Some s) _ None), decide_False by (done || congruence).
    rewrite (upd_opt_same next_sib _ (slot_set_prev_sib _)) by done. rewrite upd_next_sib.
    rewrite (upd_opt_same next_sib _ (slot_set_prev_sib _)), (upd_opt_same next_sib _ (slot_set_first_child _)) by done.
    rewrite upd_next_sib. rewrite H1 by done. by destruct (kids s).
  - intros x Hx. rewrite (upd_opt_set prev_sib (Some s) _ None), decide_False by (done || congruence).
    rewrite upd_prev_sib.
    rewrite (upd_opt_same prev_sib _ (slot_set_next_sib _)) by done. rewrite upd_prev_sib.
    rewrite (upd_opt_same prev_sib _ (slot_set_first_child _)), (upd_opt_same prev_sib _ (slot_set_next_sib _)), H1 by done.
    destruct (kids s) as [|c k]; simpl.
    + done.
    + destruct (decide (nx (slots st) s = Some x)); [by rewrite !decide_True|]. by rewrite (decide_False (P := _ ∧ _)) by naive_solver.
Qed.

(** ** Inserting a child *)
Definition insert_map (p child : SlotId) (m : slot_map) : slot_map :=
  upd_opt (Some p) (slot_set_first_child (Some child))
    (upd_opt (fc m p) (slot_set_prev_sib (Some child))
      (upd_opt (Some child) (λ c, slot_set_next_sib (fc m p) (slot_set_prev_sib None (slot_set_parent (Some p) c))) m)).

Lemma insert_child_run p child st :
  cdt_insert_child p child st = Ret (tt, with_slots (insert_map p child) st).
Proof.
  unfold cdt_insert_child, insert_map, slot, set_slot, gets, modify, mbind, comp_bind, with_slots. cbn.
  destruct (fc (slots st) p); reflexivity.
Qed.

Section insert.
Context (m : slot_map) (kids : SlotId → list SlotId) (p child : SlotId).
Hypothesis R : cdt_repr m kids.
Hypothesis Hpc : p ≠ child.
Hypothesis Hdet : par m child = None ∧ fc m child = None ∧ nx m child = None ∧ pv m child = None.
Hypothesis Hcap : cap_is_empty (cap (m !!! child)) = false.
Hypothesis Hpar : cap_is_empty (cap (m !!! p)) = false.

Lemma insert_par x : par (insert_map p child m) x = if decide (x = child) then Some p else par m x.
Proof.
  unfold insert_map. rewrite !(upd_opt_same parent _ (slot_set_first_child _)), !(upd_opt_same parent _ (slot_set_prev_sib _)) by done.
  rewrite (upd_opt_set parent _ _ (Some p)) by done. repeat case_decide; congruence.
Qed.
Lemma insert_fc x : fc (insert_map p child m) x = if decide (x = p) then Some child else fc m x.
Proof.
  unfold insert_map. rewrite upd_first_child, !(upd_opt_same first_child) by done. repeat case_decide; congruence.
Qed.
Lemma insert_nx x : nx (insert_map p child m) x = if decide (x = child) then fc m p else nx m x.
Proof.
  unfold insert_map. rewrite !(upd_opt_same next_sib _ (slot_set_first_child _)), !(upd_opt_same next_sib _ (slot_set_prev_sib _)) by done.
  rewrite (upd_opt_set next_sib _ _ (fc m p)) by done. repeat case_decide; congruence.
Qed.
Lemma insert_pv x : pv (insert_map p child m) x =
  if decide (fc m p = Some x) then Some child else if decide (x = child) then None else pv m x.
Proof.
  unfold insert_map. rewrite !(upd_opt_same prev_sib _ (slot_set_first_child _)), upd_prev_sib by done.
  rewrite (upd_opt_set prev_sib _ _ None) by done. repeat case_decide; congruence.
Qed.
Lemma insert_cap x : cap (insert_map p child m !!! x) = cap (m !!! x).
Proof. unfold insert_map. by rewrite !(upd_opt_same cap). Qed.
Lemma insert_revoking x : revoking (insert_map p child m !!! x) = revoking (m !!! x).
Proof. unfold insert_map. by rewrite !(upd_opt_same revoking). Qed.

Lemma insert_child_notin q : child ∉ kids q.
Proof using All. intros H%(kids_parent _ _ R). destruct Hdet. congruence. Qed.

Lemma insert_kids_child : kids child = [].
Proof using All.
  pose proof (cr_kids _ _ R child) as Hc. destruct Hdet as (_ & E & _). rewrite E in Hc. by eapply chain_None.
Qed.

Lemma insert_first_ne : fc m p ≠ Some child.
Proof using All.
  intros E. pose proof (chain_head _ _ _ (cr_kids _ _ R p)) as Hh. apply (insert_child_notin p).
  rewrite E in Hh. destruct (kids p); [done|]. simpl in Hh. injection Hh as ->. apply elem_of_cons. by left.
Qed.

Lemma insert_sym a b : nx (insert_map p child m) a = Some b ↔ pv (insert_map p child m) b = Some a.
Proof using All.
  rewrite insert_nx, insert_pv. destruct Hdet as (D1 & D2 & D3 & D4).
  pose proof (cr_sym _ _ R a b) as S. pose proof (cr_first _ _ R p) as F.
  destruct (decide (a = child)) as [->|Ha].
  - destruct (decide (fc m p = Some b)) as [E|E]; [done|]. split; [done|].
    destruct (decide (b = child)) as [->|]; [done|]. rewrite <-S, D3. done.
  - destruct (decide (fc m p = Some b)) as [E|E].
    + rewrite S, (F b E). split; [done|congruence].
    + destruct (decide (b = child)) as [->|]; [|done]. rewrite S, D4. done.
Qed.

(** Sibling lists that do not meet the child or the children of [p] are unchanged. *)
Lemma insert_group g : sib_group m g → (∀ x, x ∈ g → x ≠ child ∧ (x ∉ kids p)) → sib_group (insert_map p child m) g.
Proof using All.
  intros [Hc Hh] Hg. split.
  - eapply chain_ext; [|exact Hc]. intros x [Hx _]%Hg. by rewrite insert_nx, decide_False.
  - intros h E. assert (h ∈ g) as [Hx Hk]%Hg by (rewrite head_lookup in E; by eapply list_elem_of_lookup_2).
    rewrite insert_pv, !decide_False; [by apply Hh|done|]. intros F. apply Hk.
    rewrite (chain_head _ _ _ (cr_kids _ _ R p)) in F. rewrite head_lookup in F. by eapply list_elem_of_lookup_2.
Qed.

Lemma insert_new_group : sib_group (insert_map p child m) (child :: kids p).
Proof using All.
  split.
  - simpl. split; [done|]. rewrite insert_nx, decide_True by done.
    eapply chain_ext; [|apply (cr_kids _ _ R)]. intros x Hx. rewrite insert_nx, decide_False; [done|].
    intros ->. by eapply insert_child_notin.
  - intros h [= <-]. rewrite insert_pv, decide_False by apply insert_first_ne. by rewrite decide_True.
Qed.

Lemma insert_repr : cdt_repr (insert_map p child m) (<[p := child :: kids p]> kids).
Proof using All.
  pose proof insert_child_notin as Hn. destruct Hdet as (D1 & D2 & D3 & D4).
  assert (∀ q, q ≠ p → sib_group (insert_map p child m) (kids q)) as Hold.
  { intros q Hq. apply insert_group; [apply (kids_group _ _ R)|]. intros x Hx. split.
    - intros ->. by eapply Hn.
    - intros Hxp. apply (kids_parent _ _ R) in Hx, Hxp. congruence. }
  split.
  - apply insert_sym.
  - intros a b Hab. rewrite !insert_par. rewrite insert_nx in Hab. destruct (decide (a = child)) as [->|Ha].
    + destruct (decide (b = child)) as [|]; [done|]. symmetry. apply (cr_parent _ _ R).
      rewrite (chain_head _ _ _ (cr_kids _ _ R p)), head_lookup in Hab. by eapply list_elem_of_lookup_2.
    + destruct (decide (b = child)) as [->|]; [|by apply (cr_par _ _ R)].
      apply (cr_sym _ _ R) in Hab. congruence.
  - intros q. rewrite insert_fc. destruct (decide (q = p)) as [->|Hq].
    + rewrite fn_lookup_insert. apply insert_new_group.
    + rewrite fn_lookup_insert_ne by done. rewrite (chain_head _ _ _ (cr_kids _ _ R q)). by apply Hold.
  - intros q c. rewrite insert_fc. destruct (decide (q = p)) as [->|Hq].
    + intros [= <-]. by apply insert_new_group.
    + rewrite (chain_head _ _ _ (cr_kids _ _ R q)). by apply Hold.
  - intros x q. rewrite insert_par. destruct (decide (x = child)) as [->|Hx]; destruct (decide (q = p)) as [->|Hq];
      rewrite ?fn_lookup_insert, ?fn_lookup_insert_ne by done.
    + split; [done|]. intros _. clear; set_solver.
    + split; [intros ?; by destruct (Hn q)|congruence].
    + rewrite elem_of_cons, (cr_parent _ _ R). naive_solver.
    + apply (cr_parent _ _ R).
  - intros x. destruct (decide (x = child ∨ x ∈ kids p)) as [Hx|Hx].
    + exists (child :: kids p). split; [apply insert_new_group|]. rewrite elem_of_cons. tauto.
    + destruct (cr_group _ _ R x) as (g & Gg & Hxg). exists g. split; [|done]. apply insert_group; [done|].
      intros y Hy. split.
      * intros ->. assert (sib_group m [child]) as Gc by (split; [by split|by intros h [= <-]]).
        rewrite (group_unique _ _ R _ _ child Gg Gc Hy) in Hxg by (clear; set_solver).
        apply list_elem_of_singleton in Hxg. tauto.
      * intros Hyp. rewrite (group_unique _ _ R _ _ y Gg (kids_group _ _ R p) Hy Hyp) in Hxg. tauto.
  - intros x. rewrite insert_cap. intros He. assert (x ≠ child ∧ x ≠ p) as [Hxc Hxp] by (split; congruence).
    rewrite insert_par, insert_fc, insert_nx, insert_pv, !(decide_False (P := x = _)) by done.
    apply (cr_empty _ _ R) in He as Hd. rewrite decide_False; [done|].
    rewrite (chain_head _ _ _ (cr_kids _ _ R p)), head_lookup. intros Hx%list_elem_of_lookup_2%(kids_parent _ _ R).
    destruct Hd. congruence.
  - destruct (cr_rank _ _ R) as [rank Hr]. exists (λ x, if decide (x = child) then S (rank p) else rank x).
    intros x q. rewrite insert_par. destruct (decide (x = child)) as [->|Hx].
    + intros [= <-]. rewrite decide_False by done. lia.
    + intros Hq. rewrite decide_False; [by apply Hr|]. intros ->. apply (cr_parent _ _ R) in Hq.
      rewrite insert_kids_child in Hq. by apply elem_of_nil in Hq.
Qed.
End insert.

(** ** Moving a slot is renaming it *)
Definition swap (a b x : SlotId) : SlotId := if decide (x = a) then b else if decide (x = b) then a else x.

Lemma swap_invol a b x : swap a b (swap a b x) = x.
Proof. unfold swap. repeat case_decide; congruence. Qed.

Lemma chain_fmap {Id : Type} (f : Id → Id) (n n' : Id → option Id) h l :
  (∀ x, n' (f x) = f <$> n x) → chain n h l → chain n' (f <$> h) (f <$> l).
Proof.
  intros Hn. revert h. induction l as [|x l IH]; intros h; simpl; [by intros ->|].
  intros [-> Hc]. split; [done|]. rewrite Hn. by apply IH.
Qed.

Section rename.
Context (m m' : slot_map) (kids : SlotId → list SlotId) (f : SlotId → SlotId).
Hypothesis R : cdt_repr m kids.
Hypothesis Hinv : ∀ x, f (f x) = x.
Hypothesis Hpar : ∀ x, par m' (f x) = f <$> par m x.
Hypothesis Hfc : ∀ x, fc m' (f x) = f <$> fc m x.
Hypothesis Hnx : ∀ x, nx m' (f x) = f <$> nx m x.
Hypothesis Hpv : ∀ x, pv m' (f x) = f <$> pv m x.
Hypothesis Hcap : ∀ x, cap_is_empty (cap (m' !!! f x)) = cap_is_empty (cap (m !!! x)).

Lemma fmap_f_Some (o : option SlotId) y : f <$> o = Some y ↔ o = Some (f y).
Proof using Hinv.
  destruct o as [z|]; simpl; [|done]. split; [intros [= <-]; by rewrite Hinv|intros [= ->]; by rewrite Hinv].
Qed.

Lemma elem_of_fmap_f x (l : list SlotId) : x ∈ f <$> l ↔ f x ∈ l.
Proof using Hinv.
  rewrite list_elem_of_fmap. split; [intros (y & -> & Hy); by rewrite Hinv|intros Hx; exists (f x); by rewrite Hinv].
Qed.

Lemma rename_group g : sib_group m g → sib_group m' (f <$> g).
Proof using Hinv Hnx Hpv.
  intros [Hc Hh]. assert (head (f <$> g) = f <$> head g) as Ehd by (by destruct g). split.
  - rewrite Ehd. eapply chain_fmap; [exact Hnx|exact Hc].
  - intros h. rewrite Ehd, fmap_f_Some. intros E%Hh. rewrite <-(Hinv h), Hpv, E. done.
Qed.

Lemma rename_repr : cdt_repr m' (λ p, f <$> kids (f p)).
Proof using All.
  assert (∀ x, par m' x = f <$> par m (f x)) as Bpar by (intros x; by rewrite <-Hpar, Hinv).
  assert (∀ x, fc m' x = f <$> fc m (f x)) as Bfc by (intros x; by rewrite <-Hfc, Hinv).
  assert (∀ x, nx m' x = f <$> nx m (f x)) as Bnx by (intros x; by rewrite <-Hnx, Hinv).
  assert (∀ x, pv m' x = f <$> pv m (f x)) as Bpv by (intros x; by rewrite <-Hpv, Hinv).
  split.
  - intros a b. rewrite Bnx, Bpv, !fmap_f_Some. apply (cr_sym _ _ R).
  - intros a b. rewrite Bnx, fmap_f_Some, !Bpar. by intros ->%(cr_par _ _ R).
  - intros p. rewrite Bfc. eapply chain_fmap; [exact Hnx|apply (cr_kids _ _ R)].
  - intros p c. rewrite Bfc, fmap_f_Some, Bpv. intros ->%(cr_first _ _ R). done.
  - intros x p. rewrite elem_of_fmap_f, (cr_parent _ _ R), Bpar, fmap_f_Some. done.
  - intros x. destruct (cr_group _ _ R (f x)) as (g & Gg & Hx). exists (f <$> g).
    split; [by apply rename_group|by apply elem_of_fmap_f].
  - intros x. rewrite <-(Hinv x), Hcap, Hpar, Hfc, Hnx, Hpv. by intros (-> & -> & -> & ->)%(cr_empty _ _ R).
  - destruct (cr_rank _ _ R) as [rank Hr]. exists (λ x, rank (f x)). intros x p.
    rewrite Bpar, fmap_f_Some. apply Hr.
Qed.
End rename.

(** The net effect of [slot_move]: [x] becomes [m' !!! swap x]. *)
Record moved (m : slot_map) (src dst : SlotId) (m' : slot_map) : Prop := {
  mv_src : m' !!! src = CapSlot_empty;
  mv_dst : m' !!! dst = m !!! src;
  mv_cap x : x ≠ src → x ≠ dst → cap (m' !!! x) = cap (m !!! x);
  mv_revoking x : x ≠ src → x ≠ dst → revoking (m' !!! x) = revoking (m !!! x);
  mv_par x : x ≠ src → x ≠ dst → par m' x = swap src dst <$> par m x;
  mv_fc x : x ≠ src → x ≠ dst → fc m' x = swap src dst <$> fc m x;
  mv_nx x : x ≠ src → x ≠ dst → nx m' x = swap src dst <$> nx m x;
  mv_pv x : x ≠ src → x ≠ dst → pv m' x = swap src dst <$> pv m x;
}.

Section move.
Context (m : slot_map) (kids : SlotId → list SlotId) (src dst : SlotId).
Hypothesis R : cdt_repr m kids.
Hypothesis Hdst : cap_is_empty (cap (m !!! dst)) = true.
Hypothesis Hne : src ≠ dst.

(** Nothing points at the empty destination or from a slot to itself. *)
Lemma move_links x :
  (par m x ≠ Some dst ∧ fc m x ≠ Some dst ∧ nx m x ≠ Some dst ∧ pv m x ≠ Some dst) ∧
  (par m x ≠ Some x ∧ fc m x ≠ Some x ∧ nx m x ≠ Some x ∧ pv m x ≠ Some x).
Proof using R Hdst.
  apply (cr_empty _ _ R) in Hdst as (D1 & D2 & D3 & D4). split.
  - split_and!.
    + intros E%(cr_parent _ _ R). pose proof (cr_kids _ _ R dst) as Hc. rewrite D2 in Hc.
      apply chain_None in Hc. rewrite Hc in E. by apply elem_of_nil in E.
    + intros E. pose proof (cr_kids _ _ R x) as Hc. rewrite E in Hc. destruct (kids x) as [|y k] eqn:Ek; [done|].
      destruct Hc as [[= <-] _]. assert (dst ∈ kids x) as Hd%(kids_parent _ _ R) by (rewrite Ek; clear; set_solver).
      congruence.
    + intros E%(cr_sym _ _ R). congruence.
    + intros E%(cr_sym _ _ R). congruence.
  - destruct (group_of _ _ R x) as (g1 & g2 & G). pose proof (group_NoDup _ _ G) as HN.
    apply NoDup_app in HN as (_ & HN1 & [HN2 _]%NoDup_cons).
    destruct (group_neighbours _ _ R g1 x g2 G) as [-> ->]. split_and!.
    + by eapply parent_irrefl.
    + intros E. rewrite (chain_head _ _ _ (cr_kids _ _ R x)), head_lookup in E.
      apply list_elem_of_lookup_2, (kids_parent _ _ R) in E. by eapply parent_irrefl.
    + intros E. destruct g2; [done|]. injection E as ->. apply HN2. clear; set_solver.
    + intros E%last_in. apply (HN1 x E). clear; set_solver.
Qed.

Lemma swap_src_links (o : option SlotId) : o ≠ Some src → o ≠ Some dst → swap src dst <$> o = o.
Proof. destruct o as [z|]; simpl; [|done]. intros. unfold swap. by rewrite !decide_False by congruence. Qed.

Lemma swap_other x : x ≠ src → x ≠ dst → swap src dst x = x.
Proof. intros. unfold swap. by rewrite !decide_False. Qed.

Lemma moved_repr m' : moved m src dst m' → cdt_repr m' (λ p, swap src dst <$> kids (swap src dst p)).
Proof using R Hdst Hne.
  intros M. pose proof (move_links src) as (L1 & L2). pose proof (cr_empty _ _ R dst Hdst) as (D1 & D2 & D3 & D4).
  assert (swap src dst src = dst) as Ssrc by (unfold swap; by rewrite decide_True).
  assert (swap src dst dst = src) as Sdst by (unfold swap; by rewrite decide_False, decide_True).
  assert (∀ (g : CapSlot → option SlotId),
    (∀ x, x ≠ src → x ≠ dst → g (m' !!! x) = swap src dst <$> g (m !!! x)) →
    g CapSlot_empty = None → g (m !!! dst) = None → g (m !!! src) ≠ Some src → g (m !!! src) ≠ Some dst →
    ∀ x, g (m' !!! swap src dst x) = swap src dst <$> g (m !!! x)) as Hg.
  { intros g H1 H2 H3 H4 H5 x. destruct (decide (x = src)) as [->|]; [|destruct (decide (x = dst)) as [->|]].
    - rewrite Ssrc, (mv_dst _ _ _ _ M). by rewrite swap_src_links.
    - by rewrite Sdst, (mv_src _ _ _ _ M), H2, H3.
    - by rewrite (swap_other x), H1. }
  apply (rename_repr m); [done|intros; apply swap_invol|..].
  - apply Hg; try done; [apply M|tauto..].
  - apply Hg; try done; [apply M|tauto..].
  - apply Hg; try done; [apply M|tauto..].
  - apply Hg; try done; [apply M|tauto..].
  - intros x. destruct (decide (x = src)) as [->|]; [|destruct (decide (x = dst)) as [->|]].
    + by rewrite Ssrc, (mv_dst _ _ _ _ M).
    + by rewrite Sdst, (mv_src _ _ _ _ M), Hdst.
    + by rewrite (swap_other x), (mv_cap _ _ _ _ M).
Qed.
End move.

(** The map before the reparenting loop of [slot_move]. *)
Definition move_map (m : slot_map) (src dst : SlotId) : slot_map :=
  upd_opt (nx m src) (slot_set_prev_sib (Some dst))
    (upd_opt (pv m src) (slot_set_next_sib (Some dst))
      (upd_opt (match par m src with
                | Some pa => if decide (fc (<[dst := m !!! src]> m) pa = Some src) then Some pa else None
                | None => None end) (slot_set_first_child (Some dst))
        (<[dst := m !!! src]> m))).

Lemma slot_move_run src dst st :
  slot_move src dst st =
  ((fuel ← gets (λ st, size (slots st));
    reparent_loop fuel (Some dst) (fc (slots st) src) None;;
    set_slot src CapSlot_empty) : K unit) (with_slots (λ m, move_map m src dst) st).
Proof.
  unfold slot_move, move_map, slot, set_slot, set_link, when_, gets, modify, mbind, comp_bind, with_slots, bool_decide. cbn.
  destruct (slots st !!! src) as [c p f n v r] eqn:Es. cbn.
  destruct p as [pa|]; [|by destruct v, n].
  match goal with |- context [match ?e with Some _ => if decide_rel _ _ _ then true else false | None => false end] =>
    destruct e as [x|] eqn:Ef end; cbn.
  - destruct (decide_rel eq x src) as [->|Hx]; [rewrite decide_True by exact Ef|rewrite decide_False by (intros E; pose proof (eq_trans (eq_sym Ef) E); congruence)];
      by destruct v, n.
  - rewrite decide_False by (intros E; pose proof (eq_trans (eq_sym Ef) E); congruence). by destruct v, n.
Qed.

Section move_spec.
Context (st : Store) (kids : SlotId → list SlotId) (src dst : SlotId).
Hypothesis R : cdt_repr (slots st) kids.
Hypothesis Hdst : cap_is_empty (cap (slots st !!! dst)) = true.
Hypothesis Hne : src ≠ dst.
#[local] Abbreviation m := (slots st).
#[local] Abbreviation m1 := (move_map (slots st) src dst).

Lemma move_field {A : Type} (f : CapSlot → A) x :
  x ≠ dst → (∀ w v, f (slot_set_prev_sib w v) = f v) → (∀ w v, f (slot_set_next_sib w v) = f v) →
  (∀ w v, f (slot_set_first_child w v) = f v) → f (m1 !!! x) = f (m !!! x).
Proof. intros Hx H1 H2 H3. unfold move_map. rewrite !upd_opt_same by done. by rewrite lookup_total_insert_ne. Qed.

Lemma move_map_nx x : x ≠ src → x ≠ dst → nx m1 x = swap src dst <$> nx m x.
Proof using R Hdst Hne.
  intros Hs Hd. pose proof (move_links _ _ dst R Hdst x) as [L _]. unfold move_map.
  rewrite (upd_opt_same next_sib _ (slot_set_prev_sib _)), upd_next_sib, (upd_opt_same next_sib),
    lookup_total_insert_ne by done.
  destruct (decide (pv m src = Some x)) as [E|E].
  - apply (cr_sym _ _ R) in E. rewrite E. simpl. unfold swap. by rewrite decide_True.
  - rewrite swap_src_links; [done| |tauto]. by rewrite (cr_sym _ _ R).
Qed.

Lemma move_map_pv x : x ≠ src → x ≠ dst → pv m1 x = swap src dst <$> pv m x.
Proof using R Hdst Hne.
  intros Hs Hd. pose proof (move_links _ _ dst R Hdst x) as [L _]. unfold move_map.
  rewrite upd_prev_sib, !(upd_opt_same prev_sib), lookup_total_insert_ne by done.
  destruct (decide (nx m src = Some x)) as [E|E].
  - apply (cr_sym _ _ R) in E. rewrite E. simpl. unfold swap. by rewrite decide_True.
  - rewrite swap_src_links; [done| |tauto]. by rewrite <-(cr_sym _ _ R).
Qed.

Lemma move_map_fc x : x ≠ src → x ≠ dst → fc m1 x = swap src dst <$> fc m x.
Proof using R Hdst Hne.
  intros Hs Hd. pose proof (move_links _ _ dst R Hdst x) as [L _]. unfold move_map.
  rewrite !(upd_opt_same first_child _ (slot_set_prev_sib _)), (upd_opt_same first_child _ (slot_set_next_sib _)),
    upd_first_child by done.
  rewrite (lookup_total_insert_ne _ dst x) by done.
  destruct (decide (fc m x = Some src)) as [E|E].
  - assert (par m src = Some x) as Hp.
    { apply (kids_parent _ _ R). rewrite (chain_head _ _ _ (cr_kids _ _ R x)), head_lookup in E.
      by eapply list_elem_of_lookup_2. }
    rewrite Hp, lookup_total_insert_ne by done. rewrite (decide_True (P := fc m x = Some src)) by done.
    rewrite decide_True, E by done.
    simpl. unfold swap. by rewrite decide_True.
  - rewrite swap_src_links by tauto. rewrite decide_False; [done|].
    destruct (par m src) as [pa|]; [|done]. case_decide as E2; [|done]. intros [= ->].
    rewrite lookup_total_insert_ne in E2 by done. done.
Qed.

Lemma move_map_dst : m1 !!! dst = m !!! src.
Proof using R Hdst Hne.
  pose proof (move_links _ _ dst R Hdst src) as [(L1 & L2 & L3 & L4) _]. unfold move_map.
  assert (∀ o g (n : slot_map), o ≠ Some dst → upd_opt o g n !!! dst = n !!! dst) as Hu.
  { intros [y|] g n Ho; [|done]. cbn. by rewrite lookup_total_insert_ne by congruence. }
  rewrite !Hu; [by rewrite lookup_total_insert_eq|..]; try done.
  destruct (par m src) as [pa|]; [|done]. case_decide; [|done]. congruence.
Qed.

Lemma slot_move_spec :
  wp (slot_move src dst) (λ _ st', ∃ m', st' = with_slots (λ _, m') st ∧ moved m src dst m') st.
Proof using R Hdst Hne.
  eapply wp_run; [apply slot_move_run|].
  pose proof (cr_kids _ _ R src) as Hc.
  assert (∀ x, x ∈ kids src → x ≠ src ∧ x ≠ dst) as Hk.
  { intros x Hx%(kids_parent _ _ R). split; intros ->.
    - by eapply parent_irrefl.
    - apply (cr_empty _ _ R) in Hdst as (E & _). congruence. }
  assert (chain (λ x, nx m1 x) (fc m src) (kids src)) as Hc1.
  { eapply chain_ext; [|exact Hc]. intros x Hx. apply Hk in Hx as Hx'. rewrite move_map_nx by tauto.
    apply swap_src_links; [|apply (move_links _ _ dst R Hdst x)].
    intros E%(cr_par _ _ R). rewrite (kids_parent _ _ R x src Hx) in E.
    symmetry in E. by eapply parent_irrefl. }
  wp_acc. eapply wp_mono; [apply (reparent_loop_spec _ _ (kids src)); [exact Hc1|]|].
  { cbn. apply slots_fuel; [by eapply group_NoDup, kids_group|]. intros x Hx. apply Hk in Hx as Hx'.
    rewrite (move_field cap) by (done || tauto). eapply linked_nonempty; [done|by apply (kids_parent _ _ R)]. }
  cbv beta. intros r st1 (_ & m2 & -> & Hm2). cbn in Hm2. wp_acc.
  exists (<[src := CapSlot_empty]> m2). split; [by destruct st|].
  assert (dst ∉ kids src) as Hdk by (intros ?%Hk; tauto).
  assert (∀ A (f : CapSlot → A) x, (∀ w v, f (slot_set_parent w v) = f v) → x ≠ src →
    f (<[src := CapSlot_empty]> m2 !!! x) = f (m1 !!! x)) as Hf.
  { intros A f x Hf Hx. rewrite lookup_total_insert_ne, Hm2 by done. by case_decide. }
  split.
  - by rewrite lookup_total_insert_eq.
  - rewrite lookup_total_insert_ne, Hm2, decide_False by done. apply move_map_dst.
  - intros x Hs Hd. rewrite (Hf _ cap) by done. by apply (move_field cap).
  - intros x Hs Hd. rewrite (Hf _ revoking) by done. by apply (move_field revoking).
  - intros x Hs Hd. rewrite lookup_total_insert_ne, Hm2 by done.
    pose proof (move_links _ _ dst R Hdst x) as [L _].
    destruct (decide (x ∈ kids src)) as [Hx|Hx].
    + apply (kids_parent _ _ R) in Hx. rewrite Hx. simpl. unfold swap. by rewrite decide_True.
    + rewrite (move_field parent), swap_src_links by (done || tauto || by rewrite <-(cr_parent _ _ R)). done.
  - intros x Hs Hd. rewrite (Hf _ first_child) by done. by apply move_map_fc.
  - intros x Hs Hd. rewrite (Hf _ next_sib) by done. by apply move_map_nx.
  - intros x Hs Hd. rewrite (Hf _ prev_sib) by done. by apply move_map_pv.
Qed.
End move_spec.

(** ** Walking the tree *)
Definition child_of (m : slot_map) (p c : SlotId) : Prop := par m c = Some p.
(** [d] is [a] or derived from it, through any number of derivations. *)
Definition descends (m : slot_map) : SlotId → SlotId → Prop := rtc (child_of m).

Section walk.
Context (st : Store) (kids : SlotId → list SlotId).
Hypothesis R : cdt_repr (slots st) kids.

Lemma first_child_of p c : fc (slots st) p = Some c → child_of (slots st) p c.
Proof using R.
  intros E. apply (kids_parent _ _ R). rewrite (chain_head _ _ _ (cr_kids _ _ R p)), head_lookup in E.
  by eapply list_elem_of_lookup_2.
Qed.

Lemma descend_loop_spec fuel vs leaf rank :
  (∀ x p, par (slots st) x = Some p → (rank p < rank x)%nat) →
  NoDup vs → (∀ v, v ∈ vs → cap_is_empty (cap (slots st !!! v)) = false ∧ (rank v ≤ rank leaf)%nat) →
  (size (slots st) ≤ length vs + fuel)%nat →
  ∃ l, descend_loop fuel leaf st = Ret (l, st) ∧ fc (slots st) l = None ∧ descends (slots st) leaf l.
Proof using R.
  intros Hr. revert vs leaf. induction fuel as [|fuel IH]; intros vs leaf HN Hv Hf; simpl;
    unfold slot, gets, mbind, comp_bind; destruct (fc (slots st) leaf) as [c|] eqn:E.
  - apply first_child_of in E as Hc. apply Hr in Hc as Hlt.
    assert (length (c :: vs) ≤ size (slots st))%nat as Hs; [|simpl in Hs; lia].
    apply slots_fuel.
    + apply NoDup_cons. split; [|done]. intros [_ ?]%Hv. lia.
    + intros x [->|Hx]%elem_of_cons; [by eapply linked_nonempty|by apply Hv].
  - exists leaf. split_and!; [done|done|apply rtc_refl].
  - apply first_child_of in E as Hc. apply Hr in Hc as Hlt.
    destruct (IH (c :: vs) c) as (l & Hl & Hfc & Hd).
    + apply NoDup_cons. split; [|done]. intros [_ ?]%Hv. lia.
    + intros x [->|[? ?]%Hv]%elem_of_cons; [|split; [done|lia]]. split; [by eapply linked_nonempty|done].
    + simpl. lia.
    + exists l. split_and!; [done|done|]. by eapply rtc_l.
  - exists leaf. split_and!; [done|done|apply rtc_refl].
Qed.

(** [descend_to_leaf] reaches a childless descendant and changes nothing. *)
Lemma descend_to_leaf_spec start :
  ∃ l, descend_to_leaf start st = Ret (l, st) ∧ fc (slots st) l = None ∧ descends (slots st) start l.
Proof using R.
  destruct (cr_rank _ _ R) as [rank Hr]. unfold descend_to_leaf, gets, mbind, comp_bind.
  apply (descend_loop_spec _ [] _ rank); [done|constructor|by intros ? ?%elem_of_nil|simpl; lia].
Qed.

Lemma ancestor_loop_spec fuel vs cur rank :
  (∀ x p, par (slots st) x = Some p → (rank p < rank x)%nat) →
  NoDup vs → (∀ v, v ∈ vs → cap_is_empty (cap (slots st !!! v)) = false ∧ (rank cur < rank v)%nat) →
  (size (slots st) < length vs + fuel)%nat →
  ∃ b, ancestor_loop fuel cur st = Ret (b, st) ∧
    (b = true ↔ ∃ a, descends (slots st) a cur ∧ revoking (slots st !!! a) = true).
Proof using R.
  intros Hr. revert vs cur. induction fuel as [|fuel IH]; intros vs cur HN Hv Hf.
  { assert (length vs ≤ size (slots st))%nat; [|lia]. apply slots_fuel; [done|]. intros. by apply Hv. }
  simpl. unfold slot, gets, mbind, comp_bind. destruct (revoking (slots st !!! cur)) eqn:Erev.
  { exists true. split; [done|]. split; [|done]. intros _. exists cur. split; [apply rtc_refl|done]. }
  destruct (par (slots st) cur) as [p|] eqn:E.
  - apply Hr in E as Hlt. destruct (IH (cur :: vs) p) as (b & Hb & Hiff).
    + apply NoDup_cons. split; [|done]. intros [_ ?]%Hv. lia.
    + intros x [->|[? ?]%Hv]%elem_of_cons; [|split; [done|lia]]. split; [by eapply linked_nonempty|done].
    + simpl. lia.
    + exists b. split; [done|]. rewrite Hiff. split.
      * intros (a & Ha & Hrev). exists a. split; [|done]. eapply rtc_r; [exact Ha|done].
      * intros (a & Ha & Hrev). exists a. split; [|done].
        apply rtc_inv_r in Ha as [->|(p' & Ha & Hp)]; [congruence|]. unfold child_of in Hp.
        assert (p' = p) as -> by congruence. done.
  - exists false. split; [done|]. split; [done|]. intros (a & Ha & Hrev).
    apply rtc_inv_r in Ha as [->|(p' & Ha & Hp)]; [congruence|]. unfold child_of in Hp. congruence.
Qed.

(** The derive guard sees a pending revoke anywhere above the source. *)
Lemma ancestor_or_self_revoking_spec start :
  ∃ b, ancestor_or_self_revoking start st = Ret (b, st) ∧
    (b = true ↔ ∃ a, descends (slots st) a start ∧ revoking (slots st !!! a) = true).
Proof using R.
  destruct (cr_rank _ _ R) as [rank Hr]. unfold ancestor_or_self_revoking, gets, mbind, comp_bind.
  apply (ancestor_loop_spec _ [] _ rank); [done|constructor|by intros ? ?%elem_of_nil|simpl; lia].
Qed.
End walk.

(** Unlinking keeps the derivation order among the slots that stay: children of
    the unlinked slot move up to its parent. *)
Lemma unlink_descends m kids s m' a x :
  cdt_repr m kids → unlinked m kids s m' → a ≠ s → x ≠ s → descends m a x → descends m' a x.
Proof.
  intros R U Ha Hx Hd. assert ((x ≠ s → descends m' a x) ∧ (x = s → ∃ z, par m s = Some z ∧ descends m' a z)) as [H _];
    [|by apply H]. clear Hx. revert x Hd. apply rtc_ind_r; [split; [intros; apply rtc_refl|done]|].
  intros y x Hd Hyx [IH1 IH2].
  unfold child_of in Hyx. destruct (decide (y = s)) as [->|Hy].
  - destruct IH2 as (z & Hz & Hdz); [done|]. split.
    + intros Hx. eapply rtc_r; [exact Hdz|]. unfold child_of. rewrite (ul_par _ _ _ _ U) by done.
      by rewrite decide_True by (by apply (cr_parent _ _ R)).
    + intros ->. by apply parent_irrefl with (kids := kids) in Hyx.
  - specialize (IH1 Hy). split; [|intros ->; eauto]. intros Hx. eapply rtc_r; [exact IH1|]. unfold child_of.
    rewrite (ul_par _ _ _ _ U), decide_False; [done| |done]. rewrite (cr_parent _ _ R). congruence.
Qed.

(** The tree only depends on the links, and on which slots are empty. *)
Lemma cdt_repr_links m m' kids :
  (∀ x, par m' x = par m x ∧ fc m' x = fc m x ∧ nx m' x = nx m x ∧ pv m' x = pv m x) →
  (∀ x, cap_is_empty (cap (m' !!! x)) = true → par m x = None ∧ fc m x = None ∧ nx m x = None ∧ pv m x = None) →
  cdt_repr m kids → cdt_repr m' kids.
Proof.
  intros H He [A1 A2 A3 A4 A5 A6 _ [rank A8]].
  assert (∀ x, par m' x = par m x) as Hp by apply H. assert (∀ x, fc m' x = fc m x) as Hc by apply H.
  assert (∀ x, nx m' x = nx m x) as Hn by apply H. assert (∀ x, pv m' x = pv m x) as Hv by apply H.
  split.
  - intros a b. rewrite Hn, Hv. apply A1.
  - intros a b. rewrite Hn, !Hp. apply A2.
  - intros p. rewrite Hc. eapply chain_ext; [|apply A3]. intros y _. apply Hn.
  - intros p x. rewrite Hc, Hv. apply A4.
  - intros x p. rewrite Hp. apply A5.
  - intros x. destruct (A6 x) as (g & [Hg1 Hg2] & Hx). exists g. split; [|done].
    split; [|intros h; rewrite Hv; apply Hg2]. eapply chain_ext; [|exact Hg1]. intros y _. apply Hn.
  - intros x. rewrite Hp, Hc, Hn, Hv. apply He.
  - exists rank. intros x p. rewrite Hp. apply A8.
Qed.

(** One slot overwritten with the links it had. *)
Lemma cdt_repr_relabel m kids s v :
  parent v = par m s → first_child v = fc m s → next_sib v = nx m s → prev_sib v = pv m s →
  (cap_is_empty (cap v) = true → par m s = None ∧ fc m s = None ∧ nx m s = None ∧ pv m s = None) →
  cdt_repr m kids → cdt_repr (<[s := v]> m) kids.
Proof.
  intros E1 E2 E3 E4 Hv R. apply (cdt_repr_links m); [| |done].
  - intros x. destruct (decide (x = s)) as [->|Hne]; lk; done.
  - intros x. destruct (decide (x = s)) as [->|Hne]; lk; [done|]. apply (cr_empty _ _ R).
Qed.
