(* ===== verification/Aspace.v ===== *)
(** Address spaces ([kcore/src/aspace.rs], with the slice views of
    [kernel/src/aspace.rs]): the three-level translation table walk over an L1
    table and a bump-allocated pool of intermediate tables. [map_in] checks the
    whole range before it writes a leaf, [unmap_in] clears leaves and invalidates
    the TLB page by page, [range_mapped_in] validates user buffers. The abstract
    view is the leaf entry of every page of the user range. *)

From S2P Require Import Prelude KStore.

(** ** Constants *)
Definition PAGE : Z := 4096.
Definition PAGE_MASK : Z := PAGE - 1.
Definition USER_VA_BASE : Z := 2147483648.
Definition USER_VA_END : Z := Z.shiftl 1 39.
Definition PERM_W : Z := Z.shiftl 1 0.
Definition PERM_X : Z := Z.shiftl 1 1.
Definition PERM_DEVICE : Z := Z.shiftl 1 2.
Definition DESC_TABLE : Z := 3.
Definition DESC_PAGE : Z := 3.
Definition AF : Z := Z.shiftl 1 10.
Definition UXN : Z := Z.shiftl 1 54.
Definition PXN : Z := Z.shiftl 1 53.
Definition SH_INNER : Z := Z.shiftl 3 8.
Definition SH_NONE : Z := Z.shiftl 0 8.
Definition AP_EL0_RW : Z := Z.shiftl 1 6.
Definition AP_EL0_RO : Z := Z.shiftl 3 6.
Definition ATTR_NORMAL : Z := Z.shiftl 0 2.
Definition ATTR_DEVICE : Z := Z.shiftl 1 2.
Definition ADDR_MASK : Z := 281474976706560.

Inductive MapError : Type := BadVa | AlreadyMapped | NeedMemory.

(** ** The table walk *)

(** The tables a walk works on: [l1], [pool] and [*pool_used], with the log of the
    hardware maintenance issued on the way. *)
Record Pt : Type := MkPt {
  pt_l1 : list Z; pt_pool : list (list Z); pt_used : Z; pt_hw : list HwEvent }.
Abbreviation PtM := (comp Pt).

Definition l1_index (va : Z) : nat := Z.to_nat (Z.land (Z.shiftr va 30) 511).
Definition l2_index (va : Z) : nat := Z.to_nat (Z.land (Z.shiftr va 21) 511).
Definition l3_index (va : Z) : nat := Z.to_nat (Z.land (Z.shiftr va 12) 511).

Definition va_range_ok (va pages : Z) : bool :=
  (va mod PAGE =? 0) && (USER_VA_BASE <=? va) &&
  (saturating_add va (saturating_mul pages PAGE) <=? USER_VA_END).

Definition pte_encode (pa perms : Z) : Z :=
  let ap := if negb (Z.land perms PERM_W =? 0) then AP_EL0_RW else AP_EL0_RO in
  let device := negb (Z.land perms PERM_DEVICE =? 0) in
  let xn := if negb (Z.land perms PERM_X =? 0) && negb device then 0 else UXN in
  let '(attr, sh) := if device then (ATTR_DEVICE, SH_NONE) else (ATTR_NORMAL, SH_INNER) in
  Z.lor (Z.lor (Z.lor (Z.lor (Z.lor (Z.lor (Z.lor (Z.land pa ADDR_MASK) DESC_PAGE) AF) sh) attr) ap) xn) PXN.

Definition pte_output_pa (pte : Z) : Z := Z.land pte ADDR_MASK.

Definition pa_of_table (pool_base : Z) (idx : nat) : PtM Z :=
  off ← umul U64_MAX (Z.of_nat idx) PAGE;
  uadd U64_MAX pool_base off.

Definition pool_index (pool_base : Z) (pool_len : nat) (desc : Z) : option nat :=
  let pa := Z.land desc ADDR_MASK in
  if pa <? pool_base then None
  else
    let off := (pa - pool_base) / PAGE in
    if Z.of_nat pool_len <=? off then None else Some (Z.to_nat off).

(** [pool[t][e]] and its assignment. *)
Definition pool_get (t e : nat) : PtM Z :=
  p ← gets pt_pool; row ← index p t; index row e.
Definition pool_set (t e : nat) (v : Z) : PtM unit :=
  p ← gets pt_pool; row ← index p t; row' ← set_index row e v; p' ← set_index p t row';
  modify (λ s, MkPt (pt_l1 s) p' (pt_used s) (pt_hw s)).
Definition l1_get (i : nat) : PtM Z := l ← gets pt_l1; index l i.
Definition l1_set (i : nat) (v : Z) : PtM unit :=
  l ← gets pt_l1; l' ← set_index l i v; modify (λ s, MkPt l' (pt_pool s) (pt_used s) (pt_hw s)).

Definition alloc_table : PtM (result nat MapError) :=
  pool ← gets pt_pool;
  used ← gets pt_used;
  if Z.of_nat (length pool) <=? used then mret (Err NeedMemory)
  else
    let idx := Z.to_nat used in
    used' ← uadd U64_MAX used 1;
    modify (λ s, MkPt (pt_l1 s) (pt_pool s) used' (pt_hw s));;
    pool' ← set_index pool idx (replicate 512 0);
    modify (λ s, MkPt (pt_l1 s) pool' (pt_used s) (pt_hw s));;
    mret (Ok idx).

(** Allocate a table and link it with [link desc]. *)
Definition alloc_link (pool_base : Z) (link : Z → PtM unit) : PtM (result unit MapError) :=
  r ← alloc_table;
  match r with
  | Err e => mret (Err e)
  | Ok idx =>
      pa ← pa_of_table pool_base idx;
      link (Z.lor pa DESC_TABLE);;
      mret (Ok tt)
  end.

(** The last step: the last-level table behind a present L2 entry. *)
Definition walk_leaf (pool_base va : Z) (l2_idx : nat) : PtM (result (nat * nat) MapError) :=
  l2e ← pool_get l2_idx (l2_index va);
  plen ← gets (λ s, length (pt_pool s));
  match pool_index pool_base plen l2e with
  | None => mret (Err NeedMemory)
  | Some l3_idx => mret (Ok (l3_idx, l3_index va))
  end.

Definition walk_alloc_l2 (pool_base va : Z) (l2_idx : nat) : PtM (result (nat * nat) MapError) :=
  let l2i := l2_index va in
  l2e ← pool_get l2_idx l2i;
  r ← (if negb (Z.land l2e DESC_TABLE =? DESC_TABLE)
       then alloc_link pool_base (pool_set l2_idx l2i) else mret (Ok tt));
  match r with
  | Err e => mret (Err e)
  | Ok _ =>
      walk_leaf pool_base va l2_idx
  end.

Definition walk_alloc (pool_base va : Z) : PtM (result (nat * nat) MapError) :=
  let l1i := l1_index va in
  l1e ← l1_get l1i;
  r ← (if negb (Z.land l1e DESC_TABLE =? DESC_TABLE)
       then alloc_link pool_base (l1_set l1i) else mret (Ok tt));
  match r with
  | Err e => mret (Err e)
  | Ok _ =>
      l1e ← l1_get l1i;
      plen ← gets (λ s, length (pt_pool s));
      match pool_index pool_base plen l1e with
      | None => mret (Err NeedMemory)
      | Some l2_idx => walk_alloc_l2 pool_base va l2_idx
      end
  end.

Definition pt_lookup (pool_base va : Z) : PtM (option (nat * nat)) :=
  l1e ← l1_get (l1_index va);
  if negb (Z.land l1e DESC_TABLE =? DESC_TABLE) then mret None
  else
    plen ← gets (λ s, length (pt_pool s));
    match pool_index pool_base plen l1e with
    | None => mret None
    | Some l2_idx =>
        l2e ← pool_get l2_idx (l2_index va);
        if negb (Z.land l2e DESC_TABLE =? DESC_TABLE) then mret None
        else
          match pool_index pool_base plen l2e with
          | None => mret None
          | Some l3_idx => mret (Some (l3_idx, l3_index va))
          end
    end.

Definition page_at (va i : Z) : PtM Z := off ← umul U64_MAX i PAGE; uadd U64_MAX va off.

(** First pass of [map_in]: tables for every page, none of them mapped. [n] is
    [pages - i]. *)
Fixpoint map_check (pool_base va : Z) (n : nat) (i : Z) : PtM (result unit MapError) :=
  match n with
  | O => mret (Ok tt)
  | S n' =>
      page ← page_at va i;
      res ← walk_alloc pool_base page;
      match res with
      | Err e => mret (Err e)
      | Ok (l3, e) =>
          v ← pool_get l3 e;
          if negb (v =? 0) then mret (Err AlreadyMapped)
          else map_check pool_base va n' (i + 1)
      end
  end.

(** Second pass: write the leaves. *)
Fixpoint map_write (pool_base pa va perms : Z) (n : nat) (k : Z) : PtM (result unit MapError) :=
  match n with
  | O => mret (Ok tt)
  | S n' =>
      page ← page_at va k;
      res ← walk_alloc pool_base page;
      match res with
      | Err e => mret (Err e)
      | Ok (l3, e) =>
          frame ← page_at pa k;
          pool_set l3 e (pte_encode frame perms);;
          map_write pool_base pa va perms n' (k + 1)
      end
  end.

Definition pt_event (e : HwEvent) : PtM unit :=
  modify (λ s, MkPt (pt_l1 s) (pt_pool s) (pt_used s) (e :: pt_hw s)).

Definition map_in (pool_base pa va pages perms : Z) : PtM (result unit MapError) :=
  if negb (va_range_ok va pages) then mret (Err BadVa)
  else
    r ← map_check pool_base va (Z.to_nat pages) 0;
    match r with
    | Err e => mret (Err e)
    | Ok _ =>
        r ← map_write pool_base pa va perms (Z.to_nat pages) 0;
        match r with
        | Err e => mret (Err e)
        | Ok _ => pt_event BarrierAfterMap;; mret (Ok tt)
        end
    end.

Fixpoint unmap_loop (pool_base asid va : Z) (n : nat) (i : Z) : PtM unit :=
  match n with
  | O => mret tt
  | S n' =>
      page ← page_at va i;
      r ← pt_lookup pool_base page;
      (match r with
       | Some (l3, e) => pool_set l3 e 0;; pt_event (TlbInvalidatePage asid page)
       | None => mret tt
       end);;
      unmap_loop pool_base asid va n' (i + 1)
  end.

Definition unmap_in (pool_base asid va pages : Z) : PtM unit :=
  unmap_loop pool_base asid va (Z.to_nat pages) 0;;
  pt_event BarrierAfterUnmap.

Fixpoint range_loop (fuel : nat) (pool_base : Z) (write : bool) (page end_ : Z) : PtM bool :=
  if page <? end_ then
    match fuel with
    | O => nofuel
    | S fuel' =>
        res ← pt_lookup pool_base page;
        match res with
        | None => mret false
        | Some (l3, e) =>
            v ← pool_get l3 e;
            if v =? 0 then mret false
            else if write && negb (Z.land (Z.shiftr v 6) 3 =? 1) then mret false
            else
              page' ← uadd U64_MAX page PAGE;
              range_loop fuel' pool_base write page' end_
        end
    end
  else mret true.

(** [va & !PAGE_MASK] *)
Definition page_floor (va : Z) : Z := Z.land va (Z.lxor U64_MAX PAGE_MASK).

Definition range_mapped_in (pool_base va len : Z) (write : bool) : PtM bool :=
  if len =? 0 then mret ((USER_VA_BASE <=? va) && (va <? USER_VA_END))
  else
    match checked_add va len with
    | None => mret false
    | Some end_ =>
        if (va <? USER_VA_BASE) || (USER_VA_END <? end_) then mret false
        else
          let start := page_floor va in
          range_loop (Z.to_nat ((end_ - start) / PAGE + 1)) pool_base write start end_
    end.

(** ** The kernel's shell: the slices of one address space object *)
Definition pt_view (a : AspaceObj) (h : list HwEvent) : Pt := MkPt (as_l1 a) (as_pool a) (as_pool_used a) h.
Definition pt_store (a : AspaceObj) (pt : Pt) : AspaceObj :=
  MkAspace (as_asid a) (pt_l1 pt) (as_pool_base a) (pt_pool pt) (pt_used pt).

Definition on_tables {A : Type} (asp : ObjId) (f : AspaceObj → PtM A) : K A := λ st,
  let a := aspaces st !!! asp in
  match f a (pt_view a (hw st)) with
  | Ret (r, pt) => Ret (r, with_hw (λ _, pt_hw pt) (with_aspaces (<[asp := pt_store a pt]>) st))
  | Panic => Panic
  | NoFuel => NoFuel
  end.

Definition aspace_map (asp : ObjId) (pa va pages perms : Z) : K (result unit MapError) :=
  on_tables asp (λ a, map_in (as_pool_base a) pa va pages perms).
Definition aspace_unmap (asp : ObjId) (va pages : Z) : K unit :=
  on_tables asp (λ a, unmap_in (as_pool_base a) (as_asid a) va pages).
Definition range_mapped (asp : ObjId) (va len : Z) (write : bool) : K bool :=
  λ st,
    let a := aspaces st !!! asp in
    match range_mapped_in (as_pool_base a) va len write (pt_view a (hw st)) with
    | Ret (r, _) => Ret (r, st)
    | Panic => Panic
    | NoFuel => NoFuel
    end.

(** [aspace::init]: a zeroed L1 with the two shared kernel entries; empty pool use. *)
Definition aspace_init (asid pool_base : Z) (pool_pages : nat) (pool : list (list Z)) (k0 k1 : Z) : AspaceObj :=
  MkAspace asid (k0 :: k1 :: replicate 510 0) pool_base (take pool_pages pool) 0.

(** [grow_pool]: [add] zeroed tables appended. *)
Definition grow_pool (add : nat) (a : AspaceObj) : AspaceObj :=
  MkAspace (as_asid a) (as_l1 a) (as_pool_base a) (as_pool a ++ replicate add (replicate 512 0)) (as_pool_used a).

(** ** Well-formed tables *)
Definition is_table (e : Z) : Prop := Z.land e DESC_TABLE = DESC_TABLE.

Definition geom_ok (base : Z) (len : nat) : Prop :=
  0 ≤ base ∧ base mod PAGE = 0 ∧ base + Z.of_nat len * PAGE ≤ 2 ^ 48.

(** [leaves] are the pool tables used as last-level tables. The two kernel entries
    of the L1 table are not constrained. *)
Record pt_wf (base : Z) (pt : Pt) (leaves : gset nat) : Prop := {
  pw_geom : geom_ok base (length (pt_pool pt));
  pw_l1 : length (pt_l1 pt) = 512%nat;
  pw_row t row : pt_pool pt !! t = Some row → length row = 512%nat;
  pw_used : 0 ≤ pt_used pt ≤ Z.of_nat (length (pt_pool pt));
  pw_leaf t : t ∈ leaves → Z.of_nat t < pt_used pt;
  pw_inner i e : (2 ≤ i)%nat → pt_l1 pt !! i = Some e → is_table e →
    ∃ t, pool_index base (length (pt_pool pt)) e = Some t ∧ Z.of_nat t < pt_used pt ∧ (t ∉ leaves);
  pw_outer t row j e : Z.of_nat t < pt_used pt → t ∉ leaves → pt_pool pt !! t = Some row → row !! j = Some e →
    is_table e →
    ∃ u, pool_index base (length (pt_pool pt)) e = Some u ∧ Z.of_nat u < pt_used pt ∧ u ∈ leaves;
  pw_inj1 i j e f : (2 ≤ i)%nat → (2 ≤ j)%nat → pt_l1 pt !! i = Some e → pt_l1 pt !! j = Some f →
    is_table e → is_table f →
    pool_index base (length (pt_pool pt)) e = pool_index base (length (pt_pool pt)) f → i = j;
  pw_inj2 t u row row' i j e f : Z.of_nat t < pt_used pt → Z.of_nat u < pt_used pt → t ∉ leaves → u ∉ leaves →
    pt_pool pt !! t = Some row → pt_pool pt !! u = Some row' → row !! i = Some e → row' !! j = Some f →
    is_table e → is_table f →
    pool_index base (length (pt_pool pt)) e = pool_index base (length (pt_pool pt)) f → t = u ∧ i = j;
}.

(** The path of a walk: the L2 table, the L3 table. *)
Definition l2_table (base : Z) (pt : Pt) (i1 : nat) : option nat :=
  e ← pt_l1 pt !! i1;
  if decide (Z.land e DESC_TABLE = DESC_TABLE) then pool_index base (length (pt_pool pt)) e else None.
Definition pool_entry (pt : Pt) (t e : nat) : option Z := pt_pool pt !! t ≫= (.!! e).
Definition l3_table (base : Z) (pt : Pt) (i1 i2 : nat) : option nat :=
  t ← l2_table base pt i1;
  e ← pool_entry pt t i2;
  if decide (Z.land e DESC_TABLE = DESC_TABLE) then pool_index base (length (pt_pool pt)) e else None.

(** The leaf entry of the page with the given indices; [0] when there is none. *)
Definition leaf (base : Z) (pt : Pt) (i1 i2 i3 : nat) : Z :=
  default 0 (t ← l3_table base pt i1 i2; pool_entry pt t i3).
Definition mapped (base : Z) (pt : Pt) (va : Z) : Z :=
  leaf base pt (l1_index va) (l2_index va) (l3_index va).

(** ** Index arithmetic *)
Lemma land_511 x : 0 ≤ x → Z.land x 511 = x mod 512.
Proof. intros. change 511 with (Z.ones 9). by rewrite Z.land_ones. Qed.

Lemma index_lt x : (Z.to_nat (Z.land x 511) < 512)%nat.
Proof.
  change 511 with (Z.ones 9). rewrite Z.land_ones by lia. change (2 ^ 9) with 512.
  pose proof (Z.mod_pos_bound x 512). lia.
Qed.
Lemma l1_index_lt va : (l1_index va < 512)%nat.
Proof. apply index_lt. Qed.
Lemma l2_index_lt va : (l2_index va < 512)%nat.
Proof. apply index_lt. Qed.
Lemma l3_index_lt va : (l3_index va < 512)%nat.
Proof. apply index_lt. Qed.

Definition user_va (va : Z) : Prop := USER_VA_BASE ≤ va < USER_VA_END.

Lemma user_l1_index va : user_va va → (2 ≤ l1_index va)%nat.
Proof.
  unfold user_va, USER_VA_BASE, USER_VA_END. rewrite Z.shiftl_mul_pow2 by lia. intros H.
  unfold l1_index. rewrite Z.shiftr_div_pow2, land_511 by (try apply Z.div_pos; lia).
  change (2 ^ 30) with 1073741824. change (1 * 2 ^ 39) with 549755813888 in H.
  rewrite Z.mod_small.
  - assert (2 ≤ va / 1073741824); [|lia]. apply Z.div_le_lower_bound; lia.
  - split; [apply Z.div_pos; lia|]. apply Z.div_lt_upper_bound; lia.
Qed.

(** The three indices determine the page. *)
Lemma index_page va w :
  0 ≤ va < USER_VA_END → 0 ≤ w < USER_VA_END →
  l1_index va = l1_index w → l2_index va = l2_index w → l3_index va = l3_index w →
  va / PAGE = w / PAGE.
Proof.
  unfold USER_VA_END. rewrite Z.shiftl_mul_pow2 by lia. change (1 * 2 ^ 39) with 549755813888.
  intros Hv Hw. unfold l1_index, l2_index, l3_index.
  rewrite !Z.shiftr_div_pow2 by lia.
  assert (∀ x, 0 ≤ x → 0 ≤ x / 2 ^ 30 ∧ 0 ≤ x / 2 ^ 21 ∧ 0 ≤ x / 2 ^ 12) as Hp
    by (intros; split_and!; apply Z.div_pos; lia).
  pose proof (Hp va ltac:(lia)) as (V1 & V2 & V3). pose proof (Hp w ltac:(lia)) as (W1 & W2 & W3).
  rewrite !land_511 by done. intros E1 E2 E3.
  apply (f_equal Z.of_nat) in E1, E2, E3.
  rewrite !Z2Nat.id in E1, E2, E3 by (apply Z.mod_pos_bound; lia).
  assert (∀ x, 0 ≤ x < 549755813888 → x / PAGE =
    ((x / 2 ^ 30) mod 512) * 262144 + ((x / 2 ^ 21) mod 512) * 512 + (x / 2 ^ 12) mod 512) as Hx.
  { intros x Hx. unfold PAGE. change (2 ^ 30) with 1073741824. change (2 ^ 21) with 2097152.
    change (2 ^ 12) with 4096.
    assert (x / 1073741824 = x / 4096 / 262144) as -> by (rewrite Z.div_div by lia; done).
    assert (x / 2097152 = x / 4096 / 512) as -> by (rewrite Z.div_div by lia; done).
    assert (0 ≤ x / 4096 < 134217728) as Hb by (split; [apply Z.div_pos; lia|apply Z.div_lt_upper_bound; lia]).
    set (p := x / 4096) in *. clearbody p. Z.to_euclidean_division_equations. lia. }
  rewrite (Hx va Hv), (Hx w Hw), E1, E2, E3. done.
Qed.

(** ** Descriptor arithmetic *)
Lemma testbit_small x n k : 0 ≤ x < 2 ^ k → k ≤ n → Z.testbit x n = false.
Proof.
  intros Hx Hn. destruct (decide (x = 0)) as [->|]; [apply Z.bits_0|].
  apply Z.bits_above_log2; [lia|]. assert (Z.log2 x < k); [|lia]. apply Z.log2_lt_pow2; lia.
Qed.

Lemma testbit_addr_mask n : 0 ≤ n → Z.testbit ADDR_MASK n = (12 <=? n) && (n <? 48).
Proof.
  intros Hn. change ADDR_MASK with (Z.shiftl (Z.ones 36) 12). rewrite Z.shiftl_spec by done.
  destruct (Z.leb_spec 12 n); [|by rewrite Z.testbit_neg_r by lia]. simpl.
  destruct (Z.ltb_spec n 48); [by apply Z.ones_spec_low; lia|]. apply Z.ones_spec_high. lia.
Qed.

Lemma testbit_aligned x n : x mod PAGE = 0 → 0 ≤ n < 12 → Z.testbit x n = false.
Proof.
  intros Hx Hn. unfold PAGE in Hx. apply Z.div_exact in Hx; [|lia]. rewrite Hx, Z.mul_comm.
  change 4096 with (2 ^ 12) at 2. rewrite Z.mul_pow2_bits by lia. apply Z.testbit_neg_r. lia.
Qed.

Lemma land_addr_mask x low :
  0 ≤ x < 2 ^ 48 → x mod PAGE = 0 → 0 ≤ low < 2 ^ 12 → Z.land (Z.lor x low) ADDR_MASK = x.
Proof.
  intros Hx Ha Hl. apply Z.bits_inj'. intros n Hn. rewrite Z.land_spec, Z.lor_spec, testbit_addr_mask by done.
  destruct (Z.leb_spec 12 n); simpl.
  - rewrite (testbit_small low n 12) by lia. rewrite orb_false_r.
    destruct (Z.ltb_spec n 48); [apply andb_true_r|]. rewrite andb_false_r. symmetry. by eapply testbit_small.
  - rewrite andb_false_r. symmetry. apply testbit_aligned; [done|lia].
Qed.

Lemma land_lor_absorb x b : Z.land (Z.lor x b) b = b.
Proof. apply Z.bits_inj'. intros n _. rewrite Z.land_spec, Z.lor_spec. by destruct (Z.testbit x n), (Z.testbit b n). Qed.

Lemma desc_table base len idx :
  geom_ok base len → (idx < len)%nat →
  let d := Z.lor (base + Z.of_nat idx * PAGE) DESC_TABLE in
  is_table d ∧ pool_index base len d = Some idx.
Proof.
  intros (H0 & Ha & Hg) Hi d. split; [apply land_lor_absorb|]. unfold pool_index, d.
  rewrite land_addr_mask.
  - rewrite (proj2 (Z.ltb_ge _ _)) by (unfold PAGE; lia).
    replace (base + Z.of_nat idx * PAGE - base) with (Z.of_nat idx * PAGE) by lia.
    rewrite Z.div_mul by done. rewrite (proj2 (Z.leb_gt _ _)) by lia. f_equal. lia.
  - unfold PAGE in *. lia.
  - rewrite Z.add_mod, Z.mod_mul, Ha by done. done.
  - unfold DESC_TABLE. lia.
Qed.

Lemma pool_index_lt base len e t : pool_index base len e = Some t → (t < len)%nat.
Proof.
  unfold pool_index. destruct (Z.ltb_spec (Z.land e ADDR_MASK) base); [done|].
  destruct (Z.leb_spec (Z.of_nat len) ((Z.land e ADDR_MASK - base) / PAGE)); [done|].
  intros [= <-]. assert (0 ≤ (Z.land e ADDR_MASK - base) / PAGE) by (apply Z.div_pos; [lia|done]). lia.
Qed.

(** A leaf entry carries exactly the frame's address and is never empty. *)
Lemma pte_low pa perms : ∃ low, pte_encode pa perms = Z.lor (Z.land pa ADDR_MASK) low ∧
  Z.land low ADDR_MASK = 0 ∧ Z.land low 3 = 3 ∧ Z.testbit low 53 = true ∧
  Z.land (Z.shiftr low 6) 3 = (if negb (Z.land perms PERM_W =? 0) then 1 else 3) ∧
  Z.testbit low 54 = negb (negb (Z.land perms PERM_X =? 0) && (Z.land perms PERM_DEVICE =? 0)).
Proof.
  unfold pte_encode. destruct (Z.land perms PERM_W =? 0), (Z.land perms PERM_X =? 0), (Z.land perms PERM_DEVICE =? 0);
    cbn [negb andb]; eexists; (split; [rewrite <-!Z.lor_assoc; reflexivity|vm_compute; done]).
Qed.

Lemma pte_encode_nonzero pa perms : pte_encode pa perms ≠ 0.
Proof.
  destruct (pte_low pa perms) as (low & -> & _ & _ & Hb & _). intros E.
  apply (f_equal (λ z, Z.testbit z 53)) in E. by rewrite Z.lor_spec, Hb, orb_true_r, Z.bits_0 in E.
Qed.

Lemma pte_output_pa_encode pa perms :
  0 ≤ pa < 2 ^ 48 → pa mod PAGE = 0 → pte_output_pa (pte_encode pa perms) = pa.
Proof.
  intros Hp Ha. destruct (pte_low pa perms) as (low & -> & Hl & _). unfold pte_output_pa.
  rewrite Z.land_lor_distr_l, Hl, Z.lor_0_r, <-Z.land_assoc, Z.land_diag.
  rewrite <-(Z.lor_0_r pa) at 1. apply land_addr_mask; [done|done|lia].
Qed.

(** ** Walking well-formed tables *)
Section wf.
Context (base : Z) (pt : Pt) (leaves : gset nat).
Hypothesis W : pt_wf base pt leaves.

Lemma wf_l1 i : (i < 512)%nat → ∃ e, pt_l1 pt !! i = Some e.
Proof using W. intros Hi. apply lookup_lt_is_Some_2. by rewrite (pw_l1 _ _ _ W). Qed.

Lemma wf_row t : Z.of_nat t < pt_used pt → ∃ row, pt_pool pt !! t = Some row ∧ length row = 512%nat.
Proof using W.
  intros Ht. pose proof (pw_used _ _ _ W). destruct (lookup_lt_is_Some_2 (pt_pool pt) t) as [row Hr]; [lia|].
  exists row. split; [done|by eapply pw_row].
Qed.

Lemma wf_entry t j : Z.of_nat t < pt_used pt → (j < 512)%nat →
  ∃ row e, pt_pool pt !! t = Some row ∧ length row = 512%nat ∧ row !! j = Some e.
Proof using W.
  intros Ht Hj. destruct (wf_row t Ht) as (row & Hr & Hl). exists row.
  destruct (lookup_lt_is_Some_2 row j) as [e He]; [lia|]. eauto.
Qed.

Lemma l2_table_inner i1 t : (2 ≤ i1)%nat → l2_table base pt i1 = Some t →
  Z.of_nat t < pt_used pt ∧ (t ∉ leaves).
Proof using W.
  unfold l2_table. intros Hi (e & He & Ht)%bind_Some. case_decide as D; [|done].
  destruct (pw_inner _ _ _ W i1 e Hi He D) as (t' & Ht' & ? & ?). simplify_eq. done.
Qed.

Lemma l3_table_leaf i1 i2 u : (2 ≤ i1)%nat → l3_table base pt i1 i2 = Some u →
  Z.of_nat u < pt_used pt ∧ u ∈ leaves.
Proof using W.
  unfold l3_table. intros Hi (t & Ht & (e & He & Hu)%bind_Some)%bind_Some. case_decide as D; [|done].
  destruct (l2_table_inner i1 t Hi Ht) as [Htu Htl]. unfold pool_entry in He.
  apply bind_Some in He as (row & Hrow & He).
  destruct (pw_outer _ _ _ W t row i2 e Htu Htl Hrow He D) as (u' & Hu' & ? & ?). simplify_eq. done.
Qed.

(** No two pages share a last-level table unless they share its indices. *)
Lemma l3_table_inj i1 i2 j1 j2 u : (2 ≤ i1)%nat → (2 ≤ j1)%nat →
  l3_table base pt i1 i2 = Some u → l3_table base pt j1 j2 = Some u → i1 = j1 ∧ i2 = j2.
Proof using W.
  unfold l3_table. intros Hi Hj (t & Ht & (e & He & Hu)%bind_Some)%bind_Some
    (t' & Ht' & (e' & He' & Hu')%bind_Some)%bind_Some.
  case_decide as D'; [|done]. case_decide as D; [|done].
  destruct (l2_table_inner i1 t Hi Ht) as [Htu Htl]. destruct (l2_table_inner j1 t' Hj Ht') as [Htu' Htl'].
  unfold pool_entry in He, He'. apply bind_Some in He as (row & Hrow & He). apply bind_Some in He' as (row' & Hrow' & He').
  destruct (pw_inj2 _ _ _ W t t' row row' i2 j2 e e' Htu Htu' Htl Htl' Hrow Hrow' He He' D D') as [-> ->]; [congruence|].
  split; [|done]. unfold l2_table in Ht, Ht'. apply bind_Some in Ht as (d & Hd & Ht).
  apply bind_Some in Ht' as (d' & Hd' & Ht'). case_decide; [|done]. case_decide; [|done].
  eapply (pw_inj1 _ _ _ W); [done|done|exact Hd|exact Hd'|done|done|congruence].
Qed.

Lemma pt_lookup_spec va :
  user_va va →
  pt_lookup base va pt =
    Ret ((λ u, (u, l3_index va)) <$> l3_table base pt (l1_index va) (l2_index va), pt).
Proof using W.
  intros Hva. destruct (wf_l1 (l1_index va) (l1_index_lt va)) as [e He].
  unfold pt_lookup, l1_get, l3_table, l2_table, gets, mbind, comp_bind, index, mret, comp_ret. rewrite He. cbn.
  destruct (Z.eqb_spec (Z.land e DESC_TABLE) DESC_TABLE) as [D|D]; cbn; [|by rewrite decide_False].
  rewrite decide_True by done. destruct (pw_inner _ _ _ W _ e (user_l1_index va Hva) He D) as (t & Ht & Htu & Htl).
  rewrite Ht. cbn. destruct (wf_entry t (l2_index va) Htu (l2_index_lt va)) as (row & e2 & Hrow & _ & He2).
  unfold pool_get, pool_entry, gets, mbind, comp_bind, index, mret, comp_ret. rewrite Hrow. cbn. rewrite He2. cbn.
  destruct (Z.eqb_spec (Z.land e2 DESC_TABLE) DESC_TABLE) as [D2|D2]; cbn; [|by rewrite decide_False].
  rewrite decide_True by done. by destruct (pool_index _ _ e2).
Qed.

(** The code's walk agrees with the abstract leaf. *)
Lemma leaf_entry i1 i2 i3 u :
  (2 ≤ i1)%nat → (i3 < 512)%nat → l3_table base pt i1 i2 = Some u →
  ∃ row, pt_pool pt !! u = Some row ∧ row !! i3 = Some (leaf base pt i1 i2 i3).
Proof using W.
  intros Hi Hi3 Hu. destruct (l3_table_leaf i1 i2 u Hi Hu) as [Huu _].
  destruct (wf_entry u i3 Huu Hi3) as (row & e & Hrow & _ & He). exists row. split; [done|].
  unfold leaf, pool_entry. rewrite Hu. cbn. rewrite Hrow. cbn. rewrite He. done.
Qed.
End wf.

(** ** Writing a leaf *)
Definition set_entry (pt : Pt) (u e : nat) (v : Z) : Pt :=
  match pt_pool pt !! u with
  | Some row => MkPt (pt_l1 pt) (<[u := <[e := v]> row]> (pt_pool pt)) (pt_used pt) (pt_hw pt)
  | None => pt
  end.

Section leaf_write.
Context (base : Z) (pt : Pt) (leaves : gset nat) (i1 i2 i3 u : nat) (v : Z).
Hypothesis W : pt_wf base pt leaves.
Hypothesis Hi1 : (2 ≤ i1)%nat.
Hypothesis Hi3 : (i3 < 512)%nat.
Hypothesis Hu : l3_table base pt i1 i2 = Some u.

Lemma pool_set_run : pool_set u i3 v pt = Ret (tt, set_entry pt u i3 v).
Proof using W Hi1 Hi3 Hu.
  destruct (l3_table_leaf _ _ _ W _ _ _ Hi1 Hu) as [Huu _].
  destruct (wf_entry _ _ _ W u i3 Huu Hi3) as (row & e & Hrow & Hlen & He).
  assert (u < length (pt_pool pt))%nat by (by eapply lookup_lt_Some).
  unfold pool_set, set_entry, gets, modify, mbind, comp_bind, index, set_index, mret, comp_ret.
  rewrite Hrow. cbn. rewrite decide_True by lia. rewrite decide_True by lia. done.
Qed.

Lemma set_entry_other t : t ≠ u → pt_pool (set_entry pt u i3 v) !! t = pt_pool pt !! t.
Proof.
  intros Hne. unfold set_entry. destruct (pt_pool pt !! u); [|done]. cbn. by rewrite list_lookup_insert_ne.
Qed.

Lemma set_entry_length : length (pt_pool (set_entry pt u i3 v)) = length (pt_pool pt).
Proof. unfold set_entry. destruct (pt_pool pt !! u); [|done]. cbn. by rewrite length_insert. Qed.

Lemma set_entry_same : pt_l1 (set_entry pt u i3 v) = pt_l1 pt ∧ pt_used (set_entry pt u i3 v) = pt_used pt ∧
  pt_hw (set_entry pt u i3 v) = pt_hw pt.
Proof. unfold set_entry. by destruct (pt_pool pt !! u). Qed.

Lemma set_entry_l3 j1 j2 : (2 ≤ j1)%nat → l3_table base (set_entry pt u i3 v) j1 j2 = l3_table base pt j1 j2.
Proof using W Hi1 Hi3 Hu.
  intros Hj. destruct set_entry_same as (E1 & E2 & E3).
  assert (l2_table base (set_entry pt u i3 v) j1 = l2_table base pt j1) as E.
  { unfold l2_table. by rewrite E1, set_entry_length. }
  unfold l3_table. rewrite E, set_entry_length. destruct (l2_table base pt j1) as [t|] eqn:Et; [|done]. cbn.
  unfold pool_entry. rewrite set_entry_other; [done|]. intros ->.
  destruct (l2_table_inner _ _ _ W j1 u Hj Et) as [_ ?]. by destruct (l3_table_leaf _ _ _ W _ _ _ Hi1 Hu).
Qed.

Lemma leaf_write j1 j2 j3 : (2 ≤ j1)%nat →
  leaf base (set_entry pt u i3 v) j1 j2 j3 =
    if decide (j1 = i1 ∧ j2 = i2 ∧ j3 = i3) then v else leaf base pt j1 j2 j3.
Proof using W Hi1 Hi3 Hu.
  intros Hj. unfold leaf. rewrite set_entry_l3 by done. destruct (decide (_ ∧ _)) as [(-> & -> & ->)|Hne].
  - rewrite Hu. cbn. destruct (leaf_entry _ _ _ W i1 i2 i3 u Hi1 Hi3 Hu) as (row & Hrow & He).
    unfold pool_entry, set_entry. rewrite Hrow. cbn.
    rewrite list_lookup_insert_eq by (by eapply lookup_lt_Some). cbn.
    by rewrite list_lookup_insert_eq by (by eapply lookup_lt_Some).
  - destruct (l3_table base pt j1 j2) as [u'|] eqn:Eu; [|done]. cbn. f_equal. unfold pool_entry.
    destruct (decide (u' = u)) as [->|Huu]; [|by rewrite set_entry_other].
    destruct (l3_table_inj _ _ _ W _ _ _ _ _ Hj Hi1 Eu Hu) as [-> ->]. assert (j3 ≠ i3) by naive_solver.
    unfold set_entry. destruct (pt_pool pt !! u) as [row|] eqn:Er; [|by rewrite Er]. cbn.
    rewrite list_lookup_insert_eq by (by eapply lookup_lt_Some). cbn. by rewrite list_lookup_insert_ne.
Qed.

Lemma set_entry_wf : pt_wf base (set_entry pt u i3 v) leaves.
Proof using W Hi1 Hi3 Hu.
  destruct set_entry_same as (E1 & E2 & E3). pose proof set_entry_length as El.
  destruct (l3_table_leaf _ _ _ W _ _ _ Hi1 Hu) as [Huu Hul].
  assert (∀ t, t ∉ leaves → pt_pool (set_entry pt u i3 v) !! t = pt_pool pt !! t) as Ho
    by (intros t Ht; apply set_entry_other; by intros ->).
  destruct W as [G1 G2 G3 G4 G5 G6 G7 G8 G9]. split; rewrite ?E1, ?E2, ?El; try done.
  - intros t row. unfold set_entry. destruct (pt_pool pt !! u) as [r|] eqn:Er; [|apply G3]. cbn.
    destruct (decide (t = u)) as [->|Ht].
    + rewrite list_lookup_insert_eq by (by eapply lookup_lt_Some). intros [= <-]. rewrite length_insert. by eapply G3.
    + rewrite list_lookup_insert_ne by done. apply G3.
  - intros t row j e Ht Hl. rewrite Ho by done. by apply G7.
  - intros t t' row row' i j e f Ht Ht' Hl Hl'. rewrite !Ho by done. by apply G9.
Qed.
End leaf_write.

(** ** Allocating and linking a table *)
Definition zero_table : list Z := replicate 512 0.

Lemma zero_not_table : ¬ is_table 0.
Proof. done. Qed.

Lemma zero_default j : default 0 (zero_table !! j) = 0.
Proof.
  unfold zero_table. destruct (replicate 512 0 !! j) as [z|] eqn:Ez; [|done].
  by apply lookup_replicate in Ez as [-> _].
Qed.

Section alloc.
Context (base : Z) (pt : Pt) (leaves : gset nat).
Hypothesis W : pt_wf base pt leaves.
Hypothesis Hroom : pt_used pt < Z.of_nat (length (pt_pool pt)).

#[local] Abbreviation idx := (Z.to_nat (pt_used pt)).
#[local] Abbreviation len := (length (pt_pool pt)).
#[local] Abbreviation d := (Z.lor (base + Z.of_nat (Z.to_nat (pt_used pt)) * PAGE) DESC_TABLE).

Definition fresh_pool : list (list Z) := <[Z.to_nat (pt_used pt) := zero_table]> (pt_pool pt).

Lemma fresh_idx : (idx < len)%nat ∧ Z.of_nat idx = pt_used pt ∧ (idx ∉ leaves).
Proof using W Hroom.
  pose proof (pw_used _ _ _ W). split_and!; [lia|lia|]. intros H1%(pw_leaf _ _ _ W). lia.
Qed.

Lemma fresh_desc : is_table d ∧ pool_index base len d = Some idx.
Proof using W Hroom. apply desc_table; [apply (pw_geom _ _ _ W)|apply fresh_idx]. Qed.

Lemma fresh_old t : t ≠ idx → fresh_pool !! t = pt_pool pt !! t.
Proof. intros. unfold fresh_pool. by rewrite list_lookup_insert_ne. Qed.

Lemma fresh_new : fresh_pool !! idx = Some zero_table.
Proof using W Hroom. unfold fresh_pool. apply list_lookup_insert_eq. apply fresh_idx. Qed.

Lemma fresh_row t row : fresh_pool !! t = Some row → length row = 512%nat.
Proof using W Hroom.
  destruct (decide (t = idx)) as [->|Ht]; [rewrite fresh_new; by intros [= <-]|].
  rewrite fresh_old by done. apply (pw_row _ _ _ W).
Qed.

Lemma alloc_link_run (link : Z → PtM unit) :
  alloc_link base link pt =
  (link d ;; mret (Ok tt)) (MkPt (pt_l1 pt) fresh_pool (pt_used pt + 1) (pt_hw pt)).
Proof using W Hroom.
  destruct fresh_idx as (Hi & He & _). pose proof (pw_geom _ _ _ W) as (G1 & G2 & G3).
  assert (0 ≤ Z.of_nat idx * PAGE ≤ U64_MAX ∧ base + Z.of_nat idx * PAGE ≤ U64_MAX ∧ pt_used pt + 1 ≤ U64_MAX)
    as (B1 & B2 & B3) by (unfold PAGE, U64_MAX in *; lia).
  unfold alloc_link, alloc_table, gets, modify, pa_of_table, umul, uadd, mbind, comp_bind, mret, comp_ret, set_index.
  rewrite (proj2 (Z.leb_gt _ _)) by lia. cbn. rewrite (decide_True (P := pt_used pt + 1 ≤ U64_MAX)) by lia. cbn.
  rewrite (decide_True (P := (idx < len)%nat)) by done. cbn.
  rewrite (decide_True (P := Z.of_nat idx * PAGE ≤ U64_MAX)) by lia. cbn.
  rewrite (decide_True (P := base + Z.of_nat idx * PAGE ≤ U64_MAX)) by lia. done.
Qed.

(** A fresh inner table hung from the L1 entry [i1]. *)
Definition link_l1 (i1 : nat) : Pt :=
  MkPt (<[i1 := Z.lor (base + Z.of_nat (Z.to_nat (pt_used pt)) * PAGE) DESC_TABLE]> (pt_l1 pt))
    fresh_pool (pt_used pt + 1) (pt_hw pt).

Section l1.
Context (i1 : nat) (e : Z).
Hypothesis Hi1 : (2 ≤ i1 < 512)%nat.
Hypothesis He : pt_l1 pt !! i1 = Some e.
Hypothesis Hnot : ¬ is_table e.

Lemma link_l1_entry j : pt_l1 (link_l1 i1) !! j = if decide (j = i1) then Some d else pt_l1 pt !! j.
Proof using W Hroom Hi1.
  cbn. destruct (decide (j = i1)) as [->|Hj]; [|by rewrite list_lookup_insert_ne].
  apply list_lookup_insert_eq. rewrite (pw_l1 _ _ _ W). lia.
Qed.

Lemma link_l1_wf : pt_wf base (link_l1 i1) leaves.
Proof using W Hroom Hi1 He Hnot.
  destruct fresh_idx as (Hi & Hie & Hil). destruct fresh_desc as [Hdt Hdi].
  assert (length (pt_pool (link_l1 i1)) = len) as El by (cbn; unfold fresh_pool; by rewrite length_insert).
  pose proof (pw_used _ _ _ W) as Hused. assert (pt_used (link_l1 i1) = pt_used pt + 1) as Eu by done.
  assert (∀ t, Z.of_nat t < pt_used pt → t ≠ idx) as Hlt by (intros; lia).
  assert (∀ j f, (2 ≤ j)%nat → pt_l1 pt !! j = Some f → is_table f → pool_index base len f ≠ Some idx) as Hold.
  { intros j f Hj Hf Ht Heq. destruct (pw_inner _ _ _ W j f Hj Hf Ht) as (t & Ht' & ? & _). simplify_eq. lia. }
  assert (∀ t row j f, t ∉ leaves → Z.of_nat t < pt_used pt + 1 → fresh_pool !! t = Some row → row !! j = Some f →
    is_table f → Z.of_nat t < pt_used pt ∧ pt_pool pt !! t = Some row) as Hrow.
  { intros t row j f Htl Ht Hr Hf Hf'. destruct (decide (t = idx)) as [->|Hne].
    - rewrite fresh_new in Hr. injection Hr as <-. unfold zero_table in Hf.
      apply lookup_replicate in Hf as [-> _]. done.
    - rewrite fresh_old in Hr by done. split; [lia|done]. }
  split; rewrite ?El, ?Eu.
  - apply (pw_geom _ _ _ W).
  - cbn. rewrite length_insert. apply (pw_l1 _ _ _ W).
  - apply fresh_row.
  - lia.
  - intros t Ht%(pw_leaf _ _ _ W). lia.
  - intros j f Hj. rewrite link_l1_entry. destruct (decide (j = i1)) as [->|Hne].
    + intros [= <-] _. exists idx. split_and!; [done|lia|done].
    + intros Hf Ht. destruct (pw_inner _ _ _ W j f Hj Hf Ht) as (t & ? & ? & ?). exists t. split_and!; [done|lia|done].
  - intros t row j f Ht Hl Hr Hf Hf'. destruct (Hrow t row j f Hl Ht Hr Hf Hf') as [Ht' Hr'].
    destruct (pw_outer _ _ _ W t row j f Ht' Hl Hr' Hf Hf') as (u & ? & ? & ?). exists u. split_and!; [done|lia|done].
  - intros j k f g Hj Hk. rewrite !link_l1_entry. intros Hf Hg Tf Tg Heq.
    destruct (decide (j = i1)) as [->|Hj1]; destruct (decide (k = i1)) as [->|Hk1]; try done; simplify_eq.
    + exfalso. rewrite Hdi in Heq. symmetry in Heq. by eapply (Hold k g).
    + exfalso. rewrite Hdi in Heq. by eapply (Hold j f).
    + by eapply (pw_inj1 _ _ _ W).
  - intros t u row row' i j f g Ht Hu Hl Hl' Hr Hr' Hf Hg Tf Tg Heq.
    destruct (Hrow t row i f Hl Ht Hr Hf Tf) as [Ht' Hr1].
    destruct (Hrow u row' j g Hl' Hu Hr' Hg Tg) as [Hu' Hr2]. by eapply (pw_inj2 _ _ _ W).
Qed.

Lemma link_l1_l3 j1 j2 : (2 ≤ j1)%nat → l3_table base (link_l1 i1) j1 j2 = l3_table base pt j1 j2.
Proof using W Hroom Hi1 He Hnot.
  intros Hj. destruct fresh_desc as [Hdt Hdi].
  assert (length (pt_pool (link_l1 i1)) = len) as El by (cbn; unfold fresh_pool; by rewrite length_insert).
  destruct (decide (j1 = i1)) as [->|Hne].
  - unfold l3_table, l2_table. rewrite link_l1_entry, decide_True by done. cbn [mbind option_bind].
    rewrite (decide_True (P := Z.land d DESC_TABLE = DESC_TABLE)) by done. rewrite El, Hdi. cbn [mbind option_bind].
    rewrite He. cbn [mbind option_bind]. rewrite (decide_False (P := Z.land e _ = _)) by done. cbn [mbind option_bind].
    unfold pool_entry. cbn [pt_pool link_l1]. rewrite fresh_new. cbn [mbind option_bind]. unfold zero_table.
    destruct (replicate 512 0 !! j2) as [x|] eqn:Ex; cbn [mbind option_bind]; [|done].
    apply lookup_replicate in Ex as [-> _]. by rewrite decide_False.
  - assert (l2_table base (link_l1 i1) j1 = l2_table base pt j1) as E.
    { unfold l2_table. by rewrite link_l1_entry, decide_False, El. }
    unfold l3_table. rewrite E, El. destruct (l2_table base pt j1) as [t|] eqn:Et; [|done]. cbn.
    unfold pool_entry. cbn. rewrite fresh_old; [done|].
    destruct (l2_table_inner _ _ _ W j1 t Hj Et). destruct fresh_idx. lia.
Qed.

Lemma link_l1_leaf j1 j2 j3 : (2 ≤ j1)%nat → leaf base (link_l1 i1) j1 j2 j3 = leaf base pt j1 j2 j3.
Proof using W Hroom Hi1 He Hnot.
  intros Hj. unfold leaf. rewrite link_l1_l3 by done. destruct (l3_table base pt j1 j2) as [u|] eqn:Eu; [|done]. cbn.
  unfold pool_entry. cbn. rewrite fresh_old; [done|].
  destruct (l3_table_leaf _ _ _ W j1 j2 u Hj Eu). destruct fresh_idx. lia.
Qed.

Lemma link_l1_l2 : l2_table base (link_l1 i1) i1 = Some idx.
Proof using W Hroom Hi1.
  destruct fresh_desc as [Hdt Hdi]. unfold l2_table. rewrite link_l1_entry, decide_True by done. cbn [mbind option_bind].
  rewrite decide_True by done. cbn. unfold fresh_pool. by rewrite length_insert.
Qed.
End l1.

(** A fresh last-level table hung from entry [i2] of the inner table [t]. *)
Definition link_l2 (t i2 : nat) : Pt :=
  set_entry (MkPt (pt_l1 pt) fresh_pool (pt_used pt + 1) (pt_hw pt)) t i2
    (Z.lor (base + Z.of_nat (Z.to_nat (pt_used pt)) * PAGE) DESC_TABLE).

Section l2.
Context (t i2 : nat) (e : Z).
Hypothesis Ht : Z.of_nat t < pt_used pt.
Hypothesis Htl : t ∉ leaves.
Hypothesis Hi2 : (i2 < 512)%nat.
Hypothesis He : pool_entry pt t i2 = Some e.
Hypothesis Hnot : ¬ is_table e.

Lemma link_l2_same : pt_l1 (link_l2 t i2) = pt_l1 pt ∧ pt_used (link_l2 t i2) = pt_used pt + 1 ∧
  pt_hw (link_l2 t i2) = pt_hw pt ∧ length (pt_pool (link_l2 t i2)) = len.
Proof.
  unfold link_l2. rewrite set_entry_length. destruct (set_entry_same (MkPt (pt_l1 pt) fresh_pool (pt_used pt + 1) (pt_hw pt)) i2 t d) as (-> & -> & ->).
  cbn. unfold fresh_pool. by rewrite length_insert.
Qed.

Lemma link_l2_entry x j : pool_entry (link_l2 t i2) x j =
  if decide (x = idx) then zero_table !! j
  else if decide (x = t ∧ j = i2) then Some d else pool_entry pt x j.
Proof using W Hroom Ht Hi2.
  destruct fresh_idx as (Hi & Hie & Hil). assert (t ≠ idx) as Hti by lia.
  destruct (wf_entry _ _ _ W t i2 Ht Hi2) as (row & f & Hrow & Hlen & Hf).
  assert (fresh_pool !! t = Some row) as Hfr by (by rewrite fresh_old).
  unfold link_l2, set_entry, pool_entry. cbn [pt_pool]. rewrite Hfr. cbn [pt_pool].
  destruct (decide (x = idx)) as [->|Hx].
  - by rewrite list_lookup_insert_ne, fresh_new by done.
  - destruct (decide (x = t)) as [->|Hxt].
    + rewrite list_lookup_insert_eq by (by eapply lookup_lt_Some). cbn. rewrite Hrow. cbn.
      destruct (decide (j = i2)) as [->|Hj].
      * rewrite decide_True by done. apply list_lookup_insert_eq. lia.
      * rewrite decide_False by naive_solver. by rewrite list_lookup_insert_ne.
    + rewrite list_lookup_insert_ne, fresh_old by done. by rewrite decide_False by naive_solver.
Qed.

Lemma link_l2_inner x row j f : x ∉ leaves ∪ {[idx]} → Z.of_nat x < pt_used pt + 1 →
  pt_pool (link_l2 t i2) !! x = Some row → row !! j = Some f →
  Z.of_nat x < pt_used pt ∧ (x ∉ leaves) ∧
  ((x = t ∧ j = i2 ∧ f = d) ∨ (¬ (x = t ∧ j = i2) ∧ pool_entry pt x j = Some f)).
Proof using W Hroom Ht Hi2.
  intros Hx Hlt Hrow Hf. assert (x ≠ idx ∧ (x ∉ leaves)) as [Hxi Hxl] by (clear -Hx; set_solver).
  pose proof (link_l2_entry x j) as HE. unfold pool_entry at 1 in HE. rewrite Hrow in HE. cbn in HE. rewrite Hf in HE.
  rewrite decide_False in HE by done. split_and!; [lia|done|].
  destruct (decide (x = t ∧ j = i2)) as [[-> ->]|Hne]; [left; by injection HE|right; split; [done|congruence]].
Qed.

Lemma link_l2_wf : pt_wf base (link_l2 t i2) (leaves ∪ {[idx]}).
Proof using W Hroom Ht Htl Hi2 He Hnot.
  destruct fresh_idx as (Hi & Hie & Hil). destruct fresh_desc as [Hdt Hdi].
  destruct link_l2_same as (E1 & E2 & E3 & E4). pose proof (pw_used _ _ _ W) as Hused.
  assert (∀ x j f, Z.of_nat x < pt_used pt → x ∉ leaves → pool_entry pt x j = Some f → is_table f →
    ∃ u, pool_index base len f = Some u ∧ Z.of_nat u < pt_used pt ∧ u ∈ leaves) as Hout.
  { intros x j f Hx Hl (row & Hr & Hf)%bind_Some T. by eapply (pw_outer _ _ _ W). }
  split; rewrite ?E1, ?E2, ?E4.
  - apply (pw_geom _ _ _ W).
  - apply (pw_l1 _ _ _ W).
  - intros x row. unfold link_l2, set_entry. cbn [pt_pool]. destruct (fresh_pool !! t) as [r|] eqn:Er; [|by apply fresh_row].
    cbn [pt_pool]. destruct (decide (x = t)) as [->|Hne].
    + rewrite list_lookup_insert_eq by (by eapply lookup_lt_Some). intros [= <-]. rewrite length_insert. by eapply fresh_row.
    + rewrite list_lookup_insert_ne by done. by apply fresh_row.
  - lia.
  - intros x. rewrite elem_of_union, elem_of_singleton. intros [Hx%(pw_leaf _ _ _ W)| ->]; lia.
  - intros j f Hj Hf T. destruct (pw_inner _ _ _ W j f Hj Hf T) as (x & ? & ? & ?). exists x.
    split_and!; [done|lia|]. rewrite elem_of_union, elem_of_singleton. intros [?|?]; [done|]. lia.
  - intros x row j f Hx Hl Hr Hf T.
    destruct (link_l2_inner x row j f Hl Hx Hr Hf) as (Hx' & Hl' & [(-> & -> & ->)|[_ Hold]]).
    + exists idx. split_and!; [done|lia|clear; set_solver].
    + destruct (Hout x j f Hx' Hl' Hold T) as (u & ? & ? & ?). exists u. split_and!; [done|lia|by apply elem_of_union_l].
  - apply (pw_inj1 _ _ _ W).
  - intros x y row row' i j f g Hx Hy Hl Hl' Hr Hr' Hf Hg Tf Tg Heq.
    destruct (link_l2_inner x row i f Hl Hx Hr Hf) as (Hx' & Hxl & HX).
    destruct (link_l2_inner y row' j g Hl' Hy Hr' Hg) as (Hy' & Hyl & HY).
    destruct HX as [(-> & -> & ->)|[HX Hfo]]; destruct HY as [(-> & -> & ->)|[HY Hgo]]; try done.
    + destruct (Hout y j g Hy' Hyl Hgo Tg) as (u & Hu & ? & _). exfalso. rewrite Hdi, Hu in Heq. simplify_eq. lia.
    + destruct (Hout x i f Hx' Hxl Hfo Tf) as (u & Hu & ? & _). exfalso. rewrite Hdi, Hu in Heq. simplify_eq. lia.
    + apply bind_Some in Hfo as (r1 & Hr1 & Hf1). apply bind_Some in Hgo as (r2 & Hr2 & Hf2).
      by eapply (pw_inj2 _ _ _ W x y r1 r2 i j f g).
Qed.

Lemma link_l2_table j1 : l2_table base (link_l2 t i2) j1 = l2_table base pt j1.
Proof. destruct link_l2_same as (E1 & _ & _ & E4). unfold l2_table. by rewrite E1, E4. Qed.

(** Existing last-level tables stay; the new one appears under [t], [i2]. *)
Lemma link_l2_l3 j1 j2 : (2 ≤ j1)%nat → l3_table base (link_l2 t i2) j1 j2 =
  if decide (l2_table base pt j1 = Some t ∧ j2 = i2) then Some idx else l3_table base pt j1 j2.
Proof using W Hroom Ht Htl Hi2.
  intros Hj. destruct fresh_idx as (Hi & Hie & Hil). destruct fresh_desc as [Hdt Hdi].
  destruct link_l2_same as (_ & _ & _ & E4). unfold l3_table. rewrite link_l2_table, E4.
  destruct (l2_table base pt j1) as [x|] eqn:Ex; [|by rewrite decide_False by naive_solver]. cbn [mbind option_bind].
  destruct (l2_table_inner _ _ _ W j1 x Hj Ex) as [Hxu Hxl].
  rewrite link_l2_entry, (decide_False (P := x = idx)) by lia.
  destruct (decide (x = t ∧ j2 = i2)) as [[-> ->]|Hne].
  - cbn [mbind option_bind]. rewrite (decide_True (P := Z.land d _ = _)) by done.
    by rewrite decide_True.
  - by rewrite (decide_False (P := Some x = Some t ∧ _)) by naive_solver.
Qed.

Lemma link_l2_leaf j1 j2 j3 : (2 ≤ j1)%nat → leaf base (link_l2 t i2) j1 j2 j3 = leaf base pt j1 j2 j3.
Proof using W Hroom Ht Htl Hi2 He Hnot.
  intros Hj. destruct fresh_idx as (Hi & Hie & Hil). unfold leaf. rewrite link_l2_l3 by done.
  destruct (decide (l2_table base pt j1 = Some t ∧ j2 = i2)) as [[Hj1 ->]|Hne].
  - cbn [mbind option_bind]. rewrite link_l2_entry, decide_True by done.
    unfold l3_table. rewrite Hj1. cbn [mbind option_bind]. rewrite He. cbn [mbind option_bind].
    rewrite decide_False by done. cbn [mbind option_bind]. apply zero_default.
  - destruct (l3_table base pt j1 j2) as [u|] eqn:Eu; [|done]. cbn [mbind option_bind].
    destruct (l3_table_leaf _ _ _ W j1 j2 u Hj Eu) as [Huu Hul].
    rewrite link_l2_entry, (decide_False (P := u = idx)) by lia.
    rewrite decide_False; [done|]. intros [-> _]. done.
Qed.
End l2.
End alloc.

(** ** Walking with allocation *)

(** [pt'] has the tables of [pt] and possibly more; every page reads the same. *)
Record extends (base : Z) (pt pt' : Pt) : Prop := {
  ex_wf : ∃ leaves, pt_wf base pt' leaves;
  ex_leaf j1 j2 j3 : (2 ≤ j1)%nat → leaf base pt' j1 j2 j3 = leaf base pt j1 j2 j3;
  ex_l3 j1 j2 u : (2 ≤ j1)%nat → l3_table base pt j1 j2 = Some u → l3_table base pt' j1 j2 = Some u;
  ex_hw : pt_hw pt' = pt_hw pt;
  ex_used : pt_used pt ≤ pt_used pt';
  ex_len : length (pt_pool pt') = length (pt_pool pt);
  ex_kernel j : (j < 2)%nat → pt_l1 pt' !! j = pt_l1 pt !! j;
}.

Lemma extends_refl base pt leaves : pt_wf base pt leaves → extends base pt pt.
Proof. intros W. split; eauto; lia. Qed.

Lemma extends_trans base pt1 pt2 pt3 : extends base pt1 pt2 → extends base pt2 pt3 → extends base pt1 pt3.
Proof.
  intros [W1 L1 T1 H1 U1 N1 K1] [W2 L2 T2 H2 U2 N2 K2]. split; try congruence; try lia; try done.
  - intros. by rewrite L2, L1.
  - intros. apply T2; [done|by apply T1].
  - intros. by rewrite K2, K1.
Qed.

Lemma wp_pool_get pt t j row e Q :
  pt_pool pt !! t = Some row → row !! j = Some e → Q e pt → wp (pool_get t j) Q pt.
Proof. intros Hr He HQ. unfold pool_get. wp_acc. eapply wp_index; [exact Hr|]. by eapply wp_index. Qed.

Lemma wp_l1_get pt i e Q : pt_l1 pt !! i = Some e → Q e pt → wp (l1_get i) Q pt.
Proof. intros He HQ. unfold l1_get. wp_acc. by eapply wp_index. Qed.

Section walk.
Context (base : Z) (va : Z).
Hypothesis Hva : user_va va.

(** A full pool refuses before anything is changed. *)
Lemma alloc_link_full pt leaves link :
  pt_wf base pt leaves → ¬ (pt_used pt < Z.of_nat (length (pt_pool pt))) → alloc_link base link pt = Ret (Err NeedMemory, pt).
Proof.
  intros W Hfull. unfold alloc_link, alloc_table, gets, mbind, comp_bind, mret, comp_ret.
  by rewrite (proj2 (Z.leb_le _ _)) by lia.
Qed.

(** Once the L2 entry is a table descriptor, its target is the answer. *)
Lemma l2_resolved pt pt1 t r1 e1 u :
  pt_pool pt1 !! t = Some r1 → r1 !! l2_index va = Some e1 →
  pool_index base (length (pt_pool pt1)) e1 = Some u → extends base pt pt1 →
  l3_table base pt1 (l1_index va) (l2_index va) = Some u →
  wp (walk_leaf base va t) (λ r pt', extends base pt pt' ∧
    match r with
    | Ok (l3, e) => e = l3_index va ∧ l3_table base pt' (l1_index va) (l2_index va) = Some l3
    | Err er => er = NeedMemory
    end) pt1.
Proof.
  intros Hr1 He1 Hu Hex Hl3. unfold walk_leaf. rewrite wp_bind. eapply wp_pool_get; [exact Hr1|exact He1|].
  wp_acc. rewrite Hu. wp_acc. done.
Qed.

Lemma walk_alloc_l2_spec pt leaves t :
  pt_wf base pt leaves → l2_table base pt (l1_index va) = Some t →
  wp (walk_alloc_l2 base va t) (λ r pt', extends base pt pt' ∧
    match r with
    | Ok (l3, e) => e = l3_index va ∧ l3_table base pt' (l1_index va) (l2_index va) = Some l3
    | Err er => er = NeedMemory
    end) pt.
Proof using Hva.
  intros W Ht. pose proof (user_l1_index va Hva) as Hi. pose proof (l2_index_lt va) as Hi2.
  destruct (l2_table_inner _ _ _ W _ _ Hi Ht) as [Htu Htl].
  destruct (wf_entry _ _ _ W t (l2_index va) Htu Hi2) as (row & e & Hrow & Hlen & He).
  assert (pool_entry pt t (l2_index va) = Some e) as Hpe by (unfold pool_entry; by rewrite Hrow).
  unfold walk_alloc_l2. rewrite wp_bind. eapply wp_pool_get; [exact Hrow|exact He|]. rewrite wp_bind.
  destruct (Z.eqb_spec (Z.land e DESC_TABLE) DESC_TABLE) as [D|D]; cbn [negb]; wp_acc.
  - destruct (pw_outer _ _ _ W t row _ e Htu Htl Hrow He D) as (u & Hu & _ & _).
    eapply l2_resolved; [done|done|done|by eapply extends_refl|].
    unfold l3_table. rewrite Ht. cbn [mbind option_bind]. rewrite Hpe. cbn [mbind option_bind]. by rewrite decide_True.
  - destruct (decide (pt_used pt < Z.of_nat (length (pt_pool pt)))) as [Hroom|Hfull].
    2:{ eapply wp_of_eq; [by eapply alloc_link_full|]. wp_acc. split; [by eapply extends_refl|done]. }
    eapply wp_run; [by eapply alloc_link_run|]. wp_acc.
    destruct (fresh_idx _ _ _ W Hroom) as (Hidx & Hie & Hil). destruct (fresh_desc _ _ _ W Hroom) as [Hdt Hdi].
    assert (t ≠ Z.to_nat (pt_used pt)) as Hti by lia.
    assert (fresh_pool pt !! t = Some row) as Hfr by (by rewrite fresh_old).
    eapply (wp_of_eq _ _ _ tt (link_l2 base pt t (l2_index va))).
    { unfold pool_set, link_l2, set_entry, gets, modify, mbind, comp_bind, index, set_index, mret, comp_ret.
      cbn [pt_pool]. rewrite Hfr. cbn. rewrite decide_True by lia. cbn. rewrite decide_True by (by eapply lookup_lt_Some). done. }
    wp_acc. pose proof (link_l2_entry _ _ _ W Hroom t (l2_index va) Htu Hi2 t (l2_index va)) as HE.
    rewrite (decide_False (P := t = _)), (decide_True (P := _ ∧ _)) in HE by done.
    pose proof HE as HE2. unfold pool_entry in HE2. apply bind_Some in HE2 as (r1 & Hr1 & He1).
    destruct (link_l2_same base pt t (l2_index va)) as (E1 & E2 & E3 & E4).
    eapply l2_resolved; [exact Hr1|exact He1|by rewrite E4| |].
    + split; try done.
      * eexists. by apply (link_l2_wf _ _ _ W Hroom _ _ e).
      * intros. by apply (link_l2_leaf _ _ _ W Hroom _ _ e).
      * intros j1 j2 u Hj Hu. rewrite (link_l2_l3 _ _ _ W Hroom) by done. rewrite decide_False; [done|].
        intros [Hj1 ->]. unfold l3_table in Hu. rewrite Hj1 in Hu. cbn [mbind option_bind] in Hu.
        rewrite Hpe in Hu. cbn [mbind option_bind] in Hu. by rewrite decide_False in Hu.
      * rewrite E2. lia.
      * intros. by rewrite E1.
    + rewrite (link_l2_l3 _ _ _ W Hroom) by done. by rewrite decide_True.
Qed.

(** [walk_alloc] reaches a last-level table, allocating the tables on the way, or
    reports an exhausted pool; no page reads differently afterwards. *)
Lemma walk_alloc_spec pt leaves :
  pt_wf base pt leaves →
  wp (walk_alloc base va) (λ r pt', extends base pt pt' ∧
    match r with
    | Ok (l3, e) => e = l3_index va ∧ l3_table base pt' (l1_index va) (l2_index va) = Some l3
    | Err er => er = NeedMemory
    end) pt.
Proof using Hva.
  intros W. pose proof (user_l1_index va Hva) as Hi. pose proof (l1_index_lt va) as Hi1.
  destruct (wf_l1 _ _ _ W (l1_index va) Hi1) as [e He].
  unfold walk_alloc. rewrite wp_bind. eapply wp_l1_get; [exact He|]. rewrite wp_bind.
  destruct (Z.eqb_spec (Z.land e DESC_TABLE) DESC_TABLE) as [D|D]; cbn [negb]; wp_acc.
  - destruct (pw_inner _ _ _ W _ e Hi He D) as (t & Ht & _ & _).
    eapply wp_l1_get; [exact He|]. wp_acc. rewrite Ht. eapply walk_alloc_l2_spec; [done|].
    unfold l2_table. rewrite He. cbn [mbind option_bind]. by rewrite decide_True.
  - destruct (decide (pt_used pt < Z.of_nat (length (pt_pool pt)))) as [Hroom|Hfull].
    2:{ eapply wp_of_eq; [by eapply alloc_link_full|]. wp_acc. split; [by eapply extends_refl|done]. }
    eapply wp_run; [by eapply alloc_link_run|]. unfold l1_set. wp_acc. cbn [pt_l1].
    eapply wp_set_index; [by rewrite (pw_l1 _ _ _ W)|]. wp_acc.
    change (MkPt _ _ _ _) with (link_l1 base pt (l1_index va)).
    assert (2 ≤ l1_index va < 512)%nat as Hr by lia.
    destruct (fresh_desc _ _ _ W Hroom) as [Hdt Hdi].
    assert (length (pt_pool (link_l1 base pt (l1_index va))) = length (pt_pool pt)) as El
      by (cbn; unfold fresh_pool; by rewrite length_insert).
    eapply wp_l1_get.
    { rewrite (link_l1_entry _ _ _ W Hroom) by done. by rewrite decide_True. }
    wp_acc. rewrite El, Hdi.
    pose proof (link_l1_wf _ _ _ W Hroom (l1_index va) e Hr He D) as W1.
    eapply wp_mono; [eapply (walk_alloc_l2_spec _ _ _ W1); by eapply link_l1_l2|].
    cbv beta. intros r pt' [Hex Hres]. split; [|exact Hres]. eapply extends_trans; [|exact Hex].
    split; try done.
    + eauto.
    + intros. by apply (link_l1_leaf _ _ _ W Hroom _ e).
    + intros. by rewrite (link_l1_l3 _ _ _ W Hroom _ e).
    + cbn. lia.
    + intros j Hj. rewrite (link_l1_entry _ _ _ W Hroom) by done. rewrite decide_False by lia. done.
Qed.

(** On tables that are already there it changes nothing. *)
Lemma walk_alloc_present pt leaves u :
  pt_wf base pt leaves → l3_table base pt (l1_index va) (l2_index va) = Some u →
  walk_alloc base va pt = Ret (Ok (u, l3_index va), pt).
Proof using Hva.
  intros W Hu. unfold l3_table, l2_table, pool_entry in Hu.
  apply bind_Some in Hu as (t & Ht & Hu). apply bind_Some in Ht as (e & He & Ht).
  apply bind_Some in Hu as (e2 & He2 & Hu). apply bind_Some in He2 as (row & Hrow & He2).
  destruct (decide (Z.land e DESC_TABLE = DESC_TABLE)) as [D|]; [|done].
  destruct (decide (Z.land e2 DESC_TABLE = DESC_TABLE)) as [D2|]; [|done].
  unfold walk_alloc, walk_alloc_l2, walk_leaf, l1_get, pool_get, gets, mbind, comp_bind, index, mret, comp_ret.
  rewrite He. cbn. rewrite (proj2 (Z.eqb_eq _ _) D). cbn. rewrite He. cbn. rewrite Ht. cbn.
  rewrite Hrow. cbn. rewrite He2. cbn. rewrite (proj2 (Z.eqb_eq _ _) D2). cbn. rewrite Hrow. cbn. rewrite He2. cbn.
  by rewrite Hu.
Qed.
End walk.

(** ** Ranges of pages *)
Section ranges.
Context (va pages : Z).
Hypothesis Hok : va_range_ok va pages = true.
Hypothesis Hva : 0 ≤ va.
Hypothesis Hpages : 0 ≤ pages.

Lemma range_bounds : va mod PAGE = 0 ∧ USER_VA_BASE ≤ va ∧ va + pages * PAGE ≤ USER_VA_END.
Proof using All.
  unfold va_range_ok, saturating_add, saturating_mul in Hok. apply andb_true_iff in Hok as [H1 H2].
  apply andb_true_iff in H1 as [H0 H1]. apply Z.eqb_eq in H0. apply Z.leb_le in H1, H2.
  split_and!; [done|done|]. assert (USER_VA_END < U64_MAX) by done. unfold PAGE in *. lia.
Qed.

Lemma page_at_run (b : Z) (pt : Pt) i : 0 ≤ i → b + i * PAGE ≤ U64_MAX → 0 ≤ b →
  page_at b i pt = Ret (b + i * PAGE, pt).
Proof.
  intros Hi Hb H0. unfold page_at, umul, uadd, mbind, comp_bind, mret, comp_ret.
  rewrite decide_True by (unfold PAGE in *; lia). by rewrite decide_True.
Qed.

Lemma page_user i : 0 ≤ i < pages → user_va (va + i * PAGE) ∧ va + i * PAGE ≤ U64_MAX.
Proof using All.
  intros Hi. destruct range_bounds as (H0 & H1 & H2). assert (USER_VA_END < U64_MAX) by done.
  unfold user_va, PAGE in *. lia.
Qed.

(** Pages of the range have distinct leaves. *)
Lemma page_distinct i w : 0 ≤ i < pages → user_va w → w mod PAGE = 0 →
  (l1_index w = l1_index (va + i * PAGE) ∧ l2_index w = l2_index (va + i * PAGE) ∧
   l3_index w = l3_index (va + i * PAGE)) → w = va + i * PAGE.
Proof using All.
  intros Hi Hw Hwa (E1 & E2 & E3). destruct range_bounds as (H0 & H1 & H2).
  destruct (page_user i Hi) as [Hu _]. unfold user_va in *.
  assert (USER_VA_BASE = 2147483648) by done.
  pose proof (index_page w (va + i * PAGE) ltac:(lia) ltac:(lia) E1 E2 E3) as Hd.
  assert ((va + i * PAGE) mod PAGE = 0) as Hm by (rewrite Z.add_mod, Z.mod_mul, H0 by done; done).
  apply Z.div_exact in Hm; [|done]. apply Z.div_exact in Hwa; [|done]. congruence.
Qed.
End ranges.

(** ** Mapping *)
Definition in_pages (va k pages w : Z) : Prop := ∃ j, k ≤ j < pages ∧ w = va + j * PAGE.

Section map_in.
Context (base pa va pages perms : Z).
Hypothesis Hok : va_range_ok va pages = true.
Hypothesis Hva : 0 ≤ va.
Hypothesis Hpages : 0 ≤ pages.
Hypothesis Hpa : 0 ≤ pa ∧ pa + pages * PAGE ≤ U64_MAX.

Lemma map_check_spec n i pt leaves :
  pt_wf base pt leaves → 0 ≤ i → Z.of_nat n = pages - i →
  wp (map_check base va n i) (λ r pt', extends base pt pt' ∧
    match r with
    | Ok _ => ∀ k, i ≤ k < pages → mapped base pt (va + k * PAGE) = 0 ∧
        is_Some (l3_table base pt' (l1_index (va + k * PAGE)) (l2_index (va + k * PAGE)))
    | Err AlreadyMapped => ∃ k, i ≤ k < pages ∧ mapped base pt (va + k * PAGE) ≠ 0
    | Err NeedMemory => True
    | Err BadVa => False
    end) pt.
Proof using Hok Hva Hpages.
  revert i pt leaves. induction n as [|n IH]; intros i pt leaves W Hi Hn; simpl map_check.
  { wp_acc. split; [by eapply extends_refl|]. intros. lia. }
  destruct (page_user va pages Hok Hva Hpages i ltac:(lia)) as [Hu Hmax].
  rewrite wp_bind. eapply wp_of_eq; [by apply page_at_run|]. rewrite wp_bind.
  eapply wp_mono; [by eapply walk_alloc_spec|]. cbv beta. intros r pt1 [Hex Hr].
  destruct r as [[l3 e]|er]; [|subst er; wp_acc; done]. destruct Hr as [-> Hl3].
  destruct (ex_wf _ _ _ Hex) as [leaves1 W1]. pose proof (user_l1_index _ Hu) as Hi1.
  destruct (leaf_entry _ _ _ W1 _ _ _ _ Hi1 (l3_index_lt (va + i * PAGE)) Hl3) as (row & Hrow & He).
  rewrite wp_bind. eapply wp_pool_get; [exact Hrow|exact He|]. rewrite (ex_leaf _ _ _ Hex) by done.
  change (leaf base pt _ _ _) with (mapped base pt (va + i * PAGE)).
  destruct (Z.eqb_spec (mapped base pt (va + i * PAGE)) 0) as [E|E]; cbn [negb].
  - eapply wp_mono; [eapply (IH (i + 1)); [exact W1|lia|lia]|]. cbv beta. intros r pt' [Hex' Hr].
    assert (∀ k, mapped base pt1 (va + k * PAGE) = mapped base pt (va + k * PAGE) ∨ ¬ (i ≤ k < pages)) as Hm.
    { intros k. destruct (decide (i ≤ k < pages)) as [Hk|]; [left|by right]. apply (ex_leaf _ _ _ Hex).
      apply user_l1_index. eapply page_user; [done..|lia]. }
    split; [by eapply extends_trans|]. destruct r as [[]|[]]; try done.
    + intros k Hk. destruct (decide (k = i)) as [->|Hne].
      * split; [done|]. exists l3. by apply (ex_l3 _ _ _ Hex').
      * destruct (Hr k ltac:(lia)) as [H1 H2]. split; [|done]. destruct (Hm k) as [<-|]; [done|lia].
    + destruct Hr as (k & Hk & Hne). exists k. split; [lia|]. destruct (Hm k) as [<-|]; [done|lia].
  - wp_acc. split; [done|]. exists i. split; [lia|done].
Qed.

(** What the leaves read once pages [k .. pages) are written. *)
Definition written (k : Z) (pt pt' : Pt) : Prop :=
  ∀ w, user_va w → w mod PAGE = 0 →
    (∀ j, k ≤ j < pages → w = va + j * PAGE → mapped base pt' w = pte_encode (pa + j * PAGE) perms) ∧
    (¬ in_pages va k pages w → mapped base pt' w = mapped base pt w).

Lemma map_write_spec n k pt leaves :
  pt_wf base pt leaves → 0 ≤ k → Z.of_nat n = pages - k →
  (∀ j, k ≤ j < pages → is_Some (l3_table base pt (l1_index (va + j * PAGE)) (l2_index (va + j * PAGE)))) →
  wp (map_write base pa va perms n k) (λ r pt', r = Ok tt ∧ pt_wf base pt' leaves ∧ pt_hw pt' = pt_hw pt ∧
    pt_used pt' = pt_used pt ∧ pt_l1 pt' = pt_l1 pt ∧ length (pt_pool pt') = length (pt_pool pt) ∧
    written k pt pt') pt.
Proof using All.
  revert k pt. induction n as [|n IH]; intros k pt W Hk Hn Hall; simpl map_write.
  { wp_acc. split_and!; try done. intros w _ _. split; [intros; lia|done]. }
  destruct (page_user va pages Hok Hva Hpages k ltac:(lia)) as [Hu Hmax].
  destruct (Hall k ltac:(lia)) as [l3 Hl3]. pose proof (user_l1_index _ Hu) as Hi1.
  rewrite wp_bind. eapply wp_of_eq; [by apply page_at_run|]. rewrite wp_bind.
  eapply wp_of_eq; [by eapply walk_alloc_present|]. cbv beta iota. rewrite wp_bind.
  eapply wp_of_eq; [apply page_at_run; unfold PAGE in *; lia|]. rewrite wp_bind.
  pose proof (l3_index_lt (va + k * PAGE)) as Hi3.
  eapply wp_of_eq; [by eapply (pool_set_run base)|].
  set (v := pte_encode (pa + k * PAGE) perms). set (pt1 := set_entry pt l3 _ v).
  assert (pt_wf base pt1 leaves) as W1 by (by eapply set_entry_wf).
  destruct (set_entry_same pt (l3_index (va + k * PAGE)) l3 v) as (S1 & S2 & S3). fold pt1 in S1, S2, S3.
  assert (∀ w, user_va w → w mod PAGE = 0 → mapped base pt1 w = if decide (w = va + k * PAGE) then v else mapped base pt w) as Hm.
  { intros w Hw Ha. unfold mapped, pt1. erewrite leaf_write by (done || by apply user_l1_index).
    destruct (decide (w = va + k * PAGE)) as [->|Hne]; [by rewrite decide_True|].
    rewrite decide_False; [done|]. intros Heq. apply Hne.
    apply (page_distinct va pages Hok Hva Hpages k w); [lia|done|done|exact Heq]. }
  eapply wp_mono; [apply (IH (k + 1)); [exact W1|lia|lia|]|].
  { intros j Hj. unfold pt1. erewrite set_entry_l3; [apply Hall; lia|done..|].
    apply user_l1_index. eapply page_user; [done..|lia]. }
  cbv beta. intros r pt' (-> & W' & Hhw & Hus & Hl & Hlen & Hwr). split_and!; try congruence; try done.
  { rewrite Hlen. unfold pt1. apply set_entry_length. }
  intros w Hw Ha. destruct (Hwr w Hw Ha) as [Hin Hout]. split.
  - intros j Hj ->. destruct (decide (j = k)) as [->|Hne]; [|apply Hin; [lia|done]].
    rewrite Hout, Hm by done || (intros (j & Hj' & Heq); unfold PAGE in Heq; lia). by rewrite decide_True.
  - intros Hno. rewrite Hout, Hm by done || (intros (j & Hj & Heq); apply Hno; exists j; split; [lia|done]).
    rewrite decide_False; [done|]. intros ->. apply Hno. exists k. split; [lia|done].
Qed.
End map_in.

(** [map_in] maps the whole range or leaves every page as it was. *)
Lemma map_in_spec base pa va pages perms pt leaves :
  pt_wf base pt leaves → 0 ≤ va → 0 ≤ pages → 0 ≤ pa ∧ pa + pages * PAGE ≤ U64_MAX →
  wp (map_in base pa va pages perms) (λ r pt', (∃ leaves', pt_wf base pt' leaves') ∧
    length (pt_pool pt') = length (pt_pool pt) ∧
    match r with
    | Ok _ => va_range_ok va pages = true ∧ (∀ j, 0 ≤ j < pages → mapped base pt (va + j * PAGE) = 0) ∧
        written base pa va pages perms 0 pt pt' ∧ pt_hw pt' = BarrierAfterMap :: pt_hw pt
    | Err e => (∀ w, user_va w → mapped base pt' w = mapped base pt w) ∧ pt_hw pt' = pt_hw pt ∧
        (e = BadVa ↔ va_range_ok va pages = false) ∧
        (e = AlreadyMapped → ∃ k, 0 ≤ k < pages ∧ mapped base pt (va + k * PAGE) ≠ 0)
    end) pt.
Proof.
  intros W Hva Hpages Hpa. unfold map_in. destruct (va_range_ok va pages) eqn:Hok; cbn [negb].
  2:{ wp_acc. split_and!; try done. eauto. }
  rewrite wp_bind. eapply wp_mono; [apply (map_check_spec base va pages Hok Hva Hpages _ _ _ leaves W); lia|].
  cbv beta. intros r pt1 [Hex Hr]. destruct (ex_wf _ _ _ Hex) as [leaves1 W1].
  assert (∀ w, user_va w → mapped base pt1 w = mapped base pt w) as Hm
    by (intros w Hw; apply (ex_leaf _ _ _ Hex); by apply user_l1_index).
  destruct r as [[]|er].
  - rewrite wp_bind. eapply wp_mono.
    { apply (map_write_spec base pa va pages perms Hok Hva Hpages Hpa _ _ _ leaves1 W1); [lia|lia|].
      intros j Hj. by apply Hr. }
    cbv beta. intros r pt2 (-> & W2 & Hhw & _ & _ & Hlen & Hwr). wp_acc. unfold pt_event. wp_acc.
    cbn [pt_pool pt_hw]. split_and!.
    + exists leaves1. destruct W2. by split.
    + rewrite Hlen. apply (ex_len _ _ _ Hex).
    + done.
    + intros j Hj. by apply Hr.
    + intros w Hw Ha. destruct (Hwr w Hw Ha) as [H1 H2]. split; [exact H1|]. intros Hno. rewrite <-(Hm w Hw). by apply H2.
    + by rewrite Hhw, (ex_hw _ _ _ Hex).
  - wp_acc. split_and!; [eauto|apply (ex_len _ _ _ Hex)|done|apply (ex_hw _ _ _ Hex)|by destruct er|].
    intros ->. done.
Qed.

(** ** Unmapping *)
Section unmap.
Context (base asid va pages : Z).
Hypothesis Hok : va_range_ok va pages = true.
Hypothesis Hva : 0 ≤ va.
Hypothesis Hpages : 0 ≤ pages.

(** [pt'] is [pt] with the pages [k .. pages) cleared, each page that was mapped
    having its TLB entry invalidated. *)
Record unmapped (leaves : gset nat) (k : Z) (pt pt' : Pt) : Prop := {
  um_wf : pt_wf base pt' leaves;
  um_len : length (pt_pool pt') = length (pt_pool pt);
  um_used : pt_used pt' = pt_used pt;
  um_l1 : pt_l1 pt' = pt_l1 pt;
  um_in w : user_va w → w mod PAGE = 0 → in_pages va k pages w → mapped base pt' w = 0;
  um_out w : user_va w → w mod PAGE = 0 → ¬ in_pages va k pages w → mapped base pt' w = mapped base pt w;
  um_hw : ∃ evs, pt_hw pt' = evs ++ pt_hw pt ∧
    ∀ j, k ≤ j < pages → mapped base pt (va + j * PAGE) ≠ 0 → TlbInvalidatePage asid (va + j * PAGE) ∈ evs;
}.

Lemma unmapped_step leaves k pt pt1 pt' evs1 :
  0 ≤ k < pages → length (pt_pool pt1) = length (pt_pool pt) → pt_used pt1 = pt_used pt → pt_l1 pt1 = pt_l1 pt →
  (∀ w, user_va w → w mod PAGE = 0 → mapped base pt1 w = if decide (w = va + k * PAGE) then 0 else mapped base pt w) →
  pt_hw pt1 = evs1 ++ pt_hw pt →
  (mapped base pt (va + k * PAGE) ≠ 0 → TlbInvalidatePage asid (va + k * PAGE) ∈ evs1) →
  unmapped leaves (k + 1) pt1 pt' → unmapped leaves k pt pt'.
Proof using All.
  intros Hk E1 E2 E3 Hm Hhw Hev [W' F1 F2 F3 Hin Hout (evs & Hhw' & Hev')].
  assert (∀ j, 0 ≤ j < pages → (va + j * PAGE) mod PAGE = 0) as Hal.
  { intros j _. destruct (range_bounds va pages Hok Hva Hpages) as (H0 & _). by rewrite Z.add_mod, Z.mod_mul, H0. }
  split; try congruence; try done.
  - intros w Hw Ha (j & Hj & ->). destruct (decide (j = k)) as [->|Hne].
    + rewrite Hout, Hm by done || (intros (j & Hj' & Heq); unfold PAGE in Heq; lia). by rewrite decide_True.
    + apply Hin; [done..|]. exists j. split; [lia|done].
  - intros w Hw Ha Hno. rewrite Hout, Hm by done || (intros (j & Hj & Heq); apply Hno; exists j; split; [lia|done]).
    rewrite decide_False; [done|]. intros ->. apply Hno. exists k. split; [lia|done].
  - exists (evs ++ evs1). rewrite Hhw', Hhw, app_assoc. split; [done|]. intros j Hj Hne. apply elem_of_app.
    destruct (decide (j = k)) as [->|Hjk]; [right; by apply Hev|left]. apply Hev'; [lia|].
    rewrite Hm, decide_False; [done|unfold PAGE; lia|eapply page_user; [done..|lia]|apply Hal; lia].
Qed.

Lemma unmap_loop_spec n k pt leaves :
  pt_wf base pt leaves → 0 ≤ k → Z.of_nat n = pages - k →
  wp (unmap_loop base asid va n k) (λ _ pt', unmapped leaves k pt pt') pt.
Proof using All.
  revert k pt. induction n as [|n IH]; intros k pt W Hk Hn; simpl unmap_loop.
  { wp_acc. split; try done; [intros w _ _ (j & ? & _); lia|]. exists []. split; [done|]. intros; lia. }
  destruct (page_user va pages Hok Hva Hpages k ltac:(lia)) as [Hu Hmax].
  pose proof (user_l1_index _ Hu) as Hi1. pose proof (l3_index_lt (va + k * PAGE)) as Hi3.
  rewrite wp_bind. eapply wp_of_eq; [by apply page_at_run|]. rewrite wp_bind.
  eapply wp_of_eq; [by eapply pt_lookup_spec|]. rewrite wp_bind.
  destruct (l3_table base pt _ _) as [l3|] eqn:Hl3; cbn [fmap option_fmap option_map].
  - rewrite wp_bind. eapply wp_of_eq; [by eapply (pool_set_run base)|]. unfold pt_event. wp_acc.
    destruct (set_entry_same pt (l3_index (va + k * PAGE)) l3 0) as (S1 & S2 & S3).
    assert (pt_wf base (set_entry pt l3 (l3_index (va + k * PAGE)) 0) leaves) as W1 by (by eapply set_entry_wf).
    eapply wp_mono; [apply (IH (k + 1)); [destruct W1; by split|lia|lia]|]. cbv beta. intros _ pt' U.
    eapply (unmapped_step _ _ _ _ _ [TlbInvalidatePage asid (va + k * PAGE)]); [..|exact U];
      cbn [pt_l1 pt_pool pt_used pt_hw].
    + lia.
    + apply set_entry_length.
    + done.
    + done.
    + intros w Hw Ha.
      change (mapped base (set_entry pt l3 (l3_index (va + k * PAGE)) 0) w = if decide (w = va + k * PAGE) then 0 else mapped base pt w).
      unfold mapped. erewrite leaf_write by (done || by apply user_l1_index).
      destruct (decide (w = va + k * PAGE)) as [->|Hne]; [by rewrite decide_True|].
      rewrite decide_False; [done|]. intros Heq. apply Hne.
      apply (page_distinct va pages Hok Hva Hpages k w); [lia|done|done|exact Heq].
    + simpl. by rewrite S3.
    + intros _. clear. set_solver.
  - wp_acc. assert (mapped base pt (va + k * PAGE) = 0) as Hz by (unfold mapped, leaf; by rewrite Hl3).
    eapply wp_mono; [apply (IH (k + 1)); [exact W|lia|lia]|]. cbv beta. intros _ pt' U.
    eapply (unmapped_step _ _ _ _ _ []); [..|exact U]; try done; [lia|].
    intros w Hw Ha. destruct (decide (w = va + k * PAGE)) as [->|]; done.
Qed.

(** [unmap_in] clears exactly the range and ends with the barrier. *)
Lemma unmap_in_spec pt leaves :
  pt_wf base pt leaves →
  wp (unmap_in base asid va pages) (λ _ pt', ∃ pt1, unmapped leaves 0 pt pt1 ∧
    pt' = MkPt (pt_l1 pt1) (pt_pool pt1) (pt_used pt1) (BarrierAfterUnmap :: pt_hw pt1)) pt.
Proof using All.
  intros W. unfold unmap_in. rewrite wp_bind. eapply wp_mono; [apply unmap_loop_spec; [done|lia|lia]|].
  cbv beta. intros _ pt1 U. unfold pt_event. wp_acc. eauto.
Qed.
End unmap.

(** ** Validating user buffers *)
Lemma page_floor_spec va : 0 ≤ va ≤ U64_MAX → page_floor va = va / PAGE * PAGE.
Proof.
  intros Hva. unfold page_floor, PAGE_MASK, PAGE, U64_MAX.
  assert (va / 4096 * 4096 = Z.ldiff va (Z.ones 12)) as ->.
  { rewrite Z.ldiff_ones_r, Z.shiftl_mul_pow2, Z.shiftr_div_pow2 by lia. done. }
  change 18446744073709551615 with (Z.ones 64). change (4096 - 1) with (Z.ones 12).
  apply Z.bits_inj'. intros n Hn. rewrite Z.land_spec, Z.ldiff_spec, Z.lxor_spec.
  destruct (decide (n < 64)) as [Hlt|Hge].
  - rewrite (Z.ones_spec_low 64) by lia. by destruct (Z.testbit (Z.ones 12) n).
  - rewrite (testbit_small va n 64) by (unfold U64_MAX in Hva; lia). done.
Qed.

Section range.
Context (base : Z) (pt : Pt) (leaves : gset nat) (write : bool).
Hypothesis W : pt_wf base pt leaves.

(** A page a buffer may use: mapped, and writable by EL0 when asked. *)
Definition page_usable (w : Z) : Prop :=
  mapped base pt w ≠ 0 ∧ (write = true → Z.land (Z.shiftr (mapped base pt w) 6) 3 = 1).

Lemma range_loop_spec fuel page end_ :
  user_va page ∨ end_ ≤ page → end_ ≤ USER_VA_END → 0 ≤ page → page mod PAGE = 0 →
  end_ - page ≤ Z.of_nat fuel * PAGE →
  ∃ r, range_loop fuel base write page end_ pt = Ret (r, pt) ∧
    (r = true ↔ ∀ w, page ≤ w < end_ → w mod PAGE = 0 → page_usable w).
Proof using W.
  revert page. induction fuel as [|fuel IH]; intros page Hu He H0 Ha Hf; simpl.
  { rewrite (proj2 (Z.ltb_ge _ _)) by lia. exists true. split; [done|]. split; [|done]. intros; lia. }
  destruct (Z.ltb_spec page end_) as [Hlt|Hge].
  2:{ exists true. split; [done|]. split; [|done]. intros; lia. }
  destruct Hu as [Hu|]; [|lia]. unfold mbind, comp_bind. rewrite (pt_lookup_spec _ _ _ W) by done.
  pose proof (user_l1_index _ Hu) as Hi1.
  destruct (l3_table base pt _ _) as [l3|] eqn:Hl3; cbn [fmap option_fmap option_map].
  2:{ exists false. split; [done|]. split; [done|]. intros Hall. destruct (Hall page) as [Hm _]; [lia|done|].
      destruct Hm. unfold mapped, leaf. by rewrite Hl3. }
  destruct (leaf_entry _ _ _ W _ _ _ _ Hi1 (l3_index_lt page) Hl3) as (row & Hrow & Hent).
  unfold pool_get, gets, mbind, comp_bind, index, mret, comp_ret. rewrite Hrow. cbn. rewrite Hent. cbn.
  change (leaf base pt _ _ _) with (mapped base pt page).
  destruct (Z.eqb_spec (mapped base pt page) 0) as [Ez|Ez].
  { exists false. split; [done|]. split; [done|]. intros Hall. by destruct (Hall page) as [? _]; [lia|done|]. }
  destruct (write && negb (Z.land (Z.shiftr (mapped base pt page) 6) 3 =? 1)) eqn:Ew.
  { exists false. split; [done|]. split; [done|]. intros Hall. destruct (Hall page) as [_ Hw]; [lia|done|].
    apply andb_true_iff in Ew as [Ew1 Ew2]. rewrite Hw in Ew2 by done. done. }
  assert (USER_VA_END < U64_MAX - PAGE) as HU by done. unfold user_va in Hu.
  unfold uadd, mret, comp_ret. rewrite decide_True by (unfold PAGE in *; lia).
  destruct (IH (page + PAGE)) as (r & Hr & Hiff).
  - unfold user_va. unfold PAGE in *. destruct (decide (page + 4096 < USER_VA_END)); [left; lia|right; lia].
  - done.
  - unfold PAGE; lia.
  - by rewrite Z.add_mod, Z.mod_same, Ha.
  - unfold PAGE in *; lia.
  - exists r. split; [exact Hr|]. rewrite Hiff. split.
    + intros Hall w Hw Hwa. destruct (decide (w = page)) as [->|Hne].
      * split; [done|]. intros ->. simpl in Ew. apply negb_false_iff in Ew. by apply Z.eqb_eq.
      * apply Hall; [|done]. unfold PAGE in *. apply Z.div_exact in Hwa, Ha; lia.
    + intros Hall w Hw Hwa. apply Hall; [unfold PAGE in *; lia|done].
Qed.

(** [range_mapped_in] accepts exactly the buffers whose every page is usable. *)
Lemma range_mapped_in_spec va len :
  0 ≤ va ≤ U64_MAX → 0 ≤ len →
  ∃ r, range_mapped_in base va len write pt = Ret (r, pt) ∧
    (r = true ↔ if decide (len = 0) then user_va va
      else USER_VA_BASE ≤ va ∧ va + len ≤ USER_VA_END ∧
        ∀ w, va / PAGE * PAGE ≤ w < va + len → w mod PAGE = 0 → page_usable w).
Proof using W.
  intros Hva Hlen. unfold range_mapped_in, user_va. destruct (Z.eqb_spec len 0) as [->|Hne].
  { rewrite decide_True by done. eexists. split; [done|]. rewrite andb_true_iff, Z.leb_le, Z.ltb_lt. done. }
  rewrite decide_False by done. assert (USER_VA_END < U64_MAX) by done. unfold checked_add. case_decide as Hov.
  2:{ exists false. split; [done|]. split; [done|]. lia. }
  destruct ((va <? USER_VA_BASE) || (USER_VA_END <? va + len)) eqn:Eb.
  { exists false. split; [done|]. split; [done|]. apply orb_true_iff in Eb. rewrite !Z.ltb_lt in Eb. lia. }
  apply orb_false_iff in Eb as [E1 E2]. apply Z.ltb_ge in E1, E2. rewrite page_floor_spec by lia.
  assert (va / PAGE * PAGE ≤ va < va / PAGE * PAGE + PAGE) as Hfl
    by (pose proof (Z.div_mod va PAGE ltac:(done)); pose proof (Z.mod_pos_bound va PAGE ltac:(done)); lia).
  assert (USER_VA_BASE / PAGE * PAGE = USER_VA_BASE) as Hub by done.
  assert (USER_VA_BASE / PAGE ≤ va / PAGE) as Hmono by (apply Z.div_le_mono; [done|lia]).
  destruct (range_loop_spec (Z.to_nat ((va + len - va / PAGE * PAGE) / PAGE + 1)) (va / PAGE * PAGE) (va + len)) as (r & Hr & Hiff).
  - left. unfold user_va. unfold PAGE in *. lia.
  - done.
  - unfold PAGE in *. assert (0 ≤ USER_VA_BASE) by done. lia.
  - by apply Z.mod_mul.
  - rewrite Z2Nat.id by (unfold PAGE in *; Z.to_euclidean_division_equations; lia).
    unfold PAGE in *. Z.to_euclidean_division_equations. lia.
  - exists r. split; [exact Hr|]. rewrite Hiff. tauto.
Qed.
End range.

(** ** Address space objects *)
Definition aspace_wf (a : AspaceObj) : Prop := ∃ leaves, pt_wf (as_pool_base a) (pt_view a []) leaves.

Lemma pt_wf_hw base l1 pool used h h' leaves :
  pt_wf base (MkPt l1 pool used h) leaves → pt_wf base (MkPt l1 pool used h') leaves.
Proof. intros []. by split. Qed.

(** A fresh address space: nothing in the user range is mapped, whatever the two
    shared kernel entries hold. *)
Lemma aspace_init_wf asid pb n pool k0 k1 :
  geom_ok pb n → length pool = n → (∀ t row, pool !! t = Some row → length row = 512%nat) →
  aspace_wf (aspace_init asid pb n pool k0 k1) ∧
  ∀ va, user_va va → mapped pb (pt_view (aspace_init asid pb n pool k0 k1) []) va = 0.
Proof.
  intros Hg Hn Hrow. assert (take n pool = pool) as Et by (apply take_ge; lia).
  assert (∀ i e, (2 ≤ i)%nat → as_l1 (aspace_init asid pb n pool k0 k1) !! i = Some e → e = 0) as Hl1.
  { intros [|[|i]] e Hi; [lia|lia|]. cbn [aspace_init as_l1]. intros He.
    change (replicate 510 0 !! i = Some e) in He. by apply lookup_replicate in He as [-> _]. }
  split.
  - exists ∅. split; cbn [pt_view pt_l1 pt_pool pt_used aspace_init as_pool as_pool_base as_pool_used]; rewrite ?Et.
    + by rewrite Hn.
    + reflexivity.
    + done.
    + lia.
    + intros t Ht. by apply elem_of_empty in Ht.
    + intros i e Hi He T. apply Hl1 in He; [|done]. subst. done.
    + intros. lia.
    + intros i j e f Hi _ He _ T. apply Hl1 in He; [|done]. subst. done.
    + intros. lia.
  - intros va Hva. unfold mapped, leaf, l3_table, l2_table.
    destruct (pt_l1 _ !! l1_index va) as [e|] eqn:He; [|done].
    apply Hl1 in He; [|by apply user_l1_index]. subst e. cbn [mbind option_bind]. by rewrite decide_False.
Qed.

(** The walker's published precondition also requires every table descriptor of
    the L1 table, the kernel's included, to point into the used part of the pool. *)
Definition l1_closed (base : Z) (pt : Pt) : Prop :=
  ∀ i e, pt_l1 pt !! i = Some e → is_table e →
    ∃ t, pool_index base (length (pt_pool pt)) e = Some t ∧ Z.of_nat t < pt_used pt.

(** Growing the pool keeps every page and makes room. *)
Lemma pool_index_grow base len len' e t :
  (len ≤ len')%nat → pool_index base len e = Some t → pool_index base len' e = Some t.
Proof.
  intros Hle. unfold pool_index. destruct (Z.ltb_spec (Z.land e ADDR_MASK) base); [done|].
  destruct (Z.leb_spec (Z.of_nat len) ((Z.land e ADDR_MASK - base) / PAGE)); [done|].
  by rewrite (proj2 (Z.leb_gt _ _)) by lia.
Qed.

Lemma grow_pool_wf a add :
  aspace_wf a → geom_ok (as_pool_base a) (length (as_pool a) + add) →
  aspace_wf (grow_pool add a) ∧
  ∀ va, user_va va → mapped (as_pool_base a) (pt_view (grow_pool add a) []) va = mapped (as_pool_base a) (pt_view a []) va.
Proof.
  intros [leaves W] Hg. pose proof (pw_used _ _ _ W) as Hus.
  set (pool' := as_pool a ++ replicate add zero_table).
  assert (pt_view (grow_pool add a) [] = MkPt (as_l1 a) pool' (as_pool_used a) []) as Ev by done.
  assert (length pool' = length (as_pool a) + add)%nat as El by (unfold pool'; by rewrite length_app, length_replicate).
  cbn [pt_view pt_pool pt_used] in Hus.
  assert (∀ t, Z.of_nat t < as_pool_used a → pool' !! t = as_pool a !! t) as Ho
    by (intros t Ht; unfold pool'; apply lookup_app_l; lia).
  pose proof (pool_index_grow (as_pool_base a) (length (as_pool a)) (length pool')) as Hgrow.
  assert (∀ i e, (2 ≤ i)%nat → as_l1 a !! i = Some e → is_table e →
    pool_index (as_pool_base a) (length pool') e = pool_index (as_pool_base a) (length (as_pool a)) e) as H1.
  { intros i e Hi He T. destruct (pw_inner _ _ _ W i e Hi He T) as (t & Ht & _). cbn in Ht. rewrite Ht.
    apply Hgrow; [lia|done]. }
  assert (∀ t row j e, Z.of_nat t < as_pool_used a → t ∉ leaves → as_pool a !! t = Some row → row !! j = Some e →
    is_table e → pool_index (as_pool_base a) (length pool') e = pool_index (as_pool_base a) (length (as_pool a)) e) as H2.
  { intros t row j e Ht Hl Hr He T. destruct (pw_outer _ _ _ W t row j e Ht Hl Hr He T) as (u & Hu & _). cbn in Hu.
    rewrite Hu. apply Hgrow; [lia|done]. }
  split.
  - exists leaves. cbn [grow_pool as_pool_base]. rewrite Ev. split; cbn [pt_l1 pt_pool pt_used]; rewrite ?El.
    + done.
    + apply (pw_l1 _ _ _ W).
    + intros t row. unfold pool'. intros [Hr|[_ Hr]]%lookup_app_Some.
      * by apply (pw_row _ _ _ W t).
      * apply lookup_replicate in Hr as [-> _]. done.
    + lia.
    + apply (pw_leaf _ _ _ W).
    + intros i e Hi He T. destruct (pw_inner _ _ _ W i e Hi He T) as (t & Ht & ? & ?). cbn in Ht. exists t.
      rewrite <-El, (H1 i e) by done. done.
    + intros t row j e Ht Hl Hr He T. rewrite Ho in Hr by done.
      destruct (pw_outer _ _ _ W t row j e Ht Hl Hr He T) as (u & Hu & ? & ?). cbn in Hu. exists u.
      rewrite <-El, (H2 t row j e) by done. done.
    + intros i j e f Hi Hj He Hf Te Tf. rewrite <-El, (H1 i e), (H1 j f) by done.
      by apply (pw_inj1 _ _ _ W).
    + intros t u row row' i j e f Ht Hu Hl Hl' Hr Hr' He Hf Te Tf. rewrite Ho in Hr, Hr' by done.
      rewrite <-El, (H2 t row i e), (H2 u row' j f) by done. by eapply (pw_inj2 _ _ _ W).
  - intros va Hva. rewrite Ev. pose proof (user_l1_index va Hva) as Hi.
    assert (l2_table (as_pool_base a) (MkPt (as_l1 a) pool' (as_pool_used a) []) (l1_index va) =
            l2_table (as_pool_base a) (pt_view a []) (l1_index va)) as E2.
    { unfold l2_table. cbn [pt_l1 pt_view pt_pool]. destruct (as_l1 a !! l1_index va) as [e|] eqn:Ee; [|done].
      cbn [mbind option_bind]. case_decide as D; [|done]. by eapply H1. }
    assert (l3_table (as_pool_base a) (MkPt (as_l1 a) pool' (as_pool_used a) []) (l1_index va) (l2_index va) =
            l3_table (as_pool_base a) (pt_view a []) (l1_index va) (l2_index va)) as E3.
    { unfold l3_table. rewrite E2. destruct (l2_table _ (pt_view a []) _) as [t|] eqn:Et; [|done]. cbn [mbind option_bind].
      destruct (l2_table_inner _ _ _ W _ t Hi Et) as [Htu Htl]. unfold pool_entry. cbn [pt_view pt_pool].
      rewrite Ho by done. destruct (as_pool a !! t) as [row|] eqn:Er; [|done]. cbn [mbind option_bind].
      destruct (row !! l2_index va) as [e|] eqn:Ee; [|done]. cbn [mbind option_bind]. case_decide as D; [|done].
      by eapply H2. }
    unfold mapped, leaf. rewrite E3. destruct (l3_table _ (pt_view a []) _ _) as [u|] eqn:Eu; [|done].
    cbn [mbind option_bind]. destruct (l3_table_leaf _ _ _ W _ _ u Hi Eu) as [Huu _].
    unfold pool_entry. cbn [pt_view pt_pool]. by rewrite Ho.
Qed.

(** ** The store-level operations *)
Lemma aspace_unmap_spec st asp va pages :
  aspace_wf (aspaces st !!! asp) → va_range_ok va pages = true → 0 ≤ va → 0 ≤ pages →
  wp (aspace_unmap asp va pages) (λ _ st', ∃ a' h, st' = with_hw (λ _, h) (with_aspaces (<[asp := a']>) st) ∧
    aspace_wf a' ∧ as_pool_base a' = as_pool_base (aspaces st !!! asp) ∧
    (∀ w, user_va w → w mod PAGE = 0 → in_pages va 0 pages w → mapped (as_pool_base a') (pt_view a' []) w = 0) ∧
    (∀ w, user_va w → w mod PAGE = 0 → ¬ in_pages va 0 pages w →
       mapped (as_pool_base a') (pt_view a' []) w = mapped (as_pool_base a') (pt_view (aspaces st !!! asp) []) w)) st.
Proof.
  intros [leaves W] Hok Hva Hp. set (a := aspaces st !!! asp) in *.
  pose proof (unmap_in_spec (as_pool_base a) (as_asid a) va pages Hok Hva Hp (pt_view a (hw st)) leaves
    (pt_wf_hw _ _ _ _ _ _ _ W)) as Hu.
  apply wp_inv in Hu as ([] & pt' & Hrun & pt1 & U & ->).
  eapply wp_of_eq; [unfold aspace_unmap, on_tables; fold a; rewrite Hrun; reflexivity|].
  eexists _, _. split; [reflexivity|]. cbn [pt_store as_pool_base]. split_and!.
  - exists leaves. pose proof (um_wf _ _ _ _ _ _ _ _ U) as W1. destruct pt1. exact (pt_wf_hw _ _ _ _ _ _ _ W1).
  - done.
  - intros w Hw Ha Hin. apply (um_in _ _ _ _ _ _ _ _ U w Hw Ha Hin).
  - intros w Hw Ha Hin. apply (um_out _ _ _ _ _ _ _ _ U w Hw Ha Hin).
Qed.

(** [aspace_map] on the store: all pages or none. *)
Lemma aspace_map_spec st asp pa va pages perms :
  aspace_wf (aspaces st !!! asp) → 0 ≤ va → 0 ≤ pages → 0 ≤ pa ∧ pa + pages * PAGE ≤ U64_MAX →
  wp (aspace_map asp pa va pages perms) (λ r st', ∃ a' h, st' = with_hw (λ _, h) (with_aspaces (<[asp := a']>) st) ∧
    aspace_wf a' ∧
    let old := mapped (as_pool_base a') (pt_view (aspaces st !!! asp) []) in
    let new := mapped (as_pool_base a') (pt_view a' []) in
    match r with
    | Ok _ => va_range_ok va pages = true ∧ h = BarrierAfterMap :: hw st ∧
        (∀ j, 0 ≤ j < pages → old (va + j * PAGE) = 0 ∧ new (va + j * PAGE) = pte_encode (pa + j * PAGE) perms) ∧
        (∀ w, user_va w → w mod PAGE = 0 → ¬ in_pages va 0 pages w → new w = old w)
    | Err e => (∀ w, user_va w → new w = old w) ∧ h = hw st ∧ (e = BadVa ↔ va_range_ok va pages = false) ∧
        (e = AlreadyMapped → ∃ k, 0 ≤ k < pages ∧ old (va + k * PAGE) ≠ 0)
    end) st.
Proof.
  intros [leaves W] Hva Hp Hpa. set (a := aspaces st !!! asp) in *.
  pose proof (map_in_spec (as_pool_base a) pa va pages perms (pt_view a (hw st)) leaves
    (pt_wf_hw _ _ _ _ _ _ _ W) Hva Hp Hpa) as Hu.
  apply wp_inv in Hu as (r & pt' & Hrun & [leaves' W'] & _ & H).
  eapply wp_of_eq; [unfold aspace_map, on_tables; fold a; rewrite Hrun; reflexivity|].
  exists (pt_store a pt'), (pt_hw pt'). split; [done|]. split.
  { exists leaves'. destruct pt'. exact (pt_wf_hw _ _ _ _ _ _ _ W'). }
  destruct pt' as [l1 pool used h']. cbn [pt_store as_pool_base pt_hw] in *. destruct r as [u|e].
  - destruct H as (Hok & Hold & Hw & Hh). split_and!; [done|done| |].
    + intros j Hj. split; [by apply Hold|]. destruct (page_user va pages Hok Hva Hp j Hj) as [Hu _].
      apply (Hw _ Hu); [|done|done]. destruct (range_bounds va pages Hok Hva Hp) as [Ha _].
      by rewrite Z.mod_add.
    + intros w Hu Ha Hn. by apply Hw.
  - done.
Qed.
