(* ===== verification/Kinv.v ===== *)
(** The kernel-wide invariant: the derivation tree is well formed, reference and
    end-capability counts equal what the store holds, ready and wait queues, the
    armed-timer list and the IRQ bindings are consistent, and every capability
    names an object of the right shape. The operations of the capability core are
    proved to preserve it, with the references a step in progress holds outside
    the store made explicit. *)

From S2P Require Import Prelude KStore Ready Census Notif Timer Irq Cdt Aspace.

(** ** Object shapes *)
Record chan_shape (c : Channel) : Prop := {
  cs_ends : length (ch_end_caps c) = 2%nat;
  cs_head : length (ch_head c) = 2%nat;
  cs_count : length (ch_count c) = 2%nat;
  cs_bind : length (ch_bindings c) = 2%nat;
  cs_row e row : ch_bindings c !! e = Some row → length row = 3%nat;
  cs_msgs : length (ch_msgs c) = 2%nat;
  cs_ring r ring : ch_msgs c !! r = Some ring → Z.of_nat (length ring) = ch_depth c;
  cs_caps r ring i msg : ch_msgs c !! r = Some ring → ring !! i = Some msg → length (m_caps msg) = MSG_CAPS;
}.

Definition chan_ok (st : Store) (ch : ObjId) : Prop := chan_shape (chans st !!! ch).
Definition tcb_ok (st : Store) (t : ObjId) : Prop :=
  length (t_bind_slots (tcbs st !!! t)) = 2%nat ∧ length (t_bind_bits (tcbs st !!! t)) = 2%nat.
Definition cspace_ok (st : Store) (cs : ObjId) : Prop :=
  Z.of_nat (length (cs_slots (cspaces st !!! cs))) = num_slots (cspaces st !!! cs).

(** A capability names a well-formed object; a mapped frame names a well-formed
    address space and a user range. *)
Definition cap_ok (st : Store) (c : Cap) : Prop :=
  match kind c with
  | CapKind.Channel ch _ => chan_ok st ch
  | CapKind.Thread t _ => tcb_ok st t
  | CapKind.CSpace cs => cspace_ok st cs
  | CapKind.Untyped base size w => 0 ≤ base ∧ 0 ≤ w ≤ size ∧ base + size ≤ 2 ^ 48
  | CapKind.Frame base pages m => (0 ≤ base ∧ 0 ≤ pages ∧ base + pages * PAGE ≤ 2 ^ 48) ∧
      match m with
      | Some (a, va) => aspace_wf (aspaces st !!! a) ∧ va_range_ok va pages = true ∧ 0 ≤ va
      | None => True
      end
  | CapKind.Aspace a => aspace_wf (aspaces st !!! a)
  | _ => True
  end.

Record shape (st : Store) : Prop := {
  sp_cap s : cap_ok st (cap (slots st !!! s));
  sp_cspace t cs : t_cspace (tcbs st !!! t) = Some cs → cspace_ok st cs;
  sp_aspace t a : t_aspace (tcbs st !!! t) = Some a → aspace_wf (aspaces st !!! a);
}.

(** What no operation of the capability core takes away. *)
Record shape_le (st st' : Store) : Prop := {
  sl_chan ch : chan_ok st ch → chan_ok st' ch;
  sl_msgs ch : let c := chans st !!! ch in let c' := chans st' !!! ch in
    ch_msgs c' = ch_msgs c ∧ ch_depth c' = ch_depth c ∧ ch_head c' = ch_head c ∧ ch_count c' = ch_count c;
  sl_tcb t : tcb_ok st t → tcb_ok st' t;
  sl_bind t : t_bind_slots (tcbs st' !!! t) = t_bind_slots (tcbs st !!! t);
  sl_cspaces : cspaces st' = cspaces st;
  sl_pinned : pinned st' = pinned st;
  sl_aspace a : aspace_wf (aspaces st !!! a) → aspace_wf (aspaces st' !!! a);
}.

(** ** The invariant *)

(** [b] and [eb] are the references and end capabilities held outside the store. *)
Record kinv_bal (st : Store) (b : ObjId → Z) (eb : ObjId → ChanEnd.chan_end → Z) : Prop := {
  ki_cdt : ∃ kids, cdt_repr (slots st) kids;
  ki_refs : refs_bal st b;
  ki_ends : end_caps_bal st eb;
  ki_sched : ∃ rq wq, sched_inv st rq wq ∅;
  ki_timers : ∃ tl, timer_repr st tl;
  ki_irqs : irq_inv st;
  ki_shape : shape st;
}.

Definition no_refs : ObjId → Z := λ _, 0.
Definition no_ends : ObjId → ChanEnd.chan_end → Z := λ _ _, 0.
Definition kinv (st : Store) : Prop := kinv_bal st no_refs no_ends.

(** ** Shrinking: what deleting capabilities may do *)
Definition slot_full (s : CapSlot) : Z := if cap_is_empty (cap s) then 0 else 1.
(** The number of slots holding a capability: what bounds the deletion recursion. *)
Definition full_slots (st : Store) : Z := msum slot_full (slots st).

Definition occupied (st : Store) (s : SlotId) : Prop := cap_is_empty (cap (slots st !!! s)) = false.

#[global] Instance occupied_dec st s : Decision (occupied st s).
Proof. unfold occupied. apply _. Defined.

(** How a thread may change while the kernel works on behalf of another: its spaces
    are only given up; it may be woken, and stopped for good unless the kernel image
    holds it ([pin]). *)
Record thread_le (pin : nat) (o o' : Tcb) : Prop := {
  tl_cspace cs : t_cspace o' = Some cs → t_cspace o = Some cs;
  tl_aspace a : t_aspace o' = Some a → t_aspace o = Some a;
  tl_state : woken (t_state o) (t_state o') ∨ (t_state o' = ThreadState.Halted ∧ pin = 0%nat);
}.

Record shrinks (st st' : Store) : Prop := {
  sh_cap x : occupied st' x → cap (slots st' !!! x) = cap (slots st !!! x);
  sh_desc a x : occupied st' a → occupied st' x → descends (slots st) a x → descends (slots st') a x;
  sh_full : full_slots st' ≤ full_slots st;
  sh_shape : shape_le st st';
  sh_thread t : thread_le (pinned st !!! t) (tcbs st !!! t) (tcbs st' !!! t);
}.

(** What a deletion routine that can handle [n] occupied slots promises to the
    teardown routines that call it back. *)
Class DeleteSpec (n : Z) (del : SlotId → K unit) : Prop := delete_ok :
  ∀ st s, kinv st → occupied st s → full_slots st ≤ n →
    wp (del s) (λ _ st', kinv st' ∧ shrinks st st' ∧ ¬ occupied st' s) st.

(** ** Lemmas *)
Lemma shape_le_refl st : shape_le st st.
Proof. by split. Qed.

Lemma thread_le_refl p o : thread_le p o o.
Proof. split; try done. by left; left. Qed.
Lemma thread_le_trans p o1 o2 o3 : thread_le p o1 o2 → thread_le p o2 o3 → thread_le p o1 o3.
Proof.
  intros [A1 A2 A3] [B1 B2 B3]. split; eauto. destruct B3 as [B3|]; [|by right].
  destruct A3 as [A3|[A3 A4]]; [left; by eapply woken_trans|right]. destruct B3 as [->|[B3 _]]; [done|congruence].
Qed.

Lemma shape_le_trans st1 st2 st3 : shape_le st1 st2 → shape_le st2 st3 → shape_le st1 st3.
Proof.
  intros [A1 B1 C1 D1 E1 P1 F1] [A2 B2 C2 D2 E2 P2 F2]. split; eauto; try congruence.
  intros ch. destruct (B1 ch) as (?&?&?&?), (B2 ch) as (?&?&?&?). split_and!; congruence.
Qed.

Lemma cap_ok_le st st' c : shape_le st st' → cap_ok st c → cap_ok st' c.
Proof.
  intros [A B C D E P F]. unfold cap_ok. destruct (kind c) as [| |? ? [[? ?]|]| | | | | | |]; try done; eauto.
  - intros (? & ? & ?). split_and!; naive_solver.
  - unfold cspace_ok. by rewrite E.
Qed.

Lemma shape_ext st st' :
  shape_le st st' → (∀ s, occupied st' s → cap (slots st' !!! s) = cap (slots st !!! s)) →
  (∀ t, (∀ cs, t_cspace (tcbs st' !!! t) = Some cs → t_cspace (tcbs st !!! t) = Some cs) ∧
     (∀ a, t_aspace (tcbs st' !!! t) = Some a → t_aspace (tcbs st !!! t) = Some a)) →
  shape st → shape st'.
Proof.
  intros L Hs Ht [S1 S2 S3]. split.
  - intros s. destruct (cap_is_empty (cap (slots st' !!! s))) eqn:E.
    + unfold cap_is_empty in E. unfold cap_ok. by destruct (kind (cap (slots st' !!! s))).
    + rewrite Hs by done. eapply cap_ok_le; [done|apply S1].
  - intros t cs Htc%(proj1 (Ht t))%S2. unfold cspace_ok in *. by rewrite (sl_cspaces _ _ L).
  - intros t a Hta%(proj2 (Ht t))%S3. by apply (sl_aspace _ _ L).
Qed.

Lemma slot_full_nonneg s : 0 ≤ slot_full s.
Proof. unfold slot_full. destruct (cap_is_empty _); lia. Qed.

Lemma full_set_slot s v st :
  full_slots (with_slots (<[s := v]>) st) = full_slots st - slot_full (slots st !!! s) + slot_full v.
Proof. unfold full_slots. cbn. by rewrite msum_insert. Qed.

Lemma full_pos st s : occupied st s → 1 ≤ full_slots st.
Proof.
  intros Ho. pose proof (msum_lower slot_full (slots st) s slot_full_nonneg eq_refl) as H.
  unfold slot_full in H at 1. unfold occupied in Ho. rewrite Ho in H. exact H.
Qed.

Lemma full_nonneg st : 0 ≤ full_slots st.
Proof. apply msum_nonneg, slot_full_nonneg. Qed.

Lemma full_size st : full_slots st ≤ Z.of_nat (size (slots st)).
Proof.
  unfold full_slots, msum. apply (map_fold_weak_ind (λ r m, r ≤ Z.of_nat (size m))); [done|].
  intros k v m r Hk Hr. rewrite map_size_insert_None by done.
  assert (slot_full v ≤ 1) by (unfold slot_full; destruct (cap_is_empty _); lia). lia.
Qed.

Lemma shrinks_refl st : shrinks st st.
Proof. split; [done|done|lia|apply shape_le_refl|intros t; apply thread_le_refl]. Qed.

Lemma occupied_shrinks st st' x : shrinks st st' → occupied st' x → occupied st x.
Proof. intros S Ho. unfold occupied. rewrite <-(sh_cap _ _ S x Ho). exact Ho. Qed.

Lemma shrinks_trans st1 st2 st3 : shrinks st1 st2 → shrinks st2 st3 → shrinks st1 st3.
Proof.
  intros S1 S2. split.
  - intros x Hx. rewrite (sh_cap _ _ S2) by done. apply (sh_cap _ _ S1). by eapply occupied_shrinks.
  - intros a x Ha Hx Hd. apply (sh_desc _ _ S2); [done|done|].
    apply (sh_desc _ _ S1); [by eapply occupied_shrinks..|done].
  - pose proof (sh_full _ _ S1). pose proof (sh_full _ _ S2). lia.
  - eapply shape_le_trans; [apply S1|apply S2].
  - intros t. eapply thread_le_trans; [apply S1|]. rewrite <-(sl_pinned _ _ (sh_shape _ _ S1)). apply S2.
Qed.

(** Steps that leave the slots alone. *)
Lemma shrinks_slots st st' :
  slots st' = slots st → shape_le st st' → (∀ t, thread_le (pinned st !!! t) (tcbs st !!! t) (tcbs st' !!! t)) → shrinks st st'.
Proof. intros E L T. split; try done; unfold occupied, full_slots; rewrite E; done. Qed.
Lemma shrinks_same st st' : slots st' = slots st → tcbs st' = tcbs st → shape_le st st' → shrinks st st'.
Proof. intros E T L. apply shrinks_slots; [done|done|]. intros t. rewrite T. apply thread_le_refl. Qed.

(** *** Signals keep everything *)
Lemma shape_le_wake st st' : wake_frame st st' → shape_le st st'.
Proof.
  intros F. assert (∀ t, t_bind_slots (tcbs st' !!! t) = t_bind_slots (tcbs st !!! t) ∧
    t_bind_bits (tcbs st' !!! t) = t_bind_bits (tcbs st !!! t)) as Ht.
  { intros t. pose proof (wf_tcb _ _ F t) as E. unfold tcb_fixed in E. split; congruence. }
  split; unfold chan_ok, tcb_ok; rewrite ?(wf_chans _ _ F), ?(wf_aspaces _ _ F); try done.
  - intros t. by destruct (Ht t) as [-> ->].
  - intros t. apply Ht.
  - apply F.
  - apply F.
Qed.

Lemma shrinks_wake st st' :
  wake_frame st st' → (∀ u, woken (t_state (tcbs st !!! u)) (t_state (tcbs st' !!! u))) → shrinks st st'.
Proof.
  intros F L. apply shrinks_slots; [apply F|by apply shape_le_wake|]. intros t. pose proof (wf_tcb _ _ F t) as E.
  unfold tcb_fixed in E. split; [congruence..|left; apply L].
Qed.

(** Scheduling steps: queues may be rearranged as long as they end up consistent. *)
Lemma kinv_wake_frame st st' b eb :
  kinv_bal st b eb → wake_frame st st' → (∃ rq wq, sched_inv st' rq wq ∅) → kinv_bal st' b eb.
Proof.
  intros [C R Ee _ T Iq Sh] F I. pose proof (shape_le_wake _ _ F) as L. destruct T as [tl T]. split; try done.
  - by rewrite (wf_slots _ _ F).
  - by apply (wf_bal _ _ F).
  - intros ch e n. unfold end_census. rewrite (wf_chans _ _ F), (wf_slots _ _ F). apply Ee.
  - exists tl. eapply timer_repr_ext; [apply F..|done].
  - intros i. rewrite (wf_irqs _ _ F). apply Iq.
  - eapply shape_ext; [done|by rewrite (wf_slots _ _ F)| |done].
    intros t. pose proof (wf_tcb _ _ F t) as E. unfold tcb_fixed in E. split; congruence.
Qed.

Lemma kinv_wakes st st' rq wq b eb :
  kinv_bal st b eb → wakes st rq wq ∅ st' → kinv_bal st' b eb ∧ shrinks st st'.
Proof. intros K [F (rq' & wq' & I & _) L]. split; [eapply kinv_wake_frame; eauto|by apply shrinks_wake]. Qed.

(** [signal] on a store in any phase of an operation. *)
Lemma signal_kinv st b eb n bits :
  kinv_bal st b eb → (∀ o, 0 ≤ b o) →
  wp (signal n bits) (λ _ st', kinv_bal st' b eb ∧ shrinks st st' ∧ wake_frame st st') st.
Proof.
  intros K Hb. destruct (ki_sched _ _ _ K) as (rq & wq & I).
  eapply wp_mono; [by eapply (signal_wakes st rq wq ∅ I b); [apply K|]|].
  cbv beta. intros _ st' Hw. destruct (kinv_wakes _ _ _ _ _ _ K Hw) as [K' S']. split_and!; [done|done|apply Hw].
Qed.

(** *** Steps on one part of the store *)
Lemma kinv_bal_ext st b b' eb eb' :
  (∀ o, b o = b' o) → (∀ ch e, eb ch e = eb' ch e) → kinv_bal st b eb → kinv_bal st b' eb'.
Proof.
  intros Hb He [C R Ee S T Iq Sh]. split; try done.
  - intros o. by rewrite <-Hb.
  - intros ch e n. rewrite <-He. apply Ee.
Qed.

Lemma kinv_timer_frame st st' b eb tl :
  kinv_bal st b eb → timer_frame st st' → timer_repr st' tl → kinv_bal st' b eb ∧ shrinks st st'.
Proof.
  intros [C R Ee (rq & wq & S) _ Iq Sh] F T. assert (shape_le st st') as L.
  { split; unfold chan_ok, tcb_ok; by rewrite ?(tf_chans _ _ F), ?(tf_tcbs _ _ F), ?(tf_cspaces _ _ F), ?(tf_aspaces _ _ F), ?(tf_pinned _ _ F). }
  split; [|apply shrinks_same; [apply F..|done]]. split.
  - by rewrite (tf_slots _ _ F).
  - by apply F.
  - intros ch e n. unfold end_census. rewrite (tf_chans _ _ F), (tf_slots _ _ F). apply Ee.
  - exists rq, wq. by apply (sched_inv_timer st).
  - by exists tl.
  - intros i. rewrite (tf_irqs _ _ F). apply Iq.
  - apply (shape_ext st); [done|by rewrite (tf_slots _ _ F)|by rewrite (tf_tcbs _ _ F)|done].
Qed.

Lemma kinv_irq_frame st st' b eb :
  kinv_bal st b eb → irq_frame st st' → irq_inv st' → kinv_bal st' b eb ∧ shrinks st st'.
Proof.
  intros [C R Ee (rq & wq & S) [tl T] _ Sh] F Iq. assert (shape_le st st') as L.
  { split; unfold chan_ok, tcb_ok; by rewrite ?(if_chans _ _ F), ?(if_tcbs _ _ F), ?(if_cspaces _ _ F), ?(if_aspaces _ _ F), ?(if_pinned _ _ F). }
  split; [|apply shrinks_same; [apply F..|done]]. split.
  - by rewrite (if_slots _ _ F).
  - by apply F.
  - intros ch e n. unfold end_census. rewrite (if_chans _ _ F), (if_slots _ _ F). apply Ee.
  - exists rq, wq. apply (sched_inv_ext st); [apply F..|done].
  - exists tl. apply (timer_repr_ext st); [apply F..|done].
  - done.
  - apply (shape_ext st); [done|by rewrite (if_slots _ _ F)|by rewrite (if_tcbs _ _ F)|done].
Qed.

(** Only the slots change: what they stop holding is held outside. *)
Lemma kinv_with_slots st m b b' eb eb' :
  kinv_bal st b eb → (∃ kids, cdt_repr m kids) →
  (∀ o, msum (slot_refs o) m + b' o = msum (slot_refs o) (slots st) + b o) →
  (∀ ch e, msum (end_refs ch e) m + eb' ch e = msum (end_refs ch e) (slots st) + eb ch e) →
  (∀ s, cap_ok st (cap (m !!! s))) →
  kinv_bal (with_slots (λ _, m) st) b' eb'.
Proof.
  intros [C R Ee S T Iq [_ Sh Sh2]] Hm Hb He Hc. split; try done.
  - intros o. specialize (Hb o). cbn. rewrite R. unfold obj_census. cbn. lia.
  - intros ch e n Hn. cbn in Hn. specialize (He ch e). rewrite (Ee ch e n Hn). unfold end_census. cbn. lia.
  - destruct S as (rq & wq & S). exists rq, wq. by apply (sched_inv_ext st).
  - destruct T as [tl T]. exists tl. by apply (timer_repr_ext st).
Qed.

(** *** Moving a capability *)
Lemma moved_sum m src dst m' (f : CapSlot → Z) :
  f inhabitant = 0 → (∀ v v', cap v = cap v' → f v = f v') → src ≠ dst → f (m !!! dst) = 0 →
  moved m src dst m' → msum f m' = msum f m.
Proof.
  intros Hd Hf Hne Hz M. rewrite (msum_ext f (<[src := CapSlot_empty]> (<[dst := m !!! src]> m))); [|done|].
  - rewrite !msum_insert, lookup_total_insert_ne by done. change (f CapSlot_empty = 0) in Hd. lia.
  - intros k. destruct (decide (k = src)) as [->|]; lk; [by rewrite (mv_src _ _ _ _ M)|].
    destruct (decide (k = dst)) as [->|]; lk; [by rewrite (mv_dst _ _ _ _ M)|]. apply Hf. by apply (mv_cap _ _ _ _ M).
Qed.

Lemma empty_slot_refs o v : cap_is_empty (cap v) = true → slot_refs o v = 0.
Proof. unfold slot_refs, cap_refs, cap_is_empty, cap_obj, cap_frame_aspace. by destruct (kind (cap v)). Qed.
Lemma empty_end_refs ch e v : cap_is_empty (cap v) = true → end_refs ch e v = 0.
Proof. intros Hv. apply ind_false. intros E. unfold cap_is_empty in Hv. by rewrite E in Hv. Qed.
Lemma empty_slot_full v : cap_is_empty (cap v) = true → slot_full v = 0.
Proof. unfold slot_full. by intros ->. Qed.

Lemma slot_move_kinv st b eb src dst :
  kinv_bal st b eb → src ≠ dst → ¬ occupied st dst →
  wp (slot_move src dst) (λ _ st', ∃ m, st' = with_slots (λ _, m) st ∧ moved (slots st) src dst m ∧
    kinv_bal st' b eb ∧ full_slots st' = full_slots st) st.
Proof.
  intros K Hne Hd%not_false_is_true. destruct (ki_cdt _ _ _ K) as [kids R].
  eapply wp_mono; [by eapply slot_move_spec|]. cbv beta. intros _ st' (m & -> & M). exists m.
  split_and!; [done|done| |].
  - eapply kinv_with_slots; [exact K| | | |].
    + eexists. by eapply moved_repr.
    + intros o. rewrite (moved_sum (slots st) src dst); [done|done| |done|by apply empty_slot_refs|done].
      intros v v' E. unfold slot_refs. by rewrite E.
    + intros ch e. rewrite (moved_sum (slots st) src dst); [done|done| |done|by apply empty_end_refs|done].
      intros v v' E. unfold end_refs. by rewrite E.
    + intros s. destruct (decide (s = src)) as [->|]; [by rewrite (mv_src _ _ _ _ M)|].
      destruct (decide (s = dst)) as [->|]; [rewrite (mv_dst _ _ _ _ M); apply (ki_shape _ _ _ K)|].
      rewrite (mv_cap _ _ _ _ M) by done. apply (ki_shape _ _ _ K).
  - unfold full_slots. cbn. apply (moved_sum _ src dst); [done| |done|by apply empty_slot_full|done].
    intros v v' E. unfold slot_full. by rewrite E.
Qed.

(** *** Taking a capability out of its slot *)

(** The references and the end capability a capability stands for. *)
Definition cap_bal (c : Cap) : ObjId → Z := λ o, cap_refs o c.
Definition cap_ends (c : Cap) : ObjId → ChanEnd.chan_end → Z := λ ch e, ind (kind c = CapKind.Channel ch e).

Lemma unlinked_clear m kids s m' :
  cdt_repr m kids → unlinked m kids s m' → ∃ kids', cdt_repr (<[s := CapSlot_empty]> m') kids'.
Proof.
  intros R U. destruct (group_of m kids R s) as (g1 & g2 & G). pose proof (unlink_repr m m' kids s g1 g2 R U G) as R'.
  exists (unlink_kids kids s). destruct (ul_self _ _ _ _ U) as (E1 & E2 & E3 & E4).
  apply cdt_repr_relabel; [by symmetry..|done|done].
Qed.

(** *** The timer tick *)
Lemma shape_le_tick st st' : tick_frame st st' → shape_le st st'.
Proof.
  intros F. assert (∀ t, t_bind_slots (tcbs st' !!! t) = t_bind_slots (tcbs st !!! t) ∧
    t_bind_bits (tcbs st' !!! t) = t_bind_bits (tcbs st !!! t)) as Ht.
  { intros t. pose proof (kf_tcb _ _ F t) as E. unfold tcb_fixed in E. split; congruence. }
  split; unfold chan_ok, tcb_ok; rewrite ?(kf_chans _ _ F), ?(kf_aspaces _ _ F); try done.
  - intros t. by destruct (Ht t) as [-> ->].
  - intros t. apply Ht.
  - apply F.
  - apply F.
Qed.

Lemma kinv_tick_frame st st' b eb tl :
  kinv_bal st b eb → tick_frame st st' → timer_repr st' tl → (∃ rq wq, sched_inv st' rq wq ∅) →
  kinv_bal st' b eb ∧ shrinks st st'.
Proof.
  intros [C R Ee _ _ Iq Sh] F T I. pose proof (shape_le_tick _ _ F) as L.
  split; [|apply shrinks_slots; [apply F|done|]]. 2:{ intros t. pose proof (kf_tcb _ _ F t) as E. unfold tcb_fixed in E. split; [congruence..|left; apply F]. }
  split; try done.
  - by rewrite (kf_slots _ _ F).
  - by apply (kf_bal _ _ F).
  - intros ch e n. unfold end_census. rewrite (kf_chans _ _ F), (kf_slots _ _ F). apply Ee.
  - by exists tl.
  - intros i. rewrite (kf_irqs _ _ F). apply Iq.
  - eapply shape_ext; [done|by rewrite (kf_slots _ _ F)| |done].
    intros t. pose proof (kf_tcb _ _ F t) as E. unfold tcb_fixed in E. split; congruence.
Qed.

(** One tick expires the armed timers in list order, and leaves those not yet due. *)
Lemma check_expired_kinv st tl now :
  kinv st → timer_repr st tl →
  check_expired now st = expire_all now tl st ∧
  wp (check_expired now) (λ _ st', kinv st' ∧ shrinks st st' ∧ timer_repr st' (pending st now tl)) st.
Proof.
  intros K T. destruct (ki_sched _ _ _ K) as (rq & wq & I).
  destruct (check_loop now no_refs ∅ (λ _, Z.le_refl 0) st rq wq [] tl (size (timers st)) T I (ki_refs _ _ _ K) (timer_fuel st tl T)) as [E H].
  assert (check_expired now st = check_expired_loop (size (timers st)) now (head tl) st) as E'.
  { rewrite <-(chain_head _ _ _ (tr_chain _ _ T)). done. }
  split; [congruence|]. apply (wp_run _ _ _ st st E'). eapply wp_mono; [exact H|].
  cbv beta. intros _ st' (T' & I' & F). destruct (kinv_tick_frame st st' _ _ _ K F T' I') as [K' S']. done.
Qed.
