(* ===== verification/Refs.v ===== *)
(** Reference primitives of [kcore/src/cspace.rs]: [obj_ref], [dec_ref],
    [ref_aspace], [unref_aspace], and the CSpace teardown [destroy_cspace] and
    [unref_cspace] that delete capabilities through the routine they are given. *)

From S2P Require Import Prelude KStore Ready Census Notif Timer Irq Cdt Aspace Kinv.

(** ** Operations *)
Definition obj_ref (c : Cap) : K unit :=
  match kind c with
  | CapKind.Aspace o | CapKind.CSpace o | CapKind.Thread o _ | CapKind.Channel o _
  | CapKind.Notification o | CapKind.Timer o | CapKind.Irq o =>
      r ← obj_refs o; r' ← uadd U32_MAX r 1; set_obj_refs o r'
  | CapKind.Empty | CapKind.Untyped _ _ _ | CapKind.Frame _ _ _ => mret tt
  end.

Definition dec_ref (o : ObjId) : K unit :=
  r ← obj_refs o; r' ← usub r 1; set_obj_refs o r'.

Definition ref_aspace (a : ObjId) : K unit :=
  r ← obj_refs a; r' ← uadd U32_MAX r 1; set_obj_refs a r'.

Definition unref_aspace (a : ObjId) : K unit :=
  r ← obj_refs a;
  r' ← usub r 1;
  set_obj_refs a r';;
  r ← obj_refs a;
  if r =? 0 then aspace_destroy a else mret tt.

Section teardown.
Context (delete : SlotId → K unit).

(** [if !cap_is_empty(store.slot(s).cap) { delete(store, s) }] *)
Definition delete_if_full (s : SlotId) : K unit :=
  v ← slot s;
  if negb (cap_is_empty (cap v)) then delete s else mret tt.

Definition destroy_cspace (cs : ObjId) : K unit :=
  n ← cspace_num_slots cs;
  for_from 0 (Z.to_nat n) (λ i, sid ← cspace_slot cs (Z.of_nat i); delete_if_full sid).

Definition unref_cspace (cs : ObjId) : K unit :=
  dec_ref cs;;
  r ← obj_refs cs;
  if r =? 0 then destroy_cspace cs else mret tt.
End teardown.

(** ** Lemmas *)

(** One reference held outside the store. *)
Definition held (o : ObjId) : ObjId → Z := λ o', ind (o' = o).

Lemma held_nonneg o o' : 0 ≤ held o o'.
Proof. apply ind_nonneg. Qed.

(** Only reference counts change. *)
Lemma kinv_with_refs st b b' eb f :
  kinv_bal st b eb → refs_bal (with_refs f st) b' → kinv_bal (with_refs f st) b' eb ∧ shrinks st (with_refs f st).
Proof.
  intros [C R Ee S T Iq Sh] Hb. assert (shape_le st (with_refs f st)) as L by (by split).
  split; [|by apply shrinks_same]. destruct S as (rq & wq & S), T as [tl T]. split; try done.
  - exists rq, wq. by apply (sched_inv_ext st).
  - exists tl. by apply (timer_repr_ext st).
  - by apply (shape_ext st).
Qed.

Lemma dec_ref_kinv st b b' eb o :
  kinv_bal st b eb → (∀ o, 0 ≤ b' o) → (∀ o', b o' = b' o' + held o o') →
  wp (dec_ref o) (λ _ st', kinv_bal st' b' eb ∧ shrinks st st' ∧
    st' = with_refs (<[o := refs st !!! o - 1]>) st) st.
Proof.
  intros K Hb' Hb. unfold dec_ref, obj_refs, set_obj_refs. wp_step.
  assert (1 ≤ refs st !!! o) as Hr.
  { rewrite (ki_refs _ _ _ K), Hb. unfold held. rewrite ind_true by done.
    pose proof (obj_census_nonneg st o). specialize (Hb' o). lia. }
  apply wp_usub; [done|]. wp_step. apply and_pair; [|done]. eapply kinv_with_refs; [exact K|].
  intros o'. cbn. rewrite refs_minus, (ki_refs _ _ _ K), Hb, census_with_refs. unfold held, ind.
  repeat case_decide; simplify_eq; lia.
Qed.

Lemma unref_aspace_kinv st b b' eb a :
  kinv_bal st b eb → (∀ o, 0 ≤ b' o) → (∀ o', b o' = b' o' + held a o') →
  wp (unref_aspace a) (λ _ st', kinv_bal st' b' eb ∧ shrinks st st') st.
Proof.
  intros K Hb' Hb. pose proof (dec_ref_kinv st b b' eb a K Hb' Hb) as Hd.
  unfold dec_ref in Hd. unfold unref_aspace, aspace_destroy. unfold obj_refs, set_obj_refs in *.
  rewrite !wp_bind, !wp_gets in Hd. rewrite !wp_bind, !wp_gets. rewrite wp_bind in Hd. rewrite wp_bind.
  eapply wp_mono; [exact Hd|]. cbv beta. intros r st1. rewrite !wp_modify. intros (K1 & S1 & _).
  wp_step. by destruct (_ =? 0); wp_step.
Qed.

(** An object nothing refers to any more. *)
Lemma refs_zero_census st b eb o : kinv_bal st b eb → 0 ≤ b o → refs st !!! o = 0 → obj_census st o = 0.
Proof.
  intros K Hb Hr. rewrite (ki_refs _ _ _ K) in Hr. pose proof (obj_census_nonneg st o). lia.
Qed.

Section teardown_spec.
Context (n : Z) (delete : SlotId → K unit) `{!DeleteSpec n delete}.

Lemma delete_if_full_kinv st s :
  kinv st → full_slots st ≤ n →
  wp (delete_if_full delete s) (λ _ st', kinv st' ∧ shrinks st st' ∧ ¬ occupied st' s) st.
Proof using All.
  intros K Hn. unfold delete_if_full, slot. wp_step.
  destruct (cap_is_empty (cap (slots st !!! s))) eqn:E; cbn [negb].
  - wp_step. split_and!; [done|apply shrinks_refl|]. unfold occupied. congruence.
  - by apply delete_ok.
Qed.

(** Every slot of the CSpace is empty afterwards. *)
Lemma destroy_cspace_kinv st cs :
  kinv st → cspace_ok st cs → full_slots st ≤ n →
  wp (destroy_cspace delete cs) (λ _ st', kinv st' ∧ shrinks st st' ∧
    ∀ s, s ∈ cs_slots (cspaces st !!! cs) → ¬ occupied st' s) st.
Proof using All.
  intros K Hok Hn. unfold destroy_cspace, cspace_num_slots. wp_step. unfold cspace_ok in Hok.
  set (l := cs_slots (cspaces st !!! cs)) in *.
  eapply wp_mono; [apply (wp_for (λ i st', kinv st' ∧ shrinks st st' ∧ ∀ j s, (j < i)%nat → l !! j = Some s → ¬ occupied st' s))|].
  - intros i st1 Hi (K1 & S1 & H1). unfold cspace_slot. wp_step.
    rewrite (sl_cspaces _ _ (sh_shape _ _ S1)). fold l. rewrite (proj2 (Z.ltb_lt _ _)) by lia.
    destruct (lookup_lt_is_Some_2 l i) as [s Hs]; [lia|]. rewrite Nat2Z.id, Hs. cbn [default].
    eapply wp_mono; [apply delete_if_full_kinv; [done|pose proof (sh_full _ _ S1); lia]|].
    cbv beta. intros _ st2 (K2 & S2 & H2). split_and!; [done|by eapply shrinks_trans|].
    intros j s' Hj Hs'. destruct (decide (j = i)) as [->|Hne]; [simplify_eq; done|].
    intros Ho. eapply (H1 j s'); [lia|done|by eapply occupied_shrinks].
  - split_and!; [done|apply shrinks_refl|]. intros. lia.
  - cbv beta. intros _ st1 (K1 & S1 & H1). split_and!; [done|done|].
    intros s [j Hj]%list_elem_of_lookup. eapply (H1 j); [|done]. apply lookup_lt_Some in Hj. lia.
Qed.

(** Dropping a reference to a CSpace empties it when it was the last. *)
Lemma unref_cspace_kinv st cs :
  kinv_bal st (held cs) no_ends → cspace_ok st cs → full_slots st ≤ n →
  wp (unref_cspace delete cs) (λ _ st', kinv st' ∧ shrinks st st') st.
Proof using All.
  intros K Hok Hn. unfold unref_cspace. rewrite wp_bind.
  eapply wp_mono; [by apply (dec_ref_kinv st (held cs) no_refs no_ends cs K)|].
  cbv beta. intros _ st1 (K1 & S1 & ->). unfold obj_refs. wp_step. destruct (_ =? 0).
  - eapply wp_mono; [apply destroy_cspace_kinv; [done|done|by pose proof (sh_full _ _ S1); lia]|].
    cbv beta. intros _ st2 (K2 & S2 & _). split; [done|by eapply shrinks_trans].
  - wp_step. done.
Qed.
End teardown_spec.
