(* ===== verification/Channel.v ===== *)
(** Channels ([kcore/src/channel.rs]): two rings of message slots, one per
    direction, with per-end capability counts and per-end event bindings to
    notifications. [send] and [recv] move capabilities through the ring's own
    slots; the last capability to an end going away signals the peer;
    [destroy_channel] empties the rings and releases the bindings. *)

From S2P Require Import Prelude KStore Ready Census Notif Timer Irq Cdt Aspace Kinv Refs.

(** ** Operations *)
Inductive ChanError : Type := Full | Empty | NoCapSlot | PeerClosed.

(** [1 - e] on an end index *)
Definition peer (e : nat) : nat := (1 - e)%nat.

(** [Channel::init]: empty rings of [depth] messages. [slot_of] gives the handle of
    each capability slot of the ring array; the payload bytes are whatever the
    memory held. *)
Definition channel_init (depth : nat) (slot_of : nat → nat → nat → SlotId) (fill : nat → nat → list Z) : Channel :=
  MkChannel (Z.of_nat depth) [0; 0] [0; 0] [0; 0]
    (replicate 2 (replicate 3 Binding_UNBOUND))
    ((λ r, (λ i, MkMsg 0 (fill r i) (slot_of r i <$> seq 0 MSG_CAPS)) <$> seq 0 depth) <$> seq 0 2).

Definition endpoint_cap_added (ch : ObjId) (end_ : ChanEnd.chan_end) : K unit :=
  let e := end_idx end_ in
  n ← chan_end_caps ch e;
  n' ← uadd U32_MAX n 1;
  set_chan_end_caps ch e n'.

Definition fire (ch : ObjId) (end_ event : nat) : K unit :=
  b ← chan_binding ch end_ event;
  match b_notif b with
  | Some n => signal n (b_bits b)
  | None => mret tt
  end.

Definition endpoint_cap_dropped (ch : ObjId) (end_ : ChanEnd.chan_end) : K unit :=
  let e := end_idx end_ in
  n ← chan_end_caps ch e;
  n' ← usub n 1;
  set_chan_end_caps ch e n';;
  m ← chan_end_caps ch e;
  if m =? 0 then fire ch (peer e) EV_PEER_CLOSED else mret tt.

Definition bind (ch : ObjId) (end_ : ChanEnd.chan_end) (event : nat) (notif : option ObjId) (bits : Z) : K unit :=
  let e := end_idx end_ in
  old_b ← chan_binding ch e event;
  (match b_notif old_b with
   | Some n => r ← obj_refs n; r' ← usub r 1; set_obj_refs n r'
   | None => mret tt
   end);;
  (match notif with
   | Some n => r ← obj_refs n; r' ← uadd U32_MAX r 1; set_obj_refs n r'
   | None => mret tt
   end);;
  set_chan_binding ch e event (MkBinding notif bits).

(** [while c < MSG_CAPS { if let Some(src) = caps[c] { slot_move(src, ring slot) } }] *)
Definition send_cap (ch : ObjId) (ring : nat) (i : Z) (caps : list (option SlotId)) (c : nat) : K unit :=
  src_opt ← index caps c;
  match src_opt with
  | Some src => dst ← chan_ring_cap ch ring i c; slot_move src dst
  | None => mret tt
  end.

Definition send (ch : ObjId) (end_ : ChanEnd.chan_end) (data : list Z) (caps : list (option SlotId)) :
    K (result unit ChanError) :=
  let e := end_idx end_ in
  pe ← chan_end_caps ch (peer e);
  if pe =? 0 then mret (Err PeerClosed)
  else
    let ring := e in
    depth ← chan_depth ch;
    count ← chan_count ch ring;
    if count =? depth then mret (Err Full)
    else
      head ← chan_head ch ring;
      count ← chan_count ch ring;
      pos ← uadd U32_MAX head count;
      i ← umod pos depth;
      set_chan_msg_len ch ring i (as_u16 (Z.of_nat (length data)));;
      chan_msg_write ch ring i data;;
      for_from 0 MSG_CAPS (send_cap ch ring i caps);;
      count ← chan_count ch ring;
      count' ← uadd U32_MAX count 1;
      set_chan_count ch ring count';;
      fire ch (peer e) EV_READABLE;;
      mret (Ok tt).

(** The receiver's destinations are checked before anything moves. *)
Fixpoint recv_check (ch : ObjId) (ring : nat) (head : Z) (dests : list (option SlotId)) (c n : nat) : K bool :=
  match n with
  | O => mret true
  | S n' =>
      src ← chan_ring_cap ch ring head c;
      s ← slot src;
      if negb (cap_is_empty (cap s)) then
        d ← index dests c;
        match d with
        | None => mret false
        | Some d =>
            ds ← slot d;
            if negb (cap_is_empty (cap ds)) then mret false
            else recv_check ch ring head dests (S c) n'
        end
      else recv_check ch ring head dests (S c) n'
  end.

Fixpoint recv_move (ch : ObjId) (ring : nat) (head : Z) (dests : list (option SlotId)) (c n : nat) (mask : Z) : K Z :=
  match n with
  | O => mret mask
  | S n' =>
      src ← chan_ring_cap ch ring head c;
      s ← slot src;
      if negb (cap_is_empty (cap s)) then
        d ← index dests c;
        d ← unwrap d;
        slot_move src d;;
        recv_move ch ring head dests (S c) n' (Z.lor mask (Z.shiftl 1 (Z.of_nat c)))
      else recv_move ch ring head dests (S c) n' mask
  end.

(** The result carries the receive buffer: its content after the call. *)
Definition recv (ch : ObjId) (end_ : ChanEnd.chan_end) (buf : list Z) (dests : list (option SlotId)) :
    K (result (Z * Z) ChanError * list Z) :=
  let e := end_idx end_ in
  let ring := peer e in
  count ← chan_count ch ring;
  if count =? 0 then mret (Err Empty, buf)
  else
    head ← chan_head ch ring;
    ok ← recv_check ch ring head dests 0 MSG_CAPS;
    if negb ok then mret (Err NoCapSlot, buf)
    else
      mask ← recv_move ch ring head dests 0 MSG_CAPS 0;
      len ← chan_msg_len ch ring head;
      buf' ← chan_msg_read ch ring head len buf;
      set_chan_msg_len ch ring head 0;;
      depth ← chan_depth ch;
      h1 ← uadd U32_MAX head 1;
      h' ← umod h1 depth;
      set_chan_head ch ring h';;
      count ← chan_count ch ring;
      count' ← usub count 1;
      set_chan_count ch ring count';;
      fire ch (peer e) EV_WRITABLE;;
      mret (Ok (len, mask), buf').

Definition release_binding (ch : ObjId) (end_ ev : nat) : K unit :=
  b ← chan_binding ch end_ ev;
  match b_notif b with
  | Some n =>
      r ← obj_refs n;
      r' ← usub r 1;
      set_obj_refs n r';;
      set_chan_binding ch end_ ev (MkBinding None (b_bits b))
  | None => mret tt
  end.

(** Teardown deletes capabilities through the deletion routine it is given. *)
Section destroy.
Context (delete : SlotId → K unit).

Definition destroy_channel (ch : ObjId) : K unit :=
  depth ← chan_depth ch;
  for_from 0 2 (λ ring,
    for_from 0 (Z.to_nat depth) (λ i,
      for_from 0 MSG_CAPS (λ c,
        cs ← chan_ring_cap ch ring (Z.of_nat i) c;
        delete_if_full delete cs)));;
  for_from 0 2 (λ end_, for_from 0 3 (λ ev, release_binding ch end_ ev)).
End destroy.

(** ** Lemmas: channel updates and the invariant *)

Lemma chan_bal st st' ch v b b' (d : ObjId → Z) :
  slots st' = slots st → tcbs st' = tcbs st → timers st' = timers st → irqs st' = irqs st →
  pinned st' = pinned st → chans st' = <[ch := v]> (chans st) →
  (∀ o, refs st' !!! o = refs st !!! o + d o) →
  (∀ o, chan_refs o v + b' o = chan_refs o (chans st !!! ch) + b o + d o) →
  refs_bal st b → refs_bal st' b'.
Proof.
  intros E1 E2 E3 E4 E5 Et Hr Hd Hb o. rewrite Hr, Hb. unfold obj_census.
  rewrite E1, E2, E3, E4, E5, Et, msum_insert by done. specialize (Hd o). lia.
Qed.

(** Everything but one channel and the reference counts left alone. *)
Record chan_step (st st' : Store) (ch : ObjId) (v : Channel) : Prop := {
  ct_slots : slots st' = slots st;
  ct_cspaces : cspaces st' = cspaces st;
  ct_chans : chans st' = <[ch := v]> (chans st);
  ct_notifs : notifs st' = notifs st;
  ct_tcbs : tcbs st' = tcbs st;
  ct_timers : timers st' = timers st;
  ct_irqs : irqs st' = irqs st;
  ct_aspaces : aspaces st' = aspaces st;
  ct_armed : armed_head st' = armed_head st;
  ct_ready : ready st' = ready st;
  ct_bits : ready_bits st' = ready_bits st;
  ct_pinned : pinned st' = pinned st;
  ct_msgs : let c := chans st !!! ch in
    ch_msgs v = ch_msgs c ∧ ch_depth v = ch_depth c ∧ ch_head v = ch_head c ∧ ch_count v = ch_count c;
  ct_shape : chan_shape (chans st !!! ch) → chan_shape v;
}.

Lemma kinv_chan_step st st' ch v b b' eb eb' :
  kinv_bal st b eb → chan_step st st' ch v → refs_bal st' b' →
  (∀ e n, ch_end_caps v !! end_idx e = Some n → n = end_census st ch e + eb' ch e) →
  (∀ ch' e, ch' ≠ ch → eb' ch' e = eb ch' e) →
  kinv_bal st' b' eb' ∧ shrinks st st'.
Proof.
  intros [C R Ee S [tl T] Iq Sh] F Hb He He'.
  assert (shape_le st st') as L.
  { split; unfold chan_ok, tcb_ok; rewrite ?(ct_tcbs _ _ _ _ F), ?(ct_aspaces _ _ _ _ F), ?(ct_chans _ _ _ _ F); try done.
    - intros c. rewrite lookup_total_insert. case_decide; [subst; apply F|done].
    - intros c. rewrite lookup_total_insert. case_decide; [subst; apply F|done].
    - apply F.
    - apply F. }
  split; [|apply shrinks_same; [apply F..|done]]. destruct S as (rq & wq & S). split; try done.
  - by rewrite (ct_slots _ _ _ _ F).
  - intros c e n. unfold end_census. rewrite (ct_chans _ _ _ _ F), (ct_slots _ _ _ _ F), lookup_total_insert.
    case_decide as D; [subst; apply He|]. rewrite He' by done. apply Ee.
  - exists rq, wq. eapply sched_inv_ext; [apply F..|done].
  - exists tl. eapply timer_repr_ext; [apply F..|done].
  - intros i. rewrite (ct_irqs _ _ _ _ F). apply Iq.
  - eapply shape_ext; [done|by rewrite (ct_slots _ _ _ _ F)|by rewrite (ct_tcbs _ _ _ _ F)|done].
Qed.

(** Reading and writing the fixed-size arrays of a well-formed channel. *)
Lemma end_idx_lt e : (end_idx e < 2)%nat.
Proof. destruct e; simpl; lia. Qed.

Lemma end_idx_inj e e' : end_idx e = end_idx e' → e = e'.
Proof. by destruct e, e'. Qed.

Lemma list2_lookup {A : Type} (l : list A) i : length l = 2%nat → (i < 2)%nat → ∃ x, l !! i = Some x.
Proof. intros Hl Hi. apply lookup_lt_is_Some_2. lia. Qed.

Section chan_acc.
Context (st : Store) (ch : ObjId).
Hypothesis Hok : chan_ok st ch.

Lemma wp_chan_end_caps e Q :
  (e < 2)%nat → (∀ n, ch_end_caps (chans st !!! ch) !! e = Some n → Q n st) → wp (chan_end_caps ch e) Q st.
Proof using Hok.
  intros He HQ. destruct (list2_lookup _ e (cs_ends _ Hok) He) as [n Hn].
  unfold chan_end_caps. wp_acc. eapply wp_index; [exact Hn|by apply HQ].
Qed.

Lemma wp_set_chan_end_caps e v Q :
  (e < 2)%nat →
  Q tt (with_chans (λ m, <[ch := (let c := chans st !!! ch in
    MkChannel (ch_depth c) (<[e := v]> (ch_end_caps c)) (ch_head c) (ch_count c) (ch_bindings c) (ch_msgs c))]> m) st) →
  wp (set_chan_end_caps ch e v) Q st.
Proof using Hok.
  intros He HQ. unfold set_chan_end_caps, upd_chan. wp_acc.
  eapply wp_set_index; [by rewrite (cs_ends _ Hok)|]. wp_acc. exact HQ.
Qed.

Lemma binding_row e ev :
  (e < 2)%nat → (ev < 3)%nat → ∃ row b, ch_bindings (chans st !!! ch) !! e = Some row ∧ row !! ev = Some b.
Proof using Hok.
  intros He Hev. destruct (list2_lookup _ e (cs_bind _ Hok) He) as [row Hrow].
  destruct (lookup_lt_is_Some_2 row ev) as [b Hb]; [by rewrite (cs_row _ Hok e row Hrow)|]. eauto.
Qed.

Lemma wp_chan_binding e ev Q :
  (e < 2)%nat → (ev < 3)%nat →
  (∀ row b, ch_bindings (chans st !!! ch) !! e = Some row → row !! ev = Some b → Q b st) →
  wp (chan_binding ch e ev) Q st.
Proof using Hok.
  intros He Hev HQ. destruct (binding_row e ev He Hev) as (row & b & Hrow & Hb).
  unfold chan_binding. wp_acc. eapply wp_index; [exact Hrow|]. eapply wp_index; [exact Hb|by eapply HQ].
Qed.

Lemma wp_set_chan_binding e ev b row Q :
  (ev < 3)%nat → ch_bindings (chans st !!! ch) !! e = Some row →
  Q tt (with_chans (λ m, <[ch := (let c := chans st !!! ch in
    MkChannel (ch_depth c) (ch_end_caps c) (ch_head c) (ch_count c) (<[e := <[ev := b]> row]> (ch_bindings c)) (ch_msgs c))]> m) st) →
  wp (set_chan_binding ch e ev b) Q st.
Proof using Hok.
  intros Hev Hrow HQ. unfold set_chan_binding, upd_chan. wp_acc. eapply wp_index; [exact Hrow|]. wp_acc.
  eapply wp_set_index; [by rewrite (cs_row _ Hok e row Hrow)|]. wp_acc.
  eapply wp_set_index; [by eapply lookup_lt_Some|]. wp_acc. exact HQ.
Qed.

Lemma chan_shape_end_caps e v : let c := chans st !!! ch in
  chan_shape (MkChannel (ch_depth c) (<[e := v]> (ch_end_caps c)) (ch_head c) (ch_count c) (ch_bindings c) (ch_msgs c)).
Proof using Hok. destruct Hok. split; cbn; try done. by rewrite length_insert. Qed.

Lemma chan_shape_binding e ev b row : let c := chans st !!! ch in
  ch_bindings c !! e = Some row →
  chan_shape (MkChannel (ch_depth c) (ch_end_caps c) (ch_head c) (ch_count c) (<[e := <[ev := b]> row]> (ch_bindings c)) (ch_msgs c)).
Proof using Hok.
  intros c Hrow. destruct Hok as [H1 H2 H3 H4 H5 H6 H7 H8]. split; cbn; try done.
  - by rewrite length_insert.
  - intros e' row'. destruct (decide (e' = e)) as [->|Hne].
    + rewrite list_lookup_insert_eq by (by eapply lookup_lt_Some). intros [= <-]. rewrite length_insert. by eapply H5.
    + rewrite list_lookup_insert_ne by done. apply H5.
Qed.
End chan_acc.

(** How one binding moves the census. *)
Definition row_refs (o : ObjId) (row : list Binding) : Z := foldr (λ b a, ind (b_notif b = Some o) + a) 0 row.

Lemma row_refs_insert o row ev b b' :
  row !! ev = Some b → row_refs o (<[ev := b']> row) = row_refs o row - ind (b_notif b = Some o) + ind (b_notif b' = Some o).
Proof.
  revert ev. induction row as [|x row IH]; intros [|ev] H; simplify_eq/=; [lia|]. unfold row_refs in *. rewrite IH by done. lia.
Qed.

Lemma bindings_refs_insert o l e ev row b b' :
  l !! e = Some row → row !! ev = Some b →
  bindings_refs o (<[e := <[ev := b']> row]> l) = bindings_refs o l - ind (b_notif b = Some o) + ind (b_notif b' = Some o).
Proof.
  revert e. unfold bindings_refs. induction l as [|r l IH]; intros [|e] H Hb; simplify_eq/=.
  - pose proof (row_refs_insert o row ev b b' Hb) as Hr. unfold row_refs in Hr. lia.
  - rewrite (IH e) by done. lia.
Qed.

Lemma binding_refs_le o l e ev row b :
  l !! e = Some row → row !! ev = Some b → ind (b_notif b = Some o) ≤ bindings_refs o l.
Proof.
  intros H Hb. pose proof (bindings_refs_insert o l e ev row b (MkBinding None 0) H Hb) as Hi.
  pose proof (bindings_refs_nonneg o (<[e := <[ev := MkBinding None 0]> row]> l)).
  cbn in Hi. rewrite (ind_false (None = Some o)) in Hi by done. lia.
Qed.

(** ** Operations preserve the invariant *)
Section chan_ops.
Context (st : Store) (b : ObjId → Z) (eb : ObjId → ChanEnd.chan_end → Z) (ch : ObjId).
Hypothesis b_nonneg : ∀ o, 0 ≤ b o.
Hypothesis Hok : chan_ok st ch.

Lemma fire_kinv e ev :
  kinv_bal st b eb → (e < 2)%nat → (ev < 3)%nat →
  wp (fire ch e ev) (λ _ st', kinv_bal st' b eb ∧ shrinks st st' ∧ wake_frame st st') st.
Proof using b_nonneg Hok.
  intros K He Hev. unfold fire. rewrite wp_bind. apply wp_chan_binding; [done..|].
  intros row bd _ _. destruct (b_notif bd) as [n|].
  - by apply signal_kinv.
  - wp_acc. split_and!; [done|apply shrinks_refl|apply wake_frame_refl].
Qed.

(** One end's count rewritten. *)
Lemma kinv_set_end eb' e n n' :
  kinv_bal st b eb → ch_end_caps (chans st !!! ch) !! end_idx e = Some n →
  (∀ ch' e', eb' ch' e' = if decide (ch' = ch ∧ e' = e) then eb ch e + (n' - n) else eb ch' e') →
  ∀ c', c' = (let c := chans st !!! ch in MkChannel (ch_depth c) (<[end_idx e := n']> (ch_end_caps c)) (ch_head c)
      (ch_count c) (ch_bindings c) (ch_msgs c)) →
  kinv_bal (with_chans (λ m, <[ch := c']> m) st) b eb' ∧
  shrinks st (with_chans (λ m, <[ch := c']> m) st).
Proof using Hok.
  intros K Hn He' c' Hc. eapply (kinv_chan_step _ _ ch c' b b eb); [done| | | |].
  - split; try done; subst c'; [by split|]. intros _. by apply chan_shape_end_caps.
  - eapply (chan_bal st _ ch c' b b (λ _, 0)); [done..| | |apply K].
    + intros o. cbn. lia.
    + intros o. subst c'. unfold chan_refs. cbn. lia.
  - intros e2 n2. subst c'. cbn. destruct (decide (e2 = e)) as [->|Hne].
    + rewrite list_lookup_insert_eq by (by eapply lookup_lt_Some). intros [= <-].
      apply (ki_ends _ _ _ K) in Hn. rewrite He', decide_True by done. lia.
    + rewrite list_lookup_insert_ne by (by intros ?%end_idx_inj). intros H%(ki_ends _ _ _ K).
      rewrite He', decide_False by naive_solver. done.
  - intros ch' e2 Hne. rewrite He', decide_False by naive_solver. done.
Qed.

End chan_ops.

(** Dropping a capability to an end; the last one signals the peer. *)
Lemma endpoint_cap_dropped_kinv st b eb eb' ch e :
  (∀ o, 0 ≤ b o) → chan_ok st ch → kinv_bal st b eb →
  (∀ ch' e', eb' ch' e' = if decide (ch' = ch ∧ e' = e) then eb ch e - 1 else eb ch' e') → 1 ≤ eb ch e →
  wp (endpoint_cap_dropped ch e) (λ _ st', kinv_bal st' b eb' ∧ shrinks st st') st.
Proof.
  intros Hb Hok K He' Hpos. unfold endpoint_cap_dropped. rewrite wp_bind.
  apply wp_chan_end_caps; [done|apply end_idx_lt|]. intros n Hn.
  pose proof (ki_ends _ _ _ K ch e n Hn) as Hcensus. pose proof (end_census_nonneg st ch e).
  rewrite wp_bind. apply wp_usub; [lia|]. rewrite wp_bind.
  apply wp_set_chan_end_caps; [done|apply end_idx_lt|].
  destruct (kinv_set_end st b eb ch Hok eb' e n (n - 1) K Hn) with (c' := let c := chans st !!! ch in
    MkChannel (ch_depth c) (<[end_idx e := n - 1]> (ch_end_caps c)) (ch_head c) (ch_count c) (ch_bindings c) (ch_msgs c))
    as [K1 S1]; [intros ch' e'; rewrite He'; case_decide; lia|done|].
  match goal with |- wp _ _ ?s => set (st1 := s) in * end.
  assert (chan_ok st1 ch) as Hok1 by (eapply sl_chan; [apply S1|done]).
  rewrite wp_bind. apply wp_chan_end_caps; [done|apply end_idx_lt|]. intros m _.
  destruct (m =? 0); [|wp_acc; done].
  eapply wp_mono; [apply (fire_kinv st1 b eb' ch Hb Hok1 _ _ K1)|].
  - unfold peer. pose proof (end_idx_lt e). lia.
  - unfold EV_PEER_CLOSED. lia.
  - cbv beta. intros _ st' (K' & S' & _). split; [done|by eapply shrinks_trans].
Qed.

(** A capability to an end is installed: its count goes up by one. *)
Lemma endpoint_cap_added_kinv st b eb eb' ch e n :
  chan_ok st ch → kinv_bal st b eb → ch_end_caps (chans st !!! ch) !! end_idx e = Some n → n < U32_MAX →
  (∀ ch' e', eb' ch' e' = if decide (ch' = ch ∧ e' = e) then eb ch e + 1 else eb ch' e') →
  wp (endpoint_cap_added ch e) (λ _ st', kinv_bal st' b eb' ∧ shrinks st st' ∧ slots st' = slots st ∧ refs st' = refs st ∧ tcbs st' = tcbs st ∧
    (∀ e', e' ≠ e → ch_end_caps (chans st' !!! ch) !! end_idx e' = ch_end_caps (chans st !!! ch) !! end_idx e')) st.
Proof.
  intros Hok K Hn Hmax He'. unfold endpoint_cap_added. rewrite wp_bind.
  apply wp_chan_end_caps; [done|apply end_idx_lt|]. intros n0 Hn0. assert (n0 = n) as -> by congruence.
  rewrite wp_bind. apply wp_uadd; [lia|]. apply wp_set_chan_end_caps; [done|apply end_idx_lt|].
  destruct (kinv_set_end st b eb ch Hok eb' e n (n + 1) K Hn) with (c' := let c := chans st !!! ch in
    MkChannel (ch_depth c) (<[end_idx e := n + 1]> (ch_end_caps c)) (ch_head c) (ch_count c) (ch_bindings c) (ch_msgs c))
    as [K1 S1]; [intros ch' e'; rewrite He'; case_decide; lia|done|].
  split_and!; try done. intros e' Hne. cbn. lk. cbn. rewrite list_lookup_insert_ne; [done|]. by destruct e, e'.
Qed.

(** Releasing a binding gives its reference back. *)
Lemma release_binding_kinv st b eb ch e ev :
  (∀ o, 0 ≤ b o) → chan_ok st ch → kinv_bal st b eb → (e < 2)%nat → (ev < 3)%nat →
  wp (release_binding ch e ev) (λ _ st', kinv_bal st' b eb ∧ shrinks st st') st.
Proof.
  intros Hb Hok K He Hev. unfold release_binding. rewrite wp_bind. apply wp_chan_binding; [done..|].
  intros row bd Hrow Hbd. destruct (b_notif bd) as [n|] eqn:En; [|wp_acc; split; [done|apply shrinks_refl]].
  assert (1 ≤ refs st !!! n) as Hr.
  { pose proof (chan_refs_le st ch n) as Hle. unfold chan_refs in Hle.
    pose proof (binding_refs_le n _ e ev row bd Hrow Hbd) as Hle2. rewrite En, ind_true in Hle2 by done.
    rewrite (ki_refs _ _ _ K). specialize (Hb n). lia. }
  unfold obj_refs, set_obj_refs. wp_step. apply wp_usub; [done|]. wp_step.
  match goal with |- wp _ _ ?s => set (st1 := s) in * end.
  eapply (wp_set_chan_binding st1 ch Hok e ev _ row); [done|exact Hrow|].
  eapply (kinv_chan_step st _ ch _ b b eb); [done| | | |].
  - split; try done. intros _. by apply (chan_shape_binding st ch Hok).
  - eapply (chan_bal st _ ch _ b b (λ o, - ind (Some n = Some o))); [done..| | |apply K].
    + intros o. apply refs_minus.
    + intros o. unfold chan_refs. cbn. erewrite bindings_refs_insert by done. cbn.
      rewrite En, (ind_false (None = Some o)) by done. lia.
  - intros e2 n2. cbn. apply (ki_ends _ _ _ K).
  - done.
Qed.

(** [bind] replaces one binding, moving the reference from the old notification
    to the new one. *)
Lemma bind_kinv st b eb ch e ev notif bits :
  (∀ o, 0 ≤ b o) → chan_ok st ch → kinv_bal st b eb → (ev < 3)%nat →
  (∀ n, notif = Some n → refs st !!! n < U32_MAX) →
  wp (bind ch e ev notif bits) (λ _ st', kinv_bal st' b eb ∧ shrinks st st' ∧
    ch_bindings (chans st' !!! ch) !! end_idx e ≫= (.!! ev) = Some (MkBinding notif bits)) st.
Proof.
  intros Hb Hok K Hev Hmax. unfold bind. rewrite wp_bind.
  apply wp_chan_binding; [done|apply end_idx_lt|done|]. intros row bd Hrow Hbd.
  assert (∀ n, b_notif bd = Some n → 1 ≤ refs st !!! n) as Hr.
  { intros n En. pose proof (chan_refs_le st ch n) as Hle. unfold chan_refs in Hle.
    pose proof (binding_refs_le n _ _ ev row bd Hrow Hbd) as Hle2. rewrite En, ind_true in Hle2 by done.
    rewrite (ki_refs _ _ _ K). specialize (Hb n). lia. }
  assert (∀ rm, (∀ o, rm !!! o = refs st !!! o + (ind (notif = Some o) - ind (b_notif bd = Some o))) →
    wp (set_chan_binding ch (end_idx e) ev (MkBinding notif bits)) (λ _ st', kinv_bal st' b eb ∧ shrinks st st' ∧
      ch_bindings (chans st' !!! ch) !! end_idx e ≫= (.!! ev) = Some (MkBinding notif bits)) (with_refs (λ _, rm) st)) as Hgo.
  { intros rm Hrm. eapply (wp_set_chan_binding (with_refs (λ _, rm) st) ch Hok _ ev _ row); [done|exact Hrow|].
    apply and_pair.
    - eapply (kinv_chan_step st _ ch _ b b eb); [done| | | |].
      + split; try done. intros _. by apply (chan_shape_binding st ch Hok).
      + eapply (chan_bal st _ ch _ b b (λ o, ind (notif = Some o) - ind (b_notif bd = Some o))); [done..| |apply K].
        intros o. unfold chan_refs. cbn. erewrite bindings_refs_insert by done. cbn. lia.
      + intros e2 n2. cbn. apply (ki_ends _ _ _ K).
      + done.
    - cbn. lk. cbn. rewrite list_lookup_insert_eq by (by eapply lookup_lt_Some). cbn.
      apply list_lookup_insert_eq. by eapply lookup_lt_Some. }
  unfold obj_refs, set_obj_refs. destruct (b_notif bd) as [n|] eqn:En; wp_step.
  - apply wp_usub; [by apply Hr|]. wp_step. destruct notif as [m|]; wp_step.
    + apply wp_uadd.
      { specialize (Hmax m eq_refl). cbn. destruct (decide (m = n)) as [->|]; lk; lia. }
      apply Hgo. intros o. cbn. rewrite refs_plus, refs_minus. lia.
    + apply Hgo. intros o. rewrite refs_minus, (ind_false (None = Some o)) by done. lia.
  - destruct notif as [m|]; wp_step.
    + apply wp_uadd; [specialize (Hmax m eq_refl); lia|]. apply Hgo. intros o.
      rewrite refs_plus, (ind_false (None = Some o)) by done. lia.
    + destruct st. apply (Hgo _). intros o. rewrite !(ind_false (None = Some o)) by done. cbn. lia.
Qed.

(** ** Teardown *)
Section destroy_spec.
Context (n : Z) (delete : SlotId → K unit) `{!DeleteSpec n delete}.

(** A message slot of a well-formed channel. *)
Lemma wp_chan_ring_cap st ch r i c Q :
  chan_ok st ch → (r < 2)%nat → 0 ≤ i < ch_depth (chans st !!! ch) → (c < MSG_CAPS)%nat →
  (∀ s, Q s st) → wp (chan_ring_cap ch r i c) Q st.
Proof.
  intros Hok Hr Hi Hc HQ. destruct (list2_lookup _ r (cs_msgs _ Hok) Hr) as [ring Hring].
  destruct (lookup_lt_is_Some_2 ring (Z.to_nat i)) as [msg Hmsg]; [pose proof (cs_ring _ Hok r ring Hring); lia|].
  destruct (lookup_lt_is_Some_2 (m_caps msg) c) as [s Hs]; [by rewrite (cs_caps _ Hok r ring _ msg Hring Hmsg)|].
  unfold chan_ring_cap, chan_msg. wp_step. eapply wp_index; [exact Hring|]. eapply wp_index; [exact Hmsg|].
  wp_step. eapply wp_index; [exact Hs|apply HQ].
Qed.

Lemma destroy_channel_kinv st ch :
  kinv st → chan_ok st ch → full_slots st ≤ n →
  wp (destroy_channel delete ch) (λ _ st', kinv st' ∧ shrinks st st') st.
Proof using All.
  intros K Hok Hn. unfold destroy_channel, chan_depth. wp_step.
  set (Inv := λ (_ : nat) st', kinv st' ∧ shrinks st st').
  assert (∀ st', shrinks st st' → chan_ok st' ch ∧ ch_depth (chans st' !!! ch) = ch_depth (chans st !!! ch) ∧
    full_slots st' ≤ n) as Hsh.
  { intros st' S. pose proof (sh_full _ _ S). destruct (sh_shape _ _ S) as [C M]. split_and!; [by apply C|apply M|lia]. }
  eapply wp_mono; [apply (wp_for Inv)|]; [|split; [done|apply shrinks_refl]|].
  { intros r st1 Hr I1. eapply wp_mono; [apply (wp_for Inv); [|exact I1]|by intros].
    intros i st2 Hi I2. eapply wp_mono; [apply (wp_for Inv); [|exact I2]|by intros].
    intros c st3 Hc [K3 S3]. destruct (Hsh _ S3) as (Hok3 & Hd3 & Hn3). rewrite wp_bind.
    apply wp_chan_ring_cap; [done|lia|lia|lia|]. intros s.
    eapply wp_mono; [by apply (delete_if_full_kinv n)|]. cbv beta. intros _ st4 (K4 & S4 & _).
    split; [done|by eapply shrinks_trans]. }
  cbv beta. intros _ st1 I1. eapply wp_mono; [apply (wp_for Inv)|]; [|exact I1|by intros].
  intros e st2 He I2. eapply wp_mono; [apply (wp_for Inv); [|exact I2]|by intros].
  intros ev st3 Hev [K3 S3]. destruct (Hsh _ S3) as (Hok3 & _ & _).
  eapply wp_mono; [apply (release_binding_kinv _ no_refs no_ends); [done|done|done|lia|lia]|].
  cbv beta. intros _ st4 (K4 & S4). split; [done|by eapply shrinks_trans].
Qed.
End destroy_spec.
