(* ===== verification/Thread.v ===== *)
(** Threads ([kcore/src/thread.rs]): the terminal report and its bindings,
    priority under a ceiling, binding a notification to a thread's end, and the
    teardown of a thread. *)

From S2P Require Import Prelude KStore Ready Census Notif Timer Irq Cdt Aspace Kinv Refs.

Definition BIND_EXIT : nat := 0.
Definition BIND_FAULT : nat := 1.

(** ** Operations *)
Definition report_terminal (t : ObjId) (r : Report.report) : K unit :=
  cur ← tcb_report t;
  match cur with
  | Report.Running =>
      set_tcb_report t r;;
      match r with
      | Report.Running => mret tt
      | Report.Exited _ | Report.Faulted _ _ =>
          let which := match r with Report.Exited _ => BIND_EXIT | _ => BIND_FAULT end in
          s ← tcb_bind_slot t which;
          v ← slot s;
          match kind (cap v) with
          | CapKind.Notification n =>
              bits ← tcb_bind_bits t which;
              signal n bits
          | _ => mret tt
          end
      end
  | _ => mret tt
  end.

Definition set_priority (t : ObjId) (prio ceiling : Z) : K (result unit unit) :=
  if ceiling <? prio then mret (Err tt)
  else set_tcb_priority t prio;; mret (Ok tt).

Section teardown.
Context (delete : SlotId → K unit).

(** [thread::bind] *)
Definition thread_bind (t : ObjId) (which : nat) (notif_src : option SlotId) (bits : Z) : K unit :=
  s ← tcb_bind_slot t which;
  delete_if_full delete s;;
  set_tcb_bind_bits t which bits;;
  match notif_src with
  | Some src => slot_move src s
  | None => mret tt
  end.

(** The first part of [destroy_tcb]: off whatever queue the thread is on. *)
Definition dequeue_tcb (t : ObjId) : K unit :=
  s ← tcb_state t;
  match s with
  | ThreadState.Runnable => unqueue_ready t
  | ThreadState.BlockedNotif =>
      wn ← tcb_wait_notif t;
      match wn with
      | Some wn => remove_waiter wn t
      | None => mret tt
      end
  | _ => mret tt
  end.

Definition destroy_tcb (t : ObjId) : K unit :=
  dequeue_tcb t;;
  set_tcb_qnext t None;;
  set_tcb_wait_notif t None;;
  set_tcb_state t ThreadState.Halted;;
  s0 ← tcb_bind_slot t 0;
  delete_if_full delete s0;;
  s1 ← tcb_bind_slot t 1;
  delete_if_full delete s1;;
  cs ← tcb_cspace t;
  (match cs with
   | Some cs => set_tcb_cspace t None;; unref_cspace delete cs
   | None => mret tt
   end);;
  a ← tcb_aspace t;
  match a with
  | Some a => set_tcb_aspace t None;; unref_aspace a
  | None => mret tt
  end.
End teardown.

(** ** Lemmas: threads and the scheduler invariant *)

(** What the queues see of a thread. *)
Definition sched_part (o : Tcb) : ThreadState.thread_state * option ObjId * option ObjId * Z :=
  (t_state o, t_qnext o, t_wait_notif o, t_priority o).

Lemma sched_inv_same st st' rq wq E :
  notifs st' = notifs st → ready st' = ready st → ready_bits st' = ready_bits st →
  (∀ u, sched_part (tcbs st' !!! u) = sched_part (tcbs st !!! u)) →
  sched_inv st rq wq E → sched_inv st' rq wq E.
Proof.
  intros En Er Eb Hu [R C N P]. assert (∀ u, t_state (tcbs st' !!! u) = t_state (tcbs st !!! u) ∧
    t_qnext (tcbs st' !!! u) = t_qnext (tcbs st !!! u) ∧ t_wait_notif (tcbs st' !!! u) = t_wait_notif (tcbs st !!! u) ∧
    t_priority (tcbs st' !!! u) = t_priority (tcbs st !!! u)) as Hp.
  { intros u. specialize (Hu u). unfold sched_part in Hu. split_and!; congruence. }
  split.
  - apply (ready_repr_ext st rq R); [done..|]. intros k u _. split_and!; apply Hp.
  - intros t. destruct (Hp t) as (-> & _ & _ & ->). apply C.
  - destruct N as [N1 N2 N3 N4]. split; rewrite ?En; try done.
    + intros n. eapply queue_ext; [|apply N1]. intros u _. apply Hp.
    + intros n t. destruct (Hp t) as (-> & _ & -> & _). apply N2.
    + intros n t. destruct (Hp t) as (_ & _ & -> & _). apply N3.
  - intros t. destruct (Hp t) as (_ & _ & _ & ->). apply P.
Qed.

(** A thread on no queue may change as it likes, short of becoming runnable. *)
Lemma sched_inv_off st rq wq E t g :
  sched_inv st rq wq E → off_queues rq wq t →
  t_wait_notif (g (tcbs st !!! t)) = None → 0 ≤ t_priority (g (tcbs st !!! t)) < 32 →
  t_state (g (tcbs st !!! t)) ≠ ThreadState.Runnable →
  sched_inv (with_tcbs (λ m, <[t := g (m !!! t)]> m) st) rq wq (E ∖ {[t]}).
Proof.
  intros [R C N P] [Hr Hw] Gw Gp Gs.
  assert (∀ u, u ≠ t → tcbs (with_tcbs (λ m, <[t := g (m !!! t)]> m) st) !!! u = tcbs st !!! u) as Hu
    by (intros u Hne; cbn; by lk).
  split.
  - apply (ready_repr_ext st rq R); [done..|]. intros k u Hin. rewrite Hu; [done|]. intros ->. by apply (Hr k).
  - intros u. cbn. destruct (decide (u = t)) as [->|Hne]; lk; [done|]. intros Hs HE. apply C; [done|]. set_solver.
  - destruct N as [N1 N2 N3 N4]. split; try done; cbn.
    + intros n. eapply queue_ext; [|apply N1]. intros u Hin. cbv beta. f_equal. apply Hu. intros ->. by apply (Hw n).
    + intros n u Hin. assert (u ≠ t) as Hne by (intros ->; by apply (Hw n)). lk. by apply N2.
    + intros n u. destruct (decide (u = t)) as [->|Hne]; lk; [congruence|apply N3].
  - intros u. cbn. destruct (decide (u = t)) as [->|Hne]; lk; [done|apply P].
Qed.

Section queues.
Context (st : Store) (rq : nat → list ObjId) (wq : ObjId → list ObjId) (E : gset ObjId).
Hypothesis I : sched_inv st rq wq E.

Lemma off_no_wait t : off_queues rq wq t → t_wait_notif (tcbs st !!! t) = None.
Proof using I.
  intros [_ Hw]. destruct (t_wait_notif _) as [n|] eqn:Ew; [|done].
  by apply (nr_complete _ _ (si_notif _ _ _ _ I)) in Ew; apply Hw in Ew.
Qed.

Lemma not_ready t k : t_state (tcbs st !!! t) ≠ ThreadState.Runnable → t ∉ rq k.
Proof using I. intros Hs [Hr _]%(rr_in _ _ (si_ready _ _ _ _ I)). done. Qed.

(** A thread that waits on nothing and is not runnable is on no queue. *)
Lemma stopped_off t :
  t_state (tcbs st !!! t) ≠ ThreadState.Runnable →
  (t_state (tcbs st !!! t) = ThreadState.BlockedNotif → t_wait_notif (tcbs st !!! t) = None) →
  off_queues rq wq t.
Proof using I.
  intros Hr Hb. split; [intros k; by apply not_ready|].
  intros m [Hs Hw]%(nr_in _ _ (si_notif _ _ _ _ I)). specialize (Hb Hs). congruence.
Qed.

(** A ready thread taken off its queue: it alone is runnable without being queued. *)
Lemma unqueued_inv st' t lvl l1 l2 :
  E = ∅ → rq lvl = l1 ++ t :: l2 → unqueued st rq lvl (l1 ++ l2) st' →
  sched_inv st' (<[lvl := l1 ++ l2]> rq) wq {[t]} ∧ off_queues (<[lvl := l1 ++ l2]> rq) wq t.
Proof using I.
  intros HE Hl (F & R' & Hst & Hsame). pose proof (si_ready _ _ _ _ I) as R.
  assert (t ∈ rq lvl) as Htin by (rewrite Hl; clear; set_solver). destruct (rr_in _ _ R lvl t Htin) as [_ Hpt].
  assert (t ∉ l1 ++ l2) as Hnin.
  { destruct (decide (lvl < NUM_PRIOS)%nat) as [Hlvl|Hlvl]; [|rewrite (rr_out _ _ R lvl) in Htin by lia; by apply elem_of_nil in Htin].
    destruct (ready_level _ _ R lvl Hlvl) as [q Hq]. pose proof (rr_queue _ _ R lvl q Hq) as [HN%chain_NoDup _]. rewrite Hl in HN.
    apply NoDup_app in HN as (_ & H1 & H2). apply NoDup_cons in H2 as [H2 _]. clear -H1 H2. set_solver. }
  assert (∀ k, t ∉ (<[lvl := l1 ++ l2]> rq) k) as Hoff.
  { intros k. destruct (decide (k = lvl)) as [->|Hne]; [by rewrite fn_lookup_insert|].
    rewrite fn_lookup_insert_ne by done. intros [_ Hk]%(rr_in _ _ R). apply Hne. lia. }
  assert (∀ n, t ∉ wq n) as Hwoff by (intros n Hin; by eapply waiter_not_ready).
  split; [|by split]. assert (∀ u, t_priority (tcbs st' !!! u) = t_priority (tcbs st !!! u)) as Hprio
    by (intros u; apply (f_equal t_priority (sf_core _ _ F u))).
  split; [done| | |intros u; rewrite Hprio; apply (si_prio _ _ _ _ I)].
  - intros u. rewrite Hst, Hprio.
    intros Hu Hne. destruct (si_complete _ _ _ _ I u Hu) as [Hpu Hinu]; [subst; set_solver|]. split; [done|].
    destruct (decide (Z.to_nat (t_priority (tcbs st !!! u)) = lvl)) as [Hk|Hk]; [|by rewrite fn_lookup_insert_ne].
    rewrite Hk, Hl in Hinu. rewrite Hk, fn_lookup_insert. clear -Hinu Hne. set_solver.
  - eapply (notif_repr_sched st st' wq t (si_notif _ _ _ _ I) F Hwoff); [by intros; apply Hst|].
    intros n u Hin. rewrite Hsame; [done|]. by eapply waiter_not_ready.
Qed.

(** [destroy_tcb] first takes the thread off its queue, whichever it is. *)
Lemma dequeue_tcb_spec b t :
  E = ∅ → refs_bal st b → (∀ o, 0 ≤ b o) →
  wp (dequeue_tcb t) (λ _ st', wake_frame st st' ∧ (∀ u, t_state (tcbs st' !!! u) = t_state (tcbs st !!! u)) ∧
    ∃ rq' wq', sched_inv st' rq' wq' {[t]} ∧ off_queues rq' wq' t) st.
Proof using I.
  intros HE Hb Hnn. assert (sched_inv st rq wq {[t]}) as I' by (eapply sched_inv_mono; [|exact I]; set_solver).
  unfold dequeue_tcb, tcb_state. wp_step.
  destruct (t_state (tcbs st !!! t)) eqn:Hs;
    try (wp_step; split_and!; [apply wake_frame_refl|done|]; exists rq, wq; split; [done|]; apply stopped_off; congruence).
  - destruct (si_complete _ _ _ _ I t Hs) as [Hp Hin]; [subst; set_solver|].
    apply list_elem_of_split in Hin as (l1 & l2 & Hl).
    eapply wp_mono; [by apply (ready_unqueue_spec _ _ (si_ready _ _ _ _ I) t l1 l2)|].
    cbv beta. intros _ st' U. split_and!; [apply wake_frame_sched, U|apply U|]. exists (<[Z.to_nat (t_priority (tcbs st !!! t)) := l1 ++ l2]> rq), wq.
    by apply (unqueued_inv st' t).
  - unfold tcb_wait_notif. wp_step. destruct (t_wait_notif (tcbs st !!! t)) as [n|] eqn:Hw.
    + pose proof (nr_complete _ _ (si_notif _ _ _ _ I) n t Hw) as Hin.
      pose proof (waiter_refs _ _ _ _ I b n t Hb (Hnn n) Hin) as Hr.
      apply list_elem_of_split in Hin as (l1 & l2 & Hl).
      eapply wp_mono; [by apply (remove_waiter_spec _ _ _ _ I n t l1 l2)|].
      cbv beta. intros _ st' (I1 & F & Hoff & _ & Hst & _). split_and!; [done|done|]. exists rq, (<[n := l1 ++ l2]> wq).
      split; [|done]. eapply sched_inv_mono; [|exact I1]. subst. set_solver.
    + wp_step. split_and!; [apply wake_frame_refl|done|]. exists rq, wq. split; [done|]. apply stopped_off; congruence.
Qed.
End queues.

(** ** Lemmas: threads and the kernel invariant *)

(** A thread changed outside the scheduler's part of it. *)
Lemma kinv_upd_tcb st b b' eb t g :
  kinv_bal st b eb →
  (∀ o, sched_part (g o) = sched_part o ∧ t_bind_slots (g o) = t_bind_slots o ∧
     length (t_bind_bits (g o)) = length (t_bind_bits o)) →
  (∀ cs, t_cspace (g (tcbs st !!! t)) = Some cs → t_cspace (tcbs st !!! t) = Some cs) →
  (∀ a, t_aspace (g (tcbs st !!! t)) = Some a → t_aspace (tcbs st !!! t) = Some a) →
  (∀ o, b' o = b o + tcb_refs o (tcbs st !!! t) - tcb_refs o (g (tcbs st !!! t))) →
  kinv_bal (with_tcbs (λ m, <[t := g (m !!! t)]> m) st) b' eb ∧
  shrinks st (with_tcbs (λ m, <[t := g (m !!! t)]> m) st).
Proof.
  intros [C R Ee (rq & wq & S) [tl T] Iq Sh] Hg Hc Ha Hb. set (st' := with_tcbs _ st).
  assert (∀ u, sched_part (tcbs st' !!! u) = sched_part (tcbs st !!! u) ∧
    t_bind_slots (tcbs st' !!! u) = t_bind_slots (tcbs st !!! u) ∧
    length (t_bind_bits (tcbs st' !!! u)) = length (t_bind_bits (tcbs st !!! u))) as Hu.
  { intros u. cbn. destruct (decide (u = t)) as [->|]; by lk. }
  assert (shape_le st st') as L.
  { split; try done.
    - intros u. unfold tcb_ok. by destruct (Hu u) as (_ & -> & ->).
    - intros u. by destruct (Hu u) as (_ & -> & _). }
  split; [|apply shrinks_slots; [done|done|]].
  2:{ intros u. cbn. destruct (decide (u = t)) as [->|]; lk; [|apply thread_le_refl].
      split; [done|done|]. left; left. by destruct (Hg (tcbs st !!! t)) as ([= -> _] & _). }
  split; try done.
  - intros o. unfold st'. rewrite census_upd_tcb. cbn. rewrite R, Hb. lia.
  - exists rq, wq. apply (sched_inv_same st); [done..| |done]. intros u. apply Hu.
  - exists tl. by apply (timer_repr_ext st).
  - apply (shape_ext st); [done|done| |done]. intros u. cbn.
    destruct (decide (u = t)) as [->|]; lk; done.
Qed.

(** The dying thread leaves its queue and stops. *)
Definition halt_tcb (o : Tcb) : Tcb :=
  tcb_set_state ThreadState.Halted (tcb_set_wait_notif None (tcb_set_qnext None o)).

Lemma wp_tcb_bind_slot st t w Q :
  tcb_ok st t → (w < 2)%nat → (∀ s, t_bind_slots (tcbs st !!! t) !! w = Some s → Q s st) →
  wp (tcb_bind_slot t w) Q st.
Proof.
  intros [H _] Hw HQ. destruct (lookup_lt_is_Some_2 (t_bind_slots (tcbs st !!! t)) w) as [s Hs]; [lia|].
  unfold tcb_bind_slot. wp_step. eapply wp_index; [exact Hs|by apply HQ].
Qed.

Lemma halt_run t st :
  with_tcbs (λ m, <[t := tcb_set_state ThreadState.Halted (m !!! t)]> m)
    (with_tcbs (λ m, <[t := tcb_set_wait_notif None (m !!! t)]> m)
      (with_tcbs (λ m, <[t := tcb_set_qnext None (m !!! t)]> m) st)) =
  with_tcbs (λ m, <[t := halt_tcb (m !!! t)]> m) st.
Proof. unfold with_tcbs. cbn. by rewrite !lookup_total_insert_eq, !insert_insert_eq. Qed.

(** [dequeue_tcb] in the middle of an operation. *)
Lemma dequeue_tcb_kinv st b eb t :
  kinv_bal st b eb → (∀ o, 0 ≤ b o) → pinned st !!! t = 0%nat →
  wp (dequeue_tcb t) (λ _ st', let st1 := with_tcbs (λ m, <[t := halt_tcb (m !!! t)]> m) st' in
    kinv_bal st1 b eb ∧ shrinks st st1) st.
Proof.
  intros K Hb Hpin. destruct (ki_sched _ _ _ K) as (rq & wq & I).
  eapply wp_mono; [by apply (dequeue_tcb_spec _ _ _ _ I b t); [|apply K|]|].
  cbv beta zeta. intros _ st1 (F & Hst & rq1 & wq1 & I1 & Hoff1).
  set (st2 := with_tcbs _ st1). assert (wake_frame st st2) as F2.
  { eapply wake_frame_trans; [exact F|]. pose proof (off_no_wait _ _ _ _ I1 _ Hoff1) as Hw.
    split; try done; cbn.
    - intros u. destruct (decide (u = t)) as [->|]; by lk.
    - intros b' Hb' o. unfold st2. rewrite census_upd_tcb. cbn. rewrite Hb'. unfold tcb_refs. cbn. rewrite Hw. lia. }
  split; [|apply shrinks_slots; [apply F2|by apply shape_le_wake|]].
  2:{ intros u. pose proof (wf_tcb _ _ F2 u) as E. unfold tcb_fixed in E. split; [congruence..|].
      cbn. destruct (decide (u = t)) as [->|]; lk; [by right|left; left; apply Hst]. }
  eapply kinv_wake_frame; [exact K|exact F2|]. exists rq1, wq1.
  eapply sched_inv_mono; [|apply (sched_inv_off _ _ _ _ t halt_tcb I1 Hoff1); [done|apply (si_prio _ _ _ _ I1)|done]]. set_solver.
Qed.

(** A thread gives up its hold on its CSpace or its address space. *)
Lemma drop_tcb_cspace st t cs :
  kinv st → t_cspace (tcbs st !!! t) = Some cs →
  let st' := with_tcbs (λ m, <[t := tcb_set_cspace None (m !!! t)]> m) st in
  kinv_bal st' (held cs) no_ends ∧ shrinks st st'.
Proof.
  intros K E. apply (kinv_upd_tcb st no_refs); [done|done|done|done|]. intros o. unfold tcb_refs, held, no_refs. cbn.
  rewrite E, (ind_false (None = Some o)) by done. unfold ind. repeat case_decide; simplify_eq; lia.
Qed.

Lemma drop_tcb_aspace st t a :
  kinv st → t_aspace (tcbs st !!! t) = Some a →
  let st' := with_tcbs (λ m, <[t := tcb_set_aspace None (m !!! t)]> m) st in
  kinv_bal st' (held a) no_ends ∧ shrinks st st'.
Proof.
  intros K E. apply (kinv_upd_tcb st no_refs); [done|done|done|done|]. intros o. unfold tcb_refs, held, no_refs. cbn.
  rewrite E, (ind_false (None = Some o)) by done. unfold ind. repeat case_decide; simplify_eq; lia.
Qed.

Section teardown_spec.
Context (n : Z) (delete : SlotId → K unit) `{!DeleteSpec n delete}.

(** Teardown of a thread: off its queue, bindings deleted, its CSpace and
    address space released. *)
Lemma destroy_tcb_kinv st t :
  kinv st → tcb_ok st t → full_slots st ≤ n → pinned st !!! t = 0%nat →
  wp (destroy_tcb delete t) (λ _ st', kinv st' ∧ shrinks st st') st.
Proof using All.
  intros K Hok Hn Hpin. unfold destroy_tcb. rewrite wp_bind.
  eapply wp_mono; [by apply (dequeue_tcb_kinv _ no_refs no_ends)|]. cbv beta zeta. intros _ st1.
  unfold set_tcb_qnext, set_tcb_wait_notif, set_tcb_state, upd_tcb. wp_step. rewrite halt_run.
  set (st2 := with_tcbs _ st1). intros [K2 S2].
  assert (∀ st', shrinks st st' → tcb_ok st' t ∧ full_slots st' ≤ n) as Hsh.
  { intros st' S. pose proof (sh_full _ _ S). split; [by apply (sl_tcb _ _ (sh_shape _ _ S))|lia]. }
  destruct (Hsh _ S2) as [Hok2 Hn2].
  apply wp_tcb_bind_slot; [done|lia|]. intros s0 _. rewrite wp_bind.
  eapply wp_mono; [by apply (delete_if_full_kinv n)|]. cbv beta. intros _ st3 (K3 & S3 & _).
  apply (shrinks_trans _ _ _ S2) in S3. destruct (Hsh _ S3) as [Hok3 Hn3]. rewrite wp_bind.
  apply wp_tcb_bind_slot; [done|lia|]. intros s1 _. rewrite wp_bind.
  eapply wp_mono; [by apply (delete_if_full_kinv n)|]. cbv beta. intros _ st4 (K4 & S4 & _).
  apply (shrinks_trans _ _ _ S3) in S4. destruct (Hsh _ S4) as [Hok4 Hn4].
  unfold tcb_cspace at 1. wp_step.
  eapply (wp_mono _ (λ _ st', kinv st' ∧ shrinks st st')).
  { destruct (t_cspace (tcbs st4 !!! t)) as [cs|] eqn:Ecs; [|by wp_step].
    unfold set_tcb_cspace, upd_tcb. wp_step.
    destruct (drop_tcb_cspace st4 t cs K4 Ecs) as [K5 S5].
    eapply wp_mono; [apply (unref_cspace_kinv n delete _ _ K5)|].
    - by apply (sp_cspace _ (ki_shape _ _ _ K4) t).
    - pose proof (sh_full _ _ S5). lia.
    - cbv beta. intros _ st6 [K6 S6]. split; [done|]. eapply shrinks_trans; [exact S4|by eapply shrinks_trans]. }
  cbv beta. intros _ st5 [K5 S5]. unfold tcb_aspace. wp_step.
  destruct (t_aspace (tcbs st5 !!! t)) as [a|] eqn:Ea; [|by wp_step].
  unfold set_tcb_aspace, upd_tcb. wp_step. destruct (drop_tcb_aspace st5 t a K5 Ea) as [K6 S6].
  eapply wp_mono; [by apply (unref_aspace_kinv _ _ no_refs no_ends a K6)|].
  cbv beta. intros _ st7 [K7 S7]. split; [done|]. eapply shrinks_trans; [exact S5|by eapply shrinks_trans].
Qed.
End teardown_spec.

(** ** Reports, priorities and bindings *)

(** The binding a terminal report fires. *)
Definition report_binding (st : Store) (t : ObjId) (r : Report.report) : option (ObjId * Z) :=
  let which := match r with Report.Exited _ => BIND_EXIT | _ => BIND_FAULT end in
  s ← t_bind_slots (tcbs st !!! t) !! which;
  bits ← t_bind_bits (tcbs st !!! t) !! which;
  match kind (cap (slots st !!! s)) with CapKind.Notification n => Some (n, bits) | _ => None end.

Lemma set_report_kinv st b eb t r :
  kinv_bal st b eb → let st' := with_tcbs (λ m, <[t := tcb_set_report r (m !!! t)]> m) st in
  kinv_bal st' b eb ∧ shrinks st st'.
Proof. intros K. apply (kinv_upd_tcb st b); try done. intros o. unfold tcb_refs. cbn. lia. Qed.

Lemma report_terminal_kinv st t r :
  kinv st → tcb_ok st t → r ≠ Report.Running → t_report (tcbs st !!! t) = Report.Running →
  wp (report_terminal t r) (λ _ st', kinv st' ∧ shrinks st st' ∧ slots st' = slots st ∧ t_report (tcbs st' !!! t) = r ∧
    (∀ u, u ≠ t → t_report (tcbs st' !!! u) = t_report (tcbs st !!! u)) ∧
    match report_binding st t r with
    | Some (n, bits) => signalled (with_tcbs (λ m, <[t := tcb_set_report r (m !!! t)]> m) st) n bits st'
    | None => notifs st' = notifs st
    end) st.
Proof.
  intros K Hok Hr Hrun. unfold report_terminal, tcb_report. wp_step. rewrite Hrun. unfold set_tcb_report, upd_tcb. wp_step.
  destruct (set_report_kinv st no_refs no_ends t r K) as [K1 S1]. set (st1 := with_tcbs _ st) in *.
  assert (tcb_ok st1 t) as Hok1 by (by apply (sl_tcb _ _ (sh_shape _ _ S1))).
  assert (t_report (tcbs st1 !!! t) = r) as Hr1 by (cbn; by lk).
  assert (∀ u, u ≠ t → tcbs st1 !!! u = tcbs st !!! u) as Hu1 by (intros u Hu; cbn; by lk).
  set (which := match r with Report.Exited _ => BIND_EXIT | _ => BIND_FAULT end).
  assert (which < 2)%nat as Hw by (by unfold which; destruct r; unfold BIND_EXIT, BIND_FAULT; lia).
  destruct (lookup_lt_is_Some_2 (t_bind_slots (tcbs st !!! t)) which) as [s Hs]; [destruct Hok; lia|].
  destruct (lookup_lt_is_Some_2 (t_bind_bits (tcbs st !!! t)) which) as [bits Hbits]; [destruct Hok; lia|].
  assert (t_bind_slots (tcbs st1 !!! t) !! which = Some s) as Hs1 by (cbn; by lk).
  assert (t_bind_bits (tcbs st1 !!! t) !! which = Some bits) as Hbits1 by (cbn; by lk).
  unfold report_binding. fold which. rewrite Hs, Hbits. cbn [mbind option_bind].
  assert (wp (s ← tcb_bind_slot t which; v ← slot s; match kind (cap v) with
      | CapKind.Notification n => bits ← tcb_bind_bits t which; signal n bits | _ => mret tt end)
    (λ _ st', kinv st' ∧ shrinks st st' ∧ slots st' = slots st ∧ t_report (tcbs st' !!! t) = r ∧
      (∀ u, u ≠ t → t_report (tcbs st' !!! u) = t_report (tcbs st !!! u)) ∧
      match match kind (cap (slots st !!! s)) with CapKind.Notification n => Some (n, bits) | _ => None end with
      | Some (n, bits) => signalled st1 n bits st' | None => notifs st' = notifs st end) st1) as Hgo.
  { unfold tcb_bind_slot, slot. wp_step. eapply wp_index; [exact Hs1|]. wp_step. cbn [slots st1 with_tcbs].
    destruct (kind (cap (slots st !!! s))); try (wp_step; split_and!; try done; intros u Hu; by rewrite Hu1).
    unfold tcb_bind_bits. wp_step. eapply wp_index; [exact Hbits1|].
    destruct (ki_sched _ _ _ K1) as (rq & wq & I).
    eapply wp_mono; [apply (signal_effect st1 rq wq ∅ no_refs _ _ I (ki_refs _ _ _ K1)); done|].
    cbv beta. intros _ st' [Hsig W]. destruct (kinv_wakes _ _ _ _ _ _ K1 W) as [K' S']. destruct W as [F _ _].
    assert (∀ u, t_report (tcbs st' !!! u) = t_report (tcbs st1 !!! u)) as Hf.
    { intros u. pose proof (wf_tcb _ _ F u) as E. unfold tcb_fixed in E. congruence. }
    split_and!; [done|by eapply shrinks_trans|apply F|by rewrite Hf| |done]. intros u Hu. by rewrite Hf, Hu1. }
  destruct r; [done|exact Hgo..].
Qed.

(** A second report changes nothing. *)
Lemma report_terminal_absorbing st t r :
  t_report (tcbs st !!! t) ≠ Report.Running → report_terminal t r st = Ret (tt, st).
Proof.
  intros Hr. unfold report_terminal, tcb_report, gets, mbind, comp_bind. by destruct (t_report (tcbs st !!! t)).
Qed.

Lemma set_priority_kinv st t prio ceiling :
  kinv st → t_state (tcbs st !!! t) ≠ ThreadState.Runnable → t_wait_notif (tcbs st !!! t) = None → 0 ≤ prio < 32 →
  wp (set_priority t prio ceiling) (λ r st', match r with
    | Ok _ => prio ≤ ceiling ∧ kinv st' ∧ st' = with_tcbs (λ m, <[t := tcb_set_priority prio (m !!! t)]> m) st
    | Err _ => ceiling < prio ∧ st' = st
    end) st.
Proof.
  intros K Hs Hw Hp. unfold set_priority. destruct (Z.ltb_spec ceiling prio); [by wp_step|].
  unfold set_tcb_priority, upd_tcb. wp_step. destruct (ki_sched _ _ _ K) as (rq & wq & I).
  assert (off_queues rq wq t) as Hoff by (by apply (stopped_off _ _ _ _ I)).
  split_and!; [done| |done].
  set (st' := with_tcbs _ st). assert (∀ u, t_bind_slots (tcbs st' !!! u) = t_bind_slots (tcbs st !!! u) ∧
    t_bind_bits (tcbs st' !!! u) = t_bind_bits (tcbs st !!! u) ∧ t_cspace (tcbs st' !!! u) = t_cspace (tcbs st !!! u) ∧
    t_aspace (tcbs st' !!! u) = t_aspace (tcbs st !!! u)) as Hu.
  { intros u. cbn. destruct (decide (u = t)) as [->|]; by lk. }
  destruct K as [C R Ee _ [tl T] Iq Sh]. split; try done.
  - intros o. unfold st'. rewrite census_upd_tcb. cbn. rewrite R. unfold tcb_refs. cbn. lia.
  - exists rq, wq. eapply sched_inv_mono; [|apply (sched_inv_off _ _ _ _ t (tcb_set_priority prio) I Hoff); done]. set_solver.
  - exists tl. by apply (timer_repr_ext st).
  - apply (shape_ext st); [|done| |done].
    + split; try done; [intros u; unfold tcb_ok; by destruct (Hu u) as (-> & -> & _)|intros u; apply Hu].
    + intros u. by destruct (Hu u) as (_ & _ & -> & ->).
Qed.

Section bind_spec.
Context (n : Z) (delete : SlotId → K unit) `{!DeleteSpec n delete}.

Lemma set_bits_kinv st b eb t which bits :
  kinv_bal st b eb → tcb_ok st t → (which < 2)%nat →
  wp (set_tcb_bind_bits t which bits) (λ _ st', kinv_bal st' b eb ∧ shrinks st st' ∧ slots st' = slots st ∧
    t_bind_bits (tcbs st' !!! t) !! which = Some bits) st.
Proof.
  intros K [_ Hok] Hw. unfold set_tcb_bind_bits, upd_tcb. wp_step. eapply wp_set_index; [lia|]. wp_step.
  set (l := <[which := bits]> (t_bind_bits (tcbs st !!! t))).
  set (st' := with_tcbs _ st). destruct K as [C R Ee (rq & wq & S) [tl T] Iq Sh].
  assert (∀ u, sched_part (tcbs st' !!! u) = sched_part (tcbs st !!! u) ∧ t_cspace (tcbs st' !!! u) = t_cspace (tcbs st !!! u) ∧
    t_aspace (tcbs st' !!! u) = t_aspace (tcbs st !!! u) ∧ t_bind_slots (tcbs st' !!! u) = t_bind_slots (tcbs st !!! u) ∧
    length (t_bind_bits (tcbs st' !!! u)) = length (t_bind_bits (tcbs st !!! u))) as Hu.
  { intros u. cbn. destruct (decide (u = t)) as [->|]; lk; [|done]. cbn. unfold l. by rewrite length_insert. }
  assert (shape_le st st') as L
    by (split; try done; [intros u; unfold tcb_ok; by destruct (Hu u) as (_ & _ & _ & -> & ->)|intros u; apply Hu]).
  split_and!; [| |done|cbn; lk; cbn; apply list_lookup_insert_eq; lia].
  - split; try done.
    + intros o. unfold st'. rewrite census_upd_tcb. cbn. rewrite R. unfold tcb_refs. cbn. lia.
    + exists rq, wq. apply (sched_inv_same st); [done..| |done]. intros u. apply Hu.
    + exists tl. by apply (timer_repr_ext st).
    + apply (shape_ext st); [done|done| |done]. intros u. by destruct (Hu u) as (_ & -> & -> & _).
  - apply shrinks_slots; [done|done|]. intros u. destruct (Hu u) as (Hp & Hc & Ha & _). unfold sched_part in Hp.
    split; [congruence|congruence|]. left. left. congruence.
Qed.

(** The old binding is deleted, the new capability, if there is one, moved in. *)
Lemma thread_bind_kinv st t which src bits s :
  kinv st → tcb_ok st t → (which < 2)%nat → full_slots st ≤ n →
  t_bind_slots (tcbs st !!! t) !! which = Some s → src ≠ Some s →
  wp (thread_bind delete t which src bits) (λ _ st', kinv st' ∧
    t_bind_bits (tcbs st' !!! t) !! which = Some bits ∧
    ∃ st1, kinv st1 ∧ shrinks st st1 ∧ ¬ occupied st1 s ∧
    match src with
    | Some x => ∃ m, st' = with_slots (λ _, m) st1 ∧ moved (slots st1) x s m
    | None => st' = st1
    end) st.
Proof using All.
  intros K Hok Hw Hn Hs Hne. unfold thread_bind. rewrite wp_bind. apply wp_tcb_bind_slot; [done..|].
  intros s' Hs'. simplify_eq. rewrite wp_bind. eapply wp_mono; [by apply (delete_if_full_kinv n)|].
  cbv beta. intros _ st1 (K1 & S1 & Ho1). rewrite wp_bind.
  eapply wp_mono; [apply (set_bits_kinv st1 no_refs no_ends); [done|by apply (sl_tcb _ _ (sh_shape _ _ S1))|done]|].
  cbv beta. intros _ st2 (K2 & S2 & E2 & Hb2). assert (¬ occupied st2 s) as Ho2 by (unfold occupied; by rewrite E2).
  pose proof (shrinks_trans _ _ _ S1 S2) as S3. destruct src as [x|].
  - eapply wp_mono; [apply (slot_move_kinv st2 no_refs no_ends); [done|congruence|done]|].
    cbv beta. intros _ st3 (m & -> & M & K3 & _). split_and!; [done|done|]. exists st2. eauto 10.
  - wp_step. eauto 10.
Qed.
End bind_spec.
