(* ===== verification/Events.v ===== *)
(** The asynchronous side of the kernel on the whole store: arming timers, binding,
    delivering and acknowledging device interrupts, waiting on a notification. Each
    operation is shown to keep the kernel invariant and to do what it is for. *)

From S2P Require Import Prelude KStore Ready Census Notif Timer Irq Cdt Aspace Kinv Refs Channel Thread.

(** A store that differs only in IRQ objects and in the hardware trace. *)
Lemma kinv_set_irq st b eb i v h :
  kinv_bal st b eb → (∀ o, irq_refs o v = irq_refs o (irqs st !!! i)) → (i_bound v = true → is_Some (i_notif v)) →
  let st' := with_hw (λ _, h) (with_irqs (<[i := v]>) st) in kinv_bal st' b eb ∧ shrinks st st'.
Proof.
  intros K Hr Hv st'. apply kinv_irq_frame; [done| |].
  - split; try done. intros b' Hb. eapply (irq_bal st st' i v b' (λ _, 0)); try done.
    + intros o. cbn. lia.
    + intros o. rewrite Hr. lia.
  - intros j. cbn. destruct (decide (j = i)) as [->|]; lk; [done|]. apply (ki_irqs _ _ _ K).
Qed.

Lemma arm_kinv st t n bits deadline :
  kinv st → refs st !!! n < U32_MAX →
  wp (arm t n bits deadline) (λ _ st', kinv st' ∧ shrinks st st' ∧ notifs st' = notifs st ∧
    (∀ tl, timer_repr st tl → timer_repr st' (t :: filter (λ u, u ≠ t) tl)) ∧
    tm_deadline (timers st' !!! t) = deadline ∧ tm_notif (timers st' !!! t) = Some n ∧ tm_bits (timers st' !!! t) = bits ∧
    (∀ u, u ≠ t → let o := timers st !!! u in let o' := timers st' !!! u in
       tm_deadline o' = tm_deadline o ∧ tm_notif o' = tm_notif o ∧ tm_bits o' = tm_bits o)) st.
Proof.
  intros K Hn. destruct (ki_timers _ _ _ K) as [tl T].
  eapply wp_mono; [apply (arm_spec st tl no_refs _ _ _ _ T (ki_refs _ _ _ K)); done|].
  cbv beta. intros _ st' (T' & F & Et & Ho). destruct (kinv_timer_frame _ _ _ _ _ K F T') as [K' S']. split_and!; try done.
  - apply F.
  - intros tl' T2. by rewrite (chain_inj _ _ _ _ (tr_chain _ _ T2) (tr_chain _ _ T)).
  - by rewrite Et.
  - by rewrite Et.
  - by rewrite Et.
Qed.

Lemma irq_bind_kinv st i n bits :
  kinv st → refs st !!! n < U32_MAX →
  wp (irq_bind i n bits) (λ _ st', kinv st' ∧ shrinks st st' ∧
    (let o := irqs st' !!! i in i_bound o = true ∧ i_notif o = Some n ∧ i_bits o = bits) ∧
    (∀ j, j ≠ i → irqs st' !!! j = irqs st !!! j)) st.
Proof.
  intros K Hn. eapply wp_mono; [apply (irq_bind_spec st no_refs (ki_irqs _ _ _ K) (ki_refs _ _ _ K)); done|].
  cbv beta. intros _ st' (I & F & Ho & Hj). destruct (kinv_irq_frame _ _ _ _ K F I) as [K' S']. done.
Qed.

(** The IRQ object an interrupt number is routed to. *)
Definition routed (st : Store) (table : list ObjId) (intid : Z) : option ObjId :=
  head (filter (λ i, i_intid (irqs st !!! i) = intid) table).

Lemma deliver_kinv st table intid :
  kinv st →
  wp (deliver table intid) (λ r st',
    match routed st table intid with
    | Some i =>
        let o := irqs st !!! i in
        if i_bound o then
          r = true ∧ kinv st' ∧ shrinks st st' ∧ hw st' = GicDisable intid :: hw st ∧
          irqs st' = <[i := MkIrq (i_intid o) (i_notif o) (i_bits o) true true]> (irqs st) ∧
          ∃ n st1, i_notif o = Some n ∧ notifs st1 = notifs st ∧ tcbs st1 = tcbs st ∧ signalled st1 n (i_bits o) st'
        else r = false ∧ st' = st
    | None => r = false ∧ st' = st
    end) st.
Proof.
  intros K. unfold deliver, irq_for_intid. wp_acc. fold (routed st table intid).
  destruct (routed st table intid) as [i|]; [|by wp_acc]. wp_acc.
  destruct (i_bound (irqs st !!! i)) eqn:Eb; [|by wp_acc].
  destruct (ki_irqs _ _ _ K i Eb) as [n Hn]. wp_acc. rewrite Hn. eapply wp_unwrap; [done|]. wp_acc.
  destruct (kinv_set_irq st no_refs no_ends i (MkIrq (i_intid (irqs st !!! i)) (Some n) (i_bits (irqs st !!! i)) true true)
    (GicDisable intid :: hw st) K) as [K1 S1]; [|done|].
  { intros o. unfold irq_refs. cbn. by rewrite Eb, Hn. }
  match goal with |- wp _ _ ?s => assert (s = with_hw (λ _, GicDisable intid :: hw st) (with_irqs (<[i := MkIrq
    (i_intid (irqs st !!! i)) (Some n) (i_bits (irqs st !!! i)) true true]>) st)) as -> by (unfold with_irqs, with_hw; cbn; by rewrite Hn, Eb) end.
  destruct (ki_sched _ _ _ K1) as (rq & wq & I1).
  eapply wp_mono; [by eapply (signal_effect _ rq wq ∅ no_refs n); [|apply K1|]|].
  cbv beta. intros _ st2 [Hs Hw]. wp_acc. destruct (kinv_wakes _ _ _ _ _ _ K1 Hw) as [K2 S2].
  split_and!; [done|done|by eapply shrinks_trans| | |].
  - by rewrite (wf_hw _ _ (wk_frame _ _ _ _ _ Hw)).
  - by rewrite (wf_irqs _ _ (wk_frame _ _ _ _ _ Hw)).
  - exists n. eexists. split; [done|]. split; [|split; [|exact Hs]]; done.
Qed.

Lemma ack_kinv st i :
  kinv st →
  wp (ack i) (λ _ st', kinv st' ∧ shrinks st st' ∧ hw st' = GicEnable (i_intid (irqs st !!! i)) :: hw st ∧
    i_masked (irqs st' !!! i) = false ∧ (∀ j, j ≠ i → irqs st' !!! j = irqs st !!! j)) st.
Proof.
  intros K. unfold ack. wp_acc. set (o := irqs st !!! i).
  destruct (kinv_set_irq st no_refs no_ends i (MkIrq (i_intid o) (i_notif o) (i_bits o) (i_bound o) false)
    (GicEnable (i_intid o) :: hw st) K) as [K1 S1]; [done|by apply (ki_irqs _ _ _ K)|].
  unfold with_hw, with_irqs in *. cbn in *. lk. cbn. split_and!; try done. intros j Hj. by lk.
Qed.

(** A thread that runs is on no queue. *)
Lemma running_off st rq wq E t :
  sched_inv st rq wq E → t_state (tcbs st !!! t) = ThreadState.Running → off_queues rq wq t.
Proof. intros I Hs. apply (stopped_off st rq wq E I); rewrite Hs; done. Qed.

Lemma wait_kinv st n cur :
  kinv st → t_state (tcbs st !!! cur) = ThreadState.Running → refs st !!! n < U32_MAX →
  wp (wait n cur) (λ r st', kinv st' ∧ wake_frame st st' ∧ n_word (notifs st' !!! n) = 0 ∧
    (∀ u, u ≠ cur → t_state (tcbs st' !!! u) = t_state (tcbs st !!! u)) ∧
    match r with
    | Some w => w = n_word (notifs st !!! n) ∧ w ≠ 0 ∧ tcbs st' = tcbs st ∧ refs st' = refs st
    | None => n_word (notifs st !!! n) = 0 ∧ t_state (tcbs st' !!! cur) = ThreadState.BlockedNotif ∧
        t_wait_notif (tcbs st' !!! cur) = Some n ∧ n_wait_tail (notifs st' !!! n) = Some cur ∧
        refs st' !!! n = refs st !!! n + 1
    end) st.
Proof.
  intros K Hs Hn. destruct (ki_sched _ _ _ K) as (rq & wq & I).
  destruct (decide (n_word (notifs st !!! n) = 0)) as [E|E].
  - eapply wp_mono; [by apply (wait_blocks st rq wq ∅ I n cur E (running_off _ _ _ _ _ I Hs) Hn)|].
    cbv beta. intros r st' (-> & I' & F & Hb & Hr & Hu).
    assert (∃ rq wq, sched_inv st' rq wq ∅) as I2 by (exists rq, (<[n := wq n ++ [cur]]> wq); eapply sched_inv_mono; [|exact I']; set_solver).
    pose proof (kinv_wake_frame _ _ _ _ K F I2) as K'. pose proof (si_notif _ _ _ _ I') as N.
    assert (cur ∈ (<[n := wq n ++ [cur]]> wq) n) as Hin by (rewrite fn_lookup_insert; set_solver).
    split_and!; try done.
    + destruct (decide (n_word (notifs st' !!! n) = 0)) as [|Hne]; [done|]. by rewrite (nr_word _ _ N n Hne) in Hin; apply elem_of_nil in Hin.
    + by apply (nr_in _ _ N).
    + destruct (nr_queue _ _ N n) as [_ ->]. rewrite fn_lookup_insert. apply last_snoc.
  - eapply wp_mono; [by apply (wait_ready st rq wq ∅ I n cur E)|].
    cbv beta. intros r st' (-> & I' & F & Ht & Hr & Hw).
    pose proof (kinv_wake_frame _ _ _ _ K F (ex_intro _ rq (ex_intro _ wq I'))) as K'. split_and!; try done. by rewrite Ht.
Qed.
