(* ===== verification/Cspace.v ===== *)
(** The capability core ([kcore/src/cspace.rs]): deriving attenuated
    capabilities, mapping frames, deletion with the teardown it triggers, and
    revocation, whole and in bounded steps. Deletion and teardown call each
    other; the recursion is bounded by the number of occupied slots, because
    every deletion empties its slot before it tears anything down. *)

From S2P Require Import Prelude KStore Ready Census Notif Timer Irq Cdt Aspace Kinv Refs Channel Thread.

(** ** Operations *)

(** The capability [derive] installs. *)
Definition derived_kind (k : CapKind.kind) (prio_ceiling : Z) : CapKind.kind :=
  match k with
  | CapKind.Frame base pages _ => CapKind.Frame base pages None
  | CapKind.Thread o mp => CapKind.Thread o (if mp <=? prio_ceiling then mp else prio_ceiling)
  | k => k
  end.

(** The capacity guards: neither count may be at its maximum. *)
Definition derive_room (c : Cap) : K bool :=
  refs_ok ← (match kind c with
    | CapKind.Aspace o | CapKind.CSpace o | CapKind.Thread o _ | CapKind.Channel o _
    | CapKind.Notification o | CapKind.Timer o | CapKind.Irq o =>
        r ← obj_refs o; mret (negb (r =? U32_MAX))
    | CapKind.Empty | CapKind.Untyped _ _ _ | CapKind.Frame _ _ _ => mret true
    end);
  if negb refs_ok then mret false
  else
    match kind c with
    | CapKind.Channel o e => n ← chan_end_caps o (end_idx e); mret (negb (n =? U32_MAX))
    | _ => mret true
    end.

Definition derive_install (src dst : SlotId) (c : Cap) : K unit :=
  d ← slot dst;
  set_slot dst (slot_set_cap c d);;
  obj_ref c;;
  cdt_insert_child src dst;;
  match kind c with
  | CapKind.Channel o e => endpoint_cap_added o e
  | _ => mret tt
  end.

Definition derive (src dst : SlotId) (mask prio_ceiling : Z) : K (result unit unit) :=
  pend ← ancestor_or_self_revoking src;
  if (pend : bool) then mret (Err tt)
  else
    s ← slot src;
    if (match kind (cap s) with CapKind.Empty | CapKind.Untyped _ _ _ => true | _ => false end)
    then mret (Err tt)
    else
      d ← slot dst;
      if negb (cap_is_empty (cap d)) then mret (Err tt)
      else
        let c := MkCap (derived_kind (kind (cap s)) prio_ceiling) (Rights.masked (rights (cap s)) mask) in
        room ← derive_room c;
        if negb room then mret (Err tt)
        else derive_install src dst c;; mret (Ok tt).

Definition map_frame (frame_slot : SlotId) (asp : ObjId) (va perms : Z) : K (result unit MapError) :=
  cs ← slot frame_slot;
  match kind (cap cs) with
  | CapKind.Frame base pages _ =>
      r ← aspace_map asp base va pages perms;
      match r with
      | Err e => mret (Err e)
      | Ok _ =>
          set_slot frame_slot
            (slot_set_cap (MkCap (CapKind.Frame base pages (Some (asp, va))) (rights (cap cs))) cs);;
          ref_aspace asp;;
          mret (Ok tt)
      end
  | _ => mret (Err BadVa)
  end.

(** Take the capability out: detach the slot from the tree, then empty it. *)
Definition delete_prepare (s : SlotId) : K Cap :=
  v ← slot s;
  cdt_unlink s;;
  set_slot s CapSlot_empty;;
  mret (cap v).

(** Drop the reference of a deleted capability, destroying the object at zero. *)
Definition unref_then (o : ObjId) (destroy : K unit) : K unit :=
  dec_ref o;;
  r ← obj_refs o;
  if r =? 0 then destroy else mret tt.

Definition obj_unref (delete : SlotId → K unit) (c : Cap) : K unit :=
  match kind c with
  | CapKind.CSpace o => unref_then o (destroy_cspace delete o)
  | CapKind.Thread o _ => unref_then o (destroy_tcb delete o)
  | CapKind.Channel o _ => unref_then o (destroy_channel delete o)
  | CapKind.Notification o => unref_then o (destroy_notif o)
  | CapKind.Timer o => unref_then o (destroy_timer o)
  | CapKind.Irq o => unref_then o (destroy_irq o)
  | CapKind.Aspace o => unref_aspace o
  | CapKind.Empty | CapKind.Untyped _ _ _ | CapKind.Frame _ _ _ => mret tt
  end.

Definition delete_body (delete : SlotId → K unit) (s : SlotId) : K unit :=
  c ← delete_prepare s;
  (match kind c with
   | CapKind.Channel ch end_ => endpoint_cap_dropped ch end_
   | _ => mret tt
   end);;
  (match kind c with
   | CapKind.Frame _ pages (Some (asp, va)) => aspace_unmap asp va pages;; unref_aspace asp
   | _ => mret tt
   end);;
  obj_unref delete c.

Fixpoint delete_fuel (fuel : nat) (s : SlotId) : K unit :=
  match fuel with
  | O => nofuel
  | S fuel' => delete_body (delete_fuel fuel') s
  end.

(** Enough fuel for every slot of the store: see [delete_spec]. *)
Definition delete (s : SlotId) : K unit :=
  fuel ← gets (λ st, S (size (slots st)));
  delete_fuel fuel s.

(** Delete a leaf below [s] while there is one. *)
Fixpoint revoke_loop (fuel : nat) (s : SlotId) : K unit :=
  v ← slot s;
  match first_child v with
  | None => mret tt
  | Some first =>
      match fuel with
      | O => nofuel
      | S fuel' =>
          leaf ← descend_to_leaf first;
          delete leaf;;
          revoke_loop fuel' s
      end
  end.

Definition revoke (s : SlotId) : K unit :=
  fuel ← gets (λ st, size (slots st));
  revoke_loop fuel s.

Module RevokeStatus.
Inductive status : Type := Done | More.
End RevokeStatus.

(** [while n < budget && first_child.is_some()] *)
Fixpoint step_loop (left : nat) (s : SlotId) : K unit :=
  match left with
  | O => mret tt
  | S left' =>
      v ← slot s;
      match first_child v with
      | None => mret tt
      | Some first =>
          leaf ← descend_to_leaf first;
          delete leaf;;
          step_loop left' s
      end
  end.

Definition revoke_step (s : SlotId) (budget : nat) : K RevokeStatus.status :=
  step_loop budget s;;
  root ← slot s;
  match first_child root with
  | Some _ => set_slot s (slot_set_revoking true root);; mret RevokeStatus.More
  | None => set_slot s (slot_set_revoking false root);; mret RevokeStatus.Done
  end.

(** A caller that re-issues a revocation as long as it is told to. *)
Fixpoint revoke_quanta (n : nat) (s : SlotId) (budget : nat) : K RevokeStatus.status :=
  r ← revoke_step s budget;
  match r, n with
  | RevokeStatus.More, S n' => revoke_quanta n' s budget
  | _, _ => mret r
  end.

(** ** Deletion *)

Lemma cap_bal_nonneg c o : 0 ≤ cap_bal c o.
Proof. apply cap_refs_nonneg. Qed.

(** The capability is in flight: out of its slot, its references not yet dropped. *)
Lemma delete_prepare_kinv st s :
  kinv st → occupied st s →
  wp (delete_prepare s) (λ c st', c = cap (slots st !!! s) ∧ cap_ok st c ∧ kinv_bal st' (cap_bal c) (cap_ends c) ∧
    shrinks st st' ∧ full_slots st' = full_slots st - 1 ∧ ¬ occupied st' s) st.
Proof.
  intros K Ho. destruct (ki_cdt _ _ _ K) as [kids R]. unfold delete_prepare, slot, set_slot. wp_step.
  eapply wp_mono; [by apply cdt_unlink_spec|]. cbv beta. intros _ st1 (m & -> & U). wp_step.
  set (c := cap (slots st !!! s)). set (m' := <[s := CapSlot_empty]> m).
  change (with_slots (<[s:=CapSlot_empty]>) (with_slots (λ _, m) st)) with (with_slots (λ _, m') st).
  assert (∀ f : CapSlot → Z, f CapSlot_empty = 0 → (∀ v v', cap v = cap v' → f v = f v') →
    msum f m' = msum f (slots st) - f (slots st !!! s)) as Hsum.
  { intros f Hd Hf. unfold m'. rewrite msum_insert by done.
    rewrite (msum_ext f (slots st) m) by (done || intros k; apply Hf, U). rewrite (Hf (m !!! s) (slots st !!! s)) by apply U. lia. }
  assert (∀ x, x ≠ s → cap (m' !!! x) = cap (slots st !!! x)) as Hcap.
  { intros x Hx. unfold m'. lk. apply U. }
  assert (full_slots (with_slots (λ _, m') st) = full_slots st - 1) as Hfull.
  { unfold full_slots at 1. cbn. rewrite Hsum; [|done|by intros v v' E; unfold slot_full; rewrite E].
    unfold slot_full at 2. unfold occupied in Ho. rewrite Ho. done. }
  assert (¬ occupied (with_slots (λ _, m') st) s) as Hs.
  { unfold occupied. cbn. unfold m'. by lk. }
  split_and!; try done.
  - apply (ki_shape _ _ _ K).
  - eapply kinv_with_slots; [exact K|by eapply unlinked_clear| | |].
    + intros o. rewrite Hsum; [unfold cap_bal, no_refs, c, slot_refs; lia|done|].
      intros v v' E. unfold slot_refs. by rewrite E.
    + intros ch e. rewrite Hsum; [unfold cap_ends, no_ends, c, end_refs; lia|done|].
      intros v v' E. unfold end_refs. by rewrite E.
    + intros x. unfold m'. destruct (decide (x = s)) as [->|Hx]; lk; [done|].
      rewrite (ul_cap _ _ _ _ U). apply (ki_shape _ _ _ K).
  - split; try done.
    + intros x Hx. apply Hcap. intros ->. done.
    + intros a x Ha Hx Hd. cbn. assert (a ≠ s ∧ x ≠ s) as [Ha' Hx'] by (split; intros ->; done).
      assert (descends m a x) as Hd' by (by eapply unlink_descends).
      eapply rtc_subrel; [|exact Hd']. intros y z. unfold child_of, m'.
      destruct (decide (z = s)) as [->|Hz]; lk; [|done]. intros Hp.
      destruct (ul_self _ _ _ _ U) as (Hp' & _). congruence.
    + lia.
    + intros t. apply thread_le_refl.
Qed.

(** Unmapping and releasing the address space of a mapped frame. *)
Lemma aspace_step_kinv st b eb asp a h :
  kinv_bal st b eb → aspace_wf a →
  let st' := with_hw (λ _, h) (with_aspaces (<[asp := a]>) st) in kinv_bal st' b eb ∧ shrinks st st'.
Proof.
  intros [C R Ee (rq & wq & S) [tl T] Iq Sh] Hw st'.
  assert (shape_le st st') as L.
  { split; try done. intros x Hx. cbn. destruct (decide (x = asp)) as [->|]; by lk. }
  split; [|by apply shrinks_same]. split; try done.
  - exists rq, wq. by apply (sched_inv_ext st).
  - exists tl. by apply (timer_repr_ext st).
  - by apply (shape_ext st).
Qed.

Section unref_spec.
Context (n : Z) (del : SlotId → K unit) `{!DeleteSpec n del}.

(** The last reference to an object triggers its teardown, any other only
    lowers the count. *)
Lemma unref_then_kinv st o destroy :
  kinv_bal st (held o) no_ends →
  (∀ st', kinv st' → shrinks st st' → pinned st' !!! o = 0%nat → wp destroy (λ _ st2, kinv st2 ∧ shrinks st' st2) st') →
  wp (unref_then o destroy) (λ _ st', kinv st' ∧ shrinks st st') st.
Proof.
  intros K Hd. unfold unref_then. rewrite wp_bind.
  eapply wp_mono; [by apply (dec_ref_kinv st (held o) no_refs no_ends o K)|].
  cbv beta. intros _ st1 (K1 & S1 & _). unfold obj_refs. wp_step.
  destruct (Z.eqb_spec (refs st1 !!! o) 0) as [E|]; [|by wp_step].
  assert (pinned st1 !!! o = 0%nat) as Hpin.
  { pose proof (pinned_le st1 o) as Hp. rewrite (ki_refs _ _ _ K1) in E. unfold no_refs in E. lia. }
  eapply wp_mono; [by apply Hd|]. cbv beta. intros _ st2 [K2 S2]. split; [done|by eapply shrinks_trans].
Qed.

Lemma cap_bal_obj c o : cap_obj c = Some o → cap_frame_aspace c = None → ∀ o', cap_bal c o' = held o o'.
Proof.
  intros E1 E2 o'. unfold cap_bal, cap_refs, held. rewrite E1, E2, (ind_false (None = Some o')) by done.
  unfold ind. repeat case_decide; simplify_eq; lia.
Qed.

Lemma obj_unref_kinv st c :
  kinv_bal st (λ o, ind (cap_obj c = Some o)) no_ends → cap_ok st c → full_slots st ≤ n →
  wp (obj_unref del c) (λ _ st', kinv st' ∧ shrinks st st') st.
Proof using All.
  intros K Hok Hn. assert (∀ o, cap_obj c = Some o → kinv_bal st (held o) no_ends) as Ho.
  { intros o E. eapply kinv_bal_ext; [|done|exact K]. intros o'. cbv beta. rewrite E. unfold held, ind.
    repeat case_decide; simplify_eq; done. }
  assert (∀ st', shrinks st st' → cap_ok st' c ∧ full_slots st' ≤ n) as Hsh.
  { intros st' S. pose proof (sh_full _ _ S). split; [by eapply cap_ok_le; [apply S|]|lia]. }
  assert (cap_obj c = None → kinv st) as Hnone.
  { intros E. eapply kinv_bal_ext; [|done|exact K]. intros o. cbv beta. by rewrite E, ind_false. }
  unfold obj_unref, cap_obj, cap_ok in *. destruct (kind c) as [| |? ? ?|o|o|o ?|o ?|o|o|o];
    try (wp_step; split; [by apply Hnone|apply shrinks_refl]).
  all: specialize (Ho o eq_refl).
  2-7: apply unref_then_kinv; [done|]; intros st' K' S' Hpin; destruct (Hsh _ S') as [Hok' Hn'].
  - by apply (unref_aspace_kinv _ (held o)).
  - eapply wp_mono; [by apply (destroy_cspace_kinv n)|]. cbv beta. by intros _ ? (? & ? & _).
  - by apply (destroy_tcb_kinv n).
  - by apply (destroy_channel_kinv n).
  - unfold destroy_notif. wp_step. split; [done|apply shrinks_refl].
  - destruct (ki_timers _ _ _ K') as [tl T]. unfold destroy_timer.
    eapply wp_mono; [by apply (disarm_any _ _ T no_refs); [apply K'|]|].
    cbv beta. intros _ st2 (T2 & F & _). by eapply kinv_timer_frame.
  - unfold destroy_irq.
    eapply wp_mono; [by apply (irq_unbind_spec _ no_refs); [apply K'..|]|].
    cbv beta. intros _ st2 (I2 & F & _). by apply kinv_irq_frame.
Qed.
End unref_spec.

Section body_spec.
Context (n : Z) (del : SlotId → K unit) `{!DeleteSpec n del}.

(** The channel end a deleted capability names loses one capability. *)
Lemma drop_end_kinv st c :
  kinv_bal st (cap_bal c) (cap_ends c) → cap_ok st c →
  wp (match kind c with CapKind.Channel ch end_ => endpoint_cap_dropped ch end_ | _ => mret tt end)
    (λ _ st', kinv_bal st' (cap_bal c) no_ends ∧ shrinks st st') st.
Proof.
  intros K Hok. assert ((∀ ch e, kind c ≠ CapKind.Channel ch e) →
    kinv_bal st (cap_bal c) no_ends ∧ shrinks st st) as Hno.
  { intros Hk. split; [|apply shrinks_refl]. eapply kinv_bal_ext; [done| |exact K]. intros ch e. by apply ind_false. }
  destruct (kind c) as [| | | | | |ch e| | |] eqn:E; try (wp_step; apply Hno; congruence).
  unfold cap_ok in Hok. rewrite E in Hok.
  eapply (endpoint_cap_dropped_kinv st (cap_bal c) (cap_ends c)); [apply cap_bal_nonneg|done|done| |].
  - intros ch' e'. unfold no_ends, cap_ends. rewrite E. destruct (decide (ch' = ch ∧ e' = e)) as [[-> ->]|Hne].
    + by rewrite ind_true.
    + rewrite ind_false; [done|]. intros [=]. by destruct Hne.
  - unfold cap_ends. by rewrite ind_true.
Qed.

(** A mapped frame is unmapped and gives back its reference. *)
Lemma drop_mapping_kinv st c :
  kinv_bal st (cap_bal c) no_ends → cap_ok st c →
  wp (match kind c with
      | CapKind.Frame _ pages (Some (asp, va)) => aspace_unmap asp va pages;; unref_aspace asp
      | _ => mret tt
      end) (λ _ st', kinv_bal st' (λ o, ind (cap_obj c = Some o)) no_ends ∧ shrinks st st') st.
Proof.
  intros K Hok. assert (cap_frame_aspace c = None →
    kinv_bal st (λ o, ind (cap_obj c = Some o)) no_ends ∧ shrinks st st) as Hno.
  { intros Hk. split; [|apply shrinks_refl]. eapply kinv_bal_ext; [|done|exact K].
    intros o. unfold cap_bal, cap_refs. rewrite Hk, (ind_false (None = Some o)) by done. lia. }
  unfold cap_frame_aspace, cap_ok in *.
  destruct (kind c) as [| |? pages [[asp va]|]| | | | | | |] eqn:E; try (wp_step; by apply Hno).
  destruct Hok as ((_ & Hp & _) & Hw & Hva & Hva0). rewrite wp_bind.
  eapply wp_mono; [by apply aspace_unmap_spec|]. cbv beta. intros _ st1 (a & h & -> & Ha & _).
  destruct (aspace_step_kinv st (cap_bal c) no_ends asp a h K Ha) as [K1 S1].
  eapply wp_mono; [apply (unref_aspace_kinv _ _ (λ o, ind (cap_obj c = Some o)) no_ends asp K1)|].
  - intros o. apply ind_nonneg.
  - intros o. unfold cap_bal, cap_refs, cap_frame_aspace, held. rewrite E. unfold ind.
    repeat case_decide; simplify_eq; lia.
  - cbv beta. intros _ st2 [K2 S2]. split; [done|by eapply shrinks_trans].
Qed.

(** Deleting one capability: everything consistent afterwards, its slot empty. *)
Lemma delete_body_kinv st s :
  kinv st → occupied st s → full_slots st ≤ n + 1 →
  wp (delete_body del s) (λ _ st', kinv st' ∧ shrinks st st' ∧ ¬ occupied st' s) st.
Proof using All.
  intros K Ho Hn. unfold delete_body. rewrite wp_bind.
  eapply wp_mono; [by apply delete_prepare_kinv|]. cbv beta.
  intros c st1 (_ & Hc & K1 & S1 & Hf1 & Hs1).
  assert (∀ st', shrinks st1 st' → cap_ok st' c) as Hsh.
  { intros st' S. eapply cap_ok_le; [eapply shape_le_trans; [apply S1|apply S]|done]. }
  rewrite wp_bind. eapply wp_mono; [apply drop_end_kinv; [done|apply Hsh, shrinks_refl]|].
  cbv beta. intros _ st2 [K2 S2]. rewrite wp_bind.
  eapply wp_mono; [apply drop_mapping_kinv; [done|by apply Hsh]|]. cbv beta. intros _ st3 [K3 S3].
  apply (shrinks_trans _ _ _ S2) in S3.
  eapply wp_mono; [apply (obj_unref_kinv n del); [done|by apply Hsh|pose proof (sh_full _ _ S3); lia]|].
  cbv beta. intros _ st4 [K4 S4]. apply (shrinks_trans _ _ _ S3) in S4. split_and!; [done|by eapply shrinks_trans|].
  intros Ho4. apply Hs1. by eapply occupied_shrinks.
Qed.
End body_spec.

#[global] Instance delete_fuel_spec fuel : DeleteSpec (Z.of_nat fuel) (delete_fuel fuel).
Proof.
  induction fuel as [|fuel IH]; intros st s K Ho Hn.
  - pose proof (full_pos _ _ Ho). lia.
  - cbn [delete_fuel]. apply (delete_body_kinv (Z.of_nat fuel)); [done..|lia].
Qed.

(** [delete] always returns. *)
Lemma delete_kinv st s :
  kinv st → occupied st s →
  wp (delete s) (λ _ st', kinv st' ∧ shrinks st st' ∧ ¬ occupied st' s) st.
Proof.
  intros K Ho. unfold delete. wp_step. apply delete_fuel_spec; [done..|]. pose proof (full_size st). lia.
Qed.

(** ** Revocation *)
Lemma full_lt st st' s : shrinks st st' → occupied st s → ¬ occupied st' s → full_slots st' ≤ full_slots st - 1.
Proof.
  intros S Ho Hn%not_false_is_true. unfold full_slots.
  assert (msum slot_full (<[s := slots st !!! s]> (slots st')) ≤ msum slot_full (slots st)) as Hle.
  { apply msum_le; [done..|]. intros k. destruct (decide (k = s)) as [->|Hne]; lk; [done|].
    unfold slot_full. destruct (cap_is_empty (cap (slots st' !!! k))) eqn:E; [apply slot_full_nonneg|].
    by rewrite <-(sh_cap _ _ S k E), E. }
  rewrite msum_insert in Hle by done. rewrite (empty_slot_full (slots st' !!! s)) in Hle by done.
  unfold slot_full in Hle at 2. unfold occupied in Ho. rewrite Ho in Hle. lia.
Qed.

(** One round: a leaf below [s], never [s] itself, is deleted. *)
Lemma revoke_round st s first :
  kinv st → first_child (slots st !!! s) = Some first →
  wp (leaf ← descend_to_leaf first; delete leaf)
    (λ _ st', kinv st' ∧ shrinks st st' ∧ full_slots st' ≤ full_slots st - 1) st.
Proof.
  intros K Hf. destruct (ki_cdt _ _ _ K) as [kids R].
  destruct (descend_to_leaf_spec st kids R first) as (leaf & Hrun & Hleaf & Hd).
  rewrite wp_bind. eapply wp_of_eq; [exact Hrun|]. cbv beta.
  pose proof (first_child_of st kids R _ _ Hf) as Hc.
  assert (occupied st leaf) as Ho.
  { apply rtc_inv_r in Hd as [<-|(p & _ & Hp)]; by eapply linked_nonempty. }
  eapply wp_mono; [by apply delete_kinv|]. cbv beta. intros _ st' (K' & S' & Hn).
  split_and!; [done|done|by eapply full_lt].
Qed.

Lemma child_full st s first :
  kinv st → first_child (slots st !!! s) = Some first → 1 ≤ full_slots st.
Proof.
  intros K Hf. destruct (ki_cdt _ _ _ K) as [kids R]. apply (full_pos st first).
  eapply linked_nonempty; [exact R|]. by apply (first_child_of st kids R).
Qed.

(** The walk ends with no child left below [s]. *)
Lemma revoke_loop_kinv fuel st s :
  kinv st → full_slots st ≤ Z.of_nat fuel →
  wp (revoke_loop fuel s) (λ _ st', kinv st' ∧ shrinks st st' ∧ first_child (slots st' !!! s) = None) st.
Proof.
  revert st. induction fuel as [|fuel IH]; intros st K Hn; simpl; unfold slot; wp_step;
    destruct (first_child (slots st !!! s)) as [first|] eqn:Ef;
    try (wp_step; split_and!; [done|apply shrinks_refl|done]).
  - pose proof (child_full _ _ _ K Ef). lia.
  - pose proof (revoke_round st s first K Ef) as Hr. rewrite wp_bind in Hr. rewrite wp_bind.
    eapply wp_mono; [exact Hr|]. cbv beta. intros leaf st0 Hd. rewrite wp_bind.
    eapply wp_mono; [exact Hd|]. cbv beta. intros _ st1 (K1 & S1 & H1).
    eapply wp_mono; [apply IH; [done|lia]|]. cbv beta. intros _ st2 (K2 & S2 & H2).
    split_and!; [done|by eapply shrinks_trans|done].
Qed.

(** No child, no descendant. *)
Lemma childless_descends st kids s x :
  cdt_repr (slots st) kids → first_child (slots st !!! s) = None → descends (slots st) s x → x = s.
Proof.
  intros R Hf Hd. apply rtc_inv in Hd as [->|(c & Hc & _)]; [done|]. exfalso.
  unfold child_of in Hc. apply (cr_parent _ _ R) in Hc. pose proof (cr_kids _ _ R s) as Hk.
  rewrite Hf in Hk. apply chain_head in Hk. destruct (kids s); [by apply elem_of_nil in Hc|done].
Qed.

(** What stays occupied under a surviving root is the root itself. *)
Lemma survivors st st' s x :
  kinv st' → shrinks st st' → first_child (slots st' !!! s) = None → occupied st' s →
  descends (slots st) s x → occupied st' x → x = s.
Proof.
  intros K S Hf Hs Hd Hx. destruct (ki_cdt _ _ _ K) as [kids R].
  eapply childless_descends; [exact R|done|]. by apply (sh_desc _ _ S).
Qed.

Lemma revoke_kinv st s :
  kinv st →
  wp (revoke s) (λ _ st', kinv st' ∧ shrinks st st' ∧ first_child (slots st' !!! s) = None) st.
Proof. intros K. unfold revoke. wp_step. apply revoke_loop_kinv; [done|apply full_size]. Qed.

(** Setting the marker changes nothing any invariant reads. *)
Lemma set_revoking_kinv st s v :
  kinv st →
  let st' := with_slots (<[s := slot_set_revoking v (slots st !!! s)]>) st in
  kinv st' ∧ shrinks st st' ∧ full_slots st' = full_slots st.
Proof.
  intros K st'. set (m := <[s := slot_set_revoking v (slots st !!! s)]> (slots st)).
  assert (∀ {A} (f : CapSlot → A) x, f (slot_set_revoking v (slots st !!! s)) = f (slots st !!! s) →
    f (m !!! x) = f (slots st !!! x)) as Hf.
  { intros A f x E. unfold m. destruct (decide (x = s)) as [->|]; by lk. }
  pose proof (λ x, Hf _ parent x eq_refl) as Hp.
  pose proof (λ x, Hf _ cap x eq_refl) as Ha.
  assert (∀ f : CapSlot → Z, f CapSlot_empty = 0 → (∀ v v', cap v = cap v' → f v = f v') →
    msum f m = msum f (slots st)) as Hsum.
  { intros f Hd Hcap. apply msum_ext; [done|]. intros k. apply Hcap, Ha. }
  assert (full_slots st' = full_slots st) as Hfull.
  { apply (Hsum slot_full); [done|]. intros ? ? E. unfold slot_full. by rewrite E. }
  assert (shape_le st st') as L by done.
  split_and!; [|split; [|intros a x _ _; apply rtc_subrel; intros y z; unfold child_of; by rewrite <-Hp|lia|done|intros t; apply thread_le_refl]|done].
  - eapply (kinv_with_slots st m); [exact K| | | |by intros x; rewrite Ha; apply (ki_shape _ _ _ K)].
    + destruct (ki_cdt _ _ _ K) as [kids R]. exists kids. apply cdt_repr_relabel; try done. apply (cr_empty _ _ R).
    + intros o. rewrite Hsum; [done|done|]. intros ? ? E. unfold slot_refs. by rewrite E.
    + intros ch e. rewrite Hsum; [done|done|]. intros ? ? E. unfold end_refs. by rewrite E.
  - intros x _. apply Ha.
Qed.

Lemma step_loop_kinv left st s :
  kinv st →
  wp (step_loop left s) (λ _ st', kinv st' ∧ shrinks st st' ∧
    (first_child (slots st' !!! s) = None ∨ full_slots st' ≤ full_slots st - Z.of_nat left)) st.
Proof.
  revert st. induction left as [|left IH]; intros st K; simpl.
  { wp_step. split_and!; [done|apply shrinks_refl|right; lia]. }
  unfold slot; wp_step; destruct (first_child (slots st !!! s)) as [first|] eqn:Ef;
    [|wp_step; split_and!; [done|apply shrinks_refl|by left]].
  pose proof (revoke_round st s first K Ef) as Hr. rewrite wp_bind in Hr. rewrite wp_bind.
  eapply wp_mono; [exact Hr|]. cbv beta. intros leaf st0 Hd. rewrite wp_bind.
  eapply wp_mono; [exact Hd|]. cbv beta. intros _ st1 (K1 & S1 & H1).
  eapply wp_mono; [by apply IH|]. cbv beta. intros _ st2 (K2 & S2 & H2).
  split_and!; [done|by eapply shrinks_trans|]. destruct H2; [by left|right; lia].
Qed.

(** One quantum: either the walk is complete and the marker clear, or at least
    [budget] capabilities are gone, the marker is set, and the root survives. *)
Lemma revoke_step_kinv st s budget :
  kinv st →
  wp (revoke_step s budget) (λ r st', kinv st' ∧ shrinks st st' ∧
    match r with
    | RevokeStatus.Done => first_child (slots st' !!! s) = None ∧ revoking (slots st' !!! s) = false
    | RevokeStatus.More => occupied st' s ∧ revoking (slots st' !!! s) = true ∧
        full_slots st' ≤ full_slots st - Z.of_nat budget
    end) st.
Proof.
  intros K. unfold revoke_step. rewrite wp_bind. eapply wp_mono; [by apply step_loop_kinv|].
  cbv beta. intros _ st1 (K1 & S1 & H1). unfold slot, set_slot. wp_step.
  destruct (first_child (slots st1 !!! s)) as [c|] eqn:Ef; wp_step.
  - destruct (set_revoking_kinv st1 s true K1) as (K2 & S2 & H2).
    destruct H1 as [|H1]; [done|]. split_and!; [done|by eapply shrinks_trans| |cbn; by lk|lia].
    unfold occupied. cbn. lk. cbn. destruct (ki_cdt _ _ _ K1) as [kids R].
    destruct (cap_is_empty _) eqn:E; [|done]. apply (cr_empty _ _ R) in E as (_ & E & _). congruence.
  - destruct (set_revoking_kinv st1 s false K1) as (K2 & S2 & H2).
    split_and!; [done|by eapply shrinks_trans|cbn; by lk..].
Qed.

(** ** Derivation *)

(** The counts are 32-bit words. *)
Record counts_u32 (st : Store) : Prop := {
  cu_refs o : refs st !!! o ≤ U32_MAX;
  cu_ends ch e n : ch_end_caps (chans st !!! ch) !! end_idx e = Some n → n ≤ U32_MAX;
}.

Definition derived_cap (c : Cap) (mask prio_ceiling : Z) : Cap :=
  MkCap (derived_kind (kind c) prio_ceiling) (Rights.masked (rights c) mask).

(** Rights only shrink, and a thread capability's priority ceiling only falls. *)
Definition attenuates (c c' : Cap) : Prop :=
  (∀ b, Rights.has (rights c') b = true → Rights.has (rights c) b = true) ∧
  cap_obj c' = cap_obj c ∧
  match kind c, kind c' with
  | CapKind.Thread _ p, CapKind.Thread _ p' => p' ≤ p
  | CapKind.Frame b n _, CapKind.Frame b' n' m => b' = b ∧ n' = n ∧ m = None
  | k, k' => k' = k
  end.

Lemma masked_has r mask b : Rights.has (Rights.masked r mask) b = true → Rights.has r b = true.
Proof.
  unfold Rights.has, Rights.masked. cbn. rewrite !Z.eqb_eq. intros E. apply Z.bits_inj'. intros i Hi.
  rewrite Z.land_spec. destruct (Z.testbit b i) eqn:Eb; [|by rewrite andb_false_r].
  assert (Z.testbit (Z.land (Z.land (Rights.bits r) mask) b) i = true) as Ei by (by rewrite E).
  rewrite !Z.land_spec, Eb, andb_true_r, andb_true_iff in Ei. destruct Ei as [-> _]. done.
Qed.

Lemma derived_attenuates c mask prio : attenuates c (derived_cap c mask prio).
Proof.
  split; [intros b; apply masked_has|]. unfold derived_cap, cap_obj. cbn.
  destruct (kind c); cbn; split; try done. destruct (Z.leb_spec max_prio prio); lia.
Qed.

(** The guards of [derive] that look at the counts. *)
Definition has_room (st : Store) (c : Cap) : Prop :=
  (∀ o, cap_obj c = Some o → refs st !!! o < U32_MAX) ∧
  (∀ ch e, kind c = CapKind.Channel ch e → ∃ n, ch_end_caps (chans st !!! ch) !! end_idx e = Some n ∧ n < U32_MAX).

Lemma derive_room_spec st c :
  counts_u32 st → cap_ok st c →
  wp (derive_room c) (λ b st', st' = st ∧ (b = true ↔ has_room st c)) st.
Proof.
  intros [Ur Ue] Hok. unfold derive_room, has_room, cap_obj, cap_ok in *.
  assert (∀ o, (negb (refs st !!! o =? U32_MAX) = true ↔ refs st !!! o < U32_MAX)) as Hneg.
  { intros o. specialize (Ur o). rewrite negb_true_iff, Z.eqb_neq. lia. }
  destruct (kind c) as [| |? ? ?|o|o|o ?|ch e|o|o|o]; unfold obj_refs; wp_step; cbn [negb];
    try (split; [done|]; split; [|done]; intros _; split; congruence).
  all: try (destruct (negb (refs st !!! o =? U32_MAX)) eqn:E; cbn [negb]; wp_step; (split; [done|]);
    (split; [intros Hb; split; [|congruence]; intros o' [= <-]; by apply Hneg
            |intros [H _]; specialize (H o eq_refl); apply Hneg in H; congruence])).
  destruct (negb (refs st !!! ch =? U32_MAX)) eqn:E; cbn [negb]; wp_step.
  - apply wp_chan_end_caps; [done|apply end_idx_lt|]. intros n Hn. wp_step. split; [done|].
    specialize (Ue ch e n Hn). rewrite negb_true_iff, Z.eqb_neq. split.
    + intros Hne. split; [intros o' [= <-]; by apply Hneg|]. intros ch' e' [= <- <-]. exists n. split; [done|lia].
    + intros [_ H]. destruct (H ch e eq_refl) as (n' & Hn' & Hlt). simplify_eq. lia.
  - split; [done|]. split; [done|]. intros [H _]. specialize (H ch eq_refl). apply Hneg in H. congruence.
Qed.

(** What [derive] leaves at [dst], the new child of [src]. *)
Record derived (st : Store) (src dst : SlotId) (c : Cap) (st' : Store) : Prop := {
  dv_cap : cap (slots st' !!! dst) = c;
  dv_parent : parent (slots st' !!! dst) = Some src;
  dv_other x : x ≠ dst → cap (slots st' !!! x) = cap (slots st !!! x) ∧
    parent (slots st' !!! x) = parent (slots st !!! x) ∧ revoking (slots st' !!! x) = revoking (slots st !!! x);
  dv_refs o : refs st' !!! o = refs st !!! o + ind (cap_obj c = Some o);
  dv_shape : shape_le st st';
  dv_tcbs : tcbs st' = tcbs st;
}.

Lemma obj_ref_spec st c :
  (∀ o, cap_obj c = Some o → refs st !!! o < U32_MAX) →
  wp (obj_ref c) (λ _ st', ∃ rm, st' = with_refs (λ _, rm) st ∧
    ∀ o, rm !!! o = refs st !!! o + ind (cap_obj c = Some o)) st.
Proof.
  intros Hr. assert (∀ o, cap_obj c = Some o →
    wp (r ← obj_refs o; r' ← uadd U32_MAX r 1; set_obj_refs o r') (λ _ st', ∃ rm, st' = with_refs (λ _, rm) st ∧
      ∀ o, rm !!! o = refs st !!! o + ind (cap_obj c = Some o)) st) as Ho.
  { intros o E. unfold obj_refs, set_obj_refs. wp_step. apply wp_uadd; [specialize (Hr o E); lia|].
    wp_step. exists (<[o := refs st !!! o + 1]> (refs st)). split; [done|]. intros o'. rewrite refs_plus. by rewrite E. }
  assert (cap_obj c = None → wp (mret tt : K unit) (λ _ st', ∃ rm, st' = with_refs (λ _, rm) st ∧
      ∀ o, rm !!! o = refs st !!! o + ind (cap_obj c = Some o)) st) as Hn.
  { intros E. wp_step. exists (refs st). split; [by destruct st|]. intros o. rewrite E, ind_false by done. lia. }
  unfold obj_ref, cap_obj in *. destruct (kind c); eauto.
Qed.

(** Linking the new child changes no capability. *)
Lemma insert_child_kinv st b eb p child :
  kinv_bal st b eb → occupied st p → occupied st child → p ≠ child →
  parent (slots st !!! child) = None ∧ first_child (slots st !!! child) = None ∧
    next_sib (slots st !!! child) = None ∧ prev_sib (slots st !!! child) = None →
  kinv_bal (with_slots (insert_map p child) st) b eb.
Proof.
  intros K Hp Hc Hne Hd. destruct (ki_cdt _ _ _ K) as [kids R].
  assert (∀ f : CapSlot → Z, f CapSlot_empty = 0 → (∀ v v', cap v = cap v' → f v = f v') →
    msum f (insert_map p child (slots st)) = msum f (slots st)) as Hsum.
  { intros f Hf Hcap. apply msum_ext; [done|]. intros k. apply Hcap, insert_cap. }
  apply (kinv_with_slots st (insert_map p child (slots st)) b b eb eb K).
  - eexists. by eapply insert_repr.
  - intros o. rewrite Hsum; [done|done|]. intros ? ? E. unfold slot_refs. by rewrite E.
  - intros ch e. rewrite Hsum; [done|done|]. intros ? ? E. unfold end_refs. by rewrite E.
  - intros s. rewrite insert_cap. apply (ki_shape _ _ _ K).
Qed.

(** A capability put into an empty slot before its references are counted. *)
Lemma install_cap_kinv st b eb dst c :
  kinv_bal st b eb → ¬ occupied st dst → cap_ok st c → cap_is_empty c = false →
  kinv_bal (with_slots (<[dst := slot_set_cap c (slots st !!! dst)]>) st)
    (λ o, b o - cap_bal c o) (λ ch e, eb ch e - cap_ends c ch e).
Proof.
  intros K Hdst%not_false_is_true Hok Hne. destruct (ki_cdt _ _ _ K) as [kids R].
  apply (kinv_with_slots st (<[dst := slot_set_cap c (slots st !!! dst)]> (slots st)) b _ eb _ K).
  - exists kids. apply cdt_repr_relabel; try done. cbn. congruence.
  - intros o. rewrite msum_insert, (empty_slot_refs o (slots st !!! dst)) by done.
    unfold cap_bal, slot_refs. cbn. lia.
  - intros ch e. rewrite msum_insert, (empty_end_refs ch e (slots st !!! dst)) by done.
    unfold cap_ends, end_refs. cbn. lia.
  - intros x. destruct (decide (x = dst)) as [->|]; lk; [done|apply (ki_shape _ _ _ K)].
Qed.

Lemma derive_install_kinv st src dst c :
  kinv st → occupied st src → ¬ occupied st dst → cap_ok st c → cap_is_empty c = false →
  cap_frame_aspace c = None → has_room st c →
  wp (derive_install src dst c) (λ _ st', kinv st' ∧ derived st src dst c st') st.
Proof.
  intros K Hsrc Hdst Hok Hne Hfr [Hr He]. destruct (ki_cdt _ _ _ K) as [kids R].
  assert (src ≠ dst) as Hsd by (by intros ->).
  pose proof (install_cap_kinv st no_refs no_ends dst c K Hdst Hok Hne) as K1. apply not_false_is_true in Hdst.
  unfold derive_install, slot, set_slot. wp_step.
  eapply wp_mono; [by apply obj_ref_spec|]. cbv beta. intros _ st2 (rm & -> & Hrm).
  set (st1 := with_slots _ st) in *. destruct (kinv_with_refs st1 _ no_refs _ (λ _, rm) K1) as [K2 _].
  { intros o. specialize (Hrm o). cbn in Hrm. rewrite census_with_refs. cbn. rewrite Hrm, (ki_refs _ _ _ K1 o : refs st !!! o = _).
    unfold cap_bal, no_refs, cap_refs. rewrite Hfr, (ind_false (None = Some o)) by done. lia. }
  set (st2 := with_refs _ st1) in *. assert (∀ x, x ≠ dst → slots st2 !!! x = slots st !!! x) as Hoth.
  { intros x Hx. cbn. by lk. }
  assert (slots st2 !!! dst = slot_set_cap c (slots st !!! dst)) as Hnew by (cbn; by lk).
  pose proof (insert_child_kinv st2 no_refs _ src dst K2) as K3.
  rewrite wp_bind. eapply wp_of_eq; [apply insert_child_run|]. cbv beta.
  assert (derived st src dst c (with_slots (insert_map src dst) st2)) as Dv.
  { split; change (slots (with_slots (insert_map src dst) st2)) with (insert_map src dst (slots st2)).
    - rewrite insert_cap. by rewrite Hnew.
    - by rewrite insert_par, decide_True.
    - intros x Hx. by rewrite insert_cap, insert_par, insert_revoking, decide_False, Hoth.
    - done.
    - by split.
    - done. }
  assert (kinv_bal (with_slots (insert_map src dst) st2) no_refs (λ ch e, no_ends ch e - cap_ends c ch e)) as K3'.
  { apply K3; [unfold occupied; by rewrite Hoth|unfold occupied; by rewrite Hnew|done|].
    rewrite Hnew. by apply (cr_empty _ _ R). }
  destruct (kind c) as [| | | | | |ch e| | |] eqn:Ek;
    try (wp_step; split; [|done]; eapply kinv_bal_ext; [done| |exact K3']; intros ch' e'; unfold cap_ends;
         rewrite Ek, ind_false by done; done).
  destruct (He ch e eq_refl) as (n & Hn & Hlt). assert (chan_ok st ch) as Hch by (unfold cap_ok in Hok; by rewrite Ek in Hok).
  eapply wp_mono; [apply (endpoint_cap_added_kinv (with_slots (insert_map src dst) st2) no_refs _ no_ends ch e n Hch K3' Hn Hlt)|].
  - intros ch' e'. unfold no_ends, cap_ends. rewrite Ek. destruct (decide (ch' = ch ∧ e' = e)) as [[-> ->]|Hx].
    + by rewrite ind_true.
    + rewrite ind_false; [done|]. intros [=]. by destruct Hx.
  - cbv beta. intros _ st3 (K4 & S4 & Es & Er & Et & _). split; [done|]. destruct Dv as [D1 D2 D3 D4 D5 D6].
    split; try (by rewrite ?Es, ?Er, ?Et). eapply shape_le_trans; [exact D5|apply S4].
Qed.

(** A revoke is in progress at [s] or above it. *)
Definition revoke_pending (st : Store) (s : SlotId) : Prop :=
  ∃ a, descends (slots st) a s ∧ revoking (slots st !!! a) = true.

Lemma derived_cap_ok st c mask prio : cap_ok st c → cap_ok st (derived_cap c mask prio).
Proof. unfold cap_ok, derived_cap. cbn. destruct (kind c); cbn; naive_solver. Qed.

Lemma derived_not_mapped c mask prio : cap_frame_aspace (derived_cap c mask prio) = None.
Proof. unfold cap_frame_aspace, derived_cap. cbn. by destruct (kind c). Qed.

(** When [derive] succeeds, and what it leaves. *)
Definition derivable (st : Store) (src dst : SlotId) (c : Cap) : Prop :=
  ¬ revoke_pending st src ∧ occupied st src ∧ (∀ b n w, kind (cap (slots st !!! src)) ≠ CapKind.Untyped b n w) ∧
  ¬ occupied st dst ∧ has_room st c.

Lemma derive_kinv st src dst mask prio :
  kinv st → counts_u32 st →
  let c := derived_cap (cap (slots st !!! src)) mask prio in
  wp (derive src dst mask prio) (λ r st', match r with
    | Ok _ => derivable st src dst c ∧ kinv st' ∧ derived st src dst c st'
    | Err _ => st' = st ∧ ¬ derivable st src dst c
    end) st.
Proof.
  intros K U c. destruct (ki_cdt _ _ _ K) as [kids R]. unfold derive, derivable.
  destruct (ancestor_or_self_revoking_spec st kids R src) as (b & Hb & Hiff). fold (revoke_pending st src) in Hiff.
  rewrite wp_bind. eapply wp_of_eq; [exact Hb|]. cbv beta. destruct b.
  { wp_step. split; [done|]. intros (Hn & _). apply Hn. by apply Hiff. }
  unfold slot. wp_step. assert (¬ revoke_pending st src) as Hp by (intros ?%Hiff; done).
  destruct (match kind (cap (slots st !!! src)) with CapKind.Empty | CapKind.Untyped _ _ _ => true | _ => false end) eqn:Ek.
  { wp_step. split; [done|]. intros (_ & Ho & Hu & _). unfold occupied, cap_is_empty in Ho.
    destruct (kind (cap (slots st !!! src))) eqn:E2; try done. by eapply Hu. }
  wp_step. destruct (cap_is_empty (cap (slots st !!! dst))) eqn:Ed; cbn [negb].
  2:{ wp_step. split; [done|]. intros (_ & _ & _ & Hd & _). done. }
  assert (occupied st src) as Ho by (unfold occupied, cap_is_empty; by destruct (kind (cap (slots st !!! src)))).
  assert (∀ b n w, kind (cap (slots st !!! src)) ≠ CapKind.Untyped b n w) as Hu by (intros b n w E; by rewrite E in Ek).
  assert (cap_ok st c) as Hok by (apply derived_cap_ok, (ki_shape _ _ _ K)).
  fold (derived_cap (cap (slots st !!! src)) mask prio). fold c. rewrite wp_bind.
  eapply wp_mono; [by apply derive_room_spec|]. cbv beta. intros room st' [-> Hroom].
  destruct room; cbn [negb]; wp_step.
  - assert (¬ occupied st dst) as Hdst by (unfold occupied; congruence).
    eapply wp_mono; [apply (derive_install_kinv st src dst c K Ho Hdst Hok)|].
    + unfold c, derived_cap, cap_is_empty. cbn. unfold occupied, cap_is_empty in Ho. by destruct (kind (cap (slots st !!! src))).
    + apply derived_not_mapped.
    + by apply Hroom.
    + cbv beta. intros _ st' [K' D]. wp_step. split_and!; try done. by apply Hroom.
  - split; [done|]. intros (_ & _ & _ & _ & Hr). apply Hroom in Hr. done.
Qed.

(** ** Mapping a frame *)

(** Putting another capability in an occupied slot. *)
Lemma relabel_kinv st b eb s c :
  kinv_bal st b eb → occupied st s → cap_is_empty c = false → cap_ok st c →
  kinv_bal (with_slots (<[s := slot_set_cap c (slots st !!! s)]>) st)
    (λ o, b o + cap_bal (cap (slots st !!! s)) o - cap_bal c o)
    (λ ch e, eb ch e + cap_ends (cap (slots st !!! s)) ch e - cap_ends c ch e).
Proof.
  intros K Ho Hne Hok. destruct (ki_cdt _ _ _ K) as [kids R].
  apply (kinv_with_slots st (<[s := slot_set_cap c (slots st !!! s)]> (slots st)) b _ eb _ K).
  - exists kids. apply cdt_repr_relabel; try done. cbn. congruence.
  - intros o. rewrite msum_insert by done. unfold cap_bal, slot_refs. cbn. lia.
  - intros ch e. rewrite msum_insert by done. unfold cap_ends, end_refs. cbn. lia.
  - intros x. destruct (decide (x = s)) as [->|]; lk; [done|apply (ki_shape _ _ _ K)].
Qed.

Lemma map_frame_kinv st fs asp va perms base pages :
  kinv st → kind (cap (slots st !!! fs)) = CapKind.Frame base pages None → refs st !!! asp < U32_MAX →
  aspace_wf (aspaces st !!! asp) → 0 ≤ va →
  wp (map_frame fs asp va perms) (λ r st', kinv st' ∧ shape_le st st' ∧ tcbs st' = tcbs st ∧
    (∀ x, x ≠ fs → slots st' !!! x = slots st !!! x) ∧
    let base_of := as_pool_base (aspaces st' !!! asp) in
    let old := mapped base_of (pt_view (aspaces st !!! asp) []) in
    let new := mapped base_of (pt_view (aspaces st' !!! asp) []) in
    match r with
    | Ok _ => kind (cap (slots st' !!! fs)) = CapKind.Frame base pages (Some (asp, va)) ∧
        rights (cap (slots st' !!! fs)) = rights (cap (slots st !!! fs)) ∧
        refs st' !!! asp = refs st !!! asp + 1 ∧
        (∀ j, 0 ≤ j < pages → old (va + j * PAGE) = 0 ∧ new (va + j * PAGE) = pte_encode (base + j * PAGE) perms) ∧
        (∀ w, user_va w → w mod PAGE = 0 → ¬ in_pages va 0 pages w → new w = old w)
    | Err _ => slots st' = slots st ∧ refs st' = refs st ∧ (∀ w, user_va w → new w = old w)
    end) st.
Proof.
  intros K Hk Hr Hw Hva. pose proof (sp_cap _ (ki_shape _ _ _ K) fs) as Hg. unfold cap_ok in Hg. rewrite Hk in Hg. destruct Hg as [(Hb0 & Hp & Hb) _].
  assert (0 ≤ base ∧ base + pages * PAGE ≤ U64_MAX) as Hbb by (unfold U64_MAX; lia). unfold map_frame, slot. wp_step. rewrite Hk. rewrite wp_bind.
  eapply wp_mono; [by apply aspace_map_spec|]. cbv beta. intros r st1 (a & h & -> & Ha & H).
  destruct (aspace_step_kinv st no_refs no_ends asp a h K Ha) as [K1 S1].
  pose proof (sh_shape _ _ S1) as L1. destruct r as [u|e].
  2:{ wp_step. split; [exact K1|]. split; [exact L1|]. cbn. lk. by destruct H. }
  destruct H as (Hok & _ & Hin & Hout). set (st1 := with_hw _ _) in *. unfold set_slot, ref_aspace. wp_step.
  set (c := MkCap (CapKind.Frame base pages (Some (asp, va))) (rights (cap (slots st !!! fs)))).
  assert (occupied st1 fs) as Ho by (unfold occupied, cap_is_empty; cbn; by rewrite Hk).
  pose proof (relabel_kinv st1 no_refs no_ends fs c K1 Ho eq_refl) as K2.
  assert (cap_ok st1 c) as Hc by (cbn; lk; done). specialize (K2 Hc).
  set (st2 := with_slots _ st1) in *. unfold obj_refs, set_obj_refs. wp_step. apply wp_uadd; [cbn; lia|]. wp_step.
  assert (cap_frame_aspace c = Some asp ∧ cap_obj c = None) as [Ec1 Ec2] by done.
  assert (cap_frame_aspace (cap (slots st1 !!! fs)) = None ∧ cap_obj (cap (slots st1 !!! fs)) = None) as [Eo1 Eo2]
    by (unfold cap_frame_aspace, cap_obj; cbn; by rewrite Hk).
  destruct (kinv_with_refs st2 (λ o, no_refs o + cap_bal (cap (slots st1 !!! fs)) o - cap_bal c o) no_refs no_ends (<[asp := refs st2 !!! asp + 1]>)) as [K3 _].
  { eapply kinv_bal_ext; [done| |exact K2]. intros ch e. unfold no_ends, cap_ends.
    rewrite !ind_false; [done|done|cbn; by rewrite Hk]. }
  { intros o. cbn [refs with_refs]. rewrite refs_plus, census_with_refs, (ki_refs _ _ _ K2).
    unfold cap_bal, cap_refs, no_refs. rewrite Ec1, Ec2, Eo1, Eo2, !(ind_false (None = Some o)) by done. lia. }
  split; [exact K3|]. split; [destruct L1; by split|]. cbn. lk. cbn. split_and!; try done. intros x Hx. by lk.
Qed.

(** [delete] itself is a deletion routine in the sense of the teardown code. *)
#[global] Instance delete_spec n : DeleteSpec n delete.
Proof. intros st s K Ho _. by apply delete_kinv. Qed.
