(* ===== verification/Fifo.v ===== *)
(** Channels as queues: the abstract view of a ring ([kcore/src/channel.rs],
    [cspace::ring_fifo]) is the list of messages sent and not yet received, each
    its payload and the capabilities it carries. [send] appends one message and
    moves its capabilities in; [recv] removes the oldest and moves its
    capabilities out; the other direction is never disturbed. *)

From S2P Require Import Prelude KStore Ready Census Notif Timer Irq Cdt Aspace Kinv Refs Channel.

(** ** Abstract view *)
Definition get_msg (c : Channel) (r : nat) (i : Z) : option MsgSlot := ch_msgs c !! r ≫= (.!! Z.to_nat i).
Definition ring_cap (c : Channel) (r : nat) (i : Z) (k : nat) : option SlotId :=
  m ← get_msg c r i; m_caps m !! k.
(** The message slot [k] places behind the head of the ring. *)
Definition nth_idx (c : Channel) (h : Z) (k : nat) : Z := (h + Z.of_nat k) mod ch_depth c.

Definition cap_view (c : Cap) : option Cap := if cap_is_empty c then None else Some c.
Definition Message : Type := list Z * list (option Cap).
Definition msg_view (m : gmap SlotId CapSlot) (msg : MsgSlot) : Message :=
  (take (Z.to_nat (m_len msg)) (m_payload msg), (λ s, cap_view (cap (m !!! s))) <$> m_caps msg).
Definition msg_at (m : gmap SlotId CapSlot) (c : Channel) (r : nat) (i : Z) : Message :=
  from_option (msg_view m) ([], []) (get_msg c r i).
Definition queued_in (m : gmap SlotId CapSlot) (c : Channel) (r : nat) : list Message :=
  match ch_head c !! r, ch_count c !! r with
  | Some h, Some n => (λ k, msg_at m c r (nth_idx c h k)) <$> seq 0 (Z.to_nat n)
  | _, _ => []
  end.
(** The messages waiting on ring [r] of channel [ch], oldest first. *)
Definition queued (st : Store) (ch : ObjId) (r : nat) : list Message := queued_in (slots st) (chans st !!! ch) r.

(** A ring whose counters are in range, whose capability slots are distinct, and
    whose unused message slots hold no capability. *)
Record ring_ok (m : gmap SlotId CapSlot) (c : Channel) : Prop := {
  ro_shape : chan_shape c;
  ro_depth : 0 < ch_depth c ∧ 2 * ch_depth c ≤ U32_MAX;
  ro_head r h : ch_head c !! r = Some h → 0 ≤ h < ch_depth c;
  ro_count r n : ch_count c !! r = Some n → 0 ≤ n ≤ ch_depth c;
  ro_payload r i msg : get_msg c r i = Some msg → length (m_payload msg) = Z.to_nat MSG_PAYLOAD ∧
    0 ≤ m_len msg ≤ MSG_PAYLOAD;
  ro_inj r i k r' i' k' s : 0 ≤ i → 0 ≤ i' → ring_cap c r i k = Some s → ring_cap c r' i' k' = Some s →
    r = r' ∧ i = i' ∧ k = k';
  ro_free r h n j k s : ch_head c !! r = Some h → ch_count c !! r = Some n →
    n ≤ Z.of_nat j < ch_depth c → ring_cap c r (nth_idx c h j) k = Some s → cap_is_empty (cap (m !!! s)) = true;
}.

(** [s] is one of the ring's own capability slots. *)
Definition is_ring_slot (c : Channel) (s : SlotId) : Prop := ∃ r i k, 0 ≤ i ∧ ring_cap c r i k = Some s.

(** ** Lemmas: channel fields *)
Definition put_msg (c : Channel) (r : nat) (i : Z) (m : MsgSlot) : Channel :=
  MkChannel (ch_depth c) (ch_end_caps c) (ch_head c) (ch_count c) (ch_bindings c)
    (<[r := <[Z.to_nat i := m]> (default [] (ch_msgs c !! r))]> (ch_msgs c)).
Definition chan_set_head (c : Channel) (r : nat) (h : Z) : Channel :=
  MkChannel (ch_depth c) (ch_end_caps c) (<[r := h]> (ch_head c)) (ch_count c) (ch_bindings c) (ch_msgs c).
Definition chan_set_count (c : Channel) (r : nat) (n : Z) : Channel :=
  MkChannel (ch_depth c) (ch_end_caps c) (ch_head c) (<[r := n]> (ch_count c)) (ch_bindings c) (ch_msgs c).

Lemma get_put_msg c r i m0 m r' i' :
  get_msg c r i = Some m0 → 0 ≤ i → 0 ≤ i' →
  get_msg (put_msg c r i m) r' i' = if decide (r' = r ∧ i' = i) then Some m else get_msg c r' i'.
Proof.
  unfold get_msg, put_msg. cbn. intros Hg Hi Hi'. destruct (ch_msgs c !! r) as [ring|] eqn:Er; [|done]. cbn in *.
  destruct (decide (r' = r)) as [->|Hr].
  - rewrite list_lookup_insert_eq by (by eapply lookup_lt_Some). rewrite Er. cbn.
    destruct (decide (i' = i)) as [->|Hne].
    + rewrite list_lookup_insert_eq by (by eapply lookup_lt_Some). by rewrite decide_True.
    + rewrite list_lookup_insert_ne by lia. by rewrite decide_False by naive_solver.
  - rewrite list_lookup_insert_ne by done. by rewrite decide_False by naive_solver.
Qed.

Lemma ring_put_msg c r i m0 m r' i' k :
  get_msg c r i = Some m0 → m_caps m = m_caps m0 → 0 ≤ i → 0 ≤ i' →
  ring_cap (put_msg c r i m) r' i' k = ring_cap c r' i' k.
Proof.
  intros Hg Hc Hi Hi'. unfold ring_cap. rewrite (get_put_msg c r i m0) by done.
  destruct (decide (r' = r ∧ i' = i)) as [[-> ->]|]; [|done]. rewrite Hg. cbn. by rewrite Hc.
Qed.

Lemma put_msg_shape c r i m0 m :
  chan_shape c → get_msg c r i = Some m0 → m_caps m = m_caps m0 → chan_shape (put_msg c r i m).
Proof.
  intros [H1 H2 H3 H4 H5 H6 H7 H8] Hg Hc. unfold get_msg in Hg.
  destruct (ch_msgs c !! r) as [ring|] eqn:Er; [|done]. cbn in Hg.
  assert (r < length (ch_msgs c))%nat as Hl by (by eapply lookup_lt_Some).
  split; unfold put_msg; cbn; rewrite ?Er; cbn; try done.
  - by rewrite length_insert.
  - intros r' ring'. destruct (decide (r' = r)) as [->|Hne].
    + rewrite list_lookup_insert_eq by done. intros [= <-]. rewrite length_insert. by eapply H7.
    + rewrite list_lookup_insert_ne by done. apply H7.
  - intros r' ring' j msg. destruct (decide (r' = r)) as [->|Hne].
    + rewrite list_lookup_insert_eq by done. intros [= <-]. destruct (decide (j = Z.to_nat i)) as [->|Hj].
      * rewrite list_lookup_insert_eq by (by eapply lookup_lt_Some). intros [= <-]. rewrite Hc. by eapply H8.
      * rewrite list_lookup_insert_ne by done. by apply (H8 r ring).
    + rewrite list_lookup_insert_ne by done. apply H8.
Qed.

Lemma set_head_shape c r h : chan_shape c → chan_shape (chan_set_head c r h).
Proof. intros []. split; cbn; try done. by rewrite length_insert. Qed.
Lemma set_count_shape c r n : chan_shape c → chan_shape (chan_set_count c r n).
Proof. intros []. split; cbn; try done. by rewrite length_insert. Qed.

(** A channel's rings and counters change; ends and bindings stay. *)
Lemma kinv_rings st b eb ch v :
  kinv_bal st b eb → ch_end_caps v = ch_end_caps (chans st !!! ch) → ch_bindings v = ch_bindings (chans st !!! ch) →
  (chan_shape (chans st !!! ch) → chan_shape v) → kinv_bal (with_chans (<[ch := v]>) st) b eb.
Proof.
  intros [C R Ee (rq & wq & S) [tl T] Iq [Sh1 Sh2 Sh3]] Hen Hbd Hv.
  assert (∀ x, chan_ok st x → chan_ok (with_chans (<[ch := v]>) st) x) as Hx.
  { intros x. unfold chan_ok. cbn. destruct (decide (x = ch)) as [->|]; by lk. }
  split; try done.
  - intros o. cbn. rewrite R. unfold obj_census. cbn. rewrite msum_insert by done. unfold chan_refs. rewrite Hbd. lia.
  - intros x e n. cbn. destruct (decide (x = ch)) as [->|]; lk; [rewrite Hen|]; apply Ee.
  - exists rq, wq. by apply (sched_inv_ext st).
  - exists tl. by apply (timer_repr_ext st).
  - split; [|done|done]. intros s. specialize (Sh1 s). unfold cap_ok in *. cbn.
    destruct (kind (cap (slots st !!! s))); try done. by apply Hx.
Qed.

Section acc.
Context (st : Store) (ch : ObjId).
Hypothesis Hok : chan_ok st ch.

Lemma wp_chan_head r Q :
  (r < 2)%nat → (∀ n, ch_head (chans st !!! ch) !! r = Some n → Q n st) → wp (chan_head ch r) Q st.
Proof using Hok.
  intros He HQ. destruct (list2_lookup _ r (cs_head _ Hok) He) as [n Hn].
  unfold chan_head. wp_acc. eapply wp_index; [exact Hn|by apply HQ].
Qed.
Lemma wp_chan_count r Q :
  (r < 2)%nat → (∀ n, ch_count (chans st !!! ch) !! r = Some n → Q n st) → wp (chan_count ch r) Q st.
Proof using Hok.
  intros He HQ. destruct (list2_lookup _ r (cs_count _ Hok) He) as [n Hn].
  unfold chan_count. wp_acc. eapply wp_index; [exact Hn|by apply HQ].
Qed.
Lemma wp_set_chan_head r v Q :
  (r < 2)%nat → Q tt (with_chans (<[ch := chan_set_head (chans st !!! ch) r v]>) st) → wp (set_chan_head ch r v) Q st.
Proof using Hok.
  intros He HQ. unfold set_chan_head, upd_chan. wp_acc. eapply wp_set_index; [by rewrite (cs_head _ Hok)|]. wp_acc. exact HQ.
Qed.
Lemma wp_set_chan_count r v Q :
  (r < 2)%nat → Q tt (with_chans (<[ch := chan_set_count (chans st !!! ch) r v]>) st) → wp (set_chan_count ch r v) Q st.
Proof using Hok.
  intros He HQ. unfold set_chan_count, upd_chan. wp_acc. eapply wp_set_index; [by rewrite (cs_count _ Hok)|]. wp_acc. exact HQ.
Qed.

Lemma get_msg_Some r i : (r < 2)%nat → 0 ≤ i < ch_depth (chans st !!! ch) → ∃ m, get_msg (chans st !!! ch) r i = Some m.
Proof using Hok.
  intros Hr Hi. destruct (list2_lookup _ r (cs_msgs _ Hok) Hr) as [ring Hring]. unfold get_msg. rewrite Hring. cbn.
  apply lookup_lt_is_Some_2. pose proof (cs_ring _ Hok r ring Hring). lia.
Qed.

Lemma wp_chan_msg r i m Q : get_msg (chans st !!! ch) r i = Some m → Q m st → wp (chan_msg ch r i) Q st.
Proof.
  unfold get_msg, chan_msg. intros Hg HQ. destruct (ch_msgs _ !! r) as [ring|] eqn:Er; [|done].
  wp_step. eapply wp_index; [exact Er|]. eapply wp_index; [exact Hg|done].
Qed.

Lemma wp_set_chan_msg r i m0 m Q :
  get_msg (chans st !!! ch) r i = Some m0 → Q tt (with_chans (<[ch := put_msg (chans st !!! ch) r i m]>) st) →
  wp (set_chan_msg ch r i m) Q st.
Proof.
  unfold get_msg, set_chan_msg, upd_chan. intros Hg HQ. destruct (ch_msgs _ !! r) as [ring|] eqn:Er; [|done]. cbn in Hg.
  wp_step. eapply wp_index; [exact Er|]. wp_step. eapply wp_set_index; [by eapply lookup_lt_Some|]. wp_step.
  eapply wp_set_index; [by eapply lookup_lt_Some|]. wp_step. unfold put_msg in HQ. rewrite Er in HQ. exact HQ.
Qed.
End acc.

(** ** Moving a batch of capabilities *)
Record moves (st : Store) (l : list (SlotId * SlotId)) (st' : Store) : Prop := {
  mo_frame : ∃ m, st' = with_slots (λ _, m) st;
  mo_pair s d : (s, d) ∈ l → cap (slots st' !!! d) = cap (slots st !!! s) ∧ ¬ occupied st' s;
  mo_other x : (∀ s d, (s, d) ∈ l → x ≠ s ∧ x ≠ d) → cap (slots st' !!! x) = cap (slots st !!! x);
}.

(** Moving mints no capability. *)
Lemma moves_caps st l st' x : moves st l st' → occupied st' x → ∃ y, cap (slots st' !!! x) = cap (slots st !!! y).
Proof.
  intros [_ Hp Ho] Hx. destruct (decide (x ∈ l.*2)) as [([s d] & -> & Hin)%list_elem_of_fmap|Hd]; [exists s; by apply Hp|].
  destruct (decide (x ∈ l.*1)) as [([s d] & -> & Hin)%list_elem_of_fmap|Hs]; [by destruct (Hp s d Hin) as [_ []]|].
  exists x. apply Ho. intros s d Hin. split; intros ->; [apply Hs|apply Hd]; [by apply (list_elem_of_fmap_2 fst l (s, d))|by apply (list_elem_of_fmap_2 snd l (s, d))].
Qed.

Lemma moves_nil st : moves st [] st.
Proof. split; [exists (slots st); by destruct st|by intros s d ?%elem_of_nil|done]. Qed.

Lemma moves_step st b eb l st1 s d :
  kinv_bal st1 b eb → moves st l st1 → (∀ s' d', (s', d') ∈ l → s ≠ s' ∧ s ≠ d' ∧ d ≠ s' ∧ d ≠ d') →
  s ≠ d → ¬ occupied st d →
  wp (slot_move s d) (λ _ st2, kinv_bal st2 b eb ∧ moves st (l ++ [(s, d)]) st2) st1.
Proof.
  intros K [[m1 ->] Hp Ho] Hf Hsd Hd. assert (cap (m1 !!! s) = cap (slots st !!! s)) as Es.
  { apply (Ho s). intros s' d' Hin. destruct (Hf s' d' Hin) as (? & ? & _). done. }
  assert (cap (m1 !!! d) = cap (slots st !!! d)) as Ed.
  { apply (Ho d). intros s' d' Hin. destruct (Hf s' d' Hin) as (_ & _ & ? & ?). done. }
  eapply wp_mono; [apply (slot_move_kinv _ b eb s d K Hsd); unfold occupied; cbn; by rewrite Ed|].
  cbv beta. intros _ st2 (m & -> & M & K2 & _). split; [done|]. cbn in M. split.
  - by exists m.
  - intros s' d' [Hin|[= -> ->]%list_elem_of_singleton]%elem_of_app.
    + destruct (Hf s' d' Hin) as (H1 & H2 & H3 & H4). destruct (Hp s' d' Hin) as [Hp1 Hp2].
      unfold occupied in *. cbn in *. rewrite !(mv_cap _ _ _ _ M) by done. done.
    + unfold occupied. cbn. rewrite (mv_dst _ _ _ _ M), (mv_src _ _ _ _ M). by rewrite Es.
  - intros x Hx. cbn. destruct (Hx s d) as [H1 H2]; [apply elem_of_app; right; by apply list_elem_of_singleton|].
    rewrite (mv_cap _ _ _ _ M) by done. apply Ho. intros s' d' Hin. apply Hx. apply elem_of_app. by left.
Qed.

(** ** Sending *)

(** The pairs [send] moves up to index [c]: the sender's slots into the ring's. *)
Definition send_pairs (caps : list (option SlotId)) (ring : list SlotId) (c : nat) : list (SlotId * SlotId) :=
  omap (λ k, s ← mjoin (caps !! k); d ← ring !! k; Some (s, d)) (seq 0 c).

Lemma elem_of_send_pairs caps ring c s d :
  (s, d) ∈ send_pairs caps ring c ↔ ∃ k, (k < c)%nat ∧ caps !! k = Some (Some s) ∧ ring !! k = Some d.
Proof.
  unfold send_pairs. rewrite list_elem_of_omap. split.
  - intros (k & Hk%elem_of_seq & E). exists k. split; [lia|]. destruct (caps !! k) as [[s'|]|]; [|done..].
    cbn in E. destruct (ring !! k); [|done]. cbn in E. by simplify_eq.
  - intros (k & Hk & E1 & E2). exists k. rewrite elem_of_seq. split; [lia|]. by rewrite E1, E2.
Qed.

Lemma send_pairs_S caps ring c :
  send_pairs caps ring (S c) = send_pairs caps ring c ++
    match caps !! c, ring !! c with Some (Some s), Some d => [(s, d)] | _, _ => [] end.
Proof.
  unfold send_pairs. rewrite seq_S, omap_app. cbn. f_equal.
  destruct (caps !! c) as [[s|]|]; [|done..]. cbn. by destruct (ring !! c).
Qed.

(** The sender's slots are occupied, distinct, and not the ring's own. *)
Record sendable (st : Store) (ch : ObjId) (caps : list (option SlotId)) : Prop := {
  se_len : length caps = MSG_CAPS;
  se_slot c s : caps !! c = Some (Some s) → occupied st s ∧ ¬ is_ring_slot (chans st !!! ch) s;
  se_inj c c' s : caps !! c = Some (Some s) → caps !! c' = Some (Some s) → c = c';
}.

Lemma send_caps_spec st ch r i msg caps b eb st0 :
  kinv_bal st b eb → get_msg (chans st !!! ch) r i = Some msg → 0 ≤ i →
  ring_ok (slots st0) (chans st0 !!! ch) → sendable st0 ch caps →
  (∀ r' i' k, 0 ≤ i' → ring_cap (chans st !!! ch) r' i' k = ring_cap (chans st0 !!! ch) r' i' k) →
  length (m_caps msg) = MSG_CAPS → (∀ d, d ∈ m_caps msg → ¬ occupied st d) →
  wp (for_from 0 MSG_CAPS (send_cap ch r i caps)) (λ _ st', kinv_bal st' b eb ∧
    moves st (send_pairs caps (m_caps msg) MSG_CAPS) st') st.
Proof.
  intros K Hg Hi0 R0 S0 Hring Hlen Hfree.
  assert (∀ k d, m_caps msg !! k = Some d → ring_cap (chans st0 !!! ch) r i k = Some d) as Hrc.
  { intros k d Hk. rewrite <-Hring by done. unfold ring_cap. rewrite Hg. done. }
  eapply wp_mono; [apply (wp_for (λ c st', kinv_bal st' b eb ∧ moves st (send_pairs caps (m_caps msg) c) st'))|by intros].
  - intros c st1 Hc [K1 M1]. unfold send_cap. rewrite wp_bind.
    destruct (lookup_lt_is_Some_2 caps c) as [o Ho]; [rewrite (se_len _ _ _ S0); lia|].
    eapply wp_index; [exact Ho|]. rewrite send_pairs_S, Ho.
    destruct (lookup_lt_is_Some_2 (m_caps msg) c) as [d Hd]; [rewrite Hlen; lia|]. rewrite Hd.
    destruct o as [s|]; [|wp_step; by rewrite app_nil_r].
    rewrite wp_bind. destruct (mo_frame _ _ _ M1) as [m1 ->]. unfold chan_ring_cap. rewrite wp_bind.
    eapply wp_chan_msg; [exact Hg|]. eapply wp_index; [exact Hd|].
    destruct (se_slot _ _ _ S0 c s Ho) as [Hocc Hnr].
    assert (∀ k d', m_caps msg !! k = Some d' → s ≠ d') as Hsd.
    { intros k d' Hk ->. apply Hnr. exists r, i, k. split; [done|by apply Hrc]. }
    apply (moves_step st b eb); [done|done| |by eapply Hsd|apply Hfree; by eapply list_elem_of_lookup_2].
    intros s' d' (k & Hk & Hs' & Hd')%elem_of_send_pairs. split_and!.
    + intros ->. pose proof (se_inj _ _ _ S0 _ _ _ Ho Hs'). lia.
    + by eapply Hsd.
    + intros ->. destruct (se_slot _ _ _ S0 k s' Hs') as [_ Hnr']. apply Hnr'. exists r, i, c. split; [done|by apply Hrc].
    + intros ->. destruct (ro_inj _ _ R0 r i c r i k d' Hi0 Hi0) as (_ & _ & ->); [by apply Hrc..|lia].
  - split; [done|apply moves_nil].
Qed.

(** ** The ring as a queue *)
Lemma nth_idx_range c h k : 0 < ch_depth c → 0 ≤ nth_idx c h k < ch_depth c.
Proof. intros. by apply Z.mod_pos_bound. Qed.

Lemma nth_idx_inj c h k k' :
  0 < ch_depth c → Z.of_nat k < ch_depth c → Z.of_nat k' < ch_depth c → nth_idx c h k = nth_idx c h k' → k = k'.
Proof.
  intros Hd Hk Hk' E. unfold nth_idx in E.
  pose proof (Z.div_mod (h + Z.of_nat k) (ch_depth c)). pose proof (Z.div_mod (h + Z.of_nat k') (ch_depth c)).
  assert ((h + Z.of_nat k) / ch_depth c = (h + Z.of_nat k') / ch_depth c); nia.
Qed.

Section ring.
Context (m m' : gmap SlotId CapSlot) (c : Channel) (r : nat) (h n i : Z) (msg msg' : MsgSlot).
Hypothesis R : ring_ok m c.
Hypothesis Hh : ch_head c !! r = Some h.
Hypothesis Hn : ch_count c !! r = Some n.
Hypothesis Hg : get_msg c r i = Some msg.
Hypothesis Hi : 0 ≤ i.
Hypothesis Hcaps : m_caps msg' = m_caps msg.
Hypothesis Hpay : length (m_payload msg') = Z.to_nat MSG_PAYLOAD ∧ 0 ≤ m_len msg' ≤ MSG_PAYLOAD.
(** Only the slots of this message change. *)
Hypothesis Hsame : ∀ x, is_ring_slot c x → x ∉ m_caps msg → cap (m' !!! x) = cap (m !!! x).

(** Messages at other places read the same. *)
Lemma msg_at_other c' r' j :
  (∀ r' j, 0 ≤ j → get_msg c' r' j = get_msg (put_msg c r i msg') r' j) → 0 ≤ j → (r' ≠ r ∨ j ≠ i) →
  msg_at m' c' r' j = msg_at m c r' j.
Proof using All.
  intros Hc' Hj Hne. unfold msg_at. rewrite Hc', (get_put_msg c r i msg), decide_False by (done || naive_solver).
  destruct (get_msg c r' j) as [v|] eqn:Ev; [|done]. cbn. unfold msg_view. f_equal.
  apply list_fmap_ext. intros k s Hs. cbv beta. f_equal. apply Hsame.
  - exists r', j, k. split; [done|]. unfold ring_cap. by rewrite Ev.
  - intros [k' Hk']%list_elem_of_lookup. destruct (ro_inj _ _ R r' j k r i k' s) as (-> & -> & _); [done|done| | |naive_solver].
    + unfold ring_cap. by rewrite Ev.
    + unfold ring_cap. by rewrite Hg.
Qed.

Lemma queued_other c' r' :
  ch_head c' !! r' = ch_head c !! r' → ch_count c' !! r' = ch_count c !! r' → ch_depth c' = ch_depth c →
  (∀ r' j, 0 ≤ j → get_msg c' r' j = get_msg (put_msg c r i msg') r' j) → r' ≠ r →
  queued_in m' c' r' = queued_in m c r'.
Proof using All.
  intros E1 E2 E3 Hc' Hne. unfold queued_in. rewrite E1, E2. destruct (ch_head c !! r') as [h'|]; [|done].
  destruct (ch_count c !! r') as [n'|]; [|done]. apply list_fmap_ext. intros _ k _. unfold nth_idx. rewrite E3.
  apply msg_at_other; [done|apply Z.mod_pos_bound, (ro_depth _ _ R)|by left].
Qed.

(** The frame part of the ring invariant. *)
Lemma ring_ok_upd c' :
  chan_shape c' → ch_depth c' = ch_depth c → (∀ r' j, 0 ≤ j → get_msg c' r' j = get_msg (put_msg c r i msg') r' j) →
  (∀ r' h', ch_head c' !! r' = Some h' → 0 ≤ h' < ch_depth c) →
  (∀ r' n', ch_count c' !! r' = Some n' → 0 ≤ n' ≤ ch_depth c) →
  (∀ r' h' n' j k s, ch_head c' !! r' = Some h' → ch_count c' !! r' = Some n' → n' ≤ Z.of_nat j < ch_depth c →
     ring_cap c r' (nth_idx c h' j) k = Some s → cap_is_empty (cap (m' !!! s)) = true) →
  ring_ok m' c'.
Proof using All.
  intros S' E3 Hc' H1 H2 H3.
  assert (∀ r' j k, 0 ≤ j → ring_cap c' r' j k = ring_cap c r' j k) as Hrc.
  { intros r' j k Hj. unfold ring_cap. rewrite Hc' by done. by apply (ring_put_msg c r i msg). }
  split; rewrite ?E3; try done; try apply R.
  - intros r' j v. assert (get_msg c' r' j = get_msg c' r' (Z.max 0 j)) as ->.
    { unfold get_msg. by replace (Z.to_nat (Z.max 0 j)) with (Z.to_nat j) by lia. }
    rewrite Hc', (get_put_msg c r i msg) by (done || lia).
    destruct (decide _) as [[-> Ej]|]; [intros [= <-]; done|]. apply (ro_payload _ _ R).
  - intros r1 i1 k1 r2 i2 k2 s Hi1 Hi2. rewrite !Hrc by done. by apply (ro_inj _ _ R).
  - intros r' h' n' j k s Eh En Hj. unfold nth_idx. rewrite E3, Hrc by apply Z.mod_pos_bound, (ro_depth _ _ R).
    by apply (H3 r' h' n').
Qed.

(** Slots of messages outside this one stay as empty as they were. *)
Lemma free_other r' h' n' j k s :
  ch_head c !! r' = Some h' → ch_count c !! r' = Some n' → n' ≤ Z.of_nat j < ch_depth c →
  ring_cap c r' (nth_idx c h' j) k = Some s → (r' ≠ r ∨ nth_idx c h' j ≠ i) → cap_is_empty (cap (m' !!! s)) = true.
Proof using All.
  intros Eh En Hj Hs Hne. assert (0 ≤ nth_idx c h' j) as Hp by (apply Z.mod_pos_bound, (ro_depth _ _ R)).
  rewrite Hsame; [by apply (ro_free _ _ R r' h' n' j k)| |].
  - by exists r', (nth_idx c h' j), k.
  - intros [k' Hk']%list_elem_of_lookup.
    destruct (ro_inj _ _ R r' (nth_idx c h' j) k r i k' s) as (E1 & E2 & _); [done|done|done| |naive_solver].
    unfold ring_cap. by rewrite Hg.
Qed.

(** *** Appending *)
Lemma ring_push :
  i = nth_idx c h (Z.to_nat n) → n < ch_depth c →
  let c' := chan_set_count (put_msg c r i msg') r (n + 1) in
  ring_ok m' c' ∧ queued_in m' c' r = queued_in m c r ++ [msg_view m' msg'] ∧
  ∀ r', r' ≠ r → queued_in m' c' r' = queued_in m c r'.
Proof using All.
  intros Ei Hlt c'. destruct (ro_count _ _ R r n Hn) as [Hn0 _].
  assert (∀ r' j, 0 ≤ j → get_msg c' r' j = get_msg (put_msg c r i msg') r' j) as Hc' by done.
  assert (r < length (ch_count c))%nat as Hl by (by eapply lookup_lt_Some).
  assert (ch_count c' !! r = Some (n + 1)) as En by (by apply list_lookup_insert_eq).
  assert (∀ r', r' ≠ r → ch_count c' !! r' = ch_count c !! r') as En' by (intros; by apply list_lookup_insert_ne).
  split_and!.
  - apply ring_ok_upd; [by apply set_count_shape, (put_msg_shape c r i msg), Hcaps; [apply R|]|done|done|apply R| |].
    + intros r' n'. destruct (decide (r' = r)) as [->|Hr]; [rewrite En; intros [= <-]; lia|].
      rewrite En' by done. apply (ro_count _ _ R).
    + intros r' h' n' j k s Eh. change (ch_head c !! r' = Some h') in Eh. destruct (decide (r' = r)) as [->|Hr].
      * rewrite En. intros [= <-] Hj Hs. assert (h' = h) as -> by congruence.
        eapply (free_other r h n j k); [done|done|lia|done|]. right. rewrite Ei. intros E%nth_idx_inj; destruct (ro_depth _ _ R); lia.
      * rewrite En' by done. intros Hn' Hj Hs. eapply (free_other r' h' n' j k); [done..|by left].
  - unfold queued_in. change (ch_head c' !! r) with (ch_head c !! r). rewrite En, Hh, Hn.
    replace (Z.to_nat (n + 1)) with (S (Z.to_nat n)) by lia. rewrite seq_S, fmap_app. f_equal.
    + apply list_fmap_ext. intros k ? [-> Hk]%lookup_seq. rewrite Nat.add_0_l. change (nth_idx c' h k) with (nth_idx c h k).
      apply msg_at_other; [done|apply nth_idx_range, (ro_depth _ _ R)|]. right. rewrite Ei. intros E%nth_idx_inj; destruct (ro_depth _ _ R); lia.
    + cbn [fmap list_fmap plus]. f_equal. change (nth_idx c' h (Z.to_nat n)) with (nth_idx c h (Z.to_nat n)). rewrite <-Ei.
      unfold msg_at. rewrite Hc', (get_put_msg c r i msg), decide_True by done. done.
  - intros r' Hr. apply queued_other; [done|by apply En'|done|done|done].
Qed.

(** *** Removing the head *)
Lemma ring_pop :
  i = h → 0 < n → (∀ s, s ∈ m_caps msg → cap_is_empty (cap (m' !!! s)) = true) →
  let c' := chan_set_count (chan_set_head (put_msg c r i msg') r ((h + 1) mod ch_depth c)) r (n - 1) in
  ring_ok m' c' ∧ queued_in m c r = msg_view m msg :: queued_in m' c' r ∧
  ∀ r', r' ≠ r → queued_in m' c' r' = queued_in m c r'.
Proof using All.
  intros Ei Hlt Hemp c'. destruct (ro_count _ _ R r n Hn) as [Hn0 Hnd]. destruct (ro_depth _ _ R) as [Hd _].
  destruct (ro_head _ _ R r h Hh) as [Hh0 Hh1].
  assert (∀ r' j, 0 ≤ j → get_msg c' r' j = get_msg (put_msg c r i msg') r' j) as Hc' by done.
  assert (r < length (ch_count c))%nat as Hl by (by eapply lookup_lt_Some).
  assert (r < length (ch_head c))%nat as Hl' by (by eapply lookup_lt_Some).
  assert (ch_count c' !! r = Some (n - 1)) as En by (by apply list_lookup_insert_eq).
  assert (∀ r', r' ≠ r → ch_count c' !! r' = ch_count c !! r') as En' by (intros; by apply list_lookup_insert_ne).
  assert (ch_head c' !! r = Some ((h + 1) mod ch_depth c)) as Eh by (by apply list_lookup_insert_eq).
  assert (∀ r', r' ≠ r → ch_head c' !! r' = ch_head c !! r') as Eh' by (intros; by apply list_lookup_insert_ne).
  assert (∀ k, nth_idx c ((h + 1) mod ch_depth c) k = nth_idx c h (S k)) as Hshift.
  { intros k. unfold nth_idx. rewrite Z.add_mod_idemp_l by lia. f_equal. lia. }
  assert (nth_idx c h 0 = h) as H0 by (unfold nth_idx; rewrite Z.add_0_r; by apply Z.mod_small).
  assert (∀ k, Z.of_nat (S k) < ch_depth c → nth_idx c h (S k) ≠ h) as Hne0.
  { intros k Hk E. rewrite <-H0 in E at 2. apply nth_idx_inj in E; lia. }
  split_and!.
  - apply ring_ok_upd; [|done|done| | |].
    + apply set_count_shape, set_head_shape. by apply (put_msg_shape c r i msg), Hcaps; [apply R|].
    + intros r' h'. destruct (decide (r' = r)) as [->|Hr]; [rewrite Eh; intros [= <-]; by apply Z.mod_pos_bound|].
      rewrite Eh' by done. apply (ro_head _ _ R).
    + intros r' n'. destruct (decide (r' = r)) as [->|Hr]; [rewrite En; intros [= <-]; lia|].
      rewrite En' by done. apply (ro_count _ _ R).
    + intros r' h' n' j k s. destruct (decide (r' = r)) as [->|Hr].
      * rewrite En, Eh. intros [= <-] [= <-] Hj. rewrite Hshift. intros Hs.
        destruct (decide (Z.of_nat (S j) = ch_depth c)) as [Ej|Ej].
        -- apply Hemp. assert (nth_idx c h (S j) = i) as Ex.
           { unfold nth_idx. rewrite Ej, Ei. rewrite <-(Z.mul_1_l (ch_depth c)) at 1. rewrite Z.mod_add by lia. by apply Z.mod_small. }
           rewrite Ex in Hs. unfold ring_cap in Hs. rewrite Hg in Hs. by eapply list_elem_of_lookup_2.
        -- eapply (free_other r h n (S j) k); [done|done|lia|done|]. right. intros E. rewrite Ei in E. by apply Hne0 in E; [|lia].
      * rewrite En', Eh' by done. intros Hh' Hn' Hj Hs. eapply (free_other r' h' n' j k); [done..|by left].
  - unfold queued_in. rewrite En, Eh, Hh, Hn. replace (Z.to_nat n) with (S (Z.to_nat (n - 1))) by lia.
    cbn [seq]. rewrite fmap_cons, H0. f_equal.
    + unfold msg_at. by rewrite <-Ei, Hg.
    + rewrite <-fmap_S_seq, <-list_fmap_compose. apply list_fmap_ext. intros k ? [-> Hk]%lookup_seq. rewrite Nat.add_0_l. cbn [compose].
      change (nth_idx c' ((h + 1) mod ch_depth c) k) with (nth_idx c ((h + 1) mod ch_depth c) k). rewrite Hshift.
      symmetry. apply msg_at_other; [done|apply nth_idx_range; done|]. right. intros E.
      rewrite Ei in E. by apply Hne0 in E; [|lia].
  - intros r' Hr. apply queued_other; [by apply Eh'|by apply En'|done|done|done].
Qed.
End ring.

Lemma wp_umod {S : Type} (a b : Z) (Q : Z → S → Prop) s : b ≠ 0 → Q (a mod b) s → wp (umod a b) Q s.
Proof. intros Hb HQ. unfold umod. by rewrite decide_False. Qed.

(** The message [send] builds. *)
Definition sent (st : Store) (data : list Z) (caps : list (option SlotId)) : Message :=
  (data, (λ o, s ← o; cap_view (cap (slots st !!! s))) <$> caps).

Lemma put_put_msg c r i m0 m1 m2 :
  get_msg c r i = Some m0 → put_msg (put_msg c r i m1) r i m2 = put_msg c r i m2.
Proof.
  intros Hg. unfold get_msg in Hg. destruct (ch_msgs c !! r) as [ring|] eqn:Er; [|done]. unfold put_msg. cbn.
  rewrite list_lookup_insert_eq by (by eapply lookup_lt_Some). rewrite Er. cbn.
  by rewrite !list_insert_insert_eq.
Qed.

Lemma chans_twice ch a b st :
  with_chans (<[ch := a]>) (with_chans (<[ch := b]>) st) = with_chans (<[ch := a]>) st.
Proof. unfold with_chans. cbn. by rewrite insert_insert_eq. Qed.

(** Writing length and payload of one message slot. *)
Lemma write_msg_spec st ch r i m0 data (k : K (result unit ChanError)) Q :
  get_msg (chans st !!! ch) r i = Some m0 → (length data ≤ Z.to_nat MSG_PAYLOAD)%nat → 0 ≤ i →
  wp k Q (with_chans (<[ch := put_msg (chans st !!! ch) r i
    (MkMsg (Z.of_nat (length data)) (data ++ drop (length data) (m_payload m0)) (m_caps m0))]>) st) →
  wp (set_chan_msg_len ch r i (as_u16 (Z.of_nat (length data)));; chan_msg_write ch r i data;; k) Q st.
Proof.
  intros Hg Hl Hi Hk. assert (as_u16 (Z.of_nat (length data)) = Z.of_nat (length data)) as ->.
  { unfold as_u16. apply Z.mod_small. unfold MSG_PAYLOAD in Hl. lia. }
  rewrite wp_bind. unfold set_chan_msg_len. rewrite wp_bind. eapply wp_chan_msg; [exact Hg|].
  eapply wp_set_chan_msg; [exact Hg|]. rewrite wp_bind. unfold chan_msg_write. rewrite wp_bind.
  set (m1 := MkMsg _ _ _). assert (get_msg (put_msg (chans st !!! ch) r i m1) r i = Some m1) as Hg1.
  { by rewrite (get_put_msg _ _ _ m0), decide_True. }
  eapply wp_chan_msg; [cbn; lk; exact Hg1|]. rewrite (take_ge data) by done. cbv zeta.
  eapply wp_set_chan_msg; [cbn; lk; exact Hg1|]. cbn. lk. rewrite (put_put_msg _ _ _ m0) by done.
  rewrite chans_twice. exact Hk.
Qed.

(** What the ring slots of the message hold once the capabilities are in. *)
Lemma sent_view st st0 st' caps msg data :
  moves st (send_pairs caps (m_caps msg) MSG_CAPS) st' → slots st = slots st0 → length caps = MSG_CAPS →
  length (m_caps msg) = MSG_CAPS → NoDup (m_caps msg) → (∀ d, d ∈ m_caps msg → ¬ occupied st d) →
  (∀ c s, caps !! c = Some (Some s) → s ∉ m_caps msg) → m_len msg = Z.of_nat (length data) →
  take (length data) (m_payload msg) = data →
  msg_view (slots st') msg = sent st0 data caps.
Proof.
  intros M Es Hlc Hlm HN Hemp Hsrc Hlen Hpay. unfold msg_view, sent. rewrite Hlen, Nat2Z.id, Hpay. f_equal.
  apply list_eq. intros k. rewrite !list_lookup_fmap.
  destruct (m_caps msg !! k) as [d|] eqn:Ed.
  - assert (k < MSG_CAPS)%nat as Hk by (rewrite <-Hlm; by eapply lookup_lt_Some).
    destruct (lookup_lt_is_Some_2 caps k) as [o Eo]; [lia|]. rewrite Eo. cbn. f_equal. destruct o as [s|]; cbn.
    + f_equal. rewrite <-Es. apply (mo_pair _ _ _ M s d). apply elem_of_send_pairs. eauto.
    + rewrite (mo_other _ _ _ M d).
      * unfold cap_view. specialize (Hemp d). unfold occupied in Hemp. rewrite not_false_iff_true in Hemp.
        rewrite Hemp; [done|by eapply list_elem_of_lookup_2].
      * intros s' d' (k' & Hk' & Hs' & Hd')%elem_of_send_pairs. split; intros ->.
        -- eapply Hsrc; [exact Hs'|]. by eapply list_elem_of_lookup_2.
        -- assert (k' = k) as -> by (by eapply NoDup_lookup). congruence.
  - apply lookup_ge_None in Ed. by rewrite (proj2 (lookup_ge_None caps k)) by lia.
Qed.

(** ** Where slots live *)

(** The slots a CSpace, a ring position or a thread's bindings are made of. *)
Record same_layout (st st' : Store) : Prop := {
  ly_cspaces : cspaces st' = cspaces st;
  ly_ring ch r i k : 0 ≤ i → ring_cap (chans st' !!! ch) r i k = ring_cap (chans st !!! ch) r i k;
  ly_depth ch : ch_depth (chans st' !!! ch) = ch_depth (chans st !!! ch);
  ly_bind t : t_bind_slots (tcbs st' !!! t) = t_bind_slots (tcbs st !!! t);
}.

Lemma same_layout_refl st : same_layout st st.
Proof. by split. Qed.
Lemma same_layout_trans st1 st2 st3 : same_layout st1 st2 → same_layout st2 st3 → same_layout st1 st3.
Proof.
  intros [A1 A2 A3 A4] [B1 B2 B3 B4]. split; [congruence| |congruence|congruence].
  intros ch r i k Hi. by rewrite B2, A2.
Qed.
Lemma shrinks_layout st st' : shrinks st st' → same_layout st st'.
Proof.
  intros [_ _ _ L _]. split; [apply L| |apply L|apply L].
  intros ch r i k _. unfold ring_cap, get_msg. by destruct (sl_msgs _ _ L ch) as [-> _].
Qed.

Lemma is_ring_slot_layout st st' ch s :
  same_layout st st' → is_ring_slot (chans st' !!! ch) s ↔ is_ring_slot (chans st !!! ch) s.
Proof.
  intros L. split; intros (r & i & k & Hi & Hs); exists r, i, k; split; try done.
  - by rewrite <-(ly_ring _ _ L).
  - by rewrite (ly_ring _ _ L).
Qed.

(** ** Sending *)
Section send.
Context (st : Store) (ch : ObjId) (r : nat) (h n : Z) (caps : list (option SlotId)) (data : list Z).
Local Abbreviation c := (chans st !!! ch).
Local Abbreviation i := ((h + n) mod ch_depth c).
Hypothesis R0 : ring_ok (slots st) c.
Hypothesis S0 : sendable st ch caps.
Hypothesis Hr : (r < 2)%nat.
Hypothesis Hh : ch_head c !! r = Some h.
Hypothesis Hn : ch_count c !! r = Some n.
Hypothesis Hroom : n < ch_depth c.
Hypothesis Hdata : (length data ≤ Z.to_nat MSG_PAYLOAD)%nat.

(** The message position behind the queued ones. *)
Record free_msg (m0 : MsgSlot) : Prop := {
  fm_get : get_msg c r i = Some m0;
  fm_payload : length (m_payload m0) = Z.to_nat MSG_PAYLOAD;
  fm_len : length (m_caps m0) = MSG_CAPS;
  fm_ring k d : m_caps m0 !! k = Some d → ring_cap c r i k = Some d;
  fm_free d : d ∈ m_caps m0 → ¬ occupied st d;
  fm_src k s : caps !! k = Some (Some s) → s ∉ m_caps m0;
  fm_nodup : NoDup (m_caps m0);
}.

Lemma send_pos : 0 ≤ i < ch_depth c ∧ i = nth_idx c h (Z.to_nat n) ∧ 0 ≤ h ∧ 0 ≤ n.
Proof using R0 Hh Hn Hroom.
  clear -R0 Hh Hn Hroom. destruct (ro_count _ _ R0 r n Hn) as [Hn0 Hnd]. destruct (ro_depth _ _ R0) as [Hd0 _]. destruct (ro_head _ _ R0 r h Hh) as [Hh0 Hhd].
  split_and!; [by apply Z.mod_pos_bound..| |done|done]. unfold nth_idx. by rewrite Z2Nat.id by lia.
Qed.

Lemma send_free_msg : ∃ m0, free_msg m0.
Proof using R0 S0 Hr Hh Hn Hroom.
  clear Hdata data.
  destruct send_pos as (Hirange & Hi & Hh0 & Hn0). assert (chan_ok st ch) as Hok by apply R0.
  destruct (get_msg_Some st ch Hok r i Hr Hirange) as [m0 Hm0]. exists m0.
  destruct (ro_payload _ _ R0 r i m0 Hm0) as [Hpl _].
  assert (∀ k d, m_caps m0 !! k = Some d → ring_cap c r i k = Some d) as Hrc by (intros k d Hk; unfold ring_cap; by rewrite Hm0).
  split; try done.
  - unfold get_msg in Hm0. destruct (ch_msgs c !! r) as [ring|] eqn:Er; [|done]. by apply (cs_caps _ Hok r ring (Z.to_nat i)).
  - intros d [k Hk]%list_elem_of_lookup. apply Hrc in Hk. rewrite Hi in Hk.
    unfold occupied. rewrite (ro_free _ _ R0 r h n (Z.to_nat n) k d); [done|done|done|lia|done].
  - intros k s Hs [k' Hk']%list_elem_of_lookup. destruct (se_slot _ _ _ S0 k s Hs) as [_ Hnr]. apply Hnr.
    exists r, i, k'. split; [lia|]. by apply Hrc.
  - apply NoDup_alt. intros k k' d Hk Hk'. destruct (ro_inj _ _ R0 r i k r i k' d) as (_ & _ & ?); [lia|lia|by apply Hrc..|done].
Qed.

Definition send_msg (m0 : MsgSlot) : MsgSlot :=
  MkMsg (Z.of_nat (length data)) (data ++ drop (length data) (m_payload m0)) (m_caps m0).
Definition send_written (m0 : MsgSlot) : Store := with_chans (<[ch := put_msg c r i (send_msg m0)]>) st.

Lemma send_ring m0 m2 :
  free_msg m0 → moves (send_written m0) (send_pairs caps (m_caps m0) MSG_CAPS) (with_slots (λ _, m2) (send_written m0)) →
  let c' := chan_set_count (put_msg c r i (send_msg m0)) r (n + 1) in
  ring_ok m2 c' ∧ queued_in m2 c' r = queued st ch r ++ [sent st data caps] ∧
  (∀ r', r' ≠ r → queued_in m2 c' r' = queued st ch r') ∧
  (∀ x, ¬ is_ring_slot c x → (∀ k, caps !! k ≠ Some (Some x)) → cap (m2 !!! x) = cap (slots st !!! x)) ∧
  (∀ k s, caps !! k = Some (Some s) → cap_is_empty (cap (m2 !!! s)) = true).
Proof using All.
  intros F M. cbv zeta. destruct send_pos as (Hirange & Hi & Hh0 & Hn0). pose proof (fm_get _ F) as Hm0.
  destruct (ring_push (slots st) m2 c r h n i m0 (send_msg m0) R0 Hh Hn Hm0) as (R3 & Q3 & Q3'); [lia|done| | |done|lia|].
  { cbn. rewrite length_app, length_drop, (fm_payload _ F). unfold MSG_PAYLOAD in *. lia. }
  { intros x (r' & i' & k & Hi' & Hx) Hnx. apply (mo_other _ _ _ M). intros s d (k' & Hk' & Hs & Hd)%elem_of_send_pairs. split.
    - intros ->. destruct (se_slot _ _ _ S0 k' s Hs) as [_ Hnr]. apply Hnr. by exists r', i', k.
    - intros ->. apply Hnx. by eapply list_elem_of_lookup_2. }
  split_and!; [done| |done| |].
  - rewrite Q3. unfold queued. f_equal. f_equal. change m2 with (slots (with_slots (λ _, m2) (send_written m0))).
    destruct F. apply (sent_view (send_written m0) st _ caps (send_msg m0) data); try done; [apply S0|].
    cbn. by rewrite take_app_length.
  - intros x Hx Hxc. apply (mo_other _ _ _ M x). intros s d (k & Hk & Hs & Hd)%elem_of_send_pairs. split; intros ->; [by eapply Hxc|].
    apply Hx. exists r, i, k. split; [lia|]. by apply (fm_ring _ F).
  - intros k s Hs. destruct (lookup_lt_is_Some_2 (m_caps m0) k) as [d Hd].
    { rewrite (fm_len _ F), <-(se_len _ _ _ S0). by eapply lookup_lt_Some. }
    destruct (mo_pair _ _ _ M s d) as [_ Ho]; [|by unfold occupied in Ho; apply not_false_iff_true].
    apply elem_of_send_pairs. exists k. split_and!; [|done|done]. rewrite <-(se_len _ _ _ S0). by eapply lookup_lt_Some.
Qed.
End send.

(** What a successful send does. *)
Record sent_ok (st : Store) (ch : ObjId) (r : nat) (data : list Z) (caps : list (option SlotId)) (st' : Store) : Prop := {
  sk_kinv : kinv st';
  sk_ring : ring_ok (slots st') (chans st' !!! ch);
  sk_queued : queued st' ch r = queued st ch r ++ [sent st data caps];
  sk_other r' : r' ≠ r → queued st' ch r' = queued st ch r';
  sk_src k s : caps !! k = Some (Some s) → ¬ occupied st' s;
  sk_frame x : ¬ is_ring_slot (chans st !!! ch) x → (∀ k, caps !! k ≠ Some (Some x)) → cap (slots st' !!! x) = cap (slots st !!! x);
  sk_chans ch' : ch' ≠ ch → chans st' !!! ch' = chans st !!! ch';
  sk_ends : ch_end_caps (chans st' !!! ch) = ch_end_caps (chans st !!! ch);
  sk_layout : same_layout st st';
  sk_tcb u : tcb_fixed (tcbs st' !!! u) = tcb_fixed (tcbs st !!! u);
  sk_caps x : occupied st' x → ∃ y, cap (slots st' !!! x) = cap (slots st !!! y);
  sk_thread u : thread_le (pinned st !!! u) (tcbs st !!! u) (tcbs st' !!! u);
  sk_pinned : pinned st' = pinned st;
}.

Lemma send_commit st ch r h n data caps m0 st2 :
  ring_ok (slots st) (chans st !!! ch) → sendable st ch caps → (r < 2)%nat → ch_head (chans st !!! ch) !! r = Some h →
  ch_count (chans st !!! ch) !! r = Some n → n < ch_depth (chans st !!! ch) → (length data ≤ Z.to_nat MSG_PAYLOAD)%nat →
  free_msg st ch r h n caps m0 → kinv st2 →
  moves (send_written st ch r h n data m0) (send_pairs caps (m_caps m0) MSG_CAPS) st2 →
  wp (count ← chan_count ch r; count' ← uadd U32_MAX count 1; set_chan_count ch r count';;
      fire ch (peer r) EV_READABLE;; mret (Ok tt : result unit ChanError))
    (λ res st', res = Ok tt ∧ sent_ok st ch r data caps st') st2.
Proof.
  intros R0 S0 Hr Hh Hn Hroom Hdata F K2 M2. destruct (mo_frame _ _ _ M2) as [m2 ->].
  destruct (send_pos st ch r h n R0 Hh Hn Hroom) as (Hirange & _ & _ & Hn0). destruct (ro_depth _ _ R0) as [_ Hdmax].
  destruct (send_ring st ch r h n caps data R0 S0 Hr Hh Hn Hroom Hdata m0 m2 F M2) as (R3 & Q3 & Q3' & Hfr & Hsrc).
  set (c := chans st !!! ch) in *. set (c1 := put_msg c r ((h + n) mod ch_depth c) (send_msg data m0)) in *.
  set (st1 := send_written st ch r h n data m0) in *.
  assert (chans (with_slots (λ _, m2) st1) !!! ch = c1) as Ec2 by (cbn; by lk).
  assert (chan_shape c1) as Hsh1 by (eapply (put_msg_shape c r _ m0); [apply R0|apply F|done]).
  rewrite wp_bind. apply wp_chan_count; [unfold chan_ok; by rewrite Ec2|done|]. intros n2 Hn2.
  rewrite Ec2 in Hn2. change (ch_count c !! r = Some n2) in Hn2. assert (n2 = n) as -> by congruence. rewrite wp_bind.
  apply wp_uadd; [lia|]. rewrite wp_bind. apply wp_set_chan_count; [unfold chan_ok; by rewrite Ec2|done|]. rewrite Ec2.
  set (st3 := with_chans _ (with_slots (λ _, m2) st1)).
  assert (chans st3 !!! ch = chan_set_count c1 r (n + 1)) as Ec3 by (cbn; by lk).
  assert (kinv st3) as K3 by (apply kinv_rings; [done|by rewrite Ec2..|]; intros _; by apply set_count_shape).
  rewrite wp_bind. eapply wp_mono; [apply (fire_kinv st3 no_refs no_ends ch); [done| |done|unfold peer; lia|unfold EV_READABLE; lia]|].
  { unfold chan_ok. rewrite Ec3. by apply set_count_shape. }
  cbv beta. intros _ st4 (K4 & S4 & W). wp_step. split; [done|].
  assert (∀ ch', ch' ≠ ch → chans st4 !!! ch' = chans st !!! ch') as Hch by (intros ch' Hne; rewrite (wf_chans _ _ W); cbn; by lk).
  assert (∀ t, tcb_fixed (tcbs st4 !!! t) = tcb_fixed (tcbs st !!! t)) as Htf by (intros t; apply (wf_tcb _ _ W t)).
  split; try done; unfold queued, occupied; rewrite ?(wf_slots _ _ W), ?(wf_chans _ _ W), ?Ec3; try done.
  - intros k s Hs. change (slots st3) with m2. by rewrite (Hsrc k s Hs).
  - split.
    + apply (wf_cspaces _ _ W).
    + intros ch' r' i' k Hi'. destruct (decide (ch' = ch)) as [->|]; [|by rewrite Hch].
      rewrite (wf_chans _ _ W), Ec3. apply (ring_put_msg c r _ m0); [apply F|done|lia|done].
    + intros ch'. destruct (decide (ch' = ch)) as [->|]; [|by rewrite Hch]. by rewrite (wf_chans _ _ W), Ec3.
    + intros t. pose proof (Htf t) as E. unfold tcb_fixed in E. congruence.
  - intros x. apply (moves_caps _ _ _ x M2).
  - apply (sh_thread _ _ S4).
  - apply (wf_pinned _ _ W).
Qed.

(** A full or closed channel is left alone; otherwise the message is appended. *)
Lemma send_spec st ch e data caps :
  kinv st → ring_ok (slots st) (chans st !!! ch) → sendable st ch caps → (length data ≤ Z.to_nat MSG_PAYLOAD)%nat →
  wp (send ch e data caps) (λ res st', match res with
    | Ok _ => sent_ok st ch (end_idx e) data caps st'
    | Err PeerClosed => st' = st ∧ ch_end_caps (chans st !!! ch) !! peer (end_idx e) = Some 0
    | Err Full => st' = st ∧ Z.of_nat (length (queued st ch (end_idx e))) = ch_depth (chans st !!! ch)
    | Err _ => False
    end) st.
Proof.
  intros K R0 S0 Hdata. assert (chan_ok st ch) as Hok by apply R0.
  pose proof (end_idx_lt e) as He. set (r := end_idx e) in *. assert (peer r < 2)%nat as Hpe by (unfold peer; lia).
  unfold send. fold r. rewrite wp_bind. apply wp_chan_end_caps; [done|done|]. intros pe Hpe'.
  destruct (Z.eqb_spec pe 0) as [->|Hpe0]; [by wp_step|].
  unfold chan_depth. wp_step. apply wp_chan_count; [done|done|]. intros n Hn.
  destruct (list2_lookup _ r (cs_head _ Hok) He) as [h Hh].
  destruct (ro_count _ _ R0 r n Hn) as [Hn0 Hnd]. destruct (ro_depth _ _ R0) as [Hd0 Hdmax]. destruct (ro_head _ _ R0 r h Hh) as [Hh0 Hhd].
  destruct (Z.eqb_spec n (ch_depth (chans st !!! ch))) as [En|En].
  { wp_step. split; [done|]. unfold queued, queued_in. rewrite Hh, Hn, length_fmap, length_seq. lia. }
  rewrite wp_bind. apply wp_chan_head; [done|done|]. intros h' Hh'. simplify_eq. rewrite wp_bind.
  apply wp_chan_count; [done|done|]. intros n' Hn'. simplify_eq. rewrite wp_bind.
  apply wp_uadd; [lia|]. rewrite wp_bind. apply wp_umod; [lia|].
  assert (n < ch_depth (chans st !!! ch)) as Hroom by lia.
  destruct (send_free_msg st ch r h n caps R0 S0 He Hh Hn Hroom) as [m0 F].
  destruct (send_pos st ch r h n R0 Hh Hn Hroom) as (Hirange & _).
  eapply write_msg_spec; [apply F|done|lia|]. fold (send_msg data m0). fold (send_written st ch r h n data m0).
  assert (chans (send_written st ch r h n data m0) !!! ch = put_msg (chans st !!! ch) r ((h + n) mod ch_depth (chans st !!! ch)) (send_msg data m0)) as Ec1 by (cbn; by lk).
  rewrite wp_bind. eapply wp_mono; [apply (send_caps_spec _ ch r _ (send_msg data m0) caps no_refs no_ends st)|].
  - apply kinv_rings; [done..|]. intros Hs. by eapply (put_msg_shape _ r _ m0); [|apply F|].
  - rewrite Ec1. by rewrite (get_put_msg _ r _ m0), decide_True by (apply F || done || lia).
  - lia.
  - done.
  - done.
  - intros r' i' k Hi'. rewrite Ec1. apply (ring_put_msg _ r _ m0); [apply F|done|lia|done].
  - apply F.
  - intros d Hd. apply (fm_free _ _ _ _ _ _ _ F d Hd).
  - cbv beta. intros _ st2 [K2 M2]. eapply wp_mono; [by eapply (send_commit st ch r h n data caps m0)|].
    cbv beta. by intros res st' [-> Hok'].
Qed.

(** ** Receiving *)
Record receivable (st : Store) (ch : ObjId) (dests : list (option SlotId)) : Prop := {
  re_len : length dests = MSG_CAPS;
  re_slot c d : dests !! c = Some (Some d) → ¬ is_ring_slot (chans st !!! ch) d;
  re_inj c c' d : dests !! c = Some (Some d) → dests !! c' = Some (Some d) → c = c';
}.

(** The receiver named an empty slot for the capability at [k]. *)
Definition dest_ready (st : Store) (dests : list (option SlotId)) (k : nat) : Prop :=
  ∃ d, dests !! k = Some (Some d) ∧ ¬ occupied st d.

Section recv.
Context (st : Store) (ch : ObjId) (r : nat) (h : Z) (msg : MsgSlot) (dests : list (option SlotId)).
Hypothesis Hg : get_msg (chans st !!! ch) r h = Some msg.
Hypothesis Hlm : length (m_caps msg) = MSG_CAPS.
Hypothesis D : receivable st ch dests.

Lemma recv_check_spec c n :
  (c + n = MSG_CAPS)%nat →
  wp (recv_check ch r h dests c n) (λ b st', st' = st ∧ if (b : bool)
    then ∀ k s, (c ≤ k)%nat → m_caps msg !! k = Some s → occupied st s → dest_ready st dests k
    else ∃ k s, m_caps msg !! k = Some s ∧ occupied st s ∧ ¬ dest_ready st dests k) st.
Proof using All.
  revert c. induction n as [|n IH]; intros c Hc; simpl.
  { wp_step. split; [done|]. intros k s Hk Hs%lookup_lt_Some. lia. }
  destruct (lookup_lt_is_Some_2 (m_caps msg) c) as [s Hs]; [lia|].
  rewrite wp_bind. unfold chan_ring_cap. rewrite wp_bind. eapply wp_chan_msg; [exact Hg|].
  eapply wp_index; [exact Hs|]. unfold slot. wp_step.
  assert ((occupied st s → dest_ready st dests c) → ∀ (b : bool) st', st' = st ∧ (if b
    then ∀ k s, (S c ≤ k)%nat → m_caps msg !! k = Some s → occupied st s → dest_ready st dests k
    else ∃ k s, m_caps msg !! k = Some s ∧ occupied st s ∧ ¬ dest_ready st dests k) → st' = st ∧ (if b
    then ∀ k s, (c ≤ k)%nat → m_caps msg !! k = Some s → occupied st s → dest_ready st dests k
    else ∃ k s, m_caps msg !! k = Some s ∧ occupied st s ∧ ¬ dest_ready st dests k)) as Hstep.
  { intros H [] st' [-> Hk]; (split; [done|]); [|done]. intros k s' Hck Hs' Ho.
    destruct (decide (k = c)) as [->|]; [simplify_eq; by apply H|]. eapply Hk; [lia|done|done]. }
  destruct (cap_is_empty (cap (slots st !!! s))) eqn:E; cbn [negb].
  - eapply wp_mono; [apply IH; lia|]. cbv beta. apply Hstep. unfold occupied. congruence.
  - destruct (lookup_lt_is_Some_2 dests c) as [o Ho]; [rewrite (re_len _ _ _ D); lia|].
    rewrite wp_bind. eapply wp_index; [exact Ho|]. destruct o as [d|]; wp_step.
    + destruct (cap_is_empty (cap (slots st !!! d))) eqn:Ed; cbn [negb].
      * eapply wp_mono; [apply IH; lia|]. cbv beta. apply Hstep. intros _. exists d. split; [done|]. unfold occupied. congruence.
      * wp_step. split; [done|]. exists c, s. split_and!; [done|done|]. intros (d' & Hd' & Hn). simplify_eq. by apply Hn.
    + split; [done|]. exists c, s. split_and!; [done|done|]. intros (d' & Hd' & Hn). congruence.
Qed.

(** The pairs [recv] moves up to index [c]: the ring's slots to the receiver's. *)
Definition recv_pairs (c : nat) : list (SlotId * SlotId) :=
  omap (λ k, s ← m_caps msg !! k; d ← mjoin (dests !! k);
    if cap_is_empty (cap (slots st !!! s)) then None else Some (s, d)) (seq 0 c).

Lemma elem_of_recv_pairs c s d :
  (s, d) ∈ recv_pairs c ↔ ∃ k, (k < c)%nat ∧ m_caps msg !! k = Some s ∧ dests !! k = Some (Some d) ∧ occupied st s.
Proof using Hlm.
  unfold recv_pairs. rewrite list_elem_of_omap. split.
  - intros (k & Hk%elem_of_seq & E). exists k. split; [lia|]. destruct (m_caps msg !! k) as [s'|]; [|done].
    cbn in E. destruct (dests !! k) as [[d'|]|]; [|done..]. cbn in E.
    destruct (cap_is_empty (cap (slots st !!! s'))) eqn:Es; [done|]. by simplify_eq.
  - intros (k & Hk & E1 & E2 & E3). exists k. rewrite elem_of_seq. split; [lia|]. rewrite E1, E2. cbn. by rewrite E3.
Qed.

Lemma recv_pairs_S c s :
  m_caps msg !! c = Some s →
  recv_pairs (S c) = recv_pairs c ++
    match dests !! c with Some (Some d) => if cap_is_empty (cap (slots st !!! s)) then [] else [(s, d)] | _ => [] end.
Proof.
  intros Hs. unfold recv_pairs. rewrite seq_S, omap_app. cbn. rewrite Hs. f_equal. cbn.
  destruct (dests !! c) as [[d|]|]; [|done..]. cbn. by destruct (cap_is_empty _).
Qed.

(** The install mask names the capabilities that arrived. *)
Definition mask_ok (c : nat) (mask : Z) : Prop :=
  ∀ k s, m_caps msg !! k = Some s → Z.testbit mask (Z.of_nat k) = bool_decide ((k < c)%nat ∧ occupied st s).

Context (b : ObjId → Z) (eb : ObjId → ChanEnd.chan_end → Z).
Hypothesis R : ring_ok (slots st) (chans st !!! ch).
Hypothesis Hh : 0 ≤ h.
Hypothesis Hready : ∀ k s, m_caps msg !! k = Some s → occupied st s → dest_ready st dests k.

Lemma recv_slot k s : m_caps msg !! k = Some s → ring_cap (chans st !!! ch) r h k = Some s.
Proof using Hg. intros Hk. unfold ring_cap. by rewrite Hg. Qed.

Lemma recv_move_spec c n mask st1 :
  (c + n = MSG_CAPS)%nat → kinv_bal st1 b eb → moves st (recv_pairs c) st1 → mask_ok c mask → 0 ≤ mask →
  wp (recv_move ch r h dests c n mask) (λ mask' st', kinv_bal st' b eb ∧
    moves st (recv_pairs MSG_CAPS) st' ∧ mask_ok MSG_CAPS mask') st1.
Proof using All.
  revert c mask st1. induction n as [|n IH]; intros c mask st1 Hc K1 M1 Hmask Hpos; simpl.
  { wp_step. by replace MSG_CAPS with c by lia. }
  destruct (lookup_lt_is_Some_2 (m_caps msg) c) as [s Hs]; [lia|].
  rewrite wp_bind. unfold chan_ring_cap. rewrite wp_bind. pose proof (mo_frame _ _ _ M1) as [m1 E1].
  eapply wp_chan_msg; [by rewrite E1|]. eapply wp_index; [exact Hs|]. unfold slot. wp_step.
  assert (∀ k s' d, (k < c)%nat → m_caps msg !! k = Some s' → dests !! k = Some (Some d) → s ≠ s' ∧ s ≠ d) as Hfs.
  { intros k s' d Hk Hs' Hd. split; intros ->.
    - destruct (ro_inj _ _ R r h c r h k s') as (_ & _ & ?); [done|done|by apply recv_slot..|lia].
    - eapply (re_slot _ _ _ D); [exact Hd|]. exists r, h, c. split; [done|by apply recv_slot]. }
  assert (cap (slots st1 !!! s) = cap (slots st !!! s)) as Ecap.
  { apply (mo_other _ _ _ M1). intros s' d' (k & Hk & Hs' & Hd' & _)%elem_of_recv_pairs. by eapply Hfs. }
  rewrite Ecap. destruct (cap_is_empty (cap (slots st !!! s))) eqn:E; cbn [negb].
  - apply IH; [lia|done| | |done].
    + rewrite (recv_pairs_S c s Hs), E. destruct (dests !! c) as [[d|]|]; by rewrite app_nil_r.
    + intros k s' Hs'. rewrite (Hmask k s' Hs'). apply bool_decide_ext. split; intros [Hk Ho]; (split; [|done]); [lia|].
      destruct (decide (k = c)) as [->|]; [|lia]. simplify_eq. unfold occupied in Ho. congruence.
  - destruct (Hready c s Hs E) as (d & Hd & Hdo). rewrite wp_bind. eapply wp_index; [exact Hd|].
    rewrite wp_bind. eapply wp_unwrap; [done|]. rewrite wp_bind.
    assert (∀ k s', m_caps msg !! k = Some s' → d ≠ s') as Hds.
    { intros k s' Hk ->. eapply (re_slot _ _ _ D); [exact Hd|]. exists r, h, k. split; [done|by apply recv_slot]. }
    eapply wp_mono; [apply (moves_step st b eb (recv_pairs c)); [done|done| | |done]|].
    + intros s' d' (k & Hk & Hs' & Hd' & _)%elem_of_recv_pairs. destruct (Hfs k s' d' Hk Hs' Hd').
      split_and!; [done|done|by eapply Hds|]. intros ->. pose proof (re_inj _ _ _ D _ _ _ Hd Hd'). lia.
    + apply not_eq_sym. by eapply Hds.
    + cbv beta. intros _ st2 [K2 M2]. apply IH; [lia|done| | |].
      * by rewrite (recv_pairs_S c s Hs), Hd, E.
      * intros k s' Hs'. rewrite testbit_set by lia. rewrite (Hmask k s' Hs').
        destruct (decide (k = c)) as [->|Hne].
        -- simplify_eq. rewrite (bool_decide_eq_true_2 (Z.of_nat c = Z.of_nat c)), orb_true_r by done.
           symmetry. apply bool_decide_eq_true_2. split; [lia|done].
        -- rewrite (bool_decide_eq_false_2 (Z.of_nat k = Z.of_nat c)), orb_false_r by lia.
           apply bool_decide_ext. split; intros [Hk Ho]; (split; [lia|done]).
      * apply Z.lor_nonneg. split; [done|]. apply Z.shiftl_nonneg. lia.
Qed.
End recv.

(** What a successful [recv] hands over, given the message at the head. *)
Record received (st' : Store) (msg : Message) (dests : list (option SlotId)) (buf : list Z)
    (len mask : Z) (buf' : list Z) : Prop := {
  rv_len : len = Z.of_nat (length msg.1);
  rv_buf : buf' = msg.1 ++ drop (length msg.1) buf;
  rv_cap k c : msg.2 !! k = Some (Some c) →
    Z.testbit mask (Z.of_nat k) = true ∧ ∃ d, dests !! k = Some (Some d) ∧ cap (slots st' !!! d) = c;
  rv_none k : msg.2 !! k = Some None → Z.testbit mask (Z.of_nat k) = false;
}.

(** The moves put every capability of the message where the receiver asked. *)
Lemma received_ok st st' msg dests buf mask :
  moves st (recv_pairs st msg dests MSG_CAPS) st' → mask_ok st msg MSG_CAPS mask → length (m_caps msg) = MSG_CAPS →
  (∀ k s, m_caps msg !! k = Some s → occupied st s → dest_ready st dests k) →
  0 ≤ m_len msg ≤ MSG_PAYLOAD → length (m_payload msg) = Z.to_nat MSG_PAYLOAD → length buf = Z.to_nat MSG_PAYLOAD →
  received st' (msg_view (slots st) msg) dests buf (m_len msg) mask
    (let n := Z.to_nat (Z.min (Z.min (m_len msg) MSG_PAYLOAD) (Z.of_nat (length buf))) in
     take n (m_payload msg) ++ drop n buf).
Proof.
  intros M Hmask Hlm Hready Hlen Hpay Hbuf. unfold msg_view. cbn [fst snd].
  assert (length (take (Z.to_nat (m_len msg)) (m_payload msg)) = Z.to_nat (m_len msg)) as Hlt.
  { rewrite length_take, Hpay. lia. }
  assert (Z.to_nat (Z.min (Z.min (m_len msg) MSG_PAYLOAD) (Z.of_nat (length buf))) = Z.to_nat (m_len msg)) as En by lia.
  split; cbn [fst snd]; rewrite ?Hlt, ?En; [lia|done| |].
  - intros k c. rewrite list_lookup_fmap. destruct (m_caps msg !! k) as [s|] eqn:Es; [|done]. cbn. intros [= Hv].
    unfold cap_view in Hv. destruct (cap_is_empty (cap (slots st !!! s))) eqn:E; [done|]. simplify_eq.
    assert (k < MSG_CAPS)%nat as Hk by (rewrite <-Hlm; by eapply lookup_lt_Some).
    rewrite (Hmask k s Es). split; [by apply bool_decide_eq_true_2|].
    destruct (Hready k s Es E) as (d & Hd & _). exists d. split; [done|].
    apply (mo_pair _ _ _ M s d). apply elem_of_recv_pairs; [done|]. exists k. done.
  - intros k. rewrite list_lookup_fmap. destruct (m_caps msg !! k) as [s|] eqn:Es; [|done]. cbn. intros [= Hv].
    rewrite (Hmask k s Es). apply bool_decide_eq_false_2. intros [_ Ho]. unfold cap_view in Hv.
    unfold occupied in Ho. by rewrite Ho in Hv.
Qed.

(** Nothing is lost: the ring slots of the message are empty, others untouched. *)
Lemma recv_moved st st' ch r h msg dests :
  moves st (recv_pairs st msg dests MSG_CAPS) st' → length (m_caps msg) = MSG_CAPS →
  get_msg (chans st !!! ch) r h = Some msg → 0 ≤ h →
  ring_ok (slots st) (chans st !!! ch) → receivable st ch dests →
  (∀ k s, m_caps msg !! k = Some s → occupied st s → dest_ready st dests k) →
  (∀ s, s ∈ m_caps msg → cap_is_empty (cap (slots st' !!! s)) = true) ∧
  (∀ x, is_ring_slot (chans st !!! ch) x → x ∉ m_caps msg → cap (slots st' !!! x) = cap (slots st !!! x)).
Proof.
  intros M Hlm Hg Hh R D Hready. split.
  - intros s [k Hk]%list_elem_of_lookup. destruct (decide (occupied st s)) as [Ho|Ho].
    + destruct (Hready k s Hk Ho) as (d & Hd & _). apply not_false_is_true.
      apply (mo_pair _ _ _ M s d). apply elem_of_recv_pairs; [done|]. exists k. split_and!; [|done..].
      rewrite <-Hlm. by eapply lookup_lt_Some.
    + apply not_false_is_true in Ho. rewrite (mo_other _ _ _ M s); [done|].
      intros s' d' (k' & Hk' & Hs' & Hd' & Ho')%elem_of_recv_pairs; [|done]. split; intros ->.
      * unfold occupied in Ho'. congruence.
      * eapply (re_slot _ _ _ D); [exact Hd'|]. exists r, h, k. split; [done|]. unfold ring_cap. by rewrite Hg.
  - intros x Hx Hnx. apply (mo_other _ _ _ M). intros s' d' (k' & Hk' & Hs' & Hd' & Ho')%elem_of_recv_pairs; [|done].
    split; intros ->; [apply Hnx; by eapply list_elem_of_lookup_2|]. by eapply (re_slot _ _ _ D).
Qed.

(** What a successful receive does. *)
Record recv_ok (st : Store) (ch : ObjId) (r : nat) (msg : Message) (dests : list (option SlotId)) (buf : list Z)
    (len mask : Z) (buf' : list Z) (st' : Store) : Prop := {
  rk_kinv : kinv st';
  rk_ring : ring_ok (slots st') (chans st' !!! ch);
  rk_queued : queued st ch r = msg :: queued st' ch r;
  rk_other r' : r' ≠ r → queued st' ch r' = queued st ch r';
  rk_received : received st' msg dests buf len mask buf';
  rk_frame x : ¬ is_ring_slot (chans st !!! ch) x → (∀ k, dests !! k ≠ Some (Some x)) → cap (slots st' !!! x) = cap (slots st !!! x);
  rk_chans ch' : ch' ≠ ch → chans st' !!! ch' = chans st !!! ch';
  rk_ends : ch_end_caps (chans st' !!! ch) = ch_end_caps (chans st !!! ch);
  rk_layout : same_layout st st';
  rk_tcb u : tcb_fixed (tcbs st' !!! u) = tcb_fixed (tcbs st !!! u);
  rk_caps x : occupied st' x → ∃ y, cap (slots st' !!! x) = cap (slots st !!! y);
  rk_thread u : thread_le (pinned st !!! u) (tcbs st !!! u) (tcbs st' !!! u);
  rk_pinned : pinned st' = pinned st;
  rk_aspaces : aspaces st' = aspaces st;
  rk_len : 0 ≤ len ≤ MSG_PAYLOAD;
}.

(** The oldest message of a ring that is not empty. *)
Record head_msg (st : Store) (ch : ObjId) (r : nat) (h : Z) (msg : MsgSlot) : Prop := {
  hm_get : get_msg (chans st !!! ch) r h = Some msg;
  hm_payload : length (m_payload msg) = Z.to_nat MSG_PAYLOAD ∧ 0 ≤ m_len msg ≤ MSG_PAYLOAD;
  hm_len : length (m_caps msg) = MSG_CAPS;
  hm_queued : ∃ rest, queued st ch r = msg_view (slots st) msg :: rest;
}.

Lemma ring_head_msg st ch r h n :
  ring_ok (slots st) (chans st !!! ch) → (r < 2)%nat → ch_head (chans st !!! ch) !! r = Some h →
  ch_count (chans st !!! ch) !! r = Some n → 0 < n → ∃ msg, head_msg st ch r h msg.
Proof.
  intros R0 Hr Hh Hn Hpos. assert (chan_ok st ch) as Hok by apply R0.
  destruct (ro_head _ _ R0 r h Hh) as [Hh0 Hhd]. destruct (get_msg_Some st ch Hok r h Hr (conj Hh0 Hhd)) as [msg Hg].
  exists msg. split; [done|by apply (ro_payload _ _ R0 r h)| |].
  - unfold get_msg in Hg. destruct (ch_msgs _ !! r) as [rg|] eqn:Er; [|done]. by apply (cs_caps _ Hok r rg (Z.to_nat h)).
  - unfold queued, queued_in. rewrite Hh, Hn. replace (Z.to_nat n) with (S (Z.to_nat (n - 1))) by lia.
    cbn [seq]. rewrite fmap_cons. eexists. f_equal. unfold msg_at, nth_idx. rewrite Z.add_0_r, Z.mod_small by lia. by rewrite Hg.
Qed.

Definition recv_cleared (c : Channel) (r : nat) (h n : Z) (msg : MsgSlot) : Channel :=
  chan_set_count (chan_set_head (put_msg c r h (MkMsg 0 (m_payload msg) (m_caps msg))) r ((h + 1) mod ch_depth c)) r (n - 1).

(** The bookkeeping after the capabilities have moved. *)
Lemma recv_advance st ch r q h n msg buf mask m2 Q :
  ring_ok (slots st) (chans st !!! ch) → (r < 2)%nat → ch_head (chans st !!! ch) !! r = Some h →
  ch_count (chans st !!! ch) !! r = Some n → 0 < n → head_msg st ch r h msg →
  let st2 := with_slots (λ _, m2) st in
  let buf' := let n := Z.to_nat (Z.min (Z.min (m_len msg) MSG_PAYLOAD) (Z.of_nat (length buf))) in
     take n (m_payload msg) ++ drop n buf in
  wp (fire ch q EV_WRITABLE;; mret (Ok (m_len msg, mask), buf')) Q
    (with_chans (<[ch := recv_cleared (chans st !!! ch) r h n msg]>) st2) →
  wp (len ← chan_msg_len ch r h;
      buf' ← chan_msg_read ch r h len buf;
      set_chan_msg_len ch r h 0;;
      depth ← chan_depth ch;
      h1 ← uadd U32_MAX h 1;
      h' ← umod h1 depth;
      set_chan_head ch r h';;
      count ← chan_count ch r;
      count' ← usub count 1;
      set_chan_count ch r count';;
      fire ch q EV_WRITABLE;;
      mret (Ok (len, mask) : result (Z * Z) ChanError, buf')) Q st2.
Proof.
  intros R0 Hr Hh Hn Hpos H st2 buf' HQ. assert (chan_ok st ch) as Hok by apply R0. pose proof (hm_get _ _ _ _ _ H) as Hg.
  destruct (ro_head _ _ R0 r h Hh) as [Hh0 Hhd]. destruct (ro_depth _ _ R0) as [Hd0 Hdmax].
  set (c := chans st !!! ch) in *. assert (chans st2 !!! ch = c) as Ec2 by done.
  rewrite wp_bind. unfold chan_msg_len. rewrite wp_bind. eapply wp_chan_msg; [by rewrite Ec2|]. rewrite wp_ret.
  rewrite wp_bind. unfold chan_msg_read. rewrite wp_bind. eapply wp_chan_msg; [by rewrite Ec2|]. rewrite wp_ret.
  rewrite wp_bind. unfold set_chan_msg_len. rewrite wp_bind. eapply wp_chan_msg; [by rewrite Ec2|].
  eapply wp_set_chan_msg; [by rewrite Ec2|]. rewrite Ec2. set (m1 := MkMsg 0 (m_payload msg) (m_caps msg)).
  set (c1 := put_msg c r h m1). unfold chan_depth. rewrite wp_bind, wp_gets.
  set (st3 := with_chans (<[ch := c1]>) st2). assert (chans st3 !!! ch = c1) as Ec3 by (cbn; by lk).
  assert (chan_shape c1) as Hs1 by (by apply (put_msg_shape c r h msg)).
  rewrite Ec3. change (ch_depth c1) with (ch_depth c). rewrite wp_bind. apply wp_uadd; [lia|]. rewrite wp_bind. apply wp_umod; [lia|].
  rewrite wp_bind. apply wp_set_chan_head; [unfold chan_ok; by rewrite Ec3|done|]. rewrite Ec3. unfold st3 at 1. rewrite chans_twice.
  set (c2 := chan_set_head c1 r ((h + 1) mod ch_depth c)). set (st4 := with_chans (<[ch := c2]>) st2).
  assert (chans st4 !!! ch = c2) as Ec4 by (cbn; by lk).
  assert (chan_ok st4 ch) as Hok4 by (unfold chan_ok; rewrite Ec4; by apply set_head_shape).
  rewrite wp_bind. apply wp_chan_count; [done|done|]. intros n' Hn'. rewrite Ec4 in Hn'. change (ch_count c !! r = Some n') in Hn'.
  assert (n' = n) as -> by congruence. rewrite wp_bind. apply wp_usub; [lia|]. rewrite wp_bind.
  apply wp_set_chan_count; [done|done|]. rewrite Ec4. unfold st4. rewrite chans_twice. exact HQ.
Qed.

Lemma recv_commit st ch r q h n msg dests buf mask m2 :
  (q < 2)%nat → ring_ok (slots st) (chans st !!! ch) → (r < 2)%nat → ch_head (chans st !!! ch) !! r = Some h →
  ch_count (chans st !!! ch) !! r = Some n → 0 < n → head_msg st ch r h msg → receivable st ch dests →
  length buf = Z.to_nat MSG_PAYLOAD → kinv (with_slots (λ _, m2) st) →
  (∀ k s, m_caps msg !! k = Some s → occupied st s → dest_ready st dests k) →
  moves st (recv_pairs st msg dests MSG_CAPS) (with_slots (λ _, m2) st) → mask_ok st msg MSG_CAPS mask →
  let buf' := let n := Z.to_nat (Z.min (Z.min (m_len msg) MSG_PAYLOAD) (Z.of_nat (length buf))) in
     take n (m_payload msg) ++ drop n buf in
  wp (fire ch q EV_WRITABLE;; mret (Ok (m_len msg, mask) : result (Z * Z) ChanError, buf'))
    (λ res st', res = (Ok (m_len msg, mask), buf') ∧
      recv_ok st ch r (msg_view (slots st) msg) dests buf (m_len msg) mask buf' st')
    (with_chans (<[ch := recv_cleared (chans st !!! ch) r h n msg]>) (with_slots (λ _, m2) st)).
Proof.
  intros Hq2 R0 Hr Hh Hn Hpos H D Hbuf K2 Hready M2 Hmask buf'. destruct H as [Hg [Hpl Hml] Hlm [rest Hq]].
  destruct (ro_head _ _ R0 r h Hh) as [Hh0 Hhd]. set (c := chans st !!! ch) in *. set (c3 := recv_cleared c r h n msg).
  set (st5 := with_chans _ _). assert (chans st5 !!! ch = c3) as Ec5 by (cbn; by lk).
  assert (chan_shape c3) as Hs3 by (apply set_count_shape, set_head_shape; eapply put_msg_shape; [apply R0|done|done]).
  assert (kinv st5) as K5 by (by apply kinv_rings).
  rewrite wp_bind. eapply wp_mono; [apply (fire_kinv st5 no_refs no_ends ch); [done|unfold chan_ok; by rewrite Ec5|done|done|unfold EV_WRITABLE; lia]|].
  cbv beta. intros _ st6 (K6 & S6 & F). wp_step. split; [done|].
  destruct (recv_moved st _ ch r h msg dests M2 Hlm Hg Hh0 R0 D Hready) as [Hemp Hsame].
  destruct (ring_pop (slots st) m2 c r h n h msg (MkMsg 0 (m_payload msg) (m_caps msg)) R0 Hh Hn Hg Hh0 eq_refl) as (R5 & Q5 & Q5'); [done|done|done|done|done|].
  fold c3 in R5, Q5, Q5'.
  assert (∀ ch', ch' ≠ ch → chans st6 !!! ch' = chans st !!! ch') as Hch by (intros ch' Hne; rewrite (wf_chans _ _ F); cbn; by lk).
  assert (∀ t, tcb_fixed (tcbs st6 !!! t) = tcb_fixed (tcbs st !!! t)) as Htf by (intros t; apply (wf_tcb _ _ F t)).
  split; try done; unfold queued; rewrite ?(wf_slots _ _ F), ?(wf_chans _ _ F), ?Ec5; try done.
  - pose proof (received_ok st _ msg dests buf mask M2 Hmask Hlm Hready Hml Hpl Hbuf) as [V1 V2 V3 V4].
    split; [done|done| |done]. intros k cc Hk. rewrite (wf_slots _ _ F). by apply V3.
  - intros x Hx Hxd. apply (mo_other _ _ _ M2 x). intros s d (k & Hk & Hs & Hd & Ho)%elem_of_recv_pairs; [|done]. split; intros ->; [|by eapply Hxd].
    apply Hx. exists r, h, k. split; [done|]. fold c. unfold ring_cap. by rewrite Hg.
  - split.
    + apply (wf_cspaces _ _ F).
    + intros ch' r' i' k Hi'. destruct (decide (ch' = ch)) as [->|]; [|by rewrite Hch].
      rewrite (wf_chans _ _ F), Ec5. by apply (ring_put_msg c r _ msg).
    + intros ch'. destruct (decide (ch' = ch)) as [->|]; [|by rewrite Hch]. by rewrite (wf_chans _ _ F), Ec5.
    + intros t. pose proof (Htf t) as E. unfold tcb_fixed in E. congruence.
  - intros x. unfold occupied. rewrite (wf_slots _ _ F). apply (moves_caps _ _ _ x M2).
  - apply (sh_thread _ _ S6).
  - apply (wf_pinned _ _ F).
  - apply (wf_aspaces _ _ F).
Qed.

(** An empty ring or a message whose capabilities do not fit leaves everything alone;
    otherwise the oldest message is handed over. *)
Lemma recv_spec st ch e buf dests :
  kinv st → ring_ok (slots st) (chans st !!! ch) → receivable st ch dests → length buf = Z.to_nat MSG_PAYLOAD →
  let ring := peer (end_idx e) in
  wp (recv ch e buf dests) (λ res st', match res with
    | (Ok (len, mask), buf') => ∃ msg, recv_ok st ch ring msg dests buf len mask buf' st'
    | (Err Empty, buf') => st' = st ∧ buf' = buf ∧ queued st ch ring = []
    | (Err NoCapSlot, buf') => st' = st ∧ buf' = buf ∧ ∃ msg rest k, queued st ch ring = msg :: rest ∧
        (∃ c, msg.2 !! k = Some (Some c)) ∧ ¬ dest_ready st dests k
    | (Err _, _) => False
    end) st.
Proof.
  intros K R0 D Hbuf ring. assert (chan_ok st ch) as Hok by apply R0.
  pose proof (end_idx_lt e) as He. assert (ring < 2)%nat as Hr by (unfold ring, peer; lia).
  unfold recv. fold ring. rewrite wp_bind. apply wp_chan_count; [done|done|]. intros n Hn.
  destruct (list2_lookup _ ring (cs_head _ Hok) Hr) as [h Hh].
  destruct (ro_count _ _ R0 ring n Hn) as [Hn0 Hnd]. destruct (ro_head _ _ R0 ring h Hh) as [Hh0 Hhd].
  destruct (Z.eqb_spec n 0) as [->|Hne].
  { wp_step. split_and!; [done|done|]. unfold queued, queued_in. by rewrite Hh, Hn. }
  rewrite wp_bind. apply wp_chan_head; [done|done|]. intros h' Hh'. assert (h' = h) as -> by congruence.
  assert (0 < n) as Hnpos by lia. destruct (ring_head_msg st ch ring h n R0 Hr Hh Hn Hnpos) as [msg H].
  destruct H as [Hg Hp Hlm [rest Hq]] eqn:EH; clear EH.
  rewrite wp_bind. eapply wp_mono; [by apply (recv_check_spec st ch ring h msg dests Hg Hlm D 0 MSG_CAPS)|].
  cbv beta. intros ok st' [-> Hokk]. destruct ok; cbn [negb].
  2:{ wp_step. split_and!; [done|done|]. destruct Hokk as (k & s & Hs & Ho & Hno).
      exists (msg_view (slots st) msg), rest, k. split_and!; [done| |done]. exists (cap (slots st !!! s)).
      unfold msg_view. cbn. rewrite list_lookup_fmap, Hs. cbn. unfold cap_view. by rewrite Ho. }
  assert (∀ k s, m_caps msg !! k = Some s → occupied st s → dest_ready st dests k) as Hready by (intros k s; apply Hokk; lia).
  rewrite wp_bind. eapply wp_mono; [apply (recv_move_spec st ch ring h msg dests Hg Hlm D no_refs no_ends R0 Hh0 Hready 0 MSG_CAPS 0 st)|].
  { done. } { done. } { apply moves_nil. }
  { intros k s _. rewrite Z.bits_0. symmetry. apply bool_decide_eq_false_2. lia. } { done. }
  cbv beta. intros mask st2 (K2 & M2 & Hmask). destruct (mo_frame _ _ _ M2) as [m2 ->].
  apply (recv_advance st ch ring ring h n msg buf); try done.
  eapply wp_mono; [by apply (recv_commit st ch ring ring h n msg dests buf mask m2)|].
  cbv beta. intros res st' [-> Hok']. eauto.
Qed.

(** ** A fresh channel *)
Lemma channel_init_msg depth slot_of fill r i msg :
  get_msg (channel_init depth slot_of fill) r i = Some msg →
  (r < 2)%nat ∧ (Z.to_nat i < depth)%nat ∧ msg = MkMsg 0 (fill r (Z.to_nat i)) (slot_of r (Z.to_nat i) <$> seq 0 MSG_CAPS).
Proof.
  unfold get_msg, channel_init. cbn [ch_msgs]. rewrite list_lookup_fmap.
  destruct (seq 0 2 !! r) as [r'|] eqn:Er; [|done]. apply lookup_seq in Er as [-> Hr]. cbn.
  rewrite list_lookup_fmap. destruct (seq 0 depth !! Z.to_nat i) as [i'|] eqn:Ei; [|done].
  apply lookup_seq in Ei as [-> Hi]. cbn. by intros [= <-].
Qed.

Lemma channel_init_cap depth slot_of fill r i k s :
  ring_cap (channel_init depth slot_of fill) r i k = Some s →
  (r < 2)%nat ∧ (Z.to_nat i < depth)%nat ∧ (k < MSG_CAPS)%nat ∧ s = slot_of r (Z.to_nat i) k.
Proof.
  unfold ring_cap. destruct (get_msg _ r i) as [msg|] eqn:Em; [|done]. cbn.
  apply channel_init_msg in Em as (Hr & Hi & ->). cbn [m_caps]. rewrite list_lookup_fmap.
  destruct (seq 0 MSG_CAPS !! k) as [k'|] eqn:Ek; [|done]. apply lookup_seq in Ek as [-> Hk]. cbn. by intros [= <-].
Qed.

Lemma channel_init_shape depth slot_of fill : chan_shape (channel_init depth slot_of fill).
Proof.
  split; try done; unfold channel_init; cbn [ch_msgs ch_bindings ch_depth].
  - intros e row Hrow. by apply (lookup_replicate 2) in Hrow as [-> _].
  - intros r ring. rewrite list_lookup_fmap. destruct (seq 0 2 !! r); [|done]. cbn. intros [= <-].
    by rewrite length_fmap, length_seq.
  - intros r ring i msg. rewrite list_lookup_fmap. destruct (seq 0 2 !! r); [|done]. cbn. intros [= <-].
    rewrite list_lookup_fmap. destruct (seq 0 depth !! i); [|done]. cbn. by intros [= <-].
Qed.

(** The rings of a fresh channel are well formed and empty. *)
Lemma channel_init_ok m depth slot_of fill :
  (0 < depth)%nat → 2 * Z.of_nat depth ≤ U32_MAX → (∀ r i, length (fill r i) = Z.to_nat MSG_PAYLOAD) →
  (∀ r i k r' i' k', (i < depth)%nat → (k < MSG_CAPS)%nat → (i' < depth)%nat → (k' < MSG_CAPS)%nat →
     slot_of r i k = slot_of r' i' k' → r = r' ∧ i = i' ∧ k = k') →
  (∀ r i k, (r < 2)%nat → (i < depth)%nat → (k < MSG_CAPS)%nat → cap_is_empty (cap (m !!! slot_of r i k)) = true) →
  ring_ok m (channel_init depth slot_of fill) ∧ ∀ r, queued_in m (channel_init depth slot_of fill) r = [].
Proof.
  intros Hd Hmax Hfill Hinj Hemp. split.
  - split.
    + apply channel_init_shape.
    + cbn. lia.
    + intros r h Hh. cbn in *. destruct r as [|[|r]]; cbn in Hh; simplify_eq; lia.
    + intros r h Hh. cbn in *. destruct r as [|[|r]]; cbn in Hh; simplify_eq; lia.
    + intros r i msg (_ & _ & ->)%channel_init_msg. cbn. rewrite Hfill. unfold MSG_PAYLOAD. lia.
    + intros r i k r' i' k' s Hi Hi' (_ & H1 & H2 & ->)%channel_init_cap (_ & H3 & H4 & E)%channel_init_cap.
      apply Hinj in E as (-> & E & ->); [|done..]. split_and!; [done|lia|done].
    + intros r h n j k s _ _ _ (Hr & Hi & Hk & ->)%channel_init_cap. by apply Hemp.
  - intros [|[|r]]; done.
Qed.

(** The ring invariant does not look at the end counts or the bindings. *)
Lemma ring_ok_ends m c ends :
  ring_ok m c → length ends = 2%nat →
  ring_ok m (MkChannel (ch_depth c) ends (ch_head c) (ch_count c) (ch_bindings c) (ch_msgs c)).
Proof. intros [[] H2 H3 H4 H5 H6 H7] Hl. by split; [split|..]. Qed.
