(* ===== verification/Untyped.v ===== *)
(** Untyped memory ([kcore/src/untyped.rs]): checking a retype request, placing
    an object in the free part of an untyped region, installing the capabilities
    of the new object as children of the untyped capability, and resetting the
    watermark. The byte sizes of the kernel's own structures are those the
    compiler gives them: a parameter of the placement. *)

From S2P Require Import Prelude KStore Ready Census Notif Timer Irq Cdt Aspace Kinv Refs Channel Thread Cspace.

(** ** Operations *)
Module ObjType.
Inductive obj_type : Type := CSpace | Thread | Channel | Notification | Timer | Frame | Aspace | Untyped.

Definition from_u64 (v : Z) : option obj_type :=
  match v with
  | 0 => Some CSpace | 1 => Some Thread | 2 => Some Channel | 3 => Some Notification
  | 4 => Some Timer | 5 => Some Frame | 6 => Some Aspace | 7 => Some Untyped
  | _ => None
  end.

Definition align (ty : obj_type) : Z :=
  match ty with Frame | Aspace | Untyped => 4096 | _ => 16 end.
End ObjType.

#[global] Instance obj_type_eq_dec : EqDecision ObjType.obj_type.
Proof. solve_decision. Defined.

Module RetypeError.
Inductive error : Type := NotUntyped | DestOccupied | NoMemory | BadArg.
End RetypeError.

Record Carve : Type := MkCarve { c_start : Z; c_end : Z; c_bytes : Z }.

Definition retype_check (ut_slot : SlotId) (ty : ObjType.obj_type) (dst : SlotId) (dst2 : option SlotId) :
    K (result (Z * Z * Z) RetypeError.error) :=
  ut ← slot ut_slot;
  match kind (cap ut) with
  | CapKind.Untyped base size watermark =>
      d ← slot dst;
      if negb (cap_is_empty (cap d)) then mret (Err RetypeError.DestOccupied)
      else
        match ty with
        | ObjType.Channel =>
            match dst2 with
            | Some d2 =>
                s2 ← slot d2;
                if bool_decide (d2 = dst) || negb (cap_is_empty (cap s2)) then mret (Err RetypeError.DestOccupied)
                else mret (Ok (base, size, watermark))
            | None => mret (Err RetypeError.DestOccupied)
            end
        | _ => mret (Ok (base, size, watermark))
        end
  | _ => mret (Err RetypeError.NotUntyped)
  end.

Definition carve_place (base size watermark align bytes : Z) : result Carve RetypeError.error :=
  match checked_add base watermark with
  | None => Err RetypeError.NoMemory
  | Some bpw =>
      match checked_add bpw (align - 1) with
      | None => Err RetypeError.NoMemory
      | Some s =>
          let start := s - s mod align in
          match checked_add start bytes with
          | None => Err RetypeError.NoMemory
          | Some end_ =>
              match checked_add base size with
              | None => Err RetypeError.NoMemory
              | Some limit =>
                  if limit <? end_ then Err RetypeError.NoMemory else Ok (MkCarve start end_ bytes)
              end
          end
      end
  end.

Definition topup_carve (base size watermark pool_end pages : Z) : result Carve RetypeError.error :=
  if pages =? 0 then Err RetypeError.BadArg
  else
    match checked_mul pages PAGE with
    | None => Err RetypeError.BadArg
    | Some bytes =>
        match checked_add base watermark with
        | None => Err RetypeError.BadArg
        | Some bpw =>
            if negb (bpw =? pool_end) then Err RetypeError.BadArg
            else carve_place base size watermark PAGE bytes
        end
    end.

(** [size_of] of the kernel structures and the offsets of the capability slots embedded in
    them ([Tcb::bind_slots], [MsgSlot::caps]), as the compiler lays them out. *)
Record Layout : Type := MkLayout {
  size_CSpaceObj : Z; size_CapSlot : Z; size_Tcb : Z; size_Channel : Z; size_MsgSlot : Z;
  size_NotifObj : Z; size_TimerObj : Z; offset_bind_slots : Z; offset_msg_caps : Z }.

Section carve.
Context (L : Layout).

Definition cspace_bytes_for (n : Z) : Z := size_CSpaceObj L + n * size_CapSlot L.
Definition channel_bytes_for (depth : Z) : Z := size_Channel L + 2 * depth * size_MsgSlot L.
Definition aspace_bytes_for (pool_pages : Z) : Z := PAGE + PAGE + pool_pages * PAGE.

Definition fixed_object_bytes (ty : ObjType.obj_type) : Z :=
  match ty with
  | ObjType.Thread => size_Tcb L
  | ObjType.Notification => size_NotifObj L
  | ObjType.Timer => size_TimerObj L
  | _ => 1
  end.

(** [usize::checked_next_multiple_of(4096)] *)
Definition checked_next_page (p : Z) : option Z :=
  let r := p mod 4096 in
  if r =? 0 then Some p else checked_add p (4096 - r).

Definition object_bytes (ty : ObjType.obj_type) (param : Z) : result Z RetypeError.error :=
  match ty with
  | ObjType.CSpace =>
      if (param =? 0) || (1024 <? param) then Err RetypeError.BadArg else Ok (cspace_bytes_for param)
  | ObjType.Channel =>
      if (param =? 0) || (256 <? param) then Err RetypeError.BadArg else Ok (channel_bytes_for param)
  | ObjType.Thread | ObjType.Notification | ObjType.Timer => Ok (fixed_object_bytes ty)
  | ObjType.Frame =>
      if (param =? 0) || (65536 <? param) then Err RetypeError.BadArg else Ok (param * 4096)
  | ObjType.Aspace =>
      if (param =? 0) || (256 <? param) then Err RetypeError.BadArg else Ok (aspace_bytes_for param)
  | ObjType.Untyped =>
      if param =? 0 then Err RetypeError.BadArg
      else
        match checked_next_page param with
        | Some b => if b =? 0 then Err RetypeError.BadArg else Ok b
        | None => Err RetypeError.BadArg
        end
  end.

Definition carve (base size watermark : Z) (ty : ObjType.obj_type) (param : Z) : result Carve RetypeError.error :=
  match object_bytes ty param with
  | Err e => Err e
  | Ok bytes => carve_place base size watermark (ObjType.align ty) bytes
  end.
End carve.

(** The rights of a fresh capability. *)
Definition retype_rights (ty : ObjType.obj_type) (ut : Rights.rights) : Rights.rights :=
  match ty with
  | ObjType.Frame => ut
  | ObjType.Thread => Rights.THREAD_ALL
  | ObjType.Untyped => Rights.masked ut (Z.lor Rights.READ Rights.WRITE)
  | _ => Rights.ALL
  end.

Definition retype_install (ut_slot : SlotId) (ty : ObjType.obj_type) (k : CapKind.kind) (end_ : Z)
    (dst : SlotId) (dst2 : option SlotId) : K unit :=
  ut ← slot ut_slot;
  match kind (cap ut) with
  | CapKind.Untyped base size _ =>
      wm ← usub end_ base;
      set_slot ut_slot (slot_set_cap (MkCap (CapKind.Untyped base size wm) (rights (cap ut))) ut);;
      d ← slot dst;
      set_slot dst (slot_set_cap (MkCap k (retype_rights ty (rights (cap ut)))) d);;
      cdt_insert_child ut_slot dst;;
      match k with
      | CapKind.Channel ch _ =>
          endpoint_cap_added ch ChanEnd.A;;
          match dst2 with
          | Some d2 =>
              s2 ← slot d2;
              set_slot d2 (slot_set_cap (MkCap (CapKind.Channel ch ChanEnd.B) Rights.ALL) s2);;
              r ← obj_refs ch;
              r' ← uadd U32_MAX r 1;
              set_obj_refs ch r';;
              cdt_insert_child ut_slot d2;;
              endpoint_cap_added ch ChanEnd.B
          | None => mret tt
          end
      | _ => mret tt
      end
  | _ => mret tt
  end.

Definition reset (ut_slot : SlotId) : K (result unit RetypeError.error) :=
  ut ← slot ut_slot;
  match kind (cap ut) with
  | CapKind.Untyped base size _ =>
      match first_child ut with
      | Some _ => mret (Err RetypeError.BadArg)
      | None =>
          set_slot ut_slot (slot_set_cap (MkCap (CapKind.Untyped base size 0) (rights (cap ut))) ut);;
          mret (Ok tt)
      end
  | _ => mret (Err RetypeError.NotUntyped)
  end.

(** [untyped::aspace_topup] of the kernel shell. *)
Definition aspace_topup (ut_slot : SlotId) (asp : ObjId) (pages : Z) : K (result unit RetypeError.error) :=
  ut ← slot ut_slot;
  match kind (cap ut) with
  | CapKind.Untyped base size watermark =>
      a ← gets (λ st, aspaces st !!! asp);
      off ← umul U64_MAX (Z.of_nat (length (as_pool a))) PAGE;
      pool_end ← uadd U64_MAX (as_pool_base a) off;
      match topup_carve base size watermark pool_end pages with
      | Err e => mret (Err e)
      | Ok c =>
          wm ← usub (c_end c) base;
          set_slot ut_slot (slot_set_cap (MkCap (CapKind.Untyped base size wm) (rights (cap ut))) ut);;
          modify (with_aspaces (λ m, <[asp := grow_pool (Z.to_nat pages) (m !!! asp)]> m));;
          mret (Ok tt)
      end
  | _ => mret (Err RetypeError.NotUntyped)
  end.

(** ** Placement *)

Definition align_up (x a : Z) : Z := (x + (a - 1)) - (x + (a - 1)) mod a.

Lemma align_up_spec x a : 0 < a → x ≤ align_up x a < x + a ∧ align_up x a mod a = 0.
Proof.
  intros Ha. unfold align_up. pose proof (Z.mod_pos_bound (x + (a - 1)) a Ha).
  split; [lia|]. by rewrite Zminus_mod, Z.mod_mod, Z.sub_diag, Z.mod_0_l by lia.
Qed.

Lemma align_ok ty : 0 < ObjType.align ty ∧ (U64_MAX + 1) mod ObjType.align ty = 0.
Proof. by destruct ty. Qed.

(** A granted region lies in the free part of the untyped, aligned, at the
    first place that fits; a refusal means there is no room. *)
Lemma carve_place_spec base size wm a bytes :
  0 ≤ base → 0 ≤ wm → 0 ≤ size → base + size ≤ U64_MAX → 0 < a → (U64_MAX + 1) mod a = 0 → 0 < bytes →
  match carve_place base size wm a bytes with
  | Ok c => c_start c = align_up (base + wm) a ∧ c_end c = c_start c + bytes ∧ c_bytes c = bytes ∧ c_end c ≤ base + size
  | Err e => e = RetypeError.NoMemory ∧ base + size < align_up (base + wm) a + bytes
  end.
Proof.
  intros Hb Hw Hs Hlim Ha Hdiv Hby. destruct (align_up_spec (base + wm) a Ha) as [[H1 H2] H3].
  unfold carve_place, checked_add. case_decide as E1; [|split; [done|lia]].
  case_decide as E2.
  2:{ split; [done|]. assert (U64_MAX + 1 ≤ align_up (base + wm) a); [|lia].
      assert (U64_MAX + 1 < align_up (base + wm) a + a) as H4 by (clear -E2 H1; apply Z.nle_gt in E2; lia). revert H3 H4. clear -Ha Hdiv.
      generalize (align_up (base + wm) a). generalize dependent (U64_MAX + 1). intros M HM x Hx Hlt.
      apply Z.mod_divide in HM as [p ->]; [|lia]. apply Z.mod_divide in Hx as [q ->]; [|lia].
      apply Z.mul_le_mono_nonneg_r; [lia|]. assert (p < q + 1); [|lia].
      apply (Z.mul_lt_mono_pos_r a); [done|]. rewrite Z.mul_add_distr_r. lia. }
  fold (align_up (base + wm) a). case_decide as E3; [|split; [done|lia]].
  rewrite decide_True by done. destruct (Z.ltb_spec (base + size) (align_up (base + wm) a + bytes)); [done|].
  cbn. done.
Qed.

(** The compiler's sizes are positive: every structure has a header. *)
Record layout_ok (L : Layout) : Prop := {
  lo_cspace : 0 < size_CSpaceObj L; lo_slot : 0 < size_CapSlot L; lo_tcb : 0 < size_Tcb L;
  lo_chan : 0 < size_Channel L; lo_msg : 0 < size_MsgSlot L; lo_notif : 0 < size_NotifObj L; lo_timer : 0 < size_TimerObj L;
  lo_bind : 0 ≤ offset_bind_slots L ∧ offset_bind_slots L + 2 * size_CapSlot L ≤ size_Tcb L;
  lo_caps : 0 ≤ offset_msg_caps L ∧ offset_msg_caps L + 4 * size_CapSlot L ≤ size_MsgSlot L }.

Lemma object_bytes_pos L ty param b : layout_ok L → 0 ≤ param → object_bytes L ty param = Ok b → 0 < b.
Proof.
  intros [] Hp. unfold object_bytes, fixed_object_bytes, cspace_bytes_for, channel_bytes_for, aspace_bytes_for, checked_next_page, checked_add, PAGE.
  destruct ty; try (intros [= <-]; done); destruct (Z.eqb_spec param 0) as [->|Hne]; cbn [orb]; try done.
  - destruct (_ <? _); [done|]. intros [= <-]. nia.
  - destruct (_ <? _); [done|]. intros [= <-]. nia.
  - destruct (_ <? _); [done|]. intros [= <-]. lia.
  - destruct (_ <? _); [done|]. intros [= <-]. lia.
  - destruct (_ =? _); [destruct (_ =? _); [done|]; intros [= <-]; lia|].
    case_decide; [|done]. destruct (_ =? _); [done|]. intros [= <-]. pose proof (Z.mod_pos_bound param 4096). lia.
Qed.

(** ** Successive retypes from one untyped *)

(** What a sequence of requests is granted: after each grant the watermark is
    [end - base], as [retype_install] records it; refused requests change
    nothing. *)
Fixpoint carve_all (L : Layout) (base size wm : Z) (reqs : list (ObjType.obj_type * Z)) : list (ObjType.obj_type * Carve) :=
  match reqs with
  | [] => []
  | (ty, param) :: reqs' =>
      match carve L base size wm ty param with
      | Ok c => (ty, c) :: carve_all L base size (c_end c - base) reqs'
      | Err _ => carve_all L base size wm reqs'
      end
  end.

Definition disjoint_regions (c c' : Carve) : Prop := c_end c ≤ c_start c' ∨ c_end c' ≤ c_start c.

Lemma carve_spec L base size wm ty param :
  layout_ok L → 0 ≤ base → 0 ≤ wm → 0 ≤ size → base + size ≤ U64_MAX → 0 ≤ param →
  match carve L base size wm ty param with
  | Ok c => ∃ bytes, object_bytes L ty param = Ok bytes ∧ c_start c = align_up (base + wm) (ObjType.align ty) ∧
      c_end c = c_start c + bytes ∧ c_bytes c = bytes ∧ 0 < bytes ∧ c_end c ≤ base + size
  | Err e => object_bytes L ty param = Err e ∨ ∃ bytes, object_bytes L ty param = Ok bytes ∧
      e = RetypeError.NoMemory ∧ base + size < align_up (base + wm) (ObjType.align ty) + bytes
  end.
Proof.
  intros HL Hb Hw Hs Hlim Hp. unfold carve. destruct (object_bytes L ty param) as [bytes|e] eqn:E; [|by left].
  pose proof (object_bytes_pos L ty param bytes HL Hp E) as Hpos. destruct (align_ok ty) as [Ha Hd].
  pose proof (carve_place_spec base size wm (ObjType.align ty) bytes Hb Hw Hs Hlim Ha Hd Hpos) as H.
  destruct (carve_place base size wm (ObjType.align ty) bytes); [|right]; exists bytes; naive_solver.
Qed.

Lemma StronglySorted_lookup {A : Type} (R : A → A → Prop) l i j a b :
  StronglySorted R l → (i < j)%nat → l !! i = Some a → l !! j = Some b → R a b.
Proof.
  intros S. revert i j. induction S as [|x l S IH F]; intros i j Hij Ha Hb; [done|].
  destruct j as [|j]; [lia|]. destruct i as [|i]; cbn in *; [|eapply (IH i j); [lia|done|done]].
  simplify_eq. by eapply Forall_lookup_1.
Qed.

Lemma carve_all_spec L base size wm reqs :
  layout_ok L → 0 ≤ base → 0 ≤ wm → 0 ≤ size → base + size ≤ U64_MAX → Forall (λ r, 0 ≤ r.2) reqs →
  Forall (λ tc, base + wm ≤ c_start tc.2 < c_end tc.2 ∧ c_end tc.2 ≤ base + size ∧
    c_start tc.2 mod ObjType.align tc.1 = 0) (carve_all L base size wm reqs) ∧
  StronglySorted (λ a b, c_end a.2 ≤ c_start b.2) (carve_all L base size wm reqs).
Proof.
  intros HL Hb Hw Hs Hlim. revert wm Hw. induction reqs as [|[ty p] reqs IH]; intros wm Hw Hreqs; simpl.
  { split; constructor. }
  apply Forall_cons in Hreqs as [Hp Hreqs]. cbn in Hp.
  pose proof (carve_spec L base size wm ty p HL Hb Hw Hs Hlim Hp) as H.
  destruct (carve L base size wm ty p) as [c|e]; [|by apply IH].
  destruct H as (bytes & _ & Hst & Hen & _ & Hby & Hle). destruct (align_ok ty) as [Ha _].
  destruct (align_up_spec (base + wm) _ Ha) as [[A1 A2] A3].
  destruct (IH (c_end c - base)) as [IH1 IH2]; [lia|done|].
  assert (Forall (λ tc, c_end c ≤ c_start tc.2) (carve_all L base size (c_end c - base) reqs)) as Hord.
  { eapply Forall_impl; [exact IH1|]. cbv beta. intros tc (? & _). lia. }
  split.
  - apply Forall_cons. split; [cbn; rewrite Hst; lia|]. eapply Forall_impl; [exact IH1|]. cbv beta. intros tc (? & ? & ?). split_and!; lia.
  - by apply SSorted_cons.
Qed.

(** ** Installing the new capabilities *)

(** A capability put into an empty slot as a child of [p]. *)
Definition attach (p dst : SlotId) (c : Cap) (st : Store) : Store :=
  with_slots (insert_map p dst) (with_slots (<[dst := slot_set_cap c (slots st !!! dst)]>) st).

Lemma attach_slots p dst c st x :
  cap (slots (attach p dst c st) !!! x) = if decide (x = dst) then c else cap (slots st !!! x).
Proof.
  unfold attach. change (slots (with_slots (insert_map p dst) ?s)) with (insert_map p dst (slots s)).
  rewrite insert_cap. cbn. destruct (decide (x = dst)) as [->|]; by lk.
Qed.

Lemma attach_parent p dst c st x :
  parent (slots (attach p dst c st) !!! x) = if decide (x = dst) then Some p else parent (slots st !!! x).
Proof.
  unfold attach. change (slots (with_slots (insert_map p dst) ?s)) with (insert_map p dst (slots s)).
  rewrite insert_par. cbn. destruct (decide (x = dst)) as [->|]; by lk.
Qed.

Lemma attach_kinv st b eb p dst c :
  kinv_bal st b eb → occupied st p → ¬ occupied st dst → cap_ok st c → cap_is_empty c = false →
  kinv_bal (attach p dst c st) (λ o, b o - cap_bal c o) (λ ch e, eb ch e - cap_ends c ch e).
Proof.
  intros K Hp Hd Hok Hne. assert (p ≠ dst) as Hpd by (by intros ->).
  pose proof (install_cap_kinv st b eb dst c K Hd Hok Hne) as K1. set (st1 := with_slots _ st) in *.
  assert (slots st1 !!! dst = slot_set_cap c (slots st !!! dst)) as Hnew by (cbn; by lk).
  change (attach p dst c st) with (with_slots (insert_map p dst) st1).
  apply insert_child_kinv; [done| | |done|].
  - unfold occupied. cbn. by lk.
  - unfold occupied. by rewrite Hnew.
  - rewrite Hnew. destruct (ki_cdt _ _ _ K) as [kids R]. by apply (cr_empty _ _ R), not_false_is_true.
Qed.

(** A rewritten untyped capability refers to nothing. *)
Lemma untyped_kinv st b eb s base size w w' r :
  kinv_bal st b eb → kind (cap (slots st !!! s)) = CapKind.Untyped base size w → 0 ≤ w' ≤ size →
  kinv_bal (with_slots (<[s := slot_set_cap (MkCap (CapKind.Untyped base size w') r) (slots st !!! s)]>) st) b eb.
Proof.
  intros K Hk Hw. set (c := MkCap _ r). assert (occupied st s) as Ho by (unfold occupied, cap_is_empty; by rewrite Hk).
  pose proof (sp_cap _ (ki_shape _ _ _ K) s) as Hok. unfold cap_ok in Hok. rewrite Hk in Hok.
  eapply kinv_bal_ext; [| |apply (relabel_kinv st b eb s c K Ho); cbn; naive_solver].
  - intros o. cbv beta. unfold cap_bal, cap_refs, cap_obj, cap_frame_aspace. rewrite Hk. cbn. lia.
  - intros ch e. cbv beta. unfold cap_ends. rewrite Hk. cbn. rewrite !ind_false by done. lia.
Qed.

(** The caller has built the object with one reference ([b] is the reference of
    the capability to come). *)
Record installable (st : Store) (ut dst : SlotId) (dst2 : option SlotId) (k : CapKind.kind) : Prop := {
  in_kinv : kinv_bal st (cap_bal (MkCap k (Rights.MkRights 0))) no_ends;
  in_ok : cap_ok st (MkCap k (Rights.MkRights 0));
  in_kind : cap_is_empty (MkCap k (Rights.MkRights 0)) = false;
  in_dst : ¬ occupied st dst;
  in_dst2 ch e : k = CapKind.Channel ch e → e = ChanEnd.A ∧ refs st !!! ch < U32_MAX ∧
    (∀ e' n, ch_end_caps (chans st !!! ch) !! end_idx e' = Some n → n < U32_MAX) ∧
    ∃ d2, dst2 = Some d2 ∧ d2 ≠ dst ∧ ¬ occupied st d2;
}.

Lemma cap_bal_kind k r r' o : cap_bal (MkCap k r) o = cap_bal (MkCap k r') o.
Proof. done. Qed.

(** The objects stay; only slots and counts change. *)
Lemma shape_le_slots st f : shape_le st (with_slots f st).
Proof. by split. Qed.
Lemma shape_le_refs st f : shape_le st (with_refs f st).
Proof. by split. Qed.

Lemma end_balance ch e0 ch' e' r :
  no_ends ch' e' - cap_ends (MkCap (CapKind.Channel ch e0) r) ch' e' =
  if decide (ch' = ch ∧ e' = e0) then -1 else 0.
Proof.
  unfold no_ends, cap_ends. cbn. case_decide as H.
  - destruct H as [-> ->]. by rewrite ind_true.
  - rewrite ind_false; [done|]. intros [=]. by destruct H.
Qed.

(** The capability to the second end of a fresh channel. *)
Definition second_end (ut d2 : SlotId) (ch : ObjId) : K unit :=
  s2 ← slot d2;
  set_slot d2 (slot_set_cap (MkCap (CapKind.Channel ch ChanEnd.B) Rights.ALL) s2);;
  r ← obj_refs ch;
  r' ← uadd U32_MAX r 1;
  set_obj_refs ch r';;
  cdt_insert_child ut d2;;
  endpoint_cap_added ch ChanEnd.B.

Lemma second_end_kinv st ut d2 ch nB :
  kinv st → chan_ok st ch → occupied st ut → ¬ occupied st d2 → refs st !!! ch < U32_MAX →
  ch_end_caps (chans st !!! ch) !! end_idx ChanEnd.B = Some nB → nB < U32_MAX →
  wp (second_end ut d2 ch) (λ _ st', kinv st' ∧ shape_le st st' ∧ tcbs st' = tcbs st ∧
    slots st' = slots (attach ut d2 (MkCap (CapKind.Channel ch ChanEnd.B) Rights.ALL) st)) st.
Proof.
  intros K Hco Hou Ho Hr HnB Hlt. set (c2 := MkCap (CapKind.Channel ch ChanEnd.B) Rights.ALL).
  pose proof (attach_kinv st _ _ ut d2 c2 K Hou Ho Hco eq_refl) as K4.
  unfold second_end, slot, set_slot, obj_refs, set_obj_refs. wp_step. cbn [refs with_slots]. apply wp_uadd; [lia|]. wp_step.
  eapply wp_of_eq; [apply insert_child_run|]. cbv beta.
  match goal with |- wp _ _ ?s => change s with (with_refs (<[ch := refs st !!! ch + 1]>) (attach ut d2 c2 st)) end.
  destruct (kinv_with_refs (attach ut d2 c2 st) _ no_refs _ (<[ch := refs st !!! ch + 1]>) K4) as [K5 _].
  { intros o. cbn [refs with_refs]. change (refs (attach ut d2 c2 st)) with (refs st).
    rewrite refs_plus, census_with_refs. change (refs st !!! o) with (refs (attach ut d2 c2 st) !!! o).
    rewrite (ki_refs _ _ _ K4). unfold no_refs, cap_bal, cap_refs. cbn. rewrite (ind_false (None = Some o)) by done. lia. }
  set (st5 := with_refs _ _) in *.
  eapply wp_mono; [apply (endpoint_cap_added_kinv st5 no_refs _ no_ends ch ChanEnd.B nB Hco K5 HnB Hlt)|].
  { intros ch' e'. cbv beta; unfold c2. rewrite !end_balance. unfold no_ends. destruct (decide (ch' = ch ∧ e' = ChanEnd.B)); [by rewrite decide_True|done]. }
  cbv beta. intros _ st6 (K6 & S6 & Es6 & _ & Et6 & _). split_and!; [done| |by rewrite Et6|by rewrite Es6].
  eapply shape_le_trans; [|apply S6]. eapply shape_le_trans; [|apply shape_le_refs]. eapply shape_le_trans; apply shape_le_slots.
Qed.

(** What installing the capabilities of a fresh object does. *)
Record installed (st : Store) (ut dst : SlotId) (dst2 : option SlotId) (ty : ObjType.obj_type) (k : CapKind.kind)
    (base size end_ : Z) (st' : Store) : Prop := {
  it_kinv : kinv st';
  it_ut : cap (slots st' !!! ut) = MkCap (CapKind.Untyped base size (end_ - base)) (rights (cap (slots st !!! ut)));
  it_dst : cap (slots st' !!! dst) = MkCap k (retype_rights ty (rights (cap (slots st !!! ut))));
  it_parent : parent (slots st' !!! dst) = Some ut;
  it_dst2 ch e d2 : k = CapKind.Channel ch e → dst2 = Some d2 →
    cap (slots st' !!! d2) = MkCap (CapKind.Channel ch ChanEnd.B) Rights.ALL ∧ parent (slots st' !!! d2) = Some ut;
  it_other x : x ≠ ut → x ≠ dst → dst2 ≠ Some x → cap (slots st' !!! x) = cap (slots st !!! x);
  it_shape : shape_le st st';
  it_tcbs : tcbs st' = tcbs st;
}.

Lemma retype_install_kinv st ut ty k end_ dst dst2 base size w :
  installable st ut dst dst2 k → kind (cap (slots st !!! ut)) = CapKind.Untyped base size w → base ≤ end_ ≤ base + size →
  wp (retype_install ut ty k end_ dst dst2) (λ _ st', installed st ut dst dst2 ty k base size end_ st') st.
Proof.
  intros [K Hok Hne Hd Hch] Hut Hle. unfold retype_install, slot, set_slot. wp_step. rewrite Hut. wp_step.
  apply wp_usub; [lia|]. wp_step. assert (occupied st ut) as Hou by (unfold occupied, cap_is_empty; by rewrite Hut).
  assert (ut ≠ dst) as Hud by (by intros ->).
  pose proof (untyped_kinv st _ _ ut base size w (end_ - base) (rights (cap (slots st !!! ut))) K Hut ltac:(lia)) as K1.
  set (st1 := with_slots _ st) in *. set (c := MkCap k (retype_rights ty (rights (cap (slots st !!! ut))))).
  assert (∀ x, x ≠ ut → slots st1 !!! x = slots st !!! x) as Hoth by (intros x Hx; cbn; by lk).
  assert (cap (slots st1 !!! ut) = MkCap (CapKind.Untyped base size (end_ - base)) (rights (cap (slots st !!! ut)))) as Hutc by (cbn; by lk).
  assert (occupied st1 ut) as Hou1 by (unfold occupied; by rewrite Hutc).
  assert (∀ x, ut ≠ x → ¬ occupied st x → ¬ occupied st1 x) as Hocc by (intros x Hx; unfold occupied; by rewrite Hoth).
  pose proof (attach_kinv st1 _ _ ut dst c K1 Hou1 (Hocc _ Hud Hd) Hok Hne) as K2.
  eapply wp_of_eq; [apply insert_child_run|]. cbv beta.
  change (with_slots (insert_map ut dst) (with_slots (<[dst := slot_set_cap c (slots st1 !!! dst)]>) st1)) with (attach ut dst c st1).
  set (st2 := attach ut dst c st1) in *.
  assert (kinv_bal st2 no_refs (λ ch e, no_ends ch e - cap_ends c ch e)) as K2'.
  { eapply kinv_bal_ext; [|done|exact K2]. intros o. cbv beta. rewrite (cap_bal_kind k _ (rights c)). unfold no_refs, c. cbn. lia. }
  assert (∀ x, cap (slots st2 !!! x) = if decide (x = dst) then c else cap (slots st1 !!! x)) as Hc2 by apply attach_slots.
  assert (parent (slots st2 !!! dst) = Some ut) as Hp2 by (unfold st2; by rewrite attach_parent, decide_True).
  assert (shape_le st st2) as L2 by (do 2 (eapply shape_le_trans; [|apply shape_le_slots]); apply shape_le_slots).
  assert ((∀ ch e, k ≠ CapKind.Channel ch e) → installed st ut dst dst2 ty k base size end_ st2) as Hplain.
  { intros Hk. split; [|by rewrite Hc2, decide_False|by rewrite Hc2, decide_True|done|intros ? ? ? Hx; by apply Hk in Hx| |done|done].
    - eapply kinv_bal_ext; [done| |exact K2']. intros ch' e'. unfold cap_ends, no_ends, c. cbn. rewrite ind_false; [done|]. apply Hk.
    - intros x Hx Hx' _. rewrite Hc2, decide_False by done. by rewrite Hoth. }
  destruct k as [| | | | | |ch e| | |] eqn:Ek; try (wp_step; apply Hplain; done). clear Hplain.
  destruct (Hch ch e eq_refl) as (-> & Hr & Hn & d2 & -> & Hdd & Ho2). assert (chan_ok st ch) as Hco by exact Hok. wp_step.
  destruct (list2_lookup (ch_end_caps (chans st !!! ch)) (end_idx ChanEnd.A)) as [nA HnA]; [apply Hco|apply end_idx_lt|].
  destruct (list2_lookup (ch_end_caps (chans st !!! ch)) (end_idx ChanEnd.B)) as [nB HnB]; [apply Hco|apply end_idx_lt|].
  eapply wp_mono; [apply (endpoint_cap_added_kinv st2 no_refs _ no_ends ch ChanEnd.A nA Hco K2' HnA)|].
  { by eapply Hn. }
  { intros ch' e'. unfold c. cbv beta. rewrite !end_balance. unfold no_ends. destruct (decide (ch' = ch ∧ e' = ChanEnd.A)); [by rewrite decide_True|done]. }
  cbv beta. intros _ st3 (K3 & S3 & Es3 & Er3 & Et3 & Eb3). assert (ut ≠ d2) as Hud2 by (by intros ->).
  eapply wp_mono; [apply (second_end_kinv st3 ut d2 ch nB); [done|by apply (sl_chan _ _ (sh_shape _ _ S3))|..]|].
  - unfold occupied. by rewrite Es3, Hc2, decide_False, Hutc.
  - unfold occupied. rewrite Es3, Hc2, decide_False, Hoth by done. exact Ho2.
  - rewrite Er3. exact Hr.
  - rewrite Eb3 by done. exact HnB.
  - by eapply Hn.
  - cbv beta. intros _ st6 (K6 & L6 & Et6 & Es6). split; [done|..].
    + by rewrite Es6, attach_slots, decide_False, Es3, Hc2, decide_False.
    + by rewrite Es6, attach_slots, decide_False, Es3, Hc2, decide_True by done.
    + by rewrite Es6, attach_parent, decide_False, Es3 by done.
    + intros ch' e' d' [= <- <-] [= <-]. by rewrite Es6, attach_slots, attach_parent, !decide_True by done.
    + intros x Hx Hx' Hx2. rewrite Es6, attach_slots, decide_False by congruence. rewrite Es3, Hc2, decide_False by done. by rewrite Hoth.
    + eapply shape_le_trans; [exact L2|]. eapply shape_le_trans; [apply S3|done].
    + rewrite Et6, Et3. done.
Qed.

(** ** Reset and top-up *)
Lemma reset_kinv st s :
  kinv st →
  wp (reset s) (λ r st', match r with
    | Ok _ => kinv st' ∧ first_child (slots st !!! s) = None ∧
        (∃ base size w, kind (cap (slots st !!! s)) = CapKind.Untyped base size w ∧
           cap (slots st' !!! s) = MkCap (CapKind.Untyped base size 0) (rights (cap (slots st !!! s)))) ∧
        (∀ x, x ≠ s → slots st' !!! x = slots st !!! x) ∧ shape_le st st' ∧ tcbs st' = tcbs st
    | Err e => st' = st ∧ (e = RetypeError.BadArg ↔
        (∃ base size w, kind (cap (slots st !!! s)) = CapKind.Untyped base size w) ∧ first_child (slots st !!! s) ≠ None)
    end) st.
Proof.
  intros K. unfold reset, slot, set_slot. wp_step.
  destruct (kind (cap (slots st !!! s))) as [|base size w| | | | | | | |] eqn:Ek;
    try (wp_step; split; [done|]; split; [done|]; intros [(? & ? & ? & ?) _]; congruence).
  destruct (first_child (slots st !!! s)) as [c|] eqn:Ef; wp_step.
  - split; [done|]. split; [|done]. intros _. split; [eauto|done].
  - pose proof (sp_cap _ (ki_shape _ _ _ K) s) as Hok. unfold cap_ok in Hok. rewrite Ek in Hok.
    split_and!; [eapply untyped_kinv; [done|done|lia]|done| | |by split|done].
    + exists base, size, w. split; [done|]. cbn. by lk.
    + intros x Hx. cbn. by lk.
Qed.

Lemma topup_carve_spec base size wm pool_end pages :
  0 ≤ base → 0 ≤ wm → 0 ≤ size → base + size ≤ U64_MAX → 0 ≤ pages → pool_end mod PAGE = 0 →
  match topup_carve base size wm pool_end pages with
  | Ok c => pages ≠ 0 ∧ base + wm = pool_end ∧ c_start c = pool_end ∧ c_end c = pool_end + pages * PAGE ∧
      c_end c ≤ base + size
  | Err e => pages = 0 ∨ U64_MAX < pages * PAGE ∨ base + wm ≠ pool_end ∨ base + size < pool_end + pages * PAGE
  end.
Proof.
  intros Hb Hw Hs Hlim Hp Hal. unfold topup_carve. destruct (Z.eqb_spec pages 0) as [->|Hne]; [by left|].
  unfold checked_mul. case_decide as E1; [|right; left; lia].
  unfold checked_add. case_decide as E2.
  2:{ right. right. destruct (decide (base + wm = pool_end)) as [<-|]; [right; unfold PAGE in *; lia|by left]. }
  destruct (Z.eqb_spec (base + wm) pool_end) as [E3|E3]; cbn [negb]; [|right; right; by left].
  assert (align_up (base + wm) PAGE = pool_end) as Ea.
  { destruct (align_up_spec (base + wm) PAGE) as [[A1 A2] A3]; [done|]. rewrite E3 in *.
    unfold PAGE in *. apply Z.mod_divide in Hal as [p ->]; [|done]. apply Z.mod_divide in A3 as [q A3]; [|done]. lia. }
  pose proof (carve_place_spec base size wm PAGE (pages * PAGE) Hb Hw Hs Hlim) as H.
  destruct (carve_place base size wm PAGE (pages * PAGE)) as [c|e]; rewrite Ea in H.
  - destruct H as (H1 & H2 & _ & H3); [done|done|unfold PAGE; lia|]. rewrite H1 in H2. done.
  - right. right. right. apply H; [done|done|unfold PAGE; lia].
Qed.

(** Growing an address space's pool from an adjacent untyped: the watermark moves
    by exactly the new tables, no page changes, and the pool stays contiguous. *)
Lemma aspace_topup_kinv st ut asp pages base size w :
  kinv st → kind (cap (slots st !!! ut)) = CapKind.Untyped base size w → aspace_wf (aspaces st !!! asp) → 0 ≤ pages →
  wp (aspace_topup ut asp pages) (λ r st', match r with
    | Ok _ => kinv st' ∧ base + w = as_pool_base (aspaces st !!! asp) + Z.of_nat (length (as_pool (aspaces st !!! asp))) * PAGE ∧
        kind (cap (slots st' !!! ut)) = CapKind.Untyped base size (w + pages * PAGE) ∧ w + pages * PAGE ≤ size ∧
        aspace_wf (aspaces st' !!! asp) ∧
        Z.of_nat (length (as_pool (aspaces st' !!! asp))) = Z.of_nat (length (as_pool (aspaces st !!! asp))) + pages ∧
        (∀ va, user_va va → mapped (as_pool_base (aspaces st !!! asp)) (pt_view (aspaces st' !!! asp) []) va =
          mapped (as_pool_base (aspaces st !!! asp)) (pt_view (aspaces st !!! asp) []) va) ∧
        (∀ x, x ≠ ut → slots st' !!! x = slots st !!! x) ∧ shape_le st st' ∧ tcbs st' = tcbs st
    | Err _ => st' = st
    end) st.
Proof.
  intros K Hk [leaves W] Hp. set (a := aspaces st !!! asp) in *.
  pose proof (sp_cap _ (ki_shape _ _ _ K) ut) as Hok. unfold cap_ok in Hok. rewrite Hk in Hok. destruct Hok as (Hb & [Hw Hws] & Hlim). assert (0 ≤ size) as Hs by lia.
  destruct (pw_geom _ _ _ W) as (G1 & G2 & G3). cbn in G3. assert (2 ^ 48 ≤ U64_MAX) as Hmax by done.
  unfold aspace_topup, slot, set_slot. wp_step. rewrite Hk. wp_step. fold a.
  apply wp_umul; [unfold PAGE in *; lia|]. wp_step. apply wp_uadd; [lia|].
  set (pe := as_pool_base a + Z.of_nat (length (as_pool a)) * PAGE) in *.
  assert (pe mod PAGE = 0) as Hal by (unfold pe; by rewrite Z.mod_add).
  pose proof (topup_carve_spec base size w pe pages Hb Hw Hs ltac:(lia) Hp Hal) as H.
  destruct (topup_carve base size w pe pages) as [c|e]; [|by wp_step].
  destruct H as (H1 & H2 & H3 & H4 & H5). wp_step. apply wp_usub; [unfold PAGE in *; lia|]. wp_step.
  assert (geom_ok (as_pool_base a) (length (as_pool a) + Z.to_nat pages)) as Hg.
  { split_and!; [done|done|]. unfold pe, PAGE in *. lia. }
  destruct (grow_pool_wf a (Z.to_nat pages)) as [Wf Hm]; [by exists leaves|done|].
  set (st1 := with_slots _ st). assert (kinv st1) as K1 by (eapply untyped_kinv; [done|done|unfold PAGE in *; lia]).
  destruct (aspace_step_kinv st1 no_refs no_ends asp (grow_pool (Z.to_nat pages) a) (hw st) K1 Wf) as [K2 S2].
  split_and!.
  - exact K2.
  - done.
  - cbn. lk. cbn. f_equal. lia.
  - unfold PAGE in *. lia.
  - cbn. by lk.
  - cbn. lk. cbn. rewrite length_app, length_replicate. fold a. lia.
  - intros va Hva. cbn. lk. by apply Hm.
  - intros x Hx. cbn. by lk.
  - eapply shape_le_trans; [|apply S2]. by split.
  - done.
Qed.
