(* ===== verification/Retype.v ===== *)
(** Creating kernel objects ([kernel/src/untyped.rs], [retype], with the constructors
    it calls): the object is written into the carved region, its embedded capability
    slots are emptied, its reference count starts at one, and its capabilities are
    installed. What the memory held before (message payloads, page-table pages) is a
    parameter; so is the address-space identifier the caller allocates. *)

From S2P Require Import Prelude KStore Ready Census Notif Timer Irq Cdt Aspace Kinv Refs Channel Thread Cspace Fifo Untyped.

(** ** Operations *)

(** [NEXT_ASID] of [kernel/src/aspace.rs]: the identifier handed out, the next one,
    and whether the whole TLB is flushed. *)
Definition alloc_asid (next : Z) : Z * Z * bool :=
  let next' := as_u16 (next + 1) in
  if next' =? 0 then (next, 1, true) else (next, next', false).

Fixpoint clear_slots (l : list SlotId) : K unit :=
  match l with
  | [] => mret tt
  | s :: l' => set_slot s CapSlot_empty;; clear_slots l'
  end.

Section init.
Context (L : Layout).
(** What the carved memory held. *)
Context (raw_payload : Z → list Z) (raw_table : Z → list Z).

Definition cspace_slot_at (p : Z) (i : nat) : SlotId := MkSlotId (p + size_CSpaceObj L + Z.of_nat i * size_CapSlot L).
Definition chan_msg_at (p depth : Z) (r i : nat) : Z :=
  p + size_Channel L + (Z.of_nat r * depth + Z.of_nat i) * size_MsgSlot L.
Definition chan_slot_at (p depth : Z) (r i k : nat) : SlotId :=
  MkSlotId (chan_msg_at p depth r i + offset_msg_caps L + Z.of_nat k * size_CapSlot L).
Definition bind_slot_at (p : Z) (w : nat) : SlotId := MkSlotId (p + offset_bind_slots L + Z.of_nat w * size_CapSlot L).

Definition cspace_slots_at (p n : Z) : list SlotId := cspace_slot_at p <$> seq 0 (Z.to_nat n).
Definition chan_slots_at (p depth : Z) : list SlotId :=
  r ← seq 0 2; i ← seq 0 (Z.to_nat depth); chan_slot_at p depth r i <$> seq 0 MSG_CAPS.

Definition CSpaceObj_init (p num_slots : Z) : K unit :=
  set_obj_refs (MkObjId p) 1;;
  modify (with_cspaces (<[MkObjId p := MkCSpace num_slots (cspace_slots_at p num_slots)]>));;
  clear_slots (cspace_slots_at p num_slots).
Definition Tcb_init (p : Z) : K unit :=
  set_obj_refs (MkObjId p) 1;;
  modify (with_tcbs (<[MkObjId p := Tcb_empty (bind_slot_at p 0) (bind_slot_at p 1)]>));;
  clear_slots [bind_slot_at p 0; bind_slot_at p 1].
Definition Channel_init (p depth : Z) : K unit :=
  set_obj_refs (MkObjId p) 1;;
  modify (with_chans (<[MkObjId p := channel_init (Z.to_nat depth) (chan_slot_at p depth)
    (λ r i, raw_payload (chan_msg_at p depth r i))]>));;
  clear_slots (chan_slots_at p depth).
Definition NotifObj_init (p : Z) : K unit :=
  set_obj_refs (MkObjId p) 1;; modify (with_notifs (<[MkObjId p := MkNotif 0 None None]>)).
Definition TimerObj_init (p : Z) : K unit :=
  set_obj_refs (MkObjId p) 1;; modify (with_timers (<[MkObjId p := MkTimer false 0 None 0 None]>)).
(** [aspace::init]: the L1 table follows the header, the pool follows the L1 table. *)
Definition AspaceObj_init (asid k0 k1 p pool_pages : Z) : K unit :=
  set_obj_refs (MkObjId p) 1;;
  let pool_base := p + 2 * PAGE in
  modify (with_aspaces (<[MkObjId p := aspace_init asid pool_base (Z.to_nat pool_pages)
    ((λ i, raw_table (pool_base + Z.of_nat i * PAGE)) <$> seq 0 (Z.to_nat pool_pages)) k0 k1]>)).

(** The [match ty] of [retype]. [cur_prio] is the running thread's priority. *)
Definition init_object (asid k0 k1 cur_prio : Z) (ty : ObjType.obj_type) (param : Z) (c : Carve) : K CapKind.kind :=
  let p := c_start c in
  match ty with
  | ObjType.CSpace => CSpaceObj_init p (as_u32 param);; mret (CapKind.CSpace (MkObjId p))
  | ObjType.Thread => Tcb_init p;; mret (CapKind.Thread (MkObjId p) cur_prio)
  | ObjType.Channel => Channel_init p (as_u32 param);; mret (CapKind.Channel (MkObjId p) ChanEnd.A)
  | ObjType.Notification => NotifObj_init p;; mret (CapKind.Notification (MkObjId p))
  | ObjType.Timer => TimerObj_init p;; mret (CapKind.Timer (MkObjId p))
  | ObjType.Frame => mret (CapKind.Frame p param None)
  | ObjType.Aspace => AspaceObj_init asid k0 k1 p param;; mret (CapKind.Aspace (MkObjId p))
  | ObjType.Untyped => mret (CapKind.Untyped p (c_bytes c) 0)
  end.

(** [retype], up to the zeroing of a frame's bytes, which happens in user memory. *)
Definition retype (asid k0 k1 cur_prio : Z) (ut_slot : SlotId) (ty : ObjType.obj_type) (param : Z)
    (dst : SlotId) (dst2 : option SlotId) : K (result Carve RetypeError.error) :=
  r ← retype_check ut_slot ty dst dst2;
  match r with
  | Err e => mret (Err e)
  | Ok (base, size, watermark) =>
      match carve L base size watermark ty param with
      | Err e => mret (Err e)
      | Ok c =>
          k ← init_object asid k0 k1 cur_prio ty param c;
          retype_install ut_slot ty k (c_end c) dst dst2;;
          mret (Ok c)
      end
  end.
End init.

(** ** Fresh objects *)

(** Nothing in the store is, refers to, or queues an object at this address. *)
Record vacant (st : Store) (o : ObjId) : Prop := {
  va_census : obj_census st o = 0;
  va_ends e : end_census st o e = 0;
  va_tcb : let t := tcbs st !!! o in t_state t ≠ ThreadState.Runnable ∧ t_wait_notif t = None ∧
    t_cspace t = None ∧ t_aspace t = None;
  va_timer : tm_armed (timers st !!! o) = false;
  va_chan o' : chan_refs o' (chans st !!! o) = 0;
}.

Lemma first_ref_kinv st o : kinv st → vacant st o → kinv_bal (with_refs (<[o := 1]>) st) (held o) no_ends.
Proof.
  intros K V. apply (kinv_with_refs st no_refs (held o) no_ends); [done|].
  intros x. rewrite census_with_refs. cbn. unfold held. destruct (decide (x = o)) as [->|]; lk.
  - by rewrite (va_census _ _ V), ind_true.
  - rewrite ind_false by done. rewrite (ki_refs _ _ _ K). unfold no_refs. lia.
Qed.

Lemma clear_slots_kinv l st b eb :
  kinv_bal st b eb → (∀ s, s ∈ l → ¬ occupied st s) →
  wp (clear_slots l) (λ _ st', kinv_bal st' b eb ∧ ∃ m, st' = with_slots (λ _, m) st ∧
    (∀ x, m !!! x = if decide (x ∈ l) then CapSlot_empty else slots st !!! x)) st.
Proof.
  revert st. induction l as [|s l IH]; intros st K Hl; cbn [clear_slots].
  - wp_step. split; [done|]. exists (slots st). split; [by destruct st|]. intros x. by rewrite decide_False by set_solver.
  - assert (¬ occupied st s) as Hs by (apply Hl; set_solver). unfold occupied in Hs. rewrite not_false_iff_true in Hs.
    unfold set_slot. wp_step. set (m1 := <[s := CapSlot_empty]> (slots st)).
    assert (kinv_bal (with_slots (λ _, m1) st) b eb) as K1.
    { apply (kinv_with_slots st m1 b b eb eb); [done| | | |].
      - destruct (ki_cdt _ _ _ K) as [kids C]. exists kids. destruct (cr_empty _ _ C s Hs) as (E1 & E2 & E3 & E4). by apply cdt_repr_relabel.
      - intros o. unfold m1. rewrite msum_insert, (empty_slot_refs o (slots st !!! s)) by done. rewrite (empty_slot_refs o CapSlot_empty) by done. lia.
      - intros ch e. unfold m1. rewrite msum_insert, (empty_end_refs ch e (slots st !!! s)) by done. rewrite (empty_end_refs ch e CapSlot_empty) by done. lia.
      - intros x. unfold m1. destruct (decide (x = s)) as [->|]; lk; [done|]. apply (ki_shape _ _ _ K). }
    eapply wp_mono; [apply (IH (with_slots (λ _, m1) st)); [done|]|].
    + intros x Hx. unfold occupied, m1. cbn. destruct (decide (x = s)) as [->|]; lk; [done|]. apply Hl. set_solver.
    + cbv beta. intros _ st' (K' & m & -> & Hm). split; [done|]. exists m. split; [done|]. intros x. rewrite Hm. cbn. unfold m1.
      destruct (decide (x ∈ l)); [by rewrite decide_True by set_solver|].
      destruct (decide (x = s)) as [->|]; lk; [by rewrite decide_True by set_solver|]. by rewrite decide_False by set_solver.
Qed.

(** Objects of one kind are created; the rest of the store is as it was. *)
Lemma shape_new st st' :
  shape st → slots st' = slots st → (∀ c, cap_ok st c → cap_ok st' c) →
  (∀ t, (∀ cs, t_cspace (tcbs st' !!! t) = Some cs → cspace_ok st' cs) ∧
    (∀ a, t_aspace (tcbs st' !!! t) = Some a → aspace_wf (aspaces st' !!! a))) → shape st'.
Proof. intros [S1 S2 S3] Hs Hc Ht. split; [|apply Ht|apply Ht]. intros s. rewrite Hs. apply Hc, S1. Qed.

Lemma new_cspace_kinv st b eb o n l :
  kinv_bal st b eb → Z.of_nat (length l) = n → kinv_bal (with_cspaces (<[o := MkCSpace n l]>) st) b eb.
Proof.
  intros [C R Ee (rq & wq & S) [tl T] Iq Sh] Hn. set (st' := with_cspaces _ st).
  assert (∀ cs, cspace_ok st cs → cspace_ok st' cs) as Hcs.
  { intros cs. unfold cspace_ok. cbn. destruct (decide (cs = o)) as [->|]; by lk. }
  split; try done.
  - exists rq, wq. by apply (sched_inv_ext st).
  - exists tl. by apply (timer_repr_ext st).
  - apply (shape_new st); [done|done| |].
    + intros c. unfold cap_ok. destruct (kind c); auto.
    + intros t. split; [|apply Sh]. intros cs Ht. apply Hcs. by apply (sp_cspace _ Sh t).
Qed.

Lemma new_tcb_kinv st b eb o s0 s1 :
  kinv_bal st b eb → vacant st o → kinv_bal (with_tcbs (<[o := Tcb_empty s0 s1]>) st) b eb.
Proof.
  intros [C R Ee (rq & wq & S) [tl T] Iq Sh] V. destruct (va_tcb _ _ V) as (V1 & V2 & V3 & V4).
  set (st' := with_tcbs _ st). split; try done.
  - intros x. change st' with (with_tcbs (λ m, <[o := (λ _, Tcb_empty s0 s1) (m !!! o)]> m) st). rewrite census_upd_tcb. cbn. rewrite R.
    unfold tcb_refs. cbn. rewrite V2, V3, V4. lia.
  - exists rq, wq. eapply sched_inv_mono; [|apply (sched_inv_off st rq wq ∅ o (λ _, Tcb_empty s0 s1) S)]; [set_solver| |done|done|done].
    apply (stopped_off st rq wq ∅ S); [done|]. by intros _.
  - exists tl. by apply (timer_repr_ext st).
  - apply (shape_new st); [done|done| |].
    + intros c. unfold cap_ok. destruct (kind c) as [| | | | |t ? | | | |]; auto. unfold tcb_ok. cbn. destruct (decide (t = o)) as [->|]; by lk.
    + intros t. cbn. destruct (decide (t = o)) as [->|]; lk; [done|]. split; apply Sh.
Qed.

Lemma new_chan_kinv st b eb o depth slot_of fill :
  kinv_bal st b eb → vacant st o → (∀ e, eb o e = 0) →
  kinv_bal (with_chans (<[o := channel_init depth slot_of fill]>) st) b eb.
Proof.
  intros [C R Ee (rq & wq & S) [tl T] Iq Sh] V Heb. set (st' := with_chans _ st).
  assert (∀ x, chan_refs x (channel_init depth slot_of fill) = 0) as H0 by (intros x; done).
  split; try done.
  - intros x. change st' with (with_chans (λ m, <[o := (λ _, channel_init depth slot_of fill) (m !!! o)]> m) st). rewrite census_upd_chan.
    cbn [refs with_chans]. rewrite R, H0, (va_chan _ _ V). lia.
  - intros ch e n. cbn. destruct (decide (ch = o)) as [->|]; lk; [|apply Ee].
    intros Hn. change (end_census st' o e) with (end_census st o e). rewrite (va_ends _ _ V), Heb. destruct e; cbn in Hn; by simplify_eq.
  - exists rq, wq. by apply (sched_inv_ext st).
  - exists tl. by apply (timer_repr_ext st).
  - apply (shape_new st); [done|done| |].
    + intros c. unfold cap_ok. destruct (kind c) as [| | | | | |ch ? | | |]; auto. unfold chan_ok. cbn.
      destruct (decide (ch = o)) as [->|]; lk; [|done]. intros _. apply channel_init_shape.
    + intros t. split; apply Sh.
Qed.

Lemma new_notif_kinv st b eb o :
  kinv_bal st b eb → obj_census st o = 0 → kinv_bal (with_notifs (<[o := MkNotif 0 None None]>) st) b eb.
Proof.
  intros [C R Ee (rq & wq & S) [tl T] Iq Sh] V. set (st' := with_notifs _ st).
  assert (wq o = []) as Hw.
  { destruct (wq o) as [|t l] eqn:E; [done|]. destruct (nr_in _ _ (si_notif _ _ _ _ S) o t) as [_ Ht]; [rewrite E; set_solver|].
    pose proof (tcb_refs_le st t o) as Hle. unfold tcb_refs in Hle. rewrite Ht, (ind_true (Some o = Some o)) in Hle by done.
    pose proof (ind_nonneg (t_cspace (tcbs st !!! t) = Some o)). pose proof (ind_nonneg (t_aspace (tcbs st !!! t) = Some o)). lia. }
  split; try done.
  - exists rq, wq. destruct S as [S1 S2 [N1 N2 N3 N4] S4]. split; [by apply (ready_repr_ext st)|done| |done].
    split; [|done|done|].
    + intros n. cbn. destruct (decide (n = o)) as [->|]; lk; [by rewrite Hw|apply N1].
    + intros n. cbn. destruct (decide (n = o)) as [->|]; lk; [done|apply N4].
  - exists tl. by apply (timer_repr_ext st).
  - apply (shape_new st); [done|done| |]; [|split; apply Sh]. intros c. unfold cap_ok. destruct (kind c); auto.
Qed.

Lemma new_timer_kinv st b eb o :
  kinv_bal st b eb → tm_armed (timers st !!! o) = false → kinv_bal (with_timers (<[o := MkTimer false 0 None 0 None]>) st) b eb.
Proof.
  intros [C R Ee (rq & wq & S) [tl T] Iq Sh] V. set (st' := with_timers _ st).
  assert (o ∉ tl) as Hno by (rewrite (tr_armed _ _ T); congruence).
  split; try done.
  - intros x. change st' with (with_timers (λ m, <[o := (λ _, MkTimer false 0 None 0 None) (m !!! o)]> m) st). rewrite census_upd_timer. cbn. rewrite R.
    unfold timer_refs. cbn. rewrite V. lia.
  - exists rq, wq. by apply (sched_inv_ext st).
  - exists tl. destruct T as [T1 T2 T3]. assert (∀ t, t ≠ o → timers st' !!! t = timers st !!! t) as Ho by (intros t Ht; cbn; by lk). split.
    + eapply chain_ext; [|exact T1]. intros t Ht. cbv beta. rewrite Ho; [done|]. by intros ->.
    + intros t. destruct (decide (t = o)) as [->|Hne]; [|by rewrite Ho]. cbn. by lk.
    + intros t Ht. rewrite Ho; [by apply T3|]. by intros ->.
  - apply (shape_new st); [done|done| |]; [|split; apply Sh]. intros c. unfold cap_ok. destruct (kind c); auto.
Qed.

(** ** Initialising the carved region *)

(** The region a carving hands out holds nothing live. *)
Record fresh (st : Store) (c : Carve) : Prop := {
  fr_vacant : vacant st (MkObjId (c_start c));
  fr_slots s : c_start c ≤ slot_addr s < c_end c → ¬ occupied st s;
}.

(** The capability to a new object, before its rights. *)
Definition new_kind (cur_prio : Z) (ty : ObjType.obj_type) (param : Z) (c : Carve) : CapKind.kind :=
  let o := MkObjId (c_start c) in
  match ty with
  | ObjType.CSpace => CapKind.CSpace o
  | ObjType.Thread => CapKind.Thread o cur_prio
  | ObjType.Channel => CapKind.Channel o ChanEnd.A
  | ObjType.Notification => CapKind.Notification o
  | ObjType.Timer => CapKind.Timer o
  | ObjType.Frame => CapKind.Frame (c_start c) param None
  | ObjType.Aspace => CapKind.Aspace o
  | ObjType.Untyped => CapKind.Untyped (c_start c) (c_bytes c) 0
  end.

(** The objects with slots, once a new one has been added. *)
Record built (L : Layout) (st : Store) (ty : ObjType.obj_type) (param : Z) (c : Carve) (st' : Store) : Prop := {
  bd_cspaces : cspaces st' = match ty with
    | ObjType.CSpace => <[MkObjId (c_start c) := MkCSpace param (cspace_slots_at L (c_start c) param)]> (cspaces st)
    | _ => cspaces st
    end;
  bd_chans : match ty with
    | ObjType.Channel => ∃ fill, (∀ r i, length (fill r i) = Z.to_nat MSG_PAYLOAD) ∧
        chans st' = <[MkObjId (c_start c) := channel_init (Z.to_nat param) (chan_slot_at L (c_start c) param) fill]> (chans st)
    | _ => chans st' = chans st
    end;
  bd_tcbs : tcbs st' = match ty with
    | ObjType.Thread => <[MkObjId (c_start c) := Tcb_empty (bind_slot_at L (c_start c) 0) (bind_slot_at L (c_start c) 1)]> (tcbs st)
    | _ => tcbs st
    end;
  bd_pinned : pinned st' = pinned st;
}.

Section init_spec.
Context (L : Layout) (raw_payload : Z → list Z) (raw_table : Z → list Z).
Hypothesis HL : layout_ok L.
Hypothesis Hpayload : ∀ a, length (raw_payload a) = Z.to_nat MSG_PAYLOAD.
Hypothesis Htable : ∀ a, length (raw_table a) = 512%nat.

(** A carving of [ty] with [param]. *)
Record placed (ty : ObjType.obj_type) (param : Z) (c : Carve) : Prop := {
  pl_bytes : object_bytes L ty param = Ok (c_bytes c);
  pl_end : c_end c = c_start c + c_bytes c;
  pl_align : c_start c mod ObjType.align ty = 0;
  pl_range : 0 ≤ c_start c ∧ c_end c ≤ 2 ^ 48;
  pl_param : 0 ≤ param;
}.

Definition in_region (c : Carve) (s : SlotId) : Prop := c_start c ≤ slot_addr s < c_end c.

Lemma cspace_slots_in param c s :
  placed ObjType.CSpace param c → s ∈ cspace_slots_at L (c_start c) param → in_region c s.
Proof using HL.
  intros [Hb He _ _ Hp]. unfold cspace_slots_at. intros (i & -> & Hi)%list_elem_of_fmap. apply elem_of_seq in Hi.
  unfold in_region. cbn. cbn in Hb. destruct ((param =? 0) || (1024 <? param)); [done|]. injection Hb as Hb. unfold cspace_bytes_for in Hb.
  pose proof (lo_cspace _ HL). pose proof (lo_slot _ HL). assert (Z.of_nat i + 1 ≤ param) by lia. nia.
Qed.

Lemma bind_slots_in param c w : placed ObjType.Thread param c → (w < 2)%nat → in_region c (bind_slot_at L (c_start c) w).
Proof using HL.
  intros [Hb He _ _ Hp] Hw. unfold in_region. cbn in *. injection Hb as Hb. pose proof (lo_bind _ HL). pose proof (lo_slot _ HL).
  destruct w as [|[|]]; [| |lia]; lia.
Qed.

Lemma chan_slots_in param c s :
  placed ObjType.Channel param c → s ∈ chan_slots_at L (c_start c) param → in_region c s.
Proof using HL.
  intros [Hb He _ _ Hp]. unfold chan_slots_at. intros (r & Hs & Hr)%list_elem_of_bind.
  apply list_elem_of_bind in Hs as (i & Hs & Hi). apply list_elem_of_fmap in Hs as (k & -> & Hk).
  apply elem_of_seq in Hr, Hi, Hk. unfold in_region, chan_slot_at, chan_msg_at. cbn. cbn in Hb.
  destruct ((param =? 0) || (256 <? param)); [done|]. injection Hb as Hb. unfold channel_bytes_for in Hb.
  pose proof (lo_chan _ HL). pose proof (lo_slot _ HL). pose proof (lo_msg _ HL). pose proof (lo_caps _ HL). unfold MSG_CAPS in Hk.
  assert (0 ≤ Z.of_nat r * param + Z.of_nat i ≤ 2 * param - 1) by nia. nia.
Qed.

(** What creating an object establishes. *)
Record created (st : Store) (c : Carve) (k : CapKind.kind) (st' : Store) : Prop := {
  cd_kinv : kinv_bal st' (cap_bal (MkCap k (Rights.MkRights 0))) no_ends;
  cd_ok : cap_ok st' (MkCap k (Rights.MkRights 0));
  cd_kind : cap_is_empty (MkCap k (Rights.MkRights 0)) = false;
  cd_slot s : ¬ in_region c s → slots st' !!! s = slots st !!! s;
  cd_empty s : in_region c s → ¬ occupied st' s;
  cd_chan ch e : k = CapKind.Channel ch e → e = ChanEnd.A ∧ refs st' !!! ch = 1 ∧ ch_end_caps (chans st' !!! ch) = [0; 0];
}.

Lemma created_plain st c k st' :
  fresh st c → slots st' = slots st → kinv_bal st' (cap_bal (MkCap k (Rights.MkRights 0))) no_ends →
  cap_ok st' (MkCap k (Rights.MkRights 0)) → cap_is_empty (MkCap k (Rights.MkRights 0)) = false →
  (∀ ch e, k ≠ CapKind.Channel ch e) → created st c k st'.
Proof using Type.
  intros F Es K Hok Hk Hc. split; try done.
  - intros s _. by rewrite Es.
  - intros s Hs. unfold occupied. rewrite Es. by apply (fr_slots _ _ F).
  - intros ch e E. by apply Hc in E.
Qed.

(** The embedded slots are emptied last. *)
Lemma created_slots st c k st1 l :
  fresh st c → slots st1 = slots st → kinv_bal st1 (cap_bal (MkCap k (Rights.MkRights 0))) no_ends →
  cap_ok st1 (MkCap k (Rights.MkRights 0)) → cap_is_empty (MkCap k (Rights.MkRights 0)) = false →
  (∀ ch e, k = CapKind.Channel ch e → e = ChanEnd.A ∧ refs st1 !!! ch = 1 ∧ ch_end_caps (chans st1 !!! ch) = [0; 0]) →
  (∀ s, s ∈ l → in_region c s) →
  wp (clear_slots l) (λ _ st', created st c k st') st1.
Proof using Type.
  intros F Es K Hok Hk Hc Hl. eapply wp_mono; [apply (clear_slots_kinv l st1 _ _ K)|].
  - intros s Hs%Hl. unfold occupied. rewrite Es. by apply (fr_slots _ _ F).
  - cbv beta. intros _ st' (K' & m & -> & Hm). split; try done.
    + intros s Hs. cbn. rewrite Hm, decide_False by (by intros ?%Hl). by rewrite Es.
    + intros s Hs. unfold occupied. cbn. rewrite Hm. case_decide; [done|]. rewrite Es. by apply (fr_slots _ _ F).
Qed.

Lemma vacant_refs st o f : vacant st o → vacant (with_refs f st) o.
Proof using Type. intros [V1 V2 V3 V4 V5]. by split. Qed.

Lemma held_bal st o k : cap_obj (MkCap k (Rights.MkRights 0)) = Some o → cap_frame_aspace (MkCap k (Rights.MkRights 0)) = None →
  kinv_bal st (held o) no_ends → kinv_bal st (cap_bal (MkCap k (Rights.MkRights 0))) no_ends.
Proof using Type. intros Ho Hf. apply kinv_bal_ext; [|done]. intros x. symmetry. by apply cap_bal_obj. Qed.

Lemma aspace_placed param c asid k0 k1 :
  placed ObjType.Aspace param c →
  aspace_wf (aspace_init asid (c_start c + 2 * PAGE) (Z.to_nat param)
    ((λ i, raw_table (c_start c + 2 * PAGE + Z.of_nat i * PAGE)) <$> seq 0 (Z.to_nat param)) k0 k1).
Proof using Htable.
  intros [Hb He Ha [H0 Hr] Hp]. cbn in *. destruct ((param =? 0) || (256 <? param)); [done|]. injection Hb as Hb.
  apply aspace_init_wf.
  - unfold aspace_bytes_for in Hb. split_and!; unfold PAGE in *; [lia| |lia].
    rewrite Zplus_mod, Ha. done.
  - by rewrite length_fmap, length_seq.
  - intros t row. rewrite list_lookup_fmap. destruct (seq _ _ !! t); [|done]. cbn. intros [= <-]. apply Htable.
Qed.

Lemma param_u32 ty param c : (ty = ObjType.CSpace ∨ ty = ObjType.Channel) → placed ty param c → as_u32 param = param.
Proof using Type.
  intros Hty [Hb _ _ _ Hp]. unfold as_u32. apply Z.mod_small. destruct Hty as [-> | ->]; cbn in Hb.
  - destruct (Z.eqb_spec param 0), (Z.ltb_spec 1024 param); cbn in Hb; try done; lia.
  - destruct (Z.eqb_spec param 0), (Z.ltb_spec 256 param); cbn in Hb; try done; lia.
Qed.

Lemma region_placed st param c :
  (placed ObjType.Frame param c → cap_ok st (MkCap (CapKind.Frame (c_start c) param None) (Rights.MkRights 0))) ∧
  (placed ObjType.Untyped param c → cap_ok st (MkCap (CapKind.Untyped (c_start c) (c_bytes c) 0) (Rights.MkRights 0))).
Proof using HL.
  unfold cap_ok. cbn [kind]. split; intros P; pose proof (object_bytes_pos L _ param _ HL (pl_param _ _ _ P) (pl_bytes _ _ _ P));
    destruct P as [Hb He _ Hr Hp]; [|lia].
  cbn in Hb. destruct ((param =? 0) || (65536 <? param)); [done|]. injection Hb as Hb. unfold PAGE. lia.
Qed.

Lemma init_object_created st asid k0 k1 cp ty param c :
  kinv st → fresh st c → placed ty param c →
  wp (init_object L raw_payload raw_table asid k0 k1 cp ty param c) (λ k st',
    created st c k st' ∧ k = new_kind cp ty param c) st.
Proof using All.
  intros K F P. set (o := MkObjId (c_start c)). pose proof (fr_vacant _ _ F) as V. fold o in V.
  pose proof (first_ref_kinv st o K V) as K1. pose proof (vacant_refs st o (<[o := 1]>) V) as V1.
  destruct ty; unfold init_object, CSpaceObj_init, Tcb_init, Channel_init, NotifObj_init, TimerObj_init, AspaceObj_init, set_obj_refs; fold o.
  - rewrite (param_u32 _ _ _ (or_introl eq_refl) P). wp_step.
    assert (Z.of_nat (length (cspace_slots_at L (c_start c) param)) = param) as Hl.
    { unfold cspace_slots_at. rewrite length_fmap, length_seq. pose proof (pl_param _ _ _ P). lia. }
    eapply wp_mono; [apply (created_slots st c (CapKind.CSpace o)); try done|by intros].
    + apply (held_bal _ o); [done|done|]. by apply new_cspace_kinv.
    + unfold cap_ok, cspace_ok. cbn. by lk.
    + intros s. by apply (cspace_slots_in param).
  - wp_step. eapply wp_mono; [apply (created_slots st c (CapKind.Thread o cp)); try done|by intros].
    + apply (held_bal _ o); [done|done|]. by apply new_tcb_kinv.
    + unfold cap_ok, tcb_ok. cbn. by lk.
    + intros s Hs. assert (s = bind_slot_at L (c_start c) 0 ∨ s = bind_slot_at L (c_start c) 1) as [-> | ->] by set_solver;
        apply (bind_slots_in param); (done || lia).
  - rewrite (param_u32 _ _ _ (or_intror eq_refl) P). wp_step.
    eapply wp_mono; [apply (created_slots st c (CapKind.Channel o ChanEnd.A)); try done|by intros].
    + apply (held_bal _ o); [done|done|]. by apply new_chan_kinv.
    + unfold cap_ok, chan_ok. cbn. lk. apply channel_init_shape.
    + intros ch e [= <- <-]. cbn. by lk.
    + intros s. by apply (chan_slots_in param).
  - wp_step. split; [|done]. apply created_plain; try done. apply (held_bal _ o); [done|done|]. apply new_notif_kinv; [done|apply V1].
  - wp_step. split; [|done]. apply created_plain; try done. apply (held_bal _ o); [done|done|]. apply new_timer_kinv; [done|apply V1].
  - wp_step. split; [|done]. apply created_plain; try done. by apply region_placed.
  - pose proof (aspace_placed param c asid k0 k1 P) as Hwf. wp_step. split; [|done]. apply created_plain; try done.
    + apply (held_bal _ o); [done|done|]. destruct (aspace_step_kinv _ _ _ o _ (hw st) K1 Hwf) as [K2 _]. done.
    + unfold cap_ok. cbn. by lk.
  - wp_step. split; [|done]. apply created_plain; try done. by apply (region_placed st param c).
Qed.

Lemma clear_slots_frame l st : wp (clear_slots l) (λ _ st', ∃ m, st' = with_slots (λ _, m) st) st.
Proof.
  revert st. induction l as [|x l IH]; intros st; cbn [clear_slots]; unfold set_slot; wp_step; [by exists (slots st); destruct st|].
  eapply wp_mono; [apply IH|]. cbv beta. intros _ st' [m ->]. by exists m.
Qed.

Lemma init_object_built st asid k0 k1 cp ty param c :
  placed ty param c → wp (init_object L raw_payload raw_table asid k0 k1 cp ty param c) (λ _ st', built L st ty param c st') st.
Proof using Hpayload.
  intros P. destruct ty; unfold init_object, CSpaceObj_init, Tcb_init, Channel_init, NotifObj_init, TimerObj_init, AspaceObj_init, set_obj_refs;
    rewrite ?(param_u32 ObjType.CSpace param c (or_introl eq_refl)), ?(param_u32 ObjType.Channel param c (or_intror eq_refl)) by done;
    wp_step; try (by split).
  all: eapply wp_mono; [apply clear_slots_frame|]; cbv beta; intros _ st' [m ->]; wp_step; split; try done.
  eexists. split; [|reflexivity]. intros r i. apply Hpayload.
Qed.

End init_spec.

(** ** Retyping *)

(** The destinations a request needs are free. *)
Definition dests_free (st : Store) (ty : ObjType.obj_type) (dst : SlotId) (dst2 : option SlotId) : Prop :=
  ¬ occupied st dst ∧ (ty = ObjType.Channel → ∃ d2, dst2 = Some d2 ∧ d2 ≠ dst ∧ ¬ occupied st d2).

Lemma retype_check_spec st ut ty dst dst2 :
  wp (retype_check ut ty dst dst2) (λ r st', st' = st ∧ match r with
    | Ok (base, size, w) => kind (cap (slots st !!! ut)) = CapKind.Untyped base size w ∧ dests_free st ty dst dst2
    | Err RetypeError.NotUntyped => ∀ base size w, kind (cap (slots st !!! ut)) ≠ CapKind.Untyped base size w
    | Err RetypeError.DestOccupied => (∃ base size w, kind (cap (slots st !!! ut)) = CapKind.Untyped base size w) ∧
        ¬ dests_free st ty dst dst2
    | Err _ => False
    end) st.
Proof.
  unfold retype_check, slot, dests_free, occupied. wp_step. destruct (kind (cap (slots st !!! ut))) as [|base size w| | | | | | | |] eqn:Ek; wp_step; try done.
  destruct (cap_is_empty (cap (slots st !!! dst))) eqn:Ed; cbn [negb]; wp_step.
  2:{ split; [done|]. split; [eauto|]. naive_solver. }
  destruct ty; wp_step; try (split; [done|]; split; [done|]; split; done).
  destruct dst2 as [d2|]; wp_step.
  2:{ split; [done|]. split; [eauto|]. intros [_ H]. by destruct (H eq_refl) as (d & ? & _). }
  destruct (decide (d2 = dst)) as [->|Hne].
  { rewrite bool_decide_eq_true_2 by done. cbn. wp_step. split; [done|]. split; [eauto|].
    intros [_ H]. by destruct (H eq_refl) as (d & [= <-] & ? & _). }
  rewrite bool_decide_eq_false_2 by done. cbn [orb]. destruct (cap_is_empty (cap (slots st !!! d2))) eqn:E2; cbn [negb]; wp_step; (split; [done|]).
  - split; [done|]. split; [done|]. intros _. exists d2. by rewrite E2.
  - split; [eauto|]. intros [_ H]. destruct (H eq_refl) as (d & [= <-] & _ & Hd). by rewrite E2 in Hd.
Qed.

Section retype_spec.
Context (L : Layout) (raw_payload : Z → list Z) (raw_table : Z → list Z).
Hypothesis HL : layout_ok L.
Hypothesis Hpayload : ∀ a, length (raw_payload a) = Z.to_nat MSG_PAYLOAD.
Hypothesis Htable : ∀ a, length (raw_table a) = 512%nat.

Lemma carve_placed base size w ty param c :
  0 ≤ base → 0 ≤ w → 0 ≤ size → base + size ≤ 2 ^ 48 → 0 ≤ param → carve L base size w ty param = Ok c →
  placed L ty param c ∧ base + w ≤ c_start c < c_end c ∧ c_end c ≤ base + size.
Proof using HL.
  intros H0 Hw Hs He Hp E. pose proof (carve_spec L base size w ty param HL H0 Hw Hs) as H. rewrite E in H.
  destruct H as (bytes & Hb & Est & Een & <- & Hpos & Hle); [unfold U64_MAX; lia|done|].
  assert (0 < ObjType.align ty) as Ha by (by destruct ty). destruct (align_up_spec (base + w) (ObjType.align ty) Ha) as [Hr Hm].
  rewrite <-Est in Hr, Hm. split; [split; [done|done|done|lia|done]|lia].
Qed.

(** What a successful [retype] leaves. *)
Record retyped (st : Store) (cp : Z) (ut dst : SlotId) (dst2 : option SlotId) (ty : ObjType.obj_type) (param : Z) (c : Carve)
    (st' : Store) : Prop := {
  rt_kinv : kinv st';
  rt_ut : ∃ base size w, kind (cap (slots st !!! ut)) = CapKind.Untyped base size w ∧ base + w ≤ c_start c ∧
    kind (cap (slots st' !!! ut)) = CapKind.Untyped base size (c_end c - base);
  rt_dst : cap (slots st' !!! dst) = MkCap (new_kind cp ty param c) (retype_rights ty (rights (cap (slots st !!! ut))));
  rt_parent : parent (slots st' !!! dst) = Some ut;
  rt_dst2 d2 : ty = ObjType.Channel → dst2 = Some d2 →
    cap (slots st' !!! d2) = MkCap (CapKind.Channel (MkObjId (c_start c)) ChanEnd.B) Rights.ALL ∧ parent (slots st' !!! d2) = Some ut;
  rt_other x : x ≠ ut → x ≠ dst → dst2 ≠ Some x → ¬ in_region c x → cap (slots st' !!! x) = cap (slots st !!! x);
  rt_region x : in_region c x → x ≠ dst → dst2 ≠ Some x → ¬ occupied st' x;
  rt_placed : placed L ty param c;
  rt_carve : ∃ base size w, kind (cap (slots st !!! ut)) = CapKind.Untyped base size w ∧ carve L base size w ty param = Ok c;
  rt_built : ∃ st1, built L st ty param c st1 ∧ shape_le st1 st' ∧ tcbs st' = tcbs st1;
}.

Lemma retype_kinv st asid k0 k1 cp ut ty param dst dst2 :
  kinv st → 0 ≤ param →
  (∀ base size w c, kind (cap (slots st !!! ut)) = CapKind.Untyped base size w → carve L base size w ty param = Ok c → fresh st c) →
  wp (retype L raw_payload raw_table asid k0 k1 cp ut ty param dst dst2) (λ r st', match r with
    | Ok c => retyped st cp ut dst dst2 ty param c st' ∧ dests_free st ty dst dst2
    | Err e => st' = st ∧
        ((e = RetypeError.NotUntyped ∧ ∀ base size w, kind (cap (slots st !!! ut)) ≠ CapKind.Untyped base size w) ∨
         ∃ base size w, kind (cap (slots st !!! ut)) = CapKind.Untyped base size w ∧
           ((e = RetypeError.DestOccupied ∧ ¬ dests_free st ty dst dst2) ∨
            (dests_free st ty dst dst2 ∧ carve L base size w ty param = Err e)))
    end) st.
Proof using All.
  intros K Hp Hut. unfold retype. rewrite wp_bind. eapply wp_mono; [apply retype_check_spec|]. cbv beta.
  intros [[[base size] w]|e] st0 [-> H].
  2:{ wp_step. split; [done|]. destruct e; [left; done|right; destruct H as [(base & size & w & Hk) H]; exists base, size, w; naive_solver|done|done]. }
  destruct H as [Hk Hd]. pose proof (sp_cap _ (ki_shape _ _ _ K) ut) as Hok. unfold cap_ok in Hok. rewrite Hk in Hok.
  destruct (carve L base size w ty param) as [c|e] eqn:Ec.
  2:{ wp_step. split; [done|]. right. exists base, size, w. naive_solver. }
  destruct (carve_placed base size w ty param c) as (P & Hst & Hen); [lia..|done|]. pose proof (Hut _ _ _ c Hk Ec) as Hfresh.
  pose proof (init_object_built L raw_payload raw_table Hpayload st asid k0 k1 cp ty param c P) as Hb.
  apply wp_inv in Hb as (k' & st1' & Ek' & B). rewrite wp_bind.
  pose proof (init_object_created L raw_payload raw_table HL Hpayload Htable st asid k0 k1 cp ty param c K Hfresh P) as Hi.
  apply wp_inv in Hi as (k & st1 & Ek & C & Hkind). rewrite Ek in Ek'. injection Ek' as <- <-.
  eapply wp_of_eq; [exact Ek|]. clear Ek.
  assert (¬ in_region c ut) as Hnut.
  { intros Hin. apply (fr_slots _ _ Hfresh ut Hin). unfold occupied, cap_is_empty. by rewrite Hk. }
  assert (∀ x, ¬ occupied st x → ¬ occupied st1 x) as Hocc.
  { intros x Hx. destruct (decide (c_start c ≤ slot_addr x < c_end c)) as [Hin|Hin]; [by apply (cd_empty _ _ _ _ C)|].
    unfold occupied. by rewrite (cd_slot _ _ _ _ C x Hin). }
  assert (slots st1 !!! ut = slots st !!! ut) as Eut by (by apply (cd_slot _ _ _ _ C)).
  assert (k = CapKind.Channel (MkObjId (c_start c)) ChanEnd.A ∧ ty = ObjType.Channel ∨ ∀ ch e, k ≠ CapKind.Channel ch e) as Hch
    by (destruct ty; subst; naive_solver).
  assert (installable st1 ut dst dst2 k) as I.
  { split; [apply C|apply C|apply C|apply Hocc, Hd|]. intros ch e ->. destruct (cd_chan _ _ _ _ C ch e eq_refl) as (-> & Hr & Hends).
    split; [done|]. rewrite Hr, Hends. split; [done|]. split; [intros [] n; cbn; intros [= <-]; done|].
    destruct Hch as [[_ ->]|Hch]; [|by destruct (Hch ch ChanEnd.A)]. destruct Hd as [_ Hd]. destruct (Hd eq_refl) as (d2 & -> & Hne & Ho). eauto. }
  rewrite wp_bind. eapply wp_mono; [apply (retype_install_kinv st1 ut ty k (c_end c) dst dst2 base size w I); [by rewrite Eut|lia]|].
  cbv beta. intros _ st2 [I1 I2 I3 I4 I5 I6 I7 I8]. rewrite Eut in I2, I3. wp_step. split; [|done].
  split; [done| |by rewrite I3, Hkind|done| | | |done|by exists base, size, w|by exists st1].
  - exists base, size, w. rewrite I2. split_and!; [done|lia|done].
  - intros d2 -> ->. subst k. by eapply I5.
  - intros x Hx Hx' Hx2 Hin. rewrite I6 by done. by rewrite (cd_slot _ _ _ _ C).
  - intros x Hin Hx' Hx2. unfold occupied. rewrite I6 by (done || by intros ->). by apply (cd_empty _ _ _ _ C).
Qed.
End retype_spec.
