(* ===== verification/Arena.v ===== *)
(** The invariant of the kernel between exceptions. Capability slots live in CSpaces,
    in channel rings and in thread control blocks; user code reaches a slot only
    through its CSpace. [sysinv] adds to the store invariant [kinv] that the slots of
    objects something still designates do not overlap, that every such channel has a
    well-formed ring, and what a thread's run state says about its fields. [evolves]
    collects what an operation must keep for it to hold again. *)

From S2P Require Import Prelude KStore Ready Census Notif Timer Irq Cdt Aspace Kinv Refs Channel Thread Events Cspace Fifo Untyped Retype.

(** ** Objects that are designated *)

(** The objects with slots of their own. *)
Inductive holder : Type := HCspace (o : ObjId) | HChan (o : ObjId) | HTcb (o : ObjId).

Definition holder_of (k : CapKind.kind) : option holder :=
  match k with
  | CapKind.CSpace o => Some (HCspace o)
  | CapKind.Channel o _ => Some (HChan o)
  | CapKind.Thread o _ => Some (HTcb o)
  | _ => None
  end.

Definition cap_held (st : Store) (h : holder) : Prop := ∃ s, holder_of (kind (cap (slots st !!! s))) = Some h.
Definition live (st : Store) (h : holder) : Prop :=
  cap_held st h ∨ match h with HCspace cs => ∃ t, t_cspace (tcbs st !!! t) = Some cs | _ => False end.

(** A place a slot can be at. *)
Inductive place : Type :=
| InCspace (cs : ObjId) (i : nat)
| InRing (ch : ObjId) (r : nat) (i : Z) (k : nat)
| InBind (t : ObjId) (w : nat).

Definition holder_at (p : place) : holder :=
  match p with InCspace cs _ => HCspace cs | InRing ch _ _ _ => HChan ch | InBind t _ => HTcb t end.
Definition slot_in (st : Store) (p : place) : option SlotId :=
  match p with
  | InCspace cs i => cs_slots (cspaces st !!! cs) !! i
  | InRing ch r i k => if decide (0 ≤ i) then ring_cap (chans st !!! ch) r i k else None
  | InBind t w => t_bind_slots (tcbs st !!! t) !! w
  end.
Definition at_place (st : Store) (p : place) (s : SlotId) : Prop := live st (holder_at p) ∧ slot_in st p = Some s.

(** ** The invariant *)

(** A thread that runs or will. *)
Definition active (s : ThreadState.thread_state) : Prop :=
  s = ThreadState.Running ∨ s = ThreadState.Runnable ∨ s = ThreadState.BlockedNotif.

Definition thread_fields (st : Store) (t : ObjId) : Prop :=
  let o := tcbs st !!! t in
  (t_state o = ThreadState.Inactive → t_cspace o = None ∧ t_aspace o = None) ∧
  (active (t_state o) → tcb_ok st t).

Record sysinv (st : Store) : Prop := {
  sy_kinv : kinv st;
  sy_arena p q s : at_place st p s → at_place st q s → p = q;
  sy_ring ch : live st (HChan ch) → ring_ok (slots st) (chans st !!! ch);
  sy_thread t : thread_fields st t;
}.

(** ** Operations *)

(** A thread's fields under an operation that does not create threads. *)
Record thread_moves (st : Store) (t : ObjId) (st' : Store) : Prop := {
  tm_cspace cs : t_cspace (tcbs st' !!! t) = Some cs → t_cspace (tcbs st !!! t) = Some cs;
  tm_aspace a : t_aspace (tcbs st' !!! t) = Some a → t_aspace (tcbs st !!! t) = Some a;
  tm_inactive : t_state (tcbs st' !!! t) = ThreadState.Inactive → t_state (tcbs st !!! t) = ThreadState.Inactive;
  tm_active : active (t_state (tcbs st' !!! t)) → active (t_state (tcbs st !!! t));
  tm_ok : tcb_ok st t → tcb_ok st' t;
}.

Record evolves (st st' : Store) : Prop := {
  ev_kinv : kinv st';
  ev_layout : same_layout st st';
  ev_caps h : cap_held st' h → cap_held st h;
  ev_thread t : thread_moves st t st';
  ev_ring ch : live st' (HChan ch) → ring_ok (slots st) (chans st !!! ch) → ring_ok (slots st') (chans st' !!! ch);
}.

Lemma live_evolves st st' h : evolves st st' → live st' h → live st h.
Proof.
  intros E [Hc|Ht]; [left; by apply (ev_caps _ _ E)|]. right. destruct h as [cs| |]; [|done..].
  destruct Ht as [t Ht]. exists t. by apply (tm_cspace _ _ _ (ev_thread _ _ E t)).
Qed.

Lemma slot_in_layout st st' p : same_layout st st' → slot_in st' p = slot_in st p.
Proof.
  intros L. destruct p as [cs i|ch r i k|t w]; cbn; [by rewrite (ly_cspaces _ _ L)| |by rewrite (ly_bind _ _ L)].
  case_decide; [by apply (ly_ring _ _ L)|done].
Qed.

Lemma at_place_evolves st st' p s : evolves st st' → at_place st' p s → at_place st p s.
Proof. intros E [Hl Hs]. split; [by eapply live_evolves|]. by rewrite <-(slot_in_layout _ _ _ (ev_layout _ _ E)). Qed.

Lemma sysinv_evolves st st' : sysinv st → evolves st st' → sysinv st'.
Proof.
  intros [K A R T] E. split.
  - apply E.
  - intros p q s Hp Hq. eapply A; by eapply at_place_evolves.
  - intros ch Hl. apply (ev_ring _ _ E); [done|]. by apply R, (live_evolves st st').
  - intros t. destruct (T t) as [Ti Ta], (ev_thread _ _ E t) as [Hc Hs Hi Hv Ho]. split.
    + intros [Tc Tp]%Hi%Ti. split.
      * destruct (t_cspace (tcbs st' !!! t)) as [cs|]; [|done]. by rewrite (Hc cs) in Tc.
      * destruct (t_aspace (tcbs st' !!! t)) as [a|]; [|done]. by rewrite (Hs a) in Tp.
    + auto.
Qed.

Lemma thread_moves_refl st st' t : tcbs st' = tcbs st → thread_moves st t st'.
Proof. intros E. split; unfold tcb_ok; rewrite ?E; auto. Qed.
Lemma thread_moves_trans st1 st2 st3 t : thread_moves st1 t st2 → thread_moves st2 t st3 → thread_moves st1 t st3.
Proof. intros [] []. split; auto. Qed.

Lemma evolves_trans st1 st2 st3 : evolves st1 st2 → evolves st2 st3 → evolves st1 st3.
Proof.
  intros E1 E2. split.
  - apply E2.
  - eapply same_layout_trans; [apply E1|apply E2].
  - intros h Hh. by apply (ev_caps _ _ E1), (ev_caps _ _ E2).
  - intros t. eapply thread_moves_trans; [apply E1|apply E2].
  - intros ch Hl R. apply (ev_ring _ _ E2); [done|]. apply (ev_ring _ _ E1); [|done]. by eapply live_evolves.
Qed.

(** ** Rings *)

(** A ring under changes of the other channel fields and of slots. *)
Lemma ring_ok_frame m m' c c' :
  ring_ok m c → chan_shape c' →
  ch_msgs c' = ch_msgs c ∧ ch_depth c' = ch_depth c ∧ ch_head c' = ch_head c ∧ ch_count c' = ch_count c →
  (∀ s, is_ring_slot c s → cap_is_empty (cap (m !!! s)) = true → cap_is_empty (cap (m' !!! s)) = true) →
  ring_ok m' c'.
Proof.
  intros [Sh D Hh Hc P I F] Sh' (E1 & E2 & E3 & E4) Hs.
  assert (∀ r i, get_msg c' r i = get_msg c r i) as Eg by (intros; unfold get_msg; by rewrite E1).
  assert (∀ r i k, ring_cap c' r i k = ring_cap c r i k) as Er by (intros; unfold ring_cap; by rewrite Eg).
  split; rewrite ?E2, ?E3, ?E4; try done.
  - intros r i msg. rewrite Eg. apply P.
  - intros r i k r' i' k' s. rewrite !Er. apply I.
  - intros r h n j k s H1 H2 H3. unfold nth_idx. rewrite Er, E2. intros H4.
    apply Hs; [|by eapply F]. exists r, (nth_idx c h j), k. split; [|done]. unfold nth_idx.
    apply Z.mod_pos_bound. lia.
Qed.

Lemma ring_ok_shrinks st st' ch :
  shrinks st st' → ring_ok (slots st) (chans st !!! ch) → ring_ok (slots st') (chans st' !!! ch).
Proof.
  intros S R. pose proof (sh_shape _ _ S) as L. eapply ring_ok_frame; [exact R|apply L, R|apply L|].
  intros s _ He. destruct (cap_is_empty (cap (slots st' !!! s))) eqn:E'; [done|].
  rewrite (sh_cap _ _ S) in E' by done. congruence.
Qed.

Lemma thread_le_moves st st' t :
  thread_le (pinned st !!! t) (tcbs st !!! t) (tcbs st' !!! t) → (tcb_ok st t → tcb_ok st' t) → thread_moves st t st'.
Proof.
  intros [Hc Ha Hs] Ho. unfold woken, active in *. split; try done.
  - intros E. destruct Hs as [[Hs|[_ Hs]]|[Hs _]]; congruence.
  - unfold active. intros E. destruct Hs as [[Hs|[Hs _]]|[Hs _]]; [by rewrite <-Hs|do 2 right; exact Hs|]. rewrite Hs in E. naive_solver.
Qed.

Lemma cap_held_shrinks st st' h : (∀ x, occupied st' x → ∃ y, cap (slots st' !!! x) = cap (slots st !!! y)) → cap_held st' h → cap_held st h.
Proof.
  intros Hc [s Hs]. destruct (Hc s) as [y Hy].
  - unfold occupied, cap_is_empty. by destruct (kind (cap (slots st' !!! s))).
  - exists y. by rewrite <-Hy.
Qed.

Lemma evolves_shrinks st st' : kinv st' → shrinks st st' → evolves st st'.
Proof.
  intros K S. split; [done|by apply shrinks_layout| | |].
  - intros h. apply cap_held_shrinks. intros x Hx. exists x. by apply (sh_cap _ _ S).
  - intros t. apply thread_le_moves; [apply S|apply (sl_tcb _ _ (sh_shape _ _ S))].
  - intros ch _. by apply ring_ok_shrinks.
Qed.

(** A change of slots only, outside every ring. *)
Lemma evolves_slots st st' :
  kinv st' → shape_le st st' → tcbs st' = tcbs st → (∀ h, cap_held st' h → cap_held st h) →
  (∀ ch s, live st (HChan ch) → is_ring_slot (chans st !!! ch) s → ¬ occupied st s → ¬ occupied st' s) →
  evolves st st'.
Proof.
  intros K L Et Hc Hr. assert (same_layout st st') as Ly.
  { split; [apply L| |apply L|apply L]. intros ch r i k _. unfold ring_cap, get_msg. by destruct (sl_msgs _ _ L ch) as [-> _]. }
  split; try done.
  - intros t. by apply thread_moves_refl.
  - intros ch Hl R. assert (live st (HChan ch)) as Hl' by (destruct Hl as [Hl|[]]; left; by apply Hc).
    eapply ring_ok_frame; [exact R|apply L, R|apply L|].
    intros s Hs He. specialize (Hr ch s Hl' Hs). unfold occupied in Hr. rewrite He in Hr.
    destruct (cap_is_empty (cap (slots st' !!! s))); [done|]. by destruct Hr.
Qed.

(** ** Slots user code can name *)

(** A slot of a CSpace something designates, or a live thread's binding slot. *)
Definition nameable (st : Store) (s : SlotId) : Prop :=
  ∃ p, at_place st p s ∧ match p with InRing _ _ _ _ => False | _ => True end.

Section nameable.
Context (st : Store).
Hypothesis I : sysinv st.

Lemma nameable_not_ring s ch : nameable st s → live st (HChan ch) → ¬ is_ring_slot (chans st !!! ch) s.
Proof using I.
  intros (p & Hp & Hn) Hl (r & i & k & Hi & Hs).
  assert (at_place st (InRing ch r i k) s) as Hq by (split; [done|]; cbn; by rewrite decide_True).
  by rewrite (sy_arena _ I _ _ _ Hp Hq) in Hn.
Qed.

Lemma ring_slot_unique ch ch' s :
  live st (HChan ch) → live st (HChan ch') → is_ring_slot (chans st !!! ch) s → is_ring_slot (chans st !!! ch') s → ch = ch'.
Proof using I.
  intros H1 H2 (r & i & k & Hi & Hs) (r' & i' & k' & Hi' & Hs').
  assert (at_place st (InRing ch r i k) s) as A1 by (split; [done|]; cbn; by rewrite decide_True).
  assert (at_place st (InRing ch' r' i' k') s) as A2 by (split; [done|]; cbn; by rewrite decide_True).
  pose proof (sy_arena _ I _ _ _ A1 A2). congruence.
Qed.

(** Filling or changing nameable slots. *)
Lemma evolves_named st' :
  kinv st' → shape_le st st' → tcbs st' = tcbs st → (∀ h, cap_held st' h → cap_held st h) →
  (∀ x, occupied st' x → occupied st x ∨ nameable st x) → evolves st st'.
Proof using I.
  intros K L Et Hc Ho. apply evolves_slots; try done. intros ch s Hl Hs He Hx.
  destruct (Ho s Hx) as [|Hn]; [done|]. by eapply nameable_not_ring.
Qed.

Lemma derive_evolves src dst c st' mask prio :
  c = derived_cap (cap (slots st !!! src)) mask prio → kinv st' → derived st src dst c st' → nameable st dst → evolves st st'.
Proof using I.
  intros Hc K D Hn. apply evolves_named; [done|apply D|apply D| |].
  - intros h [x Hx]. destruct (decide (x = dst)) as [->|Hne].
    + rewrite (dv_cap _ _ _ _ _ D), Hc in Hx. exists src. unfold derived_cap in Hx. cbn in Hx.
      by destruct (kind (cap (slots st !!! src))).
    + destruct (dv_other _ _ _ _ _ D x Hne) as [E _]. exists x. by rewrite <-E.
  - intros x Hx. destruct (decide (x = dst)) as [->|Hne]; [by right|]. left.
    destruct (dv_other _ _ _ _ _ D x Hne) as [E _]. unfold occupied in *. by rewrite <-E.
Qed.

Lemma moved_caps m src dst x : moved (slots st) src dst m → ∃ y, cap (m !!! x) = cap (slots st !!! y) ∨ cap_is_empty (cap (m !!! x)) = true.
Proof.
  intros M. destruct (decide (x = dst)) as [->|]; [exists src; left; by rewrite (mv_dst _ _ _ _ M)|].
  destruct (decide (x = src)) as [->|]; [exists src; right; by rewrite (mv_src _ _ _ _ M)|].
  exists x. left. by apply (mv_cap _ _ _ _ M).
Qed.

Lemma move_evolves src dst m :
  kinv (with_slots (λ _, m) st) → moved (slots st) src dst m → nameable st dst → evolves st (with_slots (λ _, m) st).
Proof using I.
  intros K M Hn. apply evolves_named; [done|apply shape_le_slots|done| |].
  - intros h. apply cap_held_shrinks. unfold occupied. cbn. intros x Hx.
    destruct (moved_caps m src dst x M) as (y & [E|E]); [by exists y|congruence].
  - unfold occupied. cbn. intros x Hx. destruct (decide (x = dst)) as [->|]; [by right|]. left.
    destruct (decide (x = src)) as [->|]; [by rewrite (mv_src _ _ _ _ M) in Hx|].
    by rewrite <-(mv_cap _ _ _ _ M) by done.
Qed.

(** An operation that rewrites one capability in place, keeping what it designates. *)
Lemma relabel_evolves s st' :
  kinv st' → shape_le st st' → tcbs st' = tcbs st → (∀ x, x ≠ s → slots st' !!! x = slots st !!! x) →
  occupied st s → holder_of (kind (cap (slots st' !!! s))) = None → evolves st st'.
Proof using I.
  intros K L Et Ho Hs Hh. apply evolves_named; try done.
  - intros h [x Hx]. destruct (decide (x = s)) as [->|Hne]; [congruence|]. exists x. by rewrite <-Ho.
  - intros x Hx. left. destruct (decide (x = s)) as [->|Hne]; [done|]. unfold occupied in *. by rewrite <-Ho.
Qed.

(** A step whose store differs only in what a wake-up changes and in run states. *)
Lemma wake_evolves st' cur :
  kinv st' → wake_frame st st' →
  (∀ u, u ≠ cur → t_state (tcbs st' !!! u) = t_state (tcbs st !!! u)) →
  active (t_state (tcbs st !!! cur)) → t_state (tcbs st' !!! cur) ≠ ThreadState.Inactive → evolves st st'.
Proof using I.
  intros K W Hs Ha Hc. pose proof (shape_le_wake _ _ W) as L. split; [done| | | |].
  - split; [apply L| |apply L|apply L]. intros ch r i k _. by rewrite (wf_chans _ _ W).
  - intros h. apply cap_held_shrinks. intros x _. exists x. by rewrite (wf_slots _ _ W).
  - intros t. pose proof (wf_tcb _ _ W t) as Ef. unfold tcb_fixed in Ef. injection Ef as E1 E2 E3 E4 E5 E6.
    split; [congruence|congruence| | |apply L].
    + destruct (decide (t = cur)) as [->|]; [done|]. by rewrite Hs.
    + destruct (decide (t = cur)) as [->|]; [done|]. by rewrite Hs.
  - intros ch _. by rewrite (wf_slots _ _ W), (wf_chans _ _ W).
Qed.

(** The channel operations. *)
Lemma channel_evolves ch st' (named : SlotId → Prop) :
  live st (HChan ch) → kinv st' → same_layout st st' → ring_ok (slots st') (chans st' !!! ch) →
  (∀ x, occupied st' x → ∃ y, cap (slots st' !!! x) = cap (slots st !!! y)) →
  (∀ u, thread_le (pinned st !!! u) (tcbs st !!! u) (tcbs st' !!! u)) →
  (∀ u, tcb_fixed (tcbs st' !!! u) = tcb_fixed (tcbs st !!! u)) →
  (∀ ch', ch' ≠ ch → chans st' !!! ch' = chans st !!! ch') →
  (∀ x, ¬ is_ring_slot (chans st !!! ch) x → ¬ named x → cap (slots st' !!! x) = cap (slots st !!! x)) →
  (∀ x, named x → nameable st x) → evolves st st'.
Proof using I.
  intros Hl K Ly Rg Hc Ht Hf Hch Hfr Hn. split; [done|done| | |].
  - intros h. by apply cap_held_shrinks.
  - intros t. apply thread_le_moves; [done|]. specialize (Hf t). unfold tcb_fixed in Hf. unfold tcb_ok. intros [H1 H2].
    injection Hf as _ _ _ _ -> ->. done.
  - intros ch' Hl' R. destruct (decide (ch' = ch)) as [->|Hne]; [done|]. rewrite (Hch ch' Hne).
    assert (live st (HChan ch')) as Hl2 by (destruct Hl' as [Hl'|[]]; left; by eapply cap_held_shrinks).
    eapply ring_ok_frame; [exact R|apply R|done|]. intros s Hs He. rewrite Hfr; [done| |].
    + intros Hr. apply Hne. by eapply (ring_slot_unique ch' ch s).
    + intros Hx. eapply nameable_not_ring; [by apply Hn|exact Hl2|exact Hs].
Qed.

Lemma send_evolves ch r data caps st' :
  live st (HChan ch) → sent_ok st ch r data caps st' → (∀ k s, caps !! k = Some (Some s) → nameable st s) → evolves st st'.
Proof using I.
  intros Hl S Hn. eapply (channel_evolves ch st' (λ x, ∃ k, caps !! k = Some (Some x))); try apply S; [done| |].
  - intros x Hr Hx. apply (sk_frame _ _ _ _ _ _ S); [done|]. naive_solver.
  - naive_solver.
Qed.

Lemma recv_evolves ch r msg dests buf len mask buf' st' :
  live st (HChan ch) → recv_ok st ch r msg dests buf len mask buf' st' →
  (∀ k s, dests !! k = Some (Some s) → nameable st s) → evolves st st'.
Proof using I.
  intros Hl S Hn. eapply (channel_evolves ch st' (λ x, ∃ k, dests !! k = Some (Some x))); try apply S; [done| |].
  - intros x Hr Hx. apply (rk_frame _ _ _ _ _ _ _ _ _ _ S); [done|]. naive_solver.
  - naive_solver.
Qed.
End nameable.

(** A move made after other slots have been emptied. *)
Lemma move_after_evolves st st1 src dst m :
  sysinv st → evolves st st1 → kinv (with_slots (λ _, m) st1) → moved (slots st1) src dst m → nameable st dst →
  evolves st (with_slots (λ _, m) st1).
Proof.
  intros I E K M Hn. assert (∀ h, cap_held (with_slots (λ _, m) st1) h → cap_held st1 h) as Hc.
  { intros h. apply cap_held_shrinks. unfold occupied. cbn. intros x Hx.
    destruct (moved_caps st1 m src dst x M) as (y & [Ey|Ey]); [by exists y|congruence]. }
  split; [done| | | |].
  - eapply same_layout_trans; [apply E|]. by split.
  - intros h Hh. by apply (ev_caps _ _ E), Hc.
  - intros t. eapply thread_moves_trans; [apply E|by apply thread_moves_refl].
  - intros ch Hl R. assert (live st1 (HChan ch)) as Hl1 by (destruct Hl as [Hl|[]]; left; by apply Hc).
    pose proof (ev_ring _ _ E ch Hl1 R) as R1. eapply ring_ok_frame; [exact R1|apply R1|done|].
    cbn. intros s Hs He. destruct (decide (s = dst)) as [->|Hd].
    + exfalso. apply (is_ring_slot_layout st st1 ch dst (ev_layout _ _ E)) in Hs.
      eapply (nameable_not_ring st I dst ch); [done|by eapply live_evolves|done].
    + destruct (decide (s = src)) as [->|]; [by rewrite (mv_src _ _ _ _ M)|]. by rewrite (mv_cap _ _ _ _ M).
Qed.

Lemma thread_bind_evolves st t which src bits s :
  sysinv st → tcb_ok st t → (which < 2)%nat → cap_held st (HTcb t) →
  t_bind_slots (tcbs st !!! t) !! which = Some s → src ≠ Some s →
  wp (thread_bind delete t which src bits) (λ _ st', evolves st st' ∧ pinned st' = pinned st ∧
    ∀ u, thread_le (pinned st !!! u) (tcbs st !!! u) (tcbs st' !!! u)) st.
Proof.
  intros I Hok Hw Hh Hs Hne. pose proof (sy_kinv _ I) as K.
  eapply wp_mono; [apply (thread_bind_kinv (full_slots st) delete st t which src bits s); done|].
  cbv beta. intros _ st' (K' & _ & st1 & K1 & S1 & _ & H). pose proof (evolves_shrinks _ _ K1 S1) as E1.
  pose proof (sl_pinned _ _ (sh_shape _ _ S1)). pose proof (sh_thread _ _ S1).
  destruct src as [x|]; [|by subst]. destruct H as (m & -> & M). split; [|done]. eapply move_after_evolves; try done.
  exists (InBind t which). split; [|done]. split; [by left|done].
Qed.

(** ** Starting a thread *)

(** A thread takes references to its CSpace and address space. *)
Lemma kinv_equip st t g rm :
  kinv st → (∀ o, sched_part (g o) = sched_part o ∧ t_bind_slots (g o) = t_bind_slots o ∧ t_bind_bits (g o) = t_bind_bits o) →
  (∀ cs, t_cspace (g (tcbs st !!! t)) = Some cs → cspace_ok st cs) →
  (∀ a, t_aspace (g (tcbs st !!! t)) = Some a → aspace_wf (aspaces st !!! a)) →
  (∀ o, rm !!! o = refs st !!! o + tcb_refs o (g (tcbs st !!! t)) - tcb_refs o (tcbs st !!! t)) →
  kinv (with_tcbs (λ m, <[t := g (m !!! t)]> m) (with_refs (λ _, rm) st)).
Proof.
  intros [C R Ee (rq & wq & S) [tl T] Iq Sh] Hg Hcs Has Hrm. set (st' := with_tcbs _ _).
  assert (∀ u, sched_part (tcbs st' !!! u) = sched_part (tcbs st !!! u) ∧ t_bind_slots (tcbs st' !!! u) = t_bind_slots (tcbs st !!! u) ∧
    t_bind_bits (tcbs st' !!! u) = t_bind_bits (tcbs st !!! u)) as Hu.
  { intros u. cbn. destruct (decide (u = t)) as [->|]; lk; [apply Hg|done]. }
  split; [done| |done| | |done|].
  - intros o. unfold st'. rewrite census_upd_tcb, census_with_refs. cbn. rewrite Hrm, (R o). unfold no_refs. lia.
  - exists rq, wq. apply (sched_inv_same st); [done..| |done]. intros u. apply Hu.
  - exists tl. by apply (timer_repr_ext st).
  - destruct Sh as [S1 S2 S3]. assert (shape_le st st') as L.
    { split; try done; [|intros u; apply Hu]. intros u. unfold tcb_ok. by destruct (Hu u) as (_ & -> & ->). }
    split.
    + intros s. eapply cap_ok_le; [exact L|apply S1].
    + intros u cs. cbn. destruct (decide (u = t)) as [->|]; lk; [apply Hcs|apply S2].
    + intros u a. cbn. destruct (decide (u = t)) as [->|]; lk; [apply Has|apply S3].
Qed.

(** What the start of thread [t] leaves. *)
Record started (st : Store) (t cs : ObjId) (oa : option ObjId) (st' : Store) : Prop := {
  sd_kinv : kinv st';
  sd_slots : slots st' = slots st;
  sd_chans : chans st' = chans st;
  sd_cspaces : cspaces st' = cspaces st;
  sd_pinned : pinned st' = pinned st;
  sd_tcb : let o := tcbs st !!! t in let o' := tcbs st' !!! t in
    t_cspace o' = Some cs ∧ t_aspace o' = oa ∧ t_state o' = ThreadState.Runnable ∧
    t_bind_slots o' = t_bind_slots o ∧ t_bind_bits o' = t_bind_bits o;
  sd_other u : u ≠ t → tcb_fixed (tcbs st' !!! u) = tcb_fixed (tcbs st !!! u) ∧ t_state (tcbs st' !!! u) = t_state (tcbs st !!! u);
}.

Lemma started_sysinv st t cs oa st' :
  sysinv st → tcb_ok st t → cap_held st (HCspace cs) → started st t cs oa st' → sysinv st'.
Proof.
  intros [K A R T] Ht Hcs S. pose proof (sd_tcb _ _ _ _ _ S) as (Ec & Ea & Es & Eb & Ebb).
  assert (∀ u, t_bind_slots (tcbs st' !!! u) = t_bind_slots (tcbs st !!! u) ∧ t_bind_bits (tcbs st' !!! u) = t_bind_bits (tcbs st !!! u)) as Hb.
  { intros u. destruct (decide (u = t)) as [->|Hu]; [done|]. destruct (sd_other _ _ _ _ _ S u Hu) as [Ef _]. by injection Ef as _ _ _ _ -> ->. }
  assert (same_layout st st') as Ly.
  { split; [apply S| | |intros u; apply Hb]; intros; by rewrite (sd_chans _ _ _ _ _ S). }
  assert (∀ h, live st' h → live st h) as Hl.
  { unfold live, cap_held. intros h. rewrite (sd_slots _ _ _ _ _ S). intros [Hh|Hh]; [by left|]. destruct h as [c| |]; [|done..].
    destruct Hh as [u Hu]. destruct (decide (u = t)) as [->|Hne]; [rewrite Ec in Hu; injection Hu as <-; by left|].
    right. exists u. destruct (sd_other _ _ _ _ _ S u Hne) as [Ef _]. injection Ef as E1 _ _ _ _ _. congruence. }
  split.
  - apply S.
  - intros p q s [H1 H2] [H3 H4]. rewrite (slot_in_layout _ _ p Ly) in H2. rewrite (slot_in_layout _ _ q Ly) in H4. apply (A p q s); split; auto.
  - intros ch Hc. rewrite (sd_slots _ _ _ _ _ S), (sd_chans _ _ _ _ _ S). auto.
  - intros u. unfold thread_fields, tcb_ok. destruct (Hb u) as [-> ->]. destruct (decide (u = t)) as [->|Hne].
    + rewrite Es. split; [done|]. intros _. apply Ht.
    + destruct (sd_other _ _ _ _ _ S u Hne) as [Ef ->]. injection Ef as -> -> _ _ _ _. apply T.
Qed.

(** ** Creating an object *)

(** Nothing that is still designated has a slot in the region. *)
Record fresh_region (st : Store) (c : Carve) : Prop := {
  fg_fresh : fresh st c;
  fg_places p s : at_place st p s → ¬ in_region c s;
}.

Lemma vacant_not_live st o h :
  vacant st o → live st h → match h with HCspace x | HChan x | HTcb x => x ≠ o end.
Proof.
  intros V Hl. pose proof (va_census _ _ V) as Hz. assert (∀ s, cap_obj (cap (slots st !!! s)) ≠ Some o) as Hs.
  { intros s E. pose proof (slot_refs_le st s o) as H. unfold slot_refs, cap_refs in H. rewrite (ind_true (cap_obj _ = _)) in H by done.
    pose proof (ind_nonneg (cap_frame_aspace (cap (slots st !!! s)) = Some o)). lia. }
  destruct Hl as [[s E]|E].
  - specialize (Hs s). unfold cap_obj in Hs. destruct (kind (cap (slots st !!! s))); cbn in E; simplify_eq; congruence.
  - destruct h as [cs| |]; [|done..]. destruct E as [t E]. intros ->. pose proof (tcb_refs_le st t o) as H. unfold tcb_refs in H.
    rewrite (ind_true (t_cspace _ = _)) in H by done. pose proof (ind_nonneg (t_aspace (tcbs st !!! t) = Some o)).
    pose proof (ind_nonneg (t_wait_notif (tcbs st !!! t) = Some o)). lia.
Qed.

Lemma scaled_inj M A B x y : 0 ≤ x < M → 0 ≤ y < M → A * M + x = B * M + y → A = B ∧ x = y.
Proof. intros Hx Hy E. assert (A = B) by nia. subst. lia. Qed.

Section creation.
Context (L : Layout) (HL : layout_ok L).

Lemma chan_slot_at_inj p d r i k r' i' k' :
  Z.of_nat i < d → Z.of_nat i' < d → (k < MSG_CAPS)%nat → (k' < MSG_CAPS)%nat →
  chan_slot_at L p d r i k = chan_slot_at L p d r' i' k' → r = r' ∧ i = i' ∧ k = k'.
Proof using HL.
  intros Hi Hi' Hk Hk'. unfold chan_slot_at, chan_msg_at, MSG_CAPS in *. intros [= E].
  pose proof (lo_caps _ HL). pose proof (lo_slot _ HL).
  destruct (scaled_inj (size_MsgSlot L) (Z.of_nat r * d + Z.of_nat i) (Z.of_nat r' * d + Z.of_nat i')
    (Z.of_nat k * size_CapSlot L) (Z.of_nat k' * size_CapSlot L)) as [E1 E2]; [nia|nia|lia|].
  destruct (scaled_inj d (Z.of_nat r) (Z.of_nat r') (Z.of_nat i) (Z.of_nat i')) as [E3 E4]; [lia|lia|lia|].
  split_and!; [lia|lia|nia].
Qed.

(** The slots of the new object lie in its region, each at one place. *)
Lemma built_slots st ty param c st1 st' cp p s :
  placed L ty param c → built L st ty param c st1 → shape_le st1 st' →
  holder_of (new_kind cp ty param c) = Some (holder_at p) → slot_in st' p = Some s →
  in_region c s ∧ ∀ q, holder_at q = holder_at p → slot_in st' q = Some s → q = p.
Proof using HL.
  intros P B S Hh Hs. destruct ty; cbn in Hh; try done; destruct p as [cs i|ch r i k|t w]; try done; injection Hh as <-; cbn in Hs.
  - rewrite (sl_cspaces _ _ S), (bd_cspaces _ _ _ _ _ _ B) in Hs. revert Hs. lk. cbn. intros Hs. split.
    { apply (cspace_slots_in L HL param); [done|]. by eapply list_elem_of_lookup_2. }
    intros q Hq. destruct q as [cs' i'| |]; [|done..]. cbn in Hq. injection Hq as ->. cbn.
    rewrite (sl_cspaces _ _ S), (bd_cspaces _ _ _ _ _ _ B). lk. cbn. intros Hs'. f_equal. unfold cspace_slots_at in *.
    rewrite list_lookup_fmap_Some in Hs, Hs'. destruct Hs as (x & Hx & E1), Hs' as (y & Hy & E2).
    apply lookup_seq in E1 as [-> _], E2 as [-> _]. rewrite Hx in Hy. unfold cspace_slot_at in Hy. injection Hy as Hy.
    pose proof (lo_slot _ HL). nia.
  - rewrite (sl_bind _ _ S), (bd_tcbs _ _ _ _ _ _ B) in Hs. revert Hs. lk. cbn. intros Hs.
    assert ((w < 2)%nat ∧ s = bind_slot_at L (c_start c) w) as [Hw ->] by (destruct w as [|[|]]; naive_solver lia).
    split; [by apply (bind_slots_in L HL param)|].
    intros q Hq. destruct q as [| |t' w']; [done..|]. cbn in Hq. injection Hq as ->. cbn.
    rewrite (sl_bind _ _ S), (bd_tcbs _ _ _ _ _ _ B). lk. cbn. intros Hs'. f_equal.
    assert (bind_slot_at L (c_start c) w = bind_slot_at L (c_start c) w') as E by (destruct w' as [|[|w']]; cbn in Hs'; [congruence|congruence|done]).
    unfold bind_slot_at in E. injection E as E. pose proof (lo_slot _ HL). nia.
  - destruct (bd_chans _ _ _ _ _ _ B) as (fill & Hf & Ec). pose proof (pl_param _ _ _ _ P) as Hp.
    assert (∀ r i k, ring_cap (chans st' !!! MkObjId (c_start c)) r i k =
      ring_cap (channel_init (Z.to_nat param) (chan_slot_at L (c_start c) param) fill) r i k) as Er.
    { intros r0 i0 k0. unfold ring_cap, get_msg. destruct (sl_msgs _ _ S (MkObjId (c_start c))) as [-> _]. rewrite Ec. by lk. }
    case_decide as Hi; [|done]. rewrite Er in Hs. apply channel_init_cap in Hs as (Hr & Hi2 & Hk & ->). split.
    { apply (chan_slots_in L HL param); [done|]. unfold chan_slots_at. apply list_elem_of_bind. exists r. split; [|apply elem_of_seq; lia].
      apply list_elem_of_bind. exists (Z.to_nat i). split; [|apply elem_of_seq; lia]. apply list_elem_of_fmap. exists k. split; [done|apply elem_of_seq; lia]. }
    intros q Hq. destruct q as [|ch' r' i' k'|]; [done| |done]. cbn in Hq. injection Hq as ->. cbn.
    case_decide as Hi'; [|done]. rewrite Er. intros (Hr' & Hi2' & Hk' & E)%channel_init_cap.
    apply chan_slot_at_inj in E as (-> & E & ->); [|lia..]. f_equal. lia.
Qed.

(** Objects that were there before are where they were. *)
Lemma built_other st ty param c st1 st' p :
  vacant st (MkObjId (c_start c)) → live st (holder_at p) → built L st ty param c st1 → shape_le st1 st' → slot_in st' p = slot_in st p.
Proof.
  intros V Hl B S. apply (vacant_not_live _ _ _ V) in Hl. destruct p as [cs i|ch r i k|t w]; cbn in Hl |- *.
  - rewrite (sl_cspaces _ _ S), (bd_cspaces _ _ _ _ _ _ B). by destruct ty; lk.
  - unfold ring_cap, get_msg. destruct (sl_msgs _ _ S ch) as [-> _].
    assert (chans st1 !!! ch = chans st !!! ch) as ->; [|done]. pose proof (bd_chans _ _ _ _ _ _ B) as E.
    destruct ty; try by rewrite E. destruct E as (fill & _ & ->). by lk.
  - rewrite (sl_bind _ _ S), (bd_tcbs _ _ _ _ _ _ B). by destruct ty; lk.
Qed.

Section retyped_inv.
Context (st st' : Store) (cp : Z) (ut dst : SlotId) (dst2 : option SlotId) (ty : ObjType.obj_type) (param : Z) (c : Carve).
Hypothesis I : sysinv st.
Hypothesis F : fresh_region st c.
Hypothesis R : retyped L st cp ut dst dst2 ty param c st'.
Hypothesis D : dests_free st ty dst dst2.
Hypothesis Hdst : nameable st dst.
Hypothesis Hdst2 : match dst2 with Some d2 => ty = ObjType.Channel ∧ nameable st d2 | None => True end.

Lemma retyped_live h : live st' h → live st h ∨ holder_of (new_kind cp ty param c) = Some h.
Proof using R D Hdst2.
  intros Hl. destruct (rt_built _ _ _ _ _ _ _ _ _ _ R) as (st1 & B & S & Et). destruct Hl as [[x Hx]|Hl].
  - destruct (decide (x = ut)) as [->|Hu].
    { destruct (rt_ut _ _ _ _ _ _ _ _ _ _ R) as (base & size & w & _ & _ & E). by rewrite E in Hx. }
    destruct (decide (x = dst)) as [->|Hd]; [right; by rewrite (rt_dst _ _ _ _ _ _ _ _ _ _ R) in Hx|].
    destruct (decide (dst2 = Some x)) as [E2|Hd2].
    { rewrite E2 in Hdst2. destruct Hdst2 as [Ety _]. right.
      destruct (rt_dst2 _ _ _ _ _ _ _ _ _ _ R x Ety E2) as [E _]. rewrite E in Hx. by rewrite Ety. }
    left. left. destruct (decide (c_start c ≤ slot_addr x < c_end c)) as [Hin|Hin].
    { destruct (rt_region _ _ _ _ _ _ _ _ _ _ R x Hin Hd Hd2). unfold occupied, cap_is_empty. by destruct (kind (cap (slots st' !!! x))). }
    exists x. by rewrite <-(rt_other _ _ _ _ _ _ _ _ _ _ R).
  - left. right. destruct h as [cs| |]; [|done..]. destruct Hl as [t Ht]. exists t. revert Ht.
    rewrite Et, (bd_tcbs _ _ _ _ _ _ B). destruct ty; try done. destruct (decide (t = MkObjId (c_start c))) as [->|]; by lk.
Qed.

Lemma retyped_slot x : nameable st x ∨ (∃ ch, live st (HChan ch) ∧ is_ring_slot (chans st !!! ch) x) → ¬ in_region c x.
Proof using F.
  intros [(p & Hp & _)|(ch & Hl & r & i & k & Hi & Hs)]; [by apply (fg_places _ _ F p)|].
  apply (fg_places _ _ F (InRing ch r i k)). split; [done|]. cbn. by rewrite decide_True.
Qed.

Lemma retyped_ring ch : live st' (HChan ch) → ring_ok (slots st') (chans st' !!! ch).
Proof using All.
  intros Hl'. destruct (rt_built _ _ _ _ _ _ _ _ _ _ R) as (st1 & B & S & _). destruct (retyped_live _ Hl') as [Hl|Hn].
  - pose proof (vacant_not_live _ _ _ (fr_vacant _ _ (fg_fresh _ _ F)) Hl) as Hne. cbn in Hne.
    assert (chans st1 !!! ch = chans st !!! ch) as E1.
    { pose proof (bd_chans _ _ _ _ _ _ B) as E. destruct ty; try by rewrite E. destruct E as (fill & _ & ->). by lk. }
    pose proof (sy_ring _ I ch Hl) as R0. eapply ring_ok_frame; [exact R0| | |].
    + apply (sl_chan _ _ S). unfold chan_ok. rewrite E1. apply R0.
    + rewrite <-E1. apply S.
    + intros s Hs He. rewrite (rt_other _ _ _ _ _ _ _ _ _ _ R); [done|..].
      * intros ->. destruct (rt_ut _ _ _ _ _ _ _ _ _ _ R) as (base & size & w & E & _). unfold cap_is_empty in He. by rewrite E in He.
      * intros ->. by eapply (nameable_not_ring st I dst ch).
      * intros E2. rewrite E2 in Hdst2. destruct Hdst2 as [_ Hn2]. by eapply (nameable_not_ring st I s ch).
      * apply retyped_slot. right. by exists ch.
  - assert (ty = ObjType.Channel ∧ ch = MkObjId (c_start c)) as [Ety ->] by (destruct ty; cbn in Hn; by simplify_eq).
    pose proof (rt_placed _ _ _ _ _ _ _ _ _ _ R) as P. pose proof (pl_param _ _ _ _ P) as Hp. pose proof (pl_bytes _ _ _ _ P) as Hb.
    pose proof (bd_chans _ _ _ _ _ _ B) as Ec. rewrite Ety in Ec, Hb. destruct Ec as (fill & Hf & Ec). cbn in Hb.
    destruct (Z.eqb_spec param 0); [done|]. destruct (Z.ltb_spec 256 param); [done|]. cbn in Hb. clear Hb.
    destruct (channel_init_ok (slots st') (Z.to_nat param) (chan_slot_at L (c_start c) param) fill) as [R0 _]; [lia|unfold U32_MAX; lia|done| | |].
    + intros r i k r' i' k' H1 H2 H3 H4. apply chan_slot_at_inj; lia.
    + intros r i k H1 H2 H3. set (s := chan_slot_at L (c_start c) param r i k).
      assert (in_region c s) as Hin.
      { apply (chan_slots_in L HL param); [by rewrite <-Ety|]. unfold chan_slots_at. apply list_elem_of_bind. exists r. split; [|apply elem_of_seq; lia].
        apply list_elem_of_bind. exists i. split; [|apply elem_of_seq; lia]. apply list_elem_of_fmap. exists k. split; [done|apply elem_of_seq; lia]. }
      cut (¬ occupied st' s); [unfold occupied; by destruct (cap_is_empty (cap (slots st' !!! s)))|].
      apply (rt_region _ _ _ _ _ _ _ _ _ _ R); [done| |].
      * intros E. rewrite E in Hin. by apply (retyped_slot dst (or_introl Hdst)).
      * intros E. rewrite E in Hdst2. destruct Hdst2 as [_ Hn2]. by apply (retyped_slot s (or_introl Hn2)).
    + assert (chans st1 !!! MkObjId (c_start c) = channel_init (Z.to_nat param) (chan_slot_at L (c_start c) param) fill) as E1 by (rewrite Ec; by lk).
      eapply ring_ok_frame; [exact R0| |rewrite <-E1; apply S|done]. apply (sl_chan _ _ S). unfold chan_ok. rewrite E1. apply R0.
Qed.

Lemma retyped_sysinv : sysinv st'.
Proof using All.
  destruct (rt_built _ _ _ _ _ _ _ _ _ _ R) as (st1 & B & S & Et). pose proof (rt_placed _ _ _ _ _ _ _ _ _ _ R) as P.
  pose proof (fr_vacant _ _ (fg_fresh _ _ F)) as V. split; [apply R| |apply retyped_ring|].
  - assert (∀ p s, at_place st' p s → at_place st p s ∨ (holder_of (new_kind cp ty param c) = Some (holder_at p) ∧ slot_in st' p = Some s)) as Hcase.
    { intros p s [Hl Hs]. apply retyped_live in Hl as [Hl|Hl]; [left|by right]. split; [done|].
      by rewrite <-(built_other st ty param c st1 st' p V Hl B S). }
    intros p q s [Hp|[Hp Hps]]%Hcase [Hq|[Hq Hqs]]%Hcase.
    + by eapply (sy_arena _ I).
    + exfalso. destruct (built_slots st ty param c st1 st' cp q s P B S Hq Hqs) as [Hin _]. by eapply (fg_places _ _ F).
    + exfalso. destruct (built_slots st ty param c st1 st' cp p s P B S Hp Hps) as [Hin _]. by eapply (fg_places _ _ F).
    + destruct (built_slots st ty param c st1 st' cp q s P B S Hq Hqs) as [_ Hu]. apply Hu; [congruence|done].
  - intros t. unfold thread_fields, tcb_ok. rewrite Et, (bd_tcbs _ _ _ _ _ _ B). pose proof (sy_thread _ I t) as T.
    unfold thread_fields, tcb_ok in T. destruct ty; try done.
    destruct (decide (t = MkObjId (c_start c))) as [->|]; lk; [|done]. cbn. done.
Qed.
End retyped_inv.
End creation.

(** ** Thread states *)
Lemma upd_tcb_twice t f g st :
  with_tcbs (λ m, <[t := g (m !!! t)]> m) (with_tcbs (λ m, <[t := f (m !!! t)]> m) st) =
  with_tcbs (λ m, <[t := g (f (m !!! t))]> m) st.
Proof. destruct st. unfold with_tcbs. cbn. f_equal. lk. apply insert_insert_eq. Qed.

Lemma inactive_waits_not st t : kinv st → t_state (tcbs st !!! t) = ThreadState.Inactive → t_wait_notif (tcbs st !!! t) = None.
Proof.
  intros K Hs. destruct (ki_sched _ _ _ K) as (rq & wq & I). destruct (t_wait_notif (tcbs st !!! t)) as [n|] eqn:E; [|done].
  apply (nr_complete _ _ (si_notif _ _ _ _ I)), (nr_in _ _ (si_notif _ _ _ _ I)) in E as [E _]. congruence.
Qed.

(** Changing the priority of a thread that is on no queue. *)
Lemma shrinks_priority st t prio : shrinks st (with_tcbs (λ m, <[t := tcb_set_priority prio (m !!! t)]> m) st).
Proof.
  set (st' := with_tcbs _ st). assert (∀ u, tcbs st' !!! u = tcbs st !!! u ∨ tcbs st' !!! u = tcb_set_priority prio (tcbs st !!! u)) as Hu.
  { intros u. cbn. destruct (decide (u = t)) as [->|]; lk; auto. }
  apply shrinks_slots; [done| |].
  - split; try done; intros u; unfold tcb_ok; by destruct (Hu u) as [-> | ->].
  - intros u. destruct (Hu u) as [-> | ->]; [apply thread_le_refl|]. split; [done|done|]. left. by left.
Qed.

(** A thread that was never started gets its spaces and joins the ready queue. *)
Lemma enqueue_started st t g rm cs oa :
  kinv st → t_state (tcbs st !!! t) = ThreadState.Inactive →
  (∀ o, sched_part (g o) = sched_part o ∧ t_bind_slots (g o) = t_bind_slots o ∧ t_bind_bits (g o) = t_bind_bits o) →
  t_cspace (tcbs st !!! t) = None → t_aspace (tcbs st !!! t) = None →
  t_cspace (g (tcbs st !!! t)) = Some cs → t_aspace (g (tcbs st !!! t)) = oa → cspace_ok st cs →
  (∀ a, oa = Some a → aspace_wf (aspaces st !!! a)) →
  (∀ o, rm !!! o = refs st !!! o + ind (Some cs = Some o) + ind (oa = Some o)) →
  wp (ready_enqueue t) (λ _ st', started st t cs oa st')
    (with_tcbs (λ m, <[t := g (m !!! t)]> m) (with_refs (λ _, rm) st)).
Proof.
  intros K Hs Hg Hc0 Ha0 Hcs Has Hck Hak Hrm. set (st2 := with_tcbs _ _).
  pose proof (inactive_waits_not st t K Hs) as Hw. destruct (Hg (tcbs st !!! t)) as (Hp & Hb & Hbb). unfold sched_part in Hp.
  injection Hp as Hp1 Hp2 Hp3 Hp4.
  assert (kinv st2) as K2.
  { apply kinv_equip; try done.
    - rewrite Hcs. by intros ? [= <-].
    - rewrite Has. done.
    - intros o. rewrite Hrm. unfold tcb_refs. rewrite Hcs, Has, Hc0, Ha0, Hp3, Hw, !(ind_false (None = Some o)) by done. lia. }
  assert (tcbs st2 !!! t = g (tcbs st !!! t)) as E2 by (cbn; by lk).
  destruct (ki_sched _ _ _ K2) as (rq & wq & I).
  assert (off_queues rq wq t) as [Hr Hq].
  { apply (stopped_off _ _ _ _ I); rewrite E2; [by rewrite Hp1, Hs|]. intros _. by rewrite Hp3. }
  eapply wp_mono; [apply (make_runnable_inv st2 rq wq ∅ t I Hr Hq)|]. cbv beta. intros _ st' (F & I' & _ & Ht & Ho).
  pose proof (wake_frame_sched _ _ F) as W.
  assert (∀ u, tcb_fixed (tcbs st' !!! u) = tcb_fixed (tcbs st2 !!! u)) as Hf by apply W.
  split; try (by rewrite ?(sf_slots _ _ F), ?(sf_chans _ _ F), ?(sf_cspaces _ _ F), ?(sf_pinned _ _ F)).
  - eapply kinv_wake_frame; [exact K2|done|]. do 2 eexists. eapply sched_inv_mono; [|exact I']. set_solver.
  - specialize (Hf t). rewrite E2 in Hf. unfold tcb_fixed in Hf. injection Hf as H1 H2 H3 H4 H5 H6. cbv zeta.
    split_and!; congruence.
  - intros u Hu. rewrite (Hf u), (Ho u Hu). cbn. by lk.
Qed.

(** The running thread stops for good. *)
Lemma stop_evolves st t s :
  sysinv st → t_state (tcbs st !!! t) = ThreadState.Running → s = ThreadState.Halted ∨ s = ThreadState.Faulted →
  evolves st (with_tcbs (λ m, <[t := tcb_set_state s (m !!! t)]> m) st).
Proof.
  intros [K _ _ _] Hr Hs. set (st' := with_tcbs _ st). destruct (ki_sched _ _ _ K) as (rq & wq & I).
  pose proof (running_off _ _ _ _ _ I Hr) as Hoff. pose proof (off_no_wait _ _ _ _ I t Hoff) as Hw.
  assert (∀ u, tcbs st' !!! u = if decide (u = t) then tcb_set_state s (tcbs st !!! t) else tcbs st !!! u) as Hu.
  { intros u. cbn. case_decide; subst; by lk. }
  assert (shape_le st st') as L by (split; try done; intros u; unfold tcb_ok; rewrite Hu; case_decide; by subst).
  split.
  - destruct K as [C R Ee _ [tl T] Iq Sh]. split; [done| |done| | |done|].
    + intros o. unfold st'. rewrite census_upd_tcb. cbn. rewrite (R o). unfold tcb_refs. cbn. lia.
    + exists rq, wq. eapply sched_inv_mono; [|apply (sched_inv_off _ _ _ _ t (tcb_set_state s) I Hoff)]; [set_solver|done|apply (si_prio _ _ _ _ I)|].
      cbn. destruct Hs; congruence.
    + exists tl. by apply (timer_repr_ext st).
    + apply (shape_ext st); [done|done| |done]. intros u. rewrite Hu. case_decide; by subst.
  - split; [done|done|done|apply L].
  - done.
  - intros u. split; try (rewrite Hu; case_decide; subst; cbn; done); [| |apply L].
    + rewrite Hu. case_decide; [subst; cbn; destruct Hs; congruence|done].
    + rewrite Hu. case_decide; [subst; cbn|done]. unfold active. destruct Hs as [-> | ->]; intros [|[|]]; done.
  - done.
Qed.
