(* ===== verification/Sched.v ===== *)
(** The kernel around the store ([kernel/src/thread.rs], [kernel/src/exceptions.rs]):
    which thread runs, the trap frame its registers are in while the kernel works,
    physical memory by byte address, the translation base register, the
    address-space identifier counter, and the bytes sent to the UART (newest first). The scheduling decision at exception exit is
    here; the exceptions themselves are in [Syscall]. *)

From S2P Require Import Prelude KStore Ready Census Notif Timer Irq Cdt Aspace Kinv Refs Channel Thread Events.

(** ** State *)
Record KState : Type := MkK {
  k_store : Store;
  k_current : option ObjId;
  k_frame : TrapFrame;
  k_mem : Z → Z;
  k_asid : Z;
  k_ttbr : Z;
  k_uart : list Z;
}.

Abbreviation KM := (comp KState).

Definition with_store f ks := MkK (f (k_store ks)) (k_current ks) (k_frame ks) (k_mem ks) (k_asid ks) (k_ttbr ks) (k_uart ks).
Definition with_current c ks := MkK (k_store ks) c (k_frame ks) (k_mem ks) (k_asid ks) (k_ttbr ks) (k_uart ks).
Definition with_frame f ks := MkK (k_store ks) (k_current ks) (f (k_frame ks)) (k_mem ks) (k_asid ks) (k_ttbr ks) (k_uart ks).
Definition with_mem f ks := MkK (k_store ks) (k_current ks) (k_frame ks) (f (k_mem ks)) (k_asid ks) (k_ttbr ks) (k_uart ks).
Definition with_asid a ks := MkK (k_store ks) (k_current ks) (k_frame ks) (k_mem ks) a (k_ttbr ks) (k_uart ks).
Definition with_uart f ks := MkK (k_store ks) (k_current ks) (k_frame ks) (k_mem ks) (k_asid ks) (k_ttbr ks) (f (k_uart ks)).
Definition with_ttbr v ks := MkK (k_store ks) (k_current ks) (k_frame ks) (k_mem ks) (k_asid ks) v (k_uart ks).

(** An operation of the store run inside the kernel. *)
Definition lift {A : Type} (m : K A) : KM A := λ ks,
  match m (k_store ks) with
  | Ret (a, st) => Ret (a, with_store (λ _, st) ks)
  | Panic => Panic
  | NoFuel => NoFuel
  end.

Definition current : KM (option ObjId) := gets k_current.
(** [*thread::current()]: dereferencing no thread is a fault. *)
Definition the_current : KM ObjId := c ← current; unwrap c.

(** ** Scheduling *)

(** [aspace::ttbr0]: the L1 table is the page behind the object's header page. *)
Definition ttbr0 (a : ObjId) (o : AspaceObj) : Z := Z.lor (obj_addr a + PAGE) (Z.shiftl (as_asid o) 48).

Section switch.
(** [mmu::kernel_ttbr0()] *)
Context (kernel_ttbr0 : Z).

Definition activate_aspace (t : ObjId) : KM unit :=
  a ← lift (tcb_aspace t);
  v ← (match a with
       | None => mret kernel_ttbr0
       | Some a => gets (λ ks, ttbr0 a (aspaces (k_store ks) !!! a))
       end);
  modify (with_ttbr v).

Definition save_frame (t : ObjId) : KM unit :=
  f ← gets k_frame;
  lift (upd_tcb t (tcb_set_frame f)).

Definition switch_to (top : nat) : KM unit :=
  next ← lift (ready_dequeue top);
  next ← unwrap next;
  lift (set_tcb_state next ThreadState.Running);;
  modify (with_current (Some next));;
  f ← gets (λ ks, t_frame (tcbs (k_store ks) !!! next));
  modify (with_frame (λ _, f));;
  activate_aspace next.

Definition cur_running (cur : option ObjId) : KM bool :=
  match cur with
  | None => mret false
  | Some t => s ← lift (tcb_state t); mret (bool_decide (s = ThreadState.Running))
  end.

(** [debug_assert!] is an assertion here. *)
Definition maybe_switch (preempt_equal : bool) : KM unit :=
  cur ← current;
  running ← cur_running cur;
  top ← lift top_ready;
  match top with
  | None => if (running : bool) then mret tt else panic
  | Some top =>
      match cur with
      | Some t =>
          if (running : bool) then
            cp ← lift (tcb_priority t);
            if (Z.of_nat top <? cp) || ((Z.of_nat top =? cp) && negb preempt_equal) then mret tt
            else save_frame t;; lift (ready_enqueue t);; switch_to top
          else save_frame t;; switch_to top
      | None => switch_to top
      end
  end.
End switch.

(** ** Lemmas *)

Lemma wp_lift {A : Type} (m : K A) Q ks :
  wp m (λ a st, Q a (with_store (λ _, st) ks)) (k_store ks) → wp (lift m) Q ks.
Proof. unfold wp, lift. by destruct (m (k_store ks)) as [[a st]| |]. Qed.

(** While the kernel works, at most the current thread is marked running. *)
Definition one_running (ks : KState) : Prop :=
  ∀ t, t_state (tcbs (k_store ks) !!! t) = ThreadState.Running → k_current ks = Some t.

(** ... and the current thread is on no ready queue. *)
Definition cur_not_ready (ks : KState) : Prop :=
  ∀ t, k_current ks = Some t → t_state (tcbs (k_store ks) !!! t) ≠ ThreadState.Runnable.

(** Somebody can run: the current thread still does, or one is ready. *)
Definition can_run (ks : KState) : Prop :=
  (∃ t, k_current ks = Some t ∧ t_state (tcbs (k_store ks) !!! t) = ThreadState.Running) ∨
  ∃ t, t_state (tcbs (k_store ks) !!! t) = ThreadState.Runnable.

(** What holds when a thread goes back to user code: it is the only one running, no
    ready thread has a higher priority, and the trap frame and translation base are
    its own. *)
Record running (ks : KState) (t : ObjId) : Prop := {
  rn_cur : k_current ks = Some t;
  rn_state : t_state (tcbs (k_store ks) !!! t) = ThreadState.Running;
  rn_only u : t_state (tcbs (k_store ks) !!! u) = ThreadState.Running → u = t;
  rn_top u : t_state (tcbs (k_store ks) !!! u) = ThreadState.Runnable →
    t_priority (tcbs (k_store ks) !!! u) ≤ t_priority (tcbs (k_store ks) !!! t);
}.

Section switch_spec.
Context (kernel_ttbr0 : Z).

(** Handing the processor to the head of the highest level. *)
Lemma switch_to_spec ks rq wq top t l :
  sched_inv (k_store ks) rq wq ∅ → rq top = t :: l → (∀ k, (top < k)%nat → rq k = []) →
  (∀ u, t_state (tcbs (k_store ks) !!! u) ≠ ThreadState.Running) →
  wp (switch_to kernel_ttbr0 top) (λ _ ks', wake_frame (k_store ks) (k_store ks') ∧
    sched_inv (k_store ks') (<[top := l]> rq) wq ∅ ∧ running ks' t ∧
    k_frame ks' = t_frame (tcbs (k_store ks) !!! t) ∧ k_mem ks' = k_mem ks ∧ k_asid ks' = k_asid ks ∧
    k_ttbr ks' = (match t_aspace (tcbs (k_store ks) !!! t) with
      | None => kernel_ttbr0 | Some a => ttbr0 a (aspaces (k_store ks) !!! a) end) ∧
    (∀ u, t_frame (tcbs (k_store ks') !!! u) = t_frame (tcbs (k_store ks) !!! u)) ∧
    t_state (tcbs (k_store ks) !!! t) = ThreadState.Runnable ∧
    (∀ u, u ≠ t → t_state (tcbs (k_store ks') !!! u) = t_state (tcbs (k_store ks) !!! u))) ks.
Proof.
  intros I Ht Habove Hnone. set (st := k_store ks) in *. pose proof (si_ready _ _ _ _ I) as R.
  assert (t ∈ rq top) as Hin by (rewrite Ht; set_solver). destruct (rr_in _ _ R top t Hin) as [Hst Hpr].
  assert (top < NUM_PRIOS)%nat as Htop.
  { destruct (decide (top < NUM_PRIOS)%nat); [done|]. rewrite (rr_out _ _ R top) in Hin by lia. by apply elem_of_nil in Hin. }
  unfold switch_to. rewrite wp_bind. apply wp_lift. eapply wp_mono; [by apply (ready_dequeue_spec st rq R)|].
  cbv beta. intros r st1 (F & -> & R1 & Hs1 & Hu1). rewrite Ht in R1 |- *. cbn [head tail list.tail] in R1 |- *. rewrite wp_bind. eapply wp_unwrap; [done|].
  destruct (unqueued_inv st rq wq ∅ I st1 t top [] l eq_refl Ht (conj F (conj R1 (conj Hs1 Hu1)))) as [I1 Hoff]. cbn [app] in I1, Hoff.
  rewrite wp_bind. apply wp_lift. unfold set_tcb_state, upd_tcb. wp_step. cbn [k_store with_store].
  set (st2 := with_tcbs _ st1).
  assert (∀ u, tcb_core (tcbs st1 !!! u) = tcb_core (tcbs st !!! u)) as Hcore by apply F.
  assert (sched_inv st2 (<[top := l]> rq) wq ∅) as I2.
  { eapply sched_inv_mono; [|apply (sched_inv_off st1 _ wq {[t]} t (tcb_set_state ThreadState.Running) I1 Hoff)]; [set_solver| | |done].
    - apply (off_no_wait st1 _ wq _ I1 t Hoff).
    - apply (si_prio _ _ _ _ I1). }
  assert (wake_frame st st2) as W.
  { eapply wake_frame_trans; [by apply wake_frame_sched|]. by apply wake_frame_tcb. }
  assert (∀ u, u ≠ t → t_state (tcbs st2 !!! u) = t_state (tcbs st !!! u)) as Hst2 by (intros u Hu; cbn; lk; apply Hs1).
  assert (t_state (tcbs st2 !!! t) = ThreadState.Running) as Hrun by (cbn; by lk).
  assert (∀ u, t_frame (tcbs st2 !!! u) = t_frame (tcbs st !!! u)) as Hfr.
  { intros u. pose proof (f_equal t_frame (Hcore u)) as Ef. cbn in Ef. rewrite <-Ef. cbn. destruct (decide (u = t)) as [->|]; by lk. }
  assert (∀ u, t_priority (tcbs st2 !!! u) = t_priority (tcbs st !!! u)) as Hpr2.
  { intros u. pose proof (wf_tcb _ _ W u) as Ef. unfold tcb_fixed in Ef. congruence. }
  assert (t_aspace (tcbs st2 !!! t) = t_aspace (tcbs st !!! t)) as Has.
  { pose proof (wf_tcb _ _ W t) as Ef. unfold tcb_fixed in Ef. congruence. }
  unfold activate_aspace, tcb_aspace. wp_step. apply wp_lift. wp_step. cbn [k_store with_store with_current with_frame].
  assert (∀ v, let ks' := with_ttbr v (with_frame (λ _, t_frame (tcbs st2 !!! t)) (with_current (Some t) (with_store (λ _, st2) ks))) in
    running ks' t) as Hrn.
  { intros v. split; cbn [k_current k_store with_ttbr with_frame with_current with_store]; [done|done| |].
    - intros u Hu. destruct (decide (u = t)) as [|Hne]; [done|]. rewrite Hst2 in Hu by done. by apply Hnone in Hu.
    - intros u Hu. rewrite !Hpr2. destruct (decide (u = t)) as [->|Hne]; [congruence|]. rewrite Hst2 in Hu by done.
      destruct (si_complete _ _ _ _ I u Hu) as [Hp Hinu]; [set_solver|]. rewrite Hpr.
      destruct (decide (top < Z.to_nat (t_priority (tcbs st !!! u)))%nat) as [Hlt|]; [|lia].
      rewrite (Habove _ Hlt) in Hinu. by apply elem_of_nil in Hinu. }
  rewrite Has. destruct (t_aspace (tcbs st !!! t)) as [a|]; wp_step; (split_and!; [done|done|apply Hrn|apply Hfr|done|done| |done|done|done]).
  - cbn. f_equal. by rewrite (sf_aspaces _ _ F).
  - done.
Qed.

Lemma cur_running_spec ks cur :
  wp (cur_running cur) (λ r ks', ks' = ks ∧ (r = true ↔ ∃ t, cur = Some t ∧ t_state (tcbs (k_store ks) !!! t) = ThreadState.Running)) ks.
Proof.
  unfold cur_running. destruct cur as [t|]; [|wp_step; naive_solver].
  rewrite wp_bind. apply wp_lift. unfold tcb_state. wp_step. split; [by destruct ks|]. rewrite bool_decide_eq_true. naive_solver.
Qed.

Lemma save_frame_spec ks rq wq t :
  sched_inv (k_store ks) rq wq ∅ →
  wp (save_frame t) (λ _ ks', ks' = with_store (λ st, with_tcbs (λ m, <[t := tcb_set_frame (k_frame ks) (m !!! t)]> m) st) ks ∧
    wake_frame (k_store ks) (k_store ks') ∧ sched_inv (k_store ks') rq wq ∅) ks.
Proof.
  intros I. unfold save_frame. wp_step. apply wp_lift. unfold upd_tcb. wp_step. split; [done|]. cbn [k_store with_store]. split.
  - by apply wake_frame_tcb.
  - apply (sched_inv_same (k_store ks)); [done..| |done]. intros u. cbn. destruct (decide (u = t)) as [->|]; by lk.
Qed.

(** What one scheduling decision does, from the ready queues [rq] it found. *)
Record switched (ks : KState) (rq : nat → list ObjId) (preempt_equal : bool) (ks' : KState) (t : ObjId) : Prop := {
  sw_running : running ks' t;
  sw_wake : wake_frame (k_store ks) (k_store ks');
  sw_sched : ∃ rq' wq', sched_inv (k_store ks') rq' wq' ∅;
  sw_mem : k_mem ks' = k_mem ks ∧ k_asid ks' = k_asid ks;
  sw_state u : let s := t_state (tcbs (k_store ks) !!! u) in let s' := t_state (tcbs (k_store ks') !!! u) in
    s' = s ∨ (s = ThreadState.Runnable ∧ s' = ThreadState.Running) ∨ (s = ThreadState.Running ∧ s' = ThreadState.Runnable);
  sw_choice : (ks' = ks ∧ k_current ks = Some t ∧
      ∀ lvl, rq lvl ≠ [] → Z.of_nat lvl ≤ t_priority (tcbs (k_store ks) !!! t) - (if preempt_equal then 1 else 0)) ∨
    (∃ lvl, head (rq lvl) = Some t ∧ (∀ k, (lvl < k)%nat → rq k = []) ∧
      k_frame ks' = t_frame (tcbs (k_store ks) !!! t) ∧
      k_ttbr ks' = (match t_aspace (tcbs (k_store ks) !!! t) with
        | None => kernel_ttbr0 | Some a => ttbr0 a (aspaces (k_store ks) !!! a) end) ∧
      ∀ cur, k_current ks = Some cur → t_frame (tcbs (k_store ks') !!! cur) = k_frame ks ∧
        (t_state (tcbs (k_store ks) !!! cur) = ThreadState.Running →
           t_state (tcbs (k_store ks') !!! cur) = ThreadState.Runnable));
}.

Lemma stay_spec ks rq wq preempt_equal t :
  sched_inv (k_store ks) rq wq ∅ → one_running ks → k_current ks = Some t →
  t_state (tcbs (k_store ks) !!! t) = ThreadState.Running →
  (∀ lvl, rq lvl ≠ [] → Z.of_nat lvl ≤ t_priority (tcbs (k_store ks) !!! t) - (if preempt_equal : bool then 1 else 0)) →
  switched ks rq preempt_equal ks t.
Proof.
  intros I Hone Hc Ht Hle. split; [|apply wake_frame_refl|eauto|done|by left|by left].
  split; [done|done| |].
  - intros u Hu%Hone. congruence.
  - intros u Hu. destruct (si_complete _ _ _ _ I u Hu) as [Hp Hin]; [set_solver|].
    assert (rq (Z.to_nat (t_priority (tcbs (k_store ks) !!! u))) ≠ []) as Hne by (intros E; rewrite E in Hin; by apply elem_of_nil in Hin).
    apply Hle in Hne. destruct preempt_equal; lia.
Qed.

(** A thread that still runs joins its queue; the head of level [top] stays the same. *)
Lemma requeue_spec ks rq wq top cur t l go `{!Decision go} :
  sched_inv (k_store ks) rq wq ∅ → rq top = t :: l → (∀ k, (top < k)%nat → rq k = []) →
  (go ↔ t_state (tcbs (k_store ks) !!! cur) = ThreadState.Running) →
  (∀ u, t_state (tcbs (k_store ks) !!! u) = ThreadState.Running → u = cur) →
  (go → t_priority (tcbs (k_store ks) !!! cur) ≤ Z.of_nat top) →
  wp (if decide go then lift (ready_enqueue cur) else mret tt) (λ _ ks2, ∃ rq2 l2,
    sched_inv (k_store ks2) rq2 wq ∅ ∧ wake_frame (k_store ks) (k_store ks2) ∧ rq2 top = t :: l2 ∧
    (∀ k, (top < k)%nat → rq2 k = []) ∧ (∀ u, t_state (tcbs (k_store ks2) !!! u) ≠ ThreadState.Running) ∧
    (∀ u, t_frame (tcbs (k_store ks2) !!! u) = t_frame (tcbs (k_store ks) !!! u)) ∧
    (go → t_state (tcbs (k_store ks2) !!! cur) = ThreadState.Runnable) ∧
    (∀ u, u ≠ cur ∨ ¬ go → t_state (tcbs (k_store ks2) !!! u) = t_state (tcbs (k_store ks) !!! u)) ∧
    ks2 = with_store (λ _, k_store ks2) ks) ks.
Proof.
  intros I Ht Habove Hgo Hone Hle. destruct (decide go) as [Hg|Hg].
  2:{ wp_step. exists rq, l. split_and!; try done; [|by destruct ks]. intros u Hu. apply Hg, Hgo. by rewrite <-(Hone u Hu). }
  specialize (Hle Hg). apply wp_lift. destruct (running_off _ _ _ _ cur I) as [Hr Hw]; [by apply Hgo|].
  eapply wp_mono; [by apply (make_runnable_inv _ _ _ _ cur I Hr Hw)|]. cbv beta. cbn [k_store with_store].
  intros _ st2 (F & I2 & _ & Hrun & Hs2). pose proof (si_prio _ _ _ _ I cur) as Hp. set (lvl := Z.to_nat _) in *.
  exists (<[lvl := rq lvl ++ [cur]]> rq), (if decide (lvl = top) then l ++ [cur] else l). split_and!.
  - eapply sched_inv_mono; [|exact I2]. set_solver.
  - by apply wake_frame_sched.
  - destruct (decide (lvl = top)) as [->|]; [by rewrite fn_lookup_insert, Ht|by rewrite fn_lookup_insert_ne].
  - intros k Hk. rewrite fn_lookup_insert_ne by lia. by apply Habove.
  - intros u Hu. destruct (decide (u = cur)) as [->|Hne]; [congruence|]. rewrite Hs2 in Hu by done. by apply Hne, Hone.
  - intros u. exact (f_equal t_frame (sf_core _ _ F u)).
  - done.
  - intros u [Hu|Hu]; [by apply Hs2|done].
  - by destruct ks.
Qed.

(** The current thread's frame is saved and, if it still runs, it joins its queue;
    then the head of the highest level takes over. *)
Lemma leave_spec ks rq wq top preempt_equal cur :
  sched_inv (k_store ks) rq wq ∅ → one_running ks → cur_not_ready ks → rq top ≠ [] → (∀ k, (top < k)%nat → rq k = []) →
  k_current ks = Some cur →
  let go := t_state (tcbs (k_store ks) !!! cur) = ThreadState.Running in
  (go → t_priority (tcbs (k_store ks) !!! cur) ≤ Z.of_nat top) →
  wp (save_frame cur;; (if decide go then lift (ready_enqueue cur) else mret tt);; switch_to kernel_ttbr0 top)
    (λ _ ks', ∃ t, switched ks rq preempt_equal ks' t) ks.
Proof.
  intros I Hone Hnr Hne Habove Hc go Hgo. destruct (rq top) as [|t l] eqn:Ht; [done|]. clear Hne.
  assert (t ≠ cur) as Htc.
  { intros ->. destruct (rr_in _ _ (si_ready _ _ _ _ I) top cur) as [Hs _]; [rewrite Ht; set_solver|]. by apply (Hnr cur). }
  rewrite wp_bind. eapply wp_mono; [by apply (save_frame_spec ks rq wq)|]. cbv beta. intros _ ks1 (E1 & W1 & I1).
  assert (∀ u, sched_part (tcbs (k_store ks1) !!! u) = sched_part (tcbs (k_store ks) !!! u)) as Hsp.
  { intros u. rewrite E1. cbn. destruct (decide (u = cur)) as [->|]; by lk. }
  assert (∀ u, t_state (tcbs (k_store ks1) !!! u) = t_state (tcbs (k_store ks) !!! u)) as Hst1
    by (intros u; pose proof (Hsp u) as E; unfold sched_part in E; congruence).
  assert (∀ u, u ≠ cur → tcbs (k_store ks1) !!! u = tcbs (k_store ks) !!! u) as Hu1 by (intros u Hu; rewrite E1; cbn; by lk).
  assert (t_frame (tcbs (k_store ks1) !!! cur) = k_frame ks) as Hf1 by (rewrite E1; cbn; by lk).
  rewrite wp_bind. eapply wp_mono; [apply (requeue_spec ks1 rq wq top cur t l go); try done|].
  { unfold go. by rewrite Hst1. }
  { intros u. rewrite Hst1. intros Hu%Hone. congruence. }
  { pose proof (Hsp cur) as E. unfold sched_part in E. intros Hg%Hgo. congruence. }
  cbv beta. intros _ ks2 (rq2 & l2 & I2 & W2 & Ht2 & Hab2 & Hno2 & Hf2 & Hg2 & Ho2 & Ek2).
  eapply wp_mono; [by apply (switch_to_spec ks2 rq2 wq top t l2)|]. cbv beta.
  intros _ ks3 (W3 & I3 & Hrn & Hf3 & Hm3 & Ha3 & Ht3 & Hfr3 & Hr3 & Hs3). exists t.
  assert (t_aspace (tcbs (k_store ks2) !!! t) = t_aspace (tcbs (k_store ks) !!! t)) as Has.
  { pose proof (wf_tcb _ _ (wake_frame_trans _ _ _ W1 W2) t) as E. unfold tcb_fixed in E. congruence. }
  split; [done| |eauto| | |].
  - eapply wake_frame_trans; [exact W1|]. by eapply wake_frame_trans.
  - rewrite Hm3, Ha3, Ek2, E1. done.
  - intros u. cbv zeta. destruct (decide (u = t)) as [->|Hut].
    { right; left. rewrite <-Hr3, Ho2, Hst1 by (by left). split; [done|apply Hrn]. }
    rewrite Hs3 by done. destruct (decide (u = cur)) as [->|Huc]; [|left; rewrite Ho2 by (by left); apply Hst1].
    destruct (decide go) as [Hg|Hg]; [right; right; split; [done|by apply Hg2]|left]. rewrite Ho2 by (by right). apply Hst1.
  - right. exists top. rewrite Ht. split; [done|]. split; [done|]. rewrite Hf3, Hf2, Hu1 by done. split; [done|]. split.
    + rewrite Ht3, Has, (wf_aspaces _ _ W2), (wf_aspaces _ _ W1). done.
    + intros c' Hc'. assert (c' = cur) as -> by congruence. rewrite Hfr3, Hf2. split; [done|]. intros Hg. rewrite Hs3 by done. by apply Hg2.
Qed.

Lemma maybe_switch_spec ks rq wq preempt_equal :
  sched_inv (k_store ks) rq wq ∅ → one_running ks → cur_not_ready ks → can_run ks →
  wp (maybe_switch kernel_ttbr0 preempt_equal) (λ _ ks', ∃ t, switched ks rq preempt_equal ks' t) ks.
Proof.
  intros I Hone Hnr Hcan. pose proof (si_ready _ _ _ _ I) as R.
  unfold maybe_switch, current. wp_step. eapply wp_mono; [apply (cur_running_spec ks (k_current ks))|].
  cbv beta. intros run ks0 [-> Hrun]. rewrite wp_bind. apply wp_lift. eapply wp_mono; [by apply (top_ready_spec (k_store ks) rq)|].
  cbv beta. intros top st0 [-> Htop]. assert (with_store (λ _, k_store ks) ks = ks) as -> by (by destruct ks).
  destruct top as [top|].
  - destruct Htop as [Hne Habove]. destruct (k_current ks) as [cur|] eqn:Hc.
    + destruct run.
      * destruct (proj1 Hrun eq_refl) as (c & [= <-] & Hs). unfold tcb_priority. rewrite wp_bind. apply wp_lift. wp_step.
        assert (with_store (λ _, k_store ks) ks = ks) as -> by (by destruct ks).
        destruct ((Z.of_nat top <? t_priority (tcbs (k_store ks) !!! cur)) || ((Z.of_nat top =? t_priority (tcbs (k_store ks) !!! cur)) && negb preempt_equal)) eqn:Eb.
        -- wp_step. exists cur. apply (stay_spec ks rq wq); try done. intros lvl Hl.
           assert (lvl ≤ top)%nat by (destruct (decide (top < lvl)%nat) as [Hlt|]; [by destruct (Hl (Habove lvl Hlt))|lia]).
           apply orb_prop in Eb as [Eb|[Eb1 Eb2]%andb_prop]; [apply Z.ltb_lt in Eb; destruct preempt_equal; lia|].
           apply Z.eqb_eq in Eb1. destruct preempt_equal; [done|lia].
        -- apply orb_false_elim in Eb as [Eb1 _]. apply Z.ltb_ge in Eb1.
           pose proof (leave_spec ks rq wq top preempt_equal cur I Hone Hnr Hne Habove Hc (λ _, Eb1)) as H.
           cbv zeta in H. rewrite decide_True in H by done. exact H.
      * assert (t_state (tcbs (k_store ks) !!! cur) ≠ ThreadState.Running) as Hs by (intros Hs; cut (false = true); [done|]; apply Hrun; eauto).
        pose proof (leave_spec ks rq wq top preempt_equal cur I Hone Hnr Hne Habove Hc (λ H, False_ind _ (Hs H))) as H.
        cbv zeta in H. rewrite decide_False in H by done. exact H.
    + destruct (rq top) as [|t l] eqn:Ht; [done|]. eapply wp_mono; [apply (switch_to_spec ks rq wq top t l I Ht Habove)|].
      { intros u Hu%Hone. congruence. }
      cbv beta. intros _ ks' (W & I' & Hrn & Hf & Hm & Ha & Htt & _ & Hr & Hs). exists t. split; [done|done|eauto|done| |].
      { intros u. cbv zeta. destruct (decide (u = t)) as [->|Hu]; [right; left; split; [done|apply Hrn]|left; by apply Hs]. }
      right. exists top. rewrite Ht. naive_solver.
  - destruct Hcan as [(t & Hc & Hs)|[t Hs]].
    + assert (run = true) as -> by (apply Hrun; eauto). wp_step. exists t. apply (stay_spec ks rq wq); try done.
      intros lvl Hl. by destruct (Hl (Htop lvl)).
    + destruct (si_complete _ _ _ _ I t Hs) as [_ Hin]; [set_solver|]. rewrite Htop in Hin. by apply elem_of_nil in Hin.
Qed.
End switch_spec.
