(* ===== verification/Sysabi.v ===== *)
(** The system-call ABI ([kcore/src/sysabi.rs]): the trap frame's registers are
    decoded into a typed call before anything else looks at them. *)

From S2P Require Import Prelude KStore Ready Census Notif Timer Irq Cdt Aspace Kinv Refs Channel Thread Cspace Untyped.

Definition NO_PRIO_CEILING : Z := 255.
Definition DEBUG_WRITE_MAX : Z := 1024.

Module Sys.
Inductive sys : Type :=
| DebugPutc (ch : Z)
| DebugWrite (ptr len : Z)
| Yield
| Retype (ut : Z) (ty : ObjType.obj_type) (param dst dst2 : Z)
| CapCopy (src dst mask prio_ceiling : Z)
| CapDelete (slot : Z)
| CapRevoke (slot : Z)
| CapInstall (cs src dst_index : Z)
| ChanSend (chan buf len caps : Z)
| ChanRecv (chan buf dests : Z)
| ChanBind (chan : Z) (event : nat) (notif bits : Z)
| NotifSignal (slot bits : Z)
| NotifWait (slot : Z)
| ThreadStart (tcb cspace entry sp prio arg : Z)
| TimerArm (timer notif bits delta : Z)
| ThreadExit (status : Z)
| Map (aspace frame va perms : Z)
| FrameWrite (frame off buf len : Z)
| ThreadStartAs (tcb cspace aspace entry sp prio arg : Z)
| FramePaddr (slot : Z)
| ThreadBind (tcb : Z) (which : nat) (notif bits : Z)
| ReadReport (tcb : Z)
| UntypedReset (slot : Z)
| AspaceTopUp (aspace ut pages : Z)
| IrqBind (irq notif bits : Z)
| IrqAck (irq : Z).
End Sys.

Module SysError.
Inductive error : Type := UnknownCall | BadObjType | MsgTooLong | BadEvent | BadWhich | BadPrio.
End SysError.

(** The seven argument registers x0 .. x6. *)
Record Args : Type := MkArgs { a0 : Z; a1 : Z; a2 : Z; a3 : Z; a4 : Z; a5 : Z; a6 : Z }.

Definition decode_prio (raw : Z) : result Z SysError.error :=
  let prio := as_u8 (Z.land raw 255) in
  if Z.of_nat NUM_PRIOS <=? prio then Err SysError.BadPrio else Ok prio.

Definition decode (nr : Z) (a : Args) : result Sys.sys SysError.error :=
  match nr with
  | 0 => Ok (Sys.DebugPutc (a0 a))
  | 1 => Ok (Sys.DebugWrite (a0 a) (a1 a))
  | 2 => Ok Sys.Yield
  | 3 =>
      match ObjType.from_u64 (a1 a) with
      | Some ty => Ok (Sys.Retype (a0 a) ty (a2 a) (a3 a) (a4 a))
      | None => Err SysError.BadObjType
      end
  | 4 => Ok (Sys.CapCopy (a0 a) (a1 a) (a2 a) (a3 a))
  | 5 => Ok (Sys.CapDelete (a0 a))
  | 6 => Ok (Sys.CapRevoke (a0 a))
  | 7 => Ok (Sys.CapInstall (a0 a) (a1 a) (a2 a))
  | 8 => if MSG_PAYLOAD <? a2 a then Err SysError.MsgTooLong else Ok (Sys.ChanSend (a0 a) (a1 a) (a2 a) (a3 a))
  | 9 => Ok (Sys.ChanRecv (a0 a) (a1 a) (a2 a))
  | 10 => if 2 <? a1 a then Err SysError.BadEvent else Ok (Sys.ChanBind (a0 a) (Z.to_nat (a1 a)) (a2 a) (a3 a))
  | 11 => Ok (Sys.NotifSignal (a0 a) (a1 a))
  | 12 => Ok (Sys.NotifWait (a0 a))
  | 13 =>
      match decode_prio (a4 a) with
      | Ok prio => Ok (Sys.ThreadStart (a0 a) (a1 a) (a2 a) (a3 a) prio (a5 a))
      | Err e => Err e
      end
  | 14 => Ok (Sys.TimerArm (a0 a) (a1 a) (a2 a) (a3 a))
  | 15 => Ok (Sys.ThreadExit (a0 a))
  | 16 => Ok (Sys.Map (a0 a) (a1 a) (a2 a) (a3 a))
  | 17 => Ok (Sys.FrameWrite (a0 a) (a1 a) (a2 a) (a3 a))
  | 18 =>
      match decode_prio (a5 a) with
      | Ok prio => Ok (Sys.ThreadStartAs (a0 a) (a1 a) (a2 a) (a3 a) (a4 a) prio (a6 a))
      | Err e => Err e
      end
  | 19 => Ok (Sys.FramePaddr (a0 a))
  | 21 => if 1 <? a1 a then Err SysError.BadWhich else Ok (Sys.ThreadBind (a0 a) (Z.to_nat (a1 a)) (a2 a) (a3 a))
  | 22 => Ok (Sys.ReadReport (a0 a))
  | 23 => Ok (Sys.UntypedReset (a0 a))
  | 24 => Ok (Sys.AspaceTopUp (a0 a) (a1 a) (a2 a))
  | 25 => Ok (Sys.IrqBind (a0 a) (a1 a) (a2 a))
  | 26 => Ok (Sys.IrqAck (a0 a))
  | _ => Err SysError.UnknownCall
  end.

(** ** What decoding guarantees *)

(** The fields decoding validates are in the range their users index with. *)
Definition sys_valid (s : Sys.sys) : Prop :=
  match s with
  | Sys.ChanSend _ _ len _ => 0 ≤ len ≤ MSG_PAYLOAD
  | Sys.ChanBind _ event _ _ => (event < 3)%nat
  | Sys.ThreadBind _ which _ _ => (which < 2)%nat
  | Sys.ThreadStart _ _ _ _ prio _ | Sys.ThreadStartAs _ _ _ _ _ prio _ => 0 ≤ prio < Z.of_nat NUM_PRIOS
  | _ => True
  end.

(** Exactly when, and how, decoding refuses. *)
Definition sys_refused (nr : Z) (a : Args) (e : SysError.error) : Prop :=
  match e with
  | SysError.UnknownCall => nr = 20 ∨ 27 ≤ nr
  | SysError.BadObjType => nr = 3 ∧ 8 ≤ a1 a
  | SysError.MsgTooLong => nr = 8 ∧ MSG_PAYLOAD < a2 a
  | SysError.BadEvent => nr = 10 ∧ 2 < a1 a
  | SysError.BadWhich => nr = 21 ∧ 1 < a1 a
  | SysError.BadPrio => (nr = 13 ∧ 32 ≤ a4 a mod 256) ∨ (nr = 18 ∧ 32 ≤ a5 a mod 256)
  end.

Lemma decode_prio_spec raw :
  0 ≤ raw → match decode_prio raw with
  | Ok p => p = raw mod 256 ∧ 0 ≤ p < Z.of_nat NUM_PRIOS
  | Err e => e = SysError.BadPrio ∧ 32 ≤ raw mod 256
  end.
Proof.
  intros Hr. unfold decode_prio. assert (as_u8 (Z.land raw 255) = raw mod 256) as ->.
  { unfold as_u8. change 255 with (Z.ones 8). rewrite Z.land_ones by lia. change (2 ^ 8) with 256. by rewrite Z.mod_mod. }
  pose proof (Z.mod_pos_bound raw 256). unfold NUM_PRIOS. destruct (Z.leb_spec 32 (raw mod 256)).
  - change (Z.of_nat 32 <=? raw mod 256) with (32 <=? raw mod 256). rewrite (proj2 (Z.leb_le _ _)) by done. done.
  - change (Z.of_nat 32 <=? raw mod 256) with (32 <=? raw mod 256). rewrite (proj2 (Z.leb_gt _ _)) by done. lia.
Qed.

Lemma from_u64_None v : 0 ≤ v → ObjType.from_u64 v = None ↔ 8 ≤ v.
Proof.
  intros Hv. destruct (decide (v < 8)) as [Hlt|Hge].
  - assert (v = 0 ∨ v = 1 ∨ v = 2 ∨ v = 3 ∨ v = 4 ∨ v = 5 ∨ v = 6 ∨ v = 7) as H by lia.
    repeat destruct H as [->|H]; try (split; [done|lia]). subst v. split; [done|lia].
  - split; [lia|]. intros _. destruct v as [|p|]; [lia| |lia].
    do 3 (destruct p as [p|p|]; try lia; try done).
Qed.

Ltac range_cases nr :=
  assert (nr = 0 ∨ nr = 1 ∨ nr = 2 ∨ nr = 3 ∨ nr = 4 ∨ nr = 5 ∨ nr = 6 ∨ nr = 7 ∨ nr = 8 ∨ nr = 9 ∨ nr = 10 ∨
    nr = 11 ∨ nr = 12 ∨ nr = 13 ∨ nr = 14 ∨ nr = 15 ∨ nr = 16 ∨ nr = 17 ∨ nr = 18 ∨ nr = 19 ∨ nr = 20 ∨ nr = 21 ∨
    nr = 22 ∨ nr = 23 ∨ nr = 24 ∨ nr = 25 ∨ nr = 26 ∨ 27 ≤ nr) as Hnr by lia.

Lemma decode_unknown nr a : 27 ≤ nr → decode nr a = Err SysError.UnknownCall.
Proof.
  intros H. destruct nr as [|p|]; [lia| |lia]. unfold decode.
  do 5 (destruct p as [p|p|]; try lia; try reflexivity).
Qed.

Lemma decode_spec nr a :
  0 ≤ nr → 0 ≤ a1 a → 0 ≤ a2 a → 0 ≤ a4 a → 0 ≤ a5 a →
  match decode nr a with
  | Ok s => sys_valid s ∧ ∀ e, ¬ sys_refused nr a e
  | Err e => sys_refused nr a e
  end.
Proof.
  intros H0 H1 H2 H4 H5. range_cases nr.
  repeat destruct Hnr as [->|Hnr];
    try (cbn; split; [done|]; intros []; cbn; lia); [| | | | | | |rewrite decode_unknown by done; by right].
  - cbn. pose proof (from_u64_None (a1 a) H1) as Hn. destruct (ObjType.from_u64 (a1 a)); [|by split; [|apply Hn]].
    split; [done|]. intros []; cbn; try lia. intros [_ ?%Hn]. done.
  - cbn. destruct (Z.ltb_spec MSG_PAYLOAD (a2 a)); [done|]. split; [cbn; lia|]. intros []; cbn; lia.
  - cbn. destruct (Z.ltb_spec 2 (a1 a)); [done|]. split; [cbn; lia|]. intros []; cbn; lia.
  - cbn. pose proof (decode_prio_spec (a4 a) H4) as Hp. destruct (decode_prio (a4 a)) as [p|e].
    + split; [apply Hp|]. destruct Hp as [-> Hp]. unfold NUM_PRIOS in Hp. intros []; cbn; lia.
    + destruct Hp as [-> Hp]. by left.
  - cbn. pose proof (decode_prio_spec (a5 a) H5) as Hp. destruct (decode_prio (a5 a)) as [p|e].
    + split; [apply Hp|]. destruct Hp as [-> Hp]. unfold NUM_PRIOS in Hp. intros []; cbn; lia.
    + destruct Hp as [-> Hp]. by right.
  - cbn. by left.
  - cbn. destruct (Z.ltb_spec 1 (a1 a)); [done|]. split; [cbn; lia|]. intros []; cbn; lia.
Qed.

(** The 64-bit fields of a call. *)
Definition sys_words (s : Sys.sys) : list Z :=
  match s with
  | Sys.DebugPutc a | Sys.CapDelete a | Sys.CapRevoke a | Sys.NotifWait a | Sys.ThreadExit a | Sys.FramePaddr a
  | Sys.ReadReport a | Sys.UntypedReset a | Sys.IrqAck a => [a]
  | Sys.DebugWrite a b | Sys.NotifSignal a b => [a; b]
  | Sys.Yield => []
  | Sys.Retype a _ b c d => [a; b; c; d]
  | Sys.CapCopy a b c d | Sys.ChanSend a b c d | Sys.TimerArm a b c d | Sys.Map a b c d | Sys.FrameWrite a b c d => [a; b; c; d]
  | Sys.CapInstall a b c | Sys.ChanRecv a b c | Sys.AspaceTopUp a b c | Sys.IrqBind a b c => [a; b; c]
  | Sys.ChanBind a _ b c | Sys.ThreadBind a _ b c => [a; b; c]
  | Sys.ThreadStart a b c d _ e => [a; b; c; d; e]
  | Sys.ThreadStartAs a b c d e _ f => [a; b; c; d; e; f]
  end.

(** They are the words of the frame. *)
Lemma decode_words (P : Z → Prop) nr a s :
  0 ≤ nr → Forall P [a0 a; a1 a; a2 a; a3 a; a4 a; a5 a; a6 a] → decode nr a = Ok s → Forall P (sys_words s).
Proof.
  intros Hz. rewrite !Forall_cons. intros (H0 & H1 & H2 & H3 & H4 & H5 & H6 & _). range_cases nr.
  repeat destruct Hnr as [->|Hnr]; [..|by rewrite decode_unknown]; cbn; repeat case_match; intros [= <-]; cbn; by rewrite ?Forall_cons, ?Forall_nil.
Qed.
