(* ===== verification/Syscall.v ===== *)
(** System calls and exceptions ([kernel/src/syscall.rs], [kernel/src/exceptions.rs]):
    resolution of capability arguments, the user-memory checks and accesses, one
    definition per arm of [execute], and the three exception entries from user code.

    The system call number and arguments are read from the trap frame. An arm
    returns [Some r] with the value for [x0], or [None] when the thread's [x0] is
    written later or never. A pointer into a CSpace is [None] where the code has a
    null pointer. The kernel reads and writes user memory through the running
    thread's own translation: an access to an unmapped page, or a write to a page
    that is not writable, is the fatal abort at EL1 and is a panic of the model. *)

From S2P Require Import Prelude KStore Ready Census Notif Timer Irq Cdt Aspace Kinv Refs Channel Thread Events Cspace Fifo Untyped Retype Sched Sysabi.

(** ** Results *)
Definition ERR_BADSLOT : Z := -1.
Definition ERR_TYPE : Z := -2.
Definition ERR_PERM : Z := -3.
Definition ERR_FULL : Z := -4.
Definition ERR_EMPTY : Z := -5.
Definition ERR_NOSLOT : Z := -6.
Definition ERR_FAULT : Z := -7.
Definition ERR_NOMEM : Z := -8.
Definition ERR_ARG : Z := -9.
Definition ERR_CLOSED : Z := -10.
Definition ERR_STATE : Z := -11.
Definition ERR_AGAIN : Z := -12.

Definition SLOT_NONE : Z := U32_MAX.
Definition REVOKE_QUANTUM : nat := 16.

(** [kernel/src/mmu.rs]: the identity-mapped window of user code without an address space. *)
Definition USER_BASE : Z := 1207959552.
Definition USER_SIZE : Z := 2097152.

(** [x as i64] and [x as u64] between the two 64-bit types. *)
Definition as_i64 (x : Z) : Z := if x <? 2 ^ 63 then x else x - 2 ^ 64.
Definition as_u64 (x : Z) : Z := x mod 2 ^ 64.

Definition ok (v : Z) : KM (option Z) := mret (Some v).
Definition fail (e : Z) : KM (option Z) := mret (Some e).

(** Field [x] of the frame, an array of 31 registers. *)
Definition reg (f : TrapFrame) (i : nat) : Z := regs f !!! i.
Definition set_reg (i : nat) (v : Z) : KM unit :=
  modify (with_frame (λ f, MkFrame (<[i := v]> (regs f)) (sp_el0 f) (elr f) (spsr f) (tpidr f))).

(** ** User memory *)
Definition user_range_ok (ptr len : Z) : KM bool :=
  t ← the_current;
  a ← lift (tcb_aspace t);
  match a with
  | None => mret ((len <=? USER_SIZE) && (USER_BASE <=? ptr) &&
      match checked_add ptr len with Some e => e <=? USER_BASE + USER_SIZE | None => false end)
  | Some a => lift (range_mapped a ptr len false)
  end.

Definition user_range_writable (ptr len : Z) : KM bool :=
  t ← the_current;
  a ← lift (tcb_aspace t);
  match a with
  | None => user_range_ok ptr len
  | Some a => lift (range_mapped a ptr len true)
  end.

(** The physical address of a user address in the running thread's translation. *)
Definition user_pa (write : bool) (va : Z) : KM Z :=
  t ← the_current;
  a ← lift (tcb_aspace t);
  match a with
  | None => mret va
  | Some a =>
      o ← gets (λ ks, aspaces (k_store ks) !!! a);
      let e := mapped (as_pool_base o) (pt_view o []) va in
      if (e =? 0) || (write && negb (Z.land (Z.shiftr e 6) 3 =? 1)) then panic
      else mret (pte_output_pa e + va mod PAGE)
  end.

Fixpoint user_read (va : Z) (len : nat) : KM (list Z) :=
  match len with
  | O => mret []
  | S len' =>
      pa ← user_pa false va;
      b ← gets (λ ks, k_mem ks pa);
      l ← user_read (va + 1) len';
      mret (b :: l)
  end.

(** Storing bytes at consecutive physical addresses. *)
Fixpoint mem_write (pa : Z) (l : list Z) (m : Z → Z) : Z → Z :=
  match l with
  | [] => m
  | b :: l' => mem_write (pa + 1) l' (λ x, if x =? pa then b else m x)
  end.

Fixpoint user_write (va : Z) (l : list Z) : KM unit :=
  match l with
  | [] => mret tt
  | b :: l' =>
      pa ← user_pa true va;
      modify (with_mem (mem_write pa [b]));;
      user_write (va + 1) l'
  end.

(** [arr.add(i).read()] of a little-endian [u32]. *)
Definition le_value (l : list Z) : Z := foldr (λ b acc, b + 256 * acc) 0 l.
Definition user_read_u32 (va : Z) : KM Z :=
  l ← user_read va 4; mret (le_value l).

(** ** Capability arguments *)

(** [CSpaceObj::slot], with [None] for the null pointer. *)
Definition cspace_slot_ptr (cs : ObjId) (i : Z) : K (option SlotId) :=
  s ← cspace_slot cs i;
  mret (if decide (s = null_slot) then None else Some s).

Definition cur_slot (idx : Z) : KM (option SlotId) :=
  if U32_MAX <? idx then mret None
  else
    t ← the_current;
    cs ← lift (tcb_cspace t);
    match cs with
    | None => mret None
    | Some cs => lift (cspace_slot_ptr cs idx)
    end.

Definition cap_of (s : SlotId) : KM Cap := lift (v ← slot s; mret (cap v)).

Fixpoint resolve_loop (list_ptr : Z) (require_full : bool) (i n : nat) : KM (result (list (option SlotId)) Z) :=
  match n with
  | O => mret (Ok [])
  | S n' =>
      idx ← user_read_u32 (list_ptr + 4 * Z.of_nat i);
      if idx =? SLOT_NONE then
        rest ← resolve_loop list_ptr require_full (S i) n';
        match rest with Ok l => mret (Ok (None :: l)) | Err e => mret (Err e) end
      else
        s ← cur_slot idx;
        match s with
        | None => mret (Err ERR_BADSLOT)
        | Some s =>
            c ← cap_of s;
            if require_full && cap_is_empty c then mret (Err ERR_BADSLOT)
            else
              rest ← resolve_loop list_ptr require_full (S i) n';
              match rest with Ok l => mret (Ok (Some s :: l)) | Err e => mret (Err e) end
        end
  end.

Definition resolve_cap_list (list_ptr : Z) (require_full : bool) : KM (result (list (option SlotId)) Z) :=
  if list_ptr =? 0 then mret (Ok (replicate MSG_CAPS None))
  else
    okr ← user_range_ok list_ptr (Z.of_nat MSG_CAPS * 4);
    if negb okr || negb (list_ptr mod 4 =? 0) then mret (Err ERR_FAULT)
    else resolve_loop list_ptr require_full 0 MSG_CAPS.

(** ** The arms of [execute]

    [debug_log] is the build feature of that name; the layout, the two shared
    kernel entries of a first-level table and the kernel's translation base are the
    parameters the called operations have. *)
Section arms.
Context (L : Layout) (k0 k1 kernel_ttbr0 : Z) (debug_log : bool).

(** [Uart::write_char] of the character with this code: UTF-8, with a carriage
    return before a line feed. *)
Definition uart_putc (b : Z) : KM unit := modify (with_uart (cons b)).
Definition write_char (ch : Z) : KM unit :=
  if ch <? 128 then
    (if ch =? 10 then uart_putc 13 else mret tt);; uart_putc ch
  else uart_putc (Z.lor 192 (Z.shiftr ch 6));; uart_putc (Z.lor 128 (Z.land ch 63)).

Definition sys_debug_putc (ch : Z) : KM (option Z) :=
  (if debug_log then write_char (as_u8 ch) else mret tt);; ok 0.

Definition sys_debug_write (ptr len : Z) : KM (option Z) :=
  if debug_log then
    okr ← user_range_ok ptr len;
    if negb okr || (DEBUG_WRITE_MAX <? len) then fail ERR_FAULT
    else
      for_from 0 (Z.to_nat len) (λ i,
        pa ← user_pa false (ptr + Z.of_nat i);
        b ← gets (λ ks, k_mem ks pa);
        write_char b);;
      ok 0
  else ok 0.

Definition sys_yield : KM (option Z) :=
  set_reg 0 0;; maybe_switch kernel_ttbr0 true;; mret None.

(** The memory an object is carved from, as the initialisers find it. *)
Definition raw_payload (m : Z → Z) (a : Z) : list Z := (λ i, m (a + Z.of_nat i)) <$> seq 0 (Z.to_nat MSG_PAYLOAD).
Definition raw_table (m : Z → Z) (a : Z) : list Z :=
  (λ i, le_value ((λ j, m (a + Z.of_nat i * 8 + Z.of_nat j)) <$> seq 0 8)) <$> seq 0 512.

(** [untyped::retype] with its effects outside the store: the identifier counter
    ([aspace::init]) and the zeroing of a fresh frame. *)
Definition kernel_retype (ut : SlotId) (ty : ObjType.obj_type) (param : Z) (dst : SlotId) (dst2 : option SlotId) :
    KM (result unit RetypeError.error) :=
  m ← gets k_mem;
  asid ← gets k_asid;
  t ← the_current;
  prio ← lift (tcb_priority t);
  r ← lift (retype L (raw_payload m) (raw_table m) asid k0 k1 prio ut ty param dst dst2);
  match r with
  | Err e => mret (Err e)
  | Ok c =>
      (match ty with
       | ObjType.Frame => modify (with_mem (λ m x, if (c_start c <=? x) && (x <? c_start c + c_bytes c) then 0 else m x))
       | ObjType.Aspace =>
           let '(_, next, flush) := alloc_asid asid in
           modify (with_asid next);; if (flush : bool) then lift tlb_flush_all else mret tt
       | _ => mret tt
       end);;
      mret (Ok tt)
  end.

Definition retype_errno (e : RetypeError.error) : Z :=
  match e with
  | RetypeError.NotUntyped => ERR_TYPE
  | RetypeError.DestOccupied => ERR_NOSLOT
  | RetypeError.NoMemory => ERR_NOMEM
  | RetypeError.BadArg => ERR_ARG
  end.

Definition sys_retype (ut : Z) (ty : ObjType.obj_type) (param dst dst2 : Z) : KM (option Z) :=
  ut ← cur_slot ut;
  dst ← cur_slot dst;
  match ut, dst with
  | Some ut, Some dst =>
      let go d2 :=
        r ← kernel_retype ut ty param dst d2;
        match r with Ok _ => ok 0 | Err e => fail (retype_errno e) end in
      match ty with
      | ObjType.Channel =>
          d2 ← cur_slot dst2;
          match d2 with None => fail ERR_BADSLOT | Some d2 => go (Some d2) end
      | _ => go None
      end
  | _, _ => fail ERR_BADSLOT
  end.

Definition sys_cap_copy (src dst mask prio_ceiling : Z) : KM (option Z) :=
  src ← cur_slot src;
  dst ← cur_slot dst;
  match src, dst with
  | Some src, Some dst =>
      pend ← lift (ancestor_or_self_revoking src);
      if (pend : bool) then fail ERR_AGAIN
      else
        r ← lift (derive src dst (as_u8 mask) (as_u8 prio_ceiling));
        match r with Ok _ => ok 0 | Err _ => fail ERR_NOSLOT end
  | _, _ => fail ERR_BADSLOT
  end.

Definition sys_cap_delete (slot : Z) : KM (option Z) :=
  s ← cur_slot slot;
  match s with
  | None => fail ERR_BADSLOT
  | Some s =>
      c ← cap_of s;
      if cap_is_empty c then fail ERR_BADSLOT else lift (delete s);; ok 0
  end.

Definition sys_cap_revoke (slot : Z) : KM (option Z) :=
  s ← cur_slot slot;
  match s with
  | None => fail ERR_BADSLOT
  | Some s =>
      c ← cap_of s;
      if cap_is_empty c then fail ERR_BADSLOT
      else
        r ← lift (revoke_step s REVOKE_QUANTUM);
        match r with RevokeStatus.Done => ok 0 | RevokeStatus.More => fail ERR_AGAIN end
  end.

Definition sys_cap_install (cs src dst_index : Z) : KM (option Z) :=
  cs_slot ← cur_slot cs;
  src ← cur_slot src;
  match cs_slot, src with
  | Some cs_slot, Some src =>
      c ← cap_of src;
      if cap_is_empty c then fail ERR_BADSLOT
      else
        k ← cap_of cs_slot;
        match kind k with
        | CapKind.CSpace cs =>
            if U32_MAX <? dst_index then fail ERR_ARG
            else
              dst ← lift (cspace_slot_ptr cs dst_index);
              match dst with
              | None => fail ERR_BADSLOT
              | Some dst =>
                  d ← cap_of dst;
                  if negb (cap_is_empty d) then fail ERR_NOSLOT
                  else lift (slot_move src dst);; ok 0
              end
        | _ => fail ERR_TYPE
        end
  | _, _ => fail ERR_BADSLOT
  end.

Definition sys_chan_send (chan buf len caps : Z) : KM (option Z) :=
  s ← cur_slot chan;
  match s with
  | None => fail ERR_BADSLOT
  | Some s =>
      c ← cap_of s;
      match kind c with
      | CapKind.Channel ch end_ =>
          if negb (Rights.has (rights c) Rights.WRITE) then fail ERR_PERM
          else
            okr ← user_range_ok buf len;
            if negb okr then fail ERR_FAULT
            else
              data ← user_read buf (Z.to_nat len);
              capslots ← resolve_cap_list caps true;
              match capslots with
              | Err e => fail e
              | Ok capslots =>
                  r ← lift (send ch end_ data capslots);
                  match r with
                  | Ok _ => ok 0
                  | Err Full => fail ERR_FULL
                  | Err PeerClosed => fail ERR_CLOSED
                  | Err _ => fail ERR_ARG
                  end
              end
      | _ => fail ERR_TYPE
      end
  end.

Definition sys_chan_recv (chan buf dests : Z) : KM (option Z) :=
  s ← cur_slot chan;
  match s with
  | None => fail ERR_BADSLOT
  | Some s =>
      c ← cap_of s;
      match kind c with
      | CapKind.Channel ch end_ =>
          if negb (Rights.has (rights c) Rights.READ) then fail ERR_PERM
          else
            okr ← user_range_ok buf MSG_PAYLOAD;
            if negb okr then fail ERR_FAULT
            else
              okw ← user_range_writable buf MSG_PAYLOAD;
              if negb okw then fail ERR_FAULT
              else
                destslots ← resolve_cap_list dests false;
                match destslots with
                | Err e => fail e
                | Ok destslots =>
                    r ← lift (recv ch end_ (replicate (Z.to_nat MSG_PAYLOAD) 0) destslots);
                    match r with
                    | (Ok (len, mask), rbuf) =>
                        user_write buf (take (Z.to_nat len) rbuf);;
                        set_reg 1 mask;;
                        ok len
                    | (Err Empty, _) => fail ERR_EMPTY
                    | (Err NoCapSlot, _) => fail ERR_NOSLOT
                    | (Err _, _) => fail ERR_ARG
                    end
                end
      | _ => fail ERR_TYPE
      end
  end.

(** A notification capability an operation will signal through. *)
Definition signal_target (s : SlotId) (k : ObjId → KM (option Z)) : KM (option Z) :=
  c ← cap_of s;
  match kind c with
  | CapKind.Notification n => if negb (Rights.has (rights c) Rights.WRITE) then fail ERR_PERM else k n
  | _ => fail ERR_TYPE
  end.

Definition sys_chan_bind (chan : Z) (event : nat) (notif bits : Z) : KM (option Z) :=
  s ← cur_slot chan;
  ns ← cur_slot notif;
  match s, ns with
  | Some s, Some ns =>
      c ← cap_of s;
      match kind c with
      | CapKind.Channel ch end_ => signal_target ns (λ n, lift (bind ch end_ event (Some n) bits);; ok 0)
      | _ => fail ERR_TYPE
      end
  | _, _ => fail ERR_BADSLOT
  end.

Definition sys_notif_signal (slot bits : Z) : KM (option Z) :=
  s ← cur_slot slot;
  match s with
  | None => fail ERR_BADSLOT
  | Some s => signal_target s (λ n, lift (signal n bits);; ok 0)
  end.

Definition sys_notif_wait (slot : Z) : KM (option Z) :=
  s ← cur_slot slot;
  match s with
  | None => fail ERR_BADSLOT
  | Some s =>
      c ← cap_of s;
      match kind c with
      | CapKind.Notification n =>
          if negb (Rights.has (rights c) Rights.READ) then fail ERR_PERM
          else
            t ← the_current;
            r ← lift (wait n t);
            match r with Some word => ok (as_i64 word) | None => mret None end
      | _ => fail ERR_TYPE
      end
  end.

(** The frame a thread starts with. *)
Definition start_frame (entry sp arg : Z) : TrapFrame :=
  MkFrame (<[0%nat := arg]> (replicate 31 0)) sp entry 0 0.

(** Counting the reference a started thread will hold. *)
Definition take_ref (o : ObjId) : K unit :=
  r ← obj_refs o; r' ← uadd U32_MAX r 1; set_obj_refs o r'.

Definition sys_thread_start (tcb cspace entry sp prio arg : Z) : KM (option Z) :=
  ts ← cur_slot tcb;
  cs_slot ← cur_slot cspace;
  match ts, cs_slot with
  | Some ts, Some cs_slot =>
      tc ← cap_of ts;
      match kind tc with
      | CapKind.Thread t max_prio =>
          cc ← cap_of cs_slot;
          match kind cc with
          | CapKind.CSpace cs =>
              st ← lift (tcb_state t);
              if negb (bool_decide (st = ThreadState.Inactive)) then fail ERR_STATE
              else
                e_ok ← user_range_ok entry 4;
                s_ok ← (if (e_ok : bool) then user_range_ok sp 0 else mret false);
                if negb s_ok then fail ERR_FAULT
                else
                  r ← lift (set_priority t prio max_prio);
                  match r with
                  | Err _ => fail ERR_PERM
                  | Ok _ =>
                      lift (take_ref cs);;
                      lift (set_tcb_cspace t (Some cs));;
                      lift (upd_tcb t (tcb_set_frame (start_frame entry sp arg)));;
                      lift (ready_enqueue t);;
                      ok 0
                  end
          | _ => fail ERR_TYPE
          end
      | _ => fail ERR_TYPE
      end
  | _, _ => fail ERR_BADSLOT
  end.

Definition sys_thread_start_as (tcb cspace aspace entry sp prio arg : Z) : KM (option Z) :=
  ts ← cur_slot tcb;
  cs_slot ← cur_slot cspace;
  asp_slot ← cur_slot aspace;
  match ts, cs_slot, asp_slot with
  | Some ts, Some cs_slot, Some asp_slot =>
      tc ← cap_of ts;
      match kind tc with
      | CapKind.Thread t max_prio =>
          cc ← cap_of cs_slot;
          match kind cc with
          | CapKind.CSpace cs =>
              ac ← cap_of asp_slot;
              match kind ac with
              | CapKind.Aspace asp =>
                  st ← lift (tcb_state t);
                  if negb (bool_decide (st = ThreadState.Inactive)) then fail ERR_STATE
                  else
                    r ← lift (set_priority t prio max_prio);
                    match r with
                    | Err _ => fail ERR_PERM
                    | Ok _ =>
                        e_ok ← lift (range_mapped asp entry 4 false);
                        if negb e_ok then fail ERR_FAULT
                        else
                          lift (take_ref cs);;
                          lift (take_ref asp);;
                          lift (set_tcb_cspace t (Some cs));;
                          lift (set_tcb_aspace t (Some asp));;
                          lift (upd_tcb t (tcb_set_frame (start_frame entry sp arg)));;
                          lift (ready_enqueue t);;
                          ok 0
                    end
              | _ => fail ERR_TYPE
              end
          | _ => fail ERR_TYPE
          end
      | _ => fail ERR_TYPE
      end
  | _, _, _ => fail ERR_BADSLOT
  end.

(** [now] is [timer::counter()]. *)
Definition sys_timer_arm (now : Z) (timer notif bits delta : Z) : KM (option Z) :=
  ts ← cur_slot timer;
  ns ← cur_slot notif;
  match ts, ns with
  | Some ts, Some ns =>
      c ← cap_of ts;
      match kind c with
      | CapKind.Timer t => signal_target ns (λ n, lift (arm t n bits (saturating_add now delta));; ok 0)
      | _ => fail ERR_TYPE
      end
  | _, _ => fail ERR_BADSLOT
  end.

Definition sys_irq_bind (irq notif bits : Z) : KM (option Z) :=
  hs ← cur_slot irq;
  ns ← cur_slot notif;
  match hs, ns with
  | Some hs, Some ns =>
      c ← cap_of hs;
      match kind c with
      | CapKind.Irq i => signal_target ns (λ n, lift (irq_bind i n bits);; ok 0)
      | _ => fail ERR_TYPE
      end
  | _, _ => fail ERR_BADSLOT
  end.

Definition sys_irq_ack (irq : Z) : KM (option Z) :=
  hs ← cur_slot irq;
  match hs with
  | None => fail ERR_BADSLOT
  | Some hs =>
      c ← cap_of hs;
      match kind c with
      | CapKind.Irq i => lift (ack i);; ok 0
      | _ => fail ERR_TYPE
      end
  end.

Definition sys_thread_exit (status : Z) : KM (option Z) :=
  t ← the_current;
  lift (set_tcb_state t ThreadState.Halted);;
  lift (report_terminal t (Report.Exited status));;
  mret None.

Definition map_errno (e : MapError) : Z :=
  match e with
  | NeedMemory => ERR_NOMEM
  | AlreadyMapped => ERR_STATE
  | _ => ERR_ARG
  end.

Definition sys_map (aspace frame va perms : Z) : KM (option Z) :=
  asp_slot ← cur_slot aspace;
  fr_slot ← cur_slot frame;
  match asp_slot, fr_slot with
  | Some asp_slot, Some fr_slot =>
      ac ← cap_of asp_slot;
      match kind ac with
      | CapKind.Aspace asp =>
          if negb (Rights.has (rights ac) Rights.WRITE) then fail ERR_PERM
          else
            fc ← cap_of fr_slot;
            match kind fc with
            | CapKind.Frame _ _ mapping =>
                match mapping with
                | Some _ => fail ERR_STATE
                | None =>
                    if negb (Z.land perms PERM_W =? 0) && negb (Rights.has (rights fc) Rights.WRITE) then fail ERR_PERM
                    else if negb (Z.land perms PERM_DEVICE =? 0) && negb (Rights.has (rights fc) Rights.PHYS) then fail ERR_PERM
                    else
                      r ← lift (map_frame fr_slot asp va perms);
                      match r with Ok _ => ok 0 | Err e => fail (map_errno e) end
                end
            | _ => fail ERR_TYPE
            end
      | _ => fail ERR_TYPE
      end
  | _, _ => fail ERR_BADSLOT
  end.

Definition sys_frame_write (frame off buf len : Z) : KM (option Z) :=
  fr_slot ← cur_slot frame;
  match fr_slot with
  | None => fail ERR_BADSLOT
  | Some fr_slot =>
      c ← cap_of fr_slot;
      match kind c with
      | CapKind.Frame base pages _ =>
          if negb (Rights.has (rights c) Rights.WRITE) then fail ERR_PERM
          else
            limit ← umul U64_MAX pages 4096;
            if match checked_add off len with Some e => limit <? e | None => true end then fail ERR_ARG
            else
              okr ← user_range_ok buf len;
              if negb okr then fail ERR_FAULT
              else
                data ← user_read buf (Z.to_nat len);
                modify (with_mem (mem_write (base + off) data));;
                ok 0
      | _ => fail ERR_TYPE
      end
  end.

Definition sys_frame_paddr (slot : Z) : KM (option Z) :=
  s ← cur_slot slot;
  match s with
  | None => fail ERR_BADSLOT
  | Some s =>
      c ← cap_of s;
      match kind c with
      | CapKind.Frame base _ _ =>
          if negb (Rights.has (rights c) Rights.PHYS) then fail ERR_PERM else ok (as_i64 base)
      | _ => fail ERR_TYPE
      end
  end.

Definition sys_thread_bind (tcb : Z) (which : nat) (notif bits : Z) : KM (option Z) :=
  ts ← cur_slot tcb;
  match ts with
  | None => fail ERR_BADSLOT
  | Some ts =>
      c ← cap_of ts;
      match kind c with
      | CapKind.Thread t _ =>
          if negb (Rights.has (rights c) Rights.BIND_REPORTS) then fail ERR_PERM
          else if notif =? SLOT_NONE then lift (thread_bind delete t which None bits);; ok 0
          else
            ns ← cur_slot notif;
            match ns with
            | None => fail ERR_BADSLOT
            | Some ns => signal_target ns (λ _, lift (thread_bind delete t which (Some ns) bits);; ok 0)
            end
      | _ => fail ERR_TYPE
      end
  end.

Definition report_words (r : Report.report) : Z * Z * Z :=
  match r with
  | Report.Running => (0, 0, 0)
  | Report.Exited status => (1, status, 0)
  | Report.Faulted cause far => (2, cause, far)
  end.

Definition sys_read_report (tcb : Z) : KM (option Z) :=
  ts ← cur_slot tcb;
  match ts with
  | None => fail ERR_BADSLOT
  | Some ts =>
      c ← cap_of ts;
      match kind c with
      | CapKind.Thread t _ =>
          if negb (Rights.has (rights c) Rights.READ_REPORT) then fail ERR_PERM
          else
            r ← lift (tcb_report t);
            let '(code, v1, v2) := report_words r in
            set_reg 1 v1;;
            set_reg 2 v2;;
            ok code
      | _ => fail ERR_TYPE
      end
  end.

Definition sys_untyped_reset (slot : Z) : KM (option Z) :=
  s ← cur_slot slot;
  match s with
  | None => fail ERR_BADSLOT
  | Some s =>
      c ← cap_of s;
      if cap_is_empty c then fail ERR_BADSLOT
      else
        r ← lift (reset s);
        match r with
        | Ok _ => ok 0
        | Err RetypeError.NotUntyped => fail ERR_TYPE
        | Err _ => fail ERR_STATE
        end
  end.

Definition sys_aspace_topup (aspace ut pages : Z) : KM (option Z) :=
  asp_slot ← cur_slot aspace;
  ut_slot ← cur_slot ut;
  match asp_slot, ut_slot with
  | Some asp_slot, Some ut_slot =>
      c ← cap_of asp_slot;
      match kind c with
      | CapKind.Aspace asp =>
          if negb (Rights.has (rights c) Rights.WRITE) then fail ERR_PERM
          else
            r ← lift (aspace_topup ut_slot asp pages);
            match r with
            | Ok _ => ok 0
            | Err RetypeError.NotUntyped => fail ERR_TYPE
            | Err RetypeError.NoMemory => fail ERR_NOMEM
            | Err _ => fail ERR_ARG
            end
      | _ => fail ERR_TYPE
      end
  | _, _ => fail ERR_BADSLOT
  end.

(** ** Dispatch *)
Definition execute (now : Z) (sys : Sys.sys) : KM (option Z) :=
  match sys with
  | Sys.DebugPutc ch => sys_debug_putc ch
  | Sys.DebugWrite ptr len => sys_debug_write ptr len
  | Sys.Yield => sys_yield
  | Sys.Retype ut ty param dst dst2 => sys_retype ut ty param dst dst2
  | Sys.CapCopy src dst mask prio_ceiling => sys_cap_copy src dst mask prio_ceiling
  | Sys.CapDelete slot => sys_cap_delete slot
  | Sys.CapRevoke slot => sys_cap_revoke slot
  | Sys.CapInstall cs src dst_index => sys_cap_install cs src dst_index
  | Sys.ChanSend chan buf len caps => sys_chan_send chan buf len caps
  | Sys.ChanRecv chan buf dests => sys_chan_recv chan buf dests
  | Sys.ChanBind chan event notif bits => sys_chan_bind chan event notif bits
  | Sys.NotifSignal slot bits => sys_notif_signal slot bits
  | Sys.NotifWait slot => sys_notif_wait slot
  | Sys.ThreadStart tcb cspace entry sp prio arg => sys_thread_start tcb cspace entry sp prio arg
  | Sys.TimerArm timer notif bits delta => sys_timer_arm now timer notif bits delta
  | Sys.ThreadExit status => sys_thread_exit status
  | Sys.Map aspace frame va perms => sys_map aspace frame va perms
  | Sys.FrameWrite frame off buf len => sys_frame_write frame off buf len
  | Sys.ThreadStartAs tcb cspace aspace entry sp prio arg => sys_thread_start_as tcb cspace aspace entry sp prio arg
  | Sys.FramePaddr slot => sys_frame_paddr slot
  | Sys.ThreadBind tcb which notif bits => sys_thread_bind tcb which notif bits
  | Sys.ReadReport tcb => sys_read_report tcb
  | Sys.UntypedReset slot => sys_untyped_reset slot
  | Sys.AspaceTopUp aspace ut pages => sys_aspace_topup aspace ut pages
  | Sys.IrqBind irq notif bits => sys_irq_bind irq notif bits
  | Sys.IrqAck irq => sys_irq_ack irq
  end.

Definition errno_of (_ : SysError.error) : Z := ERR_ARG.

Definition frame_args (f : TrapFrame) : Args := MkArgs (reg f 0) (reg f 1) (reg f 2) (reg f 3) (reg f 4) (reg f 5) (reg f 6).

Definition dispatch (now : Z) : KM (option Z) :=
  f ← gets k_frame;
  match decode (reg f 7) (frame_args f) with
  | Ok sys => execute now sys
  | Err e => mret (Some (errno_of e))
  end.

(** ** Exceptions from user code *)

(** ESR_EL1 EC field: bits [31:26]. *)
Definition esr_ec (esr : Z) : Z := Z.land (Z.shiftr esr 26) 63.

(** The syndrome, the fault address and the counter are what the hardware registers
    hold. The diagnostic line a fault prints is not modelled. *)
Definition handle_el0_sync (esr far now : Z) : KM unit :=
  if esr_ec esr =? 21 then
    r ← dispatch now;
    (match r with Some ret => set_reg 0 (as_u64 ret) | None => mret tt end);;
    maybe_switch kernel_ttbr0 false
  else
    t ← the_current;
    lift (set_tcb_state t ThreadState.Faulted);;
    lift (report_terminal t (Report.Faulted esr far));;
    maybe_switch kernel_ttbr0 false.

(** [gic::INTID_VTIMER] *)
Definition INTID_VTIMER : Z := 27.

Definition handle_el0_irq (irq_table : list ObjId) (intid now : Z) : KM unit :=
  if intid =? INTID_VTIMER then
    lift rearm_tick;;
    lift (check_expired now);;
    lift (gic_eoi intid);;
    maybe_switch kernel_ttbr0 true
  else
    woke ← lift (deliver irq_table intid);
    lift (gic_eoi intid);;
    maybe_switch kernel_ttbr0 woke.
End arms.
