(* ===== verification/Execute.v ===== *)
(** Every exception from user code keeps the kernel's invariant and returns. [sysok] is
    the invariant of the machine between exceptions; each arm of [execute] is shown
    to return and to leave a state the scheduler can settle ([mid]); the exception
    entries restore [sysok]. What a call needs from outside the kernel (fresh memory
    for a new object, distinct capability arguments) is [call_ok]. *)

From S2P Require Import Prelude KStore Ready Census Notif Timer Irq Cdt Aspace Kinv Refs Channel Thread Events Cspace Fifo Untyped Retype Arena Sched Sysabi Syscall.

(** ** The machine between exceptions *)

(** What an operation run for the current thread [t] may do to run states: it starts
    nobody else's running, does not queue [t], and leaves a runnable thread the boot
    image holds alone. *)
Record good (st : Store) (t : ObjId) (st' : Store) : Prop := {
  gd_inv : sysinv st';
  gd_run u : t_state (tcbs st' !!! u) = ThreadState.Running → t_state (tcbs st !!! u) = ThreadState.Running;
  gd_cur : t_state (tcbs st' !!! t) ≠ ThreadState.Runnable;
  gd_pin u : pinned st !!! u ≠ 0%nat → u ≠ t →
    t_state (tcbs st !!! u) = ThreadState.Running ∨ t_state (tcbs st !!! u) = ThreadState.Runnable →
    t_state (tcbs st' !!! u) = t_state (tcbs st !!! u);
  gd_pinned : pinned st' = pinned st;
}.

Section machine.
Context (idle : ObjId).

(** A state the scheduler can settle: the idle thread is always there to run. *)
Record mid (ks : KState) : Prop := {
  md_inv : sysinv (k_store ks);
  md_one : one_running ks;
  md_cur : is_Some (k_current ks);
  md_stopped : cur_not_ready ks;
  md_pinned : pinned (k_store ks) !!! idle ≠ 0%nat;
  md_idle : t_state (tcbs (k_store ks) !!! idle) = ThreadState.Running ∨
    t_state (tcbs (k_store ks) !!! idle) = ThreadState.Runnable;
}.

(** ... settled: the current thread is running. *)
Definition sysok (ks : KState) : Prop :=
  mid ks ∧ ∃ t, k_current ks = Some t ∧ t_state (tcbs (k_store ks) !!! t) = ThreadState.Running.

Lemma mid_can_run ks : mid ks → can_run ks.
Proof. intros M. destruct (md_idle _ M) as [H|H]; [left|right]; exists idle; [|done]. split; [|done]. by apply (md_one _ M). Qed.

Lemma mid_ext ks ks' : mid ks → k_store ks' = k_store ks → k_current ks' = k_current ks → mid ks'.
Proof. intros [] E1 E2. unfold one_running, cur_not_ready in *. split; unfold one_running, cur_not_ready; rewrite ?E1, ?E2; done. Qed.

Lemma mid_good ks ks' t :
  mid ks → k_current ks = Some t → t ≠ idle → good (k_store ks) t (k_store ks') → k_current ks' = k_current ks → mid ks'.
Proof.
  intros M Hc Ht G E. split.
  - apply G.
  - intros u Hu. rewrite E. by apply (md_one _ M), (gd_run _ _ _ G).
  - rewrite E. apply M.
  - intros u. rewrite E, Hc. intros [= <-]. apply G.
  - rewrite (gd_pinned _ _ _ G). apply M.
  - rewrite (gd_pin _ _ _ G); [apply M|apply M|done|apply M].
Qed.

Lemma sched_settles kernel_ttbr0 ks b : mid ks → wp (maybe_switch kernel_ttbr0 b) (λ _ ks', sysok ks') ks.
Proof.
  intros M. pose proof (sy_kinv _ (md_inv _ M)) as K. destruct (ki_sched _ _ _ K) as (rq & wq & I).
  eapply wp_mono; [apply (maybe_switch_spec kernel_ttbr0 ks rq wq b I); [apply M|apply M|by apply mid_can_run]|].
  cbv beta. intros _ ks' [t S]. pose proof (sw_running _ _ _ _ _ _ S) as Rn. pose proof (sw_wake _ _ _ _ _ _ S) as W.
  assert (kinv (k_store ks')) as K' by (eapply kinv_wake_frame; [done|done|apply S]).
  assert (evolves (k_store ks) (k_store ks')) as E.
  { pose proof (shape_le_wake _ _ W) as L. split; [done| | | |].
    - split; [apply L| |apply L|apply L]. intros ch r i k _. by rewrite (wf_chans _ _ W).
    - intros h. apply cap_held_shrinks. intros x _. exists x. by rewrite (wf_slots _ _ W).
    - intros u. pose proof (wf_tcb _ _ W u) as Ef. unfold tcb_fixed in Ef. injection Ef as E1 E2 E3 E4 E5 E6.
      pose proof (sw_state _ _ _ _ _ _ S u) as Hs. cbv zeta in Hs. split; [congruence|congruence| | |apply L].
      + destruct Hs as [->|[[-> ->]|[-> ->]]]; done.
      + unfold active. destruct Hs as [->|[[-> ->]|[-> ->]]]; naive_solver.
    - intros ch _. by rewrite (wf_slots _ _ W), (wf_chans _ _ W). }
  split; [split|].
  - eapply sysinv_evolves; [apply M|done].
  - intros u Hu. rewrite (rn_cur _ _ Rn). f_equal. symmetry. by apply (rn_only _ _ Rn).
  - exists t. apply Rn.
  - intros u. rewrite (rn_cur _ _ Rn). intros [= <-]. by rewrite (rn_state _ _ Rn).
  - rewrite (wf_pinned _ _ W). apply M.
  - pose proof (sw_state _ _ _ _ _ _ S idle) as Hs. cbv zeta in Hs. pose proof (md_idle _ M) as Hi. destruct Hs as [->|[[_ ->]|[_ ->]]]; auto.
  - exists t. split; apply Rn.
Qed.
End machine.

(** ** Ways to be good *)
Lemma good_refl st t : sysinv st → t_state (tcbs st !!! t) = ThreadState.Running → good st t st.
Proof. intros I Ht. split; auto. by rewrite Ht. Qed.

Lemma good_shrinks st t st' :
  sysinv st → t_state (tcbs st !!! t) ≠ ThreadState.Runnable → t_state (tcbs st !!! t) ≠ ThreadState.BlockedNotif →
  kinv st' → shrinks st st' → good st t st'.
Proof.
  intros I Ht Ht' K S. pose proof (sh_thread _ _ S) as T. split.
  - eapply sysinv_evolves; [done|by apply evolves_shrinks].
  - intros u Hu. pose proof (tl_state _ _ _ (T u)) as Hs. destruct Hs as [[Hs|[_ Hs]]|[Hs _]]; congruence.
  - pose proof (tl_state _ _ _ (T t)) as Hs. destruct Hs as [[Hs|[Hs _]]|[Hs _]]; congruence.
  - intros u Hp _ Hr. pose proof (tl_state _ _ _ (T u)) as Hs. destruct Hs as [[Hs|[Hs _]]|[_ Hs]]; [done|destruct Hr; congruence|done].
  - apply (sl_pinned _ _ (sh_shape _ _ S)).
Qed.

Lemma good_trans st t st1 st2 : good st t st1 → good st1 t st2 → good st t st2.
Proof.
  intros G1 G2. split; [apply G2| |apply G2| |].
  - intros u Hu. by apply (gd_run _ _ _ G1), (gd_run _ _ _ G2).
  - intros u Hp Hne Hr. pose proof (gd_pin _ _ _ G1 u Hp Hne Hr) as E. rewrite (gd_pin _ _ _ G2); [done| |done|by rewrite E].
    by rewrite (gd_pinned _ _ _ G1).
  - by rewrite (gd_pinned _ _ _ G2), (gd_pinned _ _ _ G1).
Qed.

Lemma kinv_hw st f : kinv st → kinv (with_hw f st) ∧ shrinks st (with_hw f st).
Proof. intros K. apply kinv_irq_frame; [done| |]; [by split|]. intros i. apply (ki_irqs _ _ _ K). Qed.

(** With the run states as they were. *)
Lemma good_evolves st t st' :
  sysinv st → t_state (tcbs st !!! t) = ThreadState.Running → evolves st st' →
  (∀ u, thread_le (pinned st !!! u) (tcbs st !!! u) (tcbs st' !!! u)) → pinned st' = pinned st → good st t st'.
Proof.
  intros I Ht E T Hp. split; [by eapply sysinv_evolves| | | |done].
  - intros u Hu. pose proof (tl_state _ _ _ (T u)) as Hs. destruct Hs as [[Hs|[_ Hs]]|[Hs _]]; congruence.
  - pose proof (tl_state _ _ _ (T t)) as Hs. destruct Hs as [[Hs|[Hs _]]|[Hs _]]; congruence.
  - intros u Hn _ Hr. pose proof (tl_state _ _ _ (T u)) as Hs. destruct Hs as [[Hs|[Hs _]]|[_ Hs]]; [done|destruct Hr; congruence|done].
Qed.

Lemma good_same_tcbs st t st' :
  sysinv st → t_state (tcbs st !!! t) = ThreadState.Running → evolves st st' → tcbs st' = tcbs st → pinned st' = pinned st → good st t st'.
Proof. intros I Ht E Et Hp. apply good_evolves; try done. intros u. rewrite Et. apply thread_le_refl. Qed.

(** ** Arguments and user memory *)
Lemma with_store_id ks : with_store (λ _, k_store ks) ks = ks.
Proof. by destruct ks. Qed.

(** An operation that only reads the store. *)
Lemma wp_lift_gets {A : Type} ks (f : Store → A) Q : Q (f (k_store ks)) ks → wp (lift (gets f)) Q ks.
Proof. intros H. apply wp_lift. wp_step. by rewrite with_store_id. Qed.

Lemma wp_cap_of ks s Q : Q (cap (slots (k_store ks) !!! s)) ks → wp (cap_of s) Q ks.
Proof. intros H. unfold cap_of, slot. apply wp_lift. wp_step. by rewrite with_store_id. Qed.

Lemma wp_cspace_slot_ptr st cs i (Q : option SlotId → Store → Prop) :
  Q None st → (∀ s, cs_slots (cspaces st !!! cs) !! Z.to_nat i = Some s → Q (Some s) st) → wp (cspace_slot_ptr cs i) Q st.
Proof.
  intros H0 H1. unfold cspace_slot_ptr, cspace_slot. wp_step. case_decide as Hn; [done|].
  destruct (i <? num_slots (cspaces st !!! cs)); [|done]. destruct (cs_slots (cspaces st !!! cs) !! Z.to_nat i) eqn:E; [by apply H1|done].
Qed.

Section primitives.
Context (ks : KState) (t : ObjId).
Hypothesis Hcur : k_current ks = Some t.

Lemma wp_the_current Q : Q t ks → wp the_current Q ks.
Proof using Hcur. intros H. unfold the_current, current. wp_step. by rewrite Hcur. Qed.

(** A slot of the current thread's CSpace. *)
Lemma wp_cur_slot_in idx (Q : option SlotId → KState → Prop) :
  Q None ks → (∀ s cs i, at_place (k_store ks) (InCspace cs i) s → Q (Some s) ks) → wp (cur_slot idx) Q ks.
Proof using Hcur.
  intros H0 H1. unfold cur_slot, tcb_cspace. destruct (U32_MAX <? idx); [by wp_step|]. wp_step. apply wp_the_current. wp_step.
  apply wp_lift_gets. destruct (t_cspace (tcbs (k_store ks) !!! t)) as [cs|] eqn:Ec; [|by wp_step].
  apply wp_lift. apply wp_cspace_slot_ptr; rewrite with_store_id; [done|]. intros s Hs. apply (H1 s cs (Z.to_nat idx)).
  split; [|done]. right. by exists t.
Qed.

Lemma wp_cur_slot idx (Q : option SlotId → KState → Prop) :
  Q None ks → (∀ s, nameable (k_store ks) s → Q (Some s) ks) → wp (cur_slot idx) Q ks.
Proof using Hcur. intros H0 H1. apply wp_cur_slot_in; [done|]. intros s cs i Hs. apply H1. by exists (InCspace cs i). Qed.

(** The bytes of a range can be accessed. *)
Definition reachable (write : bool) (ptr len : Z) : Prop :=
  ∀ j, 0 ≤ j < len → match t_aspace (tcbs (k_store ks) !!! t) with
    | None => True
    | Some a => let o := aspaces (k_store ks) !!! a in page_usable (as_pool_base o) (pt_view o []) write (ptr + j)
    end.

Hypothesis I : sysinv (k_store ks).

Lemma mapped_page base pt va : 0 ≤ va → mapped base pt va = mapped base pt (va / PAGE * PAGE).
Proof.
  intros Hv. assert (∀ n, 12 ≤ n → Z.shiftr (va / PAGE * PAGE) n = Z.shiftr va n) as Hs.
  { intros n Hn. change PAGE with (2 ^ 12). rewrite <-Z.shiftr_div_pow2, <-Z.shiftl_mul_pow2 by lia.
    apply Z.bits_inj'. intros k Hk. rewrite !Z.shiftr_spec, Z.shiftl_spec, Z.shiftr_spec by lia. f_equal. lia. }
  unfold mapped, l1_index, l2_index, l3_index. by rewrite !Hs by lia.
Qed.

Lemma range_mapped_spec a write ptr len :
  t_aspace (tcbs (k_store ks) !!! t) = Some a → 0 ≤ ptr ≤ U64_MAX → 0 ≤ len →
  wp (range_mapped a ptr len write) (λ b st', st' = k_store ks ∧ (b = true → reachable write ptr len)) (k_store ks).
Proof using I.
  intros Ha Hp Hl. destruct (sp_aspace _ (ki_shape _ _ _ (sy_kinv _ I)) t a Ha) as [leaves W].
  set (o := aspaces (k_store ks) !!! a) in *. assert (pt_wf (as_pool_base o) (pt_view o (hw (k_store ks))) leaves) as W' by (by eapply pt_wf_hw).
  destruct (range_mapped_in_spec (as_pool_base o) (pt_view o (hw (k_store ks))) leaves write W' ptr len Hp Hl) as (b & E & Hb).
  unfold wp, range_mapped. fold o. rewrite E. split; [done|]. intros ->. destruct Hb as [Hb _]. specialize (Hb eq_refl).
  intros j Hj. rewrite Ha. cbv zeta. fold o. rewrite decide_False in Hb by lia. destruct Hb as (H1 & H2 & H3).
  assert (USER_VA_BASE = 2147483648 ∧ PAGE = 4096) as [EB EP] by done.
  pose proof (Z.div_mod (ptr + j) PAGE ltac:(done)). pose proof (Z.mod_pos_bound (ptr + j) PAGE ltac:(done)).
  assert (ptr / PAGE ≤ (ptr + j) / PAGE) by (apply Z.div_le_mono; lia).
  destruct (H3 ((ptr + j) / PAGE * PAGE)) as [U1 U2]; [nia|apply Z.mod_mul; done|].
  unfold page_usable. rewrite mapped_page by lia. done.
Qed.

Lemma wp_user_range_ok ptr len (Q : bool → KState → Prop) :
  0 ≤ ptr ≤ U64_MAX → 0 ≤ len → (∀ b, (b = true → reachable false ptr len) → Q b ks) → wp (user_range_ok ptr len) Q ks.
Proof using Hcur I.
  intros Hp Hl H. unfold user_range_ok, tcb_aspace. wp_step. apply wp_the_current. wp_step. apply wp_lift_gets.
  destruct (t_aspace (tcbs (k_store ks) !!! t)) as [a|] eqn:Ea.
  - apply wp_lift. eapply wp_mono; [by apply range_mapped_spec|]. cbv beta. intros b st' [-> Hb]. rewrite with_store_id. by apply H.
  - wp_step. apply H. intros _ j _. by rewrite Ea.
Qed.

Lemma wp_user_range_writable ptr len (Q : bool → KState → Prop) :
  0 ≤ ptr ≤ U64_MAX → 0 ≤ len → (∀ b, (b = true → reachable true ptr len) → Q b ks) → wp (user_range_writable ptr len) Q ks.
Proof using Hcur I.
  intros Hp Hl H. unfold user_range_writable, tcb_aspace. wp_step. apply wp_the_current. wp_step. apply wp_lift_gets.
  destruct (t_aspace (tcbs (k_store ks) !!! t)) as [a|] eqn:Ea.
  - apply wp_lift. eapply wp_mono; [by apply range_mapped_spec|]. cbv beta. intros b st' [-> Hb]. rewrite with_store_id. by apply H.
  - apply wp_user_range_ok; [done|done|]. intros b _. apply H. intros _ j _. by rewrite Ea.
Qed.

Lemma wp_user_pa write va (Q : Z → KState → Prop) : reachable write va 1 → (∀ pa, Q pa ks) → wp (user_pa write va) Q ks.
Proof using Hcur.
  intros Hr H. unfold user_pa, tcb_aspace. wp_step. apply wp_the_current. wp_step. apply wp_lift_gets.
  specialize (Hr 0 ltac:(lia)). destruct (t_aspace (tcbs (k_store ks) !!! t)) as [a|]; [|by wp_step]. wp_step.
  rewrite Z.add_0_r in Hr. destruct Hr as [H1 H2].
  set (e := mapped _ _ va) in *. rewrite (proj2 (Z.eqb_neq e 0) H1). cbn [orb].
  destruct write; cbn [andb]; [rewrite (proj2 (Z.eqb_eq _ _) (H2 eq_refl)); cbn [negb]|]; wp_step; apply H.
Qed.

Lemma reachable_byte write ptr len j : reachable write ptr len → 0 ≤ j < len → reachable write (ptr + j) 1.
Proof. intros H Hj i Hi. specialize (H (j + i) ltac:(lia)). by rewrite Z.add_assoc in H. Qed.

Lemma reachable_tail write ptr len : reachable write ptr len → reachable write (ptr + 1) (len - 1).
Proof. intros H j Hj. specialize (H (1 + j) ltac:(lia)). by rewrite Z.add_assoc in H. Qed.

Lemma wp_user_read ptr n (Q : list Z → KState → Prop) :
  reachable false ptr (Z.of_nat n) → (∀ l, length l = n → Q l ks) → wp (user_read ptr n) Q ks.
Proof using Hcur.
  revert ptr Q. induction n as [|n IH]; intros ptr Q Hr H; cbn [user_read]; [wp_step; by apply H|]. wp_step. apply wp_user_pa.
  { rewrite <-(Z.add_0_r ptr). eapply reachable_byte; [done|lia]. }
  intros pa. wp_step. apply IH.
  { replace (Z.of_nat n) with (Z.of_nat (S n) - 1) by lia. by apply reachable_tail. }
  intros l Hl. wp_step. apply H. cbn. by rewrite Hl.
Qed.
End primitives.

Lemma reachable_ext ks ks' t write ptr len :
  k_store ks' = k_store ks → reachable ks t write ptr len → reachable ks' t write ptr len.
Proof. intros E H j Hj. rewrite E. by apply H. Qed.

Lemma wp_user_write ks t ptr l (Q : unit → KState → Prop) :
  k_current ks = Some t → reachable ks t true ptr (Z.of_nat (length l)) → (∀ m, Q tt (with_mem m ks)) → wp (user_write ptr l) Q ks.
Proof.
  revert ks ptr Q. induction l as [|b l IH]; intros ks ptr Q Hc Hr H; cbn [user_write].
  { wp_step. specialize (H (λ m, m)). by destruct ks. }
  wp_step. apply (wp_user_pa ks t Hc).
  { rewrite <-(Z.add_0_r ptr). eapply reachable_byte; [done|cbn; lia]. }
  intros pa. wp_step. apply IH; [done| |].
  - replace (Z.of_nat (length l)) with (Z.of_nat (length (b :: l)) - 1) by (cbn; lia). eapply reachable_ext; [|by apply reachable_tail]. done.
  - intros m. apply (H (λ m0, m (mem_write pa [b] m0))).
Qed.

(** The slots a capability list resolves to. *)
Definition resolved (st : Store) (full : bool) (l : list (option SlotId)) : Prop :=
  ∀ k s, l !! k = Some (Some s) → nameable st s ∧ (full = true → occupied st s).

Lemma wp_resolve_loop ks t ptr full i n (Q : result (list (option SlotId)) Z → KState → Prop) :
  k_current ks = Some t → reachable ks t false (ptr + 4 * Z.of_nat i) (4 * Z.of_nat n) →
  (∀ e, Q (Err e) ks) → (∀ l, length l = n → resolved (k_store ks) full l → Q (Ok l) ks) → wp (resolve_loop ptr full i n) Q ks.
Proof.
  intros Hc. revert i Q. induction n as [|n IH]; intros i Q Hr He Ho; cbn [resolve_loop]; [wp_step; apply Ho; [done|]; by intros k s|].
  unfold user_read_u32. wp_step. apply (wp_user_read ks t Hc).
  { intros j Hj. apply Hr. lia. }
  intros l4 _. wp_step.
  assert (reachable ks t false (ptr + 4 * Z.of_nat (S i)) (4 * Z.of_nat n)) as Hr'.
  { intros j Hj. specialize (Hr (4 + j) ltac:(lia)). replace (ptr + 4 * Z.of_nat (S i) + j) with (ptr + 4 * Z.of_nat i + (4 + j)) by lia. done. }
  assert (∀ x l, length l = n → resolved (k_store ks) full l →
    (∀ s, x = Some s → nameable (k_store ks) s ∧ (full = true → occupied (k_store ks) s)) → Q (Ok (x :: l)) ks) as Hcons.
  { intros x l Hl R Hx. apply Ho; [cbn; by rewrite Hl|]. intros [|k] s; cbn; [intros [= ->]; by apply Hx|apply R]. }
  destruct (le_value l4 =? SLOT_NONE).
  - wp_step. apply IH; [done|intros e; by wp_step|]. intros l Hl R. wp_step. by apply Hcons.
  - wp_step. apply (wp_cur_slot ks t Hc); [wp_step; apply He|]. intros s Hs. wp_step. apply wp_cap_of.
    destruct full; cbn [andb].
    + destruct (cap_is_empty (cap (slots (k_store ks) !!! s))) eqn:Ee; [wp_step; apply He|]. wp_step.
      apply IH; [done|intros e; by wp_step|]. intros l Hl R. wp_step. apply Hcons; [done|done|]. by intros s' [= <-].
    + wp_step. apply IH; [done|intros e; by wp_step|]. intros l Hl R. wp_step. apply Hcons; [done|done|]. by intros s' [= <-].
Qed.

Lemma wp_resolve_cap_list ks t ptr full (Q : result (list (option SlotId)) Z → KState → Prop) :
  k_current ks = Some t → sysinv (k_store ks) → 0 ≤ ptr ≤ U64_MAX →
  (∀ e, Q (Err e) ks) → (∀ l, length l = MSG_CAPS → resolved (k_store ks) full l →
    resolve_cap_list ptr full ks = Ret (Ok l, ks) → Q (Ok l) ks) →
  wp (resolve_cap_list ptr full) Q ks.
Proof.
  intros Hc I Hp He Ho. assert (wp (resolve_cap_list ptr full)
    (λ r ks', ks' = ks ∧ match r with Err _ => True | Ok l => length l = MSG_CAPS ∧ resolved (k_store ks) full l end) ks) as H.
  { unfold resolve_cap_list. destruct (ptr =? 0).
    { wp_step. split; [done|]. split; [done|]. intros k s Hk. apply lookup_replicate in Hk as [Hk _]. done. }
    wp_step. apply (wp_user_range_ok ks t Hc I); [done|done|]. intros b Hb. destruct b; cbn [negb orb]; [|by wp_step].
    destruct (negb (ptr mod 4 =? 0)); [by wp_step|]. apply (wp_resolve_loop ks t); [done| |done|done].
    rewrite Z.add_0_r. specialize (Hb eq_refl). unfold MSG_CAPS in *. by replace (4 * Z.of_nat 4) with (Z.of_nat 4 * 4) by lia. }
  apply wp_inv in H as (r & ks' & E & -> & H). eapply wp_of_eq; [exact E|]. destruct r as [l|e]; [|apply He].
  destruct H as [Hl R]. by apply Ho.
Qed.

(** ** The arms *)

(** No counter is about to overflow. *)
Record room (st : Store) : Prop := {
  rm_counts : counts_u32 st;
  rm_refs o : refs st !!! o < U32_MAX - 1;
}.

Section arms_spec.
Context (L : Layout) (HL : layout_ok L) (k0 k1 kernel_ttbr0 : Z) (debug_log : bool).
Context (idle : ObjId) (ks : KState) (t : ObjId).
Hypothesis M : mid idle ks.
Hypothesis Hc : k_current ks = Some t.
Hypothesis Ht : t_state (tcbs (k_store ks) !!! t) = ThreadState.Running.
Hypothesis Hidle : t ≠ idle.
Hypothesis Hroom : room (k_store ks).

Let st := k_store ks.
Let I : sysinv st := md_inv _ _ M.
Let Kst : kinv st := sy_kinv _ I.
Let post : option Z → KState → Prop := λ _ ks', mid idle ks'.

Lemma wp_fail e : wp (fail e) post ks.
Proof using M. unfold fail. wp_step. exact M. Qed.

(** A store operation followed by something that keeps the scheduler's state. *)
Lemma wp_op {A : Type} (m : Store → outcome (A * Store)) (k : A → KM (option Z)) (P : A → Store → Prop) :
  wp m (λ a st', good st t st' ∧ P a st') st →
  (∀ a st', P a st' → mid idle (with_store (λ _, st') ks) → wp (k a) post (with_store (λ _, st') ks)) →
  wp (lift m ≫= k) post ks.
Proof using M Hc Hidle.
  intros Hm Hk. rewrite wp_bind. apply wp_lift. eapply wp_mono; [exact Hm|]. cbv beta. intros a st' [G HP]. apply Hk; [done|].
  by eapply (mid_good idle ks).
Qed.

Lemma wp_op_end {A : Type} (m : Store → outcome (A * Store)) (v : A → Z) :
  wp m (λ _ st', good st t st') st → wp (lift m ≫= λ a, ok (v a)) post ks.
Proof using M Hc Hidle.
  intros Hm. apply (wp_op m _ (λ _ _, True)); [eapply wp_mono; [exact Hm|done]|].
  intros a st' _ M'. unfold ok. wp_step. exact M'.
Qed.

Lemma good_id : good st t st.
Proof using M Ht. by apply good_refl. Qed.

Lemma good_shrunk st' : kinv st' → shrinks st st' → good st t st'.
Proof using M Ht. intros K' S. apply good_shrinks; [exact I|unfold st; by rewrite Ht..|done|done]. Qed.

Lemma nameable_held s h : holder_of (kind (cap (slots st !!! s))) = Some h → cap_held st h.
Proof using Type. intros E. by exists s. Qed.

(** *** Capabilities *)
Lemma cap_copy_mid src dst mask prio : wp (sys_cap_copy src dst mask prio) post ks.
Proof using All.
  unfold sys_cap_copy. rewrite wp_bind. apply (wp_cur_slot ks t Hc).
  - rewrite wp_bind. apply (wp_cur_slot ks t Hc); [apply wp_fail|]. intros d _. apply wp_fail.
  - intros s Hs. rewrite wp_bind. apply (wp_cur_slot ks t Hc); [apply wp_fail|]. intros d Hd. rewrite wp_bind.
    destruct (ki_cdt _ _ _ Kst) as [kids R]. destruct (ancestor_or_self_revoking_spec st kids R s) as (b & Hb & _).
    apply wp_lift. eapply wp_of_eq; [exact Hb|]. fold st. unfold st. rewrite with_store_id. destruct b; [apply wp_fail|].
    apply (wp_op _ _ (λ _ _, True)).
    + eapply wp_mono; [apply (derive_kinv st s d _ _ Kst (rm_counts _ Hroom))|]. cbv beta. intros r st' H. split; [|done].
      destruct r; [|destruct H as [-> _]; apply good_id]. destruct H as (_ & K' & D).
      apply good_same_tcbs; [exact I|done| |apply D|apply (sl_pinned _ _ (dv_shape _ _ _ _ _ D))].
      by eapply (derive_evolves st I s d _ st' _ _ eq_refl).
    + intros r st' _ M'. destruct r; unfold ok, fail; wp_step; exact M'.
Qed.

Lemma cap_delete_mid slot : wp (sys_cap_delete slot) post ks.
Proof using All.
  unfold sys_cap_delete. rewrite wp_bind. apply (wp_cur_slot ks t Hc); [apply wp_fail|]. intros s _. rewrite wp_bind. apply wp_cap_of.
  destruct (cap_is_empty (cap (slots (k_store ks) !!! s))) eqn:Ee; [apply wp_fail|].
  apply (wp_op_end (delete s) (λ _, 0)). eapply wp_mono; [by apply (delete_kinv st s Kst)|]. cbv beta. intros _ st' (K' & S & _). by apply good_shrunk.
Qed.

Lemma cap_revoke_mid slot : wp (sys_cap_revoke slot) post ks.
Proof using All.
  unfold sys_cap_revoke. rewrite wp_bind. apply (wp_cur_slot ks t Hc); [apply wp_fail|]. intros s _. rewrite wp_bind. apply wp_cap_of.
  destruct (cap_is_empty (cap (slots (k_store ks) !!! s))); [apply wp_fail|]. apply (wp_op _ _ (λ _ _, True)).
  - eapply wp_mono; [apply (revoke_step_kinv st s REVOKE_QUANTUM Kst)|]. cbv beta. intros r st' (K' & S & _). split; [by apply good_shrunk|done].
  - intros r st' _ M'. destruct r; unfold ok, fail; wp_step; exact M'.
Qed.

Lemma cap_install_mid cs src dst_index : wp (sys_cap_install cs src dst_index) post ks.
Proof using All.
  unfold sys_cap_install. rewrite wp_bind. apply (wp_cur_slot ks t Hc).
  - rewrite wp_bind. apply (wp_cur_slot ks t Hc); [apply wp_fail|]. intros s _. apply wp_fail.
  - intros c Hcn. rewrite wp_bind. apply (wp_cur_slot ks t Hc); [apply wp_fail|]. intros s _. rewrite wp_bind. apply wp_cap_of.
    destruct (cap_is_empty (cap (slots (k_store ks) !!! s))) eqn:Es; [apply wp_fail|]. rewrite wp_bind. apply wp_cap_of.
    destruct (kind (cap (slots (k_store ks) !!! c))) as [| | | |cs'| | | | |] eqn:Ek; try apply wp_fail.
    destruct (U32_MAX <? dst_index); [apply wp_fail|]. rewrite wp_bind. apply wp_lift.
    apply wp_cspace_slot_ptr; rewrite with_store_id; [apply wp_fail|]. intros d Hd. rewrite wp_bind. apply wp_cap_of.
    destruct (cap_is_empty (cap (slots (k_store ks) !!! d))) eqn:Ed; cbn [negb]; [|apply wp_fail].
    assert (nameable st d) as Hdn.
    { exists (InCspace cs' (Z.to_nat dst_index)). split; [|done]. split; [|exact Hd]. left. exists c. unfold st. by rewrite Ek. }
    apply (wp_op_end (slot_move s d) (λ _, 0)). assert (s ≠ d) as Hsd by (intros ->; congruence).
    eapply wp_mono; [apply (slot_move_kinv st no_refs no_ends s d Kst Hsd); unfold occupied, st; congruence|].
    cbv beta. intros _ st' (m & -> & Mv & K' & _). apply good_same_tcbs; try done. by eapply (move_evolves st I s d).
Qed.

(** *** Notifications, timers, interrupts *)
Lemma signal_target_mid ns (op : ObjId → K unit) :
  (∀ n, wp (op n) (λ _ st', good st t st') st) → wp (signal_target ns (λ n, lift (op n);; ok 0)) post ks.
Proof using All.
  intros Hop. unfold signal_target. rewrite wp_bind. apply wp_cap_of.
  destruct (kind (cap (slots (k_store ks) !!! ns))) as [| | | | | | |n| |]; try apply wp_fail.
  destruct (negb _); [apply wp_fail|]. apply (wp_op_end (op n) (λ _, 0)). apply Hop.
Qed.

Lemma notif_signal_mid slot bits : wp (sys_notif_signal slot bits) post ks.
Proof using All.
  unfold sys_notif_signal. rewrite wp_bind. apply (wp_cur_slot ks t Hc); [apply wp_fail|]. intros s _.
  apply (signal_target_mid s (λ n, signal n bits)). intros n.
  eapply wp_mono; [apply (signal_kinv st no_refs no_ends n bits Kst); done|]. cbv beta. intros _ st' (K' & S & _). by apply good_shrunk.
Qed.

Lemma room_ref o : refs st !!! o < U32_MAX.
Proof using Hroom. pose proof (rm_refs _ Hroom o). unfold st. lia. Qed.

Lemma chan_bind_mid chan event notif bits : (event < 3)%nat → wp (sys_chan_bind chan event notif bits) post ks.
Proof using All.
  intros Hev. unfold sys_chan_bind. rewrite wp_bind. apply (wp_cur_slot ks t Hc).
  - rewrite wp_bind. apply (wp_cur_slot ks t Hc); [apply wp_fail|]. intros s _. apply wp_fail.
  - intros s _. rewrite wp_bind. apply (wp_cur_slot ks t Hc); [apply wp_fail|]. intros ns _. rewrite wp_bind. apply wp_cap_of.
    destruct (kind (cap (slots (k_store ks) !!! s))) as [| | | | | |ch e| | |] eqn:Ek; try apply wp_fail.
    apply (signal_target_mid ns (λ n, bind ch e event (Some n) bits)). intros n.
    pose proof (sp_cap _ (ki_shape _ _ _ Kst) s) as Hok. unfold cap_ok, st in Hok. rewrite Ek in Hok.
    eapply wp_mono; [apply (bind_kinv st no_refs no_ends ch e event (Some n) bits); [done|exact Hok|exact Kst|done|]|].
    + intros n' [= <-]. apply room_ref.
    + cbv beta. intros _ st' (K' & S & _). by apply good_shrunk.
Qed.

Lemma timer_arm_mid now timer notif bits delta : wp (sys_timer_arm now timer notif bits delta) post ks.
Proof using All.
  unfold sys_timer_arm. rewrite wp_bind. apply (wp_cur_slot ks t Hc).
  - rewrite wp_bind. apply (wp_cur_slot ks t Hc); [apply wp_fail|]. intros s _. apply wp_fail.
  - intros s _. rewrite wp_bind. apply (wp_cur_slot ks t Hc); [apply wp_fail|]. intros ns _. rewrite wp_bind. apply wp_cap_of.
    destruct (kind (cap (slots (k_store ks) !!! s))) as [| | | | | | | |tm|]; try apply wp_fail.
    apply (signal_target_mid ns (λ n, arm tm n bits (saturating_add now delta))). intros n.
    eapply wp_mono; [apply (arm_kinv st tm n _ _ Kst), room_ref|]. cbv beta. intros _ st' (K' & S & _). by apply good_shrunk.
Qed.

Lemma irq_bind_mid irq notif bits : wp (sys_irq_bind irq notif bits) post ks.
Proof using All.
  unfold sys_irq_bind. rewrite wp_bind. apply (wp_cur_slot ks t Hc).
  - rewrite wp_bind. apply (wp_cur_slot ks t Hc); [apply wp_fail|]. intros s _. apply wp_fail.
  - intros s _. rewrite wp_bind. apply (wp_cur_slot ks t Hc); [apply wp_fail|]. intros ns _. rewrite wp_bind. apply wp_cap_of.
    destruct (kind (cap (slots (k_store ks) !!! s))) as [| | | | | | | | |i]; try apply wp_fail.
    apply (signal_target_mid ns (λ n, irq_bind i n bits)). intros n.
    eapply wp_mono; [apply (irq_bind_kinv st i n bits Kst), room_ref|]. cbv beta. intros _ st' (K' & S & _). by apply good_shrunk.
Qed.

Lemma irq_ack_mid irq : wp (sys_irq_ack irq) post ks.
Proof using All.
  unfold sys_irq_ack. rewrite wp_bind. apply (wp_cur_slot ks t Hc); [apply wp_fail|]. intros s _. rewrite wp_bind. apply wp_cap_of.
  destruct (kind (cap (slots (k_store ks) !!! s))) as [| | | | | | | | |i]; try apply wp_fail.
  apply (wp_op_end (ack i) (λ _, 0)). eapply wp_mono; [apply (ack_kinv st i Kst)|]. cbv beta. intros _ st' (K' & S & _). by apply good_shrunk.
Qed.

Lemma notif_wait_mid slot : wp (sys_notif_wait slot) post ks.
Proof using All.
  unfold sys_notif_wait. rewrite wp_bind. apply (wp_cur_slot ks t Hc); [apply wp_fail|]. intros s _. rewrite wp_bind. apply wp_cap_of.
  destruct (kind (cap (slots (k_store ks) !!! s))) as [| | | | | | |n| |]; try apply wp_fail. destruct (negb _); [apply wp_fail|].
  rewrite wp_bind. apply (wp_the_current ks t Hc). apply (wp_op _ _ (λ _ _, True)).
  - eapply wp_mono; [apply (wait_kinv st n t Kst Ht), room_ref|]. cbv beta. intros r st' (K' & W & _ & Ho & H). split; [|done].
    assert (t_state (tcbs st' !!! t) = ThreadState.Running ∨ t_state (tcbs st' !!! t) = ThreadState.BlockedNotif) as Hs.
    { destruct r; [left; destruct H as (_ & _ & -> & _); exact Ht|right; apply H]. }
    split.
    + eapply sysinv_evolves; [exact I|]. apply (wake_evolves st I st' t); [done|done|done|left; exact Ht|destruct Hs; congruence].
    + intros u Hu. destruct (decide (u = t)) as [->|Hne]; [exact Ht|]. by rewrite <-Ho.
    + destruct Hs; congruence.
    + intros u _ Hne _. by apply Ho.
    + apply W.
  - intros r st' _ M'. destruct r; unfold ok; wp_step; exact M'.
Qed.

(** *** Channels *)

(** The four slots a caller names are different. *)
Definition distinct_slots (l : list (option SlotId)) : Prop :=
  ∀ c c' s, l !! c = Some (Some s) → l !! c' = Some (Some s) → c = c'.

Lemma chan_send_mid chan buf len caps :
  0 ≤ buf ≤ U64_MAX → 0 ≤ len ≤ MSG_PAYLOAD → 0 ≤ caps ≤ U64_MAX →
  (∀ l, resolve_cap_list caps true ks = Ret (Ok l, ks) → distinct_slots l) →
  wp (sys_chan_send chan buf len caps) post ks.
Proof using All.
  intros Hb Hl Hcp Hdist. unfold sys_chan_send. rewrite wp_bind. apply (wp_cur_slot ks t Hc); [apply wp_fail|]. intros s _.
  rewrite wp_bind. apply wp_cap_of. destruct (kind (cap (slots (k_store ks) !!! s))) as [| | | | | |ch e| | |] eqn:Ek; try apply wp_fail.
  destruct (negb _); [apply wp_fail|]. rewrite wp_bind. apply (wp_user_range_ok ks t Hc I); [done|lia|]. intros b Hr. destruct b; [|apply wp_fail].
  cbn [negb]. rewrite wp_bind. apply (wp_user_read ks t Hc); [rewrite Z2Nat.id by lia; by apply Hr|]. intros data Hdata.
  rewrite wp_bind. apply (wp_resolve_cap_list ks t); [done|exact I|done|intros; apply wp_fail|]. intros l Hlen Res El.
  assert (live st (HChan ch)) as Hlive by (left; exists s; unfold st; by rewrite Ek).
  assert (sendable st ch l) as Sd.
  { split; [done| |by apply Hdist]. intros k x Hx. destruct (Res k x Hx) as [Hn Ho]. split; [by apply Ho|]. by eapply nameable_not_ring. }
  apply (wp_op _ _ (λ _ _, True)).
  - eapply wp_mono; [apply (send_spec st ch e data l Kst (sy_ring _ I ch Hlive) Sd); rewrite Hdata; lia|]. cbv beta. intros r st' H. split; [|done].
    destruct r as [u|err]; [|destruct err; try done; destruct H as [-> _]; apply good_id].
    apply good_evolves; [exact I|done| |apply H|apply H]. eapply (send_evolves st I ch); [done|exact H|]. intros k x Hx. by apply (Res k x).
  - intros r st' _ M'. destruct r as [u|[]]; unfold ok, fail; wp_step; exact M'.
Qed.

Lemma chan_recv_mid chan buf dests :
  0 ≤ buf ≤ U64_MAX → 0 ≤ dests ≤ U64_MAX →
  (∀ l, resolve_cap_list dests false ks = Ret (Ok l, ks) → distinct_slots l) →
  wp (sys_chan_recv chan buf dests) post ks.
Proof using All.
  intros Hb Hcp Hdist. unfold sys_chan_recv. rewrite wp_bind. apply (wp_cur_slot ks t Hc); [apply wp_fail|]. intros s _.
  rewrite wp_bind. apply wp_cap_of. destruct (kind (cap (slots (k_store ks) !!! s))) as [| | | | | |ch e| | |] eqn:Ek; try apply wp_fail.
  destruct (negb _); [apply wp_fail|]. rewrite wp_bind. apply (wp_user_range_ok ks t Hc I); [done|done|]. intros b _. destruct b; [|apply wp_fail].
  cbn [negb]. rewrite wp_bind. apply (wp_user_range_writable ks t Hc I); [done|done|]. intros b Hw. destruct b; [|apply wp_fail].
  cbn [negb]. rewrite wp_bind. apply (wp_resolve_cap_list ks t); [done|exact I|done|intros; apply wp_fail|]. intros l Hlen Res El.
  assert (live st (HChan ch)) as Hlive by (left; exists s; unfold st; by rewrite Ek).
  assert (receivable st ch l) as Rc.
  { split; [done| |by apply Hdist]. intros k x Hx. destruct (Res k x Hx) as [Hn _]. by eapply nameable_not_ring. }
  apply (wp_op _ _ (λ r st', match r with
    | (Ok (len, _), buf') => 0 ≤ len ≤ MSG_PAYLOAD ∧ t_aspace (tcbs st' !!! t) = t_aspace (tcbs st !!! t) ∧ aspaces st' = aspaces st
    | _ => True end)).
  - eapply wp_mono; [apply (recv_spec st ch e _ l Kst (sy_ring _ I ch Hlive) Rc); by rewrite length_replicate|].
    cbv beta. intros [[[len mask]|err] buf'] st' H; [|split; [|done]; destruct err; try done; destruct H as [-> _]; apply good_id].
    destruct H as [msg H]. split; [|split].
    + apply good_evolves; [exact I|done| |apply H|apply H]. eapply (recv_evolves st I ch); [done|exact H|]. intros k x Hx. by apply (Res k x).
    + apply (rk_len _ _ _ _ _ _ _ _ _ _ H).
    + split; [|apply (rk_aspaces _ _ _ _ _ _ _ _ _ _ H)]. pose proof (rk_tcb _ _ _ _ _ _ _ _ _ _ H t) as E. by injection E as _ -> _ _ _ _.
  - intros [[[len mask]|[]] buf'] st' HP M'; unfold ok, fail; try (wp_step; exact M'). destruct HP as (Hlen' & Ea & Eas).
    rewrite wp_bind. apply (wp_user_write _ t); [done| |].
    + intros j Hj. cbn. rewrite Ea, Eas. apply Hw; [done|]. rewrite length_take in Hj. lia.
    + intros m. unfold set_reg. wp_step. eapply mid_ext; [exact M'|done|done].
Qed.

(** *** Memory *)
Lemma map_mid aspace frame va perms : 0 ≤ va → wp (sys_map aspace frame va perms) post ks.
Proof using All.
  intros Hva. unfold sys_map. rewrite wp_bind. apply (wp_cur_slot ks t Hc).
  - rewrite wp_bind. apply (wp_cur_slot ks t Hc); [apply wp_fail|]. intros s _. apply wp_fail.
  - intros a _. rewrite wp_bind. apply (wp_cur_slot ks t Hc); [apply wp_fail|]. intros f _. rewrite wp_bind. apply wp_cap_of.
    destruct (kind (cap (slots (k_store ks) !!! a))) as [| | |asp| | | | | |] eqn:Ea; try apply wp_fail.
    destruct (negb _); [apply wp_fail|]. rewrite wp_bind. apply wp_cap_of.
    destruct (kind (cap (slots (k_store ks) !!! f))) as [| |base pages m| | | | | | |] eqn:Ef; try apply wp_fail.
    destruct m; [apply wp_fail|]. destruct (_ && _); [apply wp_fail|]. destruct (_ && _); [apply wp_fail|].
    pose proof (sp_cap _ (ki_shape _ _ _ Kst) a) as Hok. unfold cap_ok, st in Hok. rewrite Ea in Hok.
    apply (wp_op _ _ (λ _ _, True)).
    + eapply wp_mono; [apply (map_frame_kinv st f asp va perms base pages Kst Ef (room_ref asp) Hok Hva)|].
      cbv beta zeta. intros r st' (K' & Ls & Et & Ho & H). split; [|done].
      apply good_same_tcbs; [exact I|done| |done|apply (sl_pinned _ _ Ls)].
      apply (relabel_evolves st I f); try done; [unfold occupied, cap_is_empty, st; by rewrite Ef|].
      destruct r; [destruct H as [-> _]; done|destruct H as [-> _]]. unfold st. by rewrite Ef.
    + intros r st' _ M'. destruct r; unfold ok, fail; wp_step; exact M'.
Qed.

Lemma frame_write_mid frame off buf len :
  0 ≤ off → 0 ≤ buf ≤ U64_MAX → 0 ≤ len → wp (sys_frame_write frame off buf len) post ks.
Proof using All.
  intros Ho Hb Hl. unfold sys_frame_write. rewrite wp_bind. apply (wp_cur_slot ks t Hc); [apply wp_fail|]. intros s _.
  rewrite wp_bind. apply wp_cap_of. destruct (kind (cap (slots (k_store ks) !!! s))) as [| |base pages m| | | | | | |] eqn:Ek; try apply wp_fail.
  destruct (negb _); [apply wp_fail|].
  pose proof (sp_cap _ (ki_shape _ _ _ Kst) s) as Hok. unfold cap_ok, st in Hok. rewrite Ek in Hok. unfold PAGE in Hok.
  rewrite wp_bind. apply wp_umul; [unfold U64_MAX; lia|]. destruct (match checked_add off len with Some e => _ | None => _ end); [apply wp_fail|].
  rewrite wp_bind. apply (wp_user_range_ok ks t Hc I); [done|done|]. intros b Hr. destruct b; [|apply wp_fail]. cbn [negb].
  rewrite wp_bind. apply (wp_user_read ks t Hc); [rewrite Z2Nat.id by lia; by apply Hr|]. intros data _. unfold ok. wp_step. by eapply mid_ext.
Qed.

Lemma frame_paddr_mid slot : wp (sys_frame_paddr slot) post ks.
Proof using All.
  unfold sys_frame_paddr. rewrite wp_bind. apply (wp_cur_slot ks t Hc); [apply wp_fail|]. intros s _. rewrite wp_bind. apply wp_cap_of.
  destruct (kind (cap (slots (k_store ks) !!! s))); try apply wp_fail. destruct (negb _); apply wp_fail.
Qed.

Lemma untyped_reset_mid slot : wp (sys_untyped_reset slot) post ks.
Proof using All.
  unfold sys_untyped_reset. rewrite wp_bind. apply (wp_cur_slot ks t Hc); [apply wp_fail|]. intros s _. rewrite wp_bind. apply wp_cap_of.
  destruct (cap_is_empty (cap (slots (k_store ks) !!! s))) eqn:Ee; [apply wp_fail|]. apply (wp_op _ _ (λ _ _, True)).
  - eapply wp_mono; [apply (reset_kinv st s Kst)|]. cbv beta. intros r st' H. split; [|done]. destruct r; [|destruct H as [-> _]; apply good_id].
    destruct H as (K' & _ & (base & size & w & _ & E) & Ho & Ls & Et).
    apply good_same_tcbs; [exact I|done| |done|apply (sl_pinned _ _ Ls)]. apply (relabel_evolves st I s); try done. by rewrite E.
  - intros r st' _ M'. destruct r as [|[]]; unfold ok, fail; wp_step; exact M'.
Qed.

Lemma aspace_topup_mid aspace ut pages : 0 ≤ pages → wp (sys_aspace_topup aspace ut pages) post ks.
Proof using All.
  intros Hp. unfold sys_aspace_topup. rewrite wp_bind. apply (wp_cur_slot ks t Hc).
  - rewrite wp_bind. apply (wp_cur_slot ks t Hc); [apply wp_fail|]. intros s _. apply wp_fail.
  - intros a _. rewrite wp_bind. apply (wp_cur_slot ks t Hc); [apply wp_fail|]. intros u _. rewrite wp_bind. apply wp_cap_of.
    destruct (kind (cap (slots (k_store ks) !!! a))) as [| | |asp| | | | | |] eqn:Ea; try apply wp_fail. destruct (negb _); [apply wp_fail|].
    pose proof (sp_cap _ (ki_shape _ _ _ Kst) a) as Hok. unfold cap_ok, st in Hok. rewrite Ea in Hok.
    apply (wp_op _ _ (λ _ _, True)); [|intros r st' _ M'; destruct r as [|[]]; unfold ok, fail; wp_step; exact M'].
    destruct (kind (cap (slots st !!! u))) as [|base size w| | | | | | | |] eqn:Eu;
      try (unfold aspace_topup, slot; wp_step; rewrite Eu; wp_step; split; [apply good_id|done]).
    eapply wp_mono; [apply (aspace_topup_kinv st u asp pages base size w Kst Eu Hok Hp)|]. cbv beta. intros r st' H. split; [|done].
    destruct r; [|subst; apply good_id]. destruct H as (K' & _ & E & _ & _ & _ & _ & Ho & Ls & Et).
    apply good_same_tcbs; [exact I|done| |done|apply (sl_pinned _ _ Ls)].
    apply (relabel_evolves st I u); try done; [unfold occupied, cap_is_empty; by rewrite Eu|by rewrite E].
Qed.

(** *** Threads *)
Lemma started_good t' cs oa st' :
  tcb_ok st t' → cap_held st (HCspace cs) → t_state (tcbs st !!! t') = ThreadState.Inactive → started st t' cs oa st' → good st t st'.
Proof using M Ht.
  intros Hok Hh Hi S. destruct (sd_tcb _ _ _ _ _ S) as (_ & _ & Es & _). unfold st in *.
  assert (t' ≠ t) as Hne by (intros ->; congruence). split.
  - eapply started_sysinv; [exact I|done|done|done].
  - intros u Hu. destruct (decide (u = t')) as [->|Hu']; [congruence|]. by rewrite <-(proj2 (sd_other _ _ _ _ _ S u Hu')).
  - rewrite (proj2 (sd_other _ _ _ _ _ S t (not_eq_sym Hne))). by rewrite Ht.
  - intros u _ _ Hr. apply (sd_other _ _ _ _ _ S). intros ->. destruct Hr; congruence.
  - apply S.
Qed.

(** The thread a start request names, with its new priority. *)
Lemma prioritised t' prio max_prio (Q : result unit unit → Store → Prop) :
  t_state (tcbs st !!! t') = ThreadState.Inactive → 0 ≤ prio < 32 → Q (Err tt) st →
  (let st1 := with_tcbs (λ m, <[t' := tcb_set_priority prio (m !!! t')]> m) st in kinv st1 → Q (Ok tt) st1) →
  wp (set_priority t' prio max_prio) Q st.
Proof using M.
  intros Hi Hp He Ho. eapply wp_mono; [apply (set_priority_kinv st t' prio max_prio Kst)|].
  - by rewrite Hi.
  - by apply inactive_waits_not.
  - done.
  - cbv beta. intros [[]|[]] st' H; [destruct H as (_ & K' & ->); by apply Ho|destruct H as [_ ->]; done].
Qed.

(** Two references are counted, the fields written, the thread queued. *)
Lemma start_good t' prio cs oa g rm :
  let st1 := with_tcbs (λ m, <[t' := tcb_set_priority prio (m !!! t')]> m) st in
  kinv st1 → tcb_ok st t' → cap_held st (HCspace cs) → t_state (tcbs st !!! t') = ThreadState.Inactive →
  (∀ o, sched_part (g o) = sched_part o ∧ t_bind_slots (g o) = t_bind_slots o ∧ t_bind_bits (g o) = t_bind_bits o) →
  (∀ o, t_cspace (g o) = Some cs) → (t_aspace (g (tcb_set_priority prio (tcbs st !!! t'))) = oa) → cspace_ok st cs →
  (∀ a, oa = Some a → aspace_wf (aspaces st !!! a)) →
  (∀ o, rm !!! o = refs st !!! o + ind (Some cs = Some o) + ind (oa = Some o)) →
  wp (ready_enqueue t') (λ _ st', good st t st') (with_tcbs (λ m, <[t' := g (m !!! t')]> m) (with_refs (λ _, rm) st1)).
Proof using M Ht.
  intros st1 K1 Hok Hh Hi Hg Hcs Has Hck Hak Hrm. destruct (sy_thread _ I t') as [Hf _]. destruct (Hf Hi) as [Hc0 Ha0].
  assert (tcbs st1 !!! t' = tcb_set_priority prio (tcbs st !!! t')) as E1 by (cbn; by lk).
  eapply wp_mono; [apply (enqueue_started st1 t' g rm cs oa K1); rewrite ?E1; try done|].
  cbv beta. intros _ st' [S1 S2 S3 S4 S5 S6 S7]. apply (started_good t' cs oa); try done. split; try done.
  - rewrite E1 in S6. exact S6.
  - intros u Hu. destruct (S7 u Hu) as [-> ->]. cbn. by lk.
Qed.

Lemma wp_take_ref o st1 (Q : unit → Store → Prop) :
  refs st1 !!! o < U32_MAX → Q tt (with_refs (<[o := refs st1 !!! o + 1]>) st1) → wp (take_ref o) Q st1.
Proof using Type. intros Hr H. unfold take_ref, obj_refs, set_obj_refs. wp_step. apply wp_uadd; [lia|]. wp_step. exact H. Qed.

Lemma thread_start_mid tcb cspace entry sp prio arg :
  0 ≤ entry ≤ U64_MAX → 0 ≤ sp ≤ U64_MAX → 0 ≤ prio < 32 → wp (sys_thread_start tcb cspace entry sp prio arg) post ks.
Proof using All.
  intros He Hs Hp. unfold sys_thread_start. rewrite wp_bind. apply (wp_cur_slot ks t Hc).
  - rewrite wp_bind. apply (wp_cur_slot ks t Hc); [apply wp_fail|]. intros s _. apply wp_fail.
  - intros ts _. rewrite wp_bind. apply (wp_cur_slot ks t Hc); [apply wp_fail|]. intros css _. rewrite wp_bind. apply wp_cap_of.
    destruct (kind (cap (slots (k_store ks) !!! ts))) as [| | | | |t' mp| | | |] eqn:Et; try apply wp_fail. rewrite wp_bind. apply wp_cap_of.
    destruct (kind (cap (slots (k_store ks) !!! css))) as [| | | |cs| | | | |] eqn:Ec; try apply wp_fail.
    pose proof (sp_cap _ (ki_shape _ _ _ Kst) ts) as Hok. unfold cap_ok, st in Hok. rewrite Et in Hok.
    pose proof (sp_cap _ (ki_shape _ _ _ Kst) css) as Hck. unfold cap_ok, st in Hck. rewrite Ec in Hck.
    rewrite wp_bind. unfold tcb_state. apply wp_lift_gets.
    destruct (decide (t_state (tcbs (k_store ks) !!! t') = ThreadState.Inactive)) as [Hi|Hi];
      [rewrite bool_decide_eq_true_2 by done|rewrite bool_decide_eq_false_2 by done; apply wp_fail]. cbn [negb].
    rewrite wp_bind. apply (wp_user_range_ok ks t Hc I); [done|done|]. intros b _. rewrite wp_bind.
    assert (∀ b2 : bool, wp (if negb b2 then fail ERR_FAULT else
      r ← lift (set_priority t' prio mp);
      match r with Err _ => fail ERR_PERM | Ok _ =>
        lift (take_ref cs);; lift (set_tcb_cspace t' (Some cs));; lift (upd_tcb t' (tcb_set_frame (start_frame entry sp arg)));;
        lift (ready_enqueue t');; ok 0 end) post ks) as Hgo; [|destruct b; [apply (wp_user_range_ok ks t Hc I); [done|done|]; intros b2 _|wp_step]; apply Hgo].
    intros b2. destruct b2; [|apply wp_fail]. cbn [negb]. rewrite wp_bind. apply wp_lift. fold st. apply prioritised; [done|done| |].
    { unfold st. rewrite with_store_id. apply wp_fail. }
    intros st1 K1. rewrite wp_bind. apply wp_lift. cbn [k_store with_store]. apply wp_take_ref; [apply room_ref|].
    rewrite wp_bind. apply wp_lift. unfold set_tcb_cspace, upd_tcb. wp_step. apply wp_lift. wp_step. apply wp_lift. cbn [k_store with_store].
    rewrite upd_tcb_twice.
    eapply wp_mono; [apply (start_good t' prio cs None (λ o, tcb_set_frame (start_frame entry sp arg) (tcb_set_cspace (Some cs) o))
      (<[cs := refs st1 !!! cs + 1]> (refs st1)) K1)|]; try done.
    + exists css. unfold st. by rewrite Ec.
    + apply (proj1 (sy_thread _ I t')). exact Hi.
    + intros o. rewrite (ind_false (None = Some o)) by done. change (refs st1) with (refs st).
      destruct (decide (o = cs)) as [->|Hne]; [rewrite lookup_total_insert_eq, ind_true by done; lia|].
      rewrite lookup_total_insert_ne, ind_false by congruence. lia.
    + cbv beta. intros _ st' G. unfold ok. wp_step. by eapply (mid_good idle ks).
Qed.

Lemma thread_start_as_mid tcb cspace aspace entry sp prio arg :
  0 ≤ entry ≤ U64_MAX → 0 ≤ prio < 32 → wp (sys_thread_start_as tcb cspace aspace entry sp prio arg) post ks.
Proof using All.
  intros He Hp. unfold sys_thread_start_as. rewrite wp_bind. apply (wp_cur_slot ks t Hc).
  { rewrite wp_bind. apply (wp_cur_slot ks t Hc); [|intros s _]; (rewrite wp_bind; apply (wp_cur_slot ks t Hc); [|intros s' _]); apply wp_fail. }
  intros ts _. rewrite wp_bind. apply (wp_cur_slot ks t Hc).
  { rewrite wp_bind. apply (wp_cur_slot ks t Hc); [|intros s' _]; apply wp_fail. }
  intros css _. rewrite wp_bind. apply (wp_cur_slot ks t Hc); [apply wp_fail|]. intros ass _. rewrite wp_bind. apply wp_cap_of.
  destruct (kind (cap (slots (k_store ks) !!! ts))) as [| | | | |t' mp| | | |] eqn:Et; try apply wp_fail. rewrite wp_bind. apply wp_cap_of.
  destruct (kind (cap (slots (k_store ks) !!! css))) as [| | | |cs| | | | |] eqn:Ec; try apply wp_fail. rewrite wp_bind. apply wp_cap_of.
  destruct (kind (cap (slots (k_store ks) !!! ass))) as [| | |asp| | | | | |] eqn:Ea; try apply wp_fail.
  pose proof (sp_cap _ (ki_shape _ _ _ Kst) ts) as Hok. unfold cap_ok, st in Hok. rewrite Et in Hok.
  pose proof (sp_cap _ (ki_shape _ _ _ Kst) css) as Hck. unfold cap_ok, st in Hck. rewrite Ec in Hck.
  pose proof (sp_cap _ (ki_shape _ _ _ Kst) ass) as Hak. unfold cap_ok, st in Hak. rewrite Ea in Hak.
  rewrite wp_bind. unfold tcb_state. apply wp_lift_gets.
  destruct (decide (t_state (tcbs (k_store ks) !!! t') = ThreadState.Inactive)) as [Hi|Hi];
    [rewrite bool_decide_eq_true_2 by done|rewrite bool_decide_eq_false_2 by done; apply wp_fail]. cbn [negb].
  rewrite wp_bind. apply wp_lift. fold st. apply prioritised; [done|done| |].
  { unfold st. rewrite with_store_id. apply wp_fail. }
  intros st1 K1. rewrite wp_bind. apply wp_lift. cbn [k_store with_store].
  assert (∃ b, range_mapped asp entry 4 false st1 = Ret (b, st1)) as [b Eb].
  { destruct Hak as [leaves W]. unfold range_mapped. change (aspaces st1) with (aspaces (k_store ks)). change (hw st1) with (hw (k_store ks)).
    set (o := aspaces (k_store ks) !!! asp) in *. assert (pt_wf (as_pool_base o) (pt_view o (hw (k_store ks))) leaves) as W' by (by eapply pt_wf_hw).
    destruct (range_mapped_in_spec (as_pool_base o) (pt_view o (hw (k_store ks))) leaves false W' entry 4 He ltac:(lia)) as (b & E & _).
    exists b. by rewrite E. }
  eapply wp_of_eq; [exact Eb|]. destruct b; cbn [negb].
  2:{ unfold fail. wp_step. eapply (mid_good idle ks); [done|done|done| |done]. apply good_shrunk; [exact K1|apply shrinks_priority]. }
  rewrite wp_bind. apply wp_lift. cbn [k_store with_store]. apply wp_take_ref; [apply room_ref|].
  rewrite wp_bind. apply wp_lift. cbn [k_store with_store]. apply wp_take_ref.
  { change (refs st1) with (refs (k_store ks)). cbn [refs with_refs]. pose proof (rm_refs _ Hroom cs). pose proof (rm_refs _ Hroom asp).
    change (refs st1) with (refs (k_store ks)). destruct (decide (asp = cs)) as [->|]; [rewrite lookup_total_insert_eq; lia|rewrite lookup_total_insert_ne by congruence; lia]. }
  rewrite wp_bind. apply wp_lift. unfold set_tcb_cspace, set_tcb_aspace, upd_tcb. wp_step. apply wp_lift. wp_step. apply wp_lift. wp_step.
  apply wp_lift. cbn [k_store with_store]. 
  rewrite (upd_tcb_twice t' (tcb_set_cspace (Some cs)) (tcb_set_aspace (Some asp))).
  rewrite (upd_tcb_twice t' (λ o, tcb_set_aspace (Some asp) (tcb_set_cspace (Some cs) o))).
  set (rm := <[asp := (<[cs := refs st1 !!! cs + 1]> (refs st1)) !!! asp + 1]> (<[cs := refs st1 !!! cs + 1]> (refs st1))).
  eapply wp_mono; [apply (start_good t' prio cs (Some asp) (λ o, tcb_set_frame (start_frame entry sp arg) (tcb_set_aspace (Some asp) (tcb_set_cspace (Some cs) o)))
    rm K1)|]; try done.
  - exists css. unfold st. by rewrite Ec.
  - by intros a [= <-].
  - intros o. unfold rm. change (refs st1) with (refs st). rewrite (lookup_total_insert _ asp). destruct (decide (asp = o)) as [->|Hne].
    + rewrite (ind_true (Some o = Some o)) by done. destruct (decide (cs = o)) as [->|Hne].
      * rewrite lookup_total_insert_eq, ind_true by done. lia.
      * rewrite lookup_total_insert_ne, ind_false by congruence. lia.
    + rewrite (ind_false (Some asp = Some o)) by congruence. destruct (decide (cs = o)) as [->|Hne'].
      * rewrite lookup_total_insert_eq, ind_true by done. lia.
      * rewrite lookup_total_insert_ne, ind_false by congruence. lia.
  - cbv beta. intros _ st' G. unfold ok. wp_step. by eapply (mid_good idle ks).
Qed.

Lemma thread_bind_mid tcb which notif bits : (which < 2)%nat → wp (sys_thread_bind tcb which notif bits) post ks.
Proof using All.
  intros Hw. unfold sys_thread_bind. rewrite wp_bind. apply (wp_cur_slot ks t Hc); [apply wp_fail|]. intros ts _.
  rewrite wp_bind. apply wp_cap_of. destruct (kind (cap (slots (k_store ks) !!! ts))) as [| | | | |t' mp| | | |] eqn:Et; try apply wp_fail.
  destruct (negb _); [apply wp_fail|].
  pose proof (sp_cap _ (ki_shape _ _ _ Kst) ts) as Hok. unfold cap_ok, st in Hok. rewrite Et in Hok.
  assert (cap_held st (HTcb t')) as Hh by (exists ts; unfold st; by rewrite Et).
  destruct (lookup_lt_is_Some_2 (t_bind_slots (tcbs st !!! t')) which) as [s Hs]; [destruct Hok as [E _]; unfold st; by rewrite E|].
  assert (∀ src, src ≠ Some s → wp (thread_bind delete t' which src bits) (λ _ st', good st t st') st) as Hb.
  { intros src Hne. eapply wp_mono; [by apply (thread_bind_evolves st t' which src bits s)|]. cbv beta. intros _ st' (E & Hp & Hl).
    apply good_evolves; [exact I|done|done|done|done]. }
  destruct (notif =? SLOT_NONE); [apply (wp_op_end (thread_bind delete t' which None bits) (λ _, 0)); by apply Hb|].
  rewrite wp_bind. apply (wp_cur_slot_in ks t Hc); [apply wp_fail|]. intros ns cs i Hns.
  unfold signal_target. rewrite wp_bind. apply wp_cap_of. destruct (kind (cap (slots (k_store ks) !!! ns))) as [| | | | | | |n| |] eqn:En; try apply wp_fail.
  destruct (negb _); [apply wp_fail|].
  apply (wp_op_end (thread_bind delete t' which (Some ns) bits) (λ _, 0)).
  apply Hb. intros [= ->]. assert (at_place st (InBind t' which) s) as Hq by (split; [by left|done]).
  pose proof (sy_arena _ I _ _ _ Hns Hq). done.
Qed.

Lemma read_report_mid tcb : wp (sys_read_report tcb) post ks.
Proof using All.
  unfold sys_read_report. rewrite wp_bind. apply (wp_cur_slot ks t Hc); [apply wp_fail|]. intros s _. rewrite wp_bind. apply wp_cap_of.
  destruct (kind (cap (slots (k_store ks) !!! s))); try apply wp_fail. destruct (negb _); [apply wp_fail|].
  rewrite wp_bind. unfold tcb_report. apply wp_lift_gets. destruct (report_words _) as [[code v1] v2]. unfold set_reg, ok. wp_step. by eapply mid_ext.
Qed.

(** The current thread stops with a report. *)
Lemma terminal_good s r :
  s = ThreadState.Halted ∨ s = ThreadState.Faulted → r ≠ Report.Running →
  wp (set_tcb_state t s;; report_terminal t r) (λ _ st', good st t st') st.
Proof using M Ht.
  intros Hs Hr. unfold set_tcb_state, upd_tcb. wp_step. pose proof (stop_evolves st t s I Ht Hs) as E. set (st1 := with_tcbs _ st) in *.
  pose proof (sysinv_evolves _ _ I E) as I1.
  assert (t_state (tcbs st1 !!! t) = s) as Es by (cbn; by lk).
  assert (good st t st1) as G1.
  { split; [done| | | |done].
    - intros u. cbn. destruct (decide (u = t)) as [->|]; lk; [by intros _|done].
    - rewrite Es. destruct Hs; congruence.
    - intros u _ Hne _. cbn. by lk. }
  destruct (decide (t_report (tcbs st1 !!! t) = Report.Running)) as [Ep|Ep].
  - eapply wp_mono; [apply (report_terminal_kinv st1 t r (sy_kinv _ I1)); [|done|done]|].
    + apply (tm_ok _ _ _ (ev_thread _ _ E t)), (proj2 (sy_thread _ I t)). by left.
    + cbv beta. intros _ st' (K' & S & _). eapply good_trans; [exact G1|].
      apply good_shrinks; [exact I1|rewrite Es; destruct Hs; congruence|rewrite Es; destruct Hs; congruence|done|done].
  - eapply wp_of_eq; [by apply report_terminal_absorbing|]. exact G1.
Qed.

Lemma lift_seq {A B : Type} (m : K A) (m' : K B) (k : B → KM (option Z)) Q :
  wp (lift (m;; m') ≫= k) Q ks → wp (lift m;; lift m' ≫= k) Q ks.
Proof using Type.
  unfold wp, mbind, comp_bind, lift. destruct (m (k_store ks)) as [[a st1]| |]; cbn; [|done|done].
  destruct (m' st1) as [[b st2]| |]; cbn; try done.
Qed.

Lemma thread_exit_mid status : wp (sys_thread_exit status) post ks.
Proof using All.
  unfold sys_thread_exit. rewrite wp_bind. apply (wp_the_current ks t Hc).
  apply (lift_seq (set_tcb_state t ThreadState.Halted) (report_terminal t (Report.Exited status)) (λ _, mret None)).
  apply (wp_op _ _ (λ _ _, True)).
  - eapply wp_mono; [apply terminal_good; [by left|done]|]. done.
  - intros _ st' _ M'. wp_step. exact M'.
Qed.

(** *** Object creation *)
Lemma retyped_good cp ut dst dst2 ty param c st' :
  fresh_region st c → retyped L st cp ut dst dst2 ty param c st' → dests_free st ty dst dst2 → nameable st dst →
  match dst2 with Some d2 => ty = ObjType.Channel ∧ nameable st d2 | None => True end → good st t st'.
Proof using M Ht HL.
  intros F R D Hd Hd2. pose proof (retyped_sysinv L HL st st' cp ut dst dst2 ty param c I F R D Hd Hd2) as I'.
  destruct (rt_built _ _ _ _ _ _ _ _ _ _ R) as (st1 & B & S & Et). pose proof (fr_vacant _ _ (fg_fresh _ _ F)) as V.
  assert (∀ u, tcbs st' !!! u = tcbs st !!! u ∨ (u = MkObjId (c_start c) ∧ t_state (tcbs st' !!! u) = ThreadState.Inactive)) as Hu.
  { intros u. rewrite Et, (bd_tcbs _ _ _ _ _ _ B). destruct ty; auto. destruct (decide (u = MkObjId (c_start c))) as [->|]; lk; auto. }
  split; [done| | | |].
  - intros u Hr. destruct (Hu u) as [E|[_ E]]; congruence.
  - destruct (Hu t) as [E|[_ E]]; rewrite E; [unfold st; by rewrite Ht|done].
  - intros u Hp _ _. destruct (Hu u) as [E|[-> _]]; [by rewrite E|]. exfalso.
    pose proof (pinned_le st (MkObjId (c_start c))) as H. rewrite (va_census _ _ V) in H. lia.
  - rewrite (sl_pinned _ _ S). apply B.
Qed.

Lemma raw_payload_length m a : length (raw_payload m a) = Z.to_nat MSG_PAYLOAD.
Proof using Type. unfold raw_payload. by rewrite length_fmap, length_seq. Qed.
Lemma raw_table_length m a : length (raw_table m a) = 512%nat.
Proof using Type. unfold raw_table. by rewrite length_fmap, length_seq. Qed.

Lemma mid_flush ks' : mid idle ks' → wp (lift tlb_flush_all) (λ _ ks'', mid idle ks'') ks'.
Proof using Type.
  intros M'. unfold tlb_flush_all. apply wp_lift. wp_step. destruct M' as [I' H1 H2 H3 H4 H5]. destruct (kinv_hw (k_store ks') (cons TlbFlushAll) (sy_kinv _ I')) as [K1 S1].
  split; try done. eapply sysinv_evolves; [exact I'|by apply evolves_shrinks].
Qed.

Lemma kernel_retype_mid ut ty param dst dst2 :
  0 ≤ param → (∀ base size w c, kind (cap (slots st !!! ut)) = CapKind.Untyped base size w → carve L base size w ty param = Ok c → fresh_region st c) →
  nameable st dst → match dst2 with Some d2 => ty = ObjType.Channel ∧ nameable st d2 | None => True end →
  wp (kernel_retype L k0 k1 ut ty param dst dst2 ≫= λ r, match r with Ok _ => ok 0 | Err e => fail (retype_errno e) end) post ks.
Proof using All.
  intros Hp HF Hd Hd2. unfold kernel_retype. rewrite !wp_bind, wp_gets, wp_bind, wp_gets, wp_bind. apply (wp_the_current ks t Hc).
  rewrite wp_bind. unfold tcb_priority. apply wp_lift_gets. rewrite wp_bind. apply wp_lift.
  eapply wp_mono; [apply (retype_kinv L _ _ HL (raw_payload_length _) (raw_table_length _) st _ _ _ _ ut ty param dst dst2 Kst Hp)|].
  { intros base size w c Hk Hcv. by eapply HF. }
  cbv beta. intros [c|e] st' H.
  2:{ rewrite wp_ret. destruct H as [-> _]. unfold st. rewrite with_store_id. apply wp_fail. }
  destruct H as [R D]. destruct (rt_ut _ _ _ _ _ _ _ _ _ _ R) as (base & size & w & Hk & _).
  assert (fresh_region st c) as F.
  { destruct (rt_carve _ _ _ _ _ _ _ _ _ _ R) as (base' & size' & w' & Hk' & Hcv). by eapply HF. }
  assert (mid idle (with_store (λ _, st') ks)) as M' by (eapply (mid_good idle ks); [done|done|done|by eapply retyped_good|done]).
  rewrite wp_bind. unfold ok. destruct ty; wp_step; try exact M'; try (by eapply mid_ext).
  destruct (alloc_asid (k_asid ks)) as [[asid next] flush]. wp_step.
  assert (mid idle (with_asid next (with_store (λ _, st') ks))) as M2 by (by eapply mid_ext).
  destruct flush; [eapply wp_mono; [by apply mid_flush|]; cbv beta; intros _ ks2 M3|]; wp_step; done.
Qed.

Lemma retype_mid ut ty param dst dst2 :
  0 ≤ param →
  (∀ s base size w c, cur_slot ut ks = Ret (Some s, ks) → kind (cap (slots st !!! s)) = CapKind.Untyped base size w →
     carve L base size w ty param = Ok c → fresh_region st c) →
  wp (sys_retype L k0 k1 ut ty param dst dst2) post ks.
Proof using All.
  intros Hp HF. unfold sys_retype. rewrite wp_bind.
  pose proof (wp_cur_slot ks t Hc ut (λ r ks', ks' = ks ∧ ∀ s, r = Some s → nameable st s) ltac:(done) ltac:(naive_solver)) as Hu.
  apply wp_inv in Hu as (u & ks' & Eu & -> & Hun). eapply wp_of_eq; [exact Eu|]. rewrite wp_bind. destruct u as [u|].
  2:{ apply (wp_cur_slot ks t Hc); [|intros d _]; apply wp_fail. }
  apply (wp_cur_slot ks t Hc); [apply wp_fail|]. intros d Hd.
  assert (∀ d2, match d2 with Some d2 => ty = ObjType.Channel ∧ nameable st d2 | None => True end →
    wp (kernel_retype L k0 k1 u ty param d d2 ≫= λ r, match r with Ok _ => ok 0 | Err e => fail (retype_errno e) end) post ks) as Hgo.
  { intros d2 Hd2. apply kernel_retype_mid; try done. intros base size w c. by apply HF. }
  destruct ty; try (by apply (Hgo None)).
  rewrite wp_bind. apply (wp_cur_slot ks t Hc); [apply wp_fail|]. intros d2 Hd2. by apply (Hgo (Some d2)).
Qed.

(** *** Diagnostics and yielding *)
Lemma write_char_mid ch ks' : mid idle ks' → k_current ks' = Some t → k_store ks' = st →
  wp (write_char ch) (λ _ ks'', mid idle ks'' ∧ k_current ks'' = Some t ∧ k_store ks'' = st) ks'.
Proof using Type.
  intros M' H1 H2. unfold write_char, uart_putc. destruct (ch <? 128); [destruct (ch =? 10)|]; wp_step; (split; [by eapply mid_ext|done]).
Qed.

Lemma debug_putc_mid ch : wp (sys_debug_putc debug_log ch) post ks.
Proof using M Hc.
  unfold sys_debug_putc, ok. rewrite wp_bind. destruct debug_log; [|wp_step; exact M].
  eapply wp_mono; [by apply write_char_mid|]. cbv beta. intros _ ks' [M' _]. wp_step. exact M'.
Qed.

Lemma debug_write_mid ptr len : 0 ≤ ptr ≤ U64_MAX → 0 ≤ len → wp (sys_debug_write debug_log ptr len) post ks.
Proof using M Hc.
  intros Hp Hl. unfold sys_debug_write. destruct debug_log; [|unfold ok; wp_step; exact M].
  rewrite wp_bind. apply (wp_user_range_ok ks t Hc I); [done|done|]. intros b Hr. destruct b; cbn [negb orb]; [|apply wp_fail].
  destruct (DEBUG_WRITE_MAX <? len); [apply wp_fail|]. rewrite wp_bind.
  eapply wp_mono; [apply (wp_for (λ _ ks', mid idle ks' ∧ k_current ks' = Some t ∧ k_store ks' = st))|].
  - intros j ks' Hj (M' & H1 & H2). wp_step. apply (wp_user_pa ks' t H1).
    + eapply reachable_ext; [exact H2|]. eapply reachable_byte; [by apply Hr|lia].
    + intros pa. wp_step. by apply write_char_mid.
  - done.
  - cbv beta. intros _ ks' [M' _]. unfold ok. wp_step. exact M'.
Qed.

Lemma yield_mid : wp (sys_yield kernel_ttbr0) post ks.
Proof using M.
  unfold sys_yield, set_reg. wp_step. eapply wp_mono; [apply (sched_settles idle); by eapply mid_ext|]. cbv beta. intros _ ks' [M' _]. wp_step. exact M'.
Qed.

(** *** All of them *)

(** What a call relies on: the memory a new object is carved from holds nothing that is
    still designated, and the capability slots of a message are distinct. *)
Definition call_ok (sys : Sys.sys) : Prop :=
  match sys with
  | Sys.Retype ut ty param _ _ => ∀ s base size w c, cur_slot ut ks = Ret (Some s, ks) →
      kind (cap (slots st !!! s)) = CapKind.Untyped base size w → carve L base size w ty param = Ok c → fresh_region st c
  | Sys.ChanSend _ _ _ caps => ∀ l, resolve_cap_list caps true ks = Ret (Ok l, ks) → distinct_slots l
  | Sys.ChanRecv _ _ dests => ∀ l, resolve_cap_list dests false ks = Ret (Ok l, ks) → distinct_slots l
  | _ => True
  end.

(** Registers hold 64-bit values. *)
Definition frame_u64 (f : TrapFrame) : Prop := ∀ i, 0 ≤ reg f i ≤ U64_MAX.

Lemma dispatch_mid now :
  frame_u64 (k_frame ks) → (∀ sys, decode (reg (k_frame ks) 7) (frame_args (k_frame ks)) = Ok sys → call_ok sys) →
  wp (dispatch L k0 k1 kernel_ttbr0 debug_log now) post ks.
Proof using All.
  intros Hf Hok. unfold dispatch. wp_step. pose proof (Hf 7%nat) as H7.
  pose proof (decode_spec (reg (k_frame ks) 7) (frame_args (k_frame ks)) ltac:(lia)) as Hd. cbn in Hd.
  pose proof (Hf 0%nat). pose proof (Hf 1%nat). pose proof (Hf 2%nat). pose proof (Hf 3%nat). pose proof (Hf 4%nat). pose proof (Hf 5%nat). pose proof (Hf 6%nat).
  specialize (Hd ltac:(lia) ltac:(lia) ltac:(lia) ltac:(lia)).
  pose proof (decode_words (λ x, 0 ≤ x ≤ U64_MAX) (reg (k_frame ks) 7) (frame_args (k_frame ks))) as Ha.
  destruct (decode _ _) as [sys|e]; [|wp_step; exact M]. specialize (Hok sys eq_refl). destruct Hd as [Hv _].
  specialize (Ha sys ltac:(lia)). assert (Forall (λ x, 0 ≤ x ≤ U64_MAX) [a0 (frame_args (k_frame ks)); a1 (frame_args (k_frame ks)); a2 (frame_args (k_frame ks)); a3 (frame_args (k_frame ks));
    a4 (frame_args (k_frame ks)); a5 (frame_args (k_frame ks)); a6 (frame_args (k_frame ks))]) as Hall by (rewrite !Forall_cons, Forall_nil; done).
  specialize (Ha Hall). specialize (Ha eq_refl).
  destruct sys; cbn [execute]; cbn in Hok, Hv, Ha; rewrite ?Forall_cons in Ha; destruct_and? Ha;
    eauto using debug_putc_mid, debug_write_mid, yield_mid, retype_mid, cap_copy_mid, cap_delete_mid, cap_revoke_mid, cap_install_mid,
      chan_send_mid, chan_recv_mid, chan_bind_mid, notif_signal_mid, notif_wait_mid, thread_start_mid, timer_arm_mid, thread_exit_mid,
      frame_paddr_mid, thread_bind_mid, read_report_mid, untyped_reset_mid, map_mid, aspace_topup_mid, frame_write_mid, thread_start_as_mid, irq_bind_mid, irq_ack_mid.
Qed.
End arms_spec.

(** ** Exceptions *)
Section handlers.
Context (L : Layout) (HL : layout_ok L) (k0 k1 kernel_ttbr0 : Z) (debug_log : bool) (idle : ObjId).

(** What a synchronous exception must bring for the kernel to keep its invariant. The
    idle thread, which only waits for interrupts, raises none. A system call comes with
    64-bit registers, meets [call_ok] and finds [room]. A fault of a user thread needs
    nothing more. The kernel checks neither [room] nor [call_ok]. *)
Definition sync_ok (esr : Z) (ks : KState) : Prop :=
  k_current ks ≠ Some idle ∧
  (esr_ec esr = 21 → frame_u64 (k_frame ks) ∧ room (k_store ks) ∧
     ∀ sys, decode (reg (k_frame ks) 7) (frame_args (k_frame ks)) = Ok sys → call_ok L ks sys).

Lemma handle_sync_ok ks esr far now :
  sysok idle ks → sync_ok esr ks → wp (handle_el0_sync L k0 k1 kernel_ttbr0 debug_log esr far now) (λ _ ks', sysok idle ks') ks.
Proof using HL.
  intros (M & t & Hc & Ht) (Hi & Hs). assert (t ≠ idle) as Hne by congruence.
  unfold handle_el0_sync. destruct (esr_ec esr =? 21) eqn:Hec; [apply Z.eqb_eq in Hec; destruct (Hs Hec) as (Hf & Hr & Hok)|clear Hs].
  - rewrite wp_bind. eapply wp_mono; [by apply (dispatch_mid L HL k0 k1 kernel_ttbr0 debug_log idle ks t)|].
    cbv beta. intros r ks' M'. rewrite wp_bind. destruct r; unfold set_reg; wp_step; apply sched_settles; [by eapply mid_ext|done].
  - rewrite wp_bind. apply (wp_the_current ks t Hc). pose proof (md_inv _ _ M) as I.
    assert (wp (lift (set_tcb_state t ThreadState.Faulted);; lift (report_terminal t (Report.Faulted esr far)) ≫= λ _, mret (None : option Z))
      (λ _ ks', mid idle ks') ks) as H.
    { apply (lift_seq ks). apply (wp_op idle ks t M Hc Hne _ _ (λ _ _, True)).
      - eapply wp_mono; [apply (terminal_good idle ks t M Ht); [by right|done]|]. done.
      - intros _ st' _ M'. wp_step. exact M'. }
    revert H. rewrite !wp_bind. intros H. eapply wp_mono; [exact H|]. cbv beta. intros _ ks1. rewrite !wp_bind. intros H1.
    eapply wp_mono; [exact H1|]. cbv beta. intros _ ks2. rewrite wp_ret. intros M2. by apply sched_settles.
Qed.

(** An interrupt may arrive while any thread runs. *)
Lemma sysok_shrinks ks st' :
  sysok idle ks → kinv st' → shrinks (k_store ks) st' → mid idle (with_store (λ _, st') ks).
Proof using Type.
  intros (M & t & Hc & Ht) K' S. pose proof (md_inv _ _ M) as I.
  assert (good (k_store ks) t st') as G by (apply good_shrinks; [done|by rewrite Ht|by rewrite Ht|done|done]).
  split; cbn.
  - apply G.
  - intros u Hu. cbn. by apply (md_one _ _ M), (gd_run _ _ _ G).
  - apply M.
  - intros u Hu. cbn in *. rewrite Hc in Hu. injection Hu as <-. apply G.
  - rewrite (gd_pinned _ _ _ G). apply M.
  - pose proof (tl_state _ _ _ (sh_thread _ _ S idle)) as Hs. pose proof (md_idle _ _ M) as Hi. pose proof (md_pinned _ _ M) as Hp.
    destruct Hs as [[->|[Hs _]]|[_ Hs]]; [done|destruct Hi; congruence|done].
Qed.

Lemma handle_irq_ok ks irq_table intid now :
  sysok idle ks → wp (handle_el0_irq kernel_ttbr0 irq_table intid now) (λ _ ks', sysok idle ks') ks.
Proof using Type.
  intros S. pose proof (sy_kinv _ (md_inv _ _ (proj1 S))) as K0. unfold handle_el0_irq, rearm_tick, gic_eoi. destruct (intid =? INTID_VTIMER).
  - rewrite wp_bind. apply wp_lift. wp_step. apply wp_lift. cbn [k_store with_store].
    destruct (kinv_hw (k_store ks) (cons RearmTick) K0) as [K1 S1]. destruct (ki_timers _ _ _ K1) as [tl T].
    eapply wp_mono; [apply (check_expired_kinv _ tl now K1 T)|]. cbv beta. intros _ st2 (K2 & S2 & _). rewrite wp_bind. apply wp_lift. wp_step.
    cbn [k_store with_store]. destruct (kinv_hw st2 (cons (GicEoi intid)) K2) as [K3 S3]. apply sched_settles.
    apply (sysok_shrinks ks); [done|done|]. eapply shrinks_trans; [|exact S3]. by eapply shrinks_trans.
  - rewrite wp_bind. apply wp_lift. eapply wp_mono; [apply (deliver_kinv _ irq_table intid K0)|]. cbv beta. intros r st2 H.
    assert (kinv st2 ∧ shrinks (k_store ks) st2) as [K2 S2].
    { destruct (routed (k_store ks) irq_table intid) as [i|]; cbv zeta in H; [destruct (i_bound (irqs (k_store ks) !!! i))|].
      - by destruct H as (_ & H1 & H2 & _).
      - destruct H as [_ ->]. split; [done|apply shrinks_refl].
      - destruct H as [_ ->]. split; [done|apply shrinks_refl]. }
    rewrite wp_bind. apply wp_lift. wp_step. cbn [k_store with_store]. destruct (kinv_hw st2 (cons (GicEoi intid)) K2) as [K3 S3].
    apply sched_settles. apply (sysok_shrinks ks); [done|done|]. by eapply shrinks_trans.
Qed.

(** ** Runs of the machine *)

(** What can happen to the machine: user code leaves any registers and memory behind,
    raises a synchronous exception, or an interrupt arrives. *)
Inductive event :=
| EvUser (f : TrapFrame) (m : Z → Z)
| EvSync (esr far now : Z)
| EvIrq (intid now : Z).

(** What the kernel does about it. *)
Definition handle (irq_table : list ObjId) (e : event) : KM unit :=
  match e with
  | EvUser f m => λ ks, Ret (tt, with_mem (λ _, m) (with_frame (λ _, f) ks))
  | EvSync esr far now => handle_el0_sync L k0 k1 kernel_ttbr0 debug_log esr far now
  | EvIrq intid now => handle_el0_irq kernel_ttbr0 irq_table intid now
  end.

(** One step of the machine, for any event at all. *)
Definition mstep (irq_table : list ObjId) (e : event) (ks ks' : KState) : Prop := handle irq_table e ks = Ret (tt, ks').

(** The events that keep to the discipline the kernel does not enforce. *)
Definition heeds (e : event) (ks : KState) : Prop := match e with EvSync esr _ _ => sync_ok esr ks | _ => True end.

(** A step of a machine whose user code keeps to it. *)
Definition heeded (irq_table : list ObjId) (ks ks' : KState) : Prop := ∃ e, heeds e ks ∧ mstep irq_table e ks ks'.

Lemma heeded_sync irq_table esr far now ks ks' :
  sync_ok esr ks → handle_el0_sync L k0 k1 kernel_ttbr0 debug_log esr far now ks = Ret (tt, ks') → heeded irq_table ks ks'.
Proof. intros Hs E. by exists (EvSync esr far now). Qed.

Lemma handle_sysok irq_table e ks : heeds e ks → sysok idle ks → wp (handle irq_table e) (λ _ ks', sysok idle ks') ks.
Proof using HL.
  destruct e as [f m|esr far now|intid now]; cbn [handle heeds]; intros He S.
  - destruct S as (M & t & Hc & Ht). split; [by eapply mid_ext|by exists t].
  - by apply handle_sync_ok.
  - by apply handle_irq_ok.
Qed.

Lemma heeded_sysok irq_table ks ks' : rtc (heeded irq_table) ks ks' → sysok idle ks → sysok idle ks'.
Proof using HL.
  induction 1 as [|x y z (e & He & E) _ IH]; [done|]. intros S. apply IH.
  pose proof (handle_sysok irq_table e x He S) as H. unfold wp in H. by rewrite E in H.
Qed.
End handlers.
