(* ===== verification/Boot.v ===== *)
(** The state [kernel_main] ([kernel/src/main.rs]) enters user code with: init's CSpace
    and its boot grants, init running in the address space [setup_init] built, the
    idle thread queued. The addresses of the static objects and init's address
    space, which depends on the embedded ELF image, are parameters. The machine boots
    into the invariant of [Execute], so every state it reaches has it. *)

From S2P Require Import Prelude KStore Ready Census Notif Timer Irq Cdt Aspace Kinv Refs Channel Thread Events Cspace Fifo Untyped Retype Arena Sched Sysabi Syscall Execute.

(** ** A store without links, queues or armed timers *)

Definition no_links (v : CapSlot) : Prop :=
  parent v = None ∧ first_child v = None ∧ next_sib v = None ∧ prev_sib v = None.

(** A thread that is on no queue. *)
Definition off_duty (o : Tcb) : Prop :=
  t_state o ≠ ThreadState.Runnable ∧ t_wait_notif o = None ∧ 0 ≤ t_priority o < 32.

Lemma no_links_cdt m : (∀ x, no_links (m !!! x)) → cdt_repr m (λ _, []).
Proof.
  intros Hl. split.
  - intros x y. destruct (Hl x) as (_ & _ & E1 & _), (Hl y) as (_ & _ & _ & E2). by rewrite E1, E2.
  - intros x y. destruct (Hl x) as (_ & _ & E1 & _). by rewrite E1.
  - intros p. destruct (Hl p) as (_ & E & _). by rewrite E.
  - intros p c. destruct (Hl p) as (_ & E & _). by rewrite E.
  - intros x p. destruct (Hl x) as (E & _). rewrite E. split; [by intros ?%elem_of_nil|done].
  - intros x. exists [x]. destruct (Hl x) as (_ & _ & E1 & E2). split; [|by apply list_elem_of_singleton]. split; [by cbn; rewrite E1|by intros h [= <-]].
  - intros x _. apply Hl.
  - exists (λ _, 0%nat). intros x p. destruct (Hl x) as (E & _). by rewrite E.
Qed.

Lemma unlinked_kinv st b :
  (∀ x, no_links (slots st !!! x)) → refs_bal st b → end_caps_bal st no_ends → notifs st = ∅ → timers st = ∅ → armed_head st = None →
  ready st = replicate NUM_PRIOS EMPTY_QUEUE → ready_bits st = 0 → (∀ t, off_duty (tcbs st !!! t)) → irq_inv st → shape st →
  kinv_bal st b no_ends.
Proof.
  intros Hl Hr He En Et Ea Eq Eb Ht Hi Hs. split; try done.
  - exists (λ _, []). by apply no_links_cdt.
  - exists (λ _, []), (λ _, []). split.
    + split; try done.
      * by rewrite Eq.
      * intros lvl q. rewrite Eq. intros Hq. apply (lookup_replicate NUM_PRIOS) in Hq as [-> _]. done.
      * by rewrite Eb.
      * intros lvl _. by rewrite Eb, Z.bits_0.
      * by intros lvl t ?%elem_of_nil.
    + intros t Hc. by destruct (Ht t).
    + split.
      * intros n. rewrite En, lookup_total_empty. done.
      * by intros n t ?%elem_of_nil.
      * intros n t. destruct (Ht t) as (_ & -> & _). done.
      * done.
    + intros t. apply (Ht t).
  - exists []. split; rewrite ?Ea, ?Et; [done| |by intros t ?%elem_of_nil].
    intros t. rewrite lookup_total_empty. split; [by intros ?%elem_of_nil|done].
Qed.

(** A property of a map holds of every key when it holds of the new binding. *)
Lemma insert_forall {K V : Type} `{Countable K} `{Inhabited V} (P : K → V → Prop) (m : gmap K V) k v :
  P k v → (∀ x, P x (m !!! x)) → ∀ x, P x (<[k := v]> m !!! x).
Proof. intros Hv Hm x. destruct (decide (x = k)) as [->|]; lk; [done|apply Hm]. Qed.

(** ** The boot image *)
Section boot.
(** Addresses of the static objects and of their slots. *)
Context (root init idle pl011 asp : ObjId) (slot_at : nat → SlotId) (init_bind idle_bind : SlotId * SlotId).
(** What [setup_init] leaves: the end of the kernel's memory, init's address space and
    entry frame; the idle loop's frame. *)
Context (untyped_base : Z) (init_aspace : AspaceObj) (init_frame idle_frame : TrapFrame).
Context (kernel_ttbr0 : Z).

(** [0x5000_0000], the end of DRAM. *)
Definition DRAM_END : Z := 1342177280.

Definition boot_rights : Rights.rights := Rights.MkRights (Z.lor (Z.lor Rights.READ Rights.WRITE) Rights.PHYS).
Definition device_frame (base pages : Z) (r : Rights.rights) : Cap := MkCap (CapKind.Frame base pages None) r.

(** The grants, in the order they are written. *)
Definition boot_caps : list (nat * Cap) :=
  [(0%nat, MkCap (CapKind.Untyped untyped_base (USER_BASE - untyped_base) 0) boot_rights);
   (2%nat, MkCap (CapKind.Untyped (USER_BASE + USER_SIZE) (DRAM_END - (USER_BASE + USER_SIZE)) 0) boot_rights);
   (3%nat, device_frame 167772160 4 boot_rights);
   (4%nat, device_frame 151060480 1 (Rights.MkRights (Z.lor Rights.READ Rights.PHYS)));
   (62%nat, device_frame 150994944 1 boot_rights);
   (63%nat, MkCap (CapKind.Irq pl011) (Rights.MkRights (Z.lor Rights.READ Rights.WRITE)));
   (5%nat, MkCap (CapKind.Aspace asp) Rights.ALL);
   (1%nat, MkCap (CapKind.Thread init 16) Rights.THREAD_ALL)].

Definition boot_slots : gmap SlotId CapSlot :=
  foldl (λ m '(i, c), <[slot_at i := slot_set_cap c CapSlot_empty]> m) ∅ boot_caps.

(** [IrqObj::boot_static] of [PL011_INTID]. *)
Definition pl011_obj : IrqObj := MkIrq 33 None 0 false false.

Definition init_tcb : Tcb :=
  MkTcb init_frame ThreadState.Running 16 (Some root) (Some asp) None None Report.Running [init_bind.1; init_bind.2] [0; 0].
Definition idle_tcb : Tcb :=
  MkTcb idle_frame ThreadState.Inactive 0 None None None None Report.Running [idle_bind.1; idle_bind.2] [0; 0].

(** The store when the idle thread is about to be queued: [ROOT_CSPACE] counts the
    image's own reference and init's, init's address space those of the image, of
    init and of slot 5. *)
Definition boot_store : Store :=
  MkStore boot_slots (<[root := 2]> (<[init := 1]> (<[idle := 1]> (<[pl011 := 1]> {[ asp := 3 ]}))))
    {[ root := MkCSpace 64 (slot_at <$> seq 0 64) ]} ∅ ∅ (<[init := init_tcb]> {[ idle := idle_tcb ]}) ∅
    {[ pl011 := pl011_obj ]} {[ asp := init_aspace ]} None (replicate NUM_PRIOS EMPTY_QUEUE) 0 []
    (<[root := 1%nat]> (<[idle := 1%nat]> {[ asp := 1%nat ]})).

(** The rest of [kernel_main]: idle is queued, init becomes current. *)
Definition kernel_main : KM unit :=
  lift (ready_enqueue idle);;
  modify (with_current (Some init));;
  activate_aspace kernel_ttbr0 init;;
  modify (with_frame (λ _, init_frame)).
Definition boot_state (mem : Z → Z) : KState := MkK boot_store None TrapFrame_zeroed mem 2 kernel_ttbr0 [].

Hypothesis Hobjs : NoDup [root; init; idle; pl011; asp].
Hypothesis Hslots : NoDup (init_bind.1 :: init_bind.2 :: (slot_at <$> seq 0 64)).
Hypothesis Hbase : 0 ≤ untyped_base ≤ USER_BASE.
Hypothesis Haspace : aspace_wf init_aspace.


Lemma slot_at_ne i j : (i < 64)%nat → (j < 64)%nat → i ≠ j → slot_at i ≠ slot_at j.
Proof using Hslots.
  intros Hi Hj Hne E. apply NoDup_cons in Hslots as [_ Hs]. apply NoDup_cons in Hs as [_ Hs]. rewrite NoDup_alt in Hs. apply Hne.
  apply (Hs i j (slot_at i)); rewrite list_lookup_fmap, lookup_seq_lt by done; [done|]. cbn. by rewrite E.
Qed.

Lemma objs_ne : (root ≠ init ∧ root ≠ idle ∧ root ≠ pl011 ∧ root ≠ asp) ∧ (init ≠ idle ∧ init ≠ pl011 ∧ init ≠ asp) ∧
  (idle ≠ pl011 ∧ idle ≠ asp) ∧ pl011 ≠ asp.
Proof using Hobjs. clear -Hobjs. rewrite !NoDup_cons in Hobjs. set_solver. Qed.

(** A property of the empty slot and of the granted ones. *)
Lemma boot_slots_forall (P : CapSlot → Prop) :
  P CapSlot_empty → (∀ i c, (i, c) ∈ boot_caps → P (slot_set_cap c CapSlot_empty)) → ∀ x, P (boot_slots !!! x).
Proof using Type.
  intros H0 Hall. unfold boot_slots. assert (∀ l (m : gmap SlotId CapSlot), (∀ i c, (i, c) ∈ l → P (slot_set_cap c CapSlot_empty)) → (∀ x, P (m !!! x)) →
    ∀ x, P (foldl (λ m '(i, c), <[slot_at i := slot_set_cap c CapSlot_empty]> m) m l !!! x)) as H.
  { induction l as [|[i c] l IH]; intros m Hl Hm x; cbn; [apply Hm|]. apply IH; [intros j d Hj; apply (Hl j); by right|].
    apply (insert_forall (λ _, P)); [apply (Hl i); by left|done]. }
  apply H; [done|]. intros x. by rewrite lookup_total_empty.
Qed.

Lemma boot_slots_sum (f : CapSlot → Z) :
  msum f boot_slots = foldr (λ '(_, c) a, f (slot_set_cap c CapSlot_empty) + a) 0 boot_caps.
Proof using Hslots.
  unfold boot_slots, boot_caps. cbn. rewrite !msum_insert_None; [rewrite msum_empty; lia|..];
    rewrite ?lookup_insert_ne by (apply slot_at_ne; lia); done.
Qed.

Lemma boot_census : refs_bal boot_store no_refs.
Proof using Hobjs Hslots.
  destruct objs_ne as ((N1 & N2 & N3 & N4) & (N5 & N6 & N7) & (N8 & N9) & N10).
  intros o. unfold obj_census, no_refs. cbn [slots tcbs timers irqs chans pinned refs boot_store]. rewrite boot_slots_sum, !msum_empty.
  rewrite <-!insert_empty, !msum_insert_None by (rewrite ?lookup_insert_ne by congruence; apply lookup_empty). rewrite !msum_empty.
  unfold slot_refs, cap_refs, cap_obj, cap_frame_aspace, tcb_refs, irq_refs. cbn.
  rewrite !lookup_total_insert, !lookup_total_empty. unfold ind. repeat case_decide; simplify_eq; cbn; lia.
Qed.

Lemma boot_caps_ok i c : (i, c) ∈ boot_caps → cap_ok boot_store c.
Proof using Hobjs Hbase Haspace.
  destruct objs_ne as ((N1 & N2 & N3 & N4) & (N5 & N6 & N7) & (N8 & N9) & N10). unfold boot_caps. rewrite !elem_of_cons.
  intros H. assert (USER_BASE = 1207959552 ∧ USER_SIZE = 2097152 ∧ DRAM_END = 1342177280 ∧ PAGE = 4096) as (E1 & E2 & E3 & E4) by done.
  destruct_or! H; simplify_eq; cbn; rewrite ?E1, ?E2, ?E3, ?E4 in *; try done; try lia; try (split; [lia|done]).
  - rewrite lookup_total_singleton_eq. exact Haspace.
  - unfold tcb_ok. cbn. by lk.
  - by apply elem_of_nil in H.
Qed.

Lemma boot_tcb t : tcbs boot_store !!! t = if decide (t = init) then init_tcb else if decide (t = idle) then idle_tcb else inhabitant.
Proof using Hobjs.
  destruct objs_ne as (_ & (N5 & _) & _). cbn. destruct (decide (t = init)) as [->|]; lk; [done|].
  rewrite lookup_total_alt. destruct (decide (t = idle)) as [->|]; [by rewrite lookup_singleton_eq|by rewrite lookup_singleton_ne].
Qed.

Lemma boot_kinv : kinv boot_store.
Proof using Hobjs Hslots Hbase Haspace.
  apply unlinked_kinv; try done.
  - intros x. by apply (boot_slots_forall no_links).
  - apply boot_census.
  - intros t. rewrite boot_tcb. unfold off_duty. repeat case_decide; cbn; split_and!; done || lia.
  - intros i. cbn. rewrite lookup_total_alt. destruct (decide (i = pl011)) as [->|]; [by rewrite lookup_singleton_eq|by rewrite lookup_singleton_ne].
  - split.
    + intros x. cbn. apply (boot_slots_forall (λ v, cap_ok boot_store (cap v))); [done|]. intros i c Hi. cbn. by eapply boot_caps_ok.
    + intros t cs. rewrite boot_tcb. repeat case_decide; cbn; try done. intros [= <-]. unfold cspace_ok. cbn.
      rewrite lookup_total_singleton_eq. cbn. done.
    + intros t a. rewrite boot_tcb. repeat case_decide; cbn; try done. intros [= <-]. by rewrite lookup_total_singleton_eq.
Qed.

Lemma boot_held h : cap_held boot_store h → h = HTcb init.
Proof using Type.
  intros [s Hs]. revert Hs. cbn. apply (boot_slots_forall (λ v, holder_of (kind (cap v)) = Some h → h = HTcb init)); [done|].
  intros i c. unfold boot_caps. rewrite !elem_of_cons. intros H. destruct_or! H; simplify_eq; cbn; try done; [by intros [= <-]|by apply elem_of_nil in H].
Qed.

(** The slots of the boot image do not overlap. *)
Lemma boot_place p s : at_place boot_store p s →
  (∃ i, p = InCspace root i ∧ (i < 64)%nat ∧ s = slot_at i) ∨ (∃ w, p = InBind init w ∧ [init_bind.1; init_bind.2] !! w = Some s).
Proof using Hobjs.
  intros [Hl Hs]. destruct Hl as [Hl|Hl].
  - apply boot_held in Hl. destruct p as [| |t w]; try done. cbn in Hl, Hs. injection Hl as ->. right. exists w. split; [done|].
    pose proof (boot_tcb init) as E. rewrite decide_True in E by done. cbn in E. by rewrite E in Hs.
  - destruct p as [cs i| |]; [|done..]. cbn [holder_at] in Hl. unfold slot_in in Hs. cbn [cspaces boot_store] in Hs. destruct Hl as [t Ht]. rewrite boot_tcb in Ht.
    assert (cs = root) as -> by (repeat case_decide; cbn in Ht; congruence). left. exists i. split; [done|].
    rewrite lookup_total_singleton_eq in Hs. cbn [cs_slots] in Hs. rewrite list_lookup_fmap in Hs.
    destruct (seq 0 64 !! i) as [j|] eqn:Ej; [|done]. apply lookup_seq in Ej as [-> Hi]. cbn in Hs. injection Hs as <-. done.
Qed.

Lemma boot_sysinv : sysinv boot_store.
Proof using Hobjs Hslots Hbase Haspace.
  split; [apply boot_kinv| | |].
  - assert (∀ i w s, (i < 64)%nat → [init_bind.1; init_bind.2] !! w = Some s → s ≠ slot_at i) as Hd.
    { intros i w s Hi Hw ->. apply list_elem_of_lookup_2 in Hw. assert (slot_at i ∈ slot_at <$> seq 0 64) as Hin
        by (apply list_elem_of_fmap; exists i; split; [done|apply elem_of_seq; lia]). apply NoDup_cons in Hslots as [H1 H2].
      apply NoDup_cons in H2 as [H2 _]. apply elem_of_cons in Hw as [E|[E|[]%elem_of_nil]%elem_of_cons].
      - apply H1. right. by rewrite <-E.
      - apply H2. by rewrite <-E. }
    intros p q s [(i & -> & Hi & ->)|(w & -> & Hw)]%boot_place [(j & -> & Hj & E)|(w' & -> & Hw')]%boot_place.
    + destruct (decide (i = j)) as [->|Hne]; [done|]. by destruct (slot_at_ne i j Hi Hj Hne).
    + by destruct (Hd i w' _ Hi Hw').
    + by destruct (Hd j w _ Hj Hw).
    + f_equal. apply NoDup_cons in Hslots as [H1 _]. assert (init_bind.1 ≠ init_bind.2) as Hb by (intros E; apply H1; rewrite E; by left).
      destruct w as [|[|]], w' as [|[|]]; cbn in Hw, Hw'; simplify_eq; done.
  - intros ch [Hl|[]]. by apply boot_held in Hl.
  - intros t. unfold thread_fields, tcb_ok. rewrite boot_tcb. unfold active. repeat case_decide; cbn; split; try done; intros [|[|]]; done.
Qed.

(** Queueing a thread moves no slot. *)
Lemma at_place_wake st st' p s : wake_frame st st' → at_place st' p s → at_place st p s.
Proof using Type.
  intros W [Hl Hs]. assert (∀ t, t_cspace (tcbs st' !!! t) = t_cspace (tcbs st !!! t) ∧ t_bind_slots (tcbs st' !!! t) = t_bind_slots (tcbs st !!! t)) as Ht.
  { intros t. pose proof (wf_tcb _ _ W t) as E. unfold tcb_fixed in E. split; congruence. }
  split.
  - destruct Hl as [[x Hx]|Hl]; [left; exists x; by rewrite <-(wf_slots _ _ W)|right]. destruct (holder_at p); try done.
    destruct Hl as [t Hl]. exists t. by rewrite <-(proj1 (Ht t)).
  - destruct p; cbn in *; [by rewrite <-(wf_cspaces _ _ W)|by rewrite <-(wf_chans _ _ W)|by rewrite <-(proj2 (Ht t))].
Qed.

Lemma boot_enqueued :
  wp (ready_enqueue idle) (λ _ st', sysinv st' ∧ wake_frame boot_store st' ∧ t_state (tcbs st' !!! idle) = ThreadState.Runnable ∧
    ∀ u, u ≠ idle → t_state (tcbs st' !!! u) = t_state (tcbs boot_store !!! u)) boot_store.
Proof using Hobjs Hslots Hbase Haspace.
  pose proof boot_sysinv as I. pose proof (sy_kinv _ I) as K0.
  destruct objs_ne as (_ & (N5 & _) & _). assert (t_state (tcbs boot_store !!! idle) = ThreadState.Inactive) as Hi.
  { rewrite boot_tcb, decide_False, decide_True by congruence. done. }
  destruct (ki_sched _ _ _ K0) as (rq & wq & S). assert (off_queues rq wq idle) as [Hr Hq].
  { apply (stopped_off _ _ _ _ S); [by rewrite Hi|]. intros _. by apply inactive_waits_not. }
  eapply wp_mono; [apply (make_runnable_inv boot_store rq wq ∅ idle S Hr Hq)|]. cbv beta. intros _ st' (F & S' & _ & Ht & Ho).
  pose proof (wake_frame_sched _ _ F) as W. split_and!; try done.
  assert (kinv st') as K1. { eapply kinv_wake_frame; [exact K0|done|]. do 2 eexists. eapply sched_inv_mono; [|exact S']. clear; set_solver. }
  split; [done| | |].
  - intros p q s Hp Hq'. apply (sy_arena _ I p q s); by eapply at_place_wake.
  - intros ch [Hl|[]]. exfalso. destruct Hl as [x Hl]. rewrite (wf_slots _ _ W) in Hl. discriminate (boot_held (HChan ch)). by exists x.
  - intros t. pose proof (wf_tcb _ _ W t) as E. unfold tcb_fixed in E. injection E as E1 E2 E3 E4 E5 E6.
    destruct (decide (t = idle)) as [->|Hne].
    + split; [by rewrite Ht|]. intros _. unfold tcb_ok. rewrite E5, E6, boot_tcb, decide_False, decide_True by congruence. done.
    + destruct (sy_thread _ I t) as [H1 H2]. split; rewrite Ho by done; unfold tcb_ok; rewrite ?E1, ?E2, ?E5, ?E6; [exact H1|exact H2].
Qed.

Lemma boot_sysok mem : wp kernel_main (λ _ ks, sysok idle ks) (boot_state mem).
Proof using Hobjs Hslots Hbase Haspace.
  unfold kernel_main, activate_aspace, tcb_aspace. wp_step. apply wp_lift.
  eapply wp_mono; [apply boot_enqueued|]. cbv beta. intros _ st' (I & W & Ht & Ho). destruct objs_ne as (_ & (N5 & _) & _ & N6).
  assert (t_state (tcbs st' !!! init) = ThreadState.Running) as Hin by (rewrite Ho, boot_tcb, decide_True by done; done).
  assert (∀ v f, sysok idle (with_frame f (with_ttbr v (with_current (Some init) (with_store (λ _, st') (boot_state mem)))))) as H.
  { intros v f. split; [|by exists init]. split; cbn; try done.
    - intros t. cbn. intros Hr. destruct (decide (t = idle)) as [->|Hne]; [congruence|]. rewrite Ho, boot_tcb in Hr by done.
      repeat case_decide; subst; [done..|]. by cbn in Hr.
    - intros t. cbn. intros [= <-]. by rewrite Hin.
    - rewrite (wf_pinned _ _ W). cbn. clear -Hobjs. destruct objs_ne as ((N1 & N2 & _) & _). by lk.
    - by right. }
  wp_step. wp_step. apply wp_lift. wp_step.
  destruct (t_aspace _); wp_step; wp_step; wp_step; apply H.
Qed.
End boot.
