(* ===== verification/Scenarios.v ===== *)
(** Concrete stores on which the theorems are exercised: a small derivation tree,
    a capability space that holds the root of its own last capability, a pair of
    channel ends, a channel with two capabilities in flight, and an armed timer
    outliving the capability to its notification. *)

From S2P Require Import Prelude KStore Ready Census Notif Timer Irq Cdt Aspace Kinv Refs Channel Thread Cspace Fifo Untyped.

Definition sl (n : Z) : SlotId := MkSlotId n.
Definition ob (n : Z) : ObjId := MkObjId n.

(** The state an operation leaves. *)
Definition run {A : Type} (m : K A) (st : Store) : Store :=
  match m st with Ret (_, st') => st' | _ => st end.

(** The value it returns. *)
Definition outcome_value {A S : Type} (o : outcome (A * S)) : option A :=
  match o with Ret (a, _) => Some a | _ => None end.

Lemma run_ret {A : Type} (m : K A) st a st' : m st = Ret (a, st') → st' = run m st.
Proof. unfold run. by intros ->. Qed.
Lemma value_ret {A S : Type} (m : comp S A) st a st' v : m st = Ret (a, st') → outcome_value (m st) = Some v → a = v.
Proof. by intros -> [= ->]. Qed.

Lemma wp_run_state {A : Type} (m : K A) (P : Store → Prop) st : wp m (λ _ st', P st') st → P (run m st).
Proof. unfold wp, run. by destruct (m st) as [[a st']| |]. Qed.

(** No thread, timer or interrupt has been created yet. *)
Definition plain (s : gmap SlotId CapSlot) (r : gmap ObjId Z) (cs : gmap ObjId CSpaceObj) (ch : gmap ObjId Channel) : Store :=
  MkStore s r cs ch ∅ ∅ ∅ ∅ ∅ None (replicate NUM_PRIOS EMPTY_QUEUE) 0 [] ∅.

Lemma plain_sched s r cs ch : sched_inv (plain s r cs ch) (λ _, []) (λ _, []) ∅.
Proof.
  assert (∀ u, tcbs (plain s r cs ch) !!! u = inhabitant) as Ht by (intros u; apply lookup_total_empty).
  split.
  - split; try done.
    + intros lvl q Hq. apply (lookup_replicate NUM_PRIOS) in Hq as [-> _]. done.
    + intros lvl Hl. cbn. by rewrite Z.bits_0.
    + by intros lvl t ?%elem_of_nil.
  - intros t. rewrite Ht. done.
  - split.
    + intros n. cbn. rewrite lookup_total_empty. done.
    + by intros n t ?%elem_of_nil.
    + intros n t. rewrite Ht. done.
    + done.
  - intros t. rewrite Ht. done.
Qed.

Lemma plain_kinv s r cs ch b :
  (∀ x, parent (s !!! x) = None ∧ first_child (s !!! x) = None ∧ next_sib (s !!! x) = None ∧ prev_sib (s !!! x) = None) →
  (∀ o, r !!! o = msum (slot_refs o) s + msum (chan_refs o) ch + b o) →
  (∀ c e n, ch_end_caps (ch !!! c) !! end_idx e = Some n → n = msum (end_refs c e) s) →
  (∀ x, cap_ok (plain s r cs ch) (cap (s !!! x))) →
  kinv_bal (plain s r cs ch) b no_ends.
Proof.
  intros Hl Hr He Hc. split.
  - exists (λ _, []). split.
    + intros x y. destruct (Hl x) as (_ & _ & E1 & _), (Hl y) as (_ & _ & _ & E2). cbn. by rewrite E1, E2.
    + intros x y. destruct (Hl x) as (_ & _ & E1 & _). cbn. by rewrite E1.
    + intros p. destruct (Hl p) as (_ & E & _). cbn. by rewrite E.
    + intros p c. destruct (Hl p) as (_ & E & _). cbn. by rewrite E.
    + intros x p. destruct (Hl x) as (E & _). cbn. rewrite E. split; [by intros ?%elem_of_nil|done].
    + intros x. exists [x]. destruct (Hl x) as (_ & _ & E1 & E2). split; [|by apply list_elem_of_singleton]. split; cbn; [by rewrite E1|by intros h [= <-]].
    + intros x _. apply Hl.
    + exists (λ _, 0%nat). intros x p. destruct (Hl x) as (E & _). cbn. by rewrite E.
  - intros o. cbn. rewrite Hr. unfold obj_census. cbn. rewrite !msum_empty, lookup_total_empty. cbn. lia.
  - intros c e n Hn. cbn in Hn. rewrite (He c e n Hn). unfold end_census, no_ends. cbn. lia.
  - exists (λ _, []), (λ _, []). apply plain_sched.
  - exists []. split; cbn; try done; [|by intros t ?%elem_of_nil].
    intros t. rewrite lookup_total_empty. cbn. split; [by intros ?%elem_of_nil|done].
  - intros i. cbn. by rewrite lookup_total_empty.
  - split; [done| |]; intros t c; cbn; by rewrite lookup_total_empty.
Qed.

(** ** A small derivation tree *)

(** An untyped capability, a notification retyped from it, and a copy. *)
Definition untyped_root : Cap := MkCap (CapKind.Untyped 65536 65536 4096) Rights.ALL.
Definition notif_cap (n : ObjId) : Cap := MkCap (CapKind.Notification n) Rights.ALL.
Definition root_slots : gmap SlotId CapSlot := {[ sl 1 := slot_set_cap untyped_root CapSlot_empty ]}.

Lemma root_links x :
  parent (root_slots !!! x) = None ∧ first_child (root_slots !!! x) = None ∧
  next_sib (root_slots !!! x) = None ∧ prev_sib (root_slots !!! x) = None.
Proof. unfold root_slots. destruct (decide (x = sl 1)) as [->|]; [done|]. rewrite lookup_total_alt, lookup_singleton_ne by done. done. Qed.

Lemma root_cap x : cap (root_slots !!! x) = if decide (x = sl 1) then untyped_root else Cap_EMPTY.
Proof. unfold root_slots. destruct (decide (x = sl 1)) as [->|]; [done|]. rewrite lookup_total_alt, lookup_singleton_ne by done. done. Qed.

Lemma root_refs o : msum (slot_refs o) root_slots = 0.
Proof. unfold root_slots, msum. by rewrite map_fold_singleton. Qed.
Lemma root_ends ch e : msum (end_refs ch e) root_slots = 0.
Proof. unfold root_slots, msum. by rewrite map_fold_singleton. Qed.

Lemma root_kinv r cs ch b :
  (∀ o, r !!! o = msum (chan_refs o) ch + b o) →
  (∀ c e n, ch_end_caps (ch !!! c) !! end_idx e = Some n → n = 0) →
  kinv_bal (plain root_slots r cs ch) b no_ends.
Proof.
  intros Hr He. apply plain_kinv.
  - apply root_links.
  - intros o. by rewrite root_refs, Hr.
  - intros c e n Hn. rewrite root_ends. by eapply He.
  - intros x. rewrite root_cap. case_decide; [cbn; lia|done].
Qed.

Definition tree0 : Store := plain root_slots {[ ob 10 := 2 ]} ∅ ∅.
Definition tree : Store := attach (sl 2) (sl 3) (notif_cap (ob 10)) (attach (sl 1) (sl 2) (notif_cap (ob 10)) tree0).

Lemma notif_bal n o : cap_bal (notif_cap n) o = held n o.
Proof. by apply cap_bal_obj. Qed.
Lemma notif_ends n ch e : cap_ends (notif_cap n) ch e = 0.
Proof. by apply ind_false. Qed.

Lemma attach_notif_kinv st b b' p dst n :
  kinv_bal st b no_ends → occupied st p → ¬ occupied st dst → (∀ o, b' o = b o - held n o) →
  kinv_bal (attach p dst (notif_cap n) st) b' no_ends.
Proof.
  intros K Hp Hd Hb. eapply kinv_bal_ext; [| |by apply (attach_kinv st b no_ends p dst (notif_cap n))].
  - intros o. cbv beta. by rewrite notif_bal, Hb.
  - intros ch e. cbv beta. by rewrite notif_ends.
Qed.

Lemma tree_kinv : kinv tree.
Proof.
  apply (attach_notif_kinv _ (held (ob 10)) no_refs); [|vm_compute; done..|by intros o; unfold no_refs, held; lia].
  apply (attach_notif_kinv _ (λ o, 2 * held (ob 10) o)); [|vm_compute; done..|by intros o; lia].
  apply root_kinv; [|by intros c e n; rewrite lookup_total_empty].
  intros o. rewrite msum_empty. unfold held, ind. destruct (decide (o = ob 10)) as [->|Hne].
  - done.
  - rewrite lookup_total_alt, lookup_singleton_ne by done. done.
Qed.

(** ** A CSpace holding the root of its own last capability *)

(** Slot 1, an untyped root, is a cell of CSpace 20; below it are the only
    capability to that CSpace (the newer child) and a notification capability. *)
Definition zombie0 : Store :=
  plain root_slots (<[ob 20 := 1]> {[ ob 10 := 1 ]}) {[ ob 20 := MkCSpace 1 [sl 1] ]} ∅.
Definition cspace_cap : Cap := MkCap (CapKind.CSpace (ob 20)) Rights.ALL.
Definition zombie : Store := attach (sl 1) (sl 3) cspace_cap (attach (sl 1) (sl 2) (notif_cap (ob 10)) zombie0).

Lemma two_refs a b o : a ≠ b → (<[a := 1]> {[ b := 1 ]} : gmap ObjId Z) !!! o = held a o + held b o.
Proof.
  intros Hne. unfold held, ind. destruct (decide (o = a)) as [->|]; lk.
  - by rewrite decide_False.
  - destruct (decide (o = b)) as [->|]; [by rewrite lookup_total_alt, lookup_singleton_eq|].
    by rewrite lookup_total_alt, lookup_singleton_ne.
Qed.

Lemma zombie_kinv : kinv zombie.
Proof.
  eapply kinv_bal_ext; [| |apply (attach_kinv _ (held (ob 20)) no_ends); [|vm_compute; done..|done]].
  - intros o. cbv beta. rewrite (cap_bal_obj cspace_cap (ob 20)) by done. unfold no_refs. lia.
  - intros ch e. cbv beta. unfold cap_ends. by rewrite ind_false.
  - apply (attach_notif_kinv _ (λ o, held (ob 20) o + held (ob 10) o)); [|vm_compute; done..|by intros o; lia].
    apply root_kinv; [|by intros c e n; rewrite lookup_total_empty].
    intros o. rewrite msum_empty. rewrite two_refs by done. lia.
Qed.

(** ** Two ends of a channel *)
Definition demo_slot (r i k : nat) : SlotId := sl (100 + Z.of_nat ((r * 2 + i) * 4 + k)).
Definition demo_chan : Channel := channel_init 2 demo_slot (λ _ _, replicate 256 0).

(** Channel 30 is built; its two capabilities are installed in slots 2 and 3.
    Slots 4 and 5 hold capabilities to notifications 10 and 11. *)
Definition chan0 : Store :=
  attach (sl 1) (sl 5) (notif_cap (ob 11)) (attach (sl 1) (sl 4) (notif_cap (ob 10))
    (plain root_slots (<[ob 30 := 1]> (<[ob 10 := 1]> {[ ob 11 := 1 ]})) ∅ {[ ob 30 := demo_chan ]})).
Definition chan_made : Store :=
  run (retype_install (sl 1) ObjType.Channel (CapKind.Channel (ob 30) ChanEnd.A) 73728 (sl 2) (Some (sl 3))) chan0.

Lemma demo_chan_refs o : msum (chan_refs o) ({[ ob 30 := demo_chan ]} : gmap ObjId Channel) = 0.
Proof. unfold msum. by rewrite map_fold_singleton. Qed.

Lemma chan0_installable : installable chan0 (sl 1) (sl 2) (Some (sl 3)) (CapKind.Channel (ob 30) ChanEnd.A).
Proof.
  split; [|apply channel_init_shape|done|vm_compute; done|].
  - eapply (kinv_bal_ext _ (held (ob 30))); [|done|].
    { intros o. symmetry. by apply cap_bal_obj. }
    apply (attach_notif_kinv _ (λ o, held (ob 30) o + held (ob 11) o)); [|vm_compute; done..|by intros o; lia].
    apply (attach_notif_kinv _ (λ o, held (ob 30) o + held (ob 10) o + held (ob 11) o)); [|vm_compute; done..|by intros o; lia].
    apply root_kinv.
    + intros o. rewrite demo_chan_refs. destruct (decide (o = ob 30)) as [->|]; lk; [done|].
      rewrite two_refs by done. unfold held at 3. rewrite ind_false by done. lia.
    + intros c e n. rewrite lookup_total_alt. destruct (decide (c = ob 30)) as [->|].
      * rewrite lookup_singleton_eq. change (ch_end_caps (default inhabitant (Some demo_chan))) with [0; 0]. destruct e; by intros [= <-].
      * by rewrite lookup_singleton_ne.
  - intros ch e [= <- <-]. split_and!; [done|change (refs chan0 !!! ob 30) with 1; done| |].
    + intros e' n Hn. assert (n = 0) as -> by (change (ch_end_caps (chans chan0 !!! ob 30)) with [0; 0] in Hn; destruct e'; by simplify_eq/=). done.
    + exists (sl 3). split_and!; [done|done|vm_compute; done].
Qed.

Lemma chan_made_kinv : kinv chan_made.
Proof.
  unfold chan_made. apply (wp_run_state _ kinv). eapply wp_mono; [apply (retype_install_kinv chan0 _ _ _ _ _ _ 65536 65536 4096 chan0_installable)|].
  - vm_compute. done.
  - lia.
  - cbv beta. intros _ st' I. apply I.
Qed.

Lemma chan_made_ring : ring_ok (slots chan_made) (chans chan_made !!! ob 30) ∧
  ∀ r, queued chan_made (ob 30) r = [].
Proof.
  assert (chans chan_made !!! ob 30 = MkChannel 2 [1; 1] (ch_head demo_chan) (ch_count demo_chan) (ch_bindings demo_chan) (ch_msgs demo_chan)) as E
    by (vm_compute; reflexivity).
  destruct (channel_init_ok (slots chan_made) 2 demo_slot (λ _ _, replicate 256 0)) as [R Q]; [lia|done|done| | |].
  - intros r i k r' i' k' Hi Hk Hi' Hk' [= Es]. unfold MSG_CAPS in *. lia.
  - intros r i k Hr Hi Hk. destruct r as [|[|]], i as [|[|]], k as [|[|[|[|]]]]; try (unfold MSG_CAPS in *; lia); vm_compute; reflexivity.
  - unfold queued. rewrite E. split; [exact (ring_ok_ends _ demo_chan [1; 1] R eq_refl)|]. intros r. exact (Q r).
Qed.

(** Both notification capabilities are sent from end A. *)
Definition two_caps : list (option SlotId) := [Some (sl 4); Some (sl 5); None; None].

Lemma demo_ring_addr c s : ch_msgs c = ch_msgs demo_chan → is_ring_slot c s → 100 ≤ slot_addr s.
Proof.
  intros E (r & i & k & Hi & Hs). unfold ring_cap, get_msg in Hs. rewrite E in Hs.
  destruct (channel_init_cap 2 demo_slot (λ _ _, replicate 256 0) r i k s Hs) as (_ & _ & _ & ->). unfold demo_slot, sl. cbn [slot_addr]. lia.
Qed.

Lemma chan_made_msgs : ch_msgs (chans chan_made !!! ob 30) = ch_msgs demo_chan.
Proof. vm_compute. reflexivity. Qed.

Lemma chan_made_sendable : sendable chan_made (ob 30) two_caps.
Proof.
  assert (∀ c s, two_caps !! c = Some (Some s) → (c = 0%nat ∧ s = sl 4) ∨ (c = 1%nat ∧ s = sl 5)) as Hc.
  { intros [|[|[|[|c]]]] s [= <-]; naive_solver. }
  split; [done| |].
  - intros c s [[_ ->]|[_ ->]]%Hc; (split; [vm_compute; done|]); intros H%(demo_ring_addr _ _ chan_made_msgs); cbn in H; lia.
  - intros c c' s [[-> ->]|[-> ->]]%Hc [[-> E]|[-> E]]%Hc; done.
Qed.

(** The message is in the ring. *)
Definition in_flight : Store := run (send (ob 30) ChanEnd.A [7; 8; 9] two_caps) chan_made.

Lemma in_flight_ok :
  kinv in_flight ∧ ring_ok (slots in_flight) (chans in_flight !!! ob 30) ∧
  queued in_flight (ob 30) 0 = [([7; 8; 9], [Some (notif_cap (ob 10)); Some (notif_cap (ob 11)); None; None])].
Proof.
  destruct chan_made_ring as [R Q].
  pose proof (send_spec chan_made (ob 30) ChanEnd.A [7; 8; 9] two_caps chan_made_kinv R chan_made_sendable) as H.
  apply wp_inv in H as (r & st' & E & H); [|by apply Nat.leb_le]. unfold in_flight, run. rewrite E.
  destruct r as [[]|[]]; [|exfalso..].
  - split_and!; [apply H|apply H|]. pose proof (sk_queued _ _ _ _ _ _ H) as Hq. cbn [end_idx] in Hq. rewrite Hq, (Q 0%nat). vm_compute. reflexivity.
  - destruct H as [_ H]. cbn [end_idx] in H. rewrite (Q 0%nat) in H. vm_compute in H. done.
  - done.
  - done.
  - destruct H as [_ H]. vm_compute in H. done.
Qed.

Lemma in_flight_ring_addr s : is_ring_slot (chans in_flight !!! ob 30) s → 100 ≤ slot_addr s.
Proof.
  destruct chan_made_ring as [R Q].
  pose proof (send_spec chan_made (ob 30) ChanEnd.A [7; 8; 9] two_caps chan_made_kinv R chan_made_sendable) as H.
  apply wp_inv in H as (r & st' & E & H); [|by apply Nat.leb_le]. unfold in_flight, run. rewrite E.
  assert (outcome_value (send (ob 30) ChanEnd.A [7; 8; 9] two_caps chan_made) = Some (Ok tt)) as Hr by (vm_compute; reflexivity).
  rewrite E in Hr. injection Hr as ->. rewrite (is_ring_slot_layout chan_made st') by apply H.
  apply demo_ring_addr, chan_made_msgs.
Qed.

(** The destinations a receiver names. *)
Definition two_dests : list (option SlotId) := [Some (sl 6); Some (sl 7); None; None].

Lemma two_dests_ok st : (∀ s, is_ring_slot (chans st !!! ob 30) s → 100 ≤ slot_addr s) → receivable st (ob 30) two_dests.
Proof.
  intros E. assert (∀ c s, two_dests !! c = Some (Some s) → (c = 0%nat ∧ s = sl 6) ∨ (c = 1%nat ∧ s = sl 7)) as Hc.
  { intros [|[|[|[|c]]]] s [= <-]; naive_solver. }
  split; [done| |].
  - intros c s [[_ ->]|[_ ->]]%Hc H%E; cbn in H; lia.
  - intros c c' s [[-> ->]|[-> ->]]%Hc [[-> E']|[-> E']]%Hc; done.
Qed.

(** ** A timer armed on a notification *)

(** Notification 65536 lies at the start of the untyped region; its capability in
    slot 2 is a child of the untyped root; timer 50 is armed on it. *)
Definition armed0 : Store := attach (sl 1) (sl 2) (notif_cap (ob 65536)) (plain root_slots {[ ob 65536 := 1 ]} ∅ ∅).
Definition armed : Store := run (arm (ob 50) (ob 65536) 1 1000) armed0.

Lemma armed_kinv : kinv armed.
Proof.
  assert (kinv armed0) as K0.
  { apply (attach_notif_kinv _ (held (ob 65536))); [|vm_compute; done..|by intros o; unfold no_refs; lia].
    apply root_kinv; [|by intros c e n; rewrite lookup_total_empty]. intros o. rewrite msum_empty. unfold held, ind.
    destruct (decide (o = ob 65536)) as [->|]; [done|]. by rewrite lookup_total_alt, lookup_singleton_ne. }
  destruct (ki_timers _ _ _ K0) as [tl T]. unfold armed. apply (wp_run_state _ kinv).
  eapply wp_mono; [apply (arm_spec armed0 tl no_refs _ _ _ _ T (ki_refs _ _ _ K0)); [done|change (refs armed0 !!! ob 65536) with 1; done]|].
  cbv beta. intros _ st' (T' & F & _). by eapply kinv_timer_frame.
Qed.

(** ** An address space *)

(** Slot 1 holds a two-page frame, slot 2 an untyped region whose free part starts
    where the four-table pool of address space 40 ends. *)
Definition paged_slots : gmap SlotId CapSlot :=
  <[sl 1 := slot_set_cap (MkCap (CapKind.Frame 1048576 2 None) Rights.ALL) CapSlot_empty]>
  {[ sl 2 := slot_set_cap (MkCap (CapKind.Untyped 131072 65536 16384) Rights.ALL) CapSlot_empty ]}.
Definition demo_aspace : AspaceObj := aspace_init 1 131072 4 (replicate 4 (replicate 512 0)) 1025 4195331.
Definition paged : Store :=
  with_hw (λ _, []) (with_aspaces (<[ob 40 := demo_aspace]>) (plain paged_slots ∅ ∅ ∅)).

Lemma demo_geom : geom_ok 131072 4.
Proof. split_and!; [lia|done|]. unfold PAGE. lia. Qed.

Lemma demo_aspace_wf : aspace_wf demo_aspace.
Proof.
  apply aspace_init_wf; [apply demo_geom|done|].
  intros t row Hr. apply (lookup_replicate 4) in Hr as [-> _]. done.
Qed.

Lemma paged_slot x : paged_slots !!! x =
  if decide (x = sl 1) then slot_set_cap (MkCap (CapKind.Frame 1048576 2 None) Rights.ALL) CapSlot_empty
  else if decide (x = sl 2) then slot_set_cap (MkCap (CapKind.Untyped 131072 65536 16384) Rights.ALL) CapSlot_empty
  else CapSlot_empty.
Proof.
  unfold paged_slots. destruct (decide (x = sl 1)) as [->|]; lk; [done|].
  destruct (decide (x = sl 2)) as [->|]; [done|]. by rewrite lookup_total_alt, lookup_singleton_ne.
Qed.

Lemma paged_kinv : kinv paged.
Proof.
  apply (aspace_step_kinv _ no_refs no_ends (ob 40) demo_aspace []); [|apply demo_aspace_wf].
  apply plain_kinv.
  - intros x. rewrite paged_slot. by repeat case_decide.
  - intros o. rewrite lookup_total_empty, msum_empty, msum_zero; [done|done|].
    intros x. rewrite paged_slot. by repeat case_decide.
  - intros c e n. by rewrite lookup_total_empty.
  - intros x. rewrite paged_slot. repeat case_decide; unfold PAGE; cbn; [|lia|done]. split; [unfold PAGE; lia|done].
Qed.

(** ** Threads *)

(** A thread that has no capability space, is on no queue and has two report slots. *)
Definition quiet (o : Tcb) : Prop :=
  t_cspace o = None ∧ t_aspace o = None ∧ t_wait_notif o = None ∧ t_qnext o = None ∧
  t_state o ≠ ThreadState.Runnable ∧ 0 ≤ t_priority o < 32.

Lemma quiet_empty t : quiet ((∅ : gmap ObjId Tcb) !!! t).
Proof. by rewrite lookup_total_empty. Qed.

(** Giving a kernel without threads some quiet ones. *)
Lemma crew_kinv st m :
  kinv st → tcbs st = ∅ → (∀ t, quiet (m !!! t)) → (∀ s t p, kind (cap (slots st !!! s)) ≠ CapKind.Thread t p) →
  kinv (with_tcbs (λ _, m) st).
Proof.
  intros [C R Ee (rq & wq & I) T Iq Sh] Et Hq Hn.
  assert (∀ lvl, rq lvl = []) as Hr.
  { intros lvl. destruct (rq lvl) as [|t l] eqn:E; [done|]. assert (t ∈ rq lvl) as Ht by (rewrite E; set_solver).
    apply (rr_in _ _ (si_ready _ _ _ _ I)) in Ht as [Ht _]. rewrite Et, lookup_total_empty in Ht. done. }
  assert (∀ n, wq n = []) as Hw.
  { intros n. destruct (wq n) as [|t l] eqn:E; [done|]. assert (t ∈ wq n) as Ht by (rewrite E; set_solver).
    apply (nr_in _ _ (si_notif _ _ _ _ I)) in Ht as [Ht _]. rewrite Et, lookup_total_empty in Ht. done. }
  destruct I as [[] _ [] Hp]. split; [exact C| |exact Ee| |destruct T as [tl T]; exists tl; apply (timer_repr_ext st); done|exact Iq|].
  - intros o. cbn. rewrite (R o). unfold obj_census. cbn. rewrite Et, (msum_zero (tcb_refs o) m), msum_empty; [done|done|].
    intros t. destruct (Hq t) as (E1 & E2 & E3 & _). unfold tcb_refs. by rewrite E1, E2, E3.
  - exists rq, wq. split.
    + split; cbn; try done.
      * intros lvl q Hl. specialize (rr_queue lvl q Hl). rewrite Hr in *. exact rr_queue.
      * intros lvl t. rewrite Hr. by intros ?%elem_of_nil.
    + intros t. cbn. destruct (Hq t) as (_ & _ & _ & _ & E & _). done.
    + split; cbn; try done.
      * intros n. specialize (nr_queue n). rewrite Hw in *. exact nr_queue.
      * intros n t. rewrite Hw. by intros ?%elem_of_nil.
      * intros n t. destruct (Hq t) as (_ & _ & E & _). by rewrite E.
    + intros t. apply (Hq t).
  - destruct Sh as [Sc _ _]. split.
    + intros s. specialize (Sc s). specialize (Hn s). unfold cap_ok in *. cbn. destruct (kind (cap (slots st !!! s))); try done; by edestruct Hn.
    + intros t cs. cbn. destruct (Hq t) as (E & _). by rewrite E.
    + intros t a. cbn. destruct (Hq t) as (_ & E & _). by rewrite E.
Qed.

(** Thread 60 runs at priority 5; thread 61, at priority 9, has not been started.
    Their report slots are 600 to 611. *)
Definition worker (s : ThreadState.thread_state) (prio base : Z) : Tcb :=
  MkTcb TrapFrame_zeroed s prio None None None None Report.Running [sl base; sl (base + 1)] [0; 0].
Definition crew : Store :=
  with_tcbs (λ _, <[ob 60 := worker ThreadState.Running 5 600]> {[ ob 61 := worker ThreadState.Inactive 9 610 ]}) tree.

Lemma crew_ok : kinv crew.
Proof.
  apply crew_kinv; [apply tree_kinv|done| |].
  - intros t. destruct (decide (t = ob 60)) as [->|]; lk; [done|]. destruct (decide (t = ob 61)) as [->|]; [done|].
    by rewrite lookup_total_alt, lookup_singleton_ne.
  - intros s t p. apply (lookup_total_forall (λ v, kind (cap v) ≠ CapKind.Thread t p)); [done|].
    apply map_Forall_to_list. repeat constructor; vm_compute; done.
Qed.

(** Object sizes of the order the compiler gives them. *)
Definition demo_layout : Layout := MkLayout 64 64 512 256 1024 64 64 384 272.

Lemma demo_layout_ok : layout_ok demo_layout.
Proof. by split. Qed.
