(* ===== verification/Theorems.v ===== *)
(** The properties of the capability core, stated on the whole store, each followed
    by an instance on one of the concrete stores of [Scenarios]. *)

From S2P Require Import Prelude KStore Ready Census Notif Timer Irq Cdt Aspace Kinv Refs Channel Thread Events Cspace Fifo Untyped Retype Sched Sysabi Scenarios.

(** ** Deletion and revocation *)

(** C13: deleting an occupied slot of a consistent kernel terminates without a panic,
    however deep the teardown it triggers; the kernel invariant holds again (tree,
    reference counts, end counts, queues, timers), the slot is empty, and no other
    slot has gained or changed a capability. *)
Theorem delete_sound (st : Store) (s : SlotId) :
  kinv st → occupied st s →
  wp (delete s) (λ _ st', kinv st' ∧ shrinks st st' ∧ ¬ occupied st' s) st.
Proof. intros K Hs. by apply delete_kinv. Qed.

Lemma delete_sound_witness :
  ∃ st', delete (sl 2) tree = Ret (tt, st') ∧ kinv st' ∧ occupied st' (sl 3) ∧ refs st' !!! ob 10 = 1.
Proof.
  pose proof (delete_sound tree (sl 2) tree_kinv) as H.
  apply wp_inv in H as ([] & st' & E & K & _); [|vm_compute; done].
  exists st'. split; [done|]. split; [done|].
  rewrite (run_ret _ _ _ _ E). vm_compute. done.
Defined.

(** C14: revoking a slot terminates without a panic in a consistent kernel; the
    invariant holds again, nothing gains a capability and the slot has no child left.
    Every former descendant is empty if the revoked slot still holds its own capability
    at the end. The revocation itself can empty it, when it tears down a descendant
    CSpace whose table holds the slot; a former descendant may then survive, no longer
    below it: [revoke_zombie] in [SystemTheorems]. *)
Theorem revoke_sound (st : Store) (s : SlotId) :
  kinv st →
  wp (revoke s) (λ _ st', kinv st' ∧ shrinks st st' ∧ first_child (slots st' !!! s) = None ∧
    (occupied st' s → ∀ x, descends (slots st) s x → x ≠ s → ¬ occupied st' x)) st.
Proof.
  intros K. eapply wp_mono; [by apply revoke_kinv|]. cbv beta. intros _ st' (K' & S' & Hc). split_and!; try done.
  intros Hs x Hd Hne Hx. apply Hne. by eapply survivors.
Qed.

Lemma revoke_sound_witness :
  ∃ st', revoke (sl 1) tree = Ret (tt, st') ∧ kinv st' ∧ ¬ occupied st' (sl 2) ∧ ¬ occupied st' (sl 3).
Proof.
  pose proof (revoke_sound tree (sl 1) tree_kinv) as H.
  apply wp_inv in H as ([] & st' & E & K & _). exists st'. split; [done|]. split; [done|].
  rewrite (run_ret _ _ _ _ E). vm_compute. done.
Defined.

(** One revocation quantum terminates and keeps the invariant; it reports [Done]
    exactly with the subtree empty and the mark cleared, and [More] only with the
    mark set and at least [budget] capabilities gone, so that repeated quanta finish. *)
Theorem revoke_step_progress (st : Store) (s : SlotId) (budget : nat) :
  kinv st →
  wp (revoke_step s budget) (λ r st', kinv st' ∧ shrinks st st' ∧
    match r with
    | RevokeStatus.Done => first_child (slots st' !!! s) = None ∧ revoking (slots st' !!! s) = false
    | RevokeStatus.More => occupied st' s ∧ revoking (slots st' !!! s) = true ∧
        full_slots st' ≤ full_slots st - Z.of_nat budget
    end) st.
Proof. apply revoke_step_kinv. Qed.

Lemma revoke_step_progress_witness :
  ∃ st', revoke_step (sl 1) 1 tree = Ret (RevokeStatus.More, st') ∧ kinv st' ∧ full_slots st' ≤ full_slots tree - 1.
Proof.
  pose proof (revoke_step_progress tree (sl 1) 1 tree_kinv) as H.
  apply wp_inv in H as (r & st' & E & K & _ & H). exists st'. rewrite E.
  assert (r = RevokeStatus.More) as -> by (eapply value_ret; [exact E|vm_compute; reflexivity]).
  destruct H as (_ & _ & H). split_and!; [done|done|]. lia.
Defined.

(** C36: however often the handler of a revocation stops at its quantum, re-issuing it
    finishes: from a consistent kernel, some number of quanta of positive budget,
    bounded by the number of occupied slots, ends in [Done]. *)
Theorem revoke_restartable (st : Store) (s : SlotId) (budget : nat) :
  kinv st → (0 < budget)%nat →
  wp (revoke_quanta (Z.to_nat (full_slots st)) s budget) (λ r st', r = RevokeStatus.Done ∧ kinv st' ∧
    first_child (slots st' !!! s) = None) st.
Proof.
  intros K Hb. assert (full_slots st ≤ Z.of_nat (Z.to_nat (full_slots st))) as Hn by lia.
  revert Hn. generalize (Z.to_nat (full_slots st)) as n. intros n. revert st K.
  induction n as [|n IH]; intros st K Hn; cbn [revoke_quanta]; rewrite wp_bind;
    (eapply wp_mono; [by apply revoke_step_kinv|]); cbv beta; intros r st' (K' & S' & Hr); destruct r.
  - rewrite wp_ret. by destruct Hr.
  - destruct Hr as (Ho & _ & Hf). apply full_pos in Ho. lia.
  - rewrite wp_ret. by destruct Hr.
  - destruct Hr as (_ & _ & Hf). apply IH; [done|lia].
Qed.

Lemma revoke_restartable_witness :
  ∃ st', revoke_quanta (Z.to_nat (full_slots tree)) (sl 1) 1 tree = Ret (RevokeStatus.Done, st') ∧ kinv st'.
Proof.
  pose proof (revoke_restartable tree (sl 1) 1 tree_kinv ltac:(lia)) as H.
  apply wp_inv in H as (r & st' & E & -> & K & _). by exists st'.
Defined.

(** ** Derivation *)

(** C24: copying a capability succeeds exactly when no ancestor is being revoked, the
    source is occupied and not untyped, the destination is empty and the counters
    have room; it then installs an attenuated copy (no right, object or priority
    ceiling beyond the source's, never a mapping) as a child of the source, counts
    one reference and keeps the invariant; when it fails nothing has changed. *)
Theorem derive_exact (st : Store) (src dst : SlotId) (mask prio : Z) :
  kinv st → counts_u32 st →
  let c := derived_cap (cap (slots st !!! src)) mask prio in
  attenuates (cap (slots st !!! src)) c ∧
  wp (derive src dst mask prio) (λ r st', match r with
    | Ok _ => derivable st src dst c ∧ kinv st' ∧ derived st src dst c st'
    | Err _ => st' = st ∧ ¬ derivable st src dst c
    end) st.
Proof. intros K C c. split; [apply derived_attenuates|by apply derive_kinv]. Qed.

Lemma small_counts st :
  map_Forall (λ _ r, r ≤ U32_MAX) (refs st) →
  map_Forall (λ _ c, Forall (λ n, n ≤ U32_MAX) (ch_end_caps c)) (chans st) → counts_u32 st.
Proof.
  intros Hr Hc. split.
  - intros o. rewrite lookup_total_alt. destruct (refs st !! o) eqn:E; [by eapply Hr|cbn; unfold U32_MAX; lia].
  - intros ch e n. rewrite lookup_total_alt. destruct (chans st !! ch) eqn:E; [|by destruct e].
    intros Hn. by eapply (Forall_lookup_1 _ _ _ _ (Hc _ _ E)).
Qed.

Lemma tree_counts : counts_u32 tree.
Proof.
  apply small_counts; [|done]. change (refs tree) with ({[ob 10 := 2]} : gmap ObjId Z).
  by apply map_Forall_singleton.
Qed.

Lemma derive_exact_witness :
  ∃ st', derive (sl 3) (sl 4) 1 255 tree = Ret (Ok tt, st') ∧ kinv st' ∧
    cap (slots st' !!! sl 4) = MkCap (CapKind.Notification (ob 10)) (Rights.MkRights 1) ∧ refs st' !!! ob 10 = 3.
Proof.
  destruct (derive_exact tree (sl 3) (sl 4) 1 255 tree_kinv tree_counts) as [_ H].
  apply wp_inv in H as (r & st' & E & H).
  assert (r = Ok tt) as -> by (eapply value_ret; [exact E|vm_compute; reflexivity]). destruct H as (_ & K & D). exists st'. split_and!; [done|done| |].
  - rewrite (dv_cap _ _ _ _ _ D). vm_compute. reflexivity.
  - rewrite (dv_refs _ _ _ _ _ D). vm_compute. reflexivity.
Defined.

(** Moving a capability to an empty slot keeps the invariant: the destination
    takes over the capability and its place in the derivation tree, every parent
    and child link that named the source names the destination, and nothing else
    changes. *)
Theorem slot_move_sound (st : Store) (src dst : SlotId) :
  kinv st → src ≠ dst → ¬ occupied st dst →
  wp (slot_move src dst) (λ _ st', kinv st' ∧
    ∃ m, st' = with_slots (λ _, m) st ∧ moved (slots st) src dst m) st.
Proof.
  intros K Hne Hd. eapply wp_mono; [by apply (slot_move_kinv st no_refs no_ends)|].
  cbv beta. intros _ st' (m & E & M & K' & _). eauto.
Qed.

Lemma slot_move_sound_witness :
  ∃ st', slot_move (sl 2) (sl 7) tree = Ret (tt, st') ∧ kinv st' ∧ parent (slots st' !!! sl 3) = Some (sl 7).
Proof.
  pose proof (slot_move_sound tree (sl 2) (sl 7) tree_kinv) as H.
  apply wp_inv in H as ([] & st' & E & K & _); [|done|vm_compute; done]. exists st'. split; [done|]. split; [done|].
  rewrite (run_ret _ _ _ _ E). vm_compute. reflexivity.
Defined.

(** ** Channels *)

(** Sending appends one message, payload and capabilities, behind those already
    queued, empties exactly the named source slots, and leaves the other direction,
    other channels and every other slot alone; a full ring or a closed peer is
    reported exactly then and changes nothing. *)
Theorem send_appends (st : Store) (ch : ObjId) (e : ChanEnd.chan_end) (data : list Z) (caps : list (option SlotId)) :
  kinv st → ring_ok (slots st) (chans st !!! ch) → sendable st ch caps → (length data ≤ Z.to_nat MSG_PAYLOAD)%nat →
  wp (send ch e data caps) (λ res st', match res with
    | Ok _ => sent_ok st ch (end_idx e) data caps st'
    | Err PeerClosed => st' = st ∧ ch_end_caps (chans st !!! ch) !! peer (end_idx e) = Some 0
    | Err Full => st' = st ∧ Z.of_nat (length (queued st ch (end_idx e))) = ch_depth (chans st !!! ch)
    | Err _ => False
    end) st.
Proof. apply send_spec. Qed.

Lemma send_appends_witness :
  ∃ st', send (ob 30) ChanEnd.A [7; 8; 9] two_caps chan_made = Ret (Ok tt, st') ∧ kinv st' ∧
    queued st' (ob 30) 0 = [([7; 8; 9], [Some (notif_cap (ob 10)); Some (notif_cap (ob 11)); None; None])].
Proof.
  destruct chan_made_ring as [R Q].
  pose proof (send_appends chan_made (ob 30) ChanEnd.A [7; 8; 9] two_caps chan_made_kinv R chan_made_sendable
    ltac:(by apply Nat.leb_le)) as H.
  apply wp_inv in H as (r & st' & E & H). exists st'. rewrite E.
  assert (r = Ok tt) as -> by (eapply value_ret; [exact E|vm_compute; reflexivity]). split; [done|]. split; [apply H|].
  pose proof (sk_queued _ _ _ _ _ _ H) as Hq. cbn [end_idx] in Hq. rewrite Hq, (Q 0%nat). vm_compute. reflexivity.
Defined.

(** Receiving hands over the oldest queued message, its payload into the front of
    the buffer and each capability into the destination of its position, with the
    mask naming exactly the positions filled; an empty ring, or a destination missing
    or occupied for a capability in the message, is reported and changes nothing. *)
Theorem recv_takes_oldest (st : Store) (ch : ObjId) (e : ChanEnd.chan_end) (buf : list Z) (dests : list (option SlotId)) :
  kinv st → ring_ok (slots st) (chans st !!! ch) → receivable st ch dests → length buf = Z.to_nat MSG_PAYLOAD →
  let ring := peer (end_idx e) in
  wp (recv ch e buf dests) (λ res st', match res with
    | (Ok (len, mask), buf') => ∃ msg, recv_ok st ch ring msg dests buf len mask buf' st'
    | (Err Empty, buf') => st' = st ∧ buf' = buf ∧ queued st ch ring = []
    | (Err NoCapSlot, buf') => st' = st ∧ buf' = buf ∧ ∃ msg rest k, queued st ch ring = msg :: rest ∧
        (∃ c, msg.2 !! k = Some (Some c)) ∧ ¬ dest_ready st dests k
    | (Err _, _) => False
    end) st.
Proof. apply recv_spec. Qed.

Lemma recv_takes_oldest_witness :
  ∃ st' buf', recv (ob 30) ChanEnd.B (replicate 256 0) two_dests in_flight = Ret ((Ok (3, 3), buf'), st') ∧ kinv st' ∧
    take 3 buf' = [7; 8; 9] ∧ cap (slots st' !!! sl 6) = notif_cap (ob 10) ∧ cap (slots st' !!! sl 7) = notif_cap (ob 11).
Proof.
  destruct in_flight_ok as (K & R & Q).
  pose proof (recv_takes_oldest in_flight (ob 30) ChanEnd.B (replicate 256 0) two_dests K R
    (two_dests_ok _ in_flight_ring_addr) eq_refl) as H.
  apply wp_inv in H as ([r buf'] & st' & E & H).
  assert (fst <$> outcome_value (recv (ob 30) ChanEnd.B (replicate 256 0) two_dests in_flight) = Some (Ok (3, 3))) as Hr
    by (vm_compute; reflexivity).
  rewrite E in Hr. injection Hr as ->. destruct H as (msg & H). exists st', buf'. split; [done|]. split; [apply H|].
  pose proof (rk_queued _ _ _ _ _ _ _ _ _ _ H) as Hq. change (peer (end_idx ChanEnd.B)) with 0%nat in Hq. rewrite Q in Hq. injection Hq as <- _.
  destruct (rk_received _ _ _ _ _ _ _ _ _ _ H) as [_ -> Hc _]. split; [done|].
  destruct (Hc 0%nat _ eq_refl) as (_ & d & [= <-] & ->), (Hc 1%nat _ eq_refl) as (_ & d' & [= <-] & ->). split; reflexivity.
Defined.





(** ** Untyped memory *)

(** Any sequence of carvings out of one untyped region, each starting at the
    watermark the previous one left, yields aligned, non-empty regions that lie
    inside the untyped region, above the initial watermark, and are pairwise
    disjoint. *)
Theorem carve_disjoint (L : Layout) (base size wm : Z) (reqs : list (ObjType.obj_type * Z)) :
  layout_ok L → 0 ≤ base → 0 ≤ wm → 0 ≤ size → base + size ≤ U64_MAX → Forall (λ r, 0 ≤ r.2) reqs →
  Forall (λ tc, base + wm ≤ c_start tc.2 < c_end tc.2 ∧ c_end tc.2 ≤ base + size ∧
    c_start tc.2 mod ObjType.align tc.1 = 0) (carve_all L base size wm reqs) ∧
  (∀ i j a b, i ≠ j → carve_all L base size wm reqs !! i = Some a → carve_all L base size wm reqs !! j = Some b →
    disjoint_regions a.2 b.2).
Proof.
  intros HL H1 H2 H3 H4 H5. destruct (carve_all_spec L base size wm reqs HL H1 H2 H3 H4 H5) as [F S]. split; [done|].
  intros i j a b Hne Ha Hb. destruct (decide (i < j)%nat) as [Hij|Hij]; [left|right].
  - by apply (StronglySorted_lookup _ _ i j a b S Hij).
  - apply (StronglySorted_lookup _ _ j i b a S); [lia|done|done].
Qed.

Lemma carve_disjoint_witness :
  let grants := carve_all demo_layout 65536 65536 4096 [(ObjType.Thread, 0); (ObjType.Frame, 2)] in
  grants = [(ObjType.Thread, MkCarve 69632 70144 512); (ObjType.Frame, MkCarve 73728 81920 8192)] ∧
  disjoint_regions (MkCarve 69632 70144 512) (MkCarve 73728 81920 8192).
Proof.
  split; [reflexivity|].
  destruct (carve_disjoint demo_layout 65536 65536 4096 [(ObjType.Thread, 0); (ObjType.Frame, 2)] demo_layout_ok) as [_ H];
    [done|done|done|done|by repeat constructor|].
  by apply (H 0%nat 1%nat (ObjType.Thread, MkCarve 69632 70144 512) (ObjType.Frame, MkCarve 73728 81920 8192)).
Defined.

(** One carving is refused exactly when the object's size is refused or the
    aligned object does not fit below the end of the region; otherwise it is placed
    at the first aligned address at or above the watermark. *)
Theorem carve_exact (L : Layout) (base size wm : Z) (ty : ObjType.obj_type) (param : Z) :
  layout_ok L → 0 ≤ base → 0 ≤ wm → 0 ≤ size → base + size ≤ U64_MAX → 0 ≤ param →
  match carve L base size wm ty param with
  | Ok c => ∃ bytes, object_bytes L ty param = Ok bytes ∧ c_start c = align_up (base + wm) (ObjType.align ty) ∧
      c_end c = c_start c + bytes ∧ c_bytes c = bytes ∧ 0 < bytes ∧ c_end c ≤ base + size
  | Err e => object_bytes L ty param = Err e ∨ ∃ bytes, object_bytes L ty param = Ok bytes ∧
      e = RetypeError.NoMemory ∧ base + size < align_up (base + wm) (ObjType.align ty) + bytes
  end.
Proof. apply carve_spec. Qed.

Lemma carve_exact_witness :
  carve demo_layout 65536 65536 100 ObjType.Frame 2 = Ok (MkCarve 69632 77824 8192) ∧ 77824 ≤ 65536 + 65536.
Proof.
  pose proof (carve_exact demo_layout 65536 65536 100 ObjType.Frame 2) as H. split; [reflexivity|].
  change (carve demo_layout 65536 65536 100 ObjType.Frame 2) with (Ok (MkCarve 69632 77824 8192) : result Carve RetypeError.error) in H.
  destruct H as (bytes & _ & _ & _ & _ & _ & H); [by split|done|done|done|done|done|exact H].
Defined.

(** C23: retyping creates the object asked for in memory that holds nothing live: the
    region lies in the free part of the untyped capability, whose watermark moves to
    its end; the new capability (for a channel, one for each end) is put below the
    untyped one with the rights of its kind; every other slot outside the new object
    keeps its capability and the invariant holds. It is refused exactly when the slot
    is not untyped, a destination is missing or taken, or the carving fails, and then
    nothing has changed. That the region holds nothing live is the hypothesis [fresh]: the
    watermark alone does not ensure it, since a reset moves it back under objects that
    timers or bindings keep alive ([reset_under_live_object] in [SystemTheorems]). *)
Theorem retype_sound (L : Layout) (raw_payload raw_table : Z → list Z) (st : Store) (asid k0 k1 cur_prio : Z)
    (ut : SlotId) (ty : ObjType.obj_type) (param : Z) (dst : SlotId) (dst2 : option SlotId) :
  layout_ok L → (∀ a, length (raw_payload a) = Z.to_nat MSG_PAYLOAD) → (∀ a, length (raw_table a) = 512%nat) →
  kinv st → 0 ≤ param →
  (∀ base size w c, kind (cap (slots st !!! ut)) = CapKind.Untyped base size w → carve L base size w ty param = Ok c → fresh st c) →
  wp (retype L raw_payload raw_table asid k0 k1 cur_prio ut ty param dst dst2) (λ r st', match r with
    | Ok c => retyped L st cur_prio ut dst dst2 ty param c st' ∧ dests_free st ty dst dst2
    | Err e => st' = st ∧
        ((e = RetypeError.NotUntyped ∧ ∀ base size w, kind (cap (slots st !!! ut)) ≠ CapKind.Untyped base size w) ∨
         ∃ base size w, kind (cap (slots st !!! ut)) = CapKind.Untyped base size w ∧
           ((e = RetypeError.DestOccupied ∧ ¬ dests_free st ty dst dst2) ∨
            (dests_free st ty dst dst2 ∧ carve L base size w ty param = Err e)))
    end) st.
Proof. intros HL Hp Ht K Hparam Hf. by apply retype_kinv. Qed.

Lemma tree_fresh c : c_start c = 69632 → fresh tree c.
Proof.
  intros Hc. split; rewrite Hc.
  - split; [|intros []; vm_compute; reflexivity|vm_compute; done|vm_compute; reflexivity|done].
    pose proof (ki_refs _ _ _ tree_kinv (ob 69632)) as H. change (refs tree !!! ob 69632) with 0 in H. unfold no_refs in H.
    change (MkObjId 69632) with (ob 69632). lia.
  - intros s Hs. assert (map_Forall (λ x _, slot_addr x ≤ 3) (slots tree)) as H.
    { apply (bool_decide_unpack _). vm_compute. done. }
    unfold occupied. rewrite lookup_total_alt. destruct (slots tree !! s) as [v|] eqn:E; [|done].
    specialize (H _ _ E). cbv beta in H. lia.
Qed.

Lemma retype_sound_witness :
  ∃ st', retype demo_layout (λ _, replicate 256 0) (λ _, replicate 512 0) 1 0 0 5 (sl 1) ObjType.Channel 2 (sl 4) (Some (sl 5)) tree =
      Ret (Ok (MkCarve 69632 73984 4352), st') ∧ kinv st' ∧ parent (slots st' !!! sl 5) = Some (sl 1).
Proof.
  assert (∀ n : nat, ∀ a : Z, length ((λ _ : Z, replicate n 0) a) = n) as raw_ok by (intros n a; apply length_replicate).
  assert (0 ≤ 2) as H2 by done.
  pose proof (retype_sound demo_layout (λ _, replicate 256 0) (λ _, replicate 512 0) tree 1 0 0 5 (sl 1) ObjType.Channel 2 (sl 4) (Some (sl 5))
    demo_layout_ok (raw_ok _) (raw_ok _) tree_kinv H2) as H.
  apply wp_inv in H as (r & st' & E & H).
  - assert (r = Ok (MkCarve 69632 73984 4352)) as -> by (eapply value_ret; [exact E|vm_compute; reflexivity]).
    destruct H as [H _]. exists st'. split_and!; [done|apply H|]. by apply (rt_dst2 _ _ _ _ _ _ _ _ _ _ H).
  - intros base size w c Hk Hc. apply tree_fresh. vm_compute in Hk. injection Hk as <- <- <-. vm_compute in Hc. by injection Hc as <-.
Defined.

(** Resetting an untyped region succeeds exactly when the slot holds an untyped
    capability without derivation children; it only puts the watermark back to 0;
    otherwise nothing changes and the error tells which condition failed. *)
Theorem reset_exact (st : Store) (s : SlotId) :
  kinv st →
  wp (reset s) (λ r st', match r with
    | Ok _ => kinv st' ∧ first_child (slots st !!! s) = None ∧
        (∃ base size w, kind (cap (slots st !!! s)) = CapKind.Untyped base size w ∧
           cap (slots st' !!! s) = MkCap (CapKind.Untyped base size 0) (rights (cap (slots st !!! s)))) ∧
        (∀ x, x ≠ s → slots st' !!! x = slots st !!! x) ∧ shape_le st st' ∧ tcbs st' = tcbs st
    | Err e => st' = st ∧ (e = RetypeError.BadArg ↔
        (∃ base size w, kind (cap (slots st !!! s)) = CapKind.Untyped base size w) ∧ first_child (slots st !!! s) ≠ None)
    end) st.
Proof. apply reset_kinv. Qed.

Lemma reset_exact_witness : reset (sl 1) tree = Ret (Err RetypeError.BadArg, tree) ∧ kinv tree.
Proof.
  split; [|apply tree_kinv].
  pose proof (reset_exact tree (sl 1) tree_kinv) as H. apply wp_inv in H as (r & st' & E & H).
  assert (r = Err RetypeError.BadArg) as -> by (eapply value_ret; [exact E|vm_compute; reflexivity]).
  by destruct H as [-> _].
Defined.

(** ** Address spaces *)

(** C26: mapping a page range is all or nothing: on success every page of the range was
    unmapped and now translates to its frame with the permissions asked for, every
    other user page translates as before and a barrier was issued; on failure no
    user translation changed, and the error is [BadVa] exactly for a range that is
    misaligned or outside the user window. The tables stay well formed. *)
Theorem aspace_map_all_or_nothing (st : Store) (asp : ObjId) (pa va pages perms : Z) :
  aspace_wf (aspaces st !!! asp) → 0 ≤ va → 0 ≤ pages → 0 ≤ pa ∧ pa + pages * PAGE ≤ U64_MAX →
  wp (aspace_map asp pa va pages perms) (λ r st', ∃ a' h, st' = with_hw (λ _, h) (with_aspaces (<[asp := a']>) st) ∧
    aspace_wf a' ∧
    let old := mapped (as_pool_base a') (pt_view (aspaces st !!! asp) []) in
    let new := mapped (as_pool_base a') (pt_view a' []) in
    match r with
    | Ok _ => va_range_ok va pages = true ∧ h = BarrierAfterMap :: hw st ∧
        (∀ j, 0 ≤ j < pages → old (va + j * PAGE) = 0 ∧ new (va + j * PAGE) = pte_encode (pa + j * PAGE) perms) ∧
        (∀ w, user_va w → w mod PAGE = 0 → ¬ in_pages va 0 pages w → new w = old w)
    | Err e => (∀ w, user_va w → new w = old w) ∧ h = hw st ∧ (e = BadVa ↔ va_range_ok va pages = false) ∧
        (e = AlreadyMapped → ∃ k, 0 ≤ k < pages ∧ old (va + k * PAGE) ≠ 0)
    end) st.
Proof. apply aspace_map_spec. Qed.

Lemma paged_aspace : aspaces paged !!! ob 40 = demo_aspace.
Proof. unfold paged. cbn. by lk. Qed.

Lemma aspace_map_all_or_nothing_witness :
  outcome_value (aspace_map (ob 40) 1048576 2147483648 2 1 paged) = Some (Ok tt) ∧
  ∃ a', aspace_wf a' ∧ mapped (as_pool_base a') (pt_view a' []) 2147487744 = pte_encode 1052672 1.
Proof.
  pose proof (aspace_map_all_or_nothing paged (ob 40) 1048576 2147483648 2 1) as H. rewrite paged_aspace in H.
  apply wp_inv in H as (r & st' & E & a' & h & _ & W & H); [|apply demo_aspace_wf|done..].
  assert (outcome_value (aspace_map (ob 40) 1048576 2147483648 2 1 paged) = Some (Ok tt)) as Hr by (vm_compute; reflexivity).
  split; [done|]. rewrite (value_ret _ _ _ _ _ E Hr) in H. destruct H as (_ & _ & H & _).
  exists a'. split; [done|]. by apply (H 1).
Defined.

(** Unmapping clears exactly the pages of the range, leaves every other user page
    translating as before, and keeps the tables well formed. *)
Theorem aspace_unmap_exact (st : Store) (asp : ObjId) (va pages : Z) :
  aspace_wf (aspaces st !!! asp) → va_range_ok va pages = true → 0 ≤ va → 0 ≤ pages →
  wp (aspace_unmap asp va pages) (λ _ st', ∃ a' h, st' = with_hw (λ _, h) (with_aspaces (<[asp := a']>) st) ∧
    aspace_wf a' ∧ as_pool_base a' = as_pool_base (aspaces st !!! asp) ∧
    (∀ w, user_va w → w mod PAGE = 0 → in_pages va 0 pages w → mapped (as_pool_base a') (pt_view a' []) w = 0) ∧
    (∀ w, user_va w → w mod PAGE = 0 → ¬ in_pages va 0 pages w →
       mapped (as_pool_base a') (pt_view a' []) w = mapped (as_pool_base a') (pt_view (aspaces st !!! asp) []) w)) st.
Proof. apply aspace_unmap_spec. Qed.

Lemma aspace_unmap_exact_witness :
  wp (aspace_unmap (ob 40) 2147483648 2) (λ _ st', aspace_wf (aspaces st' !!! ob 40)) paged.
Proof.
  pose proof (aspace_unmap_exact paged (ob 40) 2147483648 2) as H. rewrite paged_aspace in H.
  eapply wp_mono; [apply H; [apply demo_aspace_wf|done..]|].
  cbv beta. intros _ st' (a' & h & -> & W & _). cbn. by lk.
Defined.

(** The user-range check the kernel makes before touching user memory answers yes
    exactly when the range lies in the user window and every page it overlaps is
    mapped, and mapped writable for a write; it changes nothing. *)
Theorem range_mapped_exact (base : Z) (pt : Pt) (leaves : gset nat) (write : bool) (va len : Z) :
  pt_wf base pt leaves → 0 ≤ va ≤ U64_MAX → 0 ≤ len →
  ∃ r, range_mapped_in base va len write pt = Ret (r, pt) ∧
    (r = true ↔ if decide (len = 0) then user_va va
      else USER_VA_BASE ≤ va ∧ va + len ≤ USER_VA_END ∧
        ∀ w, va / PAGE * PAGE ≤ w < va + len → w mod PAGE = 0 → page_usable base pt write w).
Proof. intros W. by apply (range_mapped_in_spec base pt leaves write W). Qed.

Lemma range_mapped_exact_witness :
  range_mapped_in 131072 2147483650 100 false (pt_view demo_aspace []) = Ret (false, pt_view demo_aspace []) ∧
  ¬ page_usable 131072 (pt_view demo_aspace []) false 2147483648.
Proof.
  destruct demo_aspace_wf as [leaves W].
  destruct (range_mapped_exact 131072 (pt_view demo_aspace []) leaves false 2147483650 100 W) as (r & E & Hr); [done|done|].
  assert (r = false) as -> by (eapply value_ret; [exact E|vm_compute; reflexivity]).
  split; [done|]. intros Hu. cut (false = true); [done|]. apply Hr. rewrite decide_False by done. split_and!; [done|done|].
  intros w Hw Hm. assert (w = 2147483648) as -> by (cbv [PAGE] in *; change (2147483650 / 4096 * 4096) with 2147483648 in Hw;
    apply Z.mod_divide in Hm as [q Hq]; lia). done.
Defined.

(** Mapping a frame through its capability records the mapping in that capability
    and counts one reference to the address space exactly when the page tables took
    all its pages; on an error the capability, the counts and every user translation
    are as before. The kernel invariant is kept. *)
Theorem map_frame_sound (st : Store) (fs : SlotId) (asp : ObjId) (va perms base pages : Z) :
  kinv st → kind (cap (slots st !!! fs)) = CapKind.Frame base pages None → refs st !!! asp < U32_MAX →
  aspace_wf (aspaces st !!! asp) → 0 ≤ va →
  wp (map_frame fs asp va perms) (λ r st', kinv st' ∧ (∀ x, x ≠ fs → slots st' !!! x = slots st !!! x) ∧
    let base_of := as_pool_base (aspaces st' !!! asp) in
    let old := mapped base_of (pt_view (aspaces st !!! asp) []) in
    let new := mapped base_of (pt_view (aspaces st' !!! asp) []) in
    match r with
    | Ok _ => kind (cap (slots st' !!! fs)) = CapKind.Frame base pages (Some (asp, va)) ∧
        rights (cap (slots st' !!! fs)) = rights (cap (slots st !!! fs)) ∧
        refs st' !!! asp = refs st !!! asp + 1 ∧
        (∀ j, 0 ≤ j < pages → old (va + j * PAGE) = 0 ∧ new (va + j * PAGE) = pte_encode (base + j * PAGE) perms) ∧
        (∀ w, user_va w → w mod PAGE = 0 → ¬ in_pages va 0 pages w → new w = old w)
    | Err _ => slots st' = slots st ∧ refs st' = refs st ∧ (∀ w, user_va w → new w = old w)
    end) st.
Proof.
  intros K Hk Hr Hw Hva. eapply wp_mono; [by apply map_frame_kinv|]. cbv beta zeta. intros r st' (K' & _ & _ & Hs & H). done.
Qed.

Lemma map_frame_sound_witness :
  ∃ st', map_frame (sl 1) (ob 40) 2147483648 1 paged = Ret (Ok tt, st') ∧ kinv st' ∧ refs st' !!! ob 40 = 1.
Proof.
  pose proof (map_frame_sound paged (sl 1) (ob 40) 2147483648 1 1048576 2 paged_kinv) as H. rewrite paged_aspace in H.
  apply wp_inv in H as (r & st' & E & K & _ & H); [|vm_compute; reflexivity|change (refs paged !!! ob 40) with 0; done|apply demo_aspace_wf|done..].
  assert (r = Ok tt) as -> by (eapply value_ret; [exact E|vm_compute; reflexivity]).
  destruct H as (_ & _ & H & _). exists st'. split_and!; [done|done|exact H].
Defined.

(** Growing a page-table pool from an untyped region succeeds only when the free
    part of the region starts exactly where the pool ends and has room; the pool then
    has that many more tables, every user translation is unchanged, and the invariant
    is kept; a refused request changes nothing. *)
Theorem aspace_topup_sound (st : Store) (ut : SlotId) (asp : ObjId) (pages base size w : Z) :
  kinv st → kind (cap (slots st !!! ut)) = CapKind.Untyped base size w → aspace_wf (aspaces st !!! asp) →
  0 ≤ pages →
  wp (aspace_topup ut asp pages) (λ r st', match r with
    | Ok _ => kinv st' ∧ base + w = as_pool_base (aspaces st !!! asp) + Z.of_nat (length (as_pool (aspaces st !!! asp))) * PAGE ∧
        kind (cap (slots st' !!! ut)) = CapKind.Untyped base size (w + pages * PAGE) ∧ w + pages * PAGE ≤ size ∧
        aspace_wf (aspaces st' !!! asp) ∧
        Z.of_nat (length (as_pool (aspaces st' !!! asp))) = Z.of_nat (length (as_pool (aspaces st !!! asp))) + pages ∧
        (∀ va, user_va va → mapped (as_pool_base (aspaces st !!! asp)) (pt_view (aspaces st' !!! asp) []) va =
          mapped (as_pool_base (aspaces st !!! asp)) (pt_view (aspaces st !!! asp) []) va) ∧
        (∀ x, x ≠ ut → slots st' !!! x = slots st !!! x) ∧ shape_le st st' ∧ tcbs st' = tcbs st
    | Err _ => st' = st
    end) st.
Proof. apply aspace_topup_kinv. Qed.

Lemma aspace_topup_sound_witness :
  ∃ st', aspace_topup (sl 2) (ob 40) 3 paged = Ret (Ok tt, st') ∧ kinv st' ∧ length (as_pool (aspaces st' !!! ob 40)) = 7%nat.
Proof.
  pose proof (aspace_topup_sound paged (sl 2) (ob 40) 3 131072 65536 16384 paged_kinv) as H. rewrite paged_aspace in H.
  apply wp_inv in H as (r & st' & E & H); [|vm_compute; reflexivity|apply demo_aspace_wf|done..].
  assert (r = Ok tt) as -> by (eapply value_ret; [exact E|vm_compute; reflexivity]).
  destruct H as (K & _ & _ & _ & _ & H & _). exists st'. split_and!; [done|done|].
  change (length (as_pool demo_aspace)) with 4%nat in H. lia.
Defined.

(** A page-table entry holds the frame address it was built from, is valid and
    never executable by the kernel; it is writable from user code only when asked for
    and executable only when asked for on memory that is not device memory. *)
Theorem pte_roundtrip (pa perms : Z) :
  0 ≤ pa < 2 ^ 48 → pa mod PAGE = 0 →
  let e := pte_encode pa perms in
  pte_output_pa e = pa ∧ e ≠ 0 ∧ Z.land e 3 = 3 ∧ Z.testbit e 53 = true ∧
  (Z.land (Z.shiftr e 6) 3 = 1 ↔ Z.land perms PERM_W ≠ 0) ∧
  (Z.testbit e 54 = false ↔ Z.land perms PERM_X ≠ 0 ∧ Z.land perms PERM_DEVICE = 0).
Proof.
  intros Hpa Hal e. split_and!; [by apply pte_output_pa_encode|apply pte_encode_nonzero|..].
  all: destruct (pte_low pa perms) as (low & El & Hl & H3 & H53 & H6 & H54); unfold e; rewrite El.
  - rewrite Z.land_lor_distr_l, <-Z.land_assoc, H3. change (Z.land ADDR_MASK 3) with 0. by rewrite Z.land_0_r.
  - by rewrite Z.lor_spec, H53, orb_true_r.
  - rewrite Z.shiftr_lor, Z.land_lor_distr_l, H6, Z.shiftr_land, <-Z.land_assoc.
    change (Z.land (Z.shiftr ADDR_MASK 6) 3) with 0. rewrite Z.land_0_r, Z.lor_0_l.
    destruct (Z.eqb_spec (Z.land perms PERM_W) 0); cbn [negb]; split; try done; lia.
  - rewrite Z.lor_spec, Z.land_spec, testbit_addr_mask by lia. change ((12 <=? 54) && (54 <? 48)) with false.
    rewrite andb_false_r, orb_false_l, H54. destruct (Z.eqb_spec (Z.land perms PERM_X) 0), (Z.eqb_spec (Z.land perms PERM_DEVICE) 0); cbn; naive_solver.
Qed.

Lemma pte_roundtrip_witness : pte_output_pa (pte_encode 1048576 3) = 1048576 ∧ Z.testbit (pte_encode 1048576 3) 54 = false.
Proof. destruct (pte_roundtrip 1048576 3) as (H & _ & _ & _ & _ & H54); [done|done|]. split; [exact H|]. by apply H54. Defined.
