(* ===== verification/EventTheorems.v ===== *)
(** The properties of the event sources and of the scheduler, stated on the whole
    store, each followed by an instance on one of the concrete stores of
    [Scenarios]. *)

From S2P Require Import Prelude KStore Ready Census Notif Timer Irq Cdt Aspace Kinv Refs Channel Thread Events Cspace Fifo Untyped Retype Sched Sysabi Scenarios.

(** ** Notifications *)

(** Nobody but the head waiter changes run state. *)
Lemma signal_only st rq wq E b n bits u st' :
  sched_inv st rq wq E → refs_bal st b → 0 ≤ b n → n_wait_head (notifs st !!! n) ≠ Some u →
  signal n bits st = Ret (tt, st') → t_state (tcbs st' !!! u) = t_state (tcbs st !!! u).
Proof.
  intros I Hb Hbn Hu Hrun. pose proof (queue_head _ _ _ _ (nr_queue _ _ (si_notif _ _ _ _ I) n)) as Hh. rewrite Hh in Hu.
  destruct (decide (Z.lor (n_word (notifs st !!! n)) bits = 0 ∨ wq n = [])) as [Hq|Hq].
  { rewrite (signal_quiet st rq wq E I n bits Hq) in Hrun. by simplify_eq. }
  destruct (wq n) as [|t l] eqn:Hwq; [tauto|].
  assert (t ∈ wq n) as Hin by (rewrite Hwq; set_solver).
  pose proof (signal_wake st rq wq E I n bits t l Hwq ltac:(tauto) (waiter_refs _ _ _ _ I b n t Hb Hbn Hin)) as Hs.
  cbv zeta in Hs. unfold wp in Hs. rewrite Hrun in Hs. apply Hs. by intros ->.
Qed.

(** Signalling a notification of a consistent kernel terminates and keeps the
    invariant. With nobody waiting, or with an empty word, the bits are accumulated;
    otherwise the longest waiter, and only it, becomes runnable with the whole word
    as its return value and the word is cleared. No capability, object or other
    thread field changes. *)
Theorem signal_exact (st : Store) (n : ObjId) (bits : Z) :
  kinv st →
  wp (signal n bits) (λ _ st', kinv st' ∧ wake_frame st st' ∧ signalled st n bits st' ∧
    ∀ u, n_wait_head (notifs st !!! n) ≠ Some u → t_state (tcbs st' !!! u) = t_state (tcbs st !!! u)) st.
Proof.
  intros K. destruct (ki_sched _ _ _ K) as (rq & wq & I). pose proof (ki_refs _ _ _ K) as R.
  assert (0 ≤ no_refs n) as Hn by done. pose proof (signal_effect st rq wq ∅ no_refs n bits I R Hn) as H.
  apply wp_inv in H as ([] & st' & E & S & W). eapply wp_of_eq; [exact E|]. split_and!; [by eapply kinv_wakes|apply W|done|].
  intros u Hu. eapply signal_only; [exact I|exact R|exact Hn|exact Hu|exact E].
Qed.

(** Thread 60 blocks on notification 10. *)
Definition crew_blocked : Store := run (wait (ob 10) (ob 60)) crew.

Lemma crew_blocked_ok : kinv crew_blocked ∧ wait (ob 10) (ob 60) crew = Ret (None, crew_blocked).
Proof.
  assert (outcome_value (wait (ob 10) (ob 60) crew) = Some None) as Hv by (vm_compute; reflexivity).
  pose proof (wait_kinv crew (ob 10) (ob 60) crew_ok) as H. apply wp_inv in H as (r & st' & E & K & _);
    [|reflexivity|change (refs crew !!! ob 10) with 2; done].
  rewrite (run_ret _ _ _ _ E) in K. split; [exact K|]. rewrite E in Hv |- *. injection Hv as ->.
  by rewrite (run_ret _ _ _ _ E).
Qed.

Lemma signal_exact_witness :
  ∃ st', signal (ob 10) 5 crew_blocked = Ret (tt, st') ∧ kinv st' ∧
    t_state (tcbs st' !!! ob 60) = ThreadState.Runnable ∧ regs (t_frame (tcbs st' !!! ob 60)) !! 0%nat = Some 5.
Proof.
  pose proof (signal_exact crew_blocked (ob 10) 5 (proj1 crew_blocked_ok)) as H.
  apply wp_inv in H as ([] & st' & E & K & _ & S & _). exists st'. split; [done|]. split; [done|].
  rewrite (run_ret _ _ _ _ E). vm_compute. done.
Defined.

(** Waiting on a notification either takes the accumulated word, leaving 0, and
    changes no thread, or, exactly when the word is 0, blocks the caller at the end
    of the wait queue with one more reference to the notification; the invariant is
    kept and every other thread stays in the run state it had. *)
Theorem wait_exact (st : Store) (n cur : ObjId) :
  kinv st → t_state (tcbs st !!! cur) = ThreadState.Running → refs st !!! n < U32_MAX →
  wp (wait n cur) (λ r st', kinv st' ∧ wake_frame st st' ∧ n_word (notifs st' !!! n) = 0 ∧
    (∀ u, u ≠ cur → t_state (tcbs st' !!! u) = t_state (tcbs st !!! u)) ∧
    match r with
    | Some w => w = n_word (notifs st !!! n) ∧ w ≠ 0 ∧ tcbs st' = tcbs st ∧ refs st' = refs st
    | None => n_word (notifs st !!! n) = 0 ∧ t_state (tcbs st' !!! cur) = ThreadState.BlockedNotif ∧
        t_wait_notif (tcbs st' !!! cur) = Some n ∧ n_wait_tail (notifs st' !!! n) = Some cur ∧
        refs st' !!! n = refs st !!! n + 1
    end) st.
Proof. apply wait_kinv. Qed.

Lemma wait_exact_witness :
  ∃ st', wait (ob 10) (ob 60) crew = Ret (None, st') ∧ kinv st' ∧
    t_state (tcbs st' !!! ob 60) = ThreadState.BlockedNotif ∧ refs st' !!! ob 10 = 3.
Proof.
  pose proof (wait_exact crew (ob 10) (ob 60) crew_ok) as H. apply wp_inv in H as (r & st' & E & K & _ & _ & _ & H);
    [|reflexivity|change (refs crew !!! ob 10) with 2; done].
  assert (r = None) as -> by (eapply value_ret; [exact E|vm_compute; reflexivity]).
  destruct H as (_ & Hs & _ & _ & Hr). exists st'. split_and!; [done|done|done|]. rewrite Hr. reflexivity.
Defined.

(** ** Timers and interrupts *)

(** A clock tick terminates and fires exactly the timers that are due: the walk
    over the armed list equals expiring its members in order, each member whose
    deadline has passed is disarmed and signalled although the walk is on the list
    it is taken from, and the others stay armed in their order. *)
Theorem check_expired_exact (st : Store) (now : Z) :
  kinv st → ∃ tl, timer_repr st tl ∧ check_expired now st = expire_all now tl st ∧
  wp (check_expired now) (λ _ st', kinv st' ∧ shrinks st st' ∧ timer_repr st' (pending st now tl)) st.
Proof.
  intros K. destruct (ki_timers _ _ _ K) as [tl T]. exists tl. split; [done|]. by apply check_expired_kinv.
Qed.

Lemma check_expired_exact_witness :
  ∃ st', check_expired 1000 armed = Ret (tt, st') ∧ kinv st' ∧ armed_head st' = None ∧
    n_word (notifs st' !!! ob 65536) = 1 ∧ check_expired 999 armed = Ret (tt, armed).
Proof.
  destruct (check_expired_exact armed 1000 armed_kinv) as (tl & _ & _ & H).
  apply wp_inv in H as ([] & st' & E & K & _). exists st'. split; [done|]. split; [done|].
  rewrite (run_ret _ _ _ _ E). split_and!; vm_compute; reflexivity.
Defined.

(** Arming a timer puts it at the front of the armed list exactly once, however it
    was armed before, with the new deadline, notification and bits; the reference to
    the old notification is released and one to the new is counted (the invariant),
    and every other timer keeps its setting. *)
Theorem arm_exact (st : Store) (t n : ObjId) (bits deadline : Z) :
  kinv st → refs st !!! n < U32_MAX →
  wp (arm t n bits deadline) (λ _ st', kinv st' ∧ shrinks st st' ∧ notifs st' = notifs st ∧
    (∀ tl, timer_repr st tl → timer_repr st' (t :: filter (λ u, u ≠ t) tl)) ∧
    tm_deadline (timers st' !!! t) = deadline ∧ tm_notif (timers st' !!! t) = Some n ∧ tm_bits (timers st' !!! t) = bits ∧
    (∀ u, u ≠ t → let o := timers st !!! u in let o' := timers st' !!! u in
       tm_deadline o' = tm_deadline o ∧ tm_notif o' = tm_notif o ∧ tm_bits o' = tm_bits o)) st.
Proof. apply arm_kinv. Qed.

Lemma arm_exact_witness :
  ∃ st', arm (ob 50) (ob 65536) 4 2000 armed = Ret (tt, st') ∧ kinv st' ∧ refs st' !!! ob 65536 = 2 ∧ armed_head st' = Some (ob 50).
Proof.
  pose proof (arm_exact armed (ob 50) (ob 65536) 4 2000 armed_kinv) as H.
  apply wp_inv in H as ([] & st' & E & K & _); [|vm_compute; reflexivity]. exists st'. split; [done|]. split; [done|].
  rewrite (run_ret _ _ _ _ E). split; vm_compute; reflexivity.
Defined.

(** Interrupt handler 70 serves line 33 and is bound to notification 10 with bit 3. *)
Definition wired0 : Store := with_hw (λ _, []) (with_irqs (<[ob 70 := MkIrq 33 None 0 false false]>) tree).
Definition wired : Store := run (irq_bind (ob 70) (ob 10) 8) wired0.

Lemma wired_ok : kinv wired.
Proof.
  destruct (kinv_set_irq tree no_refs no_ends (ob 70) (MkIrq 33 None 0 false false) [] tree_kinv) as [K _]; [done|done|].
  apply (wp_run_state _ kinv). eapply wp_mono; [apply (irq_bind_kinv wired0 _ _ _ K); change (refs wired0 !!! ob 10) with 2; done|].
  cbv beta. intros _ st' H. apply H.
Qed.

(** An interrupt is routed to the first handler of the boot table with its line;
    when that handler is bound, its line is masked at the controller and its
    notification is signalled with its bits, and the invariant is kept; a line with
    no bound handler changes nothing and is reported as such. *)
Theorem deliver_exact (st : Store) (table : list ObjId) (intid : Z) :
  kinv st →
  wp (deliver table intid) (λ r st',
    match routed st table intid with
    | Some i =>
        let o := irqs st !!! i in
        if i_bound o then
          r = true ∧ kinv st' ∧ shrinks st st' ∧ hw st' = GicDisable intid :: hw st ∧
          irqs st' = <[i := MkIrq (i_intid o) (i_notif o) (i_bits o) true true]> (irqs st) ∧
          ∃ n st1, i_notif o = Some n ∧ notifs st1 = notifs st ∧ tcbs st1 = tcbs st ∧ signalled st1 n (i_bits o) st'
        else r = false ∧ st' = st
    | None => r = false ∧ st' = st
    end) st.
Proof. apply deliver_kinv. Qed.

Lemma deliver_exact_witness :
  ∃ st', deliver [ob 70] 33 wired = Ret (true, st') ∧ kinv st' ∧ n_word (notifs st' !!! ob 10) = 8 ∧
    i_masked (irqs st' !!! ob 70) = true.
Proof.
  pose proof (deliver_exact wired [ob 70] 33 wired_ok) as H. apply wp_inv in H as (r & st' & E & H).
  assert (routed wired [ob 70] 33 = Some (ob 70) ∧ i_bound (irqs wired !!! ob 70) = true) as [E1 E2] by (vm_compute; done).
  rewrite E1 in H; cbv zeta beta iota in H; rewrite E2 in H. destruct H as (-> & K & _). exists st'. split; [done|]. split; [done|].
  rewrite (run_ret _ _ _ _ E). split; vm_compute; reflexivity.
Defined.

(** ** Terminal reports *)

(** A thread's first terminal report is recorded, and signals the notification
    bound for its kind (exit or fault) if there is one, keeping the invariant; any
    later report changes nothing, so the first is final. *)
Theorem report_terminal_once (st : Store) (t : ObjId) (r : Report.report) :
  kinv st → tcb_ok st t → r ≠ Report.Running →
  if decide (t_report (tcbs st !!! t) = Report.Running) then
    wp (report_terminal t r) (λ _ st', kinv st' ∧ shrinks st st' ∧ slots st' = slots st ∧ t_report (tcbs st' !!! t) = r ∧
      (∀ u, u ≠ t → t_report (tcbs st' !!! u) = t_report (tcbs st !!! u)) ∧
      match report_binding st t r with
      | Some (n, bits) => signalled (with_tcbs (λ m, <[t := tcb_set_report r (m !!! t)]> m) st) n bits st'
      | None => notifs st' = notifs st
      end) st
  else report_terminal t r st = Ret (tt, st).
Proof.
  intros K Ht Hr. case_decide; [by apply report_terminal_kinv|by apply report_terminal_absorbing].
Qed.

Lemma report_terminal_once_witness :
  ∃ st', report_terminal (ob 60) (Report.Exited 7) crew = Ret (tt, st') ∧ kinv st' ∧
    t_report (tcbs st' !!! ob 60) = Report.Exited 7 ∧ report_terminal (ob 60) (Report.Exited 8) st' = Ret (tt, st').
Proof.
  pose proof (report_terminal_once crew (ob 60) (Report.Exited 7) crew_ok) as H.
  rewrite decide_True in H by reflexivity. apply wp_inv in H as ([] & st' & E & K & S & _ & Hr & _); [|done|done].
  exists st'. split_and!; [done|done|done|].
  assert (tcb_ok st' (ob 60)) as Ht by (apply (sl_tcb _ _ (sh_shape _ _ S)); done).
  pose proof (report_terminal_once st' (ob 60) (Report.Exited 8) K Ht) as H. rewrite decide_False in H by (rewrite Hr; done).
  by apply H.
Defined.

(** ** Scheduling *)

(** C37: at exception exit, when some thread can run, the kernel settles on one thread:
    it alone is Running, it is current, and no runnable thread has a higher
    priority. It is the interrupted thread, untouched, when no queue is above it
    (or level with it, if equals may preempt); else it is the head of the highest
    non-empty queue, with its saved frame and its address space loaded, and the
    interrupted thread's frame saved and, if it was still running, the thread
    requeued. The invariant is kept. *)
Theorem maybe_switch_settles (kernel_ttbr0 : Z) (ks : KState) (preempt_equal : bool) :
  kinv (k_store ks) → one_running ks → cur_not_ready ks → can_run ks →
  ∃ rq wq, sched_inv (k_store ks) rq wq ∅ ∧
  wp (maybe_switch kernel_ttbr0 preempt_equal)
    (λ _ ks', kinv (k_store ks') ∧ ∃ t, switched kernel_ttbr0 ks rq preempt_equal ks' t) ks.
Proof.
  intros K H1 H2 H3. destruct (ki_sched _ _ _ K) as (rq & wq & I). exists rq, wq. split; [done|].
  eapply wp_mono; [by eapply maybe_switch_spec|]. cbv beta. intros _ ks' [t S]. split; [|by exists t].
  eapply kinv_wake_frame; [done|apply S|apply S].
Qed.

(** Thread 61 has been made runnable above the running thread 60. *)
Definition crew_ready : Store := run (make_runnable (ob 61)) crew.
Definition crew_cpu : KState := MkK crew_ready (Some (ob 60)) TrapFrame_zeroed (λ _, 0) 1 0 [].

Lemma crew_ready_ok : kinv crew_ready.
Proof.
  destruct (ki_sched _ _ _ crew_ok) as (rq & wq & I). apply (wp_run_state _ kinv).
  assert (off_queues rq wq (ob 61)) as [Hr Hw] by (eapply stopped_off; [exact I|done|done]).
  eapply wp_mono; [by apply (make_runnable_inv crew rq wq ∅ (ob 61) I)|]. cbv beta. intros _ st' (F & I' & _).
  eapply kinv_wake_frame; [apply crew_ok|by apply wake_frame_sched|]. do 2 eexists. eapply sched_inv_mono; [|exact I']. set_solver.
Qed.

Lemma crew_states : ∀ t, t_state (tcbs crew_ready !!! t) =
  if decide (t = ob 60) then ThreadState.Running else if decide (t = ob 61) then ThreadState.Runnable else ThreadState.Inactive.
Proof.
  intros t. assert (tcbs crew_ready = <[ob 61 := tcbs crew_ready !!! ob 61]> (tcbs crew)) as -> by (vm_compute; reflexivity).
  destruct (decide (t = ob 61)) as [->|]; lk; [vm_compute; reflexivity|]. unfold crew. cbn [tcbs with_tcbs].
  destruct (decide (t = ob 60)) as [->|]; lk; [done|]. by rewrite lookup_total_alt, lookup_singleton_ne.
Qed.

Lemma maybe_switch_settles_witness :
  ∃ ks', maybe_switch 4096 false crew_cpu = Ret (tt, ks') ∧ kinv (k_store ks') ∧ k_current ks' = Some (ob 61) ∧
    t_state (tcbs (k_store ks') !!! ob 60) = ThreadState.Runnable.
Proof.
  destruct (maybe_switch_settles 4096 crew_cpu false crew_ready_ok) as (rq & wq & _ & H).
  - intros t. cbn. rewrite crew_states. repeat case_decide; congruence.
  - intros t. cbn. intros [= <-]. rewrite crew_states. by rewrite decide_True.
  - left. exists (ob 60). cbn. by rewrite crew_states.
  - apply wp_inv in H as ([] & ks' & E & K & _). exists ks'. split; [done|]. split; [done|].
    assert (ks' = match maybe_switch 4096 false crew_cpu with Ret (_, k) => k | _ => crew_cpu end) as -> by (by rewrite E).
    vm_compute. done.
Defined.

(** ** Decoding a system call *)

(** C38: decoding a system call yields exactly one of: a call whose checked arguments
    are in range (message length, event index, binding index, priority), for a call
    number and arguments no error applies to; or the one error that does apply. *)
Theorem decode_exact (nr : Z) (a : Args) :
  0 ≤ nr → 0 ≤ a1 a → 0 ≤ a2 a → 0 ≤ a4 a → 0 ≤ a5 a →
  match decode nr a with
  | Ok s => sys_valid s ∧ ∀ e, ¬ sys_refused nr a e
  | Err e => sys_refused nr a e
  end.
Proof. apply decode_spec. Qed.

Lemma decode_exact_witness : sys_refused 8 (MkArgs 0 0 300 0 0 0 0) SysError.MsgTooLong ∧
  decode 8 (MkArgs 0 0 300 0 0 0 0) = Err SysError.MsgTooLong.
Proof. split; [|reflexivity]. apply (decode_exact 8 (MkArgs 0 0 300 0 0 0 0)); done. Defined.
