(* ===== verification/SystemTheorems.v ===== *)
(** The properties of the whole kernel: what exceptions from user code do to the machine,
    that the machine boots into the invariant and keeps it while system calls keep to
    [sync_ok], and three runs that show where the code stops short of what its comments
    promise. *)

From S2P Require Import Prelude KStore Ready Census Notif Timer Irq Cdt Aspace Kinv Refs Channel Thread Events Cspace Fifo Untyped Retype Arena Sched Sysabi Syscall Execute Boot Scenarios.

(** ** A boot image *)

Definition demo_slot (i : nat) : SlotId := MkSlotId (1000 + 100 * Z.of_nat i).
Definition demo_main : KM unit := kernel_main (ob 2) (ob 3) TrapFrame_zeroed 4096.
Definition demo_image : KState :=
  boot_state (ob 1) (ob 2) (ob 3) (ob 4) (ob 5) demo_slot (sl 10, sl 20) (sl 30, sl 40) 1077936128 demo_aspace
    TrapFrame_zeroed TrapFrame_zeroed 4096 (λ _, 0).

Lemma demo_slots : NoDup ((sl 10, sl 20).1 :: (sl 10, sl 20).2 :: (demo_slot <$> seq 0 64)).
Proof. apply (bool_decide_unpack _). vm_compute. done. Qed.
Lemma demo_objs : NoDup [ob 1; ob 2; ob 3; ob 4; ob 5].
Proof. apply (bool_decide_unpack _). vm_compute. done. Qed.
Lemma demo_base : 0 ≤ 1077936128 ≤ USER_BASE.
Proof. vm_compute. split; congruence. Qed.

(** The machine after it has booted. *)
Definition demo_machine : KState := match demo_main demo_image with Ret (_, ks) => ks | _ => demo_image end.

Lemma demo_sysok : sysok (ob 3) demo_machine.
Proof.
  pose proof (boot_sysok (ob 1) (ob 2) (ob 3) (ob 4) (ob 5) demo_slot (sl 10, sl 20) (sl 30, sl 40) 1077936128 demo_aspace
    TrapFrame_zeroed TrapFrame_zeroed 4096 demo_objs demo_slots demo_base demo_aspace_wf (λ _, 0)) as H.
  unfold demo_machine, demo_main, demo_image. unfold wp in H. destruct (kernel_main _ _ _ _ _) as [[[] ks]| |]; done.
Qed.

(** ** Every exception *)

(** C2: a synchronous exception of a user thread terminates without a panic, in a state
    where the kernel invariant holds again, exactly one thread is running and it is
    the current one: any fault, and any system call, of any number and with any
    arguments, that meets [sync_ok]. The conditions of [sync_ok] are not checked by the
    kernel: the registers hold 64-bit values, no reference or message counter is about
    to overflow, the slots a message is sent from or received into are pairwise
    different, and memory carved for a new object holds no live object. The third is
    needed: [recv_duplicate_breaks] below. *)
Theorem sync_exception_sound (L : Layout) (k0 k1 kernel_ttbr0 : Z) (debug_log : bool) (idle : ObjId) (ks : KState) (esr far now : Z) :
  layout_ok L → sysok idle ks → sync_ok L idle esr ks →
  wp (handle_el0_sync L k0 k1 kernel_ttbr0 debug_log esr far now) (λ _ ks', sysok idle ks') ks.
Proof. intros HL. by apply handle_sync_ok. Qed.

(** Init's first exception: register 7 holds the number of [DebugPutc]. *)
Lemma demo_sync_ok : sync_ok demo_layout (ob 3) (Z.shiftl 21 26) demo_machine.
Proof.
  split; [vm_compute; congruence|intros _]. split_and!.
  - assert (k_frame demo_machine = TrapFrame_zeroed) as -> by (vm_compute; reflexivity).
    intros i. unfold reg, TrapFrame_zeroed. cbn [regs]. rewrite list_lookup_total_alt.
    destruct (replicate 31 0 !! i) as [v|] eqn:E; [apply (lookup_replicate 31) in E as [-> _]|]; cbn; unfold U64_MAX; lia.
  - assert (∀ o, refs (k_store demo_machine) !!! o < U32_MAX - 1) as Hr
      by (apply (lookup_total_forall (λ v, v < U32_MAX - 1)); [done|apply (bool_decide_unpack _); vm_compute; done]).
    split; [split|exact Hr]; [intros o; specialize (Hr o); lia|]. intros ch e n.
    assert (chans (k_store demo_machine) = ∅) as -> by (vm_compute; reflexivity). rewrite lookup_total_empty. by destruct e.
  - intros sys Hd. assert (Ok (Sys.DebugPutc 0) = Ok sys) as [= <-] by (rewrite <-Hd; vm_compute; reflexivity). exact I.
Qed.

Lemma demo_console ks' :
  handle_el0_sync demo_layout 0 0 4096 true (Z.shiftl 21 26) 0 0 demo_machine = Ret (tt, ks') → k_uart ks' = [0].
Proof.
  intros E. assert (k_uart <$> match handle_el0_sync demo_layout 0 0 4096 true (Z.shiftl 21 26) 0 0 demo_machine with
    | Ret (_, k) => Some k | _ => None end = Some [0]) as Hu by (vm_compute; reflexivity). rewrite E in Hu. by injection Hu.
Qed.

(** Init writes a character to the console. *)
Lemma sync_exception_sound_witness :
  ∃ ks', handle_el0_sync demo_layout 0 0 4096 true (Z.shiftl 21 26) 0 0 demo_machine = Ret (tt, ks') ∧ sysok (ob 3) ks' ∧ k_uart ks' = [0].
Proof.
  pose proof demo_sync_ok as Hok.
  pose proof (sync_exception_sound demo_layout 0 0 4096 true (ob 3) demo_machine (Z.shiftl 21 26) 0 0 demo_layout_ok demo_sysok Hok) as H.
  apply wp_inv in H as ([] & ks' & E & H). exists ks'. split_and!; [done|done|].
  by apply (demo_console _ E).
Defined.

(** C3: every interrupt taken from user code, a timer tick or a device, terminates
    without a panic in a state where the kernel invariant holds again and the current
    thread is running. *)
Theorem irq_exception_sound (kernel_ttbr0 : Z) (idle : ObjId) (ks : KState) (irq_table : list ObjId) (intid now : Z) :
  sysok idle ks → wp (handle_el0_irq kernel_ttbr0 irq_table intid now) (λ _ ks', sysok idle ks') ks.
Proof. apply handle_irq_ok. Qed.

(** The console's interrupt arrives with nobody bound to it. *)
Lemma irq_exception_sound_witness :
  ∃ ks', handle_el0_irq 4096 [ob 4] 33 0 demo_machine = Ret (tt, ks') ∧ sysok (ob 3) ks'.
Proof.
  pose proof (irq_exception_sound 4096 (ob 3) demo_machine [ob 4] 33 0 demo_sysok) as H.
  apply wp_inv in H as ([] & ks' & E & H). by exists ks'.
Defined.

(** C1: the machine boots into the kernel invariant, and stays in it for as long as every
    system call meets [sync_ok]: user code may do anything to its registers and memory,
    any fault, any interrupt and any such call may follow, and in every state reached
    the invariant holds, exactly one thread runs, and the handler of whatever such event
    comes next returns without a panic. The machine's step [mstep] itself takes every
    event; the run is restricted by [heeds], which the kernel does not enforce:
    different message slots, an unused carve region, room in the counters, an idle
    thread that raises no exception. [recv_duplicate_breaks] is a call outside it that
    is accepted and breaks the invariant. *)
Theorem machine_safe (L : Layout) (root init idle pl011 asp : ObjId) (slot_at : nat → SlotId) (init_bind idle_bind : SlotId * SlotId)
    (untyped_base : Z) (init_aspace : AspaceObj) (init_frame idle_frame : TrapFrame) (k0 k1 kernel_ttbr0 : Z) (debug_log : bool)
    (irq_table : list ObjId) (mem : Z → Z) :
  layout_ok L → NoDup [root; init; idle; pl011; asp] → NoDup (init_bind.1 :: init_bind.2 :: (slot_at <$> seq 0 64)) →
  0 ≤ untyped_base ≤ USER_BASE → aspace_wf init_aspace →
  ∃ ks0, kernel_main init idle init_frame kernel_ttbr0
      (boot_state root init idle pl011 asp slot_at init_bind idle_bind untyped_base init_aspace init_frame idle_frame kernel_ttbr0 mem) =
      Ret (tt, ks0) ∧
    ∀ ks, rtc (heeded L k0 k1 kernel_ttbr0 debug_log idle irq_table) ks0 ks → sysok idle ks ∧
      ∀ e, heeds L idle e ks → ∃ ks', mstep L k0 k1 kernel_ttbr0 debug_log irq_table e ks ks'.
Proof.
  intros HL Ho Hs Hb Ha. pose proof (boot_sysok root init idle pl011 asp slot_at init_bind idle_bind untyped_base init_aspace
    init_frame idle_frame kernel_ttbr0 Ho Hs Hb Ha mem) as H. apply wp_inv in H as ([] & ks0 & E & H). exists ks0. split; [done|].
  intros ks Hr. assert (sysok idle ks) as S by (by eapply heeded_sysok). split; [done|]. intros e He.
  pose proof (handle_sysok L HL k0 k1 kernel_ttbr0 debug_log idle irq_table e ks He S) as Hw. apply wp_inv in Hw as ([] & ks' & E' & _). by exists ks'.
Qed.

(** From the boot image above, through a system call. *)
Lemma machine_safe_witness :
  ∃ ks', rtc (heeded demo_layout 0 0 4096 true (ob 3) [ob 4]) demo_machine ks' ∧ k_uart ks' = [0] ∧ sysok (ob 3) ks'.
Proof.
  destruct (machine_safe demo_layout (ob 1) (ob 2) (ob 3) (ob 4) (ob 5) demo_slot (sl 10, sl 20) (sl 30, sl 40) 1077936128 demo_aspace
    TrapFrame_zeroed TrapFrame_zeroed 0 0 4096 true [ob 4] (λ _, 0) demo_layout_ok demo_objs demo_slots demo_base demo_aspace_wf)
    as (ks0 & E & H).
  assert (demo_machine = ks0) as E0 by (unfold demo_machine, demo_main, demo_image; by rewrite E).
  pose proof (handle_sync_ok demo_layout demo_layout_ok 0 0 4096 true (ob 3) demo_machine (Z.shiftl 21 26) 0 0 demo_sysok demo_sync_ok) as Hw.
  apply wp_inv in Hw as ([] & ks' & E' & _).
  assert (rtc (heeded demo_layout 0 0 4096 true (ob 3) [ob 4]) demo_machine ks') as Hr
    by (apply rtc_once; eapply heeded_sync; [apply demo_sync_ok|exact E']).
  exists ks'. split_and!; [done| |apply H; by rewrite <-E0].
  by apply (demo_console _ E').
Defined.

(** ** Where the code stops short *)

(** A receive that names one slot twice: what [resolve_cap_list] lets through. *)
Definition twice : list (option SlotId) := [Some (sl 6); Some (sl 6); None; None].
Definition doubled : Store := run (recv (ob 30) ChanEnd.B (replicate 256 0) twice) in_flight.

(** Init in the identity window, four equal indices at its start. *)
Definition identity_machine : KState :=
  with_store (with_tcbs (λ m, <[ob 2 := tcb_set_aspace None (m !!! ob 2)]> m)) demo_machine.

(** A receive whose destination list names one slot twice is accepted and breaks the
    invariant: the second capability overwrites the first, whose object keeps a
    reference no capability accounts for, and the slot becomes its own sibling. The
    state before is consistent, and the system call's argument check lets such a list
    through. *)
Theorem recv_duplicate_breaks :
  outcome_value (resolve_cap_list USER_BASE false identity_machine) = Some (Ok (replicate MSG_CAPS (Some (demo_slot 0)))) ∧
  kinv in_flight ∧ fst <$> outcome_value (recv (ob 30) ChanEnd.B (replicate 256 0) twice in_flight) = Some (Ok (3, 3)) ∧
  ¬ kinv doubled ∧ refs doubled !!! ob 10 = 1 ∧ obj_census doubled (ob 10) = 0 ∧ next_sib (slots doubled !!! sl 6) = Some (sl 6).
Proof.
  assert (refs doubled !!! ob 10 = 1) as H1 by (vm_compute; reflexivity).
  assert (obj_census doubled (ob 10) = 0) as H2 by (vm_compute; reflexivity).
  split_and!; [vm_compute; reflexivity|apply in_flight_ok|vm_compute; reflexivity| |done|done|vm_compute; reflexivity].
  intros K. pose proof (ki_refs _ _ _ K (ob 10)) as H. unfold no_refs in H. rewrite H1, H2 in H. lia.
Qed.

(** Revoking a capability empties the revoked slot itself when one of its
    descendants is a CSpace capability whose table holds the slot; a former
    descendant then survives, no longer reachable from it. *)
Theorem revoke_zombie :
  kinv zombie ∧ parent (slots zombie !!! sl 2) = Some (sl 1) ∧
  outcome_value (revoke (sl 1) zombie) = Some tt ∧
  occupied zombie (sl 1) ∧ ¬ occupied (run (revoke (sl 1)) zombie) (sl 1) ∧ occupied (run (revoke (sl 1)) zombie) (sl 2).
Proof.
  split_and!; [apply zombie_kinv|vm_compute; reflexivity|vm_compute; reflexivity|..]; apply (bool_decide_unpack _); vm_compute; done.
Qed.

(** An untyped region can be reset while an object carved from it is in use: a timer
    keeps its notification alive after the last capability is deleted, and the reset
    then succeeds because it looks only at derivation children. *)
Theorem reset_under_live_object :
  kinv armed ∧ outcome_value ((delete (sl 2);; reset (sl 1)) armed) = Some (Ok tt) ∧
  tm_notif (timers (run (delete (sl 2);; reset (sl 1)) armed) !!! ob 50) = Some (ob 65536) ∧
  kind (cap (slots (run (delete (sl 2);; reset (sl 1)) armed) !!! sl 1)) = CapKind.Untyped 65536 65536 0.
Proof. split_and!; [apply armed_kinv|vm_compute; reflexivity..]. Qed.
