(* ===== verification/Bytes.v ===== *)
(** Byte formats: little-endian integers ([le-bytes/src/lib.rs], [to_le_bytes] and
    [from_le_bytes]), the strict reader of [cas/src/prolly.rs] and what it means for a
    parser to consume exactly an encoding. A byte is a [Z] in [[0, 256)]. *)

From stdpp Require Import strings.
From S2P Require Import Prelude.

#[local] Ltac Zify.zify_post_hook ::= Z.div_mod_to_equations.

(** ** Little-endian integers *)

(** [x.to_le_bytes()] at [n] bytes. *)
Fixpoint le_bytes (n : nat) (x : Z) : list Z :=
  match n with O => [] | S n' => x mod 256 :: le_bytes n' (x / 256) end.
(** [from_le_bytes] *)
Fixpoint le_value (l : list Z) : Z :=
  match l with [] => 0 | b :: l' => b + 256 * le_value l' end.

Definition u16_le := le_bytes 2.
Definition u32_le := le_bytes 4.
Definition u64_le := le_bytes 8.

Definition is_byte (b : Z) : Prop := 0 ≤ b < 256.
Definition is_bytes (l : list Z) : Prop := Forall is_byte l.
(** The values of an [n]-byte integer. *)
Definition fits_in (n : nat) (x : Z) : Prop := 0 ≤ x < 256 ^ Z.of_nat n.

Lemma le_bytes_length n x : length (le_bytes n x) = n.
Proof. revert x. induction n as [|n IH]; intros x; cbn; [done|]. by rewrite IH. Qed.

Lemma le_bytes_bytes n x : is_bytes (le_bytes n x).
Proof. revert x. induction n as [|n IH]; intros x; cbn; constructor; [|apply IH]. unfold is_byte. lia. Qed.

Lemma pow256_S n : 256 ^ Z.of_nat (S n) = 256 * 256 ^ Z.of_nat n.
Proof. rewrite Nat2Z.inj_succ, Z.pow_succ_r by lia. done. Qed.

Lemma le_value_bytes n x : fits_in n x → le_value (le_bytes n x) = x.
Proof.
  unfold fits_in. revert x. induction n as [|n IH]; intros x Hx; [cbn in *; lia|]. rewrite pow256_S in Hx. cbn [le_bytes le_value].
  rewrite IH; lia.
Qed.

Lemma le_bytes_value l n : is_bytes l → length l = n → le_bytes n (le_value l) = l.
Proof.
  intros Hl <-. induction Hl as [|b l Hb Hl IH]; [done|]. cbn [length le_bytes le_value]. unfold is_byte in Hb. f_equal; [lia|].
  transitivity (le_bytes (length l) (le_value l)); [f_equal; lia|exact IH].
Qed.

Lemma le_value_fits l n : is_bytes l → length l = n → fits_in n (le_value l).
Proof.
  unfold fits_in. intros Hl <-. induction Hl as [|b l Hb Hl IH]; [cbn; lia|]. cbn [length le_value]. rewrite pow256_S. unfold is_byte in Hb. lia.
Qed.

Lemma is_bytes_app l1 l2 : is_bytes (l1 ++ l2) ↔ is_bytes l1 ∧ is_bytes l2.
Proof. apply Forall_app. Qed.

Lemma concat_fmap_length {A : Type} (f : A → list Z) n l : (∀ x, x ∈ l → length (f x) = n) → length (concat (f <$> l)) = (length l * n)%nat.
Proof.
  induction l as [|x l IH]; intros Hf; cbn; [done|]. rewrite length_app, IH by (intros; apply Hf; by right). rewrite Hf by (by left). done.
Qed.

(** ** Slices *)

(** [l.len()] *)
Definition len_z (l : list Z) : Z := Z.of_nat (length l).
Lemma len_z_pos (v : list Z) : v ≠ [] → 0 < len_z v.
Proof. unfold len_z. destruct v; [done|]. cbn. lia. Qed.
Lemma len_z_nonneg (v : list Z) : 0 ≤ len_z v.
Proof. unfold len_z. lia. Qed.

(** [l[p..p + len]] *)
Definition slice (l : list Z) (p len : Z) : list Z := take (Z.to_nat len) (drop (Z.to_nat p) l).
(** [l[p..p + data.len()].copy_from_slice(data)] *)
Definition splice (l : list Z) (p : Z) (data : list Z) : list Z :=
  take (Z.to_nat p) l ++ data ++ drop (Z.to_nat p + length data) l.

Lemma slice_lookup m p n i : slice m p n !! i = if decide (i < Z.to_nat n)%nat then m !! (Z.to_nat p + i)%nat else None.
Proof. unfold slice. case_decide; [by rewrite lookup_take_lt, lookup_drop|by rewrite lookup_take_ge by lia]. Qed.

Lemma slice_length m p n : 0 ≤ p → 0 ≤ n → p + n ≤ Z.of_nat (length m) → length (slice m p n) = Z.to_nat n.
Proof. intros. unfold slice. rewrite length_take, length_drop. lia. Qed.

Lemma splice_lookup m p data i :
  0 ≤ p → p + Z.of_nat (length data) ≤ Z.of_nat (length m) →
  splice m p data !! i = if decide (Z.to_nat p ≤ i < Z.to_nat p + length data)%nat then data !! (i - Z.to_nat p)%nat else m !! i.
Proof.
  intros Hp Hl. unfold splice. assert (length (take (Z.to_nat p) m) = Z.to_nat p) as E by (rewrite length_take; lia).
  destruct (decide (i < Z.to_nat p)%nat) as [Hi|Hi].
  - rewrite lookup_app_l by lia. rewrite lookup_take_lt by done. by rewrite decide_False by lia.
  - rewrite lookup_app_r by lia. rewrite E. destruct (decide (i < Z.to_nat p + length data)%nat).
    + rewrite lookup_app_l by lia. by rewrite decide_True by lia.
    + rewrite lookup_app_r by lia. rewrite lookup_drop, decide_False by lia. f_equal. lia.
Qed.

Lemma splice_length m p data : 0 ≤ p → p + Z.of_nat (length data) ≤ Z.of_nat (length m) → length (splice m p data) = length m.
Proof. intros. unfold splice. rewrite !length_app, length_take, length_drop. lia. Qed.

Lemma slice_splice_in m o l off data :
  0 ≤ o → 0 ≤ off → off + Z.of_nat (length data) ≤ l → o + l ≤ Z.of_nat (length m) →
  slice (splice m (o + off) data) o l = splice (slice m o l) off data.
Proof.
  intros. apply list_eq. intros i. rewrite slice_lookup, splice_lookup, splice_lookup, slice_lookup by (rewrite ?slice_length; lia).
  destruct (decide (i < Z.to_nat l)%nat) as [Hi|Hi].
  - replace (Z.to_nat (o + off)) with (Z.to_nat o + Z.to_nat off)%nat by lia. repeat case_decide; try lia; [|done]. f_equal. lia.
  - by rewrite decide_False by lia.
Qed.

Lemma slice_splice_out m o l q data :
  0 ≤ o → 0 ≤ l → 0 ≤ q → q + Z.of_nat (length data) ≤ Z.of_nat (length m) → q + Z.of_nat (length data) ≤ o ∨ o + l ≤ q →
  slice (splice m q data) o l = slice m o l.
Proof.
  intros. apply list_eq. intros i. rewrite !slice_lookup. case_decide; [|done]. rewrite splice_lookup by lia. by rewrite decide_False by lia.
Qed.

Lemma splice_eq m p data :
  0 ≤ p → p + Z.of_nat (length data) ≤ Z.of_nat (length m) → slice (splice m p data) p (Z.of_nat (length data)) = data.
Proof.
  intros. apply list_eq. intros i. rewrite slice_lookup, splice_lookup by lia. case_decide; [|symmetry; apply lookup_ge_None; lia].
  rewrite decide_True by lia. f_equal. lia.
Qed.

(** ** The reader *)

Inductive FormatError : Type := BadName | BadEntry (why : string) | BadNode (why : string) | MissingNode (h : list Z) | NotSorted.

Record Reader : Type := MkReader { rd_buf : list Z; rd_pos : nat }.
Definition reader (buf : list Z) : Reader := MkReader buf 0.
(** The bytes not yet taken. *)
Definition rest (r : Reader) : list Z := drop (rd_pos r) (rd_buf r).

(** A parser: a value and the reader behind it, or an error. *)
Definition parse (A : Type) : Type := Reader → result (A * Reader) FormatError.
#[global] Instance parse_ret : MRet parse := λ A a r, Ok (a, r).
#[global] Instance parse_bind : MBind parse := λ A B f p r,
  match p r with Ok (a, r') => f a r' | Err e => Err e end.
Lemma pbind {A B : Type} (p : parse A) (f : A → parse B) r : (p ≫= f) r = match p r with Ok (a, r') => f a r' | Err e => Err e end.
Proof. done. Qed.
Definition refuse {A : Type} (e : FormatError) : parse A := λ _, Err e.

Definition rd_take (n : nat) : parse (list Z) := λ r,
  if decide (rd_pos r + n ≤ length (rd_buf r))%nat
  then Ok (take n (drop (rd_pos r) (rd_buf r)), MkReader (rd_buf r) (rd_pos r + n))
  else Err (BadNode "truncated").
Definition rd_u8 : parse Z := l ← rd_take 1; mret (le_value l).
Definition rd_u16 : parse Z := l ← rd_take 2; mret (le_value l).
Definition rd_u32 : parse Z := l ← rd_take 4; mret (le_value l).
Definition rd_u64 : parse Z := l ← rd_take 8; mret (le_value l).
Definition rd_hash : parse (list Z) := rd_take 32.
Definition rd_done : parse bool := λ r, Ok (bool_decide (rd_pos r = length (rd_buf r)), r).

(** [for _ in 0..n { ... }] accumulating a state *)
Fixpoint rd_repeat {A : Type} (n : nat) (f : A → parse A) (a : A) : parse A :=
  match n with O => mret a | S n' => a' ← f a; rd_repeat n' f a' end.

(** ... pushing one item per round *)
Definition rd_list {A : Type} (n : nat) (item : parse A) : parse (list A) :=
  rd_repeat n (λ acc, x ← item; mret (acc ++ [x])) [].

(** ** What a parser consumes *)

(** [p] takes exactly [l] off any input that starts with it, and gives [a]. *)
Definition reads {A : Type} (p : parse A) (a : A) (l : list Z) : Prop :=
  ∀ r tail, (rd_pos r ≤ length (rd_buf r))%nat → rest r = l ++ tail →
    p r = Ok (a, MkReader (rd_buf r) (rd_pos r + length l)).

(** ... and whatever it accepts, it accepts for a reason: [l] is what it took. *)
Definition took (r r' : Reader) (l : list Z) : Prop :=
  rd_buf r' = rd_buf r ∧ rd_pos r' = (rd_pos r + length l)%nat ∧ (rd_pos r' ≤ length (rd_buf r))%nat ∧ rest r = l ++ rest r'.

Lemma rest_advance r l tail :
  (rd_pos r ≤ length (rd_buf r))%nat → rest r = l ++ tail →
  rest (MkReader (rd_buf r) (rd_pos r + length l)) = tail ∧ (rd_pos r + length l ≤ length (rd_buf r))%nat.
Proof.
  intros Hp E. unfold rest in *. cbn. rewrite <-drop_drop, E, drop_app_length. split; [done|].
  apply (f_equal length) in E. rewrite length_drop, length_app in E. lia.
Qed.

Section reads_lemmas.
Context {A B : Type}.
Implicit Types (p : parse A) (f : A → parse B).

Lemma reads_ret (a : A) : reads (mret a) a [].
Proof. intros [b n] tail Hp E. cbn. by rewrite Nat.add_0_r. Qed.

Lemma reads_bind p f a b l1 l2 : reads p a l1 → reads (f a) b l2 → reads (p ≫= f) b (l1 ++ l2).
Proof.
  intros H1 H2 r tail Hp E. rewrite <-app_assoc in E. unfold mbind, parse_bind. rewrite (H1 r _ Hp E).
  destruct (rest_advance r l1 (l2 ++ tail) Hp E) as [E2 Hp2]. rewrite (H2 (MkReader (rd_buf r) (rd_pos r + length l1)) tail Hp2 E2). cbn. by rewrite length_app, Nat.add_assoc.
Qed.

Lemma reads_last p (g : A → B) a l : reads p a l → reads (p ≫= λ x, mret (g x)) (g a) l.
Proof. intros H. rewrite <-(app_nil_r l). eapply reads_bind; [exact H|]. intros [b n] tail Hp E. cbn. by rewrite Nat.add_0_r. Qed.

Lemma reads_then p f a b l : reads p a l → reads (f a) b [] → reads (p ≫= f) b l.
Proof. intros H1 H2. rewrite <-(app_nil_r l). by eapply reads_bind. Qed.

Lemma reads_all p a l : reads p a l → p (reader l) = Ok (a, MkReader l (length l)).
Proof. intros H. apply (H (reader l) []); cbn; [lia|]. unfold rest. cbn. by rewrite app_nil_r. Qed.
End reads_lemmas.

Lemma reads_take l : reads (rd_take (length l)) l l.
Proof.
  intros r tail Hp E. destruct (rest_advance r l tail Hp E) as [_ Hle]. unfold rd_take. rewrite decide_True by done.
  unfold rest in E. by rewrite E, take_app_length.
Qed.

Lemma reads_take_n n l : length l = n → reads (rd_take n) l l.
Proof. intros <-. apply reads_take. Qed.

Lemma reads_le n x : fits_in n x → reads (l ← rd_take n; mret (le_value l)) x (le_bytes n x).
Proof.
  intros Hx. rewrite <-(app_nil_r (le_bytes n x)). eapply reads_bind; [apply reads_take_n, le_bytes_length|].
  rewrite le_value_bytes by done. apply reads_ret.
Qed.

Lemma reads_u8 x : fits_in 1 x → reads rd_u8 x [x].
Proof. intros Hx. assert (le_bytes 1 x = [x]) as E. { unfold fits_in in Hx. cbn in *. f_equal. lia. } rewrite <-E. by apply (reads_le 1). Qed.
Lemma reads_u16 x : fits_in 2 x → reads rd_u16 x (u16_le x).
Proof. apply (reads_le 2). Qed.
Lemma reads_u32 x : fits_in 4 x → reads rd_u32 x (u32_le x).
Proof. apply (reads_le 4). Qed.
Lemma reads_u64 x : fits_in 8 x → reads rd_u64 x (u64_le x).
Proof. apply (reads_le 8). Qed.
Lemma reads_hash l : length l = 32%nat → reads rd_hash l l.
Proof. apply reads_take_n. Qed.

(** The same for a parser that also checks that nothing is left. *)
Definition ends {A : Type} (p : parse A) (a : A) (l : list Z) : Prop :=
  ∀ r, (rd_pos r ≤ length (rd_buf r))%nat → rest r = l → p r = Ok (a, MkReader (rd_buf r) (length (rd_buf r))).

Lemma ends_bind {A B : Type} (p : parse A) (f : A → parse B) a b l1 l2 : reads p a l1 → ends (f a) b l2 → ends (p ≫= f) b (l1 ++ l2).
Proof.
  intros H1 H2 r Hp E. unfold mbind, parse_bind. rewrite (H1 r _ Hp E). destruct (rest_advance r l1 l2 Hp E) as [E2 Hp2].
  by rewrite (H2 (MkReader (rd_buf r) (rd_pos r + length l1)) Hp2 E2).
Qed.

Lemma ends_done {A : Type} (a : A) e : ends (d ← rd_done; if negb d then refuse e else mret a) a [].
Proof.
  intros [b n] Hp E. unfold rest in E. cbn in *. apply (f_equal length) in E. rewrite length_drop in E. cbn in E.
  assert (n = length b) as -> by lia. unfold mbind, parse_bind, rd_done. cbn. by rewrite bool_decide_eq_true_2.
Qed.

Lemma ends_all {A : Type} (p : parse A) a l : ends p a l → p (reader l) = Ok (a, MkReader l (length l)).
Proof. intros H. apply (H (reader l)); cbn; [lia|done]. Qed.

Lemma ends_magic {A : Type} why (m : list Z) (k : parse A) (a : A) l :
  length m = 4%nat → ends k a l → ends (mg ← rd_take 4; if negb (bool_decide (mg = m)) then refuse (BadNode why) else k) a (m ++ l).
Proof. intros Hm Hk. eapply ends_bind; [by apply reads_take_n|]. by rewrite bool_decide_eq_true_2. Qed.

(** A counted sequence of items, each encoded by [enc]. *)
Lemma reads_repeat {A X : Type} (step : X → A → A) (enc : X → list Z) (f : A → parse A) (xs : list X) (a : A) :
  (∀ x a, x ∈ xs → reads (f a) (step x a) (enc x)) →
  reads (rd_repeat (length xs) f a) (foldl (λ a x, step x a) a xs) (concat (enc <$> xs)).
Proof.
  revert a. induction xs as [|x xs IH]; intros a H; cbn; [apply reads_ret|]. eapply reads_bind; [apply H; by left|]. apply IH. intros y b Hy. apply H. by right.
Qed.

Lemma foldl_snoc {A : Type} (l acc : list A) : foldl (λ a x, a ++ [x]) acc l = acc ++ l.
Proof. revert acc. induction l as [|x l IH]; intros acc; cbn; [by rewrite app_nil_r|]. by rewrite IH, <-app_assoc. Qed.

Lemma reads_list {X : Type} (item : parse X) (enc : X → list Z) (xs : list X) :
  (∀ x, x ∈ xs → reads item x (enc x)) → reads (rd_list (length xs) item) xs (concat (enc <$> xs)).
Proof.
  intros Hi. unfold rd_list. rewrite <-(app_nil_l xs) at 2. rewrite <-(foldl_snoc xs []). apply (reads_repeat (λ x q, q ++ [x]) enc).
  intros x q Hin. by apply (reads_last item (λ x, q ++ [x])), Hi.
Qed.

(** ** Inversion *)
Lemma bind_ok {A B : Type} (p : parse A) (f : A → parse B) r b r' :
  (p ≫= f) r = Ok (b, r') → ∃ a r1, p r = Ok (a, r1) ∧ f a r1 = Ok (b, r').
Proof. unfold mbind, parse_bind. destruct (p r) as [[a r1]|e]; [|done]. intros H. by exists a, r1. Qed.

Lemma take_ok n r l r' : rd_take n r = Ok (l, r') → took r r' l ∧ length l = n.
Proof.
  unfold rd_take. case_decide as Hd; [|done]. intros [= <- <-]. assert (length (take n (drop (rd_pos r) (rd_buf r))) = n) as El by (rewrite length_take, length_drop; lia).
  split; [|done]. unfold took. rewrite El. cbn. split_and!; [done|done|done|]. unfold rest. cbn. rewrite <-drop_drop. by rewrite take_drop.
Qed.

Lemma took_refl r : (rd_pos r ≤ length (rd_buf r))%nat → took r r [].
Proof. intros. split_and!; cbn; done || lia. Qed.

Lemma took_trans r1 r2 r3 l1 l2 : took r1 r2 l1 → took r2 r3 l2 → took r1 r3 (l1 ++ l2).
Proof.
  intros (A1 & A2 & A3 & A4) (B1 & B2 & B3 & B4). split_and!; [congruence|rewrite length_app; lia|congruence|]. by rewrite A4, B4, app_assoc.
Qed.

Lemma took_bytes r r' l : took r r' l → is_bytes (rest r) → is_bytes l ∧ is_bytes (rest r').
Proof. intros (_ & _ & _ & E). rewrite E. apply is_bytes_app. Qed.

Lemma le_ok n r x r' :
  is_bytes (rest r) → (l ← rd_take n; mret (le_value l)) r = Ok (x, r') → took r r' (le_bytes n x) ∧ fits_in n x.
Proof.
  intros Hb (l & r1 & [Ht Hl]%take_ok & [= <- <-])%bind_ok. destruct (took_bytes _ _ _ Ht Hb) as [Hl' _].
  rewrite (le_bytes_value l n Hl' Hl). split; [done|]. by apply le_value_fits.
Qed.

Lemma u8_ok r x r' : is_bytes (rest r) → rd_u8 r = Ok (x, r') → took r r' [x] ∧ fits_in 1 x.
Proof. intros Hb H. destruct (le_ok 1 _ _ _ Hb H) as [Ht Hx]. split; [|done]. assert (le_bytes 1 x = [x]) as E; [|by rewrite E in Ht]. unfold fits_in in Hx. cbn in *. f_equal. lia. Qed.
Lemma u16_ok r x r' : is_bytes (rest r) → rd_u16 r = Ok (x, r') → took r r' (u16_le x) ∧ fits_in 2 x.
Proof. apply (le_ok 2). Qed.
Lemma u32_ok r x r' : is_bytes (rest r) → rd_u32 r = Ok (x, r') → took r r' (u32_le x) ∧ fits_in 4 x.
Proof. apply (le_ok 4). Qed.
Lemma u64_ok r x r' : is_bytes (rest r) → rd_u64 r = Ok (x, r') → took r r' (u64_le x) ∧ fits_in 8 x.
Proof. apply (le_ok 8). Qed.

Lemma done_ok r b r' : rd_done r = Ok (b, r') → r' = r ∧ (b = true → rest r = []).
Proof.
  unfold rd_done. intros [= <- <-]. split; [done|]. intros H%bool_decide_eq_true. unfold rest. by rewrite H, drop_all.
Qed.

(** ** Parsers that accept encodings only *)

(** A reader inside its buffer, over bytes. *)
Definition good (r : Reader) : Prop := (rd_pos r ≤ length (rd_buf r))%nat ∧ is_bytes (rest r).

Lemma took_good r r' l : took r r' l → good r → good r' ∧ is_bytes l.
Proof. intros T [Hp Hb]. destruct (took_bytes _ _ _ T Hb) as [B1 B2]. destruct T as (T1 & T2 & T3 & T4). split; [|done]. split; [|done]. by rewrite T1. Qed.

(** Whatever [p] accepts, it accepts by consuming [enc] of what it gives, which is [P]. *)
Definition canon {A : Type} (p : parse A) (enc : A → list Z) (P : A → Prop) : Prop :=
  ∀ r a r', good r → p r = Ok (a, r') → took r r' (enc a) ∧ P a.

Lemma canon_u8 : canon rd_u8 (λ x, [x]) (fits_in 1).
Proof. intros r a r' [_ Hb]. by apply u8_ok. Qed.
Lemma canon_u16 : canon rd_u16 u16_le (fits_in 2).
Proof. intros r a r' [_ Hb]. by apply u16_ok. Qed.
Lemma canon_u32 : canon rd_u32 u32_le (fits_in 4).
Proof. intros r a r' [_ Hb]. by apply u32_ok. Qed.
Lemma canon_u64 : canon rd_u64 u64_le (fits_in 8).
Proof. intros r a r' [_ Hb]. by apply u64_ok. Qed.
Lemma canon_take n : canon (rd_take n) id (λ l, length l = n ∧ is_bytes l).
Proof. intros r a r' [_ Hb] [T E]%take_ok. split; [done|]. split; [done|]. by apply (took_bytes _ _ _ T). Qed.

(** One step of an accepted sequence: what was read, and where the reader is behind it. *)
Ltac pstep H lem :=
  let x := fresh "x" in let r1 := fresh "r" in let H1 := fresh "H" in let T := fresh "T" in let P := fresh "P" in let G := fresh "G" in
  apply bind_ok in H as (x & r1 & H1 & H);
  match goal with Hg : good ?r, Hq : _ ?r = Ok (x, r1) |- _ => destruct (lem r x r1 Hg Hq) as [T P]; destruct (took_good _ _ _ T Hg) as [G _] end;
  clear H1.

Lemma canon_snocs {X : Type} (item : parse X) enc (P : X → Prop) n acc r xs r' :
  canon item enc P → good r → rd_repeat n (λ acc, x ← item; mret (acc ++ [x])) acc r = Ok (xs, r') →
  ∃ ys, xs = acc ++ ys ∧ length ys = n ∧ took r r' (concat (enc <$> ys)) ∧ Forall P ys.
Proof.
  intros Hc. revert acc r. induction n as [|n IH]; intros acc r G H; cbn [rd_repeat] in H.
  - injection H as <- <-. exists []. split_and!; [by rewrite app_nil_r|done|by apply took_refl, G|constructor].
  - apply bind_ok in H as (a & r1 & Ha & H). pstep Ha Hc. injection Ha as <- <-. apply IH in H as (ys & -> & <- & T2 & HP); [|done].
    exists (x :: ys). split_and!; [by rewrite <-app_assoc|done|by eapply took_trans|by constructor].
Qed.
Lemma canon_list {X : Type} (item : parse X) enc (P : X → Prop) n :
  canon item enc P → canon (rd_list n item) (λ xs, concat (enc <$> xs)) (λ xs, length xs = n ∧ Forall P xs).
Proof. intros Hc r xs r' G H. by destruct (canon_snocs _ _ _ _ _ _ _ _ Hc G H) as (ys & -> & Hl & T & HP). Qed.

(** ** Length-prefixed byte strings *)

(** [push(b.len() as u8); extend_from_slice(b)] *)
Definition put_bytes8 (b : list Z) : list Z := as_u8 (Z.of_nat (length b)) :: b.
Definition take_bytes8 : parse (list Z) := n ← rd_u8; rd_take (Z.to_nat n).

Lemma fits_1 x : fits_in 1 x ↔ 0 ≤ x < 256.
Proof. done. Qed.
Lemma as_u8_small n : (n < 256)%nat → as_u8 (Z.of_nat n) = Z.of_nat n.
Proof. intros. unfold as_u8. apply Z.mod_small. lia. Qed.

Lemma reads_bytes8 b : (length b < 256)%nat → reads take_bytes8 b (put_bytes8 b).
Proof.
  intros Hb. unfold take_bytes8, put_bytes8. change (?x :: b) with ([x] ++ b). eapply reads_bind.
  - apply reads_u8. rewrite as_u8_small by done. apply fits_1. lia.
  - rewrite as_u8_small by done. rewrite Nat2Z.id. apply reads_take.
Qed.

Lemma canon_bytes8 : canon take_bytes8 put_bytes8 (λ b, (length b < 256)%nat ∧ is_bytes b).
Proof.
  intros r b r' G H. unfold take_bytes8 in H. pstep H canon_u8. destruct (canon_take _ _ _ _ G0 H) as [T2 [E Hb]]. unfold fits_in in P. change (256 ^ Z.of_nat 1) with 256 in P.
  assert (length b < 256)%nat as Hl by lia. split; [|done]. unfold put_bytes8. rewrite as_u8_small by done. replace (Z.of_nat (length b)) with x by lia.
  change (x :: b) with ([x] ++ b). by eapply took_trans.
Qed.

(** ** Hashes ([cas/src/hash.rs]) *)

Definition Hash : Type := list Z.

(** A hash function: 32 bytes. *)
Class HashLaws (hash_of : list Z → Hash) : Prop := {
  hash_length l : length (hash_of l) = 32%nat;
  hash_bytes l : is_bytes (hash_of l);
}.

Create HintDb bytes.
#[export] Hint Resolve reads_u8 reads_u16 reads_u32 reads_u64 reads_hash reads_take reads_ret le_bytes_bytes : bytes.
