(* ===== verification/Dev.v ===== *)
(** Block devices ([cas/src/dev.rs]): the device interface of the storage engine, the
    in-memory device and the crash-injection device, which keeps what is durable apart from
    what the running system sees. A crash resolves every unflushed write on its own to
    dropped, kept or torn. *)

From stdpp Require Import strings.
From S2P Require Import Prelude Bytes.

Inductive DevError : Type := OutOfRange | Io (why : string).

(** [BlockDev]: a read fills a buffer of [n] bytes. *)
Class BlockDev (D : Type) : Type := {
  dev_read : D → Z → Z → result (list Z) DevError;
  dev_write : Z → list Z → D → result unit DevError * D;
  dev_flush : D → result unit DevError * D;
  dev_len : D → Z;
}.

Definition access_range (offset access_len len : Z) : result (Z * Z) DevError :=
  match checked_add offset access_len with
  | Some e => if e <=? len then Ok (offset, e) else Err OutOfRange
  | None => Err OutOfRange
  end.

Definition read_bytes (data : list Z) (offset n : Z) : result (list Z) DevError :=
  match access_range offset n (len_z data) with Ok _ => Ok (slice data offset n) | Err e => Err e end.

(** ** The in-memory device *)
Record MemDev : Type := MkMem { md_data : list Z }.
Definition MemDev_new (len : nat) : MemDev := MkMem (replicate len 0).
Definition MemDev_from_bytes (data : list Z) : MemDev := MkMem data.
Definition mem_write (offset : Z) (data : list Z) (d : MemDev) : result unit DevError * MemDev :=
  match access_range offset (len_z data) (len_z (md_data d)) with
  | Ok _ => (Ok tt, MkMem (splice (md_data d) offset data))
  | Err e => (Err e, d)
  end.
#[global] Instance MemDev_dev : BlockDev MemDev := {|
  dev_read d := read_bytes (md_data d);
  dev_write := mem_write;
  dev_flush d := (Ok tt, d);
  dev_len d := len_z (md_data d);
|}.

(** ** The crash-injection device *)
Record CrashDev : Type := MkCrash {
  cd_durable : list Z; cd_current : list Z; cd_pending : list (Z * list Z); cd_fail_after : option Z }.

Definition CrashDev_new (len : nat) : CrashDev := MkCrash (replicate len 0) (replicate len 0) [] None.
Definition set_fail_after (n : Z) (d : CrashDev) : CrashDev := MkCrash (cd_durable d) (cd_current d) (cd_pending d) (Some n).
Definition clear_fail (d : CrashDev) : CrashDev := MkCrash (cd_durable d) (cd_current d) (cd_pending d) None.

Definition check_fail (d : CrashDev) : result unit DevError * CrashDev :=
  match cd_fail_after d with
  | Some n => if n =? 0 then (Err (Io "injected power loss"), d) else (Ok tt, set_fail_after (n - 1) d)
  | None => (Ok tt, d)
  end.

Definition crash_write (offset : Z) (data : list Z) (d : CrashDev) : result unit DevError * CrashDev :=
  match check_fail d with
  | (Err e, d) => (Err e, d)
  | (Ok _, d) =>
      match access_range offset (len_z data) (len_z (cd_current d)) with
      | Err e => (Err e, d)
      | Ok _ => (Ok tt, MkCrash (cd_durable d) (splice (cd_current d) offset data) (cd_pending d ++ [(offset, data)]) (cd_fail_after d))
      end
  end.
Definition crash_flush (d : CrashDev) : result unit DevError * CrashDev :=
  match check_fail d with
  | (Err e, d) => (Err e, d)
  | (Ok _, d) => (Ok tt, MkCrash (cd_current d) (cd_current d) [] (cd_fail_after d))
  end.
#[global] Instance CrashDev_dev : BlockDev CrashDev := {|
  dev_read d := read_bytes (cd_current d);
  dev_write := crash_write;
  dev_flush := crash_flush;
  dev_len d := len_z (cd_durable d);
|}.

(** The generator behind [crash]: the state after a draw, and the draw. *)
Definition lcg (s : Z) : Z := (s * 6364136223846793005 + 1442695040888963407) mod 18446744073709551616.
Definition draw (s : Z) : Z := Z.shiftr s 33.

Fixpoint crash_disk (s : Z) (disk : list Z) (pending : list (Z * list Z)) : list Z :=
  match pending with
  | [] => disk
  | (off, data) :: rest =>
      let s := lcg s in
      let what := draw s mod 3 in
      if what =? 0 then crash_disk s disk rest
      else if what =? 1 then crash_disk s (splice disk off data) rest
      else
        let s := lcg s in
        let keep := draw s mod (len_z data + 1) in
        crash_disk s (splice disk off (take (Z.to_nat keep) data)) rest
  end.
Definition crash (seed : Z) (d : CrashDev) : CrashDev :=
  let disk := crash_disk seed (cd_durable d) (cd_pending d) in MkCrash disk disk [] (cd_fail_after d).

(** ** What a crash may leave

    [crashes disk pending img]: [img] is [disk] with a prefix of every pending write, in
    order; the empty prefix is a dropped write, the whole one a write that got through. *)
Inductive crashes : list Z → list (Z * list Z) → list Z → Prop :=
| crashes_done disk : crashes disk [] disk
| crashes_write disk off data k rest img :
    (k ≤ length data)%nat → crashes (splice disk off (take k data)) rest img → crashes disk ((off, data) :: rest) img.

(** Writes that stay inside a device of [n] bytes. *)
Definition writes_in (n : nat) (ws : list (Z * list Z)) : Prop := Forall (λ w, 0 ≤ w.1 ∧ w.1 + len_z w.2 ≤ Z.of_nat n) ws.

Lemma splice_nil m p : 0 ≤ p ≤ Z.of_nat (length m) → splice m p [] = m.
Proof. intros. unfold splice. cbn. rewrite Nat.add_0_r. apply take_drop. Qed.

(** The device's own crash is one of them. *)
Lemma crash_crashes seed disk pending : writes_in (length disk) pending → crashes disk pending (crash_disk seed disk pending).
Proof.
  revert seed disk. induction pending as [|[off data] rest IH]; intros seed disk W; cbn [crash_disk]; [constructor|].
  apply Forall_cons in W as [[W1 W2] W]. cbn [fst snd] in *. unfold len_z in *. assert (∀ k, (k ≤ length data)%nat → length (splice disk off (take k data)) = length disk) as Hl.
  { intros k Hk. apply splice_length; [done|]. rewrite length_take. lia. }
  assert (∀ k, (k ≤ length data)%nat → ∀ s, crashes disk ((off, data) :: rest) (crash_disk s (splice disk off (take k data)) rest)) as Hk.
  { intros k Hk s. apply (crashes_write _ _ _ k); [done|]. apply IH. by rewrite Hl. }
  cbv zeta. destruct (_ =? 0); [|destruct (_ =? 1)].
  - specialize (Hk 0%nat ltac:(lia) (lcg seed)). cbn [take] in Hk. rewrite splice_nil in Hk by lia. exact Hk.
  - specialize (Hk (length data) ltac:(lia) (lcg seed)). by rewrite take_ge in Hk by lia.
  - apply Hk. pose proof (Z.mod_pos_bound (draw (lcg (lcg seed))) (len_z data + 1)) as Hm. unfold len_z in *. lia.
Qed.

(** Bytes no pending write covers are as they were. *)
Lemma crashes_frame disk pending img :
  crashes disk pending img → writes_in (length disk) pending →
  length img = length disk ∧
  ∀ p n, 0 ≤ p → 0 ≤ n → (∀ w, w ∈ pending → w.1 + len_z w.2 ≤ p ∨ p + n ≤ w.1) → slice img p n = slice disk p n.
Proof.
  induction 1 as [disk|disk off data k rest img Hk _ IH]; intros W; [done|]. apply Forall_cons in W as [[W1 W2] W]. cbn [fst snd] in *. unfold len_z in *.
  assert (Z.of_nat (length (take k data)) ≤ Z.of_nat (length data)) as Ht by (rewrite length_take; lia).
  assert (length (splice disk off (take k data)) = length disk) as Hl by (apply splice_length; lia).
  rewrite Hl in IH. destruct (IH W) as [Hlen Hs]. split; [done|]. intros p n Hp Hn Hout. rewrite Hs by (try done; intros w Hw; apply Hout; by right).
  apply slice_splice_out; try lia. destruct (Hout (off, data)) as [H|H]; [by left| |]; cbn in H; lia.
Qed.

Lemma crashes_bytes disk pending img : crashes disk pending img → is_bytes disk → Forall (λ w, is_bytes w.2) pending → is_bytes img.
Proof.
  induction 1 as [|disk off data k rest img Hk _ IH]; intros Hb Hw; [done|]. apply Forall_cons in Hw as [Hd Hw]. apply IH; [|done].
  unfold splice. apply is_bytes_app. split; [by apply Forall_take|]. apply is_bytes_app. split; [by apply Forall_take|by apply Forall_drop].
Qed.

Lemma crashes_snoc disk pending img off data k :
  crashes disk pending img → (k ≤ length data)%nat → crashes disk (pending ++ [(off, data)]) (splice img off (take k data)).
Proof.
  intros C Hk. induction C as [disk|disk off' data' k' rest img Hk' _ IH]; cbn [app]; [|by apply (crashes_write _ _ _ k')].
  apply (crashes_write _ _ _ k); [done|constructor].
Qed.
