(* ===== verification/BTree.v ===== *)
(** Rust's [BTreeMap] as the list of its bindings in key order, the order every encoder
    iterates in. *)

From S2P Require Import Prelude.

(** ** Total orders *)
Class Ord (K : Type) : Type := {
  cmp : K → K → comparison;
  cmp_eq x y : cmp x y = Eq ↔ x = y;
  cmp_opp x y : cmp y x = CompOpp (cmp x y);
  cmp_trans x y z : cmp x y = Lt → cmp y z = Lt → cmp x z = Lt;
}.
Definition lt {K : Type} `{Ord K} (x y : K) : Prop := cmp x y = Lt.

#[global] Instance Z_ord : Ord Z.
Proof.
  refine {| cmp := Z.compare |}.
  - apply Z.compare_eq_iff.
  - intros x y. apply Z.compare_antisym.
  - intros x y z. rewrite !Z.compare_lt_iff. lia.
Defined.

(** [memcmp] order of byte strings. *)
Fixpoint lex {K : Type} `{Ord K} (a b : list K) : comparison :=
  match a, b with
  | [], [] => Eq
  | [], _ :: _ => Lt
  | _ :: _, [] => Gt
  | x :: a', y :: b' => match cmp x y with Eq => lex a' b' | c => c end
  end.

Lemma cmp_refl {K : Type} `{Ord K} (x : K) : cmp x x = Eq.
Proof. by apply cmp_eq. Qed.

#[global] Instance list_ord {K : Type} `{Ord K} : Ord (list K).
Proof.
  refine {| cmp := lex |}.
  - induction x as [|a x IH]; intros [|b y]; cbn; try done. destruct (cmp a b) eqn:E.
    + apply cmp_eq in E as ->. rewrite IH. split; [by intros ->|by intros [= ->]].
    + split; [done|]. intros [= -> ->]. by rewrite cmp_refl in E.
    + split; [done|]. intros [= -> ->]. by rewrite cmp_refl in E.
  - induction x as [|a x IH]; intros [|b y]; cbn; try done. rewrite (cmp_opp a b). destruct (cmp a b); cbn; [apply IH|done..].
  - induction x as [|a x IH]; intros [|b y] [|c z]; cbn; try done. destruct (cmp a b) eqn:E1, (cmp b c) eqn:E2; try done.
    + apply cmp_eq in E1 as ->, E2 as ->. rewrite cmp_refl. apply IH.
    + apply cmp_eq in E1 as ->. by rewrite E2.
    + apply cmp_eq in E2 as ->. by rewrite E1.
    + by rewrite (cmp_trans a b c E1 E2).
Defined.

#[global] Instance pair_ord {K L : Type} `{Ord K} `{Ord L} : Ord (K * L).
Proof.
  refine {| cmp := λ p q, match cmp p.1 q.1 with Eq => cmp p.2 q.2 | c => c end |}.
  - intros [a b] [c d]. cbn. destruct (cmp a c) eqn:E.
    + apply cmp_eq in E as ->. rewrite cmp_eq. split; [by intros ->|by intros [= ->]].
    + split; [done|]. intros [= -> ->]. by rewrite cmp_refl in E.
    + split; [done|]. intros [= -> ->]. by rewrite cmp_refl in E.
  - intros [a b] [c d]. cbn. rewrite (cmp_opp a c). destruct (cmp a c); cbn; [apply cmp_opp|done..].
  - intros [a b] [c d] [e f]. cbn. destruct (cmp a c) eqn:E1, (cmp c e) eqn:E2; try done.
    + apply cmp_eq in E1 as ->, E2 as ->. rewrite cmp_refl. apply cmp_trans.
    + apply cmp_eq in E1 as ->. by rewrite E2.
    + apply cmp_eq in E2 as ->. by rewrite E1.
    + by rewrite (cmp_trans a c e E1 E2).
Defined.

(** ** Maps *)
Section btree.
Context {K : Type} `{Ord K} {V : Type}.
Implicit Types (m : list (K * V)) (k : K) (v : V).

Definition btree : Type := list (K * V).

Fixpoint bt_get (k : K) (m : list (K * V)) : option V :=
  match m with
  | [] => None
  | (k', v) :: m' => match cmp k k' with Eq => Some v | Lt => None | Gt => bt_get k m' end
  end.
Fixpoint bt_insert (k : K) (v : V) (m : list (K * V)) : list (K * V) :=
  match m with
  | [] => [(k, v)]
  | (k', v') :: m' =>
      match cmp k k' with
      | Eq => (k, v) :: m'
      | Lt => (k, v) :: m
      | Gt => (k', v') :: bt_insert k v m'
      end
  end.
Fixpoint bt_remove (k : K) (m : list (K * V)) : list (K * V) :=
  match m with
  | [] => []
  | (k', v') :: m' => match cmp k k' with Eq => m' | Lt => m | Gt => (k', v') :: bt_remove k m' end
  end.

(** Keys in increasing order. *)
Fixpoint bt_sorted (m : list (K * V)) : Prop :=
  match m with
  | [] => True
  | (k, v) :: m' => (∀ k' v', (k', v') ∈ m' → lt k k') ∧ bt_sorted m'
  end.

Lemma lt_irrefl k : ¬ lt k k.
Proof using Type. unfold lt. by rewrite cmp_refl. Qed.
Lemma lt_trans k1 k2 k3 : lt k1 k2 → lt k2 k3 → lt k1 k3.
Proof using Type. apply cmp_trans. Qed.
Lemma cmp_gt k1 k2 : cmp k1 k2 = Gt ↔ lt k2 k1.
Proof using Type. unfold lt. rewrite (cmp_opp k1 k2). by destruct (cmp k1 k2). Qed.

Lemma bt_sorted_app m1 m2 :
  bt_sorted (m1 ++ m2) ↔ bt_sorted m1 ∧ bt_sorted m2 ∧ ∀ k1 v1 k2 v2, (k1, v1) ∈ m1 → (k2, v2) ∈ m2 → lt k1 k2.
Proof using Type.
  induction m1 as [|[k v] m1 IH]; cbn.
  - split; [|tauto]. intros H'. split_and!; try done. by intros ? ? ? ? ?%elem_of_nil.
  - rewrite IH. split.
    + intros (H1 & H2 & H3 & H4). split_and!; [|done|done|].
      * intros k' v' Hin. apply (H1 k' v'), elem_of_app. by left.
      * intros k1 v1 k2 v2 [E|Hin]%elem_of_cons Hin2; [injection E as -> ->; apply (H1 k2 v2), elem_of_app; by right|by apply (H4 k1 v1 k2 v2)].
    + intros ((H1 & H2) & H3 & H4). split_and!; [|done|done|].
      * intros k' v' [Hin|Hin]%elem_of_app; [by apply (H1 k' v')|apply (H4 k v k' v'); [by left|done]].
      * intros k1 v1 k2 v2 Hin. apply (H4 k1 v1 k2 v2). by right.
Qed.

Lemma bt_get_elem m k v : bt_sorted m → bt_get k m = Some v ↔ (k, v) ∈ m.
Proof using Type.
  induction m as [|[k' v'] m IH]; cbn; [intros _; split; [done|by intros ?%elem_of_nil]|]. intros [H1 H2]. specialize (IH H2). rewrite elem_of_cons.
  destruct (cmp k k') eqn:E.
  - apply cmp_eq in E as ->. split; [by intros [= ->]; left|]. intros [[= ->]|Hin]; [done|]. destruct (lt_irrefl k'). by eapply H1.
  - split; [done|]. intros [[= -> ->]|Hin]; [by rewrite cmp_refl in E|]. apply H1 in Hin. destruct (lt_irrefl k). by apply (lt_trans k k' k).
  - rewrite IH. split; [by right|]. intros [[= -> ->]|Hin]; [by rewrite cmp_refl in E|done].
Qed.

Lemma bt_insert_elem m k v k' v' :
  bt_sorted m → (k', v') ∈ bt_insert k v m ↔ (k' = k ∧ v' = v) ∨ (k' ≠ k ∧ (k', v') ∈ m).
Proof using Type.
  induction m as [|[a b] m IH]; cbn.
  { intros _. rewrite list_elem_of_singleton, elem_of_nil. split; [intros [= -> ->]; by left|]. by intros [[-> ->]|[_ []]]. }
  intros [H1 H2]. specialize (IH H2). destruct (cmp k a) eqn:E.
  - apply cmp_eq in E as ->. rewrite !elem_of_cons. split.
    + intros [[= -> ->]|Hin]; [by left|]. right. split; [|by right]. intros ->. destruct (lt_irrefl a). by eapply H1.
    + intros [[-> ->]|[Hne [[= -> ->]|Hin]]]; [by left|done|by right].
  - rewrite !elem_of_cons. split.
    + intros [[= -> ->]|[[= -> ->]|Hin]]; [by left| |].
      * right. split; [|by left]. intros ->. by rewrite cmp_refl in E.
      * right. split; [|by right]. intros ->. destruct (lt_irrefl k). apply (lt_trans k a k); [done|by eapply H1].
    + intros [[-> ->]|[Hne [[= -> ->]|Hin]]]; [by left|right; by left|right; by right].
  - rewrite !elem_of_cons, IH. split.
    + intros [[= -> ->]|[?|[Hne Hin]]]; [|by left|right; by split; [|right]]. right. split; [|by left]. intros ->. by rewrite cmp_refl in E.
    + intros [?|[Hne [[= -> ->]|Hin]]]; [right; by left|by left|right; by right].
Qed.

Lemma bt_insert_sorted m k v : bt_sorted m → bt_sorted (bt_insert k v m).
Proof using Type.
  induction m as [|[a b] m IH]; cbn; [intros _; split; [by intros ? ? ?%elem_of_nil|done]|]. intros [H1 H2]. destruct (cmp k a) eqn:E; cbn.
  - apply cmp_eq in E as ->. done.
  - split_and!; [|done|done]. intros k' v' [[= -> ->]|Hin]%elem_of_cons; [done|]. apply (lt_trans k a k'); [done|by eapply H1].
  - split; [|by apply IH]. intros k' v' Hin. apply bt_insert_elem in Hin as [[-> ->]|[_ Hin]]; [by apply cmp_gt|by eapply H1|done].
Qed.

Lemma bt_get_insert m k v k' : bt_sorted m → bt_get k' (bt_insert k v m) = if decide (cmp k' k = Eq) then Some v else bt_get k' m.
Proof using Type.
  intros Hs. apply option_eq. intros x. rewrite bt_get_elem by (by apply bt_insert_sorted). rewrite bt_insert_elem by done.
  case_decide as E; rewrite cmp_eq in E.
  - subst k'. split; [by intros [[_ ->]|[? _]]|]. intros [= ->]. by left.
  - rewrite bt_get_elem by done. tauto.
Qed.

Lemma bt_remove_elem m k k' v' : bt_sorted m → (k', v') ∈ bt_remove k m ↔ k' ≠ k ∧ (k', v') ∈ m.
Proof using Type.
  induction m as [|[a b] m IH]; cbn; [intros _; rewrite elem_of_nil; tauto|]. intros [H1 H2]. specialize (IH H2). destruct (cmp k a) eqn:E; rewrite ?elem_of_cons.
  - apply cmp_eq in E as ->. split.
    + intros Hin. split; [|by right]. intros ->. destruct (lt_irrefl a). by eapply H1.
    + intros [Hne [[= -> ->]|Hin]]; done.
  - split.
    + intros [[= -> ->]|Hin]; (split; [intros ->|]); [by rewrite cmp_refl in E|by left| |by right]. destruct (lt_irrefl k). apply (lt_trans k a k); [done|by eapply H1].
    + tauto.
  - rewrite IH. split.
    + intros [[= -> ->]|[Hne Hin]]; [|by split; [|right]]. split; [|by left]. intros ->. by rewrite cmp_refl in E.
    + intros [Hne [[= -> ->]|Hin]]; [by left|by right].
Qed.

Lemma bt_remove_sorted m k : bt_sorted m → bt_sorted (bt_remove k m).
Proof using Type.
  induction m as [|[a b] m IH]; cbn; [done|]. intros [H1 H2]. destruct (cmp k a) eqn:E; cbn; [done|done|]. split; [|by apply IH].
  intros k' v' Hin. apply bt_remove_elem in Hin as [_ Hin]; [by eapply H1|done].
Qed.

Lemma bt_get_remove m k k' : bt_sorted m → bt_get k' (bt_remove k m) = if decide (cmp k' k = Eq) then None else bt_get k' m.
Proof using Type.
  intros Hs. apply option_eq. intros x. rewrite bt_get_elem by (by apply bt_remove_sorted). rewrite bt_remove_elem by done.
  case_decide as E; rewrite cmp_eq in E; [|rewrite bt_get_elem by done; tauto]. subst k'. split; [by intros [? _]|done].
Qed.

(** Inserting beyond the last key appends. *)
Lemma bt_insert_last m k v : (∀ k' v', (k', v') ∈ m → lt k' k) → bt_insert k v m = m ++ [(k, v)].
Proof using Type.
  induction m as [|[a b] m IH]; intros Hall; cbn; [done|]. assert (lt a k) as Ha by (eapply Hall; by left).
  assert (cmp k a = Gt) as -> by (by apply cmp_gt). f_equal. apply IH. intros k' v' Hin. eapply Hall. by right.
Qed.

(** Rebuilding a map from its bindings in order. *)
Lemma bt_rebuild m acc : bt_sorted (acc ++ m) → foldl (λ a x, bt_insert x.1 x.2 a) acc m = acc ++ m.
Proof using Type.
  revert acc. induction m as [|[k v] m IH]; intros acc Hs; cbn; [by rewrite app_nil_r|].
  rewrite bt_insert_last by (intros k' v' Hin; apply bt_sorted_app in Hs as (_ & _ & Hs); eapply Hs; [done|by left]).
  rewrite IH by (by rewrite <-app_assoc). by rewrite <-app_assoc.
Qed.

(** Two maps with the same lookups are equal. *)
Lemma bt_ext m1 m2 : bt_sorted m1 → bt_sorted m2 → (∀ k, bt_get k m1 = bt_get k m2) → m1 = m2.
Proof using Type.
  intros S1 S2 Hg. assert (∀ k v, (k, v) ∈ m1 ↔ (k, v) ∈ m2) as He by (intros k v; rewrite <-!bt_get_elem by done; by rewrite Hg). clear Hg.
  revert m2 S1 S2 He. induction m1 as [|[k v] m1 IH]; intros [|[k' v'] m2] S1 S2 He; [done| | |].
  - assert ((k', v') ∈ @nil (K * V)) as []%elem_of_nil by (apply He; by left).
  - assert ((k, v) ∈ @nil (K * V)) as []%elem_of_nil by (apply He; by left).
  - destruct S1 as [A1 A2], S2 as [B1 B2].
    assert ((k, v) = (k', v')) as E.
    { assert ((k, v) ∈ (k', v') :: m2) as [E|Hin]%elem_of_cons by (apply He; by left); [done|].
      assert ((k', v') ∈ (k, v) :: m1) as [E|Hin']%elem_of_cons by (apply He; by left); [done|].
      destruct (lt_irrefl k). apply (lt_trans k k' k); [by eapply A1|by eapply B1]. }
    injection E as <- <-. f_equal. apply IH; [done|done|]. intros x y. specialize (He x y). rewrite !elem_of_cons in He. split; intros Hin.
    + destruct (proj1 He) as [[= -> ->]|]; [by right| |done]. destruct (lt_irrefl k). by eapply A1.
    + destruct (proj2 He) as [[= -> ->]|]; [by right| |done]. destruct (lt_irrefl k). by eapply B1.
Qed.
End btree.
Arguments btree K V : clear implicits.

(** ** Sorting ([slice::sort]) *)
Section sorting.
Context {K : Type} `{Ord K}.

Fixpoint ord_insert (x : K) (l : list K) : list K :=
  match l with
  | [] => [x]
  | y :: l' => match cmp x y with Gt => y :: ord_insert x l' | _ => x :: l end
  end.
Definition ord_sort (l : list K) : list K := foldr ord_insert [] l.

Lemma ord_insert_perm x l : ord_insert x l ≡ₚ x :: l.
Proof using Type. induction l as [|y l IH]; cbn; [done|]. destruct (cmp x y); [done|done|]. rewrite IH. constructor. Qed.
Lemma ord_sort_perm l : ord_sort l ≡ₚ l.
Proof using Type. induction l as [|x l IH]; cbn; [done|]. by rewrite ord_insert_perm, IH. Qed.

(** Not descending. *)
Fixpoint ascending (l : list K) : Prop :=
  match l with [] => True | x :: l' => (∀ y, y ∈ l' → cmp x y ≠ Gt) ∧ ascending l' end.

Lemma cmp_le_trans x y z : cmp x y ≠ Gt → cmp y z ≠ Gt → cmp x z ≠ Gt.
Proof using Type.
  intros H1 H2. destruct (cmp x y) eqn:E1; [apply cmp_eq in E1; by subst| |done]. destruct (cmp y z) eqn:E2; [apply cmp_eq in E2; subst; by rewrite E1| |done].
  by rewrite (cmp_trans _ _ _ E1 E2).
Qed.

Lemma ord_insert_ascending x l : ascending l → ascending (ord_insert x l).
Proof using Type.
  induction l as [|y l IH]; cbn; [intros _; split; [by intros z ?%elem_of_nil|done]|]. intros [H1 H2]. destruct (cmp x y) eqn:E; cbn.
  - split; [|done]. intros z [->|Hz]%elem_of_cons; [by rewrite E|]. apply (cmp_le_trans x y z); [by rewrite E|by apply H1].
  - split; [|done]. intros z [->|Hz]%elem_of_cons; [by rewrite E|]. apply (cmp_le_trans x y z); [by rewrite E|by apply H1].
  - split; [|by apply IH]. intros z. rewrite ord_insert_perm. intros [->|Hz]%elem_of_cons; [|by apply H1]. by rewrite (cmp_opp x y), E.
Qed.
Lemma ord_sort_ascending l : ascending (ord_sort l).
Proof using Type. induction l as [|x l IH]; cbn; [done|]. by apply ord_insert_ascending. Qed.
End sorting.

(** ** Maps as multisets of bindings *)
Section perm.
Context {K : Type} `{Ord K} {V : Type}.
Implicit Types m : list (K * V).

Lemma bt_insert_perm m k v : (∀ x, (k, x) ∉ m) → bt_insert k v m ≡ₚ (k, v) :: m.
Proof using Type.
  induction m as [|[a b] m IH]; intros Hn; cbn; [done|]. destruct (cmp k a) eqn:E.
  - apply cmp_eq in E. subst. exfalso. apply (Hn b). by left.
  - done.
  - rewrite IH; [constructor|]. intros x Hx. apply (Hn x). by right.
Qed.

Lemma bt_remove_perm m k v : bt_sorted m → (k, v) ∈ m → m ≡ₚ (k, v) :: bt_remove k m.
Proof using Type.
  induction m as [|[a b] m IH]; cbn; [by intros _ ?%elem_of_nil|]. intros [H1 H2] Hin. destruct (cmp k a) eqn:E.
  - apply cmp_eq in E. subst. apply elem_of_cons in Hin as [[= <-]|Hin]; [done|]. exfalso. by apply (lt_irrefl a), (H1 a v).
  - exfalso. apply elem_of_cons in Hin as [[= <- <-]|Hin]; [by rewrite cmp_refl in E|]. apply (lt_irrefl k). eapply lt_trans; [exact E|]. by apply (H1 k v).
  - apply elem_of_cons in Hin as [[= <- <-]|Hin]; [by rewrite cmp_refl in E|]. rewrite (IH H2 Hin) at 1. constructor.
Qed.

Lemma bt_sorted_filter m (P : K * V → Prop) `{∀ x, Decision (P x)} : bt_sorted m → bt_sorted (filter P m).
Proof using Type.
  induction m as [|[a b] m IH]; [done|]. intros [H1 H2]. rewrite filter_cons. case_decide; [|by apply IH]. cbn. split; [|by apply IH].
  intros k v [_ Hin]%list_elem_of_filter. by apply (H1 k v).
Qed.
End perm.

Create HintDb btree.

(** ** Lookups with decidable keys *)
Section lookups.
Context {K : Type} `{Ord K} `{EqDecision K} {V : Type}.
Implicit Types m : list (K * V).

Lemma get_insert m k v k' : bt_sorted m → bt_get k' (bt_insert k v m) = if decide (k' = k) then Some v else bt_get k' m.
Proof using Type. intros Hs. rewrite bt_get_insert by done. destruct (decide (k' = k)) as [->|Hn]; [by rewrite decide_True by apply cmp_refl|]. rewrite decide_False; [done|]. by rewrite cmp_eq. Qed.
Lemma get_remove m k k' : bt_sorted m → bt_get k' (bt_remove k m) = if decide (k' = k) then None else bt_get k' m.
Proof using Type. intros Hs. rewrite bt_get_remove by done. destruct (decide (k' = k)) as [->|Hn]; [by rewrite decide_True by apply cmp_refl|]. rewrite decide_False; [done|]. by rewrite cmp_eq. Qed.

Lemma get_None_elem m k : bt_sorted m → bt_get k m = None → ∀ x, (k, x) ∉ m.
Proof using Type. intros Hs Hn x Hx. apply bt_get_elem in Hx; [|done]. congruence. Qed.
End lookups.
#[export] Hint Resolve bt_insert_sorted bt_remove_sorted : btree.
