(* ===== verification/Disk.v ===== *)
(** On-disk formats of the content-addressed store ([cas/src/disk.rs]): superblocks, the
    chunk index, write-ahead-log records, the ref table, chunk frames. The hash function
    is a parameter: BLAKE3 gives 32 bytes. *)

From stdpp Require Import strings.
From S2P Require Import Prelude Bytes BTree.

(** ** Constants *)
Definition SB_A_OFF : Z := 0.
Definition SB_B_OFF : Z := 4096.
Definition SB_SIZE : Z := 4096.
Definition SB_BODY : Z := 96.
Definition SB_VERSION : Z := 5.
Definition WAL_OFF : Z := 8192.
Definition CHUNK_HEADER : Z := 48.
Definition WAL_HEADER : Z := 48.
Definition SB_MAGIC : list Z := [69; 85; 78; 79; 77; 73; 65; 0].
Definition INDEX_MAGIC : list Z := [67; 73; 68; 88].
Definition WAL_MAGIC : list Z := [87; 82; 69; 67].
Definition REFT_MAGIC : list Z := [82; 69; 70; 84].
Definition CHUNK_MAGIC : list Z := [67; 72; 78; 75].
Definition CLASS_KEEP : Z := 0.
Definition CLASS_AUTO : Z := 1.
Definition CLASS_EPHEMERAL : Z := 2.

(** ** Data *)
Record Superblock : Type := MkSb {
  sb_generation : Z; sb_ref_table : Hash; sb_wal_head : Z; sb_wal_next_seq : Z; sb_wal_len : Z; sb_chunk_tail : Z; sb_index_off : Z }.
Inductive SbError : Type := Invalid | WrongVersion (v : Z).

Record IndexEntry : Type := MkIndexEntry { ie_off : Z; ie_len : Z; ie_birth : Z }.

Definition Path : Type := list (list Z).
Inductive WalOp : Type :=
| Write (ref_name : list Z) (path : Path) (offset mtime : Z) (data : list Z)
| Unlink (ref_name : list Z) (path : Path) (mtime : Z)
| Rename (ref_name : list Z) (from to : Path) (mtime : Z).

Record RefEntry : Type := MkRefEntry { re_root : Hash; re_generation : Z; re_next_snap_id : Z; re_edit_version : Z }.
Record SnapRow : Type := MkSnapRow {
  sn_id : Z; sn_root : Hash; sn_timestamp : Z; sn_provenance : list Z; sn_parent : option Z; sn_message : list Z; sn_class : Z }.
Record RefTable : Type := MkRefTable {
  rt_refs : btree (list Z) RefEntry; rt_snaps : btree (list Z * Z) SnapRow; rt_tags : btree (list Z) (list Z * Z) }.
Definition RefTable_default : RefTable := MkRefTable [] [] [].

(** ** Superblock geometry *)
Inductive GeomError : Type := WalExceeds | HeadBeyond | ChunksExceed | IndexOutside.

Definition validate_geometry_fields (wal_head wal_len chunk_tail index_off dev_len : Z) : result unit GeomError :=
  match checked_add WAL_OFF wal_len with
  | None => Err WalExceeds
  | Some chunk_off =>
      if dev_len <? chunk_off then Err WalExceeds
      else if wal_len <? wal_head then Err HeadBeyond
      else match checked_add chunk_off chunk_tail with
           | None => Err ChunksExceed
           | Some committed_end =>
               if dev_len <? committed_end then Err ChunksExceed
               else match checked_add index_off CHUNK_HEADER with
                    | None => Err IndexOutside
                    | Some index_end => if chunk_tail <? index_end then Err IndexOutside else Ok tt
                    end
           end
  end.
Definition validate_geometry (sb : Superblock) (dev_len : Z) : result unit GeomError :=
  validate_geometry_fields (sb_wal_head sb) (sb_wal_len sb) (sb_chunk_tail sb) (sb_index_off sb) dev_len.

(** ** Fixed-offset readers: index and shift *)
Definition at_ (buf : list Z) (i : Z) : Z := buf !!! Z.to_nat i.
Definition read_u32_le (buf : list Z) (off : Z) : Z :=
  Z.lor (at_ buf off) (Z.lor (Z.shiftl (at_ buf (off + 1)) 8) (Z.lor (Z.shiftl (at_ buf (off + 2)) 16) (Z.shiftl (at_ buf (off + 3)) 24))).
Definition read_u64_le (buf : list Z) (off : Z) : Z :=
  Z.lor (at_ buf off) (Z.lor (Z.shiftl (at_ buf (off + 1)) 8) (Z.lor (Z.shiftl (at_ buf (off + 2)) 16) (Z.lor (Z.shiftl (at_ buf (off + 3)) 24)
    (Z.lor (Z.shiftl (at_ buf (off + 4)) 32) (Z.lor (Z.shiftl (at_ buf (off + 5)) 40) (Z.lor (Z.shiftl (at_ buf (off + 6)) 48)
      (Z.shiftl (at_ buf (off + 7)) 56))))))).
Definition read_arr32 (buf : list Z) (off : Z) : list Z := (λ i, at_ buf (off + Z.of_nat i)) <$> seq 0 32.

Definition magic_ok (buf : list Z) : bool :=
  (at_ buf 0 =? 69) && (at_ buf 1 =? 85) && (at_ buf 2 =? 78) && (at_ buf 3 =? 79) &&
  (at_ buf 4 =? 77) && (at_ buf 5 =? 73) && (at_ buf 6 =? 65) && (at_ buf 7 =? 0).

(** ** The chunk index *)
Definition index_payload_len (entries free_extents : Z) : Z := 4 + 8 + entries * 52 + 8 + free_extents * 16 + 4.

Definition encode_index_entry (x : Hash * IndexEntry) : list Z :=
  x.1 ++ u64_le (ie_off x.2) ++ u32_le (ie_len x.2) ++ u64_le (ie_birth x.2).
Definition encode_extent (x : Z * Z) : list Z := u64_le x.1 ++ u64_le x.2.

Definition encode_index (entries : btree Hash IndexEntry) (free : btree Z Z) (pad : nat) : list Z :=
  INDEX_MAGIC ++ u64_le (Z.of_nat (length entries)) ++ concat (encode_index_entry <$> entries) ++
  u64_le (Z.of_nat (length free)) ++ concat (encode_extent <$> free) ++ u32_le (Z.of_nat pad) ++ replicate pad 0.

Definition decode_index_parser : parse (btree Hash IndexEntry * btree Z Z) :=
  mg ← rd_take 4;
  if negb (bool_decide (mg = INDEX_MAGIC)) then refuse (BadNode "not a chunk index")
  else
    n ← rd_u64;
    entries ← rd_repeat (Z.to_nat n) (λ m,
      hash ← rd_hash; off ← rd_u64; len ← rd_u32; birth ← rd_u64;
      mret (bt_insert hash (MkIndexEntry off len birth) m)) [];
    nf ← rd_u64;
    free ← rd_repeat (Z.to_nat nf) (λ m, off ← rd_u64; len ← rd_u64; mret (bt_insert off len m)) [];
    pad ← rd_u32;
    z ← rd_take (Z.to_nat pad);
    if negb (forallb (λ b, b =? 0) z) then refuse (BadNode "nonzero index padding")
    else
      d ← rd_done;
      if negb d then refuse (BadNode "index trailing bytes") else mret (entries, free).
Definition decode_index (buf : list Z) : result (btree Hash IndexEntry * btree Z Z) FormatError :=
  match decode_index_parser (reader buf) with Ok (a, _) => Ok a | Err e => Err e end.

(** ** Write-ahead-log records *)
Definition wal_ref_name (op : WalOp) : list Z :=
  match op with Write r _ _ _ _ => r | Unlink r _ _ => r | Rename r _ _ _ => r end.
Definition wal_mtime (op : WalOp) : Z :=
  match op with Write _ _ _ m _ => m | Unlink _ _ m => m | Rename _ _ _ m => m end.

Definition put_path (p : Path) : list Z := as_u8 (Z.of_nat (length p)) :: concat (put_bytes8 <$> p).

Definition encode_payload (op : WalOp) : list Z :=
  match op with
  | Write ref_name path offset mtime data =>
      [1] ++ put_bytes8 ref_name ++ put_path path ++ u64_le offset ++ u64_le mtime ++ u32_le (as_u32 (Z.of_nat (length data))) ++ data
  | Unlink ref_name path mtime => [2] ++ put_bytes8 ref_name ++ put_path path ++ u64_le mtime
  | Rename ref_name from to mtime => [3] ++ put_bytes8 ref_name ++ put_path from ++ put_path to ++ u64_le mtime
  end.

Definition take_path : parse Path := n ← rd_u8; rd_list (Z.to_nat n) take_bytes8.

Definition op_parser (tag : Z) : parse WalOp :=
  if tag =? 1 then
    ref_name ← take_bytes8; path ← take_path; offset ← rd_u64; mtime ← rd_u64; dl ← rd_u32; data ← rd_take (Z.to_nat dl);
    mret (Write ref_name path offset mtime data)
  else if tag =? 2 then
    ref_name ← take_bytes8; path ← take_path; mtime ← rd_u64;
    mret (Unlink ref_name path mtime)
  else if tag =? 3 then
    ref_name ← take_bytes8; from ← take_path; to ← take_path; mtime ← rd_u64;
    mret (Rename ref_name from to mtime)
  else refuse (BadNode "bad wal op tag").

Definition decode_payload_parser : parse WalOp :=
  tag ← rd_u8; op ← op_parser tag;
  d ← rd_done;
  if negb d then refuse (BadNode "wal op trailing bytes") else mret op.
Definition decode_payload (buf : list Z) : result WalOp FormatError :=
  match decode_payload_parser (reader buf) with Ok (a, _) => Ok a | Err e => Err e end.

(** ** The ref table *)
Definition encode_ref (x : list Z * RefEntry) : list Z :=
  put_bytes8 x.1 ++ re_root x.2 ++ u64_le (re_generation x.2) ++ u64_le (re_next_snap_id x.2) ++ u64_le (re_edit_version x.2).
Definition encode_snap (x : (list Z * Z) * SnapRow) : list Z :=
  let s := x.2 in
  put_bytes8 x.1.1 ++ u64_le (sn_id s) ++ sn_root s ++ u64_le (sn_timestamp s) ++ put_bytes8 (sn_provenance s) ++
  u64_le (default U64_MAX (sn_parent s)) ++ u16_le (as_u16 (Z.of_nat (length (sn_message s)))) ++ sn_message s ++ [sn_class s].
Definition encode_tag (x : list Z * (list Z * Z)) : list Z :=
  put_bytes8 x.1 ++ put_bytes8 x.2.1 ++ u64_le x.2.2.

Definition RefTable_encode (t : RefTable) : list Z :=
  REFT_MAGIC ++ u32_le (as_u32 (Z.of_nat (length (rt_refs t)))) ++ concat (encode_ref <$> rt_refs t) ++
  u32_le (as_u32 (Z.of_nat (length (rt_snaps t)))) ++ concat (encode_snap <$> rt_snaps t) ++
  u32_le (as_u32 (Z.of_nat (length (rt_tags t)))) ++ concat (encode_tag <$> rt_tags t).

Definition take_ref (m : btree (list Z) RefEntry) : parse (btree (list Z) RefEntry) :=
  name ← take_bytes8; root ← rd_hash; generation ← rd_u64; next_snap_id ← rd_u64; edit_version ← rd_u64;
  mret (bt_insert name (MkRefEntry root generation next_snap_id edit_version) m).
Definition take_snap (m : btree (list Z * Z) SnapRow) : parse (btree (list Z * Z) SnapRow) :=
  ref_name ← take_bytes8; id ← rd_u64; root ← rd_hash; timestamp ← rd_u64; provenance ← take_bytes8; parent_raw ← rd_u64;
  ml ← rd_u16; message ← rd_take (Z.to_nat ml); class ← rd_u8;
  if CLASS_EPHEMERAL <? class then refuse (BadNode "bad retention class")
  else mret (bt_insert (ref_name, id) (MkSnapRow id root timestamp provenance (if parent_raw =? U64_MAX then None else Some parent_raw) message class) m).
Definition take_tag (m : btree (list Z) (list Z * Z)) : parse (btree (list Z) (list Z * Z)) :=
  name ← take_bytes8; ref_name ← take_bytes8; snap_id ← rd_u64;
  mret (bt_insert name (ref_name, snap_id) m).

Definition RefTable_parser : parse RefTable :=
  mg ← rd_take 4;
  if negb (bool_decide (mg = REFT_MAGIC)) then refuse (BadNode "not a ref table")
  else
    nrefs ← rd_u32; refs ← rd_repeat (Z.to_nat nrefs) take_ref [];
    nsnaps ← rd_u32; snaps ← rd_repeat (Z.to_nat nsnaps) take_snap [];
    ntags ← rd_u32; tags ← rd_repeat (Z.to_nat ntags) take_tag [];
    d ← rd_done;
    if negb d then refuse (BadNode "ref table trailing bytes") else mret (MkRefTable refs snaps tags).
Definition RefTable_decode (buf : list Z) : result RefTable FormatError :=
  match RefTable_parser (reader buf) with Ok (a, _) => Ok a | Err e => Err e end.

(** ** Chunk frames *)
Definition encode_chunk_frame (data : list Z) (birth_gen : Z) (hash : Hash) : list Z :=
  CHUNK_MAGIC ++ u32_le (as_u32 (Z.of_nat (length data))) ++ u64_le birth_gen ++ hash ++ data.
Definition decode_chunk_header (buf : list Z) : option (Z * Z * Hash) :=
  if (Z.of_nat (length buf) <? CHUNK_HEADER) || negb (bool_decide (slice buf 0 4 = CHUNK_MAGIC)) then None
  else Some (le_value (slice buf 4 4), le_value (slice buf 8 8), slice buf 16 32).

(** ** What is hashed *)
Section hashed.
Context (hash_of : list Z → Hash).

Definition Superblock_encode (sb : Superblock) : list Z :=
  let buf := replicate (Z.to_nat SB_SIZE) 0 in
  let buf := splice buf 0 SB_MAGIC in
  let buf := splice buf 8 (u32_le SB_VERSION) in
  let buf := splice buf 16 (u64_le (sb_generation sb)) in
  let buf := splice buf 24 (sb_ref_table sb) in
  let buf := splice buf 56 (u64_le (sb_wal_head sb)) in
  let buf := splice buf 64 (u64_le (sb_wal_next_seq sb)) in
  let buf := splice buf 72 (u64_le (sb_wal_len sb)) in
  let buf := splice buf 80 (u64_le (sb_chunk_tail sb)) in
  let buf := splice buf 88 (u64_le (sb_index_off sb)) in
  splice buf SB_BODY (hash_of (slice buf 0 SB_BODY)).

Definition checksum_ok (buf : list Z) : bool := bool_decide (slice buf SB_BODY 32 = hash_of (slice buf 0 SB_BODY)).

Definition decode_checked (buf : list Z) : result Superblock SbError :=
  if negb (Z.of_nat (length buf) =? SB_SIZE) then Err Invalid
  else if negb (magic_ok buf) then Err Invalid
  else if negb (checksum_ok buf) then Err Invalid
  else
    let version := read_u32_le buf 8 in
    if negb (version =? SB_VERSION) then Err (WrongVersion version)
    else Ok (MkSb (read_u64_le buf 16) (read_arr32 buf 24) (read_u64_le buf 56) (read_u64_le buf 64) (read_u64_le buf 72)
               (read_u64_le buf 80) (read_u64_le buf 88)).
Definition Superblock_decode (buf : list Z) : option Superblock :=
  match decode_checked buf with Ok sb => Some sb | Err _ => None end.

Definition record_checksum (seq len : Z) (payload : list Z) : Hash := hash_of (u64_le seq ++ u32_le len ++ payload).

Definition encode_record (op : WalOp) (seq : Z) : list Z :=
  let payload := encode_payload op in
  let len := as_u32 (Z.of_nat (length payload)) in
  WAL_MAGIC ++ u64_le seq ++ u32_le len ++ record_checksum seq len payload ++ payload.

Definition decode_record (buf : list Z) : option (Z * WalOp * Z) :=
  if (Z.of_nat (length buf) <? WAL_HEADER) || negb (bool_decide (slice buf 0 4 = WAL_MAGIC)) then None
  else
    let seq := le_value (slice buf 4 8) in
    let len := le_value (slice buf 12 4) in
    if Z.of_nat (length buf) <? WAL_HEADER + len then None
    else
      let payload := slice buf WAL_HEADER len in
      if negb (bool_decide (record_checksum seq len payload = slice buf 16 32)) then None
      else match decode_payload payload with
           | Ok op => Some (seq, op, WAL_HEADER + len)
           | Err _ => None
           end.
End hashed.

(** ** Index-and-shift readers are little-endian reads *)

Lemma lor_shift_byte b acc : 0 ≤ b < 256 → Z.lor b (Z.shiftl acc 8) = b + 256 * acc.
Proof.
  intros Hb. assert (Z.land b (Z.shiftl acc 8) = 0) as Hl.
  { apply Z.bits_inj'. intros n Hn. rewrite Z.land_spec, Z.bits_0. destruct (Z.lt_ge_cases n 8) as [Hlt|Hge].
    - rewrite Z.shiftl_spec_low by done. apply andb_false_r.
    - rewrite <-(Z.mod_small b (2 ^ 8)) by done. by rewrite Z.mod_pow2_bits_high by lia. }
  rewrite <-Z.lxor_lor, <-Z.add_nocarry_lxor by done. rewrite Z.shiftl_mul_pow2 by lia. lia.
Qed.

Definition lor_value (l : list Z) : Z := foldr (λ b acc, Z.lor b (Z.shiftl acc 8)) 0 l.

Lemma lor_value_le l : is_bytes l → lor_value l = le_value l.
Proof. induction 1 as [|b l Hb _ IH]; [done|]. cbn. fold (lor_value l). rewrite IH. by apply lor_shift_byte. Qed.

(** The bytes at an offset, one by one. *)
Lemma slice_at buf off n :
  0 ≤ off → off + Z.of_nat n ≤ Z.of_nat (length buf) → slice buf off (Z.of_nat n) = (λ i, at_ buf (off + Z.of_nat i)) <$> seq 0 n.
Proof.
  intros Ho Hl. apply list_eq. intros i. rewrite slice_lookup, list_lookup_fmap. destruct (decide (i < n)%nat) as [Hi|Hi].
  - rewrite decide_True, lookup_seq_lt by lia. cbn. unfold at_. destruct (lookup_lt_is_Some_2 buf (Z.to_nat off + i)%nat) as [x Hx]; [lia|].
    rewrite Hx. symmetry. f_equal. apply list_lookup_total_correct. rewrite <-Hx. f_equal. lia.
  - rewrite decide_False, lookup_seq_ge by lia. done.
Qed.

Lemma slice_bytes buf off n : is_bytes buf → is_bytes (slice buf off n).
Proof. intros. unfold slice. by apply Forall_take, Forall_drop. Qed.

Lemma read_u32_value buf off : is_bytes buf → 0 ≤ off → off + 4 ≤ Z.of_nat (length buf) → read_u32_le buf off = le_value (slice buf off 4).
Proof.
  intros Hb Ho Hl. rewrite <-lor_value_le by (by apply slice_bytes). change 4 with (Z.of_nat 4) at 1. rewrite slice_at by (cbn; lia).
  unfold lor_value, read_u32_le. cbn [seq fmap list_fmap foldr Z.of_nat Pos.of_succ_nat Pos.succ]. rewrite !Z.shiftl_lor, !Z.shiftl_shiftl, !Z.shiftl_0_l, !Z.lor_0_r, !Z.add_0_r by lia. done.
Qed.

Lemma read_u64_value buf off : is_bytes buf → 0 ≤ off → off + 8 ≤ Z.of_nat (length buf) → read_u64_le buf off = le_value (slice buf off 8).
Proof.
  intros Hb Ho Hl. rewrite <-lor_value_le by (by apply slice_bytes). change 8 with (Z.of_nat 8) at 1. rewrite slice_at by (cbn; lia).
  unfold lor_value, read_u64_le. cbn [seq fmap list_fmap foldr Z.of_nat Pos.of_succ_nat Pos.succ]. rewrite !Z.shiftl_lor, !Z.shiftl_shiftl, !Z.shiftl_0_l, !Z.lor_0_r, !Z.add_0_r by lia. done.
Qed.

Lemma read_arr32_slice buf off : 0 ≤ off → off + 32 ≤ Z.of_nat (length buf) → read_arr32 buf off = slice buf off 32.
Proof. intros. symmetry. by apply (slice_at buf off 32). Qed.

(** ** The superblock *)

Record sb_valid (sb : Superblock) : Prop := {
  sv_gen : fits_in 8 (sb_generation sb);
  sv_ref : length (sb_ref_table sb) = 32%nat ∧ is_bytes (sb_ref_table sb);
  sv_head : fits_in 8 (sb_wal_head sb);
  sv_seq : fits_in 8 (sb_wal_next_seq sb);
  sv_wal : fits_in 8 (sb_wal_len sb);
  sv_tail : fits_in 8 (sb_chunk_tail sb);
  sv_index : fits_in 8 (sb_index_off sb);
}.

Lemma splice_bytes m p d : is_bytes m → is_bytes d → is_bytes (splice m p d).
Proof. intros. unfold splice. apply is_bytes_app. split; [by apply Forall_take|]. apply is_bytes_app. split; [done|by apply Forall_drop]. Qed.

(** Fields written into a buffer one after the other, at increasing offsets. *)
Definition put_fields (m : list Z) (fs : list (Z * list Z)) : list Z := foldl (λ m f, splice m f.1 f.2) m fs.
Arguments put_fields : simpl never.
Lemma put_fields_cons m off d fs : put_fields m ((off, d) :: fs) = put_fields (splice m off d) fs.
Proof. done. Qed.

Fixpoint laid_out (lo hi : Z) (fs : list (Z * list Z)) : Prop :=
  match fs with
  | [] => lo ≤ hi
  | (off, d) :: fs' => lo ≤ off ∧ laid_out (off + Z.of_nat (length d)) hi fs'
  end.

Lemma laid_out_le lo hi fs : laid_out lo hi fs → lo ≤ hi.
Proof. revert lo. induction fs as [|[off d] fs IH]; intros lo; cbn; [done|]. intros [H1 H2%IH]. lia. Qed.

Lemma laid_out_elem lo hi fs off d : laid_out lo hi fs → (off, d) ∈ fs → lo ≤ off ∧ off + Z.of_nat (length d) ≤ hi.
Proof.
  revert lo. induction fs as [|[o e] fs IH]; intros lo; [by intros _ ?%elem_of_nil|]. cbn. intros [H1 H2] [[= -> ->]|Hin]%elem_of_cons.
  - apply laid_out_le in H2. lia.
  - destruct (IH _ H2 Hin). lia.
Qed.

Lemma put_fields_length m fs lo hi :
  0 ≤ lo → laid_out lo hi fs → hi ≤ Z.of_nat (length m) → length (put_fields m fs) = length m.
Proof.
  revert m lo. induction fs as [|[off d] fs IH]; intros m lo Hlo; [done|]. rewrite put_fields_cons. cbn [laid_out]. intros [H1 H2] Hhi. pose proof (laid_out_le _ _ _ H2).
  assert (length (splice m off d) = length m) as El by (apply splice_length; lia). rewrite (IH (splice m off d) (off + Z.of_nat (length d))); [done|lia|done|lia].
Qed.

(** Bytes before and after the fields are untouched. *)
Lemma put_fields_outside m fs lo hi off n :
  0 ≤ lo → laid_out lo hi fs → hi ≤ Z.of_nat (length m) → 0 ≤ off → 0 ≤ n → off + n ≤ lo ∨ hi ≤ off →
  slice (put_fields m fs) off n = slice m off n.
Proof.
  revert m lo. induction fs as [|[o d] fs IH]; intros m lo Hlo; [done|]. rewrite put_fields_cons. cbn [laid_out]. intros [H1 H2] Hhi Ho Hn Hout. pose proof (laid_out_le _ _ _ H2).
  assert (length (splice m o d) = length m) as El by (apply splice_length; lia).
  rewrite (IH (splice m o d) (o + Z.of_nat (length d))); [|lia|done|lia|done|done|lia]. apply slice_splice_out; lia.
Qed.

Lemma put_fields_field m fs lo hi off d :
  0 ≤ lo → laid_out lo hi fs → hi ≤ Z.of_nat (length m) → (off, d) ∈ fs → slice (put_fields m fs) off (Z.of_nat (length d)) = d.
Proof.
  revert m lo. induction fs as [|[o e] fs IH]; intros m lo Hlo; [by intros _ _ ?%elem_of_nil|]. rewrite put_fields_cons. cbn [laid_out]. intros [H1 H2] Hhi Hin. pose proof (laid_out_le _ _ _ H2).
  assert (length (splice m o e) = length m) as El by (apply splice_length; lia). apply elem_of_cons in Hin as [[= -> ->]|Hin].
  - rewrite (put_fields_outside _ _ (o + Z.of_nat (length e)) hi); [|lia|done|lia|lia|lia|lia]. apply splice_eq; lia.
  - apply (IH _ (o + Z.of_nat (length e))); [lia|done|lia|done].
Qed.

Lemma put_fields_bytes m fs : is_bytes m → (∀ off d, (off, d) ∈ fs → is_bytes d) → is_bytes (put_fields m fs).
Proof.
  revert m. induction fs as [|[o d] fs IH]; intros m Hm Hf; [done|]. rewrite put_fields_cons. apply IH; [|intros off e He; apply (Hf off); by right].
  apply splice_bytes; [done|]. apply (Hf o). by left.
Qed.

(** A field inside a prefix. *)
Lemma slice_slice m n off k : 0 ≤ off → 0 ≤ k → off + k ≤ n → slice (slice m 0 n) off k = slice m off k.
Proof. intros. apply list_eq. intros i. rewrite !slice_lookup. cbn. repeat case_decide; try lia; done. Qed.

Section superblock.
Context (hash_of : list Z → Hash) `{!HashLaws hash_of}.

Definition sb_fields (sb : Superblock) : list (Z * list Z) :=
  [(0, SB_MAGIC); (8, u32_le SB_VERSION); (16, u64_le (sb_generation sb)); (24, sb_ref_table sb); (56, u64_le (sb_wal_head sb));
   (64, u64_le (sb_wal_next_seq sb)); (72, u64_le (sb_wal_len sb)); (80, u64_le (sb_chunk_tail sb)); (88, u64_le (sb_index_off sb))].

Lemma sb_laid_out sb : sb_valid sb → laid_out 0 96 (sb_fields sb).
Proof using Type. intros V. destruct (sv_ref _ V) as [Hr _]. unfold sb_fields, laid_out, u32_le, u64_le. rewrite !le_bytes_length, Hr. cbn. lia. Qed.

Definition sb_body (sb : Superblock) : list Z := put_fields (replicate (Z.to_nat SB_SIZE) 0) (sb_fields sb).

Lemma sb_body_length sb : sb_valid sb → length (sb_body sb) = Z.to_nat SB_SIZE.
Proof using Type.
  intros V. unfold sb_body. rewrite (put_fields_length _ _ 0 96), length_replicate; [done|lia|by apply sb_laid_out|]. rewrite length_replicate. unfold SB_SIZE. lia.
Qed.

Lemma Superblock_encode_fields sb :
  Superblock_encode hash_of sb = splice (sb_body sb) SB_BODY (hash_of (slice (sb_body sb) 0 SB_BODY)).
Proof using Type. reflexivity. Qed.

Lemma sb_encode_length sb : sb_valid sb → length (Superblock_encode hash_of sb) = Z.to_nat SB_SIZE.
Proof using HashLaws0.
  intros V. rewrite Superblock_encode_fields, splice_length, sb_body_length; [done|done|unfold SB_BODY; lia|]. rewrite hash_length, sb_body_length by done. unfold SB_BODY, SB_SIZE. lia.
Qed.

Lemma sb_encode_bytes sb : sb_valid sb → is_bytes (Superblock_encode hash_of sb).
Proof using HashLaws0.
  intros V. rewrite Superblock_encode_fields. apply splice_bytes; [|apply hash_bytes]. unfold sb_body. apply put_fields_bytes.
  - apply Forall_replicate. unfold is_byte. lia.
  - intros off d. unfold sb_fields. rewrite !elem_of_cons, elem_of_nil. intros H. destruct_or! H; try done; injection H as -> ->; try apply le_bytes_bytes.
    + unfold is_bytes, is_byte. repeat constructor; lia.
    + apply V.
Qed.

(** A field of the body, in the sealed slot. *)
Lemma sb_field sb off d :
  sb_valid sb → (off, d) ∈ sb_fields sb → slice (Superblock_encode hash_of sb) off (Z.of_nat (length d)) = d.
Proof using HashLaws0.
  intros V Hin. pose proof (sb_laid_out sb V) as HL. destruct (laid_out_elem _ _ _ _ _ HL Hin) as [H1 H2].
  rewrite Superblock_encode_fields, slice_splice_out; [|lia|lia|unfold SB_BODY; lia| |unfold SB_BODY; lia].
  - unfold sb_body. apply (put_fields_field _ _ 0 96); [lia|done| |done]. rewrite length_replicate. unfold SB_SIZE. lia.
  - rewrite hash_length, sb_body_length by done. unfold SB_BODY, SB_SIZE. lia.
Qed.

Lemma sb_u64 sb off x :
  sb_valid sb → (off, u64_le x) ∈ sb_fields sb → fits_in 8 x → read_u64_le (Superblock_encode hash_of sb) off = x.
Proof using HashLaws0.
  intros V Hin Hx. pose proof (sb_field sb off _ V Hin) as H. unfold u64_le in H. rewrite le_bytes_length in H. change (Z.of_nat 8) with 8 in H.
  destruct (laid_out_elem _ _ _ _ _ (sb_laid_out sb V) Hin) as [H1 H2]. unfold u64_le in H2. rewrite le_bytes_length in H2.
  rewrite read_u64_value; [|by apply sb_encode_bytes|done|rewrite sb_encode_length by done; unfold SB_SIZE; lia]. rewrite H. by apply le_value_bytes.
Qed.

Lemma magic_ok_slice buf : 8 ≤ Z.of_nat (length buf) → slice buf 0 8 = SB_MAGIC → magic_ok buf = true.
Proof using Type.
  intros Hl Hm. pose proof (slice_at buf 0 8 ltac:(lia) Hl) as E. change (Z.of_nat 8) with 8 in E. rewrite Hm in E.
  change (SB_MAGIC = [at_ buf 0; at_ buf 1; at_ buf 2; at_ buf 3; at_ buf 4; at_ buf 5; at_ buf 6; at_ buf 7]) in E. unfold magic_ok. injection E as <- <- <- <- <- <- <- <-. reflexivity.
Qed.

Lemma sb_decode_encode sb : sb_valid sb → decode_checked hash_of (Superblock_encode hash_of sb) = Ok sb.
Proof using HashLaws0.
  intros V. set (buf := Superblock_encode hash_of sb). pose proof (sb_encode_length sb V : length buf = _) as Hl. pose proof (sb_encode_bytes sb V : is_bytes buf) as Hb.
  assert (slice buf 0 8 = SB_MAGIC) as Hm by (apply (sb_field sb 0 SB_MAGIC V); by left).
  assert (magic_ok buf = true) as Hmk.
  { apply magic_ok_slice; [rewrite Hl; unfold SB_SIZE; lia|done]. }
  assert (checksum_ok hash_of buf = true) as Hck.
  { unfold checksum_ok. apply bool_decide_eq_true. unfold buf. rewrite Superblock_encode_fields.
    assert (length (hash_of (slice (sb_body sb) 0 SB_BODY)) = 32%nat) as Eh by apply hash_length.
    pose proof (splice_eq (sb_body sb) SB_BODY (hash_of (slice (sb_body sb) 0 SB_BODY))) as E. rewrite Eh in E. change (Z.of_nat 32) with 32 in E.
    rewrite E; [|unfold SB_BODY; lia|rewrite sb_body_length by done; unfold SB_BODY, SB_SIZE; lia]. f_equal. symmetry.
    apply slice_splice_out; [| | |rewrite Eh, sb_body_length by done|]; unfold SB_BODY, SB_SIZE; lia. }
  assert (read_u32_le buf 8 = SB_VERSION) as Hv.
  { assert ((8, u32_le SB_VERSION) ∈ sb_fields sb) as Hin by (right; by left). pose proof (sb_field sb 8 _ V Hin) as H. change (Z.of_nat (length (u32_le SB_VERSION))) with 4 in H.
    rewrite read_u32_value; [|done|lia|rewrite Hl; unfold SB_SIZE; lia]. unfold buf. rewrite H. reflexivity. }
  destruct (sv_ref _ V) as [Hr1 Hr2]. assert ((24, sb_ref_table sb) ∈ sb_fields sb) as Hin by (do 3 right; by left).
  pose proof (sb_field sb 24 _ V Hin) as Ht. rewrite Hr1 in Ht. change (Z.of_nat 32) with 32 in Ht. fold buf in Ht.
  assert (∀ off x, (off, u64_le x) ∈ sb_fields sb → fits_in 8 x → read_u64_le buf off = x) as Hu by (intros off x; by apply sb_u64).
  unfold decode_checked. rewrite Hl, Hmk, Hck. cbv zeta. rewrite Hv. cbn [negb]. rewrite (read_arr32_slice buf 24) by (rewrite ?Hl; unfold SB_SIZE; lia).
  rewrite Ht, (Hu 16 (sb_generation sb)), (Hu 56 (sb_wal_head sb)), (Hu 64 (sb_wal_next_seq sb)), (Hu 72 (sb_wal_len sb)),
    (Hu 80 (sb_chunk_tail sb)), (Hu 88 (sb_index_off sb)); try apply V; try (unfold sb_fields; rewrite !elem_of_cons; tauto).
  by destruct sb.
Qed.
End superblock.

(** ** Geometry *)

Lemma geometry_spec wal_head wal_len chunk_tail index_off dev_len :
  0 ≤ wal_head → 0 ≤ wal_len → 0 ≤ chunk_tail → 0 ≤ index_off → dev_len ≤ U64_MAX →
  (validate_geometry_fields wal_head wal_len chunk_tail index_off dev_len = Ok tt ↔
    wal_head ≤ wal_len ∧ WAL_OFF + wal_len + chunk_tail ≤ dev_len ∧ index_off + CHUNK_HEADER ≤ chunk_tail).
Proof.
  intros. unfold validate_geometry_fields, checked_add. unfold WAL_OFF, CHUNK_HEADER.
  repeat (first [case_decide | match goal with |- context [?a <? ?b] => destruct (Z.ltb_spec a b) end]); split; intros; try done; lia.
Qed.

(** ** Reading back *)

Definition path_valid (p : Path) : Prop := (length p < 256)%nat ∧ ∀ c, c ∈ p → (length c < 256)%nat.

Lemma reads_path p : path_valid p → reads take_path p (put_path p).
Proof.
  intros [Hn Hc]. unfold take_path, put_path. change (?x :: ?l) with ([x] ++ l). eapply reads_bind.
  - apply reads_u8. rewrite as_u8_small by done. apply fits_1. lia.
  - rewrite as_u8_small by done. rewrite Nat2Z.id. apply reads_list. intros c Hin. by apply reads_bytes8, Hc.
Qed.

(** ** The index *)

Record index_valid (entries : btree Hash IndexEntry) (free : btree Z Z) (pad : nat) : Prop := {
  iv_entries : bt_sorted entries;
  iv_free : bt_sorted free;
  iv_entry h e : (h, e) ∈ entries → length h = 32%nat ∧ fits_in 8 (ie_off e) ∧ fits_in 4 (ie_len e) ∧ fits_in 8 (ie_birth e);
  iv_extent o l : (o, l) ∈ free → fits_in 8 o ∧ fits_in 8 l;
  iv_count : fits_in 8 (Z.of_nat (length entries)) ∧ fits_in 8 (Z.of_nat (length free)) ∧ fits_in 4 (Z.of_nat pad);
}.

Lemma reads_map {K V : Type} `{Ord K} (enc : K * V → list Z) (item : list (K * V) → parse (list (K * V))) (m : list (K * V)) :
  bt_sorted m → (∀ x acc, x ∈ m → reads (item acc) (bt_insert x.1 x.2 acc) (enc x)) →
  reads (rd_repeat (length m) item []) m (concat (enc <$> m)).
Proof.
  intros Hs Hi. rewrite <-(bt_rebuild m []) at 2 by done. by apply (reads_repeat (λ x acc, bt_insert x.1 x.2 acc) enc).
Qed.

Lemma reads_index_entry x acc :
  length x.1 = 32%nat → fits_in 8 (ie_off x.2) → fits_in 4 (ie_len x.2) → fits_in 8 (ie_birth x.2) →
  reads (hash ← rd_hash; off ← rd_u64; len ← rd_u32; birth ← rd_u64; mret (bt_insert hash (MkIndexEntry off len birth) acc))
    (bt_insert x.1 x.2 acc) (encode_index_entry x).
Proof.
  intros H1 H2 H3 H4. unfold encode_index_entry. destruct x as [h [o l b]]. cbn [fst snd ie_off ie_len ie_birth] in *.
  eapply reads_bind; [by apply reads_hash|]. eapply reads_bind; [by apply reads_u64|]. eapply reads_bind; [by apply reads_u32|].
  rewrite <-(app_nil_r (u64_le b)). eapply reads_bind; [by apply reads_u64|]. apply reads_ret.
Qed.

Lemma reads_extent (x : Z * Z) acc :
  fits_in 8 x.1 → fits_in 8 x.2 → reads (off ← rd_u64; len ← rd_u64; mret (bt_insert off len acc)) (bt_insert x.1 x.2 acc) (encode_extent x).
Proof.
  intros H1 H2. unfold encode_extent. eapply reads_bind; [by apply reads_u64|]. rewrite <-(app_nil_r (u64_le x.2)). eapply reads_bind; [by apply reads_u64|]. apply reads_ret.
Qed.

Lemma reads_counted {K V : Type} `{Ord K} (enc : K * V → list Z) (item : list (K * V) → parse (list (K * V))) (m : list (K * V)) (z : Z) :
  z = Z.of_nat (length m) → bt_sorted m → (∀ x acc, x ∈ m → reads (item acc) (bt_insert x.1 x.2 acc) (enc x)) →
  reads (rd_repeat (Z.to_nat z) item []) m (concat (enc <$> m)).
Proof. intros ->. rewrite Nat2Z.id. apply reads_map. Qed.

Lemma zeros_ok n : forallb (λ b, b =? 0) (replicate n 0) = true.
Proof. by induction n. Qed.

(** The frame is sized from the counts alone. *)
Lemma encode_index_length entries free pad : index_valid entries free pad →
  Z.of_nat (length (encode_index entries free pad)) = index_payload_len (Z.of_nat (length entries)) (Z.of_nat (length free)) + Z.of_nat pad.
Proof.
  intros V. assert (length (concat (encode_index_entry <$> entries)) = length entries * 52)%nat as H1.
  { apply concat_fmap_length. intros [h e] Hin. destruct (iv_entry _ _ _ V _ _ Hin) as [Hh _]. unfold encode_index_entry, u64_le, u32_le. rewrite !length_app, !le_bytes_length. cbn [fst]. rewrite Hh. done. }
  assert (length (concat (encode_extent <$> free)) = length free * 16)%nat as H2.
  { apply concat_fmap_length. intros [o l] _. unfold encode_extent, u64_le. rewrite length_app, !le_bytes_length. done. }
  unfold encode_index, index_payload_len, u64_le, u32_le. rewrite !length_app, !le_bytes_length, H1, H2, length_replicate. cbn [length INDEX_MAGIC]. lia.
Qed.
Lemma index_decode_encode entries free pad : index_valid entries free pad → decode_index (encode_index entries free pad) = Ok (entries, free).
Proof.
  intros V. destruct (iv_count _ _ _ V) as (C1 & C2 & C3). unfold decode_index.
  enough (ends decode_index_parser (entries, free) (encode_index entries free pad)) as H by (by rewrite (ends_all _ _ _ H)).
  unfold decode_index_parser, encode_index. apply ends_magic; [done|]. eapply ends_bind; [by apply reads_u64|].
  eapply ends_bind. { apply reads_counted; [done|apply V|]. intros [h e] acc (A & B & C & D)%(iv_entry _ _ _ V). by apply reads_index_entry. }
  eapply ends_bind; [by apply reads_u64|].
  eapply ends_bind. { apply reads_counted; [done|apply V|]. intros [o l] acc [A B]%(iv_extent _ _ _ V). by apply reads_extent. }
  eapply ends_bind; [by apply reads_u32|]. rewrite <-(app_nil_r (replicate pad 0)). eapply ends_bind; [apply reads_take_n; rewrite length_replicate; lia|].
  rewrite zeros_ok. apply ends_done.
Qed.

(** ** Write-ahead-log records *)

Definition op_valid (op : WalOp) : Prop :=
  match op with
  | Write r p off mt d => (length r < 256)%nat ∧ path_valid p ∧ fits_in 8 off ∧ fits_in 8 mt ∧ fits_in 4 (Z.of_nat (length d))
  | Unlink r p mt => (length r < 256)%nat ∧ path_valid p ∧ fits_in 8 mt
  | Rename r p q mt => (length r < 256)%nat ∧ path_valid p ∧ path_valid q ∧ fits_in 8 mt
  end.

Lemma as_u32_small z : fits_in 4 z → as_u32 z = z.
Proof. apply Z.mod_small. Qed.

Lemma payload_ends op : op_valid op → ends decode_payload_parser op (encode_payload op).
Proof.
  intros V. unfold decode_payload_parser.
  assert (∃ tag body, encode_payload op = [tag] ++ body ∧ fits_in 1 tag ∧ reads (op_parser tag) op body) as (tag & body & -> & Ht & Hr).
  { destruct op as [r p off mt d|r p mt|r p q mt]; cbn [op_valid] in V; destruct_and! V; (eexists _, _; split_and!; [reflexivity|done|]); unfold op_parser; cbn [Z.eqb Pos.eqb];
      repeat (eapply reads_bind; [by eauto using reads_bytes8, reads_path with bytes|]).
    - rewrite as_u32_small by done. eapply reads_bind; [by apply reads_u32|]. rewrite Nat2Z.id. apply (reads_last (rd_take (length d))), reads_take.
    - by apply (reads_last rd_u64), reads_u64.
    - by apply (reads_last rd_u64), reads_u64. }
  eapply ends_bind; [by apply reads_u8|]. rewrite <-(app_nil_r body). eapply ends_bind; [exact Hr|]. apply ends_done.
Qed.

Lemma payload_decode_encode op : op_valid op → decode_payload (encode_payload op) = Ok op.
Proof. intros V%payload_ends. unfold decode_payload. by rewrite (ends_all _ _ _ V). Qed.

(** A field between a prefix and a tail. *)
Lemma slice_app pre d post p n :
  p = Z.of_nat (length pre) → n = Z.of_nat (length d) → slice (pre ++ d ++ post) p n = d.
Proof. intros -> ->. unfold slice. rewrite !Nat2Z.id, drop_app_length. apply take_app_length. Qed.

Section records.
Context (hash_of : list Z → Hash) `{!HashLaws hash_of}.

Definition record_valid (op : WalOp) (seq : Z) : Prop :=
  op_valid op ∧ fits_in 8 seq ∧ fits_in 4 (Z.of_nat (length (encode_payload op))).

Lemma encode_record_length op seq : length (encode_record hash_of op seq) = (48 + length (encode_payload op))%nat.
Proof using HashLaws0. unfold encode_record, record_checksum, u64_le, u32_le. rewrite !length_app, !le_bytes_length, hash_length. reflexivity. Qed.

Lemma decode_encode_record op seq tail :
  record_valid op seq →
  decode_record hash_of (encode_record hash_of op seq ++ tail) = Some (seq, op, Z.of_nat (length (encode_record hash_of op seq))).
Proof using HashLaws0.
  intros (V & Hs & Hl). rewrite encode_record_length. unfold encode_record. rewrite as_u32_small by done. cbv zeta.
  set (pl := encode_payload op) in *. set (ck := record_checksum hash_of seq (Z.of_nat (length pl)) pl). set (n := Z.of_nat (length pl)) in *.
  assert (length ck = 32%nat) as Hck by apply (hash_length (hash_of := hash_of)). rewrite <-!app_assoc. set (buf := WAL_MAGIC ++ _).
  assert (Z.of_nat (length buf) = 48 + n + Z.of_nat (length tail)) as Hbuf.
  { unfold buf, u64_le, u32_le. rewrite !length_app, !le_bytes_length, Hck. unfold n. cbn [length WAL_MAGIC]. lia. }
  assert (slice buf 0 4 = WAL_MAGIC) as F0 by (apply (slice_app [] WAL_MAGIC); done).
  assert (slice buf 4 8 = u64_le seq) as F1 by (apply (slice_app WAL_MAGIC (u64_le seq)); unfold u64_le; rewrite ?le_bytes_length; done).
  assert (slice buf 12 4 = u32_le n) as F2.
  { unfold buf. rewrite app_assoc. apply slice_app; unfold u64_le, u32_le; rewrite ?length_app, ?le_bytes_length; done. }
  assert (slice buf 16 32 = ck) as F3.
  { unfold buf. rewrite (app_assoc WAL_MAGIC), (app_assoc (WAL_MAGIC ++ _)). apply slice_app; unfold u64_le, u32_le; rewrite ?length_app, ?le_bytes_length, ?Hck; done. }
  assert (slice buf WAL_HEADER n = pl) as F4.
  { unfold buf. rewrite (app_assoc WAL_MAGIC), (app_assoc (WAL_MAGIC ++ _)), (app_assoc ((WAL_MAGIC ++ _) ++ _)). apply slice_app; [|done].
    unfold u64_le, u32_le; rewrite ?length_app, ?le_bytes_length, ?Hck; done. }
  assert (0 ≤ n) as Hn by lia. unfold decode_record. rewrite F0, F1, F2, F3. unfold u64_le, u32_le. rewrite (le_value_bytes 8 seq), (le_value_bytes 4 n) by done. cbv zeta.
  rewrite F4, Hbuf. unfold WAL_HEADER. rewrite bool_decide_eq_true_2 by done. destruct (Z.ltb_spec (48 + n + Z.of_nat (length tail)) 48); [lia|].
  destruct (Z.ltb_spec (48 + n + Z.of_nat (length tail)) (48 + n)); [lia|]. cbn [orb negb]. rewrite bool_decide_eq_true_2 by done. cbn [negb].
  unfold pl. rewrite payload_decode_encode by done. do 2 f_equal. subst n pl. lia.
Qed.
End records.

(** ** Accepted records are encodings *)

Lemma canon_path : canon take_path put_path (λ p, path_valid p ∧ Forall is_bytes p).
Proof.
  intros r p r' G H. unfold take_path in H. pstep H canon_u8. apply (canon_list _ _ _ _ canon_bytes8) in H as [T2 [Hn Hc]]; [|done].
  unfold fits_in in P. change (256 ^ Z.of_nat 1) with 256 in P. assert (length p < 256)%nat as Hl by lia. rewrite Forall_forall in Hc. split.
  - unfold put_path. rewrite as_u8_small by done. replace (Z.of_nat (length p)) with x by lia. by eapply (took_trans _ _ _ [x]).
  - split; [split; [done|]|apply Forall_forall]; intros c ?%Hc; tauto.
Qed.

Lemma canon_op tag : canon (op_parser tag) (λ op, tail (encode_payload op)) (λ op, op_valid op ∧ head (encode_payload op) = Some tag).
Proof.
  intros r op r' G H. unfold op_parser in H. destruct (Z.eqb_spec tag 1) as [->|]; [|destruct (Z.eqb_spec tag 2) as [->|]; [|destruct (Z.eqb_spec tag 3) as [->|]; [|done]]].
  - pstep H canon_bytes8. pstep H canon_path. pstep H canon_u64. pstep H canon_u64. pstep H canon_u32. pstep H (canon_take (Z.to_nat x3)). injection H as <- <-.
    assert (x3 = Z.of_nat (length x4)) as -> by (unfold fits_in in *; lia). split; [|cbn; split; [|done]; tauto].
    cbn [encode_payload app tail]. rewrite as_u32_small by done. by repeat (eapply took_trans; [eassumption|]).
  - pstep H canon_bytes8. pstep H canon_path. pstep H canon_u64. injection H as <- <-. split; [|cbn; split; [|done]; tauto].
    by repeat (eapply took_trans; [eassumption|]).
  - pstep H canon_bytes8. pstep H canon_path. pstep H canon_path. pstep H canon_u64. injection H as <- <-. split; [|cbn; split; [|done]; tauto].
    by repeat (eapply took_trans; [eassumption|]).
Qed.

Lemma payload_encode_decode buf op : is_bytes buf → decode_payload buf = Ok op → buf = encode_payload op ∧ op_valid op.
Proof.
  intros Hb. unfold decode_payload. destruct (decode_payload_parser (reader buf)) as [[a r']|e] eqn:E; [|done]. intros [= ->].
  unfold decode_payload_parser in E.
  assert (good (reader buf)) as G by (split; [cbn; lia|exact Hb]). pstep E canon_u8. pstep E (canon_op x). destruct P0 as [V Hh].
  apply bind_ok in E as (d & r2 & [-> Hd]%done_ok & E). destruct d; [|done]. injection E as -> ->. specialize (Hd eq_refl).
  split; [|done]. pose proof (took_trans _ _ _ _ _ T T0) as (_ & _ & _ & ER). rewrite Hd, app_nil_r in ER. change (rest (reader buf)) with buf in ER. rewrite ER. by destruct op; injection Hh as <-.
Qed.

Section accepted.
Context (hash_of : list Z → Hash) `{!HashLaws hash_of}.

(** The four fields of a record's header and its payload tile the front of the buffer. *)
Lemma slices_tile buf n :
  0 ≤ n → 48 + n ≤ Z.of_nat (length buf) →
  buf = slice buf 0 4 ++ slice buf 4 8 ++ slice buf 12 4 ++ slice buf 16 32 ++ slice buf 48 n ++ drop (Z.to_nat (48 + n)) buf.
Proof using Type.
  intros Hn Hl. unfold slice. rewrite <-(take_drop 4 buf) at 1. f_equal. rewrite <-(take_drop 8 (drop 4 buf)) at 1. f_equal. rewrite drop_drop.
  rewrite <-(take_drop 4 (drop (4 + 8) buf)) at 1. f_equal. rewrite drop_drop. rewrite <-(take_drop 32 (drop (4 + 8 + 4) buf)) at 1. f_equal. rewrite drop_drop.
  rewrite <-(take_drop (Z.to_nat n) (drop _ buf)) at 1. f_equal. rewrite drop_drop. f_equal. lia.
Qed.

Lemma encode_decode_record buf seq op n :
  is_bytes buf → decode_record hash_of buf = Some (seq, op, n) →
  record_valid op seq ∧ n = Z.of_nat (length (encode_record hash_of op seq)) ∧ ∃ tail, buf = encode_record hash_of op seq ++ tail.
Proof using HashLaws0.
  intros Hb H. unfold decode_record in H. destruct (orb _ _) eqn:E1; [done|]. apply orb_false_iff in E1 as [E1 E2]. apply Z.ltb_ge in E1. apply negb_false_iff, bool_decide_eq_true in E2.
  cbv zeta in H. set (len := le_value (slice buf 12 4)) in *. unfold WAL_HEADER in *. destruct (Z.ltb_spec (Z.of_nat (length buf)) (48 + len)) as [|E3]; [done|].
  destruct (negb _) eqn:E4 in H; [done|]. apply negb_false_iff, bool_decide_eq_true in E4. destruct (decode_payload _) as [op'|] eqn:E5; [|done]. injection H as <- -> <-.
  assert (length (slice buf 12 4) = 4%nat) as L3 by (apply slice_length; lia). assert (length (slice buf 4 8) = 8%nat) as L2 by (apply slice_length; lia).
  assert (fits_in 4 len) as Hlen by (apply le_value_fits; [by apply slice_bytes|done]). assert (0 ≤ len) by (unfold fits_in in Hlen; lia).
  apply payload_encode_decode in E5 as [E5 V]; [|by apply slice_bytes]. assert (length (encode_payload op) = Z.to_nat len) as Hpl by (rewrite <-E5; apply slice_length; lia).
  assert (Z.of_nat (length (encode_payload op)) = len) as Hpz by lia. split_and!.
  - split; [done|]. rewrite Hpz. split; [apply le_value_fits; [by apply slice_bytes|done]|done].
  - rewrite encode_record_length, Hpl, Nat2Z.inj_add, Z2Nat.id by done. reflexivity.
  - exists (drop (Z.to_nat (48 + len)) buf). rewrite (slices_tile buf len) at 1 by lia. unfold encode_record. rewrite Hpz, as_u32_small by done. cbv zeta.
    rewrite <-!app_assoc. rewrite E2, <-E4, E5. unfold u64_le, u32_le. rewrite (le_bytes_value (slice buf 4 8) 8 ltac:(by apply slice_bytes) L2).
    unfold len. by rewrite (le_bytes_value (slice buf 12 4) 4 ltac:(by apply slice_bytes) L3).
Qed.
End accepted.

(** ** The ref table *)

Definition hash_valid (h : Hash) : Prop := length h = 32%nat.

Record reft_valid (t : RefTable) : Prop := {
  rv_refs : bt_sorted (rt_refs t);
  rv_snaps : bt_sorted (rt_snaps t);
  rv_tags : bt_sorted (rt_tags t);
  rv_ref n e : (n, e) ∈ rt_refs t →
    (length n < 256)%nat ∧ hash_valid (re_root e) ∧ fits_in 8 (re_generation e) ∧ fits_in 8 (re_next_snap_id e) ∧ fits_in 8 (re_edit_version e);
  rv_snap n i s : (n, i, s) ∈ rt_snaps t →
    i = sn_id s ∧ (length n < 256)%nat ∧ fits_in 8 (sn_id s) ∧ hash_valid (sn_root s) ∧ fits_in 8 (sn_timestamp s) ∧
    (length (sn_provenance s) < 256)%nat ∧ (∀ p, sn_parent s = Some p → 0 ≤ p < U64_MAX) ∧
    fits_in 2 (Z.of_nat (length (sn_message s))) ∧ 0 ≤ sn_class s ≤ CLASS_EPHEMERAL;
  rv_tag n r i : (n, (r, i)) ∈ rt_tags t → (length n < 256)%nat ∧ (length r < 256)%nat ∧ fits_in 8 i;
  rv_count : fits_in 4 (Z.of_nat (length (rt_refs t))) ∧ fits_in 4 (Z.of_nat (length (rt_snaps t))) ∧ fits_in 4 (Z.of_nat (length (rt_tags t)));
}.

Lemma reads_ref t x acc : reft_valid t → x ∈ rt_refs t → reads (take_ref acc) (bt_insert x.1 x.2 acc) (encode_ref x).
Proof.
  intros V Hx. destruct x as [n [a b c d]]. apply (rv_ref _ V) in Hx as (H1 & H2 & H3 & H4 & H5). unfold take_ref, encode_ref. cbn [fst snd re_root re_generation re_next_snap_id re_edit_version] in *.
  eapply reads_bind; [by apply reads_bytes8|]. eapply reads_bind; [by apply reads_hash|]. eapply reads_bind; [by apply reads_u64|]. eapply reads_bind; [by apply reads_u64|].
  by apply (reads_last rd_u64 (λ e, bt_insert n (MkRefEntry a b c e) acc)), reads_u64.
Qed.

Lemma reads_tag t x acc : reft_valid t → x ∈ rt_tags t → reads (take_tag acc) (bt_insert x.1 x.2 acc) (encode_tag x).
Proof.
  intros V Hx. destruct x as [n [r i]]. apply (rv_tag _ V) in Hx as (H1 & H2 & H3). unfold take_tag, encode_tag. cbn [fst snd].
  eapply reads_bind; [by apply reads_bytes8|]. eapply reads_bind; [by apply reads_bytes8|]. by apply (reads_last rd_u64 (λ j, bt_insert n (r, j) acc)), reads_u64.
Qed.

Lemma parent_raw (p : option Z) :
  (∀ q, p = Some q → 0 ≤ q < U64_MAX) → fits_in 8 (default U64_MAX p) ∧ (if default U64_MAX p =? U64_MAX then None else Some (default U64_MAX p)) = p.
Proof.
  intros Hp. destruct p as [q|]; cbn [from_option]; unfold id; [|done]. specialize (Hp q eq_refl). split; [|by destruct (Z.eqb_spec q U64_MAX); [lia|]].
  unfold fits_in, U64_MAX in *. change (256 ^ Z.of_nat 8) with 18446744073709551616. lia.
Qed.

Lemma reads_snap t x acc : reft_valid t → x ∈ rt_snaps t → reads (take_snap acc) (bt_insert x.1 x.2 acc) (encode_snap x).
Proof.
  intros V Hx. destruct x as [[n i] s]. apply (rv_snap _ V) in Hx as (-> & H1 & H2 & H3 & H4 & H5 & H6 & H7 & H8). unfold take_snap, encode_snap. cbv zeta. cbn [fst snd].
  destruct (parent_raw _ H6) as [P1 P2]. assert (as_u16 (Z.of_nat (length (sn_message s))) = Z.of_nat (length (sn_message s))) as -> by (by apply Z.mod_small).
  eapply reads_bind; [by apply reads_bytes8|]. eapply reads_bind; [by apply reads_u64|]. eapply reads_bind; [by apply reads_hash|]. eapply reads_bind; [by apply reads_u64|].
  eapply reads_bind; [by apply reads_bytes8|]. eapply reads_bind; [by apply reads_u64|]. eapply reads_bind; [by apply reads_u16|]. rewrite Nat2Z.id. eapply reads_bind; [apply reads_take|].
  rewrite <-(app_nil_r [sn_class s]). eapply reads_bind; [apply reads_u8; unfold CLASS_EPHEMERAL in H8; apply fits_1; lia|].
  destruct (Z.ltb_spec CLASS_EPHEMERAL (sn_class s)); [lia|]. rewrite P2. destruct s. apply reads_ret.
Qed.

Lemma reft_decode_encode t : reft_valid t → RefTable_decode (RefTable_encode t) = Ok t.
Proof.
  intros V. destruct (rv_count _ V) as (C1 & C2 & C3). unfold RefTable_decode. enough (ends RefTable_parser t (RefTable_encode t)) as H by (by rewrite (ends_all _ _ _ H)).
  unfold RefTable_parser, RefTable_encode. rewrite !as_u32_small by done. apply ends_magic; [done|].
  eapply ends_bind; [by apply reads_u32|]. eapply ends_bind. { apply reads_counted; [done|apply V|]. intros x acc. by apply (reads_ref t). }
  eapply ends_bind; [by apply reads_u32|]. eapply ends_bind. { apply reads_counted; [done|apply V|]. intros x acc. by apply (reads_snap t). }
  eapply ends_bind; [by apply reads_u32|]. rewrite <-(app_nil_r (concat (encode_tag <$> _))). eapply ends_bind. { apply reads_counted; [done|apply V|]. intros x acc. by apply (reads_tag t). }
  destruct t. apply ends_done.
Qed.

(** ** Chunk frames *)

Lemma chunk_header_decode data birth h :
  hash_valid h → fits_in 4 (Z.of_nat (length data)) → fits_in 8 birth →
  ∀ tail, decode_chunk_header (encode_chunk_frame data birth h ++ tail) = Some (Z.of_nat (length data), birth, h).
Proof.
  intros Hh Hl Hg tail. unfold encode_chunk_frame. rewrite as_u32_small by done. rewrite <-!app_assoc. set (buf := CHUNK_MAGIC ++ _).
  assert (Z.of_nat (length buf) = 48 + Z.of_nat (length data) + Z.of_nat (length tail)) as Hbuf.
  { unfold buf, u64_le, u32_le. rewrite !length_app, !le_bytes_length, Hh. cbn [length CHUNK_MAGIC]. lia. }
  assert (slice buf 0 4 = CHUNK_MAGIC) as F0 by (apply (slice_app [] CHUNK_MAGIC); done).
  assert (slice buf 4 4 = u32_le (Z.of_nat (length data))) as F1 by (apply slice_app; unfold u32_le; rewrite ?le_bytes_length; done).
  assert (slice buf 8 8 = u64_le birth) as F2.
  { unfold buf. rewrite app_assoc. apply slice_app; unfold u64_le, u32_le; rewrite ?length_app, ?le_bytes_length; done. }
  assert (slice buf 16 32 = h) as F3.
  { unfold buf. rewrite (app_assoc CHUNK_MAGIC), (app_assoc (CHUNK_MAGIC ++ _)). apply slice_app; unfold u64_le, u32_le; rewrite ?length_app, ?le_bytes_length, ?Hh; done. }
  unfold decode_chunk_header. rewrite F0, F1, F2, F3, bool_decide_eq_true_2 by done. unfold u32_le, u64_le. rewrite !le_value_bytes by done.
  destruct (Z.ltb_spec (Z.of_nat (length buf)) CHUNK_HEADER); [unfold CHUNK_HEADER in *; lia|done].
Qed.
