(* ===== verification/Recovery.v ===== *)
(** The recovery decisions of the storage engine ([cas/src/store.rs]): which superblock
    slot survives, which one a commit writes, how far a commit may advance the head of
    the write-ahead log, and which records of the log a mount replays. *)

From stdpp Require Import strings.
From S2P Require Import Prelude Bytes BTree Disk.

(** ** Slots *)
Inductive Survivor : Type := SlotA | SlotB | Neither.
Definition pick_survivor (gen_a : Z) (valid_a : bool) (gen_b : Z) (valid_b : bool) : Survivor :=
  if valid_a && valid_b then (if gen_b <=? gen_a then SlotA else SlotB)
  else if valid_a then SlotA
  else if valid_b then SlotB
  else Neither.

Inductive Slot : Type := Slot_A | Slot_B.
Definition commit_target (sb_in_b : bool) : Slot := if sb_in_b then Slot_A else Slot_B.

(** ** Advancing the head *)
Record RecMeta : Type := MkRec { rm_seq : Z; rm_off : Z; rm_ref : list Z; rm_flushed : bool }.
Record HeadAdvance : Type := MkAdvance { ha_flushed : nat; ha_head : Z; ha_next_seq : Z }.

(** [while i < records.len() && records[i].flushed { i += 1 }] *)
Fixpoint flushed_prefix (records : list RecMeta) : nat :=
  match records with
  | [] => 0
  | r :: records' => if rm_flushed r then S (flushed_prefix records') else 0
  end.
Definition advance_head (records : list RecMeta) (wal_seq : Z) : HeadAdvance :=
  let i := flushed_prefix records in
  match records !! i with
  | Some r => MkAdvance i (rm_off r) (rm_seq r)
  | None => MkAdvance i 0 wal_seq
  end.

(** ** Framing *)
Definition WAL_HEADER_N : nat := 48.

Definition decode_frame (wal : list Z) (off : nat) : option (Z * nat) :=
  if bool_decide (length wal - off < WAL_HEADER_N)%nat then None
  else if negb ((at_ wal (Z.of_nat off) =? 87) && (at_ wal (Z.of_nat off + 1) =? 82) && (at_ wal (Z.of_nat off + 2) =? 69) && (at_ wal (Z.of_nat off + 3) =? 67)) then None
  else
    let seq := read_u64_le wal (Z.of_nat off + 4) in
    let len := Z.to_nat (read_u32_le wal (Z.of_nat off + 12)) in
    let rlen := (WAL_HEADER_N + len)%nat in
    if bool_decide (rlen ≤ length wal - off)%nat then Some (seq, rlen) else None.

(** ** The structural walk of a payload *)
Definition e_take (pay : list Z) (pos n : nat) : option nat :=
  if bool_decide (length pay - pos < n)%nat then None else Some (pos + n)%nat.
Definition byte_at (pay : list Z) (pos : nat) : nat := Z.to_nat (pay !!! pos).

Fixpoint e_path (pay : list Z) (pos count : nat) : option nat :=
  match count with
  | O => Some pos
  | S count' =>
      p1 ← e_take pay pos 1;
      p2 ← e_take pay p1 (byte_at pay pos);
      e_path pay p2 count'
  end.

Definition e_payload_write_ok (pay : list Z) (p_tag : nat) : bool :=
  match (p_rl ← e_take pay p_tag 1;
         p_ref ← e_take pay p_rl (byte_at pay p_tag);
         p_pc ← e_take pay p_ref 1;
         p_path ← e_path pay p_pc (byte_at pay p_ref);
         p_off ← e_take pay p_path 8;
         p_mt ← e_take pay p_off 8;
         p_dl ← e_take pay p_mt 4;
         e_take pay p_dl (Z.to_nat (read_u32_le pay (Z.of_nat p_mt)))) with
  | Some p_data => bool_decide (p_data = length pay)
  | None => false
  end.
Definition e_payload_unlink_ok (pay : list Z) (p_tag : nat) : bool :=
  match (p_rl ← e_take pay p_tag 1;
         p_ref ← e_take pay p_rl (byte_at pay p_tag);
         p_pc ← e_take pay p_ref 1;
         p_path ← e_path pay p_pc (byte_at pay p_ref);
         e_take pay p_path 8) with
  | Some p_mt => bool_decide (p_mt = length pay)
  | None => false
  end.
Definition e_payload_rename_ok (pay : list Z) (p_tag : nat) : bool :=
  match (p_rl ← e_take pay p_tag 1;
         p_ref ← e_take pay p_rl (byte_at pay p_tag);
         p_fc ← e_take pay p_ref 1;
         p_from ← e_path pay p_fc (byte_at pay p_ref);
         p_tc ← e_take pay p_from 1;
         p_to ← e_path pay p_tc (byte_at pay p_from);
         e_take pay p_to 8) with
  | Some p_mt => bool_decide (p_mt = length pay)
  | None => false
  end.
Definition e_payload_ok (pay : list Z) : bool :=
  match e_take pay 0 1 with
  | None => false
  | Some p_tag =>
      let tag := pay !!! 0%nat in
      if tag =? 1 then e_payload_write_ok pay p_tag
      else if tag =? 2 then e_payload_unlink_ok pay p_tag
      else if tag =? 3 then e_payload_rename_ok pay p_tag
      else false
  end.

Definition wal_struct_ok (wal : list Z) (off rlen : nat) : bool :=
  if bool_decide (rlen < WAL_HEADER_N)%nat then false
  else e_payload_ok (take (rlen - WAL_HEADER_N) (drop (off + WAL_HEADER_N) wal)).

Section checked.
Context (hash_of : list Z → Hash).

Definition wal_checksum_ok (wal : list Z) (off rlen : nat) : bool :=
  let rec_ := take rlen (drop off wal) in
  if bool_decide (length rec_ < WAL_HEADER_N)%nat then false
  else
    let seq := le_value (slice rec_ 4 8) in
    let len := le_value (slice rec_ 12 4) in
    let payload_len := Z.to_nat len in
    if bool_decide (length rec_ - WAL_HEADER_N < payload_len)%nat then false
    else
      let payload := slice rec_ WAL_HEADER len in
      bool_decide (record_checksum hash_of seq len payload = slice rec_ 16 32).
Definition wal_content_ok (wal : list Z) (off rlen : nat) : bool := wal_struct_ok wal off rlen && wal_checksum_ok wal off rlen.

(** ** The walk *)
Record Recovered : Type := MkRecovered { rc_records : list RecMeta; rc_end_off : Z; rc_next_seq : Z; rc_forged_max : bool }.

(** Every accepted record is at least a header long: [fuel] is the length of the log. *)
Fixpoint recover_loop (fuel : nat) (wal : list Z) (off : nat) (seq : Z) (records : list RecMeta) : option Recovered :=
  match fuel with
  | O => None
  | S fuel' =>
      let stop := MkRecovered records (Z.of_nat off) seq false in
      if bool_decide (length wal ≤ off)%nat then Some stop
      else
        match decode_frame wal off with
        | None => Some stop
        | Some (fseq, rlen) =>
            if negb (fseq =? seq) then Some stop
            else if negb (wal_content_ok wal off rlen) then Some stop
            else if seq =? U64_MAX then Some (MkRecovered records (Z.of_nat off) seq true)
            else recover_loop fuel' wal (off + rlen) (seq + 1) (records ++ [MkRec seq (Z.of_nat off) [] false])
        end
  end.
Definition recover_records (wal : list Z) (wal_head wal_next_seq : Z) : option Recovered :=
  recover_loop (S (length wal)) wal (Z.to_nat wal_head) wal_next_seq [].
End checked.

(** * The walk accepts what the decoder accepts *)

Section walk.
Context (pay : list Z).

(** A reader over [pay]. *)
Notation "⟪ pos ⟫" := (MkReader pay pos) (format "⟪ pos ⟫").
Definition walked {T : Type} (x : option nat) (a : nat → T) : result (T * Reader) FormatError :=
  match x with Some p => Ok (a p, ⟪p⟫) | None => Err (BadNode "truncated") end.

Lemma e_take_le pos n p : e_take pay pos n = Some p → (pos ≤ length pay)%nat → (p = pos + n ∧ p ≤ length pay)%nat.
Proof using Type. unfold e_take. case_bool_decide; [done|]. intros [= <-]. lia. Qed.

Lemma take_walk pos n : (pos ≤ length pay)%nat → rd_take n ⟪pos⟫ = walked (e_take pay pos n) (λ _, take n (drop pos pay)).
Proof using Type.
  intros Hp. unfold rd_take, e_take, walked. cbn [rd_pos rd_buf]. case_decide; [rewrite bool_decide_eq_false_2 by lia|rewrite bool_decide_eq_true_2 by lia]; done.
Qed.

Lemma u8_walk pos : (pos ≤ length pay)%nat → rd_u8 ⟪pos⟫ = walked (e_take pay pos 1) (λ _, pay !!! pos).
Proof using Type.
  intros Hp. unfold rd_u8, mbind, parse_bind. rewrite take_walk by done. destruct (e_take pay pos 1) as [p|] eqn:E; [|done].
  apply e_take_le in E as [-> Hl]; [|done]. destruct (lookup_lt_is_Some_2 pay pos) as [x Hx]; [lia|]. rewrite (drop_S _ _ _ Hx). cbn [walked mret parse_ret]. rewrite (list_lookup_total_correct _ _ _ Hx). enough (x + 256 * 0 = x) as Ex by exact (f_equal (λ y, Ok (y, ⟪pos + 1⟫)) Ex). lia.
Qed.

Definition e_bytes8 (pos : nat) : option nat := p1 ← e_take pay pos 1; e_take pay p1 (byte_at pay pos).
Lemma e_bytes8_le pos p : e_bytes8 pos = Some p → (pos ≤ length pay)%nat → (p ≤ length pay)%nat.
Proof using Type. unfold e_bytes8. intros (p1 & H1 & H2)%bind_Some Hp. apply e_take_le in H1 as [_ H1]; [|done]. by apply e_take_le in H2 as [_ ?]. Qed.

Lemma bytes8_walk pos : (pos ≤ length pay)%nat → take_bytes8 ⟪pos⟫ = walked (e_bytes8 pos) (λ _, take (byte_at pay pos) (drop (pos + 1) pay)).
Proof using Type.
  intros Hp. unfold take_bytes8, mbind, parse_bind, e_bytes8. rewrite u8_walk by done. destruct (e_take pay pos 1) as [p|] eqn:E; [|done]. cbn [walked mbind option_bind].
  apply e_take_le in E as [-> Hl]; [|done]. by rewrite take_walk by done.
Qed.

Lemma path_walk n pos acc : (pos ≤ length pay)%nat →
  match e_path pay pos n with
  | Some p => (p ≤ length pay)%nat ∧ ∃ xs, rd_repeat n (λ acc, x ← take_bytes8; mret (acc ++ [x])) acc ⟪pos⟫ = Ok (xs, ⟪p⟫)
  | None => ∃ e, rd_repeat n (λ acc, x ← take_bytes8; mret (acc ++ [x])) acc ⟪pos⟫ = Err e
  end.
Proof using Type.
  revert pos acc. induction n as [|n IH]; intros pos acc Hp; cbn [e_path rd_repeat]; [split; [done|]; by exists acc|].
  unfold mbind, parse_bind. rewrite bytes8_walk by done. unfold e_bytes8, mbind. destruct (e_take pay pos 1) as [p1|] eqn:E1; cbn [option_bind walked]; [|by eexists].
  destruct (e_take pay p1 (byte_at pay pos)) as [p2|] eqn:E2; cbn [option_bind walked mret parse_ret]; [|by eexists]. apply IH.
  apply e_take_le in E1 as [-> ?]; [|done]. by apply e_take_le in E2 as [-> ?].
Qed.

Definition e_counted_path (pos : nat) : option nat := p1 ← e_take pay pos 1; e_path pay p1 (byte_at pay pos).

(** One step of the two walks side by side: both go on, or both give up. *)
Definition agree {T : Type} (x : result (T * Reader) FormatError) (y : option nat) : Prop :=
  match y with Some p => (p ≤ length pay)%nat ∧ ∃ a, x = Ok (a, ⟪p⟫) | None => ∃ e, x = Err e end.

Lemma agree_walked {T : Type} (y : option nat) (a : nat → T) : (∀ p, y = Some p → (p ≤ length pay)%nat) → agree (walked y a) y.
Proof using Type. intros Hy. destruct y as [p|]; cbn; [split; [by apply Hy|by eexists]|by eexists]. Qed.
Lemma agree_take n pos : (pos ≤ length pay)%nat → agree (rd_take n ⟪pos⟫) (e_take pay pos n).
Proof using Type. intros Hp. rewrite take_walk by done. apply agree_walked. intros p H1. by apply e_take_le in H1 as [_ ?]. Qed.
Lemma agree_bytes8 pos : (pos ≤ length pay)%nat → agree (take_bytes8 ⟪pos⟫) (e_bytes8 pos).
Proof using Type. intros Hp. rewrite bytes8_walk by done. apply agree_walked. intros p H1. by eapply e_bytes8_le. Qed.
Lemma agree_path pos : (pos ≤ length pay)%nat → agree (take_path ⟪pos⟫) (e_counted_path pos).
Proof using Type.
  intros Hp. unfold take_path, e_counted_path, mbind, parse_bind. rewrite u8_walk by done. destruct (e_take pay pos 1) as [p|] eqn:E; cbn [walked option_bind]; [|by eexists].
  apply e_take_le in E as [-> Hl]; [|done]. by apply (path_walk (byte_at pay pos) (pos + 1) []).
Qed.
Lemma agree_u64 pos : (pos ≤ length pay)%nat → agree (rd_u64 ⟪pos⟫) (e_take pay pos 8).
Proof using Type.
  intros Hp. unfold rd_u64, mbind, parse_bind. rewrite take_walk by done. destruct (e_take pay pos 8) as [p|] eqn:E; [|by eexists]. apply e_take_le in E as [_ Hl]; [|done]. split; [done|by eexists].
Qed.
Lemma u32_walk pos : is_bytes pay → (pos ≤ length pay)%nat → rd_u32 ⟪pos⟫ = walked (e_take pay pos 4) (λ _, read_u32_le pay (Z.of_nat pos)).
Proof using Type.
  intros Hb Hp. unfold rd_u32, mbind, parse_bind. rewrite take_walk by done. destruct (e_take pay pos 4) as [p|] eqn:E; [|done]. apply e_take_le in E as [-> Hl]; [|done].
  cbn [walked mret parse_ret]. rewrite read_u32_value by (done || lia). unfold slice. by rewrite Nat2Z.id.
Qed.

(** Composition of agreeing steps. *)
Lemma agree_bind {T U : Type} (p : parse T) (f : T → parse U) x (g : nat → option nat) pos :
  agree (p ⟪pos⟫) x → (∀ a q, (q ≤ length pay)%nat → agree (f a ⟪q⟫) (g q)) → agree ((p ≫= f) ⟪pos⟫) (x ≫= g).
Proof using Type.
  intros H1 H2. unfold mbind at 1, parse_bind. destruct x as [q|]; cbn in *; [|destruct H1 as [e ->]; by eexists]. destruct H1 as (Hq & a & ->). by apply H2.
Qed.
Lemma agree_last {T U : Type} (p : parse T) (f : T → U) x pos : agree (p ⟪pos⟫) x → agree ((p ≫= λ a, mret (f a)) ⟪pos⟫) x.
Proof using Type. unfold mbind, parse_bind. destruct x as [q|]; cbn; [intros (Hq & a & ->); split; [done|by eexists]|intros [e ->]; by eexists]. Qed.

Definition e_op (tag : Z) (p : nat) : option nat :=
  if tag =? 1 then
    p ← e_bytes8 p; p ← e_counted_path p; p ← e_take pay p 8; p_mt ← e_take pay p 8; p_dl ← e_take pay p_mt 4; e_take pay p_dl (Z.to_nat (read_u32_le pay (Z.of_nat p_mt)))
  else if tag =? 2 then p ← e_bytes8 p; p ← e_counted_path p; e_take pay p 8
  else if tag =? 3 then p ← e_bytes8 p; p ← e_counted_path p; p ← e_counted_path p; e_take pay p 8
  else None.

Lemma agree_op tag pos : is_bytes pay → (pos ≤ length pay)%nat → agree (op_parser tag ⟪pos⟫) (e_op tag pos).
Proof using Type.
  intros Hb Hp. unfold op_parser, e_op. destruct (tag =? 1); [|destruct (tag =? 2); [|destruct (tag =? 3)]].
  - apply agree_bind; [by apply agree_bytes8|]. intros r p1 H1. apply agree_bind; [by apply agree_path|]. intros pa p2 H2. apply agree_bind; [by apply agree_u64|]. intros o p3 H3.
    apply agree_bind; [by apply agree_u64|]. intros mt p4 H4. unfold mbind at 1, parse_bind. rewrite u32_walk by done. destruct (e_take pay p4 4) as [p5|] eqn:E; [|by eexists].
    apply e_take_le in E as [_ Hl]; [|done]. cbn [walked mbind option_bind]. by apply agree_last, agree_take.
  - apply agree_bind; [by apply agree_bytes8|]. intros r p1 H1. apply agree_bind; [by apply agree_path|]. intros pa p2 H2. by apply agree_last, agree_u64.
  - apply agree_bind; [by apply agree_bytes8|]. intros r p1 H1. apply agree_bind; [by apply agree_path|]. intros pa p2 H2. apply agree_bind; [by apply agree_path|]. intros pb p3 H3.
    by apply agree_last, agree_u64.
  - by eexists.
Qed.

Lemma option_bind_assoc {T : Type} (x : option nat) (f : nat → option nat) (g : nat → option T) : ((x ≫= f) ≫= g) = (x ≫= λ a, f a ≫= g).
Proof using Type. by destruct x. Qed.

Lemma e_payload_ok_op : e_payload_ok pay = match e_take pay 0 1 ≫= e_op (pay !!! 0%nat) with Some p => bool_decide (p = length pay) | None => false end.
Proof using Type.
  unfold e_payload_ok. destruct (e_take pay 0 1) as [p|]; [|done]. cbn [mbind option_bind]. unfold e_op, e_payload_write_ok, e_payload_unlink_ok, e_payload_rename_ok, e_bytes8, e_counted_path.
  destruct (_ =? 1); [|destruct (_ =? 2); [|destruct (_ =? 3)]]; [| | |done].
  all: repeat (match goal with |- context [e_take pay ?a ?b] => destruct (e_take pay a b) | |- context [e_path pay ?a ?b] => destruct (e_path pay a b) end; cbn [mbind option_bind]; try done).
Qed.

(** The structural walk is the payload decoder, without building the operation. *)
Lemma e_payload_ok_spec : is_bytes pay → e_payload_ok pay = true ↔ ∃ op, decode_payload pay = Ok op.
Proof using Type.
  intros Hb. rewrite e_payload_ok_op. unfold decode_payload, decode_payload_parser. change (reader pay) with ⟪0⟫. rewrite pbind, u8_walk by lia.
  destruct (e_take pay 0 1) as [p|] eqn:E; cbn [walked]; [|split; [done|by intros [? ?]]]. apply e_take_le in E as [_ Hl]; [|lia].
  pose proof (agree_op (pay !!! 0%nat) p Hb Hl) as Ha. rewrite pbind. cbn [mbind option_bind].
  destruct (e_op _ p) as [q|]; cbn [agree] in Ha; [|destruct Ha as [e ->]; split; [done|by intros [? ?]]].
  destruct Ha as (Hq & op & ->). rewrite pbind. unfold rd_done. cbn [rd_pos rd_buf]. case_bool_decide; cbn; [|split; [done|by intros [? ?]]]. split; [intros _; by eexists|done].
Qed.
End walk.

(** * Records in the log *)

Section log.
Context (hash_of : list Z → Hash) `{!HashLaws hash_of}.

Lemma slice_drop l off p n : 0 ≤ p → slice (drop off l) p n = slice l (Z.of_nat off + p) n.
Proof using Type. intros Hp. unfold slice. rewrite drop_drop. do 2 f_equal. lia. Qed.

Lemma slice_take l m p n : 0 ≤ p → 0 ≤ n → p + n ≤ Z.of_nat m → slice (take m l) p n = slice l p n.
Proof using Type. intros. apply list_eq. intros i. rewrite !slice_lookup. case_decide; [|done]. rewrite lookup_take_lt by lia. done. Qed.

Lemma wal_magic_at wal off :
  (48 ≤ length wal - off)%nat →
  (at_ wal (Z.of_nat off) =? 87) && (at_ wal (Z.of_nat off + 1) =? 82) && (at_ wal (Z.of_nat off + 2) =? 69) && (at_ wal (Z.of_nat off + 3) =? 67) =
    bool_decide (slice (drop off wal) 0 4 = WAL_MAGIC).
Proof using Type.
  intros Hl. rewrite slice_drop, Z.add_0_r by lia. pose proof (slice_at wal (Z.of_nat off) 4 ltac:(lia) ltac:(cbn; lia)) as E. change (Z.of_nat 4) with 4 in E. rewrite E.
  change ((λ i, at_ wal (Z.of_nat off + Z.of_nat i)) <$> seq 0 4) with
    [at_ wal (Z.of_nat off + 0); at_ wal (Z.of_nat off + 1); at_ wal (Z.of_nat off + 2); at_ wal (Z.of_nat off + 3)]. rewrite Z.add_0_r.
  generalize (at_ wal (Z.of_nat off)), (at_ wal (Z.of_nat off + 1)), (at_ wal (Z.of_nat off + 2)), (at_ wal (Z.of_nat off + 3)). intros a b c d. unfold WAL_MAGIC.
  case_bool_decide as H; [injection H as -> -> -> ->; done|]. apply andb_false_iff. destruct (Z.eqb_spec d 67); [left|by right].
  apply andb_false_iff. destruct (Z.eqb_spec c 69); [left|by right]. apply andb_false_iff. destruct (Z.eqb_spec b 82); [left|by right]. apply Z.eqb_neq. intros ->. apply H. by subst.
Qed.

(** Frame, structure and checksum together are the record decoder. *)
Lemma frame_spec wal off :
  is_bytes wal → (off ≤ length wal)%nat →
  match decode_frame wal off with
  | None => decode_record hash_of (drop off wal) = None
  | Some (s, rlen) =>
      (48 ≤ rlen ∧ off + rlen ≤ length wal)%nat ∧
      if wal_content_ok hash_of wal off rlen
      then ∃ op, decode_record hash_of (drop off wal) = Some (s, op, Z.of_nat rlen)
      else decode_record hash_of (drop off wal) = None
  end.
Proof using Type.
  intros Hb Hoff. set (buf := drop off wal). assert (length buf = length wal - off)%nat as Hl by (unfold buf; by rewrite length_drop). assert (is_bytes buf) as Hbb by (by apply Forall_drop).
  unfold decode_frame. unfold decode_record, WAL_HEADER. fold buf. unfold WAL_HEADER_N.
  case_bool_decide as H48; [destruct (Z.ltb_spec (Z.of_nat (length buf)) 48); [done|lia]|]. rewrite wal_magic_at by lia. fold buf. destruct (Z.ltb_spec (Z.of_nat (length buf)) 48); [lia|]. cbn [orb].
  destruct (bool_decide (slice buf 0 4 = WAL_MAGIC)); [|done]. cbn [negb]. cbv zeta.
  rewrite read_u64_value, read_u32_value by (done || lia). rewrite <-!slice_drop by lia. fold buf.
  assert (length (slice buf 12 4) = 4%nat) as L4 by (apply slice_length; lia). pose proof (le_value_fits (slice buf 12 4) 4 (slice_bytes _ _ _ Hbb) L4) as Hf.
  set (len := le_value (slice buf 12 4)) in *. assert (0 ≤ len) as Hlen by (unfold fits_in in Hf; lia).
  case_bool_decide as Hr; [|destruct (Z.ltb_spec (Z.of_nat (length buf)) (48 + len)); [done|lia]]. destruct (Z.ltb_spec (Z.of_nat (length buf)) (48 + len)); [lia|]. split; [lia|].
  unfold wal_content_ok, wal_struct_ok, wal_checksum_ok, WAL_HEADER_N, WAL_HEADER. rewrite bool_decide_eq_false_2 by lia.
  assert (take (48 + Z.to_nat len - 48) (drop (off + 48) wal) = slice buf 48 len) as ->.
  { unfold slice, buf. rewrite drop_drop. do 2 f_equal; lia. }
  fold buf. set (rec_ := take (48 + Z.to_nat len) buf). assert (length rec_ = 48 + Z.to_nat len)%nat as Hrl by (unfold rec_; rewrite length_take; lia).
  cbv zeta. rewrite Hrl. rewrite bool_decide_eq_false_2 by lia. unfold rec_. rewrite !slice_take by lia. fold len. rewrite bool_decide_eq_false_2 by lia.
  destruct (e_payload_ok (slice buf 48 len)) eqn:Ep; cbn [andb].
  - apply e_payload_ok_spec in Ep as [op ->]; [|by apply slice_bytes]. case_bool_decide; cbn [negb]; [|done]. exists op. do 2 f_equal. lia.
  - destruct (negb _); [done|]. destruct (decode_payload (slice buf 48 len)) as [op|] eqn:Ed; [|done]. exfalso.
    assert (e_payload_ok (slice buf 48 len) = true) as E1 by (apply e_payload_ok_spec; [by apply slice_bytes|by exists op]). congruence.
Qed.

(** ** What a log holds *)

(** Records one after the other, with consecutive sequence numbers. *)
Fixpoint log_of (ops : list WalOp) (seq : Z) : list Z :=
  match ops with [] => [] | op :: ops' => encode_record hash_of op seq ++ log_of ops' (seq + 1) end.
Fixpoint metas_of (ops : list WalOp) (off : Z) (seq : Z) : list RecMeta :=
  match ops with
  | [] => []
  | op :: ops' => MkRec seq off [] false :: metas_of ops' (off + Z.of_nat (length (encode_record hash_of op seq))) (seq + 1)
  end.
Definition ops_valid (ops : list WalOp) (seq : Z) : Prop := ∀ i op, ops !! i = Some op → record_valid op (seq + Z.of_nat i).

(** No record continues the log here. *)
Definition log_ends (tail : list Z) (seq : Z) : Prop := ∀ op n, decode_record hash_of tail ≠ Some (seq, op, n).

Lemma log_longer ops seq : (length ops ≤ length (log_of ops seq))%nat.
Proof using HashLaws0.
  revert seq. induction ops as [|op ops IH]; intros seq; cbn [log_of length]; [lia|]. rewrite length_app, (encode_record_length hash_of). specialize (IH (seq + 1)). lia.
Qed.

Lemma recover_loop_spec fuel wal off seq records :
  is_bytes wal → fits_in 8 seq → (off ≤ length wal)%nat → (length wal - off < fuel)%nat →
  ∃ ops tail forged,
    recover_loop hash_of fuel wal off seq records =
      Some (MkRecovered (records ++ metas_of ops (Z.of_nat off) seq) (Z.of_nat (off + length (log_of ops seq))) (seq + Z.of_nat (length ops)) forged) ∧
    drop off wal = log_of ops seq ++ tail ∧ ops_valid ops seq ∧ fits_in 8 (seq + Z.of_nat (length ops)) ∧
    (if forged : bool then seq + Z.of_nat (length ops) = U64_MAX ∧ ∃ op n, decode_record hash_of tail = Some (U64_MAX, op, n)
     else log_ends tail (seq + Z.of_nat (length ops))).
Proof using HashLaws0.
  revert off seq records. induction fuel as [|fuel IH]; intros off seq records Hb Hs Hoff Hf; [lia|]. cbn [recover_loop].
  assert (∀ forged : bool, (if forged then seq = U64_MAX ∧ ∃ op n, decode_record hash_of (drop off wal) = Some (U64_MAX, op, n) else log_ends (drop off wal) seq) →
    ∃ ops tail forged0, Some (MkRecovered records (Z.of_nat off) seq forged) =
      Some (MkRecovered (records ++ metas_of ops (Z.of_nat off) seq) (Z.of_nat (off + length (log_of ops seq))) (seq + Z.of_nat (length ops)) forged0) ∧
    drop off wal = log_of ops seq ++ tail ∧ ops_valid ops seq ∧ fits_in 8 (seq + Z.of_nat (length ops)) ∧
    (if forged0 : bool then seq + Z.of_nat (length ops) = U64_MAX ∧ ∃ op n, decode_record hash_of tail = Some (U64_MAX, op, n)
     else log_ends tail (seq + Z.of_nat (length ops)))) as Hstop.
  { intros forged Hfg. exists [], (drop off wal), forged. cbn. rewrite app_nil_r, Nat.add_0_r, Z.add_0_r. split_and!; try done; apply Hs. }
  case_bool_decide as Hend.
  { apply Hstop. intros op n. rewrite drop_ge by done. done. }
  pose proof (frame_spec wal off Hb Hoff) as Hfr. destruct (decode_frame wal off) as [[s rlen]|]; [|apply Hstop; intros op n; by rewrite Hfr].
  destruct Hfr as [[Hr1 Hr2] Hfr]. destruct (Z.eqb_spec s seq) as [->|Hne]; cbn [negb].
  2: { apply Hstop. intros op n. destruct (wal_content_ok _ _ _ _); [destruct Hfr as [op' ->]|by rewrite Hfr]. congruence. }
  destruct (wal_content_ok hash_of wal off rlen); cbn [negb]; [|apply Hstop; intros op n; by rewrite Hfr]. destruct Hfr as [op Hop].
  destruct (Z.eqb_spec seq U64_MAX) as [->|Hmax]; [apply (Hstop true); eauto|].
  destruct (encode_decode_record hash_of _ _ _ _ ltac:(by apply Forall_drop) Hop) as (HV & Hn & tail & Ht). assert (length (encode_record hash_of op seq) = rlen) as Hrl by lia.
  assert (fits_in 8 (seq + 1)) as Hs1.
  { unfold fits_in, U64_MAX in *. change (256 ^ Z.of_nat 8) with 18446744073709551616 in *. lia. }
  destruct (IH (off + rlen)%nat (seq + 1) (records ++ [MkRec seq (Z.of_nat off) [] false]) Hb Hs1 ltac:(lia) ltac:(lia)) as (ops & tail' & forged & E & Hd & Hv & Hfit & Hlast).
  exists (op :: ops), tail', forged. cbn [metas_of log_of length]. rewrite E, Hrl. replace (seq + Z.of_nat (S (length ops))) with (seq + 1 + Z.of_nat (length ops)) by lia. split_and!; try done; try apply Hfit.
  - rewrite length_app, Hrl. do 2 f_equal; [|lia]. rewrite <-app_assoc, Nat2Z.inj_add. done.
  - rewrite Ht, <-!app_assoc. f_equal. rewrite <-drop_drop, Ht in Hd. rewrite <-Hrl, drop_app_length in Hd. done.
  - intros [|i] o; cbn; [intros [= <-]; by rewrite Z.add_0_r|]. intros Hi. replace (seq + Z.of_nat (S i)) with (seq + 1 + Z.of_nat i) by lia. by apply Hv.
Qed.

Lemma recover_records_spec wal head seq :
  is_bytes wal → fits_in 8 seq → 0 ≤ head ≤ Z.of_nat (length wal) →
  ∃ ops tail forged,
    recover_records hash_of wal head seq =
      Some (MkRecovered (metas_of ops head seq) (head + Z.of_nat (length (log_of ops seq))) (seq + Z.of_nat (length ops)) forged) ∧
    drop (Z.to_nat head) wal = log_of ops seq ++ tail ∧ ops_valid ops seq ∧ fits_in 8 (seq + Z.of_nat (length ops)) ∧
    (if forged : bool then seq + Z.of_nat (length ops) = U64_MAX ∧ ∃ op n, decode_record hash_of tail = Some (U64_MAX, op, n)
     else log_ends tail (seq + Z.of_nat (length ops))).
Proof using HashLaws0.
  intros Hb Hs Hh. destruct (recover_loop_spec (S (length wal)) wal (Z.to_nat head) seq [] Hb Hs ltac:(lia) ltac:(lia)) as (ops & tail & forged & E & H1).
  exists ops, tail, forged. unfold recover_records. rewrite E. rewrite Nat2Z.inj_add, Z2Nat.id by lia. done.
Qed.

(** The log determines its records: two logs of valid records, each ended, that start the
    same bytes are the same. *)
Lemma log_unique ops1 ops2 t1 t2 seq :
  ops_valid ops1 seq → ops_valid ops2 seq → log_of ops1 seq ++ t1 = log_of ops2 seq ++ t2 →
  log_ends t1 (seq + Z.of_nat (length ops1)) → log_ends t2 (seq + Z.of_nat (length ops2)) → ops1 = ops2 ∧ t1 = t2.
Proof using HashLaws0.
  revert ops2 seq. induction ops1 as [|o1 ops1 IH]; intros [|o2 ops2] seq V1 V2 E H1 H2; cbn [log_of app length] in E, H1, H2.
  - done.
  - exfalso. change (Z.of_nat 0) with 0 in H1. rewrite Z.add_0_r in H1. apply (H1 o2 (Z.of_nat (length (encode_record hash_of o2 seq)))). rewrite E, <-app_assoc. apply decode_encode_record; [done|].
    specialize (V2 0%nat o2 eq_refl). by rewrite Z.add_0_r in V2.
  - exfalso. change (Z.of_nat 0) with 0 in H2. rewrite Z.add_0_r in H2. apply (H2 o1 (Z.of_nat (length (encode_record hash_of o1 seq)))). rewrite <-E, <-app_assoc. apply decode_encode_record; [done|].
    specialize (V1 0%nat o1 eq_refl). by rewrite Z.add_0_r in V1.
  - rewrite <-!app_assoc in E. pose proof (V1 0%nat o1 eq_refl) as W1. pose proof (V2 0%nat o2 eq_refl) as W2. rewrite Z.add_0_r in W1, W2.
    pose proof (decode_encode_record hash_of o1 seq (log_of ops1 (seq + 1) ++ t1) W1) as D1. rewrite E in D1. rewrite (decode_encode_record hash_of o2 seq _ W2) in D1. injection D1 as -> _.
    apply app_inv_head in E. destruct (IH ops2 (seq + 1)) as [-> ->]; try done.
    + intros i o Hi. replace (seq + 1 + Z.of_nat i) with (seq + Z.of_nat (S i)) by lia. by apply V1.
    + intros i o Hi. replace (seq + 1 + Z.of_nat i) with (seq + Z.of_nat (S i)) by lia. by apply V2.
    + by replace (seq + 1 + Z.of_nat (length ops1)) with (seq + Z.of_nat (S (length ops1))) by lia.
    + by replace (seq + 1 + Z.of_nat (length ops2)) with (seq + Z.of_nat (S (length ops2))) by lia.
Qed.
(** No run of records from the same bytes is longer than one that has ended. *)
Lemma log_longest ops1 ops2 t1 t2 seq :
  ops_valid ops1 seq → ops_valid ops2 seq → log_of ops1 seq ++ t1 = log_of ops2 seq ++ t2 → log_ends t1 (seq + Z.of_nat (length ops1)) →
  (length ops2 ≤ length ops1)%nat.
Proof using HashLaws0.
  revert ops2 seq. induction ops1 as [|o1 ops1 IH]; intros [|o2 ops2] seq V1 V2 E H1; cbn [log_of app length] in *; [lia| |lia|].
  - exfalso. change (Z.of_nat 0) with 0 in H1. rewrite Z.add_0_r in H1. apply (H1 o2 (Z.of_nat (length (encode_record hash_of o2 seq)))). rewrite E, <-app_assoc. apply decode_encode_record; [done|].
    specialize (V2 0%nat o2 eq_refl). by rewrite Z.add_0_r in V2.
  - rewrite <-!app_assoc in E. pose proof (V1 0%nat o1 eq_refl) as W1. pose proof (V2 0%nat o2 eq_refl) as W2. rewrite Z.add_0_r in W1, W2.
    pose proof (decode_encode_record hash_of o1 seq (log_of ops1 (seq + 1) ++ t1) W1) as D1. rewrite E in D1. rewrite (decode_encode_record hash_of o2 seq _ W2) in D1. injection D1 as -> _.
    apply app_inv_head in E. apply le_n_S, (IH ops2 (seq + 1)); try done.
    + intros i o Hi. replace (seq + 1 + Z.of_nat i) with (seq + Z.of_nat (S i)) by lia. by apply V1.
    + intros i o Hi. replace (seq + 1 + Z.of_nat i) with (seq + Z.of_nat (S i)) by lia. by apply V2.
    + by replace (seq + 1 + Z.of_nat (length ops1)) with (seq + Z.of_nat (S (length ops1))) by lia.
Qed.
End log.

(** ** Advancing the head *)

Lemma flushed_prefix_spec records :
  let n := flushed_prefix records in
  (n ≤ length records)%nat ∧ (∀ i r, (i < n)%nat → records !! i = Some r → rm_flushed r = true) ∧ (∀ r, records !! n = Some r → rm_flushed r = false).
Proof.
  induction records as [|r records (H1 & H2 & H3)]; cbn; [split_and!; [lia|lia|done]|]. destruct (rm_flushed r) eqn:E.
  - split_and!; [lia| |]; cbn; [|done]. intros [|i] x Hi; cbn; [by intros [= <-]|]. apply H2. lia.
  - split_and!; [lia|lia|]. by intros x [= <-].
Qed.

Section gap.
Context (hash_of : list Z → Hash) `{!HashLaws hash_of}.

Lemma metas_lookup ops off seq k r :
  metas_of hash_of ops off seq !! k = Some r →
  rm_seq r = seq + Z.of_nat k ∧ rm_off r = off + Z.of_nat (length (log_of hash_of (take k ops) seq)).
Proof using Type.
  revert off seq k. induction ops as [|op ops IH]; intros off seq [|k]; cbn [metas_of lookup list_lookup]; try done.
  - intros [= <-]. cbn. lia.
  - intros [-> ->]%IH. cbn [take log_of]. rewrite length_app. lia.
Qed.

Lemma metas_length ops off seq : length (metas_of hash_of ops off seq) = length ops.
Proof using Type. revert off seq. induction ops as [|op ops IH]; intros off seq; cbn; [done|]. by rewrite IH. Qed.

Lemma log_split ops seq k :
  (k ≤ length ops)%nat → log_of hash_of ops seq = log_of hash_of (take k ops) seq ++ log_of hash_of (drop k ops) (seq + Z.of_nat k).
Proof using Type.
  revert ops seq. induction k as [|k IH]; intros ops seq Hk; [cbn; by rewrite drop_0, Z.add_0_r|]. destruct ops as [|op ops]; [cbn in Hk; lia|].
  cbn [take drop log_of]. rewrite (IH ops (seq + 1)) by (cbn in Hk; lia). rewrite <-app_assoc. do 3 f_equal. lia.
Qed.

(** Replay from the [k]-th record covers exactly the records from there on. *)
Lemma log_suffix ops seq k tail off r :
  metas_of hash_of ops off seq !! k = Some r →
  drop (Z.to_nat (rm_off r - off)) (log_of hash_of ops seq ++ tail) = log_of hash_of (drop k ops) (rm_seq r) ++ tail.
Proof using Type.
  intros Hr. pose proof (lookup_lt_Some _ _ _ Hr) as Hk. rewrite metas_length in Hk. apply metas_lookup in Hr as [-> ->].
  rewrite (log_split ops seq k) by lia. rewrite <-app_assoc. replace (Z.to_nat _) with (length (log_of hash_of (take k ops) seq)) by lia. apply drop_app_length.
Qed.

Lemma ops_valid_drop ops seq k : ops_valid ops seq → ops_valid (drop k ops) (seq + Z.of_nat k).
Proof using Type. intros V i op. rewrite lookup_drop. intros Hi%V. by replace (seq + Z.of_nat k + Z.of_nat i) with (seq + Z.of_nat (k + i)) by lia. Qed.

(** Recovery of a log that ends is exactly its records. *)
Lemma recover_log wal head ops tail seq :
  is_bytes wal → 0 ≤ seq → fits_in 8 (seq + Z.of_nat (length ops)) → 0 ≤ head ≤ Z.of_nat (length wal) →
  drop (Z.to_nat head) wal = log_of hash_of ops seq ++ tail → ops_valid ops seq → log_ends hash_of tail (seq + Z.of_nat (length ops)) →
  recover_records hash_of wal head seq =
    Some (MkRecovered (metas_of hash_of ops head seq) (head + Z.of_nat (length (log_of hash_of ops seq))) (seq + Z.of_nat (length ops)) false).
Proof using HashLaws0.
  intros Hb Hs Hf Hh Hd V1 He.
  destruct (recover_records_spec hash_of wal head seq Hb) as (ops2 & tail2 & forged & -> & D2 & V2 & Hf2 & E2); [unfold fits_in in *; lia|done|].
  assert (forged = false) as ->.
  { destruct forged; [|done]. exfalso. destruct E2 as [E2 (op & k & Hop)].
    destruct (encode_decode_record hash_of tail2 U64_MAX op k) as (Wop & _ & tail3 & Ht3); [|done|].
    { apply (proj2 (proj1 (is_bytes_app (log_of hash_of ops2 seq) tail2) ltac:(rewrite <-D2; by apply Forall_drop))). }
    assert (ops_valid (ops2 ++ [op]) seq) as V3.
    { intros i o. rewrite lookup_app_Some. intros [Hi|[Hi Hj]]; [by apply V2|]. apply list_lookup_singleton_Some in Hj as [Hj <-]. by replace (seq + Z.of_nat i) with U64_MAX by lia. }
    assert (length (ops2 ++ [op]) ≤ length ops)%nat as Hle.
    { eapply (log_longest hash_of _ _ tail tail3 seq); [done|done| |done]. rewrite <-Hd, D2, Ht3, (log_split (ops2 ++ [op]) _ (length ops2)) by (rewrite length_app; lia).
      rewrite take_app_length, drop_app_length, E2. cbn [log_of]. by rewrite app_nil_r, <-app_assoc. }
    rewrite length_app in Hle. cbn in Hle. unfold fits_in, U64_MAX in *. change (256 ^ Z.of_nat 8) with 18446744073709551616 in *. lia. }
  rewrite Hd in D2. by destruct (log_unique hash_of _ _ _ _ _ V1 V2 D2) as [<- <-].
Qed.
End gap.
