(* ===== verification/Prolly.v ===== *)
(** Per-directory prolly trees ([cas/src/prolly.rs]): the canonical encoding of an entry
    and of a node, the content-defined partition of a level, saving and loading a
    directory through a content-addressed store, and the difference of two directories.
    The hash function and the store are parameters; [MemStore] is the in-memory store.

    [decode_raw] and [decode_node] are given with [tlv_err] applied, as all their callers
    do: [TlvErr::Truncated] is [BadNode "truncated"]. *)

From stdpp Require Import strings.
From S2P Require Import Prelude Bytes BTree.

Definition INLINE_MAX : Z := 512.
Definition SPLIT_MASK : Z := 31.
Definition MAX_OPT_BYTES : Z := 4096.
Definition OPT_TAG_FLAGS : Z := 1.
Definition MAX_NODE_ENTRIES : nat := 128.

(** ** Entries *)

Inductive EntryKind : Type := KFile | KDir.
Inductive Content : Type := Inline (b : list Z) | ChunkList (h : Hash) | DirRoot (h : Hash).
Record Entry : Type := MkEntry {
  e_name : list Z; e_kind : EntryKind; e_flags : Z; e_size : Z; e_mtime : Z; e_content : Content }.

Inductive RawContent : Type := RInline (b : list Z) | RChunkList (a : list Z) | RDirRoot (a : list Z).
Record RawEntry : Type := MkRaw {
  r_name : list Z; r_kind : Z; r_flags : Z; r_size : Z; r_mtime : Z; r_content : RawContent }.
Record RawChild : Type := MkChild { c_key : list Z; c_child : list Z }.
Inductive RawNodeBody : Type := Leaf (es : list RawEntry) | Internal (cs : list RawChild).

#[global] Instance EntryKind_eq_dec : EqDecision EntryKind.
Proof. solve_decision. Defined.
#[global] Instance Content_eq_dec : EqDecision Content.
Proof. solve_decision. Defined.
#[global] Instance Entry_eq_dec : EqDecision Entry.
Proof. solve_decision. Defined.

Definition validate_name (name : list Z) : result unit FormatError :=
  if (1 <=? Z.of_nat (length name)) && (Z.of_nat (length name) <=? 255)
     && negb (existsb (λ b, (b =? 0) || (b =? 47)) name)
     && negb (bool_decide (name = [46])) && negb (bool_decide (name = [46; 46]))
  then Ok tt else Err BadName.

Definition validate_entry (e : Entry) : result unit FormatError :=
  match validate_name (e_name e) with
  | Err x => Err x
  | Ok _ =>
      match e_kind e, e_content e with
      | KFile, Inline bytes =>
          if INLINE_MAX <? Z.of_nat (length bytes) then Err (BadEntry "inline content too large")
          else if negb (e_size e =? Z.of_nat (length bytes)) then Err (BadEntry "inline size mismatch")
          else Ok tt
      | KFile, ChunkList _ =>
          if e_size e <=? INLINE_MAX then Err (BadEntry "small file must be inline") else Ok tt
      | KDir, DirRoot _ =>
          if negb (e_size e =? 0) then Err (BadEntry "dir size must be 0") else Ok tt
      | _, _ => Err (BadEntry "kind/content mismatch")
      end
  end.

Definition entry_to_raw (e : Entry) : RawEntry :=
  MkRaw (e_name e) (match e_kind e with KFile => 0 | KDir => 1 end) (e_flags e) (e_size e) (e_mtime e)
    (match e_content e with Inline b => RInline b | ChunkList h => RChunkList h | DirRoot h => RDirRoot h end).
Definition raw_to_entry (r : RawEntry) : Entry :=
  MkEntry (r_name r) (if r_kind r =? 0 then KFile else KDir) (r_flags r) (r_size r) (r_mtime r)
    (match r_content r with RInline b => Inline b | RChunkList a => ChunkList a | RDirRoot a => DirRoot a end).

(** ** Entry bytes *)

Definition encode_content (c : RawContent) : list Z :=
  match c with
  | RInline b => [0] ++ u16_le (as_u16 (Z.of_nat (length b))) ++ b
  | RChunkList h => [1] ++ h
  | RDirRoot h => [2] ++ h
  end.
Definition encode_raw (e : RawEntry) : list Z :=
  put_bytes8 (r_name e) ++ [r_kind e] ++ u64_le (r_size e) ++ u64_le (r_mtime e) ++ encode_content (r_content e) ++
  (if negb (r_flags e =? 0) then u16_le 7 ++ [OPT_TAG_FLAGS] ++ u16_le 4 ++ u32_le (r_flags e) else u16_le 0).
Definition encode_entry (e : Entry) : list Z := encode_raw (entry_to_raw e).

Definition decode_content : parse RawContent :=
  ctag ← rd_u8;
  if ctag =? 0 then ilen ← rd_u16; ib ← rd_take (Z.to_nat ilen); mret (RInline ib)
  else if ctag =? 1 then h ← rd_hash; mret (RChunkList h)
  else if ctag =? 2 then h ← rd_hash; mret (RDirRoot h)
  else refuse (BadEntry "bad content tag").

(** The optional section, read within its own bounds: [while p < opt_end]. *)
Fixpoint opt_loop (fuel : nat) (flags last_tag : Z) (r : Reader) : option (result Z FormatError) :=
  if bool_decide (rd_pos r = length (rd_buf r)) then Some (Ok flags)
  else
    match fuel with
    | O => None
    | S fuel' =>
        match (tag ← rd_u8;
               if tag <=? last_tag then refuse (BadEntry "optional tags not strictly ascending")
               else
                 vlen ← rd_u16;
                 val ← rd_take (Z.to_nat vlen);
                 if tag =? OPT_TAG_FLAGS then
                   if negb (vlen =? 4) then refuse (BadEntry "bad flags length")
                   else
                     let f := le_value val in
                     if f =? 0 then refuse (BadEntry "zero flags must be absent") else mret f
                 else refuse (BadEntry "unknown optional tag")) r with
        | Err e => Some (Err e)
        | Ok (f, r') => opt_loop fuel' f 1 r'
        end
    end.
(** One record at most: a second tag cannot ascend. *)
Definition opt_section (opt : list Z) : result Z FormatError :=
  match opt_loop 2 0 (-1) (reader opt) with Some x => x | None => Err (BadEntry "") end.

Definition lift_result {A : Type} (x : result A FormatError) : parse A := λ r, match x with Ok a => Ok (a, r) | Err e => Err e end.

Definition decode_raw : parse RawEntry :=
  name ← take_bytes8;
  kind ← rd_u8;
  if negb (kind =? 0) && negb (kind =? 1) then refuse (BadEntry "bad kind")
  else
    size ← rd_u64; mtime ← rd_u64;
    content ← decode_content;
    opt_len ← rd_u16;
    if MAX_OPT_BYTES <? opt_len then refuse (BadEntry "optional section too large")
    else
      opt ← rd_take (Z.to_nat opt_len);
      flags ← lift_result (opt_section opt);
      mret (MkRaw name kind flags size mtime content).

Definition decode_entry : parse Entry :=
  raw ← decode_raw;
  let entry := raw_to_entry raw in
  _ ← lift_result (validate_entry entry);
  mret entry.

(** ** Nodes *)

(** The single-entry codec of [cas/src/tlv.rs]: the whole buffer is one entry. *)
Definition tlv_encode (e : Entry) : list Z := encode_entry e.
Definition tlv_parser : parse Entry := e ← decode_entry; d ← rd_done; if negb d then refuse (BadEntry "entry trailing bytes") else mret e.
Definition tlv_decode (buf : list Z) : result Entry FormatError := match tlv_parser (reader buf) with Ok (e, _) => Ok e | Err x => Err x end.

Definition encode_internal_item (key child : list Z) : list Z := put_bytes8 key ++ child.
Definition encode_node_leaf (es : list RawEntry) : list Z :=
  [0] ++ u32_le (as_u32 (Z.of_nat (length es))) ++ concat (encode_raw <$> es).

Definition decode_child : parse RawChild := key ← take_bytes8; child ← rd_hash; mret (MkChild key child).

Definition decode_node_parser : parse (Z * RawNodeBody) :=
  level ← rd_u8; count ← rd_u32;
  if Z.of_nat MAX_NODE_ENTRIES <? count then refuse (BadNode "node too wide")
  else if level =? 0 then
    es ← rd_list (Z.to_nat count) decode_raw;
    d ← rd_done;
    if negb d then refuse (BadNode "trailing bytes") else mret (level, Leaf es)
  else
    cs ← rd_list (Z.to_nat count) decode_child;
    d ← rd_done;
    if negb d then refuse (BadNode "trailing bytes") else mret (level, Internal cs).
Definition decode_node (buf : list Z) : result (Z * RawNodeBody) FormatError :=
  match decode_node_parser (reader buf) with Ok (a, _) => Ok a | Err e => Err e end.

(** [for raw in entries { let entry = raw_to_entry(raw); validate_entry(&entry)?; out.push(entry); }] *)
Fixpoint push_entries (raws : list RawEntry) (out : list Entry) : result (list Entry) FormatError :=
  match raws with
  | [] => Ok out
  | raw :: raws' =>
      let entry := raw_to_entry raw in
      match validate_entry entry with Err x => Err x | Ok _ => push_entries raws' (out ++ [entry]) end
  end.

Inductive NodeRefs : Type := Children (hs : list Hash) | Entries (es : list Entry).
Definition parse_node (bytes : list Z) : result NodeRefs FormatError :=
  match decode_node bytes with
  | Err e => Err e
  | Ok (_, Leaf raws) => match push_entries raws [] with Ok es => Ok (Entries es) | Err e => Err e end
  | Ok (_, Internal cs) => Ok (Children (c_child <$> cs))
  end.

(** ** The partition of a level *)

Fixpoint split_from (flags : list bool) (start i n : nat) : list nat :=
  match flags with
  | [] => []
  | f :: flags' =>
      if f || bool_decide (i - start + 1 = MAX_NODE_ENTRIES)%nat || bool_decide (i + 1 = n)%nat
      then (i + 1)%nat :: split_from flags' (i + 1) (i + 1) n
      else split_from flags' start (i + 1) n
  end.
Definition split_points (flags : list bool) : list nat := split_from flags 0 0 (length flags).

(** ** Stores *)

(** A content-addressed object store. *)
Class NodeStore (S : Type) : Type := {
  put : list Z → S → Hash * S;
  get : S → Hash → option (list Z);
}.

Definition Dir : Type := btree (list Z) Entry.
Definition Dir_new : Dir := [].
Definition upsert (d : Dir) (entry : Entry) : result Dir FormatError :=
  match validate_entry entry with Err x => Err x | Ok _ => Ok (bt_insert (e_name entry) entry d) end.
Definition dir_remove (d : Dir) (name : list Z) : option Entry * Dir := (bt_get name d, bt_remove name d).
Definition dir_get (d : Dir) (name : list Z) : option Entry := bt_get name d.

(** [for e in &entries_vec]: strictly ascending names. *)
Fixpoint names_ascend (prev : option (list Z)) (es : list Entry) : bool :=
  match es with
  | [] => true
  | e :: es' =>
      match prev with
      | Some p => match cmp p (e_name e) with Lt => names_ascend (Some (e_name e)) es' | _ => false end
      | None => names_ascend (Some (e_name e)) es'
      end
  end.

Inductive DiffKind : Type := Added | Removed | Modified.
#[global] Instance DiffKind_eq_dec : EqDecision DiffKind.
Proof. solve_decision. Defined.
Definition diff_rank (k : DiffKind) : Z := match k with Added => 0 | Removed => 1 | Modified => 2 end.

#[global] Instance DiffKind_ord : Ord DiffKind.
Proof.
  refine {| cmp := λ a b, Z.compare (diff_rank a) (diff_rank b) |}.
  - by intros [] [].
  - by intros [] [].
  - by intros [] [] [].
Defined.

Definition diff_dirs (da db : Dir) : list (list Z * DiffKind) :=
  ord_sort (
    omap (λ '(name, ea),
      match bt_get name db with
      | None => Some (name, Removed)
      | Some eb => if decide (ea = eb) then None else Some (name, Modified)
      end) da ++
    omap (λ '(name, _), match bt_get name da with None => Some (name, Added) | Some _ => None end) db).

Section stored.
Context (hash_of : list Z → Hash) {S : Type} `{NodeStore S}.

Definition is_boundary (item_bytes : list Z) : bool := Z.land (le_value (take 8 (hash_of item_bytes))) SPLIT_MASK =? 0.
Definition boundary_flags (byte_images : list (list Z)) : list bool := is_boundary <$> byte_images.

(** [vec![level]], the number of items, the items *)
Definition encode_node (level : Z) (items : list (list Z)) : list Z :=
  [level] ++ u32_le (as_u32 (Z.of_nat (length items))) ++ concat items.

Fixpoint emit_nodes (level : Z) (keys byte_images : list (list Z)) (start : nat) (ends : list nat) : comp S (list (list Z * Hash)) :=
  match ends with
  | [] => mret []
  | end_ :: ends' =>
      let node := encode_node level (take (end_ - start) (drop start byte_images)) in
      hash ← (λ s, Ret (put node s));
      key ← index keys start;
      out ← emit_nodes level keys byte_images end_ ends';
      mret ((key, hash) :: out)
  end.
Definition build_level (level : Z) (keys byte_images : list (list Z)) : comp S (list (list Z * Hash)) :=
  match byte_images with
  | [] => mret []
  | _ => emit_nodes level keys byte_images 0 (split_points (boundary_flags byte_images))
  end.

(** [while nodes.len() > 1]: [level] is a [u8]. *)
Fixpoint save_levels (fuel : nat) (level : Z) (nodes : list (list Z * Hash)) : comp S Hash :=
  if decide (1 < length nodes)%nat then
    match fuel with
    | O => nofuel
    | Datatypes.S fuel' =>
        level ← uadd U8_MAX level 1;
        nodes ← build_level level nodes.*1 ((λ x, encode_internal_item x.1 x.2) <$> nodes);
        save_levels fuel' level nodes
    end
  else '(_, h) ← index nodes 0; mret h.
Definition save (d : Dir) : comp S Hash :=
  match d with
  | [] => λ s, Ret (put ([0] ++ u32_le 0) s)
  | _ =>
      nodes ← build_level 0 ((λ x : list Z * Entry, e_name x.2) <$> d) ((λ x : list Z * Entry, encode_entry x.2) <$> d);
      save_levels 256 0 nodes
  end.

(** [for c in children { .. }] around the recursive call. *)
Fixpoint load_children (load : Hash → list Entry → option (result (list Entry) FormatError)) (cs : list RawChild) (out : list Entry) :
    option (result (list Entry) FormatError) :=
  match cs with
  | [] => Some (Ok out)
  | c :: cs' =>
      let first_idx := length out in
      match load (c_child c) out with
      | None => None
      | Some (Err e) => Some (Err e)
      | Some (Ok out') =>
          if decide (e_name <$> out' !! first_idx = Some (c_key c)) then load_children load cs' out'
          else Some (Err (BadNode "separator key mismatch"))
      end
  end.

(** The recursion goes down one level at a time: [fuel] bounds the depth. *)
Fixpoint load_node (fuel : nat) (store : S) (expected_level : option Z) (hash : Hash) (out : list Entry) :
    option (result (list Entry) FormatError) :=
  match fuel with
  | O => None
  | Datatypes.S fuel' =>
      match get store hash with
      | None => Some (Err (MissingNode hash))
      | Some bytes =>
          match decode_node bytes with
          | Err e => Some (Err e)
          | Ok (level, body) =>
              if match expected_level with Some expect => negb (level =? expect) | None => false end then Some (Err (BadNode "level mismatch"))
              else
                match body with
                | Leaf raws =>
                    if bool_decide (raws = []) && bool_decide (is_Some expected_level) then Some (Err (BadNode "empty non-root node"))
                    else Some (push_entries raws out)
                | Internal cs =>
                    match cs with
                    | [] => Some (Err (BadNode "empty non-root node"))
                    | _ => load_children (load_node fuel' store (Some (level - 1))) cs out
                    end
                end
          end
      end
  end.

Definition load (store : S) (root : Hash) : option (result Dir FormatError) :=
  match load_node 257 store None root [] with
  | None => None
  | Some (Err e) => Some (Err e)
  | Some (Ok entries_vec) =>
      Some (if names_ascend None entries_vec
            then Ok (foldl (λ m e, bt_insert (e_name e) e m) [] entries_vec)
            else Err NotSorted)
  end.

Definition diff (store : S) (a b : Hash) : option (result (list (list Z * DiffKind)) FormatError) :=
  if decide (a = b) then Some (Ok [])
  else
    match load store a with
    | Some (Ok da) =>
        match load store b with
        | Some (Ok db) => Some (Ok (diff_dirs da db))
        | Some (Err e) => Some (Err e)
        | None => None
        end
    | Some (Err e) => Some (Err e)
    | None => None
    end.
End stored.

(** ** The in-memory store *)
Definition MemStore : Type := btree Hash (list Z).
Definition mem_put (hash_of : list Z → Hash) (bytes : list Z) (s : MemStore) : Hash * MemStore :=
  let hash := hash_of bytes in
  (hash, match bt_get hash s with Some _ => s | None => bt_insert hash bytes s end).
Definition mem_get (s : MemStore) (h : Hash) : option (list Z) := bt_get h s.
Definition MemStore_store (hash_of : list Z → Hash) : NodeStore MemStore := {| put := mem_put hash_of; get := mem_get |}.

(** * The entry codec *)

(** ** The optional section *)

Definition flags_record (f : Z) : list Z := [OPT_TAG_FLAGS] ++ u16_le 4 ++ u32_le f.
Definition opt_bytes (f : Z) : list Z := if negb (f =? 0) then flags_record f else [].

(** One record of the loop. *)
Definition opt_record (last_tag : Z) : parse Z :=
  tag ← rd_u8;
  if tag <=? last_tag then refuse (BadEntry "optional tags not strictly ascending")
  else
    vlen ← rd_u16;
    val ← rd_take (Z.to_nat vlen);
    if tag =? OPT_TAG_FLAGS then
      if negb (vlen =? 4) then refuse (BadEntry "bad flags length")
      else
        let f := le_value val in
        if f =? 0 then refuse (BadEntry "zero flags must be absent") else mret f
    else refuse (BadEntry "unknown optional tag").

Lemma opt_loop_S fuel flags last r :
  opt_loop (S fuel) flags last r =
    if bool_decide (rd_pos r = length (rd_buf r)) then Some (Ok flags)
    else match opt_record last r with Err e => Some (Err e) | Ok (f, r') => opt_loop fuel f 1 r' end.
Proof. done. Qed.

Lemma reads_opt_record f : fits_in 4 f → f ≠ 0 → reads (opt_record (-1)) f (flags_record f).
Proof.
  intros Hf Hn. unfold opt_record, flags_record. eapply reads_bind; [by apply reads_u8|]. change (OPT_TAG_FLAGS <=? -1) with false. cbn [negb].
  eapply reads_bind; [by apply reads_u16|]. rewrite <-(app_nil_r (u32_le f)). eapply reads_bind; [by apply (reads_take_n 4); unfold u32_le; rewrite le_bytes_length|].
  change (OPT_TAG_FLAGS =? OPT_TAG_FLAGS) with true. cbn [negb]. cbv zeta. unfold u32_le. rewrite le_value_bytes by done.
  destruct (Z.eqb_spec f 0); [done|]. apply reads_ret.
Qed.

Lemma canon_opt_record last : canon (opt_record last) flags_record (λ f, last < 1 ∧ fits_in 4 f ∧ f ≠ 0).
Proof.
  intros r f r' G H. unfold opt_record in H. pstep H canon_u8. destruct (Z.leb_spec x last); [done|]. pstep H canon_u16. pstep H (canon_take (Z.to_nat x0)).
  destruct (Z.eqb_spec x OPT_TAG_FLAGS) as [->|]; [|done]. destruct (Z.eqb_spec x0 4) as [->|]; [|done]. cbn [negb] in H. cbv zeta in H.
  destruct (Z.eqb_spec (le_value x1) 0); [done|]. injection H as <- <-. destruct P1 as [L B]. split.
  - unfold flags_record, u32_le. rewrite (le_bytes_value x1 4 B L). eapply took_trans; [eassumption|]. by eapply took_trans.
  - split; [unfold OPT_TAG_FLAGS in *; lia|]. split; [by apply le_value_fits|done].
Qed.

Lemma opt_section_enc f : fits_in 4 f → opt_section (opt_bytes f) = Ok f.
Proof.
  intros Hf. unfold opt_bytes. destruct (Z.eqb_spec f 0) as [->|Hn]; [done|]. cbn [negb]. unfold opt_section. rewrite opt_loop_S. cbn [rd_pos rd_buf reader].
  rewrite bool_decide_eq_false_2 by done. rewrite (reads_all _ _ _ (reads_opt_record f Hf Hn)). rewrite opt_loop_S. cbn [rd_pos rd_buf]. by rewrite bool_decide_eq_true_2.
Qed.

(** The loop ends: a second record cannot ascend. *)
Lemma opt_loop_second f r : good r → opt_loop 1 f 1 r ≠ None ∧ (opt_loop 1 f 1 r = Some (Ok f) ∨ ∃ e, opt_loop 1 f 1 r = Some (Err e)) ∧
  (opt_loop 1 f 1 r = Some (Ok f) → rest r = []).
Proof.
  intros G. rewrite opt_loop_S. case_bool_decide as E.
  - split_and!; [done|by left|]. intros _. unfold rest. by rewrite E, drop_all.
  - destruct (opt_record 1 r) as [[g r']|e] eqn:H; [|split_and!; [done|right; by eexists|done]]. destruct (canon_opt_record 1 r g r' G H) as [_ [? _]]. lia.
Qed.

Lemma opt_section_total opt : is_bytes opt → opt_loop 2 0 (-1) (reader opt) ≠ None.
Proof.
  intros Hb. rewrite opt_loop_S. case_bool_decide; [done|]. destruct (opt_record (-1) (reader opt)) as [[g r']|e] eqn:H'; [|done].
  assert (good (reader opt)) as G by (split; [cbn; lia|done]). destruct (canon_opt_record _ _ _ _ G H') as [T _]. apply opt_loop_second. by apply (took_good _ _ _ T).
Qed.

Lemma opt_section_canon opt f : is_bytes opt → opt_section opt = Ok f → opt = opt_bytes f ∧ fits_in 4 f.
Proof.
  intros Hb. unfold opt_section. rewrite opt_loop_S. case_bool_decide as E.
  - cbn in E. intros [= <-]. by destruct opt.
  - destruct (opt_record (-1) (reader opt)) as [[g r']|e] eqn:H; [|done].
    assert (good (reader opt)) as G by (split; [cbn; lia|done]). destruct (canon_opt_record _ _ _ _ G H) as [T (_ & Hf & Hn)]. destruct (took_good _ _ _ T G) as [G' _].
    destruct (opt_loop_second g r' G') as (_ & [Ho|[e Ho]] & Hr); rewrite Ho; [|done]. intros [= <-]. specialize (Hr Ho). destruct T as (_ & _ & _ & ER).
    change (rest (reader opt)) with opt in ER. rewrite Hr, app_nil_r in ER. split; [|done]. unfold opt_bytes. by destruct (Z.eqb_spec g 0).
Qed.

(** ** Raw entries *)

Lemma reads_lift {A : Type} (a : A) : reads (lift_result (Ok a)) a [].
Proof. apply reads_ret. Qed.

Definition content_valid (c : RawContent) : Prop :=
  match c with RInline b => (Z.of_nat (length b) < 65536) | RChunkList a | RDirRoot a => length a = 32%nat end.
Record raw_valid (r : RawEntry) : Prop := {
  rw_name : (length (r_name r) < 256)%nat;
  rw_kind : r_kind r = 0 ∨ r_kind r = 1;
  rw_flags : fits_in 4 (r_flags r);
  rw_size : fits_in 8 (r_size r);
  rw_mtime : fits_in 8 (r_mtime r);
  rw_content : content_valid (r_content r);
}.

Lemma reads_content c : content_valid c → reads decode_content c (encode_content c).
Proof.
  intros V. unfold decode_content. destruct c as [b|a|a]; cbn [encode_content content_valid] in *; (eapply reads_bind; [by apply reads_u8|]); cbn [Z.eqb].
  - assert (fits_in 2 (Z.of_nat (length b))) as Hf by (unfold fits_in; change (256 ^ Z.of_nat 2) with 65536; lia).
    assert (as_u16 (Z.of_nat (length b)) = Z.of_nat (length b)) as -> by (by apply Z.mod_small). eapply reads_bind; [by apply reads_u16|].
    rewrite Nat2Z.id. apply (reads_last (rd_take (length b))), reads_take.
  - by apply (reads_last rd_hash), reads_hash.
  - by apply (reads_last rd_hash), reads_hash.
Qed.

Lemma canon_content : canon decode_content encode_content content_valid.
Proof.
  intros r c r' G H. unfold decode_content in H. pstep H canon_u8. destruct (Z.eqb_spec x 0) as [->|]; [|destruct (Z.eqb_spec x 1) as [->|]; [|destruct (Z.eqb_spec x 2) as [->|]; [|done]]].
  - pstep H canon_u16. pstep H (canon_take (Z.to_nat x)). injection H as <- <-. destruct P1 as [L _]. unfold fits_in in P0. change (256 ^ Z.of_nat 2) with 65536 in P0.
    assert (Z.of_nat (length x0) = x) as E by lia. split; [|cbn; lia]. cbn [encode_content]. rewrite E. assert (as_u16 x = x) as -> by (by apply Z.mod_small).
    by repeat (eapply took_trans; [eassumption|]).
  - pstep H (canon_take 32). injection H as <- <-. split; [|apply P0]. by eapply took_trans.
  - pstep H (canon_take 32). injection H as <- <-. split; [|apply P0]. by eapply took_trans.
Qed.

Lemma encode_raw_eq e :
  encode_raw e = put_bytes8 (r_name e) ++ [r_kind e] ++ u64_le (r_size e) ++ u64_le (r_mtime e) ++ encode_content (r_content e) ++
    u16_le (Z.of_nat (length (opt_bytes (r_flags e)))) ++ opt_bytes (r_flags e).
Proof. unfold encode_raw, opt_bytes. by destruct (negb (r_flags e =? 0)). Qed.

Lemma opt_bytes_length f : length (opt_bytes f) = 0%nat ∨ length (opt_bytes f) = 7%nat.
Proof. unfold opt_bytes. destruct (negb _); [by right|by left]. Qed.

Lemma reads_raw e : raw_valid e → reads decode_raw e (encode_raw e).
Proof.
  intros V. rewrite encode_raw_eq. destruct e as [n k f sz mt c]. destruct V as [V1 V2 V3 V4 V5 V6]. cbn [r_name r_kind r_flags r_size r_mtime r_content] in *. unfold decode_raw.
  eapply reads_bind; [by apply reads_bytes8|]. eapply reads_bind; [apply reads_u8, fits_1; lia|].
  assert (negb (k =? 0) && negb (k =? 1) = false) as -> by (by destruct V2; subst). eapply reads_bind; [by apply reads_u64|]. eapply reads_bind; [by apply reads_u64|].
  eapply reads_bind; [by apply reads_content|]. pose proof (opt_bytes_length f) as Ho. eapply reads_bind; [apply reads_u16; unfold fits_in; change (256 ^ Z.of_nat 2) with 65536; lia|].
  destruct (Z.ltb_spec MAX_OPT_BYTES (Z.of_nat (length (opt_bytes f)))); [unfold MAX_OPT_BYTES in *; lia|]. rewrite Nat2Z.id. eapply reads_then; [apply reads_take|].
  rewrite opt_section_enc by done. eapply reads_then; [apply reads_lift|apply reads_ret].
Qed.

Lemma lift_ok {A : Type} (x : result A FormatError) r a r' : lift_result x r = Ok (a, r') → x = Ok a ∧ r' = r.
Proof. unfold lift_result. destruct x; [|done]. by intros [= -> ->]. Qed.

Lemma canon_raw : canon decode_raw encode_raw raw_valid.
Proof.
  intros r e r' G H. unfold decode_raw in H. pstep H canon_bytes8. pstep H canon_u8. destruct (negb (x0 =? 0) && negb (x0 =? 1)) eqn:Ek; [done|].
  pstep H canon_u64. pstep H canon_u64. pstep H canon_content. pstep H canon_u16. destruct (Z.ltb_spec MAX_OPT_BYTES x4); [done|]. pstep H (canon_take (Z.to_nat x4)).
  apply bind_ok in H as (f & r8 & [Hf ->]%lift_ok & H). injection H as <- <-. destruct P5 as [L B]. apply opt_section_canon in Hf as [-> Hf]; [|done].
  assert (x4 = Z.of_nat (length (opt_bytes f))) as -> by (unfold fits_in in P4; lia). split.
  - rewrite encode_raw_eq. by repeat (eapply took_trans; [eassumption|]).
  - constructor; cbn; try tauto. destruct (Z.eqb_spec x0 0); [by left|]. destruct (Z.eqb_spec x0 1); [by right|done].
Qed.

(** ** Entries *)

Lemma raw_entry_raw r : raw_valid r → entry_to_raw (raw_to_entry r) = r.
Proof. intros [_ Hk _ _ _ _]. destruct r as [n k f s m c]. cbn in *. unfold entry_to_raw. cbn. by destruct Hk as [-> | ->], c. Qed.
Lemma entry_raw_entry e : raw_to_entry (entry_to_raw e) = e.
Proof. by destruct e as [n [] f s m []]. Qed.

(** The value ranges of an entry's fields. *)
Record entry_typed (e : Entry) : Prop := {
  et_flags : fits_in 4 (e_flags e);
  et_size : fits_in 8 (e_size e);
  et_mtime : fits_in 8 (e_mtime e);
  et_hash : match e_content e with Inline _ => True | ChunkList h | DirRoot h => length h = 32%nat end;
}.
Definition entry_ok (e : Entry) : Prop := validate_entry e = Ok tt ∧ entry_typed e.

Lemma validate_name_length n : validate_name n = Ok tt → (1 ≤ length n ≤ 255)%nat.
Proof.
  unfold validate_name. destruct (Z.leb_spec 1 (Z.of_nat (length n))); [|done]. destruct (Z.leb_spec (Z.of_nat (length n)) 255); [|done]. lia.
Qed.
Lemma validate_entry_name e : validate_entry e = Ok tt → validate_name (e_name e) = Ok tt.
Proof. unfold validate_entry. by destruct (validate_name (e_name e)) as [[]|]. Qed.

Lemma entry_ok_raw e : entry_ok e → raw_valid (entry_to_raw e).
Proof.
  intros [V [T1 T2 T3 T4]]. pose proof (validate_name_length _ (validate_entry_name _ V)) as Hn. constructor; cbn; [lia|destruct (e_kind e); tauto|done|done|done|].
  unfold validate_entry in V. destruct (validate_name _); [|done]. destruct (e_content e) as [b|h|h]; cbn; [|done|done]. destruct (e_kind e); [|done].
  destruct (Z.ltb_spec INLINE_MAX (Z.of_nat (length b))); [done|]. unfold INLINE_MAX in *. lia.
Qed.

Lemma reads_entry e : entry_ok e → reads decode_entry e (encode_entry e).
Proof.
  intros V. unfold decode_entry, encode_entry. eapply reads_then; [by apply reads_raw, entry_ok_raw|]. cbv zeta. rewrite entry_raw_entry. destruct V as [-> _].
  eapply reads_then; [apply reads_lift|apply reads_ret].
Qed.

Lemma canon_entry : canon decode_entry encode_entry entry_ok.
Proof.
  intros r e r' G H. unfold decode_entry in H. pstep H canon_raw. apply bind_ok in H as ([] & r1 & [Hv ->]%lift_ok & H). injection H as <- <-. split.
  - unfold encode_entry. by rewrite raw_entry_raw.
  - split; [done|]. destruct P as [_ _ P1 P2 P3 P4]. constructor; cbn; try done. by destruct (r_content x).
Qed.

(** * The node codec *)

Lemma reads_child c : (length (c_key c) < 256)%nat → length (c_child c) = 32%nat → reads decode_child c (encode_internal_item (c_key c) (c_child c)).
Proof.
  intros H1 H2. unfold decode_child, encode_internal_item. eapply reads_bind; [by apply reads_bytes8|]. destruct c as [k h]. by apply (reads_last rd_hash (MkChild k)), reads_hash.
Qed.
Lemma canon_child : canon decode_child (λ c, encode_internal_item (c_key c) (c_child c)) (λ c, (length (c_key c) < 256)%nat ∧ length (c_child c) = 32%nat).
Proof.
  intros r c r' G H. unfold decode_child in H. pstep H canon_bytes8. pstep H (canon_take 32). injection H as <- <-. split; [by eapply took_trans|]. cbn. tauto.
Qed.

(** The images of the items of a node. *)
Definition body_items (b : RawNodeBody) : list (list Z) :=
  match b with Leaf es => encode_raw <$> es | Internal cs => (λ c, encode_internal_item (c_key c) (c_child c)) <$> cs end.
Definition node_valid (level : Z) (b : RawNodeBody) : Prop :=
  fits_in 1 level ∧ (length (body_items b) ≤ MAX_NODE_ENTRIES)%nat ∧
  match b with
  | Leaf es => level = 0 ∧ Forall raw_valid es
  | Internal cs => level ≠ 0 ∧ Forall (λ c, (length (c_key c) < 256)%nat ∧ length (c_child c) = 32%nat) cs
  end.

Lemma node_count n : (n ≤ MAX_NODE_ENTRIES)%nat → as_u32 (Z.of_nat n) = Z.of_nat n ∧ fits_in 4 (Z.of_nat n).
Proof. unfold MAX_NODE_ENTRIES, fits_in. intros. split; [apply Z.mod_small; lia|]. change (256 ^ Z.of_nat 4) with 4294967296. lia. Qed.

Lemma node_decode_encode level b : node_valid level b → decode_node (encode_node level (body_items b)) = Ok (level, b).
Proof.
  intros (Hl & Hn & Hb). unfold decode_node. enough (ends decode_node_parser (level, b) (encode_node level (body_items b))) as H by (by rewrite (ends_all _ _ _ H)).
  destruct (node_count _ Hn) as [E Hf]. unfold decode_node_parser, encode_node. rewrite E. eapply ends_bind; [by apply reads_u8|]. eapply ends_bind; [by apply reads_u32|].
  destruct (Z.ltb_spec (Z.of_nat MAX_NODE_ENTRIES) (Z.of_nat (length (body_items b)))); [lia|].
  rewrite <-(app_nil_r (concat _)), Nat2Z.id. destruct b as [es|cs]; cbn [body_items] in *; rewrite length_fmap; destruct Hb as [Hz Hv]; rewrite Forall_forall in Hv.
  - rewrite Hz. cbn [Z.eqb]. eapply ends_bind; [apply reads_list; intros x Hx; by apply reads_raw, Hv|]. apply ends_done.
  - destruct (Z.eqb_spec level 0); [done|]. eapply ends_bind.
    + apply (reads_list decode_child (λ c, encode_internal_item (c_key c) (c_child c))). intros c Hc. by apply reads_child; apply Hv.
    + apply ends_done.
Qed.

Lemma node_encode_decode buf level b : is_bytes buf → decode_node buf = Ok (level, b) → buf = encode_node level (body_items b) ∧ node_valid level b.
Proof.
  intros Hb. unfold decode_node. destruct (decode_node_parser (reader buf)) as [[a r']|e] eqn:E; [|done]. intros [= ->].
  assert (good (reader buf)) as G by (split; [cbn; lia|done]). unfold decode_node_parser in E. pstep E canon_u8. pstep E canon_u32.
  destruct (Z.ltb_spec (Z.of_nat MAX_NODE_ENTRIES) x0) as [|Hle]; [done|].
  assert (∀ n : nat, n = Z.to_nat x0 → as_u32 (Z.of_nat n) = x0 ∧ (n ≤ MAX_NODE_ENTRIES)%nat) as Hcount.
  { intros n ->. unfold fits_in in P0. assert (Z.to_nat x0 ≤ MAX_NODE_ENTRIES)%nat by lia. split; [|done]. rewrite (proj1 (node_count _ H)). lia. }
  assert (∀ l r3, took (reader buf) r3 l → rest r3 = [] → buf = l) as Hall.
  { intros l r3 (_ & _ & _ & ER) Hr. change (rest (reader buf)) with buf in ER. by rewrite Hr, app_nil_r in ER. }
  destruct (Z.eqb_spec x 0) as [->|Hz].
  - pstep E (canon_list _ _ _ (Z.to_nat x0) canon_raw). apply bind_ok in E as (d & r3 & [-> Hd]%done_ok & E). destruct d; [|done]. injection E as <- <- <-.
    destruct P1 as [L V]. destruct (Hcount _ L) as [En Hn]. split; [|split_and!; cbn; rewrite ?length_fmap; done].
    apply (Hall _ r1); [|by apply Hd]. unfold encode_node. cbn [body_items]. rewrite length_fmap, En. by repeat (eapply took_trans; [eassumption|]).
  - pstep E (canon_list _ _ _ (Z.to_nat x0) canon_child). apply bind_ok in E as (d & r3 & [-> Hd]%done_ok & E). destruct d; [|done]. injection E as <- <- <-.
    destruct P1 as [L V]. destruct (Hcount _ L) as [En Hn]. split; [|split_and!; cbn; rewrite ?length_fmap; done].
    apply (Hall _ r1); [|by apply Hd]. unfold encode_node. cbn [body_items]. rewrite length_fmap, En. by repeat (eapply took_trans; [eassumption|]).
Qed.

(** * The partition *)

(** [ends] cuts [[start, n)] into non-empty blocks of at most [MAX_NODE_ENTRIES], each
    ended by a boundary, by the cap or by the end of the level, and cut nowhere else. *)
Fixpoint partition_of (flags : list bool) (start : nat) (ends : list nat) : Prop :=
  match ends with
  | [] => start = length flags
  | e :: ends' =>
      (start < e ≤ length flags)%nat ∧ (e - start ≤ MAX_NODE_ENTRIES)%nat ∧
      (flags !! (e - 1)%nat = Some true ∨ (e - start)%nat = MAX_NODE_ENTRIES ∨ e = length flags) ∧
      (∀ i, (start ≤ i)%nat → (i + 1 < e)%nat → flags !! i = Some false) ∧
      partition_of flags e ends'
  end.

Lemma split_from_spec pre fs start :
  let flags := pre ++ fs in
  (start ≤ length pre)%nat → (length pre - start < MAX_NODE_ENTRIES)%nat → (fs = [] → start = length pre) →
  (∀ i, (start ≤ i < length pre)%nat → flags !! i = Some false) →
  partition_of flags start (split_from fs start (length pre) (length flags)).
Proof.
  revert pre start. induction fs as [|f fs IH]; intros pre start flags Hs Hm Hend Hno; subst flags; cbn [split_from].
  { cbn. rewrite app_nil_r. by apply Hend. }
  assert ((pre ++ f :: fs) !! length pre = Some f) as Hf by (by apply list_lookup_middle).
  assert (pre ++ f :: fs = (pre ++ [f]) ++ fs) as Eapp by (by rewrite <-app_assoc).
  assert (length pre + 1 = length (pre ++ [f]))%nat as El by (rewrite length_app; cbn; lia). set (n := length (pre ++ f :: fs)).
  assert (n = length pre + 1 + length fs)%nat as En by (unfold n; rewrite length_app; cbn; lia).
  destruct (f || _ || _) eqn:Ec.
  - cbn [partition_of]. fold n. split_and!; [lia|lia|lia| | |].
    + rewrite Nat.add_sub. rewrite Hf. destruct f; [by left|]. cbn in Ec. apply orb_true_iff in Ec as [H|H]; apply bool_decide_eq_true in H; right; [left|right]; lia.
    + intros i Hi1 Hi2. apply Hno. lia.
    + unfold n. rewrite Eapp, El. apply IH; [lia|rewrite Nat.sub_diag; unfold MAX_NODE_ENTRIES; lia|done|]. intros i Hi. lia.
  - apply orb_false_iff in Ec as [[-> Ec1]%orb_false_iff Ec2]. apply bool_decide_eq_false in Ec1, Ec2. unfold n. rewrite Eapp, El. apply IH; [lia| | |].
    + rewrite <-El. lia.
    + intros ->. cbn in En. lia.
    + intros i Hi. rewrite <-Eapp. destruct (decide (i = length pre)) as [->|]; [done|]. apply Hno. lia.
Qed.

Lemma split_points_spec flags : partition_of flags 0 (split_points flags).
Proof. apply (split_from_spec [] flags 0); cbn; [lia|unfold MAX_NODE_ENTRIES; lia|done|lia]. Qed.

(** The blocks of a list of cuts. *)
Fixpoint blocks {A : Type} (start : nat) (ends : list nat) (l : list A) : list (list A) :=
  match ends with [] => [] | e :: ends' => take (e - start) (drop start l) :: blocks e ends' l end.

Lemma blocks_concat {A : Type} flags start ends (l : list A) :
  partition_of flags start ends → length l = length flags → concat (blocks start ends l) = drop start l.
Proof.
  revert start. induction ends as [|e ends IH]; intros start; cbn.
  - intros -> <-. by rewrite drop_all.
  - intros ([H1 H2] & _ & _ & _ & H) Hl. rewrite IH by done. rewrite <-(take_drop (e - start) (drop start l)) at 2. rewrite drop_drop. do 2 f_equal. lia.
Qed.

Lemma blocks_sizes {A : Type} flags start ends (l : list A) b :
  partition_of flags start ends → length l = length flags → b ∈ blocks start ends l → (1 ≤ length b ≤ MAX_NODE_ENTRIES)%nat.
Proof.
  revert start. induction ends as [|e ends IH]; intros start; cbn; [by intros _ _ ?%elem_of_nil|].
  intros ([H1 H2] & H3 & _ & _ & H) Hl [->|Hin]%elem_of_cons; [|by apply (IH e)]. rewrite length_take, length_drop. lia.
Qed.

Lemma blocks_fmap {A B : Type} (f : A → B) start ends (l : list A) :
  blocks start ends (fmap (M:=list) f l) = fmap (M:=list) (fmap (M:=list) f) (blocks start ends l).
Proof. revert start. induction ends as [|e ends IH]; intros start; cbn; [done|]. by rewrite IH, <-fmap_drop, <-fmap_take. Qed.

(** ** One encoding per entry *)
Lemma tlv_decode_encode e : entry_ok e → tlv_decode (tlv_encode e) = Ok e.
Proof.
  intros He. unfold tlv_decode, tlv_encode. assert (ends tlv_parser e (encode_entry e)) as HE; [|by rewrite (ends_all _ _ _ HE)].
  rewrite <-(app_nil_r (encode_entry e)). eapply ends_bind; [by apply reads_entry|apply ends_done].
Qed.
Lemma tlv_encode_decode buf e : is_bytes buf → tlv_decode buf = Ok e → buf = tlv_encode e ∧ entry_ok e.
Proof.
  intros Hb. unfold tlv_decode. destruct (tlv_parser (reader buf)) as [[x r']|] eqn:Hp; [|done]. intros [= ->]. assert (good (reader buf)) as G by (split; [cbn; lia|by unfold rest; cbn]).
  unfold tlv_parser in Hp. pstep Hp canon_entry. apply bind_ok in Hp as (d & r4 & Hd & Hp). apply done_ok in Hd as [-> Hd]. destruct d; [|done]. injection Hp as -> ->.
  split; [|done]. destruct T as (_ & _ & _ & HT). rewrite Hd, app_nil_r in HT by done. unfold rest in HT. cbn in HT. by rewrite drop_0 in HT.
Qed.
