(* ===== verification/ChunkStore.v ===== *)
(** The chunk store of the storage engine ([cas/src/store.rs], [ChunkStore]): objects are
    framed in extents of the chunk region, found through an index from hash to extent.
    Space comes from the committed-free extents or from the tail; extents freed by state
    that is not committed yet wait in [pending_free].

    Offsets and lengths are [Z]: a region offset plus the length of a buffer in memory
    stays below [2^64]. *)

From stdpp Require Import strings.
From S2P Require Import Prelude Bytes Dev BTree Disk Prolly.

(** ** Errors *)
Inductive StoreError : Type :=
| EIo (e : DevError)
| EFormat (e : FormatError)
| NoSuperblock
| UnsupportedVersion (v : Z)
| NoSuchRef
| NoSuchSnapshot
| NoSuchHandle
| NotAFile
| NotFound
| Corrupt (why : string)
| NoSpace
| Pinned
| VersionMismatch (current : Z)
| WriteOutOfRange
| DeviceTooSmall.

(** ** State *)
Record ChunkStore (D : Type) : Type := MkCs {
  cs_dev : D;
  cs_chunk_off : Z;
  cs_tail : Z;
  cs_birth_gen : Z;
  cs_index : btree Hash IndexEntry;
  cs_free : btree Z Z;
  cs_pending_free : list (Z * Z);
  cs_index_extent : Z * Z;
  cs_io_error : option DevError;
  cs_condemned : btree Hash unit;
}.
Arguments MkCs {D} _ _ _ _ _ _ _ _ _ _.
Arguments cs_dev {D} _.
Arguments cs_chunk_off {D} _.
Arguments cs_tail {D} _.
Arguments cs_birth_gen {D} _.
Arguments cs_index {D} _.
Arguments cs_free {D} _.
Arguments cs_pending_free {D} _.
Arguments cs_index_extent {D} _.
Arguments cs_io_error {D} _.
Arguments cs_condemned {D} _.

(** ** Extents *)

(** The first extent of at least [need] bytes. *)
Definition first_fit (need : Z) (free : btree Z Z) : option (Z * Z) := List.find (λ x, need <=? x.2) free.
(** Take [need] bytes off the front of the extent. *)
Definition carve_extent (need : Z) (x : Z * Z) (free : btree Z Z) : btree Z Z :=
  let free := bt_remove x.1 free in
  if need <? x.2 then bt_insert (x.1 + need) (x.2 - need) free else free.

(** [for (off, len) in all]: merge an extent into the run it continues. *)
Fixpoint merge_runs (all : list (Z * Z)) (merged : btree Z Z) (cur : option (Z * Z)) : btree Z Z :=
  match all with
  | [] => match cur with Some (coff, clen) => bt_insert coff clen merged | None => merged end
  | (off, len) :: rest =>
      match cur with
      | Some (coff, clen) =>
          if coff + clen =? off then merge_runs rest merged (Some (coff, clen + len))
          else merge_runs rest (bt_insert coff clen merged) (Some (off, len))
      | None => merge_runs rest merged (Some (off, len))
      end
  end.

Section chunks.
Context (hash_of : list Z → Hash) {D : Type} `{!BlockDev D}.
Implicit Types (c : ChunkStore D).

Definition with_dev (d : D) c : ChunkStore D :=
  MkCs d (cs_chunk_off c) (cs_tail c) (cs_birth_gen c) (cs_index c) (cs_free c) (cs_pending_free c) (cs_index_extent c) (cs_io_error c) (cs_condemned c).
Definition with_tail (t : Z) c : ChunkStore D :=
  MkCs (cs_dev c) (cs_chunk_off c) t (cs_birth_gen c) (cs_index c) (cs_free c) (cs_pending_free c) (cs_index_extent c) (cs_io_error c) (cs_condemned c).
Definition with_birth_gen (g : Z) c : ChunkStore D :=
  MkCs (cs_dev c) (cs_chunk_off c) (cs_tail c) g (cs_index c) (cs_free c) (cs_pending_free c) (cs_index_extent c) (cs_io_error c) (cs_condemned c).
Definition with_index (i : btree Hash IndexEntry) c : ChunkStore D :=
  MkCs (cs_dev c) (cs_chunk_off c) (cs_tail c) (cs_birth_gen c) i (cs_free c) (cs_pending_free c) (cs_index_extent c) (cs_io_error c) (cs_condemned c).
Definition with_free (f : btree Z Z) c : ChunkStore D :=
  MkCs (cs_dev c) (cs_chunk_off c) (cs_tail c) (cs_birth_gen c) (cs_index c) f (cs_pending_free c) (cs_index_extent c) (cs_io_error c) (cs_condemned c).
Definition with_pending_free (p : list (Z * Z)) c : ChunkStore D :=
  MkCs (cs_dev c) (cs_chunk_off c) (cs_tail c) (cs_birth_gen c) (cs_index c) (cs_free c) p (cs_index_extent c) (cs_io_error c) (cs_condemned c).
Definition with_index_extent (x : Z * Z) c : ChunkStore D :=
  MkCs (cs_dev c) (cs_chunk_off c) (cs_tail c) (cs_birth_gen c) (cs_index c) (cs_free c) (cs_pending_free c) x (cs_io_error c) (cs_condemned c).
Definition with_io_error (e : option DevError) c : ChunkStore D :=
  MkCs (cs_dev c) (cs_chunk_off c) (cs_tail c) (cs_birth_gen c) (cs_index c) (cs_free c) (cs_pending_free c) (cs_index_extent c) e (cs_condemned c).
Definition with_condemned (s : btree Hash unit) c : ChunkStore D :=
  MkCs (cs_dev c) (cs_chunk_off c) (cs_tail c) (cs_birth_gen c) (cs_index c) (cs_free c) (cs_pending_free c) (cs_index_extent c) (cs_io_error c) s.

Definition region_len c : Z := dev_len (cs_dev c) - cs_chunk_off c.

Definition chunk_alloc (need : Z) c : option Z * ChunkStore D :=
  match first_fit need (cs_free c) with
  | Some x => (Some x.1, with_free (carve_extent need x (cs_free c)) c)
  | None =>
      if cs_tail c + need <=? region_len c then (Some (cs_tail c), with_tail (cs_tail c + need) c)
      else (None, c)
  end.

Definition merged_free c : btree Z Z := merge_runs (ord_sort (cs_free c ++ cs_pending_free c)) [] None.

Definition free_bytes c : Z :=
  (region_len c - cs_tail c) + foldr (λ x a, x.2 + a) 0 (cs_free c) + foldr (λ x a, x.2 + a) 0 (cs_pending_free c).

Definition write_index_frame : comp (ChunkStore D) (result ((Z * Z) * btree Z Z) StoreError) := λ c,
  let bound_extents := Z.of_nat (length (cs_free c)) + Z.of_nat (length (cs_pending_free c)) + 1 in
  let entries := Z.of_nat (length (cs_index c)) in
  let need := CHUNK_HEADER + index_payload_len entries bound_extents in
  let placed :=
    match first_fit need (cs_free c) with
    | Some x => Some (x.1, with_free (carve_extent need x (cs_free c)) c)
    | None => if region_len c <? cs_tail c + need then None else Some (cs_tail c, with_tail (cs_tail c + need) c)
    end in
  match placed with
  | None => Ret (Err NoSpace, c)
  | Some (off, c) =>
      let new_free := merged_free c in
      let body := index_payload_len entries (Z.of_nat (length new_free)) in
      if need - CHUNK_HEADER <? body then Panic
      else
        let pad := Z.to_nat (need - CHUNK_HEADER - body) in
        let payload := encode_index (cs_index c) new_free pad in
        let frame := encode_chunk_frame payload (cs_birth_gen c) (hash_of payload) in
        let '(r, d) := dev_write (cs_chunk_off c + off) frame (cs_dev c) in
        match r with
        | Err e => Ret (Err (EIo e), with_dev d c)
        | Ok _ => Ret (Ok ((off, need), new_free), with_dev d c)
        end
  end.

Definition read_object c (hash : Hash) : result (option (list Z)) StoreError :=
  match bt_get hash (cs_index c) with
  | None => Ok None
  | Some e =>
      match dev_read (cs_dev c) (cs_chunk_off c + ie_off e) (ie_len e) with
      | Err x => Err (EIo x)
      | Ok buf => if negb (bool_decide (hash_of buf = hash)) then Err (Corrupt "chunk hash mismatch") else Ok (Some buf)
      end
  end.

Definition in_set {K : Type} `{Ord K} (k : K) (s : btree K unit) : bool := bool_decide (is_Some (bt_get k s)).

Definition chunk_put (bytes : list Z) c : Hash * ChunkStore D :=
  let hash := hash_of bytes in
  if bool_decide (is_Some (bt_get hash (cs_index c))) && (bool_decide (cs_condemned c = []) || negb (in_set hash (cs_condemned c)))
  then (hash, c)
  else
    let c := with_condemned (bt_remove hash (cs_condemned c)) c in
    let frame := encode_chunk_frame bytes (cs_birth_gen c) hash in
    match chunk_alloc (len_z frame) c with
    | (None, c) => (hash, with_io_error (Some (Io "chunk region full")) c)
    | (Some off, c) =>
        let '(r, d) := dev_write (cs_chunk_off c + off) frame (cs_dev c) in
        match r with
        | Err e => (hash, with_io_error (Some e) (with_dev d c))
        | Ok _ =>
            (hash, with_index (bt_insert hash (MkIndexEntry (off + CHUNK_HEADER) (as_u32 (len_z bytes)) (cs_birth_gen c)) (cs_index c)) (with_dev d c))
        end
    end.

Definition chunk_get c (hash : Hash) : option (list Z) := match read_object c hash with Ok x => x | Err _ => None end.

Definition ChunkStore_store : NodeStore (ChunkStore D) := {| put := chunk_put; get := chunk_get |}.
End chunks.
