(* ===== verification/Extents.v ===== *)
(** Extents of the chunk region: when they do not overlap, and what carving and merging do
    to a free list ([cas/src/store.rs], [alloc], [merged_free]). *)

From S2P Require Import Prelude Bytes Dev BTree ChunkStore.

(** ** Extents that do not overlap *)
Definition disjoint_ext (x y : Z * Z) : Prop := x.1 + x.2 ≤ y.1 ∨ y.1 + y.2 ≤ x.1.

Fixpoint apart (l : list (Z * Z)) : Prop :=
  match l with [] => True | x :: l' => Forall (disjoint_ext x) l' ∧ apart l' end.

(** Inside [[0, hi)], and not empty. *)
Definition within (hi : Z) (x : Z * Z) : Prop := 0 ≤ x.1 ∧ 0 < x.2 ∧ x.1 + x.2 ≤ hi.

Lemma disjoint_ext_sym x y : disjoint_ext x y → disjoint_ext y x.
Proof. unfold disjoint_ext. tauto. Qed.

Lemma apart_perm l1 l2 : l1 ≡ₚ l2 → apart l1 → apart l2.
Proof.
  induction 1 as [|x l1 l2 HP IH|x y l|l1 l2 l3 _ IH1 _ IH2]; cbn; [done| | |by auto].
  - intros [H1 H2]. split; [by rewrite <-HP|auto].
  - intros [[H1 H2]%Forall_cons [H3 H4]]. split_and!; [constructor; [by apply disjoint_ext_sym|done]|done|done].
Qed.

Lemma apart_app l1 l2 : apart (l1 ++ l2) ↔ apart l1 ∧ apart l2 ∧ ∀ x y, x ∈ l1 → y ∈ l2 → disjoint_ext x y.
Proof.
  induction l1 as [|a l1 IH]; cbn [app apart].
  - split; [intros H; split_and!; [done|done|by intros x y ?%elem_of_nil]|by intros (_ & H & _)].
  - rewrite IH, Forall_app, !Forall_forall. split.
    + intros [[H1 H2] (H3 & H4 & H5)]. split_and!; [done|done|done|]. intros x y [->|Hx]%elem_of_cons Hy; [by apply H2|by apply H5].
    + intros ([H1 H2] & H3 & H4). split_and!; [done|intros y Hy; apply H4; [by left|done]|done|done|]. intros x y Hx Hy. apply H4; [by right|done].
Qed.

Lemma apart_sub l1 l2 : apart (l1 ++ l2) → apart l2.
Proof. by intros (_ & H & _)%apart_app. Qed.

(** An extent taken out of an [apart] list is disjoint from what is left. *)
Lemma apart_cons x l y : apart (x :: l) → y ∈ l → disjoint_ext x y.
Proof. intros [H _] Hy. rewrite Forall_forall in H. by apply H. Qed.

(** Replace an extent by pieces of it. *)
Lemma apart_refine x ps l hi :
  apart (x :: l) → apart ps → Forall (λ p, x.1 ≤ p.1 ∧ p.1 + p.2 ≤ x.1 + x.2) ps → within hi x → Forall (within hi) l → apart (ps ++ l).
Proof.
  intros [H1 H2] H3 H4 _ _. apply apart_app. split_and!; [done|done|]. intros p y Hp Hy. rewrite Forall_forall in H1, H4. specialize (H1 y Hy). specialize (H4 p Hp).
  unfold disjoint_ext in *. lia.
Qed.

(** ** Carving *)

Lemma first_fit_Some need free x : first_fit need free = Some x → x ∈ free ∧ need ≤ x.2.
Proof. unfold first_fit. intros [H1 H2]%List.find_some. apply list_elem_of_In in H1. apply Z.leb_le in H2. done. Qed.

(** What is left of the free list with the carved piece is what the list was. *)
Lemma carve_extents_spec need free x :
  bt_sorted free → x ∈ free → 0 < need ≤ x.2 → apart free → Forall (λ y, 0 < y.2) free →
  bt_sorted (carve_extent need x free) ∧
  ∃ ps, carve_extent need x free ≡ₚ ps ++ bt_remove x.1 free ∧ free ≡ₚ x :: bt_remove x.1 free ∧
        ps = if need <? x.2 then [(x.1 + need, x.2 - need)] else [].
Proof.
  intros Hs Hx Hn Ha Hp. destruct x as [o n]. cbn [fst snd] in *. pose proof (bt_remove_perm free o n Hs Hx) as HP. unfold carve_extent. cbn [fst snd]. destruct (Z.ltb_spec need n) as [Hlt|Hge].
  - split; [by apply bt_insert_sorted, bt_remove_sorted|]. eexists [_]. split_and!; [|done|done]. cbn. apply bt_insert_perm. intros y Hy.
    assert (disjoint_ext (o, n) (o + need, y)) as Hd by (apply (apart_cons (o, n) (bt_remove o free)); [by apply (apart_perm free)|done]).
    apply bt_remove_elem in Hy as [_ Hy]; [|done]. rewrite Forall_forall in Hp. specialize (Hp _ Hy). unfold disjoint_ext in Hd. cbn in *. lia.
  - split; [by apply bt_remove_sorted|]. by exists [].
Qed.

(** ** Merging *)

(** The runs of adjacent extents, the first one already begun. *)
Fixpoint runs (c : Z * Z) (l : list (Z * Z)) : list (Z * Z) :=
  match l with
  | [] => [c]
  | x :: l' => if c.1 + c.2 =? x.1 then runs (c.1, c.2 + x.2) l' else c :: runs x l'
  end.

(** In order, each extent after the end of the one before. *)
Fixpoint lined (c : Z * Z) (l : list (Z * Z)) : Prop :=
  match l with [] => 0 < c.2 | x :: l' => 0 < c.2 ∧ c.1 + c.2 ≤ x.1 ∧ lined x l' end.

Lemma lined_head c l : lined c l → 0 < c.2.
Proof. by destruct l; cbn; [|intros [? _]]. Qed.
Lemma lined_grow c c' l : 0 < c'.2 → c'.1 + c'.2 ≤ c.1 + c.2 → lined c l → lined c' l.
Proof. destruct l as [|x l]; cbn; [done|]. intros H1 H2 (H3 & H4 & H5). split_and!; [done|lia|done]. Qed.
Lemma lined_join c x l : lined c (x :: l) → c.1 + c.2 = x.1 → lined (c.1, c.2 + x.2) l.
Proof. cbn. intros (H1 & H2 & H3) E. pose proof (lined_head _ _ H3). apply (lined_grow x); cbn; [lia|lia|done]. Qed.
Lemma lined_after c l y : lined c l → y ∈ l → c.1 + c.2 ≤ y.1 ∧ 0 < y.2.
Proof.
  revert c. induction l as [|x l IH]; intros c; cbn; [by intros _ ?%elem_of_nil|]. intros (H1 & H2 & H3) [->|Hy]%elem_of_cons; [by split; [|apply (lined_head _ l)]|].
  destruct (IH x H3 Hy). pose proof (lined_head _ _ H3). lia.
Qed.
Lemma lined_apart c l : lined c l → apart (c :: l).
Proof.
  revert c. induction l as [|x l IH]; intros c L; [by repeat constructor|]. split; [|by apply IH, L]. apply Forall_forall. intros y Hy. left. by apply (lined_after c (x :: l)).
Qed.

Lemma runs_lined c l : lined c l → ∃ n r, runs c l = (c.1, n) :: r ∧ c.2 ≤ n ∧ lined (c.1, n) r.
Proof.
  revert c. induction l as [|x l IH]; intros c L; cbn [runs].
  - exists c.2, []. destruct c; cbn in *. split_and!; [done|lia|done].
  - destruct (Z.eqb_spec (c.1 + c.2) x.1) as [E|E].
    + destruct (IH (c.1, c.2 + x.2) (lined_join _ _ _ L E)) as (n & r & -> & Hn & Hr). cbn [fst snd] in *. exists n, r. split_and!; [done| |done]. destruct L as (_ & _ & ?%lined_head). lia.
    + destruct L as (L1 & L2 & L3). destruct (IH x L3) as (n & r & -> & Hn & Hr). exists c.2, ((x.1, n) :: r). destruct c as [a b]. cbn in *. split_and!; [done|lia|done|lia|done].
Qed.

(** A run is disjoint from what its members are disjoint from, and stays in their bounds. *)
Lemma runs_outside c l y : lined c l → 0 < y.2 → Forall (disjoint_ext y) (c :: l) → Forall (disjoint_ext y) (runs c l).
Proof.
  revert c. induction l as [|x l IH]; intros c L Hy H; cbn [runs]; [done|]. apply Forall_cons in H as [H1 [H2 H3]%Forall_cons].
  destruct (Z.eqb_spec (c.1 + c.2) x.1) as [E|E].
  - apply IH; [by apply (lined_join _ _ _ L)|done|]. constructor; [|done]. unfold disjoint_ext in *. cbn. destruct L as (? & _ & ?%lined_head). lia.
  - constructor; [done|]. apply IH; [apply L|done|by constructor].
Qed.
Lemma runs_within hi c l : lined c l → Forall (within hi) (c :: l) → Forall (within hi) (runs c l).
Proof.
  revert c. induction l as [|x l IH]; intros c L H; cbn [runs]; [done|]. apply Forall_cons in H as [H1 [H2 H3]%Forall_cons].
  destruct (Z.eqb_spec (c.1 + c.2) x.1) as [E|E]; [|constructor; [done|]; apply IH; [apply L|by constructor]].
  apply IH; [by apply (lined_join _ _ _ L)|]. constructor; [|done]. unfold within in *. cbn. lia.
Qed.
Lemma runs_length c l : (length (runs c l) ≤ S (length l))%nat.
Proof. revert c. induction l as [|x l IH]; intros c; cbn [runs]; [done|]. destruct (_ =? _); cbn; [specialize (IH (c.1, c.2 + x.2))|specialize (IH x)]; lia. Qed.

Lemma merge_runs_eq l merged c :
  lined c l → (∀ k v, (k, v) ∈ merged → k < c.1) → merge_runs l merged (Some c) = merged ++ runs c l.
Proof.
  revert merged c. induction l as [|[o n] l IH]; intros merged c L Hm; destruct c as [co cn]; cbn [merge_runs runs fst snd].
  - apply bt_insert_last. intros k' v' Hk. by apply Z.compare_lt_iff, (Hm k' v').
  - destruct (Z.eqb_spec (co + cn) o) as [E|E].
    + apply IH; [by apply (lined_join _ _ _ L)|done].
    + destruct L as (L1 & L2 & L3). rewrite bt_insert_last by (intros k' v' Hk; by apply Z.compare_lt_iff, (Hm k' v')).
      rewrite IH; [by rewrite <-app_assoc|done|]. cbn in *. intros k v [Hk|[[= -> ->]|?%elem_of_nil]%elem_of_cons]%elem_of_app; [apply Hm in Hk; cbn in *; lia|lia|done].
Qed.

(** A sorted list of extents that do not overlap is in line. *)
Lemma sorted_lined c l : ascending (c :: l) → apart (c :: l) → Forall (λ x, 0 < x.2) (c :: l) → lined c l.
Proof.
  revert c. induction l as [|x l IH]; intros c As Ap Hp; apply Forall_cons in Hp as [Hc Hp]; [done|]. destruct As as [As1 As2], Ap as [Ap1 Ap2]. cbn [lined]. split_and!; [done| |by apply IH].
  apply Forall_cons in Ap1 as [Hd _]. apply Forall_cons in Hp as [Hx _]. specialize (As1 x ltac:(by left)). destruct c as [a b], x as [a' b']. unfold disjoint_ext in Hd. cbn in *.
  destruct (Z.compare_spec a a'); [subst; lia|lia|done].
Qed.

Definition merge_of (l : list (Z * Z)) : btree Z Z := merge_runs (ord_sort l) [] None.

Lemma lined_sorted c l : lined c l → bt_sorted (c :: l).
Proof.
  revert c. induction l as [|x l IH]; intros [a b] L; [split; [by intros ? ? ?%elem_of_nil|done]|]. split; [|by apply IH, L].
  intros k v Hk. destruct (lined_after _ _ _ L Hk) as [H _]. cbn in *. apply Z.compare_lt_iff. destruct L as (L1 & _). cbn in L1. lia.
Qed.

Lemma merge_spec hi l :
  apart l → Forall (within hi) l →
  bt_sorted (merge_of l) ∧ apart (merge_of l) ∧ Forall (within hi) (merge_of l) ∧ (length (merge_of l) ≤ length l)%nat ∧
  ∀ y, 0 < y.2 → Forall (disjoint_ext y) l → Forall (disjoint_ext y) (merge_of l).
Proof.
  intros Ap Hw. unfold merge_of. pose proof (ord_sort_perm l) as HP. pose proof (ord_sort_ascending l) as As. rewrite <-HP in Hw. apply (apart_perm _ _ (symmetry HP)) in Ap.
  assert (length (ord_sort l) = length l) as Hlen by (by rewrite HP).
  assert (∀ y, Forall (disjoint_ext y) l → Forall (disjoint_ext y) (ord_sort l)) as Hy by (intros y H; by rewrite HP).
  destruct (ord_sort l) as [|c r]; cbn [merge_runs]; [split_and!; [done|done|done|cbn; lia|done]|]. destruct c as [co cn].
  assert (lined (co, cn) r) as L by (apply sorted_lined; [done|done|eapply Forall_impl; [exact Hw|]; intros x; unfold within; tauto]).
  rewrite merge_runs_eq by (try done; by intros ? ? ?%elem_of_nil). cbn [app]. destruct (runs_lined _ _ L) as (n & r' & E & Hn & L'). cbn [fst snd] in *.
  split_and!; [rewrite E; by apply lined_sorted|rewrite E; by apply lined_apart|by apply runs_within|rewrite <-Hlen; apply runs_length|].
  intros y Hpos H. apply runs_outside; auto.
Qed.
