(* ===== verification/ChunkProofs.v ===== *)
(** The chunk store on the crash device: objects keep their bytes, extents never overlap,
    and no write reaches an extent the durable commit refers to. *)

From stdpp Require Import strings.
From S2P Require Import Prelude Bytes Dev BTree Disk Prolly ChunkStore Extents.

(** ** The device *)
Record dev_ok (d : CrashDev) : Prop := {
  dk_length : length (cd_current d) = length (cd_durable d);
  dk_small : len_z (cd_durable d) < 2 ^ 32;
  dk_durable : is_bytes (cd_durable d);
  dk_current : is_bytes (cd_current d);
  dk_pending : writes_in (length (cd_durable d)) (cd_pending d) ∧ Forall (λ w, is_bytes w.2) (cd_pending d);
  dk_view : crashes (cd_durable d) (cd_pending d) (cd_current d);
}.

Lemma dev_set_fail d n : dev_ok d → dev_ok (set_fail_after n d).
Proof. by intros []. Qed.

(** A write reaches the current image and the pending list, or nothing. *)
Lemma crash_write_spec off data d r d' :
  dev_ok d → 0 ≤ off → is_bytes data → crash_write off data d = (r, d') →
  dev_ok d' ∧ cd_durable d' = cd_durable d ∧
  match r with
  | Ok _ => off + len_z data ≤ len_z (cd_current d) ∧ cd_current d' = splice (cd_current d) off data ∧ cd_pending d' = cd_pending d ++ [(off, data)]
  | Err _ => cd_current d' = cd_current d ∧ cd_pending d' = cd_pending d
  end.
Proof.
  intros V Ho Hb. unfold crash_write.
  assert (∀ d1, dev_ok d1 → cd_durable d1 = cd_durable d → cd_current d1 = cd_current d → cd_pending d1 = cd_pending d →
    match access_range off (len_z data) (len_z (cd_current d1)) with
    | Ok _ => (Ok tt, MkCrash (cd_durable d1) (splice (cd_current d1) off data) (cd_pending d1 ++ [(off, data)]) (cd_fail_after d1))
    | Err e => (Err e, d1)
    end = (r, d') → dev_ok d' ∧ cd_durable d' = cd_durable d ∧
    match r with
    | Ok _ => off + len_z data ≤ len_z (cd_current d) ∧ cd_current d' = splice (cd_current d) off data ∧ cd_pending d' = cd_pending d ++ [(off, data)]
    | Err _ => cd_current d' = cd_current d ∧ cd_pending d' = cd_pending d
    end) as Hmain.
  { intros d1 V1 E1 E2 E3. unfold access_range, checked_add. case_decide as Hc; [destruct (Z.leb_spec (off + len_z data) (len_z (cd_current d1))) as [Hle|]|]; intros [= <- <-]; [|done|done].
    rewrite E2 in Hle. destruct V as [H1 H2 H3 H4 [H5 H6] H7]. rewrite E1, E2, E3. cbn [cd_durable cd_current cd_pending]. split_and!; [|done|done|done|done]. unfold len_z in *. split; cbn [cd_durable cd_current cd_pending].
    - rewrite splice_length; [done|done|lia].
    - done.
    - done.
    - by apply splice_bytes.
    - split; apply Forall_app; split; try done; (constructor; [|constructor]); cbn; [unfold len_z; lia|done].
    - rewrite <-(take_ge data (length data)) at 2 by lia. by apply crashes_snoc. }
  unfold check_fail. destruct (cd_fail_after d) as [n|] eqn:En; [destruct (n =? 0)|].
  - intros [= <- <-]. split_and!; done.
  - apply Hmain; [by apply dev_set_fail|done..].
  - by apply Hmain.
Qed.

(** A flush makes the current image durable, or does nothing. *)
Lemma crash_flush_spec d r d' :
  dev_ok d → crash_flush d = (r, d') →
  dev_ok d' ∧ cd_current d' = cd_current d ∧
  match r with
  | Ok _ => cd_durable d' = cd_current d ∧ cd_pending d' = []
  | Err _ => cd_durable d' = cd_durable d ∧ cd_pending d' = cd_pending d
  end.
Proof.
  intros V. assert (∀ n, dev_ok (MkCrash (cd_current d) (cd_current d) [] n)) as Hv.
  { intros n. destruct V as [H1 H2 H3 H4 H5 H6]. split; cbn; try done; [|split; constructor|constructor]. unfold len_z in *. by rewrite H1. }
  unfold crash_flush, check_fail. destruct (cd_fail_after d) as [n|] eqn:En; [destruct (n =? 0)|]; intros [= <- <-]; split_and!; try done; apply Hv.
Qed.

(** ** The chunk store *)
Definition frame_of (e : IndexEntry) : Z * Z := (ie_off e - CHUNK_HEADER, ie_len e + CHUNK_HEADER).
Definition frames (index : btree Hash IndexEntry) : list (Z * Z) := frame_of <$> index.*2.
(** Every extent in use, the free ones and the ones about to be. *)
Definition extents (index : btree Hash IndexEntry) (free : btree Z Z) (pending : list (Z * Z)) : list (Z * Z) := frames index ++ free ++ pending.

Section store.
Context (hash_of : list Z → Hash) `{!HashLaws hash_of}.
Implicit Types (c : ChunkStore CrashDev).

(** The bytes the index gives for [h] hash to it. *)
Definition object_in (img : list Z) (chunk_off : Z) (h : Hash) (e : IndexEntry) : Prop := hash_of (slice img (chunk_off + ie_off e) (ie_len e)) = h.

Definition entry_fits (e : IndexEntry) : Prop := 0 ≤ ie_len e < 2 ^ 32 ∧ fits_in 8 (ie_birth e).

(** The store in memory; [pending] is [pending_free] with the index frame in use. *)
Record space_ok c (pending : list (Z * Z)) : Prop := {
  sp_dev : dev_ok (cs_dev c);
  sp_off : WAL_OFF ≤ cs_chunk_off c;
  sp_birth : fits_in 8 (cs_birth_gen c);
  sp_index : bt_sorted (cs_index c);
  sp_free : bt_sorted (cs_free c);
  sp_tail : 0 ≤ cs_tail c ≤ region_len c;
  sp_apart : apart (extents (cs_index c) (cs_free c) pending);
  sp_within : Forall (within (cs_tail c)) (extents (cs_index c) (cs_free c) pending);
  sp_entry h e : (h, e) ∈ cs_index c → length h = 32%nat ∧ entry_fits e;
  sp_object h e : (h, e) ∈ cs_index c → object_in (cd_current (cs_dev c)) (cs_chunk_off c) h e;
}.

(** Extents of the durable commit that the store may not touch. *)
Record shielded (prot : list (Z * Z)) c : Prop := {
  sh_free p f : p ∈ prot → f ∈ cs_free c → disjoint_ext p f;
  sh_tail p : p ∈ prot → 0 ≤ p.1 ∧ 0 < p.2 ∧ p.1 + p.2 ≤ cs_tail c;
  sh_pending w : w ∈ cd_pending (cs_dev c) → cs_chunk_off c ≤ w.1 ∧ ∀ p, p ∈ prot → disjoint_ext (cs_chunk_off c + p.1, p.2) (w.1, len_z w.2);
}.

(** Only the space accounting differs. *)
Definition same_but_space c c' : Prop := ∃ f t, c' = with_tail t (with_free f c).

Lemma within_mono hi hi' l : hi ≤ hi' → Forall (within hi) l → Forall (within hi') l.
Proof. intros Hh H. eapply Forall_impl; [exact H|]. unfold within. intros x. lia. Qed.

Lemma chunk_alloc_spec c pending need off c' :
  space_ok c pending → 0 < need → chunk_alloc need c = (Some off, c') →
  same_but_space c c' ∧ bt_sorted (cs_free c') ∧ cs_tail c ≤ cs_tail c' ≤ region_len c ∧
  apart ((off, need) :: extents (cs_index c) (cs_free c') pending) ∧
  Forall (within (cs_tail c')) ((off, need) :: extents (cs_index c) (cs_free c') pending) ∧
  ∀ prot, shielded prot c → shielded prot c' ∧ ∀ p, p ∈ prot → disjoint_ext p (off, need).
Proof.
  intros V Hn. destruct (sp_tail _ _ V) as [Ht1 Ht2]. pose proof (sp_apart _ _ V) as Ap. pose proof (sp_within _ _ V) as Wi. unfold chunk_alloc. destruct (first_fit need (cs_free c)) as [x|] eqn:E.
  - intros [= <- <-]. apply first_fit_Some in E as [Hx Hnx].
    assert (apart (cs_free c)) as Apf by (apply apart_app in Ap as (_ & Ap & _); by apply apart_app in Ap as (Ap & _ & _)).
    assert (Forall (within (cs_tail c)) (cs_free c)) as Wf by (apply Forall_app in Wi as [_ Wi]; by apply Forall_app in Wi as [Wi _]).
    assert (within (cs_tail c) x) as Wx by (rewrite Forall_forall in Wf; by apply Wf).
    destruct (carve_extents_spec need (cs_free c) x (sp_free _ _ V) Hx ltac:(lia) Apf) as (Hs & ps & HP1 & HP2 & Eps). { eapply Forall_impl; [exact Wf|]. unfold within. intros y. lia. }
    set (rm := bt_remove x.1 (cs_free c)) in *. clearbody rm.
    assert (extents (cs_index c) (cs_free c) pending ≡ₚ x :: (frames (cs_index c) ++ rm ++ pending)) as HPx by (unfold extents; rewrite HP2; solve_Permutation).
    assert (extents (cs_index c) (carve_extent need x (cs_free c)) pending ≡ₚ ps ++ (frames (cs_index c) ++ rm ++ pending)) as HPc by (unfold extents; rewrite HP1; solve_Permutation).
    set (rest := frames (cs_index c) ++ rm ++ pending) in *. apply (apart_perm _ _ HPx) in Ap. rewrite HPx in Wi. apply Forall_cons in Wi as [_ Wr].
    assert (apart ((x.1, need) :: ps) ∧ Forall (λ p, x.1 ≤ p.1 ∧ p.1 + p.2 ≤ x.1 + x.2) ((x.1, need) :: ps) ∧ Forall (within (cs_tail c)) ((x.1, need) :: ps)) as (Ap1 & Ap2 & Ap3).
    { unfold within in *. subst ps. destruct (Z.ltb_spec need x.2); cbn [apart]; split_and!; repeat constructor; cbn; unfold disjoint_ext; cbn; try lia. }
    split_and!; [by exists (carve_extent need x (cs_free c)), (cs_tail c); destruct c|done|cbn; lia|cbn; lia| | |].
    + apply (apart_perm ((x.1, need) :: ps ++ rest)). { cbn [cs_free with_free]. by rewrite HPc. } apply (apart_refine x ((x.1, need) :: ps) rest (cs_tail c)); done.
    + cbn [cs_free cs_tail with_free]. rewrite HPc. apply Forall_cons in Ap3 as [A1 A2]. constructor; [done|]. apply Forall_app. done.
    + intros prot S. split.
      * split; [|apply S|apply S]. intros p f Hp Hf. cbn [cs_free with_free] in Hf. rewrite HP1 in Hf. apply elem_of_app in Hf as [Hf|Hf].
        -- pose proof (sh_free _ _ S p x Hp Hx) as Hd. apply Forall_cons in Ap2 as [_ Ap2]. rewrite Forall_forall in Ap2. apply Ap2 in Hf. unfold disjoint_ext in *. lia.
        -- apply (sh_free _ _ S p f Hp). rewrite HP2. by right.
      * intros p Hp. pose proof (sh_free _ _ S p x Hp Hx) as Hd. unfold disjoint_ext in *. cbn. lia.
  - destruct (Z.leb_spec (cs_tail c + need) (region_len c)) as [Hle|]; [|done]. intros [= <- <-]. cbn [cs_free cs_tail with_tail].
    split_and!; [by exists (cs_free c), (cs_tail c + need); destruct c|apply V|lia|lia| | |].
    + split; [|done]. eapply Forall_impl; [exact Wi|]. unfold within, disjoint_ext. cbn. intros y. lia.
    + constructor; [unfold within; cbn; lia|]. apply (within_mono (cs_tail c)); [lia|done].
    + intros prot S. split.
      * split; cbn [cs_free cs_tail with_tail cs_dev cs_chunk_off]; [apply S| |apply S]. intros p Hp. pose proof (sh_tail _ _ S p Hp). lia.
      * intros p Hp. pose proof (sh_tail _ _ S p Hp). unfold disjoint_ext. cbn. lia.
Qed.

Lemma frame_slot index h e : (h, e) ∈ index → frame_of e ∈ frames index.
Proof. intros H. unfold frames. apply list_elem_of_fmap_2, (list_elem_of_fmap_2 snd _ (h, e) H). Qed.

(** Writing into an allocated extent leaves every object and every shielded extent alone. *)
Lemma extent_write c pending off data r d' :
  space_ok c pending → is_bytes data → 0 ≤ off →
  Forall (disjoint_ext (off, len_z data)) (frames (cs_index c)) →
  crash_write (cs_chunk_off c + off) data (cs_dev c) = (r, d') →
  space_ok (with_dev d' c) pending ∧ cd_durable d' = cd_durable (cs_dev c) ∧
  (∀ prot, shielded prot c → (∀ p, p ∈ prot → disjoint_ext p (off, len_z data)) → shielded prot (with_dev d' c)) ∧
  (∀ h e, (h, e) ∈ cs_index c → slice (cd_current d') (cs_chunk_off c + ie_off e) (ie_len e) = slice (cd_current (cs_dev c)) (cs_chunk_off c + ie_off e) (ie_len e)) ∧
  match r with Ok _ => slice (cd_current d') (cs_chunk_off c + off) (len_z data) = data | Err _ => True end.
Proof.
  intros V Hb Ho Hd Hw. pose proof (sp_off _ _ V) as Hoff. unfold WAL_OFF in Hoff. destruct (crash_write_spec (cs_chunk_off c + off) _ _ _ _ (sp_dev _ _ V) ltac:(lia) Hb Hw) as (Vd & Ed & Hr).
  assert (∀ h e, (h, e) ∈ cs_index c → slice (cd_current d') (cs_chunk_off c + ie_off e) (ie_len e) = slice (cd_current (cs_dev c)) (cs_chunk_off c + ie_off e) (ie_len e)) as Hsame.
  { intros h e Hin. destruct r; [|by rewrite (proj1 Hr)]. destruct Hr as (Hr1 & -> & _).
    rewrite Forall_forall in Hd. specialize (Hd _ (frame_slot _ _ _ Hin)). unfold disjoint_ext, frame_of, CHUNK_HEADER in Hd. cbn in Hd.
    pose proof (sp_within _ _ V) as Wi. apply Forall_app in Wi as [Wi _]. rewrite Forall_forall in Wi. specialize (Wi _ (frame_slot _ _ _ Hin)). unfold within, frame_of, CHUNK_HEADER in Wi. cbn in Wi.
    destruct (sp_entry _ _ V h e Hin) as [_ [[] _]]. unfold len_z in *. rewrite slice_splice_out; try done; lia. }
  assert (∀ h e, (h, e) ∈ cs_index c → object_in (cd_current d') (cs_chunk_off c) h e) as Hobj.
  { intros h e Hin. unfold object_in. rewrite (Hsame h e Hin). by apply (sp_object _ _ V). }
  split_and!; [|done| |done|].
  - assert (region_len (with_dev d' c) = region_len c) as Hrl by (unfold region_len; cbn; by rewrite Ed).
    destruct V; split; cbn [with_dev cs_dev cs_chunk_off cs_tail cs_birth_gen cs_index cs_free]; try done. by rewrite Hrl.
  - intros prot S Hp. split; cbn [with_dev cs_dev cs_chunk_off cs_tail cs_free]; [apply S|apply S|]. destruct r; [|destruct Hr as [_ ->]; apply S]. destruct Hr as (_ & _ & ->).
    intros w [Hw'|[->|?%elem_of_nil]%elem_of_cons]%elem_of_app; [by apply S| |done]. cbn. split; [lia|]. intros p Hin. specialize (Hp p Hin). unfold disjoint_ext in *. cbn in *. lia.
  - destruct r; [|done]. destruct Hr as (Hr1 & -> & _). unfold len_z in *. apply splice_eq; lia.
Qed.

Lemma frame_length data birth h : length h = 32%nat → len_z (encode_chunk_frame data birth h) = CHUNK_HEADER + len_z data.
Proof. intros Hh. unfold len_z, encode_chunk_frame, u32_le, u64_le, CHUNK_HEADER. rewrite !length_app, !le_bytes_length, Hh. cbn [length CHUNK_MAGIC]. lia. Qed.
Lemma frame_bytes data birth h : is_bytes data → is_bytes h → is_bytes (encode_chunk_frame data birth h).
Proof.
  intros Hd Hh. unfold encode_chunk_frame. repeat (apply is_bytes_app; split); try done; try apply le_bytes_bytes.
  unfold CHUNK_MAGIC, is_bytes, is_byte. repeat constructor; lia.
Qed.
Lemma frame_data img off data birth h : length h = 32%nat → 0 ≤ off →
  slice img off (len_z (encode_chunk_frame data birth h)) = encode_chunk_frame data birth h → slice img (off + CHUNK_HEADER) (len_z data) = data.
Proof.
  intros Hh Ho E. rewrite frame_length in E by done. assert (slice (encode_chunk_frame data birth h) CHUNK_HEADER (len_z data) = data) as E'.
  { unfold encode_chunk_frame. rewrite !app_assoc. rewrite <-(app_nil_r (_ ++ data)), <-app_assoc. apply slice_app; [|done]. rewrite !length_app. unfold u32_le, u64_le. rewrite !le_bytes_length, Hh. done. }
  rewrite <-E' at 2. rewrite <-E. unfold slice, CHUNK_HEADER. pose proof (len_z_nonneg data). rewrite skipn_firstn_comm, drop_drop, take_take. f_equal; [lia|]. f_equal. lia.
Qed.

Lemma index_insert_perm index h e :
  bt_sorted index → ∃ rest, frames (bt_insert h e index) ≡ₚ frame_of e :: rest ∧ (∃ old, frames index ≡ₚ old ++ rest).
Proof.
  intros Hs. assert (∀ x, (h, x) ∉ bt_remove h index) as Hn by (intros x; rewrite bt_remove_elem by done; naive_solver).
  assert (bt_insert h e (bt_remove h index) = bt_insert h e index) as Ei.
  { apply bt_ext; [by apply bt_insert_sorted, bt_remove_sorted|by apply bt_insert_sorted|]. intros k. rewrite !get_insert, get_remove by eauto with btree. by repeat case_decide. }
  exists (frames (bt_remove h index)). split.
  - unfold frames. rewrite <-Ei, (bt_insert_perm _ h e Hn). done.
  - destruct (bt_get h index) as [e0|] eqn:Eg.
    + exists [frame_of e0]. apply bt_get_elem in Eg; [|done]. pose proof (bt_remove_perm index h e0 Hs Eg) as HP. set (rm := bt_remove h index) in *. clearbody rm. unfold frames. by rewrite HP.
    + exists []. replace (bt_remove h index) with index; [done|]. apply bt_ext; [done|by apply bt_remove_sorted|]. intros k. rewrite get_remove by done. case_decide; [by subst|done].
Qed.

Lemma space_rest c pending : space_ok c pending → ∀ e x, space_ok (with_io_error e (with_condemned x c)) pending.
Proof. intros [] e x. by split. Qed.
Lemma shielded_rest prot c : shielded prot c → ∀ e x, shielded prot (with_io_error e (with_condemned x c)).
Proof. intros [] e x. by split. Qed.

(** ** Putting an object *)

(** What a put may change: space, the index, the device, the error and the condemned set. *)
Record put_frame c c' : Prop := {
  pf_off : cs_chunk_off c' = cs_chunk_off c;
  pf_birth : cs_birth_gen c' = cs_birth_gen c;
  pf_pending : cs_pending_free c' = cs_pending_free c;
  pf_extent : cs_index_extent c' = cs_index_extent c;
  pf_durable : cd_durable (cs_dev c') = cd_durable (cs_dev c);
  pf_tail : cs_tail c ≤ cs_tail c';
}.

Lemma put_frame_refl c : put_frame c c.
Proof. by split. Qed.
Lemma put_frame_trans c1 c2 c3 : put_frame c1 c2 → put_frame c2 c3 → put_frame c1 c3.
Proof. intros [] []. split; congruence || lia. Qed.

Lemma chunk_put_spec c pending b h c' :
  space_ok c pending → is_bytes b → chunk_put hash_of b c = (h, c') →
  h = hash_of b ∧ space_ok c' pending ∧ put_frame c c' ∧ (∀ prot, shielded prot c → shielded prot c') ∧
  (∀ k, k ≠ h → bt_get k (cs_index c') = bt_get k (cs_index c)) ∧
  (cs_io_error c' = None → is_Some (bt_get h (cs_index c'))) ∧
  (∀ e, bt_get h (cs_index c) = Some e → cs_condemned c = [] → c' = c) ∧
  (bt_get h (cs_index c) = None → ∀ e, bt_get h (cs_index c') = Some e → slice (cd_current (cs_dev c')) (cs_chunk_off c + ie_off e) (ie_len e) = b).
Proof using HashLaws0.
  intros V Hb. unfold chunk_put. set (hh := hash_of b). destruct (andb _ _) eqn:Ehit.
  { intros [= <- <-]. apply andb_prop in Ehit as [Ehit _]. apply bool_decide_eq_true in Ehit. split_and!; try done. intros En. rewrite En in Ehit. by destruct Ehit. }
  set (c0 := with_condemned (bt_remove hh (cs_condemned c)) c). assert (space_ok c0 pending) as V0. { destruct V. by split. }
  assert (put_frame c c0) as F0 by (by split). assert (∀ prot, shielded prot c → shielded prot c0) as S0. { intros prot []. by split. }
  assert (∀ e, bt_get hh (cs_index c) = Some e → cs_condemned c = [] → False) as Hhit.
  { intros e Ee Ec. rewrite Ee, Ec in Ehit. rewrite !bool_decide_eq_true_2 in Ehit by eauto. done. }
  assert (∀ x X, space_ok X pending → put_frame c X → (∀ prot, shielded prot c → shielded prot X) → cs_index X = cs_index c →
    let c' := with_io_error (Some x) X in
    hh = hash_of b ∧ space_ok c' pending ∧ put_frame c c' ∧ (∀ prot, shielded prot c → shielded prot c') ∧
    (∀ k, k ≠ hh → bt_get k (cs_index c') = bt_get k (cs_index c)) ∧
    (cs_io_error c' = None → is_Some (bt_get hh (cs_index c'))) ∧
    (∀ e, bt_get hh (cs_index c) = Some e → cs_condemned c = [] → c' = c) ∧
    (bt_get hh (cs_index c) = None → ∀ e, bt_get hh (cs_index c') = Some e → slice (cd_current (cs_dev c')) (cs_chunk_off c + ie_off e) (ie_len e) = b)) as Hfail.
  { intros x X V1 F1 S1 Ei. cbv zeta. split; [done|]. split; [by destruct V1; split|]. split; [by destruct F1; split|]. split; [intros prot S; destruct (S1 prot S); by split|].
    cbn [with_io_error cs_index cs_io_error]. rewrite Ei. split; [done|]. split; [done|]. split; [by intros e Ee Ec; destruct (Hhit e)|]. intros En e Ee. congruence. }
  assert (length hh = 32%nat) as Hh by apply hash_length. assert (is_bytes hh) as Hhb by apply hash_bytes.
  cbv zeta. pose proof (frame_length b (cs_birth_gen c0) hh Hh) as Hfl. pose proof (frame_bytes b (cs_birth_gen c0) hh Hb Hhb) as Hfb.
  set (frame := encode_chunk_frame b (cs_birth_gen c0) hh) in *. pose proof (len_z_nonneg b) as Hlb.
  destruct (chunk_alloc (len_z frame) c0) as [[off|] c1] eqn:Ea.
  2: { assert (c1 = c0) as -> by (unfold chunk_alloc in Ea; destruct (first_fit _ _); [done|]; destruct (_ <=? _); congruence).
       intros [= <- <-]. by apply Hfail. }
  destruct (chunk_alloc_spec c0 pending (len_z frame) off c1 V0 ltac:(unfold CHUNK_HEADER in *; lia) Ea) as ((f & t & ->) & Hs & Ht & Ap & Wi & Hsh). cbn [with_tail with_free cs_free cs_tail] in Hs, Ht, Ap, Wi.
  set (c1 := with_tail t (with_free f c0)) in *. apply Forall_cons in Wi as [Wo Wi]. destruct Ap as [Ap1 Ap2]. unfold within in Wo. cbn [fst snd] in Wo.
  assert (space_ok c1 pending) as V1. { destruct V0; split; cbn; try done. unfold region_len in *. cbn in *. lia. }
  destruct (crash_write (cs_chunk_off c1 + off) frame (cs_dev c1)) as [r d'] eqn:Ew.
  assert (dev_write (cs_chunk_off c1 + off) frame (cs_dev c1) = (r, d')) as -> by done.
  destruct (extent_write c1 pending off frame r d' V1) as (V2 & Ed & Sh2 & Hsame & Hr); [done|lia|by apply Forall_app in Ap1 as [? _]|done|].
  assert (∀ prot, shielded prot c → shielded prot (with_dev d' c1)) as S2.
  { intros prot S. destruct (Hsh prot (S0 prot S)) as [S1 S1']. by apply Sh2. }
  assert (put_frame c (with_dev d' c1)) as F2 by (split; [done|done|done|done|exact Ed|exact (proj1 Ht)]).
  destruct r; intros [= <- <-].
  2: { by apply Hfail. }
  set (e := MkIndexEntry _ _ _). change (cs_index c1) with (cs_index c) in *. change (cs_chunk_off c1) with (cs_chunk_off c) in *.
  destruct (index_insert_perm (cs_index c) hh e (sp_index _ _ V)) as (rest & HP1 & old & HP2).
  assert (len_z b < 2 ^ 32) as Hsmall.
  { pose proof (dk_small _ (sp_dev _ _ V)). unfold region_len in *. cbn in *. pose proof (sp_off _ _ V). unfold WAL_OFF, CHUNK_HEADER in *. lia. }
  assert (as_u32 (len_z b) = len_z b) as Eu by (unfold as_u32; apply Z.mod_small; lia).
  assert (frame_of e = (off, len_z frame)) as Efr. { unfold frame_of, e. cbn [ie_off ie_len]. rewrite Eu, Hfl. f_equal; lia. }
  assert (Forall (disjoint_ext (off, len_z frame)) (rest ++ f ++ pending) ∧ apart (rest ++ f ++ pending) ∧ Forall (within t) (rest ++ f ++ pending)) as (A1 & A2 & A3).
  { assert (extents (cs_index c) f pending ≡ₚ old ++ (rest ++ f ++ pending)) as HPe by (unfold extents; rewrite HP2; solve_Permutation).
    change (cs_index c0) with (cs_index c) in *. rewrite HPe in Ap1, Wi. apply (apart_perm _ _ HPe) in Ap2. apply Forall_app in Ap1 as [_ ?]. apply Forall_app in Wi as [_ ?]. apply apart_sub in Ap2. done. }
  assert (extents (bt_insert hh e (cs_index c)) f pending ≡ₚ (off, len_z frame) :: (rest ++ f ++ pending)) as HPn by (unfold extents; rewrite HP1, Efr; done).
  pose proof (frame_data _ (cs_chunk_off c + off) _ _ _ Hh ltac:(pose proof (sp_off _ _ V); unfold WAL_OFF in *; lia) Hr) as Hdata. pose proof (sp_off _ _ V) as Hoff.
  replace (cs_chunk_off c + off + CHUNK_HEADER) with (cs_chunk_off c + ie_off e) in Hdata by (cbn; lia).
  assert (ie_len e = len_z b) as El by (cbn; done).
  split_and!; try done.
  - destruct V2; split; cbn [with_index with_dev cs_dev cs_chunk_off cs_tail cs_birth_gen cs_index cs_free]; try done.
    + by apply bt_insert_sorted.
    + change (cs_free c1) with f. apply (apart_perm ((off, len_z frame) :: (rest ++ f ++ pending))); [by rewrite HPn|]. by split.
    + change (cs_free c1) with f. change (cs_tail c1) with t. rewrite HPn. by constructor.
    + intros k x Hin. apply bt_insert_elem in Hin as [[-> ->]|[_ Hin]]; [|by apply sp_entry0|done]. split; [done|]. unfold entry_fits. rewrite El. split; [lia|]. apply (sp_birth _ _ V).
    + intros k x Hin. apply bt_insert_elem in Hin as [[-> ->]|[_ Hin]]; [|by apply sp_object0|done]. unfold object_in. rewrite El. exact (f_equal hash_of Hdata).
  - destruct F2. by split.
  - intros prot S. destruct (S2 prot S). by split.
  - intros k Hk. cbn. rewrite get_insert by apply V. by rewrite decide_False.
  - intros _. cbn. rewrite get_insert by apply V. rewrite decide_True by done. eauto.
  - by intros x Ee Ec; destruct (Hhit x).
  - intros _ x Ex. cbn in Ex. rewrite get_insert in Ex by apply V. rewrite decide_True in Ex by done. injection Ex as <-. cbn [with_index with_dev cs_dev]. by rewrite El.
Qed.

(** ** The index frame *)

(** Placing the frame is an allocation. *)
Lemma write_index_frame_alloc c :
  let need := CHUNK_HEADER + index_payload_len (Z.of_nat (length (cs_index c))) (Z.of_nat (length (cs_free c)) + Z.of_nat (length (cs_pending_free c)) + 1) in
  write_index_frame hash_of c =
    match chunk_alloc need c with
    | (None, c) => Ret (Err NoSpace, c)
    | (Some off, c) =>
        let new_free := merged_free c in
        let body := index_payload_len (Z.of_nat (length (cs_index c))) (Z.of_nat (length new_free)) in
        if need - CHUNK_HEADER <? body then Panic
        else
          let payload := encode_index (cs_index c) new_free (Z.to_nat (need - CHUNK_HEADER - body)) in
          let '(r, d) := crash_write (cs_chunk_off c + off) (encode_chunk_frame payload (cs_birth_gen c) (hash_of payload)) (cs_dev c) in
          match r with
          | Err e => Ret (Err (EIo e), with_dev d c)
          | Ok _ => Ret (Ok ((off, need), new_free), with_dev d c)
          end
    end.
Proof using Type.
  cbv zeta. unfold write_index_frame, chunk_alloc. cbv zeta. set (need := CHUNK_HEADER + _). destruct (first_fit need (cs_free c)) as [x|]; [done|].
  rewrite Z.leb_antisym. by destruct (region_len c <? cs_tail c + need).
Qed.

Lemma index_bytes index free pad : Forall (λ x : Hash * IndexEntry, is_bytes x.1) index → is_bytes (encode_index index free pad).
Proof using Type.
  intros Hi. unfold encode_index. repeat (apply is_bytes_app; split); try apply le_bytes_bytes.
  - unfold INDEX_MAGIC, is_bytes, is_byte. repeat constructor; lia.
  - apply Forall_concat, Forall_fmap. eapply Forall_impl; [exact Hi|]. intros [h e] Hh. cbn beta in *. unfold encode_index_entry. cbn [fst snd] in *. repeat (apply is_bytes_app; split); try done; apply le_bytes_bytes.
  - apply Forall_concat, Forall_fmap, Forall_true. intros [o l]. cbn beta. unfold encode_extent. apply is_bytes_app; split; apply le_bytes_bytes.
  - apply Forall_replicate. unfold is_byte. lia.
Qed.

(** Where the frame of a commit sits and what is in it. *)
Record frame_written c (pending : list (Z * Z)) (off need : Z) (new_free : btree Z Z) c' : Prop := {
  fw_space : space_ok c' pending;
  fw_frame : put_frame c c';
  fw_index : cs_index c' = cs_index c;
  fw_same h e : (h, e) ∈ cs_index c → slice (cd_current (cs_dev c')) (cs_chunk_off c + ie_off e) (ie_len e) = slice (cd_current (cs_dev c)) (cs_chunk_off c + ie_off e) (ie_len e);
  fw_error : cs_io_error c' = cs_io_error c ∧ cs_condemned c' = cs_condemned c;
  fw_new_free : new_free = merge_of (cs_free c' ++ pending);
  fw_place : within (cs_tail c') (off, need) ∧ Forall (disjoint_ext (off, need)) (extents (cs_index c) (cs_free c') pending);
  fw_shield prot : shielded prot c → shielded prot c' ∧ ∀ p, p ∈ prot → disjoint_ext p (off, need);
  fw_payload : ∃ pad, let payload := encode_index (cs_index c) new_free pad in
    index_valid (cs_index c) new_free pad ∧ need = CHUNK_HEADER + len_z payload ∧ need < 2 ^ 32 ∧ is_bytes payload ∧
    slice (cd_current (cs_dev c')) (cs_chunk_off c + off) need = encode_chunk_frame payload (cs_birth_gen c) (hash_of payload);
}.

Lemma write_index_frame_spec c :
  space_ok c (cs_pending_free c) → Forall (λ x : Hash * IndexEntry, is_bytes x.1) (cs_index c) →
  ∃ r c', write_index_frame hash_of c = Ret (r, c') ∧
  match r with
  | Ok (x, new_free) => frame_written c (cs_pending_free c) x.1 x.2 new_free c'
  | Err _ => space_ok c' (cs_pending_free c) ∧ put_frame c c' ∧ cs_index c' = cs_index c ∧ (cs_io_error c' = cs_io_error c ∧ cs_condemned c' = cs_condemned c) ∧
             ∀ prot, shielded prot c → shielded prot c'
  end.
Proof using HashLaws0.
  intros V Hib. rewrite write_index_frame_alloc. cbv zeta. set (pending := cs_pending_free c) in *. set (need := CHUNK_HEADER + _).
  assert (0 < need) as Hneed by (unfold need, index_payload_len, CHUNK_HEADER; lia).
  destruct (chunk_alloc need c) as [[off|] c1] eqn:Ea.
  2: { assert (c1 = c) as -> by (unfold chunk_alloc in Ea; destruct (first_fit _ _); [done|]; destruct (_ <=? _); congruence).
       eexists _, _. split; [reflexivity|]. cbv beta. split_and!; try done. }
  destruct (chunk_alloc_spec c pending need off c1 V Hneed Ea) as ((f & t & ->) & Hs & Ht & Ap & Wi & Hsh). cbn [with_tail with_free cs_free cs_tail] in Hs, Ht, Ap, Wi.
  set (c1 := with_tail t (with_free f c)) in *. apply Forall_cons in Wi as [Wo Wi]. destruct Ap as [Ap1 Ap2].
  change (cs_index c1) with (cs_index c). change (merged_free c1) with (merge_of (f ++ pending)). change (cs_chunk_off c1) with (cs_chunk_off c). change (cs_birth_gen c1) with (cs_birth_gen c).
  assert (apart (f ++ pending) ∧ Forall (within t) (f ++ pending)) as [Ap3 Wi3] by (unfold extents in *; apply Forall_app in Wi as [_ ?]; by apply apart_sub in Ap2).
  destruct (merge_spec t (f ++ pending) Ap3 Wi3) as (Ms & Ma & Mw & Ml & Mo). set (new_free := merge_of (f ++ pending)) in *.
  assert (length f ≤ length (cs_free c) + 1)%nat as Hlf.
  { unfold chunk_alloc in Ea. destruct (first_fit need (cs_free c)) as [x|] eqn:Ef.
    - pose proof (f_equal (λ x, cs_free x.2) Ea) as E. cbn in E. rewrite <-E. unfold carve_extent. apply first_fit_Some in Ef as [Hx _]. destruct x as [o n].
      pose proof (Permutation_length (bt_remove_perm _ _ _ (sp_free _ _ V) Hx)) as Hl. cbn [length fst] in *. destruct (_ <? _); [|lia].
      assert (∀ m : btree Z Z, (length (bt_insert (o + need)%Z (n - need)%Z m) ≤ S (length m))%nat) as Hil. { intros m. induction m as [|[a b] m IH]; cbn; [lia|]. destruct (Z.compare _ _); cbn; lia. }
      cbn [snd]. specialize (Hil (bt_remove o (cs_free c))). lia.
    - destruct (_ <=? _); [|done]. pose proof (f_equal (λ x, cs_free x.2) Ea) as E. cbn in E. rewrite <-E. lia. }
  rewrite length_app in Ml. set (n_entries := Z.of_nat (length (cs_index c))) in *. set (body := index_payload_len n_entries (Z.of_nat (length new_free))).
  assert (body ≤ need - CHUNK_HEADER) as Hbody by (unfold body, need, index_payload_len, pending in *; lia). destruct (Z.ltb_spec (need - CHUNK_HEADER) body) as [|_]; [lia|].
  set (pad := Z.to_nat _). set (payload := encode_index (cs_index c) new_free pad).
  assert (t < 2 ^ 32) as Ht32. { pose proof (dk_small _ (sp_dev _ _ V)). pose proof (sp_off _ _ V). unfold region_len in *. cbn in *. unfold WAL_OFF in *. lia. }
  unfold within in Wo. cbn [fst snd] in Wo. assert (∀ z, 0 ≤ z < 2 ^ 32 → fits_in 8 z) as F8 by (intros z; unfold fits_in; change (256 ^ Z.of_nat 8) with (2 ^ 64); lia).
  assert (index_valid (cs_index c) new_free pad) as Vi.
  { split; [apply V|done| | |].
    - intros h e Hin. destruct (sp_entry _ _ V h e Hin) as [H1 [H2 H3]]. split_and!; [done| | |done].
      + pose proof (sp_within _ _ V) as W. apply Forall_app in W as [W _]. rewrite Forall_forall in W. specialize (W _ (frame_slot _ _ _ Hin)). unfold within, frame_of in W. cbn in W. apply F8. unfold CHUNK_HEADER in W. pose proof (sp_tail _ _ V). cbn in *. lia.
      + unfold fits_in. change (256 ^ Z.of_nat 4) with (2 ^ 32). lia.
    - intros o l Hin. rewrite Forall_forall in Mw. specialize (Mw _ Hin). unfold within in Mw. cbn in Mw. split; apply F8; lia.
    - split_and!; [apply F8|apply F8|]; unfold n_entries, body, need, index_payload_len, pad, CHUNK_HEADER, fits_in in *; cbn in *; lia. }
  pose proof (encode_index_length _ _ _ Vi) as Hpl. fold n_entries body payload in Hpl.
  assert (len_z payload = need - CHUNK_HEADER) as Elp by (unfold len_z; rewrite Hpl; unfold pad; lia).
  pose proof (index_bytes (cs_index c) new_free pad Hib) as Hpb. fold payload in Hpb.
  pose proof (frame_length payload (cs_birth_gen c) (hash_of payload) ltac:(apply hash_length)) as Hfl.
  pose proof (frame_bytes payload (cs_birth_gen c) (hash_of payload) Hpb ltac:(apply hash_bytes)) as Hfb. set (frame := encode_chunk_frame payload _ _) in *.
  assert (len_z frame = need) as Efn by lia.
  assert (space_ok c1 pending) as V1. { destruct V; split; cbn; try done. unfold region_len in *. cbn in *. lia. }
  destruct (crash_write (cs_chunk_off c + off) frame (cs_dev c1)) as [r d'] eqn:Ew. rewrite <-Efn in Ap1.
  destruct (extent_write c1 pending off frame r d' V1) as (V2 & Ed & Sh2 & Hsame & Hr); [done|lia|by apply Forall_app in Ap1 as [? _]|done|].
  assert (put_frame c (with_dev d' c1)) as F2 by (split; [done|done|done|done|exact Ed|exact (proj1 Ht)]).
  assert (∀ prot, shielded prot c → shielded prot (with_dev d' c1)) as S2.
  { intros prot S. destruct (Hsh prot S) as [S1 S1']. apply Sh2; [done|]. intros p Hp. rewrite Efn. by apply S1'. }
  destruct r; (eexists _, _; split; [reflexivity|]); cbv beta iota; [|split_and!; done]. cbn [fst snd]. rewrite Efn in Ap1, Hr.
  split; try done.
  - intros prot S. split; [by apply S2|]. apply Hsh, S.
  - exists pad. cbv zeta. fold payload. split_and!; [done|lia|lia|done|exact Hr].
Qed.
End store.
