(* ===== verification/ProllyTree.v ===== *)
(** Prolly trees in a store: what a save writes, that a load reads it back, and that both
    are total ([Dir::save], [Dir::load] and [diff] of [cas/src/prolly.rs]). *)

From S2P Require Import Prelude Bytes BTree Prolly.

(** * Saving and loading *)

(** What a content-addressed store promises: an object is filed under its hash, the
    first one under a hash stays, nothing else changes. *)
Class StoreLaws (hash_of : list Z → Hash) (S : Type) `{NodeStore S} (store_ok : S → Prop) : Prop := {
  put_hash b s : (put b s).1 = hash_of b;
  put_ok b s : store_ok s → store_ok (put b s).2;
  put_get b s h : store_ok s → get (put b s).2 h = if decide (h = hash_of b) then Some (default b (get s h)) else get s h;
}.

Section saving.
Context (hash_of : list Z → Hash) `{!HashLaws hash_of}.

(** ** What a save writes *)

Definition first_key {A : Type} (b : list (list Z * A)) : list Z := match b with [] => [] | x :: _ => x.1 end.

(** The nodes of a level: first key and bytes. *)
Definition level_nodes (level : Z) (items : list (list Z * list Z)) : list (list Z * list Z) :=
  (λ b, (first_key b, encode_node level b.*2)) <$> blocks 0 (split_points (boundary_flags hash_of items.*2)) items.

(** The items the nodes of a level are to the level above. *)
Definition items_above (nodes : list (list Z * list Z)) : list (list Z * list Z) :=
  (λ x, (x.1, encode_internal_item x.1 (hash_of x.2))) <$> nodes.

Fixpoint plan_up (fuel : nat) (level : Z) (nodes : list (list Z * list Z)) : outcome (Hash * list (list Z)) :=
  if decide (1 < length nodes)%nat then
    match fuel with
    | O => NoFuel
    | S fuel' =>
        if decide (level + 1 ≤ U8_MAX) then
          let nodes' := level_nodes (level + 1) (items_above nodes) in
          match plan_up fuel' (level + 1) nodes' with
          | Ret (h, bs) => Ret (h, nodes'.*2 ++ bs)
          | Panic => Panic
          | NoFuel => NoFuel
          end
        else Panic
    end
  else match nodes with [] => Panic | x :: _ => Ret (hash_of x.2, []) end.

Definition dir_items (d : Dir) : list (list Z * list Z) := (λ x : list Z * Entry, (e_name x.2, encode_entry x.2)) <$> d.

(** The root hash of a directory and the objects written for it, in order: a function of
    its contents alone. *)
Definition save_plan (d : Dir) : outcome (Hash * list (list Z)) :=
  match d with
  | [] => Ret (hash_of ([0] ++ u32_le 0), [[0] ++ u32_le 0])
  | _ =>
      let nodes := level_nodes 0 (dir_items d) in
      match plan_up 256 0 nodes with
      | Ret (h, bs) => Ret (h, nodes.*2 ++ bs)
      | Panic => Panic
      | NoFuel => NoFuel
      end
  end.

Section against_store.
Context {S : Type} `{NodeStore S} (store_ok : S → Prop) `{!StoreLaws hash_of S store_ok}.

Definition put_all (bs : list (list Z)) (s : S) : S := foldl (λ s b, (put b s).2) s bs.

Lemma put_eq b s : put b s = (hash_of b, (put b s).2).
Proof using StoreLaws0. rewrite (surjective_pairing (put b s)) at 1. by rewrite put_hash. Qed.

Lemma bind_put {B : Type} b (f : Hash → comp S B) s : ((λ s, Ret (put b s)) ≫= f) s = f (hash_of b) (put b s).2.
Proof using StoreLaws0. unfold mbind, comp_bind. by rewrite put_eq. Qed.

Definition block_node (level : Z) (b : list (list Z * list Z)) : list Z * list Z := (first_key b, encode_node level b.*2).

Lemma emit_nodes_spec level items flags start ends s :
  partition_of flags start ends → length flags = length items →
  emit_nodes level items.*1 items.*2 start ends s =
    let out := block_node level <$> blocks start ends items in Ret ((λ x, (x.1, hash_of x.2)) <$> out, put_all out.*2 s).
Proof using StoreLaws0.
  revert start s. induction ends as [|e ends IH]; intros start s HP Hl; [done|]. cbn [partition_of] in HP. destruct HP as ([H1 H2] & _ & _ & _ & HP).
  cbn [emit_nodes]. rewrite bind_put. destruct (lookup_lt_is_Some_2 items start) as [x Hx]; [lia|].
  unfold mbind, comp_bind at 1. unfold index. rewrite list_lookup_fmap, Hx. cbn [fmap option_fmap option_map mret comp_ret].
  cbv zeta in IH. unfold comp_bind. rewrite (IH e) by done. cbn [mret comp_ret blocks fmap list_fmap]. rewrite <-fmap_drop, <-fmap_take.
  assert (block_node level (take (e - start) (drop start items)) = (x.1, encode_node level (take (e - start) (drop start items)).*2)) as ->; [|done].
  unfold block_node. f_equal. rewrite (drop_S _ _ _ Hx). by destruct (e - start)%nat as [|m] eqn:E; [lia|].
Qed.

Lemma build_level_spec level items s :
  build_level hash_of level items.*1 items.*2 s =
    Ret ((λ x, (x.1, hash_of x.2)) <$> level_nodes level items, put_all (level_nodes level items).*2 s).
Proof using StoreLaws0.
  destruct items as [|x items]; [done|]. set (l := x :: items). change (build_level hash_of level l.*1 l.*2) with (emit_nodes level l.*1 l.*2 0 (split_points (boundary_flags hash_of l.*2))).
  rewrite (emit_nodes_spec level l (boundary_flags hash_of l.*2)); [done|apply split_points_spec|]. unfold boundary_flags. by rewrite !length_fmap.
Qed.

Lemma save_levels_spec fuel level nodes s :
  save_levels hash_of fuel level ((λ x, (x.1, hash_of x.2)) <$> nodes) s =
    match plan_up fuel level nodes with Ret (h, bs) => Ret (h, put_all bs s) | Panic => Panic | NoFuel => NoFuel end.
Proof using StoreLaws0.
  revert level nodes s. induction fuel as [|fuel IH]; intros level nodes s; cbn [save_levels plan_up]; rewrite length_fmap; (case_decide as Hd; [|by destruct nodes]); [done|].
  unfold mbind, comp_bind at 1. unfold uadd. destruct (decide (level + 1 ≤ U8_MAX)) as [Hl|Hl]; [|done]. cbn [mret comp_ret].
  assert (((λ x : list Z * list Z, (x.1, hash_of x.2)) <$> nodes).*1 = (items_above nodes).*1) as E1 by (unfold items_above; by rewrite <-!list_fmap_compose).
  assert (((λ x : list Z * list Z, encode_internal_item x.1 x.2) <$> ((λ x : list Z * list Z, (x.1, hash_of x.2)) <$> nodes)) = (items_above nodes).*2) as E2 by (unfold items_above; by rewrite <-!list_fmap_compose).
  unfold mbind, comp_bind at 1. rewrite E1, E2, build_level_spec, IH. destruct (plan_up fuel (level + 1) _) as [[h bs]| |]; [|done|done].
  unfold put_all. by rewrite foldl_app.
Qed.

(** The store only receives what the contents dictate. *)
Lemma save_spec d s : save hash_of d s = match save_plan d with Ret (h, bs) => Ret (h, put_all bs s) | Panic => Panic | NoFuel => NoFuel end.
Proof using StoreLaws0.
  destruct d as [|x d]; [exact (f_equal Ret (put_eq _ _))|]. set (l := x :: d). change (save hash_of l) with
    (nodes ← build_level hash_of 0 ((λ x : list Z * Entry, e_name x.2) <$> l) ((λ x : list Z * Entry, encode_entry x.2) <$> l); save_levels hash_of 256 0 nodes).
  change (save_plan l) with (match plan_up 256 0 (level_nodes 0 (dir_items l)) with Ret (h, bs) => Ret (h, (level_nodes 0 (dir_items l)).*2 ++ bs) | Panic => Panic | NoFuel => NoFuel end).
  assert ((λ x : list Z * Entry, e_name x.2) <$> l = (dir_items l).*1) as -> by (unfold dir_items; by rewrite <-list_fmap_compose).
  assert ((λ x : list Z * Entry, encode_entry x.2) <$> l = (dir_items l).*2) as -> by (unfold dir_items; by rewrite <-list_fmap_compose).
  clearbody l. unfold mbind, comp_bind. rewrite build_level_spec, save_levels_spec. destruct (plan_up 256 0 _) as [[h bs]| |]; [|done|done]. unfold put_all. by rewrite foldl_app.
Qed.

(** ** Objects that do not clash *)

Definition no_clash (objs : list Z → Prop) : Prop := ∀ a b, objs a → objs b → hash_of a = hash_of b → a = b.
(** Objects filed under their hash. *)
Definition addressed (s : S) : Prop := ∀ h b, get s h = Some b → hash_of b = h.
Definition stored (s : S) (b : list Z) : Prop := ∃ h, get s h = Some b.

Lemma put_all_keeps bs s h b : store_ok s → get s h = Some b → get (put_all bs s) h = Some b.
Proof using StoreLaws0.
  revert s. induction bs as [|c bs IH]; intros s Ho Hg; [done|]. apply IH; [by apply put_ok|]. rewrite put_get by done. case_decide; [|done]. by rewrite Hg.
Qed.

Lemma put_all_get bs s :
  store_ok s → addressed s → no_clash (λ b, stored s b ∨ b ∈ bs) → ∀ b, b ∈ bs → get (put_all bs s) (hash_of b) = Some b.
Proof using StoreLaws0.
  revert s. induction bs as [|c bs IH]; intros s Ho Ha Hc b; [by intros ?%elem_of_nil|].
  assert (get (put c s).2 (hash_of c) = Some c) as Hput.
  { rewrite (put_get (store_ok := store_ok)), decide_True by done. destruct (get s (hash_of c)) as [x|] eqn:E; [|done]. cbn. f_equal. apply Hc; [left; by eexists|right; by left|]. by apply Ha. }
  change (put_all (c :: bs) s) with (put_all bs (put c s).2). intros [->|Hin]%elem_of_cons; [apply put_all_keeps; [by apply put_ok|done]|]. apply IH; [by apply put_ok| | |done].
  - intros h x. rewrite (put_get (store_ok := store_ok)) by done. case_decide as Eh; [|apply Ha]. subst h. rewrite (put_get (store_ok := store_ok)), decide_True in Hput by done. rewrite Hput. by intros [= <-].
  - assert (∀ x, stored (put c s).2 x ∨ x ∈ bs → stored s x ∨ x ∈ c :: bs) as Hsub.
    { intros x [[h Hh]|Hx]; [|right; by right]. rewrite (put_get (store_ok := store_ok)) in Hh by done. case_decide as Eh; [|left; by eexists]. subst h.
      rewrite (put_get (store_ok := store_ok)), decide_True in Hput by done. rewrite Hput in Hh. injection Hh as <-. right. by left. }
    intros x y Hx%Hsub Hy%Hsub. by apply Hc.
Qed.

(** ** Trees in a store *)

Definition entry_key (es : list Entry) : list Z := match es with [] => [] | e :: _ => e_name e end.

(** The subtree of level [lv] under [h] holds the entries [es]. *)
Fixpoint holds (s : S) (lv : nat) (h : Hash) (es : list Entry) : Prop :=
  match lv with
  | O => get s h = Some (encode_node 0 (encode_entry <$> es)) ∧ (1 ≤ length es ≤ MAX_NODE_ENTRIES)%nat ∧ Forall entry_ok es
  | Datatypes.S l => ∃ cs : list (Hash * list Entry),
      (1 ≤ length cs ≤ MAX_NODE_ENTRIES)%nat ∧ es = concat cs.*2 ∧
      get s h = Some (encode_node (Z.of_nat lv) ((λ c, encode_internal_item (entry_key c.2) c.1) <$> cs)) ∧
      ∀ c, c ∈ cs → length c.1 = 32%nat ∧ holds s l c.1 c.2
  end.

Lemma holds_head s lv h es : holds s lv h es → ∃ e es', es = e :: es' ∧ entry_ok e.
Proof using Type.
  revert h es. induction lv as [|lv IH]; intros h es; cbn.
  - intros (_ & Hl & HF). destruct es as [|e es]; [cbn in Hl; lia|]. inversion HF; subst. by exists e, es.
  - intros (cs & Hl & -> & _ & Hc). destruct cs as [|c cs]; [cbn in Hl; lia|]. destruct (Hc c) as [_ H1]; [by left|]. apply IH in H1 as (e & es' & E & Hok).
    exists e, (es' ++ concat cs.*2). split; [|done]. destruct c as [ch ce]. cbn in E. by subst ce.
Qed.

Lemma push_entries_ok es out : Forall entry_ok es → push_entries (entry_to_raw <$> es) out = Ok (out ++ es).
Proof using Type.
  intros HF. revert out. induction HF as [|e es Hok _ IH]; intros out; cbn; [by rewrite app_nil_r|]. rewrite entry_raw_entry. destruct Hok as [-> _]. by rewrite IH, <-app_assoc.
Qed.

Lemma leaf_decodes es : Forall entry_ok es → (length es ≤ MAX_NODE_ENTRIES)%nat → decode_node (encode_node 0 (encode_entry <$> es)) = Ok (0, Leaf (entry_to_raw <$> es)).
Proof using Type.
  intros HF Hl. rewrite <-(node_decode_encode 0 (Leaf (entry_to_raw <$> es))).
  - cbn [body_items]. by rewrite <-list_fmap_compose.
  - split_and!; [done|cbn; by rewrite !length_fmap|done|]. apply Forall_fmap. eapply Forall_impl; [exact HF|]. apply entry_ok_raw.
Qed.

Lemma key_length e : entry_ok e → (length (e_name e) < 256)%nat.
Proof using Type. intros [V _]. pose proof (validate_name_length _ (validate_entry_name _ V)). lia. Qed.

Lemma inner_decodes s lv (cs : list (Hash * list Entry)) :
  (lv < 255)%nat → (length cs ≤ MAX_NODE_ENTRIES)%nat → (∀ c, c ∈ cs → length c.1 = 32%nat ∧ holds s lv c.1 c.2) →
  decode_node (encode_node (Z.of_nat (Datatypes.S lv)) ((λ c, encode_internal_item (entry_key c.2) c.1) <$> cs)) =
    Ok (Z.of_nat (Datatypes.S lv), Internal ((λ c : Hash * list Entry, MkChild (entry_key c.2) c.1) <$> cs)).
Proof using Type.
  intros Hlv Hl Hc. rewrite <-(node_decode_encode _ (Internal ((λ c : Hash * list Entry, MkChild (entry_key c.2) c.1) <$> cs))).
  - cbn [body_items]. by rewrite <-list_fmap_compose.
  - split_and!; [apply fits_1; lia|cbn; by rewrite !length_fmap|lia|]. apply Forall_fmap, Forall_forall. intros c [H1 H2]%Hc. split; [|done]. cbn.
    destruct c as [ch ce]. destruct (holds_head _ _ _ _ H2) as (e & es' & E & Hok). cbn in E. subst ce. by apply key_length.
Qed.

Lemma load_children_ok s lv ld (cs : list (Hash * list Entry)) out :
  (∀ c out, c ∈ cs → ld c.1 out = Some (Ok (out ++ c.2))) → (∀ c, c ∈ cs → holds s lv c.1 c.2) →
  load_children ld ((λ c : Hash * list Entry, MkChild (entry_key c.2) c.1) <$> cs) out = Some (Ok (out ++ concat cs.*2)).
Proof using Type.
  revert out. induction cs as [|[ch ce] cs IH]; intros out Hl Hh; [cbn; by rewrite app_nil_r|].
  destruct (holds_head _ _ _ _ (Hh (ch, ce) ltac:(by left))) as (e & es' & E & _). cbn [snd] in E. pose proof (Hl (ch, ce) out ltac:(by left)) as H1. cbn [fst snd] in H1.
  cbn. rewrite H1, E, list_lookup_middle by done. cbn. rewrite decide_True by done. rewrite IH; [by rewrite <-app_assoc|..]; intros; [apply Hl|apply Hh]; by right.
Qed.

Lemma load_node_ok s lv h es fuel exp out :
  holds s lv h es → (lv < fuel)%nat → (lv ≤ 255)%nat → exp = None ∨ exp = Some (Z.of_nat lv) → load_node fuel s exp h out = Some (Ok (out ++ es)).
Proof using Type.
  revert lv h es exp out. induction fuel as [|fuel IH]; intros lv h es exp out Hh Hf Hlv Hexp; [lia|]. cbn [load_node].
  assert (match exp with Some expect => negb (Z.of_nat lv =? expect) | None => false end = false) as Hex by (destruct Hexp as [-> | ->]; [done|by rewrite Z.eqb_refl]).
  destruct lv as [|lv]; cbn [holds] in Hh.
  - destruct Hh as (-> & Hl & HF). rewrite leaf_decodes by (done || lia). change (Z.of_nat 0) with 0 in Hex. rewrite Hex.
    rewrite bool_decide_eq_false_2; [|destruct es; [cbn in Hl; lia|done]]. cbn [andb]. by rewrite push_entries_ok.
  - destruct Hh as (cs & Hl & -> & -> & Hc). rewrite (inner_decodes s) by (done || lia). rewrite Hex. destruct cs as [|c0 cs0] eqn:Ecs; [cbn in Hl; lia|]. rewrite <-Ecs in *.
    assert (∃ x l, (λ c : Hash * list Entry, MkChild (entry_key c.2) c.1) <$> cs = x :: l) as (x & l & El) by (rewrite Ecs; by eexists _, _). rewrite El. rewrite <-El.
    apply (load_children_ok s lv); [|by intros c []%Hc]. intros c out' []%Hc. apply (IH lv); [done|lia|lia|]. right. f_equal. lia.
Qed.

(** ** What a save writes is such a tree *)

(** The nodes of a level with the entries under each. *)
Definition nodes_of (cs : list (list Z * list Entry)) : list (list Z * list Z) := (λ c, (entry_key c.2, c.1)) <$> cs.

Lemma elem_concat {A : Type} (x : A) ls : x ∈ concat ls ↔ ∃ l, l ∈ ls ∧ x ∈ l.
Proof using Type.
  induction ls as [|l ls IH]; cbn; [rewrite elem_of_nil; split; [done|by intros (l & ?%elem_of_nil & _)]|]. rewrite elem_of_app, IH. split.
  - intros [?|(k & ? & ?)]; [exists l|exists k]; (split; [|done]); [by left|by right].
  - intros (k & [->|?]%elem_of_cons & ?); [by left|right; by exists k].
Qed.

Lemma elem_blocks {A : Type} flags ends (l : list A) b x :
  partition_of flags 0 ends → length l = length flags → b ∈ blocks 0 ends l → x ∈ b → x ∈ l.
Proof using Type.
  intros HP Hl Hb Hx. assert (x ∈ concat (blocks 0 ends l)) as H1 by (apply elem_concat; by exists b). by rewrite (blocks_concat flags) in H1.
Qed.

Lemma holds_key s lv h es : holds s lv h es → ∃ e es', es = e :: es' ∧ entry_key es = e_name e.
Proof using Type. intros (e & es' & -> & _)%holds_head. by exists e, es'. Qed.

Lemma leaves_held s es :
  Forall entry_ok es →
  let nodes := level_nodes 0 ((λ e, (e_name e, encode_entry e)) <$> es) in
  (∀ b, b ∈ nodes.*2 → get s (hash_of b) = Some b) →
  ∃ cs, nodes = nodes_of cs ∧ concat cs.*2 = es ∧ ∀ c, c ∈ cs → holds s 0 (hash_of c.1) c.2.
Proof using Type.
  intros HF. unfold level_nodes. set (items := (λ e, (e_name e, encode_entry e)) <$> es). set (ends := split_points _).
  assert (partition_of (boundary_flags hash_of items.*2) 0 ends) as HP by apply split_points_spec.
  assert (length es = length (boundary_flags hash_of items.*2)) as Hl by (unfold boundary_flags, items; by rewrite !length_fmap). cbv zeta. intros Hs.
  set (cs := (λ b, (encode_node 0 (encode_entry <$> b), b)) <$> blocks 0 ends es). exists cs.
  assert ((λ b, (first_key b, encode_node 0 b.*2)) <$> blocks 0 ends items = nodes_of cs) as E.
  { unfold items, cs, nodes_of. rewrite blocks_fmap, <-!list_fmap_compose. apply list_fmap_ext. intros i b _. cbn. f_equal; [by destruct b|]. by rewrite <-list_fmap_compose. }
  split_and!; [done| |].
  - unfold cs. rewrite <-list_fmap_compose. cbn. rewrite list_fmap_id. by rewrite (blocks_concat _ 0 ends es HP Hl).
  - intros c Hc. pose proof Hc as (b & -> & Hb)%list_elem_of_fmap. cbn [fst snd holds]. split_and!.
    + apply Hs. rewrite E. unfold nodes_of. rewrite <-list_fmap_compose. apply list_elem_of_fmap. eexists. split; [|exact Hc]. done.
    + by apply (blocks_sizes _ _ _ _ _ HP Hl Hb).
    + by apply (blocks_sizes _ _ _ _ _ HP Hl Hb).
    + rewrite Forall_forall in *. intros e He. apply HF. by apply (elem_blocks _ _ _ b e HP Hl).
Qed.

Lemma level_held s lv cs :
  let nodes := level_nodes (Z.of_nat (Datatypes.S lv)) (items_above (nodes_of cs)) in
  (∀ c, c ∈ cs → holds s lv (hash_of c.1) c.2) → (∀ b, b ∈ nodes.*2 → get s (hash_of b) = Some b) →
  ∃ cs', nodes = nodes_of cs' ∧ concat cs'.*2 = concat cs.*2 ∧ ∀ c, c ∈ cs' → holds s (Datatypes.S lv) (hash_of c.1) c.2.
Proof using HashLaws0.
  set (item := λ x : list Z * list Entry, (entry_key x.2, encode_internal_item (entry_key x.2) (hash_of x.1))).
  assert (items_above (nodes_of cs) = item <$> cs) as -> by (unfold items_above, nodes_of; by rewrite <-list_fmap_compose). unfold level_nodes. set (ends := split_points _).
  assert (partition_of (boundary_flags hash_of (item <$> cs).*2) 0 ends) as HP by apply split_points_spec.
  assert (length cs = length (boundary_flags hash_of (item <$> cs).*2)) as Hl by (unfold boundary_flags; by rewrite !length_fmap). cbv zeta. intros Hh Hs.
  set (node := λ b : list (list Z * list Entry), encode_node (Z.of_nat (Datatypes.S lv)) (item <$> b).*2).
  set (cs' := (λ b, (node b, concat b.*2)) <$> blocks 0 ends cs). exists cs'.
  assert ((λ b, (first_key b, encode_node (Z.of_nat (Datatypes.S lv)) b.*2)) <$> blocks 0 ends (item <$> cs) = nodes_of cs') as E.
  { unfold cs', nodes_of. rewrite blocks_fmap, <-!list_fmap_compose. apply list_fmap_ext. intros i b Hb%list_elem_of_lookup_2. cbn. f_equal.
    pose proof (blocks_sizes _ _ _ _ _ HP Hl Hb) as Hn. destruct b as [|[cb ce] b]; [cbn in Hn; lia|]. cbn.
    destruct (holds_key s lv (hash_of cb) ce) as (e & es' & -> & _); [|done]. apply (Hh (cb, ce)). apply (elem_blocks _ _ _ _ _ HP Hl Hb). by left. }
  split_and!; [exact E| |].
  - unfold cs'. rewrite <-list_fmap_compose. unfold compose. cbn [snd]. rewrite <-(drop_0 cs) at 2. rewrite <-(blocks_concat _ 0 ends cs HP Hl).
    generalize (blocks 0 ends cs). intros bs. induction bs as [|b bs IH]; cbn; [done|]. by rewrite IH, fmap_app, concat_app.
  - intros c Hc. pose proof Hc as (b & -> & Hb)%list_elem_of_fmap. cbn [fst snd holds]. exists ((λ x, (hash_of x.1, x.2)) <$> b). split_and!.
    + rewrite length_fmap. by apply (blocks_sizes _ _ _ _ _ HP Hl Hb).
    + rewrite length_fmap. by apply (blocks_sizes _ _ _ _ _ HP Hl Hb).
    + by rewrite <-list_fmap_compose.
    + rewrite <-list_fmap_compose. unfold compose. cbn [fst snd]. rewrite Hs; [unfold node; by rewrite <-list_fmap_compose|].
      rewrite E. unfold nodes_of. rewrite <-list_fmap_compose. apply list_elem_of_fmap. eexists. split; [|exact Hc]. done.
    + intros x (y & -> & Hy)%list_elem_of_fmap. cbn. split; [apply hash_length|]. apply Hh. by apply (elem_blocks _ _ _ b y HP Hl).
Qed.

Lemma plan_up_held s fuel lv cs h bs :
  plan_up fuel (Z.of_nat lv) (nodes_of cs) = Ret (h, bs) → (lv ≤ 255)%nat →
  (∀ c, c ∈ cs → holds s lv (hash_of c.1) c.2) → (∀ b, b ∈ bs → get s (hash_of b) = Some b) →
  ∃ lv', (lv' ≤ 255)%nat ∧ holds s lv' h (concat cs.*2).
Proof using HashLaws0.
  revert lv cs bs. induction fuel as [|fuel IH]; intros lv cs bs Hp Hlv Hh Hs; cbn [plan_up] in Hp; (case_decide as Hd; [|try clear IH]); try done.
  2: {
    destruct (decide (Z.of_nat lv + 1 ≤ U8_MAX)) as [Hm|]; [|done]. unfold U8_MAX in Hm. replace (Z.of_nat lv + 1) with (Z.of_nat (Datatypes.S lv)) in Hp by lia. cbv zeta in Hp.
    destruct (plan_up fuel _ _) as [[h' bs']| |] eqn:Eq; [|done|done]. injection Hp as -> <-.
    destruct (level_held s lv cs Hh) as (cs' & E & Ec & Hh'); [intros b Hb; apply Hs; apply elem_of_app; by left|]. rewrite E in Eq.
    rewrite <-Ec. apply (IH (Datatypes.S lv) cs' bs'); [done|lia|done|]. intros b Hb. apply Hs. apply elem_of_app. by right. }
  all: unfold nodes_of in Hp, Hd; rewrite length_fmap in Hd; destruct cs as [|c [|]]; cbn in Hp, Hd; try done; try lia; injection Hp as <- <-;
    exists lv; split; [done|]; cbn; rewrite app_nil_r; apply (Hh c); by left.
Qed.

(** ** Directories *)

Record dir_ok (d : Dir) : Prop := {
  do_sorted : bt_sorted d;
  do_entry n e : (n, e) ∈ d → n = e_name e ∧ entry_ok e;
}.

Lemma dir_of_entries d : dir_ok d → d = (λ e, (e_name e, e)) <$> d.*2.
Proof using Type.
  intros [_ He]. rewrite <-list_fmap_compose. rewrite <-(list_fmap_id d) at 1. apply list_fmap_ext. intros i [n e] Hi%list_elem_of_lookup_2. cbn. by destruct (He _ _ Hi) as [-> _].
Qed.
Lemma dir_items_entries d : dir_items d = (λ e, (e_name e, encode_entry e)) <$> d.*2.
Proof using Type. unfold dir_items. by rewrite <-list_fmap_compose. Qed.
Lemma dir_entries_ok d : dir_ok d → Forall entry_ok d.*2.
Proof using Type. intros [_ He]. apply Forall_fmap, Forall_forall. intros [n e] Hin. by apply (He n). Qed.

(** The loader's order check is the order of a map. *)
Lemma names_ascend_spec prev es :
  names_ascend prev es = true ↔ bt_sorted ((λ e, (e_name e, e)) <$> es) ∧ ∀ p e, prev = Some p → head es = Some e → lt p (e_name e).
Proof using Type.
  revert prev. induction es as [|e es IH]; intros prev; [split; [intros _; split; [done|]; intros; done|done]|]. cbn [names_ascend fmap list_fmap bt_sorted head].
  assert (names_ascend (Some (e_name e)) es = true ↔
    (∀ k v, (k, v) ∈ (λ e, (e_name e, e)) <$> es → lt (e_name e) k) ∧ bt_sorted ((λ e, (e_name e, e)) <$> es)) as IH'.
  { rewrite IH. destruct es as [|e2 es]; cbn; [split; intros; split; [by intros k v ?%elem_of_nil|done|done|by intros]|]. split.
    - intros [[H1 H2] H3]. assert (lt (e_name e) (e_name e2)) as Hlt by (by apply H3). split; [|done].
      intros k v [[= -> ->]|Hin]%elem_of_cons; [done|]. eapply lt_trans; [exact Hlt|]. by eapply H1.
    - intros [H1 H2]. split; [done|]. intros p x [= <-] [= <-]. eapply H1. by left. }
  destruct prev as [p|].
  - destruct (cmp p (e_name e)) eqn:Ec.
    + split; [done|]. intros [_ Hq]. specialize (Hq p e eq_refl eq_refl). unfold lt in Hq. congruence.
    + rewrite IH'. split; [|by intros [? _]]. intros Hs. split; [done|]. by intros q x [= <-] [= <-].
    + split; [done|]. intros [_ Hq]. specialize (Hq p e eq_refl eq_refl). unfold lt in Hq. congruence.
  - rewrite IH'. split; [|by intros [? _]]. intros Hs. by split.
Qed.

Lemma rebuild_entries es :
  bt_sorted ((λ e, (e_name e, e)) <$> es) → foldl (λ m e, bt_insert (e_name e) e m) [] es = (λ e, (e_name e, e)) <$> es.
Proof using Type.
  intros Hs. rewrite <-(app_nil_l (_ <$> es)). rewrite <-(bt_rebuild _ [] Hs). clear Hs. generalize (@nil (list Z * Entry)). induction es as [|e es IH]; intros acc; [done|]. apply IH.
Qed.

Lemma load_entries s h d : dir_ok d → load_node 257 s None h [] = Some (Ok d.*2) → load s h = Some (Ok d).
Proof using Type.
  intros V H1. unfold load. rewrite H1. assert (bt_sorted ((λ e, (e_name e, e)) <$> d.*2)) as Hs by (rewrite <-dir_of_entries by done; apply V).
  rewrite (proj2 (names_ascend_spec None d.*2)) by done. rewrite rebuild_entries by done. by rewrite <-dir_of_entries.
Qed.

Lemma saved_loads s d h bs :
  dir_ok d → save_plan d = Ret (h, bs) → (∀ b, b ∈ bs → get s (hash_of b) = Some b) → load s h = Some (Ok d).
Proof using HashLaws0.
  intros V Hp Hs. destruct d as [|x d'] eqn:Ed.
  - injection Hp as <- <-. unfold load. cbn [load_node]. rewrite Hs by (by left). done.
  - rewrite <-Ed in *. assert (save_plan d = match plan_up 256 0 (level_nodes 0 (dir_items d)) with Ret (h, bs) => Ret (h, (level_nodes 0 (dir_items d)).*2 ++ bs) | Panic => Panic | NoFuel => NoFuel end) as E by (by rewrite Ed).
    rewrite E in Hp. destruct (plan_up 256 0 _) as [[h' bs']| |] eqn:Eu; [|done|done]. injection Hp as -> <-. rewrite dir_items_entries in *.
    destruct (leaves_held s d.*2 (dir_entries_ok d V)) as (cs & En & Ec & Hh); [intros b Hb; apply Hs; apply elem_of_app; by left|]. rewrite En in Eu.
    destruct (plan_up_held s 256 0 cs h bs' Eu) as (lv & Hlv & HT); [lia|done|intros b Hb; apply Hs; apply elem_of_app; by right|].
    apply load_entries; [done|]. rewrite <-Ec. apply (load_node_ok s lv h _ 257 None []); [done|lia|done|by left].
Qed.

(** ** Loading is total, and gives well-formed directories *)

Definition bytes_stored (s : S) : Prop := ∀ h b, get s h = Some b → is_bytes b.

Definition pushed (out : list Entry) (x : option (result (list Entry) FormatError)) : Prop :=
  match x with None => False | Some (Err _) => True | Some (Ok out') => ∃ es, out' = out ++ es ∧ Forall entry_ok es end.

Lemma push_entries_pushed raws out : Forall raw_valid raws → pushed out (Some (push_entries raws out)).
Proof using Type.
  intros HF. revert out. induction HF as [|r raws Hv _ IH]; intros out; cbn; [exists []; by rewrite app_nil_r|].
  destruct (validate_entry (raw_to_entry r)) as [[]|] eqn:E; [|done]. specialize (IH (out ++ [raw_to_entry r])). cbn in IH. destruct (push_entries _ _); [|done].
  destruct IH as (es & -> & HF'). exists (raw_to_entry r :: es). split; [by rewrite <-app_assoc|]. constructor; [|done]. split; [done|].
  destruct Hv as [_ _ P1 P2 P3 P4]. constructor; cbn; try done. by destruct (r_content r).
Qed.

Lemma load_children_pushed ld cs out : (∀ c out, c ∈ cs → pushed out (ld (c_child c) out)) → pushed out (load_children ld cs out).
Proof using Type.
  revert out. induction cs as [|c cs IH]; intros out Hl; cbn; [exists []; by rewrite app_nil_r|]. pose proof (Hl c out ltac:(by left)) as H1.
  destruct (ld (c_child c) out) as [[out'|e]|]; [|done|done]. destruct H1 as (es & -> & HF). case_decide; [|done].
  specialize (IH (out ++ es) ltac:(intros; apply Hl; by right)). destruct (load_children _ _ _) as [[out2|e]|]; [|done|done].
  destruct IH as (es2 & -> & HF2). exists (es ++ es2). split; [by rewrite app_assoc|]. by apply Forall_app.
Qed.

Lemma load_node_total s fuel exp h out :
  bytes_stored s → match exp with None => (255 < fuel)%nat | Some l => 0 ≤ l < Z.of_nat fuel end → pushed out (load_node fuel s exp h out).
Proof using Type.
  intros Hb. revert exp h out. induction fuel as [|fuel IH]; intros exp h out Hf; [destruct exp; lia|]. cbn [load_node].
  destruct (get s h) as [b|] eqn:Eg; [|done]. destruct (decode_node b) as [[level body]|] eqn:Ed; [|done].
  destruct (node_encode_decode _ _ _ (Hb _ _ Eg) Ed) as [_ (Hl & _ & Hv)]. rewrite fits_1 in Hl. destruct (match exp with Some _ => _ | None => _ end) eqn:Ee; [done|].
  assert (level < Z.of_nat (Datatypes.S fuel)) as Hlf by (destruct exp as [l|]; [apply negb_false_iff, Z.eqb_eq in Ee; lia|lia]).
  destruct body as [raws|cs]; destruct Hv as [Hz Hv].
  - destruct (_ && _); [done|]. by apply push_entries_pushed.
  - destruct cs as [|c cs]; [done|]. apply load_children_pushed. intros c' out' _. apply IH. lia.
Qed.

Lemma load_total s h :
  bytes_stored s → match load s h with None => False | Some (Err _) => True | Some (Ok d) => dir_ok d end.
Proof using Type.
  intros Hb. unfold load. pose proof (load_node_total s 257 None h [] Hb ltac:(cbn; lia)) as Hp. destruct (load_node _ _ _ _ _) as [[es|e]|]; [|done|done].
  destruct Hp as (es' & E & HF). cbn in E. subst es'. destruct (names_ascend None es) eqn:Ea; [|done]. apply names_ascend_spec in Ea as [Hs _]. rewrite rebuild_entries by done.
  constructor; [done|]. intros n e (x & [= -> ->] & Hx)%list_elem_of_fmap. rewrite Forall_forall in HF. split; [done|by apply HF].
Qed.

(** ** Saving never runs out of levels silently *)

(** The nodes of level [k]. *)
Fixpoint level_at (k : nat) (d : Dir) : list (list Z * list Z) :=
  match k with O => level_nodes 0 (dir_items d) | Datatypes.S k' => level_nodes (Z.of_nat k) (items_above (level_at k' d)) end.

Lemma level_nodes_nonempty level items : items ≠ [] → level_nodes level items ≠ [].
Proof using Type.
  intros Hi E. unfold level_nodes in E. apply fmap_nil_inv in E. set (ends := split_points _) in E.
  assert (partition_of (boundary_flags hash_of items.*2) 0 ends) as HP by apply split_points_spec.
  pose proof (blocks_concat _ 0 ends items HP ltac:(unfold boundary_flags; by rewrite !length_fmap)) as Hc. rewrite E in Hc. cbn in Hc. by rewrite drop_0 in Hc.
Qed.

Lemma plan_up_total fuel k d :
  d ≠ [] → (k ≤ 255)%nat → (255 < k + fuel)%nat →
  match plan_up fuel (Z.of_nat k) (level_at k d) with
  | Ret _ => ∃ j, (k ≤ j ≤ 255)%nat ∧ length (level_at j d) = 1%nat
  | Panic => ∀ j, (k ≤ j ≤ 255)%nat → (1 < length (level_at j d))%nat
  | NoFuel => False
  end.
Proof using Type.
  intros Hd. assert (∀ j, level_at j d ≠ []) as Hne.
  { induction j as [|j IH]; cbn [level_at]; apply level_nodes_nonempty; [destruct d; done|]. unfold items_above. by intros ?%fmap_nil_inv. }
  revert k. induction fuel as [|fuel IH]; intros k Hk Hf; [lia|]. cbn [plan_up]. case_decide as Hl.
  - destruct (decide (Z.of_nat k + 1 ≤ U8_MAX)) as [Hm|Hm]; unfold U8_MAX in Hm; [|intros j Hj; by replace j with k by lia].
    replace (Z.of_nat k + 1) with (Z.of_nat (Datatypes.S k)) by lia. change (level_nodes (Z.of_nat (Datatypes.S k)) (items_above (level_at k d))) with (level_at (Datatypes.S k) d).
    specialize (IH (Datatypes.S k) ltac:(lia) ltac:(lia)). cbv zeta. destruct (plan_up fuel _ _) as [[h bs]| |]; [| |done].
    + destruct IH as (j & Hj & E). exists j. split; [lia|done].
    + intros j Hj. destruct (decide (j = k)) as [->|]; [done|]. apply IH. lia.
  - specialize (Hne k). destruct (level_at k d) as [|x l] eqn:E; [done|]. exists k. split; [lia|]. rewrite E. destruct l; [done|cbn in Hl; lia].
Qed.

Lemma save_plan_total d : match save_plan d with Ret _ => True | Panic => ∀ j, (j ≤ 255)%nat → (1 < length (level_at j d))%nat | NoFuel => False end.
Proof using Type.
  destruct d as [|x d]; [done|]. pose proof (plan_up_total 256 0 (x :: d) ltac:(done) ltac:(lia) ltac:(lia)) as Ht. change (Z.of_nat 0) with 0 in Ht.
  unfold save_plan. change (level_nodes 0 (dir_items (x :: d))) with (level_at 0 (x :: d)). destruct (plan_up 256 0 _) as [[h bs]| |]; [done| |done]. intros j Hj. apply Ht. lia.
Qed.
End against_store.

(** ** What a run of [save] puts *)

(** A store that only records the objects put into it, in order. *)
Definition Recorder : Type := list (list Z).
Definition Recorder_store : NodeStore Recorder := {| put b s := (hash_of b, s ++ [b]); get _ _ := None |}.

(** The objects [save] puts for [d], found by running it on the recorder. *)
Definition written (d : Dir) : list (list Z) :=
  match @save hash_of Recorder Recorder_store d ([] : Recorder) with Ret (_, bs) => bs | _ => [] end.

#[local] Instance Recorder_laws : @StoreLaws hash_of Recorder Recorder_store (λ _, False).
Proof. by split. Qed.

Lemma recorded bs (l : Recorder) : @put_all Recorder Recorder_store bs l = l ++ bs.
Proof using Type.
  revert l. induction bs as [|b bs IH]; intros l; [symmetry; apply app_nil_r|].
  change (@put_all Recorder Recorder_store (b :: bs) l) with (@put_all Recorder Recorder_store bs (l ++ [b])). by rewrite IH, <-app_assoc.
Qed.

(** A save into any store follows the plan, and puts what the recorder has. *)
Lemma save_written {S : Type} `{NodeStore S} (store_ok : S → Prop) `{!StoreLaws hash_of S store_ok} d s h s' :
  save hash_of d s = Ret (h, s') → save_plan d = Ret (h, written d) ∧ s' = put_all (written d) s.
Proof using Type.
  rewrite (save_spec store_ok). unfold written. rewrite (@save_spec Recorder Recorder_store (λ _, False) Recorder_laws).
  destruct (save_plan d) as [[h' bs]| |]; [|done|done]. rewrite recorded. by intros [= -> <-].
Qed.
End saving.

(** ** The in-memory store keeps the promise *)

Lemma MemStore_laws hash_of : StoreLaws hash_of MemStore (H := MemStore_store hash_of) bt_sorted.
Proof.
  constructor; cbn [put get MemStore_store]; unfold mem_put, mem_get.
  - done.
  - intros b s Hs. cbn. destruct (bt_get (hash_of b) s); [done|]. by apply bt_insert_sorted.
  - intros b s h Hs. cbn [snd]. destruct (bt_get (hash_of b) s) as [x|] eqn:E.
    + case_decide as Eh; [subst; by rewrite E|done].
    + rewrite bt_get_insert by done. case_decide as Eh.
      * apply cmp_eq in Eh. subst. rewrite decide_True by done. by rewrite E.
      * rewrite decide_False; [done|]. intros ->. by rewrite cmp_refl in Eh.
Qed.

(** ** Editing a directory *)

Lemma dir_new_ok : dir_ok Dir_new.
Proof. constructor; [done|]. by intros n e ?%elem_of_nil. Qed.

Lemma upsert_spec d e d' :
  dir_ok d → entry_typed e → upsert d e = Ok d' → dir_ok d' ∧ ∀ n, dir_get d' n = if decide (n = e_name e) then Some e else dir_get d n.
Proof.
  intros [Hs He] Ht. unfold upsert. destruct (validate_entry e) as [[]|] eqn:Ev; [|done]. intros [= <-]. split; [constructor|].
  - by apply bt_insert_sorted.
  - intros n x. rewrite bt_insert_elem by done. intros [[-> ->]|[_ Hin]]; [done|by apply He].
  - intros n. unfold dir_get. rewrite bt_get_insert by done. destruct (decide (n = e_name e)) as [->|Hn]; [by rewrite decide_True by apply cmp_refl|]. rewrite decide_False; [done|]. by rewrite cmp_eq.
Qed.

Lemma dir_remove_spec d n e d' :
  dir_ok d → dir_remove d n = (e, d') → dir_ok d' ∧ e = dir_get d n ∧ ∀ m, dir_get d' m = if decide (m = n) then None else dir_get d m.
Proof.
  intros [Hs He] [= <- <-]. split; [constructor|split; [done|]].
  - by apply bt_remove_sorted.
  - intros k x. rewrite bt_remove_elem by done. intros [_ Hin]. by apply He.
  - intros m. unfold dir_get. rewrite bt_get_remove by done. destruct (decide (m = n)) as [->|Hn]; [by rewrite decide_True by apply cmp_refl|]. rewrite decide_False; [done|]. by rewrite cmp_eq.
Qed.

(** ** The difference of two directories *)

(** What changed at a name. *)
Definition changed (a b : option Entry) : option DiffKind :=
  match a, b with
  | Some ea, Some eb => if decide (ea = eb) then None else Some Modified
  | Some _, None => Some Removed
  | None, Some _ => Some Added
  | None, None => None
  end.

Lemma diff_elem da db n k : dir_ok da → dir_ok db → (n, k) ∈ diff_dirs da db ↔ changed (dir_get da n) (dir_get db n) = Some k.
Proof.
  intros [Sa _] [Sb _]. unfold diff_dirs, dir_get. rewrite ord_sort_perm, elem_of_app, !list_elem_of_omap. split.
  - intros [([m ea] & Hin & E)|([m eb] & Hin & E)]; apply bt_get_elem in Hin; try done.
    + destruct (bt_get m db) as [eb|] eqn:Eb; [case_decide; [done|]|]; injection E as <- <-; rewrite Hin, Eb; cbn; [by rewrite decide_False|done].
    + destruct (bt_get m da) eqn:Ea; [done|]. injection E as <- <-. by rewrite Hin, Ea.
  - intros Hc. destruct (bt_get n da) as [ea|] eqn:Ea.
    + left. exists (n, ea). apply bt_get_elem in Ea; [|done]. split; [done|]. cbn in Hc. destruct (bt_get n db); [case_decide; [done|]|]; congruence.
    + right. destruct (bt_get n db) as [eb|] eqn:Eb; [|done]. exists (n, eb). apply bt_get_elem in Eb; [|done]. split; [done|]. rewrite Ea. cbn in Hc. congruence.
Qed.

Lemma sorted_nodup {K V : Type} `{Ord K} (m : list (K * V)) : bt_sorted m → NoDup m.*1.
Proof.
  induction m as [|[k v] m IH]; cbn; [constructor|]. intros [H1 H2]. constructor; [|by apply IH]. intros ([k' v'] & E & Hin)%list_elem_of_fmap. cbn in E. subst k'.
  by apply (lt_irrefl k), (H1 k v').
Qed.

Lemma ascending_sorted {K V : Type} `{Ord K} `{Ord V} (l : list (K * V)) : ascending l → NoDup l.*1 → bt_sorted l.
Proof.
  induction l as [|[k v] l IH]; cbn [ascending fmap list_fmap bt_sorted]; [done|]. intros [H1 H2] [Hn Hnd]%NoDup_cons. split; [|by apply IH].
  intros k' v' Hin. specialize (H1 _ Hin). unfold lt. cbn in H1. destruct (cmp k k') eqn:E; [|done|done]. apply cmp_eq in E. subst k'. exfalso. apply Hn. apply list_elem_of_fmap. by exists (k, v').
Qed.

(** The names [omap] keeps are names of the map. *)
Lemma omap_names_sub {V W : Type} (f : list Z * V → option (list Z * W)) (m : list (list Z * V)) :
  (∀ x y, f x = Some y → y.1 = x.1) → NoDup m.*1 → NoDup (omap f m).*1.
Proof.
  intros Hf. induction m as [|x m IH]; cbn; [constructor|]. intros [Hn Hnd]%NoDup_cons. destruct (f x) as [y|] eqn:E; [|by apply IH]. cbn. constructor; [|by apply IH].
  intros (z & Ey & (w & Hw & Ez)%list_elem_of_omap)%list_elem_of_fmap. apply Hn. rewrite <-(Hf _ _ E). apply list_elem_of_fmap. exists w. split; [|done].
  by rewrite <-(Hf _ _ Ez).
Qed.

Lemma diff_sorted da db : dir_ok da → dir_ok db → bt_sorted (diff_dirs da db).
Proof.
  intros Va Vb. apply ascending_sorted; [apply ord_sort_ascending|]. unfold diff_dirs. rewrite ord_sort_perm, fmap_app, NoDup_app. split_and!.
  - apply omap_names_sub; [|apply sorted_nodup, Va]. intros [n e] y. destruct (bt_get n db); [case_decide; [done|]|]; by intros [= <-].
  - intros n ([m k] & -> & ([m' ea] & Hin & E)%list_elem_of_omap)%list_elem_of_fmap ([m2 k2] & E2 & ([m3 eb] & Hin2 & E3)%list_elem_of_omap)%list_elem_of_fmap.
    cbn in E2. subst m2. assert (m' = m) as -> by (destruct (bt_get m' db); [case_decide; [done|]|]; congruence). destruct (bt_get m3 da) eqn:Ea; [done|]. injection E3 as -> <-.
    apply bt_get_elem in Hin; [|apply Va]. congruence.
  - apply omap_names_sub; [|apply sorted_nodup, Vb]. intros [n e] y. destruct (bt_get n da); [done|]. by intros [= <-].
Qed.
