(* ===== verification/Overlay.v ===== *)
(** The in-memory overlay of a ref ([cas/src/overlay.rs]): per-file interval maps keyed on
    ephemeral file ids, the name index, tombstones, open handles and pending directory
    moves. A [BTreeSet] is a map to [unit]. File ids and reference counts are counted
    without their 64- and 32-bit wrap. *)

From S2P Require Import Prelude Bytes BTree Disk.

Definition FileId : Type := Z.

(** ** Interval maps *)
Definition writes_map : Type := btree Z (list Z).
Record FileOverlay : Type := MkFo { fo_writes : writes_map; fo_fresh : bool; fo_mtime : Z; fo_origin : option Path }.

Definition extent (fo : FileOverlay) : Z :=
  match last (fo_writes fo) with Some (off, data) => off + len_z data | None => 0 end.
Definition first_write_offset (fo : FileOverlay) : option Z := fst <$> head (fo_writes fo).

(** [content.resize(end, 0)] when shorter, then [content[off..end].copy_from_slice(data)] *)
Definition put_at (content : list Z) (off : Z) (data : list Z) : list Z :=
  let end_ := off + len_z data in
  let content := if len_z content <? end_ then content ++ replicate (Z.to_nat end_ - length content) 0 else content in
  splice content off data.
Definition apply_writes (w : writes_map) (content : list Z) : list Z := foldl (λ c x, put_at c x.1 x.2) content w.
Definition apply (fo : FileOverlay) (base : list Z) : list Z :=
  apply_writes (fo_writes fo) (if fo_fresh fo then [] else base).

Fixpoint take_while {A : Type} (f : A → bool) (l : list A) : list A :=
  match l with [] => [] | x :: l' => if f x then x :: take_while f l' else [] end.

(** Intervals that start before [end_] and finish after [off], last first. *)
Definition overlapping (w : writes_map) (off end_ : Z) : list Z :=
  (take_while (λ x, off <? x.1 + len_z x.2) (reverse (filter (λ x, x.1 < end_) w))).*1.

(** One overlapping interval is cut back; [remove(&k).unwrap()] panics if it is gone. *)
Definition trim (off end_ : Z) (acc : option (writes_map * Z)) (k : Z) : option (writes_map * Z) :=
  '(w, delta) ← acc;
  v ← bt_get k w;
  let w := bt_remove k w in
  let delta := delta - len_z v in
  let '(w, delta) := if k <? off then (bt_insert k (take (Z.to_nat (off - k)) v) w, delta + (off - k)) else (w, delta) in
  let '(w, delta) :=
    if end_ <? k + len_z v
    then let cut := end_ - k in (bt_insert end_ (drop (Z.to_nat cut) v) w, delta + (len_z v - cut))
    else (w, delta) in
  Some (w, delta).

Definition fo_insert (w : writes_map) (off : Z) (data : list Z) : option (writes_map * Z) :=
  let end_ := off + len_z data in
  '(w, delta) ← foldl (trim off end_) (Some (w, len_z data)) (overlapping w off end_);
  Some (bt_insert off data w, delta).

(** ** The overlay *)
Inductive FileState : Type := Clean | Dirty (fo : FileOverlay) | Unlinked.

Record Overlay : Type := MkOverlay {
  ov_by_id : btree FileId FileOverlay; ov_by_name : btree Path FileId; ov_names : btree FileId (option Path);
  ov_tombs : btree Path unit; ov_open : btree FileId Z; ov_dir_renames : btree Path Path; ov_bytes : Z }.
Definition Overlay_default : Overlay := MkOverlay [] [] [] [] [] [] 0.

Definition is_empty (o : Overlay) : bool :=
  bool_decide (ov_by_id o = []) && bool_decide (ov_tombs o = []) && bool_decide (ov_dir_renames o = []).
Definition is_open (o : Overlay) (id : FileId) : bool := 0 <? default 0 (bt_get id (ov_open o)).
Definition contains_file (o : Overlay) (p : Path) : bool := bool_decide (is_Some (bt_get p (ov_by_name o))).
Definition name_of (o : Overlay) (id : FileId) : option Path := default None (bt_get id (ov_names o)).

(** [fo.writes.values().map(|v| v.len()).sum()] *)
Definition total (w : writes_map) : Z := foldr (λ x acc, len_z x.2 + acc) 0 w.

(** [self.by_id.entry(id).or_insert_with(..)], the mtime, the interval, the byte census *)
Definition write_into (o : Overlay) (id : FileId) (fresh_fo : FileOverlay) (offset : Z) (data : list Z) (mtime : Z) : outcome Overlay :=
  let fo := default fresh_fo (bt_get id (ov_by_id o)) in
  match fo_insert (fo_writes fo) offset data with
  | None => Panic
  | Some (w, delta) =>
      Ret (MkOverlay (bt_insert id (MkFo w (fo_fresh fo) mtime (fo_origin fo)) (ov_by_id o)) (ov_by_name o) (ov_names o) (ov_tombs o) (ov_open o)
             (ov_dir_renames o) (Z.max (ov_bytes o + delta) 0))
  end.

(** Resolve a name to its id, binding a new one. *)
Definition bind_name (o : Overlay) (path : Path) (next_id : FileId) : FileId * Overlay * FileId :=
  match bt_get path (ov_by_name o) with
  | Some id => (id, o, next_id)
  | None =>
      (next_id, MkOverlay (ov_by_id o) (bt_insert path next_id (ov_by_name o)) (bt_insert next_id (Some path) (ov_names o)) (ov_tombs o) (ov_open o)
         (ov_dir_renames o) (ov_bytes o), next_id + 1)
  end.

Definition write (o : Overlay) (path : Path) (offset : Z) (data : list Z) (mtime : Z) (next_id : FileId) : outcome (Overlay * FileId) :=
  let fresh := bool_decide (is_Some (bt_get path (ov_tombs o))) in
  let o := MkOverlay (ov_by_id o) (ov_by_name o) (ov_names o) (bt_remove path (ov_tombs o)) (ov_open o) (ov_dir_renames o) (ov_bytes o) in
  let '(id, o, next_id) := bind_name o path next_id in
  match write_into o id (MkFo [] fresh 0 (if fresh then None else Some path)) offset data mtime with
  | Ret o => Ret (o, next_id)
  | Panic => Panic
  | NoFuel => NoFuel
  end.

(** Drop an id's interval map and its bytes. *)
Definition reap (o : Overlay) (id : FileId) : Overlay :=
  match bt_get id (ov_by_id o) with
  | Some fo =>
      MkOverlay (bt_remove id (ov_by_id o)) (ov_by_name o) (ov_names o) (ov_tombs o) (ov_open o) (ov_dir_renames o)
        (Z.max 0 (ov_bytes o - total (fo_writes fo)))
  | None => o
  end.
Definition set_names (o : Overlay) (n : btree FileId (option Path)) : Overlay :=
  MkOverlay (ov_by_id o) (ov_by_name o) n (ov_tombs o) (ov_open o) (ov_dir_renames o) (ov_bytes o).
Definition set_by_name (o : Overlay) (n : btree Path FileId) : Overlay :=
  MkOverlay (ov_by_id o) n (ov_names o) (ov_tombs o) (ov_open o) (ov_dir_renames o) (ov_bytes o).
Definition set_tombs (o : Overlay) (t : btree Path unit) : Overlay :=
  MkOverlay (ov_by_id o) (ov_by_name o) (ov_names o) t (ov_open o) (ov_dir_renames o) (ov_bytes o).
Definition set_open (o : Overlay) (t : btree FileId Z) : Overlay :=
  MkOverlay (ov_by_id o) (ov_by_name o) (ov_names o) (ov_tombs o) t (ov_dir_renames o) (ov_bytes o).

Definition unlink (o : Overlay) (path : Path) : Overlay :=
  let o :=
    match bt_get path (ov_by_name o) with
    | Some id =>
        let o := set_by_name o (bt_remove path (ov_by_name o)) in
        if is_open o id then set_names o (bt_insert id None (ov_names o))
        else let o := reap o id in set_names o (bt_remove id (ov_names o))
    | None => o
    end in
  set_tombs o (bt_insert path tt (ov_tombs o)).

Definition open (o : Overlay) (path : Path) (next_id : FileId) : FileId * Overlay * FileId :=
  let '(id, o, next_id) := bind_name o path next_id in
  (id, set_open o (bt_insert id (default 0 (bt_get id (ov_open o)) + 1) (ov_open o)), next_id).

Definition close (o : Overlay) (id : FileId) : bool * Overlay :=
  match bt_get id (ov_open o) with
  | Some c =>
      if 1 <? c then (false, set_open o (bt_insert id (c - 1) (ov_open o)))
      else
        let o := set_open o (bt_remove id (ov_open o)) in
        match bt_get id (ov_names o) with
        | Some None => let o := reap o id in (true, set_names o (bt_remove id (ov_names o)))
        | Some (Some name) =>
            match bt_get id (ov_by_id o) with
            | None =>
                let o := set_by_name o (bt_remove name (ov_by_name o)) in
                (true, set_names o (bt_remove id (ov_names o)))
            | Some _ => (true, o)
            end
        | None => (true, o)
        end
  | None => (true, o)
  end.

Definition write_orphan (o : Overlay) (id : FileId) (offset : Z) (data : list Z) (mtime : Z) : outcome Overlay :=
  write_into o id (MkFo [] true 0 None) offset data mtime.
Definition read_orphan (o : Overlay) (id : FileId) : list Z :=
  match bt_get id (ov_by_id o) with Some fo => apply fo [] | None => [] end.

Definition carry_step (o next : Overlay) (x : FileId * Z) : Overlay :=
  let '(id, refs) := x in
  let name := name_of o id in
  let next := match name with Some p => set_by_name next (bt_insert p id (ov_by_name next)) | None => next end in
  let next := set_names next (bt_insert id name (ov_names next)) in
  set_open next (bt_insert id refs (ov_open next)).
Definition carry_open (o : Overlay) : option Overlay :=
  match ov_open o with
  | [] => None
  | _ => Some (foldl (carry_step o) Overlay_default (ov_open o))
  end.

Definition state (o : Overlay) (path : Path) : FileState :=
  match bt_get path (ov_tombs o) with
  | Some _ => Unlinked
  | None =>
      match bt_get path (ov_by_name o) with
      | Some id => match bt_get id (ov_by_id o) with Some fo => Dirty fo | None => Clean end
      | None => Clean
      end
  end.

Definition unlinks (o : Overlay) : list Path := (ov_tombs o).*1.
Definition files (o : Overlay) : list (Path * FileOverlay) :=
  omap (λ '(name, id), fo ← bt_get id (ov_by_id o); Some (name, fo)) (ov_by_name o).
Definition in_dir (dir p : Path) : bool := bool_decide (length p = length dir + 1)%nat && bool_decide (take (length dir) p = dir).
Definition files_in_dir (o : Overlay) (dir : Path) : list (Path * FileOverlay) :=
  omap (λ '(p, id), if in_dir dir p then fo ← bt_get id (ov_by_id o); Some (p, fo) else None) (ov_by_name o).
Definition unlinked_in_dir (o : Overlay) (dir : Path) : list Path := filter (λ p, in_dir dir p = true) (ov_tombs o).*1.

Definition open_for_rename (o : Overlay) (name : Path) (next_id : FileId) : Overlay * FileId :=
  (MkOverlay (bt_insert next_id (MkFo [] false 0 (Some name)) (ov_by_id o)) (bt_insert name next_id (ov_by_name o))
     (bt_insert next_id (Some name) (ov_names o)) (ov_tombs o) (ov_open o) (ov_dir_renames o) (ov_bytes o), next_id + 1).

(** Last write wins at the destination: whatever is parked there goes. *)
Definition displace (o : Overlay) (to : Path) : Overlay :=
  match bt_get to (ov_by_name o) with
  | Some victim =>
      let o := reap (set_by_name o (bt_remove to (ov_by_name o))) victim in
      set_names o (bt_remove victim (ov_names o))
  | None => o
  end.

(** The two [unwrap]s: the source must be live, and dirty. *)
Definition rename (o : Overlay) (from to : Path) (mtime : Z) : outcome Overlay :=
  match bt_get from (ov_by_name o) with
  | None => Panic
  | Some id =>
      let o := set_tombs o (bt_remove to (ov_tombs o)) in
      let o := displace o to in
      let o := set_by_name o (bt_insert to id (bt_remove from (ov_by_name o))) in
      let o := set_names o (bt_insert id (Some to) (ov_names o)) in
      let o := set_tombs o (bt_insert from tt (ov_tombs o)) in
      match bt_get id (ov_by_id o) with
      | None => Panic
      | Some fo =>
          Ret (MkOverlay (bt_insert id (MkFo (fo_writes fo) (fo_fresh fo) mtime (fo_origin fo)) (ov_by_id o)) (ov_by_name o) (ov_names o) (ov_tombs o)
                 (ov_open o) (ov_dir_renames o) (ov_bytes o))
      end
  end.

Definition rename_dir (o : Overlay) (from to : Path) : Overlay :=
  MkOverlay (ov_by_id o) (ov_by_name o) (ov_names o) (ov_tombs o) (ov_open o) (bt_insert from to (ov_dir_renames o)) (ov_bytes o).

(** * Interval maps *)

(** The byte an interval map holds at a position. *)
Definition covers (w : writes_map) (i b : Z) : Prop := ∃ k v, (k, v) ∈ w ∧ k ≤ i ∧ v !! Z.to_nat (i - k) = Some b.

(** Sorted, at non-negative offsets, not overlapping. A write without data leaves an empty
    interval. *)
Record iv_ok (w : writes_map) : Prop := {
  io_sorted : bt_sorted w;
  io_elem k v : (k, v) ∈ w → 0 ≤ k;
  io_disj k1 v1 k2 v2 : (k1, v1) ∈ w → (k2, v2) ∈ w → k1 < k2 → k1 + len_z v1 ≤ k2;
}.
(** No interval is empty. *)
Definition iv_full (w : writes_map) : Prop := ∀ k v, (k, v) ∈ w → v ≠ [].

Lemma iv_unique w k v v' : iv_ok w → (k, v) ∈ w → (k, v') ∈ w → v = v'.
Proof. intros [Hs _ _] H1 H2. apply bt_get_elem in H1, H2; [|done|done]. congruence. Qed.

(** Two intervals that reach the same position are one. *)
Lemma iv_same w k1 v1 k2 v2 i :
  iv_ok w → (k1, v1) ∈ w → (k2, v2) ∈ w → k1 ≤ i < k1 + len_z v1 → k2 ≤ i < k2 + len_z v2 → k1 = k2 ∧ v1 = v2.
Proof.
  intros V H1 H2 I1 I2. assert (k1 = k2) as ->; [|split; [done|by eapply iv_unique]].
  destruct (Z.lt_trichotomy k1 k2) as [Hlt|[He|Hgt]]; [|done|].
  - pose proof (io_disj _ V _ _ _ _ H1 H2 Hlt). lia.
  - pose proof (io_disj _ V _ _ _ _ H2 H1 Hgt). lia.
Qed.

Lemma lookup_range (v : list Z) n b : v !! n = Some b → Z.of_nat n < len_z v.
Proof. intros ?%lookup_lt_Some. unfold len_z. lia. Qed.

(** ** Cutting one interval back *)

Definition cut_at (off end_ : Z) (w : writes_map) (k : Z) (v : list Z) : writes_map :=
  let w := bt_remove k w in
  let w := if k <? off then bt_insert k (take (Z.to_nat (off - k)) v) w else w in
  if end_ <? k + len_z v then bt_insert end_ (drop (Z.to_nat (end_ - k)) v) w else w.

Lemma trim_step off end_ (w : writes_map) (delta : Z) k v :
  bt_get k w = Some v →
  trim off end_ (Some (w, delta)) k =
    Some (cut_at off end_ w k v, delta - len_z v + (if k <? off then off - k else 0) + (if end_ <? k + len_z v then k + len_z v - end_ else 0)).
Proof.
  intros Hg. unfold trim, cut_at. cbn [mbind option_bind]. rewrite Hg. cbn. destruct (k <? off), (end_ <? k + len_z v); do 2 f_equal; lia.
Qed.

(** What is left of the map. *)
Lemma cut_elem off end_ w k v k' v' :
  iv_ok w → (k, v) ∈ w → off ≤ end_ → k < end_ →
  (k', v') ∈ cut_at off end_ w k v ↔
    (k' ≠ k ∧ (k', v') ∈ w) ∨ (k < off ∧ k' = k ∧ v' = take (Z.to_nat (off - k)) v) ∨ (end_ < k + len_z v ∧ k' = end_ ∧ v' = drop (Z.to_nat (end_ - k)) v).
Proof.
  intros V Hin Hoe Hke. assert (bt_sorted (bt_remove k w)) as S1 by (apply bt_remove_sorted, V).
  assert (end_ < k + len_z v → ∀ x, (end_, x) ∉ w) as Hfree.
  { intros He x Hx. pose proof (io_disj _ V _ _ _ _ Hin Hx Hke). lia. }
  assert (∀ k' v', (k', v') ∈ bt_remove k w ↔ k' ≠ k ∧ (k', v') ∈ w) as HR by (intros; apply bt_remove_elem, V).
  unfold cut_at. cbv zeta. destruct (Z.ltb_spec k off) as [Hko|Hko]; destruct (Z.ltb_spec end_ (k + len_z v)) as [He|He].
  - rewrite bt_insert_elem by (by apply bt_insert_sorted). rewrite bt_insert_elem, HR by done. specialize (Hfree He). split; [naive_solver|].
    intros [[H1 H2]|[(H1 & -> & ->)|(_ & -> & ->)]]; [|right; split; [lia|by left]|by left]. right. split; [|by right]. intros ->. by apply (Hfree v').
  - rewrite bt_insert_elem, HR by done. split; [naive_solver|]. intros [[H1 H2]|[(H1 & -> & ->)|(H1 & _ & _)]]; [right|left|lia]; done.
  - rewrite bt_insert_elem, HR by done. specialize (Hfree He). split; [naive_solver|].
    intros [[H1 H2]|[(H1 & _ & _)|(_ & -> & ->)]]; [|lia|by left]. right. split; [|done]. intros ->. by apply (Hfree v').
  - rewrite HR. split; [naive_solver|]. intros [?|[(H1 & _ & _)|(H1 & _ & _)]]; [done|lia|lia].
Qed.

Lemma cut_ok off end_ w k v :
  iv_ok w → (k, v) ∈ w → 0 ≤ off → off ≤ end_ → k < end_ → off < k + len_z v → iv_ok (cut_at off end_ w k v).
Proof.
  intros V Hin Ho Hoe Hke Hok. pose proof (io_elem _ V _ _ Hin) as Hk0. pose proof (len_z_nonneg v) as Hlv. constructor.
  - unfold cut_at. cbv zeta. pose proof (bt_remove_sorted w k (io_sorted _ V)). destruct (k <? off), (end_ <? k + len_z v); repeat apply bt_insert_sorted; done.
  - intros k' v'. rewrite cut_elem by done. intros [[_ H1]|[(H1 & -> & ->)|(H1 & -> & ->)]]; [by apply (io_elem _ V k' v')|done|lia].
  - assert (∀ n, len_z (take n v) ≤ len_z v) as Ht by (intros n; unfold len_z; rewrite length_take; lia).
    assert (len_z (take (Z.to_nat (off - k)) v) ≤ Z.max 0 (off - k)) as Ht2 by (unfold len_z; rewrite length_take; lia).
    assert (len_z (drop (Z.to_nat (end_ - k)) v) = Z.max 0 (k + len_z v - end_)) as Hd by (unfold len_z in *; rewrite length_drop; lia).
    intros k1 v1 k2 v2. rewrite !cut_elem by done.
    intros [[N1 H1]|[(H1 & -> & ->)|(H1 & -> & ->)]] [[N2 H2]|[(H2 & -> & ->)|(H2 & -> & ->)]] Hlt; try lia.
    + by apply (io_disj _ V k1 v1 k2 v2).
    + by apply (io_disj _ V k1 v1 k v).
    + destruct (Z.lt_trichotomy k1 k) as [Hl|[->|Hg]]; [|done|].
      * pose proof (io_disj _ V _ _ _ _ H1 Hin Hl). lia.
      * pose proof (io_disj _ V _ _ _ _ Hin H1 Hg). lia.
    + pose proof (io_disj _ V _ _ _ _ Hin H2 Hlt). pose proof (Ht (Z.to_nat (off - k))). lia.
    + destruct (Z.lt_trichotomy k k2) as [Hl|[->|Hg]]; [|done|lia].
      pose proof (io_disj _ V _ _ _ _ Hin H2 Hl). lia.
Qed.

Lemma cut_covers off end_ w k v i b :
  iv_ok w → (k, v) ∈ w → 0 ≤ off → off ≤ end_ → k < end_ → off < k + len_z v →
  covers (cut_at off end_ w k v) i b ↔ covers w i b ∧ ¬ (off ≤ i < end_ ∧ k ≤ i < k + len_z v).
Proof.
  intros V Hin Ho Hoe Hke Hok. split.
  - intros (k' & v' & Hin' & Hk' & Hb). rewrite cut_elem in Hin' by done. destruct Hin' as [[N1 H1]|[(H1 & -> & ->)|(H1 & -> & ->)]].
    + split; [by exists k', v'|]. intros [Hi1 Hi2]. pose proof (lookup_range _ _ _ Hb). destruct (iv_same w k' v' k v i V H1 Hin); [lia|lia|done].
    + pose proof (lookup_lt_Some _ _ _ Hb) as Hlt. rewrite length_take in Hlt. rewrite lookup_take_lt in Hb by lia. split; [by exists k, v|]. lia.
    + rewrite lookup_drop in Hb. split; [|lia]. exists k, v. split; [done|]. split; [lia|]. rewrite <-Hb. f_equal. lia.
  - intros [(k' & v' & H1 & Hk' & Hb) Hn]. pose proof (lookup_range _ _ _ Hb) as Hr. destruct (decide (k' = k)) as [->|Hne].
    + assert (v' = v) as -> by (by eapply iv_unique). destruct (Z.lt_ge_cases i off) as [Hi|Hi].
      * exists k, (take (Z.to_nat (off - k)) v). split; [apply cut_elem; [done..|]; right; left; split; [lia|done]|]. split; [done|]. rewrite lookup_take_lt by lia. done.
      * exists end_, (drop (Z.to_nat (end_ - k)) v). split; [apply cut_elem; [done..|]; right; right; split; [lia|done]|]. split; [lia|]. rewrite lookup_drop, <-Hb. f_equal. lia.
    + exists k', v'. split; [apply cut_elem; [done..|]; by left|]. done.
Qed.

(** ** The bytes held *)

Lemma total_perm w1 w2 : w1 ≡ₚ w2 → total w1 = total w2.
Proof. unfold total. induction 1; cbn; [done|lia|lia|lia]. Qed.
Lemma total_cons k v w : total ((k, v) :: w) = len_z v + total w.
Proof. done. Qed.
Lemma total_insert w k v : (∀ x, (k, x) ∉ w) → total (bt_insert k v w) = len_z v + total w.
Proof. intros Hn. by rewrite (total_perm _ _ (bt_insert_perm w k v Hn)). Qed.
Lemma total_remove w k v : bt_sorted w → (k, v) ∈ w → total (bt_remove k w) = total w - len_z v.
Proof. intros Hs Hin. rewrite (total_perm _ _ (bt_remove_perm w k v Hs Hin)), total_cons. lia. Qed.

Lemma cut_total off end_ w k v :
  iv_ok w → (k, v) ∈ w → off ≤ end_ → k < end_ → off < k + len_z v →
  total (cut_at off end_ w k v) = total w - len_z v + (if k <? off then off - k else 0) + (if end_ <? k + len_z v then k + len_z v - end_ else 0).
Proof.
  intros V Hin Hoe Hke Hok. assert (bt_sorted (bt_remove k w)) as S1 by (apply bt_remove_sorted, V).
  assert (∀ x, (k, x) ∉ bt_remove k w) as Hk by (intros x; rewrite bt_remove_elem by apply V; naive_solver).
  assert (len_z (take (Z.to_nat (off - k)) v) = Z.max 0 (off - k)) as Ht by (unfold len_z in *; rewrite length_take; lia).
  assert (len_z (drop (Z.to_nat (end_ - k)) v) = Z.max 0 (k + len_z v - end_)) as Hd by (unfold len_z in *; rewrite length_drop; lia).
  assert (end_ < k + len_z v → ∀ x, (end_, x) ∉ bt_remove k w) as Hfree.
  { intros He x. rewrite bt_remove_elem by apply V. intros [_ Hx]. pose proof (io_disj _ V _ _ _ _ Hin Hx Hke). lia. }
  unfold cut_at. cbv zeta. destruct (Z.ltb_spec k off); destruct (Z.ltb_spec end_ (k + len_z v)).
  - rewrite total_insert, total_insert, (total_remove w k v), Ht, Hd; try done; [lia|apply V|]. intros x. rewrite bt_insert_elem by done. intros [[? ?]|[? Hx]]; [lia|]. by apply (Hfree ltac:(lia) x).
  - rewrite total_insert, (total_remove w k v), Ht; try done; [lia|apply V].
  - rewrite total_insert, (total_remove w k v), Hd; try done; [lia|apply V|]. by apply Hfree.
  - rewrite (total_remove w k v); [lia|apply V|done].
Qed.

(** ** Cutting all of them back *)

Definition overlaps (off end_ : Z) (x : Z * list Z) : Prop := x.1 < end_ ∧ off < x.1 + len_z x.2.

(** The pieces left of an interval are not empty and lie outside the range. *)
Definition piece (off end_ : Z) (x : Z * list Z) : Prop := x.2 ≠ [] ∧ (x.1 + len_z x.2 ≤ off ∨ end_ ≤ x.1).

Lemma cut_piece off end_ w k v x :
  iv_ok w → (k, v) ∈ w → off ≤ end_ → k < end_ → off < k + len_z v → x ∈ cut_at off end_ w k v → (x.1 ≠ k ∧ x ∈ w) ∨ piece off end_ x.
Proof.
  intros V Hin Hoe Hke Hok. destruct x as [k' v']. rewrite cut_elem by done. pose proof (len_z_nonneg v). unfold piece. cbn [fst snd].
  intros [?|[(H1 & -> & ->)|(H1 & -> & ->)]]; [by left|right; split; [|left]|right; split; [|by right]].
  - intros E. apply (f_equal length) in E. rewrite length_take in E. unfold len_z in *. cbn in E. lia.
  - unfold len_z. rewrite length_take. lia.
  - intros E. apply (f_equal length) in E. rewrite length_drop in E. unfold len_z in *. cbn in E. lia.
Qed.

Lemma trims_spec off end_ (L : list (Z * list Z)) (w : writes_map) (d : Z) :
  iv_ok w → 0 ≤ off → off ≤ end_ → NoDup L.*1 → (∀ x, x ∈ L → x ∈ w ∧ overlaps off end_ x) →
  ∃ w', foldl (trim off end_) (Some (w, d)) L.*1 = Some (w', d + total w' - total w) ∧ iv_ok w' ∧
    (∀ x, x ∈ w' → (x ∈ w ∧ x ∉ L) ∨ piece off end_ x) ∧ (∀ x, x ∈ w → x ∉ L → x ∈ w') ∧
    ∀ i b, covers w' i b ↔ covers w i b ∧ ¬ (off ≤ i < end_ ∧ ∃ x, x ∈ L ∧ x.1 ≤ i < x.1 + len_z x.2).
Proof.
  revert w d. induction L as [|[k v] L IH]; intros w d V Ho Hoe Hnd HL; cbn [fmap list_fmap foldl].
  - exists w. split; [do 2 f_equal; lia|]. split; [done|]. split; [intros x Hx; left; split; [done|by intros ?%elem_of_nil]|]. split; [done|].
    intros i b. split; [|by intros [? _]]. intros Hc. split; [done|]. by intros (_ & x & ?%elem_of_nil & _).
  - apply NoDup_cons in Hnd as [Hn Hnd]. destruct (HL (k, v)) as [Hin [Hk1 Hk2]]; [by left|]. cbn in Hk1, Hk2.
    cbn [fst]. rewrite (trim_step off end_ w d k v); [|apply bt_get_elem; [apply V|done]].
    set (w1 := cut_at off end_ w k v). assert (iv_ok w1) as V1 by (by apply cut_ok).
    match goal with |- context [foldl _ (Some (w1, ?x)) _] => set (d1 := x) end. assert (d1 = d + total w1 - total w) as Hd1 by (unfold d1, w1; rewrite cut_total by done; lia).
    destruct (IH w1 d1 V1 Ho Hoe Hnd) as (w' & E & V' & Hback & Hkeep & Hc).
    { intros [k2 v2] Hx. destruct (HL (k2, v2)) as [Hin2 Hov]; [by right|]. split; [|done]. apply cut_elem; [done..|]. left. split; [|done]. intros ->. apply Hn. apply list_elem_of_fmap. by exists (k, v2). }
    exists w'. rewrite E, Hd1. split; [do 2 f_equal; lia|]. split; [done|]. split; [|split].
    + intros x Hx. destruct (Hback x Hx) as [[Hx1 Hx2]|?]; [|by right]. apply cut_piece in Hx1 as [[Hxk Hx1]|?]; [|by right|done..].
      left. split; [done|]. intros [->|?]%elem_of_cons; [by apply Hxk|done].
    + intros [k2 v2] Hx Hx2. rewrite not_elem_of_cons in Hx2. destruct Hx2 as [Hx2 Hx3]. apply Hkeep; [|done]. apply cut_elem; [done..|]. left. split; [|done].
      intros ->. apply Hx2. by rewrite (iv_unique w k v2 v V Hx Hin).
    + intros i b. rewrite Hc. unfold w1. rewrite cut_covers by done. split.
      * intros [[Hci Hn1] Hn2]. split; [done|]. intros (Hi & x & [->|Hx]%elem_of_cons & Hr); [by apply Hn1|]. apply Hn2. split; [done|]. by exists x.
      * intros [Hci Hn1]. split; [split; [done|]|].
        -- intros [Hi Hr]. apply Hn1. split; [done|]. exists (k, v). split; [by left|done].
        -- intros (Hi & x & Hx & Hr). apply Hn1. split; [done|]. exists x. split; [by right|done].
Qed.

Lemma take_while_all {T : Type} (f : T → bool) l :
  (∀ l1 x l2 y, l = l1 ++ x :: l2 → f x = false → y ∈ l2 → f y = false) → ∀ y, y ∈ l → f y = true → y ∈ take_while f l.
Proof.
  induction l as [|x l IH]; intros Hd y; [by intros ?%elem_of_nil|]. cbn. intros [->|Hy]%elem_of_cons Hf; [rewrite Hf; by left|].
  destruct (f x) eqn:E; [|rewrite (Hd [] x l y eq_refl E Hy) in Hf; done]. right. apply IH; [|done|done]. intros l1 z l2 y' -> Hz. by apply (Hd (x :: l1) z l2).
Qed.
Lemma take_while_elem {T : Type} (f : T → bool) l y : y ∈ take_while f l → y ∈ l ∧ f y = true.
Proof.
  induction l as [|x l IH]; cbn; [by intros ?%elem_of_nil|]. destruct (f x) eqn:E; [|by intros ?%elem_of_nil].
  intros [->|Hy]%elem_of_cons; [split; [by left|done]|]. destruct (IH Hy). split; [by right|done].
Qed.
Lemma take_while_prefix {T : Type} (f : T → bool) l : ∃ l2, l = take_while f l ++ l2.
Proof. induction l as [|x l [l2 E]]; cbn; [by exists []|]. destruct (f x); [exists l2; by rewrite E at 1|by eexists]. Qed.

(** The intervals the scan collects are all that overlap. *)
Lemma overlapping_spec w off end_ :
  iv_ok w → ∃ L, overlapping w off end_ = L.*1 ∧ NoDup L.*1 ∧ ∀ x, x ∈ L ↔ x ∈ w ∧ overlaps off end_ x.
Proof.
  intros V. unfold overlapping. set (f := λ x : Z * list Z, off <? x.1 + len_z x.2). set (F := filter (λ x : Z * list Z, x.1 < end_) w).
  assert (bt_sorted F) as SF by (apply bt_sorted_filter, V). exists (take_while f (reverse F)). split_and!; [done| |].
  - destruct (take_while_prefix f (reverse F)) as [l2 E]. assert (NoDup (reverse F).*1) as Hnd.
    { rewrite fmap_reverse, reverse_Permutation. clear E. induction F as [|[k v] F IH]; cbn; [constructor|]. destruct SF as [H1 H2]. constructor; [|by apply IH].
      intros ([k' v'] & Ek & Hin)%list_elem_of_fmap. cbn in Ek. subst k'. by apply (lt_irrefl k), (H1 k v'). }
    rewrite E, fmap_app in Hnd. by apply NoDup_app in Hnd as [? _].
  - intros [k v]. split.
    + intros [Hin Hf]%take_while_elem. apply elem_of_reverse, list_elem_of_filter in Hin as [Hk Hin]. split; [done|]. split; [done|]. by apply Z.ltb_lt.
    + intros [Hin [Hk Ho]]. apply take_while_all; [|apply elem_of_reverse, list_elem_of_filter; done|by apply Z.ltb_lt].
      intros l1 [kx vx] l2 [ky vy] E Hx Hy. apply Z.ltb_ge in Hx. apply Z.ltb_ge. cbn in *.
      apply (f_equal reverse) in E. rewrite reverse_involutive, reverse_app, reverse_cons, <-app_assoc in E. rewrite E in SF. apply bt_sorted_app in SF as (_ & _ & Hlt).
      assert (lt ky kx) as Hlt1 by (apply (Hlt ky vy kx vx); [by apply elem_of_reverse|by left]). unfold lt in Hlt1. cbn in Hlt1. rewrite Z.compare_lt_iff in Hlt1.
      assert ((ky, vy) ∈ w ∧ (kx, vx) ∈ w) as [H1 H2].
      { assert (∀ x, x ∈ F → x ∈ w) as HFw by (intros x Hin'; by apply list_elem_of_filter in Hin' as [_ ?]).
        split; apply HFw; rewrite E; apply elem_of_app; [left; by apply elem_of_reverse|right; by left]. }
      pose proof (io_disj _ V _ _ _ _ H1 H2 Hlt1). pose proof (len_z_nonneg vx). lia.
Qed.

Lemma insert_remove {V : Type} (m : list (Z * V)) id v : bt_sorted m → bt_insert id v (bt_remove id m) = bt_insert id v m.
Proof.
  intros Hs. apply bt_ext; [by apply bt_insert_sorted, bt_remove_sorted|by apply bt_insert_sorted|]. intros k. rewrite !get_insert, get_remove by eauto with btree. by repeat case_decide.
Qed.

(** An empty interval may be replaced: it holds no byte. *)
Lemma total_replace w k v : bt_sorted w → (∀ x, (k, x) ∈ w → x = []) → total (bt_insert k v w) = len_z v + total w.
Proof.
  intros Hs He. rewrite <-insert_remove by done. rewrite total_insert by (intros x; rewrite bt_remove_elem by done; naive_solver).
  destruct (bt_get k w) as [x|] eqn:Eg.
  - apply bt_get_elem in Eg; [|done]. rewrite (total_remove w k x) by done. rewrite (He x Eg). change (len_z []) with 0. lia.
  - f_equal. f_equal. apply bt_ext; [by apply bt_remove_sorted|done|]. intros j. rewrite get_remove by done. case_decide; [by subst|done].
Qed.
Lemma total_insert_le w k v : bt_sorted w → total (bt_insert k v w) ≤ len_z v + total w.
Proof.
  intros Hs. rewrite <-insert_remove by done. rewrite total_insert by (intros x; rewrite bt_remove_elem by done; naive_solver).
  destruct (bt_get k w) as [x|] eqn:Eg.
  - apply bt_get_elem in Eg; [|done]. rewrite (total_remove w k x) by done. pose proof (len_z_nonneg x). lia.
  - assert (bt_remove k w = w) as ->; [|done]. apply bt_ext; [by apply bt_remove_sorted|done|]. intros j. rewrite get_remove by done. case_decide; [by subst|done].
Qed.

(** A write replaces bytes only where it has some: it carries data, or starts where no
    interval holds a byte. *)
Definition lands (w : writes_map) (off : Z) (data : list Z) : Prop := data ≠ [] ∨ ∀ b, ¬ covers w off b.

(** What the map is after an insertion: the new interval, the old ones that do not overlap
    it, and pieces of the others. *)
Lemma fo_insert_elems w off data :
  iv_ok w → 0 ≤ off →
  let end_ := off + len_z data in
  ∃ w1, fo_insert w off data = Some (bt_insert off data w1, len_z data + total w1 - total w) ∧ iv_ok w1 ∧
    (∀ x, x ∈ w1 → x.1 + len_z x.2 ≤ off ∨ end_ ≤ x.1) ∧
    (∀ x, x ∈ w1 → x ∈ w ∨ x.2 ≠ []) ∧ (∀ x, x ∈ w → ¬ overlaps off end_ x → x ∈ w1) ∧
    ∀ i b, covers w1 i b ↔ covers w i b ∧ ¬ (off ≤ i < end_).
Proof.
  cbv zeta. intros V Ho. pose proof (len_z_nonneg data) as Hl. unfold fo_insert. cbv zeta. set (end_ := off + len_z data).
  destruct (overlapping_spec w off end_ V) as (L & -> & Hnd & HL). destruct (trims_spec off end_ L w (len_z data) V Ho ltac:(lia) Hnd) as (w1 & -> & V1 & Hback & Hkeep & Hc).
  { intros x Hx. by apply HL. }
  cbn [mbind option_bind]. exists w1. split; [done|]. split; [done|]. split_and!.
  - intros x [[Hx Hn]|[_ ?]]%Hback; [|done]. destruct (Z.le_gt_cases (x.1 + len_z x.2) off) as [?|H1]; [by left|]. right.
    destruct (Z.le_gt_cases end_ x.1) as [?|H2]; [done|]. destruct Hn. apply HL. split; [done|]. split; lia.
  - intros x [[Hx _]|[? _]]%Hback; [by left|by right].
  - intros x Hx Hn. apply Hkeep; [done|]. rewrite HL. naive_solver.
  - intros i b. rewrite Hc. split; (intros [Hci Hn]; split; [done|]; intros Hi; apply Hn).
    + destruct Hci as (k & v & Hin & Hk & Hb). pose proof (lookup_range _ _ _ Hb). split; [done|]. exists (k, v). split; [apply HL; split; [done|split; cbn; lia]|cbn; lia].
    + by destruct Hi as [? _].
Qed.

(** Last write wins, nothing else moves, and the byte census follows. A write of nothing
    into the middle of an interval loses the rest of it, and the census then counts too
    much. *)
Lemma fo_insert_spec w off data :
  iv_ok w → 0 ≤ off →
  ∃ w' d, fo_insert w off data = Some (w', d) ∧ iv_ok w' ∧ (data ≠ [] → iv_full w → iv_full w') ∧ total w' - total w ≤ d ∧
    (lands w off data → d = total w' - total w ∧
      ∀ i b, covers w' i b ↔ (off ≤ i ∧ data !! Z.to_nat (i - off) = Some b) ∨ (¬ (off ≤ i < off + len_z data) ∧ covers w i b)).
Proof.
  intros V Ho. destruct (fo_insert_elems w off data V Ho) as (w1 & -> & V1 & Hsep & Hfull & _ & Hc). pose proof (len_z_nonneg data) as Hl.
  assert (∀ k v, (k, v) ∈ bt_insert off data w1 ↔ (k = off ∧ v = data) ∨ (k ≠ off ∧ (k, v) ∈ w1)) as He by (intros k v; rewrite bt_insert_elem by apply V1; naive_solver).
  eexists _, _. split; [reflexivity|]. split; [|split; [|split]].
  - constructor; [apply bt_insert_sorted, V1| |].
    + intros k v [[-> ->]|[_ Hin]]%He; [done|by apply (io_elem _ V1 k v)].
    + intros k1 v1 k2 v2 [[-> ->]|[N1 H1]]%He [[-> ->]|[N2 H2]]%He Hlt; [lia| | |by apply (io_disj _ V1 k1 v1 k2 v2)].
      * destruct (Hsep _ H2); cbn in *; [|done]. pose proof (len_z_nonneg v2). lia.
      * destruct (Hsep _ H1); cbn in *; [done|lia].
  - intros Hd Hf k v [[-> ->]|[_ Hin]]%He; [done|]. destruct (Hfull _ Hin) as [Hw|?]; [by apply (Hf k)|done].
  - pose proof (total_insert_le w1 off data (io_sorted _ V1)). lia.
  - intros HL. assert (∀ x, (off, x) ∈ w1 → x = []) as Hno.
    { intros x Hx. destruct HL as [Hd|Hun].
      - pose proof (len_z_pos _ Hd). destruct (Hsep _ Hx) as [H1|H1]; cbn in H1; [|lia]. destruct x as [|y x]; [done|]. unfold len_z in H1. cbn in H1. lia.
      - destruct x as [|y x]; [done|]. exfalso. apply (Hun y). assert (covers w1 off y) as [? _]%Hc; [|done]. exists off, (y :: x). split; [done|]. split; [lia|]. by rewrite Z.sub_diag. }
    split; [rewrite total_replace by (done || apply V1); lia|]. intros i b. unfold covers at 1. split.
    + intros (k & v & [[-> ->]|[_ Hin]]%He & Hk & Hb); [by left|]. right. assert (covers w1 i b) as [? ?]%Hc by (by exists k, v). done.
    + intros [[Hi Hb]|[Hn Hcv]]; [exists off, data; split; [apply He; by left|done]|].
      assert (covers w1 i b) as (k & v & Hin & Hk & Hb) by (by apply Hc). exists k, v. split; [|done]. apply He. right. split; [|done]. intros ->. by rewrite (Hno v Hin) in Hb.
Qed.

(** ** Applying the intervals *)

Lemma put_at_length c off d : 0 ≤ off → length (put_at c off d) = Nat.max (length c) (Z.to_nat off + length d).
Proof.
  intros Ho. unfold put_at, len_z. cbv zeta. destruct (Z.ltb_spec (Z.of_nat (length c)) (off + Z.of_nat (length d))) as [Hlt|Hge].
  - rewrite splice_length; rewrite ?length_app, ?length_replicate; lia.
  - rewrite splice_length; lia.
Qed.

Lemma put_at_lookup c off d n :
  0 ≤ off → (n < length (put_at c off d))%nat →
  put_at c off d !! n = if decide (Z.to_nat off ≤ n < Z.to_nat off + length d)%nat then d !! (n - Z.to_nat off)%nat else Some (default 0 (c !! n)).
Proof.
  intros Ho Hn. rewrite put_at_length in Hn by done. unfold put_at, len_z. cbv zeta. destruct (Z.ltb_spec (Z.of_nat (length c)) (off + Z.of_nat (length d))) as [Hlt|Hge].
  - rewrite splice_lookup by (rewrite ?length_app, ?length_replicate; lia). case_decide; [done|]. destruct (decide (n < length c)%nat) as [Hc|Hc].
    + rewrite lookup_app_l by done. destruct (lookup_lt_is_Some_2 c n Hc) as [x Hx]. by rewrite Hx.
    + rewrite lookup_app_r by lia. rewrite lookup_replicate_2 by lia. by rewrite (proj2 (lookup_ge_None c n)) by lia.
  - rewrite splice_lookup by lia. case_decide; [done|]. destruct (lookup_lt_is_Some_2 c n) as [x Hx]; [lia|]. by rewrite Hx.
Qed.

Fixpoint reach (w : writes_map) : nat := match w with [] => 0 | (k, v) :: w' => Nat.max (Z.to_nat k + length v) (reach w') end.

Lemma iv_ok_tail x w : iv_ok (x :: w) → iv_ok w.
Proof.
  intros V. constructor.
  - destruct x. by destruct (io_sorted _ V).
  - intros k v Hin. apply (io_elem _ V k v). by right.
  - intros k1 v1 k2 v2 H1 H2. apply (io_disj _ V k1 v1 k2 v2); by right.
Qed.

Lemma iv_covers_cons k v w i b : covers ((k, v) :: w) i b ↔ (k ≤ i ∧ v !! Z.to_nat (i - k) = Some b) ∨ covers w i b.
Proof.
  unfold covers. split.
  - intros (k' & v' & [[= -> ->]|Hin]%elem_of_cons & Hk & Hb); [by left|]. right. by exists k', v'.
  - intros [[Hk Hb]|(k' & v' & Hin & Hk & Hb)]; [exists k, v; split; [by left|done]|]. exists k', v'. split; [by right|done].
Qed.

Lemma covers_excl k v w i b b' : iv_ok ((k, v) :: w) → k ≤ i → v !! Z.to_nat (i - k) = Some b → ¬ covers w i b'.
Proof.
  intros V Hk Hb (k' & v' & Hin & Hk' & Hb'). pose proof (lookup_range _ _ _ Hb). pose proof (lookup_range _ _ _ Hb').
  destruct (iv_same _ k v k' v' i V) as [-> _]; [by left|by right|lia|lia|]. destruct (io_sorted _ V) as [H1 _]. by apply (lt_irrefl k'), (H1 k' v').
Qed.

Lemma apply_writes_length w c : (∀ k v, (k, v) ∈ w → 0 ≤ k) → length (apply_writes w c) = Nat.max (length c) (reach w).
Proof.
  revert c. induction w as [|[k v] w IH]; intros c Hk; cbn; [lia|]. fold (apply_writes w (put_at c k v)). rewrite IH; [|intros k' v' Hin; apply (Hk k' v'); by right].
  rewrite put_at_length; [lia|]. apply (Hk k v). by left.
Qed.

Lemma apply_writes_lookup w c n :
  iv_ok w → (n < length (apply_writes w c))%nat →
  (∀ b, covers w (Z.of_nat n) b → apply_writes w c !! n = Some b) ∧
  ((∀ b, ¬ covers w (Z.of_nat n) b) → apply_writes w c !! n = Some (default 0 (c !! n))).
Proof.
  revert c. induction w as [|[k v] w IH]; intros c V Hn.
  - cbn in *. split; [by intros b (k & v & ?%elem_of_nil & _)|]. intros _. destruct (lookup_lt_is_Some_2 c n Hn) as [x Hx]. by rewrite Hx.
  - change (apply_writes ((k, v) :: w) c) with (apply_writes w (put_at c k v)) in *. pose proof (iv_ok_tail _ _ V) as V'. destruct (IH (put_at c k v) V' Hn) as [IH1 IH2].
    assert (0 ≤ k) as Hk0 by (apply (io_elem _ V k v); by left).
    assert ((n < length (put_at c k v))%nat → put_at c k v !! n = if decide (Z.to_nat k ≤ n < Z.to_nat k + length v)%nat then v !! (n - Z.to_nat k)%nat else Some (default 0 (c !! n))) as Hp by (intros; by apply put_at_lookup).
    split.
    + intros b [[Hk Hb]|Hc]%iv_covers_cons; [|by apply IH1]. rewrite IH2 by (intros b'; by eapply covers_excl). pose proof (lookup_range _ _ _ Hb) as Hr. unfold len_z in Hr.
      rewrite Hp by (rewrite put_at_length by done; lia). rewrite decide_True by lia. replace (n - Z.to_nat k)%nat with (Z.to_nat (Z.of_nat n - k)) by lia. by rewrite Hb.
    + intros Hno. rewrite IH2 by (intros b Hb; apply (Hno b); apply iv_covers_cons; by right). f_equal. destruct (decide (n < length (put_at c k v))%nat) as [Hl|Hl].
      * rewrite Hp by done. rewrite decide_False; [done|]. intros Hr. destruct (lookup_lt_is_Some_2 v (n - Z.to_nat k)%nat) as [b Hb]; [lia|].
        apply (Hno b). apply iv_covers_cons. left. split; [lia|]. by replace (Z.to_nat (Z.of_nat n - k)) with (n - Z.to_nat k)%nat by lia.
      * rewrite put_at_length in Hl by done. rewrite (proj2 (lookup_ge_None (put_at c k v) n)) by (rewrite put_at_length by done; lia). by rewrite (proj2 (lookup_ge_None c n)) by lia.
Qed.

Lemma reach_spec w n : (n < reach w)%nat ↔ ∃ k v, (k, v) ∈ w ∧ (n < Z.to_nat k + length v)%nat.
Proof.
  induction w as [|[k v] w IH]; cbn [reach].
  - split; [lia|]. by intros (k & v & ?%elem_of_nil & _).
  - rewrite Nat.max_lt_iff, IH. split.
    + intros [Hn|(k' & v' & Hin & Hn)]; [exists k, v; split; [by left|done]|exists k', v'; split; [by right|done]].
    + intros (k' & v' & [[= -> ->]|Hin]%elem_of_cons & Hn); [by left|right; by exists k', v'].
Qed.
(** The last byte of an interval that is not empty. *)
Lemma last_covered (w : writes_map) k v : (k, v) ∈ w → v ≠ [] → ∃ b, covers w (k + len_z v - 1) b.
Proof.
  intros Hin Hv%len_z_pos. unfold len_z in *. destruct (lookup_lt_is_Some_2 v (Z.to_nat (k + Z.of_nat (length v) - 1 - k))) as [b Hb]; [lia|].
  exists b, k, v. split; [done|]. split; [lia|done].
Qed.

(** How far the intervals reach. *)
Lemma fo_insert_reach w off data w' d :
  iv_ok w → 0 ≤ off → lands w off data → fo_insert w off data = Some (w', d) → reach w' = Nat.max (reach w) (Z.to_nat off + length data).
Proof.
  intros V Ho HL E. destruct (fo_insert_spec w off data V Ho) as (w2 & d2 & E2 & V' & _ & _ & [_ Hc]%(λ f, f HL)). rewrite E in E2. injection E2 as <- <-.
  destruct (fo_insert_elems w off data V Ho) as (w1 & E1 & V1 & _ & Hfull & Hkeep & _). rewrite E in E1. injection E1 as E1 _.
  assert (∀ k v, (k, v) ∈ w' ↔ (k = off ∧ v = data) ∨ (k ≠ off ∧ (k, v) ∈ w1)) as He by (intros k v; rewrite E1, bt_insert_elem by apply V1; naive_solver).
  assert (∀ n, (n < reach w' ↔ n < Nat.max (reach w) (Z.to_nat off + length data))%nat) as Hiff.
  { intros n. rewrite Nat.max_lt_iff, !reach_spec. unfold len_z in *. split.
    - intros (k & v & Hin & Hn). pose proof (io_elem _ V' _ _ Hin) as Hk. destruct (decide (v = [])) as [->|Hv].
      + apply He in Hin as [[-> <-]|[_ Hin]]; [by right|]. destruct (Hfull _ Hin) as [Hw|?]; [left; by exists k, []|done].
      + destruct (last_covered w' k v Hin Hv) as [b Hb]. unfold len_z in Hb. apply Hc in Hb as [[H1 H2]|[_ (k' & v' & H1 & H2 & H3)]].
        * right. apply lookup_lt_Some in H2. lia.
        * left. exists k', v'. split; [done|]. apply lookup_lt_Some in H3. pose proof (io_elem _ V _ _ H1). lia.
    - intros [(k & v & Hin & Hn)|Hn]; [|exists off, data; split; [apply He; by left|done]]. pose proof (io_elem _ V _ _ Hin) as Hk.
      destruct (decide (n < Z.to_nat off + length data)%nat) as [Hd|Hd]; [exists off, data; split; [apply He; by left|done]|].
      destruct (decide (v = [])) as [->|Hv].
      + cbn in Hn. exists k, []. split; [|cbn; lia]. apply He. right. split; [lia|]. apply Hkeep; [done|]. unfold overlaps. cbn. lia.
      + destruct (last_covered w k v Hin Hv) as [b Hb]. unfold len_z in Hb. assert (covers w' (k + Z.of_nat (length v) - 1) b) as (k' & v' & H1 & H2 & H3).
        { apply Hc. right. split; [|done]. lia. }
        exists k', v'. split; [done|]. apply lookup_lt_Some in H3. pose proof (io_elem _ V' _ _ H1). lia. }
  destruct (Nat.lt_trichotomy (reach w') (Nat.max (reach w) (Z.to_nat off + length data))) as [H1|[H1|H1]]; [|done|].
  - pose proof (proj2 (Hiff _) H1). lia.
  - pose proof (proj1 (Hiff _) H1). lia.
Qed.

Lemma covers_dec w i : (∃ b, covers w i b) ∨ ∀ b, ¬ covers w i b.
Proof.
  induction w as [|[k v] w [[b IH]|IH]].
  - right. by intros b (k & v & ?%elem_of_nil & _).
  - left. exists b. apply iv_covers_cons. by right.
  - destruct (decide (k ≤ i)) as [Hk|Hk]; [|right; intros b [[? _]|?]%iv_covers_cons; [done|by apply (IH b)]].
    destruct (v !! Z.to_nat (i - k)) as [b|] eqn:E; [left; exists b; apply iv_covers_cons; by left|]. right. intros b [[_ ?]|?]%iv_covers_cons; [congruence|by apply (IH b)].
Qed.

(** The interval map refines a plain file: inserting and applying is writing the bytes into
    the applied content. *)
Lemma apply_insert w off data w' d c :
  iv_ok w → 0 ≤ off → lands w off data → fo_insert w off data = Some (w', d) → apply_writes w' c = put_at (apply_writes w c) off data.
Proof.
  intros V Ho HL E. pose proof (fo_insert_reach w off data w' d V Ho HL E) as Hr.
  destruct (fo_insert_spec w off data V Ho) as (w2 & d2 & E2 & V' & _ & _ & [_ Hc]%(λ f, f HL)). rewrite E2 in E. injection E as -> ->. rename w' into w2. unfold len_z in *.
  assert (∀ w, iv_ok w → ∀ k v, (k, v) ∈ w → 0 ≤ k) as Hnn by (intros w0 V0 k v Hin; by apply (io_elem _ V0 k v)).
  assert (length (apply_writes w2 c) = length (put_at (apply_writes w c) off data)) as Hlen.
  { rewrite put_at_length, !apply_writes_length by (done || by apply Hnn). lia. }
  apply list_eq_same_length with (length (put_at (apply_writes w c) off data)); [done|done|]. intros n x y Hn Hx Hy.
  assert (apply_writes w2 c !! n = put_at (apply_writes w c) off data !! n) as Hq; [|congruence]. clear x y Hx Hy.
  destruct (apply_writes_lookup w2 c n V' ltac:(lia)) as [A1 A2]. rewrite put_at_lookup by done. case_decide as Hin.
  - destruct (lookup_lt_is_Some_2 data (n - Z.to_nat off)%nat) as [x Hx]; [lia|]. rewrite Hx. apply A1. apply Hc. left. split; [lia|]. by replace (Z.to_nat (Z.of_nat n - off)) with (n - Z.to_nat off)%nat by lia.
  - assert (∀ b, covers w2 (Z.of_nat n) b ↔ covers w (Z.of_nat n) b) as Hsame.
    { intros b. rewrite Hc. split; [intros [[H1 H2]|[_ H2]]; [apply lookup_range in H2; unfold len_z in H2; lia|done]|]. intros H2. right. split; [lia|done]. }
    destruct (decide (n < length (apply_writes w c))%nat) as [Hl2|Hl2].
    + destruct (apply_writes_lookup w c n V Hl2) as [B1 B2]. destruct (covers_dec w (Z.of_nat n)) as [[b Hb]|Hno].
      * rewrite (A1 b) by (by apply Hsame). by rewrite (B1 b).
      * rewrite A2 by (intros b Hb%Hsame; by apply (Hno b)). by rewrite B2.
    + rewrite (proj2 (lookup_ge_None (apply_writes w c) n)) by lia. cbn. rewrite A2; [|].
      * rewrite (proj2 (lookup_ge_None c n)); [done|]. rewrite apply_writes_length in Hl2 by (by apply Hnn). lia.
      * intros b Hb%Hsame. apply Hl2. rewrite apply_writes_length by (by apply Hnn). assert (n < reach w)%nat; [|lia].
        destruct Hb as (k & v & Hkv & Hk & Hb). apply reach_spec. exists k, v. split; [done|]. apply lookup_lt_Some in Hb. pose proof (io_elem _ V _ _ Hkv). lia.
Qed.

(** * Consistency of the overlay *)

Definition census (m : btree FileId FileOverlay) : Z := foldr (λ x acc, total (fo_writes x.2) + acc) 0 m.

(** What every operation keeps, on any arguments the store passes. The cross-checks of
    [check_invariants] that can fail are under [full]: a write without data leaves an
    empty interval and a byte count that is too high, and a rename onto a name held open
    leaves an open handle without a name. *)
Record ov_inv (full : Prop) (o : Overlay) (next_id : FileId) : Prop := {
  oo_sorted : bt_sorted (ov_by_id o) ∧ bt_sorted (ov_by_name o) ∧ bt_sorted (ov_names o) ∧ bt_sorted (ov_tombs o) ∧ bt_sorted (ov_open o) ∧ bt_sorted (ov_dir_renames o);
  oo_by_name p id : bt_get p (ov_by_name o) = Some id → bt_get id (ov_names o) = Some (Some p);
  oo_names id p : bt_get id (ov_names o) = Some (Some p) → bt_get p (ov_by_name o) = Some id;
  oo_held id n : bt_get id (ov_names o) = Some n → id < next_id ∧ (is_Some (bt_get id (ov_by_id o)) ∨ is_Some (bt_get id (ov_open o)));
  oo_orphan id : bt_get id (ov_names o) = Some None → is_Some (bt_get id (ov_open o));
  oo_dirty p id fo : bt_get p (ov_by_name o) = Some id → bt_get id (ov_by_id o) = Some fo → bt_get p (ov_tombs o) = None;
  oo_by_id id fo : bt_get id (ov_by_id o) = Some fo → id < next_id ∧ iv_ok (fo_writes fo) ∧ (full → is_Some (bt_get id (ov_names o)) ∧ iv_full (fo_writes fo));
  oo_open id c : bt_get id (ov_open o) = Some c → id < next_id ∧ 0 < c ∧ (full → is_Some (bt_get id (ov_names o)));
  oo_bytes : census (ov_by_id o) ≤ ov_bytes o ∧ (full → ov_bytes o = census (ov_by_id o));
}.
(** All of the cross-checks. *)
Definition ov_ok : Overlay → FileId → Prop := ov_inv True.
(** Those that hold whatever is done. *)
Definition ov_weak : Overlay → FileId → Prop := ov_inv False.

Lemma census_perm m1 m2 : m1 ≡ₚ m2 → census m1 = census m2.
Proof. unfold census. induction 1; cbn; [done|lia|lia|lia]. Qed.
Lemma census_cons x m : census (x :: m) = total (fo_writes x.2) + census m.
Proof. done. Qed.
Lemma census_remove m id fo : bt_sorted m → bt_get id m = Some fo → census (bt_remove id m) = census m - total (fo_writes fo).
Proof. intros Hs Hg. apply bt_get_elem in Hg; [|done]. rewrite (census_perm _ _ (bt_remove_perm m id fo Hs Hg)), census_cons. cbn. lia. Qed.
Lemma census_insert m id fo : bt_sorted m → census (bt_insert id fo m) = total (fo_writes fo) + census m - match bt_get id m with Some f => total (fo_writes f) | None => 0 end.
Proof.
  intros Hs. destruct (bt_get id m) as [f|] eqn:Hg.
  - rewrite <-insert_remove by done. assert (∀ x, (id, x) ∉ bt_remove id m) as Hn by (intros x; rewrite bt_remove_elem by done; naive_solver).
    rewrite (census_perm _ _ (bt_insert_perm _ id fo Hn)), census_cons, (census_remove m id f) by done. cbn. lia.
  - rewrite (census_perm _ _ (bt_insert_perm m id fo (get_None_elem m id Hs Hg))), census_cons. cbn. lia.
Qed.
Lemma total_nonneg w : 0 ≤ total w.
Proof. unfold total. induction w as [|[k v] w IH]; cbn; [lia|]. pose proof (len_z_nonneg v). lia. Qed.
Lemma census_nonneg m : 0 ≤ census m.
Proof. unfold census. induction m as [|[k v] m IH]; cbn; [lia|]. pose proof (total_nonneg (fo_writes v)). lia. Qed.
Lemma census_get m id fo : bt_sorted m → bt_get id m = Some fo → total (fo_writes fo) ≤ census m.
Proof. intros Hs Hg. pose proof (census_remove m id fo Hs Hg). pose proof (census_nonneg (bt_remove id m)). lia. Qed.

Lemma ov_default_ok full n : ov_inv full Overlay_default n.
Proof. constructor; try done; split_and!; done. Qed.
Lemma ov_inv_mono full o n n' : n ≤ n' → ov_inv full o n → ov_inv full o n'.
Proof.
  intros Hn V. constructor; try apply V.
  - intros id x Hx. destruct (oo_held _ _ _ V _ _ Hx). split; [lia|done].
  - intros id x Hx. destruct (oo_by_id _ _ _ V _ _ Hx) as [H1 H2]. split; [lia|done].
  - intros id x Hx. destruct (oo_open _ _ _ V _ _ Hx) as [H1 H2]. split; [lia|done].
Qed.
Lemma ov_ok_weak o n : ov_ok o n → ov_weak o n.
Proof.
  intros V. constructor; try apply V.
  - intros id x Hx. destruct (oo_by_id _ _ _ V _ _ Hx) as (H1 & H2 & _). by split_and!.
  - intros id x Hx. destruct (oo_open _ _ _ V _ _ Hx) as (H1 & H2 & _). by split_and!.
  - split; [apply (oo_bytes _ _ _ V)|done].
Qed.

(** Lookups through every update of the components. *)
Ltac ov_get :=
  repeat match goal with
  | |- context [bt_get _ (bt_insert _ _ _)] => rewrite get_insert by eauto with btree
  | |- context [bt_get _ (bt_remove _ _)] => rewrite get_remove by eauto with btree
  | Hq : context [bt_get _ (bt_insert _ _ _)] |- _ => rewrite get_insert in Hq by eauto with btree
  | Hq : context [bt_get _ (bt_remove _ _)] |- _ => rewrite get_remove in Hq by eauto with btree
  | |- context [decide (?a = ?b)] => destruct (decide (a = b)); [try subst|]
  | Hq : context [decide (?a = ?b)] |- _ => destruct (decide (a = b)); [try subst|]
  end; try done.

Lemma bind_name_spec full o path next_id id o' next' :
  ov_inv full o next_id → bind_name o path next_id = (id, o', next') →
  next_id ≤ next' ∧ ov_by_id o' = ov_by_id o ∧ ov_tombs o' = ov_tombs o ∧ ov_open o' = ov_open o ∧ ov_dir_renames o' = ov_dir_renames o ∧ ov_bytes o' = ov_bytes o ∧
  bt_sorted (ov_by_name o') ∧ bt_sorted (ov_names o') ∧ id < next' ∧ bt_get path (ov_by_name o') = Some id ∧ bt_get id (ov_names o') = Some (Some path) ∧
  (∀ p, p ≠ path → bt_get p (ov_by_name o') = bt_get p (ov_by_name o)) ∧ (∀ i, i ≠ id → bt_get i (ov_names o') = bt_get i (ov_names o)) ∧
  (bt_get path (ov_by_name o) = None → bt_get id (ov_names o) = None ∧ id = next_id) ∧ (∀ j, bt_get path (ov_by_name o) = Some j → j = id).
Proof.
  intros V. destruct (oo_sorted _ _ _ V) as (S1 & S2 & S3 & S4 & S5 & S6). unfold bind_name. destruct (bt_get path (ov_by_name o)) as [j|] eqn:E; intros [= <- <- <-]; cbn [ov_by_id ov_by_name ov_names ov_tombs ov_open ov_dir_renames ov_bytes].
  - split_and!; try done. + by apply (oo_held _ _ _ V _ _ (oo_by_name _ _ _ V _ _ E)). + by apply (oo_by_name _ _ _ V). + by intros ? [= <-].
  - assert (bt_get next_id (ov_names o) = None) as Hf. { destruct (bt_get next_id (ov_names o)) eqn:En; [|done]. destruct (oo_held _ _ _ V _ _ En). lia. }
    split_and!; try done; try lia; eauto with btree; intros; ov_get; lia.
Qed.

Lemma iv_ok_nil : iv_ok [].
Proof. constructor; [done|by intros k v ?%elem_of_nil|by intros k1 v1 k2 v2 ?%elem_of_nil]. Qed.
Lemma iv_full_nil : iv_full [].
Proof. by intros k v ?%elem_of_nil. Qed.

(** Every write returns, and the census stays below the count. *)
Lemma write_into_spec o id fresh_fo offset data mtime :
  bt_sorted (ov_by_id o) → (∀ i fo, bt_get i (ov_by_id o) = Some fo → iv_ok (fo_writes fo)) → census (ov_by_id o) ≤ ov_bytes o → fo_writes fresh_fo = [] → 0 ≤ offset →
  let f := default fresh_fo (bt_get id (ov_by_id o)) in
  ∃ fo n, write_into o id fresh_fo offset data mtime =
      Ret (MkOverlay (bt_insert id fo (ov_by_id o)) (ov_by_name o) (ov_names o) (ov_tombs o) (ov_open o) (ov_dir_renames o) n) ∧
    census (bt_insert id fo (ov_by_id o)) ≤ n ∧ (lands (fo_writes f) offset data → ov_bytes o = census (ov_by_id o) → n = census (bt_insert id fo (ov_by_id o))) ∧
    iv_ok (fo_writes fo) ∧ (data ≠ [] → iv_full (fo_writes f) → iv_full (fo_writes fo)) ∧ fo_fresh fo = fo_fresh f ∧ fo_origin fo = fo_origin f ∧ fo_mtime fo = mtime ∧
    (lands (fo_writes f) offset data → ∀ base, apply fo base = put_at (apply f base) offset data).
Proof.
  cbv zeta. intros Hs Hok Hb Hf Ho. unfold write_into. cbv zeta. set (f := default fresh_fo (bt_get id (ov_by_id o))).
  assert (iv_ok (fo_writes f)) as V by (unfold f; destruct (bt_get id (ov_by_id o)) as [x|] eqn:E; [by apply (Hok id)|cbn; rewrite Hf; apply iv_ok_nil]).
  destruct (fo_insert_spec (fo_writes f) offset data V Ho) as (w' & d & E & V' & Hfull & Hd & Hl). rewrite E.
  assert (census (bt_insert id (MkFo w' (fo_fresh f) mtime (fo_origin f)) (ov_by_id o)) = census (ov_by_id o) + total w' - total (fo_writes f)) as Hc.
  { rewrite census_insert by done. unfold f. destruct (bt_get id (ov_by_id o)) as [x|]; cbn [fo_writes]; [change (default fresh_fo (Some x)) with x; lia|].
    change (default fresh_fo None) with fresh_fo. rewrite Hf. change (total []) with 0. lia. }
  pose proof (census_nonneg (bt_insert id (MkFo w' (fo_fresh f) mtime (fo_origin f)) (ov_by_id o))).
  exists (MkFo w' (fo_fresh f) mtime (fo_origin f)), (Z.max (ov_bytes o + d) 0). split; [done|]. split; [lia|]. split; [|split; [done|split; [done|]]].
  - intros [-> _]%Hl He. lia.
  - split_and!; try done. intros HL base. unfold apply. cbn [fo_writes fo_fresh]. by apply (apply_insert (fo_writes f) offset data w' d).
Qed.

(** ** Writing through a name *)
(** What a write lands on. *)
Definition dirty_of (o : Overlay) (path : Path) : writes_map := match state o path with Dirty f => fo_writes f | _ => [] end.

Lemma write_spec full o path offset data mtime next_id :
  ov_inv full o next_id → 0 ≤ offset → (full → data ≠ []) →
  ∃ o' next' fo, write o path offset data mtime next_id = Ret (o', next') ∧ ov_inv full o' next' ∧ next_id ≤ next' ∧
    state o' path = Dirty fo ∧ fo_mtime fo = mtime ∧
    (lands (dirty_of o path) offset data → ∀ base, apply fo base = put_at (match state o path with Dirty f => apply f base | Clean => base | Unlinked => [] end) offset data) ∧
    ∀ p, p ≠ path → state o' p = state o p.
Proof.
  intros V Ho Hd. destruct (oo_sorted _ _ _ V) as (S1 & S2 & S3 & S4 & S5 & S6). unfold write. cbv zeta.
  set (tomb := bool_decide (is_Some (bt_get path (ov_tombs o)))). set (o1 := MkOverlay _ _ _ (bt_remove path (ov_tombs o)) _ _ _).
  assert (ov_inv full o1 next_id) as V1.
  { constructor; cbn; try apply V; [split_and!; eauto with btree|]. intros p id fo Hn Hi. ov_get. by eapply (oo_dirty _ _ _ V). }
  destruct (bind_name o1 path next_id) as [[id o2] next'] eqn:Eb.
  destruct (bind_name_spec _ _ _ _ _ _ _ V1 Eb) as (B1 & B2 & B3 & B4 & B5 & B6 & B7 & B8 & B9 & B10 & B11 & B12 & B13 & B14 & B15). cbn [o1 ov_by_id ov_tombs ov_open ov_dir_renames ov_bytes ov_by_name ov_names] in *.
  set (ff := MkFo [] tomb 0 (if tomb then None else Some path)).
  destruct (write_into_spec o2 id ff offset data mtime) as (fo & n & -> & Hc1 & Hc2 & Hfo & Hfu & Hfr & Hor & Hmt & Hap); try done; rewrite ?B2, ?B6 in *.
  { done. } { intros i f Hi. by apply (oo_by_id _ _ _ V i). } { apply (oo_bytes _ _ _ V). }
  assert (∀ p, bt_get p (ov_by_name o) = Some id → p = path) as Huniq.
  { intros p Hp. destruct (bt_get path (ov_by_name o)) as [j|] eqn:Ej.
    - specialize (B15 j eq_refl) as ->. apply (oo_by_name _ _ _ V) in Hp, Ej. congruence.
    - apply (oo_by_name _ _ _ V) in Hp. rewrite (proj1 (B14 eq_refl)) in Hp. done. }
  assert (∀ i, bt_get i (ov_names o) = Some (Some path) → i = id) as Huniq2 by (intros i Hi%(oo_names _ _ _ V); by apply B15).
  assert (bt_get path (ov_by_name o) = None → bt_get id (ov_by_id o) = None) as Hfresh.
  { intros [_ ->]%B14. destruct (bt_get next_id (ov_by_id o)) as [x|] eqn:Ex; [|done]. destruct (oo_by_id _ _ _ V _ _ Ex). lia. }
  (* the file written to is what the path read as *)
  assert (match state o path with Dirty f => bt_get id (ov_by_id o) = Some f | Clean => bt_get id (ov_by_id o) = None ∧ tomb = false | Unlinked => bt_get id (ov_by_id o) = None ∧ tomb = true end) as Hst.
  { unfold state. destruct (bt_get path (ov_tombs o)) as [[]|] eqn:Et.
    - split; [|apply bool_decide_eq_true; by eexists]. destruct (bt_get path (ov_by_name o)) as [j|] eqn:Ej; [|by apply Hfresh]. specialize (B15 j eq_refl) as ->.
      destruct (bt_get id (ov_by_id o)) as [f|] eqn:Eid; [|done]. pose proof (oo_dirty _ _ _ V _ _ _ Ej Eid). congruence.
    - assert (tomb = false) as Htb by (apply bool_decide_eq_false; by intros [? ?]). destruct (bt_get path (ov_by_name o)) as [j|] eqn:Ej; [|by rewrite Hfresh].
      specialize (B15 j eq_refl) as ->. by destruct (bt_get id (ov_by_id o)). }
  assert (fo_writes (default ff (bt_get id (ov_by_id o))) = dirty_of o path) as Hdirty by (unfold dirty_of; destruct (state o path); [destruct Hst as [-> _]|rewrite Hst|destruct Hst as [-> _]]; done).
  rewrite Hdirty in *. eexists _, _, fo. split; [reflexivity|]. split_and!; [|done| | | |].
  - constructor; cbn [ov_by_id ov_by_name ov_names ov_tombs ov_open ov_dir_renames ov_bytes]; rewrite ?B2, ?B3, ?B4, ?B5.
    + split_and!; eauto with btree.
    + intros p i Hp. destruct (decide (p = path)) as [->|Hn]; [rewrite B10 in Hp; by injection Hp as <-|]. rewrite B12 in Hp by done. rewrite B13; [by apply (oo_by_name _ _ _ V)|]. intros ->. by apply Hn, Huniq.
    + intros i p Hi. destruct (decide (i = id)) as [->|Hn]; [rewrite B11 in Hi; by injection Hi as <-|]. rewrite B13 in Hi by done. rewrite B12; [by apply (oo_names _ _ _ V)|]. intros ->. by apply Hn, Huniq2.
    + intros i x Hi. destruct (decide (i = id)) as [->|Hn]; [split; [done|left; ov_get]|]. rewrite B13 in Hi by done. destruct (oo_held _ _ _ V _ _ Hi) as [H1 H2]. split; [lia|]. ov_get.
    + intros i Hi. destruct (decide (i = id)) as [->|Hn]; [congruence|]. rewrite B13 in Hi by done. by apply (oo_orphan _ _ _ V).
    + intros p i f Hp Hi. destruct (decide (p = path)) as [->|Hn]; [ov_get|]. rewrite B12 in Hp by done. ov_get; [by apply Huniq in Hp|]. by eapply (oo_dirty _ _ _ V).
    + intros i f Hi. ov_get.
      * injection Hi as <-. split_and!; [done|done|]. intros Hf. split; [by rewrite B11|]. apply Hfu; [by apply Hd|]. rewrite <-Hdirty. destruct (bt_get id (ov_by_id o)) as [x|] eqn:Ex; [|apply iv_full_nil].
        by apply (oo_by_id _ _ _ V id x).
      * destruct (oo_by_id _ _ _ V _ _ Hi) as (H1 & H2 & H3). split_and!; [lia|done|]. intros Hf. rewrite B13 by done. by apply H3.
    + intros i c Hc. destruct (oo_open _ _ _ V _ _ Hc) as (H1 & H2 & H3). split_and!; [lia|done|]. intros Hf. destruct (decide (i = id)) as [->|Hn]; [by rewrite B11|rewrite B13 by done; by apply H3].
    + split; [done|]. intros Hf. apply Hc2; [left; by apply Hd|by apply (oo_bytes _ _ _ V)].
  - unfold state. cbn [ov_by_id ov_by_name ov_tombs]. rewrite B3, B10. ov_get.
  - done.
  - intros HL base. rewrite Hap by done. f_equal. assert (apply ff base = if tomb then [] else base) as Hff by done. destruct (state o path); [destruct Hst as [-> Ht]|by rewrite Hst|destruct Hst as [-> Ht]]; cbn [default]; by rewrite Hff, Ht.
  - intros p Hp. unfold state. cbn [ov_by_id ov_by_name ov_tombs]. rewrite B3, B12 by done. ov_get. destruct (bt_get p (ov_tombs o)); [done|]. destruct (bt_get p (ov_by_name o)) as [i|] eqn:Ei; [|done].
    ov_get. by apply Huniq in Ei.
Qed.

(** ** Unlinking *)
Lemma reap_get o id i : bt_sorted (ov_by_id o) → bt_get i (ov_by_id (reap o id)) = if decide (i = id) then None else bt_get i (ov_by_id o).
Proof. intros Hs. unfold reap. destruct (bt_get id (ov_by_id o)) eqn:E; cbn; [by rewrite get_remove by done|]. case_decide; [by subst|done]. Qed.
Lemma reap_sorted o id : bt_sorted (ov_by_id o) → bt_sorted (ov_by_id (reap o id)).
Proof. intros Hs. unfold reap. destruct (bt_get id (ov_by_id o)); cbn; [by apply bt_remove_sorted|done]. Qed.
Lemma reap_bytes (full : Prop) o id :
  bt_sorted (ov_by_id o) → census (ov_by_id o) ≤ ov_bytes o ∧ (full → ov_bytes o = census (ov_by_id o)) →
  census (ov_by_id (reap o id)) ≤ ov_bytes (reap o id) ∧ (full → ov_bytes (reap o id) = census (ov_by_id (reap o id))).
Proof.
  intros Hs [Hb1 Hb2]. unfold reap. destruct (bt_get id (ov_by_id o)) as [fo|] eqn:E; [|done]. cbn [ov_bytes ov_by_id]. rewrite (census_remove _ _ _ Hs E). pose proof (census_get _ _ _ Hs E).
  split; [lia|]. intros Hf. specialize (Hb2 Hf). lia.
Qed.
Lemma reap_rest o id :
  ov_by_name (reap o id) = ov_by_name o ∧ ov_names (reap o id) = ov_names o ∧ ov_tombs (reap o id) = ov_tombs o ∧ ov_open (reap o id) = ov_open o ∧ ov_dir_renames (reap o id) = ov_dir_renames o.
Proof. unfold reap. by destruct (bt_get id (ov_by_id o)). Qed.
#[export] Hint Resolve reap_sorted : btree.

Lemma is_open_spec full o next id : ov_inv full o next → is_open o id = true ↔ is_Some (bt_get id (ov_open o)).
Proof.
  intros V. unfold is_open. destruct (bt_get id (ov_open o)) as [c|] eqn:E; cbn; [|split; [done|by intros [? ?]]].
  destruct (oo_open _ _ _ V _ _ E) as (_ & ? & _). split; [by eexists|]. intros _. by apply Z.ltb_lt.
Qed.

Lemma unlink_spec full o path next :
  ov_inv full o next → ov_inv full (unlink o path) next ∧ state (unlink o path) path = Unlinked ∧ (∀ p, p ≠ path → state (unlink o path) p = state o p) ∧
    ∀ id, bt_get path (ov_by_name o) = Some id → is_Some (bt_get id (ov_open o)) → read_orphan (unlink o path) id = read_orphan o id ∧ name_of (unlink o path) id = None.
Proof.
  intros V. destruct (oo_sorted _ _ _ V) as (S1 & S2 & S3 & S4 & S5 & S6). unfold unlink. cbv zeta.
  destruct (bt_get path (ov_by_name o)) as [id|] eqn:Ep.
  - pose proof (oo_by_name _ _ _ V _ _ Ep) as Enm.
    assert (∀ p, p ≠ path → bt_get p (ov_by_name o) ≠ Some id) as Hu by (intros p Hp Hq%(oo_by_name _ _ _ V); congruence).
    change (is_open (set_by_name o (bt_remove path (ov_by_name o))) id) with (is_open o id). destruct (is_open o id) eqn:Eo.
    + apply (is_open_spec _ _ _ _ V) in Eo. split_and!.
      * constructor; cbn; try apply V.
        -- split_and!; eauto with btree.
        -- intros p i Hp. ov_get; [by exfalso; eapply Hu|]. by apply (oo_by_name _ _ _ V).
        -- intros i p Hi. ov_get; [by apply (oo_names _ _ _ V) in Hi; rewrite Ep in Hi; injection Hi as <-|]. by apply (oo_names _ _ _ V).
        -- intros i n Hi. ov_get; [by apply (oo_held _ _ _ V id (Some path))|]. by apply (oo_held _ _ _ V i n).
        -- intros i Hi. ov_get. by apply (oo_orphan _ _ _ V).
        -- intros p i fo Hp Hi. ov_get. by eapply (oo_dirty _ _ _ V).
        -- intros i fo Hi. destruct (oo_by_id _ _ _ V _ _ Hi) as (H1 & H2 & H3). split_and!; [done|done|]. intros Hf. destruct (H3 Hf). split; [ov_get|done].
        -- intros i c Hi. destruct (oo_open _ _ _ V _ _ Hi) as (H1 & H2 & H3). split_and!; [done|done|]. intros Hf. specialize (H3 Hf). ov_get.
      * unfold state. cbn. ov_get.
      * intros p Hp. unfold state. cbn. ov_get.
      * intros i [= <-] _. split; [done|]. unfold name_of. cbn. ov_get.
    + set (o1 := set_by_name o (bt_remove path (ov_by_name o))). destruct (reap_rest o1 id) as (R1 & R2 & R3 & R4 & R5). assert (bt_get id (ov_open o) = None) as Hno.
      { destruct (bt_get id (ov_open o)) eqn:E; [|done]. assert (is_open o id = true) by (apply (is_open_spec _ _ _ _ V); by eexists). congruence. }
      assert (∀ i, bt_get i (ov_by_id (reap o1 id)) = if decide (i = id) then None else bt_get i (ov_by_id o)) as Rg by (intros i; exact (reap_get o1 id i S1)).
      split_and!.
      * constructor; cbn; rewrite ?R1, ?R2, ?R3, ?R4, ?R5; cbn.
        -- split_and!; eauto with btree.
        -- intros p i Hp. ov_get; [by exfalso; eapply Hu|]. by apply (oo_by_name _ _ _ V).
        -- intros i p Hi. ov_get; [by apply (oo_names _ _ _ V) in Hi; rewrite Ep in Hi; injection Hi as <-|]. by apply (oo_names _ _ _ V).
        -- intros i n Hi. rewrite Rg. ov_get. by apply (oo_held _ _ _ V i n).
        -- intros i Hi. ov_get. by apply (oo_orphan _ _ _ V).
        -- intros p i fo Hp Hi. rewrite Rg in Hi. ov_get. by eapply (oo_dirty _ _ _ V).
        -- intros i fo Hi. rewrite Rg in Hi. ov_get. by apply (oo_by_id _ _ _ V).
        -- intros i c Hi. destruct (oo_open _ _ _ V _ _ Hi) as (H1 & H2 & H3). split_and!; [done|done|]. intros Hf. specialize (H3 Hf). ov_get. congruence.
        -- apply reap_bytes; [done|]. apply (oo_bytes _ _ _ V).
      * unfold state. cbn. rewrite R3. cbn. ov_get.
      * intros p Hp. unfold state. cbn. rewrite R1, R3. cbn. ov_get. destruct (bt_get p (ov_tombs o)); [done|]. destruct (bt_get p (ov_by_name o)) as [i|] eqn:Ei; [|done].
        rewrite Rg. ov_get. by exfalso; eapply Hu.
      * intros i [= <-] [c Hc]. congruence.
  - split_and!.
    + constructor; cbn; try apply V; [split_and!; eauto with btree|]. intros p i fo Hp Hi. ov_get; [congruence|]. by eapply (oo_dirty _ _ _ V).
    + unfold state. cbn. ov_get.
    + intros p Hp. unfold state. cbn. ov_get.
    + done.
Qed.

(** ** Handles *)
Lemma open_spec full o path next id o' next' :
  ov_inv full o next → open o path next = (id, o', next') →
  ov_inv full o' next' ∧ name_of o' id = Some path ∧ is_open o' id = true ∧ ∀ p, state o' p = state o p.
Proof.
  intros V. destruct (oo_sorted _ _ _ V) as (S1 & S2 & S3 & S4 & S5 & S6). unfold open. destruct (bind_name o path next) as [[j o1] nx] eqn:Eb. intros [= <- <- <-].
  destruct (bind_name_spec _ _ _ _ _ _ _ V Eb) as (B1 & B2 & B3 & B4 & B5 & B6 & B7 & B8 & B9 & B10 & B11 & B12 & B13 & B14 & B15).
  assert (bt_sorted (ov_open o1)) as S5' by (by rewrite B4).
  assert (∀ p, bt_get p (ov_by_name o) = Some j → p = path) as Huniq.
  { intros p Hp. destruct (bt_get path (ov_by_name o)) as [k|] eqn:Ej.
    - specialize (B15 k eq_refl) as ->. apply (oo_by_name _ _ _ V) in Hp, Ej. congruence.
    - apply (oo_by_name _ _ _ V) in Hp. rewrite (proj1 (B14 eq_refl)) in Hp. done. }
  assert (bt_get path (ov_by_name o) = None → bt_get j (ov_by_id o) = None) as Hfresh.
  { intros [_ ->]%B14. destruct (bt_get next (ov_by_id o)) as [x|] eqn:Ex; [|done]. destruct (oo_by_id _ _ _ V _ _ Ex). lia. }
  assert (0 < default 0 (bt_get j (ov_open o1)) + 1) as Hc.
  { rewrite B4. destruct (bt_get j (ov_open o)) as [c|] eqn:E; [|done]. destruct (oo_open _ _ _ V _ _ E) as (_ & ? & _). cbn. lia. }
  split_and!.
  - constructor; cbn [ov_by_id ov_by_name ov_names ov_tombs ov_open ov_dir_renames ov_bytes set_open]; rewrite ?B2, ?B3, ?B5.
    + split_and!; eauto with btree.
    + intros p i Hp. destruct (decide (p = path)) as [->|Hn]; [rewrite B10 in Hp; by injection Hp as <-|]. rewrite B12 in Hp by done. rewrite B13; [by apply (oo_by_name _ _ _ V)|]. intros ->. by apply Hn, Huniq.
    + intros i p Hi. destruct (decide (i = j)) as [->|Hn]; [rewrite B11 in Hi; by injection Hi as <-|]. rewrite B13 in Hi by done. rewrite B12; [by apply (oo_names _ _ _ V)|]. intros ->.
      apply (oo_names _ _ _ V) in Hi. by apply Hn, B15.
    + intros i n Hi. destruct (decide (i = j)) as [->|Hn]; [split; [done|right; ov_get]|]. rewrite B13 in Hi by done. destruct (oo_held _ _ _ V _ _ Hi) as [H1 H2]. split; [lia|]. rewrite B4 in *. ov_get.
    + intros i Hi. destruct (decide (i = j)) as [->|Hn]; [congruence|]. rewrite B13 in Hi by done. rewrite B4 in *. ov_get. by apply (oo_orphan _ _ _ V).
    + intros p i f Hp Hi. destruct (decide (p = path)) as [->|Hn]; [|rewrite B12 in Hp by done; by eapply (oo_dirty _ _ _ V)]. rewrite B10 in Hp. injection Hp as <-.
      destruct (bt_get path (ov_by_name o)) as [k|] eqn:Ej; [specialize (B15 k eq_refl) as ->; by eapply (oo_dirty _ _ _ V)|]. by rewrite Hfresh in Hi.
    + intros i f Hi. destruct (oo_by_id _ _ _ V _ _ Hi) as (H1 & H2 & H3). split_and!; [lia|done|]. intros Hf. destruct (H3 Hf). split; [|done]. destruct (decide (i = j)) as [->|Hn]; [by rewrite B11|by rewrite B13].
    + intros i c Hi. destruct (decide (i = j)) as [->|Hn]; [rewrite B11; ov_get; injection Hi as <-; by split_and!|]. rewrite B13 by done. rewrite B4 in *. ov_get.
      destruct (oo_open _ _ _ V _ _ Hi) as (H1 & H2 & H3). split_and!; [lia|done|done].
    + rewrite B6. apply (oo_bytes _ _ _ V).
  - unfold name_of. cbn. by rewrite B11.
  - unfold is_open. cbn. ov_get. by apply Z.ltb_lt.
  - intros p. unfold state. cbn. rewrite B2, B3. destruct (bt_get p (ov_tombs o)); [done|]. destruct (decide (p = path)) as [->|Hn]; [|by rewrite B12].
    rewrite B10. destruct (bt_get path (ov_by_name o)) as [k|] eqn:Ej; [by specialize (B15 k eq_refl) as ->|]. by rewrite Hfresh.
Qed.

Lemma close_ok full o id next : ov_inv full o next → ov_inv full (close o id).2 next.
Proof.
  intros V. destruct (oo_sorted _ _ _ V) as (S1 & S2 & S3 & S4 & S5 & S6). unfold close. destruct (bt_get id (ov_open o)) as [c|] eqn:Eo; [|done]. destruct (Z.ltb_spec 1 c) as [Hc|Hc]; cbn [snd].
  - constructor; cbn; try apply V.
    + split_and!; eauto with btree.
    + intros i n Hi. destruct (oo_held _ _ _ V _ _ Hi) as [H1 H2]. split; [done|]. ov_get. by right.
    + intros i Hi. apply (oo_orphan _ _ _ V) in Hi. ov_get.
    + intros i x Hx. ov_get; [injection Hx as <-; destruct (oo_open _ _ _ V id c Eo) as (H1 & H2 & H3); split_and!; [done|lia|done]|]. by apply (oo_open _ _ _ V).
  - set (o1 := set_open o (bt_remove id (ov_open o))). change (ov_names o1) with (ov_names o). change (ov_by_id o1) with (ov_by_id o).
    destruct (bt_get id (ov_names o)) as [[name|]|] eqn:En.
    + change (bt_get id (ov_by_id o1)) with (bt_get id (ov_by_id o)). destruct (bt_get id (ov_by_id o)) as [fo|] eqn:Ei; cbn [snd].
      * constructor; cbn; try apply V.
        -- split_and!; eauto with btree.
        -- intros i n Hi. destruct (oo_held _ _ _ V _ _ Hi) as [H1 H2]. split; [done|]. ov_get. left. by eexists.
        -- intros i Hi. pose proof (oo_orphan _ _ _ V _ Hi). ov_get. congruence.
        -- intros i x Hx. ov_get. by apply (oo_open _ _ _ V).
      * pose proof (oo_names _ _ _ V _ _ En) as Ebn. constructor; cbn; try apply V.
        -- split_and!; eauto with btree.
        -- intros p i Hp. ov_get; [|by apply (oo_by_name _ _ _ V)]. apply (oo_by_name _ _ _ V) in Hp. congruence.
        -- intros i p Hi. ov_get; [apply (oo_names _ _ _ V) in Hi; congruence|by apply (oo_names _ _ _ V)].
        -- intros i n0 Hi. ov_get. by apply (oo_held _ _ _ V i n0).
        -- intros i Hi. ov_get. by apply (oo_orphan _ _ _ V).
        -- intros p i fo Hp Hi. ov_get. by eapply (oo_dirty _ _ _ V).
        -- intros i fo Hi. ov_get; [congruence|]. by apply (oo_by_id _ _ _ V).
        -- intros i x Hx. ov_get. by apply (oo_open _ _ _ V).
    + destruct (reap_rest o1 id) as (R1 & R2 & R3 & R4 & R5). assert (∀ i, bt_get i (ov_by_id (reap o1 id)) = if decide (i = id) then None else bt_get i (ov_by_id o)) as Rg by (intros i; exact (reap_get o1 id i S1)).
      cbn [snd]. constructor; cbn; rewrite ?R1, ?R2, ?R3, ?R4, ?R5; cbn.
      * split_and!; eauto with btree.
      * intros p i Hp. apply (oo_by_name _ _ _ V) in Hp. ov_get. congruence.
      * intros i p Hi. ov_get. by apply (oo_names _ _ _ V).
      * intros i n Hi. rewrite Rg. ov_get. by apply (oo_held _ _ _ V i n).
      * intros i Hi. ov_get. by apply (oo_orphan _ _ _ V).
      * intros p i fo Hp Hi. rewrite Rg in Hi. ov_get. by eapply (oo_dirty _ _ _ V).
      * intros i fo Hi. rewrite Rg in Hi. ov_get. by apply (oo_by_id _ _ _ V).
      * intros i x Hx. ov_get. by apply (oo_open _ _ _ V).
      * apply reap_bytes; [done|]. apply (oo_bytes _ _ _ V).
    + constructor; cbn; try apply V.
      * split_and!; eauto with btree.
      * intros i n Hi. destruct (oo_held _ _ _ V _ _ Hi) as [H1 H2]. split; [done|]. ov_get. congruence.
      * intros i Hi. pose proof (oo_orphan _ _ _ V _ Hi). ov_get. congruence.
      * intros i x Hx. ov_get. by apply (oo_open _ _ _ V).
Qed.

(** ** Renaming *)
Lemma rename_spec full o from to mtime next id fo :
  ov_inv full o next → from ≠ to → bt_get from (ov_by_name o) = Some id → bt_get id (ov_by_id o) = Some fo →
  (full → ∀ v, bt_get to (ov_by_name o) = Some v → bt_get v (ov_open o) = None) →
  ∃ o', rename o from to mtime = Ret o' ∧ ov_inv full o' next ∧ state o' from = Unlinked ∧
    state o' to = Dirty (MkFo (fo_writes fo) (fo_fresh fo) mtime (fo_origin fo)) ∧ ∀ p, p ≠ from → p ≠ to → state o' p = state o p.
Proof.
  intros V Hne Ef Ei Hv. destruct (oo_sorted _ _ _ V) as (S1 & S2 & S3 & S4 & S5 & S6). pose proof (oo_by_name _ _ _ V _ _ Ef) as Enm.
  assert (∀ p, p ≠ from → bt_get p (ov_by_name o) ≠ Some id) as Hu by (intros p Hp Hq%(oo_by_name _ _ _ V); congruence).
  unfold rename. rewrite Ef. cbv zeta. set (o1 := set_tombs o (bt_remove to (ov_tombs o))). 
  set (o2 := displace o1 to).
  (* what is left after the victim is gone *)
  assert (∃ gone : FileId → Prop, (∀ i, gone i ↔ bt_get to (ov_by_name o) = Some i) ∧ bt_sorted (ov_by_id o2) ∧ bt_sorted (ov_by_name o2) ∧ bt_sorted (ov_names o2) ∧
    (∀ i, gone i → bt_get i (ov_by_id o2) = None ∧ bt_get i (ov_names o2) = None) ∧
    (∀ i, ¬ gone i → bt_get i (ov_by_id o2) = bt_get i (ov_by_id o) ∧ bt_get i (ov_names o2) = bt_get i (ov_names o)) ∧
    (∀ p, p ≠ to → bt_get p (ov_by_name o2) = bt_get p (ov_by_name o)) ∧ ov_tombs o2 = bt_remove to (ov_tombs o) ∧ ov_open o2 = ov_open o ∧ ov_dir_renames o2 = ov_dir_renames o ∧
    census (ov_by_id o2) ≤ ov_bytes o2 ∧ (full → ov_bytes o2 = census (ov_by_id o2))) as (gone & G0 & G1 & G2 & G3 & G4 & G5 & G6 & G7 & G8 & G9 & G10 & G11).
  { exists (λ i, bt_get to (ov_by_name o) = Some i). split; [done|]. unfold o2, displace. change (ov_by_name o1) with (ov_by_name o). destruct (bt_get to (ov_by_name o)) as [v|] eqn:Ev.
    - set (o3 := set_by_name o1 (bt_remove to (ov_by_name o))). destruct (reap_rest o3 v) as (R1 & R2 & R3 & R4 & R5).
      assert (∀ i, bt_get i (ov_by_id (reap o3 v)) = if decide (i = v) then None else bt_get i (ov_by_id o)) as Rg by (intros i; exact (reap_get o3 v i S1)).
      cbn [ov_by_id ov_by_name ov_names ov_tombs ov_open ov_dir_renames ov_bytes set_names]. rewrite R1, R2, R3, R4, R5. cbn. split_and!; eauto with btree.
      + intros i [= <-]. rewrite Rg. split; ov_get. + intros i Hi. rewrite Rg. split; ov_get. + intros p Hp. ov_get.
      + apply (reap_bytes full o3 v); [exact S1|]. exact (oo_bytes _ _ _ V).
      + apply (reap_bytes full o3 v); [exact S1|]. exact (oo_bytes _ _ _ V).
    - cbn. split_and!; try done; apply (oo_bytes _ _ _ V). }
  clearbody o2. assert (¬ gone id) as Hid by (rewrite G0; apply Hu; congruence). destruct (G5 _ Hid) as [Gid Gnm].
  cbn [set_by_name set_names set_tombs ov_by_id ov_by_name ov_names ov_tombs ov_open ov_dir_renames ov_bytes]. rewrite Gid, Ei.
  assert (∀ i n, bt_get i (ov_names o2) = Some n → ¬ gone i ∧ bt_get i (ov_names o) = Some n) as Hnames.
  { intros i n Hi. assert (¬ gone i) as Hg by (intros Hg; by rewrite (proj2 (G4 _ Hg)) in Hi). split; [done|]. by rewrite <-(proj2 (G5 _ Hg)). }
  assert (∀ i f, bt_get i (ov_by_id o2) = Some f → ¬ gone i ∧ bt_get i (ov_by_id o) = Some f) as Hbyid.
  { intros i f Hi. assert (¬ gone i) as Hg by (intros Hg; by rewrite (proj1 (G4 _ Hg)) in Hi). split; [done|]. by rewrite <-(proj1 (G5 _ Hg)). }
  eexists. split; [reflexivity|]. split_and!.
  - constructor; cbn [ov_by_id ov_by_name ov_names ov_tombs ov_open ov_dir_renames ov_bytes]; rewrite ?G7, ?G8, ?G9.
    + split_and!; eauto with btree.
    + intros p i Hp. destruct (decide (p = to)) as [->|Hpt]; [ov_get; congruence|]. destruct (decide (p = from)) as [->|Hpf]; [ov_get|]. assert (bt_get p (ov_by_name o) = Some i) as Hp0 by (rewrite <-G6 by done; ov_get).
      assert (i ≠ id) as Hi by (intros ->; by apply (Hu p)). assert (¬ gone i) as Hg by (rewrite G0; intros Hq; apply (oo_by_name _ _ _ V) in Hp0, Hq; congruence).
      ov_get. rewrite (proj2 (G5 i Hg)). by apply (oo_by_name _ _ _ V).
    + intros i p Hi. destruct (decide (i = id)) as [->|Hii]; [ov_get; congruence|]. assert (bt_get i (ov_names o2) = Some (Some p)) as Hi2 by ov_get.
      assert (¬ gone i) as Hg by (intros Hg; by rewrite (proj2 (G4 _ Hg)) in Hi2). rewrite (proj2 (G5 _ Hg)) in Hi2. apply (oo_names _ _ _ V) in Hi2.
      assert (p ≠ to) as Hpt by (intros ->; by apply Hg, G0). assert (p ≠ from) as Hpf by congruence. ov_get. by rewrite G6.
    + intros i n Hi. destruct (decide (i = id)) as [->|Hn]; [split; [by apply (oo_held _ _ _ V _ _ Enm)|left; ov_get]|]. assert (bt_get i (ov_names o2) = Some n) as [Hg Hi0]%Hnames by ov_get.
      ov_get. rewrite (proj1 (G5 _ Hg)). by apply (oo_held _ _ _ V i n).
    + intros i Hi. destruct (decide (i = id)) as [->|Hn]; [ov_get|]. assert (bt_get i (ov_names o2) = Some None) as [Hg Hi0]%Hnames by ov_get. by apply (oo_orphan _ _ _ V).
    + intros p i f Hp Hi. destruct (decide (p = to)) as [->|Hpt]; [ov_get|]. destruct (decide (p = from)) as [->|Hpf]; [ov_get|].
      assert (bt_get p (ov_by_name o) = Some i) as Hp0 by (rewrite <-G6 by done; ov_get). assert (i ≠ id) as Hn by (intros ->; by apply (Hu p)).
      assert (bt_get i (ov_by_id o2) = Some f) as [Hg Hi0]%Hbyid by ov_get. ov_get. by eapply (oo_dirty _ _ _ V).
    + intros i f Hi. destruct (decide (i = id)) as [->|Hn].
      * assert (fo_writes f = fo_writes fo) as -> by (ov_get; by injection Hi as <-). destruct (oo_by_id _ _ _ V id fo Ei) as (H1 & H2 & H3). split_and!; [done|done|]. intros Hf. split; [ov_get|]. by apply H3.
      * assert (bt_get i (ov_by_id o2) = Some f) as [Hg Hi0]%Hbyid by ov_get. ov_get. rewrite (proj2 (G5 _ Hg)). by apply (oo_by_id _ _ _ V).
    + intros i c Hc. destruct (oo_open _ _ _ V _ _ Hc) as (H1 & H2 & H3). split_and!; [done|done|]. intros Hf. ov_get. rewrite (proj2 (G5 i ltac:(rewrite G0; intros Hq%(Hv Hf); congruence))). by apply H3.
    + rewrite census_insert by done. rewrite Gid, Ei. cbn [fo_writes]. split; [lia|]. intros Hf. rewrite (G11 Hf). lia.
  - unfold state. cbn. rewrite G7. ov_get.
  - unfold state. cbn. rewrite G7. ov_get.
  - intros p Hp1 Hp2. unfold state. cbn. rewrite G7. ov_get. rewrite G6 by done. destruct (bt_get p (ov_tombs o)); [done|]. destruct (bt_get p (ov_by_name o)) as [i|] eqn:Ep; [|done].
    ov_get; [by exfalso; eapply Hu|]. by rewrite (proj1 (G5 i ltac:(rewrite G0; intros Hq; apply (oo_by_name _ _ _ V) in Ep, Hq; congruence))).
Qed.

(** A rename returns exactly when its source has dirty data and is not its destination. *)
Lemma rename_returns full o from to mtime next :
  ov_inv full o next → (∃ o', rename o from to mtime = Ret o') ↔ from ≠ to ∧ ∃ id fo, bt_get from (ov_by_name o) = Some id ∧ bt_get id (ov_by_id o) = Some fo.
Proof.
  intros V. split.
  - intros [o' E]. destruct (oo_sorted _ _ _ V) as (S1 & S2 & _). unfold rename in E. destruct (bt_get from (ov_by_name o)) as [id|] eqn:Ef; [|done]. cbv zeta in E.
    set (o1 := set_tombs o (bt_remove to (ov_tombs o))) in E.
    assert (bt_get id (ov_by_id (displace o1 to)) = match bt_get to (ov_by_name o) with Some v => if decide (id = v) then None else bt_get id (ov_by_id o) | None => bt_get id (ov_by_id o) end) as Hg.
    { unfold displace. change (ov_by_name o1) with (ov_by_name o). destruct (bt_get to (ov_by_name o)) as [v|]; [|done].
      exact (reap_get (set_by_name o1 (bt_remove to (ov_by_name o))) v id S1). }
    cbn [set_by_name set_names set_tombs ov_by_id] in E. rewrite Hg in E. split.
    + intros ->. rewrite Ef, decide_True in E by done. done.
    + exists id. destruct (bt_get id (ov_by_id o)) as [fo|]; [by exists fo|]. by destruct (bt_get to (ov_by_name o)); [case_decide|].
  - intros (Hne & id & fo & Ef & Ei). destruct (rename_spec False o from to mtime next id fo) as (o' & E & _); [|done..|by exists o'].
    constructor; try apply V.
    + intros i x Hx. destruct (oo_by_id _ _ _ V _ _ Hx) as (H1 & H2 & _). by split_and!.
    + intros i x Hx. destruct (oo_open _ _ _ V _ _ Hx) as (H1 & H2 & _). by split_and!.
    + split; [apply (oo_bytes _ _ _ V)|done].
Qed.

Lemma rename_tombs o t from to mtime :
  bt_insert from tt (bt_remove to (ov_tombs o)) = bt_insert from tt (bt_remove to t) → rename o from to mtime = rename (set_tombs o t) from to mtime.
Proof.
  destruct o as [ids bn nm tb op dr n]. cbn [ov_tombs]. intros Et. unfold rename, displace, reap. cbn.
  destruct (bt_get from bn) as [id|]; [|done]. destruct (bt_get to bn) as [v|]; cbn; [|by rewrite Et].
  destruct (bt_get v ids); cbn; by rewrite Et.
Qed.

(** A committed file is opened to be renamed. A tombstone on its name makes no difference:
    the rename sets it again. *)
Lemma open_rename_spec full o from to mtime next :
  ov_inv full o next → from ≠ to → contains_file o from = false → (full → ∀ v, bt_get to (ov_by_name o) = Some v → bt_get v (ov_open o) = None) →
  ∃ o', rename (open_for_rename o from next).1 from to mtime = Ret o' ∧ ov_inv full o' (next + 1) ∧ state o' from = Unlinked ∧
    state o' to = Dirty (MkFo [] false mtime (Some from)) ∧ ∀ p, p ≠ from → p ≠ to → state o' p = state o p.
Proof.
  intros V Hne Hc Hv. destruct (oo_sorted _ _ _ V) as (S1 & S2 & S3 & S4 & S5 & S6).
  assert (bt_get from (ov_by_name o) = None) as Hf by (apply bool_decide_eq_false, eq_None_not_Some in Hc; exact Hc).
  assert (bt_get next (ov_by_id o) = None) as Hi by (destruct (bt_get next (ov_by_id o)) eqn:E; [destruct (oo_by_id _ _ _ V _ _ E); lia|done]).
  assert (bt_get next (ov_names o) = None) as Hn by (destruct (bt_get next (ov_names o)) eqn:E; [destruct (oo_held _ _ _ V _ _ E); lia|done]).
  assert (bt_get next (ov_open o) = None) as Ho by (destruct (bt_get next (ov_open o)) eqn:E; [destruct (oo_open _ _ _ V _ _ E); lia|done]).
  set (ob := (open_for_rename (set_tombs o (bt_remove from (ov_tombs o))) from next).1).
  assert (rename (open_for_rename o from next).1 from to mtime = rename ob from to mtime) as ->.
  { apply (rename_tombs (open_for_rename o from next).1 (bt_remove from (ov_tombs o))). apply bt_ext; cbn; eauto with btree. intros k. ov_get. }
  assert (ov_inv full ob (next + 1)) as Vb.
  { unfold ob, open_for_rename. constructor; cbn.
    - split_and!; eauto with btree.
    - intros p i Hp. destruct (decide (p = from)) as [->|]; [ov_get; congruence|]. assert (bt_get p (ov_by_name o) = Some i) as Hp0 by ov_get. apply (oo_by_name _ _ _ V) in Hp0. ov_get. congruence.
    - intros i p Hp. destruct (decide (i = next)) as [->|]; [ov_get; congruence|]. assert (bt_get i (ov_names o) = Some (Some p)) as Hp0 by ov_get. apply (oo_names _ _ _ V) in Hp0. ov_get. congruence.
    - intros i n Hx. ov_get; [split; [lia|by left]|]. destruct (oo_held _ _ _ V _ _ Hx). split; [lia|done].
    - intros i Hx. ov_get. by apply (oo_orphan _ _ _ V).
    - intros p i fo Hp Hx. destruct (decide (p = from)) as [->|]; [ov_get|]. assert (bt_get p (ov_by_name o) = Some i) as Hp0 by ov_get. pose proof (oo_by_name _ _ _ V _ _ Hp0).
      assert (i ≠ next) by congruence. assert (bt_get i (ov_by_id o) = Some fo) as Hi0 by ov_get. ov_get. by apply (oo_dirty _ _ _ V p i fo).
    - intros i fo Hx. ov_get; [injection Hx as <-; split_and!; [lia|apply iv_ok_nil|intros _; split; [done|apply iv_full_nil]]|].
      destruct (oo_by_id _ _ _ V _ _ Hx) as (H1 & H2 & H3). split_and!; [lia|done|done].
    - intros i c Hx. destruct (oo_open _ _ _ V _ _ Hx) as (H1 & H2 & H3). split_and!; [lia|done|]. intros Hfull. specialize (H3 Hfull). ov_get.
    - rewrite census_insert, Hi by done. destruct (oo_bytes _ _ _ V) as [H1 H2]. cbn. split; [lia|]. intros Hfull. specialize (H2 Hfull). lia. }
  assert (bt_get from (ov_by_name ob) = Some next ∧ bt_get next (ov_by_id ob) = Some (MkFo [] false 0 (Some from))) as [E1 E2] by (unfold ob, open_for_rename; cbn; split; ov_get).
  destruct (rename_spec full ob from to mtime (next + 1) next _ Vb Hne E1 E2) as (o' & E & V' & H1 & H2 & H3).
  { intros Hfull v. unfold ob, open_for_rename. cbn. intros Hx. ov_get. by apply Hv. }
  exists o'. split_and!; [done..|]. intros p Hp1 Hp2. rewrite H3 by done. unfold state, ob, open_for_rename. cbn. ov_get.
  destruct (bt_get p (ov_tombs o)); [done|]. destruct (bt_get p (ov_by_name o)) as [i|] eqn:Ep; [|done]. ov_get. by apply (oo_by_name _ _ _ V) in Ep; congruence.
Qed.

(** ** Orphans *)
Lemma write_orphan_spec full o (id : FileId) offset data mtime (next : FileId) :
  ov_inv full o next → id < next → name_of o id = None → (full → bt_get id (ov_names o) = Some None) → 0 ≤ offset → (full → data ≠ []) →
  ∃ o', write_orphan o id offset data mtime = Ret o' ∧ ov_inv full o' next ∧ (∀ p, state o' p = state o p) ∧
    (fo_fresh <$> bt_get id (ov_by_id o) ≠ Some false → data ≠ [] → read_orphan o' id = put_at (read_orphan o id) offset data).
Proof.
  intros V Hn Hname En Ho Hd. destruct (oo_sorted _ _ _ V) as (S1 & S2 & S3 & S4 & S5 & S6). unfold write_orphan.
  destruct (write_into_spec o id (MkFo [] true 0 None) offset data mtime) as (fo & n & -> & Hc1 & Hc2 & Hfo & Hfu & Hfr & Hor & Hmt & Hap); try done.
  { intros i f Hi. by apply (oo_by_id _ _ _ V i). } { apply (oo_bytes _ _ _ V). }
  assert (∀ p, bt_get p (ov_by_name o) ≠ Some id) as Hu by (intros p Hp%(oo_by_name _ _ _ V); unfold name_of in Hname; by rewrite Hp in Hname).
  eexists. split; [reflexivity|]. split_and!.
  - constructor; cbn; try apply V.
    + split_and!; eauto with btree.
    + intros i x Hi. destruct (oo_held _ _ _ V _ _ Hi) as [H1 H2]. split; [done|]. ov_get. by left.
    + intros p i f Hp Hi. ov_get; [by exfalso; eapply Hu|]. by eapply (oo_dirty _ _ _ V).
    + intros i f Hi. ov_get; [|by apply (oo_by_id _ _ _ V)]. injection Hi as <-. split_and!; [done|done|]. intros Hf. split; [by rewrite (En Hf)|].
      apply Hfu; [by apply Hd|]. destruct (bt_get id (ov_by_id o)) as [x|] eqn:Ex; [|apply iv_full_nil]. by apply (oo_by_id _ _ _ V id x).
    + split; [done|]. intros Hf. apply Hc2; [left; by apply Hd|by apply (oo_bytes _ _ _ V)].
  - intros p. unfold state. cbn. destruct (bt_get p (ov_tombs o)); [done|]. destruct (bt_get p (ov_by_name o)) as [i|] eqn:Ep; [|done]. ov_get. by exfalso; eapply Hu.
  - intros _ Hne. unfold read_orphan. cbn [ov_by_id]. ov_get. rewrite Hap by (by left). by destruct (bt_get id (ov_by_id o)).
Qed.

(** ** What a flush leaves *)
Lemma carry_get o : bt_sorted (ov_open o) →
  match carry_open o with
  | None => ov_open o = []
  | Some c => ov_by_id c = [] ∧ ov_tombs c = [] ∧ ov_dir_renames c = [] ∧ ov_bytes c = 0 ∧ bt_sorted (ov_by_name c) ∧ bt_sorted (ov_names c) ∧ ov_open c = ov_open o ∧
      (∀ i, bt_get i (ov_names c) = if decide (is_Some (bt_get i (ov_open o))) then Some (name_of o i) else None) ∧
      (∀ p i, bt_get p (ov_by_name c) = Some i → is_Some (bt_get i (ov_open o)) ∧ name_of o i = Some p) ∧
      (∀ p i, is_Some (bt_get i (ov_open o)) → name_of o i = Some p → ∃ j, bt_get p (ov_by_name c) = Some j)
  end.
Proof.
  intros So. unfold carry_open. destruct (ov_open o) as [|x l] eqn:Eo; [done|]. rewrite <-Eo in *. clear Eo x l.
  enough (∀ l acc, bt_sorted (acc ++ l) → ∀ c0, ov_by_id c0 = [] ∧ ov_tombs c0 = [] ∧ ov_dir_renames c0 = [] ∧ ov_bytes c0 = 0 ∧ bt_sorted (ov_by_name c0) ∧ bt_sorted (ov_names c0) ∧ ov_open c0 = acc ∧
      (∀ i, bt_get i (ov_names c0) = if decide (is_Some (bt_get i acc)) then Some (name_of o i) else None) ∧
      (∀ p i, bt_get p (ov_by_name c0) = Some i → is_Some (bt_get i acc) ∧ name_of o i = Some p) ∧
      (∀ p i, is_Some (bt_get i acc) → name_of o i = Some p → ∃ j, bt_get p (ov_by_name c0) = Some j) →
    let c := foldl (carry_step o) c0 l in ov_by_id c = [] ∧ ov_tombs c = [] ∧ ov_dir_renames c = [] ∧ ov_bytes c = 0 ∧ bt_sorted (ov_by_name c) ∧ bt_sorted (ov_names c) ∧ ov_open c = acc ++ l ∧
      (∀ i, bt_get i (ov_names c) = if decide (is_Some (bt_get i (acc ++ l))) then Some (name_of o i) else None) ∧
      (∀ p i, bt_get p (ov_by_name c) = Some i → is_Some (bt_get i (acc ++ l)) ∧ name_of o i = Some p) ∧
      (∀ p i, is_Some (bt_get i (acc ++ l)) → name_of o i = Some p → ∃ j, bt_get p (ov_by_name c) = Some j)) as HF.
  { apply (HF (ov_open o) [] So Overlay_default). cbn. split_and!; try done. }
  induction l as [|[id refs] l IH]; intros acc Hs c0 (C1 & C2 & C3 & C4 & C5 & C6 & C7 & C8 & C9 & C10); cbn [foldl].
  - cbv zeta. rewrite app_nil_r. split_and!; done.
  - assert (acc ++ (id, refs) :: l = (acc ++ [(id, refs)]) ++ l) as Ea by (by rewrite <-app_assoc). rewrite Ea in *. apply IH; [done|].
    assert (bt_sorted acc) as Sa by (rewrite <-app_assoc in Hs; by apply bt_sorted_app in Hs as (? & _)).
    assert (bt_insert id refs acc = acc ++ [(id, refs)]) as Ei.
    { apply bt_insert_last. intros k v Hin. rewrite <-app_assoc in Hs. apply bt_sorted_app in Hs as (_ & _ & Hlt). apply (Hlt k v id refs); [done|by left]. }
    assert (∀ i, bt_get i (acc ++ [(id, refs)]) = if decide (i = id) then Some refs else bt_get i acc) as Hga by (intros i; rewrite <-Ei; by rewrite get_insert).
    unfold carry_step. destruct (name_of o id) as [p0|] eqn:En; cbn; rewrite C7, Ei; split_and!; eauto with btree.
    + intros i. rewrite Hga, get_insert by eauto with btree. destruct (decide (i = id)) as [->|]; [rewrite decide_True by (by eexists); by rewrite En|apply C8].
    + intros p i. rewrite Hga, get_insert by eauto with btree. destruct (decide (p = p0)) as [->|].
      * intros [= <-]. rewrite decide_True by done. split; [by eexists|done].
      * intros [? ?]%C9. destruct (decide (i = id)); [by eexists|done].
    + intros p i Hi Hn. rewrite Hga in Hi. rewrite get_insert by done. destruct (decide (p = p0)) as [->|]; [by eexists|]. destruct (decide (i = id)) as [->|]; [congruence|]. by apply (C10 p i).
    + intros i. rewrite Hga, get_insert by eauto with btree. destruct (decide (i = id)) as [->|]; [rewrite decide_True by (by eexists); by rewrite En|apply C8].
    + intros p i [? ?]%C9. rewrite Hga. destruct (decide (i = id)); [by eexists|done].
    + intros p i Hi Hn. rewrite Hga in Hi. destruct (decide (i = id)) as [->|]; [congruence|]. by apply (C10 p i).
Qed.

Lemma carry_open_ok full o next c : ov_inv full o next → carry_open o = Some c → ov_inv full c next ∧ ∀ id, is_Some (bt_get id (ov_open o)) → is_open c id = true ∧ name_of c id = name_of o id.
Proof.
  intros V Ec. destruct (oo_sorted _ _ _ V) as (S1 & S2 & S3 & S4 & S5 & S6). pose proof (carry_get o S5) as HC. rewrite Ec in HC. destruct HC as (C1 & C2 & C3 & C4 & C5 & C6 & C7 & C8 & C9 & C10).
  assert (∀ i p, name_of o i = Some p → bt_get i (ov_names o) = Some (Some p)) as Hnm.
  { intros i p. unfold name_of. destruct (bt_get i (ov_names o)) as [n|]; [|done]. cbn. by intros ->. }
  split; [constructor|].
  - rewrite C1, C2, C3, C7. split_and!; done.
  - intros p i Hp. destruct (C9 _ _ Hp) as [H1 H2]. rewrite C8, decide_True by done. by rewrite H2.
  - intros i p Hi. rewrite C8 in Hi. case_decide as Ho; [|done]. injection Hi as Hn. destruct (C10 p i Ho Hn) as [j Hj]. destruct (C9 _ _ Hj) as [_ Hn2].
    apply Hnm, (oo_names _ _ _ V) in Hn, Hn2. congruence.
  - intros i n Hi. rewrite C8 in Hi. case_decide as Ho; [|done]. rewrite C1, C7. split; [|by right]. destruct Ho as [c' Ho]. by apply (oo_open _ _ _ V i c').
  - intros i Hi. rewrite C8 in Hi. case_decide; [|done]. by rewrite C7.
  - intros p i fo _ Hi. by rewrite C1 in Hi.
  - intros i fo Hi. by rewrite C1 in Hi.
  - intros i x Hi. rewrite C7 in Hi. destruct (oo_open _ _ _ V i x Hi) as (H1 & H2 & _). split_and!; [done|done|]. intros _. rewrite C8, decide_True by (by eexists). by eexists.
  - rewrite C1, C4. done.
  - intros id Ho. split; [|unfold name_of at 1; by rewrite C8, decide_True by done]. unfold is_open. rewrite C7. destruct Ho as [x Hx]. rewrite Hx. cbn. apply Z.ltb_lt. by apply (oo_open _ _ _ V id).
Qed.
