(* ===== verification/Chunker.v ===== *)
(** The FastCDC chunker of [cas/src/chunk.rs]: the gear table, the two boundary masks, the
    cut search, the whole-buffer and the streaming form. Sizes and positions are [Z];
    bytes are [Z] in [[0, 256)]. *)

From S2P Require Import Prelude Bytes.

Definition W64 : Z := 18446744073709551616.
Definition wrapping_add64 (a b : Z) : Z := (a + b) mod W64.
Definition wrapping_mul64 (a b : Z) : Z := (a * b) mod W64.

(** [gear_table]: the splitmix64 stream seeded with 0. *)
Definition splitmix_out (state : Z) : Z :=
  let z := state in
  let z := wrapping_mul64 (Z.lxor z (Z.shiftr z 30)) 13787848793156543929 in
  let z := wrapping_mul64 (Z.lxor z (Z.shiftr z 27)) 10723151780598845931 in
  Z.lxor z (Z.shiftr z 31).
Fixpoint gear_from (n : nat) (state : Z) : list Z :=
  match n with
  | O => []
  | S n' => let state := wrapping_add64 state 11400714819323198485 in splitmix_out state :: gear_from n' state
  end.
Definition gear_table : list Z := gear_from 256 0.
Definition GEAR : list Z := Eval vm_compute in gear_table.
(** [GEAR[b as usize]]: a byte is always in range. *)
Definition gear (b : Z) : Z := default 0 (GEAR !! Z.to_nat b).

Record ChunkerParams : Type := MkParams { cp_min : Z; cp_avg : Z; cp_max : Z }.
Definition DEFAULT : ChunkerParams := MkParams (16 * 1024) (32 * 1024) (64 * 1024).

(** [usize::trailing_zeros] and [usize::is_power_of_two] *)
Definition trailing_zeros (x : Z) : Z := if x =? 0 then 64 else Z.log2 (Z.land x (- x)).
Definition is_power_of_two (x : Z) : bool := (0 <? x) && (Z.land x (x - 1) =? 0).

Definition assert_valid (p : ChunkerParams) : bool :=
  is_power_of_two (cp_avg p) && (16 <=? cp_avg p) && (1 <=? cp_min p) && (cp_min p <? cp_avg p) && (cp_avg p <? cp_max p).

(** The strict and the loose mask; a shift by 64 bits or more panics, and so does a
    negative shift count. *)
Definition masks (p : ChunkerParams) : option (Z * Z) :=
  let bits := trailing_zeros (cp_avg p) in
  if (64 <=? bits + 2) || (bits <? 2) then None
  else Some (Z.shiftl 1 (bits + 2) - 1, Z.shiftl 1 (bits - 2) - 1).

(** The byte loop of [find_boundary] from position [pos] with fingerprint [fp]. *)
Fixpoint scan (mask_s mask_l avg pos fp : Z) (data : list Z) : option Z :=
  match data with
  | [] => None
  | b :: data' =>
      let fp := wrapping_add64 (Z.shiftl fp 1 mod W64) (gear b) in
      let mask := if pos <? avg then mask_s else mask_l in
      if Z.land fp mask =? 0 then Some (pos + 1) else scan mask_s mask_l avg (pos + 1) fp data'
  end.

Definition find_cut (ms : Z * Z) (p : ChunkerParams) (data : list Z) : option Z :=
  let scan_end := Z.min (len_z data) (cp_max p) in
  let full := if cp_max p <=? len_z data then Some (cp_max p) else None in
  if scan_end <=? cp_min p then full
  else
    match scan ms.1 ms.2 (cp_avg p) (cp_min p) 0 (slice data (cp_min p) (scan_end - cp_min p)) with
    | Some cut => Some cut
    | None => full
    end.
Definition find_boundary (p : ChunkerParams) (data : list Z) : outcome (option Z) :=
  match masks p with Some ms => Ret (find_cut ms p data) | None => Panic end.

(** [find_boundary(..).unwrap_or(data.len())]; the [debug_assert] refuses an empty slice. *)
Definition next_cut (p : ChunkerParams) (data : list Z) : outcome Z :=
  match data with
  | [] => Panic
  | _ => match find_boundary p data with Ret c => Ret (default (len_z data) c) | Panic => Panic | NoFuel => NoFuel end
  end.

Fixpoint boundaries_loop (fuel : nat) (p : ChunkerParams) (data : list Z) (start : Z) : outcome (list Z) :=
  if len_z data <=? start then Ret []
  else
    match fuel with
    | O => NoFuel
    | S fuel' =>
        match find_boundary p (drop (Z.to_nat start) data) with
        | Ret c =>
            let cut := default (len_z data - start) c in
            match boundaries_loop fuel' p data (start + cut) with Ret cuts => Ret ((start + cut) :: cuts) | Panic => Panic | NoFuel => NoFuel end
        | Panic => Panic
        | NoFuel => NoFuel
        end
    end.
(** [boundaries]: exclusive chunk ends of a complete buffer. *)
Definition boundaries (p : ChunkerParams) (data : list Z) : outcome (list Z) :=
  if assert_valid p then boundaries_loop (length data) p data 0 else Panic.

(** ** The streaming chunker *)
Record Chunker : Type := MkChunker { ch_params : ChunkerParams; ch_buf : list Z }.
Definition with_params (p : ChunkerParams) : outcome Chunker := if assert_valid p then Ret (MkChunker p []) else Panic.

(** The [while let] loop of [push] on what is left of the buffer: chunks emitted, tail. *)
Fixpoint push_loop (fuel : nat) (p : ChunkerParams) (buf : list Z) : outcome (list (list Z) * list Z) :=
  match fuel with
  | O => NoFuel
  | S fuel' =>
      match find_boundary p buf with
      | Ret (Some cut) =>
          match push_loop fuel' p (drop (Z.to_nat cut) buf) with
          | Ret (cs, tail) => Ret (take (Z.to_nat cut) buf :: cs, tail)
          | Panic => Panic
          | NoFuel => NoFuel
          end
      | Ret None => Ret ([], buf)
      | Panic => Panic
      | NoFuel => NoFuel
      end
  end.
Definition push (c : Chunker) (data : list Z) : outcome (list (list Z) * Chunker) :=
  let buf := ch_buf c ++ data in
  match push_loop (S (length buf)) (ch_params c) buf with
  | Ret (cs, tail) => Ret (cs, MkChunker (ch_params c) tail)
  | Panic => Panic
  | NoFuel => NoFuel
  end.
Definition flush (c : Chunker) : outcome (list (list Z)) :=
  if len_z (ch_buf c) <? cp_max (ch_params c) then Ret (match ch_buf c with [] => [] | _ => [ch_buf c] end) else Panic.

(** Push a sequence of segments, then flush. *)
Fixpoint stream (c : Chunker) (segments : list (list Z)) : outcome (list (list Z)) :=
  match segments with
  | [] => flush c
  | s :: rest =>
      match push c s with
      | Ret (cs, c') => match stream c' rest with Ret cs' => Ret (cs ++ cs') | Panic => Panic | NoFuel => NoFuel end
      | Panic => Panic
      | NoFuel => NoFuel
      end
  end.

(** * The cut search *)
Section cutting.
Context (p : ChunkerParams) (ms : Z * Z) (Hval : assert_valid p = true) (Hms : masks p = Some ms).
#[local] Set Default Proof Using "Type*".

Lemma params_order : 1 ≤ cp_min p ∧ cp_min p < cp_max p.
Proof. clear Hms. unfold assert_valid in Hval. rewrite !andb_true_iff, !Z.leb_le, !Z.ltb_lt in Hval. lia. Qed.

Lemma find_boundary_eq d : find_boundary p d = Ret (find_cut ms p d).
Proof. unfold find_boundary. by rewrite Hms. Qed.

Lemma scan_bounds s l avg pos fp d c : scan s l avg pos fp d = Some c → pos < c ≤ pos + len_z d.
Proof.
  revert pos fp. induction d as [|b d IH]; intros pos fp; [done|]. cbn [scan]. unfold len_z. cbn [length]. case_match; [intros [= <-]; lia|].
  intros H1%IH. unfold len_z in H1. lia.
Qed.

(** The scan reads no further than the cut it finds. *)
Lemma scan_prefix s l avg pos fp d d' c :
  scan s l avg pos fp d = Some c → take (Z.to_nat (c - pos)) d = take (Z.to_nat (c - pos)) d' → c - pos ≤ len_z d' → scan s l avg pos fp d' = Some c.
Proof.
  revert pos fp d'. induction d as [|b d IH]; intros pos fp d'; [done|]. intros Hc Ht Hl. pose proof (scan_bounds _ _ _ _ _ _ _ Hc) as Hb.
  replace (Z.to_nat (c - pos)) with (S (Z.to_nat (c - (pos + 1)))) in Ht by lia. destruct d' as [|b' d']; [unfold len_z in Hl; cbn in Hl; lia|]. cbn [take] in Ht.
  injection Ht as <- Ht. cbn [scan] in *. case_match; [done|]. apply IH; [done|done|]. unfold len_z in *. cbn [length] in Hl. lia.
Qed.

Lemma find_cut_bounds d c : find_cut ms p d = Some c → cp_min p < c ≤ cp_max p ∧ c ≤ len_z d.
Proof.
  destruct params_order as [H1 H2]. unfold find_cut. intros H.
  assert ((if cp_max p <=? len_z d then Some (cp_max p) else None) = Some c → cp_min p < c ≤ cp_max p ∧ c ≤ len_z d) as Hfull.
  { destruct (Z.leb_spec (cp_max p) (len_z d)); [intros [= <-]; lia|done]. }
  destruct (Z.leb_spec (Z.min (len_z d) (cp_max p)) (cp_min p)) as [Hs|Hs]; [by apply Hfull|]. destruct (scan _ _ _ _ _ _) as [c'|] eqn:Es; [|by apply Hfull].
  injection H as <-. apply scan_bounds in Es. unfold len_z in Es at 1. rewrite slice_length in Es by (unfold len_z in *; lia). lia.
Qed.

Lemma find_cut_none d : find_cut ms p d = None → len_z d < cp_max p.
Proof.
  unfold find_cut. destruct (Z.leb_spec (cp_max p) (len_z d)) as [Hl|Hl]; [|by intros]. case_match; [done|]. by case_match.
Qed.

Lemma slice_prefix l l' q n k : take k l = take k l' → 0 ≤ q → 0 ≤ n → (Z.to_nat (q + n) ≤ k)%nat → slice l q n = slice l' q n.
Proof.
  intros Ht Hq Hn Hk. unfold slice. rewrite !take_drop_commute.
  assert (∀ m : list Z, take (Z.to_nat q + Z.to_nat n) m = take (Z.to_nat q + Z.to_nat n) (take k m)) as Hm by (intros m; rewrite take_take; f_equal; lia).
  by rewrite (Hm l), (Hm l'), Ht.
Qed.

(** A cut depends on the bytes before it and on nothing after. *)
Lemma find_cut_prefix d d' c : find_cut ms p d = Some c → take (Z.to_nat c) d = take (Z.to_nat c) d' → c ≤ len_z d' → find_cut ms p d' = Some c.
Proof.
  destruct params_order as [H1 H2]. intros Hc Ht Hl. pose proof (find_cut_bounds _ _ Hc) as [Hb Hb']. unfold find_cut in *.
  destruct (Z.leb_spec (Z.min (len_z d) (cp_max p)) (cp_min p)); [lia|]. rewrite (proj2 (Z.leb_gt _ _)) by lia.
  destruct (scan _ _ _ _ _ (slice d _ _)) as [c'|] eqn:Es.
  - injection Hc as ->. assert (scan ms.1 ms.2 (cp_avg p) (cp_min p) 0 (slice d' (cp_min p) (Z.min (len_z d') (cp_max p) - cp_min p)) = Some c) as ->; [|done].
    eapply scan_prefix; [exact Es| |unfold len_z at 1; rewrite slice_length; unfold len_z in *; lia].
    unfold slice. rewrite !take_take, !Nat.min_l by lia. change (slice d (cp_min p) (c - cp_min p) = slice d' (cp_min p) (c - cp_min p)). apply (slice_prefix _ _ _ _ (Z.to_nat c)); [done|lia|lia|lia].
  - destruct (Z.leb_spec (cp_max p) (len_z d)); [|done]. injection Hc as <-. rewrite (Z.min_r (len_z d')) by lia. rewrite (Z.min_r (len_z d)) in Es by lia.
    rewrite <-(slice_prefix d d' _ _ (Z.to_nat (cp_max p))) by (done || lia). rewrite Es. by rewrite (proj2 (Z.leb_le _ _)).
Qed.

Lemma find_cut_app d more c : find_cut ms p d = Some c → find_cut ms p (d ++ more) = Some c.
Proof.
  intros H. pose proof (find_cut_bounds _ _ H) as [Hb Hl]. unfold len_z in Hl. eapply find_cut_prefix; [exact H| |unfold len_z; rewrite length_app; lia].
  symmetry. apply take_app_le. destruct params_order. lia.
Qed.

(** ** Canonical chunkings *)
Inductive chunked : list Z → list (list Z) → Prop :=
| chunked_nil : chunked [] []
| chunked_cut c d cs : find_cut ms p (c ++ d) = Some (len_z c) → chunked d cs → chunked (c ++ d) (c :: cs)
| chunked_last c : c ≠ [] → find_cut ms p c = None → chunked c [c].

Lemma chunked_concat d cs : chunked d cs → concat cs = d.
Proof. induction 1 as [|c d cs _ _ IH|c]; cbn; [done|by rewrite IH|by rewrite app_nil_r]. Qed.

Lemma chunked_nil_inv cs : chunked [] cs → cs = [].
Proof.
  inversion 1 as [|c d cs' Hc _ He|]; [done| |done]. apply app_eq_nil in He as [-> ->]. apply find_cut_bounds in Hc. destruct params_order. cbn in Hc. unfold len_z in Hc. cbn in Hc. lia.
Qed.

(** The chunking of what follows a cut does not see what precedes it. *)
Lemma chunked_cut_inv d c cs : find_cut ms p d = Some c → chunked d cs → ∃ cs', cs = take (Z.to_nat c) d :: cs' ∧ chunked (drop (Z.to_nat c) d) cs'.
Proof.
  intros Hc. inversion 1 as [|c1 d1 cs1 H1 H2|c1 H1 H2]; subst.
  - apply find_cut_bounds in Hc as [Hc Hl]. destruct params_order. unfold len_z in Hl. cbn in Hl. lia.
  - rewrite H1 in Hc. injection Hc as <-. unfold len_z. rewrite Nat2Z.id, take_app_length, drop_app_length. eauto.
  - congruence.
Qed.

Lemma chunked_fun d cs1 cs2 : chunked d cs1 → chunked d cs2 → cs1 = cs2.
Proof.
  intros H. revert cs2. induction H as [|c d cs Hc H IH|c Hne Hc]; intros cs2 H2.
  - by rewrite (chunked_nil_inv cs2).
  - destruct (chunked_cut_inv _ _ _ Hc H2) as (cs' & -> & H'). unfold len_z in *. rewrite Nat2Z.id, take_app_length, drop_app_length in *. f_equal. by apply IH.
  - inversion H2 as [|c1 d1 cs1 H1 H3|c1 H1 H3]; subst; [done|congruence|done].
Qed.

Lemma cut_step d c : find_cut ms p d = Some c → d = take (Z.to_nat c) d ++ drop (Z.to_nat c) d ∧ len_z (take (Z.to_nat c) d) = c ∧ (length (drop (Z.to_nat c) d) < length d)%nat.
Proof.
  intros H. apply find_cut_bounds in H as [H1 H2]. destruct params_order. unfold len_z in *. split; [by rewrite take_drop|]. rewrite length_drop, length_take. lia.
Qed.

Lemma chunked_total d : ∃ cs, chunked d cs.
Proof.
  remember (length d) as n eqn:En. revert d En. induction (lt_wf n) as [n _ IH]. intros d ->. destruct (find_cut ms p d) as [c|] eqn:Ec.
  - destruct (cut_step _ _ Ec) as (Hd & Hl & Hlt). destruct (IH _ Hlt _ eq_refl) as [cs Hcs]. exists (take (Z.to_nat c) d :: cs). rewrite Hd at 1. constructor; [|done].
    by rewrite <-Hd, Hl.
  - destruct d as [|b d]; [exists []; constructor|]. exists [b :: d]. by constructor.
Qed.

(** Every chunk but the last is longer than [min], none is longer than [max], none empty. *)
Lemma chunked_sizes d cs i c : chunked d cs → cs !! i = Some c → 0 < len_z c ≤ cp_max p ∧ ((S i < length cs)%nat → cp_min p < len_z c).
Proof.
  destruct params_order as [H1 H2]. intros H. revert i. induction H as [|c0 d cs Hc H IH|c0 Hne Hc]; intros i Hi; [done| |].
  - destruct i as [|i]; cbn in Hi; [injection Hi as ->; apply find_cut_bounds in Hc; lia|]. destruct (IH i Hi) as [H3 H4]. split; [done|]. cbn. intros. apply H4. lia.
  - destruct i as [|i]; [|done]. cbn in Hi. injection Hi as ->. split; [|cbn; lia]. pose proof (find_cut_none _ Hc). pose proof (len_z_pos _ Hne). lia.
Qed.

(** ** The whole-buffer form *)
Fixpoint ends_from (start : Z) (cs : list (list Z)) : list Z :=
  match cs with [] => [] | c :: cs' => (start + len_z c) :: ends_from (start + len_z c) cs' end.

Lemma boundaries_loop_spec fuel d start cs :
  0 ≤ start → (Z.to_nat (len_z d - start) ≤ fuel)%nat → chunked (drop (Z.to_nat start) d) cs → boundaries_loop fuel p d start = Ret (ends_from start cs).
Proof.
  revert start cs. induction fuel as [|fuel IH]; intros start cs Hs Hf Hc; cbn [boundaries_loop]; destruct (Z.leb_spec (len_z d) start) as [Hle|Hlt].
  1,3: rewrite drop_ge in Hc by (unfold len_z in Hle; lia); by rewrite (chunked_nil_inv _ Hc). { lia. }
  rewrite find_boundary_eq. set (r := drop (Z.to_nat start) d) in *. assert (len_z r = len_z d - start) as Hr by (unfold len_z in *; subst r; rewrite length_drop; lia).
  destruct (find_cut ms p r) as [c|] eqn:Ec; cbn.
  - destruct (chunked_cut_inv _ _ _ Ec Hc) as (cs' & -> & Hc'). pose proof (find_cut_bounds _ _ Ec) as [Hb Hb2]. destruct params_order. cbn [ends_from].
    destruct (cut_step _ _ Ec) as (_ & -> & _). rewrite (IH _ cs'); [done|lia|lia|]. unfold r in Hc'. rewrite drop_drop in Hc'. by replace (Z.to_nat (start + c)) with (Z.to_nat start + Z.to_nat c)%nat by lia.
  - inversion Hc as [He|c1 d1 cs1 H1 H2|c1 H1 H2 He]; subst; [rewrite <-He in Hr; change (len_z []) with 0 in Hr; lia|congruence|]. cbn. rewrite Hr. rewrite (IH _ []); [done|lia|lia|].
    rewrite drop_ge by (unfold len_z in *; lia). constructor.
Qed.

Lemma boundaries_spec d cs : chunked d cs → boundaries p d = Ret (ends_from 0 cs).
Proof. intros H. unfold boundaries. rewrite Hval. apply boundaries_loop_spec; [done| |done]. unfold len_z. lia. Qed.

(** ** The streaming form *)
Lemma push_loop_spec fuel buf :
  (length buf < fuel)%nat → ∃ cs tail, push_loop fuel p buf = Ret (cs, tail) ∧ find_cut ms p tail = None ∧
    ∀ more all, chunked (tail ++ more) all → chunked (buf ++ more) (cs ++ all).
Proof.
  revert buf. induction fuel as [|fuel IH]; intros buf Hf; [lia|]. cbn [push_loop]. rewrite find_boundary_eq. destruct (find_cut ms p buf) as [c|] eqn:Ec.
  - destruct (cut_step _ _ Ec) as (Hd & Hl & Hlt). destruct (IH (drop (Z.to_nat c) buf)) as (cs & tail & -> & Ht & Hm); [lia|].
    eexists _, _. split; [done|]. split; [done|]. intros more all Ha. rewrite Hd at 1. rewrite <-app_assoc. constructor; [|by apply Hm].
    rewrite app_assoc, <-Hd, Hl. by apply find_cut_app.
  - eexists _, _. split; [done|]. split; [done|]. by intros.
Qed.

Lemma stream_spec segs buf cs : chunked (buf ++ concat segs) cs → find_cut ms p buf = None → stream (MkChunker p buf) segs = Ret cs.
Proof.
  revert buf cs. induction segs as [|s segs IH]; intros buf cs Hc Hn.
  - cbn in Hc. rewrite app_nil_r in Hc. cbn [stream]. unfold flush. cbn [ch_buf ch_params]. rewrite (proj2 (Z.ltb_lt _ _)) by (by apply find_cut_none).
    inversion Hc as [|c1 d1 cs1 H1 H2|c1 H1 H2 He]; subst; [done|congruence|]. by destruct buf.
  - cbn [stream]. unfold push. cbn [ch_buf ch_params]. destruct (push_loop_spec (S (length (buf ++ s))) (buf ++ s)) as (cs1 & tail & -> & Ht & Hm); [lia|].
    destruct (chunked_total (tail ++ concat segs)) as [cs2 H2]. rewrite (IH tail cs2) by done. f_equal. eapply chunked_fun; [by apply Hm|].
    rewrite <-app_assoc. done.
Qed.
(** ** Entering and leaving a chunking *)

(** A canonical chunking can be entered at any of its cuts ... *)
Lemma chunked_drop d cs j : chunked d cs → chunked (drop (length (concat (take j cs))) d) (drop j cs).
Proof.
  intros Hc. revert j. induction Hc as [|c d cs Hcut Hc IH|c Hne Hcut]; intros [|j]; cbn; try by econstructor.
  - rewrite length_app, <-drop_drop, drop_app_length. apply IH.
  - rewrite take_nil. cbn. rewrite app_nil_r, drop_all. rewrite drop_nil. constructor.
Qed.
(** ... and left at any cut before its last chunk. *)
Lemma chunked_splice d cs new r cs2 :
  let n := length (concat (take r cs)) in
  chunked d cs → (r < length cs ∨ r = 0)%nat → take n d = take n new → (n ≤ length new)%nat → chunked (drop n new) cs2 → chunked new (take r cs ++ cs2).
Proof.
  cbv zeta. intros Hc. revert r new. induction Hc as [|c d cs Hcut Hc IH|c Hne Hcut]; intros [|r] new Hr Ht Hl H2; cbn in *; try done; try lia.
  rewrite length_app in *. assert (∃ new', new = c ++ new') as [new' ->].
  { exists (drop (length c) new). rewrite <-(take_drop (length c) new) at 1. f_equal. apply (f_equal (take (length c))) in Ht. rewrite !take_take, !Nat.min_l in Ht by lia. by rewrite take_app_length in Ht. }
  rewrite length_app in Hl. rewrite <-drop_drop, drop_app_length in H2. rewrite !take_app_add in Ht. apply app_inv_head in Ht.
  cbn. constructor; [|apply IH; try done; lia]. eapply find_cut_prefix; [exact Hcut| |unfold len_z; rewrite length_app; lia].
  unfold len_z. by rewrite Nat2Z.id, !take_app_length.
Qed.

Lemma find_cut_empty : find_cut ms p [] = None.
Proof.
  destruct (find_cut ms p []) as [c|] eqn:E; [|done]. apply find_cut_bounds in E as [E1 E2]. destruct params_order. unfold len_z in E2. cbn in E2. lia.
Qed.
End cutting.
