(* ===== verification/File.v ===== *)
(** File contents ([cas/src/file.rs]): inline or chunked storage, the chunk-list codec, the
    read path and the neighborhood re-chunk of an edited file. *)

From stdpp Require Import strings.
From S2P Require Import Prelude Bytes BTree Prolly ProllyTree Chunker.

(** ** The chunk-list object *)
Definition CHUNK_LIST_MAGIC : Z := 193.
Record RawChunkRef : Type := MkRef { cr_hash : list Z; cr_len : Z }.

Definition encode_chunk_ref (r : RawChunkRef) : list Z := cr_hash r ++ u32_le (cr_len r).
Definition encode_chunk_list (refs : list RawChunkRef) : list Z :=
  [CHUNK_LIST_MAGIC] ++ u32_le (as_u32 (Z.of_nat (length refs))) ++ concat (encode_chunk_ref <$> refs).

(** Every failure of [p] is reported as [e]. *)
Definition with_err {A : Type} (e : FormatError) (p : parse A) : parse A := λ r, match p r with Ok x => Ok x | Err _ => Err e end.
Definition decode_chunk_ref : parse RawChunkRef := h ← rd_hash; n ← rd_u32; mret (MkRef h n).
Definition chunk_list_header : parse Z := m ← rd_u8; if negb (m =? CHUNK_LIST_MAGIC) then refuse (BadNode "not a chunk list") else rd_u32.
Definition chunk_list_parser : parse (list RawChunkRef) :=
  count ← with_err (BadNode "not a chunk list") chunk_list_header;
  refs ← with_err (BadNode "chunk list length mismatch") (rd_list (Z.to_nat count) decode_chunk_ref);
  d ← rd_done;
  if negb d then refuse (BadNode "chunk list length mismatch") else mret refs.
Definition decode_chunk_list (buf : list Z) : result (list RawChunkRef) FormatError :=
  match chunk_list_parser (reader buf) with Ok (refs, _) => Ok refs | Err e => Err e end.

Definition chunk_list_entries (l : list Z) : result (list (Hash * Z)) FormatError :=
  match decode_chunk_list l with Ok refs => Ok ((λ r, (cr_hash r, cr_len r)) <$> refs) | Err e => Err e end.

(** [for (_, len) in &old_chunks { acc += len; old_cut.push(acc) }] after [old_cut.push(0)] *)
Fixpoint cuts_from (acc : Z) (chunks : list (Hash * Z)) : list Z :=
  acc :: match chunks with [] => [] | (_, n) :: cs => cuts_from (acc + n) cs end.

(** [partition_point(|&c| c <= x)] and [binary_search(&x)] on an ascending list. *)
Fixpoint partition_point (x : Z) (l : list Z) : nat :=
  match l with [] => O | c :: l' => if c <=? x then S (partition_point x l') else O end.
Fixpoint binary_search (x : Z) (l : list Z) : option nat :=
  match l with [] => None | c :: l' => if c =? x then Some O else S <$> binary_search x l' end.

Fixpoint common_prefix_len (a b : list Z) : Z :=
  match a, b with x :: a', y :: b' => if x =? y then 1 + common_prefix_len a' b' else 0 | _, _ => 0 end.
(** The scan runs from the ends of the two buffers. *)
Definition common_suffix_len (a b : list Z) : Z := common_prefix_len (reverse a) (reverse b).

Section files.
Context {S : Type} `{NodeStore S}.

Definition lift {A : Type} (o : outcome A) : comp S A := λ s, match o with Ret a => Ret (a, s) | Panic => Panic | NoFuel => NoFuel end.
Definition put_m (b : list Z) : comp S Hash := λ s, Ret (put b s).

(** The loop over the cuts: each chunk is stored and referenced. *)
Fixpoint store_chunks (data : list Z) (start : Z) (cuts : list Z) : comp S (list RawChunkRef) :=
  match cuts with
  | [] => mret []
  | cut :: cuts' =>
      let chunk := slice data start (cut - start) in
      h ← put_m chunk;
      refs ← store_chunks data cut cuts';
      mret (MkRef h (as_u32 (len_z chunk)) :: refs)
  end.

Definition store_file (p : ChunkerParams) (data : list Z) : comp S Content :=
  if len_z data <=? INLINE_MAX then mret (Inline data)
  else
    cuts ← lift (boundaries p data);
    refs ← store_chunks data 0 cuts;
    h ← put_m (encode_chunk_list refs);
    mret (ChunkList h).

Fixpoint read_chunks (store : S) (es : list (Hash * Z)) (out : list Z) : result (list Z) FormatError :=
  match es with
  | [] => Ok out
  | (h, n) :: es' =>
      match get store h with
      | None => Err (MissingNode h)
      | Some chunk => if negb (len_z chunk =? n) then Err (BadNode "chunk length mismatch") else read_chunks store es' (out ++ chunk)
      end
  end.
Definition read_file (store : S) (content : Content) (size : Z) : result (list Z) FormatError :=
  match content with
  | Inline bytes => if negb (len_z bytes =? size) then Err (BadEntry "inline size mismatch") else Ok bytes
  | ChunkList h =>
      match get store h with
      | None => Err (MissingNode h)
      | Some l =>
          match chunk_list_entries l with
          | Err e => Err e
          | Ok es =>
              match read_chunks store es [] with
              | Err e => Err e
              | Ok out => if negb (len_z out =? size) then Err (BadEntry "file size mismatch") else Ok out
              end
          end
      end
  | DirRoot _ => Err (BadEntry "not a file")
  end.

Definition make_file_entry (p : ChunkerParams) (name data : list Z) (mtime flags : Z) : comp S Entry :=
  content ← store_file p data;
  mret (MkEntry name KFile flags (len_z data) mtime content).

(** The re-chunk loop from the emitted boundary [pos]: the references it adds. *)
Fixpoint rechunk (fuel : nat) (p : ChunkerParams) (new : list Z) (s_new delta : Z) (old_cut : list Z) (old_chunks : list (Hash * Z)) (pos : Z) :
    comp S (list (Hash * Z)) :=
  let realigned := if s_new <=? pos then let old_off := pos - delta in if 0 <=? old_off then binary_search old_off old_cut else None else None in
  match realigned with
  | Some j => mret (drop j old_chunks)
  | None =>
      match fuel with
      | O => nofuel
      | Datatypes.S fuel' =>
          if len_z new <? pos then panic
          else
            n ← lift (next_cut p (drop (Z.to_nat pos) new));
            let chunk := slice new pos n in
            h ← put_m chunk;
            refs ← rechunk fuel' p new s_new delta old_cut old_chunks (pos + n);
            mret ((h, as_u32 (len_z chunk)) :: refs)
      end
  end.

Definition splice_chunks (p : ChunkerParams) (old_chunks : list (Hash * Z)) (old_bytes new : list Z) (first_dirty : Z) : comp S Content :=
  let old_cut := cuts_from 0 old_chunks in
  let old_len := default 0 (last old_cut) in
  let new_len := len_z new in
  let delta := new_len - old_len in
  let containing := (partition_point first_dirty old_cut - 1)%nat in
  let resume_idx := (containing - 1)%nat in
  resume ← index old_cut resume_idx;
  let s_new := new_len - common_suffix_len new old_bytes in
  refs ← rechunk (length new) p new s_new delta old_cut old_chunks resume;
  h ← put_m (encode_chunk_list ((λ x, MkRef x.1 x.2) <$> (take resume_idx old_chunks ++ refs)));
  mret (ChunkList h).

Definition store_file_neighborhood (p : ChunkerParams) (old : Content) (old_bytes new : list Z) (first_dirty : Z) : comp S Content :=
  if len_z new <=? INLINE_MAX then mret (Inline new)
  else
    match old with
    | ChunkList old_hash =>
        l ← gets (λ s, get s old_hash);
        match l with
        | Some l =>
            match chunk_list_entries l with
            | Ok old_chunks => splice_chunks p old_chunks old_bytes new first_dirty
            | Err _ => store_file p new
            end
        | None => store_file p new
        end
    | _ => store_file p new
    end.
End files.

(** * The chunk-list codec *)
Definition ref_valid (r : RawChunkRef) : Prop := length (cr_hash r) = 32%nat ∧ fits_in 4 (cr_len r).

Lemma reads_with_err {A : Type} e (p : parse A) a l : reads p a l → reads (with_err e p) a l.
Proof. intros Hr r tail H1 H2. unfold with_err. by rewrite (Hr r tail). Qed.
Lemma canon_with_err {A : Type} e (p : parse A) enc (P : A → Prop) : canon p enc P → canon (with_err e p) enc P.
Proof. intros Hc r a r' G. unfold with_err. destruct (p r) as [x|] eqn:E; [|done]. intros [= ->]. by apply Hc. Qed.

Lemma reads_chunk_ref r : ref_valid r → reads decode_chunk_ref r (encode_chunk_ref r).
Proof. destruct r as [h n]. intros [H1 H2]. eapply reads_bind; [by apply reads_hash|]. by apply (reads_last rd_u32 (MkRef h)), reads_u32. Qed.
Lemma canon_chunk_ref : canon decode_chunk_ref encode_chunk_ref ref_valid.
Proof.
  intros r x r' G Hr. unfold decode_chunk_ref in Hr. pstep Hr (canon_take 32). pstep Hr canon_u32. injection Hr as <- <-. split; [by eapply took_trans|]. split; [apply P|done].
Qed.

Lemma count_fits n : Z.of_nat n < 2 ^ 32 → as_u32 (Z.of_nat n) = Z.of_nat n ∧ fits_in 4 (Z.of_nat n).
Proof. intros. unfold as_u32, fits_in. change (256 ^ Z.of_nat 4) with (2 ^ 32). split; [apply Z.mod_small|]; lia. Qed.

Lemma chunk_list_decode_encode refs : Forall ref_valid refs → Z.of_nat (length refs) < 2 ^ 32 → decode_chunk_list (encode_chunk_list refs) = Ok refs.
Proof.
  intros HF [E F]%count_fits. unfold decode_chunk_list, encode_chunk_list. rewrite E, app_assoc.
  assert (ends chunk_list_parser refs (([CHUNK_LIST_MAGIC] ++ u32_le (Z.of_nat (length refs))) ++ concat (encode_chunk_ref <$> refs))) as HE; [|by rewrite (ends_all _ _ _ HE)].
  eapply ends_bind; [apply reads_with_err; eapply reads_bind; [apply reads_u8, fits_1; unfold CHUNK_LIST_MAGIC; lia|]; by apply reads_u32|]. rewrite Nat2Z.id.
  rewrite <-(app_nil_r (concat _)). eapply ends_bind; [|apply ends_done]. apply reads_with_err, reads_list. rewrite Forall_forall in HF. intros x Hx. by apply reads_chunk_ref, HF.
Qed.

Lemma chunk_list_encode_decode buf refs :
  is_bytes buf → decode_chunk_list buf = Ok refs → buf = encode_chunk_list refs ∧ Forall ref_valid refs ∧ Z.of_nat (length refs) < 2 ^ 32.
Proof.
  intros Hb. unfold decode_chunk_list. destruct (chunk_list_parser (reader buf)) as [[x r']|] eqn:Hp; [|done]. intros [= ->].
  assert (good (reader buf)) as G by (split; [cbn; lia|by unfold rest; cbn]).
  unfold chunk_list_parser in Hp. apply bind_ok in Hp as (n & r1 & H1 & Hp). unfold with_err in H1. destruct (chunk_list_header (reader buf)) as [[n' r1']|] eqn:Hh; [|done]. injection H1 as -> ->.
  unfold chunk_list_header in Hh. pstep Hh canon_u8. destruct (Z.eqb_spec x CHUNK_LIST_MAGIC) as [->|]; [|done]. cbn [negb] in Hh.
  destruct (canon_u32 _ _ _ G0 Hh) as [T2 Hn]. destruct (took_good _ _ _ T2 G0) as [G2 _].
  pstep Hp (canon_with_err (BadNode "chunk list length mismatch") _ _ _ (canon_list decode_chunk_ref encode_chunk_ref ref_valid (Z.to_nat n) canon_chunk_ref)).
  destruct P0 as [Hl HP]. apply bind_ok in Hp as (d & r4 & Hd & Hp). apply done_ok in Hd as [-> Hd]. destruct d; [|done]. injection Hp as -> ->.
  unfold fits_in in Hn. change (256 ^ Z.of_nat 4) with (2 ^ 32) in Hn. split; [|split; [done|lia]].
  pose proof (took_trans _ _ _ _ _ T (took_trans _ _ _ _ _ T2 T0)) as (_ & _ & _ & HT). rewrite Hd, app_nil_r in HT by done. cbn in HT. rewrite drop_0 in HT.
  unfold encode_chunk_list. destruct (count_fits (length refs)) as [-> _]; [lia|]. rewrite HT. cbn [app]. replace (Z.of_nat (length refs)) with n by lia. done.
Qed.

(** * Files in a store *)
Section held.
Context (hash_of : list Z → Hash) `{!HashLaws hash_of}.
Context (p : ChunkerParams) (ms : Z * Z) (Hval : assert_valid p = true) (Hms : masks p = Some ms) (Hmax : cp_max p < 2 ^ 32).
Context {S : Type} `{NodeStore S} (store_ok : S → Prop) `{!StoreLaws hash_of S store_ok}.
#[local] Set Default Proof Using "Type*".

(** The references of a chunking, its list object, and the content of a file: functions of
    the bytes alone. *)
Definition refs_of (cs : list (list Z)) : list (Hash * Z) := (λ c, (hash_of c, as_u32 (len_z c))) <$> cs.
Definition list_object (cs : list (list Z)) : list Z := encode_chunk_list ((λ x, MkRef x.1 x.2) <$> refs_of cs).

Lemma put_m_bind {B : Type} b (f : Hash → comp S B) s : (put_m b ≫= f) s = f (hash_of b) (put b s).2.
Proof using StoreLaws0. apply (bind_put hash_of store_ok). Qed.

Lemma store_chunks_spec pre cs s :
  store_chunks (pre ++ concat cs) (len_z pre) (ends_from (len_z pre) cs) s = Ret ((λ x, MkRef x.1 x.2) <$> refs_of cs, put_all cs s).
Proof using StoreLaws0.
  revert pre s. induction cs as [|c cs IH]; intros pre s; [done|]. cbn [ends_from store_chunks concat]. rewrite put_m_bind.
  assert (slice (pre ++ c ++ concat cs) (len_z pre) (len_z pre + len_z c - len_z pre) = c) as ->.
  { unfold slice, len_z. rewrite Nat2Z.id, drop_app_length. rewrite take_app_le by lia. apply take_ge. lia. }
  replace (len_z pre + len_z c) with (len_z (pre ++ c)) by (unfold len_z; rewrite length_app; lia). rewrite app_assoc.
  unfold mbind, comp_bind. rewrite IH. done.
Qed.

Lemma store_file_spec data cs s :
  INLINE_MAX < len_z data → chunked p ms data cs → store_file p data s = Ret (ChunkList (hash_of (list_object cs)), put_all (cs ++ [list_object cs]) s).
Proof using Hval Hms StoreLaws0.
  intros Hl Hc. unfold store_file. rewrite (proj2 (Z.leb_gt _ _)) by done. unfold mbind, comp_bind, lift at 1. rewrite (boundaries_spec p ms Hval Hms data cs Hc).
  pose proof (store_chunks_spec [] cs s) as HS. cbn [app] in HS. change (len_z []) with 0 in HS. rewrite (chunked_concat p ms Hval Hms _ _ Hc) in HS. rewrite HS.
  unfold put_m. rewrite (put_eq hash_of store_ok). fold (list_object cs). unfold put_all. by rewrite foldl_app.
Qed.

(** ** Reading back *)
Definition chunks_held (s : S) (cs : list (list Z)) : Prop := ∀ c, c ∈ cs → get s (hash_of c) = Some c.
(** [content] is the canonical content of [data] and everything it names is in the store. *)
Definition file_held (s : S) (content : Content) (data : list Z) : Prop :=
  if len_z data <=? INLINE_MAX then content = Inline data
  else ∃ cs, chunked p ms data cs ∧ content = ChunkList (hash_of (list_object cs)) ∧ get s (hash_of (list_object cs)) = Some (list_object cs) ∧
    chunks_held s cs ∧ Z.of_nat (length cs) < 2 ^ 32.

Lemma chunk_len data cs c : chunked p ms data cs → c ∈ cs → as_u32 (len_z c) = len_z c.
Proof.
  intros Hc [i Hi]%list_elem_of_lookup. destruct (chunked_sizes p ms Hval Hms _ _ _ _ Hc Hi) as [Hs _]. unfold as_u32. apply Z.mod_small. lia.
Qed.

Lemma list_object_entries data cs : chunked p ms data cs → Z.of_nat (length cs) < 2 ^ 32 → chunk_list_entries (list_object cs) = Ok (refs_of cs).
Proof.
  intros Hc Hn. unfold chunk_list_entries, list_object. rewrite chunk_list_decode_encode.
  - f_equal. rewrite <-list_fmap_compose. rewrite <-(list_fmap_id (refs_of cs)) at 2. apply list_fmap_ext. by intros i [h n] _.
  - apply Forall_forall. intros r Hr. apply list_elem_of_fmap in Hr as (x & -> & Hx). apply list_elem_of_fmap in Hx as (c & -> & Hcin). split; [cbn; apply hash_length|].
    cbn. unfold as_u32, fits_in. change (256 ^ Z.of_nat 4) with 4294967296. apply Z.mod_pos_bound. lia.
  - unfold refs_of. by rewrite !length_fmap.
Qed.

Lemma read_chunks_ok s cs out : (∀ c, c ∈ cs → as_u32 (len_z c) = len_z c) → chunks_held s cs → read_chunks s (refs_of cs) out = Ok (out ++ concat cs).
Proof using Type.
  revert out. induction cs as [|c cs IH]; intros out Hn Hh; cbn; [by rewrite app_nil_r|]. rewrite (Hh c) by (by left). rewrite Hn, Z.eqb_refl by (by left). cbn.
  rewrite IH, <-app_assoc; [done|intros; apply Hn; by right|intros c' ?; apply Hh; by right].
Qed.

Lemma read_held s content data : file_held s content data → read_file s content (len_z data) = Ok data.
Proof.
  unfold file_held. destruct (len_z data <=? INLINE_MAX); [intros ->; cbn; by rewrite Z.eqb_refl|]. intros (cs & Hc & -> & Hl & Hh & Hn). cbn [read_file]. rewrite Hl.
  rewrite (list_object_entries _ _ Hc Hn), read_chunks_ok by (done || (intros; by eapply chunk_len)). cbn [app]. rewrite (chunked_concat p ms Hval Hms _ _ Hc). by rewrite Z.eqb_refl.
Qed.

(** Everything a write of [data] files, whatever the store held: the objects of its
    canonical chunking. *)
Lemma held_after data cs bs s :
  store_ok s → addressed hash_of s → INLINE_MAX < len_z data → chunked p ms data cs → Z.of_nat (length cs) < 2 ^ 32 →
  no_clash hash_of (λ b, stored s b ∨ b ∈ bs) → list_object cs ∈ bs → (∀ c, c ∈ cs → c ∈ bs ∨ get s (hash_of c) = Some c) →
  file_held (put_all bs s) (ChunkList (hash_of (list_object cs))) data.
Proof.
  intros Ho Ha Hl Hc Hn Hno Hlo Hcs. unfold file_held. rewrite (proj2 (Z.leb_gt _ _)) by done. exists cs.
  pose proof (put_all_get hash_of store_ok bs s Ho Ha Hno) as Hg. split_and!; try done; [by apply Hg|].
  intros c Hin. destruct (Hcs c Hin) as [Hb|Hb]; [by apply Hg|]. by apply (put_all_keeps hash_of store_ok).
Qed.

(** ** The neighborhood re-chunk *)
Lemma elem_drop {A : Type} (x : A) j l : x ∈ drop j l → x ∈ l.
Proof using Type. intros Hx. rewrite <-(take_drop j l). apply elem_of_app. by right. Qed.
Lemma elem_take {A : Type} (x : A) j l : x ∈ take j l → x ∈ l.
Proof using Type. intros Hx. rewrite <-(take_drop j l). apply elem_of_app. by left. Qed.
Lemma binary_search_Some x l j : binary_search x l = Some j → l !! j = Some x.
Proof using Type.
  revert j. induction l as [|c l IH]; intros j; [done|]. cbn. destruct (Z.eqb_spec c x) as [->|]; [by intros [= <-]|].
  destruct (binary_search x l) as [k|]; [|done]. intros [= <-]. cbn. by apply IH.
Qed.
Lemma binary_search_elem x l : x ∈ l → is_Some (binary_search x l).
Proof using Type.
  induction l as [|c l IH]; [by intros ?%elem_of_nil|]. intros [->|Hx]%elem_of_cons; cbn; [rewrite Z.eqb_refl; by eexists|].
  destruct (c =? x); [by eexists|]. destruct (IH Hx) as [k ->]. by eexists.
Qed.
Lemma partition_point_le x l i c : (i < partition_point x l)%nat → l !! i = Some c → c ≤ x.
Proof using Type.
  revert i. induction l as [|d l IH]; intros i; [done|]. cbn. destruct (Z.leb_spec d x); [|lia]. destruct i as [|i]; cbn; [intros _ [= <-]; done|]. intros Hi. apply IH. lia.
Qed.
Lemma partition_point_length x l : (partition_point x l ≤ length l)%nat.
Proof using Type. induction l as [|d l IH]; cbn; [done|]. destruct (d <=? x); lia. Qed.

Lemma common_prefix_spec a b : 0 ≤ common_prefix_len a b ∧ common_prefix_len a b ≤ len_z a ∧ common_prefix_len a b ≤ len_z b ∧
  take (Z.to_nat (common_prefix_len a b)) a = take (Z.to_nat (common_prefix_len a b)) b.
Proof using Type.
  revert b. unfold len_z. induction a as [|x a IH]; intros [|y b]; cbn [common_prefix_len length]; try (split_and!; [lia..|done]).
  destruct (Z.eqb_spec x y) as [->|]; [|split_and!; [lia..|done]]. destruct (IH b) as (H1 & H2 & H3 & H4). split_and!; [lia..|].
  rewrite Z2Nat.inj_add by lia. change (Z.to_nat 1) with 1%nat. cbn. by rewrite H4.
Qed.
(** Past the common suffix the two buffers are one. *)
Lemma common_suffix_drop a b q :
  len_z a - common_suffix_len a b ≤ q ≤ len_z a → drop (Z.to_nat q) a = drop (Z.to_nat (q - (len_z a - len_z b))) b.
Proof using Type.
  unfold common_suffix_len. destruct (common_prefix_spec (reverse a) (reverse b)) as (H1 & H2 & H3 & H4). revert H1 H2 H3 H4. generalize (common_prefix_len (reverse a) (reverse b)). intros k.
  unfold len_z. rewrite !length_reverse. intros H1 H2 H3 H4 Hq.
  assert (∀ l : list Z, drop (length l - Z.to_nat k) l = reverse (take (Z.to_nat k) (reverse l))) as HD.
  { intros l. rewrite take_reverse, reverse_involutive. done. }
  replace (Z.to_nat q) with ((length a - Z.to_nat k) + (Z.to_nat q - (length a - Z.to_nat k)))%nat by lia.
  replace (Z.to_nat (q - (Z.of_nat (length a) - Z.of_nat (length b)))) with ((length b - Z.to_nat k) + (Z.to_nat q - (length a - Z.to_nat k)))%nat by lia.
  by rewrite <-!drop_drop, !HD, H4.
Qed.

Lemma cuts_lookup acc cs j v :
  (∀ c, c ∈ cs → as_u32 (len_z c) = len_z c) → cuts_from acc (refs_of cs) !! j = Some v → v = acc + len_z (concat (take j cs)) ∧ (j ≤ length cs)%nat.
Proof using Type.
  revert acc j. induction cs as [|c cs IH]; intros acc j Hn; destruct j as [|j]; cbn; intros Hj; try done; [injection Hj as <-; unfold len_z; cbn; lia..|].
  rewrite Hn in Hj by (by left). apply IH in Hj as [-> Hl]; [|intros; apply Hn; by right]. unfold len_z. rewrite length_app. lia.
Qed.
Lemma cuts_length acc (es : list (Hash * Z)) : length (cuts_from acc es) = Datatypes.S (length es).
Proof using Type. revert acc. induction es as [|[h n] es IH]; intros acc; cbn; [done|]. by rewrite IH. Qed.
Lemma cuts_last acc cs : (∀ c, c ∈ cs → as_u32 (len_z c) = len_z c) → last (cuts_from acc (refs_of cs)) = Some (acc + len_z (concat cs)).
Proof using Type.
  intros Hn. rewrite last_lookup, cuts_length. cbn [Nat.pred]. destruct (lookup_lt_is_Some_2 (cuts_from acc (refs_of cs)) (length (refs_of cs))) as [v Hv]; [rewrite cuts_length; lia|].
  rewrite Hv. apply cuts_lookup in Hv as [-> _]; [|done]. unfold refs_of. by rewrite length_fmap, take_ge.
Qed.

Section neighborhood.
Context (old_bytes new : list Z) (old_cs : list (list Z)) (Hold : chunked p ms old_bytes old_cs).

Let old_cut := cuts_from 0 (refs_of old_cs).
Let delta := len_z new - len_z old_bytes.
Let s_new := len_z new - common_suffix_len new old_bytes.

Lemma old_lens c : c ∈ old_cs → as_u32 (len_z c) = len_z c.
Proof. by apply chunk_len with old_bytes. Qed.

(** Once a boundary maps onto an old one past the last edit, the rest of the old list is
    the rest of the new one. *)
Lemma realigned_spec pos j cs :
  s_new ≤ pos ≤ len_z new → old_cut !! j = Some (pos - delta) → chunked p ms (drop (Z.to_nat pos) new) cs → drop j old_cs = cs.
Proof.
  intros Hp Hj Hc. apply cuts_lookup in Hj as [Hj Hl]; [|apply old_lens]. apply (chunked_fun p ms Hval Hms (drop (Z.to_nat pos) new)); [|done].
  rewrite (common_suffix_drop new old_bytes) by (unfold s_new in Hp; lia). fold delta. rewrite Hj. unfold len_z. rewrite Z.add_0_l, Nat2Z.id. by apply (chunked_drop p ms Hval Hms).
Qed.

Lemma end_is_cut : is_Some (binary_search (len_z old_bytes) old_cut).
Proof.
  apply binary_search_elem. pose proof (cuts_last 0 old_cs old_lens) as HL. rewrite (chunked_concat p ms Hval Hms _ _ Hold) in HL.
  apply last_Some in HL as [l' Hl']. unfold old_cut. rewrite Hl'. apply elem_of_app. right. apply list_elem_of_singleton. lia.
Qed.

Lemma rechunk_spec fuel pos cs s :
  0 ≤ pos ≤ len_z new → (Z.to_nat (len_z new - pos) ≤ fuel)%nat → chunked p ms (drop (Z.to_nat pos) new) cs →
  ∃ bs, rechunk fuel p new s_new delta old_cut (refs_of old_cs) pos s = Ret (refs_of cs, put_all bs s) ∧ (∀ c, c ∈ bs → c ∈ cs) ∧ (∀ c, c ∈ cs → c ∈ bs ∨ c ∈ old_cs).
Proof.
  revert pos cs s. induction fuel as [|fuel IH]; intros pos cs s Hpos Hf Hc; cbn [rechunk];
    destruct (if s_new <=? pos then _ else _) as [j|] eqn:Er.
  1,3: destruct (Z.leb_spec s_new pos) as [Hs|]; [|done]; destruct (0 <=? pos - delta); [|done]; apply binary_search_Some in Er;
    assert (drop j old_cs = cs) as <- by (apply (realigned_spec pos j cs); [lia|exact Er|exact Hc]);
    exists []; split_and!; [cbn; unfold refs_of; by rewrite fmap_drop|by intros c ?%elem_of_nil|intros c Hin; right; by eapply elem_drop].
  all: assert (pos < len_z new) as Hlt; [destruct (Z.eq_dec pos (len_z new)) as [->|]; [|lia]; exfalso; destruct (common_prefix_spec (reverse new) (reverse old_bytes)) as (Hk & _);
    fold (common_suffix_len new old_bytes) in Hk; rewrite (proj2 (Z.leb_le _ _)) in Er by (unfold s_new; lia); replace (len_z new - delta) with (len_z old_bytes) in Er by (unfold delta; lia);
    rewrite (proj2 (Z.leb_le _ _)) in Er by apply len_z_nonneg; destruct end_is_cut as [k Hk2]; congruence|].
  { lia. }
  rewrite (proj2 (Z.ltb_ge _ _)) by lia. set (tail := drop (Z.to_nat pos) new) in *. assert (len_z tail = len_z new - pos) as Htl by (unfold len_z in *; subst tail; rewrite length_drop; lia).
  assert (next_cut p tail = Ret (default (len_z tail) (find_cut ms p tail))) as Hnc.
  { unfold next_cut. rewrite (find_boundary_eq p ms Hval Hms). destruct tail eqn:E; [|done]. cbn in Htl. change (len_z []) with 0 in Htl. lia. }
  unfold mbind, comp_bind, lift at 1. rewrite Hnc. cbn [lift].
  assert (∃ c cs', cs = c :: cs' ∧ c = slice new pos (default (len_z tail) (find_cut ms p tail)) ∧ 0 < default (len_z tail) (find_cut ms p tail) ≤ len_z tail ∧
    chunked p ms (drop (Z.to_nat (pos + default (len_z tail) (find_cut ms p tail))) new) cs') as (c & cs' & -> & Ec & Hn & Hc').
  { destruct (find_cut ms p tail) as [n|] eqn:Ef; cbn.
    - destruct (chunked_cut_inv p ms Hval Hms _ _ _ Ef Hc) as (cs' & -> & Hc'). pose proof (find_cut_bounds p ms Hval Hms _ _ Ef) as [Hb Hb2]. pose proof (params_order p ms Hval Hms).
      eexists _, _. split_and!; [done|done|lia|lia|]. subst tail. rewrite drop_drop in Hc'. by rewrite Z2Nat.inj_add by lia.
    - inversion Hc as [He|c1 d1 cs1 H1 H2 He|c1 H1 H2 He]; subst cs; [rewrite <-He in Htl; change (len_z []) with 0 in Htl; lia|congruence|]. subst c1.
      exists tail, []. split_and!; [done| |lia|lia|rewrite drop_ge by (unfold len_z in *; lia); constructor]. unfold slice. fold tail. rewrite take_ge by (unfold len_z; lia). done. }
  rewrite <-Ec. unfold put_m. rewrite (put_eq hash_of store_ok). destruct (IH (pos + default (len_z tail) (find_cut ms p tail)) cs' (put c s).2) as (bs & Hre & Hsub & Hcov); [lia|lia|done|].
  rewrite Hre. exists (c :: bs). split_and!; [done| |].
  - intros x [->|Hx]%elem_of_cons; [by left|]. right. by apply Hsub.
  - intros x [->|Hx]%elem_of_cons; [left; by left|]. destruct (Hcov x Hx); [left; by right|by right].
Qed.

Lemma splice_chunks_spec first_dirty s cs :
  0 ≤ first_dirty → old_cs ≠ [] → (∀ n : nat, Z.of_nat n ≤ first_dirty → (n ≤ length old_bytes)%nat → take n old_bytes = take n new ∧ (n ≤ length new)%nat) → chunked p ms new cs →
  ∃ bs, splice_chunks p (refs_of old_cs) old_bytes new first_dirty s = Ret (ChunkList (hash_of (list_object cs)), put_all bs s) ∧
    list_object cs ∈ bs ∧ (∀ c, c ∈ bs → c ∈ cs ∨ c = list_object cs) ∧ (∀ c, c ∈ cs → c ∈ bs ∨ c ∈ old_cs).
Proof.
  intros Hfd Hne Hpre Hnew. unfold splice_chunks. cbv zeta. fold old_cut. set (pp := partition_point first_dirty old_cut). set (r := (pp - 1 - 1)%nat).
  assert (length old_cut = length old_cs + 1)%nat as Hlc by (unfold old_cut; rewrite cuts_length; unfold refs_of; rewrite length_fmap; lia).
  assert (1 ≤ pp ≤ length old_cut)%nat as Hpp.
  { split; [|apply partition_point_length]. unfold pp, old_cut. destruct old_cs; cbn; rewrite (proj2 (Z.leb_le 0 first_dirty)) by done; lia. }
  destruct (lookup_lt_is_Some_2 old_cut r) as [resume Hres]; [lia|]. assert (r < length old_cs)%nat as Hr by (destruct old_cs; [done|]; cbn [length] in *; lia).
  assert (resume ≤ first_dirty) as Hle by (eapply partition_point_le; [|exact Hres]; unfold pp in *; lia).
  destruct (cuts_lookup 0 old_cs r resume old_lens Hres) as [Er _]. rewrite Z.add_0_l in Er. set (n := length (concat (take r old_cs))) in *.
  assert (n ≤ length old_bytes)%nat as Hn by (pose proof (chunked_concat p ms Hval Hms _ _ Hold) as HC; rewrite <-(take_drop r old_cs), concat_app in HC; apply (f_equal length) in HC; rewrite length_app in HC; subst n; lia).
  destruct (Hpre n) as [Ht Hnl]; [unfold len_z in Er; lia|done|].
  destruct (chunked_total p ms Hval Hms (drop n new)) as [cs2 H2]. pose proof (chunked_splice p ms Hval Hms _ _ new r cs2 Hold (or_introl Hr) Ht Hnl H2) as Hsp.
  pose proof (chunked_fun p ms Hval Hms _ _ _ Hnew Hsp) as ->.
  unfold mbind, comp_bind. unfold index at 1. rewrite Hres. cbn [mret comp_ret].
  assert (default 0 (last old_cut) = len_z old_bytes) as -> by (unfold old_cut; rewrite (cuts_last 0 old_cs old_lens), (chunked_concat p ms Hval Hms _ _ Hold); cbn; lia).
  fold delta s_new. destruct (rechunk_spec (length new) resume cs2 s) as (bs & -> & Hsub & Hcov); [unfold len_z in *; lia|unfold len_z in *; lia|rewrite Er; unfold len_z; by rewrite Nat2Z.id|].
  assert (take r (refs_of old_cs) ++ refs_of cs2 = refs_of (take r old_cs ++ cs2)) as -> by (unfold refs_of; by rewrite fmap_app, fmap_take). fold (list_object (take r old_cs ++ cs2)).
  unfold put_m. rewrite (put_eq hash_of store_ok). exists (bs ++ [list_object (take r old_cs ++ cs2)]). split_and!.
  - unfold put_all. by rewrite foldl_app.
  - apply elem_of_app. right. by left.
  - intros c [Hc|Hc%list_elem_of_singleton]%elem_of_app; [left; apply elem_of_app; right; by apply Hsub|by right].
  - intros c [Hc|Hc]%elem_of_app; [right; by eapply elem_take|]. destruct (Hcov c Hc); [left; apply elem_of_app; by left|by right].
Qed.
End neighborhood.

(** The edit leaves the bytes before [first_dirty] alone (as far as there were any). *)
Definition same_before (first_dirty : Z) (old_bytes new : list Z) : Prop :=
  let m := Z.to_nat (Z.min first_dirty (len_z old_bytes)) in take m old_bytes = take m new.

Lemma same_before_take fd old_bytes new n :
  same_before fd old_bytes new → Z.of_nat n ≤ fd → (n ≤ length old_bytes)%nat → take n old_bytes = take n new ∧ (n ≤ length new)%nat.
Proof using Type.
  unfold same_before, len_z. cbv zeta. set (m := Z.to_nat _). intros Ht Hn Hl. assert (n ≤ m)%nat as Hnm by lia. assert (m ≤ length old_bytes)%nat as Hm by lia. split.
  - apply (f_equal (take n)) in Ht. by rewrite !take_take, !Nat.min_l in Ht by lia.
  - apply (f_equal length) in Ht. rewrite !length_take in Ht. lia.
Qed.

Lemma store_file_held data cs s :
  store_ok s → addressed hash_of s → chunked p ms data cs → Z.of_nat (length cs) < 2 ^ 32 → no_clash hash_of (λ b, stored s b ∨ b ∈ cs ∨ b = list_object cs) →
  ∃ content s', store_file p data s = Ret (content, s') ∧ file_held s' content data.
Proof.
  intros Ho Ha Hc Hn Hno. destruct (Z.leb_spec (len_z data) INLINE_MAX) as [Hi|Hi].
  - unfold store_file, file_held. rewrite (proj2 (Z.leb_le _ _)) by done. by eexists _, _.
  - eexists _, _. split; [by apply store_file_spec|]. apply held_after; try done.
    + intros a b Ha' Hb'. apply Hno; [destruct Ha' as [|[]%elem_of_app]|destruct Hb' as [|[]%elem_of_app]]; eauto; right; right; by apply list_elem_of_singleton.
    + apply elem_of_app. right. by left.
    + intros c Hin. left. apply elem_of_app. by left.
Qed.

(** The neighborhood re-chunk and the whole-file chunking give the same content, and the
    file is there afterwards either way. *)
Lemma neighborhood_spec old old_bytes new first_dirty cs s :
  store_ok s → addressed hash_of s → file_held s old old_bytes → 0 ≤ first_dirty → same_before first_dirty old_bytes new →
  chunked p ms new cs → Z.of_nat (length cs) < 2 ^ 32 → no_clash hash_of (λ b, stored s b ∨ b ∈ cs ∨ b = list_object cs) →
  ∃ content s1 s2, store_file p new s = Ret (content, s1) ∧ store_file_neighborhood p old old_bytes new first_dirty s = Ret (content, s2) ∧
    file_held s1 content new ∧ file_held s2 content new.
Proof.
  intros Ho Ha Hh Hfd Hsame Hc Hn Hno. destruct (store_file_held new cs s) as (content & s1 & E1 & H1); try done. unfold store_file_neighborhood.
  destruct (Z.leb_spec (len_z new) INLINE_MAX) as [Hi|Hi].
  { unfold file_held in *. rewrite (proj2 (Z.leb_le _ _)) in * by done. subst content. by eexists _, _, _. }
  unfold file_held in Hh. destruct (len_z old_bytes <=? INLINE_MAX) eqn:Eo.
  { subst old. by exists content, s1, s1. }
  destruct Hh as (old_cs & Hold & -> & Hl & Hheld & Hon). unfold mbind, comp_bind, gets at 1. rewrite Hl, (list_object_entries _ _ Hold Hon).
  assert (old_cs ≠ []) as Hne.
  { intros ->. apply (chunked_concat p ms Hval Hms) in Hold. cbn in Hold. by rewrite <-Hold in Eo. }
  destruct (splice_chunks_spec old_bytes new old_cs Hold first_dirty s cs Hfd Hne) as (bs & -> & Hin & Hsub & Hcov); [intros; by eapply same_before_take|done|].
  rewrite (store_file_spec new cs s Hi Hc) in E1. injection E1 as <- <-. eexists _, _, _. split_and!; [by apply store_file_spec|done|done|]. apply held_after; try done.
  - intros a b Ha' Hb'. apply Hno; [destruct Ha' as [|[]%Hsub]|destruct Hb' as [|[]%Hsub]]; eauto.
  - intros c [Hb|Ho']%Hcov; [by left|]. right. by apply Hheld.
Qed.
End held.
