(* ===== verification/Tree.v ===== *)
(** Nested directories ([cas/src/tree.rs]): path lookup, and the path-copying [put] and
    [remove], over any object store. A path is a list of components. *)

From stdpp Require Import strings.
From S2P Require Import Prelude Bytes BTree Disk Prolly ProllyTree.

(** [Entry { content: Content::DirRoot(h), ..e }] *)
Definition set_content (e : Entry) (c : Content) : Entry := MkEntry (e_name e) (e_kind e) (e_flags e) (e_size e) (e_mtime e) c.

Section ops.
Context (hash_of : list Z → Hash) {S : Type} `{NodeStore S}.

Definition load_m (h : Hash) : comp S (result Dir FormatError) := λ s, match load s h with Some r => Ret (r, s) | None => NoFuel end.

(** From the directory [cur] down the components. *)
Fixpoint lookup_from (store : S) (cur : Hash) (first : list Z) (rest : Path) : option (result (option Entry) FormatError) :=
  match load store cur with
  | None => None
  | Some (Err e) => Some (Err e)
  | Some (Ok dir) =>
      match rest with
      | [] => Some (Ok (dir_get dir first))
      | next :: rest' =>
          match dir_get dir first with
          | Some e => match e_content e with DirRoot h => lookup_from store h next rest' | _ => Some (Err (BadEntry "not a directory")) end
          | None => Some (Ok None)
          end
      end
  end.
Definition lookup (store : S) (root : Hash) (path : Path) : option (result (option Entry) FormatError) :=
  match path with [] => Some (Ok None) | first :: rest => lookup_from store root first rest end.

(** [dir.upsert(entry)?; Ok(dir.save(store))] *)
Definition upsert_save (dir : Dir) (entry : Entry) : comp S (result Hash FormatError) :=
  match upsert dir entry with Err e => mret (Err e) | Ok dir => h ← save hash_of dir; mret (Ok h) end.

(** The subdirectory a component names; [None]: nothing there. *)
Definition subdir (dir : Dir) (name : list Z) : result (option Hash) FormatError :=
  match dir_get dir name with
  | Some e => match e_content e with DirRoot h => Ok (Some h) | _ => Err (BadEntry "not a directory") end
  | None => Ok None
  end.
Definition child_entry (dir : Dir) (first : list Z) (new_child_root : Hash) (mkdir_mtime : Z) : Entry :=
  match dir_get dir first with
  | Some e => set_content e (DirRoot new_child_root)
  | None => MkEntry first KDir 0 0 mkdir_mtime (DirRoot new_child_root)
  end.

Fixpoint tree_put (root : Hash) (dir_path : Path) (entry : Entry) (mkdir_mtime : Z) : comp S (result Hash FormatError) :=
  r ← load_m root;
  match r with
  | Err e => mret (Err e)
  | Ok dir =>
      match dir_path with
      | [] => upsert_save dir entry
      | first :: rest =>
          match subdir dir first with
          | Err e => mret (Err e)
          | Ok child =>
              child_root ← match child with Some h => mret h | None => save hash_of Dir_new end;
              r ← tree_put child_root rest entry mkdir_mtime;
              match r with
              | Err e => mret (Err e)
              | Ok new_child_root => upsert_save dir (child_entry dir first new_child_root mkdir_mtime)
              end
          end
      end
  end.

Fixpoint tree_remove (root : Hash) (path : Path) : comp S (result (Hash * option Entry) FormatError) :=
  match path with
  | [] => mret (Ok (root, None))
  | first :: rest =>
      r ← load_m root;
      match r with
      | Err e => mret (Err e)
      | Ok dir =>
          match rest with
          | [] =>
              match dir_remove dir first with
              | (Some e, dir) => h ← save hash_of dir; mret (Ok (h, Some e))
              | (None, _) => mret (Ok (root, None))
              end
          | _ =>
              match subdir dir first with
              | Err e => mret (Err e)
              | Ok None => mret (Ok (root, None))
              | Ok (Some child_root) =>
                  r ← tree_remove child_root rest;
                  match r with
                  | Err e => mret (Err e)
                  | Ok (_, None) => mret (Ok (root, None))
                  | Ok (new_child_root, Some e) =>
                      ce ← unwrap (dir_get dir first);
                      r ← upsert_save dir (set_content ce (DirRoot new_child_root));
                      mret (match r with Ok h => Ok (h, Some e) | Err x => Err x end)
                  end
              end
          end
      end
  end.
End ops.

(** * Stores that grow *)
Section growing.
Context (hash_of : list Z → Hash) `{!HashLaws hash_of}.
Context {S : Type} `{NodeStore S} (store_ok : S → Prop) `{!StoreLaws hash_of S store_ok}.
Implicit Types (s : S).

Definition extends s s' : Prop := ∀ h b, get s h = Some b → get s' h = Some b.

Lemma put_all_extends bs s : store_ok s → extends s (put_all bs s).
Proof using StoreLaws0. intros Ho h b. by apply (put_all_keeps hash_of store_ok). Qed.
Lemma put_all_ok bs s : store_ok s → store_ok (put_all bs s).
Proof using StoreLaws0. revert s. induction bs as [|b bs IH]; intros s Ho; [done|]. apply IH. by apply (put_ok (hash_of := hash_of)). Qed.
Lemma put_all_app bs1 bs2 s : put_all (bs1 ++ bs2) s = put_all bs2 (put_all bs1 s).
Proof using Type. unfold put_all. by rewrite foldl_app. Qed.
Lemma put_all_stored bs s b : store_ok s → stored (put_all bs s) b → stored s b ∨ b ∈ bs.
Proof using StoreLaws0.
  revert s. induction bs as [|c bs IH]; intros s Ho Hs; [by left|]. apply IH in Hs as [[h Hh]|Hs]; [|right; by right|by apply (put_ok (hash_of := hash_of))].
  rewrite (put_get (store_ok := store_ok)) in Hh by done. case_decide; [|left; by eexists]. destruct (get s h) as [x|] eqn:E; cbn in Hh; injection Hh as <-; [left; by eexists|right; by left].
Qed.
Lemma put_all_addressed bs s : store_ok s → addressed hash_of s → addressed hash_of (put_all bs s).
Proof using StoreLaws0.
  revert s. induction bs as [|c bs IH]; intros s Ho Ha; [done|]. apply IH; [by apply (put_ok (hash_of := hash_of))|]. intros h b. rewrite (put_get (store_ok := store_ok)) by done.
  case_decide as Eh; [|apply Ha]. destruct (get s h) as [x|] eqn:E; cbn; intros [= <-]; [by apply Ha|done].
Qed.

(** The objects of a run that come later clash no more than those of the whole run. *)
Lemma no_clash_after bs1 bs2 s : store_ok s → no_clash hash_of (λ b, stored s b ∨ b ∈ bs1 ++ bs2) → no_clash hash_of (λ b, stored (put_all bs1 s) b ∨ b ∈ bs2).
Proof using StoreLaws0.
  intros Ho Hn. assert (∀ b, stored (put_all bs1 s) b ∨ b ∈ bs2 → stored s b ∨ b ∈ bs1 ++ bs2) as Hsub.
  { intros b [[?|?]%put_all_stored|?]; [by left|right; apply elem_of_app; by left|done|right; apply elem_of_app; by right]. }
  intros a b Ha%Hsub Hb%Hsub. by apply Hn.
Qed.
Lemma no_clash_prefix bs1 bs2 s : no_clash hash_of (λ b, stored s b ∨ b ∈ bs1 ++ bs2) → no_clash hash_of (λ b, stored s b ∨ b ∈ bs1).
Proof using Type. intros Hn a b [Ha|Ha] [Hb|Hb]; apply Hn; try (by left); right; apply elem_of_app; by left. Qed.

(** A larger store loads no less. *)
Lemma load_node_mono s s' fuel exp h out es : extends s s' → load_node fuel s exp h out = Some (Ok es) → load_node fuel s' exp h out = Some (Ok es).
Proof using Type.
  intros He. revert exp h out es. induction fuel as [|fuel IH]; intros exp h out es; [done|]. cbn [load_node]. destruct (get s h) as [b|] eqn:Eg; [|done]. rewrite (He _ _ Eg).
  destruct (decode_node b) as [[level body]|]; [|done]. destruct (match exp with Some _ => _ | None => _ end); [done|]. destruct body as [raws|cs]; [done|].
  destruct cs as [|c cs]; [done|]. generalize (c :: cs). clear c cs. intros cs. revert out es. induction cs as [|c cs IHc]; intros out es; cbn; [done|].
  destruct (load_node fuel s (Some (level - 1)) (c_child c) out) as [[out'|e]|] eqn:El; [|done|done]. rewrite (IH _ _ _ _ El). case_decide; [|done]. apply IHc.
Qed.
Lemma load_mono s s' h d : extends s s' → load s h = Some (Ok d) → load s' h = Some (Ok d).
Proof using Type.
  intros He. unfold load. destruct (load_node 257 s None h []) as [[es|e]|] eqn:E; [|done|done]. by rewrite (load_node_mono _ _ _ _ _ _ _ He E).
Qed.
(** A saved directory loads back. *)
Lemma save_loads d h bs s : store_ok s → addressed hash_of s → no_clash hash_of (λ b, stored s b ∨ b ∈ bs) → dir_ok d → save_plan hash_of d = Ret (h, bs) → load (put_all bs s) h = Some (Ok d).
Proof using HashLaws0 StoreLaws0. intros Ho Ha Hn V Hp. eapply saved_loads; [done..|]. by apply (put_all_get hash_of store_ok). Qed.

(** ** Walking down from a loaded directory *)
Fixpoint dir_walk (s : S) (d : Dir) (path : Path) : option (result (option Entry) FormatError) :=
  match path with
  | [] => Some (Ok None)
  | c :: rest =>
      match rest with
      | [] => Some (Ok (dir_get d c))
      | _ =>
          match dir_get d c with
          | None => Some (Ok None)
          | Some e =>
              match e_content e with
              | DirRoot h => match load s h with Some (Ok d') => dir_walk s d' rest | Some (Err x) => Some (Err x) | None => None end
              | _ => Some (Err (BadEntry "not a directory"))
              end
          end
      end
  end.

Lemma lookup_walk s root d path : load s root = Some (Ok d) → lookup s root path = dir_walk s d path.
Proof using Type.
  destruct path as [|c rest]; [done|]. cbn [lookup]. revert root d c. induction rest as [|c' rest IH]; intros root d c Hl; cbn [lookup_from]; rewrite Hl; [done|].
  cbn [dir_walk]. destruct (dir_get d c) as [e|]; [|done]. destruct (e_content e) as [| |h]; [done..|]. destruct (load s h) as [[d'|x]|] eqn:E; [by apply IH|destruct rest; cbn; by rewrite E..].
Qed.
Lemma dir_walk_mono s s' d path x : extends s s' → dir_walk s d path = Some (Ok x) → dir_walk s' d path = Some (Ok x).
Proof using Type.
  intros He. revert d. induction path as [|c rest IH]; intros d; [done|]. cbn [dir_walk]. destruct rest as [|c' rest]; [done|]. destruct (dir_get d c) as [e|]; [|done].
  destruct (e_content e) as [| |h]; [done..|]. destruct (load s h) as [[d'|y]|] eqn:E; [|done|done]. rewrite (load_mono _ _ _ _ He E). apply IH.
Qed.
Lemma dir_walk_cons s d c c' rest :
  dir_walk s d (c :: c' :: rest) = match subdir d c with Ok (Some h) => match load s h with Some (Ok d') => dir_walk s d' (c' :: rest) | Some (Err x) => Some (Err x) | None => None end
    | Ok None => Some (Ok None) | Err x => Some (Err x) end.
Proof using Type. cbn [dir_walk]. unfold subdir. destruct (dir_get d c) as [e|]; [|done]. by destruct (e_content e). Qed.

(** Two paths that part ways. *)
Definition diverges (p q : Path) : Prop := ¬ p `prefix_of` q ∧ ¬ q `prefix_of` p.

(** ** What a put writes *)
Definition empty_node : list Z := [0] ++ u32_le 0.
Definition planned (o : outcome (Hash * list (list Z))) : option (Hash * list (list Z)) := match o with Ret x => Some x | _ => None end.

(** The subdirectory to descend into, created empty when the name is free. *)
Definition descend (s : S) (d : Dir) (c : list Z) : option (list (list Z) * Dir) :=
  match subdir d c with
  | Ok None => Some ([empty_node], Dir_new)
  | Ok (Some h) => match load s h with Some (Ok d') => Some ([], d') | _ => None end
  | Err _ => None
  end.

(** New root and objects written, in order; [s] is the store before. *)
Fixpoint put_plan (s : S) (d : Dir) (path : Path) (entry : Entry) (mtime : Z) : option (Hash * list (list Z)) :=
  match path with
  | [] => planned (save_plan hash_of (bt_insert (e_name entry) entry d))
  | c :: rest =>
      '(pre, d') ← descend s d c;
      '(h, bs) ← put_plan s d' rest entry mtime;
      '(h2, bs2) ← planned (save_plan hash_of (bt_insert c (child_entry d c h mtime) d));
      Some (h2, pre ++ bs ++ bs2)
  end.

(** The directory at the root after a put. *)
Definition put_dir (d : Dir) (path : Path) (entry : Entry) (mtime : Z) (h : Hash) : Dir :=
  match path with [] => bt_insert (e_name entry) entry d | c :: _ => bt_insert c (child_entry d c h mtime) d end.

Lemma upsert_save_run d e h bs s :
  validate_entry e = Ok tt → save_plan hash_of (bt_insert (e_name e) e d) = Ret (h, bs) → upsert_save hash_of d e s = Ret (Ok h, put_all bs s).
Proof using StoreLaws0. intros Hv Hp. unfold upsert_save, upsert. rewrite Hv. unfold mbind, comp_bind. by rewrite (save_spec hash_of store_ok), Hp. Qed.

Lemma insert_ok d e : dir_ok d → entry_ok e → dir_ok (bt_insert (e_name e) e d) ∧ ∀ n, dir_get (bt_insert (e_name e) e d) n = if decide (n = e_name e) then Some e else dir_get d n.
Proof using Type. intros V [Hv Ht]. apply upsert_spec; [done..|]. unfold upsert. by rewrite Hv. Qed.

Lemma dir_get_ok d n e : dir_ok d → dir_get d n = Some e → n = e_name e ∧ entry_ok e.
Proof using Type. intros V Hg. apply (do_entry _ V). apply bt_get_elem; [apply V|done]. Qed.

Lemma set_content_ok e h h' : entry_ok e → e_content e = DirRoot h → length h' = 32%nat → entry_ok (set_content e (DirRoot h')).
Proof using Type.
  intros [Hv [T1 T2 T3 T4]] Ec Hl. split; [|by constructor]. unfold validate_entry in *. cbn. rewrite Ec in Hv. destruct (validate_name (e_name e)); [|done]. by destruct (e_kind e).
Qed.
Lemma child_entry_ok d c h' mtime child :
  dir_ok d → subdir d c = Ok child → validate_name c = Ok tt → fits_in 8 mtime → length h' = 32%nat → entry_ok (child_entry d c h' mtime) ∧ e_name (child_entry d c h' mtime) = c.
Proof using Type.
  intros V Hs Hn Hm Hl. unfold child_entry. unfold subdir in Hs. destruct (dir_get d c) as [e|] eqn:Eg.
  - destruct (dir_get_ok _ _ _ V Eg) as [-> He]. destruct (e_content e) as [| |h] eqn:Ec; [done..|]. split; [by eapply set_content_ok|done].
  - split; [|done]. split; [unfold validate_entry; cbn; by rewrite Hn|]. by constructor.
Qed.

Lemma plan_hash d h bs : save_plan hash_of d = Ret (h, bs) → length h = 32%nat.
Proof using HashLaws0.
  destruct d as [|x d]; [intros [= <- _]; apply hash_length|]. set (l := x :: d). change (save_plan hash_of l) with
    (match plan_up hash_of 256 0 (level_nodes hash_of 0 (dir_items l)) with Ret (h, bs) => Ret (h, (level_nodes hash_of 0 (dir_items l)).*2 ++ bs) | Panic => Panic | NoFuel => NoFuel end).
  generalize (level_nodes hash_of 0 (dir_items l)) as nodes. assert (∀ fuel lv nodes h bs, plan_up hash_of fuel lv nodes = Ret (h, bs) → length h = 32%nat) as Hup.
  { induction fuel as [|fuel IH]; intros lv nodes h0 bs0; cbn [plan_up]; case_decide; try done; try (destruct nodes; [done|]; intros [= <- _]; apply hash_length).
    case_decide; [|done]. cbv zeta. destruct (plan_up _ _ _ _) as [[h1 bs1]| |] eqn:E; [|done..]. intros [= <- _]. by eapply IH. }
  intros nodes. destruct (plan_up _ _ _ _) as [[h1 bs1]| |] eqn:E; [|done..]. intros [= <- _]. by eapply Hup.
Qed.

(** A put does what its plan says, and the tree it leaves has the entry at its path; every
    path that parts ways with it reads as before. *)
Lemma put_refines entry mtime s0 path : entry_ok entry → fits_in 8 mtime → (∀ h d, load s0 h = Some (Ok d) → dir_ok d) → Forall (λ c, validate_name c = Ok tt) path →
  ∀ root d s h bs, store_ok s → addressed hash_of s → extends s0 s → no_clash hash_of (λ b, stored s b ∨ b ∈ bs) → load s root = Some (Ok d) → dir_ok d → put_plan s0 d path entry mtime = Some (h, bs) →
  tree_put hash_of root path entry mtime s = Ret (Ok h, put_all bs s) ∧ length h = 32%nat ∧
  ∃ d2, load (put_all bs s) h = Some (Ok d2) ∧ dir_walk (put_all bs s) d2 (path ++ [e_name entry]) = Some (Ok (Some entry)) ∧
    ∀ q x, diverges q (path ++ [e_name entry]) → dir_walk s d q = Some (Ok x) → dir_walk (put_all bs s) d2 q = Some (Ok x).
Proof using HashLaws0 StoreLaws0.
  intros He Hm Hs0 Hp. induction Hp as [|c path Hc Hp IH]; intros root d s h bs Ho Ha Hx Hn Hl V Hplan.
  - cbn [put_plan] in Hplan. destruct (save_plan hash_of _) as [[h' bs']| |] eqn:Es; [|done..]. injection Hplan as -> ->. destruct (insert_ok d entry V He) as [V2 G2].
    pose proof (save_loads _ _ _ _ Ho Ha Hn V2 Es) as Hload. split_and!.
    + cbn [tree_put]. unfold mbind, comp_bind, load_m at 1. rewrite Hl. by apply upsert_save_run; [apply He|].
    + by eapply plan_hash.
    + eexists. split_and!; [exact Hload|cbn; rewrite G2; by rewrite decide_True|]. intros q x [Hq1 Hq2] Hw. apply (dir_walk_mono s); [by apply put_all_extends|]. revert Hw.
      destruct q as [|c rest]; [done|]. assert (c ≠ e_name entry) as Hne by (intros ->; apply Hq2; by eexists). cbn [dir_walk]. rewrite G2, decide_False by done. done.
  - cbn [put_plan] in Hplan. destruct (descend s0 d c) as [[pre d']|] eqn:Ed; [|done]. cbn in Hplan. destruct (put_plan s0 d' path entry mtime) as [[h1 bs1]|] eqn:E1; [|done]. cbn in Hplan.
    destruct (save_plan hash_of _) as [[h2 bs2]| |] eqn:E2; [|done..]. cbn in Hplan. injection Hplan as <- <-.
    (* the child directory, in the store as it is after a possible mkdir *)
    assert (∃ child, subdir d c = Ok child ∧ (match child with Some h => mret h | None => save hash_of Dir_new end : comp S Hash) s = Ret (match child with Some h => h | None => hash_of empty_node end, put_all pre s) ∧
      load (put_all pre s) (match child with Some h => h | None => hash_of empty_node end) = Some (Ok d') ∧ dir_ok d' ∧
      (∀ c' rest x, dir_walk s d (c :: c' :: rest) = Some (Ok x) → dir_walk (put_all pre s) d' (c' :: rest) = Some (Ok x))) as (child & Hsub & Hmk & Hld & V' & Hwd).
    { unfold descend in Ed. destruct (subdir d c) as [[ch|]|] eqn:Esub; [| |done].
      - destruct (load s0 ch) as [[d0|]|] eqn:El; [|done..]. injection Ed as <- <-. exists (Some ch). pose proof (load_mono _ _ _ _ Hx El) as Hls. split_and!; try done; [by eapply Hs0|].
        intros c' rest x. rewrite dir_walk_cons, Esub, Hls. done.
      - injection Ed as <- <-. exists None. split_and!; [done|by rewrite (save_spec hash_of store_ok)| |apply dir_new_ok|].
        + apply save_loads; [done..| |apply dir_new_ok|done]. by eapply no_clash_prefix.
        + intros c' rest x. rewrite dir_walk_cons, Esub. intros [= <-]. by destruct rest. }
    assert (store_ok (put_all pre s)) as Ho1 by (by apply put_all_ok). assert (addressed hash_of (put_all pre s)) as Ha1 by (by apply put_all_addressed).
    assert (extends s0 (put_all pre s)) as Hx1 by (intros ?? ?; apply put_all_extends; [done|]; by apply Hx).
    assert (no_clash hash_of (λ b, stored (put_all pre s) b ∨ b ∈ bs1)) as Hn1 by (apply no_clash_after; [done|]; rewrite app_assoc in Hn; by eapply no_clash_prefix).
    destruct (IH _ _ _ _ _ Ho1 Ha1 Hx1 Hn1 Hld V' E1) as (Hrun & Hlen & d1 & Hl1 & Hw1 & Hf1). rewrite <-put_all_app in Hrun, Hl1, Hw1.
    destruct (child_entry_ok d c h1 mtime child V Hsub Hc Hm Hlen) as [Hce Hcn]. destruct (insert_ok d _ V Hce) as [V2 G2]. rewrite Hcn in V2, G2.
    assert (load (put_all (pre ++ bs1 ++ bs2) s) h2 = Some (Ok (bt_insert c (child_entry d c h1 mtime) d))) as Hl2.
    { rewrite app_assoc, put_all_app. apply save_loads; [by apply put_all_ok|by apply put_all_addressed|by apply no_clash_after; [|rewrite <-app_assoc]|done|done]. }
    assert (extends (put_all (pre ++ bs1) s) (put_all (pre ++ bs1 ++ bs2) s)) as Hx2 by (rewrite (app_assoc pre bs1 bs2), (put_all_app (pre ++ bs1)); apply put_all_extends; by apply put_all_ok).
    assert (subdir (bt_insert c (child_entry d c h1 mtime) d) c = Ok (Some h1)) as Hsub2.
    { unfold subdir. rewrite G2, decide_True by done. unfold child_entry. by destruct (dir_get d c). }
    split_and!; [|by eapply plan_hash|].
    + cbn [tree_put]. unfold mbind, comp_bind, load_m at 1. rewrite Hl, Hsub. unfold comp_bind. rewrite Hmk, Hrun.
      rewrite (upsert_save_run _ _ h2 bs2) by (apply Hce || by rewrite Hcn). by rewrite <-put_all_app, <-app_assoc.
    + eexists. split_and!; [exact Hl2| |].
      * destruct (path ++ [e_name entry]) as [|c' rest] eqn:Ep; [by destruct path|]. cbn [app]. rewrite Ep, dir_walk_cons, Hsub2, (load_mono _ _ _ _ Hx2 Hl1). by apply (dir_walk_mono _ _ _ _ _ Hx2).
      * intros q x [Hq1 Hq2] Hw. destruct q as [|cq rest]; [done|]. destruct (decide (cq = c)) as [->|Hne].
        -- destruct rest as [|c' rest]; [exfalso; apply Hq1; by eexists|]. rewrite dir_walk_cons, Hsub2, (load_mono _ _ _ _ Hx2 Hl1). apply (dir_walk_mono _ _ _ _ _ Hx2). rewrite put_all_app.
           apply Hf1; [|by apply Hwd]. split; intros [k Hk]; [apply Hq1|apply Hq2]; exists k; cbn; by rewrite Hk.
        -- apply (dir_walk_mono s); [by apply put_all_extends|]. revert Hw. cbn [dir_walk]. by rewrite G2, decide_False by done.
Qed.

(** ** What a remove writes *)
Fixpoint remove_plan (s : S) (d : Dir) (path : Path) : option (Hash * list (list Z)) :=
  match path with
  | [] => None
  | c :: rest =>
      match rest with
      | [] => planned (save_plan hash_of (bt_remove c d))
      | _ =>
          e ← dir_get d c;
          match e_content e with
          | DirRoot h =>
              match load s h with
              | Some (Ok d') =>
                  '(h, bs) ← remove_plan s d' rest;
                  '(h2, bs2) ← planned (save_plan hash_of (bt_insert c (set_content e (DirRoot h)) d));
                  Some (h2, bs ++ bs2)
              | _ => None
              end
          | _ => None
          end
      end
  end.

(** A remove of something absent changes nothing. *)
Lemma remove_absent path root d s : load s root = Some (Ok d) → dir_walk s d path = Some (Ok None) → tree_remove hash_of root path s = Ret (Ok (root, None), s).
Proof using Type.
  revert root d. induction path as [|c rest IH]; intros root d Hl Hw; [done|]. cbn [tree_remove]. unfold mbind, comp_bind, load_m at 1. rewrite Hl. destruct rest as [|c' rest].
  - cbn in Hw. unfold dir_remove. unfold dir_get in Hw. injection Hw as ->. done.
  - rewrite dir_walk_cons in Hw. destruct (subdir d c) as [[h|]|]; [|done|done]. destruct (load s h) as [[d'|]|] eqn:El; [|done..]. by rewrite (IH h d').
Qed.

Lemma remove_refines e0 s0 path : (∀ h d, load s0 h = Some (Ok d) → dir_ok d) →
  ∀ root d s h bs, store_ok s → addressed hash_of s → extends s0 s → no_clash hash_of (λ b, stored s b ∨ b ∈ bs) → load s root = Some (Ok d) → dir_ok d →
  dir_walk s0 d path = Some (Ok (Some e0)) → remove_plan s0 d path = Some (h, bs) →
  tree_remove hash_of root path s = Ret (Ok (h, Some e0), put_all bs s) ∧ length h = 32%nat ∧
  ∃ d2, load (put_all bs s) h = Some (Ok d2) ∧ dir_walk (put_all bs s) d2 path = Some (Ok None) ∧
    ∀ q x, diverges q path → dir_walk s d q = Some (Ok x) → dir_walk (put_all bs s) d2 q = Some (Ok x).
Proof using HashLaws0 StoreLaws0.
  intros Hs0. induction path as [|c rest IH]; intros root d s h bs Ho Ha Hx Hn Hl V Hw Hplan; [done|]. cbn [remove_plan] in Hplan. destruct rest as [|c' rest].
  - destruct (save_plan hash_of _) as [[h' bs']| |] eqn:Es; [|done..]. injection Hplan as -> ->. cbn in Hw. injection Hw as Hw.
    destruct (dir_remove_spec d c (Some e0) (bt_remove c d) V) as (V2 & _ & G2); [unfold dir_remove; unfold dir_get in Hw; by rewrite Hw|].
    pose proof (save_loads _ _ _ _ Ho Ha Hn V2 Es) as Hload. split_and!; [|by eapply plan_hash|].
    + cbn [tree_remove]. unfold mbind, comp_bind, load_m at 1. rewrite Hl. unfold dir_remove. unfold dir_get in Hw. rewrite Hw. by rewrite (save_spec hash_of store_ok), Es.
    + eexists. split_and!; [exact Hload|cbn; by rewrite G2, decide_True|]. intros q x [Hq1 Hq2] Hwq. apply (dir_walk_mono s); [by apply put_all_extends|]. revert Hwq.
      destruct q as [|cq q]; [done|]. assert (cq ≠ c) as Hne by (intros ->; apply Hq2; by eexists). cbn [dir_walk]. by rewrite G2, decide_False by done.
  - rewrite dir_walk_cons in Hw. destruct (dir_get d c) as [e|] eqn:Eg; [|done]. cbn [mbind option_bind] in Hplan. destruct (e_content e) as [| |ch] eqn:Ec; [done..|].
    assert (subdir d c = Ok (Some ch)) as Hsub by (unfold subdir; by rewrite Eg, Ec). rewrite Hsub in Hw. destruct (load s0 ch) as [[d'|]|] eqn:El; [|done..].
    destruct (remove_plan s0 d' (c' :: rest)) as [[h1 bs1]|] eqn:E1; [|done]. cbn in Hplan. destruct (save_plan hash_of _) as [[h2 bs2]| |] eqn:E2; [|done..]. cbn in Hplan. injection Hplan as <- <-.
    assert (no_clash hash_of (λ b, stored s b ∨ b ∈ bs1)) as Hn1 by (by eapply no_clash_prefix). pose proof (load_mono _ _ _ _ Hx El) as Hls.
    destruct (IH _ _ _ _ _ Ho Ha Hx Hn1 Hls (Hs0 _ _ El) Hw E1) as (Hrun & Hlen & d1 & Hl1 & Hw1 & Hf1). destruct (dir_get_ok _ _ _ V Eg) as [Hcn He].
    pose proof (set_content_ok _ _ _ He Ec Hlen) as Hce. destruct (insert_ok d _ V Hce) as [V2 G2]. cbn [e_name set_content] in V2, G2. rewrite <-Hcn in V2, G2.
    assert (load (put_all (bs1 ++ bs2) s) h2 = Some (Ok (bt_insert c (set_content e (DirRoot h1)) d))) as Hl2.
    { rewrite put_all_app. apply save_loads; [by apply put_all_ok|by apply put_all_addressed|by apply no_clash_after|done|done]. }
    assert (extends (put_all bs1 s) (put_all (bs1 ++ bs2) s)) as Hx2 by (rewrite put_all_app; apply put_all_extends; by apply put_all_ok).
    assert (subdir (bt_insert c (set_content e (DirRoot h1)) d) c = Ok (Some h1)) as Hsub2 by (unfold subdir; by rewrite G2, decide_True by done).
    split_and!; [|by eapply plan_hash|].
    + cbn [tree_remove]. unfold mbind, comp_bind, load_m at 1. rewrite Hl, Hsub. unfold comp_bind. cbn [tree_remove] in Hrun. unfold mbind, comp_bind in Hrun. rewrite Hrun. unfold unwrap. rewrite Eg. cbn [mret comp_ret].
      rewrite (upsert_save_run _ _ h2 bs2) by (apply Hce || (cbn; by rewrite <-Hcn)). by rewrite <-put_all_app.
    + eexists. split_and!; [exact Hl2| |].
      * rewrite dir_walk_cons, Hsub2, (load_mono _ _ _ _ Hx2 Hl1). by apply (dir_walk_mono _ _ _ _ _ Hx2).
      * intros q x [Hq1 Hq2] Hwq. destruct q as [|cq q]; [done|]. destruct (decide (cq = c)) as [->|Hne].
        -- destruct q as [|c2 q]; [exfalso; apply Hq1; by eexists|]. rewrite dir_walk_cons, Hsub2, (load_mono _ _ _ _ Hx2 Hl1). apply (dir_walk_mono _ _ _ _ _ Hx2).
           rewrite dir_walk_cons, Hsub, Hls in Hwq. apply Hf1; [|done]. split; intros [k Hk]; [apply Hq1|apply Hq2]; exists k; cbn; by rewrite Hk.
        -- apply (dir_walk_mono s); [by apply put_all_extends|]. revert Hwq. cbn [dir_walk]. by rewrite G2, decide_False by done.
Qed.
End growing.
