(* ===== verification/Gc.v ===== *)
(** The garbage collector's mark walk ([cas/src/gc.rs]) and what its mark set is worth: a
    store that keeps the marked objects serves every read the full store serves. *)

From stdpp Require Import strings.
From S2P Require Import Prelude Bytes BTree Disk Prolly ProllyTree Chunker File Tree.

Definition live_set : Type := btree Hash unit.
(** [BTreeSet::insert]: whether the hash was new *)
Definition live_insert (h : Hash) (live : live_set) : bool * live_set := (bool_decide (bt_get h live = None), bt_insert h tt live).
Definition live_has (live : live_set) (h : Hash) : bool := bool_decide (is_Some (bt_get h live)).

(** The work stack has its top first. *)
Fixpoint mark_children (cs : list Hash) (live : live_set) (stack : list Hash) : live_set * list Hash :=
  match cs with
  | [] => (live, stack)
  | c :: cs' => let '(new, live) := live_insert c live in mark_children cs' live (if new then c :: stack else stack)
  end.
Definition mark_chunks (chunks : list (Hash * Z)) (live : live_set) : live_set := foldl (λ l x, (live_insert x.1 l).2) live chunks.

Section marking.
Context {S : Type} `{NodeStore S}.

Fixpoint mark_entries (store : S) (es : list Entry) (live : live_set) (stack : list Hash) : result (list Hash) FormatError * live_set :=
  match es with
  | [] => (Ok stack, live)
  | e :: es' =>
      match e_content e with
      | Inline _ => mark_entries store es' live stack
      | ChunkList ch =>
          let '(new, live) := live_insert ch live in
          if new then
            match get store ch with
            | None => (Err (MissingNode ch), live)
            | Some l =>
                match chunk_list_entries l with
                | Err x => (Err x, live)
                | Ok chunks => mark_entries store es' (mark_chunks chunks live) stack
                end
            end
          else mark_entries store es' live stack
      | DirRoot dr =>
          let '(new, live) := live_insert dr live in
          mark_entries store es' live (if new then dr :: stack else stack)
      end
  end.

(** [while let Some(h) = stack.pop()]; [None] when [fuel] rounds are not enough. *)
Fixpoint mark_loop (fuel : nat) (store : S) (stack : list Hash) (live : live_set) : option (result unit FormatError * live_set) :=
  match stack with
  | [] => Some (Ok tt, live)
  | h :: stack' =>
      match fuel with
      | O => None
      | Datatypes.S fuel' =>
          match get store h with
          | None => Some (Err (MissingNode h), live)
          | Some bytes =>
              match parse_node bytes with
              | Err x => Some (Err x, live)
              | Ok (Children cs) => let '(live, stack') := mark_children cs live stack' in mark_loop fuel' store stack' live
              | Ok (Entries es) =>
                  match mark_entries store es live stack' with
                  | (Ok stack', live) => mark_loop fuel' store stack' live
                  | (Err x, live) => Some (Err x, live)
                  end
              end
          end
      end
  end.
Definition mark (fuel : nat) (store : S) (root : Hash) (live : live_set) : option (result unit FormatError * live_set) :=
  let '(new, live) := live_insert root live in
  mark_loop fuel store (if new then [root] else []) live.
End marking.

(** * Roles and references *)

(** What a hash is used as. *)
Inductive Role : Type := RNode | RList | RChunk.

Definition entry_ref (e : Entry) : option (Role * Hash) :=
  match e_content e with Inline _ => None | ChunkList h => Some (RList, h) | DirRoot h => Some (RNode, h) end.

Section roles.
Context {S : Type} `{NodeStore S}.
Implicit Types (s : S) (live : live_set) (role : Hash → Role).

(** The objects an object refers to, by the role it is read in. *)
Definition refs s (r : Role) (h : Hash) : list (Role * Hash) :=
  match r, get s h with
  | RNode, Some b =>
      match parse_node b with Ok (Children cs) => (λ c, (RNode, c)) <$> cs | Ok (Entries es) => omap entry_ref es | Err _ => [] end
  | RList, Some l => match chunk_list_entries l with Ok es => (λ x, (RChunk, x.1)) <$> es | Err _ => [] end
  | _, _ => []
  end.

(** Every hash is used in one role. *)
Definition one_role s role : Prop := ∀ h r' h', (r', h') ∈ refs s (role h) h → role h' = r'.
Definition marked live h : Prop := is_Some (bt_get h live).
Definition closed_at s role live h : Prop := ∀ r' h', (r', h') ∈ refs s (role h) h → marked live h'.
(** Every reference of a marked object is marked. *)
Definition closed s role live : Prop := ∀ h, marked live h → closed_at s role live h.

Lemma marked_insert live h h' : bt_sorted live → marked (bt_insert h tt live) h' ↔ h' = h ∨ marked live h'.
Proof. intros Hs. unfold marked. rewrite get_insert by done. case_decide; [|naive_solver]. split; [by left|by eexists]. Qed.

Definition grows live live' : Prop := ∀ h, marked live h → marked live' h.

(** What is on the work stack, what is being visited, and what is closed. *)
Record marking s role live (busy stack : list Hash) : Prop := {
  mk_sorted : bt_sorted live;
  mk_stack h : h ∈ stack → role h = RNode;
  mk_closed h : marked live h → h ∈ busy ∨ h ∈ stack ∨ closed_at s role live h;
}.

Lemma closed_at_grows s role live live' h : grows live live' → closed_at s role live h → closed_at s role live' h.
Proof. intros Hg Hc r' h' Hin. by eapply Hg, Hc. Qed.

(** One more node on the stack if it is new. *)
Lemma push_node s role live busy stack h :
  role h = RNode → marking s role live busy stack →
  let '(new, live') := live_insert h live in marking s role live' busy (if new then h :: stack else stack) ∧ grows live live' ∧ marked live' h.
Proof.
  intros Hr [Hs Hst Hc]. unfold live_insert. assert (grows live (bt_insert h tt live)) as Hg by (intros x ?; apply marked_insert; [done|by right]).
  assert (marked (bt_insert h tt live) h) as Hm by (apply marked_insert; [done|by left]). split_and!; [|done|done]. constructor; [by apply bt_insert_sorted| |].
  - intros x. case_bool_decide; [|apply Hst]. intros [->|]%elem_of_cons; [done|by apply Hst].
  - intros x Hx%marked_insert; [|done]. case_bool_decide as En.
    + destruct Hx as [->|Hx]; [right; left; by left|]. destruct (Hc x Hx) as [|[|]]; [by left|right; left; by right|right; right; by eapply closed_at_grows].
    + assert (marked live x) as Hx' by (destruct Hx as [->|]; [by destruct (bt_get h live) eqn:E; [eexists|]|done]). destruct (Hc x Hx') as [|[|]]; [by left|by right; left|right; right; by eapply closed_at_grows].
Qed.


Lemma chunks_marked chunks live : bt_sorted live → bt_sorted (mark_chunks chunks live) ∧ ∀ h, marked (mark_chunks chunks live) h ↔ h ∈ chunks.*1 ∨ marked live h.
Proof.
  revert live. induction chunks as [|x chunks IH]; intros live Hs; cbn.
  - split; [done|]. intros h. split; [by right|]. intros [?%elem_of_nil|]; done.
  - destruct (IH (bt_insert x.1 tt live)) as [H1 H2]; [by apply bt_insert_sorted|]. split; [done|]. intros h. fold (mark_chunks chunks (bt_insert x.1 tt live)). rewrite H2, marked_insert by done.
    rewrite elem_of_cons. tauto.
Qed.

(** A chunk list is closed as soon as its chunks are marked. *)
Lemma push_list s role live busy stack ch l chunks :
  one_role s role → role ch = RList → get s ch = Some l → chunk_list_entries l = Ok chunks → marking s role live busy stack →
  let live' := mark_chunks chunks (bt_insert ch tt live) in marking s role live' busy stack ∧ grows live live' ∧ marked live' ch.
Proof.
  intros Ht Hr Hg He [Hs Hst Hc]. cbv zeta. destruct (chunks_marked chunks (bt_insert ch tt live)) as [S1 M1]; [by apply bt_insert_sorted|].
  assert (∀ h, marked (mark_chunks chunks (bt_insert ch tt live)) h ↔ h ∈ chunks.*1 ∨ h = ch ∨ marked live h) as M2 by (intros h; rewrite M1, marked_insert; done).
  assert (grows live (mark_chunks chunks (bt_insert ch tt live))) as Hgr by (intros h Hh; apply M2; by right; right).
  assert (∀ r' h', (r', h') ∈ refs s (role ch) ch ↔ r' = RChunk ∧ h' ∈ chunks.*1) as HR.
  { intros r' h'. rewrite Hr. unfold refs. rewrite Hg, He, !list_elem_of_fmap. naive_solver. }
  split_and!; [constructor; [done|done|]|done|apply M2; by right; left]. intros h [Hh|[->|Hh]]%M2.
  - right. right. assert (role h = RChunk) as E by (apply (Ht ch), HR; done). intros r' h'. rewrite E. cbn. by intros ?%elem_of_nil.
  - right. right. intros r' h' [_ Hin]%HR. apply M2. by left.
  - destruct (Hc h Hh) as [|[|]]; [by left|by right; left|right; right; by eapply closed_at_grows].
Qed.

Lemma mark_children_ok s role cs live busy stack : (∀ c, c ∈ cs → role c = RNode) → marking s role live busy stack →
  let '(live', stack') := mark_children cs live stack in marking s role live' busy stack' ∧ grows live live' ∧ ∀ c, c ∈ cs → marked live' c.
Proof.
  revert live stack. induction cs as [|c cs IH]; intros live stack Hr Hm; cbn [mark_children]; [split_and!; [done|by intros ?|by intros ? ?%elem_of_nil]|].
  pose proof (push_node s role live busy stack c (Hr c ltac:(by left)) Hm) as HP. destruct (live_insert c live) as [new live1]. destruct HP as (Hm1 & Hg1 & Hc1).
  specialize (IH live1 (if new then c :: stack else stack) ltac:(intros; apply Hr; by right) Hm1). destruct (mark_children cs live1 _) as [live' stack']. destruct IH as (Hm2 & Hg2 & Hc2).
  split_and!; [done|intros x ?; by apply Hg2, Hg1|]. intros x [->|Hx]%elem_of_cons; [by apply Hg2|by apply Hc2].
Qed.

Lemma mark_entries_ok s role es live busy stack : one_role s role → (∀ r h, (r, h) ∈ omap entry_ref es → role h = r) → marking s role live busy stack →
  match mark_entries s es live stack with
  | (Ok stack', live') => marking s role live' busy stack' ∧ grows live live' ∧ ∀ r h, (r, h) ∈ omap entry_ref es → marked live' h
  | (Err _, _) => True
  end.
Proof.
  intros Ht. revert live stack. induction es as [|e es IH]; intros live stack Hr Hm; cbn [mark_entries]; [split_and!; [done|by intros ?|by intros ?? ?%elem_of_nil]|].
  assert (∀ live1 stack1, marking s role live1 busy stack1 → grows live live1 → (∀ r h, entry_ref e = Some (r, h) → marked live1 h) →
    match mark_entries s es live1 stack1 with (Ok stack', live') => marking s role live' busy stack' ∧ grows live live' ∧ ∀ r h, (r, h) ∈ omap entry_ref (e :: es) → marked live' h | (Err _, _) => True end) as Hnext.
  { intros live1 stack1 Hm1 Hg1 He1. specialize (IH live1 stack1 ltac:(intros r h Hin; apply Hr; apply list_elem_of_omap in Hin as (y & Hy & Hy2); apply list_elem_of_omap; exists y; split; [by right|done]) Hm1).
    destruct (mark_entries s es live1 stack1) as [[stack'|] live']; [|done]. destruct IH as (H1 & H2 & H3). split_and!; [done|intros x ?; by apply H2, Hg1|].
    intros r h Hin. apply list_elem_of_omap in Hin as (y & [->|Hy]%elem_of_cons & Hy2); [by eapply H2, He1|]. eapply H3, list_elem_of_omap. eauto. }
  assert (∀ r h, entry_ref e = Some (r, h) → role h = r) as Hre by (intros r h He; apply Hr, list_elem_of_omap; exists e; split; [by left|done]).
  assert (entry_ref e = match e_content e with Inline _ => None | ChunkList h => Some (RList, h) | DirRoot h => Some (RNode, h) end) as Ee by done.
  destruct (e_content e) as [b|ch|dr]; rewrite Ee in Hnext, Hre; [apply Hnext; [done|by intros ?|done]| |].
  - destruct (live_insert ch live) as [new live1] eqn:Ei. unfold live_insert in Ei. injection Ei as En <-. specialize (Hre _ _ eq_refl). destruct new.
    + destruct (get s ch) as [l|] eqn:Eg; [|done]. destruct (chunk_list_entries l) as [chunks|] eqn:El; [|done]. destruct (push_list s role live busy stack ch l chunks) as (H1 & H2 & H3); try done.
      apply Hnext; [done|done|]. by intros r h [= <- <-].
    + apply bool_decide_eq_false in En. assert (marked live ch) as Hch by (destruct (bt_get ch live) eqn:E; [by eexists|done]). destruct Hm as [Hs Hst Hc].
      assert (∀ h, marked (bt_insert ch tt live) h ↔ marked live h) as HM by (intros h; rewrite marked_insert by done; split; [by intros [->|]|by right]).
      assert (grows live (bt_insert ch tt live)) as Hg by (intros h; apply HM). apply Hnext; [|done|intros r h [= <- <-]; by apply HM].
      constructor; [by apply bt_insert_sorted|done|]. intros h Hh%HM. destruct (Hc h Hh) as [|[|]]; [by left|by right; left|right; right; by eapply closed_at_grows].
  - pose proof (push_node s role live busy stack dr (Hre _ _ eq_refl) Hm) as HP. destruct (live_insert dr live) as [new live1]. destruct HP as (H1 & H2 & H3). apply Hnext; [done|done|]. by intros r h [= <- <-].
Qed.

(** The walk keeps its invariant: what it leaves marked is closed. *)
Lemma mark_loop_ok fuel s role stack live live' :
  one_role s role → marking s role live [] stack → mark_loop fuel s stack live = Some (Ok tt, live') → bt_sorted live' ∧ closed s role live' ∧ grows live live'.
Proof.
  intros Ht. revert stack live. induction fuel as [|fuel IH]; intros stack live Hm; cbn [mark_loop]; destruct stack as [|h stack]; try done.
  1,2: intros [= <-]; split_and!; [apply Hm|intros h Hh; by destruct (mk_closed _ _ _ _ _ Hm h Hh) as [?%elem_of_nil|[?%elem_of_nil|]]|by intros ?].
  assert (role h = RNode) as Hrh by (apply (mk_stack _ _ _ _ _ Hm); by left).
  assert (marking s role live [h] stack) as Hm1.
  { destruct Hm as [S1 T1 C1]. constructor; [done|intros; apply T1; by right|]. intros x Hx. destruct (C1 x Hx) as [?%elem_of_nil|[[->|]%elem_of_cons|]]; [done|left; by left|by right; left|by right; right]. }
  assert (∀ live1 stack1, marking s role live1 [h] stack1 → (∀ r' h', (r', h') ∈ refs s RNode h → marked live1 h') → marking s role live1 [] stack1) as Hdone.
  { intros live1 stack1 [S1 T1 C1] Hcl. constructor; [done|done|]. intros x Hx. right. destruct (C1 x Hx) as [->%list_elem_of_singleton|]; [|done]. right. intros r' h'. rewrite Hrh. apply Hcl. }
  destruct (get s h) as [b|] eqn:Eg; [|done]. destruct (parse_node b) as [[cs|es]|] eqn:Ep; [| |done].
  - assert (∀ r' h', (r', h') ∈ refs s RNode h ↔ r' = RNode ∧ h' ∈ cs) as HR by (intros r' h'; unfold refs; rewrite Eg, Ep, list_elem_of_fmap; naive_solver).
    pose proof (mark_children_ok s role cs live [h] stack ltac:(intros c Hc; apply (Ht h); rewrite Hrh; by apply HR) Hm1) as HC.
    destruct (mark_children cs live stack) as [live1 stack1]. destruct HC as (H1 & H2 & H3). intros Hl. apply IH in Hl as (HA & HB & HC).
    + split_and!; [done|done|intros x ?; by apply HC, H2].
    + apply Hdone; [done|]. intros r' h' [_ Hin]%HR. by apply H3.
  - assert (refs s RNode h = omap entry_ref es) as HR by (unfold refs; by rewrite Eg, Ep).
    pose proof (mark_entries_ok s role es live [h] stack Ht ltac:(intros r x Hx; apply (Ht h); by rewrite Hrh, HR) Hm1) as HC.
    destruct (mark_entries s es live stack) as [[stack1|] live1]; [|done]. destruct HC as (H1 & H2 & H3). intros Hl. apply IH in Hl as (HA & HB & HC).
    + split_and!; [done|done|intros x ?; by apply HC, H2].
    + apply Hdone; [done|]. intros r' h'. rewrite HR. apply H3.
Qed.

Lemma mark_ok fuel s role root live live' :
  one_role s role → role root = RNode → bt_sorted live → closed s role live → mark fuel s root live = Some (Ok tt, live') →
  bt_sorted live' ∧ closed s role live' ∧ grows live live' ∧ marked live' root.
Proof.
  intros Ht Hr Hs Hc. unfold mark. assert (marking s role live [] []) as Hm by (constructor; [done|by intros ? ?%elem_of_nil|]; intros h Hh; right; right; by apply Hc).
  pose proof (push_node s role live [] [] root Hr Hm) as HP. destruct (live_insert root live) as [new live1]. destruct HP as (H1 & H2 & H3). intros Hl.
  apply (mark_loop_ok _ _ _ _ _ _ Ht H1) in Hl as (HA & HB & HC). split_and!; [done|done|intros x ?; by apply HC, H2|by apply HC].
Qed.

(** ** The walk ends *)

(** Nothing is pushed twice: [seen] has been popped, the stack holds other marked hashes. *)
Record once (seen : list Hash) live (stack : list Hash) : Prop := {
  on_sorted : bt_sorted live;
  on_stack : NoDup (stack ++ seen);
  on_marked h : h ∈ stack ++ seen → marked live h;
}.

Lemma once_leaf seen live stack h : once seen live stack → once seen (bt_insert h tt live) stack.
Proof. intros [H1 H2 H3]. constructor; [by apply bt_insert_sorted|done|]. intros x Hx. apply marked_insert; [done|]. right. by apply H3. Qed.
Lemma once_node seen live stack h : once seen live stack → let '(new, live') := live_insert h live in once seen live' (if new then h :: stack else stack).
Proof.
  intros [H1 H2 H3]. unfold live_insert. case_bool_decide as En; [|by apply once_leaf]. constructor; [by apply bt_insert_sorted|cbn; constructor; [|done]|].
  - intros [x Hx]%H3. congruence.
  - intros x [->|Hx]%elem_of_cons; apply marked_insert; [done|by left|done|]. right. by apply H3.
Qed.
Lemma once_children seen cs live stack : once seen live stack → let '(live', stack') := mark_children cs live stack in once seen live' stack'.
Proof.
  revert live stack. induction cs as [|c cs IH]; intros live stack H1; cbn [mark_children]; [done|]. apply (once_node _ _ _ c) in H1. destruct (live_insert c live) as [new live1]. by apply IH.
Qed.
Lemma once_chunks seen chunks live stack : once seen live stack → once seen (mark_chunks chunks live) stack.
Proof. revert live. induction chunks as [|x chunks IH]; intros live H1; [done|]. by apply IH, once_leaf. Qed.
Lemma once_entries seen s es live stack : once seen live stack → match mark_entries s es live stack with (Ok stack', live') => once seen live' stack' | _ => True end.
Proof.
  revert live stack. induction es as [|e es IH]; intros live stack H1; cbn [mark_entries]; [done|]. destruct (e_content e) as [b|ch|dr]; [by apply IH| |].
  - pose proof (once_leaf _ _ _ ch H1) as H2. unfold live_insert. case_bool_decide; [|by apply IH]. destruct (get s ch) as [l|]; [|done]. destruct (chunk_list_entries l); [|done]. by apply IH, once_chunks.
  - apply (once_node _ _ _ dr) in H1. destruct (live_insert dr live) as [new live1]. by apply IH.
Qed.

Lemma mark_loop_total objs s fuel seen stack live :
  (∀ h b, get s h = Some b → h ∈ objs) → (∀ h, h ∈ seen → h ∈ objs) → once seen live stack → (length objs < fuel + length seen)%nat → is_Some (mark_loop fuel s stack live).
Proof.
  intros Ho. revert seen stack live. induction fuel as [|fuel IH]; intros seen stack live Hs H1 Hf; destruct stack as [|h stack]; cbn [mark_loop]; try by eexists.
  - pose proof (on_stack _ _ _ H1) as HN. apply NoDup_app in HN as (_ & _ & HN). assert (seen ⊆+ objs) as Hsub%submseteq_length by (by apply NoDup_submseteq). lia.
  - destruct (get s h) as [b|] eqn:Eg; [|by eexists]. destruct (parse_node b) as [[cs|es]|]; [| |by eexists].
    all: assert (once (h :: seen) live stack) as H2 by (destruct H1 as [S1 N1 M1]; constructor; [done|rewrite <-Permutation_middle; done|intros x Hx; apply M1; rewrite <-Permutation_middle in Hx; done]).
    all: assert (∀ x, x ∈ h :: seen → x ∈ objs) as Hs2 by (intros x [->|]%elem_of_cons; [by eapply Ho|by apply Hs]).
    + apply (once_children _ cs) in H2. destruct (mark_children cs live stack) as [live1 stack1]. apply (IH (h :: seen)); [done|done|cbn; lia].
    + apply (once_entries _ s es) in H2. destruct (mark_entries s es live stack) as [[stack1|] live1]; [|by eexists]. apply (IH (h :: seen)); [done|done|cbn; lia].
Qed.

Lemma mark_total objs s root live : (∀ h b, get s h = Some b → h ∈ objs) → bt_sorted live → is_Some (mark (Datatypes.S (length objs)) s root live).
Proof.
  intros Ho Hs. unfold mark. assert (once [] live []) as H0 by (constructor; [done|constructor|by intros ? ?%elem_of_nil]).
  apply (once_node _ _ _ root) in H0. destruct (live_insert root live) as [new live1]. apply (mark_loop_total objs s _ []); [done|by intros ? ?%elem_of_nil|done|cbn; lia].
Qed.

(** ** What the mark set serves *)

Definition agrees live s s' : Prop := ∀ h, marked live h → get s' h = get s h.
Definition ref_served role live (e : Entry) : Prop := ∀ r x, entry_ref e = Some (r, x) → marked live x ∧ role x = r.

Lemma push_entries_split raws out es : push_entries raws out = Ok es → ∃ es0, push_entries raws [] = Ok es0 ∧ es = out ++ es0.
Proof.
  assert (∀ raws out1 out2 es, push_entries raws (out1 ++ out2) = Ok es → ∃ es0, push_entries raws out2 = Ok es0 ∧ es = out1 ++ es0) as HP.
  { clear. induction raws as [|r raws IH]; intros out1 out2 es; cbn; [intros [= <-]; eauto|]. destruct (validate_entry _); [|done]. rewrite <-app_assoc. apply IH. }
  intros Hp. apply (HP raws out []). by rewrite app_nil_r.
Qed.

Lemma load_node_served s s' role live fuel exp h out es :
  one_role s role → closed s role live → agrees live s s' → marked live h → role h = RNode → load_node fuel s exp h out = Some (Ok es) →
  load_node fuel s' exp h out = Some (Ok es) ∧ ∀ e, e ∈ es → e ∈ out ∨ ref_served role live e.
Proof.
  intros Ht Hc Ha. revert exp h out es. induction fuel as [|fuel IH]; intros exp h out es Hm Hr; [done|]. cbn [load_node]. rewrite (Ha h Hm). destruct (get s h) as [b|] eqn:Eg; [|done].
  destruct (decode_node b) as [[level body]|] eqn:Ed; [|done]. destruct (match exp with Some _ => _ | None => _ end); [done|]. destruct body as [raws|cs].
  - destruct (_ && _); [done|]. intros [= Hp]. rewrite Hp. split; [done|]. apply push_entries_split in Hp as (es0 & Hp & ->). intros e [He|He]%elem_of_app; [by left|right].
    assert (refs s (role h) h = omap entry_ref es0) as HR by (rewrite Hr; unfold refs, parse_node; by rewrite Eg, Ed, Hp).
    intros r x Hx. assert ((r, x) ∈ refs s (role h) h) as Hin by (rewrite HR; apply list_elem_of_omap; eauto). split; [by eapply Hc|by eapply Ht].
  - assert (refs s (role h) h = (λ c, (RNode, c)) <$> (c_child <$> cs)) as HR by (rewrite Hr; unfold refs, parse_node; by rewrite Eg, Ed).
    assert (∀ c, c ∈ cs → marked live (c_child c) ∧ role (c_child c) = RNode) as Hcs.
    { intros c Hin. assert ((RNode, c_child c) ∈ refs s (role h) h) as Hin' by (rewrite HR; by do 2 apply list_elem_of_fmap_2). split; [by eapply Hc|by eapply Ht]. }
    clear HR Ed. destruct cs as [|c0 cs0]; [done|]. revert Hcs. generalize (c0 :: cs0). clear c0 cs0. intros cs. revert out es. induction cs as [|c cs IHc]; intros out es Hcs; cbn [load_children].
    { intros [= ->]. split; [done|]. intros e He. by left. }
    destruct (load_node fuel s (Some (level - 1)) (c_child c) out) as [[out'|]|] eqn:El; [|done..]. destruct (Hcs c) as [H1 H2]; [by left|]. destruct (IH _ _ _ _ H1 H2 El) as [El' Hs']. rewrite El'.
    case_decide; [|done]. intros Hl. apply IHc in Hl as [Hl1 Hl2]; [|intros; apply Hcs; by right]. split; [done|]. intros e [He|He]%Hl2; [by apply Hs'|by right].
Qed.

Lemma load_served s s' role live h d :
  one_role s role → closed s role live → agrees live s s' → marked live h → role h = RNode → load s h = Some (Ok d) →
  load s' h = Some (Ok d) ∧ ∀ n e, dir_get d n = Some e → ref_served role live e.
Proof.
  intros Ht Hc Ha Hm Hr. unfold load. destruct (load_node 257 s None h []) as [[es|]|] eqn:El; [|done..]. destruct (load_node_served _ _ _ _ _ _ _ _ _ Ht Hc Ha Hm Hr El) as [-> Hs].
  destruct (names_ascend None es) eqn:En; [|done]. intros [= <-]. split; [done|]. apply names_ascend_spec in En as [Hso _]. rewrite rebuild_entries by done.
  intros n e Hg. apply bt_get_elem in Hg; [|done]. apply list_elem_of_fmap in Hg as (x & [= -> ->] & Hx). by destruct (Hs x Hx) as [?%elem_of_nil|].
Qed.

Lemma walk_served s s' role live d path x :
  one_role s role → closed s role live → agrees live s s' → (∀ n e, dir_get d n = Some e → ref_served role live e) → dir_walk s d path = Some (Ok x) →
  dir_walk s' d path = Some (Ok x) ∧ ∀ e, x = Some e → ref_served role live e.
Proof.
  intros Ht Hc Ha. revert d. induction path as [|c rest IH]; intros d Hd; [by intros [= <-]|]. destruct rest as [|c' rest]; [intros [= <-]; split; [done|]; by apply Hd|].
  cbn [dir_walk]. destruct (dir_get d c) as [e|] eqn:Eg; [|by intros [= <-]]. pose proof (Hd _ _ Eg) as He. unfold ref_served, entry_ref in He. destruct (e_content e) as [| |h]; [done..|].
  destruct (He _ _ eq_refl) as [Hm Hr]. destruct (load s h) as [[d'|]|] eqn:El; [|done..]. destruct (load_served _ _ _ _ _ _ Ht Hc Ha Hm Hr El) as [-> Hd']. by apply IH.
Qed.

Lemma read_served s s' role live e size bytes :
  one_role s role → closed s role live → agrees live s s' → ref_served role live e → read_file s (e_content e) size = Ok bytes → read_file s' (e_content e) size = Ok bytes.
Proof.
  intros Ht Hc Ha He. unfold ref_served, entry_ref in He. destruct (e_content e) as [b|h|h]; [done| |done]. destruct (He _ _ eq_refl) as [Hm Hr]. cbn [read_file]. rewrite (Ha h Hm).
  destruct (get s h) as [l|] eqn:Eg; [|done]. destruct (chunk_list_entries l) as [es|] eqn:Ee; [|done].
  assert (∀ x, x ∈ es → marked live x.1) as Hes.
  { intros x Hx. assert ((RChunk, x.1) ∈ refs s (role h) h) as Hin; [|by eapply Hc]. rewrite Hr. unfold refs. rewrite Eg, Ee. by apply (list_elem_of_fmap_2 (λ x : Hash * Z, (RChunk, x.1))). }
  assert (∀ out, read_chunks s' es out = read_chunks s es out) as HR; [|by rewrite HR]. clear Ee. induction es as [|[ch n] es IH]; intros out; cbn; [done|].
  rewrite (Ha ch) by (apply (Hes (ch, n)); by left). destruct (get s ch); [|done]. destruct (negb _); [done|]. apply IH. intros; apply Hes; by right.
Qed.
End roles.
