(* ===== verification/Engine.v ===== *)
(** The storage engine ([cas/src/store.rs], [Store]): the device's superblocks, the chunk
    store, the ref table, the overlays and the write-ahead log, and the operations on them.
    An operation is a state transformer that returns a [StoreError] with the state it leaves
    behind, or panics. *)

From stdpp Require Import strings.
From S2P Require Import Prelude Bytes Dev BTree Disk Recovery Prolly ChunkStore Overlay Chunker File Tree Gc.

(** ** Data *)
Definition MIN_CHUNK_REGION : Z := 4096.

Inductive RefEdit : Type :=
| DeleteSnapshot (id : Z)
| SetClass (id class : Z)
| SetParent (id : Z) (parent : option Z)
| SetMessage (id : Z) (message : list Z)
| CreateTag (name : list Z) (snap_id : Z)
| DeleteTag (name : list Z).

Record StoreOptions : Type := MkOpts {
  so_wal_len : Z; so_chunker : ChunkerParams; so_global_budget : Z; so_per_ref_budget : Z; so_op_count_bound : Z;
  so_size_low_watermark : Z; so_wal_watermark : Z; so_staleness_ns : Z }.
Definition StoreOptions_default : StoreOptions :=
  let global_budget := 128 * 1024 * 1024 in
  let wal_len := 64 * 1024 * 1024 in
  MkOpts wal_len DEFAULT global_budget (8 * 1024 * 1024) 8192 (global_budget / 4 * 3) (wal_len / 2) (30 * 1000000000).
Definition opts_with_wal_len (n : Z) (o : StoreOptions) : StoreOptions :=
  MkOpts n (so_chunker o) (so_global_budget o) (so_per_ref_budget o) (so_op_count_bound o) (so_size_low_watermark o) (so_wal_watermark o) (so_staleness_ns o).

Record RefAcct : Type := MkAcct { ra_op_count : Z; ra_oldest_wal_pos : option Z; ra_oldest_dirty_ns : option Z }.
Definition RefAcct_default : RefAcct := MkAcct 0 None None.

Record GcStats : Type := MkGcStats { gs_live_objects : Z; gs_freed_objects : Z; gs_freed_bytes : Z }.
Record SpaceInfo : Type := MkSpace { si_total : Z; si_used : Z; si_free : Z }.

Definition geom_message (e : GeomError) : string :=
  match e with
  | WalExceeds => "wal region exceeds device"
  | HeadBeyond => "wal head beyond wal region"
  | ChunksExceed => "committed chunk region exceeds device"
  | IndexOutside => "index frame outside committed region"
  end.

#[global] Instance EntryKind_ord : Ord EntryKind.
Proof.
  refine {| cmp := λ a b, match a, b with KFile, KDir => Lt | KDir, KFile => Gt | _, _ => Eq end |}.
  - by intros [] [].
  - by intros [] [].
  - by intros [] [] [].
Defined.

Record Store (D : Type) : Type := MkStore {
  st_chunks : ChunkStore D;
  st_opts : StoreOptions;
  st_sb : Superblock;
  st_sb_in_b : bool;
  st_table : RefTable;
  st_dirty_refs : btree (list Z) unit;
  st_overlays : btree (list Z) Overlay;
  st_acct : btree (list Z) RefAcct;
  st_wal_tail : Z;
  st_wal_seq : Z;
  st_wal_records : list RecMeta;
  st_next_file_id : FileId;
  st_open_files : btree FileId (list Z);
}.
Arguments MkStore {D} _ _ _ _ _ _ _ _ _ _ _ _ _.
Arguments st_chunks {D} _.
Arguments st_opts {D} _.
Arguments st_sb {D} _.
Arguments st_sb_in_b {D} _.
Arguments st_table {D} _.
Arguments st_dirty_refs {D} _.
Arguments st_overlays {D} _.
Arguments st_acct {D} _.
Arguments st_wal_tail {D} _.
Arguments st_wal_seq {D} _.
Arguments st_wal_records {D} _.
Arguments st_next_file_id {D} _.
Arguments st_open_files {D} _.

(** ** Results of engine operations *)
Definition eng (D A : Type) : Type := comp (Store D) (result A StoreError).
#[global] Instance eng_ret (D : Type) : MRet (eng D) := λ A a s, Ret (Ok a, s).
#[global] Instance eng_bind (D : Type) : MBind (eng D) := λ A B f m s,
  match m s with
  | Ret (Ok a, s') => f a s'
  | Ret (Err e, s') => Ret (Err e, s')
  | Panic => Panic
  | NoFuel => NoFuel
  end.

Section engine.
Context (hash_of : list Z → Hash) {D : Type} `{!BlockDev D}.
#[local] Instance chunk_node_store : NodeStore (ChunkStore D) := ChunkStore_store hash_of.
Implicit Types (s : Store D).

Definition set_chunks (x : ChunkStore D) s : Store D :=
  MkStore x (st_opts s) (st_sb s) (st_sb_in_b s) (st_table s) (st_dirty_refs s) (st_overlays s) (st_acct s) (st_wal_tail s) (st_wal_seq s) (st_wal_records s) (st_next_file_id s) (st_open_files s).
Definition set_sb (x : Superblock) s : Store D :=
  MkStore (st_chunks s) (st_opts s) x (st_sb_in_b s) (st_table s) (st_dirty_refs s) (st_overlays s) (st_acct s) (st_wal_tail s) (st_wal_seq s) (st_wal_records s) (st_next_file_id s) (st_open_files s).
Definition set_sb_in_b (x : bool) s : Store D :=
  MkStore (st_chunks s) (st_opts s) (st_sb s) x (st_table s) (st_dirty_refs s) (st_overlays s) (st_acct s) (st_wal_tail s) (st_wal_seq s) (st_wal_records s) (st_next_file_id s) (st_open_files s).
Definition set_table (x : RefTable) s : Store D :=
  MkStore (st_chunks s) (st_opts s) (st_sb s) (st_sb_in_b s) x (st_dirty_refs s) (st_overlays s) (st_acct s) (st_wal_tail s) (st_wal_seq s) (st_wal_records s) (st_next_file_id s) (st_open_files s).
Definition set_dirty_refs (x : btree (list Z) unit) s : Store D :=
  MkStore (st_chunks s) (st_opts s) (st_sb s) (st_sb_in_b s) (st_table s) x (st_overlays s) (st_acct s) (st_wal_tail s) (st_wal_seq s) (st_wal_records s) (st_next_file_id s) (st_open_files s).
Definition set_overlays (x : btree (list Z) Overlay) s : Store D :=
  MkStore (st_chunks s) (st_opts s) (st_sb s) (st_sb_in_b s) (st_table s) (st_dirty_refs s) x (st_acct s) (st_wal_tail s) (st_wal_seq s) (st_wal_records s) (st_next_file_id s) (st_open_files s).
Definition set_acct (x : btree (list Z) RefAcct) s : Store D :=
  MkStore (st_chunks s) (st_opts s) (st_sb s) (st_sb_in_b s) (st_table s) (st_dirty_refs s) (st_overlays s) x (st_wal_tail s) (st_wal_seq s) (st_wal_records s) (st_next_file_id s) (st_open_files s).
Definition set_wal_tail (x : Z) s : Store D :=
  MkStore (st_chunks s) (st_opts s) (st_sb s) (st_sb_in_b s) (st_table s) (st_dirty_refs s) (st_overlays s) (st_acct s) x (st_wal_seq s) (st_wal_records s) (st_next_file_id s) (st_open_files s).
Definition set_wal_seq (x : Z) s : Store D :=
  MkStore (st_chunks s) (st_opts s) (st_sb s) (st_sb_in_b s) (st_table s) (st_dirty_refs s) (st_overlays s) (st_acct s) (st_wal_tail s) x (st_wal_records s) (st_next_file_id s) (st_open_files s).
Definition set_wal_records (x : list RecMeta) s : Store D :=
  MkStore (st_chunks s) (st_opts s) (st_sb s) (st_sb_in_b s) (st_table s) (st_dirty_refs s) (st_overlays s) (st_acct s) (st_wal_tail s) (st_wal_seq s) x (st_next_file_id s) (st_open_files s).
Definition set_next_file_id (x : FileId) s : Store D :=
  MkStore (st_chunks s) (st_opts s) (st_sb s) (st_sb_in_b s) (st_table s) (st_dirty_refs s) (st_overlays s) (st_acct s) (st_wal_tail s) (st_wal_seq s) (st_wal_records s) x (st_open_files s).
Definition set_open_files (x : btree FileId (list Z)) s : Store D :=
  MkStore (st_chunks s) (st_opts s) (st_sb s) (st_sb_in_b s) (st_table s) (st_dirty_refs s) (st_overlays s) (st_acct s) (st_wal_tail s) (st_wal_seq s) (st_wal_records s) (st_next_file_id s) x.

Definition fail_with {A : Type} (e : StoreError) : eng D A := λ s, Ret (Err e, s).
Definition asks {A : Type} (f : Store D → A) : eng D A := λ s, Ret (Ok (f s), s).
Definition update (f : Store D → Store D) : eng D unit := λ s, Ret (Ok tt, f s).
(** [o.ok_or(e)?] and [x?] *)
Definition ok_or {A : Type} (o : option A) (e : StoreError) : eng D A := λ s, Ret (match o with Some a => Ok a | None => Err e end, s).
Definition try_format {A : Type} (r : result A FormatError) : eng D A := λ s, Ret (match r with Ok a => Ok a | Err e => Err (EFormat e) end, s).
(** A computation that may panic but leaves the state alone. *)
Definition run {A : Type} (o : outcome A) : eng D A := λ s, match o with Ret a => Ret (Ok a, s) | Panic => Panic | NoFuel => NoFuel end.
Definition add64 (a b : Z) : eng D Z := λ s, if decide (a + b ≤ U64_MAX) then Ret (Ok (a + b), s) else Panic.
Definition sub64 (a b : Z) : eng D Z := λ s, if decide (b ≤ a) then Ret (Ok (a - b), s) else Panic.
Definition mod64 (a b : Z) : eng D Z := λ s, if decide (b = 0) then Panic else Ret (Ok (a mod b), s).
(** Operations on the chunk store: infallible, with a [FormatError], with a [StoreError] *)
Definition on_chunks {A : Type} (m : comp (ChunkStore D) A) : eng D A := λ s,
  match m (st_chunks s) with Ret (a, c) => Ret (Ok a, set_chunks c s) | Panic => Panic | NoFuel => NoFuel end.
Definition on_chunks_fmt {A : Type} (m : comp (ChunkStore D) (result A FormatError)) : eng D A := λ s,
  match m (st_chunks s) with
  | Ret (Ok a, c) => Ret (Ok a, set_chunks c s)
  | Ret (Err e, c) => Ret (Err (EFormat e), set_chunks c s)
  | Panic => Panic
  | NoFuel => NoFuel
  end.
Definition on_chunks_err {A : Type} (m : comp (ChunkStore D) (result A StoreError)) : eng D A := λ s,
  match m (st_chunks s) with Ret (r, c) => Ret (r, set_chunks c s) | Panic => Panic | NoFuel => NoFuel end.
Definition write_dev (off : Z) (data : list Z) : eng D unit := λ s,
  let '(r, d) := dev_write off data (cs_dev (st_chunks s)) in
  Ret (match r with Ok _ => Ok tt | Err e => Err (EIo e) end, set_chunks (with_dev d (st_chunks s)) s).
Definition flush_dev : eng D unit := λ s,
  let '(r, d) := dev_flush (cs_dev (st_chunks s)) in
  Ret (match r with Ok _ => Ok tt | Err e => Err (EIo e) end, set_chunks (with_dev d (st_chunks s)) s).
Definition tree_lookup (root : Hash) (path : Path) : eng D (option Entry) := λ s,
  match lookup (st_chunks s) root path with
  | Some (Ok e) => Ret (Ok e, s)
  | Some (Err e) => Ret (Err (EFormat e), s)
  | None => NoFuel
  end.
Definition load_dir (root : Hash) : eng D Dir := λ s,
  match load (st_chunks s) root with
  | Some (Ok d) => Ret (Ok d, s)
  | Some (Err e) => Ret (Err (EFormat e), s)
  | None => NoFuel
  end.
(** [for x in l { f(x)? }] *)
Fixpoint each {A : Type} (l : list A) (f : A → eng D unit) : eng D unit :=
  match l with [] => mret tt | x :: l' => f x;; each l' f end.
(** [for x in l { acc = f(acc, x)? }] *)
Fixpoint fold_eng {A B : Type} (l : list A) (acc : B) (f : B → A → eng D B) : eng D B :=
  match l with [] => mret acc | x :: l' => acc ← f acc x; fold_eng l' acc f end.

Definition check_io : eng D unit := λ s,
  match cs_io_error (st_chunks s) with
  | Some e => Ret (Err (EIo e), set_chunks (with_io_error None (st_chunks s)) s)
  | None => Ret (Ok tt, s)
  end.

(** ** Small accessors *)
Definition set_ref (name : list Z) (e : RefEntry) (t : RefTable) : RefTable := MkRefTable (bt_insert name e (rt_refs t)) (rt_snaps t) (rt_tags t).
Definition set_snaps (x : btree (list Z * Z) SnapRow) (t : RefTable) : RefTable := MkRefTable (rt_refs t) x (rt_tags t).
Definition set_tags (x : btree (list Z) (list Z * Z)) (t : RefTable) : RefTable := MkRefTable (rt_refs t) (rt_snaps t) x.
Definition set_root (h : Hash) (e : RefEntry) : RefEntry := MkRefEntry h (re_generation e) (re_next_snap_id e) (re_edit_version e).
Definition find_ref (name : list Z) : eng D RefEntry := λ s, ok_or (bt_get name (rt_refs (st_table s))) NoSuchRef s.
Definition overlay_of s (name : list Z) : option Overlay := bt_get name (st_overlays s).
(** [self.overlays.entry(name).or_default()] *)
Definition overlay_or_default s (name : list Z) : Overlay := default Overlay_default (overlay_of s name).
Definition put_overlay (name : list Z) (o : Overlay) : eng D unit := update (λ s, set_overlays (bt_insert name o (st_overlays s)) s).
Definition touch_ref (name : list Z) : eng D unit := update (λ s, set_dirty_refs (bt_insert name tt (st_dirty_refs s)) s).
Definition edit_version s (name : list Z) : option Z := re_edit_version <$> bt_get name (rt_refs (st_table s)).
Definition overlay_bytes s : Z := foldr (λ x a, ov_bytes x.2 + a) 0 (st_overlays s).

(** ** Commit *)
Definition bump_version (name : list Z) : eng D unit :=
  o ← asks (λ s, bt_get name (rt_refs (st_table s)));
  match o with
  | None => mret tt
  | Some e =>
      v ← add64 (re_edit_version e) 1;
      update (λ s, set_table (set_ref name (MkRefEntry (re_root e) (re_generation e) (re_next_snap_id e) v) (st_table s)) s)
  end.

Definition slot_off (b : Slot) : Z := match b with Slot_A => SB_A_OFF | Slot_B => SB_B_OFF end.

(** The flushed records leave the log; an empty log starts over. *)
Definition pop_records (n : nat) s : Store D :=
  let s := set_wal_records (drop n (st_wal_records s)) s in
  match st_wal_records s with [] => set_wal_tail 0 s | _ => s end.

(** What the flip makes real. *)
Definition flip (new_sb : Superblock) (birth : Z) (new_free : btree Z Z) (new_index_extent : Z * Z) s : Store D :=
  let s := set_sb_in_b (negb (st_sb_in_b s)) (set_sb new_sb s) in
  set_chunks (with_index_extent new_index_extent (with_pending_free [] (with_free new_free (with_birth_gen birth (st_chunks s))))) s.

(** Up to barrier 1 and the new superblock: with the frame and the free list it names. *)
Definition commit_prepare : eng D (Superblock * (Z * Z) * btree Z Z) :=
  dirty ← asks st_dirty_refs;
  update (set_dirty_refs []);;
  each dirty.*1 bump_version;;
  table ← asks st_table;
  rt_hash ← on_chunks (λ c, Ret (put (RefTable_encode table) c));
  check_io;;
  update (λ s, set_chunks (with_pending_free (cs_pending_free (st_chunks s) ++ [cs_index_extent (st_chunks s)]) (st_chunks s)) s);;
  x ← on_chunks_err (write_index_frame hash_of);
  flush_dev;;
  adv ← asks (λ s, advance_head (st_wal_records s) (st_wal_seq s));
  update (pop_records (ha_flushed adv));;
  sb ← asks st_sb;
  generation ← add64 (sb_generation sb) 1;
  new_sb ← asks (λ s, MkSb generation rt_hash (ha_head adv) (ha_next_seq adv) (so_wal_len (st_opts s)) (cs_tail (st_chunks s)) x.1.1);
  mret (new_sb, x.1, x.2).

(** Write the superblock to the older slot, barrier 2, and go on from the new commit. *)
Definition commit : eng D unit :=
  x ← commit_prepare;
  let new_sb := x.1.1 in
  target ← asks (λ s, slot_off (commit_target (st_sb_in_b s)));
  write_dev target (Superblock_encode hash_of new_sb);;
  flush_dev;;
  birth ← add64 (sb_generation new_sb) 1;
  update (flip new_sb birth x.2 x.1.2).

(** ** Flush *)

(** The last component and the path above it; an empty path is an underflow. *)
Definition split_last (p : Path) : outcome (Path * list Z) :=
  match last p with Some name => Ret (take (length p - 1) p, name) | None => Panic end.

Definition flush_dir_rename (root : Hash) (x : Path * Path) : eng D Hash :=
  '(root, removed) ← on_chunks_fmt (tree_remove hash_of root x.1);
  check_io;;
  match removed with
  | None => mret root
  | Some e =>
      '(to_dir, to_name) ← run (split_last x.2);
      let entry := MkEntry to_name (e_kind e) (e_flags e) (e_size e) (e_mtime e) (e_content e) in
      root ← on_chunks_fmt (tree_put hash_of root to_dir entry (e_mtime e));
      check_io;;
      mret root
  end.

Definition flush_remove (root : Hash) (path : Path) : eng D Hash :=
  '(root, _) ← on_chunks_fmt (tree_remove hash_of root path);
  check_io;;
  mret root.

(** Names the flush takes out of the tree: tombstones and the old names of moved files,
    less the names live files are about to create. *)
Definition removals (o : Overlay) : list Path :=
  let moved := omap (λ x : Path * FileOverlay, match fo_origin x.2 with Some q => if bool_decide (q = x.1) then None else Some q | None => None end) (files o) in
  let all := foldl (λ (m : btree Path unit) p, bt_insert p tt m) (ov_tombs o) moved in
  filter (λ p, p ∉ (files o).*1) all.*1.

Definition flush_file (base_root : Hash) (root : Hash) (x : Path * FileOverlay) : eng D Hash :=
  let '(name, fo) := x in
  '(dir, fname) ← run (split_last name);
  let origin := default name (fo_origin fo) in
  old ← tree_lookup base_root origin;
  reuse ←
    match old with
    | Some e =>
        match e_kind e with
        | KDir => fail_with NotAFile
        | KFile =>
            if fo_fresh fo then mret None
            else
              c ← asks st_chunks;
              b ← try_format (read_file c (e_content e) (e_size e));
              mret (Some (e_content e, b))
        end
    | None => mret None
    end;
  let flags := match old with Some e => e_flags e | None => 0 end in
  let content := apply fo (match reuse with Some (_, b) => b | None => [] end) in
  params ← asks (λ s, so_chunker (st_opts s));
  entry_content ← on_chunks
    (match reuse with
     | Some (old_content, base) => store_file_neighborhood params old_content base content (default 0 (first_write_offset fo))
     | None => store_file params content
     end);
  check_io;;
  root ← on_chunks_fmt (tree_put hash_of root dir (MkEntry fname KFile flags (len_z content) (fo_mtime fo) entry_content) (fo_mtime fo));
  check_io;;
  mret root.

Definition mark_flushed (name : list Z) (r : RecMeta) : RecMeta :=
  if bool_decide (rm_ref r = name) then MkRec (rm_seq r) (rm_off r) (rm_ref r) true else r.

Definition carry_handles (ref_name : list Z) (o : Overlay) : eng D unit :=
  match carry_open o with Some carry => put_overlay ref_name carry | None => mret tt end.

Definition flush_ref (ref_name : list Z) : eng D unit :=
  update (λ s, set_acct (bt_remove ref_name (st_acct s)) s);;
  o ← asks (λ s, overlay_of s ref_name);
  match o with
  | None => mret tt
  | Some overlay =>
      update (λ s, set_overlays (bt_remove ref_name (st_overlays s)) s);;
      if is_empty overlay then carry_handles ref_name overlay
      else
        entry ← find_ref ref_name;
        let base_root := re_root entry in
        root ← fold_eng (ov_dir_renames overlay) base_root flush_dir_rename;
        root ← fold_eng (removals overlay) root flush_remove;
        root ← fold_eng (files overlay) root (flush_file base_root);
        update (λ s, set_table (set_ref ref_name (set_root root entry) (st_table s)) s);;
        touch_ref ref_name;;
        update (λ s, set_wal_records (mark_flushed ref_name <$> st_wal_records s) s);;
        carry_handles ref_name overlay
  end.

Definition sync_ref (ref_name : list Z) : eng D unit := flush_ref ref_name;; commit.
Definition sync_all : eng D unit :=
  refs ← asks (λ s, (st_overlays s).*1);
  each refs flush_ref;;
  commit.

(** ** The write-ahead log *)
Definition wal_usage : eng D Z :=
  s ← asks (λ s, s);
  match st_wal_records s with
  | [] => mret 0
  | _ =>
      let wal_len := so_wal_len (st_opts s) in
      a ← add64 (st_wal_tail s) wal_len;
      b ← sub64 a (sb_wal_head (st_sb s));
      raw ← mod64 b wal_len;
      mret (if raw =? 0 then wal_len else raw)
  end.

Definition wal_write (off : Z) (rec_ : list Z) : eng D unit :=
  wal_len ← asks (λ s, so_wal_len (st_opts s));
  (if off + len_z rec_ <=? wal_len then write_dev (WAL_OFF + off) rec_
   else
     first ← sub64 wal_len off;
     write_dev (WAL_OFF + off) (take (Z.to_nat first) rec_);;
     write_dev WAL_OFF (drop (Z.to_nat first) rec_));;
  flush_dev.

(** A rename whose source is not in the overlay: classify the committed entry. *)
Definition apply_rename_committed (ref_name : list Z) (from to : Path) (mtime : Z) : eng D unit :=
  entry ← asks (λ s, bt_get ref_name (rt_refs (st_table s)));
  kind ←
    match entry with
    | Some e => x ← tree_lookup (re_root e) from; mret (e_kind <$> x)
    | None => mret None
    end;
  s ← asks (λ s, s);
  let o := overlay_or_default s ref_name in
  match kind with
  | Some KDir => put_overlay ref_name (rename_dir o from to)
  | Some KFile =>
      let '(o, next_id) := open_for_rename o from (st_next_file_id s) in
      update (set_next_file_id next_id);;
      o ← run (rename o from to mtime);
      put_overlay ref_name o
  | None => put_overlay ref_name o
  end.

Definition apply_to_overlay (op : WalOp) : eng D unit :=
  match op with
  | Write ref_name path offset mtime data =>
      s ← asks (λ s, s);
      '(o, next_id) ← run (write (overlay_or_default s ref_name) path offset data mtime (st_next_file_id s));
      update (set_next_file_id next_id);;
      put_overlay ref_name o
  | Unlink ref_name path mtime =>
      o ← asks (λ s, overlay_or_default s ref_name);
      put_overlay ref_name (unlink o path)
  | Rename ref_name from to mtime =>
      o ← asks (λ s, overlay_of s ref_name);
      match o with
      | Some o =>
          if contains_file o from then o ← run (rename o from to mtime); put_overlay ref_name o
          else apply_rename_committed ref_name from to mtime
      | None => apply_rename_committed ref_name from to mtime
      end
  end.

Definition account_op (op : WalOp) (wal_pos : Z) : eng D unit :=
  a ← asks (λ s, default RefAcct_default (bt_get (wal_ref_name op) (st_acct s)));
  n ← add64 (ra_op_count a) 1;
  update (λ s, set_acct (bt_insert (wal_ref_name op)
    (MkAcct n (Some (default wal_pos (ra_oldest_wal_pos a))) (Some (default (wal_mtime op) (ra_oldest_dirty_ns a)))) (st_acct s)) s).

(** [loop]: every round that goes on flushes a record at the head of the log. *)
Fixpoint relieve_wal_loop (fuel : nat) (incoming : Z) : eng D unit :=
  match fuel with
  | O => λ _, NoFuel
  | S fuel' =>
      usage ← wal_usage;
      s ← asks (λ s, s);
      if (usage + incoming <=? so_wal_len (st_opts s)) && (usage <? so_wal_watermark (st_opts s)) then mret tt
      else
        match st_wal_records s with
        | [] => mret tt
        | r :: _ =>
            flush_ref (rm_ref r);;
            commit;;
            relieve_wal_loop fuel' incoming
        end
  end.
Definition relieve_wal_pressure (incoming : Z) : eng D unit :=
  n ← asks (λ s, length (st_wal_records s));
  relieve_wal_loop (S n) incoming.

(** [for (_, name) in by_size]: whether anything was flushed. *)
Fixpoint relieve_size_loop (by_size : list (Z * list Z)) (flushed_any : bool) : eng D bool :=
  match by_size with
  | [] => mret flushed_any
  | (_, name) :: rest =>
      s ← asks (λ s, s);
      if bool_decide (length (st_overlays s) ≤ 1)%nat || (overlay_bytes s <=? so_size_low_watermark (st_opts s)) then mret flushed_any
      else
        flush_ref name;;
        relieve_size_loop rest true
  end.
Definition relieve_size_pressure : eng D unit :=
  s ← asks (λ s, s);
  if overlay_bytes s <=? so_size_low_watermark (st_opts s) then mret tt
  else
    let by_size := (λ x : Z * list Z, (- x.1, x.2)) <$> ord_sort ((λ x : list Z * Overlay, (- ov_bytes x.2, x.1)) <$> st_overlays s) in
    any ← relieve_size_loop by_size false;
    if any : bool then commit else mret tt.

Definition relieve_staleness (now : Z) : eng D unit :=
  s ← asks (λ s, s);
  let bound := so_staleness_ns (st_opts s) in
  if bound =? U64_MAX then mret tt
  else
    let stale := (List.filter (λ x : list Z * RefAcct, match ra_oldest_dirty_ns x.2 with Some t => bound <? Z.max 0 (now - t) | None => false end) (st_acct s)).*1 in
    each stale flush_ref;;
    match stale with [] => mret tt | _ => commit end.
Definition flush_stale (now : Z) : eng D unit := relieve_staleness now.

(** Append the record at the tail and make it durable. *)
Definition wal_append (op : WalOp) (rec_ : list Z) : eng D Z :=
  rec_off ← asks st_wal_tail;
  wal_write rec_off rec_;;
  update (λ s, set_wal_records (st_wal_records s ++ [MkRec (st_wal_seq s) rec_off (wal_ref_name op) false]) s);;
  wal_len ← asks (λ s, so_wal_len (st_opts s));
  tail ← mod64 (rec_off + len_z rec_) wal_len;
  update (set_wal_tail tail);;
  seq ← asks st_wal_seq;
  seq ← add64 seq 1;
  update (set_wal_seq seq);;
  mret rec_off.

Definition log_then_apply (op : WalOp) : eng D unit :=
  rec_ ← asks (λ s, encode_record hash_of op (st_wal_seq s));
  wal_len ← asks (λ s, so_wal_len (st_opts s));
  let r := wal_ref_name op in
  if wal_len <? len_z rec_ then
    apply_to_overlay op;;
    flush_ref r;;
    commit
  else
    relieve_wal_pressure (len_z rec_);;
    rec_off ← wal_append op rec_;
    apply_to_overlay op;;
    account_op op rec_off;;
    s ← asks (λ s, s);
    let over_bytes := so_per_ref_budget (st_opts s) <? match overlay_of s r with Some o => ov_bytes o | None => 0 end in
    let over_ops := so_op_count_bound (st_opts s) <? match bt_get r (st_acct s) with Some a => ra_op_count a | None => 0 end in
    (if over_bytes || over_ops then flush_ref r;; commit else mret tt);;
    relieve_size_pressure;;
    relieve_staleness (wal_mtime op).

(** ** Lifecycle *)
Definition zero_slot : list Z := replicate (Z.to_nat SB_SIZE) 0.

(** [x?] on a device result: the next step, or the error. *)
Definition dev_step {A : Type} (x : result unit DevError * D) (f : D → outcome (result A StoreError)) : outcome (result A StoreError) :=
  match x with (Ok _, d) => f d | (Err e, _) => Ret (Err (EIo e)) end.

Definition format (dev : D) (opts : StoreOptions) : outcome (result (Store D) StoreError) :=
  match checked_add WAL_OFF (so_wal_len opts) with
  | None => Ret (Err DeviceTooSmall)
  | Some chunk_off =>
      match checked_add chunk_off MIN_CHUNK_REGION with
      | None => Ret (Err DeviceTooSmall)
      | Some min_dev =>
          if dev_len dev <=? min_dev then Ret (Err DeviceTooSmall)
          else
            dev_step (dev_write SB_A_OFF zero_slot dev) (λ dev,
            dev_step (dev_write SB_B_OFF zero_slot dev) (λ dev,
            dev_step (dev_flush dev) (λ dev,
              let chunks := MkCs dev chunk_off 0 1 [] [] [] (0, 0) None [] in
              let table := RefTable_default in
              let '(rt_hash, chunks) := put (RefTable_encode table) chunks in
              match cs_io_error chunks with
              | Some e => Ret (Err (EIo e))
              | None =>
                  match write_index_frame hash_of chunks with
                  | Panic => Panic
                  | NoFuel => NoFuel
                  | Ret (Err e, _) => Ret (Err e)
                  | Ret (Ok (index_extent, free), chunks) =>
                      let chunks := with_index_extent index_extent (with_free free chunks) in
                      dev_step (dev_flush (cs_dev chunks)) (λ dev,
                        let sb := MkSb 1 rt_hash 0 1 (so_wal_len opts) (cs_tail chunks) index_extent.1 in
                        dev_step (dev_write SB_A_OFF (Superblock_encode hash_of sb) dev) (λ dev,
                        dev_step (dev_flush dev) (λ dev,
                          Ret (Ok (MkStore (with_dev dev chunks) opts sb false table [] [] [] 0 1 [] 0 [])))))
                  end
              end)))
      end
  end.

(** ** Mount *)
Definition rotate_left (k : Z) (l : list Z) : list Z := drop (Z.to_nat k) l ++ take (Z.to_nat k) l.

Definition to_phys (sb : Superblock) (rotated : Z) : Z :=
  if sb_wal_len sb =? 0 then 0 else (sb_wal_head sb + rotated) mod sb_wal_len sb.

Definition entry_in_bounds (sb : Superblock) (e : IndexEntry) : bool :=
  negb ((ie_off e <? CHUNK_HEADER) || match checked_add (ie_off e) (ie_len e) with None => true | Some end_ => sb_chunk_tail sb <? end_ end).
Definition extent_in_bounds (sb : Superblock) (x : Z * Z) : bool :=
  negb match checked_add x.1 x.2 with None => true | Some end_ => sb_chunk_tail sb <? end_ end.

(** One operation of the log: its extent is checked, it is applied and accounted for. *)
Definition replay_op (sb : Superblock) (op : WalOp) (r : RecMeta) : eng D unit :=
  limit ← asks (λ s, region_len (st_chunks s));
  (match op with
   | Write _ _ offset _ data =>
       match checked_add offset (len_z data) with
       | None => fail_with (Corrupt "wal record extent out of range")
       | Some end_ => if limit <? end_ then fail_with (Corrupt "wal record extent out of range") else mret tt
       end
   | _ => mret tt
   end);;
  apply_to_overlay op;;
  let phys := to_phys sb (rm_off r) in
  account_op op phys;;
  update (λ s, set_wal_records (st_wal_records s ++ [MkRec (rm_seq r) phys (wal_ref_name op) false]) s).
Definition replay_record (sb : Superblock) (wal : list Z) (r : RecMeta) : eng D unit :=
  match decode_record hash_of (drop (Z.to_nat (rm_off r)) wal) with
  | None => λ _, Panic
  | Some (_, op, _) => replay_op sb op r
  end.

(** The superblock a mount trusts, and its slot. *)
Definition live_superblock (dev : D) : result (Superblock * bool) StoreError :=
  match dev_read dev SB_A_OFF SB_SIZE, dev_read dev SB_B_OFF SB_SIZE with
  | Err e, _ | _, Err e => Err (EIo e)
  | Ok buf_a, Ok buf_b =>
      let ra := decode_checked hash_of buf_a in
      let rb := decode_checked hash_of buf_b in
      let gen r := match r with Ok sb => sb_generation sb | Err _ => 0 end in
      let valid r := match r with Ok _ => true | Err _ => false end in
      match pick_survivor (gen ra) (valid ra) (gen rb) (valid rb), ra, rb with
      | SlotA, Ok sb, _ => Ok (sb, false)
      | SlotB, _, Ok sb => Ok (sb, true)
      | _, Err (WrongVersion v), _ | _, _, Err (WrongVersion v) => Err (UnsupportedVersion v)
      | _, _, _ => Err NoSuperblock
      end
  end.

(** The durable index the superblock points at: the chunk store it describes. *)
Definition load_index (dev : D) (sb : Superblock) (birth_gen : Z) : result (ChunkStore D) StoreError :=
  let chunk_off := WAL_OFF + sb_wal_len sb in
  match dev_read dev (chunk_off + sb_index_off sb) CHUNK_HEADER with
  | Err e => Err (EIo e)
  | Ok header =>
      match decode_chunk_header header with
      | None => Err (Corrupt "bad index frame")
      | Some (ilen, _, ihash) =>
          let frame_len := CHUNK_HEADER + ilen in
          if match checked_add (sb_index_off sb) frame_len with None => true | Some end_ => sb_chunk_tail sb <? end_ end
          then Err (Corrupt "index frame overruns committed tail")
          else
            match dev_read dev (chunk_off + sb_index_off sb + CHUNK_HEADER) ilen with
            | Err e => Err (EIo e)
            | Ok payload =>
                if negb (bool_decide (hash_of payload = ihash)) then Err (Corrupt "index frame hash mismatch")
                else
                  match decode_index payload with
                  | Err e => Err (EFormat e)
                  | Ok (index, free) =>
                      if negb (forallb (λ x, entry_in_bounds sb x.2) index) then Err (Corrupt "index entry out of bounds")
                      else if negb (forallb (extent_in_bounds sb) free) then Err (Corrupt "free extent out of bounds")
                      else Ok (MkCs dev chunk_off (sb_chunk_tail sb) birth_gen index free [] (sb_index_off sb, frame_len) None [])
                  end
            end
      end
  end.

(** Replay the log into a store whose chunks and table are loaded. *)
Definition replay_wal (store : Store D) : outcome (result (Store D) StoreError) :=
  let sb := st_sb store in
  match dev_read (cs_dev (st_chunks store)) WAL_OFF (sb_wal_len sb) with
  | Err e => Ret (Err (EIo e))
  | Ok wal =>
      let wal := rotate_left (sb_wal_head sb) wal in
      match recover_records hash_of wal 0 (sb_wal_next_seq sb) with
      | None => NoFuel
      | Some recovered =>
          match each (rc_records recovered) (replay_record sb wal) store with
          | Panic => Panic
          | NoFuel => NoFuel
          | Ret (Err e, _) => Ret (Err e)
          | Ret (Ok _, store) =>
              if rc_forged_max recovered then Ret (Err (Corrupt "wal sequence exhausted"))
              else Ret (Ok (set_wal_seq (rc_next_seq recovered) (set_wal_tail (to_phys sb (rc_end_off recovered)) store)))
          end
      end
  end.

(** The store a superblock, its chunk store and its ref table describe, before replay. *)
Definition committed_store (chunks : ChunkStore D) (opts : StoreOptions) (sb : Superblock) (sb_in_b : bool) (table : RefTable) : Store D :=
  MkStore chunks (opts_with_wal_len (sb_wal_len sb) opts) sb sb_in_b table [] [] [] (sb_wal_head sb) (sb_wal_next_seq sb) [] 0 [].

Definition mount (dev : D) (opts : StoreOptions) : outcome (result (Store D) StoreError) :=
  match live_superblock dev with
  | Err e => Ret (Err e)
  | Ok (sb, sb_in_b) =>
      match validate_geometry sb (dev_len dev) with
      | Err e => Ret (Err (Corrupt (geom_message e)))
      | Ok _ =>
          match checked_add (sb_generation sb) 1 with
          | None => Ret (Err (Corrupt "superblock generation exhausted"))
          | Some birth_gen =>
              match load_index dev sb birth_gen with
              | Err e => Ret (Err e)
              | Ok chunks =>
                  match read_object hash_of chunks (sb_ref_table sb) with
                  | Err e => Ret (Err e)
                  | Ok None => Ret (Err (Corrupt "ref table missing"))
                  | Ok (Some rt_bytes) =>
                      match RefTable_decode rt_bytes with
                      | Err e => Ret (Err (EFormat e))
                      | Ok table => replay_wal (committed_store chunks opts sb sb_in_b table)
                      end
                  end
              end
          end
      end
  end.
End engine.
