(* ===== verification/StoreOps.v ===== *)
(** The operations of the storage engine on refs, snapshots, tags, paths and open handles
    ([cas/src/store.rs], [Store]), the garbage collector's sweep and the guarded batch of
    ref-table edits. *)

From stdpp Require Import strings.
From S2P Require Import Prelude Bytes Dev BTree Disk Recovery Prolly ChunkStore Overlay Chunker File Tree Gc Engine.

(** ** Ref-table edits *)

(** [table.snaps.range((r, 0)..(r, u64::MAX))] *)
Definition in_snap_range (ref_name : list Z) (k : list Z * Z) : bool := bool_decide (k.1 = ref_name) && (k.2 <? U64_MAX).
Definition pinned (t : RefTable) (ref_name : list Z) (id : Z) : bool :=
  existsb (λ x : list Z * (list Z * Z), bool_decide (x.2 = (ref_name, id))) (rt_tags t).
Definition with_parent (p : option Z) (r : SnapRow) : SnapRow :=
  MkSnapRow (sn_id r) (sn_root r) (sn_timestamp r) (sn_provenance r) p (sn_message r) (sn_class r).
Definition with_class (c : Z) (r : SnapRow) : SnapRow :=
  MkSnapRow (sn_id r) (sn_root r) (sn_timestamp r) (sn_provenance r) (sn_parent r) (sn_message r) c.
Definition with_message (m : list Z) (r : SnapRow) : SnapRow :=
  MkSnapRow (sn_id r) (sn_root r) (sn_timestamp r) (sn_provenance r) (sn_parent r) m (sn_class r).

(** Drop the row and point its children past it. *)
Definition drop_snapshot (t : RefTable) (ref_name : list Z) (id : Z) : result RefTable StoreError :=
  match bt_get (ref_name, id) (rt_snaps t) with
  | None => Err NoSuchSnapshot
  | Some row =>
      if pinned t ref_name id then Err Pinned
      else
        let snaps := bt_remove (ref_name, id) (rt_snaps t) in
        Ok (set_snaps ((λ x : (list Z * Z) * SnapRow,
          if in_snap_range ref_name x.1 && bool_decide (sn_parent x.2 = Some id) then (x.1, with_parent (sn_parent row) x.2) else x) <$> snaps) t)
  end.

(** [table.snaps.get_mut(..).ok_or(NoSuchSnapshot)?] and the assignment *)
Definition edit_snapshot (t : RefTable) (ref_name : list Z) (id : Z) (f : SnapRow → SnapRow) : result RefTable StoreError :=
  match bt_get (ref_name, id) (rt_snaps t) with
  | None => Err NoSuchSnapshot
  | Some row => Ok (set_snaps (bt_insert (ref_name, id) (f row) (rt_snaps t)) t)
  end.
Definition bad_class : StoreError := EFormat (BadEntry "bad retention class").
Definition has_snapshot (t : RefTable) (ref_name : list Z) (id : Z) : bool := bool_decide (is_Some (bt_get (ref_name, id) (rt_snaps t))).

Definition apply_ref_edit (t : RefTable) (ref_name : list Z) (edit : RefEdit) : result RefTable StoreError :=
  match edit with
  | DeleteSnapshot id => drop_snapshot t ref_name id
  | SetClass id class => if CLASS_EPHEMERAL <? class then Err bad_class else edit_snapshot t ref_name id (with_class class)
  | SetParent id parent =>
      if match parent with Some p => negb (has_snapshot t ref_name p) | None => false end then Err NoSuchSnapshot
      else edit_snapshot t ref_name id (with_parent parent)
  | SetMessage id message => edit_snapshot t ref_name id (with_message message)
  | CreateTag name snap_id =>
      if negb (has_snapshot t ref_name snap_id) then Err NoSuchSnapshot
      else Ok (set_tags (bt_insert name (ref_name, snap_id) (rt_tags t)) t)
  | DeleteTag name =>
      match bt_get name (rt_tags t) with
      | Some (r, _) => if bool_decide (r = ref_name) then Ok (set_tags (bt_remove name (rt_tags t)) t) else Ok t
      | None => Ok t
      end
  end.
(** [for edit in edits { apply_ref_edit(&mut staged, ..)? }] *)
Fixpoint stage_edits (t : RefTable) (ref_name : list Z) (edits : list RefEdit) : result RefTable StoreError :=
  match edits with
  | [] => Ok t
  | e :: rest => match apply_ref_edit t ref_name e with Ok t => stage_edits t ref_name rest | Err x => Err x end
  end.

Section ops.
Context (hash_of : list Z → Hash) {D : Type} `{!BlockDev D}.
#[local] Instance chunk_store_here : NodeStore (ChunkStore D) := ChunkStore_store hash_of.
Implicit Types (s : Store D).

Definition try {A : Type} (r : result A StoreError) : eng D A := λ s, Ret (r, s).
(** [o.unwrap()] *)
Definition unwrap_some {A : Type} (o : option A) : eng D A := λ s, match o with Some a => Ret (Ok a, s) | None => Panic end.

(** ** Refs, snapshots, tags *)
Definition create_ref (name : list Z) : eng D unit :=
  empty_root ← on_chunks (save hash_of Dir_new);
  check_io;;
  update (λ s, set_table (set_ref name (MkRefEntry empty_root 0 1 0) (st_table s)) s);;
  commit hash_of.

Definition snapshots s (ref_name : list Z) : list SnapRow := (List.filter (λ x, in_snap_range ref_name x.1) (rt_snaps (st_table s))).*2.

Definition snapshot (ref_name provenance message : list Z) (class now : Z) : eng D Z :=
  flush_ref hash_of ref_name;;
  entry ← find_ref ref_name;
  let id := re_next_snap_id entry in
  lst ← asks (λ s, (λ r, (sn_id r, sn_timestamp r)) <$> last (snapshots s ref_name));
  let row := MkSnapRow id (re_root entry) (Z.max now (match lst with Some (_, t) => saturating_add t 1 | None => 0 end)) provenance (fst <$> lst) message class in
  update (λ s, set_table (set_snaps (bt_insert (ref_name, id) row (rt_snaps (st_table s))) (st_table s)) s);;
  next ← add64 id 1;
  update (λ s, set_table (set_ref ref_name (MkRefEntry (re_root entry) (re_generation entry) next (re_edit_version entry)) (st_table s)) s);;
  touch_ref ref_name;;
  commit hash_of;;
  mret id.

Definition snapshot_root (ref_name : list Z) (snap_id : Z) : eng D Hash :=
  t ← asks st_table;
  row ← ok_or (bt_get (ref_name, snap_id) (rt_snaps t)) NoSuchSnapshot;
  mret (sn_root row).

Definition rollback (ref_name : list Z) (snap_id : Z) : eng D unit :=
  root ← snapshot_root ref_name snap_id;
  flush_ref hash_of ref_name;;
  entry ← find_ref ref_name;
  update (λ s, set_table (set_ref ref_name (set_root root entry) (st_table s)) s);;
  touch_ref ref_name;;
  commit hash_of.

Definition tag (name ref_name : list Z) (snap_id : Z) : eng D unit :=
  t ← asks st_table;
  if negb (has_snapshot t ref_name snap_id) then fail_with NoSuchSnapshot
  else
    update (λ s, set_table (set_tags (bt_insert name (ref_name, snap_id) (rt_tags (st_table s))) (st_table s)) s);;
    touch_ref ref_name;;
    commit hash_of.

Definition untag (ref_name name : list Z) : eng D unit :=
  t ← asks st_table;
  match bt_get name (rt_tags t) with
  | Some (r, _) =>
      if bool_decide (r = ref_name) then
        update (λ s, set_table (set_tags (bt_remove name (rt_tags (st_table s))) (st_table s)) s);;
        touch_ref ref_name;;
        commit hash_of
      else mret tt
  | None => mret tt
  end.
Definition tags s : list (list Z * list Z * Z) := (λ x : list Z * (list Z * Z), (x.1, x.2.1, x.2.2)) <$> rt_tags (st_table s).

Definition delete_snapshot (ref_name : list Z) (snap_id : Z) : eng D unit :=
  t ← asks st_table;
  t ← try (drop_snapshot t ref_name snap_id);
  update (set_table t);;
  touch_ref ref_name;;
  commit hash_of.

Definition set_snapshot_class (ref_name : list Z) (snap_id class : Z) : eng D unit :=
  if CLASS_EPHEMERAL <? class then fail_with bad_class
  else
    t ← asks st_table;
    t ← try (edit_snapshot t ref_name snap_id (with_class class));
    update (set_table t);;
    touch_ref ref_name;;
    commit hash_of.

Definition apply_batch (ref_name : list Z) (expected_version : Z) (edits : list RefEdit) : eng D Z :=
  entry ← find_ref ref_name;
  let current := re_edit_version entry in
  if negb (current =? expected_version) then fail_with (VersionMismatch current)
  else
    t ← asks st_table;
    staged ← try (stage_edits t ref_name edits);
    update (set_table staged);;
    touch_ref ref_name;;
    commit hash_of;;
    v ← asks (λ s, edit_version s ref_name);
    unwrap_some v.

Definition bump_generation (ref_name : list Z) : eng D unit :=
  entry ← find_ref ref_name;
  g ← add64 (re_generation entry) 1;
  update (λ s, set_table (set_ref ref_name (MkRefEntry (re_root entry) g (re_next_snap_id entry) (re_edit_version entry)) (st_table s)) s);;
  commit hash_of.

(** ** Writes *)

(** One prefix of the path: a file above, or a directory at, the target is refused. *)
Definition check_prefix (root : Hash) (overlay : option Overlay) (path : Path) (i : nat) : eng D unit :=
  let prefix := take i path in
  let is_final := bool_decide (i = length path) in
  match match overlay with Some o => state o prefix | None => Clean end with
  | Dirty _ => if is_final then mret tt else fail_with NotAFile
  | Unlinked => mret tt
  | Clean =>
      e ← tree_lookup hash_of root prefix;
      match e with
      | Some e =>
          match e_kind e with
          | KDir => if is_final then fail_with NotAFile else mret tt
          | KFile => if is_final then mret tt else fail_with NotAFile
          end
      | None => mret tt
      end
  end.
Definition check_names (path : Path) : eng D unit := each path (λ c, try_format (validate_name c)).

Definition validate_mutation_path (ref_name : list Z) (path : Path) : eng D unit :=
  entry ← find_ref ref_name;
  match path with
  | [] => fail_with (EFormat BadName)
  | _ =>
      check_names path;;
      overlay ← asks (λ s, overlay_of s ref_name);
      each (seq 1 (length path)) (check_prefix (re_root entry) overlay path)
  end.

Definition store_write (ref_name : list Z) (path : Path) (offset : Z) (data : list Z) (mtime : Z) : eng D unit :=
  validate_mutation_path ref_name path;;
  end_ ← ok_or (checked_add offset (len_z data)) WriteOutOfRange;
  limit ← asks (λ s, region_len (st_chunks s));
  if limit <? end_ then fail_with WriteOutOfRange
  else log_then_apply hash_of (Write ref_name path offset mtime data).

Definition store_unlink (ref_name : list Z) (path : Path) (mtime : Z) : eng D unit :=
  validate_mutation_path ref_name path;;
  log_then_apply hash_of (Unlink ref_name path mtime).

Definition is_prefix (from to : Path) : bool := bool_decide (length from < length to)%nat && bool_decide (take (length from) to = from).

(** Whether the source is a directory: a dirty file is not, otherwise the tree says. *)
Definition rename_source_is_dir (ref_name : list Z) (root : Hash) (from : Path) : eng D bool :=
  live_file ← asks (λ s, match overlay_of s ref_name with Some o => contains_file o from | None => false end);
  if (live_file : bool) then mret false
  else
    e ← tree_lookup hash_of root from;
    match e with Some e => mret (bool_decide (e_kind e = KDir)) | None => fail_with NotFound end.
(** A directory moves only to a name nothing has. *)
Definition rename_dir_target_free (ref_name : list Z) (root : Hash) (to : Path) : eng D unit :=
  in_tree ← tree_lookup hash_of root to;
  in_overlay ← asks (λ s, match overlay_of s ref_name with Some o => match state o to with Clean => false | _ => true end | None => false end);
  if bool_decide (is_Some in_tree) || in_overlay then fail_with NotAFile else mret tt.

Definition store_rename (ref_name : list Z) (from to : Path) (mtime : Z) : eng D unit :=
  if bool_decide (from = []) || bool_decide (to = []) then fail_with (EFormat BadName)
  else
    check_names (from ++ to);;
    if bool_decide (from = to) then mret tt
    else if is_prefix from to then fail_with NotAFile
    else
      entry ← find_ref ref_name;
      let root := re_root entry in
      is_dir ← rename_source_is_dir ref_name root from;
      validate_mutation_path ref_name to;;
      (if (is_dir : bool) then rename_dir_target_free ref_name root to else mret tt);;
      let op := Rename ref_name from to mtime in
      if (is_dir : bool) then
        flush_ref hash_of ref_name;;
        commit hash_of;;
        log_then_apply hash_of op;;
        flush_ref hash_of ref_name;;
        commit hash_of
      else log_then_apply hash_of op.

(** ** Reads *)
Definition read_from_tree (root : Hash) (path : Path) : eng D (option (list Z)) :=
  e ← tree_lookup hash_of root path;
  match e with
  | None => mret None
  | Some e =>
      match e_kind e with
      | KDir => fail_with NotAFile
      | KFile =>
          c ← asks st_chunks;
          b ← try_format (read_file c (e_content e) (e_size e));
          mret (Some b)
      end
  end.
Definition read_at_root (root : Hash) (path : Path) : eng D (option (list Z)) := read_from_tree root path.
Definition lookup_at_root (root : Hash) (path : Path) : eng D (option Entry) := tree_lookup hash_of root path.

Definition store_read (ref_name : list Z) (path : Path) : eng D (option (list Z)) :=
  entry ← find_ref ref_name;
  st ← asks (λ s, match overlay_of s ref_name with Some o => state o path | None => Clean end);
  match st with
  | Unlinked => mret None
  | Clean => read_from_tree (re_root entry) path
  | Dirty fo =>
      base ←
        (if fo_fresh fo then mret []
         else
           b ← read_from_tree (re_root entry) (default path (fo_origin fo));
           mret (default [] b));
      mret (Some (apply fo base))
  end.

Definition dir_rows (d : Dir) : list (list Z * EntryKind * Z) := (λ x : list Z * Entry, (e_name x.2, e_kind x.2, e_size x.2)) <$> d.
Definition list_dir_node (node : Hash) : eng D (list (list Z * EntryKind * Z)) :=
  d ← load_dir hash_of node;
  mret (dir_rows d).

(** The overlay's files over the committed rows. *)
Definition overlay_row (dir_path : Path) (out : list (list Z * EntryKind * Z)) (x : Path * FileOverlay) : list (list Z * EntryKind * Z) :=
  let name := default [] (last x.1) in
  let fo := x.2 in
  let size :=
    if fo_fresh fo then extent fo
    else match List.find (λ r, bool_decide (r.1.1 = name)) out with Some r => Z.max r.2 (extent fo) | None => extent fo end in
  List.filter (λ r, negb (bool_decide (r.1.1 = name))) out ++ [(name, KFile, size)].
Definition drop_unlinked (out : list (list Z * EntryKind * Z)) (p : Path) : list (list Z * EntryKind * Z) :=
  List.filter (λ r, negb (bool_decide (r.1.1 = default [] (last p)))) out.

Definition store_list (ref_name : list Z) (dir_path : Path) : eng D (list (list Z * EntryKind * Z)) :=
  entry ← find_ref ref_name;
  dir_root ←
    match dir_path with
    | [] => mret (Some (re_root entry))
    | _ =>
        e ← tree_lookup hash_of (re_root entry) dir_path;
        match e with
        | Some e => match e_content e with DirRoot h => mret (Some h) | _ => fail_with NotAFile end
        | None => mret None
        end
    end;
  out ← match dir_root with Some root => list_dir_node root | None => mret [] end;
  overlay ← asks (λ s, overlay_of s ref_name);
  mret (ord_sort
    match overlay with
    | Some o => foldl (overlay_row dir_path) (foldl drop_unlinked out (unlinked_in_dir o dir_path)) (files_in_dir o dir_path)
    | None => out
    end).

(** ** Open handles *)
Definition store_open (ref_name : list Z) (path : Path) : eng D FileId :=
  find_ref ref_name;;
  s ← asks (λ s, s);
  let '(id, o, next_id) := open (overlay_or_default s ref_name) path (st_next_file_id s) in
  update (set_next_file_id next_id);;
  put_overlay ref_name o;;
  update (λ s, set_open_files (bt_insert id ref_name (st_open_files s)) s);;
  mret id.

Definition handle_ref (id : FileId) : eng D (list Z) := λ s, ok_or (bt_get id (st_open_files s)) NoSuchHandle s.
Definition handle_name s (ref_name : list Z) (id : FileId) : option Path :=
  match overlay_of s ref_name with Some o => name_of o id | None => None end.

Definition write_id (id : FileId) (offset : Z) (data : list Z) (mtime : Z) : eng D unit :=
  ref_name ← handle_ref id;
  name ← asks (λ s, handle_name s ref_name id);
  match name with
  | Some path => store_write ref_name path offset data mtime
  | None =>
      ok_or (checked_add offset (len_z data)) WriteOutOfRange;;
      o ← asks (λ s, overlay_or_default s ref_name);
      o ← run (write_orphan o id offset data mtime);
      put_overlay ref_name o
  end.

Definition read_id (id : FileId) : eng D (option (list Z)) :=
  ref_name ← handle_ref id;
  name ← asks (λ s, handle_name s ref_name id);
  match name with
  | Some path => store_read ref_name path
  | None =>
      o ← asks (λ s, overlay_of s ref_name);
      mret (Some (match o with Some o => read_orphan o id | None => [] end))
  end.

Definition store_close (id : FileId) : eng D unit :=
  ref_name ← handle_ref id;
  o ← asks (λ s, overlay_of s ref_name);
  fully ←
    match o with
    | Some o => let '(fully, o) := close o id in put_overlay ref_name o;; mret fully
    | None => mret true
    end;
  if fully : bool then update (λ s, set_open_files (bt_remove id (st_open_files s)) s) else mret tt.

(** ** Garbage collection *)
Definition mark_root (live : live_set) (root : Hash) : eng D live_set := λ s,
  match mark (S (length (cs_index (st_chunks s)))) (st_chunks s) root live with
  | None => NoFuel
  | Some (Ok _, live) => Ret (Ok live, s)
  | Some (Err e, _) => Ret (Err (EFormat e), s)
  end.

Definition sweep_entry (freed : Z) (x : Hash * IndexEntry) : eng D Z :=
  off ← sub64 (ie_off x.2) CHUNK_HEADER;
  let frame_len := ie_len x.2 + CHUNK_HEADER in
  update (λ s, set_chunks (with_pending_free (cs_pending_free (st_chunks s) ++ [(off, frame_len)])
    (with_index (bt_remove x.1 (cs_index (st_chunks s))) (st_chunks s))) s);;
  mret (freed + frame_len).

Definition gc : eng D GcStats :=
  sync_all hash_of;;
  s ← asks (λ s, s);
  let epoch := cs_birth_gen (st_chunks s) in
  let roots := ((λ x : list Z * RefEntry, re_root x.2) <$> rt_refs (st_table s)) ++ ((λ x : (list Z * Z) * SnapRow, sn_root x.2) <$> rt_snaps (st_table s)) in
  live ← fold_eng roots (bt_insert (sb_ref_table (st_sb s)) tt []) mark_root;
  let condemned := List.filter (λ x : Hash * IndexEntry, negb (live_has live x.1) && (ie_birth x.2 <? epoch)) (cs_index (st_chunks s)) in
  update (λ s, set_chunks (with_condemned (foldl (λ (m : btree Hash unit) x, bt_insert x.1 tt m) [] condemned) (st_chunks s)) s);;
  freed_bytes ← fold_eng condemned 0 sweep_entry;
  commit hash_of;;
  update (λ s, set_chunks (with_condemned [] (st_chunks s)) s);;
  n ← asks (λ s, Z.of_nat (length (cs_index (st_chunks s))));
  mret (MkGcStats n (Z.of_nat (length condemned)) freed_bytes).

Definition space : eng D SpaceInfo :=
  total ← asks (λ s, region_len (st_chunks s));
  free ← asks (λ s, free_bytes (st_chunks s));
  used ← sub64 total free;
  mret (MkSpace total used free).
End ops.
