(* ===== verification/CommitProofs.v ===== *)
(** What a commit leaves on the device, that a mount reads it back, and that a commit is
    atomic: whatever a crash keeps of its writes, the next mount finds the old commit or the
    new one. *)

From stdpp Require Import strings.
From S2P Require Import Prelude Bytes Dev BTree Disk Recovery Prolly ChunkStore Extents ChunkProofs Overlay Chunker File Tree Gc Engine.

(** ** A commit in an image *)

(** The abstract contents of a commit. *)
Record Commit : Type := MkCommit {
  cm_sb : Superblock; cm_in_b : bool; cm_index : btree Hash IndexEntry; cm_free : btree Z Z; cm_table : RefTable; cm_birth : Z; cm_pad : nat }.

Definition slot_pos (in_b : bool) : Z := if in_b then SB_B_OFF else SB_A_OFF.
Definition cm_payload (m : Commit) : list Z := encode_index (cm_index m) (cm_free m) (cm_pad m).
Definition cm_frame_len (m : Commit) : Z := CHUNK_HEADER + len_z (cm_payload m).
Definition cm_chunk_off (m : Commit) : Z := WAL_OFF + sb_wal_len (cm_sb m).
(** The extents the commit refers to: its index frame and its objects. *)
Definition prot (m : Commit) : list (Z * Z) := (sb_index_off (cm_sb m), cm_frame_len m) :: frames (cm_index m).

Section image.
Context (hash_of : list Z → Hash) `{!HashLaws hash_of}.

Record commit_of (img : list Z) (m : Commit) : Prop := {
  ci_small : len_z img < 2 ^ 32;
  ci_bytes : is_bytes img;
  ci_sb : sb_valid (cm_sb m);
  ci_gen : sb_generation (cm_sb m) < U64_MAX;
  ci_geom : sb_wal_head (cm_sb m) ≤ sb_wal_len (cm_sb m) ∧ cm_chunk_off m + sb_chunk_tail (cm_sb m) ≤ len_z img;
  ci_live : decode_checked hash_of (slice img (slot_pos (cm_in_b m)) SB_SIZE) = Ok (cm_sb m);
  ci_dead : match decode_checked hash_of (slice img (slot_pos (negb (cm_in_b m))) SB_SIZE) with
            | Ok sb => sb_generation sb < sb_generation (cm_sb m)
            | Err _ => True
            end;
  ci_index : index_valid (cm_index m) (cm_free m) (cm_pad m);
  ci_birth : fits_in 8 (cm_birth m);
  ci_frame_end : sb_index_off (cm_sb m) + cm_frame_len m ≤ sb_chunk_tail (cm_sb m);
  ci_frame : slice img (cm_chunk_off m + sb_index_off (cm_sb m)) (cm_frame_len m) = encode_chunk_frame (cm_payload m) (cm_birth m) (hash_of (cm_payload m));
  ci_entry h e : (h, e) ∈ cm_index m → within (sb_chunk_tail (cm_sb m)) (frame_of e) ∧ 0 ≤ ie_len e ∧ object_in hash_of img (cm_chunk_off m) h e;
  ci_free x : x ∈ cm_free m → x.1 + x.2 ≤ sb_chunk_tail (cm_sb m);
  ci_table : reft_valid (cm_table m) ∧ ∃ e, bt_get (sb_ref_table (cm_sb m)) (cm_index m) = Some e ∧
    slice img (cm_chunk_off m + ie_off e) (ie_len e) = RefTable_encode (cm_table m);
}.

Definition reboot (img : list Z) : CrashDev := MkCrash img img [] None.

(** The chunk store a mount builds from the commit. *)
Definition commit_chunks (img : list Z) (m : Commit) : ChunkStore CrashDev :=
  MkCs (reboot img) (cm_chunk_off m) (sb_chunk_tail (cm_sb m)) (sb_generation (cm_sb m) + 1) (cm_index m) (cm_free m) [] (sb_index_off (cm_sb m), cm_frame_len m) None [].

Lemma read_ok img off n : 0 ≤ off → 0 ≤ n → off + n ≤ len_z img → len_z img < 2 ^ 32 → read_bytes img off n = Ok (slice img off n).
Proof.
  intros. unfold read_bytes, access_range, checked_add. rewrite decide_True by (unfold U64_MAX; lia). by rewrite (proj2 (Z.leb_le _ _)) by done.
Qed.

Lemma sb_nonneg sb : sb_valid sb → 0 ≤ sb_generation sb ∧ 0 ≤ sb_wal_head sb ∧ 0 ≤ sb_wal_next_seq sb ∧ 0 ≤ sb_wal_len sb ∧ 0 ≤ sb_chunk_tail sb ∧ 0 ≤ sb_index_off sb.
Proof. intros []. unfold fits_in in *. lia. Qed.

Lemma live_superblock_spec img m : commit_of img m → live_superblock hash_of (reboot img) = Ok (cm_sb m, cm_in_b m).
Proof using Type.
  intros C. pose proof (sb_nonneg _ (ci_sb _ _ C)) as (G1 & G2 & G3 & G4 & G5 & G6). destruct (ci_geom _ _ C) as [Hh Hl]. unfold cm_chunk_off, WAL_OFF in Hl.
  pose proof (ci_small _ _ C) as Hsm. unfold live_superblock. cbn [dev_read CrashDev_dev reboot cd_current].
  rewrite !read_ok by (unfold SB_A_OFF, SB_B_OFF, SB_SIZE; lia).
  pose proof (ci_live _ _ C) as Hlive. pose proof (ci_dead _ _ C) as Hdead. unfold slot_pos in *. unfold pick_survivor. cbv zeta.
  destruct (cm_in_b m); cbn [negb] in *; rewrite Hlive; cbv beta iota zeta.
  - destruct (decode_checked hash_of (slice img SB_A_OFF SB_SIZE)) as [sb|[]]; cbn [andb]; try done. by rewrite (proj2 (Z.leb_gt _ _)) by done.
  - destruct (decode_checked hash_of (slice img SB_B_OFF SB_SIZE)) as [sb|[]]; cbn [andb]; try done. by rewrite (proj2 (Z.leb_le _ _)) by lia.
Qed.

Lemma load_index_spec img m :
  commit_of img m → load_index hash_of (reboot img) (cm_sb m) (sb_generation (cm_sb m) + 1) = Ok (commit_chunks img m).
Proof using HashLaws0.
  intros C. pose proof (sb_nonneg _ (ci_sb _ _ C)) as (G1 & G2 & G3 & G4 & G5 & G6). destruct (ci_geom _ _ C) as [Hh Hl]. pose proof (ci_small _ _ C) as Hsm.
  pose proof (ci_frame_end _ _ C) as He. pose proof (len_z_nonneg (cm_payload m)) as Hp. assert (cm_frame_len m = CHUNK_HEADER + len_z (cm_payload m)) as Hfl by done.
  assert (0 ≤ cm_chunk_off m) as Ho by (unfold cm_chunk_off, WAL_OFF; lia). pose proof (ci_frame _ _ C) as Hf.
  assert (length (hash_of (cm_payload m)) = 32%nat) as Hh32 by apply hash_length. pose proof (frame_length (cm_payload m) (cm_birth m) _ Hh32) as Hlen. rewrite <-Hfl in Hlen.
  unfold load_index. fold (cm_chunk_off m). cbn [dev_read CrashDev_dev reboot cd_current]. rewrite read_ok by (unfold CHUNK_HEADER in *; lia).
  assert (fits_in 4 (len_z (cm_payload m))) as F4. { unfold fits_in. change (256 ^ Z.of_nat 4) with (2 ^ 32). unfold CHUNK_HEADER in *. lia. }
  assert (decode_chunk_header (slice img (cm_chunk_off m + sb_index_off (cm_sb m)) CHUNK_HEADER) = Some (len_z (cm_payload m), cm_birth m, hash_of (cm_payload m))) as ->.
  { pose proof (chunk_header_decode (cm_payload m) (cm_birth m) (hash_of (cm_payload m)) Hh32 F4 (ci_birth _ _ C) []) as Hd. rewrite app_nil_r, <-Hf in Hd.
    assert (∀ x, CHUNK_HEADER ≤ len_z x → decode_chunk_header (take 48 x) = decode_chunk_header x) as Htk.
    { intros x Hx. unfold decode_chunk_header, CHUNK_HEADER, len_z in *. rewrite length_take. rewrite !(proj2 (Z.ltb_ge _ _)) by lia. unfold slice. cbn [orb Z.to_nat Pos.to_nat].
      rewrite !skipn_firstn_comm, !take_take. done. }
    rewrite <-Htk in Hd by (rewrite Hf; unfold CHUNK_HEADER in *; lia). unfold slice in *. rewrite take_take in Hd. replace (48 `min` Z.to_nat (cm_frame_len m))%nat with (Z.to_nat CHUNK_HEADER) in Hd by (unfold CHUNK_HEADER in *; lia). exact Hd. }
  cbv beta iota. rewrite <-Hfl. unfold checked_add at 1. rewrite decide_True by (unfold U64_MAX, CHUNK_HEADER in *; lia). rewrite (proj2 (Z.ltb_ge _ _)) by lia.
  rewrite read_ok by (unfold CHUNK_HEADER in *; lia).
  rewrite (frame_data img (cm_chunk_off m + sb_index_off (cm_sb m)) (cm_payload m) (cm_birth m) (hash_of (cm_payload m)) Hh32) by (rewrite ?Hlen; done || lia).
  rewrite bool_decide_eq_true_2 by done. cbn [negb]. rewrite (index_decode_encode _ _ _ (ci_index _ _ C) : decode_index (cm_payload m) = Ok (cm_index m, cm_free m)).
  assert (forallb (λ x : Hash * IndexEntry, entry_in_bounds (cm_sb m) x.2) (cm_index m) = true) as ->.
  { apply forallb_forall. intros [h e] Hin%list_elem_of_In. destruct (ci_entry _ _ C h e Hin) as (W & Hel & _). unfold within, frame_of, CHUNK_HEADER in W. cbn [fst snd] in W.
    unfold entry_in_bounds, CHUNK_HEADER. cbn [snd]. unfold checked_add. rewrite decide_True by (unfold U64_MAX; lia). rewrite !(proj2 (Z.ltb_ge _ _)) by lia. done. }
  assert (forallb (extent_in_bounds (cm_sb m)) (cm_free m) = true) as ->.
  { apply forallb_forall. intros x Hin%list_elem_of_In. pose proof (ci_free _ _ C x Hin). unfold extent_in_bounds, checked_add. rewrite decide_True by (unfold U64_MAX; lia). rewrite (proj2 (Z.ltb_ge _ _)) by lia. done. }
  done.
Qed.

(** A mount of an image that holds a commit is the replay of its log over that commit. *)
Lemma mount_commit img m opts :
  commit_of img m → mount hash_of (reboot img) opts = replay_wal hash_of (committed_store (commit_chunks img m) opts (cm_sb m) (cm_in_b m) (cm_table m)).
Proof using HashLaws0.
  intros C. pose proof (sb_nonneg _ (ci_sb _ _ C)) as (G1 & G2 & G3 & G4 & G5 & G6). destruct (ci_geom _ _ C) as [Hh Hl]. pose proof (ci_small _ _ C) as Hsm.
  pose proof (ci_frame_end _ _ C) as He. pose proof (len_z_nonneg (cm_payload m)). unfold cm_chunk_off, cm_frame_len in *.
  unfold mount. rewrite (live_superblock_spec _ _ C). unfold validate_geometry.
  assert (dev_len (reboot img) = len_z img) as -> by done.
  rewrite (proj2 (geometry_spec _ _ _ _ (len_z img) G2 G4 G5 G6 ltac:(unfold U64_MAX; lia))) by lia.
  unfold checked_add at 1. pose proof (ci_gen _ _ C). rewrite decide_True by lia. rewrite (load_index_spec _ _ C).
  destruct (ci_table _ _ C) as (Vt & e & Ee & Et). unfold read_object. cbn [commit_chunks cs_index cs_dev cs_chunk_off]. rewrite Ee.
  apply bt_get_elem in Ee; [|apply (ci_index _ _ C)]. destruct (ci_entry _ _ C _ _ Ee) as (W & Hel & Hob). unfold within, frame_of, CHUNK_HEADER in W. cbn [fst snd] in W.
  cbn [dev_read CrashDev_dev reboot cd_current]. rewrite read_ok by (unfold cm_chunk_off, WAL_OFF in *; lia). unfold object_in in Hob. rewrite bool_decide_eq_true_2 by done. cbn [negb]. rewrite Et.
  by rewrite (reft_decode_encode _ Vt).
Qed.

Lemma prot_nonneg img m p : commit_of img m → p ∈ prot m → 0 ≤ p.1.
Proof using Type.
  intros C Hin. unfold prot in Hin. apply elem_of_cons in Hin as [->|Hin]; [apply (sb_nonneg _ (ci_sb _ _ C))|]. unfold frames in Hin. rewrite <-list_fmap_compose in Hin. apply list_elem_of_fmap in Hin as ([h e] & -> & Hin).
  destruct (ci_entry _ _ C h e Hin) as (Wi & _). apply Wi.
Qed.

(** An image that agrees with another where the commit looks holds the same commit. *)
Lemma commit_stable img img' m :
  commit_of img m → is_bytes img' → length img' = length img →
  slice img' (slot_pos (cm_in_b m)) SB_SIZE = slice img (slot_pos (cm_in_b m)) SB_SIZE →
  match decode_checked hash_of (slice img' (slot_pos (negb (cm_in_b m))) SB_SIZE) with Ok sb => sb_generation sb < sb_generation (cm_sb m) | Err _ => True end →
  (∀ p o n, p ∈ prot m → p.1 ≤ o → 0 ≤ n → o + n ≤ p.1 + p.2 → slice img' (cm_chunk_off m + o) n = slice img (cm_chunk_off m + o) n) →
  commit_of img' m.
Proof using Type.
  intros C Hb Hlen Hlive Hdead Hprot. assert (len_z img' = len_z img) as Hl by (unfold len_z; by rewrite Hlen).
  assert (∀ h e, (h, e) ∈ cm_index m → slice img' (cm_chunk_off m + ie_off e) (ie_len e) = slice img (cm_chunk_off m + ie_off e) (ie_len e)) as Hobj.
  { intros h e Hin. destruct (ci_entry _ _ C h e Hin) as (W & Hel & _). unfold within, frame_of, CHUNK_HEADER in W. cbn [fst snd] in W.
    apply (Hprot (frame_of e)); [right; by apply (frame_slot _ h)|unfold frame_of, CHUNK_HEADER; cbn; lia..]. }
  destruct (ci_table _ _ C) as (Vt & e & Ee & Et). split.
  - rewrite Hl. apply (ci_small _ _ C).
  - exact Hb.
  - apply (ci_sb _ _ C).
  - apply (ci_gen _ _ C).
  - rewrite Hl. apply (ci_geom _ _ C).
  - rewrite Hlive. apply (ci_live _ _ C).
  - exact Hdead.
  - apply (ci_index _ _ C).
  - apply (ci_birth _ _ C).
  - apply (ci_frame_end _ _ C).
  - rewrite (Hprot (sb_index_off (cm_sb m), cm_frame_len m)); [apply (ci_frame _ _ C)|by left|cbn; lia| |cbn; lia]. unfold cm_frame_len, CHUNK_HEADER. pose proof (len_z_nonneg (cm_payload m)). lia.
  - intros h e' Hin. destruct (ci_entry _ _ C h e' Hin) as (W & Hel & Ho). split; [exact W|]. split; [exact Hel|]. unfold object_in in *. rewrite (Hobj h e' Hin). exact Ho.
  - apply (ci_free _ _ C).
  - split; [exact Vt|]. exists e. split; [exact Ee|]. rewrite (Hobj _ _ (proj1 (bt_get_elem _ _ _ (iv_entries _ _ _ (ci_index _ _ C))) Ee)). exact Et.
Qed.

(** ** The log in an image *)
Definition log_region (img : list Z) (sb : Superblock) : list Z := rotate_left (sb_wal_head sb) (slice img WAL_OFF (sb_wal_len sb)).

Record log_in (img : list Z) (sb : Superblock) (ops : list WalOp) : Prop := {
  li_log : ∃ tail, log_region img sb = log_of hash_of ops (sb_wal_next_seq sb) ++ tail ∧ log_ends hash_of tail (sb_wal_next_seq sb + Z.of_nat (length ops));
  li_valid : ops_valid ops (sb_wal_next_seq sb);
  li_seq : fits_in 8 (sb_wal_next_seq sb + Z.of_nat (length ops));
}.

(** The store a mount returns for a commit and the operations of its log. *)
Definition mounted (img : list Z) (opts : StoreOptions) (m : Commit) (ops : list WalOp) : outcome (result (Store CrashDev) StoreError) :=
  let sb := cm_sb m in
  let seq := sb_wal_next_seq sb in
  match each (zip ops (metas_of hash_of ops 0 seq)) (λ x, replay_op hash_of sb x.1 x.2) (committed_store (commit_chunks img m) opts sb (cm_in_b m) (cm_table m)) with
  | Panic => Panic
  | NoFuel => NoFuel
  | Ret (Err e, _) => Ret (Err e)
  | Ret (Ok _, s) => Ret (Ok (set_wal_seq (seq + Z.of_nat (length ops)) (set_wal_tail (to_phys sb (Z.of_nat (length (log_of hash_of ops seq)))) s)))
  end.

Lemma each_ext {D A B : Type} (l : list A) (l' : list B) (f : A → eng D unit) (g : B → eng D unit) s :
  length l = length l' → (∀ i a b, l !! i = Some a → l' !! i = Some b → f a = g b) → each l f s = each l' g s.
Proof using Type.
  revert l' s. induction l as [|a l IH]; intros [|b l'] s Hlen Hfg; try done. cbn [each]. unfold mbind, eng_bind. rewrite (Hfg 0%nat a b eq_refl eq_refl).
  destruct (g b s) as [[[u|e] s']| |]; [|done..]. apply IH; [by injection Hlen|]. intros i x y Hx Hy. by apply (Hfg (S i)).
Qed.

Lemma rotate_bytes k l : is_bytes l → is_bytes (rotate_left k l).
Proof using Type. intros. unfold rotate_left. apply is_bytes_app. split; [by apply Forall_drop|by apply Forall_take]. Qed.
Lemma rotate_length k l : length (rotate_left k l) = length l.
Proof using Type. unfold rotate_left. rewrite length_app, length_drop, length_take. lia. Qed.
Lemma slice_is_bytes img p n : is_bytes img → is_bytes (slice img p n).
Proof using Type. intros. unfold slice. by apply Forall_take, Forall_drop. Qed.

Theorem mount_log img m opts ops :
  commit_of img m → log_in img (cm_sb m) ops → mount hash_of (reboot img) opts = mounted img opts m ops.
Proof using HashLaws0.
  intros C [(tail & Hlog & Hend) Hv Hseq]. rewrite (mount_commit _ _ _ C). pose proof (sb_nonneg _ (ci_sb _ _ C)) as (G1 & G2 & G3 & G4 & G5 & G6). destruct (ci_geom _ _ C) as [Hh Hl]. pose proof (ci_small _ _ C) as Hsm.
  unfold replay_wal, mounted. cbv zeta. cbn [committed_store st_sb st_chunks commit_chunks cs_dev dev_read CrashDev_dev reboot cd_current]. rewrite read_ok by (unfold cm_chunk_off, WAL_OFF in *; lia).
  fold (log_region img (cm_sb m)). set (wal := log_region img (cm_sb m)) in *. set (seq := sb_wal_next_seq (cm_sb m)) in *.
  rewrite (recover_log hash_of wal 0 ops tail seq); try done; [|by apply rotate_bytes, slice_is_bytes, C|lia]. cbn [rc_records rc_forged_max rc_end_off rc_next_seq]. rewrite Z.add_0_l.
  erewrite (each_ext _ (zip ops (metas_of hash_of ops 0 seq)) _ (λ x, replay_op hash_of (cm_sb m) x.1 x.2)); [reflexivity| |].
  - rewrite length_zip_with, metas_length. lia.
  - intros i r [op r'] Hr Hz. apply lookup_zip_with_Some in Hz as (op' & r'' & [= -> ->] & Ho & Hr'). assert (r'' = r) as -> by congruence. cbn [fst snd].
    destruct (metas_lookup _ _ _ _ _ _ Hr) as [Es Eo]. unfold replay_record.
    pose proof (log_suffix hash_of ops seq i tail 0 r Hr) as Hsuf. rewrite Z.sub_0_r in Hsuf. rewrite Hlog, Hsuf, (drop_S _ _ _ Ho). cbn [log_of]. rewrite <-app_assoc, Es.
    rewrite decode_encode_record; [done|done|]. by apply Hv.
Qed.
End image.
