(* ===== verification/EngineProofs.v ===== *)
(** The invariant of the running engine, and what its two durable steps do under a crash:
    appending a record to the log, and committing. *)

From stdpp Require Import strings.
From S2P Require Import Prelude Bytes Dev BTree Disk Recovery Prolly ChunkStore Extents ChunkProofs Overlay Chunker File Tree Gc Engine CommitProofs.

Section engine_proofs.
Context (hash_of : list Z → Hash) `{!HashLaws hash_of}.
#[local] Instance chunk_store_proofs : NodeStore (ChunkStore CrashDev) := ChunkStore_store hash_of.
Implicit Types (s : Store CrashDev) (d : CrashDev).

(** ** A crash that touches no committed extent *)

Lemma crash_old d m img :
  dev_ok d → commit_of hash_of (cd_durable d) m →
  (∀ w, w ∈ cd_pending d → cm_chunk_off m ≤ w.1 ∧ ∀ p, p ∈ prot m → disjoint_ext (cm_chunk_off m + p.1, p.2) (w.1, len_z w.2)) →
  crashes (cd_durable d) (cd_pending d) img →
  commit_of hash_of img m ∧ length img = length (cd_durable d) ∧
  ∀ p n, 0 ≤ p → 0 ≤ n → p + n ≤ cm_chunk_off m → slice img p n = slice (cd_durable d) p n.
Proof using Type.
  intros V C Hp Hc. destruct (dk_pending _ V) as [W Wb]. destruct (crashes_frame _ _ _ Hc W) as [Hlen Hfr].
  pose proof (sb_nonneg _ (ci_sb _ _ _ C)) as (G1 & G2 & G3 & G4 & G5 & G6).
  assert (∀ p n, 0 ≤ p → 0 ≤ n → p + n ≤ cm_chunk_off m → slice img p n = slice (cd_durable d) p n) as Hlow.
  { intros p n H1 H2 H3. apply Hfr; [done|done|]. intros w Hw. destruct (Hp w Hw) as [? _]. right. lia. }
  split; [|done]. assert (WAL_OFF ≤ cm_chunk_off m) as Hw by (unfold cm_chunk_off; lia). unfold WAL_OFF in Hw.
  apply (commit_stable hash_of (cd_durable d)); [done| |done| | |].
  - apply (crashes_bytes _ _ _ Hc); [apply (dk_durable _ V)|done].
  - apply Hlow; unfold slot_pos, SB_A_OFF, SB_B_OFF, SB_SIZE; destruct (cm_in_b m); lia.
  - rewrite Hlow by (unfold slot_pos, SB_A_OFF, SB_B_OFF, SB_SIZE; destruct (cm_in_b m); cbn; lia). apply (ci_dead _ _ _ C).
  - intros p o n Hin H1 H2 H3. pose proof (prot_nonneg hash_of _ m p C Hin) as Hp0.
    apply Hfr; [lia|done|]. intros w Hw'. destruct (Hp w Hw') as [_ Hd]. specialize (Hd p Hin). unfold disjoint_ext in Hd. cbn in Hd. lia.
Qed.

Lemma log_in_low img img' m ops :
  commit_of hash_of img m → (∀ p n, 0 ≤ p → 0 ≤ n → p + n ≤ cm_chunk_off m → slice img' p n = slice img p n) →
  log_in hash_of img (cm_sb m) ops → log_in hash_of img' (cm_sb m) ops.
Proof using Type.
  intros C Hlow [H1 H2 H3]. pose proof (sb_nonneg _ (ci_sb _ _ _ C)) as (_ & _ & _ & G4 & _). split; [|done|done]. unfold log_region in *. by rewrite Hlow by (unfold cm_chunk_off, WAL_OFF; lia).
Qed.

(** ** The invariant *)

(** What the engine remembers of a record. *)
Definition rec_of (sb : Superblock) (op : WalOp) (r : RecMeta) : Z * Z * list Z := (rm_seq r, to_phys sb (rm_off r), wal_ref_name op).

Record engine_ok s (m : Commit) (ops : list WalOp) : Prop := {
  eo_space : space_ok hash_of (st_chunks s) (cs_pending_free (st_chunks s) ++ [cs_index_extent (st_chunks s)]);
  eo_error : cs_io_error (st_chunks s) = None;
  eo_hashes : Forall (λ x : Hash * IndexEntry, is_bytes x.1) (cs_index (st_chunks s));
  eo_commit : commit_of hash_of (cd_durable (cs_dev (st_chunks s))) m;
  eo_sb : st_sb s = cm_sb m ∧ st_sb_in_b s = cm_in_b m;
  eo_off : cs_chunk_off (st_chunks s) = cm_chunk_off m;
  eo_birth : sb_generation (cm_sb m) ≤ cs_birth_gen (st_chunks s) ≤ sb_generation (cm_sb m) + 1;
  eo_shield : shielded (prot m) (st_chunks s);
  eo_wal_len : so_wal_len (st_opts s) = sb_wal_len (cm_sb m);
  eo_log : log_in hash_of (cd_durable (cs_dev (st_chunks s))) (cm_sb m) ops;
  eo_records : (λ r, (rm_seq r, rm_off r, rm_ref r)) <$> st_wal_records s =
    (λ x, rec_of (cm_sb m) x.1 x.2) <$> zip ops (metas_of hash_of ops 0 (sb_wal_next_seq (cm_sb m)));
  eo_tail : st_wal_tail s = to_phys (cm_sb m) (Z.of_nat (length (log_of hash_of ops (sb_wal_next_seq (cm_sb m)))));
  eo_seq : st_wal_seq s = sb_wal_next_seq (cm_sb m) + Z.of_nat (length ops);
}.

(** Any crash of a running engine leaves its commit and its log. *)
Lemma crash_running s m ops img :
  engine_ok s m ops → crashes (cd_durable (cs_dev (st_chunks s))) (cd_pending (cs_dev (st_chunks s))) img →
  commit_of hash_of img m ∧ log_in hash_of img (cm_sb m) ops.
Proof using Type.
  intros V Hc. destruct (crash_old (cs_dev (st_chunks s)) m img) as (C & _ & Hlow); try done; [apply (eo_space _ _ _ V)|apply (eo_commit _ _ _ V)| |].
  - intros w Hw. rewrite <-(eo_off _ _ _ V). by apply (sh_pending _ _ (eo_shield _ _ _ V)).
  - split; [done|]. apply (log_in_low (cd_durable (cs_dev (st_chunks s)))); [apply (eo_commit _ _ _ V)|done|apply (eo_log _ _ _ V)].
Qed.

(** ** Ring positions *)

Lemma rotate_app X Y k : k = Z.of_nat (length X) → rotate_left k (X ++ Y) = Y ++ X.
Proof using Type. intros ->. unfold rotate_left. by rewrite Nat2Z.id, drop_app_length, take_app_length. Qed.

Lemma rotate_rotate h o R :
  0 ≤ h ≤ Z.of_nat (length R) → 0 ≤ o < Z.of_nat (length R) →
  rotate_left ((h + o) mod Z.of_nat (length R)) R = rotate_left o (rotate_left h R).
Proof using Type.
  intros Hh Ho. assert (∃ A B, R = A ++ B ∧ Z.of_nat (length A) = h) as (A & B & -> & HA).
  { exists (take (Z.to_nat h) R), (drop (Z.to_nat h) R). rewrite take_drop, length_take. split; [done|lia]. }
  rewrite (rotate_app A B h) by done. rewrite length_app in *. destruct (Z.lt_ge_cases (h + o) (Z.of_nat (length A + length B))) as [Hlt|Hge].
  - rewrite Z.mod_small by lia. assert (∃ B1 B2, B = B1 ++ B2 ∧ Z.of_nat (length B1) = o) as (B1 & B2 & -> & HB).
    { exists (take (Z.to_nat o) B), (drop (Z.to_nat o) B). rewrite take_drop, length_take. split; [done|lia]. }
    rewrite app_assoc, rotate_app by (rewrite length_app; lia). rewrite <-(app_assoc B1), (rotate_app B1) by done. by rewrite <-app_assoc.
  - assert ((h + o) mod Z.of_nat (length A + length B) = h + o - Z.of_nat (length A + length B)) as -> by (symmetry; apply Z.mod_unique_pos with (q := 1); lia).
    remember (h + o - Z.of_nat (length A + length B)) as k eqn:Ek. assert (∃ A1 A2, A = A1 ++ A2 ∧ Z.of_nat (length A1) = k) as (A1 & A2 & -> & Hk).
    { exists (take (Z.to_nat k) A), (drop (Z.to_nat k) A). rewrite take_drop, length_take. split; [done|lia]. }
    rewrite <-app_assoc, rotate_app by done.
    rewrite (app_assoc B A1 A2), rotate_app; [by rewrite <-app_assoc|]. rewrite !length_app in *. lia.
Qed.

(** A record of the log is its header and more. *)
Lemma log_length_pos op ops seq : (48 ≤ length (log_of hash_of (op :: ops) seq))%nat.
Proof using HashLaws0. cbn [log_of]. rewrite length_app, (encode_record_length hash_of). lia. Qed.

(** The log from the [n]-th record on, seen from that record. *)
Lemma log_from img sb ops n r tail :
  len_z img < 2 ^ 32 → sb_valid sb → sb_wal_head sb ≤ sb_wal_len sb → WAL_OFF + sb_wal_len sb ≤ len_z img →
  log_region img sb = log_of hash_of ops (sb_wal_next_seq sb) ++ tail →
  metas_of hash_of ops 0 (sb_wal_next_seq sb) !! n = Some r →
  0 ≤ to_phys sb (rm_off r) < sb_wal_len sb ∧
  rotate_left (to_phys sb (rm_off r)) (slice img WAL_OFF (sb_wal_len sb)) =
    log_of hash_of (drop n ops) (sb_wal_next_seq sb + Z.of_nat n) ++ tail ++ log_of hash_of (take n ops) (sb_wal_next_seq sb).
Proof using HashLaws0.
  intros Hsm V Hh Hl Hlog Hr. pose proof (sb_nonneg _ V) as (G1 & G2 & G3 & G4 & G5 & G6). pose proof (lookup_lt_Some _ _ _ Hr) as Hn. rewrite metas_length in Hn.
  destruct (metas_lookup _ _ _ _ _ _ Hr) as [_ Eo]. rewrite Z.add_0_l in Eo. set (seq := sb_wal_next_seq sb) in *. set (R := slice img WAL_OFF (sb_wal_len sb)) in *.
  assert (Z.of_nat (length R) = sb_wal_len sb) as HR by (unfold R; rewrite slice_length; unfold len_z, WAL_OFF in *; lia).
  assert (length R = length (log_of hash_of ops seq) + length tail)%nat as HL by (rewrite <-length_app, <-Hlog; unfold log_region; by rewrite rotate_length).
  pose proof (log_split hash_of ops seq n ltac:(lia)) as Hs. pose proof (f_equal length Hs) as Hsl. rewrite length_app in Hsl.
  destruct (drop n ops) as [|op rest] eqn:Ed; [apply (f_equal length) in Ed; rewrite length_drop in Ed; cbn in Ed; lia|]. pose proof (log_length_pos op rest (seq + Z.of_nat n)) as Hpos.
  unfold to_phys. rewrite (proj2 (Z.eqb_neq _ _)) by lia. split; [apply Z.mod_pos_bound; lia|]. rewrite <-HR, rotate_rotate by lia.
  change (rotate_left (sb_wal_head sb) R) with (log_region img sb). rewrite Hlog, Hs. unfold rotate_left. rewrite Eo, Nat2Z.id, <-app_assoc. by rewrite drop_app_length, take_app_length, <-app_assoc.
Qed.

(** ** Advancing the head on the ring *)

Lemma metas_drop n ops off seq :
  drop n (metas_of hash_of ops off seq) = metas_of hash_of (drop n ops) (off + Z.of_nat (length (log_of hash_of (take n ops) seq))) (seq + Z.of_nat n).
Proof using Type.
  revert ops off seq. induction n as [|n IH]; intros ops off seq; [by rewrite !drop_0; cbn; rewrite !Z.add_0_r|].
  destruct ops as [|op ops]; [done|]. cbn [metas_of drop take log_of]. rewrite IH, length_app. f_equal; lia.
Qed.
Lemma metas_shift ops off k seq : metas_of hash_of ops (off + k) seq = (λ r, MkRec (rm_seq r) (rm_off r + k) (rm_ref r) (rm_flushed r)) <$> metas_of hash_of ops off seq.
Proof using Type.
  revert off seq. induction ops as [|op ops IH]; intros off seq; cbn [metas_of fmap list_fmap]; [done|]. f_equal. rewrite <-IH. f_equal. lia.
Qed.

(** The superblock fields a commit takes from the log. *)
Definition moved_head (sb : Superblock) (a : HeadAdvance) (sb' : Superblock) : Prop :=
  sb_wal_head sb' = ha_head a ∧ sb_wal_next_seq sb' = ha_next_seq a ∧ sb_wal_len sb' = sb_wal_len sb.

(** What follows the live records on the ring once the head has moved. *)
Definition stale_bytes s (ops : list WalOp) : list Z :=
  let a := advance_head (st_wal_records s) (st_wal_seq s) in
  drop (length (log_of hash_of (drop (ha_flushed a) ops) (ha_next_seq a))) (rotate_left (ha_head a) (slice (cd_durable (cs_dev (st_chunks s))) WAL_OFF (so_wal_len (st_opts s)))).

(** The record the engine remembers at a position is the one of the log. *)
Lemma record_at s m ops n r :
  engine_ok s m ops → st_wal_records s !! n = Some r →
  ∃ op x, ops !! n = Some op ∧ metas_of hash_of ops 0 (sb_wal_next_seq (cm_sb m)) !! n = Some x ∧ rm_seq r = rm_seq x ∧ rm_off r = to_phys (cm_sb m) (rm_off x).
Proof using Type.
  intros V En. pose proof (f_equal (.!! n) (eo_records _ _ _ V)) as Hn'. rewrite !list_lookup_fmap, En in Hn'. cbn in Hn'. destruct (zip ops _ !! n) as [[op x]|] eqn:Ez; [|done].
  apply lookup_zip_with_Some in Ez as (op' & x' & [= -> ->] & E1 & E2). injection Hn' as H1 H2 H3. by exists op', x'.
Qed.
Lemma records_length s m ops : engine_ok s m ops → length (st_wal_records s) = length ops.
Proof using Type. intros V. pose proof (f_equal length (eo_records _ _ _ V)) as Hrec. rewrite !length_fmap, length_zip_with, metas_length in Hrec. lia. Qed.

(** The tail keeps its place on the ring when the head moves; an emptied log starts over. *)
Lemma advance_tail s m ops sb' :
  engine_ok s m ops → let a := advance_head (st_wal_records s) (st_wal_seq s) in let n := ha_flushed a in
  moved_head (cm_sb m) a sb' →
  match drop n (st_wal_records s) with [] => 0 | _ => st_wal_tail s end = to_phys sb' (Z.of_nat (length (log_of hash_of (drop n ops) (sb_wal_next_seq sb')))).
Proof using Type.
  intros V. cbv zeta. pose proof (records_length _ _ _ V) as Hlen. unfold advance_head. set (n := flushed_prefix (st_wal_records s)). destruct (st_wal_records s !! n) as [r|] eqn:En; intros (M1 & M2 & M3); cbn [ha_flushed ha_head ha_next_seq] in *.
  - pose proof (lookup_lt_Some _ _ _ En) as Hn. destruct (record_at _ _ _ _ _ V En) as (op & x & Eop & Ex & Es & Eo). destruct (metas_lookup _ _ _ _ _ _ Ex) as [Exs Exo]. rewrite (drop_S _ _ _ En). rewrite (eo_tail _ _ _ V).
    rewrite (log_split hash_of ops _ n), length_app by lia. rewrite M2, Es, Exs. unfold to_phys. rewrite M1, M3, Eo. unfold to_phys. rewrite Exo, Z.add_0_l. destruct (Z.eqb_spec (sb_wal_len (cm_sb m)) 0) as [E0|E0]; [done|].
    rewrite Z.add_mod_idemp_l by lia. f_equal. lia.
  - apply lookup_ge_None in En. rewrite !drop_ge by lia. cbn [log_of length]. unfold to_phys. rewrite M1. destruct (sb_wal_len sb' =? 0); [done|]. by rewrite Zmod_0_l.
Qed.

Lemma advance_log s m ops :
  engine_ok s m ops → log_ends hash_of (stale_bytes s ops) (st_wal_seq s) →
  let a := advance_head (st_wal_records s) (st_wal_seq s) in
  let n := ha_flushed a in
  (n ≤ length ops)%nat ∧ ha_next_seq a = sb_wal_next_seq (cm_sb m) + Z.of_nat n ∧ 0 ≤ ha_head a ≤ sb_wal_len (cm_sb m) ∧
  (∀ i r, (i < n)%nat → st_wal_records s !! i = Some r → rm_flushed r = true) ∧
  ∀ sb', moved_head (cm_sb m) a sb' → 0 ≤ sb_wal_len sb' →
    log_in hash_of (cd_durable (cs_dev (st_chunks s))) sb' (drop n ops) ∧
    (λ r, (rm_seq r, rm_off r, rm_ref r)) <$> drop n (st_wal_records s) =
      (λ x, rec_of sb' x.1 x.2) <$> zip (drop n ops) (metas_of hash_of (drop n ops) 0 (sb_wal_next_seq sb')).
Proof using HashLaws0.
  intros V Hst. cbv zeta. set (sb := cm_sb m) in *. set (seq := sb_wal_next_seq sb) in *. pose proof (eo_commit _ _ _ V) as C. pose proof (sb_nonneg _ (ci_sb _ _ _ C)) as (G1 & G2 & G3 & G4 & G5 & G6). fold sb seq in G1, G2, G3, G4, G5, G6.
  destruct (ci_geom _ _ _ C) as [Hh Hl]. pose proof (ci_small _ _ _ C) as Hsm. destruct (eo_log _ _ _ V) as [(tail & Hlog & Hend) Hv Hseq]. fold sb seq in Hlog, Hend, Hv, Hseq.
  pose proof (eo_records _ _ _ V) as Hrec. pose proof (eo_seq _ _ _ V) as Hws. fold sb seq in Hrec, Hws.
  pose proof (records_length _ _ _ V) as Hlen.
  pose proof (flushed_prefix_spec (st_wal_records s)) as (F1 & F2 & F3). unfold stale_bytes in Hst. cbv zeta in Hst. rewrite (eo_wal_len _ _ _ V) in Hst. fold sb in Hst.
  assert (∀ n, (n ≤ length ops)%nat → fits_in 8 (seq + Z.of_nat n + Z.of_nat (length (drop n ops)))) as Hfit. { intros n Hn. rewrite length_drop. by replace (seq + Z.of_nat n + Z.of_nat (length ops - n)) with (seq + Z.of_nat (length ops)) by lia. }
  unfold advance_head in *. set (n := flushed_prefix (st_wal_records s)) in *. destruct (st_wal_records s !! n) as [r|] eqn:En; cbn [ha_flushed ha_head ha_next_seq] in *.
  - pose proof (lookup_lt_Some _ _ _ En) as Hn.
    destruct (record_at _ _ _ _ _ V En) as (op & x & Eop & Ex & Es & Eo). fold sb seq in Ex, Eo.
    destruct (metas_lookup _ _ _ _ _ _ Ex) as [Exs Exo]. rewrite Z.add_0_l in Exo. fold seq in Exs.
    destruct (log_from (cd_durable (cs_dev (st_chunks s))) sb ops n x tail) as [Hb Hrot]; try done; [apply (ci_sb _ _ _ C)|unfold cm_chunk_off in Hl; fold sb in Hl; lia|]. fold seq in Hrot.
    split_and!; [lia|rewrite Es; done|lia|rewrite Eo; lia|done|]. intros sb' (M1 & M2 & M3) _. cbn [ha_head ha_next_seq] in M1, M2. split.
    + split; rewrite M2, Es, Exs.
      * unfold log_region. rewrite M1, M3, Eo, Hrot. eexists. split; [reflexivity|]. rewrite length_drop. replace (seq + Z.of_nat n + Z.of_nat (length ops - n)) with (seq + Z.of_nat (length ops)) by lia.
        rewrite Es, Exs, Eo, Hrot, drop_app_length in Hst. by rewrite <-Hws.
      * by apply ops_valid_drop.
      * apply Hfit. lia.
    + rewrite fmap_drop, Hrec, <-fmap_drop. rewrite M2, Es, Exs. apply list_eq. intros i. rewrite !list_lookup_fmap, lookup_drop, !lookup_zip_with, lookup_drop. rewrite <-(lookup_drop (metas_of hash_of ops 0 seq)), metas_drop, metas_shift, list_lookup_fmap.
      destruct (ops !! (n + i)%nat); [|done]. destruct (metas_of hash_of (drop n ops) 0 (seq + Z.of_nat n) !! i) as [y|]; [|done]. cbn. unfold rec_of. cbn [rm_seq rm_off]. unfold to_phys. rewrite M1, M3, Eo. unfold to_phys. rewrite <-Exo.
      destruct (Z.eqb_spec (sb_wal_len sb) 0) as [E0|E0]; [done|]. rewrite Z.add_mod_idemp_l by lia. repeat (lia || f_equal).
  - apply lookup_ge_None in En. assert (n = length ops) as En' by lia. rewrite En' in *.
    assert (seq + Z.of_nat (length ops) = st_wal_seq s) as Hsq by lia. rewrite Hlen in *. rewrite ?En' in *.
    split_and!; [lia|lia|lia|lia|done|]. intros sb' (M1 & M2 & M3) _. cbn [ha_head ha_next_seq] in M1, M2. rewrite drop_ge by lia. cbn [zip_with fmap list_fmap zip]. split; [|by rewrite drop_ge by lia].
    split; cbn [length]; rewrite M2; rewrite ?Z.add_0_r.
    + unfold log_region. rewrite M1, M3. eexists. cbn [log_of app]. split; [reflexivity|]. rewrite ?Z.add_0_r. cbn [length log_of] in Hst. rewrite (drop_ge ops) in Hst by lia. cbn [log_of length] in Hst. rewrite drop_0 in Hst. exact Hst.
    + by intros i o.
    + rewrite ?Z.add_0_r, <-Hsq. exact Hseq.
Qed.
End engine_proofs.
