(* ===== verification/CommitAtomic.v ===== *)
(** A commit is atomic: [commit] of [cas/src/store.rs], run on a device that may fail at any
    write or flush, then crashed in any way, leaves an image on which a mount finds either
    the commit before it or the new one. *)

From stdpp Require Import strings.
From S2P Require Import Prelude Bytes Dev BTree Disk Recovery Prolly ChunkStore Extents ChunkProofs Overlay Chunker File Tree Gc Engine CommitProofs EngineProofs.

(** ** Total correctness of engine operations *)
Definition ewp {D A : Type} (m : eng D A) (Q : result A StoreError → Store D → Prop) (s : Store D) : Prop :=
  match m s with Ret (r, s') => Q r s' | _ => False end.

Section ewp.
Context {D A B : Type}.
Lemma ewp_bind (m : eng D A) (f : A → eng D B) Q s :
  ewp m (λ r s', match r with Ok a => ewp (f a) Q s' | Err e => Q (Err e) s' end) s → ewp (m ≫= f) Q s.
Proof. unfold ewp, mbind, eng_bind. by destruct (m s) as [[[a|e] s']| |]. Qed.
Lemma ewp_ret (a : A) Q (s : Store D) : Q (Ok a) s → ewp (mret a) Q s.
Proof. done. Qed.
Lemma ewp_asks (f : Store D → A) Q s : Q (Ok (f s)) s → ewp (asks f) Q s.
Proof. done. Qed.
Lemma ewp_update (f : Store D → Store D) Q s : Q (Ok tt) (f s) → ewp (update f) Q s.
Proof. done. Qed.
Lemma ewp_add64 a b Q (s : Store D) : a + b ≤ U64_MAX → Q (Ok (a + b)) s → ewp (add64 a b) Q s.
Proof. intros H. unfold ewp, add64. by rewrite decide_True. Qed.
Lemma ewp_mono (m : eng D A) (Q Q' : result A StoreError → Store D → Prop) s : ewp m Q s → (∀ r s', Q r s' → Q' r s') → ewp m Q' s.
Proof. unfold ewp. destruct (m s) as [[r s']| |]; auto. Qed.
End ewp.

(** ** Torn superblocks *)

Section torn.
Context (hash_of : list Z → Hash) `{!HashLaws hash_of}.

(** The decoder looks at the body and its checksum only. *)
Lemma decode_body a b :
  length a = Z.to_nat SB_SIZE → length b = Z.to_nat SB_SIZE → slice a 0 SB_BODY = slice b 0 SB_BODY →
  checksum_ok hash_of a = true → checksum_ok hash_of b = true → decode_checked hash_of a = decode_checked hash_of b.
Proof using Type.
  intros La Lb E Ca Cb. assert (∀ i, 0 ≤ i < SB_BODY → at_ a i = at_ b i) as Hat.
  { intros i Hi. unfold at_. apply (f_equal (.!! Z.to_nat i)) in E. rewrite !slice_lookup in E. rewrite !decide_True in E by lia. change (Z.to_nat 0) with 0%nat in E. cbn [Nat.add] in E.
    by rewrite !list_lookup_total_alt, E. }
  unfold decode_checked. rewrite La, Lb, Ca, Cb. unfold SB_BODY in Hat.
  assert (magic_ok a = magic_ok b) as -> by (unfold magic_ok; rewrite !Hat by lia; done).
  assert (∀ off, 0 ≤ off → off + 8 ≤ 96 → read_u64_le a off = read_u64_le b off) as H64 by (intros off H1 H2; unfold read_u64_le; rewrite !Hat by lia; done).
  assert (read_u32_le a 8 = read_u32_le b 8) as -> by (unfold read_u32_le; rewrite !Hat by lia; done).
  assert (read_arr32 a 24 = read_arr32 b 24) as -> by (unfold read_arr32; apply list_fmap_ext; intros i x Hx%lookup_seq; apply Hat; lia).
  by rewrite !H64 by lia.
Qed.

Lemma decode_unchecked a : checksum_ok hash_of a = false → ∃ e, decode_checked hash_of a = Err e.
Proof using Type. intros E. unfold decode_checked. rewrite E. destruct (negb (_ =? _)); [eauto|]. destruct (negb (magic_ok a)); eauto. Qed.
Lemma decode_ok_checked a sb : decode_checked hash_of a = Ok sb → checksum_ok hash_of a = true.
Proof using Type. intros E. destruct (checksum_ok hash_of a) eqn:C; [done|]. destruct (decode_unchecked a C) as [e He]. congruence. Qed.

(** A slot of which the first [k] bytes are new. *)
Definition torn_slot (k : nat) (new old : list Z) : list Z := take k new ++ drop k old.

(** A body put together from two superblocks does not match the checksum beside it. *)
Definition torn_refused (new old : list Z) : Prop :=
  ∀ k, (k ≤ Z.to_nat SB_BODY)%nat → checksum_ok hash_of (torn_slot k new old) = true →
    slice (torn_slot k new old) 0 SB_BODY = slice new 0 SB_BODY ∨ torn_slot k new old = old.

Lemma decode_torn k new old sb :
  length new = Z.to_nat SB_SIZE → length old = Z.to_nat SB_SIZE → (k ≤ Z.to_nat SB_SIZE)%nat → torn_refused new old → decode_checked hash_of new = Ok sb →
  let d := decode_checked hash_of (torn_slot k new old) in d = Ok sb ∨ d = decode_checked hash_of old ∨ ∃ e, d = Err e.
Proof using Type.
  intros Ln Lo Hk HT Hn. cbv zeta. set (t := torn_slot k new old). destruct (checksum_ok hash_of t) eqn:Ct; [|right; right; by apply decode_unchecked].
  assert (length t = Z.to_nat SB_SIZE) as Lt by (unfold t, torn_slot; rewrite length_app, length_take, length_drop; lia).
  assert (slice t 0 SB_BODY = slice new 0 SB_BODY ∨ t = old) as [E| ->]; [|left|by right; left].
  - destruct (decide (k ≤ Z.to_nat SB_BODY)%nat) as [Hs|Hs]; [by apply HT|left]. unfold slice, t, torn_slot. cbn [Z.to_nat]. rewrite !drop_0, take_app_le by (rewrite length_take; unfold SB_BODY, SB_SIZE in *; lia).
    rewrite take_take. f_equal. lia.
  - rewrite <-Hn. apply decode_body; try done. by apply (decode_ok_checked new sb).
Qed.
End torn.

(** ** The table a commit writes *)

Definition bump_ref (t : RefTable) (name : list Z) : option RefTable :=
  match bt_get name (rt_refs t) with
  | None => Some t
  | Some e => if decide (re_edit_version e + 1 ≤ U64_MAX) then Some (set_ref name (MkRefEntry (re_root e) (re_generation e) (re_next_snap_id e) (re_edit_version e + 1)) t) else None
  end.
(** Every ref of the list with its edit version one higher; [None] on overflow. *)
Fixpoint bump_refs (names : list (list Z)) (t : RefTable) : option RefTable :=
  match names with [] => Some t | n :: rest => t ← bump_ref t n; bump_refs rest t end.

Lemma bump_each {D : Type} names (s : Store D) t :
  bump_refs names (st_table s) = Some t → each names bump_version s = Ret (Ok tt, set_table t s).
Proof.
  revert s. induction names as [|n names IH]; intros s; cbn [bump_refs each].
  { intros [= <-]. by destruct s. }
  unfold bump_ref, bump_version, mbind, option_bind, eng_bind, asks. destruct (bt_get n (rt_refs (st_table s))) as [e|]; [|by apply IH].
  case_decide as Hv; [|done]. unfold add64. rewrite decide_True by done. cbn [update]. intros Hb. unfold update. exact (IH (set_table _ s) Hb).
Qed.

Section commit.
Context (hash_of : list Z → Hash) `{!HashLaws hash_of}.
#[local] Instance chunk_store_atomic : NodeStore (ChunkStore CrashDev) := ChunkStore_store hash_of.
Implicit Types (s : Store CrashDev).

(** An image on which a mount finds the commit and the operations. *)
Definition holds_commit (img : list Z) (m : Commit) (ops : list WalOp) : Prop := commit_of hash_of img m ∧ log_in hash_of img (cm_sb m) ops.

(** The operations a commit leaves in the log. *)
Definition unflushed s (ops : list WalOp) : list WalOp := drop (ha_flushed (advance_head (st_wal_records s) (st_wal_seq s))) ops.

(** What the code relies on when it commits: the edit versions and the generation do not
    overflow, the ref table is encodable, its digest is its own, no stale record continues
    the log, and a torn superblock does not pass its checksum. *)
Record commit_ready s (m : Commit) (ops : list WalOp) (t : RefTable) : Prop := {
  cr_bump : bump_refs (st_dirty_refs s).*1 (st_table s) = Some t;
  cr_table : reft_valid t ∧ is_bytes (RefTable_encode t);
  cr_gen : sb_generation (cm_sb m) + 2 ≤ U64_MAX;
  cr_clash e : bt_get (hash_of (RefTable_encode t)) (cs_index (st_chunks s)) = Some e →
    slice (cd_current (cs_dev (st_chunks s))) (cs_chunk_off (st_chunks s) + ie_off e) (ie_len e) = RefTable_encode t;
  cr_condemned : cs_condemned (st_chunks s) = [] ∨ bt_get (hash_of (RefTable_encode t)) (cs_index (st_chunks s)) = None;
  cr_stale : log_ends hash_of (stale_bytes hash_of s ops) (st_wal_seq s);
  cr_torn x s' : commit_prepare hash_of s = Ret (Ok x, s') →
    torn_refused hash_of (Superblock_encode hash_of x.1.1) (slice (cd_durable (cs_dev (st_chunks s))) (slot_pos (negb (cm_in_b m))) SB_SIZE);
}.

(** The commit that follows [m]. *)
Record next_commit s (t : RefTable) (m m' : Commit) : Prop := {
  nc_table : cm_table m' = t;
  nc_slot : cm_in_b m' = negb (cm_in_b m);
  nc_gen : sb_generation (cm_sb m') = sb_generation (cm_sb m) + 1;
  nc_head : moved_head (cm_sb m) (advance_head (st_wal_records s) (st_wal_seq s)) (cm_sb m');
  nc_index h e : bt_get h (cs_index (st_chunks s)) = Some e → bt_get h (cm_index m') = Some e;
}.

(** A commit whose superblock is not written yet: it is there once a slot names it. *)
Definition commit_body (img : list Z) (m : Commit) : Prop :=
  ∀ img', is_bytes img' → length img' = length img → (∀ p n, WAL_OFF ≤ p → 0 ≤ n → slice img' p n = slice img p n) →
    decode_checked hash_of (slice img' (slot_pos (cm_in_b m)) SB_SIZE) = Ok (cm_sb m) →
    match decode_checked hash_of (slice img' (slot_pos (negb (cm_in_b m))) SB_SIZE) with Ok sb => sb_generation sb < sb_generation (cm_sb m) | Err _ => True end →
    commit_of hash_of img' m.

(** The state between the two barriers. *)
Record prepared s (t : RefTable) (m : Commit) (ops : list WalOp) (x : Superblock * (Z * Z) * btree Z Z) s' (m' : Commit) : Prop := {
  pp_next : next_commit s t m m';
  pp_sb : cm_sb m' = x.1.1;
  pp_extent : x.1.2 = (sb_index_off (cm_sb m'), cm_frame_len m');
  pp_sb_valid : sb_valid (cm_sb m');
  pp_dev : dev_ok (cs_dev (st_chunks s')) ∧ cd_current (cs_dev (st_chunks s')) = cd_durable (cs_dev (st_chunks s')) ∧ cd_pending (cs_dev (st_chunks s')) = [];
  pp_low p n : 0 ≤ p → 0 ≤ n → p + n ≤ cm_chunk_off m → slice (cd_durable (cs_dev (st_chunks s'))) p n = slice (cd_durable (cs_dev (st_chunks s))) p n;
  pp_old : holds_commit (cd_durable (cs_dev (st_chunks s'))) m ops;
  pp_body : commit_body (cd_durable (cs_dev (st_chunks s'))) m';
  pp_log : log_in hash_of (cd_durable (cs_dev (st_chunks s'))) (cm_sb m') (unflushed s ops);
  pp_store : st_sb s' = st_sb s ∧ st_sb_in_b s' = st_sb_in_b s ∧ st_opts s' = st_opts s ∧ st_table s' = t ∧ st_wal_seq s' = st_wal_seq s;
  pp_records : (λ r, (rm_seq r, rm_off r, rm_ref r)) <$> st_wal_records s' =
    (λ y, rec_of (cm_sb m') y.1 y.2) <$> zip (unflushed s ops) (metas_of hash_of (unflushed s ops) 0 (sb_wal_next_seq (cm_sb m')));
  pp_tail : st_wal_tail s' = to_phys (cm_sb m') (Z.of_nat (length (log_of hash_of (unflushed s ops) (sb_wal_next_seq (cm_sb m')))));
  pp_chunks : ∀ d', dev_ok d' → cd_pending d' = [] → length (cd_durable d') = length (cd_durable (cs_dev (st_chunks s'))) →
    (∀ p n, WAL_OFF ≤ p → 0 ≤ n → slice (cd_current d') p n = slice (cd_current (cs_dev (st_chunks s'))) p n) →
    let c := with_index_extent x.1.2 (with_pending_free [] (with_free x.2 (with_birth_gen (sb_generation (cm_sb m') + 1) (with_dev d' (st_chunks s'))))) in
    space_ok hash_of c [x.1.2] ∧ shielded (prot m') c ∧ cs_chunk_off c = cm_chunk_off m' ∧ cs_io_error c = None ∧
    Forall (λ y : Hash * IndexEntry, is_bytes y.1) (cs_index c);
}.

Lemma log_in_slice img img' sb l : slice img' WAL_OFF (sb_wal_len sb) = slice img WAL_OFF (sb_wal_len sb) → log_in hash_of img sb l → log_in hash_of img' sb l.
Proof using Type. intros E [H1 H2 H3]. split; [|done|done]. unfold log_region in *. by rewrite E. Qed.

(** ** Errors before the superblock *)

(** As long as the durable image is the old one and nothing shielded is pending, the old
    commit survives. *)
Lemma safe_old s m ops (c : ChunkStore CrashDev) :
  engine_ok hash_of s m ops → dev_ok (cs_dev c) → cd_durable (cs_dev c) = cd_durable (cs_dev (st_chunks s)) → cs_chunk_off c = cs_chunk_off (st_chunks s) → shielded (prot m) c →
  ∀ img, crashes (cd_durable (cs_dev c)) (cd_pending (cs_dev c)) img →
    holds_commit img m ops ∧ length img = length (cd_durable (cs_dev (st_chunks s))) ∧
    ∀ p n, 0 ≤ p → 0 ≤ n → p + n ≤ cm_chunk_off m → slice img p n = slice (cd_durable (cs_dev (st_chunks s))) p n.
Proof using Type.
  intros V Vd Ed Eo Sh img Hc. destruct (crash_old hash_of (cs_dev c) m img) as (C & Hl & Hlow); try done.
  - rewrite Ed. apply (eo_commit _ _ _ _ V).
  - intros w Hw. rewrite <-(eo_off _ _ _ _ V), <-Eo. by apply (sh_pending _ _ Sh).
  - rewrite Ed in Hl, Hlow. split_and!; [|done|done]. split; [done|]. apply (log_in_low hash_of (cd_durable (cs_dev (st_chunks s)))); [apply (eo_commit _ _ _ _ V)|done|apply (eo_log _ _ _ _ V)].
Qed.

Lemma pop_chunks n s : st_chunks (pop_records n s) = st_chunks s ∧ st_sb (pop_records n s) = st_sb s ∧ st_sb_in_b (pop_records n s) = st_sb_in_b s ∧
  st_opts (pop_records n s) = st_opts s ∧ st_table (pop_records n s) = st_table s ∧ st_wal_seq (pop_records n s) = st_wal_seq s ∧ st_wal_records (pop_records n s) = drop n (st_wal_records s) ∧
  st_wal_tail (pop_records n s) = match drop n (st_wal_records s) with [] => 0 | _ => st_wal_tail s end.
Proof using Type. unfold pop_records. cbn. destruct (drop n (st_wal_records s)) eqn:E; cbn; by rewrite ?E. Qed.

(** ** The chunk store at barrier 1 *)

(** A chunk store [c4] with a ref table stored and an index frame written, before the barrier. *)
Record frame_set (t : RefTable) (h : Hash) (off need : Z) (new_free : btree Z Z) (c4 : ChunkStore CrashDev) : Prop := {
  fs_hash : h = hash_of (RefTable_encode t);
  fs_space : space_ok hash_of c4 (cs_pending_free c4);
  fs_error : cs_io_error c4 = None;
  fs_hashes : Forall (λ x : Hash * IndexEntry, is_bytes x.1) (cs_index c4);
  fs_table : ∃ e, bt_get h (cs_index c4) = Some e ∧ slice (cd_current (cs_dev c4)) (cs_chunk_off c4 + ie_off e) (ie_len e) = RefTable_encode t;
  fs_new_free : new_free = merge_of (cs_free c4 ++ cs_pending_free c4);
  fs_place : within (cs_tail c4) (off, need) ∧ Forall (disjoint_ext (off, need)) (extents (cs_index c4) (cs_free c4) (cs_pending_free c4));
  fs_payload : ∃ pad, let payload := encode_index (cs_index c4) new_free pad in
    index_valid (cs_index c4) new_free pad ∧ need = CHUNK_HEADER + len_z payload ∧
    slice (cd_current (cs_dev c4)) (cs_chunk_off c4 + off) need = encode_chunk_frame payload (cs_birth_gen c4) (hash_of payload);
}.
(** The same for the chunk store of a running engine. *)
Record framed s (t : RefTable) (m : Commit) (h : Hash) (off need : Z) (new_free : btree Z Z) (c4 : ChunkStore CrashDev) : Prop := {
  fr_set : frame_set t h off need new_free c4;
  fr_base : cs_chunk_off c4 = cs_chunk_off (st_chunks s) ∧ cs_birth_gen c4 = cs_birth_gen (st_chunks s) ∧ cd_durable (cs_dev c4) = cd_durable (cs_dev (st_chunks s));
  fr_index k e : bt_get k (cs_index (st_chunks s)) = Some e → bt_get k (cs_index c4) = Some e;
  fr_shield : shielded (prot m) c4;
}.

(** A written index frame completes the store it was written to. *)
Lemma frame_set_written c t h x nf c4 :
  h = hash_of (RefTable_encode t) → cs_io_error c = None → Forall (λ x : Hash * IndexEntry, is_bytes x.1) (cs_index c) → bt_sorted (cs_index c) →
  (∃ e, bt_get h (cs_index c) = Some e ∧ slice (cd_current (cs_dev c)) (cs_chunk_off c + ie_off e) (ie_len e) = RefTable_encode t) →
  frame_written hash_of c (cs_pending_free c) x.1 x.2 nf c4 → frame_set t h x.1 x.2 nf c4.
Proof using Type.
  intros Eh Hio Hb Hs (e & He1 & He2) [P1 [Q1 Q2 Q3 Q4 Q5 Q6] P3 Psame [Pe _] P5 P6 P7 (pad & I1 & I2 & I3 & I4 & I5)]. rewrite <-Q3 in *.
  split; rewrite ?P3; [done|done|by rewrite Pe|done| |done|done|].
  - exists e. split; [done|]. rewrite Q1, <-He2. apply (Psame h e). by apply bt_get_elem.
  - exists pad. rewrite Q1, Q2. done.
Qed.

Lemma put_table s m ops t h c2 :
  engine_ok hash_of s m ops → commit_ready s m ops t → chunk_put hash_of (RefTable_encode t) (st_chunks s) = (h, c2) →
  space_ok hash_of c2 (cs_pending_free (st_chunks s) ++ [cs_index_extent (st_chunks s)]) ∧ put_frame (st_chunks s) c2 ∧ shielded (prot m) c2 ∧ h = hash_of (RefTable_encode t) ∧
  (∀ k e, bt_get k (cs_index (st_chunks s)) = Some e → bt_get k (cs_index c2) = Some e) ∧ Forall (λ x : Hash * IndexEntry, is_bytes x.1) (cs_index c2) ∧
  (cs_io_error c2 = None → ∃ e, bt_get h (cs_index c2) = Some e ∧ slice (cd_current (cs_dev c2)) (cs_chunk_off c2 + ie_off e) (ie_len e) = RefTable_encode t).
Proof using HashLaws0.
  intros V R E. destruct (chunk_put_spec hash_of _ _ _ _ _ (eo_space _ _ _ _ V) (proj2 (cr_table _ _ _ _ R)) E) as (Eh & V2 & F & Sh & Hk & Hio & Hhit & Hnew).
  assert (∀ e, bt_get h (cs_index (st_chunks s)) = Some e → c2 = st_chunks s) as Hsame.
  { intros e He. destruct (cr_condemned _ _ _ _ R) as [Hc|Hc]; [by apply (Hhit e)|]. rewrite <-Eh in Hc. congruence. }
  split; [done|]. split; [done|]. split; [apply Sh, V|]. split; [done|]. split; [|split].
  - intros k e He. destruct (decide (k = h)) as [->|Hne]; [|by rewrite Hk]. by rewrite (Hsame e He).
  - apply Forall_forall. intros [k e] Hin. cbn. apply bt_get_elem in Hin; [|apply V2]. destruct (decide (k = h)) as [->|Hne]; [rewrite Eh; apply hash_bytes|]. rewrite Hk in Hin by done.
    apply bt_get_elem in Hin; [|apply (eo_space _ _ _ _ V)]. pose proof (eo_hashes _ _ _ _ V) as Hall. rewrite Forall_forall in Hall. by apply (Hall (k, e)).
  - intros Hn. destruct (Hio Hn) as [e He]. exists e. split; [done|]. rewrite (pf_off _ _ F). destruct (bt_get h (cs_index (st_chunks s))) as [e0|] eqn:E0; [|by apply Hnew].
    rewrite (Hsame e0 eq_refl) in He |- *. apply (cr_clash _ _ _ _ R). by rewrite <-Eh.
Qed.

Lemma frame_table s m ops t h c2 r c4 :
  engine_ok hash_of s m ops → commit_ready s m ops t → chunk_put hash_of (RefTable_encode t) (st_chunks s) = (h, c2) → cs_io_error c2 = None →
  write_index_frame hash_of (with_pending_free (cs_pending_free c2 ++ [cs_index_extent c2]) c2) = Ret (r, c4) →
  match r with
  | Ok (x, new_free) => framed s t m h x.1 x.2 new_free c4
  | Err _ => dev_ok (cs_dev c4) ∧ cd_durable (cs_dev c4) = cd_durable (cs_dev (st_chunks s)) ∧ cs_chunk_off c4 = cs_chunk_off (st_chunks s) ∧ shielded (prot m) c4
  end.
Proof using HashLaws0.
  intros V R E Hio Hw. destruct (put_table _ _ _ _ _ _ V R E) as (V2 & F & Sh & Eh & Hk & Hb & Ht). specialize (Ht Hio). rewrite (pf_pending _ _ F), (pf_extent _ _ F) in Hw.
  set (c3 := with_pending_free _ c2) in Hw. assert (space_ok hash_of c3 (cs_pending_free c3)) as V3. { destruct V2. by split. }
  assert (shielded (prot m) c3) as Sh3. { destruct Sh. by split. }
  destruct (write_index_frame_spec hash_of c3 V3 Hb) as (r' & c4' & Hw' & Hpost). rewrite Hw in Hw'. injection Hw' as <- <-. destruct r as [[x nf]|e].
  - pose proof (fw_frame _ _ _ _ _ _ _ Hpost) as P2. split.
    + apply (frame_set_written c3); try done. apply V2.
    + rewrite (pf_off _ _ P2), (pf_birth _ _ P2), (pf_durable _ _ P2). cbn [c3 with_pending_free cs_chunk_off cs_birth_gen cs_dev]. split_and!; apply F.
    + intros k e He. rewrite (fw_index _ _ _ _ _ _ _ Hpost). by apply Hk.
    + by apply (fw_shield _ _ _ _ _ _ _ Hpost).
  - destruct Hpost as (P1 & P2 & P3 & P4 & P5). split_and!; [apply P1| | |by apply P5]; [rewrite (pf_durable _ _ P2)|rewrite (pf_off _ _ P2)]; cbn; apply F.
Qed.

(** ** Between the barriers *)

Lemma merge_placed c4 nf (off need : Z) :
  space_ok hash_of c4 (cs_pending_free c4) → nf = merge_of (cs_free c4 ++ cs_pending_free c4) → 0 < need →
  Forall (disjoint_ext (off, need)) (extents (cs_index c4) (cs_free c4) (cs_pending_free c4)) → within (cs_tail c4) (off, need) →
  bt_sorted nf ∧ apart (extents (cs_index c4) nf [(off, need)]) ∧ Forall (within (cs_tail c4)) (extents (cs_index c4) nf [(off, need)]) ∧
  ∀ p f, p ∈ (off, need) :: frames (cs_index c4) → f ∈ nf → disjoint_ext p f.
Proof using Type.
  intros V -> Hn Hd Hw. pose proof (sp_apart _ _ _ V) as Ap. pose proof (sp_within _ _ _ V) as Wi. unfold extents in *. apply apart_app in Ap as (A1 & A2 & A3). apply Forall_app in Wi as [W1 W2].
  apply Forall_app in Hd as [D1 D2]. destruct (merge_spec _ _ A2 W2) as (Ms & Ma & Mw & _ & Mo).
  assert (∀ p f, p ∈ (off, need) :: frames (cs_index c4) → f ∈ merge_of (cs_free c4 ++ cs_pending_free c4) → disjoint_ext p f) as Hpf.
  { intros p f Hp Hf. assert (0 < p.2 ∧ Forall (disjoint_ext p) (cs_free c4 ++ cs_pending_free c4)) as [H1 H2].
    { apply elem_of_cons in Hp as [->|Hp]; [done|]. rewrite Forall_forall in W1. split; [apply (W1 p Hp)|]. apply Forall_forall. intros y Hy. by apply A3. }
    specialize (Mo p H1 H2). rewrite Forall_forall in Mo. by apply Mo. }
  split_and!; [done| | |done].
  - apply apart_app. split_and!; [done| |].
    + apply apart_app. split_and!; [done|by split; [constructor|]|]. intros x y Hx [->|?%elem_of_nil]%elem_of_cons; [|done]. apply disjoint_ext_sym, Hpf; [by left|done].
    + intros x y Hx [Hy|[->|?%elem_of_nil]%elem_of_cons]%elem_of_app; [apply Hpf; [by right|done]| |done]. rewrite Forall_forall in D1. by apply disjoint_ext_sym, D1.
  - apply Forall_app. split; [done|]. apply Forall_app. split; [done|by apply Forall_singleton].
Qed.

(** The commit such a store holds once a superblock names it. *)
Lemma frame_set_body t h off need nf c4 sb in_b :
  reft_valid t → frame_set t h off need nf c4 → sb_valid sb → sb_generation sb < U64_MAX → sb_wal_head sb ≤ sb_wal_len sb →
  sb_ref_table sb = h → sb_chunk_tail sb = cs_tail c4 → sb_index_off sb = off → cs_chunk_off c4 = WAL_OFF + sb_wal_len sb →
  ∃ pad, let m' := MkCommit sb in_b (cs_index c4) nf t (cs_birth_gen c4) pad in need = cm_frame_len m' ∧ commit_body (cd_current (cs_dev c4)) m'.
Proof using HashLaws0.
  intros Vt Fr Vs Hg Hh Eh Et Eo Eco. destruct (fs_payload _ _ _ _ _ _ Fr) as (pad & Iv & Hneed & Hfr). exists pad. cbv zeta in Iv, Hneed, Hfr |- *.
  pose proof (fs_space _ _ _ _ _ _ Fr) as V4. destruct (fs_place _ _ _ _ _ _ Fr) as [Wp _]. unfold within in Wp. cbn [fst snd] in Wp. pose proof (sb_nonneg _ Vs) as (G1 & G2 & G3 & G4 & G5 & G6).
  destruct (sp_tail _ _ _ V4) as [T1 T2]. unfold region_len in T2. cbn [dev_len CrashDev_dev] in T2. rewrite Eco in T2.
  pose proof (dk_small _ (sp_dev _ _ _ V4)) as Hsm. pose proof (dk_length _ (sp_dev _ _ _ V4)) as Hlen.
  split; [done|]. set (m' := MkCommit _ _ _ _ _ _ _). intros img Hb Hl Hhi Hlive Hdead.
  assert (cm_chunk_off m' = cs_chunk_off c4) as Ecm by (rewrite Eco; done). assert (len_z img = len_z (cd_durable (cs_dev c4))) as Eli by (unfold len_z; by rewrite Hl, Hlen).
  assert (∀ p n, 0 ≤ p → 0 ≤ n → slice img (cs_chunk_off c4 + p) n = slice (cd_current (cs_dev c4)) (cs_chunk_off c4 + p) n) as Hcur by (intros p n Hp Hn'; apply Hhi; rewrite ?Eco; unfold WAL_OFF; lia).
  assert (∀ k e, (k, e) ∈ cs_index c4 → within (cs_tail c4) (frame_of e) ∧ 0 ≤ ie_len e ∧ 0 ≤ ie_off e) as Hent.
  { intros k e Hin. pose proof (sp_within _ _ _ V4) as Wi. apply Forall_app in Wi as [Wi _]. rewrite Forall_forall in Wi. pose proof (Wi _ (frame_slot _ _ _ Hin)) as We. destruct (sp_entry _ _ _ V4 k e Hin) as [_ [Hle _]].
    split; [exact We|]. unfold within, frame_of, CHUNK_HEADER in We. cbn [fst snd] in We. lia. }
  split; cbn [m' cm_sb cm_in_b cm_index cm_free cm_table cm_birth cm_pad]; rewrite ?Ecm, ?Et, ?Eo, ?Eh.
  - rewrite Eli. exact Hsm.
  - exact Hb.
  - exact Vs.
  - exact Hg.
  - split; [exact Hh|]. rewrite Eli, Eco. lia.
  - exact Hlive.
  - exact Hdead.
  - exact Iv.
  - apply (sp_birth _ _ _ V4).
  - change (cm_frame_len m') with (CHUNK_HEADER + len_z (encode_index (cs_index c4) nf pad)). lia.
  - change (cm_frame_len m') with (CHUNK_HEADER + len_z (encode_index (cs_index c4) nf pad)). rewrite <-Hneed, Hcur by lia. exact Hfr.
  - intros k e Hin. destruct (Hent k e Hin) as (We & H1 & H2). split; [exact We|]. split; [exact H1|]. unfold object_in. rewrite Hcur by lia. exact (sp_object _ _ _ V4 k e Hin).
  - intros x Hx. rewrite (fs_new_free _ _ _ _ _ _ Fr) in Hx. pose proof (sp_apart _ _ _ V4) as Ap. pose proof (sp_within _ _ _ V4) as Wi. unfold extents in *. apply apart_sub in Ap. apply Forall_app in Wi as [_ Wi].
    destruct (merge_spec _ _ Ap Wi) as (_ & _ & Mw & _). rewrite Forall_forall in Mw. apply (Mw x Hx).
  - split; [exact Vt|]. destruct (fs_table _ _ _ _ _ _ Fr) as (e & He & Hs). exists e. split; [exact He|]. apply bt_get_elem in He; [|apply V4]. destruct (Hent _ e He) as (_ & H1 & H2). rewrite Hcur by lia. exact Hs.
Qed.

Lemma fits_small z : 0 ≤ z < 2 ^ 32 → fits_in 8 z.
Proof using Type. unfold fits_in. change (256 ^ Z.of_nat 8) with (2 ^ 64). lia. Qed.

(** The superblock fields that describe the chunk region. *)
Lemma frame_set_fields t h off need nf c4 : frame_set t h off need nf c4 → (length h = 32%nat ∧ is_bytes h) ∧ 0 < need ∧ fits_in 8 (cs_tail c4) ∧ fits_in 8 off.
Proof using HashLaws0.
  intros Fr. pose proof (fs_space _ _ _ _ _ _ Fr) as V4. destruct (fs_place _ _ _ _ _ _ Fr) as [Wp _]. unfold within in Wp. cbn [fst snd] in Wp. destruct (sp_tail _ _ _ V4) as [T1 T2]. unfold region_len in T2. cbn [dev_len CrashDev_dev] in T2.
  pose proof (dk_small _ (sp_dev _ _ _ V4)) as Hsm. pose proof (sp_off _ _ _ V4) as Ho. unfold WAL_OFF in Ho. rewrite (fs_hash _ _ _ _ _ _ Fr). split_and!; [apply hash_length|apply hash_bytes|lia|apply fits_small; lia|apply fits_small; lia].
Qed.

Lemma framed_body s m ops t h off need nf c4 :
  engine_ok hash_of s m ops → commit_ready s m ops t → framed s t m h off need nf c4 →
  let a := advance_head (st_wal_records s) (st_wal_seq s) in
  let sb := MkSb (sb_generation (cm_sb m) + 1) h (ha_head a) (ha_next_seq a) (sb_wal_len (cm_sb m)) (cs_tail c4) off in
  ∃ pad, let m' := MkCommit sb (negb (cm_in_b m)) (cs_index c4) nf t (cs_birth_gen c4) pad in
    sb_valid sb ∧ need = cm_frame_len m' ∧ commit_body (cd_current (cs_dev c4)) m'.
Proof using HashLaws0.
  intros V R Fr. cbv zeta. destruct (advance_log hash_of s m ops V (cr_stale _ _ _ _ R)) as (Hn & Hns & Hhd & _ & _). set (a := advance_head _ _) in *.
  pose proof (eo_commit _ _ _ _ V) as C. pose proof (sb_nonneg _ (ci_sb _ _ _ C)) as (G1 & G2 & G3 & G4 & G5 & G6). pose proof (cr_gen _ _ _ _ R) as Hg. destruct (fr_base _ _ _ _ _ _ _ _ Fr) as (Bo & Bb & Bd).
  destruct (frame_set_fields _ _ _ _ _ _ (fr_set _ _ _ _ _ _ _ _ Fr)) as (F1 & F2 & F3 & F4). destruct (li_seq _ _ _ _ (eo_log _ _ _ _ V)) as [_ Hsq2]. destruct (ci_geom _ _ _ C) as [_ Hgl]. pose proof (ci_small _ _ _ C) as Hsm. unfold cm_chunk_off, WAL_OFF in Hgl.
  set (sb := MkSb _ _ _ _ _ _ _). assert (sb_valid sb) as Vs.
  { split; cbn [sb sb_generation sb_ref_table sb_wal_head sb_wal_next_seq sb_wal_len sb_chunk_tail sb_index_off]; [|done| | | |done|done].
    - unfold fits_in. change (256 ^ Z.of_nat 8) with (U64_MAX + 1). lia.
    - apply fits_small. lia.
    - rewrite Hns. unfold fits_in in *. lia.
    - apply fits_small. lia. }
  destruct (frame_set_body t h off need nf c4 sb (negb (cm_in_b m)) (proj1 (cr_table _ _ _ _ R)) (fr_set _ _ _ _ _ _ _ _ Fr) Vs) as (pad & Hn' & Hbody); try done; [cbn; lia|cbn; lia|rewrite Bo, (eo_off _ _ _ _ V); done|].
  by exists pad.
Qed.

(** What the chunk store is once the commit is there. *)
Lemma frame_set_chunks t h off need nf c4 m' birth :
  frame_set t h off need nf c4 → sb_valid (cm_sb m') → fits_in 8 birth →
  cm_index m' = cs_index c4 → cm_free m' = nf → sb_index_off (cm_sb m') = off → need = cm_frame_len m' → cm_chunk_off m' = cs_chunk_off c4 →
  ∀ d', dev_ok d' → cd_pending d' = [] → length (cd_durable d') = length (cd_durable (cs_dev c4)) →
    (∀ p n, WAL_OFF ≤ p → 0 ≤ n → slice (cd_current d') p n = slice (cd_current (cs_dev c4)) p n) →
    let c := with_index_extent (off, need) (with_pending_free [] (with_free nf (with_birth_gen birth (with_dev d' c4)))) in
    space_ok hash_of c [(off, need)] ∧ shielded (prot m') c ∧ cs_chunk_off c = cm_chunk_off m' ∧ cs_io_error c = None ∧
    Forall (λ y : Hash * IndexEntry, is_bytes y.1) (cs_index c).
Proof using Type.
  intros Fr Vs Hg Ei Ef Eo En Eco d' Vd Hp Hl Hhi. cbv zeta. pose proof (fs_space _ _ _ _ _ _ Fr) as V4. destruct (fs_place _ _ _ _ _ _ Fr) as [Wp Dp].
  assert (0 < need) as Hpos by (rewrite En; unfold cm_frame_len, CHUNK_HEADER; pose proof (len_z_nonneg (cm_payload m')); lia).
  destruct (merge_placed c4 nf off need V4 (fs_new_free _ _ _ _ _ _ Fr) Hpos Dp Wp) as (Ms & Ma & Mw & Md). pose proof (sp_off _ _ _ V4) as Hoff. destruct (sp_tail _ _ _ V4) as [T1 T2].
  split_and!; [split|split| | |].
  - exact Vd.
  - exact Hoff.
  - exact Hg.
  - apply (sp_index _ _ _ V4).
  - exact Ms.
  - split; [exact T1|]. unfold region_len in *. cbn [with_index_extent with_pending_free with_free with_birth_gen with_dev cs_dev cs_chunk_off dev_len CrashDev_dev] in *. unfold len_z in *. by rewrite Hl.
  - exact Ma.
  - exact Mw.
  - intros k e. apply (sp_entry _ _ _ V4).
  - intros k e Hin. pose proof (sp_object _ _ _ V4 k e Hin) as Ho. unfold object_in in *. cbn [with_index_extent with_pending_free with_free with_birth_gen with_dev cs_dev cs_chunk_off].
    pose proof (sp_within _ _ _ V4) as Wi. apply Forall_app in Wi as [Wi _]. rewrite Forall_forall in Wi. pose proof (Wi _ (frame_slot _ _ _ Hin)) as We. unfold within, frame_of, CHUNK_HEADER in We. cbn [fst snd] in We.
    destruct (sp_entry _ _ _ V4 k e Hin) as [_ [Hle _]]. rewrite Hhi by lia. exact Ho.
  - intros p f Hp' Hf. unfold prot in Hp'. rewrite Eo, <-En, Ei in Hp'. by apply Md.
  - intros p Hp'. unfold prot in Hp'. rewrite Eo, <-En, Ei in Hp'. apply elem_of_cons in Hp' as [->|Hp']; [exact Wp|]. pose proof (sp_within _ _ _ V4) as Wi. apply Forall_app in Wi as [Wi _]. rewrite Forall_forall in Wi. apply (Wi p Hp').
  - intros w Hw. cbn [with_index_extent with_pending_free with_free with_birth_gen with_dev cs_dev] in Hw. rewrite Hp in Hw. by apply elem_of_nil in Hw.
  - by rewrite Eco.
  - apply (fs_error _ _ _ _ _ _ Fr).
  - apply (fs_hashes _ _ _ _ _ _ Fr).
Qed.

(** Up to the new superblock: on an error nothing has changed for a mount. *)
Lemma prepare_spec s m ops t :
  engine_ok hash_of s m ops → commit_ready s m ops t →
  ewp (commit_prepare hash_of) (λ r s', match r with
    | Ok x => ∃ m', prepared s t m ops x s' m'
    | Err _ => ∀ img, crashes (cd_durable (cs_dev (st_chunks s'))) (cd_pending (cs_dev (st_chunks s'))) img → holds_commit img m ops
    end) s.
Proof using HashLaws0.
  intros V R. unfold commit_prepare. apply ewp_bind, ewp_asks, ewp_bind, ewp_update, ewp_bind. unfold ewp at 1. rewrite (bump_each _ (set_dirty_refs [] s) t) by apply R.
  apply ewp_bind, ewp_asks, ewp_bind. cbn [st_table set_table]. unfold ewp at 1, on_chunks. cbn [st_chunks set_table set_dirty_refs]. change (put (RefTable_encode t) (st_chunks s)) with (chunk_put hash_of (RefTable_encode t) (st_chunks s)).
  destruct (chunk_put hash_of (RefTable_encode t) (st_chunks s)) as [h c2] eqn:Eput. destruct (put_table _ _ _ _ _ _ V R Eput) as (V2 & F & Sh & Eh & _).
  apply ewp_bind. unfold ewp at 1, check_io. cbn [st_chunks set_chunks]. destruct (cs_io_error c2) as [e|] eqn:Eio.
  { cbn [st_chunks set_chunks with_io_error cs_dev]. intros img Hc. apply (safe_old s m ops c2 V); [apply V2|apply F|apply F|done|done]. }
  apply ewp_bind, ewp_update, ewp_bind. unfold ewp at 1, on_chunks_err. cbn [st_chunks set_chunks].
  assert (∃ r c4, write_index_frame hash_of (with_pending_free (cs_pending_free c2 ++ [cs_index_extent c2]) c2) = Ret (r, c4)) as (r & c4 & Ew).
  { rewrite (pf_pending _ _ F), (pf_extent _ _ F). edestruct (write_index_frame_spec hash_of (with_pending_free (cs_pending_free (st_chunks s) ++ [cs_index_extent (st_chunks s)]) c2)) as (r & c4 & Hw & _); [| |by eauto].
    - destruct V2. by split.
    - by destruct (put_table _ _ _ _ _ _ V R Eput) as (_ & _ & _ & _ & _ & Hb & _). }
  rewrite Ew. pose proof (frame_table _ _ _ _ _ _ _ _ V R Eput Eio Ew) as Hpost. destruct r as [[[off need] nf]|e].
  2: { destruct Hpost as (P1 & P2 & P3 & P4). cbn [st_chunks set_chunks]. intros img Hc. by apply (safe_old s m ops c4 V). }
  cbn [fst snd] in Hpost. apply ewp_bind. unfold ewp at 1, flush_dev. cbn [st_chunks set_chunks dev_flush CrashDev_dev]. pose proof (sp_dev _ _ _ (fs_space _ _ _ _ _ _ (fr_set _ _ _ _ _ _ _ _ Hpost))) as Vd4. destruct (fr_base _ _ _ _ _ _ _ _ Hpost) as (B1 & B2 & B3).
  destruct (crash_flush (cs_dev c4)) as [r d5] eqn:Ef. destruct (crash_flush_spec _ _ _ Vd4 Ef) as (Vd5 & Ec5 & Hr). destruct r as [[]|e].
  2: { destruct Hr as [Hd Hp]. cbn [st_chunks set_chunks with_dev cs_dev]. rewrite Hd, Hp. intros img Hc. apply (safe_old s m ops c4 V); [done|done|done|apply Hpost|done]. }
  destruct Hr as [Hd5 Hp5]. apply ewp_bind, ewp_asks, ewp_bind, ewp_update, ewp_bind, ewp_asks. cbn [st_wal_records st_wal_seq set_chunks set_table set_dirty_refs].
  set (a := advance_head (st_wal_records s) (st_wal_seq s)). match goal with |- context [pop_records _ ?x] => set (s5 := x) end. destruct (pop_chunks (ha_flushed a) s5) as (K1 & K2 & K3 & K4 & K5 & K6 & K7 & K8).
  rewrite K2. cbn [s5 st_sb set_chunks set_table set_dirty_refs]. destruct (eo_sb _ _ _ _ V) as [Es Eb]. rewrite Es. apply ewp_bind, ewp_add64; [pose proof (cr_gen _ _ _ _ R); lia|].
  apply ewp_bind, ewp_asks, ewp_ret. cbn [fst snd]. rewrite K1, K4. cbn [s5 st_opts st_chunks set_chunks set_table set_dirty_refs with_dev cs_tail]. rewrite (eo_wal_len _ _ _ _ V).
  destruct (framed_body s m ops t h off need nf c4 V R Hpost) as (pad & Vsb & En & Hbody). fold a in Vsb, En, Hbody. set (sb := MkSb _ _ _ _ _ _ _) in *. set (m' := MkCommit sb _ _ _ _ _ _) in *.
  destruct (advance_log hash_of s m ops V (cr_stale _ _ _ _ R)) as (Hn & Hns & Hhd & _ & Hadv). fold a in Hn, Hns, Hhd, Hadv. destruct (Hadv sb) as [Hlog Hrec]; [done|apply (sb_nonneg _ Vsb)|].
  destruct (safe_old s m ops c4 V Vd4 B3 B1 (fr_shield _ _ _ _ _ _ _ _ Hpost) (cd_current (cs_dev c4)) (dk_view _ Vd4)) as (Hold & Hl5 & Hlow).
  exists m'. assert (cs_dev (st_chunks (pop_records (ha_flushed a) s5)) = d5) as Ed by (rewrite K1; done). split; rewrite ?Ed, ?Hd5, ?Ec5, ?Hp5.
  - split; [done|done|done|done|]. intros k e. apply (fr_index _ _ _ _ _ _ _ _ Hpost).
  - done.
  - cbn [fst snd]. by rewrite <-En.
  - done.
  - split_and!; [done| |]; [done|done].
  - exact Hlow.
  - exact Hold.
  - exact Hbody.
  - unfold unflushed. fold a. apply (log_in_slice (cd_durable (cs_dev (st_chunks s)))); [|exact Hlog]. apply Hlow; [done|apply (sb_nonneg _ Vsb)|]. unfold cm_chunk_off. change (sb_wal_len (cm_sb m')) with (sb_wal_len (cm_sb m)). lia.
  - by rewrite K2, K3, K4, K5, K6.
  - rewrite K7. exact Hrec.
  - rewrite K8. by apply (advance_tail hash_of s m ops sb V).
  - rewrite K1. cbn [s5 st_chunks set_chunks]. intros d' Vd' Hp' Hl' Hhi. refine (frame_set_chunks t h off need nf c4 m' _ (fr_set _ _ _ _ _ _ _ _ Hpost) Vsb _ eq_refl eq_refl eq_refl En _ d' Vd' Hp' _ _).
    + pose proof (cr_gen _ _ _ _ R). pose proof (sb_nonneg _ Vsb) as (G & _). unfold fits_in. change (256 ^ Z.of_nat 8) with (U64_MAX + 1). cbn in G |- *. lia.
    + rewrite B1, (eo_off _ _ _ _ V). done.
    + rewrite Hl', <-(dk_length _ Vd4). done.
    + exact Hhi.
Qed.
(** ** The superblock write *)

Lemma slot_target b : slot_off (commit_target b) = slot_pos (negb b).
Proof using Type. by destruct b. Qed.
Lemma slot_apart b : slot_pos b + SB_SIZE ≤ slot_pos (negb b) ∨ slot_pos (negb b) + SB_SIZE ≤ slot_pos b.
Proof using Type. unfold slot_pos, SB_A_OFF, SB_B_OFF, SB_SIZE. destruct b; cbn; lia. Qed.
Lemma slot_range b : 0 ≤ slot_pos b ∧ slot_pos b + SB_SIZE ≤ WAL_OFF.
Proof using Type. unfold slot_pos, SB_A_OFF, SB_B_OFF, SB_SIZE, WAL_OFF. destruct b; lia. Qed.

(** Whatever part of the new superblock a crash keeps. *)
Lemma torn_image s t m ops x s' m' k :
  engine_ok hash_of s m ops → prepared s t m ops x s' m' →
  torn_refused hash_of (Superblock_encode hash_of x.1.1) (slice (cd_durable (cs_dev (st_chunks s))) (slot_pos (negb (cm_in_b m))) SB_SIZE) →
  (k ≤ length (Superblock_encode hash_of x.1.1))%nat →
  let img := splice (cd_durable (cs_dev (st_chunks s'))) (slot_pos (negb (cm_in_b m))) (take k (Superblock_encode hash_of x.1.1)) in
  (∀ p n, WAL_OFF ≤ p → 0 ≤ n → slice img p n = slice (cd_durable (cs_dev (st_chunks s'))) p n) ∧
  (holds_commit img m' (unflushed s ops) ∨ holds_commit img m ops ∧ k ≠ length (Superblock_encode hash_of x.1.1)).
Proof using HashLaws0.
  intros V P HT Hk. cbv zeta. set (dur := cd_durable (cs_dev (st_chunks s'))) in *. set (pos := slot_pos (negb (cm_in_b m))) in *. pose proof (pp_sb_valid _ _ _ _ _ _ _ P) as Vsb. rewrite <-(pp_sb _ _ _ _ _ _ _ P) in *.
  set (enc := Superblock_encode hash_of (cm_sb m')) in *. pose proof (sb_encode_length hash_of _ Vsb : length enc = _) as Le. destruct (pp_old _ _ _ _ _ _ _ P) as [Co Lo]. fold dur in Co, Lo.
  pose proof (sb_nonneg _ (ci_sb _ _ _ Co)) as (_ & _ & _ & G4 & G5 & _). destruct (ci_geom _ _ _ Co) as [_ Hgl]. unfold cm_chunk_off in Hgl.
  destruct (slot_range (negb (cm_in_b m))) as [Hp0 Hp1]. fold pos in Hp0, Hp1. assert (len_z dur = Z.of_nat (length dur)) as Ed by done.
  assert (Z.of_nat (length (take k enc)) = Z.of_nat k) as Lk by (rewrite length_take; lia). rewrite Le in Hk. unfold SB_SIZE in Hk, Le, Hp1.
  set (img := splice dur pos (take k enc)). assert (length img = length dur) as Limg by (apply splice_length; lia).
  assert (∀ p n, 0 ≤ p → 0 ≤ n → pos + 4096 ≤ p ∨ p + n ≤ pos → slice img p n = slice dur p n) as Hout by (intros; apply slice_splice_out; lia).
  assert (∀ p n, WAL_OFF ≤ p → 0 ≤ n → slice img p n = slice dur p n) as Hhi by (intros; apply Hout; unfold WAL_OFF in *; lia). split; [exact Hhi|].
  assert (is_bytes img) as Hbi by (apply splice_bytes; [apply Co|by apply Forall_take, sb_encode_bytes]).
  assert (slice img pos SB_SIZE = torn_slot k enc (slice dur pos SB_SIZE)) as Hslot.
  { unfold img. rewrite <-(Z.add_0_r pos) at 1. rewrite slice_splice_in by (unfold SB_SIZE; lia). unfold splice, torn_slot. cbn [Z.to_nat take Nat.add app]. by rewrite length_take, Le, Nat.min_l by lia. }
  assert (slice dur pos SB_SIZE = slice (cd_durable (cs_dev (st_chunks s))) pos SB_SIZE) as Hsame by (apply (pp_low _ _ _ _ _ _ _ P); unfold cm_chunk_off, SB_SIZE; lia). rewrite <-Hsame in HT.
  assert (length (slice dur pos SB_SIZE) = Z.to_nat SB_SIZE) as Lold by (rewrite slice_length; unfold SB_SIZE, WAL_OFF in *; lia).
  assert (slice img (slot_pos (cm_in_b m)) SB_SIZE = slice dur (slot_pos (cm_in_b m)) SB_SIZE) as Hlive. { destruct (slot_range (cm_in_b m)) as [H1 _]. destruct (slot_apart (cm_in_b m)) as [H|H]; fold pos in H; apply Hout; unfold SB_SIZE in *; lia. }
  assert (∀ sb l, 0 ≤ sb_wal_len sb → log_in hash_of dur sb l → log_in hash_of img sb l) as Hlg by (intros sb l Hsl; apply log_in_slice, Hhi; [unfold WAL_OFF; lia|done]).
  pose proof (pp_next _ _ _ _ _ _ _ P) as N. pose proof (sb_nonneg _ Vsb) as (_ & _ & _ & G4' & _).
  assert (decode_checked hash_of (slice img pos SB_SIZE) = Ok (cm_sb m') → holds_commit img m' (unflushed s ops)) as Hnew.
  { intros Hd. split; [|apply Hlg; [done|apply P]]. refine (pp_body _ _ _ _ _ _ _ P img Hbi Limg Hhi _ _); rewrite (nc_slot _ _ _ _ N); [exact Hd|]. rewrite negb_involutive, Hlive, (ci_live _ _ _ Co), (nc_gen _ _ _ _ N). lia. }
  assert (match decode_checked hash_of (slice img pos SB_SIZE) with Ok sb => sb_generation sb < sb_generation (cm_sb m) | Err _ => True end → holds_commit img m ops) as Hstay.
  { intros Hd. split; [|by apply Hlg]. apply (commit_stable hash_of dur); try done. intros p o n Hin H1 H2 H3. apply Hhi; [|done]. pose proof (prot_nonneg hash_of dur m p Co Hin).
    unfold cm_chunk_off. lia. }
  pose proof (sb_decode_encode hash_of _ Vsb : decode_checked hash_of enc = _) as Hdec. destruct (decide (k = length enc)) as [Ek|Ek].
  - left. apply Hnew. rewrite Hslot. unfold torn_slot. rewrite take_ge by lia. rewrite drop_ge by (rewrite Lold; unfold SB_SIZE; lia). by rewrite app_nil_r.
  - destruct (decode_torn hash_of k enc (slice dur pos SB_SIZE) (cm_sb m')) as [Hd|[Hd|[e Hd]]]; [unfold SB_SIZE; lia|exact Lold|unfold SB_SIZE; lia|exact HT|exact Hdec|..]; rewrite <-Hslot in Hd.
    + left. by apply Hnew.
    + right. split; [|done]. apply Hstay. rewrite Hd. apply (ci_dead _ _ _ Co).
    + right. split; [|done]. apply Hstay. by rewrite Hd.
Qed.

(** The engine once the second barrier is through. *)
Lemma committed_ok s t m ops x s' m' d' :
  engine_ok hash_of s m ops → commit_ready s m ops t → prepared s t m ops x s' m' → dev_ok d' → cd_pending d' = [] → cd_current d' = cd_durable d' →
  length (cd_durable d') = length (cd_durable (cs_dev (st_chunks s'))) → (∀ p n, WAL_OFF ≤ p → 0 ≤ n → slice (cd_durable d') p n = slice (cd_durable (cs_dev (st_chunks s'))) p n) →
  holds_commit (cd_durable d') m' (unflushed s ops) →
  engine_ok hash_of (flip x.1.1 (sb_generation x.1.1 + 1) x.2 x.1.2 (set_chunks (with_dev d' (st_chunks s')) s')) m' (unflushed s ops).
Proof using HashLaws0.
  intros V R P Vd Hp Hcur Hl Hhi [Hc Hlg]. rewrite <-(pp_sb _ _ _ _ _ _ _ P). destruct (pp_dev _ _ _ _ _ _ _ P) as (_ & Ecd & _).
  destruct (pp_chunks _ _ _ _ _ _ _ P d' Vd Hp Hl) as (C1 & C2 & C3 & C4 & C5); [rewrite Hcur, Ecd; exact Hhi|]. destruct (pp_store _ _ _ _ _ _ _ P) as (S1 & S2 & S3 & S4 & S5). pose proof (pp_next _ _ _ _ _ _ _ P) as N.
  destruct (nc_head _ _ _ _ N) as (M1 & M2 & M3). destruct (eo_sb _ _ _ _ V) as [E1 E2]. destruct (advance_log hash_of s m ops V (cr_stale _ _ _ _ R)) as (Hn & Hns & _).
  split; cbn [flip set_chunks set_sb_in_b set_sb st_chunks st_sb st_sb_in_b st_opts st_wal_records st_wal_seq st_wal_tail].
  - exact C1.
  - exact C4.
  - exact C5.
  - exact Hc.
  - split; [done|]. rewrite S2, E2. symmetry. apply (nc_slot _ _ _ _ N).
  - exact C3.
  - cbn. lia.
  - exact C2.
  - rewrite S3, M3. apply V.
  - exact Hlg.
  - apply P.
  - apply P.
  - rewrite S5, M2, Hns. unfold unflushed. rewrite length_drop. pose proof (eo_seq _ _ _ _ V). lia.
Qed.

(** [commit] from a consistent engine: it returns; on success the engine stands on the next
    commit, and on an error every crash leaves the old commit or the next one. *)
Lemma commit_spec s m ops t :
  engine_ok hash_of s m ops → commit_ready s m ops t →
  ewp (commit hash_of) (λ r s', match r with
    | Ok _ => (∃ m', next_commit s t m m' ∧ engine_ok hash_of s' m' (unflushed s ops)) ∧ st_table s' = t
    | Err _ => ∀ img, crashes (cd_durable (cs_dev (st_chunks s'))) (cd_pending (cs_dev (st_chunks s'))) img →
        holds_commit img m ops ∨ ∃ m', next_commit s t m m' ∧ holds_commit img m' (unflushed s ops)
    end) s.
Proof using HashLaws0.
  intros V R. unfold commit. apply ewp_bind. pose proof (prepare_spec s m ops t V R) as Hprep. unfold ewp in Hprep. unfold ewp at 1. destruct (commit_prepare hash_of s) as [[[x|e] s']| |] eqn:Ep; [|by intros; left; apply Hprep|done..].
  destruct Hprep as [m' P]. pose proof (cr_torn _ _ _ _ R x s' Ep) as HT. pose proof (torn_image s t m ops x s' m') as Hti. specialize (λ k, Hti k V P HT). pose proof (pp_next _ _ _ _ _ _ _ P) as N.
  destruct (pp_store _ _ _ _ _ _ _ P) as (_ & S2 & _). destruct (eo_sb _ _ _ _ V) as [_ E2]. cbv zeta. apply ewp_bind, ewp_asks. rewrite S2, E2, slot_target. destruct (pp_dev _ _ _ _ _ _ _ P) as (Vd & Ecd & Epd).
  pose proof (pp_sb_valid _ _ _ _ _ _ _ P) as Vsb. rewrite (pp_sb _ _ _ _ _ _ _ P) in Vsb. set (enc := Superblock_encode hash_of x.1.1) in *. set (pos := slot_pos (negb (cm_in_b m))) in *. destruct (slot_range (negb (cm_in_b m))) as [Hp0 Hp1]. fold pos in Hp0, Hp1.
  apply ewp_bind. unfold ewp at 1, write_dev. cbn [dev_write CrashDev_dev]. destruct (crash_write pos enc (cs_dev (st_chunks s'))) as [r d6] eqn:Ew.
  destruct (crash_write_spec pos enc _ _ _ Vd Hp0 (sb_encode_bytes hash_of _ Vsb) Ew) as (Vd6 & Ed6 & Hr). destruct r as [[]|e].
  2: { destruct Hr as [_ Hpd]. cbn [st_chunks set_chunks with_dev cs_dev]. rewrite Hpd, Epd, Ed6. intros img Hc. left. inversion Hc; subst. apply P. }
  destruct Hr as (Hfit & Hc6 & Hp6). rewrite Epd in Hp6. cbn [app] in Hp6. rewrite Ecd in Hc6, Hfit. apply ewp_bind. unfold ewp at 1, flush_dev. cbn [dev_flush CrashDev_dev st_chunks set_chunks with_dev cs_dev].
  destruct (crash_flush d6) as [r d7] eqn:Ef. destruct (crash_flush_spec _ _ _ Vd6 Ef) as (Vd7 & Ec7 & Hr). destruct r as [[]|e].
  2: { destruct Hr as [Hd7 Hp7]. cbn [st_chunks set_chunks with_dev cs_dev]. rewrite Hd7, Hp7, Hp6, Ed6. intros img Hc. inversion Hc as [|? ? ? k ? ? Hk Hc']; subst. inversion Hc'; subst.
       destruct (Hti k Hk) as [_ [H|[H _]]]; [right; by exists m'|by left]. }
  destruct Hr as [Hd7 Hp7]. pose proof (cr_gen _ _ _ _ R) as Hg. pose proof (nc_gen _ _ _ _ N) as Eg. rewrite (pp_sb _ _ _ _ _ _ _ P) in Eg. apply ewp_bind, ewp_add64; [lia|]. apply ewp_update. split; [exists m'; split; [exact N|]|apply P].
  destruct (Hti (length enc) (le_n _)) as [Hhi Hfin]. rewrite take_ge in Hhi, Hfin by done. rewrite <-Hc6, <-Hd7 in Hhi, Hfin. destruct Hfin as [Hfin|[_ ?]]; [|done].
  refine (committed_ok s t m ops x s' m' d7 V R P Vd7 Hp7 _ _ Hhi Hfin).
  - by rewrite Ec7, Hd7.
  - rewrite Hd7, Hc6. apply splice_length; [done|]. unfold len_z in Hfit. lia.
Qed.
End commit.
