(* ===== verification/LogAppend.v ===== *)
(** An acknowledged operation is durable: [wal_append], the part of [log_then_apply] of
    [cas/src/store.rs] before the overlay sees the operation, on a device that may fail at
    any write or flush. *)

From stdpp Require Import strings.
From S2P Require Import Prelude Bytes Dev BTree Disk Recovery Prolly ChunkStore Extents ChunkProofs Overlay Chunker File Tree Gc Engine CommitProofs EngineProofs CommitAtomic.

(** ** Writing on the ring *)

Lemma rotate_lookup h R i :
  0 ≤ h ≤ Z.of_nat (length R) → (i < length R)%nat → rotate_left h R !! i = R !! (if decide (Z.to_nat h + i < length R)%nat then Z.to_nat h + i else Z.to_nat h + i - length R)%nat.
Proof.
  intros Hh Hi. unfold rotate_left. case_decide as Hd.
  - rewrite lookup_app_l by (rewrite length_drop; lia). by rewrite lookup_drop.
  - rewrite lookup_app_r by (rewrite length_drop; lia). rewrite length_drop. rewrite lookup_take_lt by lia. f_equal. lia.
Qed.

(** A write that does not wrap, seen from the head. *)
Lemma ring_splice h o R data :
  let n := Z.of_nat (length R) in let p := (h + o) mod n in
  0 < n → 0 ≤ h ≤ n → 0 ≤ o → o + Z.of_nat (length data) ≤ n → p + Z.of_nat (length data) ≤ n →
  rotate_left h (splice R p data) = splice (rotate_left h R) o data.
Proof.
  cbv zeta. intros Hn Hh Ho Hod Hp. assert (0 ≤ (h + o) mod Z.of_nat (length R) < Z.of_nat (length R)) as Hb by (apply Z.mod_pos_bound; lia).
  assert ((h + o) mod Z.of_nat (length R) = h + o ∧ h + o < Z.of_nat (length R) ∨ (h + o) mod Z.of_nat (length R) = h + o - Z.of_nat (length R) ∧ Z.of_nat (length R) ≤ h + o ∧ h + o < 2 * Z.of_nat (length R) ∨
    h + o = 2 * Z.of_nat (length R) ∧ (h + o) mod Z.of_nat (length R) = 0) as Hm.
  { destruct (Z.lt_ge_cases (h + o) (Z.of_nat (length R))) as [H|H]; [left; rewrite Z.mod_small by lia; lia|]. destruct (Z.eq_dec (h + o) (2 * Z.of_nat (length R))) as [->|H'].
    - right; right. split; [done|]. apply Z.mod_mul. lia.
    - right; left. split; [|lia]. symmetry. apply Z.mod_unique_pos with (q := 1); lia. }
  set (p := (h + o) mod Z.of_nat (length R)) in *. clearbody p.
  assert (length (splice R p data) = length R) as Hl by (apply splice_length; lia).
  apply list_eq. intros i. destruct (decide (i < length R)%nat) as [Hi|Hi].
  - rewrite rotate_lookup by lia. rewrite !splice_lookup by (rewrite ?rotate_length; lia). rewrite Hl, rotate_lookup by lia.
    destruct (decide (Z.to_nat h + i < length R)%nat); repeat case_decide; try lia; try done; f_equal; lia.
  - rewrite !lookup_ge_None_2; [done| |]; [rewrite splice_length; rewrite ?rotate_length; lia|rewrite rotate_length; lia].
Qed.

(** Two writes side by side are one. *)
Lemma splice_splice L o k data :
  0 ≤ o → o + Z.of_nat (length data) ≤ Z.of_nat (length L) → (k ≤ length data)%nat →
  splice (splice L o (take k data)) (o + Z.of_nat k) (drop k data) = splice L o data.
Proof.
  intros Ho Hl Hk. apply list_eq. intros i. assert (length (take k data) = k) as Lt by (rewrite length_take; lia).
  rewrite !splice_lookup by (rewrite ?splice_length; rewrite ?length_drop, ?Lt; lia). rewrite length_drop, Lt.
  repeat case_decide; try lia; try done; [rewrite lookup_drop; f_equal; lia|rewrite lookup_take_lt by lia; done].
Qed.
Lemma splice_tail A B data : (length data ≤ length B)%nat → splice (A ++ B) (Z.of_nat (length A)) data = A ++ data ++ drop (length data) B.
Proof. intros H. unfold splice. rewrite Nat2Z.id, take_app_length. by rewrite drop_app, drop_ge, app_nil_l, Nat.add_comm, Nat.add_sub by lia. Qed.

Lemma crashes_snoc_inv disk pending off data img :
  crashes disk (pending ++ [(off, data)]) img → ∃ mid k, crashes disk pending mid ∧ (k ≤ length data)%nat ∧ img = splice mid off (take k data).
Proof.
  revert disk. induction pending as [|[o dt] rest IH]; intros disk H; cbn [app] in H; inversion H as [|? ? ? k ? ? Hk H']; subst.
  - inversion H'; subst. exists disk, k. split_and!; [constructor|done|done].
  - destruct (IH _ H') as (mid & k' & C & Hk' & ->). exists mid, k'. split_and!; [by apply (crashes_write _ _ _ k)|done|done].
Qed.

Section append.
Context (hash_of : list Z → Hash) `{!HashLaws hash_of}.
#[local] Instance chunk_store_append : NodeStore (ChunkStore CrashDev) := ChunkStore_store hash_of.
Implicit Types (s : Store CrashDev) (d : CrashDev).

(** ** What [wal_usage] measures *)

Lemma log_fits s m ops : engine_ok hash_of s m ops → Z.of_nat (length (log_of hash_of ops (sb_wal_next_seq (cm_sb m)))) ≤ sb_wal_len (cm_sb m).
Proof using Type.
  intros V. destruct (eo_log _ _ _ _ V) as [(tail & Hlog & _) _ _]. apply (f_equal length) in Hlog. unfold log_region in Hlog. rewrite rotate_length, length_app in Hlog.
  pose proof (eo_commit _ _ _ _ V) as C. pose proof (sb_nonneg _ (ci_sb _ _ _ C)) as (G1 & G2 & G3 & G4 & G5 & G6). destruct (ci_geom _ _ _ C) as [Hh Hl]. unfold cm_chunk_off, len_z in Hl.
  rewrite slice_length in Hlog by (unfold WAL_OFF in *; lia). lia.
Qed.

(** The bytes of the records that are in the log. *)
Lemma usage_spec s m ops :
  engine_ok hash_of s m ops → wal_usage s = Ret (Ok (Z.of_nat (length (log_of hash_of ops (sb_wal_next_seq (cm_sb m))))), s).
Proof using HashLaws0.
  intros V. pose proof (log_fits s m ops V) as Hfit. pose proof (records_length hash_of _ _ _ V) as Hlen. pose proof (eo_tail _ _ _ _ V) as Ht. pose proof (eo_wal_len _ _ _ _ V) as Hw. destruct (eo_sb _ _ _ _ V) as [Esb _].
  pose proof (eo_commit _ _ _ _ V) as C. pose proof (sb_nonneg _ (ci_sb _ _ _ C)) as (G1 & G2 & G3 & G4 & G5 & G6). destruct (ci_geom _ _ _ C) as [Hh Hl]. pose proof (ci_small _ _ _ C) as Hsm.
  unfold wal_usage, mbind, eng_bind, asks. destruct ops as [|op ops]; [destruct (st_wal_records s); done|]. destruct (st_wal_records s) as [|r rs]; [done|]. pose proof (log_length_pos hash_of op ops (sb_wal_next_seq (cm_sb m))) as Hpos.
  set (L := Z.of_nat (length (log_of hash_of (op :: ops) (sb_wal_next_seq (cm_sb m))))) in *. assert (48 ≤ L) as HL by (unfold L; lia). rewrite Ht, Hw, Esb. unfold to_phys. rewrite (proj2 (Z.eqb_neq _ _)) by lia.
  set (wl := sb_wal_len (cm_sb m)) in *. set (hd := sb_wal_head (cm_sb m)) in *. pose proof (Z.mod_pos_bound (hd + L) wl ltac:(lia)) as Hb. unfold cm_chunk_off, WAL_OFF in Hl. fold wl in Hl.
  unfold add64. rewrite decide_True by (unfold U64_MAX; lia). unfold sub64. rewrite decide_True by lia. unfold mod64. rewrite decide_False by lia.
  assert (((hd + L) mod wl + wl - hd) mod wl = L mod wl) as ->.
  { replace ((hd + L) mod wl + wl - hd) with ((hd + L) mod wl + (wl - hd)) by lia. rewrite Z.add_mod_idemp_l by lia. replace (hd + L + (wl - hd)) with (L + 1 * wl) by lia. apply Z.mod_add. lia. }
  unfold mret, eng_ret. destruct (Z.eq_dec L wl) as [->|Hne]; [rewrite Z.mod_same by lia; done|]. rewrite Z.mod_small by lia. by rewrite (proj2 (Z.eqb_neq _ _)) by lia.
Qed.

(** ** An image with a record written behind the log *)

Lemma commit_wal img m p data :
  commit_of hash_of img m → is_bytes data → 0 ≤ p → p + len_z data ≤ sb_wal_len (cm_sb m) → commit_of hash_of (splice img (WAL_OFF + p) data) m.
Proof using Type.
  intros C Hb Hp Hl. pose proof (sb_nonneg _ (ci_sb _ _ _ C)) as (G1 & G2 & G3 & G4 & G5 & G6). destruct (ci_geom _ _ _ C) as [Hh Hg]. unfold cm_chunk_off, len_z in *. assert (0 ≤ WAL_OFF) as Hw by done.
  assert (∀ q n, 0 ≤ q → 0 ≤ n → q + n ≤ WAL_OFF ∨ cm_chunk_off m ≤ q → slice (splice img (WAL_OFF + p) data) q n = slice img q n) as Hout by (unfold cm_chunk_off; intros; apply slice_splice_out; lia).
  apply (commit_stable hash_of img); [done|apply splice_bytes; [apply C|done]|apply splice_length; lia| | |].
  - destruct (slot_range (cm_in_b m)). apply Hout; unfold SB_SIZE in *; lia.
  - destruct (slot_range (negb (cm_in_b m))). rewrite Hout by (unfold SB_SIZE in *; lia). apply (ci_dead _ _ _ C).
  - intros q o n Hin H1 H2 H3. pose proof (prot_nonneg hash_of _ _ _ C Hin). apply Hout; unfold cm_chunk_off; lia.
Qed.

Lemma region_wal img m o data :
  commit_of hash_of img m → 0 < sb_wal_len (cm_sb m) → 0 ≤ o → o + len_z data ≤ sb_wal_len (cm_sb m) → to_phys (cm_sb m) o + len_z data ≤ sb_wal_len (cm_sb m) →
  log_region (splice img (WAL_OFF + to_phys (cm_sb m) o) data) (cm_sb m) = splice (log_region img (cm_sb m)) o data.
Proof using Type.
  intros C Hw Ho H1 H2. pose proof (sb_nonneg _ (ci_sb _ _ _ C)) as (G1 & G2 & G3 & G4 & G5 & G6). destruct (ci_geom _ _ _ C) as [Hh Hg]. unfold cm_chunk_off, len_z in *. assert (0 ≤ WAL_OFF) as Hw0 by done.
  unfold log_region, to_phys in *. rewrite (proj2 (Z.eqb_neq _ _)) in * by lia. pose proof (Z.mod_pos_bound (sb_wal_head (cm_sb m) + o) (sb_wal_len (cm_sb m)) Hw). rewrite slice_splice_in by lia.
  assert (Z.of_nat (length (slice img WAL_OFF (sb_wal_len (cm_sb m)))) = sb_wal_len (cm_sb m)) as HR by (rewrite slice_length by lia; lia).
  pose proof (ring_splice (sb_wal_head (cm_sb m)) o (slice img WAL_OFF (sb_wal_len (cm_sb m))) data) as E. cbv zeta in E. rewrite HR in E. apply E; lia.
Qed.

(** An image with the commit whose log begins with the operations. *)
Definition keeps_log (m : Commit) (ops : list WalOp) (img : list Z) : Prop :=
  commit_of hash_of img m ∧ ∃ tail, log_region img (cm_sb m) = log_of hash_of ops (sb_wal_next_seq (cm_sb m)) ++ tail.

Lemma region_length img m : commit_of hash_of img m → Z.of_nat (length (log_region img (cm_sb m))) = sb_wal_len (cm_sb m).
Proof using Type.
  intros C. pose proof (sb_nonneg _ (ci_sb _ _ _ C)) as (G1 & G2 & G3 & G4 & G5 & G6). destruct (ci_geom _ _ _ C) as [Hh Hg]. unfold cm_chunk_off, len_z in *. unfold log_region.
  rewrite rotate_length, slice_length by (unfold WAL_OFF in *; lia). lia.
Qed.

(** A write, whole or torn, behind the log leaves the log. *)
Lemma keeps_write m ops img o data :
  keeps_log m ops img → is_bytes data → 0 < sb_wal_len (cm_sb m) → Z.of_nat (length (log_of hash_of ops (sb_wal_next_seq (cm_sb m)))) ≤ o →
  o + len_z data ≤ sb_wal_len (cm_sb m) → to_phys (cm_sb m) o + len_z data ≤ sb_wal_len (cm_sb m) →
  keeps_log m ops (splice img (WAL_OFF + to_phys (cm_sb m) o) data).
Proof using Type.
  intros [C (tail & E)] Hb Hw Ho H1 H2. assert (0 ≤ to_phys (cm_sb m) o) as H0 by (unfold to_phys; rewrite (proj2 (Z.eqb_neq _ _)) by lia; apply Z.mod_pos_bound; lia).
  split; [by apply commit_wal|]. rewrite region_wal by (done || lia). pose proof (region_length img m C) as Hl. rewrite E in *. set (l := log_of hash_of ops _) in *. rewrite length_app in Hl. unfold len_z in *.
  exists (splice tail (o - Z.of_nat (length l)) data). apply list_eq. intros i. rewrite splice_lookup by (rewrite ?length_app; lia). destruct (decide (i < length l)%nat) as [Hi|Hi].
  - rewrite decide_False by lia. by rewrite !lookup_app_l by lia.
  - rewrite (lookup_app_r l (splice _ _ _)) by lia. rewrite splice_lookup by lia. repeat case_decide; try lia; [f_equal; lia|]. by rewrite lookup_app_r by lia.
Qed.

(** ** The device while a record is written *)

(** Whatever a crash keeps, the commit and its log are there. *)
Definition log_safe (m : Commit) (ops : list WalOp) d : Prop := dev_ok d ∧ ∀ img, crashes (cd_durable d) (cd_pending d) img → keeps_log m ops img.

Lemma safe_write m ops d o data r d' :
  log_safe m ops d → is_bytes data → 0 < sb_wal_len (cm_sb m) → Z.of_nat (length (log_of hash_of ops (sb_wal_next_seq (cm_sb m)))) ≤ o →
  o + len_z data ≤ sb_wal_len (cm_sb m) → to_phys (cm_sb m) o + len_z data ≤ sb_wal_len (cm_sb m) →
  crash_write (WAL_OFF + to_phys (cm_sb m) o) data d = (r, d') →
  log_safe m ops d' ∧ cd_durable d' = cd_durable d ∧ ∀ u, r = Ok u → cd_current d' = splice (cd_current d) (WAL_OFF + to_phys (cm_sb m) o) data.
Proof using Type.
  intros [Vd Hk] Hb Hw Ho H1 H2 E. assert (0 ≤ to_phys (cm_sb m) o) as H0 by (unfold to_phys; rewrite (proj2 (Z.eqb_neq _ _)) by lia; apply Z.mod_pos_bound; lia).
  assert (0 ≤ WAL_OFF + to_phys (cm_sb m) o) as H3 by (unfold WAL_OFF; lia). destruct (crash_write_spec _ _ _ _ _ Vd H3 Hb E) as (Vd' & Ed & Hr). destruct r as [u|e].
  - destruct Hr as (_ & Hc & Hp). split; [|split; [done|by intros]]. split; [done|]. rewrite Ed, Hp. intros img Hcr. destruct (crashes_snoc_inv _ _ _ _ _ Hcr) as (mid & k & Hm & Hkl & ->).
    assert (len_z (take k data) ≤ len_z data) by (unfold len_z; rewrite length_take; lia). apply keeps_write; [by apply Hk|by apply Forall_take|done|done|lia|lia].
  - destruct Hr as (Hc & Hp). split; [|split; done]. split; [done|]. by rewrite Ed, Hp.
Qed.

(** The device after the record and its barrier. *)
Record logged (m : Commit) (ops : list WalOp) (rec_ : list Z) d d' : Prop := {
  lg_dev : dev_ok d' ∧ cd_pending d' = [] ∧ cd_current d' = cd_durable d';
  lg_commit : commit_of hash_of (cd_durable d') m;
  lg_region : log_region (cd_durable d') (cm_sb m) = splice (log_region (cd_current d) (cm_sb m)) (Z.of_nat (length (log_of hash_of ops (sb_wal_next_seq (cm_sb m))))) rec_;
  lg_high p n : cm_chunk_off m ≤ p → 0 ≤ n → slice (cd_durable d') p n = slice (cd_current d) p n;
  lg_length : length (cd_durable d') = length (cd_durable d);
}.

Lemma flush_logged m ops rec_ d d1 r d' :
  dev_ok d → log_safe m ops d1 → crash_flush d1 = (r, d') →
  log_region (cd_current d1) (cm_sb m) = splice (log_region (cd_current d) (cm_sb m)) (Z.of_nat (length (log_of hash_of ops (sb_wal_next_seq (cm_sb m))))) rec_ →
  (∀ p n, cm_chunk_off m ≤ p → 0 ≤ n → slice (cd_current d1) p n = slice (cd_current d) p n) → length (cd_current d1) = length (cd_current d) →
  match r with Ok _ => logged m ops rec_ d d' | Err _ => log_safe m ops d' end.
Proof using Type.
  intros Vd [Vd1 Hk] E Hreg Hhi Hlen. destruct (crash_flush_spec _ _ _ Vd1 E) as (Vd' & Ec & Hr). destruct r as [u|e].
  - destruct Hr as [Hd Hp]. split; [by rewrite Ec, Hd| | | |]; rewrite Hd; [apply (Hk _ (dk_view _ Vd1))|done|done|]. rewrite Hlen. apply (dk_length _ Vd).
  - destruct Hr as [Hd Hp]. split; [done|]. by rewrite Hd, Hp.
Qed.

Lemma safe_running s m ops : engine_ok hash_of s m ops → log_safe m ops (cs_dev (st_chunks s)).
Proof using Type.
  intros V. split; [apply (eo_space _ _ _ _ V)|]. intros img Hc. destruct (crash_running hash_of _ _ _ _ V Hc) as [C [(tail & E & _) _ _]]. split; [done|by exists tail].
Qed.

Lemma slice_high img m o data p n :
  commit_of hash_of img m → 0 < sb_wal_len (cm_sb m) → to_phys (cm_sb m) o + len_z data ≤ sb_wal_len (cm_sb m) → cm_chunk_off m ≤ p → 0 ≤ n →
  slice (splice img (WAL_OFF + to_phys (cm_sb m) o) data) p n = slice img p n ∧ length (splice img (WAL_OFF + to_phys (cm_sb m) o) data) = length img.
Proof using Type.
  intros C Hw H Hp Hn. pose proof (sb_nonneg _ (ci_sb _ _ _ C)) as (G1 & G2 & G3 & G4 & G5 & G6). destruct (ci_geom _ _ _ C) as [Hh Hg]. unfold cm_chunk_off, len_z, WAL_OFF in *.
  assert (0 ≤ to_phys (cm_sb m) o) as H0 by (unfold to_phys; rewrite (proj2 (Z.eqb_neq _ _)) by lia; apply Z.mod_pos_bound; lia).
  split; [apply slice_splice_out; lia|apply splice_length; lia].
Qed.

Lemma wal_write_spec s m ops rec_ :
  engine_ok hash_of s m ops → let L := Z.of_nat (length (log_of hash_of ops (sb_wal_next_seq (cm_sb m)))) in
  L + len_z rec_ ≤ sb_wal_len (cm_sb m) → 0 < len_z rec_ → is_bytes rec_ →
  ewp (wal_write (st_wal_tail s) rec_) (λ r s', ∃ d', s' = set_chunks (with_dev d' (st_chunks s)) s ∧
    match r with Ok _ => logged m ops rec_ (cs_dev (st_chunks s)) d' | Err _ => log_safe m ops d' end) s.
Proof using Type.
  intros V. cbv zeta. set (L := Z.of_nat _). intros Hroom Hpos Hb. pose proof (safe_running _ _ _ V) as S0. set (d := cs_dev (st_chunks s)) in *. pose proof (eo_tail _ _ _ _ V) as Et. fold L in Et.
  assert (0 < sb_wal_len (cm_sb m)) as Hw by (unfold L in *; lia). destruct (proj2 S0 _ (dk_view _ (proj1 S0))) as [C0 _].
  assert (0 ≤ to_phys (cm_sb m) L < sb_wal_len (cm_sb m)) as Hph by (unfold to_phys; rewrite (proj2 (Z.eqb_neq _ _)) by lia; apply Z.mod_pos_bound; lia).
  unfold wal_write. apply ewp_bind, ewp_asks. rewrite (eo_wal_len _ _ _ _ V), Et. apply ewp_bind. destruct (Z.leb_spec (to_phys (cm_sb m) L + len_z rec_) (sb_wal_len (cm_sb m))) as [Hfit|Hfit].
  - unfold ewp at 1, write_dev. cbn [dev_write CrashDev_dev]. fold d. destruct (crash_write _ rec_ d) as [r d1] eqn:Ew. destruct (safe_write m ops d L rec_ r d1) as (S1 & _ & Hc); try done. destruct r as [[]|e]; [|by exists d1].
    specialize (Hc tt eq_refl). unfold ewp, flush_dev. cbn [dev_flush CrashDev_dev st_chunks set_chunks with_dev cs_dev]. destruct (crash_flush d1) as [r d'] eqn:Ef. exists d'. split; [by destruct r|].
    pose proof (flush_logged m ops rec_ d d1 r d' (proj1 S0) S1 Ef) as Hf. fold L in Hf. rewrite Hc in Hf. destruct r; apply Hf; try (apply region_wal; done || lia); try (intros; by apply slice_high); by apply (slice_high _ _ _ _ (cm_chunk_off m) 0).
  - set (first := sb_wal_len (cm_sb m) - to_phys (cm_sb m) L). assert (to_phys (cm_sb m) (L + first) = 0) as E0.
    { unfold first, to_phys. rewrite (proj2 (Z.eqb_neq _ _)) by lia. set (h := sb_wal_head (cm_sb m)). set (w := sb_wal_len (cm_sb m)) in *. pose proof (Z.div_mod (h + L) w ltac:(lia)) as Hdm.
      replace (h + (L + (w - (h + L) mod w))) with ((1 + (h + L) / w) * w) by lia. apply Z.mod_mul. lia. }
    assert (len_z (take (Z.to_nat first) rec_) = first ∧ len_z (drop (Z.to_nat first) rec_) = len_z rec_ - first) as [L1 L2] by (unfold len_z in *; rewrite length_take, length_drop; lia).
    apply ewp_bind. unfold ewp at 1, sub64. rewrite decide_True by lia. fold first. apply ewp_bind.
    unfold ewp at 1, write_dev at 1. cbn [dev_write CrashDev_dev]. fold d. destruct (crash_write _ (take (Z.to_nat first) rec_) d) as [r d1] eqn:Ew.
    destruct (safe_write m ops d L (take (Z.to_nat first) rec_) r d1) as (S1 & _ & Hc1); [done|by apply Forall_take|done|done|lia|lia|done|]. destruct r as [[]|e]; [|by exists d1]. specialize (Hc1 tt eq_refl).
    unfold ewp at 1, write_dev. cbn [dev_write CrashDev_dev st_chunks set_chunks with_dev cs_dev]. destruct (crash_write WAL_OFF _ d1) as [r d2] eqn:Ew2. replace WAL_OFF with (WAL_OFF + to_phys (cm_sb m) (L + first)) in Ew2 by lia.
    destruct (safe_write m ops d1 (L + first) (drop (Z.to_nat first) rec_) r d2) as (S2 & _ & Hc2); [done|by apply Forall_drop|done|lia|lia|lia|done|]. destruct r as [[]|e]; [|by exists d2]. specialize (Hc2 tt eq_refl).
    unfold ewp, flush_dev. cbn [dev_flush CrashDev_dev st_chunks set_chunks with_dev cs_dev]. destruct (crash_flush d2) as [r d'] eqn:Ef. exists d'. split; [by destruct r|].
    destruct (proj2 S1 _ (dk_view _ (proj1 S1))) as [C1 _]. pose proof (flush_logged m ops rec_ d d2 r d' (proj1 S0) S2 Ef) as Hf. fold L in Hf.
    assert (log_region (cd_current d2) (cm_sb m) = splice (log_region (cd_current d) (cm_sb m)) L rec_) as HR.
    { rewrite Hc2, region_wal by (done || lia). rewrite Hc1, region_wal by (done || lia). replace first with (Z.of_nat (Z.to_nat first)) at 2 by lia. apply splice_splice; [lia|rewrite region_length by done; done|unfold len_z in *; lia]. }
    assert (∀ p n, cm_chunk_off m ≤ p → 0 ≤ n → slice (cd_current d2) p n = slice (cd_current d) p n ∧ length (cd_current d2) = length (cd_current d)) as Hsl.
    { intros p n Hp Hn. destruct (slice_high (cd_current d1) m (L + first) (drop (Z.to_nat first) rec_) p n) as [A1 A2]; [done|done|lia|done|done|].
      destruct (slice_high (cd_current d) m L (take (Z.to_nat first) rec_) p n) as [B1 B2]; [done|done|lia|done|done|]. rewrite <-Hc2 in A1, A2. rewrite <-Hc1 in B1, B2. split; congruence. }
    destruct r; apply Hf; try done; try (intros; by apply Hsl); by apply (Hsl (cm_chunk_off m) 0).
Qed.

(** ** The append *)

Lemma metas_snoc ops op off seq :
  metas_of hash_of (ops ++ [op]) off seq = metas_of hash_of ops off seq ++ [MkRec (seq + Z.of_nat (length ops)) (off + Z.of_nat (length (log_of hash_of ops seq))) [] false].
Proof using Type.
  revert off seq. induction ops as [|x ops IH]; intros off seq; cbn [app metas_of log_of length]; [by rewrite !Z.add_0_r|]. rewrite IH, length_app. repeat (lia || f_equal).
Qed.
Lemma log_snoc ops op seq : log_of hash_of (ops ++ [op]) seq = log_of hash_of ops seq ++ encode_record hash_of op (seq + Z.of_nat (length ops)).
Proof using Type.
  revert seq. induction ops as [|x ops IH]; intros seq; cbn [app log_of length]; [by rewrite Z.add_0_r, app_nil_r|]. rewrite IH, <-app_assoc. repeat (lia || f_equal).
Qed.

(** The chunk store does not look at the log region. *)
Lemma space_dev c pend d' :
  space_ok hash_of c pend → dev_ok d' → length (cd_durable d') = length (cd_durable (cs_dev c)) → (∀ p n, cs_chunk_off c ≤ p → 0 ≤ n → slice (cd_current d') p n = slice (cd_current (cs_dev c)) p n) →
  space_ok hash_of (with_dev d' c) pend.
Proof using Type.
  intros V Vd Hl Hhi. destruct (sp_tail _ _ _ V) as [T1 T2]. split; try apply V; try done.
  - split; [done|]. unfold region_len in *. cbn [with_dev cs_dev cs_chunk_off cs_tail dev_len CrashDev_dev] in *. unfold len_z in *. by rewrite Hl.
  - intros k e Hin. pose proof (sp_object _ _ _ V k e Hin) as Ho. destruct (sp_entry _ _ _ V k e Hin) as [_ [Hle _]]. pose proof (sp_within _ _ _ V) as Wi. apply Forall_app in Wi as [Wi _]. rewrite Forall_forall in Wi.
    pose proof (Wi _ (frame_slot _ _ _ Hin)) as We. unfold within, frame_of, CHUNK_HEADER in We. cbn [fst snd] in We. unfold object_in in *. cbn [with_dev cs_dev cs_chunk_off]. rewrite Hhi by lia. exact Ho.
Qed.

(** What the code relies on when it appends: the sequence number does not overflow, the
    record is encodable, and no stale record follows it on the ring. *)
Record append_ready s (m : Commit) (ops : list WalOp) (op : WalOp) : Prop := {
  ap_valid : record_valid op (st_wal_seq s);
  ap_bytes : is_bytes (encode_record hash_of op (st_wal_seq s));
  ap_seq : st_wal_seq s + 1 ≤ U64_MAX;
  ap_stale : log_ends hash_of (drop (length (log_of hash_of ops (sb_wal_next_seq (cm_sb m))) + length (encode_record hash_of op (st_wal_seq s))) (log_region (cd_durable (cs_dev (st_chunks s))) (cm_sb m))) (st_wal_seq s + 1);
}.

Lemma appended_ok s m ops op d' s' :
  engine_ok hash_of s m ops → append_ready s m ops op →
  Z.of_nat (length (log_of hash_of ops (sb_wal_next_seq (cm_sb m)))) + len_z (encode_record hash_of op (st_wal_seq s)) ≤ sb_wal_len (cm_sb m) →
  logged m ops (encode_record hash_of op (st_wal_seq s)) (cs_dev (st_chunks s)) d' →
  st_chunks s' = with_dev d' (st_chunks s) → st_sb s' = st_sb s → st_sb_in_b s' = st_sb_in_b s → st_opts s' = st_opts s →
  st_wal_records s' = st_wal_records s ++ [MkRec (st_wal_seq s) (st_wal_tail s) (wal_ref_name op) false] →
  st_wal_tail s' = (st_wal_tail s + len_z (encode_record hash_of op (st_wal_seq s))) mod sb_wal_len (cm_sb m) → st_wal_seq s' = st_wal_seq s + 1 →
  engine_ok hash_of s' m (ops ++ [op]).
Proof using HashLaws0.
  intros V R Hroom G E1 E2 E3 E4 E5 E6 E7. destruct (lg_dev _ _ _ _ _ G) as (Vd & Hp & Hcd). pose proof (eo_seq _ _ _ _ V) as Es. pose proof (eo_tail _ _ _ _ V) as Et. set (sb := cm_sb m) in *. set (seq := sb_wal_next_seq sb) in *.
  assert (len_z (encode_record hash_of op (st_wal_seq s)) = 48 + Z.of_nat (length (encode_payload op))) as Hrl by (unfold len_z; rewrite (encode_record_length hash_of), Nat2Z.inj_add; done).
  destruct (safe_running _ _ _ V) as [_ Hk]. destruct (crash_running hash_of s m ops _ V (dk_view _ (sp_dev _ _ _ (eo_space _ _ _ _ V)))) as [Cc [(tail & Hreg & _) Hv Hsq]]. fold sb seq in Hreg, Hv, Hsq.
  pose proof (region_length _ _ Cc) as Hrlen. fold sb in Hrlen. rewrite Hreg, length_app in Hrlen. unfold len_z in *.
  assert (log_region (cd_durable (cs_dev (st_chunks s))) sb = log_region (cd_current (cs_dev (st_chunks s))) sb) as Hsame.
  { unfold log_region. f_equal. destruct (crashes_frame _ _ _ (dk_view _ (sp_dev _ _ _ (eo_space _ _ _ _ V))) (proj1 (dk_pending _ (sp_dev _ _ _ (eo_space _ _ _ _ V))))) as [_ Hfr]. symmetry. apply Hfr; [done|apply (sb_nonneg _ (ci_sb _ _ _ Cc))|].
    intros w Hw. right. destruct (sh_pending _ _ (eo_shield _ _ _ _ V) w Hw) as [Hw1 _]. rewrite (eo_off _ _ _ _ V) in Hw1. unfold cm_chunk_off in Hw1. fold sb in Hw1. lia. }
  split; rewrite ?E1; cbn [with_dev cs_pending_free cs_index_extent cs_io_error cs_index cs_chunk_off cs_birth_gen cs_dev].
  - apply space_dev; [apply V|done|apply G|]. intros p n Hpn Hn. rewrite Hcd. apply G; [by rewrite <-(eo_off _ _ _ _ V)|done].
  - apply V.
  - apply V.
  - apply G.
  - rewrite E2, E3. apply V.
  - apply V.
  - apply V.
  - destruct (eo_shield _ _ _ _ V) as [H1 H2 H3]. split; [done|done|]. cbn [with_dev cs_dev]. rewrite Hp. intros w Hw. by apply elem_of_nil in Hw.
  - rewrite E4. apply V.
  - fold sb. split; fold seq.
    + pose proof (lg_region _ _ _ _ _ G) as Hlr. fold sb seq in Hlr. rewrite Hlr, Hreg, splice_tail by lia. rewrite log_snoc, <-Es. rewrite app_assoc. eexists. split; [reflexivity|]. pose proof (ap_stale _ _ _ _ R) as Hst. fold sb seq in Hst.
      rewrite Hsame, Hreg, <-drop_drop, drop_app_length in Hst. rewrite length_app. cbn [length]. by replace (seq + Z.of_nat (length ops + 1)) with (st_wal_seq s + 1) by lia.
    + intros i o Hi. apply lookup_app_Some in Hi as [Hi|[Hge Hi]]; [by apply Hv|]. apply list_lookup_singleton_Some in Hi as [Hi <-]. replace (seq + Z.of_nat i) with (st_wal_seq s) by lia. apply R.
    + rewrite length_app. cbn [length]. pose proof (ap_seq _ _ _ _ R). unfold fits_in in *. change (256 ^ Z.of_nat 8) with (U64_MAX + 1) in *. lia.
  - fold sb seq. rewrite E5, fmap_app, (eo_records _ _ _ _ V), metas_snoc. rewrite zip_with_app by (by rewrite metas_length). rewrite fmap_app. f_equal. cbn. unfold rec_of. cbn. rewrite Et, Es. done.
  - fold sb seq. rewrite E6, Et, log_snoc, length_app, <-Es. unfold to_phys. rewrite (proj2 (Z.eqb_neq _ _)) by lia. rewrite Z.add_mod_idemp_l by lia. f_equal. lia.
  - fold sb seq. rewrite E7, Es, length_app. cbn [length]. lia.
Qed.

(** With room on the ring: once the append returns [Ok] the operation is in the log of every
    image a crash can leave; on an error the operations before it still are. *)
Lemma append_spec s m ops op u :
  engine_ok hash_of s m ops → append_ready s m ops op → wal_usage s = Ret (Ok u, s) → u + len_z (encode_record hash_of op (st_wal_seq s)) ≤ so_wal_len (st_opts s) →
  ewp (wal_append op (encode_record hash_of op (st_wal_seq s))) (λ r s', match r with
    | Ok _ => engine_ok hash_of s' m (ops ++ [op])
    | Err _ => ∀ img, crashes (cd_durable (cs_dev (st_chunks s'))) (cd_pending (cs_dev (st_chunks s'))) img → keeps_log m ops img
    end) s.
Proof using HashLaws0.
  intros V R Hu Hroom. rewrite (usage_spec _ _ _ V) in Hu. injection Hu as <-. rewrite (eo_wal_len _ _ _ _ V) in Hroom. set (rec_ := encode_record hash_of op (st_wal_seq s)) in *.
  pose proof (encode_record_length hash_of op (st_wal_seq s)) as Hrl. fold rec_ in Hrl. assert (0 < len_z rec_) as Hpos by (unfold len_z; rewrite Hrl, Nat2Z.inj_add; apply Z.add_pos_nonneg; [done|apply Zle_0_nat]). unfold wal_append. apply ewp_bind, ewp_asks, ewp_bind.
  eapply ewp_mono; [apply (wal_write_spec s m ops rec_ V Hroom Hpos (ap_bytes _ _ _ _ R))|]. intros r s' (d' & -> & Hr). destruct r as [[]|e]; [|cbn [st_chunks set_chunks with_dev cs_dev]; apply Hr].
  apply ewp_bind, ewp_update, ewp_bind, ewp_asks, ewp_bind. cbn [st_opts set_wal_records set_chunks st_wal_seq]. rewrite (eo_wal_len _ _ _ _ V). unfold ewp at 1, mod64. rewrite decide_False by lia.
  apply ewp_bind, ewp_update, ewp_bind, ewp_asks, ewp_bind, ewp_add64; [apply R|]. apply ewp_bind, ewp_update, ewp_ret. by apply (appended_ok s m ops op d').
Qed.
End append.
