(* ===== verification/FormatProofs.v ===== *)
(** What [Store::format] of [cas/src/store.rs] leaves on the device and in the engine. *)

From stdpp Require Import strings.
From S2P Require Import Prelude Bytes Dev BTree Disk Recovery Prolly ChunkStore Extents ChunkProofs Overlay Chunker File Tree Gc Engine CommitProofs EngineProofs CommitAtomic.

Lemma is_bytes_check l : forallb (λ b, (0 <=? b) && (b <? 256)) l = true → is_bytes l.
Proof. intros H. apply Forall_forall. intros b Hb. rewrite forallb_forall in H. specialize (H b ltac:(by apply list_elem_of_In)). unfold is_byte. lia. Qed.

Section format.
Context (hash_of : list Z → Hash) `{!HashLaws hash_of}.
#[local] Instance chunk_store_format : NodeStore (ChunkStore CrashDev) := ChunkStore_store hash_of.

Lemma zero_refused buf : buf = zero_slot → ∃ e, decode_checked hash_of buf = Err e.
Proof using Type. intros ->. unfold decode_checked. assert (magic_ok zero_slot = false) as -> by (vm_compute; reflexivity). destruct (negb (Z.of_nat _ =? _)); by eexists. Qed.
Lemma zero_bytes : is_bytes zero_slot.
Proof using Type. apply Forall_replicate. unfold is_byte. lia. Qed.
Lemma zero_length : Z.of_nat (length zero_slot) = SB_SIZE.
Proof using Type. unfold zero_slot. by rewrite length_replicate. Qed.
Lemma default_valid : reft_valid RefTable_default ∧ is_bytes (RefTable_encode RefTable_default).
Proof using Type. split; [split; cbn; try done; intros; by match goal with H : _ ∈ [] |- _ => apply elem_of_nil in H end|]. by apply is_bytes_check. Qed.

(** The device with both slots cleared. *)
Lemma cleared d d1 d2 d3 u1 u2 u3 :
  dev_ok d → WAL_OFF < len_z (cd_durable d) → crash_write SB_A_OFF zero_slot d = (Ok u1, d1) → crash_write SB_B_OFF zero_slot d1 = (Ok u2, d2) → crash_flush d2 = (Ok u3, d3) →
  dev_ok d3 ∧ cd_pending d3 = [] ∧ cd_current d3 = cd_durable d3 ∧ length (cd_durable d3) = length (cd_durable d) ∧
  slice (cd_durable d3) SB_B_OFF SB_SIZE = zero_slot ∧ ∀ p n, WAL_OFF ≤ p → 0 ≤ n → slice (cd_durable d3) p n = slice (cd_current d) p n.
Proof using Type.
  intros V Hl E1 E2 E3. pose proof (dk_length _ V) as Hd. unfold len_z in Hl. pose proof zero_length as Hz. unfold SB_SIZE in Hz.
  destruct (crash_write_spec SB_A_OFF _ _ _ _ V (Z.le_refl 0) zero_bytes E1) as (V1 & D1 & _ & C1 & _). destruct (crash_write_spec SB_B_OFF _ _ _ _ V1 (Pos2Z.is_nonneg _) zero_bytes E2) as (V2 & D2 & _ & C2 & _).
  destruct (crash_flush_spec _ _ _ V2 E3) as (V3 & C3 & D3 & P3). rewrite D3. unfold WAL_OFF in Hl. rewrite C2, C1 in *.
  assert (length (splice (cd_current d) SB_A_OFF zero_slot) = length (cd_current d)) as L1 by (apply splice_length; [done|unfold SB_A_OFF; lia]).
  split_and!; [done|done|congruence| | |].
  - rewrite splice_length, L1; [done|done|rewrite L1; unfold SB_B_OFF; lia].
  - rewrite <-zero_length. apply splice_eq; [done|rewrite L1; unfold SB_B_OFF; lia].
  - unfold WAL_OFF, SB_A_OFF, SB_B_OFF in *. intros p n Hp Hn. rewrite slice_splice_out by (rewrite ?L1; lia). apply slice_splice_out; lia.
Qed.

(** The store of the initial ref table and its index frame. *)
Lemma first_frame d chunk_off h c2 x nf c4 :
  dev_ok d → cd_pending d = [] → WAL_OFF ≤ chunk_off ≤ len_z (cd_durable d) →
  chunk_put hash_of (RefTable_encode RefTable_default) (MkCs d chunk_off 0 1 [] [] [] (0, 0) None []) = (h, c2) → cs_io_error c2 = None →
  write_index_frame hash_of c2 = Ret (Ok (x, nf), c4) →
  frame_set hash_of RefTable_default h x.1 x.2 nf c4 ∧ cs_chunk_off c4 = chunk_off ∧ cs_birth_gen c4 = 1 ∧ cs_pending_free c4 = [] ∧ cd_durable (cs_dev c4) = cd_durable d ∧
  length (cd_current (cs_dev c4)) = length (cd_durable d) ∧ ∀ p n, 0 ≤ p → 0 ≤ n → p + n ≤ chunk_off → slice (cd_current (cs_dev c4)) p n = slice (cd_durable d) p n.
Proof using HashLaws0.
  intros V Hp Hoff Eput Hio Ew. set (c0 := MkCs d chunk_off 0 1 [] [] [] (0, 0) None []) in *.
  assert (space_ok hash_of c0 []) as V0.
  { split; cbn [c0 cs_dev cs_chunk_off cs_birth_gen cs_index cs_free cs_tail]; try done; try lia; try (by intros ? ? ?%elem_of_nil); try (by constructor). unfold region_len. cbn. lia. }
  assert (shielded [] c0) as S0. { split; cbn [c0 cs_dev cs_free]; [by intros ? ? ?%elem_of_nil|by intros ? ?%elem_of_nil|]. rewrite Hp. by intros ? ?%elem_of_nil. }
  destruct (chunk_put_spec hash_of c0 [] _ _ _ V0 (proj2 default_valid) Eput) as (Eh & V2 & F & Sh & Hk & Hsome & _ & Hnew). specialize (Sh _ S0).
  assert (cs_pending_free c2 = []) as Ep by apply F. rewrite <-Ep in V2. assert (Forall (λ x : Hash * IndexEntry, is_bytes x.1) (cs_index c2)) as Hb.
  { apply Forall_forall. intros [k e] Hin. cbn. apply bt_get_elem in Hin; [|apply V2]. destruct (decide (k = h)) as [->|Hne]; [rewrite Eh; apply hash_bytes|]. by rewrite Hk in Hin. }
  destruct (write_index_frame_spec hash_of c2 V2 Hb) as (r & c4' & Ew' & Hpost). rewrite Ew in Ew'. injection Ew' as <- <-. pose proof (fw_frame _ _ _ _ _ _ _ Hpost) as F4. destruct (Hsome Hio) as [e He].
  destruct (fw_shield _ _ _ _ _ _ _ Hpost [] Sh) as [S4 _]. pose proof (sp_dev _ _ _ (fw_space _ _ _ _ _ _ _ Hpost)) as Vd4. assert (cd_durable (cs_dev c4) = cd_durable d) as Ed by (rewrite (pf_durable _ _ F4); apply F).
  assert (cs_chunk_off c4 = chunk_off) as Eo by (rewrite (pf_off _ _ F4); apply F). destruct (crashes_frame _ _ _ (dk_view _ Vd4) (proj1 (dk_pending _ Vd4))) as [Hl Hfr]. rewrite Ed in Hl, Hfr.
  split_and!; [|done| | |done|done|].
  - apply (frame_set_written hash_of c2); try done; [apply V2|]. exists e. split; [done|]. rewrite (pf_off _ _ F). by apply Hnew.
  - rewrite (pf_birth _ _ F4). apply F.
  - rewrite (pf_pending _ _ F4). done.
  - intros p n H1 H2 H3. apply Hfr; [done|done|]. intros w Hw. right. destruct (sh_pending _ _ S4 w Hw) as [Hw1 _]. lia.
Qed.

(** Bytes hold one log of records numbered from 1 on, read up to the first place where no
    record continues it. *)
Lemma bytes_log l :
  is_bytes l → Z.of_nat (length l) < 2 ^ 32 →
  ∃ ops tail, l = log_of hash_of ops 1 ++ tail ∧ ops_valid ops 1 ∧ fits_in 8 (1 + Z.of_nat (length ops)) ∧ log_ends hash_of tail (1 + Z.of_nat (length ops)).
Proof using HashLaws0.
  intros Hb Hl. destruct (recover_records_spec hash_of l 0 1 Hb) as (ops & tail & forged & _ & Hd & Hv & Hf & Hend); [by apply fits_small|lia|].
  exists ops, tail. split; [exact Hd|]. split; [exact Hv|]. split; [exact Hf|]. destruct forged; [exfalso|done]. destruct Hend as [Hmax _].
  pose proof (log_longer hash_of ops 1) as Hlen. change (drop (Z.to_nat 0) l) with l in Hd. apply (f_equal length) in Hd. rewrite length_app in Hd. unfold U64_MAX in Hmax. lia.
Qed.

(** A formatted device holds the commit of the empty ref table, every byte of the old log
    region, and no write that a crash could still lose; the store is consistent when the
    log region holds no record numbered 1. *)
Lemma format_spec d opts s :
  dev_ok d → 0 ≤ so_wal_len opts → format hash_of d opts = Ret (Ok s) →
  ∃ m, commit_of hash_of (cd_durable (cs_dev (st_chunks s))) m ∧ cd_pending (cs_dev (st_chunks s)) = [] ∧ cm_table m = RefTable_default ∧ st_table s = RefTable_default ∧
    sb_wal_next_seq (cm_sb m) = 1 ∧ log_region (cd_durable (cs_dev (st_chunks s))) (cm_sb m) = slice (cd_current d) WAL_OFF (so_wal_len opts) ∧
    (log_ends hash_of (slice (cd_current d) WAL_OFF (so_wal_len opts)) 1 → engine_ok hash_of s m []).
Proof using HashLaws0.
  intros V Hw E. unfold format in E. unfold checked_add at 1 in E. case_decide as H1; [|done]. unfold checked_add in E. case_decide as H2; [|done].
  cbn [dev_len CrashDev_dev] in E. destruct (Z.leb_spec (len_z (cd_durable d)) (WAL_OFF + so_wal_len opts + MIN_CHUNK_REGION)) as [|Hlen]; [done|].
  cbn [dev_write dev_flush CrashDev_dev] in E. unfold dev_step in E. destruct (crash_write SB_A_OFF zero_slot d) as [[u1|] d1] eqn:E1; [|done]. destruct (crash_write SB_B_OFF zero_slot d1) as [[u2|] d2] eqn:E2; [|done]. destruct (crash_flush d2) as [[u3|] d3] eqn:E3; [|done].
  assert (0 < MIN_CHUNK_REGION) as Hmin by done. destruct (cleared d d1 d2 d3 u1 u2 u3) as (V3 & P3 & C3 & L3 & Hb & Hhi); try done; [lia|].
  set (coff := WAL_OFF + so_wal_len opts) in *. change (put (RefTable_encode RefTable_default)) with (chunk_put (D := CrashDev) hash_of (RefTable_encode RefTable_default)) in E.
  destruct (chunk_put hash_of (RefTable_encode RefTable_default) _) as [h c2] eqn:Eput. destruct (cs_io_error c2) as [e|] eqn:Eio; [done|]. destruct (write_index_frame hash_of c2) as [[[[x nf]|e] c4]| |] eqn:Ew; [|done..].
  assert (len_z (cd_durable d3) = len_z (cd_durable d)) as Ll by (unfold len_z; by rewrite L3).
  destruct (first_frame d3 coff h c2 x nf c4) as (Fs & Eo & Eb & Ep & Ed & Lc & Hlow); try done; [unfold coff; lia|]. pose proof (sp_dev _ _ _ (fs_space _ _ _ _ _ _ _ Fs)) as V4.
  cbn [cs_dev with_index_extent with_free] in E. destruct (crash_flush (cs_dev c4)) as [[u5|] d5] eqn:E5; [|done]. destruct (crash_flush_spec _ _ _ V4 E5) as (V5 & C5 & D5 & P5).
  set (sb := MkSb 1 h 0 1 (so_wal_len opts) (cs_tail (with_index_extent x (with_free nf c4))) x.1) in *. destruct (frame_set_fields hash_of _ _ _ _ _ _ Fs) as (F1 & F2 & F3 & F4). pose proof (dk_small _ V) as Hsm. assert (8192 + so_wal_len opts + MIN_CHUNK_REGION < len_z (cd_durable d)) as Hlen' by exact Hlen. clear Hlen.
  assert (sb_valid sb) as Vsb. { split; cbn [sb sb_generation sb_ref_table sb_wal_head sb_wal_next_seq sb_wal_len sb_chunk_tail sb_index_off]; try done; apply fits_small; split; [done|lia]. }
  destruct (crash_write SB_A_OFF (Superblock_encode hash_of sb) d5) as [[u6|] d6] eqn:E6; [|done]. destruct (crash_write_spec SB_A_OFF _ _ _ _ V5 (Z.le_refl 0) (sb_encode_bytes hash_of _ Vsb) E6) as (V6 & D6 & _ & C6 & P6).
  destruct (crash_flush d6) as [[u7|] d7] eqn:E7; [|done]. destruct (crash_flush_spec _ _ _ V6 E7) as (V7 & C7 & D7 & P7). injection E as <-. rewrite C6, C5 in D7. set (cur := cd_current (cs_dev c4)) in *.
  destruct (frame_set_body hash_of _ _ _ _ _ _ sb false (proj1 default_valid) Fs Vsb) as (pad & En & Hbody); try done.
  set (m := MkCommit sb false (cs_index c4) nf RefTable_default (cs_birth_gen c4) pad) in *. exists m.
  pose proof (sb_encode_length hash_of _ Vsb) as Le. assert (len_z cur = len_z (cd_durable d)) as Lcur by (unfold len_z; by rewrite Lc, L3). unfold len_z in *. unfold SB_SIZE in Le.
  assert (∀ p n, 4096 ≤ p → 0 ≤ n → slice (cd_durable d7) p n = slice cur p n) as Hout. { intros p n Hp Hn. rewrite D7. apply slice_splice_out; unfold SB_A_OFF; lia. }
  assert (length (cd_durable d7) = length cur) as L7. { rewrite D7. apply splice_length; unfold SB_A_OFF; lia. }
  assert (commit_of hash_of (cd_durable d7) m) as C.
  { apply Hbody; [apply V7|done|unfold WAL_OFF; intros; apply Hout; lia| |]; cbn [m cm_in_b slot_pos negb cm_sb].
    - replace SB_SIZE with (Z.of_nat (length (Superblock_encode hash_of sb))) by (rewrite Le; done). rewrite D7, splice_eq; [by apply sb_decode_encode|done|]. unfold SB_A_OFF. lia.
    - rewrite Hout, Hlow by (unfold SB_B_OFF, SB_SIZE, coff, WAL_OFF; lia). destruct (zero_refused _ Hb) as [e ->]. done. }
  destruct (frame_set_chunks hash_of _ _ _ _ _ _ m 1 Fs Vsb) with (d' := d7) as (K1 & K2 & K3 & K4 & K5); try done.
  { cbn. rewrite Ed, L3. lia. }
  { intros p n Hp Hn. rewrite C7, C6, C5. fold cur. rewrite <-D7. apply Hout; unfold WAL_OFF in Hp; lia. }
  destruct c4 as [cd co ct cb ci cf cp cx ce cn]. cbn [cs_pending_free cs_birth_gen] in Ep, Eb. subst cp cb. destruct x as [xo xn]. cbn [fst snd] in *.
  assert (log_region (cd_durable d7) sb = slice (cd_current d) WAL_OFF (so_wal_len opts)) as Hregion.
  { unfold log_region, rotate_left. cbn [sb sb_wal_head sb_wal_len Z.to_nat drop take]. rewrite app_nil_r, drop_0.
    by rewrite Hout, Hlow, Hhi by (unfold WAL_OFF, coff; unfold WAL_OFF; lia). }
  split_and!; [exact C|exact P7|done..|exact Hregion|]. intros Hend.
  split; cbn [st_chunks st_sb st_sb_in_b st_opts st_wal_records st_wal_tail st_wal_seq m cm_sb cm_in_b sb sb_generation sb_wal_next_seq sb_wal_len with_dev with_index_extent with_free cs_pending_free cs_index_extent cs_io_error cs_index cs_chunk_off cs_birth_gen cs_dev app log_of length metas_of zip zip_with fmap list_fmap].
  - exact K1.
  - exact K4.
  - exact K5.
  - exact C.
  - done.
  - exact K3.
  - lia.
  - exact K2.
  - done.
  - split; cbn [sb sb_wal_next_seq length log_of app]; [|by intros i o|done]. eexists. split; [exact Hregion|]. by rewrite Z.add_0_r.
  - done.
  - unfold to_phys. cbn [sb sb_wal_len sb_wal_head]. destruct (so_wal_len opts =? 0); [done|]. by rewrite Zmod_0_l.
  - done.
Qed.
End format.
