(* ===== verification/BatchProofs.v ===== *)
(** The guarded batch of ref-table edits, [apply_batch] of [cas/src/store.rs]: compare and
    swap on the edit version, all edits or none. *)

From stdpp Require Import strings.
From S2P Require Import Prelude Bytes Dev BTree Disk Recovery Prolly ChunkStore Extents ChunkProofs Overlay Chunker File Tree Gc Engine StoreOps CommitProofs EngineProofs CommitAtomic.

(** ** Staging *)

Lemma edit_refs t name e t' : apply_ref_edit t name e = Ok t' → rt_refs t' = rt_refs t.
Proof.
  assert (∀ id f, edit_snapshot t name id f = Ok t' → rt_refs t' = rt_refs t) as Hsnap by (intros id f; unfold edit_snapshot; destruct (bt_get _ _); [by intros [= <-]|done]).
  destruct e as [id|id class|id parent|id msg|tag id|tag]; cbn [apply_ref_edit].
  - unfold drop_snapshot. destruct (bt_get _ _); [|done]. destruct (pinned _ _ _); [done|]. by intros [= <-].
  - destruct (_ <? _); [done|]. apply Hsnap.
  - destruct (match parent with Some p => _ | None => _ end); [done|]. apply Hsnap.
  - apply Hsnap.
  - destruct (negb _); [done|]. by intros [= <-].
  - destruct (bt_get tag (rt_tags t)) as [[r i]|]; [case_bool_decide|]; by intros [= <-].
Qed.
Lemma stage_refs edits t name t' : stage_edits t name edits = Ok t' → rt_refs t' = rt_refs t.
Proof.
  revert t. induction edits as [|e edits IH]; intros t; cbn [stage_edits]; [by intros [= <-]|]. destruct (apply_ref_edit t name e) as [t1|] eqn:E; [|done]. intros H. by rewrite (IH t1 H), (edit_refs _ _ _ _ E).
Qed.

(** ** Edit versions *)

Definition bumped (e : RefEntry) : RefEntry := MkRefEntry (re_root e) (re_generation e) (re_next_snap_id e) (re_edit_version e + 1).

Lemma bump_ref_spec t n t' :
  bt_sorted (rt_refs t) → bump_ref t n = Some t' →
  rt_snaps t' = rt_snaps t ∧ rt_tags t' = rt_tags t ∧ bt_sorted (rt_refs t') ∧ bt_get n (rt_refs t') = bumped <$> bt_get n (rt_refs t) ∧ ∀ k, k ≠ n → bt_get k (rt_refs t') = bt_get k (rt_refs t).
Proof.
  intros Hs. unfold bump_ref. destruct (bt_get n (rt_refs t)) as [e|] eqn:E; [|intros [= <-]; by rewrite E]. case_decide; [|done]. intros [= <-]. cbn [set_ref rt_snaps rt_tags rt_refs]. split_and!; [done|done|by apply bt_insert_sorted| |].
  - by rewrite get_insert, decide_True.
  - intros k Hk. by rewrite get_insert, decide_False.
Qed.

Lemma bump_refs_spec names t t' :
  bt_sorted (rt_refs t) → NoDup names → bump_refs names t = Some t' →
  rt_snaps t' = rt_snaps t ∧ rt_tags t' = rt_tags t ∧ ∀ k, bt_get k (rt_refs t') = if decide (k ∈ names) then bumped <$> bt_get k (rt_refs t) else bt_get k (rt_refs t).
Proof.
  revert t. induction names as [|n names IH]; intros t Hs Hd; cbn [bump_refs].
  { intros [= <-]. split_and!; [done|done|]. intros k. by rewrite decide_False by apply not_elem_of_nil. }
  apply NoDup_cons in Hd as [Hn Hd]. destruct (bump_ref t n) as [t1|] eqn:E; [|done]. destruct (bump_ref_spec _ _ _ Hs E) as (H1 & H2 & H3 & H4 & H5). cbn. intros Hb. destruct (IH t1 H3 Hd Hb) as (K1 & K2 & K3).
  split_and!; [congruence|congruence|]. intros k. rewrite K3. destruct (decide (k = n)) as [->|Hk].
  - by rewrite decide_False, decide_True by (done || by left).
  - rewrite H5 by done. destruct (decide (k ∈ names)); [by rewrite decide_True by (by right)|]. by rewrite decide_False by (intros [?|?]%elem_of_cons; done).
Qed.

Lemma keys_nodup {K V : Type} `{Ord K} (m : list (K * V)) : bt_sorted m → NoDup m.*1.
Proof.
  induction m as [|[k v] m IH]; cbn; [constructor|]. intros [H1 H2]. apply NoDup_cons. split; [|by apply IH]. intros ([k' v'] & -> & Hin)%list_elem_of_fmap. by apply (lt_irrefl k'), (H1 k' v').
Qed.

Section batch.
Context (hash_of : list Z → Hash) `{!HashLaws hash_of}.
Implicit Types (s : Store CrashDev).

(** The engine with an edited table. *)
Definition staged_store (name : list Z) (staged : RefTable) s : Store CrashDev := set_dirty_refs (bt_insert name tt (st_dirty_refs s)) (set_table staged s).

Lemma engine_table s m ops name staged : engine_ok hash_of s m ops → engine_ok hash_of (staged_store name staged s) m ops.
Proof using Type. intros []. by split. Qed.

Lemma batch_refused s name v edits e :
  bt_get name (rt_refs (st_table s)) = Some e →
  (re_edit_version e ≠ v → apply_batch hash_of name v edits s = Ret (Err (VersionMismatch (re_edit_version e)), s)) ∧
  (re_edit_version e = v → ∀ x, stage_edits (st_table s) name edits = Err x → apply_batch hash_of name v edits s = Ret (Err x, s)).
Proof using Type.
  intros He. unfold apply_batch, mbind, eng_bind, find_ref, ok_or. rewrite He. cbv beta iota. split.
  - intros Hv. by rewrite (proj2 (Z.eqb_neq _ _)) by done.
  - intros -> x Hx. rewrite Z.eqb_refl. cbn [negb]. unfold asks. cbv beta iota. unfold try. by rewrite Hx.
Qed.

Lemma batch_runs s name v edits e staged :
  bt_get name (rt_refs (st_table s)) = Some e → re_edit_version e = v → stage_edits (st_table s) name edits = Ok staged →
  apply_batch hash_of name v edits s =
    match commit hash_of (staged_store name staged s) with
    | Ret (Ok _, s') => match edit_version s' name with Some v' => Ret (Ok v', s') | None => Panic end
    | Ret (Err e, s') => Ret (Err e, s')
    | Panic => Panic
    | NoFuel => NoFuel
    end.
Proof using Type.
  intros He Hv Hst. unfold apply_batch, mbind, eng_bind, find_ref, ok_or. rewrite He. cbv beta iota. rewrite Hv, Z.eqb_refl. cbn [negb]. unfold asks. cbv beta iota. unfold try. rewrite Hst. unfold update, touch_ref, update. cbv beta iota.
  change (set_dirty_refs _ (set_table staged s)) with (staged_store name staged s). destruct (commit hash_of (staged_store name staged s)) as [[[u|x] s']| |]; [|done..]. unfold unwrap_some. by destruct (edit_version s' name).
Qed.

(** What the table a batch commits holds. *)
Lemma batch_table s name edits e staged t :
  bt_sorted (rt_refs (st_table s)) → bt_sorted (st_dirty_refs s) → bt_get name (rt_refs (st_table s)) = Some e → stage_edits (st_table s) name edits = Ok staged →
  bump_refs (st_dirty_refs (staged_store name staged s)).*1 staged = Some t →
  rt_snaps t = rt_snaps staged ∧ rt_tags t = rt_tags staged ∧ bt_get name (rt_refs t) = Some (bumped e).
Proof using Type.
  intros Hs Hd He Hst Hb. pose proof (stage_refs _ _ _ _ Hst) as Hr. cbn [staged_store st_dirty_refs set_dirty_refs] in Hb. pose proof (bt_insert_sorted _ name tt Hd) as Hsd.
  destruct (bump_refs_spec _ staged t ltac:(by rewrite Hr) (keys_nodup _ Hsd) Hb) as (H1 & H2 & H3). split_and!; [done|done|]. rewrite H3, Hr, He, decide_True; [done|].
  apply (list_elem_of_fmap_2 fst _ (name, tt)), bt_get_elem; [done|]. by rewrite get_insert, decide_True.
Qed.
End batch.
