(* ===== verification/EngineTheorems.v ===== *)
(** What the storage engine of [cas/src/store.rs] guarantees about crashes, and runs of it
    that show where it does not keep what its comments say. The runs use the executable
    digest [mix_hash] in place of BLAKE3. *)

From stdpp Require Import strings.
From S2P Require Import Prelude Bytes Dev BTree Disk Recovery Prolly ChunkStore Extents ChunkProofs Overlay Chunker File Tree Gc Engine StoreOps CommitProofs EngineProofs CommitAtomic LogAppend FormatProofs BatchProofs.

(** ** A store to run *)

Definition mix_step (x : Z * Z) (b : Z) : Z * Z :=
  let a := Z.land (x.1 + b + 1) 65535 in (a, Z.land (x.2 * 2 + a) 4294967295).
Definition mix_hash (l : list Z) : Hash :=
  let x := foldl mix_step (0, 0) l in le_bytes 32 (x.1 + 65536 * (x.2 + 4294967296 * Z.of_nat (length l))).
#[global] Instance mix_laws : HashLaws mix_hash.
Proof. constructor; intros l; [apply le_bytes_length|apply le_bytes_bytes]. Qed.

Definition demo_opts : StoreOptions := MkOpts 512 (MkParams 64 128 256) 100000 100000 1000 100000 600 U64_MAX.
Definition demo_dev : CrashDev := CrashDev_new (Z.to_nat 20704).
Definition no_store : Store CrashDev :=
  MkStore (MkCs demo_dev 0 0 0 [] [] [] (0, 0) None []) demo_opts (MkSb 0 [] 0 0 0 0 0) false RefTable_default [] [] [] 0 0 [] 0 [].
Definition demo_store : Store CrashDev := match format mix_hash demo_dev demo_opts with Ret (Ok s) => s | _ => no_store end.
Definition after {A : Type} (x : outcome (result A StoreError * Store CrashDev)) : Store CrashDev := match x with Ret (_, s) => s | _ => no_store end.

Lemma demo_dev_ok : dev_ok demo_dev.
Proof.
  assert (is_bytes (cd_durable demo_dev)) as Hb by (apply is_bytes_check; vm_compute; reflexivity). assert (cd_current demo_dev = cd_durable demo_dev) as Ec by reflexivity. assert (cd_pending demo_dev = []) as Ep by reflexivity.
  split; rewrite ?Ec, ?Ep; [done|vm_compute; reflexivity|done|done|split; constructor|constructor].
Qed.
Lemma no_record hash_of l seq : decode_record hash_of l = None → log_ends hash_of l seq.
Proof. intros E op n. by rewrite E. Qed.

Lemma fits_check n x : (0 <=? x) && (x <? 256 ^ Z.of_nat n) = true → fits_in n x.
Proof. unfold fits_in. lia. Qed.

Lemma demo_format : format mix_hash demo_dev demo_opts = Ret (Ok demo_store).
Proof.
  assert (match format mix_hash demo_dev demo_opts with Ret (Ok _) => true | _ => false end = true) as Hf by (vm_compute; reflexivity).
  unfold demo_store. by destruct (format mix_hash demo_dev demo_opts) as [[s|e]| |].
Qed.
Lemma demo_blank : log_ends mix_hash (slice (cd_current demo_dev) WAL_OFF (so_wal_len demo_opts)) 1.
Proof. apply no_record. vm_compute. reflexivity. Qed.

(** The formatted store satisfies the invariant. *)
Lemma demo_ok : ∃ m, engine_ok mix_hash demo_store m [].
Proof.
  destruct (format_spec mix_hash demo_dev demo_opts demo_store demo_dev_ok) as (m & _ & _ & _ & _ & _ & _ & V); [done|apply demo_format|]. exists m. apply V, demo_blank.
Qed.

(** An old store with one write in its log, and the store a second format leaves. *)
Definition ref_R : list Z := [114].
Definition ref_Q : list Z := [113].
Definition old_store : Store CrashDev := after ((create_ref mix_hash ref_R;; store_write mix_hash ref_R [[97]] 0 [1; 2; 3] 10) demo_store).
Definition old_dev : CrashDev := reboot (cd_current (cs_dev (st_chunks old_store))).
Definition again_store : Store CrashDev := match format mix_hash old_dev demo_opts with Ret (Ok s) => s | _ => no_store end.

Lemma reboot_ok img : is_bytes img → len_z img < 2 ^ 32 → dev_ok (reboot img).
Proof. intros Hb Hl. split; cbn [reboot cd_durable cd_current cd_pending]; [reflexivity|exact Hl|exact Hb|exact Hb|split; constructor|constructor]. Qed.
Lemma old_dev_ok : dev_ok old_dev.
Proof. apply reboot_ok; [apply is_bytes_check|]; vm_compute; reflexivity. Qed.
Lemma again_format : format mix_hash old_dev demo_opts = Ret (Ok again_store) ∧ cd_pending (cs_dev (st_chunks again_store)) = [].
Proof.
  assert (match format mix_hash old_dev demo_opts with Ret (Ok s) => cd_pending (cs_dev (st_chunks s)) = [] | _ => False end) as H by (vm_compute; reflexivity).
  unfold again_store. by destruct (format mix_hash old_dev demo_opts) as [[s|e]| |].
Qed.
Lemma old_record : ¬ log_ends mix_hash (slice (cd_current old_dev) WAL_OFF (so_wal_len demo_opts)) 1.
Proof.
  assert ((λ x, x.1.1) <$> decode_record mix_hash (slice (cd_current old_dev) WAL_OFF (so_wal_len demo_opts)) = Some 1) as H by (vm_compute; reflexivity).
  intros Hno. destruct (decode_record _ _) as [[[n op] k]|] eqn:E; [|done]. injection H as ->. by apply Hno in E.
Qed.

(** What [commit_ready] asks for, computed. *)
Definition ready_check (s : Store CrashDev) (ops : list WalOp) (t : RefTable) : bool :=
  let old := slice (cd_durable (cs_dev (st_chunks s))) (slot_pos (negb (st_sb_in_b s))) SB_SIZE in
  forallb (λ b, (0 <=? b) && (b <? 256)) (RefTable_encode t) && (sb_generation (st_sb s) + 2 <=? U64_MAX) && bool_decide (cs_condemned (st_chunks s) = []) &&
  match bt_get (mix_hash (RefTable_encode t)) (cs_index (st_chunks s)) with
  | Some e => bool_decide (slice (cd_current (cs_dev (st_chunks s))) (cs_chunk_off (st_chunks s) + ie_off e) (ie_len e) = RefTable_encode t)
  | None => true
  end &&
  match decode_record mix_hash (stale_bytes mix_hash s ops) with None => true | Some _ => false end &&
  match commit_prepare mix_hash s with
  | Ret (Ok x, _) => forallb (λ k, negb (checksum_ok mix_hash (torn_slot k (Superblock_encode mix_hash x.1.1) old)) ||
      bool_decide (slice (torn_slot k (Superblock_encode mix_hash x.1.1) old) 0 SB_BODY = slice (Superblock_encode mix_hash x.1.1) 0 SB_BODY)) (seq 0 97)
  | _ => true
  end.
Lemma ready_ok s m ops t :
  engine_ok mix_hash s m ops → bump_refs (st_dirty_refs s).*1 (st_table s) = Some t → reft_valid t → ready_check s ops t = true → commit_ready mix_hash s m ops t.
Proof.
  intros V Hb Ht H. destruct (eo_sb _ _ _ _ V) as [E1 E2]. unfold ready_check in H. cbv zeta in H. apply andb_prop in H as [[[[[H1 H2]%andb_prop H3]%andb_prop H4]%andb_prop H5]%andb_prop H6]. rewrite E1, E2 in *. split.
  - exact Hb.
  - split; [done|]. by apply is_bytes_check.
  - lia.
  - intros e He. rewrite He in H4. by apply bool_decide_eq_true in H4.
  - left. by apply bool_decide_eq_true in H3.
  - apply no_record. by destruct (decode_record _ _).
  - intros x s' E k Hk Hck. rewrite E in H6. rewrite forallb_forall in H6. specialize (H6 k). rename H6 into Hx. rewrite in_seq in Hx. specialize (Hx ltac:(unfold SB_BODY in Hk; lia)). rewrite Hck in Hx. cbn in Hx. left. by apply bool_decide_eq_true in Hx.
Qed.

(** A crash of the store may leave this image. *)
Definition crash_of (s : Store CrashDev) (img : list Z) : Prop := crashes (cd_durable (cs_dev (st_chunks s))) (cd_pending (cs_dev (st_chunks s))) img.

(** ** Format *)

(** C8: [format] on a device of any contents, when it returns a store, has written a
    commit of the empty ref table and left nothing of it to lose, but it does not clear
    the log region: the records of the old store numbered from 1 on are still its log, and
    the next mount, crash or not, is the empty table with exactly those operations
    replayed. If the old contents have no record number 1 there is no such operation, and
    the new store satisfies the invariant of the engine. [reformat_replays_old_log] below
    is a format with one. *)
Theorem format_establishes (hash_of : list Z → Hash) `{!HashLaws hash_of} (d : CrashDev) (opts : StoreOptions) (s : Store CrashDev) :
  dev_ok d → 0 ≤ so_wal_len opts → format hash_of d opts = Ret (Ok s) →
  ∃ m ops tail, cm_table m = RefTable_default ∧ st_table s = RefTable_default ∧
    slice (cd_current d) WAL_OFF (so_wal_len opts) = log_of hash_of ops 1 ++ tail ∧ ops_valid ops 1 ∧ log_ends hash_of tail (1 + Z.of_nat (length ops)) ∧
    (∀ img, crash_of s img → mount hash_of (reboot img) opts = mounted hash_of img opts m ops) ∧
    (log_ends hash_of (slice (cd_current d) WAL_OFF (so_wal_len opts)) 1 → ops = [] ∧ engine_ok hash_of s m []).
Proof.
  intros V Hw Hf. destruct (format_spec hash_of d opts s V Hw Hf) as (m & C & Hp & Ht & Hst & H1 & Hregion & Hok).
  set (l := slice (cd_current d) WAL_OFF (so_wal_len opts)) in *.
  destruct (bytes_log hash_of l) as (ops & tail & El & Hv & Hfit & Hend); [by apply slice_is_bytes, V| |].
  { rewrite <-Hregion, (region_length hash_of _ _ C). pose proof (ci_geom _ _ _ C) as [_ Hg]. pose proof (sb_nonneg _ (ci_sb _ _ _ C)). pose proof (ci_small _ _ _ C). unfold cm_chunk_off, WAL_OFF in Hg. lia. }
  exists m, ops, tail. do 5 (split; [done|]). split.
  - intros img Hc. unfold crash_of in Hc. rewrite Hp in Hc. assert (img = cd_durable (cs_dev (st_chunks s))) as -> by (by inversion Hc).
    apply (mount_log hash_of _ _ _ _ C). constructor; rewrite H1; [|exact Hv|exact Hfit]. exists tail. by rewrite Hregion.
  - intros Hno. split; [|by apply Hok]. by destruct (log_unique hash_of ops [] tail l 1 Hv) as [-> _]; [by intros i o|done..].
Qed.

(** On a blank device, and on the device of an old store whose first record is a write. *)
Lemma format_establishes_witness :
  (∃ m, engine_ok mix_hash demo_store m [] ∧ cm_table m = RefTable_default) ∧
  ∃ m ops, cm_table m = RefTable_default ∧ (0 < length ops)%nat ∧
    mount mix_hash (reboot (cd_durable (cs_dev (st_chunks again_store)))) demo_opts = mounted mix_hash (cd_durable (cs_dev (st_chunks again_store))) demo_opts m ops.
Proof.
  split.
  - destruct (format_establishes mix_hash demo_dev demo_opts demo_store demo_dev_ok) as (m & ops & tail & Ht & _ & _ & _ & _ & _ & Hok); [done|apply demo_format|].
    exists m. split; [apply Hok, demo_blank|exact Ht].
  - destruct again_format as [Hf Hp].
    destruct (format_establishes mix_hash old_dev demo_opts again_store old_dev_ok) as (m & ops & tail & Ht & _ & El & _ & Hend & Hm & _); [done|exact Hf|].
    exists m, ops. split; [exact Ht|]. split.
    + destruct ops as [|op ops]; [|apply Nat.lt_0_succ]. exfalso. apply old_record. cbn [log_of app length] in El, Hend. rewrite El. exact Hend.
    + apply Hm. unfold crash_of. rewrite Hp. apply crashes_done.
Defined.

(** ** Commit *)

(** C4: a commit is atomic. From a consistent engine, on a device that may fail at any
    write or flush, [commit] returns (it neither panics nor runs on). Whatever part of its
    writes a crash then keeps, the next mount is the mount of the commit before it, with
    the log it had, or of the next commit, with the operations that are not flushed yet;
    and of the next commit only when [commit] has returned [Ok], in which case the engine
    is again consistent. [commit_ready] is what the code relies on and does not check: the
    ref table is encodable (a snapshot row of class 3, which a client can create, is not:
    [bad_class_bricks_store] in [ServerTheorems]), no stale bytes continue the log as a
    record ([log_forged_by_data] below), no counter overflows, the digest of the table is
    its own and a torn superblock fails its checksum. *)
Theorem commit_atomic (hash_of : list Z → Hash) `{!HashLaws hash_of} (s : Store CrashDev) (m : Commit) (ops : list WalOp) (t : RefTable) (opts : StoreOptions) :
  engine_ok hash_of s m ops → commit_ready hash_of s m ops t →
  ∃ r s', commit hash_of s = Ret (r, s') ∧
    (r = Ok tt → ∃ m', next_commit s t m m' ∧ engine_ok hash_of s' m' (unflushed s ops)) ∧
    ∀ img, crash_of s' img →
      (r ≠ Ok tt ∧ mount hash_of (reboot img) opts = mounted hash_of img opts m ops) ∨
      (∃ m', next_commit s t m m' ∧ mount hash_of (reboot img) opts = mounted hash_of img opts m' (unflushed s ops)).
Proof.
  intros V R. pose proof (commit_spec hash_of s m ops t V R) as H. unfold ewp in H. destruct (commit hash_of s) as [[r s']| |]; [|done..]. exists r, s'. split; [done|]. destruct r as [[]|e].
  - destruct H as [(m' & N & V') _]. split; [by exists m'|]. intros img Hc. right. exists m'. split; [done|]. destruct (crash_running hash_of s' m' _ img V' Hc). by apply mount_log.
  - split; [done|]. intros img Hc. destruct (H img Hc) as [[H1 H2]|(m' & N & H1 & H2)]; [left; split; [done|by apply mount_log]|right; exists m'; split; [done|by apply mount_log]].
Qed.

Definition demo_op : WalOp := Write [114] [[97]] 0 7 [1; 2; 3].
Definition demo_logged : Store CrashDev := after (wal_append demo_op (encode_record mix_hash demo_op (st_wal_seq demo_store)) demo_store).
Lemma demo_record_valid : record_valid demo_op 1.
Proof.
  split; [|split; apply fits_check; vm_compute; reflexivity]. split; [cbn; lia|]. split; [|split; [by apply fits_check|split; by apply fits_check]]. split; [cbn; lia|]. intros c [->|?%elem_of_nil]%elem_of_cons; [cbn; lia|done].
Qed.
Lemma demo_append_ready m : engine_ok mix_hash demo_store m [] → append_ready mix_hash demo_store m [] demo_op ∧ wal_usage demo_store = Ret (Ok 0, demo_store).
Proof.
  intros V. assert (st_wal_seq demo_store = 1) as Es by (vm_compute; reflexivity). split.
  - split; rewrite ?Es.
    + apply demo_record_valid.
    + apply is_bytes_check. vm_compute. reflexivity.
    + vm_compute. discriminate.
    + apply no_record. destruct (eo_sb _ _ _ _ V) as [<- _]. vm_compute. reflexivity.
  - apply (usage_spec mix_hash demo_store m [] V).
Qed.
Definition succeeds {A : Type} (x : outcome (result A StoreError * Store CrashDev)) : bool := match x with Ret (Ok _, _) => true | _ => false end.
Lemma append_after s m ops op u :
  engine_ok mix_hash s m ops → append_ready mix_hash s m ops op → wal_usage s = Ret (Ok u, s) → (u + len_z (encode_record mix_hash op (st_wal_seq s)) <=? so_wal_len (st_opts s)) = true →
  succeeds (wal_append op (encode_record mix_hash op (st_wal_seq s)) s) = true → engine_ok mix_hash (after (wal_append op (encode_record mix_hash op (st_wal_seq s)) s)) m (ops ++ [op]).
Proof.
  intros V R U Hroom%Z.leb_le Hok. pose proof (append_spec mix_hash s m ops op u V R U Hroom) as H. unfold ewp in H. by destruct (wal_append _ _ s) as [[[off|e] s']| |].
Qed.
Lemma demo_logged_ok : ∃ m, engine_ok mix_hash demo_logged m [demo_op].
Proof. destruct demo_ok as [m V]. exists m. destruct (demo_append_ready m V) as [R U]. apply (append_after demo_store m [] demo_op 0 V R U); vm_compute; reflexivity. Qed.
Lemma commit_atomic_witness :
  ∃ m t, engine_ok mix_hash demo_logged m [demo_op] ∧ commit_ready mix_hash demo_logged m [demo_op] t ∧
  ∃ r s', commit mix_hash demo_logged = Ret (r, s') ∧ ∃ m', next_commit demo_logged t m m' ∧ engine_ok mix_hash s' m' [demo_op].
Proof.
  destruct demo_logged_ok as [m V]. exists m, RefTable_default. assert (commit_ready mix_hash demo_logged m [demo_op] RefTable_default) as R.
  { apply ready_ok; [exact V|vm_compute; reflexivity|apply default_valid|vm_compute; reflexivity]. }
  split; [exact V|]. split; [exact R|]. destruct (commit_atomic mix_hash demo_logged m [demo_op] RefTable_default demo_opts V R) as (r & s' & E & Hok & _). exists r, s'. split; [exact E|].
  assert (match commit mix_hash demo_logged with Ret (Ok _, _) => true | _ => false end = true) as Hr by (vm_compute; reflexivity). rewrite E in Hr. destruct r as [[]|e]; [|discriminate Hr]. destruct (Hok eq_refl) as (m' & N & V').
  exists m'. split; [exact N|]. assert (unflushed demo_logged [demo_op] = [demo_op]) as Eu by (vm_compute; reflexivity). rewrite <-Eu. exact V'.
Defined.

(** ** Append *)

(** C5: an acknowledged operation is durable. From a consistent engine with room on the
    ring, [wal_append] returns; when it has returned [Ok], every crash and mount replays
    the operations of the log and the new one after them, in order; when it has returned
    an error, every crash leaves the commit and a log that still begins with the
    operations acknowledged before. The record may wrap around the end of the ring.
    [append_ready] asks that the record is encodable, that the sequence number does not
    overflow and that the stale bytes after the new record do not continue the log; the
    code does not ensure the last: [log_forged_by_data] below. *)
Theorem append_durable (hash_of : list Z → Hash) `{!HashLaws hash_of} (s : Store CrashDev) (m : Commit) (ops : list WalOp) (op : WalOp) (u : Z) (opts : StoreOptions) :
  engine_ok hash_of s m ops → append_ready hash_of s m ops op → wal_usage s = Ret (Ok u, s) → u + len_z (encode_record hash_of op (st_wal_seq s)) ≤ so_wal_len (st_opts s) →
  ∃ r s', wal_append op (encode_record hash_of op (st_wal_seq s)) s = Ret (r, s') ∧
    match r with
    | Ok _ => engine_ok hash_of s' m (ops ++ [op]) ∧ ∀ img, crash_of s' img → mount hash_of (reboot img) opts = mounted hash_of img opts m (ops ++ [op])
    | Err _ => ∀ img, crash_of s' img → keeps_log hash_of m ops img
    end.
Proof.
  intros V R U Hroom. pose proof (append_spec hash_of s m ops op u V R U Hroom) as H. unfold ewp in H. destruct (wal_append _ _ s) as [[r s']| |]; [|done..]. exists r, s'. split; [done|]. destruct r as [off|e]; [|exact H].
  split; [exact H|]. intros img Hc. destruct (crash_running hash_of s' m _ img H Hc). by apply mount_log.
Qed.
Lemma append_durable_witness :
  ∃ m, engine_ok mix_hash demo_store m [] ∧ append_ready mix_hash demo_store m [] demo_op ∧
  ∃ r s', wal_append demo_op (encode_record mix_hash demo_op (st_wal_seq demo_store)) demo_store = Ret (Ok r, s') ∧ engine_ok mix_hash s' m [demo_op].
Proof.
  destruct demo_ok as [m V]. destruct (demo_append_ready m V) as [R U]. exists m. split; [exact V|]. split; [exact R|].
  destruct (append_durable mix_hash demo_store m [] demo_op 0 demo_opts V R U) as (r & s' & E & H); [vm_compute; discriminate|].
  assert (match wal_append demo_op (encode_record mix_hash demo_op (st_wal_seq demo_store)) demo_store with Ret (Ok _, _) => true | _ => false end = true) as Hok by (vm_compute; reflexivity).
  rewrite E in Hok. destruct r as [off|e]; [|discriminate Hok]. exists off, s'. split; [exact E|apply H].
Defined.

(** ** Guarded batches *)

(** C9: a batch of ref-table edits is a compare-and-swap, all or nothing, also across a
    crash. A batch with another version than the ref's, or with an edit that fails, changes
    nothing. One with the ref's version [v] whose edits all apply returns; on [Ok] it
    returns [v + 1]; the table it commits holds the staged snapshots and tags and the ref at
    version [v + 1]; and every crash and mount gives the commit before it or the commit
    with that table. The commit is under the same [commit_ready] as above, for the staged
    table; what the running store holds after a commit that failed is not stated. *)
Theorem batch_atomic (hash_of : list Z → Hash) `{!HashLaws hash_of} (s : Store CrashDev) (m : Commit) (ops : list WalOp) (t staged : RefTable)
    (name : list Z) (v : Z) (e : RefEntry) (edits : list RefEdit) (opts : StoreOptions) :
  bt_sorted (rt_refs (st_table s)) → bt_sorted (st_dirty_refs s) → bt_get name (rt_refs (st_table s)) = Some e → re_edit_version e = v →
  (∀ v', v' ≠ v → apply_batch hash_of name v' edits s = Ret (Err (VersionMismatch v), s)) ∧
  (∀ x, stage_edits (st_table s) name edits = Err x → apply_batch hash_of name v edits s = Ret (Err x, s)) ∧
  (stage_edits (st_table s) name edits = Ok staged → engine_ok hash_of s m ops → commit_ready hash_of (staged_store name staged s) m ops t →
    rt_snaps t = rt_snaps staged ∧ rt_tags t = rt_tags staged ∧ bt_get name (rt_refs t) = Some (bumped e) ∧
    ∃ r s', apply_batch hash_of name v edits s = Ret (r, s') ∧ (∀ v', r = Ok v' → v' = v + 1) ∧
    ∀ img, crash_of s' img →
      mount hash_of (reboot img) opts = mounted hash_of img opts m ops ∨
      (∃ m', cm_table m' = t ∧ mount hash_of (reboot img) opts = mounted hash_of img opts m' (unflushed s ops))).
Proof.
  intros Hs Hd He Hv. split; [intros v' Hne; rewrite <-Hv in Hne |- *; by apply batch_refused|]. split; [intros x Hx; by apply (batch_refused hash_of s name v edits e)|].
  intros Hst V R. pose proof (cr_bump _ _ _ _ _ R) as Hb. destruct (batch_table s name edits e staged t Hs Hd He Hst Hb) as (T1 & T2 & T3). split_and!; [done|done|done|].
  rewrite (batch_runs hash_of s name v edits e staged He Hv Hst). pose proof (commit_spec hash_of _ m ops t (engine_table hash_of s m ops name staged V) R) as H. unfold ewp in H.
  destruct (commit hash_of (staged_store name staged s)) as [[[[]|x] s']| |]; [| |done..].
  - destruct H as [(m' & N & V') Et]. unfold edit_version. rewrite Et, T3. eexists _, s'. split; [reflexivity|]. split; [intros v' [= <-]; cbn; lia|]. intros img Hc. right. exists m'. split; [apply N|]. destruct (crash_running hash_of s' m' _ img V' Hc). by apply mount_log.
  - eexists _, s'. split; [reflexivity|]. split; [done|]. intros img Hc. destruct (H img Hc) as [[H1 H2]|(m' & N & H1 & H2)]; [left; by apply mount_log|right]. exists m'. split; [apply N|by apply mount_log].
Qed.

Definition demo_ref : RefEntry := MkRefEntry (replicate 32 9) 0 2 5.
Definition demo_snap (msg : list Z) : SnapRow := MkSnapRow 1 (replicate 32 9) 7 [] None msg 0.
Definition demo_table (msg : list Z) (tags : btree (list Z) (list Z * Z)) (v : Z) : RefTable :=
  MkRefTable [([114], MkRefEntry (replicate 32 9) 0 2 v)] [(([114], 1), demo_snap msg)] tags.
Definition demo_edits : list RefEdit := [SetMessage 1 [104; 105]; CreateTag [116] 1].
Definition demo_named : Store CrashDev := staged_store [114] (demo_table [] [] 5) demo_store.
Lemma demo_table_valid : reft_valid (demo_table [104; 105] [([116], ([114], 1))] 6).
Proof.
  split; cbn [demo_table rt_refs rt_snaps rt_tags]; try (split; [by intros ? ? ?%elem_of_nil|done]).
  - intros n e [[= -> ->]|?%elem_of_nil]%elem_of_cons; [|done]. cbn. split; [lia|]. split; [reflexivity|]. split; [by apply fits_check|]. split; by apply fits_check.
  - intros n i r [[= -> -> ->]|?%elem_of_nil]%elem_of_cons; [|done]. cbn. split; [done|]. split; [lia|]. split; [by apply fits_check|]. split; [reflexivity|]. split; [by apply fits_check|]. split; [lia|]. split; [done|]. split; [by apply fits_check|done].
  - intros n r i [[= -> -> ->]|?%elem_of_nil]%elem_of_cons; [|done]. cbn. split; [lia|]. split; [lia|by apply fits_check].
  - split; [by apply fits_check|]. split; by apply fits_check.
Qed.
Lemma batch_atomic_witness :
  apply_batch mix_hash [114] 4 demo_edits demo_named = Ret (Err (VersionMismatch 5), demo_named) ∧
  ∃ r s', apply_batch mix_hash [114] 5 demo_edits demo_named = Ret (r, s') ∧ (∀ v', r = Ok v' → v' = 6).
Proof.
  destruct demo_ok as [m V0]. pose proof (engine_table mix_hash demo_store m [] [114] (demo_table [] [] 5) V0 : engine_ok mix_hash demo_named m []) as V.
  destruct (batch_atomic mix_hash demo_named m [] (demo_table [104; 105] [([116], ([114], 1))] 6) (demo_table [104; 105] [([116], ([114], 1))] 5) [114] 5 demo_ref demo_edits demo_opts) as (H1 & _ & H3).
  1: change (rt_refs (st_table demo_named)) with (rt_refs (demo_table [] [] 5)); split; [by intros ? ? ?%elem_of_nil|exact I].
  1: assert (st_dirty_refs demo_named = [([114], tt)]) as -> by (vm_compute; reflexivity); split; [by intros ? ? ?%elem_of_nil|exact I].
  1: change (rt_refs (st_table demo_named)) with (rt_refs (demo_table [] [] 5)); reflexivity.
  1: reflexivity.
  split; [apply H1; discriminate|]. destruct H3 as (_ & _ & _ & r & s' & E & Hv & _); [change (st_table demo_named) with (demo_table [] [] 5); reflexivity|exact V| |exists r, s'; exact (conj E Hv)].
  apply ready_ok; [exact (engine_table mix_hash demo_named m [] _ _ V)|vm_compute; reflexivity|apply demo_table_valid|vm_compute; reflexivity].
Defined.

(** ** Space *)

(** C22: a put stays in its bounds. Putting an object into a consistent chunk store keeps
    every object, free extent and reserved extent pairwise disjoint, below the tail, and
    the tail inside the device; every indexed object still has the bytes its hash names; no
    other hash is gained or lost; and unless the device failed or the region is full, the
    object is there and, when its hash is new, reads back. *)
Theorem put_in_bounds (hash_of : list Z → Hash) `{!HashLaws hash_of} (c c' : ChunkStore CrashDev) (pending : list (Z * Z)) (b : list Z) (h : Hash) :
  space_ok hash_of c pending → is_bytes b → chunk_put hash_of b c = (h, c') →
  apart (extents (cs_index c') (cs_free c') pending) ∧ Forall (within (cs_tail c')) (extents (cs_index c') (cs_free c') pending) ∧ cs_chunk_off c' + cs_tail c' ≤ len_z (cd_durable (cs_dev c')) ∧
  (∀ k e, bt_get k (cs_index c') = Some e → hash_of (slice (cd_current (cs_dev c')) (cs_chunk_off c' + ie_off e) (ie_len e)) = k) ∧
  (∀ k, k ≠ h → bt_get k (cs_index c') = bt_get k (cs_index c)) ∧
  (cs_io_error c' = None → is_Some (bt_get h (cs_index c')) ∧ (bt_get h (cs_index c) = None → chunk_get hash_of c' h = Some b)).
Proof.
  intros V Hb E. destruct (chunk_put_spec hash_of c pending b h c' V Hb E) as (Eh & V' & F & _ & Hk & Hio & _ & Hnew). destruct (sp_tail _ _ _ V') as [T1 T2]. unfold region_len in T2. cbn [dev_len CrashDev_dev] in T2.
  assert (∀ k e, bt_get k (cs_index c') = Some e → hash_of (slice (cd_current (cs_dev c')) (cs_chunk_off c' + ie_off e) (ie_len e)) = k) as Hobj. { intros k e He. apply (sp_object _ _ _ V'). by apply bt_get_elem; [apply V'|]. }
  split_and!; [apply V'|apply V'|lia|done|done|]. intros Hn. split; [by apply Hio|]. intros Hnone. destruct (Hio Hn) as [e He]. unfold chunk_get, read_object. rewrite He. cbn [dev_read CrashDev_dev].
  pose proof (proj1 (bt_get_elem _ _ _ (sp_index _ _ _ V')) He) as Hin. pose proof (sp_within _ _ _ V') as Wi. apply Forall_app in Wi as [Wi _]. rewrite Forall_forall in Wi. pose proof (Wi _ (frame_slot _ _ _ Hin)) as We. unfold within, frame_of, CHUNK_HEADER in We. cbn [fst snd] in We.
  destruct (sp_entry _ _ _ V' _ _ Hin) as [_ [Hle _]]. pose proof (sp_off _ _ _ V') as Ho. unfold WAL_OFF in Ho. pose proof (dk_length _ (sp_dev _ _ _ V')) as Hl. pose proof (dk_small _ (sp_dev _ _ _ V')) as Hsm. unfold len_z in *.
  rewrite read_ok by (unfold len_z; lia). rewrite (Hobj h e He), bool_decide_eq_true_2 by done. cbn [negb]. by rewrite (pf_off _ _ F), (Hnew Hnone e He).
Qed.
Definition put_demo (b : list Z) : ChunkStore CrashDev := (chunk_put mix_hash b (st_chunks demo_store)).2.
Lemma put_in_bounds_witness : chunk_get mix_hash (put_demo [4; 5; 6]) (mix_hash [4; 5; 6]) = Some [4; 5; 6] ∧ cs_tail (put_demo [4; 5; 6]) ≤ 20704.
Proof.
  destruct demo_ok as [m V]. destruct (put_in_bounds mix_hash (st_chunks demo_store) (put_demo [4; 5; 6]) _ [4; 5; 6] (mix_hash [4; 5; 6]) (eo_space _ _ _ _ V)) as (_ & _ & _ & _ & _ & H).
  - apply is_bytes_check. reflexivity.
  - unfold put_demo. generalize (st_chunks demo_store). intros c. unfold chunk_put. by repeat case_match.
  - split; [|vm_compute; discriminate]. destruct H as [_ H]; [vm_compute; reflexivity|]. apply H. vm_compute. reflexivity.
Defined.

(** ** Runs *)

(** What a read of [path] in [name] returns. *)
Definition read_of (name : list Z) (path : Path) (s : Store CrashDev) : option (result (option (list Z)) StoreError) :=
  match store_read mix_hash name path s with Ret (r, _) => Some r | _ => None end.
(** The device loses power and the store is mounted again. *)
Definition remounted (s : Store CrashDev) : Store CrashDev := match mount mix_hash (crash 7 (cs_dev (st_chunks s))) demo_opts with Ret (Ok s') => s' | _ => no_store end.

Definition two_refs : eng CrashDev unit := create_ref mix_hash ref_R;; create_ref mix_hash ref_Q.

Definition undo_run : eng CrashDev unit :=
  two_refs;;
  store_write mix_hash ref_R [[98]] 0 [1; 2; 3] 10;;
  store_write mix_hash ref_R [[97]] 0 [9; 9] 10;;
  sync_ref mix_hash ref_R;;
  store_write mix_hash ref_Q [[99]] 0 [5] 11;;
  store_unlink mix_hash ref_R [[97]] 12;;
  store_rename mix_hash ref_R [[98]] [[97]] 13;;
  sync_ref mix_hash ref_R.

(** A mount undoes committed work. A ref's file [b] is renamed onto an unlinked [a]
    while another ref holds an older record in the log; every operation succeeds and the
    ref is synced, so [a] is committed and reads [1; 2; 3]. The two records stay in the log
    behind the other ref's, and the next mount replays them over the commit that already
    has them: the unlink removes the committed [a], and [a] reads as absent. *)
Lemma replay_undoes_commit :
  let s := after (undo_run demo_store) in
  succeeds (undo_run demo_store) = true ∧ read_of ref_R [[97]] s = Some (Ok (Some [1; 2; 3])) ∧ read_of ref_R [[97]] (remounted s) = Some (Ok None).
Proof. split; [vm_compute; reflexivity|]. split; vm_compute; reflexivity. Qed.

(** The bytes of a record for the other ref, placed where the next record of the log ends. *)
Definition second_write : list Z := replicate 20 7.
Definition forged_record : list Z := encode_record mix_hash (Write ref_Q [[99]] 0 10 [66; 66]) 3.
Definition carrier : list Z :=
  replicate (length (encode_record mix_hash (Write ref_R [[97]] 0 10 second_write) 2) - length (encode_record mix_hash (Write ref_R [[97]] 0 10 []) 1)) 0 ++ forged_record.
Definition forge_run : eng CrashDev unit :=
  two_refs;;
  store_write mix_hash ref_R [[97]] 0 carrier 10;;
  sync_ref mix_hash ref_R;;
  store_write mix_hash ref_R [[97]] 0 second_write 10.

(** File data becomes a log record. A client of one ref writes data that holds the
    encoding of a record for another ref, syncs, and writes again. The second record
    overwrites the front of the first on the ring and ends where the embedded one begins,
    with the number it carries: after a crash the mount replays it, and the other ref reads
    a file that was never written to it. *)
Lemma log_forged_by_data :
  let s := after (forge_run demo_store) in
  succeeds (forge_run demo_store) = true ∧ read_of ref_Q [[99]] s = Some (Ok None) ∧ read_of ref_Q [[99]] (remounted s) = Some (Ok (Some [66; 66])).
Proof. split; [vm_compute; reflexivity|]. split; vm_compute; reflexivity. Qed.

(** A device formatted again keeps the records of its log: the first operation of the old
    store comes back in the new one. *)
Definition new_store : Store CrashDev := after (create_ref mix_hash ref_R again_store).
Lemma reformat_replays_old_log : read_of ref_R [[97]] new_store = Some (Ok None) ∧ read_of ref_R [[97]] (remounted new_store) = Some (Ok (Some [1; 2; 3])).
Proof. split; vm_compute; reflexivity. Qed.

(** Two acknowledged writes, of a file and of a file below it: the flush refuses them and
    both are gone. *)
Definition conflict_run : eng CrashDev unit := create_ref mix_hash ref_R;; store_write mix_hash ref_R [[97]; [98]] 0 [1; 2; 3] 10;; store_write mix_hash ref_R [[97]] 0 [9; 9] 10.
Lemma flush_conflict_loses_writes :
  let s := after (conflict_run demo_store) in
  succeeds (conflict_run demo_store) = true ∧ read_of ref_R [[97]; [98]] s = Some (Ok (Some [1; 2; 3])) ∧ succeeds (sync_ref mix_hash ref_R s) = false ∧ read_of ref_R [[97]; [98]] (after (sync_ref mix_hash ref_R s)) = Some (Ok None).
Proof. split; [vm_compute; reflexivity|]. split; [vm_compute; reflexivity|]. split; vm_compute; reflexivity. Qed.

(** A log with a rename of a dirty file onto itself, every record well-formed: the mount
    panics. *)
Definition self_rename : list Z := encode_record mix_hash (Write ref_R [[97]] 0 10 [1]) 1 ++ encode_record mix_hash (Rename ref_R [[97]] [[97]] 10) 2.
Lemma mount_panics : mount mix_hash (reboot (splice (cd_durable (cs_dev (st_chunks (after (create_ref mix_hash ref_R demo_store))))) WAL_OFF self_rename)) demo_opts = Panic.
Proof. vm_compute. reflexivity. Qed.

(** A commit that fails at its superblock and one that succeeds after it: the old index
    extent is freed twice, and the free list holds overlapping extents. *)
Definition fails_after (n : Z) : eng CrashDev unit := update (λ s, set_chunks (with_dev (set_fail_after n (cs_dev (st_chunks s))) (st_chunks s)) s).
Definition heals : eng CrashDev unit := update (λ s, set_chunks (with_dev (clear_fail (cs_dev (st_chunks s))) (st_chunks s)) s).
Definition synced_once : Store CrashDev := after ((two_refs;; store_write mix_hash ref_R [[97]] 0 [1] 10;; sync_ref mix_hash ref_R;; store_write mix_hash ref_R [[97]] 0 [2] 10;; fails_after 2) demo_store).
Lemma failed_commit_double_free :
  succeeds (sync_ref mix_hash ref_R synced_once) = false ∧ cs_free (st_chunks (after ((heals;; sync_ref mix_hash ref_R) (after (sync_ref mix_hash ref_R synced_once))))) = [(142, 62); (637, 2); (999, 596); (1147, 448)].
Proof. split; vm_compute; reflexivity. Qed.
