(* ===== verification/StorageServer.v ===== *)
(** The storage server ([storage-server/src/lib.rs], [wire.rs]): sessions of handles over
    the store, rights, tickets, and the dispatch of a request. *)

From stdpp Require Import strings.
From S2P Require Import Prelude Bytes Dev BTree Disk Recovery Prolly ChunkStore Overlay Chunker File Tree Gc Engine StoreOps.

(** ** Rights *)
Definition R_READ : Z := 1.
Definition R_WRITE : Z := 2.
Definition R_SNAPSHOT : Z := 4.
Definition R_REWRITE_HISTORY : Z := 8.
Definition R_ENUMERATE : Z := 16.
Definition R_STAT_STORE : Z := 32.
Definition R_ALL : Z := 31.
Definition attenuate (parent mask : Z) : Z := Z.land parent mask.

(** ** Handles and sessions *)
Definition SessionId : Type := Z.
Definition HandleId : Type := Z.
Inductive HandleTarget : Type :=
| OnSnapshot (root : Hash)
| OnRef (name : list Z) (subtree : Path) (gen_at_grant : Z).
Record HandleEntry : Type := MkHandle { he_target : HandleTarget; he_rights : Z }.
Record Session : Type := MkSession { se_handles : btree HandleId HandleEntry; se_next_handle : HandleId }.
Definition Session_default : Session := MkSession [] 0.
(** [next_handle += 1] on a [u32]. *)
Definition session_insert (e : HandleEntry) (s : Session) : outcome (HandleId * Session) :=
  let id := se_next_handle s in
  if decide (id + 1 ≤ U32_MAX) then Ret (id, MkSession (bt_insert id e (se_handles s)) (id + 1)) else Panic.

(** ** Protocol *)
Inductive Request : Type :=
| ReqRead (handle : HandleId) (path : Path) (offset len : Z)
| ReqWrite (handle : HandleId) (path : Path) (offset : Z) (data : list Z)
| ReqUnlink (handle : HandleId) (path : Path)
| ReqList (handle : HandleId) (path : Path)
| ReqOpenChild (handle : HandleId) (path : Path) (rights_mask : Z)
| ReqClose (handle : HandleId)
| ReqSync (handle : HandleId)
| ReqSnapshot (handle : HandleId) (message : list Z) (class : Z)
| ReqListSnapshots (handle : HandleId)
| ReqOpenSnapshot (handle : HandleId) (snap_id : Z) (path : Path) (rights_mask : Z)
| ReqRollback (handle : HandleId) (snap_id : Z)
| ReqRevokeRef (handle : HandleId)
| ReqMintTicket (handle : HandleId) (ttl_nanos : Z)
| ReqRedeemTicket (ticket : list Z)
| ReqStat (handle : HandleId) (path : Path)
| ReqEnumerateSession
| ReqDeleteSnapshot (handle : HandleId) (snap_id : Z)
| ReqSetClass (handle : HandleId) (snap_id class : Z)
| ReqGc (handle : HandleId)
| ReqStatfs (handle : HandleId)
| ReqApply (handle : HandleId) (expected_version : Z) (edits : list RefEdit)
| ReqTag (handle : HandleId) (name : list Z) (snap_id : Z)
| ReqUntag (handle : HandleId) (name : list Z)
| ReqListTags (handle : HandleId)
| ReqRename (handle : HandleId) (from to : Path).

Inductive DirEnt : Type := DirEnt_File (name : list Z) (size : Z) | DirEnt_Dir (name : list Z).
Record SnapInfo : Type := MkSnapInfo { si_id : Z; si_timestamp : Z; si_provenance : list Z; si_message : list Z; si_class : Z }.
Inductive ErrorCode : Type :=
| CBadHandle | CStale | CDenied | CBadPath | CNotADir | CReadOnly | CNoSuchSnapshot | CBadTicket | CInternal | CPinned | CBadOffset.
(** What [describe] prints of a handle: the parts of its text. *)
Inductive Description : Type := DescRef (name : list Z) (depth rights : Z) | DescSnapshot (rights : Z).
Inductive Response : Type :=
| RespOk
| RespData (d : list Z)
| RespNotFound
| RespHandle (h : HandleId)
| RespListing (l : list DirEnt)
| RespSnapshots (snaps : list SnapInfo) (edit_version : Z)
| RespSnapId (id : Z)
| RespTicket (t : list Z)
| RespSessionDump (d : list (HandleId * Description))
| RespErr (e : ErrorCode)
| RespGcReport (live_objects freed_objects freed_bytes : Z)
| RespSpace (total used free : Z)
| RespApplied (edit_version : Z)
| RespVersionMismatch (edit_version : Z)
| RespTags (l : list (list Z * list Z * Z)).

Definition store_err (e : StoreError) : ErrorCode :=
  match e with
  | NoSuchRef => CStale
  | NoSuchSnapshot => CNoSuchSnapshot
  | NotAFile => CBadPath
  | EFormat _ => CBadPath
  | Pinned => CPinned
  | WriteOutOfRange => CBadOffset
  | NotFound => CBadPath
  | _ => CInternal
  end.

Definition describe (h : HandleEntry) : Description :=
  match he_target h with
  | OnRef name subtree _ => DescRef name (Z.of_nat (length subtree)) (he_rights h)
  | OnSnapshot _ => DescSnapshot (he_rights h)
  end.

Definition full_path (subtree path : Path) : Path := subtree ++ path.
Definition valid_path (path : Path) : bool := forallb (λ c, match validate_name c with Ok _ => true | Err _ => false end) path.
(** The paths of a request that are validated up front. *)
Definition request_paths (req : Request) : list Path :=
  match req with
  | ReqRead _ p _ _ | ReqWrite _ p _ _ | ReqUnlink _ p | ReqList _ p | ReqOpenChild _ p _ | ReqStat _ p | ReqOpenSnapshot _ _ p _ => [p]
  | ReqRename _ from to => [from; to]
  | _ => []
  end.

(** ** The server *)
Definition MAX_TICKET_TTL_NANOS : Z := 60000000000.
Record PendingTicket : Type := MkPending { pt_entry : HandleEntry; pt_expires : Z }.

Record Server (D : Type) : Type := MkServer {
  sv_store : Store D; sv_sessions : btree SessionId Session; sv_next_session : SessionId; sv_tickets : btree (list Z) PendingTicket;
  sv_ticket_seq : Z; sv_ticket_seed : Z; sv_gc_requested : bool; sv_gc_done_gen : Z }.
Arguments MkServer {D} _ _ _ _ _ _ _ _.
Arguments sv_store {D} _.
Arguments sv_sessions {D} _.
Arguments sv_next_session {D} _.
Arguments sv_tickets {D} _.
Arguments sv_ticket_seq {D} _.
Arguments sv_ticket_seed {D} _.
Arguments sv_gc_requested {D} _.
Arguments sv_gc_done_gen {D} _.

Section server.
Context (hash_of : list Z → Hash) {D : Type} `{!BlockDev D}.
Implicit Types (v : Server D).

Definition Server_new (store : Store D) (ticket_seed : Z) : Server D := MkServer store [] 1 [] 0 ticket_seed false 0.

Definition with_store (x : Store D) v : Server D := MkServer x (sv_sessions v) (sv_next_session v) (sv_tickets v) (sv_ticket_seq v) (sv_ticket_seed v) (sv_gc_requested v) (sv_gc_done_gen v).
Definition with_sessions (x : btree SessionId Session) v : Server D := MkServer (sv_store v) x (sv_next_session v) (sv_tickets v) (sv_ticket_seq v) (sv_ticket_seed v) (sv_gc_requested v) (sv_gc_done_gen v).
Definition with_next_session (x : SessionId) v : Server D := MkServer (sv_store v) (sv_sessions v) x (sv_tickets v) (sv_ticket_seq v) (sv_ticket_seed v) (sv_gc_requested v) (sv_gc_done_gen v).
Definition with_tickets (x : btree (list Z) PendingTicket) v : Server D := MkServer (sv_store v) (sv_sessions v) (sv_next_session v) x (sv_ticket_seq v) (sv_ticket_seed v) (sv_gc_requested v) (sv_gc_done_gen v).
Definition with_ticket_seq (x : Z) v : Server D := MkServer (sv_store v) (sv_sessions v) (sv_next_session v) (sv_tickets v) x (sv_ticket_seed v) (sv_gc_requested v) (sv_gc_done_gen v).
Definition with_gc_requested (x : bool) v : Server D := MkServer (sv_store v) (sv_sessions v) (sv_next_session v) (sv_tickets v) (sv_ticket_seq v) (sv_ticket_seed v) x (sv_gc_done_gen v).
Definition with_gc_done_gen (x : Z) v : Server D := MkServer (sv_store v) (sv_sessions v) (sv_next_session v) (sv_tickets v) (sv_ticket_seq v) (sv_ticket_seed v) (sv_gc_requested v) x.

Definition srv (A : Type) : Type := Server D → outcome (result A ErrorCode * Server D).
#[global] Instance srv_ret : MRet srv := λ A a v, Ret (Ok a, v).
#[global] Instance srv_bind : MBind srv := λ A B f m v,
  match m v with Ret (Ok a, v') => f a v' | Ret (Err e, v') => Ret (Err e, v') | Panic => Panic | NoFuel => NoFuel end.
Definition refuse {A : Type} (e : ErrorCode) : srv A := λ v, Ret (Err e, v).
Definition sees {A : Type} (f : Server D → A) : srv A := λ v, Ret (Ok (f v), v).
Definition sets (f : Server D → Server D) : srv unit := λ v, Ret (Ok tt, f v).
(** A store operation whose error is mapped by [f]. *)
Definition on_store {A : Type} (f : StoreError → ErrorCode) (m : eng D A) : srv A := λ v,
  match m (sv_store v) with
  | Ret (Ok a, s) => Ret (Ok a, with_store s v)
  | Ret (Err e, s) => Ret (Err (f e), with_store s v)
  | Panic => Panic
  | NoFuel => NoFuel
  end.
(** A store operation whose result is inspected. *)
Definition try_store {A : Type} (m : eng D A) : srv (result A StoreError) := λ v,
  match m (sv_store v) with Ret (r, s) => Ret (Ok r, with_store s v) | Panic => Panic | NoFuel => NoFuel end.

Definition ref_entry v (name : list Z) : option RefEntry := bt_get name (rt_refs (st_table (sv_store v))).

(** ** Sessions *)
Fixpoint insert_all (grants : list HandleEntry) (s : Session) : outcome Session :=
  match grants with
  | [] => Ret s
  | g :: rest => match session_insert g s with Ret (_, s) => insert_all rest s | Panic => Panic | NoFuel => NoFuel end
  end.
Definition open_session (grants : list HandleEntry) v : outcome (SessionId * Server D) :=
  let id := sv_next_session v in
  if decide (id + 1 ≤ U64_MAX) then
    match insert_all grants Session_default with
    | Ret s => Ret (id, with_sessions (bt_insert id s (sv_sessions v)) (with_next_session (id + 1) v))
    | Panic => Panic
    | NoFuel => NoFuel
    end
  else Panic.
Definition close_session (id : SessionId) v : Server D := with_sessions (bt_remove id (sv_sessions v)) v.
Definition root_grant v (ref_name : list Z) : result HandleEntry StoreError :=
  match ref_entry v ref_name with
  | None => Err NoSuchRef
  | Some e => Ok (MkHandle (OnRef ref_name [] (re_generation e)) (Z.lor R_ALL R_STAT_STORE))
  end.
Definition get_handle v (session : SessionId) (handle : HandleId) : option HandleEntry :=
  match bt_get session (sv_sessions v) with Some s => bt_get handle (se_handles s) | None => None end.
Definition handle_rights v (session : SessionId) (handle : HandleId) : option Z := he_rights <$> get_handle v session handle.

(** Liveness, then rights. *)
Definition handle_lookup (session : SessionId) (handle : HandleId) (need : Z) : srv HandleEntry := λ v,
  match get_handle v session handle with
  | None => Ret (Err CBadHandle, v)
  | Some e =>
      let fresh :=
        match he_target e with
        | OnRef name _ gen_at_grant => match ref_entry v name with None => false | Some r => re_generation r =? gen_at_grant end
        | OnSnapshot _ => true
        end in
      Ret (if negb fresh then Err CStale else if negb (Z.land (he_rights e) need =? need) then Err CDenied else Ok e, v)
  end.
Definition grant (session : SessionId) (e : HandleEntry) : srv HandleId := λ v,
  match bt_get session (sv_sessions v) with
  | None => Ret (Err CBadHandle, v)
  | Some s =>
      match session_insert e s with
      | Ret (id, s) => Ret (Ok id, with_sessions (bt_insert session s (sv_sessions v)) v)
      | Panic => Panic
      | NoFuel => NoFuel
      end
  end.

(** ** Paths *)
Definition resolve_snap_dir (root : Hash) (path : Path) : srv Hash :=
  r ← try_store (lookup_at_root hash_of root path);
  match r with
  | Ok (Some e) => match e_content e with DirRoot h => mret h | _ => refuse CNotADir end
  | Ok None => refuse CBadPath
  | Err _ => refuse CInternal
  end.
Definition resolve_ref_dir (ref_name : list Z) (path : Path) : srv unit :=
  match path with
  | [] => mret tt
  | _ =>
      r ← sees (λ v, ref_entry v ref_name);
      match r with
      | None => refuse CStale
      | Some e => resolve_snap_dir (re_root e) path;; mret tt
      end
  end.
(** An unresolvable path lists as empty. *)
Definition list_at_root (root : Hash) (path : Path) : srv (list (list Z * EntryKind * Z)) :=
  match path with
  | [] => on_store store_err (list_dir_node hash_of root)
  | _ =>
      r ← try_store (lookup_at_root hash_of root path);
      match r with
      | Ok (Some e) => match e_content e with DirRoot h => on_store store_err (list_dir_node hash_of h) | _ => mret [] end
      | _ => mret []
      end
  end.
Definition rewrite_target (session : SessionId) (handle : HandleId) : srv (list Z) :=
  e ← handle_lookup session handle R_REWRITE_HISTORY;
  match he_target e with
  | OnSnapshot _ => refuse CReadOnly
  | OnRef name subtree _ => if bool_decide (subtree = []) then mret name else refuse CDenied
  end.

Definition run_gc : srv GcStats :=
  sets (with_gc_requested false);;
  stats ← on_store store_err (gc hash_of);
  sets (λ v, with_gc_done_gen (sb_generation (st_sb (sv_store v))) v);;
  mret stats.

(** [format!("session={session}")]: decimal, without leading zeros. *)
Fixpoint decimal (fuel : nat) (n : Z) (acc : list Z) : list Z :=
  match fuel with
  | O => acc
  | S fuel' => let acc := (48 + n mod 10) :: acc in if n <? 10 then acc else decimal fuel' (n / 10) acc
  end.
Definition provenance (session : SessionId) : list Z := [115; 101; 115; 115; 105; 111; 110; 61] ++ decimal 20 session [].

(** ** Requests, one definition per arm of [dispatch] *)
Section arms.
Context (session : SessionId) (now : Z).

(** The contents a handle and a path name. *)
Definition read_target (e : HandleEntry) (path : Path) : srv (option (list Z)) :=
  match he_target e with
  | OnRef name subtree _ => on_store store_err (store_read hash_of name (full_path subtree path))
  | OnSnapshot root => on_store store_err (read_at_root hash_of root path)
  end.
Definition do_read (handle : HandleId) (path : Path) (offset len : Z) : srv Response :=
  e ← handle_lookup session handle R_READ;
  data ← read_target e path;
  mret match data with
       | Some d =>
           let start := Z.min offset (len_z d) in
           let end_ := Z.min (saturating_add start len) (len_z d) in
           RespData (slice d start (end_ - start))
       | None => RespNotFound
       end.
Definition do_stat (handle : HandleId) (path : Path) : srv Response :=
  e ← handle_lookup session handle R_READ;
  data ← read_target e path;
  mret match data with Some d => RespSnapId (len_z d) | None => RespNotFound end.
Definition do_write (handle : HandleId) (path : Path) (offset : Z) (data : list Z) : srv Response :=
  e ← handle_lookup session handle R_WRITE;
  match he_target e with
  | OnSnapshot _ => refuse CReadOnly
  | OnRef name subtree _ => on_store store_err (store_write hash_of name (full_path subtree path) offset data now);; mret RespOk
  end.
Definition do_unlink (handle : HandleId) (path : Path) : srv Response :=
  e ← handle_lookup session handle R_WRITE;
  match he_target e with
  | OnSnapshot _ => refuse CReadOnly
  | OnRef name subtree _ => on_store store_err (store_unlink hash_of name (full_path subtree path) now);; mret RespOk
  end.
Definition do_rename (handle : HandleId) (from to : Path) : srv Response :=
  e ← handle_lookup session handle R_WRITE;
  match he_target e with
  | OnSnapshot _ => refuse CReadOnly
  | OnRef name subtree _ => on_store store_err (store_rename hash_of name (full_path subtree from) (full_path subtree to) now);; mret RespOk
  end.
Definition dir_ent (r : list Z * EntryKind * Z) : DirEnt := match r.1.2 with KFile => DirEnt_File r.1.1 r.2 | KDir => DirEnt_Dir r.1.1 end.
Definition do_list (handle : HandleId) (path : Path) : srv Response :=
  e ← handle_lookup session handle R_READ;
  raw ← match he_target e with
        | OnRef name subtree _ => on_store store_err (store_list hash_of name (full_path subtree path))
        | OnSnapshot root => list_at_root root path
        end;
  mret (RespListing (dir_ent <$> raw)).
Definition do_open_child (handle : HandleId) (path : Path) (rights_mask : Z) : srv Response :=
  e ← handle_lookup session handle 0;
  let rights := attenuate (he_rights e) rights_mask in
  entry ← match he_target e with
          | OnRef name subtree gen_at_grant =>
              let full := full_path subtree path in
              resolve_ref_dir name full;;
              mret (MkHandle (OnRef name full gen_at_grant) rights)
          | OnSnapshot root =>
              child ← resolve_snap_dir root path;
              mret (MkHandle (OnSnapshot child) rights)
          end;
  id ← grant session entry;
  mret (RespHandle id).
Definition do_close (handle : HandleId) : srv Response := λ v,
  match bt_get session (sv_sessions v) with
  | None => Ret (Err CBadHandle, v)
  | Some s =>
      match bt_get handle (se_handles s) with
      | None => Ret (Err CBadHandle, v)
      | Some _ => Ret (Ok RespOk, with_sessions (bt_insert session (MkSession (bt_remove handle (se_handles s)) (se_next_handle s)) (sv_sessions v)) v)
      end
  end.
Definition do_sync (handle : HandleId) : srv Response :=
  e ← handle_lookup session handle R_WRITE;
  match he_target e with
  | OnSnapshot _ => mret RespOk
  | OnRef name _ _ => on_store store_err (sync_ref hash_of name);; mret RespOk
  end.
Definition do_snapshot (handle : HandleId) (message : list Z) (class : Z) : srv Response :=
  e ← handle_lookup session handle R_SNAPSHOT;
  match he_target e with
  | OnSnapshot _ => refuse CReadOnly
  | OnRef name _ _ => id ← on_store store_err (snapshot hash_of name (provenance session) message class now); mret (RespSnapId id)
  end.
Definition snap_info (r : SnapRow) : SnapInfo := MkSnapInfo (sn_id r) (sn_timestamp r) (sn_provenance r) (sn_message r) (sn_class r).
Definition do_list_snapshots (handle : HandleId) : srv Response :=
  e ← handle_lookup session handle R_READ;
  match he_target e with
  | OnSnapshot _ => refuse CReadOnly
  | OnRef name _ _ => sees (λ v, RespSnapshots (snap_info <$> snapshots (sv_store v) name) (default 0 (edit_version (sv_store v) name)))
  end.
Definition do_open_snapshot (handle : HandleId) (snap_id : Z) (path : Path) (rights_mask : Z) : srv Response :=
  e ← handle_lookup session handle R_READ;
  match he_target e with
  | OnSnapshot _ => refuse CReadOnly
  | OnRef name subtree _ =>
      root ← on_store (λ _, CNoSuchSnapshot) (snapshot_root name snap_id);
      scoped ← (if bool_decide (subtree = []) then mret root else resolve_snap_dir root subtree);
      child ← (if bool_decide (path = []) then mret scoped else resolve_snap_dir scoped path);
      id ← grant session (MkHandle (OnSnapshot child) (attenuate (attenuate (he_rights e) rights_mask) (Z.lor R_READ R_ENUMERATE)));
      mret (RespHandle id)
  end.
Definition do_rollback (handle : HandleId) (snap_id : Z) : srv Response :=
  name ← rewrite_target session handle;
  on_store store_err (rollback hash_of name snap_id);;
  sets (with_gc_requested true);;
  mret RespOk.
Definition do_revoke_ref (handle : HandleId) : srv Response :=
  name ← rewrite_target session handle;
  on_store store_err (bump_generation hash_of name);;
  mret RespOk.
Definition mint (e : HandleEntry) (ttl_nanos : Z) : srv Response := λ v,
    let ttl := Z.min ttl_nanos MAX_TICKET_TTL_NANOS in
    if decide (sv_ticket_seq v + 1 ≤ U64_MAX) then
      let ticket_seq := sv_ticket_seq v + 1 in
      let ticket := take 16 (hash_of (u64_le (sv_ticket_seed v) ++ u64_le ticket_seq ++ u64_le now)) in
      Ret (Ok (RespTicket ticket), with_tickets (bt_insert ticket (MkPending e (saturating_add now ttl)) (sv_tickets v)) (with_ticket_seq ticket_seq v))
    else Panic.
Definition do_mint_ticket (handle : HandleId) (ttl_nanos : Z) : srv Response :=
  e ← handle_lookup session handle 0;
  mint e ttl_nanos.
Definition do_redeem_ticket (ticket : list Z) : srv Response :=
  p ← sees (λ v, bt_get ticket (sv_tickets v));
  match p with
  | None => refuse CBadTicket
  | Some pending =>
      sets (λ v, with_tickets (bt_remove ticket (sv_tickets v)) v);;
      if pt_expires pending <? now then refuse CBadTicket
      else
        id ← grant session (pt_entry pending);
        mret (RespHandle id)
  end.
Definition do_enumerate : srv Response := λ v,
  match bt_get session (sv_sessions v) with
  | None => Ret (Err CBadHandle, v)
  | Some s =>
      if negb (existsb (λ x : HandleId * HandleEntry, negb (Z.land (he_rights x.2) R_ENUMERATE =? 0)) (se_handles s)) then Ret (Err CDenied, v)
      else Ret (Ok (RespSessionDump ((λ x : HandleId * HandleEntry, (x.1, describe x.2)) <$> se_handles s)), v)
  end.
Definition do_delete_snapshot (handle : HandleId) (snap_id : Z) : srv Response :=
  name ← rewrite_target session handle;
  on_store store_err (delete_snapshot hash_of name snap_id);;
  sets (with_gc_requested true);;
  mret RespOk.
Definition do_set_class (handle : HandleId) (snap_id class : Z) : srv Response :=
  name ← rewrite_target session handle;
  on_store store_err (set_snapshot_class hash_of name snap_id class);;
  mret RespOk.
Definition do_gc (handle : HandleId) : srv Response :=
  rewrite_target session handle;;
  stats ← run_gc;
  mret (RespGcReport (gs_live_objects stats) (gs_freed_objects stats) (gs_freed_bytes stats)).
Definition do_statfs (handle : HandleId) : srv Response :=
  handle_lookup session handle R_STAT_STORE;;
  sp ← on_store store_err space;
  mret (RespSpace (si_total sp) (si_used sp) (si_free sp)).
Definition is_delete (e : RefEdit) : bool := match e with DeleteSnapshot _ => true | _ => false end.
Definition do_apply (handle : HandleId) (expected_version : Z) (edits : list RefEdit) : srv Response :=
  name ← rewrite_target session handle;
  r ← try_store (apply_batch hash_of name expected_version edits);
  match r with
  | Ok edit_version =>
      (if existsb is_delete edits then sets (with_gc_requested true) else mret tt);;
      mret (RespApplied edit_version)
  | Err (VersionMismatch current) => mret (RespVersionMismatch current)
  | Err e => refuse (store_err e)
  end.
Definition do_tag (handle : HandleId) (name : list Z) (snap_id : Z) : srv Response :=
  ref_name ← rewrite_target session handle;
  on_store store_err (tag hash_of name ref_name snap_id);;
  mret RespOk.
Definition do_untag (handle : HandleId) (name : list Z) : srv Response :=
  ref_name ← rewrite_target session handle;
  on_store store_err (untag hash_of ref_name name);;
  mret RespOk.
Definition do_list_tags (handle : HandleId) : srv Response :=
  e ← handle_lookup session handle R_READ;
  match he_target e with
  | OnSnapshot _ => refuse CReadOnly
  | OnRef name _ _ => sees (λ v, RespTags (List.filter (λ x : list Z * list Z * Z, bool_decide (x.1.2 = name)) (tags (sv_store v))))
  end.

Definition dispatch (req : Request) : srv Response :=
  if negb (forallb valid_path (request_paths req)) then refuse CBadPath
  else
    match req with
    | ReqRead h p off len => do_read h p off len
    | ReqWrite h p off data => do_write h p off data
    | ReqUnlink h p => do_unlink h p
    | ReqList h p => do_list h p
    | ReqOpenChild h p mask => do_open_child h p mask
    | ReqClose h => do_close h
    | ReqSync h => do_sync h
    | ReqSnapshot h msg class => do_snapshot h msg class
    | ReqListSnapshots h => do_list_snapshots h
    | ReqOpenSnapshot h id p mask => do_open_snapshot h id p mask
    | ReqRollback h id => do_rollback h id
    | ReqRevokeRef h => do_revoke_ref h
    | ReqMintTicket h ttl => do_mint_ticket h ttl
    | ReqRedeemTicket t => do_redeem_ticket t
    | ReqStat h p => do_stat h p
    | ReqEnumerateSession => do_enumerate
    | ReqDeleteSnapshot h id => do_delete_snapshot h id
    | ReqSetClass h id class => do_set_class h id class
    | ReqGc h => do_gc h
    | ReqStatfs h => do_statfs h
    | ReqApply h v edits => do_apply h v edits
    | ReqTag h name id => do_tag h name id
    | ReqUntag h name => do_untag h name
    | ReqListTags h => do_list_tags h
    | ReqRename h from to => do_rename h from to
    end.
End arms.

(** The space watermark: below a fifth free a collection is requested, unless one already
    ran at this generation. *)
Definition arm_gc (sp : SpaceInfo) : srv unit := λ v,
    if decide (si_free sp * 5 ≤ U64_MAX) then
      Ret (Ok tt, if (si_free sp * 5 <? si_total sp) && negb (sb_generation (st_sb (sv_store v)) =? sv_gc_done_gen v) then with_gc_requested true v else v)
    else Panic.
Definition watermark : srv unit :=
  sp ← on_store store_err space;
  arm_gc sp.
Definition server_handle (session : SessionId) (req : Request) (now : Z) v : outcome (Response * Server D) :=
  match dispatch session now req v with
  | Ret (r, v) =>
      match watermark v with
      | Ret (_, v) => Ret (match r with Ok resp => resp | Err e => RespErr e end, v)
      | Panic => Panic
      | NoFuel => NoFuel
      end
  | Panic => Panic
  | NoFuel => NoFuel
  end.
End server.

(** ** Wire header *)
Inductive WireError : Type := WBadHeader | WVersion | WBody | WTooLarge.
Definition PROTO_MAGIC : list Z := [69; 81].
Definition PROTO_VERSION : Z := 2.
Definition MAX_MSG : Z := 256.
(** [ipc::version_ok] *)
Definition version_ok (header_version negotiated : Z) : bool := header_version =? negotiated.
Definition check_header (buf : list Z) (negotiated : Z) : result Z WireError :=
  if (len_z buf <? 3) || negb (at_ buf 0 =? 69) || negb (at_ buf 1 =? 81) then Err WBadHeader
  else if negb (version_ok (at_ buf 2) negotiated) then Err WVersion
  else Ok 3.

(** The body codec is postcard's: a parameter. *)
Section wire.
Context {T : Type} (to_allocvec : T → option (list Z)) (take_from_bytes : list Z → option (T * list Z)).
Definition wire_encode (x : T) (version : Z) : result (list Z) WireError :=
  match to_allocvec x with
  | None => Err WBody
  | Some body =>
      let out := PROTO_MAGIC ++ [version] ++ body in
      if MAX_MSG <? len_z out then Err WTooLarge else Ok out
  end.
Definition wire_decode (buf : list Z) (negotiated : Z) : result T WireError :=
  match check_header buf negotiated with
  | Err e => Err e
  | Ok off =>
      match take_from_bytes (drop (Z.to_nat off) buf) with
      | None => Err WBody
      | Some (x, rest) => if bool_decide (rest = []) then Ok x else Err WBody
      end
  end.
End wire.
