(* ===== verification/ServerProofs.v ===== *)
(** What a request of the storage server leaves alone: the store under reading requests,
    and the authority of every handle. *)

From stdpp Require Import strings.
From S2P Require Import Prelude Bytes Dev BTree Disk Recovery Prolly ChunkStore Overlay Chunker File Tree Gc Engine StoreOps StorageServer.

(** ** Store operations that only look *)
Section looks.
Context (hash_of : list Z → Hash) {D : Type} `{!BlockDev D}.

Definition looks {A : Type} (m : eng D A) : Prop := ∀ s r s', m s = Ret (r, s') → s' = s.

Lemma looks_bind {A B : Type} (m : eng D A) (f : A → eng D B) : looks m → (∀ a, looks (f a)) → looks (m ≫= f).
Proof using Type.
  intros Hm Hf s r s'. unfold mbind, eng_bind. destruct (m s) as [[[a|e] s1]| |] eqn:E; [|by intros [= <- <-]; apply (Hm _ _ _ E)|done|done]. intros H. rewrite (Hf a _ _ _ H). by apply (Hm _ _ _ E).
Qed.
Lemma looks_ret {A : Type} (a : A) : looks (mret a).
Proof using Type. by intros s r s' [= <- <-]. Qed.
Lemma looks_asks {A : Type} (f : Store D → A) : looks (asks f).
Proof using Type. by intros s r s' [= <- <-]. Qed.
Lemma looks_fail {A : Type} (e : StoreError) : looks (A := A) (fail_with e).
Proof using Type. by intros s r s' [= <- <-]. Qed.
Lemma looks_ok_or {A : Type} (o : option A) e : looks (ok_or o e).
Proof using Type. intros s r s'. unfold ok_or. by intros [= _ <-]. Qed.
Lemma looks_format {A : Type} (x : result A FormatError) : looks (try_format x).
Proof using Type. intros s r s'. unfold try_format. by intros [= _ <-]. Qed.
Lemma looks_sub a b : looks (sub64 a b).
Proof using Type. intros s r s'. unfold sub64. case_decide; [by intros [= _ <-]|done]. Qed.
Lemma looks_find name : looks (find_ref name).
Proof using Type. intros s r s'. unfold find_ref, ok_or. by intros [= _ <-]. Qed.
Lemma looks_tree root path : looks (tree_lookup hash_of root path).
Proof using Type. intros s r s'. unfold tree_lookup. destruct (lookup _ _ _) as [[e|e]|]; [by intros [= _ <-]..|done]. Qed.
Lemma looks_load root : looks (load_dir hash_of root).
Proof using Type. intros s r s'. unfold load_dir. destruct (load _ _) as [[e|e]|]; [by intros [= _ <-]..|done]. Qed.
End looks.
Create HintDb looks.
#[export] Hint Resolve looks_bind looks_ret looks_asks looks_fail looks_ok_or looks_format looks_sub looks_find looks_tree looks_load : looks.
Ltac look := repeat first [progress intros | apply looks_bind | solve [auto with looks nocore] | case_match].

Section store_looks.
Context (hash_of : list Z → Hash) {D : Type} `{!BlockDev D}.
Lemma looks_read_tree root path : looks (D := D) (read_from_tree hash_of root path).
Proof using Type. unfold read_from_tree. look. Qed.
Lemma looks_read name path : looks (D := D) (store_read hash_of name path).
Proof using Type. unfold store_read. look; apply looks_read_tree. Qed.
Lemma looks_list_node root : looks (D := D) (list_dir_node hash_of root).
Proof using Type. unfold list_dir_node. look. Qed.
Lemma looks_list name path : looks (D := D) (store_list hash_of name path).
Proof using Type. unfold store_list. look; apply looks_list_node. Qed.
Lemma looks_snapshot_root name id : looks (D := D) (snapshot_root name id).
Proof using Type. unfold snapshot_root. look. Qed.
Lemma looks_space : looks (D := D) space.
Proof using Type. unfold space. look. Qed.
End store_looks.

(** ** Requests that leave the store as it is *)
Section still.
Context (hash_of : list Z → Hash) {D : Type} `{!BlockDev D}.
Implicit Types (v : Server D).

Definition still {A : Type} (m : srv (D := D) A) : Prop := ∀ v r v', m v = Ret (r, v') → sv_store v' = sv_store v.

Lemma still_bind {A B : Type} (m : srv A) (f : A → srv B) : still m → (∀ a, still (f a)) → still (m ≫= f).
Proof using Type.
  intros Hm Hf v r v'. unfold mbind, srv_bind. destruct (m v) as [[[a|e] v1]| |] eqn:E; [|by intros [= <- <-]; apply (Hm _ _ _ E)|done|done]. intros H. rewrite (Hf a _ _ _ H). by apply (Hm _ _ _ E).
Qed.
Lemma still_ret {A : Type} (a : A) : still (mret a).
Proof using Type. by intros v r v' [= <- <-]. Qed.
Lemma still_refuse {A : Type} e : still (A := A) (refuse e).
Proof using Type. by intros v r v' [= <- <-]. Qed.
Lemma still_sees {A : Type} (f : Server D → A) : still (sees f).
Proof using Type. by intros v r v' [= <- <-]. Qed.
Lemma still_sets (f : Server D → Server D) : (∀ v, sv_store (f v) = sv_store v) → still (sets f).
Proof using Type. intros Hf v r v' [= <- <-]. apply Hf. Qed.
Lemma still_store {A : Type} f (m : eng D A) : looks m → still (on_store f m).
Proof using Type. intros Hm v r v'. unfold on_store. destruct (m (sv_store v)) as [[[a|e] s]| |] eqn:E; [intros [= <- <-]; cbn; by apply (Hm _ _ _ E)..|done|done]. Qed.
Lemma still_try {A : Type} (m : eng D A) : looks m → still (try_store m).
Proof using Type. intros Hm v r v'. unfold try_store. destruct (m (sv_store v)) as [[x s]| |] eqn:E; [intros [= <- <-]; cbn; by apply (Hm _ _ _ E)|done|done]. Qed.
Lemma still_lookup session h need : still (handle_lookup session h need).
Proof using Type. intros v r v'. unfold handle_lookup. destruct (get_handle v session h); by intros [= _ <-]. Qed.
Lemma still_grant session e : still (grant session e).
Proof using Type. intros v r v'. unfold grant. destruct (bt_get _ _) as [s|]; [|by intros [= _ <-]]. destruct (session_insert e s) as [[id s1]| |]; [by intros [= _ <-]|done|done]. Qed.
Lemma still_resolve root path : still (resolve_snap_dir hash_of root path).
Proof using Type. unfold resolve_snap_dir. apply still_bind; [apply still_try, looks_tree|]. intros a. repeat case_match; apply still_ret || apply still_refuse. Qed.
Lemma still_watermark : still (watermark (D := D)).
Proof using Type.
  unfold watermark. apply still_bind; [apply still_store, looks_space|]. intros sp v r v'. unfold arm_gc. case_decide; [|done]. intros [= _ <-]. by case_match.
Qed.
End still.
#[export] Hint Resolve still_ret still_refuse still_sees still_lookup still_grant still_resolve still_store still_try looks_read looks_read_tree looks_list looks_list_node looks_snapshot_root looks_space : looks.
Ltac stay := repeat first [progress intros | apply still_bind | solve [eauto with looks nocore] | apply still_sets; reflexivity | case_match].

(** The rights a request asks for before it may change the store. *)
Definition R_CHANGES : Z := Z.lor R_WRITE (Z.lor R_SNAPSHOT R_REWRITE_HISTORY).
(** A session without any of them. *)
Definition observer {D : Type} (v : Server D) (session : SessionId) : Prop := ∀ h e, get_handle v session h = Some e → Z.land (he_rights e) R_CHANGES = 0.

Section observers.
Context (hash_of : list Z → Hash) {D : Type} `{!BlockDev D}.
Implicit Types (v : Server D).

Lemma lookup_denied session v h need {B : Type} (f : HandleEntry → srv (D := D) B) r v' :
  observer v session → need ≠ 0 → Z.land need R_CHANGES = need → (handle_lookup session h need ≫= f) v = Ret (r, v') → sv_store v' = sv_store v.
Proof using Type.
  intros Ho Hn Hc. unfold mbind, srv_bind, handle_lookup. destruct (get_handle v session h) as [e|] eqn:E; [|by intros [= _ <-]]. cbv zeta. destruct (negb _); [by intros [= _ <-]|].
  assert ((Z.land (he_rights e) need =? need) = false) as ->; [|by intros [= _ <-]].
  apply Z.eqb_neq. intros Heq. apply Hn. rewrite <-Heq, <-Hc, (Z.land_comm need), Z.land_assoc, (Ho h e E). apply Z.land_0_l.
Qed.
Lemma bind_assoc {A B C : Type} (m : srv (D := D) A) (f : A → srv B) (g : B → srv C) v : ((m ≫= f) ≫= g) v = (m ≫= λ a, f a ≫= g) v.
Proof using Type. unfold mbind, srv_bind. by destruct (m v) as [[[a|e] v1]| |]. Qed.

Lemma observer_still session now req v r v' : observer v session → dispatch hash_of session now req v = Ret (r, v') → sv_store v' = sv_store v.
Proof using Type.
  intros Ho. unfold dispatch. destruct (negb _); [by intros [= _ <-]|].
  assert (∀ h (f : list Z → srv (D := D) Response), (rewrite_target session h ≫= f) v = Ret (r, v') → sv_store v' = sv_store v) as Hrw.
  { intros h f. unfold rewrite_target. rewrite bind_assoc. by apply lookup_denied. }
  destruct req; unfold do_write, do_unlink, do_rename, do_sync, do_snapshot; try (by apply lookup_denied); try (by apply Hrw).
  all: match goal with |- ?m ?x = Ret (?y, ?z) → _ => assert (still m) as Hs; [clear|exact (Hs x y z)] end.
  - unfold do_read, read_target. stay.
  - unfold do_list, list_at_root. stay.
  - unfold do_open_child, resolve_ref_dir. stay.
  - intros v r v'. unfold do_close. repeat case_match; by intros [= _ <-].
  - unfold do_list_snapshots. stay.
  - unfold do_open_snapshot. stay.
  - unfold do_mint_ticket. apply still_bind; [apply still_lookup|]. intros e v r v'. unfold mint. case_decide; [by intros [= _ <-]|done].
  - unfold do_redeem_ticket. stay.
  - unfold do_stat, read_target. stay.
  - intros v r v'. unfold do_enumerate. repeat case_match; by intros [= _ <-].
  - unfold do_statfs. stay.
  - unfold do_list_tags. stay.
Qed.

Lemma observer_handle session now req v resp v' : observer v session → server_handle hash_of session req now v = Ret (resp, v') → sv_store v' = sv_store v.
Proof using Type.
  intros Ho. unfold server_handle. destruct (dispatch hash_of session now req v) as [[r v1]| |] eqn:E; [|done..]. destruct (watermark v1) as [[w v2]| |] eqn:Ew; [|done..]. intros [= _ <-].
  rewrite (still_watermark _ _ _ Ew). by apply (observer_still _ _ _ _ _ _ Ho E).
Qed.
End observers.

(** ** Authority *)

(** What a handle may have become of a grant: no right it did not have, and the same live
    ref at the same generation under a deeper subtree, or a snapshot with at most reading
    and enumerating. *)
Definition derived (g e : HandleEntry) : Prop :=
  Z.land (he_rights e) (he_rights g) = he_rights e ∧
  match he_target g, he_target e with
  | OnRef n sub gen, OnRef n' sub' gen' => n' = n ∧ gen' = gen ∧ ∃ p, sub' = sub ++ p
  | OnRef _ _ _, OnSnapshot _ => Z.land (he_rights e) (Z.lor R_READ R_ENUMERATE) = he_rights e
  | OnSnapshot _, OnSnapshot _ => True
  | OnSnapshot _, OnRef _ _ _ => False
  end.

Lemma derived_refl e : derived e e.
Proof. split; [apply Z.land_diag|]. destruct (he_target e); [done|]. split_and!; [done|done|]. exists []. by rewrite app_nil_r. Qed.
Lemma land_sub_l a b c : Z.land a c = a → Z.land (Z.land a b) c = Z.land a b.
Proof. intros H. by rewrite <-Z.land_assoc, (Z.land_comm b), Z.land_assoc, H. Qed.
Lemma land_sub_r a b : Z.land (Z.land a b) b = Z.land a b.
Proof. by rewrite <-Z.land_assoc, Z.land_diag. Qed.
(** Attenuation of a derived handle. *)
Lemma derived_child g e mask : derived g e → Z.land (attenuate (he_rights e) mask) (he_rights g) = attenuate (he_rights e) mask.
Proof. intros [H _]. by apply land_sub_l. Qed.

Section authority.
Context (hash_of : list Z → Hash) {D : Type} `{!BlockDev D} (G : list HandleEntry).
Implicit Types (v : Server D).

(** Derived from one of the grants. *)
Definition granted (e : HandleEntry) : Prop := ∃ g, g ∈ G ∧ derived g e.

(** Every handle of every session and every pending ticket. *)
Record authority_ok v : Prop := {
  au_sessions : bt_sorted (sv_sessions v);
  au_tickets_sorted : bt_sorted (sv_tickets v);
  au_handles id s : bt_get id (sv_sessions v) = Some s → bt_sorted (se_handles s) ∧ ∀ h e, bt_get h (se_handles s) = Some e → granted e;
  au_tickets t p : bt_get t (sv_tickets v) = Some p → granted (pt_entry p);
}.

(** A step keeps the invariant, and its result satisfies [Q]. *)
Definition keeps {A : Type} (m : srv (D := D) A) (Q : A → Prop) : Prop := ∀ v r v', authority_ok v → m v = Ret (r, v') → authority_ok v' ∧ ∀ a, r = Ok a → Q a.

Lemma keeps_bind {A B : Type} (m : srv A) (f : A → srv B) Q Q' : keeps m Q → (∀ a, Q a → keeps (f a) Q') → keeps (m ≫= f) Q'.
Proof using Type.
  intros Hm Hf v r v' V. unfold mbind, srv_bind. destruct (m v) as [[[a|e] v1]| |] eqn:E; [| |done|done]; destruct (Hm _ _ _ V E) as [V1 Ha]; [by apply Hf; [apply Ha|]|]. by intros [= <- <-].
Qed.
Lemma keeps_ret {A : Type} (a : A) (Q : A → Prop) : Q a → keeps (mret a) Q.
Proof using Type. intros Hq v r v' V [= <- <-]. split; [done|]. by intros a' [= <-]. Qed.
Lemma keeps_refuse {A : Type} e (Q : A → Prop) : keeps (refuse e) Q.
Proof using Type. by intros v r v' V [= <- <-]. Qed.
Lemma keeps_sees {A : Type} (f : Server D → A) : keeps (sees f) (λ _, True).
Proof using Type. by intros v r v' V [= <- <-]. Qed.
Lemma keeps_same v v' : sv_sessions v' = sv_sessions v → sv_tickets v' = sv_tickets v → authority_ok v → authority_ok v'.
Proof using Type. intros E1 E2 []. split; rewrite ?E1, ?E2; done. Qed.
Lemma keeps_gc b : keeps (sets (with_gc_requested b)) (λ _, True).
Proof using Type. intros v r v' V [= <- <-]. split; [|done]. by apply (keeps_same v). Qed.
Lemma keeps_store {A : Type} f (m : eng D A) : keeps (on_store f m) (λ _, True).
Proof using Type. intros v r v' V. unfold on_store. destruct (m (sv_store v)) as [[[a|e] s]| |]; [intros [= <- <-]; (split; [by apply (keeps_same v)|done])..|done|done]. Qed.
Lemma keeps_try {A : Type} (m : eng D A) : keeps (try_store m) (λ _, True).
Proof using Type. intros v r v' V. unfold try_store. destruct (m (sv_store v)) as [[x s]| |]; [intros [= <- <-]; (split; [by apply (keeps_same v)|done])|done|done]. Qed.
Lemma keeps_weaken {A : Type} (m : srv A) (Q Q' : A → Prop) : keeps m Q → (∀ a, Q a → Q' a) → keeps m Q'.
Proof using Type. intros Hm HQ v r v' V E. destruct (Hm _ _ _ V E). split; [done|]. intros a Ha. by apply HQ, H0. Qed.

Lemma keeps_lookup session h need : keeps (handle_lookup session h need) granted.
Proof using Type.
  intros v r v' V. unfold handle_lookup. destruct (get_handle v session h) as [e|] eqn:E; [|by intros [= <- <-]]. cbv zeta. intros [= <- <-]. split; [done|]. intros a Ha. assert (a = e) as ->. { destruct (negb _); [done|]. destruct (negb _); [done|]. by injection Ha. }
  unfold get_handle in E. destruct (bt_get session (sv_sessions v)) as [s|] eqn:Es; [|done]. by apply (au_handles _ V session s Es) with h.
Qed.
Lemma session_insert_ok e s id s1 :
  granted e → bt_sorted (se_handles s) → (∀ h e, bt_get h (se_handles s) = Some e → granted e) → session_insert e s = Ret (id, s1) →
  bt_sorted (se_handles s1) ∧ ∀ h e, bt_get h (se_handles s1) = Some e → granted e.
Proof using Type.
  intros Hg Hs Hall. unfold session_insert. case_decide; [|done]. intros [= <- <-]. cbn. split; [by apply bt_insert_sorted|]. intros h e'. rewrite get_insert by done. case_decide; [by intros [= <-]|by apply Hall].
Qed.
Lemma keeps_grant session e : granted e → keeps (grant session e) (λ _, True).
Proof using Type.
  intros Hg v r v' V. unfold grant. destruct (bt_get session (sv_sessions v)) as [s|] eqn:Es; [|by intros [= <- <-]]. destruct (session_insert e s) as [[id s1]| |] eqn:Ei; [|done|done]. intros [= <- <-]. split; [|done].
  destruct (au_handles _ V _ _ Es) as [Hs Hall]. pose proof (session_insert_ok _ _ _ _ Hg Hs Hall Ei) as Hok. destruct V. split; cbn [with_sessions sv_sessions sv_tickets]; [by apply bt_insert_sorted|done| |done].
  intros id' s'. rewrite get_insert by done. case_decide; [by intros [= <-]|by apply au_handles0].
Qed.
Lemma keeps_resolve root path : keeps (resolve_snap_dir hash_of root path) (λ _, True).
Proof using Type. unfold resolve_snap_dir. eapply keeps_bind; [apply keeps_try|]. intros a _. repeat case_match; by apply keeps_ret || apply keeps_refuse. Qed.

Lemma keeps_rewrite session h : keeps (rewrite_target session h) (λ _, True).
Proof using Type.
  unfold rewrite_target. eapply keeps_bind; [apply keeps_lookup|]. intros e _. destruct (he_target e); [apply keeps_refuse|]. case_match; [by apply keeps_ret|apply keeps_refuse].
Qed.
Lemma keeps_run_gc : keeps (run_gc hash_of) (λ _, True).
Proof using Type.
  unfold run_gc. eapply keeps_bind; [apply keeps_gc|]. intros _ _. eapply keeps_bind; [apply keeps_store|]. intros stats _. eapply (keeps_bind _ _ (λ _, True)); [|intros; by apply keeps_ret].
  intros v r v' V [= <- <-]. split; [|done]. by apply (keeps_same v).
Qed.

(** A change through a rewriting handle. *)
Lemma keeps_rewriting {A : Type} session h (m : list Z → eng D A) (k : A → srv Response) f :
  (∀ a, keeps (k a) (λ _, True)) → keeps (name ← rewrite_target session h; a ← on_store f (m name); k a) (λ _, True).
Proof using Type. intros Hk. eapply keeps_bind; [apply keeps_rewrite|]. intros name _. eapply keeps_bind; [apply keeps_store|]. intros a _. apply Hk. Qed.
Lemma keeps_done (x : Response) : keeps (mret x) (λ _, True).
Proof using Type. by apply keeps_ret. Qed.
Lemma keeps_after_gc b (x : Response) : keeps (sets (with_gc_requested b);; mret x) (λ _, True).
Proof using Type. eapply keeps_bind; [apply keeps_gc|]. intros; apply keeps_done. Qed.
Lemma keeps_open_child session h path mask : keeps (do_open_child hash_of session h path mask) (λ _, True).
Proof using Type.
  unfold do_open_child. eapply keeps_bind; [apply keeps_lookup|]. intros e (g & Hg & Hd). cbv zeta. eapply (keeps_bind _ _ granted).
  - pose proof (derived_child g e mask Hd) as Hr. destruct Hd as [_ Ht]. destruct (he_target e) as [root|n sub gen] eqn:Et.
    + eapply keeps_bind; [apply keeps_resolve|]. intros child _. apply keeps_ret. exists g. split; [done|]. split; [done|]. cbn. destruct (he_target g); [done|]. by apply land_sub_l.
    + eapply (keeps_bind _ _ (λ _, True)).
      * unfold resolve_ref_dir. destruct (full_path sub path) as [|c p]; [by apply keeps_ret|]. eapply keeps_bind; [apply keeps_sees|]. intros r _. destruct r as [r|]; [|apply keeps_refuse]. eapply keeps_bind; [apply keeps_resolve|]. intros; by apply keeps_ret.
      * intros _ _. apply keeps_ret. exists g. split; [done|]. split; [done|]. cbn. destruct (he_target g) as [|n' sub' gen']; [done|]. destruct Ht as (-> & -> & p & ->). split_and!; [done|done|]. exists (p ++ path). unfold full_path. by rewrite app_assoc.
  - intros entry He. eapply keeps_bind; [by apply keeps_grant|]. intros; apply keeps_done.
Qed.
Lemma keeps_open_snapshot session h id path mask : keeps (do_open_snapshot hash_of session h id path mask) (λ _, True).
Proof using Type.
  unfold do_open_snapshot. eapply keeps_bind; [apply keeps_lookup|]. intros e (g & Hg & Hd). destruct (he_target e) as [root|n sub gen] eqn:Et; [apply keeps_refuse|]. eapply keeps_bind; [apply keeps_store|]. intros root _.
  assert (∀ (b : bool) x y p, keeps (if b then mret x else resolve_snap_dir hash_of y p) (λ _, True)) as Hres by (intros [] x y p; [by apply keeps_ret|apply keeps_resolve]).
  eapply keeps_bind; [apply Hres|]. intros scoped _. eapply keeps_bind; [apply Hres|]. intros child _. eapply keeps_bind; [apply keeps_grant|intros; apply keeps_done].
  exists g. split; [done|]. split; cbn [he_rights he_target].
  - by apply land_sub_l, derived_child.
  - destruct (he_target g) eqn:Eg; [done|]. apply land_sub_r.
Qed.
Lemma keeps_close session h : keeps (do_close session h) (λ _, True).
Proof using Type.
  intros v r v' V. unfold do_close. destruct (bt_get session (sv_sessions v)) as [s|] eqn:Es; [|by intros [= <- <-]]. destruct (bt_get h (se_handles s)); [|by intros [= <- <-]]. intros [= <- <-]. split; [|done].
  destruct (au_handles _ V _ _ Es) as [Hs Hall]. destruct V. split; cbn [with_sessions sv_sessions sv_tickets]; [by apply bt_insert_sorted|done| |done].
  intros id' s'. rewrite get_insert by done. case_decide; [|by apply au_handles0]. intros [= <-]. cbn. split; [by apply bt_remove_sorted|]. intros k e. rewrite get_remove by done. case_decide; [done|by apply Hall].
Qed.
Lemma keeps_mint session now h ttl : keeps (do_mint_ticket hash_of session now h ttl) (λ _, True).
Proof using Type.
  unfold do_mint_ticket. eapply keeps_bind; [apply keeps_lookup|]. intros e He v r v' V. unfold mint. case_decide; [|done]. cbv zeta. intros [= <- <-]. split; [|done]. destruct V. split; cbn [with_tickets with_ticket_seq sv_sessions sv_tickets]; [done|by apply bt_insert_sorted|done|].
  intros t p. rewrite get_insert by done. case_decide; [by intros [= <-]|by apply au_tickets0].
Qed.
Lemma keeps_redeem session now t : keeps (do_redeem_ticket session now t) (λ _, True).
Proof using Type.
  intros v r v' V. unfold do_redeem_ticket, sees, sets. unfold mbind at 1, srv_bind at 1. cbv beta iota. destruct (bt_get t (sv_tickets v)) as [p|] eqn:Ep; [|by intros [= <- <-]]. pose proof (au_tickets _ V _ _ Ep) as Hg.
  unfold mbind at 1, srv_bind at 1. cbv beta iota. set (v1 := with_tickets _ v). assert (authority_ok v1) as V1.
  { destruct V. split; cbn [v1 with_tickets sv_sessions sv_tickets]; [done|by apply bt_remove_sorted|done|]. intros t' p'. rewrite get_remove by done. case_decide; [done|by apply au_tickets0]. }
  destruct (pt_expires p <? now); [by intros [= <- <-]|]. assert (keeps (id ← grant session (pt_entry p); mret (RespHandle id)) (λ _, True)) as Hk by (eapply keeps_bind; [by apply keeps_grant|intros; apply keeps_done]).
  by apply Hk.
Qed.

Lemma keeps_dispatch session now req : keeps (dispatch hash_of session now req) (λ _, True).
Proof using Type.
  unfold dispatch. destruct (negb _); [apply keeps_refuse|].
  assert (∀ {A : Type} f (m : eng D A) (k : A → srv Response), (∀ a, keeps (k a) (λ _, True)) → keeps (on_store f m ≫= k) (λ _, True)) as Hst by (intros A f m k Hk; eapply keeps_bind; [apply keeps_store|auto]).
  assert (∀ h need (k : HandleEntry → srv Response), (∀ e, keeps (k e) (λ _, True)) → keeps (handle_lookup session h need ≫= k) (λ _, True)) as Hlk by (intros h need k Hk; eapply keeps_bind; [apply keeps_lookup|auto]).
  assert (∀ e p, keeps (read_target hash_of e p) (λ _, True)) as Hrd by (intros e p; unfold read_target; destruct (he_target e); apply keeps_store).
  destruct req; [| | | | apply keeps_open_child | apply keeps_close | | | | apply keeps_open_snapshot | | | apply keeps_mint | apply keeps_redeem | ..].
  - apply Hlk. intros e. eapply keeps_bind; [apply Hrd|]. intros; apply keeps_done.
  - apply Hlk. intros e. destruct (he_target e); [apply keeps_refuse|]. apply Hst. intros; apply keeps_done.
  - apply Hlk. intros e. destruct (he_target e); [apply keeps_refuse|]. apply Hst. intros; apply keeps_done.
  - apply Hlk. intros e. eapply (keeps_bind _ _ (λ _, True)); [|intros; apply keeps_done]. destruct (he_target e) as [root|n sub gen]; [|apply keeps_store]. unfold list_at_root. destruct path; [apply keeps_store|].
    eapply keeps_bind; [apply keeps_try|]. intros x _. repeat case_match; by apply keeps_store || apply keeps_ret.
  - apply Hlk. intros e. destruct (he_target e); [apply keeps_done|]. apply Hst. intros; apply keeps_done.
  - apply Hlk. intros e. destruct (he_target e); [apply keeps_refuse|]. apply Hst. intros; apply keeps_done.
  - apply Hlk. intros e. destruct (he_target e); [apply keeps_refuse|apply keeps_sees].
  - apply keeps_rewriting. intros; apply keeps_after_gc.
  - apply keeps_rewriting. intros; apply keeps_done.
  - apply Hlk. intros e. eapply keeps_bind; [apply Hrd|]. intros; apply keeps_done.
  - intros v r v' V. unfold do_enumerate. destruct (bt_get _ _); [|by intros [= <- <-]]. destruct (negb _); by intros [= <- <-].
  - apply keeps_rewriting. intros; apply keeps_after_gc.
  - apply keeps_rewriting. intros; apply keeps_done.
  - eapply keeps_bind; [apply keeps_rewrite|]. intros _ _. eapply keeps_bind; [apply keeps_run_gc|]. intros; apply keeps_done.
  - apply Hlk. intros e. apply Hst. intros; apply keeps_done.
  - eapply keeps_bind; [apply keeps_rewrite|]. intros name _. eapply keeps_bind; [apply keeps_try|]. intros [ver|[]] _; try apply keeps_refuse; [|apply keeps_done].
    eapply (keeps_bind _ _ (λ _, True)); [|intros; apply keeps_done]. destruct (existsb _ _); [apply keeps_gc|by apply keeps_ret].
  - apply keeps_rewriting. intros; apply keeps_done.
  - apply keeps_rewriting. intros; apply keeps_done.
  - apply Hlk. intros e. destruct (he_target e); [apply keeps_refuse|apply keeps_sees].
  - apply Hlk. intros e. destruct (he_target e); [apply keeps_refuse|]. apply Hst. intros; apply keeps_done.
Qed.

Lemma keeps_handle session now req v resp v' : authority_ok v → server_handle hash_of session req now v = Ret (resp, v') → authority_ok v'.
Proof using Type.
  intros V. unfold server_handle. destruct (dispatch hash_of session now req v) as [[r v1]| |] eqn:E; [|done..]. destruct (keeps_dispatch _ _ _ _ _ _ V E) as [V1 _].
  destruct (watermark v1) as [[w v2]| |] eqn:Ew; [|done..]. intros [= _ <-]. assert (keeps (watermark (D := D)) (λ _, True)) as Hw; [|by apply (Hw _ _ _ V1 Ew)].
  unfold watermark. eapply keeps_bind; [apply keeps_store|]. intros sp _ u r' u' U. unfold arm_gc. case_decide; [|done]. intros [= <- <-]. split; [|done]. case_match; [by apply (keeps_same u)|done].
Qed.
Lemma insert_all_ok grants s s1 :
  (∀ g, g ∈ grants → g ∈ G) → bt_sorted (se_handles s) → (∀ h e, bt_get h (se_handles s) = Some e → granted e) → insert_all grants s = Ret s1 →
  bt_sorted (se_handles s1) ∧ ∀ h e, bt_get h (se_handles s1) = Some e → granted e.
Proof using Type.
  revert s. induction grants as [|g grants IH]; intros s Hin Hs Hall; cbn [insert_all]; [by intros [= <-]|]. destruct (session_insert g s) as [[id s2]| |] eqn:E; [|done..]. intros H.
  assert (granted g) as Hg by (exists g; split; [apply Hin; by left|apply derived_refl]). destruct (session_insert_ok _ _ _ _ Hg Hs Hall E) as [H1 H2]. apply (IH s2); [|done|done|done]. intros x Hx. apply Hin. by right.
Qed.
Lemma keeps_open grants v id v' : (∀ g, g ∈ grants → g ∈ G) → authority_ok v → open_session grants v = Ret (id, v') → authority_ok v'.
Proof using Type.
  intros Hin V. unfold open_session. cbv zeta. case_decide; [|done]. destruct (insert_all grants Session_default) as [s| |] eqn:E; [|done..]. intros [= <- <-].
  assert (∀ h e, bt_get h (se_handles Session_default) = Some e → granted e) as H0 by done. destruct (insert_all_ok grants Session_default s Hin I H0 E) as [H1 H2]. destruct V. split; cbn [with_sessions with_next_session sv_sessions sv_tickets]; [by apply bt_insert_sorted|done| |done].
  intros id' s'. rewrite get_insert by done. case_decide; [by intros [= <-]|by apply au_handles0].
Qed.
Lemma keeps_close_session id v : authority_ok v → authority_ok (close_session id v).
Proof using Type.
  intros []. split; cbn [close_session with_sessions sv_sessions sv_tickets]; [by apply bt_remove_sorted|done| |done]. intros id' s'. rewrite get_remove by done. case_decide; [done|by apply au_handles0].
Qed.

(** ** Runs of the server *)

(** A session opened with grants of [G], one closed, a request; and what [storaged] runs
    between requests: the sweep of stale refs and a collection that was asked for. *)
Inductive server_step : Server D → Server D → Prop :=
| step_open grants v id v' : (∀ g, g ∈ grants → g ∈ G) → open_session grants v = Ret (id, v') → server_step v v'
| step_close id v : server_step v (close_session id v)
| step_request session req now v resp v' : server_handle hash_of session req now v = Ret (resp, v') → server_step v v'
| step_sweep now v r v' : try_store (flush_stale hash_of now) v = Ret (r, v') → server_step v v'
| step_collect v r v' : run_gc hash_of v = Ret (r, v') → server_step v v'.
(** The states a server reaches from a store. *)
Inductive server_reach (store : Store D) (seed : Z) : Server D → Prop :=
| reach_new : server_reach store seed (Server_new store seed)
| reach_step v v' : server_reach store seed v → server_step v v' → server_reach store seed v'.

Lemma reach_authority store seed v : server_reach store seed v → authority_ok v.
Proof using Type.
  induction 1 as [|v v' _ IH Hs]; [by split|]. destruct Hs as [grants v id v' Hin E|id v|session req now v resp v' E|now v r v' E|v r v' E]; [by apply (keeps_open _ _ _ _ Hin IH E)|by apply keeps_close_session|by apply (keeps_handle _ _ _ _ _ _ IH E)| |].
  - by apply (keeps_try _ _ _ _ IH E).
  - by apply (keeps_run_gc _ _ _ IH E).
Qed.
End authority.
