(* ===== verification/RevokeProofs.v ===== *)
(** Generations of refs never go back: every operation of the engine that the storage
    server calls keeps each ref and its generation, or raises it. A handle that a revocation
    has made stale therefore stays stale. *)

From stdpp Require Import strings relations.
From S2P Require Import Prelude Bytes Dev BTree Disk Recovery Prolly ChunkStore Overlay Chunker File Tree Gc Engine StoreOps BatchProofs StorageServer ServerProofs.

(** ** Ageing ref tables *)

(** The refs are all still there, at the same or a later generation. *)
Definition older (t t' : btree (list Z) RefEntry) : Prop :=
  bt_sorted t' ∧ ∀ name e, bt_get name t = Some e → ∃ e', bt_get name t' = Some e' ∧ re_generation e ≤ re_generation e'.

Lemma older_refl t : bt_sorted t → older t t.
Proof. intros Hs. split; [done|]. intros name e E. by exists e. Qed.
Lemma older_trans t1 t2 t3 : older t1 t2 → older t2 t3 → older t1 t3.
Proof. intros [_ H1] [Hs H2]. split; [done|]. intros name e E. destruct (H1 _ _ E) as (e2 & E2 & L2). destruct (H2 _ _ E2) as (e3 & E3 & L3). exists e3. split; [done|lia]. Qed.
Lemma older_set t name e e' : bt_sorted t → bt_get name t = Some e → re_generation e ≤ re_generation e' → older t (bt_insert name e' t).
Proof.
  intros Hs E Hg. split; [by apply bt_insert_sorted|]. intros n x Ex. rewrite get_insert by done. case_decide as Hn; [|by exists x]. subst n. exists e'. split; [done|]. by simplify_eq.
Qed.

Section ages.
Context (hash_of : list Z → Hash) {D : Type} `{!BlockDev D}.
Implicit Types (s : Store D) (P : btree (list Z) RefEntry → Prop).

Definition refs s : btree (list Z) RefEntry := rt_refs (st_table s).
(** From the refs [P] describes, an operation only ages them. *)
Definition ages_from {A : Type} P (m : eng D A) : Prop := ∀ s r s', bt_sorted (refs s) → P (refs s) → m s = Ret (r, s') → older (refs s) (refs s').
Definition ages {A : Type} (m : eng D A) : Prop := ages_from (λ _, True) m.
(** It leaves them alone. *)
Definition same_refs {A : Type} (m : eng D A) : Prop := ∀ s r s', m s = Ret (r, s') → refs s' = refs s.

Lemma ages_weaken {A : Type} P (m : eng D A) : ages m → ages_from P m.
Proof using Type. intros H s r s' Hs _. by apply H. Qed.
Lemma same_ages {A : Type} P (m : eng D A) : same_refs m → ages_from P m.
Proof using Type. intros H s r s' Hs _ E. rewrite (H _ _ _ E). by apply older_refl. Qed.
Lemma ages_bind {A B : Type} P (m : eng D A) (f : A → eng D B) : ages_from P m → (∀ a, ages (f a)) → ages_from P (m ≫= f).
Proof using Type.
  intros Hm Hf s r s' Hs HP. unfold mbind, eng_bind. destruct (m s) as [[[a|e] s1]| |] eqn:E; [| |done|done]; pose proof (Hm _ _ _ Hs HP E) as H1; [|by intros [= <- <-]]. intros H. apply (older_trans _ _ _ H1), (Hf a _ _ _ (proj1 H1) I H).
Qed.
Lemma ages_after {A B : Type} P (m : eng D A) (f : A → eng D B) : same_refs m → (∀ a, ages_from P (f a)) → ages_from P (m ≫= f).
Proof using Type.
  intros Hm Hf s r s' Hs HP. unfold mbind, eng_bind. destruct (m s) as [[[a|e] s1]| |] eqn:E; [| |done|done]; pose proof (Hm _ _ _ E) as H1; [|intros [= <- <-]; rewrite H1; by apply older_refl].
  rewrite <-H1. apply Hf; by rewrite H1.
Qed.
Lemma ages_find {A : Type} name (f : RefEntry → eng D A) : (∀ e, ages_from (λ t, bt_get name t = Some e) (f e)) → ages (find_ref name ≫= f).
Proof using Type.
  intros Hf s r s' Hs _. unfold mbind, eng_bind, find_ref, ok_or. destruct (bt_get name (rt_refs (st_table s))) as [e|] eqn:E; [by apply Hf|]. intros [= <- <-]. by apply older_refl.
Qed.
Lemma ages_table {A : Type} (f : RefTable → eng D A) : (∀ t, ages_from (λ x, x = rt_refs t) (f t)) → ages (asks st_table ≫= f).
Proof using Type. intros Hf s r s' Hs _. by apply (Hf (st_table s)). Qed.
Lemma ages_update P (f : Store D → Store D) : (∀ s, bt_sorted (refs s) → P (refs s) → older (refs s) (refs (f s))) → ages_from P (update f).
Proof using Type. intros Hf s r s' Hs HP [= <- <-]. by apply Hf. Qed.
(** Write back a captured ref. *)
Lemma ages_set_ref name e (f : Store D → RefEntry) :
  (∀ s, re_generation e ≤ re_generation (f s)) → ages_from (λ t, bt_get name t = Some e) (update (λ s, set_table (set_ref name (f s) (st_table s)) s)).
Proof using Type. intros Hf. apply ages_update. intros s Hs E. by apply (older_set _ _ e). Qed.

Lemma same_bind {A B : Type} (m : eng D A) (f : A → eng D B) : same_refs m → (∀ a, same_refs (f a)) → same_refs (m ≫= f).
Proof using Type.
  intros Hm Hf s r s'. unfold mbind, eng_bind. destruct (m s) as [[[a|e] s1]| |] eqn:E; [|by intros [= <- <-]; apply (Hm _ _ _ E)|done|done]. intros H. rewrite (Hf a _ _ _ H). by apply (Hm _ _ _ E).
Qed.
Lemma same_looks {A : Type} (m : eng D A) : looks m → same_refs m.
Proof using Type. intros H s r s' E. by rewrite (H _ _ _ E). Qed.
Lemma same_update (f : Store D → Store D) : (∀ s, refs (f s) = refs s) → same_refs (update f).
Proof using Type. intros Hf s r s' [= <- <-]. apply Hf. Qed.
Lemma same_run {A : Type} (o : outcome A) : same_refs (run (D := D) o).
Proof using Type. intros s r s'. unfold run. destruct o; [by intros [= _ <-]|done..]. Qed.
Lemma same_add a b : same_refs (add64 (D := D) a b).
Proof using Type. intros s r s'. unfold add64. case_decide; [by intros [= _ <-]|done]. Qed.
Lemma same_mod a b : same_refs (mod64 (D := D) a b).
Proof using Type. intros s r s'. unfold mod64. case_decide; [done|by intros [= _ <-]]. Qed.
Lemma same_chunks {A : Type} (m : comp (ChunkStore D) A) : same_refs (on_chunks m).
Proof using Type. intros s r s'. unfold on_chunks. destruct (m _) as [[a c]| |]; [by intros [= _ <-]|done..]. Qed.
Lemma same_chunks_fmt {A : Type} (m : comp (ChunkStore D) (result A FormatError)) : same_refs (on_chunks_fmt m).
Proof using Type. intros s r s'. unfold on_chunks_fmt. destruct (m _) as [[[a|e] c]| |]; [by intros [= _ <-]..|done|done]. Qed.
Lemma same_chunks_err {A : Type} (m : comp (ChunkStore D) (result A StoreError)) : same_refs (on_chunks_err m).
Proof using Type. intros s r s'. unfold on_chunks_err. destruct (m _) as [[a c]| |]; [by intros [= _ <-]|done..]. Qed.
Lemma same_write off data : same_refs (write_dev (D := D) off data).
Proof using Type. intros s r s'. unfold write_dev. destruct (dev_write _ _ _). by intros [= _ <-]. Qed.
Lemma same_flush : same_refs (flush_dev (D := D)).
Proof using Type. intros s r s'. unfold flush_dev. destruct (dev_flush _). by intros [= _ <-]. Qed.
Lemma same_io : same_refs (check_io (D := D)).
Proof using Type. intros s r s'. unfold check_io. destruct (cs_io_error _); by intros [= _ <-]. Qed.
Lemma same_try {A : Type} (x : result A StoreError) : same_refs (try (D := D) x).
Proof using Type. by intros s r s' [= _ <-]. Qed.
Lemma same_unwrap {A : Type} (x : option A) : same_refs (unwrap_some (D := D) x).
Proof using Type. intros s r s'. unfold unwrap_some. destruct x; [by intros [= _ <-]|done]. Qed.
Lemma same_mark live root : same_refs (mark_root hash_of (D := D) live root).
Proof using Type. intros s r s'. unfold mark_root. destruct (mark _ _ _ _) as [[[x|e] l]|]; [by intros [= _ <-]..|done]. Qed.
Lemma same_panic {A : Type} (o : outcome (result A StoreError * Store D)) : (∀ x, o ≠ Ret x) → same_refs (λ _, o).
Proof using Type. intros H s r s' E. by destruct (H _ E). Qed.
Lemma same_each {A : Type} (l : list A) (f : A → eng D unit) : (∀ x, same_refs (f x)) → same_refs (each l f).
Proof using Type. intros Hf. induction l as [|x l IH]; cbn [each]; [by apply same_looks, looks_ret|]. apply same_bind; [apply Hf|]. intros _. apply IH. Qed.
Lemma same_fold {A B : Type} (l : list A) (acc : B) (f : B → A → eng D B) : (∀ b x, same_refs (f b x)) → same_refs (fold_eng l acc f).
Proof using Type. intros Hf. revert acc. induction l as [|x l IH]; intros acc; cbn [fold_eng]; [by apply same_looks, looks_ret|]. apply same_bind; [apply Hf|]. intros b. apply IH. Qed.
Lemma ages_each {A : Type} (l : list A) (f : A → eng D unit) : (∀ x, ages (f x)) → ages (each l f).
Proof using Type. intros Hf. induction l as [|x l IH]; cbn [each]; [by apply same_ages, same_looks, looks_ret|]. apply ages_bind; [apply Hf|]. intros _. apply IH. Qed.
End ages.
#[export] Hint Resolve same_run same_add same_mod same_chunks same_chunks_fmt same_chunks_err same_write same_flush same_io same_try same_unwrap same_mark : looks.
#[export] Hint Extern 1 (same_refs (update _)) => (apply same_update; reflexivity) : looks.
#[export] Hint Extern 2 (same_refs _) => (apply same_looks; solve [auto with looks nocore]) : looks.
Ltac keep := repeat first [progress intros | progress cbv zeta | solve [auto with looks nocore] | apply same_bind | apply same_each | apply same_fold | case_match].
Ltac age := repeat first [progress intros | progress cbv zeta | solve [auto with looks nocore] | apply same_ages; solve [keep] | apply ages_bind | case_match].

Section engine_ages.
Context (hash_of : list Z → Hash) {D : Type} `{!BlockDev D}.

(** ** Commit and flush *)
Lemma ages_version name : ages (bump_version (D := D) name).
Proof using Type.
  unfold bump_version. intros s r s' Hs _. unfold mbind at 1, eng_bind at 1, asks. destruct (bt_get name (rt_refs (st_table s))) as [e|] eqn:E; [|intros [= _ <-]; by apply older_refl].
  apply (ages_after (λ t, bt_get name t = Some e)); [auto with looks nocore| |done|done]. intros v. by apply ages_set_ref.
Qed.
Lemma same_pop n (s : Store D) : refs (pop_records n s) = refs s.
Proof using Type. unfold pop_records. cbv zeta. by case_match. Qed.
Lemma ages_commit : ages (commit hash_of (D := D)).
Proof using Type.
  unfold commit. apply ages_bind; [|age]. unfold commit_prepare. apply ages_after; [keep|]. intros dirty. apply ages_after; [keep|]. intros _. apply ages_bind; [apply ages_each, ages_version|]. intros _. apply same_ages. keep. apply same_update, same_pop.
Qed.
Lemma same_carry name o : same_refs (carry_handles (D := D) name o).
Proof using Type. unfold carry_handles, put_overlay. keep. Qed.
Lemma same_flush_file base root x : same_refs (flush_file hash_of (D := D) base root x).
Proof using Type. unfold flush_file. keep. Qed.
Lemma ages_flush name : ages (flush_ref hash_of (D := D) name).
Proof using Type.
  unfold flush_ref. apply ages_after; [keep|]. intros _. apply ages_after; [keep|]. intros [o|]; [|age]. apply ages_after; [keep|]. intros _. case_match; [apply same_ages, same_carry|]. apply ages_find. intros e. cbv zeta.
  apply ages_after; [unfold flush_dir_rename; keep|]. intros r1. apply ages_after; [unfold flush_remove; keep|]. intros r2. apply ages_after; [apply same_fold; apply same_flush_file|]. intros r3. apply ages_bind; [by apply ages_set_ref|]. intros _. unfold touch_ref. age. apply same_ages, same_carry.
Qed.
End engine_ages.
#[export] Hint Resolve ages_commit ages_flush ages_weaken ages_each : looks.

Section ops_age.
Context (hash_of : list Z → Hash) {D : Type} `{!BlockDev D}.

(** ** The log *)
Lemma same_apply op : same_refs (apply_to_overlay hash_of (D := D) op).
Proof using Type. unfold apply_to_overlay, apply_rename_committed, put_overlay. keep. Qed.
Lemma same_account op pos : same_refs (account_op (D := D) op pos).
Proof using Type. unfold account_op. keep. Qed.
Lemma same_append op r : same_refs (wal_append (D := D) op r).
Proof using Type. unfold wal_append, wal_write. keep. Qed.
Lemma ages_relieve_wal n incoming : ages (relieve_wal_loop hash_of (D := D) n incoming).
Proof using Type.
  induction n as [|n IH]; cbn [relieve_wal_loop]; [by intros s r s' _ _|]. unfold wal_usage. age.
Qed.
Lemma ages_relieve_size l b : ages (relieve_size_loop hash_of (D := D) l b).
Proof using Type. revert b. induction l as [|[z name] l IH]; intros b; cbn [relieve_size_loop]; age. Qed.
Lemma ages_stale now : ages (flush_stale hash_of (D := D) now).
Proof using Type. unfold flush_stale, relieve_staleness. age. Qed.
Lemma ages_log op : ages (log_then_apply hash_of (D := D) op).
Proof using Type.
  unfold log_then_apply, relieve_wal_pressure. age; first [apply ages_relieve_wal|apply ages_relieve_size|apply same_ages; first [apply same_apply|apply same_append|apply same_account]].
Qed.

(** ** Writes *)
Lemma same_validate name path : same_refs (validate_mutation_path hash_of (D := D) name path).
Proof using Type. unfold validate_mutation_path, check_names, check_prefix. keep. Qed.
#[local] Hint Resolve ages_log same_validate : looks.
Lemma ages_write name path off data t : ages (store_write hash_of (D := D) name path off data t).
Proof using Type. unfold store_write. age. Qed.
Lemma ages_unlink name path t : ages (store_unlink hash_of (D := D) name path t).
Proof using Type. unfold store_unlink. age. Qed.
Lemma ages_rename name from to t : ages (store_rename hash_of (D := D) name from to t).
Proof using Type.
  unfold store_rename, check_names, rename_source_is_dir, rename_dir_target_free. age.
Qed.
Lemma ages_sync name : ages (sync_ref hash_of (D := D) name).
Proof using Type. unfold sync_ref. age. Qed.
Lemma ages_gc : ages (gc hash_of (D := D)).
Proof using Type. unfold gc, sync_all, sweep_entry. age. Qed.

(** ** Refs and snapshots *)
Lemma ages_snapshot name prov msg class now : ages (snapshot hash_of (D := D) name prov msg class now).
Proof using Type.
  unfold snapshot. apply ages_bind; [apply ages_flush|]. intros _. apply ages_find. intros e. cbv zeta. apply ages_after; [keep|]. intros l. apply ages_after; [keep|]. intros _. apply ages_after; [keep|]. intros n.
  apply ages_bind; [by apply ages_set_ref|]. unfold touch_ref. age.
Qed.
Lemma ages_rollback name id : ages (rollback hash_of (D := D) name id).
Proof using Type.
  unfold rollback, snapshot_root. apply ages_bind; [age|]. intros root. apply ages_bind; [apply ages_flush|]. intros _. apply ages_find. intros e. apply ages_bind; [by apply ages_set_ref|]. unfold touch_ref. age.
Qed.
(** A staged table with the same refs. *)
Lemma ages_staged {A : Type} (x : RefTable → result RefTable StoreError) (k : eng D A) :
  (∀ t t', x t = Ok t' → rt_refs t' = rt_refs t) → ages k → ages (t ← asks st_table; t' ← try (x t); update (set_table t');; k).
Proof using Type.
  intros Hx Hk. apply ages_table. intros t. intros s r s' Hs Ht. unfold mbind at 1, eng_bind at 1, try. destruct (x t) as [t'|] eqn:E; [|intros [= _ <-]; by apply older_refl].
  apply (ages_bind (λ y, y = rt_refs t)); [|done|done|done]. apply ages_update. intros s1 H1 E1. change (refs (set_table t' s1)) with (rt_refs t'). rewrite (Hx _ _ E), <-E1. by apply older_refl.
Qed.
Lemma ages_delete name id : ages (delete_snapshot hash_of (D := D) name id).
Proof using Type.
  unfold delete_snapshot, touch_ref. apply ages_staged; [|age]. intros t t' E. by apply (edit_refs t name (DeleteSnapshot id)).
Qed.
Lemma ages_class name id class : ages (set_snapshot_class hash_of (D := D) name id class).
Proof using Type.
  unfold set_snapshot_class, touch_ref. destruct (CLASS_EPHEMERAL <? class) eqn:Ec; [age|]. apply ages_staged; [|age]. intros t t' E. apply (edit_refs t name (SetClass id class)). cbn [apply_ref_edit]. by rewrite Ec.
Qed.
Lemma ages_batch name v edits : ages (apply_batch hash_of (D := D) name v edits).
Proof using Type.
  unfold apply_batch, touch_ref. apply ages_after; [keep|]. intros e. cbv zeta. case_match; [age|]. apply ages_staged; [|age]. intros t t'. apply stage_refs.
Qed.
Lemma ages_tag name ref id : ages (tag hash_of (D := D) name ref id).
Proof using Type. unfold tag, touch_ref. age. Qed.
Lemma ages_untag ref name : ages (untag hash_of (D := D) ref name).
Proof using Type. unfold untag, touch_ref. age. Qed.
Lemma ages_bump name : ages (bump_generation hash_of (D := D) name).
Proof using Type.
  unfold bump_generation. apply ages_find. intros e s r s' Hs E. unfold mbind at 1, eng_bind at 1, add64. case_decide; [|done]. apply (ages_bind (λ t, bt_get name t = Some e)); [|age|done|done]. apply ages_set_ref. intros _. cbn. lia.
Qed.

(** A bump that succeeds leaves the ref at a later generation. *)
Lemma bump_later name (s s' : Store D) e :
  bt_sorted (refs s) → bt_get name (refs s) = Some e → bump_generation hash_of name s = Ret (Ok tt, s') →
  ∃ e', bt_get name (refs s') = Some e' ∧ re_generation e < re_generation e'.
Proof using Type.
  intros Hs E. unfold bump_generation, find_ref, ok_or. unfold mbind at 1, eng_bind at 1. unfold refs in E. rewrite E. unfold mbind at 1, eng_bind at 1, add64. case_decide; [|done]. unfold mbind, eng_bind, update. cbv beta iota.
  set (e1 := MkRefEntry _ _ _ _). set (s1 := set_table _ s). intros H1. destruct (ages_commit hash_of s1 _ _ ltac:(by apply bt_insert_sorted) I H1) as [_ Ha].
  destruct (Ha name e1) as (e' & E' & L); [|exists e'; split; [done|cbn in L; lia]]. unfold refs, s1. cbn [set_table set_ref st_table rt_refs]. by rewrite get_insert, decide_True.
Qed.
End ops_age.

(** ** Requests *)
Section server_ages.
Context (hash_of : list Z → Hash) {D : Type} `{!BlockDev D}.
Implicit Types (v : Server D).

Definition srefs v : btree (list Z) RefEntry := refs (sv_store v).
Definition srv_ages {A : Type} (m : srv (D := D) A) : Prop := ∀ v r v', bt_sorted (srefs v) → m v = Ret (r, v') → older (srefs v) (srefs v').

Lemma still_ages {A : Type} (m : srv A) : still m → srv_ages m.
Proof using Type. intros H v r v' Hs E. unfold srefs. rewrite (H _ _ _ E). by apply older_refl. Qed.
Lemma srv_ages_bind {A B : Type} (m : srv A) (f : A → srv B) : srv_ages m → (∀ a, srv_ages (f a)) → srv_ages (m ≫= f).
Proof using Type.
  intros Hm Hf v r v' Hs. unfold mbind, srv_bind. destruct (m v) as [[[a|e] v1]| |] eqn:E; [| |done|done]; pose proof (Hm _ _ _ Hs E) as H1; [|by intros [= <- <-]]. intros H. apply (older_trans _ _ _ H1), (Hf a _ _ _ (proj1 H1) H).
Qed.
Lemma srv_ages_store {A : Type} f (m : eng D A) : ages m → srv_ages (on_store f m).
Proof using Type. intros Hm v r v' Hs. unfold on_store. destruct (m (sv_store v)) as [[[a|e] s]| |] eqn:E; [intros [= <- <-]; by apply (Hm _ _ _ Hs I E)..|done|done]. Qed.
Lemma srv_ages_try {A : Type} (m : eng D A) : ages m → srv_ages (try_store m).
Proof using Type. intros Hm v r v' Hs. unfold try_store. destruct (m (sv_store v)) as [[x s]| |] eqn:E; [intros [= <- <-]; by apply (Hm _ _ _ Hs I E)|done|done]. Qed.
Lemma still_rewrite session h : still (rewrite_target (D := D) session h).
Proof using Type. unfold rewrite_target. stay. Qed.
End server_ages.
#[export] Hint Resolve ages_write ages_unlink ages_rename ages_sync ages_snapshot ages_rollback ages_bump ages_delete ages_class ages_gc ages_batch ages_tag ages_untag still_rewrite srv_ages_store srv_ages_try : looks.
Ltac grow := repeat first [progress intros | solve [eauto with looks nocore] | apply still_ages; solve [stay] | apply srv_ages_bind | case_match].

Section revocation.
Context (hash_of : list Z → Hash) {D : Type} `{!BlockDev D}.
Implicit Types (v : Server D).

Lemma dispatch_ages session now req : srv_ages (dispatch hash_of (D := D) session now req).
Proof using Type.
  unfold dispatch. destruct (negb _); [grow|]. destruct req.
  - unfold do_read, read_target. grow.
  - unfold do_write. grow.
  - unfold do_unlink. grow.
  - unfold do_list, list_at_root. grow.
  - unfold do_open_child, resolve_ref_dir. grow.
  - apply still_ages. intros v r v'. unfold do_close. repeat case_match; by intros [= _ <-].
  - unfold do_sync. grow.
  - unfold do_snapshot. grow.
  - unfold do_list_snapshots. grow.
  - unfold do_open_snapshot. grow.
  - unfold do_rollback. grow.
  - unfold do_revoke_ref. grow.
  - apply still_ages. unfold do_mint_ticket. apply still_bind; [apply still_lookup|]. intros e v r v'. unfold mint. case_decide; [by intros [= _ <-]|done].
  - unfold do_redeem_ticket. grow.
  - unfold do_stat, read_target. grow.
  - apply still_ages. intros v r v'. unfold do_enumerate. repeat case_match; by intros [= _ <-].
  - unfold do_delete_snapshot. grow.
  - unfold do_set_class. grow.
  - unfold do_gc, run_gc. grow.
  - unfold do_statfs. grow.
  - unfold do_apply. grow.
  - unfold do_tag. grow.
  - unfold do_untag. grow.
  - unfold do_list_tags. grow.
  - unfold do_rename. grow.
Qed.
Lemma handle_ages session req now v resp v' : bt_sorted (srefs v) → server_handle hash_of session req now v = Ret (resp, v') → older (srefs v) (srefs v').
Proof using Type.
  intros Hs. unfold server_handle. destruct (dispatch hash_of session now req v) as [[r v1]| |] eqn:E; [|done..]. destruct (watermark v1) as [[w v2]| |] eqn:Ew; [|done..]. intros [= _ <-].
  unfold srefs at 2. rewrite (still_watermark _ _ _ Ew). by apply (dispatch_ages _ _ _ _ _ _ Hs E).
Qed.
Lemma sweep_ages now : srv_ages (try_store (flush_stale hash_of (D := D) now)).
Proof using Type. apply srv_ages_try, ages_stale. Qed.
Lemma collect_ages : srv_ages (run_gc hash_of (D := D)).
Proof using Type. unfold run_gc. grow. Qed.
Lemma steps_age G v v' : rtc (server_step hash_of G) v v' → bt_sorted (srefs v) → older (srefs v) (srefs v').
Proof using Type.
  induction 1 as [v|v v1 v' Hst _ IH]; intros Hs; [by apply older_refl|]. assert (older (srefs v) (srefs v1)) as H1; [|by apply (older_trans _ _ _ H1), IH, (proj1 H1)].
  destruct Hst as [grants v id v1 _ E|id v|session req now v resp v1 E|now v r v1 E|v r v1 E]; [|by apply older_refl|by apply (handle_ages _ _ _ _ _ _ Hs E)|by apply (sweep_ages _ _ _ _ Hs E)|by apply (collect_ages _ _ _ Hs E)].
  revert E. unfold open_session. cbv zeta. case_decide; [|done]. destruct (insert_all _ _); [|done..]. intros [= _ <-]. by apply older_refl.
Qed.

(** ** Stale handles *)

(** The handle a request acts on; closing one is always allowed. *)
Definition request_handle (req : Request) : option HandleId :=
  match req with
  | ReqRead h _ _ _ | ReqWrite h _ _ _ | ReqUnlink h _ | ReqList h _ | ReqOpenChild h _ _ | ReqSync h | ReqSnapshot h _ _ | ReqListSnapshots h
  | ReqOpenSnapshot h _ _ _ | ReqRollback h _ | ReqRevokeRef h | ReqMintTicket h _ | ReqStat h _ | ReqDeleteSnapshot h _ | ReqSetClass h _ _ | ReqGc h
  | ReqStatfs h | ReqApply h _ _ | ReqTag h _ _ | ReqUntag h _ | ReqListTags h | ReqRename h _ _ => Some h
  | ReqClose _ | ReqRedeemTicket _ | ReqEnumerateSession => None
  end.
Definition stale v (e : HandleEntry) : Prop :=
  match he_target e with OnRef name _ gen => match bt_get name (srefs v) with Some r => re_generation r ≠ gen | None => True end | OnSnapshot _ => False end.

Lemma lookup_stale v session h e need : get_handle v session h = Some e → stale v e → handle_lookup session h need v = Ret (Err CStale, v).
Proof using Type.
  intros Hh Hs. unfold handle_lookup. rewrite Hh. cbv zeta. unfold stale in Hs. destruct (he_target e) as [|name sub gen]; [done|]. unfold ref_entry. unfold srefs, refs in Hs. destruct (bt_get name _) as [r|]; [|done]. by apply Z.eqb_neq in Hs as ->.
Qed.
Lemma dispatch_stale v session h e now req :
  get_handle v session h = Some e → stale v e → request_handle req = Some h →
  dispatch hash_of session now req v = Ret (Err (if forallb valid_path (request_paths req) then CStale else CBadPath), v).
Proof using Type.
  intros Hh Hs Hr. unfold dispatch. destruct (forallb valid_path (request_paths req)); [|done]. cbn [negb].
  assert (∀ need (B : Type) (f : HandleEntry → srv (D := D) B), (handle_lookup session h need ≫= f) v = Ret (Err CStale, v)) as Hl by (intros need B f; unfold mbind, srv_bind; by rewrite (lookup_stale _ _ _ e _ Hh Hs)).
  assert (∀ (B : Type) (f : list Z → srv (D := D) B), (rewrite_target session h ≫= f) v = Ret (Err CStale, v)) as Hw by (intros B f; unfold rewrite_target; rewrite bind_assoc; apply Hl).
  destruct req; cbn [request_handle] in Hr; try done; injection Hr as ->; first [apply Hl|apply Hw].
Qed.

(** A revocation that succeeds leaves the ref at a later generation than the handle's. *)
Lemma revoked_later v v1 session handle now name gen rights :
  bt_sorted (srefs v) → get_handle v session handle = Some (MkHandle (OnRef name [] gen) rights) → server_handle hash_of session (ReqRevokeRef handle) now v = Ret (RespOk, v1) →
  ∃ e, bt_get name (srefs v1) = Some e ∧ gen < re_generation e.
Proof using Type.
  intros Hs Hh. unfold server_handle, dispatch. cbn [request_paths forallb negb]. destruct (do_revoke_ref hash_of session handle v) as [[r v2]| |] eqn:E; [|done..]. destruct (watermark v2) as [[w v3]| |] eqn:Ew; [|done..]. intros [= Hr <-]. destruct r as [r|c]; [|done]. subst r.
  unfold srefs. rewrite (still_watermark _ _ _ Ew). revert E. unfold do_revoke_ref, rewrite_target. rewrite bind_assoc. unfold mbind at 1, srv_bind at 1, handle_lookup. rewrite Hh. cbv zeta. cbn [he_target]. unfold ref_entry.
  destruct (bt_get name (rt_refs (st_table (sv_store v)))) as [e|] eqn:Ee; [|done]. destruct (re_generation e =? gen) eqn:Eg; [|done]. cbn [negb]. destruct (negb _); [done|]. cbn [he_target].
  unfold mbind, srv_bind, on_store, mret, srv_ret. cbn. destruct (bump_generation hash_of name (sv_store v)) as [[[[]|x] s]| |] eqn:Eb; [|done..]. intros [= <-]. destruct (bump_later hash_of name _ _ e Hs Ee Eb) as (e' & E' & L). exists e'. split; [done|lia].
Qed.
End revocation.
