(* ===== verification/ServerTheorems.v ===== *)
(** What the storage server of [storage-server/src/lib.rs] guarantees about authority: the
    handles of its sessions, revocation, and sessions that may only look. *)

From stdpp Require Import strings relations.
From S2P Require Import Prelude Bytes Dev BTree Disk Recovery Prolly ChunkStore Overlay Chunker File Tree Gc Engine StoreOps StorageServer ServerProofs RevokeProofs EngineTheorems.

(** ** A server to run *)

(** A store with two refs, a file in a directory of the first. *)
Definition served_store : Store CrashDev := after ((two_refs;; store_write mix_hash ref_R [[100]; [97]] 0 [1; 2; 3] 10;; sync_ref mix_hash ref_R) demo_store).
Definition root_R : HandleEntry := MkHandle (OnRef ref_R [] 0) (Z.lor R_ALL R_STAT_STORE).
Definition empty_server : Server CrashDev := Server_new served_store 5.
(** The server after a step that may panic. *)
Definition then_ {A : Type} (x : outcome (A * Server CrashDev)) : Server CrashDev := match x with Ret (_, v) => v | _ => empty_server end.
Definition returns {A : Type} (x : outcome (A * Server CrashDev)) : bool := match x with Ret _ => true | _ => false end.
Definition reply (x : outcome (Response * Server CrashDev)) : option Response := match x with Ret (r, _) => Some r | _ => None end.

Lemma request_runs G session req now v : returns (server_handle mix_hash session req now v) = true → server_step mix_hash G v (then_ (server_handle mix_hash session req now v)).
Proof. intros H. destruct (server_handle mix_hash session req now v) as [[r v']| |] eqn:E; [|discriminate H..]. exact (step_request mix_hash G session req now v r v' E). Qed.
Lemma open_runs G grants v : (∀ g, g ∈ grants → g ∈ G) → returns (open_session grants v) = true → server_step mix_hash G v (then_ (open_session grants v)).
Proof. intros Hg H. destruct (open_session grants v) as [[r v']| |] eqn:E; [|discriminate H..]. exact (step_open mix_hash G grants v r v' Hg E). Qed.

(** Sortedness of a map, computed. *)
Fixpoint sorted_check {K V : Type} `{Ord K} (m : btree K V) : bool :=
  match m with [] => true | (k, _) :: m => forallb (λ x : K * V, match cmp k x.1 with Lt => true | _ => false end) m && sorted_check m end.
Lemma sorted_check_ok {K V : Type} `{Ord K} (m : btree K V) : sorted_check m = true → bt_sorted m.
Proof.
  induction m as [|[k v] m IH]; cbn; [done|]. intros [H1 H2]%andb_prop. split; [|by apply IH]. intros k' v' Hin. rewrite forallb_forall in H1. specialize (H1 (k', v') ltac:(by apply list_elem_of_In)). cbn in H1. unfold lt. by destruct (cmp k k').
Qed.

(** Session 1 holds the root of a ref, hands session 2 the directory [d] to read. *)
Definition opened : Server CrashDev := then_ (open_session [] (then_ (open_session [root_R] empty_server))).
Definition delegated : Server CrashDev := then_ (server_handle mix_hash 1 (ReqOpenChild 0 [[100]] R_READ) 20 opened).
Definition ticketed : Server CrashDev := then_ (server_handle mix_hash 1 (ReqMintTicket 1 1000) 20 delegated).
Definition the_ticket : list Z := match (sv_tickets ticketed) with (t, _) :: _ => t | [] => [] end.
Definition redeemed : Server CrashDev := then_ (server_handle mix_hash 2 (ReqRedeemTicket the_ticket) 30 ticketed).

(** ** Authority *)

(** C10: authority is confined. Whatever sessions are opened with the grants [G] and closed,
    and whatever requests clients send, every handle of every session and every ticket that
    waits to be redeemed comes from one of the grants: it has no right the grant does not
    have, and denotes the same ref at the same generation at or below the grant's subtree,
    or a snapshot with at most the rights to read and to enumerate. Of a snapshot
    handle only the rights are confined here; which directory of the snapshot it shows is
    not stated. Between requests the run takes [storaged]'s sweeps of stale refs and its
    collections. *)
Theorem authority_confined (hash_of : list Z → Hash) {D : Type} `{!BlockDev D} (G : list HandleEntry) (store : Store D) (seed : Z) (v : Server D) :
  server_reach hash_of G store seed v →
  (∀ session h e, get_handle v session h = Some e → ∃ g, g ∈ G ∧ derived g e) ∧
  (∀ t p, bt_get t (sv_tickets v) = Some p → ∃ g, g ∈ G ∧ derived g (pt_entry p)).
Proof.
  intros H%reach_authority. split; [|apply (au_tickets _ _ H)]. intros session h e. unfold get_handle. destruct (bt_get session (sv_sessions v)) as [s|] eqn:E; [|done]. apply (au_handles _ _ H _ _ E).
Qed.
Lemma redeemed_reached : server_reach mix_hash [root_R] served_store 5 redeemed.
Proof.
  apply reach_step with ticketed; [|apply request_runs; vm_compute; reflexivity]. apply reach_step with delegated; [|apply request_runs; vm_compute; reflexivity]. apply reach_step with opened; [|apply request_runs; vm_compute; reflexivity].
  apply reach_step with (then_ (open_session [root_R] empty_server)); [apply reach_step with empty_server; [apply reach_new|]|]; (apply open_runs; [|vm_compute; reflexivity]).
  - intros g H. exact H.
  - intros g []%elem_of_nil.
Qed.
Lemma authority_confined_witness :
  get_handle redeemed 2 0 = Some (MkHandle (OnRef ref_R [[100]] 0) R_READ) ∧ ∃ g, g ∈ [root_R] ∧ derived g (MkHandle (OnRef ref_R [[100]] 0) R_READ).
Proof.
  assert (get_handle redeemed 2 0 = Some (MkHandle (OnRef ref_R [[100]] 0) R_READ)) as H by (vm_compute; reflexivity). split; [exact H|].
  destruct (authority_confined mix_hash [root_R] served_store 5 redeemed redeemed_reached) as [Hh _]. exact (Hh 2 0 _ H).
Defined.

(** C11: revocation is immediate and final. Once a request to revoke a ref has succeeded
    through a handle on it, then after any further run of the server, with any grants, a
    request through a handle on that ref granted at the revoked generation or earlier, in
    any session, is refused as stale (or for a malformed path) and changes nothing. The
    requests are all those that act through a handle; closing a stale handle still
    succeeds, and removes only the handle. *)
Theorem revocation_final (hash_of : list Z → Hash) {D : Type} `{!BlockDev D} (v v1 v2 : Server D) session handle now name rights gen :
  bt_sorted (rt_refs (st_table (sv_store v))) → get_handle v session handle = Some (MkHandle (OnRef name [] gen) rights) →
  server_handle hash_of session (ReqRevokeRef handle) now v = Ret (RespOk, v1) → ∀ G, rtc (server_step hash_of G) v1 v2 →
  ∀ session' handle' now' req sub gen' rights',
    get_handle v2 session' handle' = Some (MkHandle (OnRef name sub gen') rights') → gen' ≤ gen → request_handle req = Some handle' →
    dispatch hash_of session' now' req v2 = Ret (Err (if forallb valid_path (request_paths req) then CStale else CBadPath), v2).
Proof.
  intros Hs Hh Hr G Hst session' handle' now' req sub gen' rights' Hh' Hg Hreq. apply (dispatch_stale _ _ _ _ _ _ _ Hh'); [|done]. destruct (revoked_later hash_of _ _ _ _ _ _ _ _ Hs Hh Hr) as (e1 & E1 & L1).
  destruct (steps_age hash_of G v1 v2 Hst) as [_ Ha]; [by apply (handle_ages hash_of _ _ _ _ _ _ Hs Hr)|]. destruct (Ha _ _ E1) as (e2 & E2 & L2). unfold stale. cbn [he_target]. rewrite E2. lia.
Qed.
Definition revoked : Server CrashDev := then_ (server_handle mix_hash 1 (ReqRevokeRef 0) 40 redeemed).
Definition regranted : Server CrashDev := then_ (open_session [MkHandle (OnRef ref_R [] 1) R_ALL] revoked).
Lemma revocation_final_witness : dispatch mix_hash 2 60 (ReqRead 0 [[97]] 0 10) regranted = Ret (Err CStale, regranted).
Proof.
  assert (server_handle mix_hash 1 (ReqRevokeRef 0) 40 redeemed = Ret (RespOk, revoked)) as Hr.
  { unfold revoked. assert (reply (server_handle mix_hash 1 (ReqRevokeRef 0) 40 redeemed) = Some RespOk) as H by (vm_compute; reflexivity). destruct (server_handle mix_hash 1 (ReqRevokeRef 0) 40 redeemed) as [[r v']| |]; [|discriminate H..]. injection H as ->. reflexivity. }
  apply (revocation_final mix_hash redeemed revoked regranted 1 0 40 ref_R (Z.lor R_ALL R_STAT_STORE) 0) with (G := [MkHandle (OnRef ref_R [] 1) R_ALL]) (handle' := 0) (sub := [[100]]) (gen' := 0) (rights' := R_READ).
  - apply sorted_check_ok. vm_compute. reflexivity.
  - vm_compute. reflexivity.
  - exact Hr.
  - apply rtc_once, open_runs; [intros g H; exact H|vm_compute; reflexivity].
  - vm_compute. reflexivity.
  - lia.
  - reflexivity.
Defined.

(** ** Sessions that only look *)

(** C12: without the rights to write, to snapshot or to rewrite history on any of its handles,
    a session changes nothing: whatever it requests, the store, with its device, its ref
    table and its log, is the same after the request as before it. *)
Theorem observer_changes_nothing (hash_of : list Z → Hash) {D : Type} `{!BlockDev D} (session : SessionId) (now : Z) (req : Request) (v v' : Server D) (resp : Response) :
  (∀ h e, get_handle v session h = Some e → Z.land (he_rights e) (Z.lor R_WRITE (Z.lor R_SNAPSHOT R_REWRITE_HISTORY)) = 0) →
  server_handle hash_of session req now v = Ret (resp, v') → sv_store v' = sv_store v.
Proof. exact (observer_handle hash_of session now req v resp v'). Qed.
Lemma session_handles {D : Type} (v : Server D) session hs n : bt_get session (sv_sessions v) = Some (MkSession hs n) → ∀ h, get_handle v session h = bt_get h hs.
Proof. intros E h. unfold get_handle. by rewrite E. Qed.
Lemma observer_changes_nothing_witness : sv_store (then_ (server_handle mix_hash 2 (ReqWrite 0 [[97]] 0 [9]) 50 redeemed)) = sv_store redeemed.
Proof.
  assert (reply (server_handle mix_hash 2 (ReqWrite 0 [[97]] 0 [9]) 50 redeemed) = Some (RespErr CDenied)) as H by (vm_compute; reflexivity).
  destruct (server_handle mix_hash 2 (ReqWrite 0 [[97]] 0 [9]) 50 redeemed) as [[r v']| |] eqn:E; [|discriminate H..]. apply (observer_changes_nothing mix_hash 2 50 (ReqWrite 0 [[97]] 0 [9]) redeemed v' r); [|exact E].
  intros h e. assert (∀ h, get_handle redeemed 2 h = bt_get h [(0, MkHandle (OnRef ref_R [[100]] 0) R_READ)]) as Hh by (apply session_handles with 1; vm_compute; reflexivity). rewrite Hh. cbn [bt_get]. destruct (cmp h 0); [intros [= <-]; reflexivity|discriminate..].
Defined.

(** ** A snapshot the store cannot mount *)

(** A client with the right to snapshot names a retention class above the last one: the
    snapshot is committed, and the next mount refuses the ref table. *)
Definition misclassed : Server CrashDev := then_ (server_handle mix_hash 1 (ReqSnapshot 0 [104] 3) 20 opened).
Lemma bad_class_bricks_store :
  reply (server_handle mix_hash 1 (ReqSnapshot 0 [104] 3) 20 opened) = Some (RespSnapId 1) ∧
  mount mix_hash (crash 7 (cs_dev (st_chunks (sv_store misclassed)))) demo_opts = Ret (Err (EFormat (BadNode "bad retention class"))).
Proof. split; vm_compute; reflexivity. Qed.
