(* ===== verification/CasTheorems.v ===== *)
(** What the on-disk formats, the recovery decisions and the directory trees of the
    content-addressed store guarantee. Each theorem has a concrete instance behind it, run
    with the 32-byte digest [toy_hash] in place of BLAKE3. *)

From stdpp Require Import strings.
From S2P Require Import Prelude Bytes BTree Disk Recovery Prolly ProllyTree.

(** A small executable digest for the instances: 32 bytes of a polynomial in the input. *)
Definition toy_hash (l : list Z) : Hash := le_bytes 32 (foldl (λ a b, (a * 257 + b + 1) mod 2 ^ 256) 0 l).
#[global] Instance toy_laws : HashLaws toy_hash.
Proof. constructor; intros l; [apply le_bytes_length|apply le_bytes_bytes]. Qed.

(** ** The write-ahead log *)

(** C6: recovery reads back exactly the log. For any bytes of a log region, any head in it
    and any 64-bit sequence number, [recover_records] returns (it neither panics nor runs
    out of steps), and what it returns describes a run of valid records with consecutive
    sequence numbers whose encodings are the bytes at the head; the run is maximal (no
    record continues it), unless it stopped at a record with the last sequence number,
    which it flags; and it is the only such run. *)
Theorem recover_exact (hash_of : list Z → Hash) `{!HashLaws hash_of} (wal : list Z) (head seq : Z) :
  is_bytes wal → fits_in 8 seq → 0 ≤ head ≤ Z.of_nat (length wal) →
  ∃ ops tail forged,
    recover_records hash_of wal head seq =
      Some (MkRecovered (metas_of hash_of ops head seq) (head + Z.of_nat (length (log_of hash_of ops seq))) (seq + Z.of_nat (length ops)) forged) ∧
    drop (Z.to_nat head) wal = log_of hash_of ops seq ++ tail ∧ ops_valid ops seq ∧
    if forged : bool then seq + Z.of_nat (length ops) = U64_MAX ∧ ∃ op n, decode_record hash_of tail = Some (U64_MAX, op, n)
    else log_ends hash_of tail (seq + Z.of_nat (length ops)) ∧
         ∀ ops2 tail2, ops_valid ops2 seq → drop (Z.to_nat head) wal = log_of hash_of ops2 seq ++ tail2 →
           log_ends hash_of tail2 (seq + Z.of_nat (length ops2)) → ops2 = ops.
Proof.
  intros Hb Hs Hh. destruct (recover_records_spec hash_of wal head seq Hb Hs Hh) as (ops & tail & forged & Hr & Hd & Hv & _ & Hf).
  exists ops, tail, forged. split_and!; [done..|]. destruct forged; [done|]. split; [done|]. intros ops2 tail2 V2 D2 E2. rewrite D2 in Hd. by eapply log_unique.
Qed.

Definition demo_op (b : Z) : WalOp := Write [114] [[97]; [98]] 3 7 [b; b].
Definition demo_wal : list Z := [9; 9] ++ log_of toy_hash [demo_op 1; demo_op 2] 5 ++ [0; 0; 0].

Lemma recover_exact_witness :
  recover_records toy_hash demo_wal 2 5 = Some (MkRecovered (metas_of toy_hash [demo_op 1; demo_op 2] 2 5) (2 + Z.of_nat (length (log_of toy_hash [demo_op 1; demo_op 2] 5))) 7 false) ∧
  ∃ ops tail (forged : bool), drop 2 demo_wal = log_of toy_hash ops 5 ++ tail ∧ ops_valid ops 5.
Proof.
  split; [vm_compute; reflexivity|].
  destruct (recover_exact toy_hash demo_wal 2 5) as (ops & tail & forged & _ & Hd & Hv & _).
  - apply (bool_decide_unpack _). vm_compute. reflexivity.
  - split; vm_compute; [discriminate|reflexivity].
  - apply (bool_decide_unpack _). vm_compute. reflexivity.
  - exists ops, tail, forged. split; [exact Hd|exact Hv].
Defined.

(** C7: no acknowledged record is lost when the head advances. Take a log of valid records
    laid out from offset [off], of which some are marked flushed. After a commit moved the
    head to where [advance_head] says, recovery from there replays exactly the records from
    the first unflushed one on; all records before it were flushed; and if every record was
    flushed, nothing is replayed from the sequence number it recorded. *)
Theorem head_advance_keeps_log (hash_of : list Z → Hash) `{!HashLaws hash_of} (ops : list WalOp) (tail : list Z) (pre : list Z) (seq : Z) (records : list RecMeta) :
  let off := Z.of_nat (length pre) in
  let wal := pre ++ log_of hash_of ops seq ++ tail in
  let a := advance_head records (seq + Z.of_nat (length ops)) in
  is_bytes wal → fits_in 8 (seq + Z.of_nat (length ops)) → 0 ≤ seq → ops_valid ops seq → log_ends hash_of tail (seq + Z.of_nat (length ops)) →
  (λ r, (rm_seq r, rm_off r)) <$> records = (λ r, (rm_seq r, rm_off r)) <$> metas_of hash_of ops off seq →
  (∀ i r, (i < ha_flushed a)%nat → records !! i = Some r → rm_flushed r = true) ∧ ha_next_seq a = seq + Z.of_nat (ha_flushed a) ∧
  if decide (ha_flushed a < length ops)%nat
  then (∃ r, records !! ha_flushed a = Some r ∧ rm_flushed r = false) ∧
       recover_records hash_of wal (ha_head a) (ha_next_seq a) =
         Some (MkRecovered (metas_of hash_of (drop (ha_flushed a) ops) (ha_head a) (ha_next_seq a)) (off + Z.of_nat (length (log_of hash_of ops seq))) (seq + Z.of_nat (length ops)) false)
  else ha_flushed a = length ops.
Proof.
  cbv zeta. set (off := Z.of_nat (length pre)). set (wal := pre ++ log_of hash_of ops seq ++ tail). intros Hb Hf Hs Hv He Hr.
  pose proof (flushed_prefix_spec records) as (F1 & F2 & F3). assert (length records = length ops) as Hlen by (apply (f_equal length) in Hr; by rewrite !length_fmap, metas_length in Hr).
  unfold advance_head. set (n := flushed_prefix records) in *. destruct (records !! n) as [r|] eqn:En; cbn [ha_flushed ha_head ha_next_seq].
  - pose proof (lookup_lt_Some _ _ _ En) as Hn. assert (∃ m, metas_of hash_of ops off seq !! n = Some m ∧ rm_seq m = rm_seq r ∧ rm_off m = rm_off r) as (m & Em & <- & <-).
    { apply (f_equal (.!! n)) in Hr. rewrite !list_lookup_fmap, En in Hr. destruct (metas_of hash_of ops off seq !! n) as [m|]; [|done]. injection Hr as -> ->. by exists m. }
    destruct (metas_lookup _ _ _ _ _ _ Em) as [Es Eo]. split_and!; [done|done|]. rewrite decide_True by lia. split; [exists r; by split; [|apply F3]|].
    assert (drop (Z.to_nat (rm_off m)) wal = log_of hash_of (drop n ops) (rm_seq m) ++ tail) as Hd.
    { unfold wal. rewrite drop_app_ge by lia. replace (Z.to_nat (rm_off m) - length pre)%nat with (Z.to_nat (rm_off m - off)) by lia. by apply log_suffix. }
    assert (length wal = length pre + length (log_of hash_of ops seq) + length tail)%nat as Hlw by (unfold wal; rewrite !length_app; lia).
    pose proof (log_split hash_of ops seq n ltac:(lia)) as Hsp. apply (f_equal length) in Hsp. rewrite length_app in Hsp. rewrite Es in Hd |- *.
    assert (seq + Z.of_nat n + Z.of_nat (length (drop n ops)) = seq + Z.of_nat (length ops)) as Hq by (rewrite length_drop; lia).
    rewrite (recover_log hash_of wal (rm_off m) (drop n ops) tail); try done; rewrite ?Hq; try done; try lia; [|by apply ops_valid_drop]. do 2 f_equal. rewrite Eo. lia.
  - apply lookup_ge_None in En. split_and!; [done|lia|]. rewrite decide_False by lia. lia.
Qed.

Definition demo_records : list RecMeta :=
  match metas_of toy_hash [demo_op 1; demo_op 2] 2 5 with
  | r1 :: rs => MkRec (rm_seq r1) (rm_off r1) [114] true :: rs
  | [] => []
  end.

Lemma head_advance_keeps_log_witness :
  ha_flushed (advance_head demo_records 7) = 1%nat ∧
  ∃ r, demo_records !! ha_flushed (advance_head demo_records 7) = Some r ∧ rm_flushed r = false.
Proof.
  split; [reflexivity|].
  destruct (head_advance_keeps_log toy_hash [demo_op 1; demo_op 2] [0; 0; 0] [9; 9] 5 demo_records) as (_ & _ & Hr).
  - apply (bool_decide_unpack _). vm_compute. reflexivity.
  - split; vm_compute; [discriminate|reflexivity].
  - lia.
  - intros [|[|i]] op Hop; [| |done]; injection Hop as <-; (split; [split_and!; cbn; try lia|split; split; vm_compute; (discriminate || reflexivity)]); try (split; vm_compute; (discriminate || reflexivity));
      (split; [cbn; lia|]); intros c Hc; repeat (apply elem_of_cons in Hc as [->|Hc]; [cbn; lia|]); by apply elem_of_nil in Hc.
  - intros op n. vm_compute. discriminate.
  - vm_compute. reflexivity.
  - exact (proj1 Hr).
Defined.

(** ** Formats *)

(** The record codec is exact in both directions. A valid operation under a 64-bit
    sequence number decodes from its encoding, whatever follows it; and any bytes the
    decoder accepts begin with the encoding of the valid operation it returns, so there is
    one encoding per record. *)
Theorem wal_record_codec (hash_of : list Z → Hash) `{!HashLaws hash_of} (op : WalOp) (seq : Z) (tail buf : list Z) (op' : WalOp) (seq' n : Z) :
  record_valid op seq → is_bytes buf → decode_record hash_of buf = Some (seq', op', n) →
  decode_record hash_of (encode_record hash_of op seq ++ tail) = Some (seq, op, Z.of_nat (length (encode_record hash_of op seq))) ∧
  record_valid op' seq' ∧ n = Z.of_nat (length (encode_record hash_of op' seq')) ∧ ∃ rest, buf = encode_record hash_of op' seq' ++ rest.
Proof. intros Hv Hb Hd. split; [by apply decode_encode_record|]. by apply encode_decode_record. Qed.

Lemma demo_op_valid b seq : fits_in 8 seq → record_valid (demo_op b) seq.
Proof.
  intros Hs. split; [|split; [done|split; vm_compute; (discriminate || reflexivity)]]. split_and!; cbn; try lia; try (split; vm_compute; (discriminate || reflexivity)).
  split; [cbn; lia|]. intros c Hc. repeat (apply elem_of_cons in Hc as [->|Hc]; [cbn; lia|]). by apply elem_of_nil in Hc.
Qed.
Lemma fits_8_small x : 0 ≤ x < 1000 → fits_in 8 x.
Proof. unfold fits_in. change (256 ^ Z.of_nat 8) with 18446744073709551616. lia. Qed.

Lemma wal_record_codec_witness : ∃ rest, drop 2 demo_wal = encode_record toy_hash (demo_op 1) 5 ++ rest.
Proof.
  destruct (wal_record_codec toy_hash (demo_op 2) 6 [1] (drop 2 demo_wal) (demo_op 1) 5 78) as (_ & _ & _ & H).
  - apply demo_op_valid, fits_8_small. lia.
  - apply (bool_decide_unpack _). vm_compute. reflexivity.
  - vm_compute. reflexivity.
  - exact H.
Defined.

(** C35: what a commit writes, a mount reads back. A superblock with 64-bit fields passes
    its checksum and decodes to itself; an index with its free list, padded to fill its
    frame, decodes to itself and its payload has the length the frame was sized for; a
    reference table decodes to itself; and the frame header gives length, birth generation
    and hash of the object it holds. A table is valid when its fields fit their widths and
    every snapshot row has one of the classes 0 to 2. *)
Theorem commit_formats_roundtrip (hash_of : list Z → Hash) `{!HashLaws hash_of} (sb : Superblock) (entries : btree Hash IndexEntry) (free : btree Z Z) (pad : nat) (t : RefTable) (birth : Z) :
  sb_valid sb → index_valid entries free pad → reft_valid t → fits_in 4 (Z.of_nat (length (RefTable_encode t))) → fits_in 8 birth →
  decode_checked hash_of (Superblock_encode hash_of sb) = Ok sb ∧
  decode_index (encode_index entries free pad) = Ok (entries, free) ∧
  Z.of_nat (length (encode_index entries free pad)) = index_payload_len (Z.of_nat (length entries)) (Z.of_nat (length free)) + Z.of_nat pad ∧
  RefTable_decode (RefTable_encode t) = Ok t ∧
  decode_chunk_header (encode_chunk_frame (RefTable_encode t) birth (hash_of (RefTable_encode t))) = Some (Z.of_nat (length (RefTable_encode t)), birth, hash_of (RefTable_encode t)).
Proof.
  intros Vs Vi Vt Hl Hb. split_and!; [by apply sb_decode_encode|by apply index_decode_encode| |by apply reft_decode_encode|].
  - by apply encode_index_length.
  - rewrite <-(app_nil_r (encode_chunk_frame _ _ _)). apply chunk_header_decode; [apply hash_length|done|done].
Qed.

Definition demo_sb : Superblock := MkSb 3 (toy_hash [1]) 10 7 4096 900 200.
Definition demo_index : btree Hash IndexEntry := [(toy_hash [1], MkIndexEntry 48 20 2)].
Definition demo_table : RefTable := MkRefTable [([114], MkRefEntry (toy_hash []) 0 2 1)] [(([114], 1), MkSnapRow 1 (toy_hash []) 5 [] None [104; 105] 0)] [([116], ([114], 1))].

Lemma commit_formats_roundtrip_witness : decode_checked toy_hash (Superblock_encode toy_hash demo_sb) = Ok demo_sb ∧ RefTable_decode (RefTable_encode demo_table) = Ok demo_table.
Proof.
  destruct (commit_formats_roundtrip toy_hash demo_sb demo_index [(300, 40)] 3 demo_table 4) as (H1 & _ & _ & H2 & _).
  - constructor; try (apply fits_8_small; cbn; lia); [split; [reflexivity|apply le_bytes_bytes]|]. split; vm_compute; (discriminate || reflexivity).
  - constructor; cbn.
    + split; [by intros k v ?%elem_of_nil|done].
    + split; [by intros k v ?%elem_of_nil|done].
    + intros h e [[= -> ->]|?%elem_of_nil]%elem_of_cons; [|done]. split_and!; [reflexivity|..]; split; vm_compute; (discriminate || reflexivity).
    + intros o l [[= -> ->]|?%elem_of_nil]%elem_of_cons; [|done]. split; apply fits_8_small; lia.
    + split_and!; split; vm_compute; (discriminate || reflexivity).
  - constructor; cbn.
    + split; [by intros k v ?%elem_of_nil|done].
    + split; [by intros k v ?%elem_of_nil|done].
    + split; [by intros k v ?%elem_of_nil|done].
    + intros n e [[= -> ->]|?%elem_of_nil]%elem_of_cons; [|done]. split_and!; [cbn; lia|reflexivity|..]; apply fits_8_small; cbn; lia.
    + intros n i s [[= -> -> ->]|?%elem_of_nil]%elem_of_cons; [|done]. unfold CLASS_EPHEMERAL. split_and!; cbn; try lia; try reflexivity; try (apply fits_8_small; lia); try done.
    + intros n r i [[= -> -> ->]|?%elem_of_nil]%elem_of_cons; [|done]. split_and!; [cbn; lia|cbn; lia|apply fits_8_small; lia].
    + split_and!; split; vm_compute; (discriminate || reflexivity).
  - split; vm_compute; (discriminate || reflexivity).
  - apply fits_8_small. lia.
  - split; [exact H1|exact H2].
Defined.

(** ** Directory trees *)

(** An entry has exactly one encoding. A well-formed entry decodes from its encoding,
    and any buffer the decoder accepts is, byte for byte, the encoding of the well-formed
    entry it returns: optional fields in order, nothing absent encoded, no slack. *)
Theorem entry_codec (e : Entry) (buf : list Z) (e' : Entry) :
  entry_ok e → is_bytes buf → tlv_decode buf = Ok e' → tlv_decode (tlv_encode e) = Ok e ∧ buf = tlv_encode e' ∧ entry_ok e'.
Proof. intros He Hb Hd. split; [by apply tlv_decode_encode|]. by apply tlv_encode_decode. Qed.

Definition demo_file (n b : Z) : Entry := MkEntry [n] KFile 2 3 7 (Inline [b; b; b]).
Lemma demo_file_ok n b : validate_entry (demo_file n b) = Ok tt → entry_ok (demo_file n b).
Proof. intros Hv. split; [done|]. constructor; try (split; vm_compute; (discriminate || reflexivity)). Qed.

Lemma entry_codec_witness : tlv_decode (tlv_encode (demo_file 97 1)) = Ok (demo_file 97 1) ∧ entry_ok (demo_file 98 2).
Proof.
  destruct (entry_codec (demo_file 97 1) (tlv_encode (demo_file 98 2)) (demo_file 98 2)) as (H1 & _ & H2).
  - apply demo_file_ok. vm_compute. reflexivity.
  - apply (bool_decide_unpack _). vm_compute. reflexivity.
  - vm_compute. reflexivity.
  - split; [exact H1|exact H2].
Defined.

(** C17: a saved directory loads back. Saving a well-formed directory into any
    content-addressed store writes objects that are a function of its contents alone, and
    loading the root it returns gives the directory again, provided no two different
    objects of the store or the save have one hash. A save panics only when each of the 256
    levels still has more than one node; it never loops. *)
Theorem dir_save_load (hash_of : list Z → Hash) `{!HashLaws hash_of} {S : Type} `{NodeStore S} (store_ok : S → Prop) `{!StoreLaws hash_of S store_ok} (d : Dir) (s : S) :
  store_ok s → addressed hash_of s → dir_ok d →
  match save_plan hash_of d with
  | Ret (h, bs) => save hash_of d s = Ret (h, put_all bs s) ∧ (no_clash hash_of (λ b, stored s b ∨ b ∈ bs) → load (put_all bs s) h = Some (Ok d))
  | Panic => save hash_of d s = Panic ∧ ∀ j, (j ≤ 255)%nat → (1 < length (level_at hash_of j d))%nat
  | NoFuel => False
  end.
Proof.
  intros Ho Ha V. pose proof (save_spec hash_of store_ok d s) as Hs. destruct (save_plan hash_of d) as [[h bs]| |] eqn:Ep.
  - split; [done|]. intros Hn. eapply saved_loads; [done..|]. by apply (put_all_get hash_of store_ok).
  - split; [done|]. pose proof (save_plan_total hash_of d) as Ht. by rewrite Ep in Ht.
  - pose proof (save_plan_total hash_of d) as Ht. by rewrite Ep in Ht.
Qed.

Definition demo_dir (b : Z) : Dir := [([97], demo_file 97 1); ([98], demo_file 98 b)].
Lemma demo_dir_ok b : validate_entry (demo_file 98 b) = Ok tt → dir_ok (demo_dir b).
Proof.
  intros Hv. constructor; [cbn; split; [|split; [by intros k v ?%elem_of_nil|done]]|].
  - intros k v [[= -> ->]|?%elem_of_nil]%elem_of_cons; [reflexivity|done].
  - intros n e [[= -> ->]|[[= -> ->]|?%elem_of_nil]%elem_of_cons]%elem_of_cons; [| |done]; (split; [reflexivity|]); apply demo_file_ok; [vm_compute; reflexivity|done].
Qed.

#[local] Instance toy_mem : NodeStore MemStore := MemStore_store toy_hash.
#[local] Instance toy_mem_laws : StoreLaws toy_hash MemStore bt_sorted := MemStore_laws toy_hash.

(** A list of objects without clashes, checked by running the digest. *)
Definition clash_free (bs : list (list Z)) : bool :=
  let hs := (λ b, (toy_hash b, b)) <$> bs in forallb (λ x, forallb (λ y, negb (bool_decide (x.1 = y.1)) || bool_decide (x.2 = y.2)) hs) hs.
Lemma no_clash_check (bs : list (list Z)) : clash_free bs = true → no_clash toy_hash (λ b, b ∈ bs).
Proof.
  unfold clash_free. rewrite forallb_forall. intros Hc a b Ha Hb Heq. specialize (Hc (toy_hash a, a)). rewrite forallb_forall in Hc.
  specialize (Hc ltac:(by apply list_elem_of_In, (list_elem_of_fmap_2 (λ b, (toy_hash b, b)))) (toy_hash b, b) ltac:(by apply list_elem_of_In, (list_elem_of_fmap_2 (λ b, (toy_hash b, b))))).
  cbn in Hc. rewrite bool_decide_true in Hc by done. by apply bool_decide_eq_true in Hc.
Qed.

Lemma no_clash_mono (hash_of : list Z → Hash) (P Q : list Z → Prop) : (∀ b, Q b → P b) → no_clash hash_of P → no_clash hash_of Q.
Proof. intros Hsub Hc a b Ha Hb. apply Hc; by apply Hsub. Qed.

Lemma mem_empty_addressed : addressed toy_hash ([] : MemStore).
Proof. by intros h b. Qed.

Lemma dir_save_load_witness :
  save_plan toy_hash (demo_dir 2) = Ret (toy_hash (encode_node 0 (encode_entry <$> (demo_dir 2).*2)), [encode_node 0 (encode_entry <$> (demo_dir 2).*2)]) ∧
  load (put_all [encode_node 0 (encode_entry <$> (demo_dir 2).*2)] ([] : MemStore)) (toy_hash (encode_node 0 (encode_entry <$> (demo_dir 2).*2))) = Some (Ok (demo_dir 2)).
Proof.
  assert (save_plan toy_hash (demo_dir 2) = Ret (toy_hash (encode_node 0 (encode_entry <$> (demo_dir 2).*2)), [encode_node 0 (encode_entry <$> (demo_dir 2).*2)])) as Ep by (vm_compute; reflexivity).
  split; [exact Ep|].
  assert (dir_ok (demo_dir 2)) as V by (apply demo_dir_ok; vm_compute; reflexivity).
  pose proof (dir_save_load toy_hash bt_sorted (demo_dir 2) ([] : MemStore) ltac:(done) mem_empty_addressed V) as H. rewrite Ep in H. apply (proj2 H).
  intros a b [[h Ha]|Ha] [[h' Hb]|Hb]; [done|done|done|]. apply list_elem_of_singleton in Ha, Hb. intros _. congruence.
Defined.

(** C33: the root hash is the contents. Save two well-formed directories with [save],
    however they were built and whatever the stores they are saved in already hold: the
    roots it returns are equal if and only if the directories are, and each loads back
    from its own root. No two different objects of the two stores and the two saves may
    have one hash; what a save puts ([written]) is found by running it on a store that
    records. *)
Theorem dir_root_canonical (hash_of : list Z → Hash) `{!HashLaws hash_of} {S : Type} `{NodeStore S} (store_ok : S → Prop) `{!StoreLaws hash_of S store_ok}
    (d1 d2 : Dir) (s1 s1' s2 s2' : S) (h1 h2 : Hash) :
  dir_ok d1 → dir_ok d2 → store_ok s1 → store_ok s2 → addressed hash_of s1 → addressed hash_of s2 →
  save hash_of d1 s1 = Ret (h1, s1') → save hash_of d2 s2 = Ret (h2, s2') →
  no_clash hash_of (λ b, (stored s1 b ∨ stored s2 b) ∨ b ∈ written hash_of d1 ∨ b ∈ written hash_of d2) →
  (h1 = h2 ↔ d1 = d2) ∧ load s1' h1 = Some (Ok d1) ∧ load s2' h2 = Some (Ok d2).
Proof.
  intros V1 V2 O1 O2 A1 A2 E1 E2 Hn. apply (save_written hash_of store_ok) in E1 as [P1 ->], E2 as [P2 ->].
  set (bs1 := written hash_of d1) in *. set (bs2 := written hash_of d2) in *.
  assert (∀ s b, store_ok s → addressed hash_of s → (∀ x, stored s x → stored s1 x ∨ stored s2 x) → b ∈ bs1 ∨ b ∈ bs2 → get (put_all (bs1 ++ bs2) s) (hash_of b) = Some b) as Hg.
  { intros s b O A Hs Hb. apply (put_all_get hash_of store_ok); [done|done| |by apply elem_of_app]. intros x y Hx Hy. rewrite elem_of_app in Hx, Hy. apply Hn; naive_solver. }
  assert (load (put_all (bs1 ++ bs2) s1) h1 = Some (Ok d1)) as L1 by (apply (saved_loads hash_of _ _ _ bs1); [done|done|]; intros b Hb; apply Hg; auto).
  assert (load (put_all (bs1 ++ bs2) s1) h2 = Some (Ok d2)) as L2 by (apply (saved_loads hash_of _ _ _ bs2); [done|done|]; intros b Hb; apply Hg; auto).
  split_and!; [split; [intros <-|intros ->]; congruence| |].
  - apply (saved_loads hash_of _ _ _ bs1); [done|done|]. apply (put_all_get hash_of store_ok); [done|done|]. intros x y Hx Hy. apply Hn; naive_solver.
  - apply (saved_loads hash_of _ _ _ bs2); [done|done|]. apply (put_all_get hash_of store_ok); [done|done|]. intros x y Hx Hy. apply Hn; naive_solver.
Qed.

(** The second directory is saved into the store the first one left. *)
Lemma one_sorted (h : Hash) (b : list Z) : bt_sorted [(h, b)].
Proof. split; [by intros k v ?%elem_of_nil|done]. Qed.
Definition first_node : list Z := encode_node 0 (encode_entry <$> (demo_dir 2).*2).
Definition first_saved : MemStore := [(toy_hash first_node, first_node)].
Lemma first_saved_elem h b : get first_saved h = Some b → h = toy_hash first_node ∧ b = first_node.
Proof.
  intros Hg. apply bt_get_elem in Hg; [|apply one_sorted]. apply list_elem_of_singleton in Hg. by injection Hg as -> ->.
Qed.

Lemma dir_root_canonical_witness :
  ∃ h1 h2 s2, save toy_hash (demo_dir 2) ([] : MemStore) = Ret (h1, first_saved) ∧ save toy_hash (demo_dir 3) first_saved = Ret (h2, s2) ∧
    (h1 = h2 ↔ demo_dir 2 = demo_dir 3) ∧ load s2 h2 = Some (Ok (demo_dir 3)).
Proof.
  assert (save toy_hash (demo_dir 2) ([] : MemStore) = Ret (toy_hash first_node, first_saved)) as E1 by (vm_compute; reflexivity).
  destruct (save toy_hash (demo_dir 3) first_saved) as [[h2 s2]| |] eqn:E2; [|vm_compute in E2; discriminate..].
  exists (toy_hash first_node), h2, s2.
  destruct (dir_root_canonical toy_hash bt_sorted (demo_dir 2) (demo_dir 3) ([] : MemStore) first_saved first_saved s2 (toy_hash first_node) h2) as (H1 & _ & H2).
  - apply demo_dir_ok. vm_compute. reflexivity.
  - apply demo_dir_ok. vm_compute. reflexivity.
  - done.
  - apply one_sorted.
  - apply mem_empty_addressed.
  - intros h b Hg. destruct (first_saved_elem h b Hg) as [-> ->]. reflexivity.
  - exact E1.
  - exact E2.
  - apply (no_clash_mono toy_hash (λ b, b ∈ written toy_hash (demo_dir 2) ++ written toy_hash (demo_dir 3))); [|apply no_clash_check; vm_compute; reflexivity].
    intros b [[[h Hb]|[h Hb]]|Hb]; [done| |by apply elem_of_app]. apply first_saved_elem in Hb as [_ ->].
    apply elem_of_app. left. apply (bool_decide_unpack _). vm_compute. reflexivity.
  - split; [exact E1|]. split; [reflexivity|]. split; [exact H1|exact H2].
Defined.

(** C32: loading is total and its results are well-typed. Whatever bytes a store holds, a
    load of any hash ends within the depth it allows, and if it succeeds, the directory has
    strictly ascending names, each entry is filed under its own name, passes validation and
    keeps its fields in range. *)
Theorem load_well_formed {S : Type} `{NodeStore S} (s : S) (h : Hash) :
  bytes_stored s → ∃ r, load s h = Some r ∧ ∀ d, r = Ok d → dir_ok d.
Proof. intros Hb. pose proof (load_total s h Hb) as Hl. destruct (load s h) as [[d|e]|]; [|by eexists|done]. eexists. split; [done|]. by intros ? [= <-]. Qed.

Lemma load_well_formed_witness : ∃ r, load ([(toy_hash [1], [0; 5])] : MemStore) (toy_hash [1]) = Some r ∧ ∀ d, r = Ok d → dir_ok d.
Proof.
  apply (load_well_formed ([(toy_hash [1], [0; 5])] : MemStore) (toy_hash [1])). intros h b Hg. change (get ([(toy_hash [1], [0; 5])] : MemStore) h) with (bt_get h [(toy_hash [1], [0; 5])]) in Hg.
  apply bt_get_elem in Hg; [|split; [by intros k v ?%elem_of_nil|done]]. apply list_elem_of_singleton in Hg. injection Hg as -> ->. apply (bool_decide_unpack _). vm_compute. reflexivity.
Defined.

(** C39: a difference is exact. For two roots that load, [diff] lists each name once, in
    order, and lists it with a kind exactly when the two directories differ at it in that
    way: only in the first, only in the second, or in both with different entries. *)
Theorem diff_exact {S : Type} `{NodeStore S} (s : S) (a b : Hash) (da db : Dir) :
  bytes_stored s → load s a = Some (Ok da) → load s b = Some (Ok db) →
  ∃ l, diff s a b = Some (Ok l) ∧ bt_sorted l ∧ ∀ n k, (n, k) ∈ l ↔ changed (dir_get da n) (dir_get db n) = Some k.
Proof.
  intros Hb La Lb. pose proof (load_total s a Hb) as Va. rewrite La in Va. pose proof (load_total s b Hb) as Vb. rewrite Lb in Vb. unfold diff. case_decide as E.
  - subst b. rewrite La in Lb. injection Lb as <-. exists []. split_and!; [done|done|]. intros n k. split; [by intros ?%elem_of_nil|]. unfold changed.
    destruct (dir_get da n) as [e|]; [|done]. by rewrite decide_True.
  - rewrite La, Lb. eexists. split_and!; [done|by apply diff_sorted|]. intros n k. by apply diff_elem.
Qed.

Definition demo_store : MemStore := bt_insert (toy_hash [2]) (encode_node 0 (encode_entry <$> (demo_dir 3).*2)) [(toy_hash [1], encode_node 0 (encode_entry <$> (demo_dir 2).*2))].

Lemma diff_exact_witness : ∃ l, diff demo_store (toy_hash [1]) (toy_hash [2]) = Some (Ok l) ∧ (([98], Modified) ∈ l ↔ changed (Some (demo_file 98 2)) (Some (demo_file 98 3)) = Some Modified).
Proof.
  destruct (diff_exact demo_store (toy_hash [1]) (toy_hash [2]) (demo_dir 2) (demo_dir 3)) as (l & H1 & _ & H2).
  - intros h b Hg. assert (Forall (λ x : Hash * list Z, is_bytes x.2) demo_store) as HF by (apply (bool_decide_unpack _); vm_compute; reflexivity).
    rewrite Forall_forall in HF. apply (HF (h, b)). apply bt_get_elem; [|exact Hg]. unfold demo_store. apply bt_insert_sorted. split; [by intros k v ?%elem_of_nil|done].
  - vm_compute. reflexivity.
  - vm_compute. reflexivity.
  - exists l. split; [exact H1|exact (H2 [98] Modified)].
Defined.
