(* ===== verification/FsTheorems.v ===== *)
(** What the file layer of the content-addressed store guarantees: chunking, files, nested
    directories, the overlay and the mark walk. *)

From stdpp Require Import strings.
From S2P Require Import Prelude Bytes BTree Disk Prolly ProllyTree Overlay Chunker File Tree Gc CasTheorems.

(** ** Chunking *)

(** C34: chunk boundaries are canonical. For valid parameters, pushing a file through the
    streaming chunker in any segments and flushing gives the same chunks as cutting the
    whole buffer at [boundaries]; the chunks concatenate to the file, none is empty or
    longer than [max], all but the last are longer than [min]; and chunking what follows any
    cut gives the remaining chunks, so two files that share a tail from a cut on share the
    chunks of it. *)
Theorem chunking_canonical (p : ChunkerParams) (ms : Z * Z) (segments : list (list Z)) :
  assert_valid p = true → masks p = Some ms →
  ∃ cs, stream (MkChunker p []) segments = Ret cs ∧ boundaries p (concat segments) = Ret (ends_from 0 cs) ∧ concat cs = concat segments ∧
    (∀ i c, cs !! i = Some c → 0 < len_z c ≤ cp_max p ∧ ((S i < length cs)%nat → cp_min p < len_z c)) ∧
    ∀ j, stream (MkChunker p []) [drop (length (concat (take j cs))) (concat segments)] = Ret (drop j cs).
Proof.
  intros Hv Hm. destruct (chunked_total p ms Hv Hm (concat segments)) as [cs Hc]. exists cs.
  pose proof (find_cut_empty p ms Hv Hm) as Hn.
  split_and!; [by apply (stream_spec p ms Hv Hm)|by apply (boundaries_spec p ms Hv Hm)|by eapply chunked_concat|intros i c Hi; by eapply (chunked_sizes p ms Hv Hm)|].
  intros j. apply (stream_spec p ms Hv Hm); [|done]. cbn. rewrite app_nil_r. by apply (chunked_drop p ms Hv Hm).
Qed.

Definition small_params : ChunkerParams := MkParams 2 16 32.
Definition demo_bytes (n : nat) : list Z := (λ i, Z.of_nat i * Z.of_nat i mod 251) <$> seq 0 n.

Lemma chunking_canonical_witness : ∃ cs, stream (MkChunker small_params []) [demo_bytes 10; demo_bytes 50] = Ret cs ∧ concat cs = concat [demo_bytes 10; demo_bytes 50].
Proof.
  destruct (chunking_canonical small_params (63, 3) [demo_bytes 10; demo_bytes 50]) as (cs & H1 & _ & H2 & _); [vm_compute; reflexivity|vm_compute; reflexivity|].
  exists cs. split; [exact H1|exact H2].
Defined.

(** C19: re-chunking the neighborhood of an edit is chunking the file. When the old content is
    the canonical content of [old_bytes] in the store and the edit left the bytes before
    [first_dirty] alone, [store_file_neighborhood] returns the content [store_file] returns
    for the new bytes, and after either of them [read_file] gives the new bytes back. *)
Theorem neighborhood_canonical (hash_of : list Z → Hash) `{!HashLaws hash_of} (p : ChunkerParams) (ms : Z * Z)
    {S : Type} `{NodeStore S} (store_ok : S → Prop) `{!StoreLaws hash_of S store_ok}
    (old : Content) (old_bytes new : list Z) (first_dirty : Z) (cs : list (list Z)) (s : S) :
  assert_valid p = true → masks p = Some ms → cp_max p < 2 ^ 32 → store_ok s → addressed hash_of s →
  file_held hash_of p ms s old old_bytes → 0 ≤ first_dirty → same_before first_dirty old_bytes new →
  stream (MkChunker p []) [new] = Ret cs → Z.of_nat (length cs) < 2 ^ 32 → no_clash hash_of (λ b, stored s b ∨ b ∈ cs ∨ b = list_object hash_of cs) →
  ∃ content s1 s2, store_file p new s = Ret (content, s1) ∧ store_file_neighborhood p old old_bytes new first_dirty s = Ret (content, s2) ∧
    read_file s1 content (len_z new) = Ok new ∧ read_file s2 content (len_z new) = Ok new.
Proof.
  intros Hv Hm Hmax Ho Ha Hh Hfd Hsame Hcs Hn Hno. destruct (chunked_total p ms Hv Hm new) as [cs' Hc].
  assert (cs' = cs) as ->.
  { pose proof (stream_spec p ms Hv Hm [new] [] cs') as Hs. cbn [concat app] in Hs. rewrite app_nil_r in Hs. rewrite Hs in Hcs; [congruence|done|]. by apply (find_cut_empty p ms). }
  destruct (neighborhood_spec hash_of p ms Hv Hm Hmax store_ok old old_bytes new first_dirty cs s) as (content & s1 & s2 & H1 & H2 & H3 & H4); try done.
  exists content, s1, s2. split_and!; [done|done|..]; by eapply (read_held hash_of p ms Hv Hm Hmax store_ok).
Qed.

#[local] Instance toy_mem : NodeStore MemStore := MemStore_store toy_hash.
#[local] Instance toy_mem_laws : StoreLaws toy_hash MemStore bt_sorted := MemStore_laws toy_hash.

Definition demo_params : ChunkerParams := MkParams 64 256 1024.
Definition demo_old : list Z := demo_bytes 600.
Definition demo_new : list Z := take 520 demo_old ++ [1; 2; 3] ++ drop 523 demo_old.
(** The chunks and the objects of a file, by running the code. *)
Definition run_chunks (data : list Z) : list (list Z) := match stream (MkChunker demo_params []) [data] with Ret cs => cs | _ => [] end.
Definition run_objects (data : list Z) : list (list Z) := run_chunks data ++ [list_object toy_hash (run_chunks data)].
Definition demo_files : MemStore := put_all (run_objects demo_old) [].

(** A run of the code agrees with the canonical chunking. *)
Lemma run_chunked data : (∃ cs, stream (MkChunker demo_params []) [data] = Ret cs) → chunked demo_params (1023, 63) data (run_chunks data).
Proof.
  assert (assert_valid demo_params = true) as Hv by (vm_compute; reflexivity). assert (masks demo_params = Some (1023, 63)) as Hm by (vm_compute; reflexivity).
  intros [cs Hs]. destruct (chunked_total demo_params (1023, 63) Hv Hm data) as [cs' Hc]. unfold run_chunks. rewrite Hs.
  pose proof (stream_spec demo_params (1023, 63) Hv Hm [data] [] cs') as HS. cbn [concat app] in HS. rewrite app_nil_r in HS. rewrite HS in Hs; [|done|by apply (find_cut_empty demo_params (1023, 63) Hv Hm)]. by injection Hs as <-.
Qed.

Lemma demo_files_sorted : bt_sorted demo_files.
Proof. unfold demo_files. generalize (run_objects demo_old). intros bs. by apply (put_all_ok toy_hash bt_sorted). Qed.
Lemma demo_files_addressed : addressed toy_hash demo_files.
Proof. unfold demo_files. generalize (run_objects demo_old). intros bs. apply (put_all_addressed toy_hash bt_sorted); [done|]. by intros h b. Qed.
Lemma demo_files_stored b : stored demo_files b → b ∈ run_objects demo_old.
Proof. unfold demo_files. generalize (run_objects demo_old). intros bs [[h Hh]|Hb]%(put_all_stored toy_hash bt_sorted); done. Qed.

Lemma run_clash_free data : no_clash toy_hash (λ b, b ∈ run_objects data) → no_clash toy_hash (λ b, stored ([] : MemStore) b ∨ b ∈ run_objects data).
Proof. generalize (run_objects data). intros bs Hn a b [[h Ha]|Ha] [[h' Hb]|Hb]; [done|done|done|]. by apply Hn. Qed.
Lemma demo_params_ok : assert_valid demo_params = true ∧ masks demo_params = Some (1023, 63) ∧ cp_max demo_params < 2 ^ 32.
Proof. split_and!; vm_compute; reflexivity. Qed.
(** A file stored by running the code into an empty store is held there. *)
Lemma run_held data : INLINE_MAX < len_z data → (∃ cs, stream (MkChunker demo_params []) [data] = Ret cs) → Z.of_nat (length (run_chunks data)) < 2 ^ 32 → clash_free (run_objects data) = true →
  file_held toy_hash demo_params (1023, 63) (put_all (run_objects data) ([] : MemStore)) (ChunkList (toy_hash (list_object toy_hash (run_chunks data)))) data.
Proof.
  intros Hl Hs Hn Hc. destruct demo_params_ok as (H1 & H2 & H3). apply (held_after toy_hash demo_params (1023, 63) H1 H2 H3 bt_sorted); try done.
  - by apply run_chunked.
  - by apply run_clash_free, no_clash_check.
  - apply elem_of_app. right. by left.
  - intros c Hin. left. apply elem_of_app. by left.
Qed.
Lemma demo_held : file_held toy_hash demo_params (1023, 63) demo_files (ChunkList (toy_hash (list_object toy_hash (run_chunks demo_old)))) demo_old.
Proof. apply run_held; [vm_compute; reflexivity|eexists; vm_compute; reflexivity|vm_compute; reflexivity|vm_compute; reflexivity]. Qed.

Lemma neighborhood_canonical_witness :
  ∃ content s1 s2, store_file demo_params demo_new demo_files = Ret (content, s1) ∧
    store_file_neighborhood demo_params (ChunkList (toy_hash (list_object toy_hash (run_chunks demo_old)))) demo_old demo_new 520 demo_files = Ret (content, s2) ∧
    read_file s1 content (len_z demo_new) = Ok demo_new ∧ read_file s2 content (len_z demo_new) = Ok demo_new.
Proof.
  apply (neighborhood_canonical toy_hash demo_params (1023, 63) bt_sorted
    (ChunkList (toy_hash (list_object toy_hash (run_chunks demo_old)))) demo_old demo_new 520 (run_chunks demo_new) demo_files).
  - vm_compute. reflexivity.
  - vm_compute. reflexivity.
  - vm_compute. reflexivity.
  - exact demo_files_sorted.
  - exact demo_files_addressed.
  - exact demo_held.
  - lia.
  - vm_compute. reflexivity.
  - vm_compute. reflexivity.
  - vm_compute. reflexivity.
  - assert (no_clash toy_hash (λ b, b ∈ run_objects demo_old ++ run_objects demo_new)) as Hn by (apply no_clash_check; vm_compute; reflexivity).
    assert (∀ b, stored demo_files b ∨ b ∈ run_chunks demo_new ∨ b = list_object toy_hash (run_chunks demo_new) → b ∈ run_objects demo_old ++ run_objects demo_new) as Hsub.
    { intros b [Hb%demo_files_stored|[Hb| ->]]; apply elem_of_app; [by left|right; apply elem_of_app; by left|right; apply elem_of_app; right; by left]. }
    intros a b Ha%Hsub Hb%Hsub. by apply Hn.
Defined.

(** ** The overlay *)

(** C15: a write through the overlay is a write to the file. On any overlay the store can
    reach, a write at any offset succeeds; the path then reads as dirty with the write's
    time, and every other path reads as before. If the write carries data, or starts at an
    offset where the file has no dirty byte ([lands]), applying the path's intervals over
    any base gives what the path read as before (the base, the earlier dirty content, or
    nothing if it was unlinked) with exactly the written bytes replaced and any gap
    zero-filled. The remaining case, a write of nothing into the middle of a dirty
    interval, loses the rest of that interval: [overlay_empty_write_truncates] below. A
    write that carries data keeps the overlay's full invariant. *)
Theorem overlay_write_refines (o : Overlay) (path : Path) (offset : Z) (data : list Z) (mtime : Z) (next_id : FileId) :
  ov_weak o next_id → 0 ≤ offset →
  ∃ o' next' fo, write o path offset data mtime next_id = Ret (o', next') ∧ ov_weak o' next' ∧ state o' path = Dirty fo ∧ fo_mtime fo = mtime ∧
    (lands (dirty_of o path) offset data →
      ∀ base, apply fo base = put_at (match state o path with Dirty f => apply f base | Clean => base | Unlinked => [] end) offset data) ∧
    (∀ p, p ≠ path → state o' p = state o p) ∧ (ov_ok o next_id → data ≠ [] → ov_ok o' next').
Proof.
  intros V Ho. destruct (write_spec False o path offset data mtime next_id V Ho) as (o' & n' & fo & H1 & H2 & _ & H3 & H4 & H5 & H6); [done|].
  exists o', n', fo. split_and!; [done..|]. intros Vk Hd. destruct (write_spec True o path offset data mtime next_id Vk Ho) as (o2 & n2 & fo2 & E & V2 & _); [done|].
  rewrite H1 in E. by injection E as -> ->.
Qed.

(** A write into a clean file, and one of nothing past its end. *)
Lemma overlay_write_refines_witness :
  (∃ o' next' fo, write Overlay_default [[97]] 2 [7] 9 0 = Ret (o', next') ∧ state o' [[97]] = Dirty fo ∧ apply fo [1; 2; 3; 4] = [1; 2; 7; 4]) ∧
  ∃ o' next' fo, write Overlay_default [[97]] 6 [] 9 0 = Ret (o', next') ∧ state o' [[97]] = Dirty fo ∧ apply fo [1; 2; 3; 4] = [1; 2; 3; 4; 0; 0].
Proof.
  split.
  - destruct (overlay_write_refines Overlay_default [[97]] 2 [7] 9 0) as (o' & n' & fo & H1 & _ & H2 & _ & H3 & _); [apply ov_default_ok|lia|].
    exists o', n', fo. split; [exact H1|]. split; [exact H2|]. rewrite H3; [reflexivity|by left].
  - destruct (overlay_write_refines Overlay_default [[97]] 6 [] 9 0) as (o' & n' & fo & H1 & _ & H2 & _ & H3 & _); [apply ov_default_ok|lia|].
    exists o', n', fo. split; [exact H1|]. split; [exact H2|]. rewrite H3; [reflexivity|]. right. intros b (k & v & Hin & _). by apply elem_of_nil in Hin.
Defined.

(** The operations a store performs on the overlay of one ref, on any arguments it lets
    through. A committed file is opened just before it is renamed; an orphan write goes to
    a handle that has no name; [step_flush] is what a flush leaves behind; an overlay is
    dropped by a flush with nothing open, by one that fails and with its ref; the refs
    share the counter of ids. Under [full] the steps are those that keep every
    cross-check: a write carries data, the destination of a rename is not held open and an
    orphan write goes to a handle whose name was unlinked. *)
Inductive ov_step (full : Prop) : Overlay * FileId → Overlay * FileId → Prop :=
| step_write o n path offset data mtime o' n' :
    0 ≤ offset → (full → data ≠ []) → write o path offset data mtime n = Ret (o', n') → ov_step full (o, n) (o', n')
| step_unlink o n path : ov_step full (o, n) (unlink o path, n)
| step_open o n path id o' n' : open o path n = (id, o', n') → ov_step full (o, n) (o', n')
| step_close o n id : ov_step full (o, n) ((close o id).2, n)
| step_rename o n from to mtime o' :
    (full → ∀ v, bt_get to (ov_by_name o) = Some v → bt_get v (ov_open o) = None) → rename o from to mtime = Ret o' → ov_step full (o, n) (o', n)
| step_rename_committed o n from to mtime o' :
    contains_file o from = false → (full → ∀ v, bt_get to (ov_by_name o) = Some v → bt_get v (ov_open o) = None) →
    rename (open_for_rename o from n).1 from to mtime = Ret o' → ov_step full (o, n) (o', (open_for_rename o from n).2)
| step_rename_dir o n from to : ov_step full (o, n) (rename_dir o from to, n)
| step_orphan o n (id : FileId) offset data mtime o' :
    0 ≤ offset → id < n → name_of o id = None → (full → bt_get id (ov_names o) = Some None ∧ data ≠ []) →
    write_orphan o id offset data mtime = Ret o' → ov_step full (o, n) (o', n)
| step_flush o n o' : carry_open o = Some o' → ov_step full (o, n) (o', n)
| step_drop o n : ov_step full (o, n) (Overlay_default, n)
| step_other o n n' : n ≤ n' → ov_step full (o, n) (o, n').

Lemma ov_step_inv full x y : ov_step full x y → ov_inv full x.1 x.2 → ov_inv full y.1 y.2.
Proof.
  intros Hs V. destruct Hs as [o n path off data mt o' n' Ho Hd Hw|o n path|o n path id o' n' Hop|o n id|o n from to mt o' Hv Hr|o n from to mt o' Hc Hv Hr|o n from to
    |o n id off data mt o' Ho Hid Hn Hf Hw|o n o' Hc|o n|o n n' Hn]; cbn [fst snd] in *.
  - destruct (write_spec full o path off data mt n V Ho Hd) as (o2 & n2 & fo & E & V2 & _). rewrite E in Hw. by injection Hw as <- <-.
  - by apply unlink_spec.
  - by apply (open_spec _ _ _ _ _ _ _ V Hop).
  - by apply close_ok.
  - destruct (proj1 (rename_returns full o from to mt n V)) as (Hne & id & fo & Hf & Hi); [by exists o'|].
    destruct (rename_spec full o from to mt n id fo V Hne Hf Hi Hv) as (o2 & E & V2 & _). rewrite E in Hr. by injection Hr as <-.
  - destruct (decide (from = to)) as [->|Hne].
    + exfalso. unfold rename, displace, open_for_rename in Hr. destruct (oo_sorted _ _ _ V) as (S1 & S2 & _).
      cbn in Hr. rewrite !get_insert, decide_True in Hr by done. unfold reap in Hr. cbn in Hr. rewrite get_insert, decide_True in Hr by done. cbn in Hr.
      rewrite get_remove, decide_True in Hr by eauto with btree. done.
    + destruct (open_rename_spec full o from to mt n V Hne Hc Hv) as (o2 & E & V2 & _). rewrite E in Hr. by injection Hr as <-.
  - destruct (oo_sorted _ _ _ V) as (S1 & S2 & S3 & S4 & S5 & S6). constructor; try apply V. cbn. split_and!; eauto with btree.
  - destruct (write_orphan_spec full o id off data mt n V Hid Hn) as (o2 & E & V2 & _); [naive_solver|done|naive_solver|]. rewrite E in Hw. by injection Hw as <-.
  - by eapply carry_open_ok.
  - apply ov_default_ok.
  - by eapply ov_inv_mono.
Qed.

(** C16: every overlay the store can reach is well-formed, whatever operations it performs
    with whatever arguments: names and ids are each other's inverse, an id with a name is
    dirty or open, an orphan is open, a dirty name has no tombstone, intervals are sorted
    and disjoint, reference counts are positive and the byte count is at least the sum of
    the intervals held; every write returns, and a rename panics exactly when its source
    has no dirty data (a name that is open and not yet written) or is its destination. In
    a run where writes carry data, no rename lands on a name that is held open and orphan
    writes go to unlinked handles, the remaining cross-checks of [check_invariants] hold
    too: no interval is empty, every dirty or open id has an entry in [names], and the
    byte count is exact. Outside such runs they fail: [overlay_checks_fail]. *)
Theorem overlay_reachable_ok (o : Overlay) (next_id : FileId) :
  (rtc (ov_step False) (Overlay_default, 0) (o, next_id) → ov_weak o next_id ∧
    (∀ path offset data mtime, 0 ≤ offset → ∃ o' n', write o path offset data mtime next_id = Ret (o', n')) ∧
    ∀ from to mtime, (∃ o', rename o from to mtime = Ret o') ↔ from ≠ to ∧ ∃ id fo, bt_get from (ov_by_name o) = Some id ∧ bt_get id (ov_by_id o) = Some fo) ∧
  (rtc (ov_step True) (Overlay_default, 0) (o, next_id) → ov_ok o next_id).
Proof.
  assert (∀ full x y, rtc (ov_step full) x y → ov_inv full x.1 x.2 → ov_inv full y.1 y.2) as HR.
  { intros full x y H. induction H as [|x y z Hs _ IH]; [done|]. intros V. by apply IH, (ov_step_inv _ _ _ Hs). }
  split; intros H; pose proof (HR _ _ _ H (ov_default_ok _ _)) as V; [|exact V]. split; [exact V|]. split.
  - intros path offset data mtime Ho. destruct (write_spec False o path offset data mtime next_id V Ho) as (o' & n' & _ & E & _); [done|]. by exists o', n'.
  - intros from to mtime. exact (rename_returns False o from to mtime next_id V).
Qed.

(** An open file is written and unlinked; and another is renamed onto it while it is open,
    after a write of nothing. *)
Definition path_a : Path := [[97]].
Definition path_b : Path := [[98]].
Lemma careful_run : ∃ o n, rtc (ov_step True) (Overlay_default, 0) (o, n) ∧ state o path_a = Unlinked ∧ is_open o 0 = true.
Proof.
  eexists _, _. split; [|split].
  - eapply rtc_l; [eapply (step_open _ _ _ path_a); reflexivity|]. eapply rtc_l; [eapply (step_write _ _ _ path_a 2 [7] 9); [lia|discriminate|vm_compute; reflexivity]|].
    eapply rtc_l; [eapply (step_unlink _ _ _ path_a)|]. apply rtc_refl.
  - vm_compute. reflexivity.
  - vm_compute. reflexivity.
Qed.
Lemma careless_run : ∃ o n, rtc (ov_step False) (Overlay_default, 0) (o, n) ∧ bt_get (0 : FileId) (ov_open o) = Some 1 ∧ bt_get (0 : FileId) (ov_names o) = None ∧ ov_bytes o = 4 ∧ census (ov_by_id o) = 2.
Proof.
  eexists _, _. split; [|split_and!].
  - eapply rtc_l; [eapply (step_open _ _ _ path_a); reflexivity|]. eapply rtc_l; [eapply (step_write _ _ _ path_b 0 [1; 2; 3; 4] 9); [lia|done|vm_compute; reflexivity]|].
    eapply rtc_l; [eapply (step_write _ _ _ path_b 2 [] 9); [lia|done|vm_compute; reflexivity]|]. eapply rtc_l; [eapply (step_rename _ _ _ path_b path_a 9); [done|vm_compute; reflexivity]|]. apply rtc_refl.
  - vm_compute. reflexivity.
  - vm_compute. reflexivity.
  - vm_compute. reflexivity.
  - vm_compute. reflexivity.
Qed.
(** The cross-checks that a write of nothing and a rename onto an open name break. *)
Lemma overlay_checks_fail : ∃ o n, rtc (ov_step False) (Overlay_default, 0) (o, n) ∧ ¬ ov_ok o n ∧ is_open o 0 = true ∧ bt_get (0 : FileId) (ov_names o) = None ∧ ov_bytes o ≠ census (ov_by_id o).
Proof.
  destruct careless_run as (o & n & Hr & H1 & H2 & H3 & H4). exists o, n. split_and!; [done| |unfold is_open; by rewrite H1|done|congruence].
  intros V. destruct (oo_bytes _ _ _ V) as [_ Hb]. specialize (Hb I). congruence.
Qed.

Lemma overlay_reachable_ok_witness :
  (∃ o n, rtc (ov_step True) (Overlay_default, 0) (o, n) ∧ ov_ok o n ∧ state o path_a = Unlinked ∧ is_open o 0 = true) ∧
  ∃ o n, rtc (ov_step False) (Overlay_default, 0) (o, n) ∧ ov_weak o n ∧ ov_bytes o = 4 ∧ census (ov_by_id o) = 2.
Proof.
  split.
  - destruct careful_run as (o & n & Hr & Hs). exists o, n. split; [exact Hr|]. split; [exact (proj2 (overlay_reachable_ok o n) Hr)|exact Hs].
  - destruct careless_run as (o & n & Hr & _ & _ & H3 & H4). exists o, n. split; [exact Hr|]. split; [exact (proj1 (proj1 (overlay_reachable_ok o n) Hr))|]. split; [exact H3|exact H4].
Defined.

(** An empty write can destroy data. After four bytes are written at offset 0, a write of
    no bytes at offset 2 leaves the file with two bytes (the intervals lose their tail),
    while the overlay still counts four. *)
Theorem overlay_empty_write_truncates : ∃ o1 n1 o2 n2 fo,
  write Overlay_default [[97]] 0 [1; 2; 3; 4] 5 0 = Ret (o1, n1) ∧ write o1 [[97]] 2 [] 6 n1 = Ret (o2, n2) ∧
  state o2 [[97]] = Dirty fo ∧ apply fo [] = [1; 2] ∧ ov_bytes o2 = 4.
Proof. do 5 eexists. do 4 (split; [vm_compute; reflexivity|]). reflexivity. Qed.

(** ** Nested directories *)

(** C20: a put changes one path. When the root loads and the path can be written ([put_plan]
    gives the new root and the objects of the path copy), [tree_put] returns that root and
    adds exactly those objects; the entry is then at its path, and every path that parts
    ways with it reads as it did, provided no two different objects have one hash. *)
Theorem tree_put_exact (hash_of : list Z → Hash) `{!HashLaws hash_of} {S : Type} `{NodeStore S} (store_ok : S → Prop) `{!StoreLaws hash_of S store_ok}
    (entry : Entry) (mtime : Z) (path : Path) (root : Hash) (d : Dir) (s : S) (h : Hash) (bs : list (list Z)) :
  store_ok s → addressed hash_of s → bytes_stored s → load s root = Some (Ok d) → entry_ok entry → fits_in 8 mtime → Forall (λ c, validate_name c = Ok tt) path →
  put_plan hash_of s d path entry mtime = Some (h, bs) → no_clash hash_of (λ b, stored s b ∨ b ∈ bs) →
  tree_put hash_of root path entry mtime s = Ret (Ok h, put_all bs s) ∧
  lookup (put_all bs s) h (path ++ [e_name entry]) = Some (Ok (Some entry)) ∧
  ∀ q x, diverges q (path ++ [e_name entry]) → lookup s root q = Some (Ok x) → lookup (put_all bs s) h q = Some (Ok x).
Proof.
  intros Ho Ha Hb Hl He Hm Hp Hplan Hn. assert (∀ h d, load s h = Some (Ok d) → dir_ok d) as Hs0 by (intros h0 d0 E; pose proof (load_total s h0 Hb) as Ht; by rewrite E in Ht).
  destruct (put_refines hash_of store_ok entry mtime s path He Hm Hs0 Hp root d s h bs Ho Ha ltac:(by intros ?) Hn Hl (Hs0 _ _ Hl) Hplan) as (H1 & _ & d2 & L2 & H2 & H3).
  split_and!; [done|by rewrite (lookup_walk _ _ _ _ L2)|]. intros q x Hq Hx. rewrite (lookup_walk _ _ _ _ L2). rewrite (lookup_walk _ _ _ _ Hl) in Hx. by apply H3.
Qed.

Definition demo_tree : MemStore := match save toy_hash (demo_dir 2) ([] : MemStore) with Ret (_, s) => s | _ => [] end.
Definition demo_root : Hash := match save toy_hash (demo_dir 2) ([] : MemStore) with Ret (h, _) => h | _ => [] end.
Definition demo_put : Hash * list (list Z) := default ([], []) (put_plan toy_hash demo_tree (demo_dir 2) [[100]] (demo_file 99 4) 7).

Lemma store_objects (s : MemStore) : bt_sorted s → ∀ b, stored s b → b ∈ s.*2.
Proof. intros Hs b [h Hh]. apply bt_get_elem in Hh; [|done]. by apply (list_elem_of_fmap_2 snd s (h, b)). Qed.
Lemma clash_check (s : MemStore) bs : bt_sorted s → clash_free (s.*2 ++ bs) = true → no_clash toy_hash (λ b, stored s b ∨ b ∈ bs).
Proof.
  intros Hs Hc%no_clash_check. assert (∀ b, stored s b ∨ b ∈ bs → b ∈ s.*2 ++ bs) as Hsub by (intros b [Hb|Hb]; apply elem_of_app; [left; by apply store_objects|by right]).
  intros a b Ha%Hsub Hb%Hsub. by apply Hc.
Qed.
(** What a concrete store needs, checked by running. *)
Definition store_check (s : MemStore) : bool := bool_decide (Forall (λ x : Hash * list Z, toy_hash x.2 = x.1 ∧ is_bytes x.2) s).
Lemma store_checked (s : MemStore) : bt_sorted s → store_check s = true → addressed toy_hash s ∧ bytes_stored s.
Proof.
  intros Hs Hc%bool_decide_eq_true. rewrite Forall_forall in Hc. split; intros h b Hg; apply bt_get_elem in Hg; try done; by apply (Hc (h, b)).
Qed.
Definition demo_node : list Z := encode_node 0 (encode_entry <$> (demo_dir 2).*2).
Lemma demo_tree_eq : demo_tree = [(demo_root, demo_node)].
Proof. vm_compute. reflexivity. Qed.
Lemma demo_tree_sorted : bt_sorted demo_tree.
Proof. rewrite demo_tree_eq. split; [by intros k v ?%elem_of_nil|done]. Qed.
Lemma demo_tree_get h b : get demo_tree h = Some b → h = demo_root ∧ b = demo_node.
Proof.
  intros Hg. change (bt_get h demo_tree = Some b) in Hg. apply bt_get_elem in Hg; [|exact demo_tree_sorted]. rewrite demo_tree_eq in Hg. apply list_elem_of_singleton in Hg. split; [exact (f_equal fst Hg)|exact (f_equal snd Hg)].
Qed.

Lemma tree_put_exact_witness : lookup (put_all demo_put.2 demo_tree) demo_put.1 [[100]; [99]] = Some (Ok (Some (demo_file 99 4))).
Proof.
  destruct (store_checked demo_tree demo_tree_sorted ltac:(vm_compute; reflexivity)) as [Ha Hb].
  destruct (tree_put_exact toy_hash bt_sorted (demo_file 99 4) 7 [[100]] demo_root (demo_dir 2) demo_tree demo_put.1 demo_put.2) as (_ & H & _).
  - exact demo_tree_sorted.
  - exact Ha.
  - exact Hb.
  - vm_compute. reflexivity.
  - apply demo_file_ok. vm_compute. reflexivity.
  - apply fits_8_small. lia.
  - constructor; [vm_compute; reflexivity|constructor].
  - vm_compute. reflexivity.
  - apply clash_check; [exact demo_tree_sorted|vm_compute; reflexivity].
  - exact H.
Defined.

(** C21: a remove changes one path. Removing an entry that is there returns it and a root
    under which its path is absent and every path that parts ways with it reads as it did;
    removing an absent path returns the old root and leaves the store alone. *)
Theorem tree_remove_exact (hash_of : list Z → Hash) `{!HashLaws hash_of} {S : Type} `{NodeStore S} (store_ok : S → Prop) `{!StoreLaws hash_of S store_ok}
    (path : Path) (root : Hash) (d : Dir) (s : S) (found : option Entry) :
  store_ok s → addressed hash_of s → bytes_stored s → load s root = Some (Ok d) → lookup s root path = Some (Ok found) →
  match found with
  | None => tree_remove hash_of root path s = Ret (Ok (root, None), s)
  | Some e => ∀ h bs, remove_plan hash_of s d path = Some (h, bs) → no_clash hash_of (λ b, stored s b ∨ b ∈ bs) →
      tree_remove hash_of root path s = Ret (Ok (h, Some e), put_all bs s) ∧ lookup (put_all bs s) h path = Some (Ok None) ∧
      ∀ q x, diverges q path → lookup s root q = Some (Ok x) → lookup (put_all bs s) h q = Some (Ok x)
  end.
Proof.
  intros Ho Ha Hb Hl Hf. rewrite (lookup_walk _ _ _ _ Hl) in Hf. assert (∀ h d, load s h = Some (Ok d) → dir_ok d) as Hs0 by (intros h0 d0 E; pose proof (load_total s h0 Hb) as Ht; by rewrite E in Ht).
  destruct found as [e|]; [|by eapply remove_absent]. intros h bs Hplan Hn.
  destruct (remove_refines hash_of store_ok e s path Hs0 root d s h bs Ho Ha ltac:(by intros ?) Hn Hl (Hs0 _ _ Hl) Hf Hplan) as (H1 & _ & d2 & L2 & H2 & H3).
  split_and!; [done|by rewrite (lookup_walk _ _ _ _ L2)|]. intros q x Hq Hx. rewrite (lookup_walk _ _ _ _ L2). rewrite (lookup_walk _ _ _ _ Hl) in Hx. by apply H3.
Qed.

(** The file [a] is there and is removed, the file [b] stays; [c/a] is not there. *)
Definition demo_remove : Hash * list (list Z) := default ([], []) (remove_plan toy_hash demo_tree (demo_dir 2) [[97]]).
Lemma tree_remove_exact_witness :
  (tree_remove toy_hash demo_root [[97]] demo_tree = Ret (Ok (demo_remove.1, Some (demo_file 97 1)), put_all demo_remove.2 demo_tree) ∧
   lookup (put_all demo_remove.2 demo_tree) demo_remove.1 [[97]] = Some (Ok None) ∧
   lookup (put_all demo_remove.2 demo_tree) demo_remove.1 [[98]] = Some (Ok (Some (demo_file 98 2)))) ∧
  tree_remove toy_hash demo_root [[99]; [97]] demo_tree = Ret (Ok (demo_root, None), demo_tree).
Proof.
  destruct (store_checked demo_tree demo_tree_sorted ltac:(vm_compute; reflexivity)) as [Ha Hb].
  split; [|exact (tree_remove_exact toy_hash bt_sorted [[99]; [97]] demo_root (demo_dir 2) demo_tree None demo_tree_sorted Ha Hb ltac:(vm_compute; reflexivity) ltac:(vm_compute; reflexivity))].
  destruct (tree_remove_exact toy_hash bt_sorted [[97]] demo_root (demo_dir 2) demo_tree (Some (demo_file 97 1)) demo_tree_sorted Ha Hb
    ltac:(vm_compute; reflexivity) ltac:(vm_compute; reflexivity) demo_remove.1 demo_remove.2) as (H1 & H2 & H3).
  - vm_compute. reflexivity.
  - apply clash_check; [exact demo_tree_sorted|vm_compute; reflexivity].
  - split; [exact H1|]. split; [exact H2|]. apply H3; [|vm_compute; reflexivity]. split; intros [l Hl]; discriminate Hl.
Defined.

(** ** Garbage collection *)


(** A store with a chunked file [a], a directory [b] with the file [c], and an object nothing
    refers to; everything is stored by running the code. *)
Definition subdir_entry (n : Z) (h : Hash) : Entry := MkEntry [n] KDir 0 0 7 (DirRoot h).
Definition dir_of (es : list Entry) : Dir := (λ e, (e_name e, e)) <$> es.

#[local] Instance Role_eq : EqDecision Role.
Proof. solve_decision. Defined.





(** A directory [b] whose one node is also the content of the file [a], with a directory
    [b/m] below it that holds the file [c]; everything is stored by running the code. *)
Definition wide_params : ChunkerParams := MkParams 1000 1024 2048.
Definition padding (n : Z) : Entry := MkEntry [n] KFile 0 300 7 (Inline (replicate 300 n)).
Definition shadow : comp MemStore (Hash * Hash) :=
  m ← save toy_hash (dir_of [demo_file 99 4]);
  let below := [subdir_entry 109 m; padding 112; padding 113] in
  b ← save toy_hash (dir_of below);
  e ← make_file_entry wide_params [97] (encode_node 0 (encode_entry <$> below)) 7 0;
  r ← save toy_hash (dir_of [e; subdir_entry 98 b]);
  mret (r, m).

(** The mark walk can miss a reachable directory. A user writes a file whose content is
    the node of a directory that sorts after it: the mark walk first marks that hash as a
    chunk, so the directory of the same hash is never walked and the directory below it is
    left unmarked, although a lookup reaches it. *)
Theorem mark_misses_directory : ∃ root m s live,
  shadow ([] : MemStore) = Ret ((root, m), s) ∧ lookup s root [[98]; [109]; [99]] = Some (Ok (Some (demo_file 99 4))) ∧
  lookup s root [[98]; [109]] = Some (Ok (Some (subdir_entry 109 m))) ∧
  mark 10 s root [] = Some (Ok tt, live) ∧ bt_get m live = None.
Proof. do 4 eexists. do 4 (split; [vm_compute; reflexivity|]). vm_compute. reflexivity. Qed.
