(* ===== verification/Freelist.v ===== *)
(** The free-list allocator ([freelist/src/lib.rs]): a sorted array of free extents
    over a pool, shared by the DMA pool and the user heap. The abstract view is the
    list of live extents; the array bookkeeping ([remove_at], [insert_at]) is proved
    to be list surgery, and [alloc] and [free] are proved against the set of free
    positions. *)

From S2P Require Import Prelude.

(** ** Operations *)

(** [FreeList<N>]; a [usize] is 64 bits wide on the target. *)
Record FreeList : Type := MkFreeList { fl_len : Z; fl_free : list (Z * Z); fl_nfree : nat }.

Definition with_free (f : list (Z * Z) → list (Z * Z)) (fl : FreeList) : FreeList :=
  MkFreeList (fl_len fl) (f (fl_free fl)) (fl_nfree fl).
Definition with_nfree (n : nat) (fl : FreeList) : FreeList := MkFreeList (fl_len fl) (fl_free fl) n.

(** [self.free[i]] and [self.free[i] = v] *)
Definition free_get (i : nat) : comp FreeList (Z * Z) :=
  a ← gets fl_free; index a i.
Definition free_set (i : nat) (v : Z * Z) : comp FreeList unit :=
  a ← gets fl_free;
  a' ← set_index a i v;
  modify (with_free (λ _, a')).

Definition remove_at (g : nat) : comp FreeList unit :=
  nfree ← gets fl_nfree;
  top ← usub (Z.of_nat nfree) 1;
  let top := Z.to_nat top in
  for_from g (top - g) (λ j, e ← free_get (j + 1); free_set j e);;
  modify (with_nfree top).

(** [while j > g { free[j] = free[j - 1]; j -= 1 }] *)
Fixpoint shift_up (g j : nat) : comp FreeList unit :=
  match j with
  | O => mret tt
  | S j' => if (g <? j)%nat then e ← free_get j'; free_set j e;; shift_up g j' else mret tt
  end.

Definition insert_at (g : nat) (val : Z * Z) : comp FreeList unit :=
  nfree ← gets fl_nfree;
  shift_up g nfree;;
  free_set g val;;
  modify (with_nfree (nfree + 1)).

Section caps.
Context (N : nat).

Definition FreeList_new (len : Z) : comp unit FreeList :=
  let free := replicate N (0, 0) in
  if len =? 0 then mret (MkFreeList len free 0)
  else free ← set_index free 0 (0, len); mret (MkFreeList len free 1).

Definition is_full : comp FreeList bool :=
  n ← gets fl_nfree; mret (n =? N)%nat.

Fixpoint is_allocated_from (off n : Z) (k todo : nat) : comp FreeList bool :=
  match todo with
  | O => mret true
  | S todo' =>
      e ← free_get k;
      let '(o, l) := e in
      oe ← uadd U64_MAX o l;
      ne ← uadd U64_MAX off n;
      if (off <? oe) && (o <? ne) then mret false else is_allocated_from off n (k + 1) todo'
  end.

Definition is_allocated (off n : Z) : comp FreeList bool :=
  nfree ← gets fl_nfree;
  is_allocated_from off n 0 nfree.

Definition pad_of (off align : Z) : comp FreeList Z :=
  rem ← umod off align;
  if rem =? 0 then mret 0 else usub align rem.

(** The loop of [alloc]: [todo] extents are left, the next at index [i]. *)
Fixpoint alloc_from (n align : Z) (i todo : nat) : comp FreeList (option Z) :=
  match todo with
  | O => mret None
  | S todo' =>
      e ← free_get i;
      let '(off, flen) := e in
      pad ← pad_of off align;
      if (flen <? pad) || (flen - pad <? n) then alloc_from n align (i + 1) todo'
      else
        start ← uadd U64_MAX off pad;
        rest_off ← uadd U64_MAX start n;
        let rest_len := flen - pad - n in
        if (pad =? 0) && (rest_len =? 0) then remove_at i;; mret (Some start)
        else if (0 <? pad) && (rest_len =? 0) then free_set i (off, pad);; mret (Some start)
        else if (pad =? 0) && (0 <? rest_len) then free_set i (rest_off, rest_len);; mret (Some start)
        else
          nfree ← gets fl_nfree;
          if (nfree =? N)%nat then alloc_from n align (i + 1) todo'
          else free_set i (off, pad);; insert_at (i + 1) (rest_off, rest_len);; mret (Some start)
  end.

Definition alloc (n align : Z) : comp FreeList (option Z) :=
  if n =? 0 then mret None
  else nfree ← gets fl_nfree; alloc_from n align 0 nfree.
End caps.

(** [while i < nfree && free[i].0 < off { i += 1 }] *)
Fixpoint free_search (off : Z) (i todo : nat) : comp FreeList nat :=
  match todo with
  | O => mret i
  | S todo' => e ← free_get i; if fst e <? off then free_search off (i + 1) todo' else mret i
  end.

Definition free (off n : Z) : comp FreeList unit :=
  nfree ← gets fl_nfree;
  i ← free_search off 0 nfree;
  left ← (if (0 <? i)%nat then e ← free_get (i - 1); s ← uadd U64_MAX (fst e) (snd e); mret (s =? off) else mret false);
  right ← (if (i <? nfree)%nat then e ← free_get i; s ← uadd U64_MAX off n; mret (fst e =? s) else mret false);
  if negb left && negb right then insert_at i (off, n)
  else if left && negb right then
    e ← free_get (i - 1);
    flen ← uadd U64_MAX (snd e) n;
    free_set (i - 1) (fst e, flen)
  else if negb left && right then
    e ← free_get i;
    flen ← uadd U64_MAX n (snd e);
    free_set i (off, flen)
  else
    e ← free_get (i - 1);
    f ← free_get i;
    s ← uadd U64_MAX (snd e) n;
    flen ← uadd U64_MAX s (snd f);
    free_set (i - 1) (fst e, flen);;
    remove_at i.

(** ** Array bookkeeping is list surgery *)

(** The live extents. *)
Definition exts (fl : FreeList) : list (Z * Z) := take (fl_nfree fl) (fl_free fl).
Arguments exts : simpl never.
Definition in_array (fl : FreeList) : Prop := (fl_nfree fl ≤ length (fl_free fl))%nat.

Lemma exts_lookup fl x : exts fl !! x = if decide (x < fl_nfree fl)%nat then fl_free fl !! x else None.
Proof. unfold exts. case_decide; [by rewrite lookup_take_lt|by rewrite lookup_take_ge by lia]. Qed.

Lemma exts_length fl : in_array fl → length (exts fl) = fl_nfree fl.
Proof. intros H. unfold exts. rewrite length_take. unfold in_array in H. lia. Qed.

Lemma wp_free_get fl i e Q : exts fl !! i = Some e → Q e fl → wp (free_get i) Q fl.
Proof.
  intros He HQ. unfold free_get. wp_step. rewrite exts_lookup in He. case_decide; [|done]. by apply (wp_index _ _ e).
Qed.

(** An array that differs from [a] as the surgery [f] on its first [n] cells says. *)
Record edited (fl fl' : FreeList) (l : list (Z * Z)) : Prop := {
  ed_len : fl_len fl' = fl_len fl;
  ed_array : length (fl_free fl') = length (fl_free fl);
  ed_in : in_array fl';
  ed_exts : exts fl' = l;
}.

Lemma wp_free_set fl i v Q :
  in_array fl → (i < fl_nfree fl)%nat → (∀ fl', edited fl fl' (<[i := v]> (exts fl)) → fl_nfree fl' = fl_nfree fl → Q tt fl') → wp (free_set i v) Q fl.
Proof.
  intros Ha Hi HQ. unfold free_set. wp_step. unfold in_array in Ha. apply wp_set_index; [lia|]. wp_step. apply HQ; [|done]. split; cbn.
  - done.
  - apply length_insert.
  - unfold in_array. cbn. rewrite length_insert. lia.
  - unfold exts. cbn. by rewrite take_insert_lt.
Qed.

Lemma wp_array_set fl i v Q :
  (i < length (fl_free fl))%nat → Q tt (with_free (<[i := v]>) fl) → wp (free_set i v) Q fl.
Proof. intros Hi HQ. unfold free_set. wp_step. apply wp_set_index; [done|]. exact HQ. Qed.

(** The cells [[g, j)] hold their right neighbours. *)
Definition shifted_down (fl fl' : FreeList) (g j : nat) : Prop :=
  fl_len fl' = fl_len fl ∧ fl_nfree fl' = fl_nfree fl ∧ length (fl_free fl') = length (fl_free fl) ∧
  ∀ x, fl_free fl' !! x = if decide (g ≤ x < j)%nat then fl_free fl !! S x else fl_free fl !! x.

Lemma remove_at_spec fl g :
  in_array fl → (g < fl_nfree fl)%nat → wp (remove_at g) (λ _ fl', edited fl fl' (delete g (exts fl))) fl.
Proof.
  intros Ha Hg. unfold in_array in Ha. unfold remove_at. wp_step. apply wp_usub; [lia|]. wp_step.
  set (top := Z.to_nat (Z.of_nat (fl_nfree fl) - 1)). assert (top = pred (fl_nfree fl)) as Et by (unfold top; lia).
  eapply wp_mono; [apply (wp_for (λ j fl', shifted_down fl fl' g j))|].
  - intros j fl1 Hj (E1 & E2 & E3 & E4). wp_step. destruct (fl_free fl !! S j) as [e|] eqn:Ee; [|apply lookup_ge_None in Ee; lia].
    unfold free_get. wp_step. apply (wp_index _ _ e). { rewrite E4, decide_False by lia. rewrite Nat.add_1_r. done. }
    apply wp_array_set; [lia|]. split_and!; cbn; [done|done|by rewrite length_insert|]. intros x.
    destruct (decide (x = j)) as [->|Hx].
    + rewrite list_lookup_insert_eq by lia. by rewrite decide_True by lia.
    + rewrite list_lookup_insert_ne by done. rewrite E4. repeat case_decide; done || lia.
  - split_and!; try done. intros x. by rewrite decide_False by lia.
  - cbv beta. intros _ fl1 (E1 & E2 & E3 & E4). wp_step. split; cbn; [done|done|unfold in_array; cbn; lia|].
    apply list_eq. intros x. rewrite exts_lookup. cbn. rewrite E4. destruct (decide (x < g)%nat) as [Hx|Hx].
    + rewrite list_lookup_delete_lt, exts_lookup by done. repeat case_decide; done || lia.
    + rewrite list_lookup_delete_ge, exts_lookup by lia. repeat case_decide; done || lia.
Qed.

Definition shifted_up (fl fl' : FreeList) (g j n : nat) : Prop :=
  fl_len fl' = fl_len fl ∧ fl_nfree fl' = fl_nfree fl ∧ length (fl_free fl') = length (fl_free fl) ∧
  ∀ x, fl_free fl' !! x = if decide (j < x ≤ n)%nat then fl_free fl !! pred x else fl_free fl !! x.

Lemma shift_up_spec fl g n j fl1 :
  (n < length (fl_free fl))%nat → (g ≤ j ≤ n)%nat → shifted_up fl fl1 g j n → wp (shift_up g j) (λ _ fl', shifted_up fl fl' g g n) fl1.
Proof.
  intros Hn. revert fl1. induction j as [|j IH]; intros fl1 Hj Hs; simpl.
  { wp_step. by assert (g = 0)%nat as -> by lia. }
  destruct (g <? S j)%nat eqn:E; [apply Nat.ltb_lt in E|apply Nat.ltb_ge in E; wp_step; by assert (g = S j) as -> by lia].
  destruct Hs as (E1 & E2 & E3 & E4). wp_step. destruct (fl_free fl !! j) as [e|] eqn:Ee; [|apply lookup_ge_None in Ee; lia].
  unfold free_get. wp_step. apply (wp_index _ _ e). { by rewrite E4, decide_False by lia. }
  wp_step. apply wp_array_set; [lia|]. apply IH; [lia|]. split_and!; cbn; [done|done|by rewrite length_insert|]. intros x.
  destruct (decide (x = S j)) as [->|Hx].
  - rewrite list_lookup_insert_eq by lia. by rewrite decide_True by lia.
  - rewrite list_lookup_insert_ne by done. rewrite E4. repeat case_decide; done || lia.
Qed.

Lemma insert_at_spec fl g v :
  (fl_nfree fl < length (fl_free fl))%nat → (g ≤ fl_nfree fl)%nat →
  wp (insert_at g v) (λ _ fl', edited fl fl' (take g (exts fl) ++ v :: drop g (exts fl))) fl.
Proof.
  intros Ha Hg. unfold insert_at. wp_step. eapply wp_mono; [apply (shift_up_spec fl g (fl_nfree fl)); [done|lia|]|].
  { split_and!; try done. intros x. by rewrite decide_False by lia. }
  cbv beta. intros _ fl1 (E1 & E2 & E3 & E4). wp_step. apply wp_array_set; [lia|]. wp_step.
  split; cbn; [done|by rewrite length_insert|unfold in_array; cbn; rewrite length_insert; lia|].
  assert (length (exts fl) = fl_nfree fl) as El by (apply exts_length; unfold in_array; lia).
  apply list_eq. intros x. rewrite exts_lookup. cbn. destruct (decide (x = g)) as [->|Hx].
  - rewrite decide_True, list_lookup_insert_eq by lia. rewrite lookup_app_r by (rewrite length_take; lia).
    rewrite length_take, El. by replace (g - g `min` fl_nfree fl)%nat with 0%nat by lia.
  - rewrite list_lookup_insert_ne, E4 by done. destruct (decide (x < g)%nat) as [Hlt|Hge].
    + rewrite lookup_app_l by (rewrite length_take; lia). rewrite lookup_take_lt, exts_lookup by done. repeat case_decide; done || lia.
    + rewrite lookup_app_r by (rewrite length_take; lia). rewrite length_take, El.
      replace (x - g `min` fl_nfree fl)%nat with (S (x - S g)) by lia. simpl. rewrite lookup_drop, exts_lookup.
      replace (g + (x - S g))%nat with (pred x) by lia. repeat case_decide; done || lia.
Qed.

(** ** The free set *)

(** Extents in increasing order from [lo] on, non-empty, with a gap between
    neighbours, ending by [len]. *)
Fixpoint spaced (lo len : Z) (l : list (Z * Z)) : Prop :=
  match l with
  | [] => True
  | (o, n) :: l' => lo ≤ o ∧ 0 < n ∧ o + n ≤ len ∧ spaced (o + n + 1) len l'
  end.

Definition covers (l : list (Z * Z)) (p : Z) : Prop := ∃ o n, (o, n) ∈ l ∧ o ≤ p < o + n.

(** Where the next extent may start. *)
Definition next_lo (lo : Z) (l : list (Z * Z)) : Z := match last l with Some (o, n) => o + n + 1 | None => lo end.

Lemma next_lo_cons lo o n l : next_lo lo ((o, n) :: l) = next_lo (o + n + 1) l.
Proof. unfold next_lo. rewrite last_cons. by destruct (last l) as [[]|]. Qed.

Lemma spaced_app lo len l1 l2 : spaced lo len (l1 ++ l2) ↔ spaced lo len l1 ∧ spaced (next_lo lo l1) len l2.
Proof.
  revert lo. induction l1 as [|[o n] l1 IH]; intros lo; [cbn; tauto|]. rewrite next_lo_cons. cbn [app spaced]. rewrite IH. tauto.
Qed.

Lemma spaced_weaken lo lo' len l : lo' ≤ lo → spaced lo len l → spaced lo' len l.
Proof. destruct l as [|[o n] l]; [done|]. cbn. intros ? (? & ? & ? & ?). split_and!; done || lia. Qed.

Lemma spaced_elem lo len l o n : spaced lo len l → (o, n) ∈ l → lo ≤ o ∧ 0 < n ∧ o + n ≤ len.
Proof.
  revert lo. induction l as [|[o' n'] l IH]; intros lo; [by intros _ ?%elem_of_nil|]. cbn. intros (H1 & H2 & H3 & H4) [E|Hin]%elem_of_cons.
  - injection E as -> ->. lia.
  - apply (IH _ H4) in Hin. lia.
Qed.

Lemma next_lo_le lo len l : spaced lo len l → lo ≤ next_lo lo l.
Proof.
  revert lo. induction l as [|[o n] l IH]; intros lo; [done|]. cbn [spaced]. intros (H1 & H2 & H3 & H4). rewrite next_lo_cons.
  specialize (IH _ H4). lia.
Qed.

Lemma spaced_before lo len l o n : spaced lo len l → (o, n) ∈ l → o + n < next_lo lo l.
Proof.
  revert lo. induction l as [|[o' n'] l IH]; intros lo; [by intros _ ?%elem_of_nil|]. cbn [spaced]. rewrite next_lo_cons.
  intros (H1 & H2 & H3 & H4) [E|Hin]%elem_of_cons; [|by apply IH]. injection E as -> ->. pose proof (next_lo_le _ _ _ H4). lia.
Qed.

Lemma covers_nil p : ¬ covers [] p.
Proof. intros (o & n & H & _). by apply elem_of_nil in H. Qed.

Lemma covers_cons o n l p : covers ((o, n) :: l) p ↔ o ≤ p < o + n ∨ covers l p.
Proof.
  split.
  - intros (o' & n' & [E|H]%elem_of_cons & Hp); [injection E as -> ->; by left|right; by exists o', n'].
  - intros [Hp|(o' & n' & H & Hp)]; [exists o, n|exists o', n']; (split; [|done]); [by left|by right].
Qed.

Lemma covers_app l1 l2 p : covers (l1 ++ l2) p ↔ covers l1 p ∨ covers l2 p.
Proof.
  split.
  - intros (o & n & [H|H]%elem_of_app & Hp); [left|right]; by exists o, n.
  - intros [(o & n & H & Hp)|(o & n & H & Hp)]; exists o, n; (split; [|done]); apply elem_of_app; [by left|by right].
Qed.

Lemma covers_bounds lo len l p : spaced lo len l → covers l p → lo ≤ p < len.
Proof. intros S (o & n & H & Hp). apply (spaced_elem _ _ _ _ _ S) in H. lia. Qed.

Lemma covers_before lo len l p : spaced lo len l → covers l p → p < next_lo lo l - 1.
Proof. intros S (o & n & H & Hp). apply (spaced_before _ _ _ _ _ S) in H. lia. Qed.

(** The sorted gapped list of a set is unique. *)
Lemma spaced_unique lo len l1 l2 : spaced lo len l1 → spaced lo len l2 → (∀ p, covers l1 p ↔ covers l2 p) → l1 = l2.
Proof.
  revert lo l2. induction l1 as [|[o n] l1 IH]; intros lo [|[o' n'] l2] S1 S2 Hc; [done| | |].
  - destruct S2 as (_ & H & _). destruct (covers_nil o'). apply Hc, covers_cons. left. lia.
  - destruct S1 as (_ & H & _). destruct (covers_nil o). apply Hc, covers_cons. left. lia.
  - destruct S1 as (A1 & A2 & A3 & S1), S2 as (B1 & B2 & B3 & S2).
    assert (∀ p, o + n ≤ p → covers l1 p → o + n < p) as C1 by (intros p _ Hp; apply (covers_bounds _ _ _ _ S1) in Hp; lia).
    assert (o = o') as <-.
    { assert (covers ((o', n') :: l2) o) as H1 by (apply Hc, covers_cons; left; lia).
      assert (covers ((o, n) :: l1) o') as H2 by (apply Hc, covers_cons; left; lia).
      apply covers_cons in H1 as [H1|H1%(covers_bounds _ _ _ _ S2)]; apply covers_cons in H2 as [H2|H2%(covers_bounds _ _ _ _ S1)]; lia. }
    assert (n = n') as <-.
    { destruct (Z.lt_trichotomy n n') as [Hn|[Hn|Hn]]; [|done|].
      - assert (covers ((o, n) :: l1) (o + n)) as H by (apply Hc, covers_cons; left; lia).
        apply covers_cons in H as [H|H%(covers_bounds _ _ _ _ S1)]; lia.
      - assert (covers ((o, n') :: l2) (o + n')) as H by (apply Hc, covers_cons; left; lia).
        apply covers_cons in H as [H|H%(covers_bounds _ _ _ _ S2)]; lia. }
    f_equal. apply (IH (o + n + 1)); [done|done|]. intros p. specialize (Hc p). rewrite !covers_cons in Hc. split; intros H.
    + pose proof (covers_bounds _ _ _ _ S1 H). destruct (proj1 Hc) as [|]; [by right|lia|done].
    + pose proof (covers_bounds _ _ _ _ S2 H). destruct (proj2 Hc) as [|]; [by right|lia|done].
Qed.

(** Replacing one extent by some of its parts. *)
Lemma spaced_replace lo len l1 o n l2 m :
  spaced lo len (l1 ++ (o, n) :: l2) → spaced o (o + n) m → spaced lo len (l1 ++ m ++ l2).
Proof.
  rewrite !spaced_app. intros (S1 & H1 & H2 & H3 & S2) Sm. split; [done|]. split.
  - clear S2. apply (spaced_weaken o); [done|]. clear -H3 Sm. revert o H3 Sm. induction m as [|[o' n'] m IH]; [done|]. intros o H3.
    set (e := o + n) in *. clearbody e. revert o H3. cbn. intros o H3 (A1 & A2 & A3 & A4). split_and!; try lia.
    clear -A4 H3. revert A4. generalize (o' + n' + 1). induction m as [|[x y] m IH]; [done|]. cbn. intros z (?&?&?&?). split_and!; try lia. by apply IH.
  - assert (next_lo (next_lo lo l1) m ≤ o + n + 1) as Hle; [|eapply spaced_weaken; [exact Hle|done]].
    unfold next_lo at 1. destruct (last m) as [[x y]|] eqn:E; [|lia].
    apply last_Some in E as [m' ->]. apply spaced_app in Sm as [_ Sm]. cbn in Sm. lia.
Qed.

Lemma covers_replace lo len l1 o n l2 m p :
  spaced lo len (l1 ++ (o, n) :: l2) →
  (covers (l1 ++ m ++ l2) p ↔ (covers (l1 ++ (o, n) :: l2) p ∧ ¬ o ≤ p < o + n) ∨ covers m p).
Proof.
  intros S. apply spaced_app in S as (S1 & H1 & H2 & H3 & S2). rewrite !covers_app, covers_cons.
  assert (covers l1 p → p < o) by (intros H; apply (covers_before _ _ _ _ S1) in H; lia).
  assert (covers l2 p → o + n < p) by (intros H'; apply (covers_bounds _ _ _ _ S2) in H'; lia).
  split; [intros [H'|[H'|H']]|intros [[[H'|[H'|H']] Hn]|H']]; try tauto.
  - left. split; [by left|]. specialize (H H'). lia.
  - left. split; [tauto|]. specialize (H0 H'). lia.
Qed.

(** ** Allocation *)

Section spec.
Context (N : nat).

Record wf (fl : FreeList) : Prop := {
  wf_array : length (fl_free fl) = N;
  wf_in : in_array fl;
  wf_len : 0 ≤ fl_len fl ≤ U64_MAX;
  wf_spaced : spaced 0 (fl_len fl) (exts fl);
}.

(** The distance to the next multiple of [align]. *)
Definition padding (off align : Z) : Z := if off mod align =? 0 then 0 else align - off mod align.

Lemma padding_spec off align : 0 < align → 0 ≤ padding off align < align ∧ (off + padding off align) mod align = 0.
Proof.
  intros Ha. unfold padding. pose proof (Z.mod_pos_bound off align Ha). destruct (off mod align =? 0) eqn:E.
  - apply Z.eqb_eq in E. split; [lia|]. by rewrite Z.add_0_r.
  - apply Z.eqb_neq in E. split; [lia|]. replace (off + (align - off mod align)) with ((off - off mod align) + 1 * align) by lia.
    rewrite Z.mod_add by lia. rewrite Zminus_mod_idemp_r. by rewrite Z.sub_diag, Z.mod_0_l by lia.
Qed.

Lemma wp_pad_of off align Q fl : 0 < align → Q (padding off align) fl → wp (pad_of off align) Q fl.
Proof.
  intros Ha HQ. unfold pad_of, umod, padding in *. rewrite decide_False by lia. wp_step. pose proof (Z.mod_pos_bound off align Ha).
  destruct (off mod align =? 0); [by wp_step|]. by apply wp_usub; [lia|].
Qed.

(** An extent that can serve the request: big enough, and not to be split in two when
    the array is full. *)
Definition fits (full : bool) (n align : Z) (e : Z * Z) : Prop :=
  let pad := padding e.1 align in
  pad ≤ e.2 ∧ n ≤ e.2 - pad ∧ ¬ (full = true ∧ 0 < pad ∧ 0 < e.2 - pad - n).

(** What is left of an extent. *)
Definition pieces (o l pad n : Z) : list (Z * Z) :=
  (if pad =? 0 then [] else [(o, pad)]) ++ (if l - pad - n =? 0 then [] else [(o + pad + n, l - pad - n)]).

Definition full (fl : FreeList) : bool := (fl_nfree fl =? N)%nat.

(** The outcome of the search in [rest], behind [l1]. *)
Definition allocated (n align : Z) (fl : FreeList) (l1 rest : list (Z * Z)) (r : option Z) (fl' : FreeList) : Prop :=
  match r with
  | None => fl' = fl ∧ ∀ e, e ∈ rest → ¬ fits (full fl) n align e
  | Some s => ∃ m1 o l m2, rest = m1 ++ (o, l) :: m2 ∧ (∀ e, e ∈ m1 → ¬ fits (full fl) n align e) ∧ fits (full fl) n align (o, l) ∧
      s = o + padding o align ∧ edited fl fl' (l1 ++ m1 ++ pieces o l (padding o align) n ++ m2)
  end.

Lemma allocated_skip n align fl l1 e rest r fl' :
  ¬ fits (full fl) n align e → allocated n align fl (l1 ++ [e]) rest r fl' → allocated n align fl l1 (e :: rest) r fl'.
Proof.
  intros Hn. destruct r as [s|]; cbn.
  - intros (m1 & o & l & m2 & -> & H1 & H2 & H3 & H4). exists (e :: m1), o, l, m2. split_and!; [done| |done|done|].
    + intros x [->|Hx]%elem_of_cons; [done|by apply H1].
    + by rewrite <-!app_assoc in H4.
  - intros [-> H]. split; [done|]. intros x [->|Hx]%elem_of_cons; [done|by apply H].
Qed.

Lemma edited_take fl l1 e l2 : in_array fl → exts fl = l1 ++ e :: l2 → exts fl !! length l1 = Some e ∧ (length l1 < fl_nfree fl)%nat.
Proof.
  intros Ha E. apply exts_length in Ha. rewrite E, length_app in Ha. cbn in Ha. split; [|lia]. rewrite E. by apply list_lookup_middle.
Qed.

Lemma delete_middle_list {A : Type} (l1 : list A) x l2 : delete (length l1) (l1 ++ x :: l2) = l1 ++ l2.
Proof. induction l1 as [|y l1 IH]; [done|]. cbn. f_equal. exact IH. Qed.

Lemma insert_middle_list {A : Type} (l1 : list A) x y l2 : <[length l1 := y]> (l1 ++ x :: l2) = l1 ++ y :: l2.
Proof. rewrite insert_app_r_alt by done. by rewrite Nat.sub_diag. Qed.

(** The four ways of carving, as the array operations do them. *)
Lemma carve_extent fl l1 o l l2 pad n (s : Z) :
  wf fl → exts fl = l1 ++ (o, l) :: l2 → 0 ≤ pad → 0 < n → pad ≤ l → n ≤ l - pad →
  ¬ (full fl = true ∧ 0 < pad ∧ 0 < l - pad - n) →
  let i := length l1 in
  wp (if (pad =? 0) && (l - pad - n =? 0) then remove_at i;; mret (Some s)
      else if (0 <? pad) && (l - pad - n =? 0) then free_set i (o, pad);; mret (Some s)
      else if (pad =? 0) && (0 <? l - pad - n) then free_set i (o + pad + n, l - pad - n);; mret (Some s)
      else free_set i (o, pad);; insert_at (i + 1) (o + pad + n, l - pad - n);; mret (Some s))
    (λ r fl', r = Some s ∧ edited fl fl' (l1 ++ pieces o l pad n ++ l2)) fl.
Proof.
  cbv zeta. intros W E Hp Hn Hl Hr Hs. destruct (edited_take fl l1 (o, l) l2 (wf_in _ W) E) as [Hi Hlt]. unfold pieces.
  destruct (pad =? 0) eqn:Ep, (l - pad - n =? 0) eqn:Er; cbn [andb].
  - wp_step. eapply wp_mono; [by apply remove_at_spec; [apply W|]|]. cbv beta. intros _ fl' H. wp_step. split; [done|].
    by rewrite E, delete_middle_list in H.
  - apply Z.eqb_neq in Er. assert ((0 <? pad) = false) as -> by (apply Z.ltb_ge; lia). assert ((0 <? l - pad - n) = true) as -> by (apply Z.ltb_lt; lia). cbn [andb].
    wp_step. apply wp_free_set; [apply W|done|]. intros fl' H _. wp_step. split; [done|]. by rewrite E, insert_middle_list in H.
  - apply Z.eqb_neq in Ep. assert ((0 <? pad) = true) as -> by (apply Z.ltb_lt; lia). cbn [andb].
    wp_step. apply wp_free_set; [apply W|done|]. intros fl' H _. wp_step. split; [done|]. by rewrite E, insert_middle_list in H.
  - apply Z.eqb_neq in Er, Ep. rewrite andb_false_r. wp_step. apply wp_free_set; [apply W|done|]. intros fl1 H Hn1. wp_step.
    assert (fl_nfree fl ≠ N) as Hnf. { intros Hf. apply Hs. unfold full. rewrite Hf, Nat.eqb_refl. split; [done|lia]. }
    pose proof (wf_in _ W) as Hin. unfold in_array in Hin. pose proof (wf_array _ W) as Ha.
    eapply wp_mono; [apply insert_at_spec|].
    + rewrite (ed_array _ _ _ H), Hn1, Ha. lia.
    + rewrite Hn1. lia.
    + cbv beta. intros _ fl2 H2. wp_step. split; [done|]. destruct H as [A1 A2 A3 A4], H2 as [B1 B2 B3 B4]. split; [congruence|congruence|done|].
      rewrite B4, A4, E. rewrite insert_middle_list, Nat.add_1_r.
      change (l1 ++ (o, pad) :: l2) with (l1 ++ [(o, pad)] ++ l2). rewrite app_assoc.
      assert (S (length l1) = length (l1 ++ [(o, pad)])) as -> by (rewrite length_app; cbn; lia).
      rewrite take_app_length, drop_app_length. by rewrite <-!app_assoc.
Qed.

Lemma alloc_from_spec fl n align rest l1 :
  wf fl → 0 < n → 0 < align → exts fl = l1 ++ rest →
  wp (alloc_from N n align (length l1) (length rest)) (allocated n align fl l1 rest) fl.
Proof.
  intros W Hn Ha. revert l1. induction rest as [|[o l] rest IH]; intros l1 E; cbn [length alloc_from].
  { wp_step. split; [done|]. by intros e ?%elem_of_nil. }
  destruct (edited_take fl l1 (o, l) rest (wf_in _ W) E) as [Hi Hlt].
  assert (∀ Q, (∀ r fl', allocated n align fl (l1 ++ [(o, l)]) rest r fl' → Q r fl') → wp (alloc_from N n align (length l1 + 1) (length rest)) Q fl) as Hskip.
  { intros Q HQ. replace (length l1 + 1)%nat with (length (l1 ++ [(o, l)])) by (rewrite length_app; done). eapply wp_mono; [apply IH; by rewrite <-app_assoc|exact HQ]. }
  wp_step. apply (wp_free_get _ _ (o, l)); [done|]. wp_step. apply wp_pad_of; [done|].
  pose proof (wf_spaced _ W) as Sp. rewrite E in Sp. apply spaced_app in Sp as [_ (A1 & A2 & A3 & _)].
  assert (0 ≤ o) as Ho. { apply (spaced_elem 0 (fl_len fl) (exts fl) o l (wf_spaced _ W)). rewrite E. apply elem_of_app. right. by left. }
  pose proof (wf_len _ W) as HL. destruct (padding_spec o align Ha) as [Hp _]. set (pad := padding o align) in *.
  destruct ((l <? pad) || (l - pad <? n)) eqn:Ef.
  { apply Hskip. intros r fl' H. eapply allocated_skip; [|exact H]. unfold fits. cbn. fold pad. lia. }
  apply orb_false_iff in Ef as [Ef1%Z.ltb_ge Ef2%Z.ltb_ge]. wp_step. apply wp_uadd; [lia|]. wp_step. apply wp_uadd; [lia|].
  pose proof (carve_extent fl l1 o l rest pad n (o + pad) W E ltac:(lia) Hn Ef1 Ef2) as H. cbv zeta in H. cbv zeta.
  assert (∀ m, ¬ (full fl = true ∧ 0 < pad ∧ 0 < l - pad - n) → wp m (λ r fl', r = Some (o + pad) ∧ edited fl fl' (l1 ++ pieces o l pad n ++ rest)) fl →
    wp m (allocated n align fl l1 ((o, l) :: rest)) fl) as Hfin.
  { intros m Hs Hm. eapply wp_mono; [exact Hm|]. cbv beta. intros r fl' [-> He]. exists [], o, l, rest. split_and!; try done.
    by intros e ?%elem_of_nil. }
  destruct (pad =? 0) eqn:E0; [|destruct (l - pad - n =? 0) eqn:E1]; cbn [andb] in *.
  - apply Z.eqb_eq in E0. assert (¬ (full fl = true ∧ 0 < pad ∧ 0 < l - pad - n)) as Hs by lia. specialize (H Hs).
    destruct (l - pad - n =? 0) eqn:E1; [by apply Hfin|]. rewrite andb_false_r in *. apply Z.eqb_neq in E1.
    assert ((0 <? l - pad - n) = true) as Ep by (apply Z.ltb_lt; lia). rewrite Ep in *. by apply Hfin.
  - apply Z.eqb_eq in E1. apply Z.eqb_neq in E0. assert ((0 <? pad) = true) as Ep by (apply Z.ltb_lt; lia). rewrite Ep in *. cbn [andb] in *.
    apply Hfin; [lia|]. apply H. lia.
  - rewrite andb_false_r in *. wp_step. destruct (fl_nfree fl =? N)%nat eqn:Ef.
    + apply Hskip. intros r fl' H'. eapply allocated_skip; [|exact H']. unfold fits, full. cbn. fold pad. rewrite Ef. apply Z.eqb_neq in E0, E1. lia.
    + assert (¬ (full fl = true ∧ 0 < pad ∧ 0 < l - pad - n)) as Hs by (unfold full; rewrite Ef; by intros [? _]).
      specialize (H Hs). by apply Hfin.
Qed.

Lemma wf_edited fl fl' l : wf fl → edited fl fl' l → spaced 0 (fl_len fl) l → wf fl'.
Proof. intros [] [] Hs. split; [congruence|done|congruence|congruence]. Qed.

Lemma pieces_spaced o l pad n : 0 ≤ pad → 0 < n → pad ≤ l → n ≤ l - pad → spaced o (o + l) (pieces o l pad n).
Proof. intros. unfold pieces. destruct (pad =? 0) eqn:E0, (l - pad - n =? 0) eqn:E1; cbn; rewrite ?Z.eqb_eq, ?Z.eqb_neq in *; repeat split; lia. Qed.

Lemma pieces_covers o l pad n p :
  0 ≤ pad → 0 < n → pad ≤ l → n ≤ l - pad → covers (pieces o l pad n) p ↔ o ≤ p < o + l ∧ ¬ o + pad ≤ p < o + pad + n.
Proof.
  intros. assert (covers [] p ↔ False) as Hnil by (split; [apply covers_nil|done]). unfold pieces. rewrite covers_app. destruct (pad =? 0) eqn:E0, (l - pad - n =? 0) eqn:E1;
    rewrite ?covers_cons, ?Hnil; rewrite ?Z.eqb_eq, ?Z.eqb_neq in *; lia.
Qed.

(** The region handed out was free, aligned and inside the pool; everything else stays. *)
Record granted (fl : FreeList) (n align s : Z) (fl' : FreeList) : Prop := {
  gr_wf : wf fl';
  gr_len : fl_len fl' = fl_len fl;
  gr_range : 0 ≤ s ∧ s + n ≤ fl_len fl;
  gr_aligned : s mod align = 0;
  gr_free p : s ≤ p < s + n → covers (exts fl) p;
  gr_covers p : covers (exts fl') p ↔ covers (exts fl) p ∧ ¬ s ≤ p < s + n;
}.

Lemma allocated_granted fl n align s fl' :
  wf fl → 0 < n → 0 < align → allocated n align fl [] (exts fl) (Some s) fl' → granted fl n align s fl'.
Proof.
  intros W Hn Ha (m1 & o & l & m2 & E & _ & (F1 & F2 & _) & -> & Ed). cbn in F1, F2, Ed. pose proof (wf_spaced _ W) as Sp. rewrite E in Sp.
  destruct (padding_spec o align Ha) as [Hp Hal]. set (pad := padding o align) in *.
  assert (0 ≤ pad) as Hp0 by lia. pose proof (pieces_spaced o l pad n Hp0 Hn F1 F2) as Sq.
  assert ((o, l) ∈ m1 ++ (o, l) :: m2) as Hin by (apply elem_of_app; right; by left). pose proof (spaced_elem _ _ _ _ _ Sp Hin) as Hb.
  split.
  - eapply wf_edited; [done|exact Ed|]. by eapply spaced_replace.
  - apply Ed.
  - lia.
  - done.
  - intros p Hx. rewrite E, covers_app, covers_cons. right. left. lia.
  - intros p. rewrite (ed_exts _ _ _ Ed), (covers_replace 0 (fl_len fl) m1 o l m2 _ p Sp), E, pieces_covers by done.
    split.
    + intros [[H1 H2]|[H1 H2]]; [split; [done|lia]|]. split; [|lia]. rewrite covers_app, covers_cons. tauto.
    + intros [H1 H2]. destruct (decide (o ≤ p < o + l)) as [Hin'|Hout]; [right|left]; done.
Qed.
End spec.

(** ** Returning a region *)

Section free_spec.
Context (N : nat).

Lemma free_search_spec fl off l1 l2 :
  in_array fl → exts fl = l1 ++ l2 → (∀ e, e ∈ l1 → e.1 < off) →
  wp (free_search off (length l1) (length l2)) (λ i fl', fl' = fl ∧ ∃ m1 m2, exts fl = m1 ++ m2 ∧ i = length m1 ∧
    (∀ e, e ∈ m1 → e.1 < off) ∧ ∀ e m, m2 = e :: m → off ≤ e.1) fl.
Proof.
  intros Ha. revert l1. induction l2 as [|e l2 IH]; intros l1 E Hl; cbn [length free_search].
  { wp_step. split; [done|]. exists l1, []. by split_and!. }
  destruct (edited_take fl l1 e l2 Ha E) as [Hi _]. wp_step. apply (wp_free_get _ _ e); [done|].
  destruct (e.1 <? off) eqn:Ee; [apply Z.ltb_lt in Ee|apply Z.ltb_ge in Ee].
  - replace (length l1 + 1)%nat with (length (l1 ++ [e])) by (rewrite length_app; done). apply IH; [by rewrite <-app_assoc|].
    intros x [Hx| ->%list_elem_of_singleton]%elem_of_app; [by apply Hl|done].
  - wp_step. split; [done|]. exists l1, (e :: l2). split_and!; [done|done|done|]. by intros x m [= <- <-].
Qed.

(** The extents after [[off, off+n)] is added between [m1] and [m2]. *)
Definition merged (m1 m2 : list (Z * Z)) (off n : Z) : list (Z * Z) :=
  let '(m1', o, l) := match last m1 with Some (o, l) => if o + l =? off then (removelast m1, o, l) else (m1, off, 0) | None => (m1, off, 0) end in
  let '(m2', r) := match m2 with (o', l') :: m => if o' =? off + n then (m, l') else (m2, 0) | [] => (m2, 0) end in
  m1' ++ (o, l + n + r) :: m2'.

Lemma next_lo_snoc lo m o l : next_lo lo (m ++ [(o, l)]) = o + l + 1.
Proof. unfold next_lo. by rewrite last_snoc. Qed.

Lemma merged_spec len m1 m2 off n :
  spaced 0 len (m1 ++ m2) → 0 ≤ off → 0 < n → off + n ≤ len →
  (∀ p, off ≤ p < off + n → ¬ covers (m1 ++ m2) p) → (∀ e, e ∈ m1 → e.1 < off) → (∀ e m, m2 = e :: m → off ≤ e.1) →
  spaced 0 len (merged m1 m2 off n) ∧ ∀ p, covers (merged m1 m2 off n) p ↔ covers (m1 ++ m2) p ∨ off ≤ p < off + n.
Proof.
  intros Sp Ho Hn Hlen Hc H1 H2. apply spaced_app in Sp as [S1 S2]. unfold merged.
  assert (∃ m1' o l, match last m1 with Some (o, l) => if o + l =? off then (removelast m1, o, l) else (m1, off, 0) | None => (m1, off, 0) end = (m1', o, l) ∧
    spaced 0 len m1' ∧ next_lo 0 m1' ≤ o ∧ o + l = off ∧ 0 ≤ l ∧ ∀ p, covers m1 p ↔ covers m1' p ∨ o ≤ p < o + l) as (m1' & o & l & -> & A1 & A2 & A3 & A4 & A5).
  { destruct (last m1) as [[o l]|] eqn:El.
    - apply last_Some in El as [m ->]. pose proof S1 as Sm. apply spaced_app in S1 as [S1 (B1 & B2 & B3 & _)].
      assert (o + l ≤ off) as Hle.
      { destruct (decide (o + l ≤ off)) as [|Hgt]; [done|]. assert (o < off) by (apply (H1 (o, l)); apply elem_of_app; right; by left).
        destruct (Hc off); [lia|]. rewrite !covers_app, covers_cons. left. right. left. lia. }
      destruct (o + l =? off) eqn:E; [apply Z.eqb_eq in E|apply Z.eqb_neq in E].
      + rewrite removelast_last. exists m, o, l. split_and!; try done; [lia|]. intros p. rewrite covers_app, covers_cons. pose proof (covers_nil p). tauto.
      + exists (m ++ [(o, l)]), off, 0. rewrite next_lo_snoc. split_and!; try done; try lia. intros p. split; [by left|]. intros [|]; [done|lia].
    - apply last_None in El as ->. exists [], off, 0. split_and!; try done; try lia. intros p. split; [by left|]. intros [|]; [done|lia]. }
  assert (∃ m2' r, match m2 with (o', l') :: m => if o' =? off + n then (m, l') else (m2, 0) | [] => (m2, 0) end = (m2', r) ∧
    0 ≤ r ∧ off + n + r ≤ len ∧ spaced (off + n + r + 1) len m2' ∧ ∀ p, covers m2 p ↔ covers m2' p ∨ off + n ≤ p < off + n + r) as (m2' & r & -> & B1 & B2 & B3 & B4).
  { destruct m2 as [|[o' l'] m].
    - exists [], 0. split_and!; try done; try lia. intros p. split; [by left|]. intros [|]; [done|lia].
    - cbn in S2. destruct S2 as (C1 & C2 & C3 & C4).
      assert (off + n ≤ o') as Hle.
      { destruct (decide (off + n ≤ o')) as [|Hgt]; [done|]. specialize (H2 (o', l') m eq_refl). cbn in H2.
        destruct (Hc o'); [lia|]. rewrite covers_app, covers_cons. right. left. lia. }
      destruct (o' =? off + n) eqn:E; [apply Z.eqb_eq in E; subst o'|apply Z.eqb_neq in E].
      + exists m, l'. split_and!; try done; try lia. intros p. rewrite covers_cons. tauto.
      + exists ((o', l') :: m), 0. split_and!; try done; try lia; [cbn; split_and!; done || lia|]. intros p. split; [by left|]. intros [|]; [done|lia]. }
  split.
  - apply spaced_app. split; [done|]. cbn. split_and!; try lia. by replace (o + (l + n + r) + 1) with (off + n + r + 1) by lia.
  - intros p. rewrite !covers_app, covers_cons, A5, B4. intuition lia.
Qed.

Lemma insert_between fl m1 m2 v :
  (fl_nfree fl < length (fl_free fl))%nat → exts fl = m1 ++ m2 →
  wp (insert_at (length m1) v) (λ _ fl', edited fl fl' (m1 ++ v :: m2)) fl.
Proof.
  intros Hlt E. assert (in_array fl) as Hin by (unfold in_array; lia). pose proof (exts_length fl Hin) as Hl. rewrite E, length_app in Hl.
  eapply wp_mono; [apply insert_at_spec; [done|lia]|]. cbv beta. intros _ fl' He. by rewrite E, take_app_length, drop_app_length in He.
Qed.

Lemma set_between fl m1 x m2 v :
  in_array fl → exts fl = m1 ++ x :: m2 →
  wp (free_set (length m1) v) (λ _ fl', edited fl fl' (m1 ++ v :: m2) ∧ fl_nfree fl' = fl_nfree fl) fl.
Proof.
  intros Hin E. destruct (edited_take fl m1 x m2 Hin E) as [_ Hlt]. apply wp_free_set; [done|done|]. intros fl' He Hn. split; [|done].
  by rewrite E, insert_middle_list in He.
Qed.

Lemma remove_after fl m1 x y m2 :
  in_array fl → exts fl = m1 ++ x :: y :: m2 → wp (remove_at (length m1 + 1)) (λ _ fl', edited fl fl' (m1 ++ x :: m2)) fl.
Proof.
  intros Hin E. pose proof (exts_length fl Hin) as Hl. rewrite E, length_app in Hl. cbn in Hl.
  eapply wp_mono; [apply remove_at_spec; [done|lia]|]. cbv beta. intros _ fl' He.
  change (m1 ++ x :: y :: m2) with (m1 ++ [x] ++ y :: m2) in E. rewrite app_assoc in E. rewrite E in He.
  replace (length m1 + 1)%nat with (length (m1 ++ [x])) in He by (rewrite length_app; done). rewrite delete_middle_list, <-app_assoc in He. done.
Qed.

Lemma free_merged fl off n :
  wf N fl → (fl_nfree fl < N)%nat → 0 ≤ off → 0 < n → off + n ≤ fl_len fl → (∀ p, off ≤ p < off + n → ¬ covers (exts fl) p) →
  wp (free off n) (λ _ fl', ∃ m1 m2, exts fl = m1 ++ m2 ∧ (∀ e, e ∈ m1 → e.1 < off) ∧ (∀ e m, m2 = e :: m → off ≤ e.1) ∧
    edited fl fl' (merged m1 m2 off n)) fl.
Proof.
  intros W Hfull Ho Hn Hlen Hc. pose proof (wf_in _ _ W) as Hin. pose proof (wf_len _ _ W) as HL. pose proof (wf_array _ _ W) as Hlena. unfold free. wp_step.
  rewrite <-(exts_length fl Hin).
  eapply wp_mono; [apply (free_search_spec fl off [] (exts fl)); [done|done|by intros e ?%elem_of_nil]|].
  cbv beta. intros i fl1 (-> & m1 & m2 & E & -> & H1 & H2). wp_step.
  assert (∀ o l, (o, l) ∈ exts fl → 0 ≤ o ∧ 0 < l ∧ o + l ≤ fl_len fl) as Hb by (intros o l; apply (spaced_elem _ _ _ _ _ (wf_spaced _ _ W))).
  (* the left neighbour *)
  set (lft := match last m1 with Some (o, l) => o + l =? off | None => false end).
  assert (∀ Q, Q lft fl → wp (if (0 <? length m1)%nat then e ← free_get (length m1 - 1); s ← uadd U64_MAX (fst e) (snd e); mret (s =? off) else mret false) Q fl) as Hleft.
  { intros Q Hk. unfold lft in Hk. destruct (last m1) as [[o l]|] eqn:El.
    - apply last_Some in El as [m ->]. rewrite length_app. cbn [length]. assert ((0 <? length m + 1)%nat = true) as -> by (apply Nat.ltb_lt; lia).
      replace (length m + 1 - 1)%nat with (length m) by lia. wp_step. rewrite <-app_assoc in E. destruct (edited_take fl m (o, l) m2 Hin E) as [Hi _].
      apply (wp_free_get _ _ (o, l)); [done|]. wp_step. apply wp_uadd; [|by wp_step]. cbn. destruct (Hb o l); [|lia].
      rewrite E. apply elem_of_app. right. by left.
    - apply last_None in El as ->. by wp_step. }
  apply Hleft. clear Hleft.
  set (rgt := match m2 with (o', _) :: _ => o' =? off + n | [] => false end).
  assert (∀ Q, Q rgt fl → wp (if (length m1 <? length (exts fl))%nat then e ← free_get (length m1); s ← uadd U64_MAX off n; mret (fst e =? s) else mret false) Q fl) as Hright.
  { intros Q Hk. unfold rgt in Hk. rewrite E, length_app. destruct m2 as [|[o l] m2'].
    - cbn [length]. rewrite Nat.add_0_r, Nat.ltb_irrefl. by wp_step.
    - assert ((length m1 <? length m1 + length ((o, l) :: m2'))%nat = true) as -> by (apply Nat.ltb_lt; cbn; lia).
      wp_step. destruct (edited_take fl m1 (o, l) m2' Hin E) as [Hi _]. apply (wp_free_get _ _ (o, l)); [done|]. wp_step. apply wp_uadd; [lia|]. by wp_step. }
  wp_step. apply Hright. clear Hright.
  assert (∀ m : comp FreeList unit, wp m (λ _ fl', edited fl fl' (merged m1 m2 off n)) fl →
    wp m (λ _ fl', ∃ m1 m2, exts fl = m1 ++ m2 ∧ (∀ e, e ∈ m1 → e.1 < off) ∧ (∀ e m, m2 = e :: m → off ≤ e.1) ∧ edited fl fl' (merged m1 m2 off n)) fl) as Hfin.
  { intros m Hm. eapply wp_mono; [exact Hm|]. cbv beta. intros _ fl' He. by exists m1, m2. }
  apply Hfin. clear Hfin. unfold merged.
  assert (fl_nfree fl < length (fl_free fl))%nat as Hroom by lia.
  destruct (last m1) as [[o l]|] eqn:El; [destruct (o + l =? off) eqn:Eo|]; unfold lft; cbn [negb andb].
  - apply last_Some in El as [m ->]. pose proof E as Ea. rewrite <-app_assoc in E. cbn [app] in E. rewrite removelast_last.
    replace (length (m ++ [(o, l)]) - 1)%nat with (length m) by (rewrite length_app; cbn; lia).
    assert ((o, l) ∈ exts fl) as Hin1 by (rewrite E; apply elem_of_app; right; by left). specialize (Hb o l Hin1) as Hb1. apply Z.eqb_eq in Eo.
    destruct (edited_take fl m (o, l) m2 Hin E) as [Hi _].
    destruct m2 as [|[o' l'] m2']; [|destruct (o' =? off + n) eqn:Eo']; unfold rgt; cbn [negb andb]; wp_step; (apply (wp_free_get _ _ (o, l)); [exact Hi|]); wp_step.
    + apply wp_uadd; [cbn; lia|]. rewrite Z.add_0_r. eapply wp_mono; [by eapply set_between|]. by intros ? ? [].
    + assert ((o', l') ∈ exts fl) as Hin2 by (rewrite E; apply elem_of_app; right; right; by left). specialize (Hb o' l' Hin2) as Hb2. apply Z.eqb_eq in Eo'.
      destruct (edited_take fl (m ++ [(o, l)]) (o', l') m2' Hin Ea) as [Hi2 _].
      apply (wp_free_get _ _ (o', l')); [done|]. wp_step. apply wp_uadd; [cbn; lia|]. wp_step. apply wp_uadd; [cbn; lia|]. wp_step.
      eapply wp_mono; [by eapply set_between|]. cbv beta. intros _ fl1 [He Hn1]. cbn [fst snd] in *.
      rewrite length_app. cbn [length]. eapply wp_mono; [apply (remove_after fl1 m (o, l + n + l') (o', l') m2'); apply He|]. cbv beta. intros _ fl2 He2.
      destruct He as [P1 P2 P3 P4], He2 as [Q1 Q2 Q3 Q4]. split; [congruence|congruence|done|done].
    + apply wp_uadd; [cbn; lia|]. rewrite Z.add_0_r. eapply wp_mono; [by eapply set_between|]. by intros ? ? [].
  - destruct m2 as [|[o' l'] m2']; [|destruct (o' =? off + n) eqn:Eo']; unfold rgt; cbn [negb andb].
    + rewrite Z.add_0_r. by apply insert_between.
    + assert ((o', l') ∈ exts fl) as Hin2 by (rewrite E; apply elem_of_app; right; by left). specialize (Hb o' l' Hin2) as Hb2. apply Z.eqb_eq in Eo'.
      destruct (edited_take fl m1 (o', l') m2' Hin E) as [Hi2 _]. wp_step. apply (wp_free_get _ _ (o', l')); [done|]. wp_step. apply wp_uadd; [cbn; lia|].
      eapply wp_mono; [by eapply set_between|]. by intros ? ? [].
    + rewrite Z.add_0_r. by apply insert_between.
  - destruct m2 as [|[o' l'] m2']; [|destruct (o' =? off + n) eqn:Eo']; unfold rgt; cbn [negb andb].
    + rewrite Z.add_0_r. by apply insert_between.
    + assert ((o', l') ∈ exts fl) as Hin2 by (rewrite E; apply elem_of_app; right; by left). specialize (Hb o' l' Hin2) as Hb2. apply Z.eqb_eq in Eo'.
      destruct (edited_take fl m1 (o', l') m2' Hin E) as [Hi2 _]. wp_step. apply (wp_free_get _ _ (o', l')); [done|]. wp_step. apply wp_uadd; [cbn; lia|].
      eapply wp_mono; [by eapply set_between|]. by intros ? ? [].
    + rewrite Z.add_0_r. by apply insert_between.
Qed.
End free_spec.

(** ** The operations against the free set *)

Section ops.
Context (N : nat).

Lemma alloc_spec fl n align :
  wf N fl → 0 ≤ n → 0 < align →
  wp (alloc N n align) (λ r fl', match r with
    | Some s => 0 < n ∧ granted N fl n align s fl' ∧ allocated N n align fl [] (exts fl) (Some s) fl'
    | None => fl' = fl ∧ (n = 0 ∨ ∀ e, e ∈ exts fl → ¬ fits (full N fl) n align e)
    end) fl.
Proof.
  intros W Hn Ha. unfold alloc. destruct (n =? 0) eqn:E0; [apply Z.eqb_eq in E0; wp_step; by split; [|left]|apply Z.eqb_neq in E0].
  assert (0 < n) as Hp by lia. wp_step. rewrite <-(exts_length fl (wf_in _ _ W)).
  eapply wp_mono; [by apply (alloc_from_spec N fl n align (exts fl) [])|]. cbv beta. intros [s|] fl' H.
  - split_and!; [done| |done]. by apply allocated_granted.
  - destruct H as [-> H]. by split; [|right].
Qed.

(** [[off, off+n)] is wholly handed out. *)
Definition taken (fl : FreeList) (off n : Z) : Prop := ∀ p, off ≤ p < off + n → ¬ covers (exts fl) p.

Lemma free_spec fl off n :
  wf N fl → (fl_nfree fl < N)%nat → 0 ≤ off → 0 < n → off + n ≤ fl_len fl → taken fl off n →
  wp (free off n) (λ _ fl', wf N fl' ∧ fl_len fl' = fl_len fl ∧
    ∀ p, covers (exts fl') p ↔ covers (exts fl) p ∨ off ≤ p < off + n) fl.
Proof.
  intros W Hf Ho Hn Hl Ht. eapply wp_mono; [by apply (free_merged N)|]. cbv beta. intros _ fl' (m1 & m2 & E & H1 & H2 & He).
  unfold taken in Ht. pose proof (wf_spaced _ _ W) as Sp. rewrite E in Sp, Ht.
  destruct (merged_spec (fl_len fl) m1 m2 off n Sp Ho Hn Hl Ht H1 H2) as [S' C']. split_and!.
  - by eapply wf_edited.
  - apply He.
  - intros p. by rewrite (ed_exts _ _ _ He), C', E.
Qed.

Lemma is_allocated_from_spec fl off n l1 l2 :
  wf N fl → 0 ≤ off → 0 < n → off + n ≤ fl_len fl → exts fl = l1 ++ l2 →
  wp (is_allocated_from off n (length l1) (length l2)) (λ b fl', fl' = fl ∧ (b = true ↔ ∀ p, off ≤ p < off + n → ¬ covers l2 p)) fl.
Proof.
  intros W Ho Hn Hl. revert l1. induction l2 as [|[o l] l2 IH]; intros l1 E; cbn [length is_allocated_from].
  { wp_step. split; [done|]. split; [|done]. intros _ p _. apply covers_nil. }
  destruct (edited_take fl l1 (o, l) l2 (wf_in _ _ W) E) as [Hi _]. pose proof (wf_len _ _ W).
  assert (0 ≤ o ∧ 0 < l ∧ o + l ≤ fl_len fl) as Hb. { apply (spaced_elem _ _ _ _ _ (wf_spaced _ _ W)). rewrite E. apply elem_of_app. right. by left. }
  wp_step. apply (wp_free_get _ _ (o, l)); [done|]. wp_step. apply wp_uadd; [lia|]. wp_step. apply wp_uadd; [lia|].
  destruct ((off <? o + l) && (o <? off + n)) eqn:Ec.
  - apply andb_true_iff in Ec as [E1%Z.ltb_lt E2%Z.ltb_lt]. wp_step. split; [done|]. split; [done|]. intros H'.
    destruct (H' (Z.max o off)); [lia|]. apply covers_cons. left. lia.
  - replace (length l1 + 1)%nat with (length (l1 ++ [(o, l)])) by (rewrite length_app; done).
    eapply wp_mono; [apply IH; by rewrite <-app_assoc|]. cbv beta. intros b fl' [-> Hbt]. split; [done|]. rewrite Hbt.
    apply andb_false_iff in Ec. rewrite !Z.ltb_ge in Ec. split; intros Hp p Hr; specialize (Hp p Hr); rewrite ?covers_cons in *; [|tauto].
    intros [|]; [lia|done].
Qed.

Lemma is_allocated_spec fl off n :
  wf N fl → 0 ≤ off → 0 < n → off + n ≤ fl_len fl → wp (is_allocated off n) (λ b fl', fl' = fl ∧ (b = true ↔ taken fl off n)) fl.
Proof.
  intros W Ho Hn Hl. unfold is_allocated. wp_step. rewrite <-(exts_length fl (wf_in _ _ W)).
  by apply (is_allocated_from_spec fl off n [] (exts fl)).
Qed.

Lemma FreeList_new_spec len :
  (0 < N)%nat → 0 ≤ len ≤ U64_MAX →
  wp (FreeList_new N len) (λ fl _, wf N fl ∧ fl_len fl = len ∧ ∀ p, covers (exts fl) p ↔ 0 ≤ p < len) tt.
Proof.
  intros HN Hl. unfold FreeList_new. destruct (len =? 0) eqn:E; [apply Z.eqb_eq in E|apply Z.eqb_neq in E].
  - wp_step. split_and!; [split|done|]; cbn; try done; [by rewrite length_replicate|unfold in_array; cbn; lia|].
    intros p. split; [by intros ?%covers_nil|lia].
  - wp_step. apply wp_set_index; [by rewrite length_replicate|]. wp_step. destruct N as [|N']; [lia|]. cbn [replicate].
    assert (exts (MkFreeList len (<[0%nat := (0, len)]> ((0, 0) :: replicate N' (0, 0))) 1) = [(0, len)]) as Ee by done.
    split_and!; [split|done|]; cbn [fl_len fl_free fl_nfree].
    + rewrite length_insert. cbn. by rewrite length_replicate.
    + unfold in_array. cbn. lia.
    + done.
    + rewrite Ee. cbn. lia.
    + intros p. rewrite Ee, covers_cons. split; [|by left]. by intros [|?%covers_nil].
Qed.

(** Giving back what was just handed out restores the very same extents. *)
Lemma alloc_free_exts fl n align s fl1 :
  wf N fl → granted N fl n align s fl1 → 0 < n → (fl_nfree fl1 < N)%nat →
  wp (free s n) (λ _ fl2, wf N fl2 ∧ exts fl2 = exts fl) fl1.
Proof.
  intros W G Hn Hf. destruct (gr_range _ _ _ _ _ _ G) as [G1 G2]. eapply wp_mono; [apply free_spec; try done; [apply G|by rewrite (gr_len _ _ _ _ _ _ G)|]|].
  - intros p Hp Hc. apply (gr_covers _ _ _ _ _ _ G) in Hc. tauto.
  - cbv beta. intros _ fl2 (W2 & L2 & C2). split; [done|]. pose proof (wf_spaced _ _ W2) as S2. rewrite L2, (gr_len _ _ _ _ _ _ G) in S2.
    apply (spaced_unique 0 (fl_len fl)); [done|apply W|]. intros p. rewrite C2, (gr_covers _ _ _ _ _ _ G).
    split; [|destruct (decide (s ≤ p < s + n)); tauto]. intros [[? _]|Hp]; [done|]. by apply (gr_free _ _ _ _ _ _ G).
Qed.
End ops.
