(* ===== verification/DmaPool.v ===== *)
(** The DMA pool ([dma-pool/src/lib.rs]) and the user heap ([urt/src/lib.rs]): the two
    wrappers that hand out byte regions carved by [Freelist]. The pool keeps its backing
    memory; the client's view is a list of live buffers, each a private array. *)

From S2P Require Import Prelude Bytes Freelist.

(** ** The pool *)

Definition MAX_FREE_RANGES : nat := 64.

Record DmaBuf : Type := MkDmaBuf { db_offset : Z; db_len : Z; db_addr : Z }.

(** The backing is its bytes as the CPU sees them and the address the device sees byte
    0 at. *)
Record DmaPool : Type := MkDmaPool { dp_mem : list Z; dp_base : Z; dp_fl : FreeList }.

Definition backing_len (p : DmaPool) : Z := Z.of_nat (length (dp_mem p)).
Definition with_mem (f : list Z → list Z) (p : DmaPool) : DmaPool := MkDmaPool (f (dp_mem p)) (dp_base p) (dp_fl p).

(** Run a free-list operation on the pool's list. *)
Definition on_fl {A : Type} (m : comp FreeList A) : comp DmaPool A := λ p,
  match m (dp_fl p) with
  | Ret (a, fl) => Ret (a, MkDmaPool (dp_mem p) (dp_base p) fl)
  | Panic => Panic
  | NoFuel => NoFuel
  end.

Definition DmaPool_new (mem : list Z) (device_base : Z) : comp unit DmaPool :=
  fl ← FreeList_new MAX_FREE_RANGES (Z.of_nat (length mem));
  mret (MkDmaPool mem device_base fl).

Definition is_power_of_two (x : Z) : bool := (0 <? x) && (Z.land x (x - 1) =? 0).

Definition pool_alloc (len align : Z) : comp DmaPool (option DmaBuf) :=
  ensure (negb (align =? 0));;
  ensure (is_power_of_two align);;
  r ← on_fl (alloc MAX_FREE_RANGES len align);
  match r with
  | None => mret None
  | Some start =>
      base ← gets dp_base;
      a ← uadd U64_MAX base start;
      mret (Some (MkDmaBuf start len a))
  end.

Definition pool_free (buf : DmaBuf) : comp DmaPool unit :=
  ensure (0 <? db_len buf);;
  f ← on_fl (is_full MAX_FREE_RANGES);
  ensure (negb f);;
  blen ← gets backing_len;
  ensure (match checked_add (db_offset buf) (db_len buf) with Some e => e <=? blen | None => false end);;
  t ← on_fl (is_allocated (db_offset buf) (db_len buf));
  ensure t;;
  on_fl (free (db_offset buf) (db_len buf)).

(** The position in the backing of [buf.offset + offset], checked for [len] bytes. *)
Definition range_ptr (buf : DmaBuf) (offset len : Z) : comp DmaPool Z :=
  sub_end ← unwrap (checked_add offset len);
  ensure (sub_end <=? db_len buf);;
  abs_end ← unwrap (checked_add (db_offset buf) sub_end);
  blen ← gets backing_len;
  ensure (abs_end <=? blen);;
  uadd U64_MAX (db_offset buf) offset.

Definition bytes (buf : DmaBuf) : comp DmaPool (list Z) :=
  p ← range_ptr buf 0 (db_len buf);
  gets (λ s, slice (dp_mem s) p (db_len buf)).

(** [bytes_mut(buf)[offset..offset + data.len()].copy_from_slice(data)] *)
Definition pool_write (buf : DmaBuf) (offset : Z) (data : list Z) : comp DmaPool unit :=
  p ← range_ptr buf 0 (db_len buf);
  e ← uadd U64_MAX offset (Z.of_nat (length data));
  ensure (e <=? db_len buf);;
  q ← uadd U64_MAX p offset;
  modify (with_mem (λ m, splice m q data)).

(** [out.copy_from_slice(&bytes(buf)[offset..offset + n])], [n] the length of [out] *)
Definition pool_read (buf : DmaBuf) (offset n : Z) : comp DmaPool (list Z) :=
  b ← bytes buf;
  e ← uadd U64_MAX offset n;
  ensure (e <=? db_len buf);;
  mret (slice b offset n).

Definition read_volatile (buf : DmaBuf) (offset n : Z) : comp DmaPool (list Z) :=
  p ← range_ptr buf offset n;
  gets (λ s, slice (dp_mem s) p n).

(** ** The heap *)

Definition HEAP_RANGES : nat := 1024.
Definition MIN_ALIGN : Z := 16.
Definition MAX_ALIGN : Z := 128.

(** The arena's address and size; the free list is built on first use. The lock
    that serialises the two operations is not modelled. *)
Record Heap : Type := MkHeap { hp_base : Z; hp_size : Z; hp_fl : option FreeList }.
Definition Heap_new (base size : Z) : Heap := MkHeap base size None.

Definition with_fl {A : Type} (m : comp FreeList A) : comp Heap A := λ h,
  match (match hp_fl h with
         | Some fl => Ret (fl, tt)
         | None => FreeList_new HEAP_RANGES (hp_size h) tt
         end) with
  | Ret (fl, _) =>
      match m fl with
      | Ret (a, fl') => Ret (a, MkHeap (hp_base h) (hp_size h) (Some fl'))
      | Panic => Panic
      | NoFuel => NoFuel
      end
  | Panic => Panic
  | NoFuel => NoFuel
  end.

(** [layout.size().max(1).next_multiple_of(MIN_ALIGN)] *)
Definition need_of (size : Z) : comp Heap Z :=
  let n := Z.max size 1 in
  let rem := n mod MIN_ALIGN in
  if rem =? 0 then mret n else uadd U64_MAX n (MIN_ALIGN - rem).

(** [None] is the null pointer. *)
Definition heap_alloc (size align : Z) : comp Heap (option Z) :=
  if MAX_ALIGN <? align then mret None
  else
    need ← need_of size;
    r ← with_fl (alloc HEAP_RANGES need (Z.max align MIN_ALIGN));
    match r with
    | Some off => base ← gets hp_base; mret (Some (base + off))
    | None => mret None
    end.

(** At the fragmentation cap the [dev] profile's [debug_assert!] stops the program. *)
Definition heap_dealloc (p size : Z) : comp Heap unit :=
  need ← need_of size;
  base ← gets hp_base;
  off ← usub p base;
  f ← with_fl (is_full HEAP_RANGES);
  ensure (negb f);;
  t ← with_fl (is_allocated off need);
  ensure t;;
  with_fl (free off need).

(** ** Live buffers *)

Definition in_buf (b : DmaBuf) (p : Z) : Prop := db_offset b ≤ p < db_offset b + db_len b.
#[global] Instance in_buf_dec b p : Decision (in_buf b p).
Proof. unfold in_buf. apply _. Defined.
Definition disjoint_bufs (b c : DmaBuf) : Prop := ∀ p, in_buf b p → ¬ in_buf c p.

(** The pool has handed out exactly the buffers of [live]; each carries its contents. *)
Record pool_repr (p : DmaPool) (live : list (DmaBuf * list Z)) : Prop := {
  pr_wf : wf MAX_FREE_RANGES (dp_fl p);
  pr_len : fl_len (dp_fl p) = backing_len p;
  pr_base : 0 ≤ dp_base p ∧ dp_base p + backing_len p ≤ U64_MAX;
  pr_buf b c : (b, c) ∈ live → 0 ≤ db_offset b ∧ 0 < db_len b ∧ db_offset b + db_len b ≤ backing_len p ∧
    db_addr b = dp_base p + db_offset b ∧ c = slice (dp_mem p) (db_offset b) (db_len b);
  pr_disjoint i j b c b' c' : live !! i = Some (b, c) → live !! j = Some (b', c') → i ≠ j → disjoint_bufs b b';
  pr_covers q : covers (exts (dp_fl p)) q ↔ 0 ≤ q < backing_len p ∧ ∀ b c, (b, c) ∈ live → ¬ in_buf b q;
}.

Lemma wp_on_fl {A : Type} (m : comp FreeList A) Q p :
  wp m (λ a fl, Q a (MkDmaPool (dp_mem p) (dp_base p) fl)) (dp_fl p) → wp (on_fl m) Q p.
Proof. unfold wp, on_fl. by destruct (m (dp_fl p)) as [[a fl]| |]. Qed.

Lemma pow2_pos x : is_power_of_two x = true → 0 < x.
Proof. unfold is_power_of_two. intros [H _]%andb_true_iff. lia. Qed.

Lemma pool_alloc_spec p live len align :
  pool_repr p live → 0 ≤ len → is_power_of_two align = true →
  wp (pool_alloc len align) (λ r p', match r with
    | Some b => pool_repr p' ((b, slice (dp_mem p) (db_offset b) len) :: live) ∧ db_len b = len ∧ db_offset b mod align = 0 ∧
        dp_mem p' = dp_mem p
    | None => p' = p ∧ (len = 0 ∨ ∀ e, e ∈ exts (dp_fl p) → ¬ fits (full MAX_FREE_RANGES (dp_fl p)) len align e)
    end) p.
Proof.
  intros R Hl Hp. pose proof (pow2_pos _ Hp) as Ha. unfold pool_alloc. wp_step. apply wp_ensure; [lia|]. wp_step. apply wp_ensure; [done|]. wp_step.
  apply wp_on_fl. eapply wp_mono; [apply alloc_spec; [apply R|done|done]|]. cbv beta. intros [s|] fl' H.
  - destruct H as (Hn & G & _). destruct (gr_range _ _ _ _ _ _ G) as [G1 G2]. pose proof (pr_base _ _ R) as [B1 B2]. pose proof (pr_len _ _ R) as EL.
    wp_step. apply wp_uadd; [cbn; lia|]. wp_step. split_and!; [|done|apply G|done].
    assert (∀ b c q, (b, c) ∈ live → in_buf b q → ¬ s ≤ q < s + len) as Hnew.
    { intros b c q Hb Hq Hs. apply (gr_free _ _ _ _ _ _ G) in Hs. apply (pr_covers _ _ R) in Hs as [_ Hs]. by destruct (Hs b c Hb). }
    split; cbn [dp_fl dp_mem dp_base]; unfold backing_len in *; cbn [dp_mem].
    + apply G.
    + by rewrite (gr_len _ _ _ _ _ _ G).
    + done.
    + intros b c [E|Hb]%elem_of_cons; [|by apply (pr_buf _ _ R)]. injection E as -> ->. cbn. rewrite EL in G2. by split_and!.
    + intros [|i] [|j] b c b' c' Hi Hj Hne q H1 H2; cbn in Hi, Hj; [done| | |].
      * injection Hi as <- <-. apply list_elem_of_lookup_2 in Hj. destruct (Hnew b' c' q Hj H2). exact H1.
      * injection Hj as <- <-. apply list_elem_of_lookup_2 in Hi. destruct (Hnew b c q Hi H1). exact H2.
      * assert (i ≠ j) by congruence. by eapply (pr_disjoint _ _ R i j b c b' c'); eauto.
    + intros q. rewrite (gr_covers _ _ _ _ _ _ G), (pr_covers _ _ R). unfold backing_len. split.
      * intros [[H1 H2] H3]. split; [done|]. intros b c [E|Hb]%elem_of_cons; [injection E as -> ->; exact H3|by eapply H2].
      * intros [H1 H2]. split; [split; [done|intros b c Hb; apply (H2 b c); by right]|]. apply (H2 (MkDmaBuf s len (dp_base p + s)) (slice (dp_mem p) s len)). by left.
  - destruct H as [-> H]. wp_step. split; [by destruct p|done].
Qed.

(** An element of a list with one entry dropped, in the whole list. *)
Lemma lookup_around {A : Type} (l1 : list A) x l2 k y :
  (l1 ++ l2) !! k = Some y → (l1 ++ x :: l2) !! (if decide (k < length l1)%nat then k else S k) = Some y.
Proof.
  intros Hk. case_decide as Hd; [rewrite lookup_app_l in Hk |- * by done; done|]. rewrite lookup_app_r in Hk by lia. rewrite lookup_app_r by lia.
  by replace (S k - length l1)%nat with (S (k - length l1)) by lia.
Qed.

Lemma pool_free_spec p l1 b c l2 :
  pool_repr p (l1 ++ (b, c) :: l2) → (fl_nfree (dp_fl p) < MAX_FREE_RANGES)%nat →
  wp (pool_free b) (λ _ p', pool_repr p' (l1 ++ l2) ∧ dp_mem p' = dp_mem p) p.
Proof.
  intros R Hf. assert ((b, c) ∈ l1 ++ (b, c) :: l2) as Hin by (apply elem_of_app; right; by left).
  destruct (pr_buf _ _ R b c Hin) as (B1 & B2 & B3 & B4 & B5). pose proof (pr_base _ _ R) as [C1 C2].
  unfold pool_free. wp_step. apply wp_ensure; [lia|]. wp_step. apply wp_on_fl. unfold is_full. wp_step. apply wp_ensure.
  { apply negb_true_iff, Nat.eqb_neq. cbn [dp_fl]. lia. }
  wp_step. apply wp_ensure.
  { unfold checked_add, backing_len. cbn [dp_mem]. unfold backing_len in *. rewrite decide_True by lia. lia. }
  assert (MkDmaPool (dp_mem p) (dp_base p) (dp_fl p) = p) as Ep by (by destruct p). rewrite Ep. wp_step. apply wp_on_fl.
  assert (taken (dp_fl p) (db_offset b) (db_len b)) as Ht. { intros q Hq [_ Hc]%(pr_covers _ _ R). by apply (Hc b c Hin). }
  eapply wp_mono; [apply (is_allocated_spec MAX_FREE_RANGES); try done; [apply R|by rewrite (pr_len _ _ R)]|]. cbv beta. intros t fl' [-> Hbt]. wp_step. apply wp_ensure; [by apply Hbt|].
  rewrite Ep. apply wp_on_fl. eapply wp_mono; [apply (free_spec MAX_FREE_RANGES); try done; [apply R|by rewrite (pr_len _ _ R)]|]. cbv beta.
  intros _ fl' (W' & L' & Cv). cbn [dp_mem]. split; [|done]. split; cbn [dp_fl dp_mem dp_base]; unfold backing_len in *; cbn [dp_mem].
  - done.
  - by rewrite L', (pr_len _ _ R).
  - done.
  - intros b' c' Hb. apply (pr_buf _ _ R). rewrite elem_of_app in Hb |- *. destruct Hb; [by left|right; by right].
  - intros i j b1 c1 b2 c2 Hi Hj Hne.
    eapply (pr_disjoint _ _ R); [apply lookup_around, Hi|apply lookup_around, Hj|]. repeat case_decide; lia.
  - intros q. rewrite Cv, (pr_covers _ _ R). unfold backing_len. split.
    + intros [[H1 H2]|H]; [split; [done|]; intros b' c' Hb; apply (H2 b' c'); rewrite elem_of_app in Hb |- *; destruct Hb; [by left|right; by right]|].
      split; [unfold in_buf in *; lia|]. intros b' c' Hb Hq. apply list_elem_of_lookup in Hb as [k Hk].
      assert ((l1 ++ (b, c) :: l2) !! length l1 = Some (b, c)) as Hm by (by apply list_lookup_middle).
      pose proof (lookup_around l1 (b, c) l2 k _ Hk) as Hk'.
      eapply (pr_disjoint _ _ R _ _ _ _ _ _ Hm Hk'); [case_decide; lia|exact H|exact Hq].
    + intros [H1 H2]. destruct (decide (in_buf b q)) as [Hq|Hq]; [by right|left]. split; [done|]. intros b' c' Hb. rewrite elem_of_app, elem_of_cons in Hb.
      destruct Hb as [Hb|[E|Hb]]; [apply (H2 b' c'), elem_of_app; by left|injection E as -> ->; exact Hq|apply (H2 b' c'), elem_of_app; by right].
Qed.

(** ** Reading and writing *)

Lemma wp_range_ptr p b off n Q :
  0 ≤ off → 0 ≤ n → off + n ≤ db_len b → 0 ≤ db_offset b → db_offset b + db_len b ≤ backing_len p → backing_len p ≤ U64_MAX →
  Q (db_offset b + off) p → wp (range_ptr b off n) Q p.
Proof.
  intros ? ? ? ? ? ? HQ. unfold range_ptr, checked_add. rewrite decide_True by lia. wp_step. cbn [unwrap]. wp_step. apply wp_ensure; [lia|].
  rewrite decide_True by lia. cbn [unwrap]. wp_step. apply wp_ensure; [lia|]. by apply wp_uadd; [lia|].
Qed.

(** Two intervals without a common point lie apart. *)
Lemma apart o l o' l' : 0 < l → 0 < l' → (∀ p, o ≤ p < o + l → ¬ o' ≤ p < o' + l') → o + l ≤ o' ∨ o' + l' ≤ o.
Proof. intros Hl Hl' H. specialize (H (Z.max o o')). lia. Qed.

Lemma pool_write_spec p live i b c off data :
  pool_repr p live → live !! i = Some (b, c) → 0 ≤ off → off + Z.of_nat (length data) ≤ db_len b →
  wp (pool_write b off data) (λ _ p', pool_repr p' (<[i := (b, splice c off data)]> live)) p.
Proof.
  intros R Hi Ho Hd. assert ((b, c) ∈ live) as Hin by (by eapply list_elem_of_lookup_2). destruct (pr_buf _ _ R b c Hin) as (B1 & B2 & B3 & B4 & B5).
  pose proof (pr_base _ _ R) as [C1 C2]. unfold pool_write. wp_step. apply wp_range_ptr; try lia. wp_step. apply wp_uadd; [lia|]. wp_step.
  apply wp_ensure; [lia|]. rewrite Z.add_0_r. wp_step. apply wp_uadd; [lia|]. wp_step. unfold backing_len in *.
  assert (length (splice (dp_mem p) (db_offset b + off) data) = length (dp_mem p)) as El by (apply splice_length; lia).
  assert (∀ x, x ∈ <[i := (b, splice c off data)]> live → ∃ c', (x.1, c') ∈ live ∧ x.2 = slice (splice (dp_mem p) (db_offset b + off) data) (db_offset x.1) (db_len x.1)) as Hup.
  { intros [b' c'] Hx. apply list_elem_of_lookup in Hx as [j Hj]. destruct (decide (j = i)) as [->|Hne].
    - rewrite list_lookup_insert_eq in Hj by (by eapply lookup_lt_Some). injection Hj as <- <-. exists c. split; [done|]. cbn. subst c.
      symmetry. apply slice_splice_in; lia.
    - rewrite list_lookup_insert_ne in Hj by done. exists c'. cbn. assert ((b', c') ∈ live) as Hin' by (by eapply list_elem_of_lookup_2).
      split; [done|]. destruct (pr_buf _ _ R b' c' Hin') as (D1 & D2 & D3 & D4 & D5). subst c'. symmetry. apply slice_splice_out; try lia.
      pose proof (pr_disjoint _ _ R i j _ _ _ _ Hi Hj ltac:(done)) as Hdj. unfold disjoint_bufs, in_buf in Hdj.
      destruct (apart _ _ _ _ B2 D2 Hdj); lia. }
  split; unfold backing_len; cbn [with_mem dp_fl dp_mem dp_base]; rewrite ?El; fold (backing_len p).
  - apply R.
  - apply R.
  - apply R.
  - intros b' c' Hx. destruct (Hup _ Hx) as (c0 & Hc0 & E). cbn in Hc0, E. destruct (pr_buf _ _ R b' c0 Hc0) as (D1 & D2 & D3 & D4 & D5). by split_and!.
  - intros j k b1 c1 b2 c2 Hj Hk Hne. assert (∀ j b1 c1, <[i := (b, splice c off data)]> live !! j = Some (b1, c1) → ∃ c', live !! j = Some (b1, c')) as Hsame.
    { intros j' b' c' Hx. destruct (decide (j' = i)) as [->|Hn']; [rewrite list_lookup_insert_eq in Hx by (by eapply lookup_lt_Some)|rewrite list_lookup_insert_ne in Hx by done; by eexists].
      injection Hx as <- <-. by exists c. }
    apply Hsame in Hj as [x Hj]. apply Hsame in Hk as [y Hk]. by eapply (pr_disjoint _ _ R j k).
  - intros q. rewrite (pr_covers _ _ R). split; intros [H1 H2]; (split; [done|]); intros b' c' Hx.
    + destruct (Hup _ Hx) as (c0 & Hc0 & _). by apply (H2 _ _ Hc0).
    + apply list_elem_of_lookup in Hx as [j Hj]. destruct (decide (j = i)) as [->|Hn'].
      * assert (b' = b) as -> by congruence. eapply H2, list_elem_of_lookup_2, list_lookup_insert_eq. by eapply lookup_lt_Some.
      * eapply H2, list_elem_of_lookup_2. by rewrite list_lookup_insert_ne.
Qed.

Lemma pool_read_spec p live b c off n :
  pool_repr p live → (b, c) ∈ live → 0 ≤ off → 0 ≤ n → off + n ≤ db_len b →
  wp (pool_read b off n) (λ r p', p' = p ∧ r = slice c off n) p ∧ wp (read_volatile b off n) (λ r p', p' = p ∧ r = slice c off n) p.
Proof.
  intros R Hin Ho Hn Hd. destruct (pr_buf _ _ R b c Hin) as (B1 & B2 & B3 & B4 & B5). pose proof (pr_base _ _ R) as [C1 C2]. split.
  - unfold pool_read, bytes. wp_step. apply wp_range_ptr; try lia. wp_step. apply wp_uadd; [lia|]. wp_step. apply wp_ensure; [lia|]. wp_step.
    split; [done|]. by rewrite Z.add_0_r, B5.
  - unfold read_volatile. wp_step. apply wp_range_ptr; try lia. wp_step. split; [done|]. subst c. apply list_eq. intros i. rewrite !slice_lookup.
    case_decide; [|done]. rewrite decide_True by lia. f_equal. lia.
Qed.

(** Whatever buffer it is given, forged or foreign, an access panics or stays in
    bounds; a free panics unless the region is wholly handed out. *)
Lemma checked_le_inv a b e : checked_add a b = Some e → e = a + b ∧ a + b ≤ U64_MAX.
Proof. unfold checked_add. case_decide; [|done]. by intros [= <-]. Qed.

Lemma pool_free_guard p b p' :
  wf MAX_FREE_RANGES (dp_fl p) → fl_len (dp_fl p) = backing_len p → 0 ≤ db_offset b → pool_free b p = Ret (tt, p') →
  0 < db_len b ∧ db_offset b + db_len b ≤ backing_len p ∧ taken (dp_fl p) (db_offset b) (db_len b).
Proof.
  intros W EL Ho. unfold pool_free. intros (? & p1 & [H1%Z.ltb_lt ->]%ensure_inv & H)%bind_inv. apply bind_inv in H as (f & p2 & Hf & H).
  assert (p2 = p) as -> by (injection Hf as _ <-; by destruct p). apply bind_inv in H as (? & p3 & [_ ->]%ensure_inv & H).
  apply bind_inv in H as (blen & p4 & [= <- <-] & H). apply bind_inv in H as (? & p5 & [Hc ->]%ensure_inv & H).
  destruct (checked_add (db_offset b) (db_len b)) as [e|] eqn:Ec; [|done]. apply checked_le_inv in Ec as [-> Hmax]. apply Z.leb_le in Hc.
  apply bind_inv in H as (t & p6 & Hti & H). apply bind_inv in H as (? & p7 & Hen & H). apply ensure_inv in Hen as [Ht0 _].
  assert (db_offset b + db_len b ≤ fl_len (dp_fl p)) as Hle by (by rewrite EL).
  pose proof (is_allocated_spec MAX_FREE_RANGES (dp_fl p) (db_offset b) (db_len b) W Ho H1 Hle) as Hs.
  apply wp_inv in Hs as (t' & fl' & E & -> & Ht). unfold on_fl in Hti. rewrite E in Hti. injection Hti as <- _. split_and!; [done|done|by apply Ht].
Qed.

Lemma DmaPool_new_spec mem base :
  0 ≤ base → base + Z.of_nat (length mem) ≤ U64_MAX → wp (DmaPool_new mem base) (λ p _, pool_repr p [] ∧ dp_mem p = mem ∧ dp_base p = base) tt.
Proof.
  intros Hb Hm. unfold DmaPool_new. wp_step. eapply wp_mono; [apply FreeList_new_spec; unfold MAX_FREE_RANGES; lia|]. cbv beta.
  intros fl u (W & L & C). wp_step. split; [|done]. split; try done; unfold backing_len; cbn [dp_mem dp_fl dp_base]; try done.
  - by intros b c ?%elem_of_nil.
  - intros q. rewrite C. split; [|by intros [? _]]. intros Hq. split; [done|]. by intros b c ?%elem_of_nil.
Qed.

(** ** A client of the pool *)

(** The operations a driver may run, with what it then knows of its buffers. *)
Inductive pool_step : DmaPool * list (DmaBuf * list Z) → DmaPool * list (DmaBuf * list Z) → Prop :=
| step_alloc p live len align b p' :
    0 ≤ len → pool_alloc len align p = Ret (Some b, p') →
    pool_step (p, live) (p', (b, slice (dp_mem p) (db_offset b) len) :: live)
| step_alloc_none p live len align p' :
    0 ≤ len → pool_alloc len align p = Ret (None, p') → pool_step (p, live) (p', live)
| step_free p l1 b c l2 p' :
    pool_free b p = Ret (tt, p') → pool_step (p, l1 ++ (b, c) :: l2) (p', l1 ++ l2)
| step_write p live i b c off data p' :
    live !! i = Some (b, c) → 0 ≤ off → pool_write b off data p = Ret (tt, p') →
    pool_step (p, live) (p', <[i := (b, splice c off data)]> live).

Lemma wp_of_ret {S A : Type} (m : comp S A) Q s a s' : wp m Q s → m s = Ret (a, s') → Q a s'.
Proof. unfold wp. by intros H E; rewrite E in H. Qed.

Lemma pool_alloc_inv p len align r p' : pool_alloc len align p = Ret (r, p') → is_power_of_two align = true.
Proof.
  unfold pool_alloc. intros (? & p1 & [_ ->]%ensure_inv & H)%bind_inv. apply bind_inv in H as (? & p2 & H & _). by apply ensure_inv in H as [? _].
Qed.

Lemma pool_free_inv p b p' : pool_free b p = Ret (tt, p') → fl_nfree (dp_fl p) ≠ MAX_FREE_RANGES.
Proof.
  unfold pool_free. intros (? & p1 & [H1 ->]%ensure_inv & H)%bind_inv. apply bind_inv in H as (f & p2 & Hf & H).
  apply bind_inv in H as (? & p3 & Hn & _). apply ensure_inv in Hn as [Hn _]. injection Hf as <- <-. by apply negb_true_iff, Nat.eqb_neq in Hn.
Qed.

Lemma pool_write_inv p b off data p' : pool_write b off data p = Ret (tt, p') → off + Z.of_nat (length data) ≤ db_len b.
Proof.
  unfold pool_write. intros (q & p1 & _ & H)%bind_inv. apply bind_inv in H as (e & p2 & He & H). apply bind_inv in H as (? & p3 & Hc & _).
  apply ensure_inv in Hc as [Hc%Z.leb_le _]. unfold uadd in He. case_decide; [|done]. by injection He as <- _.
Qed.

Lemma pool_step_repr s s' : pool_step s s' → pool_repr s.1 s.2 → pool_repr s'.1 s'.2.
Proof.
  intros [p live len align b p' Hl E|p live len align p' Hl E|p l1 b c l2 p' E|p live i b c off data p' Hi Ho E]; cbn; intros R.
  - pose proof (pool_alloc_spec p live len align R Hl (pool_alloc_inv _ _ _ _ _ E)) as H. by apply (wp_of_ret _ _ _ _ _ H) in E as (? & _).
  - pose proof (pool_alloc_spec p live len align R Hl (pool_alloc_inv _ _ _ _ _ E)) as H. by apply (wp_of_ret _ _ _ _ _ H) in E as [-> _].
  - pose proof (pool_free_inv _ _ _ E) as Hn. pose proof (wf_in _ _ (pr_wf _ _ R)) as Hin. unfold in_array in Hin. rewrite (wf_array _ _ (pr_wf _ _ R)) in Hin.
    assert (fl_nfree (dp_fl p) < MAX_FREE_RANGES)%nat as Hlt by lia.
    pose proof (pool_free_spec p l1 b c l2 R Hlt) as H. by apply (wp_of_ret _ _ _ _ _ H) in E as [? _].
  - pose proof (pool_write_spec p live i b c off data R Hi Ho (pool_write_inv _ _ _ _ _ E)) as H. by apply (wp_of_ret _ _ _ _ _ H) in E.
Qed.

(** ** The heap's arena *)

Record heap_ok (h : Heap) : Prop := {
  ho_size : 0 ≤ hp_size h ≤ U64_MAX;
  ho_fl fl : hp_fl h = Some fl → wf HEAP_RANGES fl ∧ fl_len fl = hp_size h;
}.

(** The free offsets of the arena. *)
Definition heap_free (h : Heap) (q : Z) : Prop :=
  match hp_fl h with Some fl => covers (exts fl) q | None => 0 ≤ q < hp_size h end.

(** The list an operation runs on. *)
Lemma wp_with_fl {A : Type} (m : comp FreeList A) Q h :
  heap_ok h →
  (∀ fl, wf HEAP_RANGES fl → fl_len fl = hp_size h → (∀ q, covers (exts fl) q ↔ heap_free h q) → (hp_fl h = Some fl ∨ hp_fl h = None) →
     wp m (λ a fl', Q a (MkHeap (hp_base h) (hp_size h) (Some fl'))) fl) →
  wp (with_fl m) Q h.
Proof.
  intros [Hs Hf] Hm. unfold wp, with_fl. unfold heap_free in Hm. destruct (hp_fl h) as [fl|] eqn:E.
  - destruct (Hf fl eq_refl) as [W L]. specialize (Hm fl W L ltac:(done) ltac:(by left)). unfold wp in Hm. by destruct (m fl) as [[]| |].
  - pose proof (FreeList_new_spec HEAP_RANGES (hp_size h) ltac:(unfold HEAP_RANGES; lia) Hs) as H. apply wp_inv in H as (fl & [] & -> & W & L & C).
    specialize (Hm fl W L C ltac:(by right)). unfold wp in Hm. by destruct (m fl) as [[]| |].
Qed.

(** The rounded size. *)
Definition rounded (size : Z) : Z := let n := Z.max size 1 in if n mod MIN_ALIGN =? 0 then n else n + (MIN_ALIGN - n mod MIN_ALIGN).

Lemma rounded_bound size : 0 ≤ size → 0 < rounded size ∧ size ≤ rounded size < Z.max size 1 + 16.
Proof. intros. unfold rounded, MIN_ALIGN. pose proof (Z.mod_pos_bound (Z.max size 1) 16 ltac:(lia)). cbv zeta. destruct (_ =? 0) eqn:E; lia. Qed.

Lemma wp_need_of size Q h : 0 ≤ size → size + 16 ≤ U64_MAX → Q (rounded size) h → wp (need_of size) Q h.
Proof.
  intros Hs Hm HQ. pose proof (rounded_bound size Hs) as Hb. unfold need_of, rounded in *. destruct (_ =? 0); [by wp_step|]. apply wp_uadd; [lia|done].
Qed.

Lemma heap_alloc_spec h size align :
  heap_ok h → 0 ≤ size → size + 16 ≤ U64_MAX → 0 < align →
  wp (heap_alloc size align) (λ r h', hp_base h' = hp_base h ∧ hp_size h' = hp_size h ∧ heap_ok h' ∧ match r with
    | Some a => let off := a - hp_base h in align ≤ MAX_ALIGN ∧ 0 ≤ off ∧ off + rounded size ≤ hp_size h ∧ off mod Z.max align MIN_ALIGN = 0 ∧
        (∀ q, off ≤ q < off + rounded size → heap_free h q) ∧
        (∀ q, heap_free h' q ↔ heap_free h q ∧ ¬ off ≤ q < off + rounded size)
    | None => ∀ q, heap_free h' q ↔ heap_free h q
    end) h.
Proof.
  intros Hh Hs Hm Ha. unfold heap_alloc. destruct (MAX_ALIGN <? align) eqn:E; [wp_step; by split_and!|apply Z.ltb_ge in E].
  pose proof (rounded_bound size Hs) as [Hr _]. wp_step. apply wp_need_of; [done|done|]. wp_step. apply wp_with_fl; [done|]. intros fl W L C _.
  eapply wp_mono; [apply alloc_spec; [done|lia|unfold MIN_ALIGN; lia]|]. cbv beta. intros [s|] fl' H.
  - destruct H as (_ & G & _). wp_step. destruct (gr_range _ _ _ _ _ _ G) as [G1 G2]. cbn [hp_base hp_size].
    replace (hp_base h + s - hp_base h) with s by lia. split_and!; try done; try lia.
    + split; [apply Hh|]. cbn. intros ? [= <-]. split; [apply G|]. by rewrite (gr_len _ _ _ _ _ _ G).
    + apply G.
    + intros q Hq. apply C. by apply (gr_free _ _ _ _ _ _ G).
    + intros q. unfold heap_free at 1. cbn. by rewrite (gr_covers _ _ _ _ _ _ G), C.
  - destruct H as [-> _]. wp_step. cbn [hp_base hp_size]. split_and!; try done. split; [apply Hh|]. cbn. intros ? [= <-]. done.
Qed.

Lemma heap_dealloc_spec h p size fl :
  heap_ok h → hp_fl h = Some fl → fl_nfree fl ≠ HEAP_RANGES → 0 ≤ size → size + 16 ≤ U64_MAX →
  let off := p - hp_base h in
  0 ≤ off → off + rounded size ≤ hp_size h → (∀ q, off ≤ q < off + rounded size → ¬ heap_free h q) →
  wp (heap_dealloc p size) (λ _ h', heap_ok h' ∧ ∀ q, heap_free h' q ↔ heap_free h q ∨ off ≤ q < off + rounded size) h.
Proof.
  cbv zeta. intros Hh E Hn Hs Hm Ho Hl Ht. pose proof (rounded_bound size Hs) as [Hr _]. destruct (ho_fl _ Hh fl E) as [W L].
  pose proof (wf_in _ _ W) as Hin. unfold in_array in Hin. rewrite (wf_array _ _ W) in Hin.
  assert (MkHeap (hp_base h) (hp_size h) (Some fl) = h) as Eh by (rewrite <-E; by destruct h).
  assert (taken fl (p - hp_base h) (rounded size)) as Htk by (intros q Hq; specialize (Ht q Hq); unfold heap_free in Ht; by rewrite E in Ht).
  unfold heap_dealloc. wp_step. apply wp_need_of; [done|done|]. wp_step. apply wp_usub; [lia|]. wp_step.
  assert (∀ {A : Type} (m : comp FreeList A) Q, wp m (λ a fl', Q a (MkHeap (hp_base h) (hp_size h) (Some fl'))) fl → wp (with_fl m) Q h) as Hrun.
  { intros A m Q Hw. unfold wp, with_fl. rewrite E. unfold wp in Hw. by destruct (m fl) as [[]| |]. }
  apply Hrun. unfold is_full. wp_step. rewrite Eh. apply wp_ensure; [by apply negb_true_iff, Nat.eqb_neq|]. wp_step. apply Hrun.
  eapply wp_mono; [apply (is_allocated_spec HEAP_RANGES); [done|lia|done|lia]|]. cbv beta. intros t fl' [-> Hb]. wp_step. rewrite Eh. apply wp_ensure; [by apply Hb|].
  apply Hrun. eapply wp_mono; [apply (free_spec HEAP_RANGES); [done|lia|lia|done|lia|done]|]. cbv beta. intros _ fl' (W' & L' & C'). split.
  - split; [apply Hh|]. cbn. intros ? [= <-]. split; [done|congruence].
  - intros q. unfold heap_free. cbn. rewrite E. apply C'.
Qed.
