(* ===== verification/AllocTheorems.v ===== *)
(** The properties of the allocators: the free list shared by the DMA pool and the user
    heap, and the pool's promise to its clients, each with an instance on a small pool. *)

From S2P Require Import Prelude Bytes Freelist DmaPool.

(** A pool of 128 bytes, 16 of them handed out. *)
Definition small_fl : FreeList := MkFreeList 128 ((16, 112) :: replicate 63 (0, 0)) 1.

Lemma small_fl_wf : wf 64 small_fl.
Proof. split; [done|unfold in_array; cbn; lia|cbn; unfold U64_MAX; lia|]. change (exts small_fl) with [(16, 112)]. cbn. lia. Qed.

(** C30: an allocation never panics. It hands out an aligned region inside the pool whose
    every byte was free, and takes exactly that region out of the free set; it serves
    the first extent that can hold the request. It is refused, changing nothing, only
    for an empty request or when no extent can hold it without a split the full array
    has no room for. *)
Theorem alloc_exact (N : nat) (fl : FreeList) (n align : Z) :
  wf N fl → 0 ≤ n → 0 < align →
  wp (alloc N n align) (λ r fl', match r with
    | Some s => 0 < n ∧ granted N fl n align s fl' ∧ allocated N n align fl [] (exts fl) (Some s) fl'
    | None => fl' = fl ∧ (n = 0 ∨ ∀ e, e ∈ exts fl → ¬ fits (full N fl) n align e)
    end) fl.
Proof. apply alloc_spec. Qed.

Lemma alloc_exact_witness :
  ∃ fl', alloc 64 32 64 small_fl = Ret (Some 64, fl') ∧ granted 64 small_fl 32 64 64 fl' ∧ exts fl' = [(16, 48); (96, 32)].
Proof.
  pose proof (alloc_exact 64 small_fl 32 64 small_fl_wf ltac:(lia) ltac:(lia)) as H.
  apply wp_inv in H as (r & fl' & E & H). assert (fst <$> (match alloc 64 32 64 small_fl with Ret (a, f) => Some (a, exts f) | _ => None end) = Some (Some 64)) as Hr
    by (vm_compute; reflexivity).
  assert (snd <$> (match alloc 64 32 64 small_fl with Ret (a, f) => Some (a, exts f) | _ => None end) = Some [(16, 48); (96, 32)]) as Hs
    by (vm_compute; reflexivity).
  rewrite E in Hr, Hs. cbn in Hr, Hs. injection Hr as ->. injection Hs as Hs. exists fl'. destruct H as (_ & G & _). by split_and!.
Defined.

(** Giving a region back right after it was handed out restores the free list extent
    for extent: the neighbours are merged again and the sorted gapped list of a free
    set is unique. The array must not be at its fragmentation cap. *)
Theorem alloc_free_restores (N : nat) (fl : FreeList) (n align s : Z) (fl1 : FreeList) :
  wf N fl → 0 ≤ n → 0 < align → alloc N n align fl = Ret (Some s, fl1) → (fl_nfree fl1 < N)%nat →
  wp (free s n) (λ _ fl2, wf N fl2 ∧ exts fl2 = exts fl) fl1.
Proof.
  intros W Hn Ha E Hf. pose proof (alloc_spec N fl n align W Hn Ha) as H. unfold wp in H. rewrite E in H. destruct H as (Hp & G & _).
  by eapply alloc_free_exts.
Qed.

Lemma alloc_free_restores_witness :
  ∃ fl1 fl2, alloc 64 32 64 small_fl = Ret (Some 64, fl1) ∧ free 64 32 fl1 = Ret (tt, fl2) ∧ exts fl2 = [(16, 112)].
Proof.
  assert (∃ fl1, alloc 64 32 64 small_fl = Ret (Some 64, fl1)) as [fl1 E] by (eexists; vm_compute; reflexivity). exists fl1.
  assert (fl_nfree fl1 < 64)%nat as Hf.
  { assert (match alloc 64 32 64 small_fl with Ret (_, f) => Nat.ltb (fl_nfree f) 64 | _ => false end = true) as H by (vm_compute; reflexivity).
    rewrite E in H. by apply Nat.ltb_lt in H. }
  pose proof (alloc_free_restores 64 small_fl 32 64 64 fl1 small_fl_wf ltac:(lia) ltac:(lia) E Hf) as H.
  apply wp_inv in H as ([] & fl2 & E2 & _ & H). exists fl2. split_and!; [done|done|]. exact H.
Defined.

(** C31: the buffers a driver holds are private: after any sequence of allocations, frees
    and writes from a fresh pool, the live buffers are pairwise disjoint, inside the
    backing and labelled with their device address; reading one, plainly or volatile,
    never panics and gives exactly what was last written through it, whatever was
    written through the others. *)
Theorem pool_buffers_private (mem : list Z) (base : Z) (p : DmaPool) (live : list (DmaBuf * list Z)) :
  0 ≤ base → base + Z.of_nat (length mem) ≤ U64_MAX →
  (∃ p0, DmaPool_new mem base tt = Ret (p0, tt) ∧ rtc pool_step (p0, []) (p, live)) →
  (∀ i j b c b' c', live !! i = Some (b, c) → live !! j = Some (b', c') → i ≠ j → disjoint_bufs b b') ∧
  (∀ b c, (b, c) ∈ live → 0 ≤ db_offset b ∧ db_offset b + db_len b ≤ backing_len p ∧ db_addr b = dp_base p + db_offset b) ∧
  (∀ b c off n, (b, c) ∈ live → 0 ≤ off → 0 ≤ n → off + n ≤ db_len b →
     pool_read b off n p = Ret (slice c off n, p) ∧ read_volatile b off n p = Ret (slice c off n, p)).
Proof.
  intros Hb Hm (p0 & E0 & Hr). pose proof (DmaPool_new_spec mem base Hb Hm) as H. unfold wp in H. rewrite E0 in H. destruct H as [R0 _].
  assert (pool_repr p live) as R.
  { change (pool_repr (p, live).1 (p, live).2). assert (pool_repr (p0, @nil (DmaBuf * list Z)).1 (p0, @nil (DmaBuf * list Z)).2) as H0 by exact R0. clear R0 E0.
    induction Hr as [|x y z Hst _ IH]; [done|]. apply IH. by eapply pool_step_repr. }
  split_and!.
  - apply (pr_disjoint _ _ R).
  - intros b c Hin. destruct (pr_buf _ _ R b c Hin) as (H1 & _ & H2 & H3 & _). done.
  - intros b c off n Hin Ho Hn Hl. destruct (pool_read_spec p live b c off n R Hin Ho Hn Hl) as [H1 H2].
    apply wp_inv in H1 as (r1 & p1 & -> & -> & ->). by apply wp_inv in H2 as (r2 & p2 & -> & -> & ->).
Qed.

(** Two buffers, a write through the second. *)
Definition buf_a : DmaBuf := MkDmaBuf 0 4 1000.
Definition buf_b : DmaBuf := MkDmaBuf 8 4 1008.

Lemma pool_buffers_private_witness :
  ∃ p, (∃ p0, DmaPool_new (replicate 32 0) 1000 tt = Ret (p0, tt) ∧ rtc pool_step (p0, []) (p, [(buf_b, [7; 7; 0; 0]); (buf_a, [0; 0; 0; 0])])) ∧
    pool_read buf_a 0 4 p = Ret ([0; 0; 0; 0], p) ∧ pool_read buf_b 0 2 p = Ret ([7; 7], p) ∧ disjoint_bufs buf_b buf_a.
Proof.
  eexists. assert (∀ P Q : Prop, P → (P → Q) → P ∧ Q) as both by tauto. apply both.
  - eexists. split; [reflexivity|]. eapply rtc_l. { eapply (step_alloc _ _ 4 8 buf_a); [lia|]. vm_compute. reflexivity. }
    eapply rtc_l. { eapply (step_alloc _ _ 4 8 buf_b); [lia|]. vm_compute. reflexivity. }
    eapply rtc_l. { eapply (step_write _ _ 0%nat buf_b [0; 0; 0; 0] 0 [7; 7]); [vm_compute; reflexivity|lia|]. vm_compute. reflexivity. }
    vm_compute. apply rtc_refl.
  - intros Hp. destruct (pool_buffers_private (replicate 32 0) 1000 _ _ ltac:(lia) ltac:(unfold U64_MAX; cbn; lia) Hp) as (H1 & _ & H3). split_and!.
    + apply (H3 buf_a [0; 0; 0; 0] 0 4); [right; by left|cbn; lia..].
    + apply (H3 buf_b [7; 7; 0; 0] 0 2); [by left|cbn; lia..].
    + by apply (H1 0%nat 1%nat _ _ _ _ eq_refl eq_refl).
Defined.
