(* ===== verification/Startup.v ===== *)
(** The startup block ([loader/src/startup.rs]): the first message on a child's bootstrap
    channel, with its named grants, arguments and environment. *)

From S2P Require Import Prelude Bytes.

(** ** Data *)
Definition MAGIC : list Z := [69; 85; 83; 49].
Definition MAX_BLOCK : Z := 256.
Definition NAME_STRING : Z := 0.
Definition MAX_GRANTS : Z := 8.
Definition MAX_ARGV : Z := 8.
Definition MAX_ENV : Z := 8.
Definition KIND_CAP_SLOT : Z := 1.
Definition KIND_STORAGE_HANDLE : Z := 2.
Definition KIND_REGION : Z := 3.
Definition KIND_SEED : Z := 4.

Inductive GrantKind : Type :=
| CapSlot (slot : Z)
| StorageHandle (handle : Z)
| Region (va len pa : Z)
| Seed (w0 w1 w2 w3 : Z).
Record Grant : Type := MkGrant { gr_name : Z; gr_kind : GrantKind }.

(** Fixed arenas with counts: only the first entries mean anything. *)
Record Startup : Type := MkStartup { su_grants : list Grant; su_ngrants : Z; su_argv : list (list Z); su_nargv : Z; su_env : list (list Z); su_nenv : Z }.
Inductive EncodeError : Type := TooManyEntries | Overflow.

Definition no_grant : Grant := MkGrant NAME_STRING (CapSlot 0).
Definition Startup_new : Startup :=
  MkStartup (replicate (Z.to_nat MAX_GRANTS) no_grant) 0 (replicate (Z.to_nat MAX_ARGV) []) 0 (replicate (Z.to_nat MAX_ENV) []) 0.

(** [self.grants[..self.ngrants]] and the like *)
Definition grants_of (s : Startup) : list Grant := take (Z.to_nat (su_ngrants s)) (su_grants s).
Definition argv_of (s : Startup) : list (list Z) := take (Z.to_nat (su_nargv s)) (su_argv s).
Definition env_of (s : Startup) : list (list Z) := take (Z.to_nat (su_nenv s)) (su_env s).

(** [PartialEq]: counts and meaningful prefixes. *)
Definition startup_eq (s t : Startup) : Prop :=
  su_ngrants s = su_ngrants t ∧ su_nargv s = su_nargv t ∧ su_nenv s = su_nenv t ∧ grants_of s = grants_of t ∧ argv_of s = argv_of t ∧ env_of s = env_of t.

(** ** Building *)
Definition push_grant (g : Grant) (s : Startup) : result Startup EncodeError :=
  if MAX_GRANTS <=? su_ngrants s then Err TooManyEntries
  else Ok (MkStartup (<[Z.to_nat (su_ngrants s) := g]> (su_grants s)) (su_ngrants s + 1) (su_argv s) (su_nargv s) (su_env s) (su_nenv s)).
Definition push_argv (x : list Z) (s : Startup) : result Startup EncodeError :=
  if MAX_ARGV <=? su_nargv s then Err TooManyEntries
  else Ok (MkStartup (su_grants s) (su_ngrants s) (<[Z.to_nat (su_nargv s) := x]> (su_argv s)) (su_nargv s + 1) (su_env s) (su_nenv s)).
Definition push_env (x : list Z) (s : Startup) : result Startup EncodeError :=
  if MAX_ENV <=? su_nenv s then Err TooManyEntries
  else Ok (MkStartup (su_grants s) (su_ngrants s) (su_argv s) (su_nargv s) (<[Z.to_nat (su_nenv s) := x]> (su_env s)) (su_nenv s + 1)).

Definition find_grant (s : Startup) (name : Z) : option GrantKind := gr_kind <$> List.find (λ g, gr_name g =? name) (grants_of s).
Definition cap_slot (s : Startup) (name : Z) : option Z :=
  k ← find_grant s name;
  match k with CapSlot slot => Some slot | _ => None end.
Definition storage_handle (s : Startup) (name : Z) : option Z :=
  k ← find_grant s name;
  match k with StorageHandle h => Some h | _ => None end.
Definition region (s : Startup) (name : Z) : option (Z * Z * Z) :=
  k ← find_grant s name;
  match k with Region va len pa => Some (va, len, pa) | _ => None end.
Definition region_va (s : Startup) (name : Z) : option Z := (λ r : Z * Z * Z, r.1.1) <$> region s name.

(** ** Decoding: a value and the cursor behind it, or nothing *)
Section cursor.
Context (buf : list Z).

Definition take_bytes (pos n : Z) : option (list Z * Z) :=
  match checked_add pos n with
  | None => None
  | Some end_ => if len_z buf <? end_ then None else Some (slice buf pos n, end_)
  end.
Definition take_u8 (pos : Z) : option (Z * Z) := if pos <? len_z buf then Some (buf !!! Z.to_nat pos, pos + 1) else None.
Definition take_u16 (pos : Z) : option (Z * Z) := '(b, end_) ← take_bytes pos 2; Some (le_value b, end_).
Definition take_u32 (pos : Z) : option (Z * Z) := '(b, end_) ← take_bytes pos 4; Some (le_value b, end_).
Definition take_u64 (pos : Z) : option (Z * Z) := '(b, end_) ← take_bytes pos 8; Some (le_value b, end_).

Definition take_kind (tag pos : Z) : option (GrantKind * Z) :=
  if tag =? KIND_CAP_SLOT then '(slot, q) ← take_u32 pos; Some (CapSlot slot, q)
  else if tag =? KIND_STORAGE_HANDLE then '(handle, q) ← take_u32 pos; Some (StorageHandle handle, q)
  else if tag =? KIND_REGION then
    '(va, q1) ← take_u64 pos;
    '(len, q2) ← take_u64 q1;
    '(pa, q3) ← take_u64 q2;
    Some (Region va len pa, q3)
  else if tag =? KIND_SEED then
    '(w0, q1) ← take_u64 pos;
    '(w1, q2) ← take_u64 q1;
    '(w2, q3) ← take_u64 q2;
    '(w3, q4) ← take_u64 q3;
    Some (Seed w0 w1 w2 w3, q4)
  else None.
Definition take_grant (pos : Z) : option (Grant * Z) :=
  '(name, p0) ← take_u8 pos;
  '(tag, p1) ← take_u8 p0;
  '(kind, p2) ← take_kind tag p1;
  Some (MkGrant name kind, p2).
Definition take_string (pos : Z) : option (list Z * Z) :=
  '(len, p1) ← take_u16 pos;
  take_bytes p1 len.
(** [while i < n { arena[i] = ..; i += 1 }] *)
Fixpoint fill {A : Type} (take_one : Z → option (A * Z)) (n i : nat) (arena : list A) (pos : Z) : option (list A * Z) :=
  match n with
  | O => Some (arena, pos)
  | S n' =>
      '(x, pos) ← take_one pos;
      fill take_one n' (S i) (<[i := x]> arena) pos
  end.

Definition startup_decode : option Startup :=
  if len_z buf <? 7 then None
  else if negb (bool_decide (slice buf 0 4 = MAGIC)) then None
  else
    let ngrants := buf !!! 4%nat in
    let nargv := buf !!! 5%nat in
    let nenv := buf !!! 6%nat in
    if (MAX_GRANTS <? ngrants) || (MAX_ARGV <? nargv) || (MAX_ENV <? nenv) then None
    else
      '(grants, pos) ← fill take_grant (Z.to_nat ngrants) 0 (replicate (Z.to_nat MAX_GRANTS) no_grant) 7;
      '(argv, pos) ← fill take_string (Z.to_nat nargv) 0 (replicate (Z.to_nat MAX_ARGV) []) pos;
      '(env, _) ← fill take_string (Z.to_nat nenv) 0 (replicate (Z.to_nat MAX_ENV) []) pos;
      Some (MkStartup grants ngrants argv nargv env nenv).
End cursor.

(** ** Encoding *)
Record Writer : Type := MkWriter { wr_buf : list Z; wr_pos : Z }.
Definition wr : Type := Writer → result unit EncodeError * Writer.
Definition wr_then (m n : wr) : wr := λ w, match m w with (Ok _, w) => n w | (Err e, w) => (Err e, w) end.
Definition wr_stop (e : EncodeError) : wr := λ w, (Err e, w).
Definition wr_skip : wr := λ w, (Ok tt, w).

Definition put_bytes (bytes : list Z) : wr := λ w,
  match checked_add (wr_pos w) (len_z bytes) with
  | None => (Err Overflow, w)
  | Some end_ => if len_z (wr_buf w) <? end_ then (Err Overflow, w) else (Ok tt, MkWriter (splice (wr_buf w) (wr_pos w) bytes) end_)
  end.
Definition wr_u8 (v : Z) : wr := put_bytes [v].
Definition wr_u16 (v : Z) : wr := put_bytes (u16_le v).
Definition wr_u32 (v : Z) : wr := put_bytes (u32_le v).
Definition wr_u64 (v : Z) : wr := put_bytes (u64_le v).
Fixpoint wr_each {A : Type} (l : list A) (f : A → wr) : wr := match l with [] => wr_skip | x :: l' => wr_then (f x) (wr_each l' f) end.

Definition wr_kind (k : GrantKind) : wr :=
  match k with
  | CapSlot slot => wr_then (wr_u8 KIND_CAP_SLOT) (wr_u32 slot)
  | StorageHandle handle => wr_then (wr_u8 KIND_STORAGE_HANDLE) (wr_u32 handle)
  | Region va len pa => wr_then (wr_u8 KIND_REGION) (wr_then (wr_u64 va) (wr_then (wr_u64 len) (wr_u64 pa)))
  | Seed w0 w1 w2 w3 => wr_then (wr_u8 KIND_SEED) (wr_then (wr_u64 w0) (wr_then (wr_u64 w1) (wr_then (wr_u64 w2) (wr_u64 w3))))
  end.
Definition wr_grant (g : Grant) : wr := wr_then (wr_u8 (gr_name g)) (wr_kind (gr_kind g)).
Definition wr_string (v : list Z) : wr := if 65535 <? len_z v then wr_stop TooManyEntries else wr_then (wr_u16 (len_z v)) (put_bytes v).

(** The bytes written, or why not, and the buffer as it is left. *)
Definition startup_encode (s : Startup) (out : list Z) : result Z EncodeError * list Z :=
  if (MAX_GRANTS <? su_ngrants s) || (MAX_ARGV <? su_nargv s) || (MAX_ENV <? su_nenv s) then (Err TooManyEntries, out)
  else
    let '(r, w) :=
      wr_then (put_bytes MAGIC) (wr_then (wr_u8 (su_ngrants s)) (wr_then (wr_u8 (su_nargv s)) (wr_then (wr_u8 (su_nenv s))
        (wr_then (wr_each (grants_of s) wr_grant) (wr_each (argv_of s ++ env_of s) wr_string))))) (MkWriter out 0) in
    match r with
    | Err e => (Err e, wr_buf w)
    | Ok _ => if MAX_BLOCK <? wr_pos w then (Err Overflow, wr_buf w) else (Ok (wr_pos w), wr_buf w)
    end.

(** ** What a block is, as bytes *)
Definition kind_bytes (k : GrantKind) : list Z :=
  match k with
  | CapSlot slot => KIND_CAP_SLOT :: u32_le slot
  | StorageHandle handle => KIND_STORAGE_HANDLE :: u32_le handle
  | Region va len pa => KIND_REGION :: u64_le va ++ u64_le len ++ u64_le pa
  | Seed w0 w1 w2 w3 => KIND_SEED :: u64_le w0 ++ u64_le w1 ++ u64_le w2 ++ u64_le w3
  end.
Definition grant_bytes (g : Grant) : list Z := gr_name g :: kind_bytes (gr_kind g).
Definition string_bytes (v : list Z) : list Z := u16_le (len_z v) ++ v.
Definition block_bytes (s : Startup) : list Z :=
  MAGIC ++ [su_ngrants s] ++ [su_nargv s] ++ [su_nenv s] ++ concat (grant_bytes <$> grants_of s) ++ concat (string_bytes <$> argv_of s ++ env_of s).

Definition kind_ok (k : GrantKind) : Prop :=
  match k with
  | CapSlot x | StorageHandle x => fits_in 4 x
  | Region va len pa => fits_in 8 va ∧ fits_in 8 len ∧ fits_in 8 pa
  | Seed w0 w1 w2 w3 => fits_in 8 w0 ∧ fits_in 8 w1 ∧ fits_in 8 w2 ∧ fits_in 8 w3
  end.
(** Counts within their arenas, fields within their types. *)
Record startup_ok (s : Startup) : Prop := {
  so_grants : 0 ≤ su_ngrants s ≤ MAX_GRANTS ∧ length (su_grants s) = Z.to_nat MAX_GRANTS;
  so_argv : 0 ≤ su_nargv s ≤ MAX_ARGV ∧ length (su_argv s) = Z.to_nat MAX_ARGV;
  so_env : 0 ≤ su_nenv s ≤ MAX_ENV ∧ length (su_env s) = Z.to_nat MAX_ENV;
  so_fields : Forall (λ g, kind_ok (gr_kind g)) (grants_of s);
}.

(** ** Writing *)

(** The writer appends [l] when it fits and refuses otherwise. *)
Definition writes (m : wr) (l : list Z) : Prop := ∀ w,
  0 ≤ wr_pos w ≤ len_z (wr_buf w) → len_z (wr_buf w) ≤ U64_MAX →
  if decide (wr_pos w + len_z l ≤ len_z (wr_buf w)) then
    ∃ buf, m w = (Ok tt, MkWriter buf (wr_pos w + len_z l)) ∧ length buf = length (wr_buf w) ∧
      take (Z.to_nat (wr_pos w + len_z l)) buf = take (Z.to_nat (wr_pos w)) (wr_buf w) ++ l ∧ drop (Z.to_nat (wr_pos w + len_z l)) buf = drop (Z.to_nat (wr_pos w + len_z l)) (wr_buf w)
  else ∃ e w', m w = (Err e, w').

Lemma len_app l1 l2 : len_z (l1 ++ l2) = len_z l1 + len_z l2.
Proof. unfold len_z. rewrite length_app. lia. Qed.
Lemma writes_skip : writes wr_skip [].
Proof.
  intros [buf pos] H1 H2. cbn in *. change (len_z []) with 0. rewrite decide_True by lia. exists buf. rewrite Z.add_0_r, app_nil_r. done.
Qed.
Lemma writes_put l : writes (put_bytes l) l.
Proof.
  intros [buf pos] H1 H2. cbn [wr_buf wr_pos] in *. unfold put_bytes, checked_add. cbn [wr_buf wr_pos]. pose proof (len_z_nonneg l) as Hl. case_decide as Hd.
  - rewrite decide_True by lia. rewrite (proj2 (Z.ltb_ge _ _)) by lia. eexists. split; [reflexivity|]. unfold len_z in *. split_and!; [by apply splice_length; lia| |]; unfold splice.
    + rewrite take_app_ge, length_take by (rewrite length_take; lia). f_equal. rewrite take_app_le by lia. by apply take_ge; lia.
    + rewrite drop_app_ge, length_take by (rewrite length_take; lia). rewrite drop_app_ge by lia. rewrite drop_drop. f_equal. lia.
  - case_decide; [|by eexists _, _]. rewrite (proj2 (Z.ltb_lt _ _)) by lia. by eexists _, _.
Qed.
Lemma writes_then m1 m2 l1 l2 : writes m1 l1 → writes m2 l2 → writes (wr_then m1 m2) (l1 ++ l2).
Proof.
  unfold writes. intros Hm1 Hm2 w H1 H2. specialize (Hm1 w H1 H2). unfold wr_then. rewrite len_app. pose proof (len_z_nonneg l1). pose proof (len_z_nonneg l2). destruct (decide (wr_pos w + (len_z l1 + len_z l2) ≤ len_z (wr_buf w))) as [Hd|Hd].
  - rewrite decide_True in Hm1 by lia. destruct Hm1 as (b1 & -> & L1 & T1 & D1). specialize (Hm2 (MkWriter b1 (wr_pos w + len_z l1))). cbn [wr_buf wr_pos] in Hm2. assert (len_z b1 = len_z (wr_buf w)) as EL by (unfold len_z; lia). rewrite EL in Hm2.
    rewrite decide_True in Hm2 by lia. destruct Hm2 as (b2 & -> & L2 & T2 & D2); [lia|lia|]. exists b2. rewrite Z.add_assoc. split_and!; [done|congruence| |].
    + by rewrite T2, T1, app_assoc.
    + rewrite D2. replace (Z.to_nat (wr_pos w + len_z l1 + len_z l2)) with (Z.to_nat (wr_pos w + len_z l1) + Z.to_nat (len_z l2))%nat by lia. by rewrite <-!drop_drop, D1.
  - case_decide as Hd1; [|destruct Hm1 as (e & w' & ->); by eexists _, _]. destruct Hm1 as (b1 & -> & L1 & T1 & D1). specialize (Hm2 (MkWriter b1 (wr_pos w + len_z l1))). cbn [wr_buf wr_pos] in Hm2. assert (len_z b1 = len_z (wr_buf w)) as EL by (unfold len_z; lia). rewrite EL in Hm2.
    rewrite decide_False in Hm2 by lia. apply Hm2; lia.
Qed.
Lemma writes_each {A : Type} (l : list A) (f : A → wr) (enc : A → list Z) : (∀ x, x ∈ l → writes (f x) (enc x)) → writes (wr_each l f) (concat (enc <$> l)).
Proof.
  induction l as [|x l IH]; intros Hf; [apply writes_skip|]. cbn [wr_each fmap list_fmap concat]. apply writes_then; [apply Hf; by left|]. apply IH. intros y Hy. apply Hf. by right.
Qed.
Lemma writes_grant g : writes (wr_grant g) (grant_bytes g).
Proof.
  unfold wr_grant, grant_bytes. apply (writes_then _ _ [gr_name g]); [apply writes_put|]. destruct (gr_kind g) as [x|x|va len pa|w0 w1 w2 w3]; cbn [wr_kind kind_bytes].
  - apply (writes_then _ _ [_]); apply writes_put.
  - apply (writes_then _ _ [_]); apply writes_put.
  - apply (writes_then _ _ [_]); [apply writes_put|]. repeat (apply writes_then; [apply writes_put|]). apply writes_put.
  - apply (writes_then _ _ [_]); [apply writes_put|]. repeat (apply writes_then; [apply writes_put|]). apply writes_put.
Qed.
(** A string too long for its length field is also too long for the block. *)
Lemma writes_string v : len_z v ≤ 65535 → writes (wr_string v) (string_bytes v).
Proof. intros H. unfold wr_string. rewrite (proj2 (Z.ltb_ge _ _)) by lia. apply writes_then; apply writes_put. Qed.

Lemma string_le v l : v ∈ l → len_z v ≤ len_z (concat (string_bytes <$> l)).
Proof.
  induction l as [|x l IH]; [by intros ?%elem_of_nil|]. cbn [fmap list_fmap concat]. rewrite len_app. pose proof (len_z_nonneg (string_bytes x)). pose proof (len_z_nonneg (concat (string_bytes <$> l))). intros [->|Hin]%elem_of_cons; [|apply IH in Hin; lia].
  assert (len_z x ≤ len_z (string_bytes x)); [|lia]. unfold string_bytes. rewrite len_app. pose proof (len_z_nonneg (u16_le (len_z x))). lia.
Qed.
Lemma then_stops m1 m2 : (∀ w, ∃ e w', m2 w = (Err e, w')) → ∀ w, ∃ e w', wr_then m1 m2 w = (Err e, w').
Proof. intros H w. unfold wr_then. destruct (m1 w) as [[u|e] w1]; [apply H|by eexists _, _]. Qed.
Lemma each_stops l : (∃ v, v ∈ l ∧ 65535 < len_z v) → ∀ w, ∃ e w', wr_each l wr_string w = (Err e, w').
Proof.
  induction l as [|x l IH]; intros (v & Hin & Hv); [by apply elem_of_nil in Hin|]. intros w. cbn [wr_each]. unfold wr_then. destruct (wr_string x w) as [[u|e] w1] eqn:E; [|by eexists _, _].
  apply elem_of_cons in Hin as [->|Hin]; [|apply IH; by exists v]. unfold wr_string in E. rewrite (proj2 (Z.ltb_lt _ _)) in E by lia. done.
Qed.

(** Encoding succeeds exactly when the block fits the message and the buffer. *)
Lemma encode_spec s out :
  startup_ok s → len_z out ≤ U64_MAX →
  if decide (len_z (block_bytes s) ≤ MAX_BLOCK ∧ len_z (block_bytes s) ≤ len_z out) then
    ∃ out', startup_encode s out = (Ok (len_z (block_bytes s)), out') ∧ length out' = length out ∧
      take (Z.to_nat (len_z (block_bytes s))) out' = block_bytes s ∧ drop (Z.to_nat (len_z (block_bytes s))) out' = drop (Z.to_nat (len_z (block_bytes s))) out
  else ∃ e out', startup_encode s out = (Err e, out').
Proof.
  intros [[G1 G2] [A1 A2] [E1 E2] _] Ho. unfold startup_encode. rewrite !(proj2 (Z.ltb_ge _ _)) by lia. cbn [orb].
  set (m := wr_then (put_bytes MAGIC) _). destruct (decide (Exists (λ v, 65535 < len_z v) (argv_of s ++ env_of s))) as [Hx|Hx].
  - apply Exists_exists in Hx as (v & Hin & Hv). rewrite decide_False.
    + assert (∀ w, ∃ e w', m w = (Err e, w')) as Hm by (repeat apply then_stops; apply each_stops; by exists v). destruct (Hm (MkWriter out 0)) as (e & w & ->). by eexists _, _.
    + intros [Hb _]. unfold block_bytes in Hb. rewrite !len_app in Hb. pose proof (string_le v _ Hin) as Hs. pose proof (len_z_nonneg MAGIC). pose proof (len_z_nonneg (concat (grant_bytes <$> grants_of s))). change (len_z [su_ngrants s]) with 1 in Hb. change (len_z [su_nargv s]) with 1 in Hb. change (len_z [su_nenv s]) with 1 in Hb. unfold MAX_BLOCK in Hb. lia.
  - assert (writes m (block_bytes s)) as Hm.
    { unfold m, block_bytes. repeat (apply writes_then; [apply writes_put|]). apply writes_then; apply writes_each; [intros g _; apply writes_grant|]. intros v Hv. apply writes_string. destruct (decide (65535 < len_z v)); [|lia]. destruct Hx. apply Exists_exists. by exists v. }
    specialize (Hm (MkWriter out 0)). cbn [wr_buf wr_pos] in Hm. rewrite Z.add_0_l in Hm. specialize (Hm ltac:(pose proof (len_z_nonneg out); lia) Ho). destruct (decide (len_z (block_bytes s) ≤ len_z out)) as [Hl|Hl].
    + destruct Hm as (buf & -> & L & T & Dr). cbn [wr_pos wr_buf]. destruct (decide (len_z (block_bytes s) ≤ MAX_BLOCK)).
      * rewrite decide_True by done. rewrite (proj2 (Z.ltb_ge _ _)) by lia. exists buf. done.
      * rewrite decide_False by tauto. rewrite (proj2 (Z.ltb_lt _ _)) by lia. by eexists _, _.
    + destruct Hm as (e & w & ->). rewrite decide_False by tauto. by eexists _, _.
Qed.

(** ** Reading *)
Section takes.
Context (buf : list Z) (Hbuf : len_z buf ≤ U64_MAX).

Definition holds_at (pos : Z) (l : list Z) : Prop := 0 ≤ pos ≤ len_z buf ∧ ∃ rest, drop (Z.to_nat pos) buf = l ++ rest.
Lemma holds_bound pos l : holds_at pos l → pos + len_z l ≤ len_z buf.
Proof using Type. intros [Hp [r Hr]]. apply (f_equal length) in Hr. rewrite length_drop, length_app in Hr. unfold len_z in *. lia. Qed.
Lemma holds_split pos l1 l2 : holds_at pos (l1 ++ l2) → holds_at pos l1 ∧ holds_at (pos + len_z l1) l2.
Proof using Type.
  intros H. pose proof (holds_bound _ _ H) as Hb. rewrite len_app in Hb. pose proof (len_z_nonneg l1). pose proof (len_z_nonneg l2). destruct H as [Hp [r Hr]]. rewrite <-app_assoc in Hr. split; (split; [lia|]); [by eexists|]. exists r.
  replace (Z.to_nat (pos + len_z l1)) with (Z.to_nat pos + length l1)%nat by (unfold len_z; lia). by rewrite <-drop_drop, Hr, drop_app_length.
Qed.
(** [t] takes [a] where [l] stands. *)
Definition takes {A : Type} (t : Z → option (A * Z)) (l : list Z) (a : A) : Prop := ∀ pos, holds_at pos l → t pos = Some (a, pos + len_z l).

Lemma reads_bytes l : ∀ pos, holds_at pos l → take_bytes buf pos (len_z l) = Some (l, pos + len_z l).
Proof using Hbuf.
  intros pos H. pose proof (holds_bound _ _ H). pose proof (len_z_nonneg l). destruct H as [Hp [r Hr]]. unfold take_bytes, checked_add. rewrite decide_True by lia. rewrite (proj2 (Z.ltb_ge _ _)) by lia. unfold slice. rewrite Hr. unfold len_z. by rewrite Nat2Z.id, take_app_length.
Qed.
Lemma taking_u8 v : takes (take_u8 buf) [v] v.
Proof using Type.
  intros pos H. pose proof (holds_bound _ _ H) as Hb. change (len_z [v]) with 1 in *. unfold take_u8. rewrite (proj2 (Z.ltb_lt _ _)) by lia. destruct H as [_ [r Hr]]. do 2 f_equal. apply list_lookup_total_correct. rewrite <-(Nat.add_0_r (Z.to_nat pos)), <-lookup_drop, Hr. done.
Qed.
Lemma taking_le n v pos : fits_in n v → holds_at pos (le_bytes n v) → take_bytes buf pos (Z.of_nat n) = Some (le_bytes n v, pos + Z.of_nat n) ∧ le_value (le_bytes n v) = v.
Proof using Hbuf.
  intros Hf H. split; [|by apply le_value_bytes]. pose proof (reads_bytes _ _ H) as E. unfold len_z in E. by rewrite le_bytes_length in E.
Qed.
Lemma taking_u16 v : fits_in 2 v → takes (take_u16 buf) (u16_le v) v.
Proof using Hbuf. intros Hf pos H. destruct (taking_le 2 v pos Hf H) as [E Ev]. unfold take_u16. change 2 with (Z.of_nat 2). rewrite E. cbn [mbind option_bind]. by rewrite Ev. Qed.
Lemma taking_u32 v : fits_in 4 v → takes (take_u32 buf) (u32_le v) v.
Proof using Hbuf. intros Hf pos H. destruct (taking_le 4 v pos Hf H) as [E Ev]. unfold take_u32. change 4 with (Z.of_nat 4). rewrite E. cbn [mbind option_bind]. by rewrite Ev. Qed.
Lemma taking_u64 v : fits_in 8 v → takes (take_u64 buf) (u64_le v) v.
Proof using Hbuf. intros Hf pos H. destruct (taking_le 8 v pos Hf H) as [E Ev]. unfold take_u64. change 8 with (Z.of_nat 8). rewrite E. cbn [mbind option_bind]. by rewrite Ev. Qed.
(** A field, then the rest. *)
Lemma taking_then {A B : Type} (t : Z → option (A * Z)) (f : A → Z → option (B * Z)) l1 l2 a b : takes t l1 a → takes (f a) l2 b → takes (λ pos, '(x, q) ← t pos; f x q) (l1 ++ l2) b.
Proof using Type. intros Ht Hf pos [H1 H2]%holds_split. rewrite (Ht pos H1). cbn [mbind option_bind]. rewrite (Hf _ H2), len_app. do 2 f_equal. lia. Qed.
Lemma taking_ret {A : Type} (a : A) : takes (λ pos, Some (a, pos)) [] a.
Proof using Type. intros pos _. change (len_z []) with 0. by rewrite Z.add_0_r. Qed.

Lemma reads_kind k : kind_ok k → ∃ tag body, kind_bytes k = tag :: body ∧ takes (take_kind buf tag) body k.
Proof using Hbuf.
  destruct k as [x|x|va len pa|w0 w1 w2 w3]; cbn [kind_ok kind_bytes]; intros Hk; eexists _, _; (split; [reflexivity|]); unfold take_kind; cbn [Z.eqb Pos.eqb KIND_CAP_SLOT KIND_STORAGE_HANDLE KIND_REGION KIND_SEED].
  - rewrite <-(app_nil_r (u32_le x)). eapply (taking_then (take_u32 buf) (λ slot q, Some (CapSlot slot, q))); [by apply taking_u32|apply taking_ret].
  - rewrite <-(app_nil_r (u32_le x)). eapply (taking_then (take_u32 buf) (λ h q, Some (StorageHandle h, q))); [by apply taking_u32|apply taking_ret].
  - destruct Hk as (H1 & H2 & H3). rewrite <-(app_nil_r (u64_le pa)).
    eapply (taking_then (take_u64 buf) (λ va q1, '(len, q2) ← take_u64 buf q1; '(pa, q3) ← take_u64 buf q2; Some (Region va len pa, q3))); [by apply taking_u64|].
    eapply (taking_then (take_u64 buf) (λ len q2, '(pa, q3) ← take_u64 buf q2; Some (Region va len pa, q3))); [by apply taking_u64|].
    eapply (taking_then (take_u64 buf) (λ pa q3, Some (Region va len pa, q3))); [by apply taking_u64|apply taking_ret].
  - destruct Hk as (H1 & H2 & H3 & H4). rewrite <-(app_nil_r (u64_le w3)).
    eapply (taking_then (take_u64 buf) (λ w0 q1, '(w1, q2) ← take_u64 buf q1; '(w2, q3) ← take_u64 buf q2; '(w3, q4) ← take_u64 buf q3; Some (Seed w0 w1 w2 w3, q4))); [by apply taking_u64|].
    eapply (taking_then (take_u64 buf) (λ w1 q2, '(w2, q3) ← take_u64 buf q2; '(w3, q4) ← take_u64 buf q3; Some (Seed w0 w1 w2 w3, q4))); [by apply taking_u64|].
    eapply (taking_then (take_u64 buf) (λ w2 q3, '(w3, q4) ← take_u64 buf q3; Some (Seed w0 w1 w2 w3, q4))); [by apply taking_u64|].
    eapply (taking_then (take_u64 buf) (λ w3 q4, Some (Seed w0 w1 w2 w3, q4))); [by apply taking_u64|apply taking_ret].
Qed.
Lemma reads_grant g : kind_ok (gr_kind g) → takes (take_grant buf) (grant_bytes g) g.
Proof using Hbuf.
  intros (tag & body & E & Hk)%reads_kind. unfold grant_bytes. rewrite E. destruct g as [name kind]. cbn [gr_name gr_kind] in *. change (name :: tag :: body) with ([name] ++ [tag] ++ body).
  eapply (taking_then (take_u8 buf) (λ name p0, '(tag, p1) ← take_u8 buf p0; '(kind, p2) ← take_kind buf tag p1; Some (MkGrant name kind, p2))); [apply taking_u8|].
  eapply (taking_then (take_u8 buf) (λ tag p1, '(kind, p2) ← take_kind buf tag p1; Some (MkGrant name kind, p2))); [apply taking_u8|].
  rewrite <-(app_nil_r body). eapply (taking_then (take_kind buf tag) (λ kind p2, Some (MkGrant name kind, p2))); [done|apply taking_ret].
Qed.
Lemma reads_string v : len_z v ≤ 65535 → takes (take_string buf) (string_bytes v) v.
Proof using Hbuf.
  intros Hv. eapply (taking_then (take_u16 buf) (λ len p1, take_bytes buf p1 len)); [|intros pos; apply reads_bytes]. apply taking_u16. pose proof (len_z_nonneg v). split; [lia|]. change (256 ^ Z.of_nat 2) with 65536. lia.
Qed.
Lemma reads_fill {A : Type} (t : Z → option (A * Z)) (enc : A → list Z) xs :
  (∀ x, x ∈ xs → takes t (enc x) x) → ∀ i arena pos, (i + length xs ≤ length arena)%nat → holds_at pos (concat (enc <$> xs)) →
  ∃ arena', fill t (length xs) i arena pos = Some (arena', pos + len_z (concat (enc <$> xs))) ∧ length arena' = length arena ∧ take (i + length xs) arena' = take i arena ++ xs.
Proof using Type.
  induction xs as [|x xs IH]; intros Ht i arena pos Hi H; cbn [fill length].
  { exists arena. change (len_z (concat (enc <$> []))) with 0. rewrite Z.add_0_r, Nat.add_0_r, app_nil_r. done. }
  cbn [fmap list_fmap concat] in H. apply holds_split in H as [H1 H2]. rewrite (Ht x (list_elem_of_here _ _) pos H1). cbn [mbind option_bind]. cbn [length] in Hi.
  destruct (IH (λ y Hy, Ht y (list_elem_of_further _ _ _ Hy)) (S i) (<[i:=x]> arena) _ ltac:(rewrite length_insert; lia) H2) as (arena' & E & L & T). exists arena'. split_and!.
  - rewrite E. cbn [fmap list_fmap concat]. rewrite len_app. do 2 f_equal. lia.
  - by rewrite L, length_insert.
  - replace (i + S (length xs))%nat with (S i + length xs)%nat by lia. rewrite T, (take_S_r _ i x) by (apply list_lookup_insert_eq; lia). rewrite take_insert_ge by lia. by rewrite <-app_assoc.
Qed.
End takes.

(** Decoding anything that starts with a block gives the block back. *)
Lemma block_decode_spec s tail : startup_ok s → len_z (block_bytes s) ≤ MAX_BLOCK → len_z (block_bytes s ++ tail) ≤ U64_MAX → ∃ s', startup_decode (block_bytes s ++ tail) = Some s' ∧ startup_ok s' ∧ startup_eq s' s.
Proof.
  intros V Hb Hl. set (buf := block_bytes s ++ tail) in *. pose proof V as [[G1 G2] [A1 A2] [E1 E2] F].
  assert (holds_at buf 0 (block_bytes s)) as H0. { split; [split; [lia|apply len_z_nonneg]|]. by exists tail. }
  assert (∀ v, v ∈ argv_of s ++ env_of s → len_z v ≤ 65535) as Hstr.
  { intros v Hv%string_le. pose proof (holds_bound _ _ _ H0) as Hbd. unfold block_bytes, MAX_BLOCK in *. rewrite !len_app in Hb. pose proof (len_z_nonneg MAGIC). pose proof (len_z_nonneg [su_ngrants s]). pose proof (len_z_nonneg [su_nargv s]). pose proof (len_z_nonneg [su_nenv s]). pose proof (len_z_nonneg (concat (grant_bytes <$> grants_of s))). lia. }
  unfold block_bytes in H0. apply holds_split in H0 as [_ H1]. apply holds_split in H1 as [_ H2]. apply holds_split in H2 as [_ H3]. apply holds_split in H3 as [_ H4]. change (0 + len_z MAGIC + len_z [su_ngrants s] + len_z [su_nargv s] + len_z [su_nenv s]) with 7 in H4.
  apply holds_split in H4 as [Hg Hs]. rewrite fmap_app, concat_app in Hs. apply holds_split in Hs as [Ha He].
  destruct (reads_fill buf (take_grant buf) grant_bytes (grants_of s)) with (i := 0%nat) (arena := replicate (Z.to_nat MAX_GRANTS) no_grant) (pos := 7) as (ga & Eg & Lg & Tg); [|rewrite length_replicate; unfold grants_of; rewrite length_take; lia|done|].
  { intros g Hin. apply reads_grant; [done|]. rewrite Forall_forall in F. by apply F. }
  destruct (reads_fill buf (take_string buf) string_bytes (argv_of s)) with (i := 0%nat) (arena := replicate (Z.to_nat MAX_ARGV) ([] : list Z)) (pos := 7 + len_z (concat (grant_bytes <$> grants_of s))) as (aa & Ea & La & Ta); [|rewrite length_replicate; unfold argv_of; rewrite length_take; lia|done|].
  { intros v Hin. apply reads_string; [done|]. apply Hstr, elem_of_app. by left. }
  destruct (reads_fill buf (take_string buf) string_bytes (env_of s)) with (i := 0%nat) (arena := replicate (Z.to_nat MAX_ENV) ([] : list Z)) (pos := 7 + len_z (concat (grant_bytes <$> grants_of s)) + len_z (concat (string_bytes <$> argv_of s))) as (ea & Ee & Le & Te); [|rewrite length_replicate; unfold env_of; rewrite length_take; lia|done|].
  { intros v Hin. apply reads_string; [done|]. apply Hstr, elem_of_app. by right. }
  assert (length (grants_of s) = Z.to_nat (su_ngrants s)) as Ng by (unfold grants_of; rewrite length_take; lia). assert (length (argv_of s) = Z.to_nat (su_nargv s)) as Na by (unfold argv_of; rewrite length_take; lia). assert (length (env_of s) = Z.to_nat (su_nenv s)) as Ne by (unfold env_of; rewrite length_take; lia).
  cbn [Nat.add take app] in Tg, Ta, Te. rewrite Ng in Eg, Tg. rewrite Na in Ea, Ta. rewrite Ne in Ee, Te. rewrite length_replicate in Lg. rewrite length_replicate in La. rewrite length_replicate in Le.
  exists (MkStartup ga (su_ngrants s) aa (su_nargv s) ea (su_nenv s)). split; [|split].
  - unfold startup_decode. rewrite (proj2 (Z.ltb_ge _ _)) by (destruct Hg as [[_ ?] _]; lia). change (slice buf 0 4) with MAGIC. rewrite bool_decide_eq_true_2 by done. change (buf !!! 4%nat) with (su_ngrants s). change (buf !!! 5%nat) with (su_nargv s). change (buf !!! 6%nat) with (su_nenv s).
    cbv zeta. rewrite !(proj2 (Z.ltb_ge _ _)) by lia. cbn [negb orb]. rewrite Eg. cbn [mbind option_bind]. rewrite Ea. cbn [mbind option_bind]. by rewrite Ee.
  - split; cbn; [done..|]. unfold grants_of at 1. cbn. by rewrite Tg.
  - unfold startup_eq, grants_of at 1, argv_of at 1, env_of at 1. cbn. by rewrite Tg, Ta, Te.
Qed.
