(* ===== verification/Loader.v ===== *)
(** The loader ([loader/src/elf.rs], [spawn.rs]): the ELF decoder, the page geometry of a
    segment, and the system calls that build a child's address space from an image. *)

From S2P Require Import Prelude Bytes.

(** ** Data *)
Definition PF_X : Z := 1.
Definition PF_W : Z := 2.
Definition PF_R : Z := 4.
Definition PAGE_SIZE : Z := 4096.
Definition PAGE_LOW : Z := PAGE_SIZE - 1.
Record Segment : Type := MkSeg { sg_vaddr : Z; sg_offset : Z; sg_filesz : Z; sg_memsz : Z; sg_flags : Z }.
Record PageLayout : Type := MkLayout { pl_va_start : Z; pl_va_end : Z; pl_pages : Z; pl_page_offset : Z }.
Inductive ElfError : Type := Truncated | BadMagic | NotElf64Le | NotAarch64 | NotExecutable | TooManySegments | BadSegment.
Definition MAX_SEGMENTS : Z := 8.
Record Image : Type := MkImage { im_entry : Z; im_segments : list Segment; im_nsegments : Z; im_bytes : list Z }.
Definition no_segment : Segment := MkSeg 0 0 0 0 0.

(** ** Results *)
Definition elf (A : Type) : Type := outcome (result A ElfError).
#[global] Instance elf_ret : MRet elf := λ A a, Ret (Ok a).
#[global] Instance elf_bind : MBind elf := λ A B f m,
  match m with Ret (Ok a) => f a | Ret (Err e) => Ret (Err e) | Panic => Panic | NoFuel => NoFuel end.
Definition elf_fail {A : Type} (e : ElfError) : elf A := Ret (Err e).

(** [le_bytes::read_u16_le] and the like: an index out of range panics. *)
Definition read_le (n : nat) (buf : list Z) (off : Z) : elf Z :=
  if decide (0 ≤ off ∧ off + Z.of_nat n ≤ len_z buf) then Ret (Ok (le_value (slice buf off (Z.of_nat n)))) else Panic.
Definition read_u16_at := read_le 2.
Definition read_u32_at := read_le 4.
Definition read_u64_at := read_le 8.
(** [a - b], checked *)
Definition elf_sub (a b : Z) : elf Z := if decide (b ≤ a) then mret (a - b) else Panic.
Definition checked (o : option Z) (e : ElfError) : elf Z := match o with Some x => mret x | None => elf_fail e end.

(** ** Page geometry *)
Definition page_layout (s : Segment) : elf PageLayout :=
  let va_start := Z.land (sg_vaddr s) (Z.lnot PAGE_LOW) in
  sum ← checked (checked_add (sg_vaddr s) (sg_memsz s)) BadSegment;
  e ← checked (checked_add sum PAGE_LOW) BadSegment;
  let va_end := Z.land e (Z.lnot PAGE_LOW) in
  span ← elf_sub va_end va_start;
  page_offset ← elf_sub (sg_vaddr s) va_start;
  mret (MkLayout va_start va_end (span / PAGE_SIZE) page_offset).

(** ** Parsing *)
Definition read_segment (bytes : list Z) (ph : Z) : elf Segment :=
  flags ← read_u32_at bytes (ph + 4);
  offset ← read_u64_at bytes (ph + 8);
  vaddr ← read_u64_at bytes (ph + 16);
  filesz ← read_u64_at bytes (ph + 32);
  memsz ← read_u64_at bytes (ph + 40);
  mret (MkSeg vaddr offset filesz memsz flags).

(** A loadable segment: refused, skipped when it has no memory, or recorded. *)
Definition accept_segment (bytes : list Z) (seg : Segment) (segments : list Segment) (n : Z) : elf (list Segment * Z) :=
  match page_layout seg with
  | Panic => Panic
  | NoFuel => NoFuel
  | Ret pl =>
      end_ ← checked (checked_add (sg_offset seg) (sg_filesz seg)) BadSegment;
      if (sg_memsz seg <? sg_filesz seg) || (len_z bytes <? end_) || match pl with Ok _ => false | Err _ => true end then elf_fail BadSegment
      else if sg_memsz seg =? 0 then mret (segments, n)
      else if decide (n < Z.of_nat (length segments)) then mret (<[Z.to_nat n := seg]> segments, n + 1)
      else Panic
  end.

(** The offset of a program header, inside the image. *)
Definition header_at (bytes : list Z) (phoff phentsize i : Z) : elf Z :=
  o ← checked (checked_mul i phentsize) Truncated;
  ph ← checked (checked_add phoff o) Truncated;
  ph_end ← checked (checked_add ph phentsize) Truncated;
  if len_z bytes <? ph_end then elf_fail Truncated else mret ph.

(** [while i < phnum] *)
Fixpoint parse_loop (bytes : list Z) (phoff phentsize : Z) (left : nat) (i : Z) (segments : list Segment) (n : Z) : elf (list Segment * Z) :=
  match left with
  | O => mret (segments, n)
  | S left' =>
      ph ← header_at bytes phoff phentsize i;
      p_type ← read_u32_at bytes ph;
      '(segments, n) ←
        (if p_type =? 1 then
           if n =? MAX_SEGMENTS then elf_fail TooManySegments
           else seg ← read_segment bytes ph; accept_segment bytes seg segments n
         else mret (segments, n));
      parse_loop bytes phoff phentsize left' (i + 1) segments n
  end.

Definition elf_parse (bytes : list Z) : elf Image :=
  if len_z bytes <? 64 then elf_fail Truncated
  else if negb (bool_decide (slice bytes 0 4 = [127; 69; 76; 70])) then elf_fail BadMagic
  else if negb (bytes !!! 4%nat =? 2) || negb (bytes !!! 5%nat =? 1) then elf_fail NotElf64Le
  else
    e_type ← read_u16_at bytes 16;
    if negb (e_type =? 2) then elf_fail NotExecutable
    else
      e_machine ← read_u16_at bytes 18;
      if negb (e_machine =? 183) then elf_fail NotAarch64
      else
        entry ← read_u64_at bytes 24;
        phoff ← read_u64_at bytes 32;
        phentsize ← read_u16_at bytes 54;
        phnum ← read_u16_at bytes 56;
        if phentsize <? 56 then elf_fail BadSegment
        else
          '(segments, n) ← parse_loop bytes phoff phentsize (Z.to_nat phnum) 0 (replicate (Z.to_nat MAX_SEGMENTS) no_segment) 0;
          if n =? 0 then elf_fail BadSegment else mret (MkImage entry segments n bytes).

(** ** Spawning *)
Inductive SysCall : Type :=
| SysRetype (untyped ty param dst dst2 : Z)
| SysFrameWrite (frame offset : Z) (data : list Z)
| SysMap (aspace frame va perms : Z)
| SysThreadStartAs (tcb cspace aspace entry sp prio arg : Z).
Definition OBJ_CSPACE : Z := 0.
Definition OBJ_THREAD : Z := 1.
Definition OBJ_FRAME : Z := 5.
Definition OBJ_ASPACE : Z := 6.
Definition MAP_W : Z := 1.
Definition MAP_X : Z := 2.
Definition STACK_TOP : Z := 2415919104.
Definition STACK_PAGES : Z := 16.
Inductive SpawnError : Type := SpawnElf (e : ElfError) | SpawnSys (r : Z) | SpawnTooManySegments.
Record Prepared : Type := MkPrepared { pr_aspace_slot : Z; pr_tcb_slot : Z; pr_cspace_slot : Z; pr_entry : Z; pr_sp : Z }.

(** The calls made so far, and the kernel's answer to the next one. *)
Definition spawn (A : Type) : Type := list SysCall → outcome (result A SpawnError * list SysCall).
#[global] Instance spawn_ret : MRet spawn := λ A a tr, Ret (Ok a, tr).
#[global] Instance spawn_bind : MBind spawn := λ A B f m tr,
  match m tr with Ret (Ok a, tr) => f a tr | Ret (Err e, tr) => Ret (Err e, tr) | Panic => Panic | NoFuel => NoFuel end.
Definition from_elf {A : Type} (m : elf A) : spawn A := λ tr,
  match m with Ret (Ok a) => Ret (Ok a, tr) | Ret (Err e) => Ret (Err (SpawnElf e), tr) | Panic => Panic | NoFuel => NoFuel end.
Definition add32 (a b : Z) : spawn Z := λ tr, if decide (a + b ≤ U32_MAX) then Ret (Ok (a + b), tr) else Panic.
(** [&image[a..b]] *)
Definition image_slice (image : list Z) (a b : Z) : spawn (list Z) := λ tr,
  if decide (0 ≤ a ∧ a ≤ b ∧ b ≤ len_z image) then Ret (Ok (slice image a (b - a)), tr) else Panic.

Section spawn.
Context (answer : list SysCall → SysCall → Z).

(** [check(sys::call(..))?] *)
Definition check (c : SysCall) : spawn unit := λ tr,
  let r := answer tr c in
  Ret (if r <? 0 then Err (SpawnSys r) else Ok tt, tr ++ [c]).

Definition seg_perms (flags : Z) : Z :=
  Z.lor (if negb (Z.land flags PF_W =? 0) then MAP_W else 0) (if negb (Z.land flags PF_X =? 0) then MAP_X else 0).
Definition map_segment (image : list Z) (untyped aspace_slot frame_slot : Z) (seg : Segment) : spawn unit :=
  l ← from_elf (page_layout seg);
  check (SysRetype untyped OBJ_FRAME (pl_pages l) frame_slot 0);;
  file ← image_slice image (sg_offset seg) (sg_offset seg + sg_filesz seg);
  check (SysFrameWrite frame_slot (pl_page_offset l) file);;
  check (SysMap aspace_slot frame_slot (pl_va_start l) (seg_perms (sg_flags seg))).
Fixpoint map_segments (image : list Z) (untyped aspace_slot base i : Z) (segs : list Segment) : spawn unit :=
  match segs with
  | [] => mret tt
  | seg :: rest =>
      b ← add32 base 3;
      frame_slot ← add32 b i;
      map_segment image untyped aspace_slot frame_slot seg;;
      map_segments image untyped aspace_slot base (i + 1) rest
  end.

Definition prepare (image : list Z) (untyped base child_cspace_slots : Z) : spawn Prepared :=
  img ← from_elf (elf_parse image);
  tcb_slot ← add32 base 1;
  cspace_slot ← add32 base 2;
  check (SysRetype untyped OBJ_ASPACE 16 base 0);;
  check (SysRetype untyped OBJ_THREAD 0 tcb_slot 0);;
  check (SysRetype untyped OBJ_CSPACE child_cspace_slots cspace_slot 0);;
  map_segments image untyped base base 0 (take (Z.to_nat (im_nsegments img)) (im_segments img));;
  b ← add32 base 3;
  stack_slot ← add32 b (im_nsegments img);
  check (SysRetype untyped OBJ_FRAME STACK_PAGES stack_slot 0);;
  check (SysMap base stack_slot (STACK_TOP - STACK_PAGES * PAGE_SIZE) MAP_W);;
  mret (MkPrepared base tcb_slot cspace_slot (im_entry img) STACK_TOP).

Definition start (p : Prepared) (prio : Z) : spawn unit :=
  check (SysThreadStartAs (pr_tcb_slot p) (pr_cspace_slot p) (pr_aspace_slot p) (pr_entry p) (pr_sp p) prio 0).
End spawn.

(** ** The page geometry *)
#[local] Ltac Zify.zify_post_hook ::= Z.div_mod_to_equations.

Lemma land_page x : Z.land x (Z.lnot PAGE_LOW) = x - x mod PAGE_SIZE.
Proof.
  change PAGE_LOW with (Z.ones 12). rewrite <-Z.ldiff_land, Z.ldiff_ones_r by lia. rewrite Z.shiftl_mul_pow2, Z.shiftr_div_pow2 by lia. change (2 ^ 12) with PAGE_SIZE. unfold PAGE_SIZE. lia.
Qed.
(** Whole pages from the page of the first byte to the page of the last. *)
Record layout_ok (s : Segment) (l : PageLayout) : Prop := {
  lo_start : pl_va_start l mod PAGE_SIZE = 0 ∧ pl_va_start l ≤ sg_vaddr s;
  lo_end : sg_vaddr s + sg_memsz s ≤ pl_va_end l < sg_vaddr s + sg_memsz s + PAGE_SIZE;
  lo_pages : pl_pages l * PAGE_SIZE = pl_va_end l - pl_va_start l ∧ 0 ≤ pl_pages l;
  lo_offset : pl_page_offset l = sg_vaddr s - pl_va_start l ∧ 0 ≤ pl_page_offset l < PAGE_SIZE;
}.
Lemma page_layout_spec s :
  0 ≤ sg_vaddr s → 0 ≤ sg_memsz s →
  if decide (sg_vaddr s + sg_memsz s + PAGE_LOW ≤ U64_MAX) then ∃ l, page_layout s = Ret (Ok l) ∧ layout_ok s l else page_layout s = Ret (Err BadSegment).
Proof.
  intros Hv Hm. unfold page_layout, checked_add. rewrite !land_page. cbv zeta. unfold PAGE_LOW, PAGE_SIZE in *. destruct (decide (sg_vaddr s + sg_memsz s + (4096 - 1) ≤ U64_MAX)) as [Hd|Hd].
  - rewrite decide_True by lia. cbn [checked mbind elf_bind mret elf_ret]. rewrite decide_True by lia. cbn [checked mbind elf_bind mret elf_ret]. rewrite land_page. unfold elf_sub, PAGE_SIZE. rewrite decide_True by lia. cbn [mbind elf_bind mret elf_ret]. rewrite decide_True by lia. cbn [mbind elf_bind mret elf_ret].
    eexists. split; [reflexivity|]. split; cbn; unfold PAGE_SIZE; lia.
  - case_decide; [|done]. cbn [checked mbind elf_bind mret elf_ret]. by rewrite decide_False.
Qed.

(** ** The parser *)

(** A segment the loader can place: its file bytes are in the image and fit its memory,
    which ends in the address space. *)
Record seg_ok (bytes : list Z) (s : Segment) : Prop := {
  sk_file : 0 ≤ sg_offset s ∧ 0 ≤ sg_filesz s ∧ sg_offset s + sg_filesz s ≤ len_z bytes;
  sk_mem : sg_filesz s ≤ sg_memsz s ∧ 0 < sg_memsz s;
  sk_addr : 0 ≤ sg_vaddr s ∧ sg_vaddr s + sg_memsz s + PAGE_LOW ≤ U64_MAX;
}.
(** The headers of the table that are to be loaded, in order. *)
Definition field (n : nat) (bytes : list Z) (off : Z) : Z := le_value (slice bytes off (Z.of_nat n)).
Definition segment_at (bytes : list Z) (ph : Z) : Segment := MkSeg (field 8 bytes (ph + 16)) (field 8 bytes (ph + 8)) (field 8 bytes (ph + 32)) (field 8 bytes (ph + 40)) (field 4 bytes (ph + 4)).
Definition load_at (bytes : list Z) (phoff phentsize i : Z) : option Segment :=
  let ph := phoff + i * phentsize in
  if (field 4 bytes ph =? 1) && negb (sg_memsz (segment_at bytes ph) =? 0) then Some (segment_at bytes ph) else None.

Section parser.
Context (bytes : list Z) (Hbytes : is_bytes bytes).

Lemma field_fits n off : 0 ≤ off → off + Z.of_nat n ≤ len_z bytes → fits_in n (field n bytes off).
Proof using Hbytes.
  intros H1 H2. unfold field. apply le_value_fits; [|rewrite slice_length; unfold len_z in *; lia]. unfold slice. by apply Forall_take, Forall_drop.
Qed.
Lemma read_le_ok n off : 0 ≤ off → off + Z.of_nat n ≤ len_z bytes → read_le n bytes off = Ret (Ok (field n bytes off)).
Proof using Type. intros. unfold read_le. by rewrite decide_True. Qed.
Lemma segment_fits ph : 0 ≤ ph → ph + 56 ≤ len_z bytes → read_segment bytes ph = Ret (Ok (segment_at bytes ph)) ∧ 0 ≤ sg_vaddr (segment_at bytes ph) ∧ 0 ≤ sg_offset (segment_at bytes ph) ∧ 0 ≤ sg_filesz (segment_at bytes ph) ∧ 0 ≤ sg_memsz (segment_at bytes ph).
Proof using Hbytes.
  intros H1 H2. split; [|cbn; split_and!; apply field_fits; lia]. unfold read_segment, read_u32_at, read_u64_at. rewrite !read_le_ok by lia. done.
Qed.

(** The segments taken so far. *)
Record taken (segs : list Segment) (n : Z) (acc : list Segment) : Prop := {
  tk_arena : length segs = Z.to_nat MAX_SEGMENTS;
  tk_count : 0 ≤ n ≤ MAX_SEGMENTS;
  tk_prefix : take (Z.to_nat n) segs = acc;
  tk_ok : Forall (seg_ok bytes) acc;
}.
Lemma accept_spec seg segs n acc :
  taken segs n acc → n ≠ MAX_SEGMENTS → 0 ≤ sg_vaddr seg → 0 ≤ sg_offset seg → 0 ≤ sg_filesz seg → 0 ≤ sg_memsz seg →
  (∃ e, accept_segment bytes seg segs n = Ret (Err e)) ∨
  (∃ segs' n', accept_segment bytes seg segs n = Ret (Ok (segs', n')) ∧ taken segs' n' (acc ++ if sg_memsz seg =? 0 then [] else [seg])).
Proof using Type.
  intros [T1 T2 T3 T4] Hn Hv Ho Hf Hm. unfold accept_segment. pose proof (page_layout_spec seg Hv Hm) as Hl. destruct (decide (sg_vaddr seg + sg_memsz seg + PAGE_LOW ≤ U64_MAX)) as [Hd|Hd].
  2: { rewrite Hl. unfold checked_add. destruct (decide (sg_offset seg + sg_filesz seg ≤ U64_MAX)); [|left; by exists BadSegment]. left. eexists. cbn. by rewrite orb_true_r. }
  destruct Hl as (l & -> & _). unfold checked_add. destruct (decide (sg_offset seg + sg_filesz seg ≤ U64_MAX)); [|left; by exists BadSegment]. cbn [checked mbind elf_bind mret elf_ret]. destruct ((sg_memsz seg <? sg_filesz seg) || (len_z bytes <? sg_offset seg + sg_filesz seg) || false) eqn:Eb; [left; by exists BadSegment|]. right.
  apply orb_false_elim in Eb as [[B1%Z.ltb_ge B2%Z.ltb_ge]%orb_false_elim _]. destruct (sg_memsz seg =? 0) eqn:Ez.
  - exists segs, n. rewrite app_nil_r. done.
  - rewrite decide_True by (rewrite T1; unfold MAX_SEGMENTS in *; lia). eexists _, _. split; [reflexivity|]. apply Z.eqb_neq in Ez. split.
    + by rewrite length_insert.
    + lia.
    + replace (Z.to_nat (n + 1)) with (S (Z.to_nat n)) by lia. rewrite (take_S_r _ _ seg) by (apply list_lookup_insert_eq; rewrite T1; unfold MAX_SEGMENTS in *; lia). by rewrite take_insert_ge, T3 by lia.
    + apply Forall_app. split; [done|]. constructor; [|done]. split; lia.
Qed.

Lemma header_spec phoff phentsize i :
  0 ≤ phoff → 56 ≤ phentsize → 0 ≤ i →
  (header_at bytes phoff phentsize i = Ret (Err Truncated)) ∨ (header_at bytes phoff phentsize i = Ret (Ok (phoff + i * phentsize)) ∧ phoff + i * phentsize + 56 ≤ len_z bytes).
Proof using Type.
  intros Hp He Hi. unfold header_at, checked_mul, checked_add. repeat (case_decide; [|by left]; cbn [checked mbind elf_bind mret elf_ret]). destruct (len_z bytes <? _) eqn:E; [by left|]. right. split; [done|]. apply Z.ltb_ge in E. lia.
Qed.
(** The loop ends with an error, or with the loadable headers of the table. *)
Lemma loop_spec phoff phentsize left : 0 ≤ phoff → 56 ≤ phentsize → ∀ i segs n acc, 0 ≤ i → taken segs n acc →
  (∃ e, parse_loop bytes phoff phentsize left i segs n = Ret (Err e)) ∨
  (∃ segs' n', parse_loop bytes phoff phentsize left i segs n = Ret (Ok (segs', n')) ∧ taken segs' n' (acc ++ omap (load_at bytes phoff phentsize) (seqZ i (Z.of_nat left)))).
Proof using Hbytes.
  intros Hp He. induction left as [|left IH]; intros i segs n acc Hi T; cbn [parse_loop].
  { right. exists segs, n. change (seqZ i (Z.of_nat 0)) with (@nil Z). cbn [omap list_omap]. by rewrite app_nil_r. }
  destruct (header_spec phoff phentsize i Hp He Hi) as [E|[E Hb]]; rewrite E; cbn [mbind elf_bind mret elf_ret]; [by left; exists Truncated|]. set (ph := phoff + i * phentsize) in *. assert (0 ≤ ph) as Hph by (unfold ph; nia).
  unfold read_u32_at. rewrite read_le_ok by lia. cbn [mbind elf_bind mret elf_ret].
  replace (Z.of_nat (S left)) with (Z.succ (Z.of_nat left)) by lia. rewrite (seqZ_cons i) by lia. rewrite Z.pred_succ. cbn [omap list_omap]. replace (Z.succ i) with (i + 1) by lia. unfold load_at at 1. cbv zeta. fold ph. destruct (field 4 bytes ph =? 1) eqn:Et; cbn [andb mbind elf_bind mret elf_ret]; [|apply IH; [lia|done]].
  destruct (n =? MAX_SEGMENTS) eqn:En; [by left; exists TooManySegments|]. apply Z.eqb_neq in En. destruct (segment_fits ph Hph Hb) as (Es & H1 & H2 & H3 & H4). rewrite Es. cbn [mbind elf_bind mret elf_ret].
  destruct (accept_spec _ _ _ _ T En H1 H2 H3 H4) as [[e Ea]|(segs' & n' & Ea & T')]; rewrite Ea; cbn [mbind elf_bind mret elf_ret]; [by left; exists e|].
  destruct (sg_memsz (segment_at bytes ph) =? 0); cbn [negb]; destruct (IH (i + 1) segs' n' _ ltac:(lia) T') as [[e Er]|(segs2 & n2 & Er & T2)]; [by left; exists e| |by left; exists e|]; right; exists segs2, n2; (split; [done|]); by rewrite ?app_nil_r, <-?app_assoc in T2.
Qed.

(** An accepted image: the entry point, and between one and eight segments, exactly the
    loadable headers of its table, each of which can be placed. *)
Record image_ok (img : Image) : Prop := {
  io_entry : im_entry img = field 8 bytes 24 ∧ im_bytes img = bytes;
  io_count : 1 ≤ im_nsegments img ≤ MAX_SEGMENTS;
  io_segments : take (Z.to_nat (im_nsegments img)) (im_segments img) = omap (load_at bytes (field 8 bytes 32) (field 2 bytes 54)) (seqZ 0 (field 2 bytes 56));
  io_len : length (im_segments img) = Z.to_nat MAX_SEGMENTS;
  io_ok : Forall (seg_ok bytes) (take (Z.to_nat (im_nsegments img)) (im_segments img));
}.
Lemma parse_spec : (∃ e, elf_parse bytes = Ret (Err e)) ∨ ∃ img, elf_parse bytes = Ret (Ok img) ∧ image_ok img.
Proof using Hbytes.
  unfold elf_parse. destruct (len_z bytes <? 64) eqn:El; [by left; exists Truncated|]. apply Z.ltb_ge in El. destruct (negb (bool_decide (slice bytes 0 4 = [127; 69; 76; 70]))); [by left; exists BadMagic|]. destruct (negb (bytes !!! 4%nat =? 2) || negb (bytes !!! 5%nat =? 1)); [by left; exists NotElf64Le|].
  unfold read_u16_at, read_u64_at. rewrite !read_le_ok by lia. cbn [mbind elf_bind mret elf_ret]. destruct (negb (field 2 bytes 16 =? 2)); [by left; exists NotExecutable|]. destruct (negb (field 2 bytes 18 =? 183)); [by left; exists NotAarch64|].
  destruct (field 2 bytes 54 <? 56) eqn:Ep; [by left; exists BadSegment|]. apply Z.ltb_ge in Ep. pose proof (field_fits 2 56 ltac:(lia) ltac:(lia)) as [F1 _]. pose proof (field_fits 8 32 ltac:(lia) ltac:(lia)) as [F2 _].
  assert (taken (replicate (Z.to_nat MAX_SEGMENTS) no_segment) 0 []) as T by (split; [by rewrite length_replicate|done|done|constructor]).
  destruct (loop_spec _ _ (Z.to_nat (field 2 bytes 56)) F2 Ep 0 _ _ _ ltac:(lia) T) as [[e Er]|(segs & n & Er & T')]; rewrite Er; cbn [mbind elf_bind mret elf_ret]; [by left; exists e|].
  destruct (n =? 0) eqn:En; [by left; exists BadSegment|]. apply Z.eqb_neq in En. right. eexists. split; [reflexivity|]. destruct T' as [T1 T2 T3 T4]. rewrite Z2Nat.id in T3, T4 by lia. split; cbn; [done|lia|done|done|by rewrite T3].
Qed.
End parser.

(** ** Spawning *)

(** The calls that place a segment, and those that build the child. *)
Definition layout_of (s : Segment) : PageLayout := match page_layout s with Ret (Ok l) => l | _ => MkLayout 0 0 0 0 end.
Definition segment_calls (image : list Z) (untyped aspace frame : Z) (s : Segment) : list SysCall :=
  [SysRetype untyped OBJ_FRAME (pl_pages (layout_of s)) frame 0;
   SysFrameWrite frame (pl_page_offset (layout_of s)) (slice image (sg_offset s) (sg_filesz s));
   SysMap aspace frame (pl_va_start (layout_of s)) (seg_perms (sg_flags s))].
Fixpoint segments_calls (image : list Z) (untyped aspace frame : Z) (segs : list Segment) : list SysCall :=
  match segs with [] => [] | s :: rest => segment_calls image untyped aspace frame s ++ segments_calls image untyped aspace (frame + 1) rest end.
Definition spawn_plan (image : list Z) (untyped base slots : Z) (img : Image) : list SysCall :=
  [SysRetype untyped OBJ_ASPACE 16 base 0] ++ [SysRetype untyped OBJ_THREAD 0 (base + 1) 0] ++ [SysRetype untyped OBJ_CSPACE slots (base + 2) 0] ++
  segments_calls image untyped base (base + 3) (take (Z.to_nat (im_nsegments img)) (im_segments img)) ++
  [SysRetype untyped OBJ_FRAME STACK_PAGES (base + 3 + im_nsegments img) 0] ++ [SysMap base (base + 3 + im_nsegments img) (STACK_TOP - STACK_PAGES * PAGE_SIZE) MAP_W].

Section plan.
Context (answer : list SysCall → SysCall → Z).

(** The kernel accepts each of the calls, made one after the other behind [tr]. *)
Definition accepted (tr cs : list SysCall) : Prop := ∀ j c, cs !! j = Some c → 0 ≤ answer (tr ++ take j cs) c.
(** [m] makes the calls [cs] and returns [a], or stops behind the first one refused, with
    the kernel's answer. *)
Definition performs {A : Type} (m : spawn A) (cs : list SysCall) (a : A) : Prop := ∀ tr,
  (m tr = Ret (Ok a, tr ++ cs) ∧ accepted tr cs) ∨
  (∃ j c, cs !! j = Some c ∧ accepted tr (take j cs) ∧ answer (tr ++ take j cs) c < 0 ∧ m tr = Ret (Err (SpawnSys (answer (tr ++ take j cs) c)), tr ++ take (S j) cs)).

Lemma accepted_app tr cs ds : accepted tr (cs ++ ds) ↔ accepted tr cs ∧ accepted (tr ++ cs) ds.
Proof using Type.
  split.
  - intros H. split; intros j c E.
    + specialize (H j c ltac:(by apply lookup_app_l_Some)). rewrite take_app_le in H by (apply lookup_lt_Some in E; lia). done.
    + specialize (H (length cs + j)%nat c). rewrite lookup_app_r in H by lia. rewrite Nat.add_comm, Nat.add_sub in H. specialize (H E). rewrite Nat.add_comm, take_app_add in H. by rewrite <-app_assoc.
  - intros [H1 H2] j c E. destruct (decide (j < length cs)%nat) as [Hj|Hj].
    + rewrite lookup_app_l in E by done. rewrite take_app_le by lia. by apply H1.
    + rewrite lookup_app_r in E by lia. specialize (H2 _ _ E). replace j with (length cs + (j - length cs))%nat by lia. rewrite take_app_add. by rewrite app_assoc.
Qed.
Lemma performs_ret {A : Type} (a : A) : performs (mret a) [] a.
Proof using Type. intros tr. left. rewrite app_nil_r. split; [done|]. by intros j c E. Qed.
Lemma performs_bind {A B : Type} (m : spawn A) (f : A → spawn B) cs ds a b : performs m cs a → performs (f a) ds b → performs (m ≫= f) (cs ++ ds) b.
Proof using Type.
  intros Hm Hf tr. destruct (Hm tr) as [[E H1]|(j & c & Ej & H1 & Hr & E)]; unfold mbind, spawn_bind; rewrite E.
  - destruct (Hf (tr ++ cs)) as [[E2 H2]|(j & c & Ej & H2 & Hr & E2)].
    + left. rewrite E2, app_assoc. split; [done|]. by apply accepted_app.
    + right. exists (length cs + j)%nat, c. replace (S (length cs + j)) with (length cs + S j)%nat by lia. rewrite !take_app_add, !app_assoc. rewrite lookup_app_r, (Nat.add_comm (length cs)), Nat.add_sub by lia. split_and!; [done| |done|done]. by apply accepted_app.
  - right. pose proof (lookup_lt_Some _ _ _ Ej). exists j, c. rewrite !take_app_le by lia. split_and!; [by apply lookup_app_l_Some|done|done|done].
Qed.
Lemma performs_check c : performs (check answer c) [c] tt.
Proof using Type.
  intros tr. unfold check. cbv zeta. destruct (answer tr c <? 0) eqn:E.
  - right. exists 0%nat, c. cbn [take]. rewrite app_nil_r. apply Z.ltb_lt in E. split_and!; [done|by intros j x Hx|done|done].
  - left. apply Z.ltb_ge in E. split; [done|]. intros [|j] x Hx; [|done]. injection Hx as <-. cbn. by rewrite app_nil_r.
Qed.
Lemma performs_pure {A B : Type} (m : spawn A) (f : A → spawn B) a cs b : (∀ tr, m tr = Ret (Ok a, tr)) → performs (f a) cs b → performs (m ≫= f) cs b.
Proof using Type. intros Hm Hf. apply (performs_bind m f [] cs a b); [|done]. intros tr. left. rewrite Hm, app_nil_r. split; [done|]. by intros j c E. Qed.

Lemma add32_ok a b tr : a + b ≤ U32_MAX → add32 a b tr = Ret (Ok (a + b), tr).
Proof using Type. intros H. unfold add32. by rewrite decide_True. Qed.
Lemma map_segment_performs image untyped aspace frame s : seg_ok image s → performs (map_segment answer image untyped aspace frame s) (segment_calls image untyped aspace frame s) tt.
Proof using Type.
  intros [[F1 [F2 F3]] [M1 M2] [A1 A2]]. pose proof (page_layout_spec s A1 ltac:(lia)) as Hl. rewrite decide_True in Hl by done. destruct Hl as (l & El & _). unfold map_segment, segment_calls, layout_of. rewrite El.
  apply (performs_pure _ _ l); [done|]. apply (performs_bind _ _ [_] [_; _] tt); [apply performs_check|]. apply (performs_pure _ _ (slice image (sg_offset s) (sg_filesz s))).
  { intros tr. unfold image_slice. rewrite decide_True by lia. do 3 f_equal. f_equal. lia. }
  apply (performs_bind _ _ [_] [_] tt); apply performs_check.
Qed.
Lemma map_segments_performs image untyped aspace base segs : Forall (seg_ok image) segs → ∀ i, 0 ≤ base → 0 ≤ i → base + 3 + i + Z.of_nat (length segs) ≤ U32_MAX →
  performs (map_segments answer image untyped aspace base i segs) (segments_calls image untyped aspace (base + 3 + i) segs) tt.
Proof using Type.
  induction 1 as [|s segs Hs _ IH]; intros i Hb Hi Hu; cbn [map_segments segments_calls]; [apply performs_ret|]. cbn [length] in Hu.
  apply (performs_pure _ _ (base + 3)); [intros tr; apply add32_ok; lia|]. apply (performs_pure _ _ (base + 3 + i)); [intros tr; apply add32_ok; lia|].
  apply (performs_bind _ _ _ _ tt); [by apply map_segment_performs|]. replace (base + 3 + i + 1) with (base + 3 + (i + 1)) by lia. apply IH; lia.
Qed.
Lemma prepare_performs image untyped base slots img :
  is_bytes image → elf_parse image = Ret (Ok img) → image_ok image img → 0 ≤ base → base + 11 ≤ U32_MAX →
  performs (prepare answer image untyped base slots) (spawn_plan image untyped base slots img) (MkPrepared base (base + 1) (base + 2) (im_entry img) STACK_TOP).
Proof using Type.
  intros Hi E [_ I2 _ I4 I5] Hb Hu. unfold MAX_SEGMENTS in *. unfold prepare, spawn_plan. rewrite E. apply (performs_pure _ _ img); [done|]. apply (performs_pure _ _ (base + 1)); [intros tr; apply add32_ok; lia|]. apply (performs_pure _ _ (base + 2)); [intros tr; apply add32_ok; lia|].
  do 3 (apply (performs_bind _ _ _ _ tt); [apply performs_check|]). apply (performs_bind _ _ _ _ tt).
  { replace (base + 3) with (base + 3 + 0) by lia. apply map_segments_performs; [done|done|lia|]. rewrite length_take. lia. }
  apply (performs_pure _ _ (base + 3)); [intros tr; apply add32_ok; lia|]. apply (performs_pure _ _ (base + 3 + im_nsegments img)); [intros tr; apply add32_ok; lia|].
  apply (performs_bind _ _ _ _ tt); [apply performs_check|]. rewrite <-(app_nil_r [SysMap _ _ _ _]). apply (performs_bind _ _ _ _ tt); [apply performs_check|apply performs_ret].
Qed.
End plan.
