(* ===== verification/Slots.v ===== *)
(** The allocator of capability slots ([urt/src/slots.rs]): a bitmap over a window of a
    process's own cspace. *)

From S2P Require Import Prelude.

Record SlotAlloc : Type := MkSlots { sl_base : Z; sl_cap : Z; sl_free : list Z }.

(** [free[i / 64] & (1 << (i % 64)) != 0] *)
Definition slot_is_free (i : Z) : comp SlotAlloc bool :=
  words ← gets sl_free;
  w ← index words (Z.to_nat (i / 64));
  mret (negb (Z.land w (Z.shiftl 1 (i mod 64)) =? 0)).
Definition slot_set (i : Z) (free : bool) : comp SlotAlloc unit :=
  let b := Z.shiftl 1 (i mod 64) in
  a ← gets (λ a, a);
  w ← index (sl_free a) (Z.to_nat (i / 64));
  words ← set_index (sl_free a) (Z.to_nat (i / 64)) (if free then Z.lor w b else Z.land w (Z.lnot b));
  modify (λ a, MkSlots (sl_base a) (sl_cap a) words).

(** [while i < cap { a.set(i, true) }] over an empty bitmap *)
Definition SlotAlloc_new (words : nat) (base cap : Z) : outcome SlotAlloc :=
  match for_from 0 (Z.to_nat cap) (λ i, slot_set (Z.of_nat i) true) (MkSlots base cap (replicate words 0)) with
  | Ret (_, a) => Ret a
  | Panic => Panic
  | NoFuel => NoFuel
  end.

Fixpoint alloc_scan (left : nat) (i : Z) : comp SlotAlloc (option Z) :=
  match left with
  | O => mret None
  | S left' =>
      f ← slot_is_free i;
      if (f : bool) then
        slot_set i false;;
        base ← gets sl_base;
        s ← uadd U32_MAX base i;
        mret (Some s)
      else alloc_scan left' (i + 1)
  end.
Definition slot_alloc : comp SlotAlloc (option Z) :=
  cap ← gets sl_cap;
  alloc_scan (Z.to_nat cap) 0.

(** [while k < n && self.is_free(start + k)]: whether [k] reaches [n] *)
Fixpoint run_free (left : nat) (i : Z) : comp SlotAlloc bool :=
  match left with
  | O => mret true
  | S left' =>
      f ← slot_is_free i;
      if (f : bool) then run_free left' (i + 1) else mret false
  end.
(** [while start <= cap - n] *)
Fixpoint range_scan (n : nat) (left : nat) (start : Z) : comp SlotAlloc (option Z) :=
  match left with
  | O => mret None
  | S left' =>
      f ← run_free n start;
      if (f : bool) then
        for_from 0 n (λ m, slot_set (start + Z.of_nat m) false);;
        base ← gets sl_base;
        s ← uadd U32_MAX base start;
        mret (Some s)
      else range_scan n left' (start + 1)
  end.
Definition slot_alloc_range (n : Z) : comp SlotAlloc (option Z) :=
  cap ← gets sl_cap;
  if (n =? 0) || (cap <? n) then mret None
  else range_scan (Z.to_nat n) (Z.to_nat (cap - n + 1)) 0.

(** With the debug assertions of [debug_check_free]. *)
Definition slot_free (slot : Z) : comp SlotAlloc unit :=
  a ← gets (λ a, a);
  i ← usub slot (sl_base a);
  ensure (i <? sl_cap a);;
  f ← slot_is_free i;
  ensure (negb f);;
  slot_set i true.
Definition slot_free_range (first n : Z) : comp SlotAlloc unit :=
  for_from 0 (Z.to_nat n) (λ k, s ← uadd U32_MAX first (Z.of_nat k); slot_free s).
(** [(0..cap).filter(is_free).count()] *)
Fixpoint count_free (left : nat) (i acc : Z) : comp SlotAlloc Z :=
  match left with
  | O => mret acc
  | S left' =>
      f ← slot_is_free i;
      count_free left' (i + 1) (if (f : bool) then acc + 1 else acc)
  end.
Definition slot_available : comp SlotAlloc Z :=
  cap ← gets sl_cap;
  count_free (Z.to_nat cap) 0 0.

(** ** The set of free slots *)

Definition free_bit (a : SlotAlloc) (i : Z) : bool := Z.testbit (sl_free a !!! Z.to_nat (i / 64)) (i mod 64).
(** The bitmap covers the window, which lies in the slot numbers. *)
Record slots_ok (a : SlotAlloc) : Prop := {
  sw_cap : 0 ≤ sl_cap a ≤ 64 * Z.of_nat (length (sl_free a));
  sw_base : 0 ≤ sl_base a ∧ sl_base a + sl_cap a ≤ U32_MAX;
}.
(** The same window, where the slots [P] are now [b] and the others as before. *)
Record marked (P : Z → Prop) (b : bool) (a a' : SlotAlloc) : Prop := {
  mk_window : sl_base a' = sl_base a ∧ sl_cap a' = sl_cap a ∧ length (sl_free a') = length (sl_free a);
  mk_in i : 0 ≤ i < sl_cap a → P i → free_bit a' i = b;
  mk_out i : 0 ≤ i < sl_cap a → ¬ P i → free_bit a' i = free_bit a i;
}.
Lemma marked_ok P b a a' : slots_ok a → marked P b a a' → slots_ok a'.
Proof. intros [H1 H2] [(E1 & E2 & E3) _ _]. split; rewrite ?E1, ?E2, ?E3; done. Qed.
Lemma marked_none (P : Z → Prop) b a : (∀ i, 0 ≤ i < sl_cap a → ¬ P i) → marked P b a a.
Proof. intros H. split; [done| |done]. intros i Hi HP. by destruct (H i). Qed.
Lemma marked_more (P P' P'' : Z → Prop) b a a1 a2 : marked P b a a1 → marked P' b a1 a2 → (∀ i, 0 ≤ i < sl_cap a → P'' i ↔ P i ∨ P' i) → marked P'' b a a2.
Proof.
  intros [(E1 & E2 & E3) H1 H2] [(F1 & F2 & F3) K1 K2] HP. split; [split_and!; congruence| |].
  - intros i Hi [Hp|Hp]%HP; [|apply K1; [by rewrite E2|done]|done]. destruct (decide (free_bit a2 i = b)) as [->|Hn]; [done|]. rewrite <-(H1 i Hi Hp). apply K2; [by rewrite E2|]. intros Hp'. apply Hn, K1; [by rewrite E2|done].
  - intros i Hi Hn. rewrite K2; [|by rewrite E2|intros ?; apply Hn, HP; [done|by right]]. apply H2; [done|]. intros ?. apply Hn, HP; [done|by left].
Qed.

#[local] Ltac Zify.zify_post_hook ::= Z.div_mod_to_equations.
Lemma word_in a i : slots_ok a → 0 ≤ i < sl_cap a → (Z.to_nat (i / 64) < length (sl_free a))%nat.
Proof. intros [H1 H2] Hi. lia. Qed.
Lemma bit_test w k : 0 ≤ k → negb (Z.land w (Z.shiftl 1 k) =? 0) = Z.testbit w k.
Proof.
  intros Hk. assert (Z.land w (Z.shiftl 1 k) = if Z.testbit w k then 2 ^ k else 0) as ->.
  { rewrite Z.shiftl_1_l. apply Z.bits_inj'. intros j Hj. rewrite Z.land_spec, Z.pow2_bits_eqb by done. destruct (Z.eqb_spec k j) as [<-|Hn].
    - rewrite andb_true_r. destruct (Z.testbit w k) eqn:E; [by rewrite Z.pow2_bits_true|by rewrite Z.bits_0].
    - rewrite andb_false_r. destruct (Z.testbit w k); [by rewrite Z.pow2_bits_false|by rewrite Z.bits_0]. }
  destruct (Z.testbit w k); [|done]. assert (2 ^ k ≠ 0) by (apply Z.pow_nonzero; lia). by rewrite (proj2 (Z.eqb_neq _ _)).
Qed.
Lemma is_free_spec a i Q : slots_ok a → 0 ≤ i < sl_cap a → Q (free_bit a i) a → wp (slot_is_free i) Q a.
Proof.
  intros V Hi HQ. unfold slot_is_free. rewrite wp_bind, wp_gets, wp_bind. destruct (lookup_lt_is_Some_2 (sl_free a) (Z.to_nat (i / 64)) (word_in _ _ V Hi)) as [w Ew]. eapply wp_index; [exact Ew|]. rewrite wp_ret, bit_test by lia. unfold free_bit in HQ. by rewrite (list_lookup_total_correct _ _ _ Ew) in HQ.
Qed.
Lemma set_spec a i b Q : slots_ok a → 0 ≤ i < sl_cap a → (∀ a', marked (λ j, j = i) b a a' → Q tt a') → wp (slot_set i b) Q a.
Proof.
  intros V Hi HQ. pose proof (word_in _ _ V Hi) as Hw. unfold slot_set. cbv zeta. rewrite wp_bind, wp_gets, wp_bind. destruct (lookup_lt_is_Some_2 _ _ Hw) as [w Ew]. eapply wp_index; [exact Ew|]. rewrite wp_bind. apply wp_set_index; [done|]. rewrite wp_modify. apply HQ.
  split; [cbn; by rewrite length_insert| |]; unfold free_bit; cbn.
  - intros j _ ->. rewrite list_lookup_total_insert_eq by done. destruct b; [rewrite Z.lor_spec|rewrite Z.land_spec, Z.lnot_spec by lia]; rewrite Z.shiftl_1_l, Z.pow2_bits_true by lia; [by rewrite orb_true_r|by rewrite andb_false_r].
  - intros j Hj Hn. destruct (decide (j / 64 = i / 64)) as [Ej|Ej].
    + rewrite Ej, list_lookup_total_insert_eq, (list_lookup_total_correct _ _ _ Ew) by done. assert (i mod 64 ≠ j mod 64) by lia. destruct b; [rewrite Z.lor_spec|rewrite Z.land_spec, Z.lnot_spec by lia]; rewrite Z.shiftl_1_l, Z.pow2_bits_false by done; [by rewrite orb_false_r|by rewrite andb_true_r].
    + rewrite list_lookup_total_insert_ne; [done|]. lia.
Qed.

(** ** Operations *)

(** Setting a run of slots. *)
Lemma set_run a start n b : slots_ok a → 0 ≤ start → start + Z.of_nat n ≤ sl_cap a → wp (for_from 0 n (λ m, slot_set (start + Z.of_nat m) b)) (λ _ a', marked (λ j, start ≤ j < start + Z.of_nat n) b a a') a.
Proof.
  intros V Hs Hn. apply (wp_for (λ m a', marked (λ j, start ≤ j < start + Z.of_nat m) b a a')); [|apply marked_none; lia].
  intros m a1 Hm M. pose proof M as [(E1 & E2 & E3) _ _]. apply set_spec; [by apply (marked_ok _ _ _ _ V M)|lia|]. intros a2 M2. apply (marked_more _ _ _ _ _ _ _ M M2). intros j Hj. lia.
Qed.
Lemma run_free_spec a left : slots_ok a → ∀ i, 0 ≤ i → i + Z.of_nat left ≤ sl_cap a → wp (run_free left i) (λ r a', a' = a ∧ (r = true ↔ ∀ k, i ≤ k < i + Z.of_nat left → free_bit a k = true)) a.
Proof.
  intros V. induction left as [|left IH]; intros i Hi Hc; cbn [run_free]; [rewrite wp_ret; split; [done|]; split; [lia|done]|]. rewrite wp_bind. apply is_free_spec; [done|lia|]. destruct (free_bit a i) eqn:Ef.
  - eapply wp_mono; [apply IH; lia|]. cbv beta. intros r a' [-> Hr]. split; [done|]. rewrite Hr. split; intros H k Hk; [destruct (decide (k = i)) as [->|]; [done|apply H; lia]|apply H; lia].
  - rewrite wp_ret. split; [done|]. split; [done|]. intros H. rewrite H in Ef by lia. done.
Qed.

(** One slot: the lowest free one. *)
Lemma alloc_scan_spec a left : slots_ok a → ∀ i, 0 ≤ i → i + Z.of_nat left = sl_cap a → wp (alloc_scan left i)
  (λ r a', match r with
   | Some s => ∃ j, s = sl_base a + j ∧ i ≤ j < sl_cap a ∧ free_bit a j = true ∧ (∀ k, i ≤ k < j → free_bit a k = false) ∧ marked (λ k, k = j) false a a'
   | None => a' = a ∧ ∀ k, i ≤ k < sl_cap a → free_bit a k = false
   end) a.
Proof.
  intros V. induction left as [|left IH]; intros i Hi Hc; cbn [alloc_scan]; [rewrite wp_ret; split; [done|lia]|]. rewrite wp_bind. apply is_free_spec; [done|lia|]. destruct (free_bit a i) eqn:Ef.
  - rewrite wp_bind. apply set_spec; [done|lia|]. intros a' M. pose proof M as [(E1 & E2 & E3) _ _]. rewrite wp_bind, wp_gets, wp_bind. destruct V as [_ [? ?]]. apply wp_uadd; [rewrite E1; lia|]. rewrite wp_ret. exists i. rewrite E1. split_and!; [done|lia|lia|done|lia|done].
  - eapply wp_mono; [apply IH; lia|]. cbv beta. intros [s|] a'.
    + intros (j & -> & Hj & Fj & Hk & M). exists j. split_and!; [done|lia|lia|done| |done]. intros k Hki. destruct (decide (k = i)) as [->|]; [done|apply Hk; lia].
    + intros [-> H]. split; [done|]. intros k Hk. destruct (decide (k = i)) as [->|]; [done|apply H; lia].
Qed.
(** A run of [n] free slots at [start]. *)
Definition free_run (a : SlotAlloc) (start n : Z) : Prop := 0 ≤ start ∧ start + n ≤ sl_cap a ∧ ∀ k, start ≤ k < start + n → free_bit a k = true.
Lemma range_scan_spec a n left : slots_ok a → ∀ start, 0 ≤ start → start + Z.of_nat left + Z.of_nat n = sl_cap a + 1 → wp (range_scan n left start)
  (λ r a', match r with
   | Some s => ∃ j, s = sl_base a + j ∧ start ≤ j ∧ free_run a j (Z.of_nat n) ∧ (∀ k, start ≤ k < j → ¬ free_run a k (Z.of_nat n)) ∧ marked (λ k, j ≤ k < j + Z.of_nat n) false a a'
   | None => a' = a ∧ ∀ k, start ≤ k → ¬ free_run a k (Z.of_nat n)
   end) a.
Proof.
  intros V. induction left as [|left IH]; intros start Hi Hc; cbn [range_scan]; [rewrite wp_ret; split; [done|]; intros k Hk (? & ? & _); lia|]. rewrite wp_bind. eapply wp_mono; [apply run_free_spec; [done|lia|lia]|]. cbv beta. intros r a0 [-> Hr]. destruct r.
  - assert (free_run a start (Z.of_nat n)) as Hf by (split_and!; [lia|lia|by apply Hr]). rewrite wp_bind. eapply wp_mono; [apply set_run; [done|lia|lia]|]. cbv beta. intros _ a' M. pose proof M as [(E1 & E2 & E3) _ _]. rewrite wp_bind, wp_gets, wp_bind. destruct V as [_ [? ?]]. apply wp_uadd; [rewrite E1; lia|]. rewrite wp_ret.
    exists start. rewrite E1. split_and!; [done|lia|done|lia|done].
  - assert (¬ free_run a start (Z.of_nat n)) as Hf by (intros (_ & _ & Hf); by apply Hr in Hf). eapply wp_mono; [apply IH; lia|]. cbv beta. intros [s|] a'.
    + intros (j & -> & Hj & Fj & Hk & M). exists j. split_and!; [done|lia|done| |done]. intros k Hki. destruct (decide (k = start)) as [->|]; [done|apply Hk; lia].
    + intros [-> H]. split; [done|]. intros k Hk. destruct (decide (k = start)) as [->|]; [done|apply H; lia].
Qed.
Lemma alloc_range_spec a n : slots_ok a → 0 < n → wp (slot_alloc_range n)
  (λ r a', match r with
   | Some s => ∃ j, s = sl_base a + j ∧ free_run a j n ∧ (∀ k, k < j → ¬ free_run a k n) ∧ marked (λ k, j ≤ k < j + n) false a a'
   | None => a' = a ∧ ∀ k, ¬ free_run a k n
   end) a.
Proof.
  intros V Hn. unfold slot_alloc_range. rewrite wp_bind, wp_gets. rewrite (proj2 (Z.eqb_neq n 0)) by lia. cbn [orb]. destruct (sl_cap a <? n) eqn:E.
  { rewrite wp_ret. split; [done|]. apply Z.ltb_lt in E. intros k (? & ? & _). lia. }
  apply Z.ltb_ge in E. eapply wp_mono; [apply range_scan_spec; [done|lia|lia]|]. cbv beta. rewrite Z2Nat.id by lia. intros [s|] a'.
  - intros (j & -> & Hj & Fj & Hk & M). exists j. split_and!; [done|done| |done]. intros k Hkj Hf. destruct (decide (0 ≤ k)); [by apply (Hk k ltac:(lia))|]. destruct Hf as [? _]. lia.
  - intros [-> H]. split; [done|]. intros k Hf. apply (H k); [|done]. by destruct Hf.
Qed.

Lemma slot_free_spec a i Q : slots_ok a → 0 ≤ i < sl_cap a → free_bit a i = false → (∀ a', marked (λ j, j = i) true a a' → Q tt a') → wp (slot_free (sl_base a + i)) Q a.
Proof.
  intros V Hi Ef HQ. unfold slot_free. rewrite wp_bind, wp_gets, wp_bind. apply wp_usub; [lia|]. replace (sl_base a + i - sl_base a) with i by lia. rewrite wp_bind. apply wp_ensure; [apply Z.ltb_lt; lia|]. rewrite wp_bind. apply is_free_spec; [done|lia|]. rewrite wp_bind. apply wp_ensure; [by rewrite Ef|]. by apply set_spec.
Qed.
Lemma free_range_spec a j n : slots_ok a → 0 ≤ j → 0 ≤ n → j + n ≤ sl_cap a → (∀ k, j ≤ k < j + n → free_bit a k = false) → wp (slot_free_range (sl_base a + j) n) (λ _ a', marked (λ k, j ≤ k < j + n) true a a') a.
Proof.
  intros V Hj Hn Hc Hf. unfold slot_free_range. eapply wp_mono; [apply (wp_for (λ m a', marked (λ k, j ≤ k < j + Z.of_nat m) true a a')); [|apply marked_none; lia]|].
  - intros m a1 Hm M. pose proof M as [(E1 & E2 & E3) M1 M2]. pose proof V as [_ [? ?]]. rewrite wp_bind. apply wp_uadd; [lia|]. replace (sl_base a + j + Z.of_nat m) with (sl_base a1 + (j + Z.of_nat m)) by lia. apply slot_free_spec; [by apply (marked_ok _ _ _ _ V M)|lia|rewrite M2 by lia; apply Hf; lia|].
    intros a2 M3. apply (marked_more _ _ _ _ _ _ _ M M3). intros k Hk. lia.
  - cbv beta. intros _ a' M. by rewrite Nat.add_0_l, Z2Nat.id in M by lia.
Qed.

(** A new allocator has every slot of its window free. *)
Lemma new_spec words base cap : 0 ≤ base → 0 ≤ cap ≤ 64 * Z.of_nat words → base + cap ≤ U32_MAX →
  ∃ a, SlotAlloc_new words base cap = Ret a ∧ slots_ok a ∧ sl_base a = base ∧ sl_cap a = cap ∧ ∀ i, 0 ≤ i < cap → free_bit a i = true.
Proof.
  intros Hb Hc Hu. assert (slots_ok (MkSlots base cap (replicate words 0))) as V by (split; cbn; rewrite ?length_replicate; lia). pose proof (set_run _ 0 (Z.to_nat cap) true V ltac:(lia) ltac:(cbn; lia)) as H. unfold SlotAlloc_new.
  apply wp_inv in H as ([] & a & E & M). pose proof M as [(E1 & E2 & E3) M1 _]. exists a. change (λ m : nat, slot_set (0 + Z.of_nat m) true) with (λ m : nat, slot_set (Z.of_nat m) true) in E. rewrite E. split_and!; [done|by apply (marked_ok _ _ _ _ V M)|done|done|]. intros i Hi. apply M1; cbn in *; lia.
Qed.
