(* ===== verification/Ipc.v ===== *)
(** The user-space IPC library ([src/ipc/src]): the message header ([header.rs]) and the
    framing around a body ([wire.rs]), the connect handshake and its quota ([session.rs]),
    and the reactor that multiplexes sources on a notification word ([reactor.rs]). *)

From S2P Require Import Prelude Bytes.

(** ** Header *)
Definition HEADER_SIZE : Z := 10.
Record Header : Type := MkHeader { hd_proto : Z; hd_version : Z; hd_opcode : Z; hd_flags : Z; hd_body_len : Z }.
Definition byte_of (x k : Z) : Z := Z.land (Z.shiftr x k) 255.
Definition join2 (b0 b1 : Z) : Z := Z.lor b0 (Z.shiftl b1 8).
Definition join4 (b0 b1 b2 b3 : Z) : Z := Z.lor (Z.lor (Z.lor b0 (Z.shiftl b1 8)) (Z.shiftl b2 16)) (Z.shiftl b3 24).
Definition header_encode (h : Header) : list Z :=
  [hd_proto h; hd_version h; byte_of (hd_opcode h) 0; byte_of (hd_opcode h) 8; byte_of (hd_flags h) 0; byte_of (hd_flags h) 8;
   byte_of (hd_body_len h) 0; byte_of (hd_body_len h) 8; byte_of (hd_body_len h) 16; byte_of (hd_body_len h) 24].
Definition header_decode (buf : list Z) : option Header :=
  match buf with
  | [p; v; o0; o1; f0; f1; b0; b1; b2; b3] => Some (MkHeader p v (join2 o0 o1) (join2 f0 f1) (join4 b0 b1 b2 b3))
  | _ => None
  end.

Inductive FrameError : Type := FHeader | FBody | FTrailing.
(** The body codec is postcard's: a parameter. *)
Section frame.
Context {B : Type} (to_allocvec : B → option (list Z)) (take_from_bytes : list Z → option (B * list Z)).
Definition frame_encode (proto version opcode flags : Z) (body : B) : result (list Z) FrameError :=
  match to_allocvec body with
  | None => Err FBody
  | Some bytes => Ok (header_encode (MkHeader proto version opcode flags (as_u32 (len_z bytes))) ++ bytes)
  end.
Definition frame_decode (buf : list Z) : result (Header * B) FrameError :=
  if len_z buf <? HEADER_SIZE then Err FHeader
  else
    match header_decode (take (Z.to_nat HEADER_SIZE) buf) with
    | None => Err FHeader
    | Some header =>
        let body := drop (Z.to_nat HEADER_SIZE) buf in
        if len_z body <? hd_body_len header then Err FBody
        else if hd_body_len header <? len_z body then Err FTrailing
        else
          match take_from_bytes body with
          | None => Err FBody
          | Some (value, rest) => if bool_decide (rest = []) then Ok (header, value) else Err FTrailing
          end
    end.
End frame.

(** ** Connect *)
Definition TAG_REQ : Z := 192.
Definition TAG_GRANT : Z := 1.
Definition TAG_REFUSED : Z := 0.
Definition PROTOCOL_VERSION : Z := 1.
Record VersionRange : Type := MkRange { vr_min : Z; vr_max : Z }.
Definition VersionRange_single (v : Z) : VersionRange := MkRange v v.
Record WindowGrant : Type := MkWindow { wg_window : Z; wg_size : Z }.
Record ConnectReq : Type := MkConnect { cr_requested_window : Z; cr_versions : VersionRange }.
Inductive GrantReply : Type := Granted (g : WindowGrant) (version : Z) | GrantRefused.
Inductive ConnectErr : Type := CeRefused | CeVersionMismatch | CePeerClosed | CeBadReply | CeTransport.
Definition ConnectReq_for_window (requested : Z) : ConnectReq := MkConnect requested (VersionRange_single PROTOCOL_VERSION).

Definition req_encode (r : ConnectReq) : list Z :=
  let w := cr_requested_window r in
  [TAG_REQ; byte_of w 0; byte_of w 8; byte_of w 16; byte_of w 24; vr_min (cr_versions r); vr_max (cr_versions r)].
Definition req_decode (buf : list Z) : option ConnectReq :=
  match buf with
  | [t; b1; b2; b3; b4; mn; mx] => if t =? TAG_REQ then Some (MkConnect (join4 b1 b2 b3 b4) (MkRange mn mx)) else None
  | _ => None
  end.
Definition grant_encode (g : GrantReply) : list Z :=
  match g with
  | Granted w ver =>
      [TAG_GRANT; byte_of (wg_window w) 0; byte_of (wg_window w) 8; byte_of (wg_window w) 16; byte_of (wg_window w) 24;
       byte_of (wg_size w) 0; byte_of (wg_size w) 8; byte_of (wg_size w) 16; byte_of (wg_size w) 24; ver]
  | GrantRefused => [TAG_REFUSED]
  end.
Definition grant_decode (buf : list Z) : option GrantReply :=
  match buf with
  | [t; a0; a1; a2; a3; b0; b1; b2; b3; ver] => if t =? TAG_GRANT then Some (Granted (MkWindow (join4 a0 a1 a2 a3) (join4 b0 b1 b2 b3)) ver) else None
  | [t] => if t =? TAG_REFUSED then Some GrantRefused else None
  | _ => None
  end.

(** The quota. *)
Record Admission : Type := MkAdm { ad_budget : Z; ad_granted : Z }.
Definition Admission_new (budget : Z) : Admission := MkAdm budget 0.
Definition remaining (a : Admission) : outcome Z := if decide (ad_granted a ≤ ad_budget a) then Ret (ad_budget a - ad_granted a) else Panic.
Definition admission_admit (requested : Z) (a : Admission) : outcome (result WindowGrant ConnectErr * Admission) :=
  match remaining a with
  | Ret room =>
      if requested <=? room then
        if decide (ad_granted a + requested ≤ U32_MAX) then Ret (Ok (MkWindow 0 requested), MkAdm (ad_budget a) (ad_granted a + requested)) else Panic
      else Ret (Err CeRefused, a)
  | Panic => Panic
  | NoFuel => NoFuel
  end.
Definition release (g : WindowGrant) (a : Admission) : Admission := MkAdm (ad_budget a) (Z.max 0 (ad_granted a - wg_size g)).
Definition negotiate (client server : VersionRange) : option Z :=
  let lo := if vr_min server <=? vr_min client then vr_min client else vr_min server in
  let hi := if vr_max client <=? vr_max server then vr_max client else vr_max server in
  if lo <=? hi then Some hi else None.
Definition admit_connect (server : VersionRange) (req_bytes : list Z) (a : Admission) : outcome (GrantReply * Admission) :=
  match req_decode req_bytes with
  | None => Ret (GrantRefused, a)
  | Some req =>
      match negotiate (cr_versions req) server with
      | None => Ret (GrantRefused, a)
      | Some ver =>
          match admission_admit (cr_requested_window req) a with
          | Ret (Ok g, a) => Ret (Granted g ver, a)
          | Ret (Err _, a) => Ret (GrantRefused, a)
          | Panic => Panic
          | NoFuel => NoFuel
          end
      end
  end.

(** The client's half, over the answers of the transport; [None] while it blocks. *)
Inductive SendErr : Type := SeFull | SeClosed | SeOther (r : Z).
Inductive RecvErr : Type := ReEmpty | ReNoSlot | ReClosed | ReOther (r : Z).
Fixpoint connect_send (answers : list (result unit SendErr)) : option (result unit ConnectErr) :=
  match answers with
  | [] => None
  | Ok _ :: _ => Some (Ok tt)
  | Err SeFull :: rest => connect_send rest
  | Err SeClosed :: _ => Some (Err CePeerClosed)
  | Err (SeOther _) :: _ => Some (Err CeTransport)
  end.
Fixpoint connect_recv (answers : list (result (list Z) RecvErr)) : option (result Z ConnectErr) :=
  match answers with
  | [] => None
  | Ok reply :: _ =>
      Some match grant_decode reply with
           | Some (Granted _ ver) => Ok ver
           | Some GrantRefused => Err CeRefused
           | None => Err CeBadReply
           end
  | Err ReEmpty :: rest => connect_recv rest
  | Err ReClosed :: _ => Some (Err CePeerClosed)
  | Err ReNoSlot :: _ | Err (ReOther _) :: _ => Some (Err CeTransport)
  end.
Definition connect (sends : list (result unit SendErr)) (recvs : list (result (list Z) RecvErr)) : option (result Z ConnectErr) :=
  match connect_send sends with
  | None => None
  | Some (Err e) => Some (Err e)
  | Some (Ok _) => connect_recv recvs
  end.

(** ** Reactor *)
Definition WORD_BITS : nat := 64.
Definition Key : Type := Z.
Definition SIG_READABLE : Z := 1.
Definition SIG_WRITABLE : Z := 2.
Definition SIG_PEER_CLOSED : Z := 4.
Inductive RegisterErr : Type := RegFull | RegBind (r : Z) | RegTaken.
Record Reg : Type := MkReg { rg_key : Key; rg_signals : Z }.
Record Reactor : Type := MkReactor { rc_slots : list (option Reg); rc_used : Z; rc_pending : Z }.
Definition Reactor_new : Reactor := MkReactor (replicate WORD_BITS None) 0 0.

(** [u64::trailing_zeros] of a word from bit [i] on: 64 when there is none. *)
Fixpoint tz_from (left : nat) (i w : Z) : Z :=
  match left with O => i | S left' => if Z.testbit w i then i else tz_from left' (i + 1) w end.
Definition trailing_zeros_u64 (w : Z) : Z := tz_from WORD_BITS 0 w.

Definition lowest_clear_bit (used : Z) : option Z :=
  let bit := trailing_zeros_u64 (U64_MAX - used) in
  if bit =? 64 then None else Some bit.
(** [pending & !(1 << bit)]; a shift by 64 panics. *)
Definition drain_one (pending : Z) : outcome (Z * Z) :=
  let bit := trailing_zeros_u64 pending in
  if decide (bit < 64) then Ret (bit, Z.land pending (Z.lnot (Z.shiftl 1 bit))) else Panic.
Definition alloc_lowest (used : Z) : option Z * Z :=
  match lowest_clear_bit used with
  | Some bit => (Some bit, Z.lor used (Z.shiftl 1 bit))
  | None => (None, used)
  end.
Definition register_into (slots : list (option Reg)) (used signals : Z) (key : Key) : list (option Reg) * Z * result Z RegisterErr :=
  match alloc_lowest used with
  | (None, _) => (slots, used, Err RegFull)
  | (Some bit, u) => (<[Z.to_nat bit := Some (MkReg key signals)]> slots, u, Ok bit)
  end.
(** [while bits != 0]: the lowest bit, then [bits & (bits - 1)] *)
Fixpoint claim_bits (fuel : nat) (bits : Z) (key : Key) (slots : list (option Reg)) : outcome (list (option Reg)) :=
  match fuel with
  | O => NoFuel
  | S fuel' =>
      if bits =? 0 then Ret slots
      else claim_bits fuel' (Z.land bits (bits - 1)) key (<[Z.to_nat (trailing_zeros_u64 bits) := Some (MkReg key 0)]> slots)
  end.
Definition register_bound_into (slots : list (option Reg)) (used mask : Z) (key : Key) : outcome (list (option Reg) * Z * result unit RegisterErr) :=
  if negb (Z.land mask used =? 0) then Ret (slots, used, Err RegTaken)
  else
    match claim_bits 65 mask key slots with
    | Ret out => Ret (out, Z.lor used mask, Ok tt)
    | Panic => Panic
    | NoFuel => NoFuel
    end.

(** The binds [register] makes, in order, and the signal that makes the first wait poll. *)
Inductive Act : Type := ActBind (chan event mask : Z) | ActSignal (mask : Z).
Definition bind_events (signals : Z) : list Z :=
  (if negb (Z.land signals SIG_READABLE =? 0) then [SIG_READABLE] else []) ++
  (if negb (Z.land signals SIG_WRITABLE =? 0) then [SIG_WRITABLE] else []) ++
  (if negb (Z.land signals SIG_PEER_CLOSED =? 0) then [SIG_PEER_CLOSED] else []).
Section reactor.
Context (bind_answer : Z → Z → Z → result unit Z).

Fixpoint bind_all (source mask : Z) (events : list Z) (acts : list Act) : result unit RegisterErr * list Act :=
  match events with
  | [] => (Ok tt, acts)
  | ev :: rest =>
      match bind_answer source ev mask with
      | Ok _ => bind_all source mask rest (acts ++ [ActBind source ev mask])
      | Err r => (Err (RegBind r), acts ++ [ActBind source ev mask])
      end
  end.
Definition reactor_register (source signals : Z) (key : Key) (rc : Reactor) : result unit RegisterErr * list Act * Reactor :=
  let '(slots, used, r) := register_into (rc_slots rc) (rc_used rc) signals key in
  match r with
  | Err e => (Err e, [], rc)
  | Ok bit =>
      let mask := Z.shiftl 1 bit in
      match bind_all source mask (bind_events signals) [] with
      | (Err e, acts) => (Err e, acts, rc)
      | (Ok _, acts) => (Ok tt, acts ++ [ActSignal mask], MkReactor slots used (rc_pending rc))
      end
  end.
End reactor.
Definition reactor_register_bound (mask : Z) (key : Key) (rc : Reactor) : outcome (result unit RegisterErr * Reactor) :=
  match register_bound_into (rc_slots rc) (rc_used rc) mask key with
  | Ret (slots, used, r) => Ret (r, MkReactor slots used (rc_pending rc))
  | Panic => Panic
  | NoFuel => NoFuel
  end.

(** [loop]: over the words [notif_wait] returns; [None] while it blocks. *)
Fixpoint reactor_wait (fuel : nat) (words : list Z) (rc : Reactor) : outcome (option (Key * Z) * list Z * Reactor) :=
  match fuel with
  | O => NoFuel
  | S fuel' =>
      let drain pending words :=
        match drain_one pending with
        | Ret (bit, rest) =>
            let rc := MkReactor (rc_slots rc) (rc_used rc) rest in
            match rc_slots rc !! Z.to_nat bit with
            | None => Panic
            | Some (Some reg) => Ret (Some (rg_key reg, rg_signals reg), words, rc)
            | Some None => reactor_wait fuel' words rc
            end
        | Panic => Panic
        | NoFuel => NoFuel
        end in
      if rc_pending rc =? 0 then match words with [] => Ret (None, [], rc) | w :: words => drain w words end
      else drain (rc_pending rc) words
  end.

(** ** The fixed codecs *)
#[local] Ltac Zify.zify_post_hook ::= Z.div_mod_to_equations.

Lemma lor_shifted b c k : 0 ≤ k → 0 ≤ b < 2 ^ k → Z.lor b (Z.shiftl c k) = b + c * 2 ^ k.
Proof.
  intros Hk Hb. assert (Z.land b (Z.shiftl c k) = 0) as E.
  { apply Z.bits_inj'. intros j Hj. rewrite Z.land_spec, Z.bits_0. destruct (decide (j < k)); [by rewrite Z.shiftl_spec_low, andb_false_r|]. destruct (decide (b = 0)) as [->|]; [by rewrite Z.bits_0|]. rewrite (Z.bits_above_log2 b j); [done|lia|]. apply Z.log2_lt_pow2; [lia|]. eapply Z.lt_le_trans; [apply Hb|]. apply Z.pow_le_mono_r; lia. }
  rewrite <-Z.lxor_lor, <-Z.add_nocarry_lxor by done. by rewrite Z.shiftl_mul_pow2.
Qed.
Lemma join2_sum b0 b1 : is_byte b0 → join2 b0 b1 = b0 + b1 * 256.
Proof. unfold is_byte. intros. unfold join2. rewrite lor_shifted by (change (2 ^ 8) with 256; lia). done. Qed.
Lemma join4_sum b0 b1 b2 b3 : is_byte b0 → is_byte b1 → is_byte b2 → join4 b0 b1 b2 b3 = b0 + b1 * 256 + b2 * 65536 + b3 * 16777216.
Proof.
  unfold is_byte. intros. unfold join4. rewrite (lor_shifted b0) by (change (2 ^ 8) with 256; lia). change (2 ^ 8) with 256. rewrite (lor_shifted (b0 + b1 * 256)) by (change (2 ^ 16) with 65536; lia). change (2 ^ 16) with 65536. rewrite lor_shifted by (change (2 ^ 24) with 16777216; lia). done.
Qed.
Lemma byte_of_mod x k : 0 ≤ k → byte_of x k = (x / 2 ^ k) mod 256.
Proof. intros Hk. unfold byte_of. rewrite Z.shiftr_div_pow2 by done. change 255 with (Z.ones 8). by rewrite Z.land_ones by lia. Qed.
Lemma byte_of_is x k : is_byte (byte_of x k).
Proof. unfold byte_of. change 255 with (Z.ones 8). rewrite Z.land_ones by lia. unfold is_byte. change (2 ^ 8) with 256. lia. Qed.
Lemma join2_bytes x : 0 ≤ x < 65536 → join2 (byte_of x 0) (byte_of x 8) = x.
Proof. intros Hx. rewrite join2_sum by apply byte_of_is. rewrite !byte_of_mod by lia. change (2 ^ 0) with 1. change (2 ^ 8) with 256. lia. Qed.
Lemma join4_bytes x : 0 ≤ x < 4294967296 → join4 (byte_of x 0) (byte_of x 8) (byte_of x 16) (byte_of x 24) = x.
Proof. intros Hx. rewrite join4_sum by apply byte_of_is. rewrite !byte_of_mod by lia. change (2 ^ 0) with 1. change (2 ^ 8) with 256. change (2 ^ 16) with 65536. change (2 ^ 24) with 16777216. lia. Qed.
Lemma bytes_join2 b0 b1 : is_byte b0 → is_byte b1 → byte_of (join2 b0 b1) 0 = b0 ∧ byte_of (join2 b0 b1) 8 = b1.
Proof. intros H0 H1. rewrite join2_sum, !byte_of_mod by (done || lia). change (2 ^ 0) with 1. change (2 ^ 8) with 256. unfold is_byte in *. lia. Qed.
Lemma bytes_join4 b0 b1 b2 b3 : is_byte b0 → is_byte b1 → is_byte b2 → is_byte b3 →
  byte_of (join4 b0 b1 b2 b3) 0 = b0 ∧ byte_of (join4 b0 b1 b2 b3) 8 = b1 ∧ byte_of (join4 b0 b1 b2 b3) 16 = b2 ∧ byte_of (join4 b0 b1 b2 b3) 24 = b3.
Proof.
  intros H0 H1 H2 H3. rewrite join4_sum, !byte_of_mod by (done || lia). change (2 ^ 0) with 1. change (2 ^ 8) with 256. change (2 ^ 16) with 65536. change (2 ^ 24) with 16777216. unfold is_byte in *. lia.
Qed.

(** The fields of a header within their types. *)
Definition header_fits (h : Header) : Prop := 0 ≤ hd_opcode h < 65536 ∧ 0 ≤ hd_flags h < 65536 ∧ 0 ≤ hd_body_len h < 4294967296.
Lemma header_decode_encode h : header_fits h → header_decode (header_encode h) = Some h.
Proof. destruct h as [p v o f b]. intros (H1 & H2 & H3). cbn in *. by rewrite !join2_bytes, join4_bytes. Qed.
Lemma header_encode_decode buf h : is_bytes buf → header_decode buf = Some h → header_encode h = buf.
Proof.
  intros Hb. unfold header_decode. destruct buf as [|p [|v [|o0 [|o1 [|f0 [|f1 [|b0 [|b1 [|b2 [|b3 [|x buf]]]]]]]]]]]; try discriminate. unfold is_bytes in Hb. rewrite !Forall_cons in Hb. destruct Hb as (_ & _ & Ho0 & Ho1 & Hf0 & Hf1 & H0 & H1 & H2 & H3 & _). intros [= <-].
  destruct (bytes_join2 o0 o1 Ho0 Ho1) as [E1 E2]. destruct (bytes_join2 f0 f1 Hf0 Hf1) as [E3 E4]. destruct (bytes_join4 b0 b1 b2 b3 H0 H1 H2 H3) as (E5 & E6 & E7 & E8). unfold header_encode. cbn [hd_proto hd_version hd_opcode hd_flags hd_body_len]. by rewrite E1, E2, E3, E4, E5, E6, E7, E8.
Qed.
Lemma req_decode_encode r : 0 ≤ cr_requested_window r < 4294967296 → req_decode (req_encode r) = Some r.
Proof. destruct r as [w [mn mx]]. intros H. cbn in *. by rewrite join4_bytes. Qed.
Lemma req_encode_decode buf r : is_bytes buf → req_decode buf = Some r → req_encode r = buf ∧ 0 ≤ cr_requested_window r < 4294967296.
Proof.
  intros Hb. unfold req_decode. destruct buf as [|t [|b0 [|b1 [|b2 [|b3 [|mn [|mx [|x buf]]]]]]]]; try discriminate. unfold is_bytes in Hb. rewrite !Forall_cons in Hb. destruct Hb as (_ & H0 & H1 & H2 & H3 & _). destruct (t =? TAG_REQ) eqn:Et; [|discriminate]. intros [= <-]. apply Z.eqb_eq in Et as ->.
  destruct (bytes_join4 b0 b1 b2 b3 H0 H1 H2 H3) as (E5 & E6 & E7 & E8). split; [unfold req_encode; cbn; by rewrite E5, E6, E7, E8|]. cbn. rewrite join4_sum by done. unfold is_byte in *. lia.
Qed.
Lemma grant_decode_encode g : match g with Granted w _ => 0 ≤ wg_window w < 4294967296 ∧ 0 ≤ wg_size w < 4294967296 | GrantRefused => True end → grant_decode (grant_encode g) = Some g.
Proof. destruct g as [[w z] ver|]; [|done]. intros [H1 H2]. cbn in *. by rewrite !join4_bytes. Qed.

(** ** The quota *)

(** Version selection: the highest common version, or none is common. *)
Definition speaks (r : VersionRange) (v : Z) : Prop := vr_min r ≤ v ≤ vr_max r.
Lemma negotiate_spec client server :
  match negotiate client server with
  | Some v => speaks client v ∧ speaks server v ∧ ∀ w, speaks client w → speaks server w → w ≤ v
  | None => ∀ w, speaks client w → ¬ speaks server w
  end.
Proof.
  unfold negotiate, speaks. cbv zeta. destruct (vr_min server <=? vr_min client) eqn:E1, (vr_max client <=? vr_max server) eqn:E2; (match goal with |- context [if ?b then Some _ else None] => destruct b eqn:E3 end); first [split_and!; intros; lia|intros; lia].
Qed.

(** The server with the windows of its open sessions. *)
Record quota_ok (a : Admission) (open_ : list WindowGrant) : Prop := {
  qo_budget : 0 ≤ ad_budget a ≤ U32_MAX;
  qo_granted : ad_granted a = foldr (λ g n, wg_size g + n) 0 open_;
  qo_within : ad_granted a ≤ ad_budget a;
  qo_sizes : Forall (λ g, 0 ≤ wg_size g) open_;
}.
Lemma sum_nonneg l : Forall (λ g, 0 ≤ wg_size g) l → 0 ≤ foldr (λ g n, wg_size g + n) 0 l.
Proof. induction 1; cbn; lia. Qed.
Lemma admit_connect_spec server req a open_ :
  quota_ok a open_ → is_bytes req →
  (∃ g ver a', admit_connect server req a = Ret (Granted g ver, a') ∧ quota_ok a' (g :: open_) ∧ ad_budget a' = ad_budget a ∧ speaks server ver) ∨ admit_connect server req a = Ret (GrantRefused, a).
Proof.
  intros [Q1 Q2 Q3 Q4] Hb. unfold admit_connect. destruct (req_decode req) as [r|] eqn:Er; [|by right]. destruct (req_encode_decode _ _ Hb Er) as [_ Hr]. pose proof (negotiate_spec (cr_versions r) server) as Hn. destruct (negotiate _ _) as [ver|]; [|by right]. destruct Hn as (_ & Hv & _).
  unfold admission_admit, remaining. rewrite decide_True by done. destruct (cr_requested_window r <=? ad_budget a - ad_granted a) eqn:El; [|by right]. apply Z.leb_le in El. rewrite decide_True by lia. left. eexists _, _, _. split; [reflexivity|]. split_and!; [|done|done]. split; cbn; [done|lia|lia|constructor; [cbn; lia|done]].
Qed.
(** A request is granted exactly when it decodes, some version is spoken by both and the
    window fits what is left. *)
Lemma admit_connect_exact server req a open_ :
  quota_ok a open_ → is_bytes req →
  match admit_connect server req a with
  | Ret (Granted g ver, a') => ∃ q, req_decode req = Some q ∧ wg_size g = cr_requested_window q ∧ ad_granted a' = ad_granted a + wg_size g ∧
      ad_granted a' ≤ ad_budget a ∧ speaks (cr_versions q) ver ∧ speaks server ver ∧ ∀ v, speaks (cr_versions q) v → speaks server v → v ≤ ver
  | Ret (GrantRefused, a') => a' = a ∧ ∀ q, req_decode req = Some q →
      (∀ v, speaks (cr_versions q) v → ¬ speaks server v) ∨ ad_budget a < ad_granted a + cr_requested_window q
  | _ => False
  end.
Proof.
  intros [Q1 Q2 Q3 Q4] Hb. unfold admit_connect. destruct (req_decode req) as [r|] eqn:Er; [|done].
  destruct (req_encode_decode _ _ Hb Er) as [_ Hr]. pose proof (negotiate_spec (cr_versions r) server) as Hn.
  destruct (negotiate _ _) as [ver|]; [|split; [done|intros q [= <-]; by left]]. destruct Hn as (H1 & H2 & H3).
  unfold admission_admit, remaining. rewrite decide_True by done. destruct (Z.leb_spec (cr_requested_window r) (ad_budget a - ad_granted a)).
  - rewrite decide_True by lia. exists r. cbn. split_and!; try done; lia.
  - split; [done|]. intros q [= <-]. right. lia.
Qed.
Lemma release_spec a g open1 open2 : quota_ok a (open1 ++ g :: open2) → quota_ok (release g a) (open1 ++ open2).
Proof.
  intros [Q1 Q2 Q3 Q4]. apply Forall_app in Q4 as [S1 [Sg S2]%Forall_cons].
  assert (∀ l x, foldr (λ g n, wg_size g + n) x l = foldr (λ g n, wg_size g + n) 0 l + x) as Hx by (intros l x; induction l as [|y l IH]; cbn; lia). rewrite foldr_app in Q2. cbn [foldr] in Q2. rewrite (Hx open1) in Q2. pose proof (sum_nonneg _ S1). pose proof (sum_nonneg _ S2).
  split; cbn [release ad_budget ad_granted]; [done|rewrite foldr_app, (Hx open1); lia|lia|by apply Forall_app].
Qed.

(** ** The reactor *)

(** A slot is registered exactly when its bit is taken. *)
Record reactor_ok (rc : Reactor) : Prop := {
  ro_len : length (rc_slots rc) = WORD_BITS;
  ro_used : 0 ≤ rc_used rc ≤ U64_MAX;
  ro_pending : 0 ≤ rc_pending rc ≤ U64_MAX;
  ro_coherent b : (b < 64)%nat → (∃ r, rc_slots rc !! b = Some (Some r)) ↔ Z.testbit (rc_used rc) (Z.of_nat b) = true;
}.
Lemma tz_spec w left : ∀ i, 0 ≤ i → let b := tz_from left i w in i ≤ b ≤ i + Z.of_nat left ∧ (∀ j, i ≤ j < b → Z.testbit w j = false) ∧ (b < i + Z.of_nat left → Z.testbit w b = true).
Proof.
  induction left as [|left IH]; intros i Hi; cbn [tz_from]; cbv zeta; [split_and!; lia|]. destruct (Z.testbit w i) eqn:E; [split_and!; (done || lia)|]. destruct (IH (i + 1) ltac:(lia)) as (H1 & H2 & H3). split_and!; [lia|lia| |intros; apply H3; lia].
  intros j Hj. destruct (decide (j = i)) as [->|]; [done|apply H2; lia].
Qed.
Lemma bit_below w : 0 ≤ w ≤ U64_MAX → ∀ j, 64 ≤ j → Z.testbit w j = false.
Proof.
  intros Hw j Hj. destruct (decide (w = 0)) as [->|]; [apply Z.bits_0|]. apply Z.bits_above_log2; [lia|]. apply Z.log2_lt_pow2; [lia|]. apply Z.lt_le_trans with (2 ^ 64); [unfold U64_MAX in Hw; lia|]. apply Z.pow_le_mono_r; lia.
Qed.
(** The lowest set bit of a word that is not zero. *)
Lemma trailing_spec w : 0 ≤ w ≤ U64_MAX → w ≠ 0 → 0 ≤ trailing_zeros_u64 w < 64 ∧ Z.testbit w (trailing_zeros_u64 w) = true ∧ ∀ j, 0 ≤ j < trailing_zeros_u64 w → Z.testbit w j = false.
Proof.
  intros Hw Hn. destruct (tz_spec w WORD_BITS 0 ltac:(lia)) as (H1 & H2 & H3). fold (trailing_zeros_u64 w) in *. change (0 + Z.of_nat WORD_BITS) with 64 in *. destruct (decide (trailing_zeros_u64 w = 64)) as [E|]; [|split_and!; (lia || done || apply H3; lia)].
  destruct Hn. apply Z.bits_inj'. intros j Hj. rewrite Z.bits_0. destruct (decide (j < 64)); [apply H2; lia|apply bit_below; [done|lia]].
Qed.
Lemma inverted_bit w j : 0 ≤ w ≤ U64_MAX → 0 ≤ j < 64 → Z.testbit (U64_MAX - w) j = negb (Z.testbit w j).
Proof.
  intros Hw Hj. change U64_MAX with (Z.ones 64) in *. assert (Z.ldiff w (Z.ones 64) = 0) as E.
  { destruct (decide (w = 0)) as [->|]; [apply Z.ldiff_0_l|]. apply Z.ldiff_ones_r_low; [lia|]. apply Z.log2_lt_pow2; [lia|]. change (Z.ones 64) with (2 ^ 64 - 1) in Hw. lia. }
  rewrite Z.sub_nocarry_ldiff by done. rewrite Z.ldiff_spec, Z.ones_spec_low by lia. done.
Qed.
Lemma clear_spec used : 0 ≤ used ≤ U64_MAX →
  match lowest_clear_bit used with
  | Some b => 0 ≤ b < 64 ∧ Z.testbit used b = false ∧ ∀ j, 0 ≤ j < b → Z.testbit used j = true
  | None => used = U64_MAX
  end.
Proof.
  intros Hu. unfold lowest_clear_bit. cbv zeta. destruct (decide (used = U64_MAX)) as [->|Hn]; [done|]. destruct (trailing_spec (U64_MAX - used)) as (H1 & H2 & H3); [lia|lia|]. rewrite (proj2 (Z.eqb_neq _ _)) by lia. split_and!; [lia|lia| |].
  - rewrite inverted_bit in H2 by (done || lia). by destruct (Z.testbit used _).
  - intros j Hj. specialize (H3 j Hj). rewrite inverted_bit in H3 by (done || lia). by destruct (Z.testbit used j).
Qed.
(** [used | mask], for words. *)
Lemma lor_range a b : 0 ≤ a ≤ U64_MAX → 0 ≤ b ≤ U64_MAX → 0 ≤ Z.lor a b ≤ U64_MAX.
Proof.
  intros Ha Hb. assert (0 ≤ Z.lor a b) as H0 by (apply Z.lor_nonneg; lia). split; [done|]. destruct (decide (Z.lor a b = 0)) as [->|]; [done|]. assert (Z.log2 (Z.lor a b) < 64) as Hl.
  { rewrite Z.log2_lor by lia. apply Z.max_lub_lt; (eapply Z.le_lt_trans; [apply Z.log2_le_mono with (b := U64_MAX); lia|done]). }
  apply Z.log2_lt_pow2 in Hl; [|lia]. change (2 ^ 64) with (U64_MAX + 1) in Hl. lia.
Qed.
Lemma shift_range b : 0 ≤ b < 64 → 0 ≤ Z.shiftl 1 b ≤ U64_MAX.
Proof. intros Hb. rewrite Z.shiftl_1_l. split; [apply Z.pow_nonneg; lia|]. assert (2 ^ b ≤ 2 ^ 63) by (apply Z.pow_le_mono_r; lia). change (2 ^ 63) with 9223372036854775808 in *. unfold U64_MAX. lia. Qed.

Lemma register_spec bind_answer source signals key rc r acts rc' :
  reactor_ok rc → reactor_register bind_answer source signals key rc = (r, acts, rc') →
  reactor_ok rc' ∧
  match r with
  | Ok _ => ∃ b, 0 ≤ b < 64 ∧ Z.testbit (rc_used rc) b = false ∧ (∀ j, 0 ≤ j < b → Z.testbit (rc_used rc) j = true) ∧ last acts = Some (ActSignal (Z.shiftl 1 b)) ∧
      rc_used rc' = Z.lor (rc_used rc) (Z.shiftl 1 b) ∧ rc_slots rc' = <[Z.to_nat b := Some (MkReg key signals)]> (rc_slots rc) ∧ rc_pending rc' = rc_pending rc
  | Err _ => rc' = rc
  end.
Proof.
  intros V. pose proof V as [L U P C]. unfold reactor_register, register_into, alloc_lowest. pose proof (clear_spec _ U) as Hc. destruct (lowest_clear_bit (rc_used rc)) as [b|]; [|by intros [= <- <- <-]]. destruct Hc as (Hb & Hf & Hl). cbv zeta.
  destruct (bind_all _ _ _ _ _) as [[u|e] acts1]; [|by intros [= <- <- <-]]. intros [= <- <- <-]. split; [|exists b; split_and!; [lia|lia|done|done|by rewrite last_snoc|done|done|done]].
  split; cbn [rc_slots rc_used rc_pending]; [by rewrite length_insert|apply lor_range; [done|by apply shift_range]|done|]. intros k Hk. rewrite Z.lor_spec, Z.shiftl_1_l. destruct (decide (Z.of_nat k = b)) as [<-|Hn].
  - rewrite Z.pow2_bits_true, orb_true_r by lia. rewrite Nat2Z.id. split; [done|]. intros _. eexists. apply list_lookup_insert_eq. unfold WORD_BITS in L. lia.
  - rewrite Z.pow2_bits_false, orb_false_r by done. rewrite list_lookup_insert_ne by lia. by apply C.
Qed.

(** [bits & (bits - 1)] clears the lowest set bit. *)
Lemma pop_lowest w b j : 0 ≤ w → 0 ≤ b → Z.testbit w b = true → (∀ i, 0 ≤ i < b → Z.testbit w i = false) → 0 ≤ j → Z.testbit (Z.land w (w - 1)) j = Z.testbit w j && negb (j =? b).
Proof.
  intros Hw Hb Ht Hl Hj. rewrite Z.land_spec. assert (2 ^ b ≠ 0) by (apply Z.pow_nonzero; lia). assert (0 < 2 ^ b) by (apply Z.pow_pos_nonneg; lia).
  assert (w mod 2 ^ b = 0) as Hm. { apply Z.bits_inj'. intros i Hi. rewrite Z.bits_0. destruct (decide (i < b)); [rewrite Z.mod_pow2_bits_low by lia; apply Hl; lia|apply Z.mod_pow2_bits_high; lia]. }
  assert (w = 2 ^ b * (w / 2 ^ b)) as Ew by (pose proof (Z.div_mod w (2 ^ b)); lia). set (q := w / 2 ^ b) in *. assert (Z.odd q = true) as Ho. { unfold q. rewrite <-Z.shiftr_div_pow2 by done. rewrite <-Z.bit0_odd, Z.shiftr_spec by done. by rewrite Z.add_0_l. }
  destruct (Z.lt_trichotomy j b) as [Hlt|[->|Hgt]].
  - by rewrite Hl by lia.
  - rewrite Z.eqb_refl, andb_false_r. assert (Z.testbit (w - 1) b = false) as ->; [|apply andb_false_r]. rewrite Z.testbit_odd, Z.shiftr_div_pow2 by done. assert ((w - 1) / 2 ^ b = q - 1) as ->; [|rewrite Z.sub_1_r, Z.odd_pred, <-Z.negb_odd, Ho; done]. symmetry. apply (Z.div_unique_pos _ _ _ (2 ^ b - 1)); lia.
  - rewrite (proj2 (Z.eqb_neq j b)) by lia. cbn [negb]. rewrite andb_true_r. assert (Z.testbit (w - 1) j = Z.testbit w j) as ->; [|apply andb_diag].
    replace j with ((j - (b + 1)) + (b + 1)) by lia. rewrite <-!Z.shiftr_spec by lia. f_equal. rewrite !Z.shiftr_div_pow2 by lia. rewrite Z.pow_add_r by lia. change (2 ^ 1) with 2. rewrite <-!Z.div_div by lia. fold q. assert ((w - 1) / 2 ^ b = q - 1) as ->; [symmetry; apply (Z.div_unique_pos _ _ _ (2 ^ b - 1)); lia|]. apply Z.odd_spec in Ho as [m ->]. lia.
Qed.
Lemma land_word_range a b : 0 ≤ a ≤ U64_MAX → 0 ≤ Z.land a b ≤ U64_MAX.
Proof.
  intros Ha. assert (0 ≤ Z.land a b) by (apply Z.land_nonneg; lia). split; [done|]. apply Z.le_trans with a; [|lia].
  assert (Z.ldiff (Z.land a b) a = 0) as E. { apply Z.bits_inj'. intros j Hj. rewrite Z.ldiff_spec, Z.land_spec, Z.bits_0. by destruct (Z.testbit a j), (Z.testbit b j). }
  apply Z.sub_nocarry_ldiff in E. assert (0 ≤ Z.ldiff a (Z.land a b)) by (apply Z.ldiff_nonneg; lia). lia.
Qed.
Lemma claim_spec key fuel : ∀ bits slots i, 0 ≤ bits ≤ U64_MAX → 0 ≤ i ≤ 64 → 65 - i ≤ Z.of_nat fuel → (∀ j, 0 ≤ j < i → Z.testbit bits j = false) → length slots = WORD_BITS →
  ∃ out, claim_bits fuel bits key slots = Ret out ∧ length out = WORD_BITS ∧ ∀ k, (k < 64)%nat → out !! k = if Z.testbit bits (Z.of_nat k) then Some (Some (MkReg key 0)) else slots !! k.
Proof.
  induction fuel as [|fuel IH]; intros bits slots i Hb Hi Hf Hl L; [lia|]. cbn [claim_bits]. destruct (bits =? 0) eqn:E.
  { apply Z.eqb_eq in E as ->. exists slots. split_and!; [done|done|]. intros k _. by rewrite Z.bits_0. }
  apply Z.eqb_neq in E. destruct (trailing_spec bits Hb E) as (H1 & H2 & H3). set (b := trailing_zeros_u64 bits) in *. assert (i ≤ b) as Hib by (destruct (decide (b < i)); [rewrite Hl in H2 by lia; done|lia]).
  pose proof (λ j Hj, pop_lowest bits b j ltac:(lia) ltac:(lia) H2 H3 Hj) as Hpop. destruct (IH (Z.land bits (bits - 1)) (<[Z.to_nat b:=Some (MkReg key 0)]> slots) (b + 1)) as (out & Eo & Lo & Ho); [by apply land_word_range|lia|lia| |by rewrite length_insert|].
  { intros j Hj. rewrite Hpop by lia. destruct (decide (j = b)) as [->|]; [by rewrite Z.eqb_refl, andb_false_r|]. by rewrite H3 by lia. }
  exists out. split_and!; [done|done|]. intros k Hk. rewrite Ho, Hpop by lia. destruct (decide (Z.of_nat k = b)) as [Ek|Ek].
  - rewrite Ek, Z.eqb_refl, andb_false_r, H2. rewrite <-Ek, Nat2Z.id. apply list_lookup_insert_eq. unfold WORD_BITS in L. lia.
  - rewrite (proj2 (Z.eqb_neq _ _)) by done. rewrite andb_true_r, list_lookup_insert_ne by lia. done.
Qed.
(** An external source takes exactly its bits, or none when one of them is taken. *)
Lemma register_bound_spec mask key rc : reactor_ok rc → 0 ≤ mask ≤ U64_MAX →
  ∃ r rc', reactor_register_bound mask key rc = Ret (r, rc') ∧ reactor_ok rc' ∧
  match r with
  | Ok _ => Z.land mask (rc_used rc) = 0 ∧ rc_used rc' = Z.lor (rc_used rc) mask ∧ ∀ k, (k < 64)%nat → rc_slots rc' !! k = if Z.testbit mask (Z.of_nat k) then Some (Some (MkReg key 0)) else rc_slots rc !! k
  | Err e => e = RegTaken ∧ Z.land mask (rc_used rc) ≠ 0 ∧ rc_slots rc' = rc_slots rc ∧ rc_used rc' = rc_used rc
  end.
Proof.
  intros [L U P C] Hm. unfold reactor_register_bound, register_bound_into. destruct (Z.land mask (rc_used rc) =? 0) eqn:E; cbn [negb].
  - apply Z.eqb_eq in E. destruct (claim_spec key 65 mask (rc_slots rc) 0 Hm ltac:(lia) ltac:(lia) ltac:(lia) L) as (out & -> & Lo & Ho). eexists _, _. split; [reflexivity|]. split; [|by split_and!]. split; cbn [rc_slots rc_used rc_pending]; [done|by apply lor_range|done|].
    intros k Hk. rewrite (Ho k Hk), Z.lor_spec. destruct (Z.testbit mask (Z.of_nat k)); [rewrite orb_true_r; split; [done|]; intros _; by eexists|]. rewrite orb_false_r. by apply C.
  - apply Z.eqb_neq in E. eexists _, _. split; [reflexivity|]. split; [|done]. by split.
Qed.

(** Waiting reports the lowest registered bit that is pending; the bits above it stay
    pending, and no word is taken from the notification. *)
Lemma wait_spec words fuel : ∀ rc i b reg,
  reactor_ok rc → 0 ≤ i ≤ 64 → 65 - i ≤ Z.of_nat fuel → (∀ j, 0 ≤ j < i → Z.testbit (rc_pending rc) j = false) →
  0 ≤ b < 64 → Z.testbit (rc_pending rc) b = true → rc_slots rc !! Z.to_nat b = Some (Some reg) → (∀ j, 0 ≤ j < b → Z.testbit (rc_pending rc) j = true → rc_slots rc !! Z.to_nat j = Some None) →
  ∃ rc', reactor_wait fuel words rc = Ret (Some (rg_key reg, rg_signals reg), words, rc') ∧ reactor_ok rc' ∧ rc_slots rc' = rc_slots rc ∧ rc_used rc' = rc_used rc ∧
    ∀ j, 0 ≤ j → Z.testbit (rc_pending rc') j = Z.testbit (rc_pending rc) j && (b <? j).
Proof.
  induction fuel as [|fuel IH]; intros rc i b reg V Hi Hf Hl Hb Ht Hs Hlow; [lia|]. pose proof V as [L U P C]. assert (rc_pending rc ≠ 0) as Hp by (intros E; rewrite E, Z.bits_0 in Ht; done).
  destruct (trailing_spec _ P Hp) as (H1 & H2 & H3). cbn [reactor_wait]. rewrite (proj2 (Z.eqb_neq _ _)) by done. unfold drain_one. set (t := trailing_zeros_u64 (rc_pending rc)) in *. cbv zeta. rewrite decide_True by lia. cbn [rc_slots].
  assert (i ≤ t) as Hit by (destruct (decide (t < i)); [rewrite Hl in H2 by lia; done|lia]). assert (t ≤ b) as Htb by (destruct (decide (b < t)); [rewrite H3 in Ht by lia; done|lia]).
  assert (∀ j, 0 ≤ j → Z.testbit (Z.land (rc_pending rc) (Z.lnot (Z.shiftl 1 t))) j = Z.testbit (rc_pending rc) j && negb (j =? t)) as Hc.
  { intros j Hj. rewrite Z.land_spec, Z.lnot_spec, Z.shiftl_1_l by done. destruct (Z.eqb_spec j t) as [->|]; [by rewrite Z.pow2_bits_true by lia|by rewrite Z.pow2_bits_false by lia]. }
  assert (reactor_ok (MkReactor (rc_slots rc) (rc_used rc) (Z.land (rc_pending rc) (Z.lnot (Z.shiftl 1 t))))) as V' by (split; cbn; [done|done|by apply land_word_range|done]).
  destruct (decide (t = b)) as [Eb|Eb].
  - rewrite Eb, Hs. eexists. split; [reflexivity|]. rewrite <-Eb. split; [exact V'|]. split_and!; [done|done|]. cbn [rc_pending]. intros j Hj. rewrite Hc by done. destruct (Z.ltb_spec t j); destruct (Z.eqb_spec j t); try lia; first [done|by rewrite H3 by lia].
  - rewrite (Hlow t) by (done || lia). destruct (IH _ (t + 1) b reg V') as (rc' & E' & V2 & S2 & U2 & P2); cbn [rc_slots rc_used rc_pending]; [lia|lia| |lia| |done| |].
    + intros j Hj. rewrite Hc by lia. destruct (decide (j = t)) as [->|]; [by rewrite Z.eqb_refl, andb_false_r|by rewrite H3 by lia].
    + rewrite Hc, Ht, (proj2 (Z.eqb_neq _ _)) by lia. done.
    + intros j Hj Hjt. rewrite Hc in Hjt by lia. apply andb_prop in Hjt as [Hjt _]. by apply Hlow.
    + exists rc'. split_and!; [done|done|done|done|]. intros j Hj. rewrite P2 by done. cbn [rc_pending]. rewrite Hc by done. destruct (Z.eqb_spec j t) as [->|]; [|by rewrite andb_true_r]. rewrite (proj2 (Z.ltb_ge b t)) by lia. by rewrite !andb_false_r.
Qed.
