(* ===== verification/UserTheorems.v ===== *)
(** What the parts of the user runtime guarantee: the loader, the startup block, the slot
    allocator, the admission quota and the reactor. *)

From S2P Require Import Prelude Bytes Startup Loader Slots Ipc.

(** ** The loader *)

(** C27: the loader follows its plan. On any bytes and whatever the kernel answers, [prepare]
    returns without a panic: it refuses the image before the first system call, or the image
    has between one and eight segments, exactly the loadable headers of its table, each with
    its file bytes inside the image and inside the pages it is mapped into; then the calls
    made are the plan, all of them when the kernel accepts each, and otherwise up to the
    first one the kernel refuses, whose answer is returned. *)
Theorem spawn_follows_plan (answer : list SysCall → SysCall → Z) (image : list Z) (untyped base slots : Z) :
  is_bytes image → 0 ≤ base → base + 11 ≤ U32_MAX →
  (∃ e, prepare answer image untyped base slots [] = Ret (Err (SpawnElf e), [])) ∨
  ∃ img, elf_parse image = Ret (Ok img) ∧ image_ok image img ∧
    (∀ s, s ∈ take (Z.to_nat (im_nsegments img)) (im_segments img) → ∃ l, page_layout s = Ret (Ok l) ∧ layout_ok s l ∧ pl_page_offset l + sg_filesz s ≤ pl_pages l * PAGE_SIZE) ∧
    let plan := spawn_plan image untyped base slots img in
    (prepare answer image untyped base slots [] = Ret (Ok (MkPrepared base (base + 1) (base + 2) (im_entry img) STACK_TOP), plan) ∧ accepted answer [] plan) ∨
    (∃ j c, plan !! j = Some c ∧ accepted answer [] (take j plan) ∧ answer (take j plan) c < 0 ∧ prepare answer image untyped base slots [] = Ret (Err (SpawnSys (answer (take j plan) c)), take (S j) plan)).
Proof.
  intros Hi Hb Hu. destruct (parse_spec image Hi) as [[e E]|(img & E & V)].
  - left. exists e. unfold prepare. rewrite E. done.
  - right. exists img. split_and!; [done|done| |apply (prepare_performs answer image untyped base slots img Hi E V Hb Hu [])]. intros s Hs. destruct V as [_ _ _ _ Hok]. rewrite Forall_forall in Hok. destruct (Hok s Hs) as [[F1 [F2 F3]] [M1 M2] [A1 A2]].
    pose proof (page_layout_spec s A1 ltac:(lia)) as Hl. rewrite decide_True in Hl by done. destruct Hl as (l & El & Ho). exists l. split_and!; [done|done|]. destruct Ho as [? ? [] []]. lia.
Qed.

(** An executable with one segment: eight bytes of code and eight of zeroes. *)
Definition tiny_elf : list Z :=
  [127; 69; 76; 70; 2; 1] ++ replicate 10 0 ++ u16_le 2 ++ u16_le 183 ++ replicate 4 0 ++ u64_le 2147483648 ++ u64_le 64 ++ replicate 14 0 ++ u16_le 56 ++ u16_le 1 ++ replicate 6 0 ++
  u32_le 1 ++ u32_le 5 ++ u64_le 120 ++ u64_le 2147483648 ++ replicate 8 0 ++ u64_le 8 ++ u64_le 16 ++ replicate 8 0 ++ [99; 111; 100; 101; 99; 111; 100; 101].
Lemma tiny_bytes : is_bytes tiny_elf.
Proof. apply Forall_forall. intros b Hb. assert (forallb (λ b, (0 <=? b) && (b <? 256)) tiny_elf = true) as H by (vm_compute; reflexivity). rewrite forallb_forall in H. specialize (H b). rewrite <-list_elem_of_In in H. specialize (H Hb). unfold is_byte. lia. Qed.
Lemma spawn_follows_plan_witness :
  ∃ img, elf_parse tiny_elf = Ret (Ok img) ∧ im_nsegments img = 1 ∧ (∀ s, s ∈ take (Z.to_nat (im_nsegments img)) (im_segments img) → ∃ l, page_layout s = Ret (Ok l) ∧ layout_ok s l ∧ pl_page_offset l + sg_filesz s ≤ pl_pages l * PAGE_SIZE).
Proof.
  assert (match prepare (λ _ _, 0) tiny_elf 2 8 16 [] with Ret (Ok _, tr) => length tr | _ => 0%nat end = 8%nat) as Hr by (vm_compute; reflexivity).
  assert (match elf_parse tiny_elf with Ret (Ok img) => im_nsegments img | _ => 0 end = 1) as Hn by (vm_compute; reflexivity).
  destruct (spawn_follows_plan (λ _ _, 0) tiny_elf 2 8 16 tiny_bytes ltac:(lia) ltac:(unfold U32_MAX; lia)) as [[e E]|(img & E & _ & Hs & _)]; [rewrite E in Hr; discriminate Hr|]. exists img. rewrite E in Hn. split; [exact E|]. split; [exact Hn|exact Hs].
Defined.

(** ** The startup block *)

(** C28: a startup block crosses the bootstrap channel unchanged. [encode] accepts a block
    with its counts in their arenas exactly when its bytes fit one message and the buffer,
    writes only those bytes, and [decode] of the buffer, whatever follows them, gives back
    a block equal to the one encoded; any other block is refused. *)
Theorem startup_roundtrip (s : Startup) (out : list Z) :
  startup_ok s → len_z out ≤ U64_MAX →
  if decide (len_z (block_bytes s) ≤ MAX_BLOCK ∧ len_z (block_bytes s) ≤ len_z out) then
    ∃ out' s', startup_encode s out = (Ok (len_z (block_bytes s)), out') ∧ length out' = length out ∧ drop (Z.to_nat (len_z (block_bytes s))) out' = drop (Z.to_nat (len_z (block_bytes s))) out ∧
      startup_decode out' = Some s' ∧ startup_ok s' ∧ startup_eq s' s
  else ∃ e out', startup_encode s out = (Err e, out').
Proof.
  intros V Ho. pose proof (encode_spec s out V Ho) as H. destruct (decide _) as [[H1 H2]|]; [|done]. destruct H as (out' & E & L & T & Dr).
  assert (out' = block_bytes s ++ drop (Z.to_nat (len_z (block_bytes s))) out') as Eo by (rewrite <-T at 1; by rewrite take_drop).
  destruct (block_decode_spec s (drop (Z.to_nat (len_z (block_bytes s))) out') V H1) as (s' & Ed & V' & Eq); [rewrite <-Eo; unfold len_z in *; lia|]. rewrite <-Eo in Ed. exists out', s'. done.
Qed.
Definition sample_block : Startup :=
  MkStartup ([MkGrant 6 (Region 2734686208 4096 0); MkGrant 5 (CapSlot 1); MkGrant 1 (StorageHandle 0); MkGrant 11 (Seed 1 2 3 4)] ++ replicate 4 no_grant) 4 ([[115; 101; 108; 102]; [50; 53; 52]] ++ replicate 6 []) 2 ([[75; 61; 86]] ++ replicate 7 []) 1.
Lemma sample_ok : startup_ok sample_block.
Proof.
  split; [split; [unfold MAX_GRANTS, MAX_ARGV, MAX_ENV; cbn; lia|reflexivity]..|]. change (grants_of sample_block) with [MkGrant 6 (Region 2734686208 4096 0); MkGrant 5 (CapSlot 1); MkGrant 1 (StorageHandle 0); MkGrant 11 (Seed 1 2 3 4)].
  assert (∀ n x, (0 <=? x) && (x <? 256 ^ Z.of_nat n) = true → fits_in n x) as Hf by (intros n x H; unfold fits_in; lia). repeat (apply Forall_cons_2; [cbn [gr_kind kind_ok]; repeat first [apply Hf; reflexivity|apply conj]|]). apply Forall_nil_2.
Qed.
Lemma startup_roundtrip_witness : ∃ out' s', startup_encode sample_block (replicate 300 0) = (Ok (len_z (block_bytes sample_block)), out') ∧ startup_decode out' = Some s' ∧ startup_eq s' sample_block.
Proof.
  pose proof (startup_roundtrip sample_block (replicate 300 0) sample_ok ltac:(vm_compute; discriminate)) as H. rewrite decide_True in H by (split; vm_compute; discriminate). destruct H as (out' & s' & E & _ & _ & Ed & _ & Eq). exists out', s'. split; [exact E|]. split; [exact Ed|exact Eq].
Defined.

(** ** Slots *)

(** C29: a range of slots is the first that fits, and freeing it gives it back. [alloc_range]
    of [n] slots returns the lowest run of [n] free slots of the window and marks exactly
    it used, or finds that there is none and changes nothing; [free_range] of the range it
    returned succeeds, with no double free, and leaves exactly the slots free that were. *)
Theorem slot_ranges_exact (a : SlotAlloc) (n : Z) :
  slots_ok a → 0 < n →
  ∃ r a', slot_alloc_range n a = Ret (r, a') ∧
    match r with
    | Some s => ∃ j, s = sl_base a + j ∧ free_run a j n ∧ (∀ k, k < j → ¬ free_run a k n) ∧ marked (λ k, j ≤ k < j + n) false a a' ∧
        ∃ a'', slot_free_range s n a' = Ret (tt, a'') ∧ slots_ok a'' ∧ ∀ i, 0 ≤ i < sl_cap a → free_bit a'' i = free_bit a i
    | None => a' = a ∧ ∀ k, ¬ free_run a k n
    end.
Proof.
  intros V Hn. destruct (wp_inv _ _ _ (alloc_range_spec a n V Hn)) as (r & a' & E & H). exists r, a'. split; [done|]. destruct r as [s|]; [|done]. destruct H as (j & -> & Hf & Hlow & M). exists j. split_and!; [done|done|done|done|]. pose proof M as [(E1 & E2 & E3) M1 M2]. destruct Hf as (F1 & F2 & F3). pose proof (marked_ok _ _ _ _ V M) as V'.
  destruct (wp_inv _ _ _ (free_range_spec a' j n V' F1 ltac:(lia) ltac:(lia) ltac:(intros k Hk; apply M1; lia))) as ([] & a'' & Ef & M'). rewrite E1 in Ef. exists a''. split_and!; [done|by apply (marked_ok _ _ _ _ V' M')|]. pose proof M' as [_ K1 K2]. intros i Hi. destruct (decide (j ≤ i < j + n)) as [Hin|Hin].
  - rewrite K1, F3 by (done || lia). done.
  - rewrite K2, M2 by (done || lia). done.
Qed.
Lemma slot_ranges_exact_witness :
  ∃ a', slot_alloc_range 70 (MkSlots 8 100 [U64_MAX; 68719476735]) = Ret (Some 8, a') ∧ ∃ a'', slot_free_range 8 70 a' = Ret (tt, a'') ∧ ∀ i, 0 ≤ i < 100 → free_bit a'' i = free_bit (MkSlots 8 100 [U64_MAX; 68719476735]) i.
Proof.
  destruct (slot_ranges_exact (MkSlots 8 100 [U64_MAX; 68719476735]) 70) as (r & a' & E & H); [split; cbn; unfold U32_MAX; lia|lia|]. assert (match slot_alloc_range 70 (MkSlots 8 100 [U64_MAX; 68719476735]) with Ret (r, _) => r | _ => None end = Some 8) as Hr by (vm_compute; reflexivity). rewrite E in Hr. subst r.
  destruct H as (j & _ & _ & _ & _ & a'' & Ef & _ & Hb). exists a'. split; [exact E|]. exists a''. split; [exact Ef|exact Hb].
Defined.

(** ** Admission *)

(** A server admits and releases windows. *)
Inductive quota_step : Admission * list WindowGrant → Admission * list WindowGrant → Prop :=
| quota_admit server req a open_ g ver a' : is_bytes req → admit_connect server req a = Ret (Granted g ver, a') → quota_step (a, open_) (a', g :: open_)
| quota_refuse server req a open_ a' : is_bytes req → admit_connect server req a = Ret (GrantRefused, a') → quota_step (a, open_) (a', open_)
| quota_release a g open1 open2 : quota_step (a, open1 ++ g :: open2) (release g a, open1 ++ open2).
Lemma quota_run x y : rtc quota_step x y → quota_ok x.1 x.2 → quota_ok y.1 y.2 ∧ ad_budget y.1 = ad_budget x.1.
Proof.
  induction 1 as [x|x y z Hs _ IH]; [done|]. intros Q.
  assert (quota_ok y.1 y.2 ∧ ad_budget y.1 = ad_budget x.1) as [Q' E].
  { destruct Hs as [server req a1 o g ver a' Hr Ea|server req a1 o a' Hr Ea|a1 g o1 o2]; cbn in *; [| |split; [by apply release_spec|done]];
      destruct (admit_connect_spec server req a1 o Q Hr) as [(g' & ver' & a2 & Ea' & Q' & Eb & _)|Ea']; rewrite Ea' in Ea; simplify_eq; done. }
  destruct (IH Q') as [Q'' E']. split; [exact Q''|congruence].
Qed.

(** C40: the window quota. In every run of a server that admits sessions and releases them,
    what is granted is the sum of the windows of the open sessions and at most the budget,
    and every request, whatever its bytes, is answered without a panic: it is granted
    exactly when it decodes, the client and the server share a version and the window fits
    what is left, then at the highest shared version; a refusal changes nothing. *)
Theorem quota_exact (budget : Z) (a : Admission) (open_ : list WindowGrant) (server : VersionRange) (req : list Z) :
  0 ≤ budget ≤ U32_MAX → rtc quota_step (Admission_new budget, []) (a, open_) → is_bytes req →
  ad_budget a = budget ∧ ad_granted a = foldr (λ g n, wg_size g + n) 0 open_ ∧ ad_granted a ≤ budget ∧
  match admit_connect server req a with
  | Ret (Granted g ver, a') => ∃ q, req_decode req = Some q ∧ wg_size g = cr_requested_window q ∧ ad_granted a' = ad_granted a + wg_size g ∧
      ad_granted a' ≤ budget ∧ speaks (cr_versions q) ver ∧ speaks server ver ∧ ∀ v, speaks (cr_versions q) v → speaks server v → v ≤ ver
  | Ret (GrantRefused, a') => a' = a ∧ ∀ q, req_decode req = Some q →
      (∀ v, speaks (cr_versions q) v → ¬ speaks server v) ∨ budget < ad_granted a + cr_requested_window q
  | _ => False
  end.
Proof.
  intros Hb Hr Hreq. destruct (quota_run _ _ Hr) as [Q E]; [split; cbn; [done|done|lia|constructor]|]. cbn in Q, E.
  pose proof (admit_connect_exact server req a open_ Q Hreq) as H. destruct Q as [Q1 Q2 Q3 Q4]. rewrite E in *. by split_and!.
Qed.

(** Of a budget of ten, a window of four is granted; one of seven is then refused and one of
    six granted. *)
Definition demo_range : VersionRange := MkRange 1 3.
Lemma quota_exact_witness :
  let a := MkAdm 10 4 in let ask n := req_encode (MkConnect n (MkRange 2 5)) in
  rtc quota_step (Admission_new 10, []) (a, [MkWindow 0 4]) ∧
  admit_connect demo_range (ask 7) a = Ret (GrantRefused, a) ∧ admit_connect demo_range (ask 6) a = Ret (Granted (MkWindow 0 6) 3, MkAdm 10 10) ∧
  (∀ v, speaks (MkRange 2 5) v → speaks demo_range v → v ≤ 3).
Proof.
  intros a ask. assert (rtc quota_step (Admission_new 10, []) (a, [MkWindow 0 4])) as Hr.
  { apply rtc_once, (quota_admit demo_range (ask 4) _ _ _ 3); [apply (bool_decide_unpack _); vm_compute; reflexivity|vm_compute; reflexivity]. }
  assert (is_bytes (ask 6)) as Hb by (apply (bool_decide_unpack _); vm_compute; reflexivity).
  split; [exact Hr|]. split; [vm_compute; reflexivity|]. split; [vm_compute; reflexivity|].
  destruct (quota_exact 10 a [MkWindow 0 4] demo_range (ask 6)) as (_ & _ & _ & H); [split; vm_compute; discriminate|exact Hr|exact Hb|].
  assert (admit_connect demo_range (ask 6) a = Ret (Granted (MkWindow 0 6) 3, MkAdm 10 10)) as E by (vm_compute; reflexivity).
  rewrite E in H. destruct H as (q & Hq & _ & _ & _ & _ & _ & Hmax). assert (req_decode (ask 6) = Some (MkConnect 6 (MkRange 2 5))) as E' by (vm_compute; reflexivity).
  rewrite E' in Hq. injection Hq as <-. exact Hmax.
Defined.
